(* ===== verification/_CoqProject ===== *)
-Q . S2P
Prelude.v
Lists.v
Bytes.v
Sha1.v
Handle.v
Iol.v
World.v
Cr.v
Chan.v
Chanspec.v
Bundle.v
Rbtree.v
Rbheap.v
Rbspec.v
Rbtimers.v
Sched.v
Pollspec.v
Waitspec.v
Waiters.v
Poll.v
Kqueue.v
Bundlespec.v
Stack.v
Now.v
Ctx.v
HappyEyeballs.v
Happyspec.v
Sock.v
Loop.v
Prefix.v
Suffix.v
Term.v
Http.v
Httpspec.v
Stream.v
Ws.v
Wsspec.v
Wsframe.v
Wsrecv.v
Wsattach.v
Ipaddr.v
Ipaddrspec.v
Fd.v
Tcp.v
Ipc.v
Udp.v
Fdspec.v
Fdrecv.v
Tcpspec.v
Tcpnet.v
Wsnet.v
Socks5.v
Socks5spec.v
Tls.v
Tlsspec.v
Tlsdemo.v
