(* ===== verification/Prelude.v ===== *)
(** A model of libdill and its verification.

    libdill is a C library of structured concurrency: coroutines that are scheduled
    cooperatively within a thread, channels between them, handles for the objects they own,
    and network protocols as sockets stacked on each other.  This library translates the C
    code into executable Rocq definitions, keeps the names of the C functions, and proves
    what the code promises.

    * The parts of the program, and the files that model them

    - [Lists]: the intrusive containers ([list.h], [slist.h], [qlist.h]) as cells of a store.
    - [Bytes], [Sha1]: the byte codecs, base64 and SHA-1 of [utils.c].
    - [Handle]: the table of handles of [handle.c], over the interface [HandleEnv] of what it
      needs from the rest of the library.
    - [Iol]: the scatter/gather lists of [iol.c], nodes and bytes of C memory.
    - [World], [Cr], [Chan], [Bundle], [Sched]: the runtime of a thread.  [World] is the state
      of [ctx.h] and the monad [M] in which coroutines run: a computation finishes, crashes
      (undefined behaviour, or a failed [dill_assert]), suspends in [dill_wait], or starts a
      coroutine.  [Cr] holds clauses, timers, triggering and cancellation ([cr.c]), [Chan] the
      channels ([chan.c]), [Bundle] bundles and the life of a coroutine ([cr.c]), [Sched] the
      pollset ([epoll.c.inc]), the loop of [dill_wait] and the waiting functions of
      [libdill.c].
    - [Waiters], [Poll], [Kqueue]: the other two back ends of the pollset ([poll.c.inc],
      [kqueue.c.inc]), over the interface [Waiters] of what a pollset needs of [cr.c] (waiting
      for a clause, triggering one); the runtime above is an instance of it.
    - [Rbtree]: the red-black tree of the timers ([rbtree.c]) on a store of items.  The
      runtime above is modelled over the sorted list [w_timers]; that the tree is this list
      is proved in [Rbtimers].
    - [Sock]: the sockets of the library.  [IO] is the monad in which the functions of the
      protocols run: memory, nodes of scatter lists, the objects of the protocols, handles,
      [errno], and a network [N] that is a parameter, accessed through the class [Net]
      ([bsock.c], [msock.c] dispatch to the objects).  [Loop] is an instance for examples.
    - [Prefix], [Suffix], [Term], [Http], [Ws], [Wsattach], [Socks5]: the protocols
      ([prefix.c], [suffix.c], [term.c], [http.c], [ws.c], [socks5.c]), every function of each,
      attaching, detaching and closing included.
    - [Fd], [Tcp], [Ipc], [Udp]: non-blocking descriptors with their input buffer ([fd.c]), and
      the sockets over them ([tcp.c], [ipc.c], [udp.c]), every function of each, over the class
      [Os] of system calls.  [Fd] also holds the steps that the C functions of the three
      repeat; the objects are in the map [fn_objs].  [Tcpnet] makes TCP connections the network
      of [Sock], so that the protocols run over [tcp.c] and [fd.c].
    - [Tls]: TLS over another bytestream ([tls.c]), every function of it, over the class [OpenSsl]
      of the library, which calls back the methods of the custom BIO.
    - [Ipaddr]: addresses and the resolution of names ([ipaddr.c]), over the class [Resolver].
    - [Stack]: the cache of coroutine stacks ([stack.c]), over the class [StackOs] of memory
      allocation and protection.
    - [Now]: the cached clock ([now.c]), over the class [Clock] of the clocks and the cycle counter.
    - [Ctx]: the life of the context of a thread ([ctx.c]), in the three implementations, over the
      interface [CtxParts] of what is initialised and terminated with it.
    - [HappyEyeballs]: connecting to a host with several addresses ([happyeyeballs.c]), over the
      interface [HeEnv] of bundles, channels, resolution and TCP, which the runtime implements.

    Objects that a C function takes by pointer are addresses here, and the state that
    functions share is threaded through them, so that aliasing and writes out of a buffer
    are visible; a dangling or invalid access has no result.

    * What the theorems show

    - Runtime.  [Cr] defines the invariant of clauses, timers, channels and the ready queue;
      [Chanspec.chan_ops_never_crash] is its preservation by everything a coroutine can do
      with channels, and the other theorems of [Chanspec] are the behaviour of each
      operation, branch by branch.  [Pollspec] and [Waitspec] are about polling and the order
      in which coroutines are resumed.  [Bundlespec] is about structured concurrency: how a
      coroutine ends, is cancelled, and is waited for.  [Poll.poll_calls_correct] and
      [Kqueue.kqueue_calls_correct] refine the tables of the other back ends to a map from
      descriptors to waiting clauses, for any implementation of [Waiters].
    - Timers.  [Rbheap] describes the store of the tree by a zipper, [Rbspec] verifies the
      loops against it, and [Rbtimers] draws the conclusions: any sequence of operations on
      the tree behaves as on the sorted list, and the tree stays balanced.
    - Data structures.  [Lists], [Handle] and [Iol] refine the C structures to lists, finite
      maps and queues, for arbitrary sequences of operations.  The specification of the handle
      table is a finite map with the queue of unused handles, and covers growing as long as
      no unused handles are lost by it ([hmake_growth_loses_unused] is about when they are).
    - Codecs.  [Sha1] against FIPS 180-4, base64 against RFC 4648 and network byte order, by
      equality with a reference definition and by round trips; base64 has the 32-bit counters
      of the code, and the theorem the bound up to which they are enough.
    - Protocols.  What a message looks like on the wire, that it is received back as it was
      sent, within the buffers of the caller, and how every error is reported: [Prefix],
      [Suffix], [Httpspec], [Wsspec], [Wsframe], [Wsrecv], [Socks5spec].  They are proved against
      the laws [NetLaws] of a bytestream; [Stream] holds the rules for functions with local
      buffers.  A call of a protocol fails only if the bytestream has: the laws name the
      directions of a connection that have failed ([net_infail], [net_outfail]), and below
      [Tcpnet] these are failures that a system call has reported.  The formats of RFC 1928 and
      RFC 6455 are written out in the specifications, independently of the code.  [Fdspec] and [Fdrecv] verify the reading and writing of [fd.c] against the laws
      [OsLaws] of the system calls (short counts, [EAGAIN], failures), and [Tcpspec] concludes
      that a TCP socket delivers and sends exactly the stream.  [Tcpnet] discharges [NetLaws] from
      it and composes the layers: [Tcpnet.prefix_over_tcp_delivers] and
      [Wsnet.ws_over_tcp_delivers] follow a message through PREFIX or a WebSocket, and TCP, from
      one side to the other.  [Tlsspec] proves that the BIO of
      [tls.c] keeps the contract that OpenSSL asks of one, and from the laws [OpenSslLaws] that a
      TLS socket sends and delivers exactly the plaintext; [Tlsdemo] has an instance of the laws
      for examples.  [Ipaddrspec] bounds what the resolution of a name may write, as
      long as the resolver reports none of the errors that the code is not prepared for.
    - Connecting.  [Happyspec] verifies every coroutine of [happyeyeballs.c] in an arbitrary
      environment that keeps the promises of [HeEnv]: the attempts and their order, and that
      no handle is lost.  [HappyEyeballs] ends with whole runs on the runtime.
    - Stacks.  [Stack.stack_cache_correct] is the invariant of the cache and of the memory of
      the stacks, for every sequence of operations.
    - Threads and time.  [Ctx.ctx_lifecycle]: every thread has its own context, initialised before
      it is used and terminated once, unless a call of the system or the initialisation of
      a part fails, which ends the process.  [Now.now_accurate]: time does not go back, and
      how far behind the cache may be.
    - Where the code does not do what it means to, a lemma shows it: handles lost when the
      table grows ([Handle.hmake_growth_loses_unused]), scatter lists spoiled by a failed check
      ([Iol.iolcheck_failure_poisons]), counters that are too narrow ([Bytes.base64_endless]),
      a message truncated ([Suffix.suffix_truncates]) or a crash ([Tcpnet.prefix_stale_last_crashes])
      where the scatter list is not followed properly, errors of the resolver that end the
      process ([Ipaddrspec.resolver_error_crashes]), overflows of local buffers in [ws.c] and [socks5.c], a mask
      that restarts in every buffer ([Wsrecv.ws_mask_restarts]), events that nobody waits for
      ([Poll.stale_events]), a deadline that expires while the last coroutine of a bundle ends
      ([Bundlespec.bundle_wait_race]), a coroutine closed while it closes another one
      ([Bundlespec.nested_close_crashes]), connection attempts that do not wait
      ([HappyEyeballs.attempts_back_to_back]), a failed TLS handshake that is taken for success
      ([Tlsdemo.tls_handshake_failure_ignored]), and handles that outlive the connection they
      stand for ([Tcpspec.tcp_close_leaks], [Tlsdemo.tls_detach_leaks]).

    * Integers, bounds and fuel

    Integers are [Z] with the wrap-around of their C type written where the code can reach
    it ([u8], [u16], [u32], [u64], [s32], [s64]).  Loops that are not structural take fuel, and running out of
    it is a crash, so that a theorem that a function returns includes its termination.  The
    fuel is the number of nodes of the store for loops over lists, the height of the tree for
    [rbtree.c] ([2 log2 (n + 1) + 2] rounds), the number of layers for [dill_hclose], and the
    length of the input for the receiving loops; each theorem says how much is enough.

    * What is not modelled

    - The switch of stacks itself ([setjmp], [longjmp], the assembly of [libdillimpl.h]): a
      suspension of [M] stands for it.
    - The public header [libdill.h]: declarations, and macros that expand to the calls modelled
      here; the tutorials, examples, benchmarks and tests.
    - The closing of the connections of [Tcpnet]: it is about states in which they are open; [Tcp]
      has the function.
    - The system, OpenSSL, the resolver ([dns/], vendored), random numbers and memory allocation
      are parameters with laws.  The laws of epoll leave out that the kernel may run out of
      memory; those of kqueue allow any error, and [Kqueue] says which ones the code survives. *)

From Stdlib Require Import ZArith Lia.
From stdpp Require Import base gmap list strings.

Declare Scope dill_scope.
Delimit Scope dill_scope with dill.
Open Scope Z_scope.

(** * Pointers *)

(** A C pointer.  [NULL] is the only pointer that is never allocated. *)
Abbreviation ptr := Z (only parsing).
Definition NULL : ptr := 0.

(** * Machine integers: a w-bit unsigned value is a [Z], truncated on store. *)
Definition u8 (z : Z) : Z := z mod 2 ^ 8.
Definition u16 (z : Z) : Z := z mod 2 ^ 16.
Definition u32 (z : Z) : Z := z mod 2 ^ 32.
Definition u64 (z : Z) : Z := z mod 2 ^ 64.
(** A C [int] (32 bits, two's complement). *)
Definition s32 (z : Z) : Z := (z + 2 ^ 31) mod 2 ^ 32 - 2 ^ 31.

Lemma s32_small z : 0 ≤ z < 2 ^ 31 → s32 z = z.
Proof. intros H. unfold s32. rewrite Z.mod_small; lia. Qed.
Lemma u32_small z : 0 ≤ z < 2 ^ 32 → u32 z = z.
Proof. apply Z.mod_small. Qed.

(** A [size_t] returned as [ssize_t]. *)
Definition s64 (z : Z) : Z := (z + 2 ^ 63) mod 2 ^ 64 - 2 ^ 63.

Definition is_byte (b : Z) : Prop := 0 ≤ b < 256.
#[export] Instance is_byte_dec b : Decision (is_byte b).
Proof. unfold is_byte. apply _. Defined.

(** * errno values the library sets; [EOTHER] is any other code of the system *)
Inductive errno_t := E0 | EBADF | EINVAL | ECANCELED | ENOMEM | ENOTSUP | ETIMEDOUT | EPIPE
  | EMSGSIZE | ECONNRESET | EPROTO | EBUSY | EEXIST | EACCES | ENAMETOOLONG | EADDRNOTAVAIL
  | EIO | EOTHER (n : Z).
#[export] Instance errno_eq_dec : EqDecision errno_t.
Proof. solve_decision. Defined.

(** * Arithmetic automation *)

(** Linear arithmetic with Euclidean division by constants. *)
Ltac zdm := Z.div_mod_to_equations; nia.

(** Invert every bind of the option monad in the context. *)
Ltac obind :=
  repeat match goal with
  | H : mbind _ _ = Some _ |- _ => apply bind_Some in H; destruct H as (? & ? & H)
  | H : _ <$> _ = Some _ |- _ => apply fmap_Some in H; destruct H as (? & ? & ?)
  end; simplify_eq.

(** Membership in concrete list expressions. *)
Ltac lset :=
  repeat match goal with H : ¬ (_ ∈ _) |- _ => revert H | H : _ ∈ _ |- _ => revert H end;
  repeat setoid_rewrite elem_of_cons; repeat setoid_rewrite elem_of_app;
  repeat setoid_rewrite elem_of_nil; naive_solver.

(** * Bit-level lemmas shared by the byte codecs *)

Lemma lor_add a b : Z.land a b = 0 → Z.lor a b = a + b.
Proof. intros H. rewrite Z.add_nocarry_lxor by done. symmetry. by apply Z.lxor_lor. Qed.

Lemma land_shiftl_small a b n :
  0 ≤ n → 0 ≤ b < 2 ^ n → Z.land (Z.shiftl a n) b = 0.
Proof.
  intros Hn Hb. destruct (decide (b = 0)) as [->|]; [apply Z.land_0_r|].
  apply Z.bits_inj'. intros i Hi.
  rewrite Z.land_spec, Z.bits_0. destruct (decide (i < n)).
  - by rewrite Z.shiftl_spec_low.
  - rewrite (Z.bits_above_log2 b), andb_false_r; [done|lia|].
    apply Z.log2_lt_pow2; [lia|]. apply Z.lt_le_trans with (2 ^ n); [lia|].
    apply Z.pow_le_mono_r; lia.
Qed.

Lemma lor_shiftl_add a b n :
  0 ≤ n → 0 ≤ b < 2 ^ n → Z.lor (Z.shiftl a n) b = a * 2 ^ n + b.
Proof.
  intros. rewrite lor_add by (by apply land_shiftl_small). by rewrite Z.shiftl_mul_pow2.
Qed.

Lemma lor_mul_add a b n : 0 ≤ n → 0 ≤ b < 2 ^ n → Z.lor (a * 2 ^ n) b = a * 2 ^ n + b.
Proof. intros. rewrite <- lor_shiftl_add, Z.shiftl_mul_pow2 by done. done. Qed.

Lemma land_255 z : Z.land z 255 = z mod 256.
Proof. apply (Z.land_ones z 8). lia. Qed.

Lemma land_63 z : Z.land z 63 = z mod 64.
Proof. apply (Z.land_ones z 6). lia. Qed.

Lemma shiftr_div z n : 0 ≤ n → Z.shiftr z n = z / 2 ^ n.
Proof. intros. by apply Z.shiftr_div_pow2. Qed.

Lemma s64_small z : 0 ≤ z < 2 ^ 63 → s64 z = z.
Proof. intros H0. unfold s64. rewrite Z.mod_small by lia. lia. Qed.

(** * Lists *)

Lemma Forall_app_1 {A} (P : A → Prop) l k : Forall P (l ++ k) → Forall P l ∧ Forall P k.
Proof. by rewrite Forall_app. Qed.

Lemma fold_left_inv {A B} (P : A → Prop) (f : A → B → A) l :
  (∀ a b, P a → P (f a b)) → ∀ a, P a → P (fold_left f l a).
Proof. intros Hf. induction l as [|b l IH]; intros a Ha; [done|]. apply IH, Hf, Ha. Qed.

Create HintDb dill.
#[export] Hint Resolve Forall_nil_2 Forall_cons_2 Forall_app_2 : dill.
