(* ===== verification/Lists.v ===== *)
(** Intrusive lists: [list.h] (doubly linked), [slist.h] (a stack) and
    [qlist.h] (a queue).

    The C structures are pointers inside other structures; here the store is a
    finite map from addresses to link cells, and dereferencing an unallocated
    address is [None] (undefined behaviour).  The theorems say that each
    operation is memory safe on a well-formed list and refines the obvious
    operation on Rocq lists, leaving every other cell alone. *)

From S2P Require Import Prelude.
From Stdlib Require Import ZArith Lia.
From stdpp Require Import base gmap list.
Open Scope Z_scope.

(** * Doubly linked lists (list.h) *)

Module Dlist.

Record dill_list := mk_dill_list { next : ptr; prev : ptr }.

Abbreviation heap := (gmap Z dill_list).

Definition get_next (p : ptr) (h : heap) : option ptr := n ← h !! p; Some (next n).
Definition get_prev (p : ptr) (h : heap) : option ptr := n ← h !! p; Some (prev n).
Definition set_next (p v : ptr) (h : heap) : option heap :=
  n ← h !! p; Some (<[p := mk_dill_list v (prev n)]> h).
Definition set_prev (p v : ptr) (h : heap) : option heap :=
  n ← h !! p; Some (<[p := mk_dill_list (next n) v]> h).

(** Initialize the list. *)
Definition dill_list_init (self : ptr) (h : heap) : option heap :=
  h ← set_next self self h;
  set_prev self self h.

(** True if the list has no items except for the head. *)
Definition dill_list_empty (self : ptr) (h : heap) : option bool :=
  n ← get_next self h; Some (bool_decide (n = self)).

(** True if the list has only one item in addition to the head. *)
Definition dill_list_oneitem (self : ptr) (h : heap) : option bool :=
  n ← get_next self h;
  p ← get_prev self h;
  Some (bool_decide (n ≠ self) && bool_decide (n = p)).

Definition dill_list_next (it : ptr) (h : heap) : option ptr := get_next it h.

(** Adds the item to the list before the item pointed to by [before]. *)
Definition dill_list_insert (item before : ptr) (h : heap) : option heap :=
  h ← set_next item before h;
  bp ← get_prev before h;
  h ← set_prev item bp h;
  bp ← get_prev before h;
  h ← set_next bp item h;
  set_prev before item h.

(** Removes the item from the list. *)
Definition dill_list_erase (item : ptr) (h : heap) : option heap :=
  ip ← get_prev item h;
  inx ← get_next item h;
  h ← set_next ip inx h;
  inx ← get_next item h;
  ip ← get_prev item h;
  set_prev inx ip h.

(** ** Representation: the cells [l], in order, on the ring of [head]. *)

Definition link (h : heap) (a b : ptr) : Prop :=
  get_next a h = Some b ∧ get_prev b h = Some a.

Fixpoint seg (h : heap) (a : ptr) (l : list ptr) (b : ptr) : Prop :=
  match l with
  | [] => link h a b
  | x :: l' => link h a x ∧ seg h x l' b
  end.

Definition dlist (h : heap) (head : ptr) (l : list ptr) : Prop :=
  NoDup (head :: l) ∧ seg h head l head.

(** The walk that client code does: collect the items until the head is met. *)
Fixpoint walk (fuel : nat) (h : heap) (head it : ptr) : option (list ptr) :=
  match fuel with
  | O => None
  | S fuel =>
      if decide (it = head) then Some []
      else n ← dill_list_next it h; l ← walk fuel h head n; Some (it :: l)
  end.

(** ** Store lemmas *)

Lemma get_next_insert p n q h :
  get_next q (<[p := n]> h) = if decide (p = q) then Some (next n) else get_next q h.
Proof. unfold get_next. rewrite lookup_insert. by case_decide. Qed.

Lemma get_prev_insert p n q h :
  get_prev q (<[p := n]> h) = if decide (p = q) then Some (prev n) else get_prev q h.
Proof. unfold get_prev. rewrite lookup_insert. by case_decide. Qed.

Lemma set_next_spec p v h :
  is_Some (h !! p) → ∃ h', set_next p v h = Some h' ∧ dom h' = dom h ∧
    (∀ q, get_next q h' = if decide (p = q) then Some v else get_next q h) ∧
    (∀ q, get_prev q h' = get_prev q h).
Proof.
  intros [n Hn]. unfold set_next. rewrite Hn. simpl. eexists; split; [done|].
  split; [rewrite dom_insert_lookup_L; eauto|].
  split; intros q; rewrite ?get_next_insert, ?get_prev_insert; [done|].
  case_decide; [|done]. subst. unfold get_prev. by rewrite Hn.
Qed.

Lemma set_prev_spec p v h :
  is_Some (h !! p) → ∃ h', set_prev p v h = Some h' ∧ dom h' = dom h ∧
    (∀ q, get_next q h' = get_next q h) ∧
    (∀ q, get_prev q h' = if decide (p = q) then Some v else get_prev q h).
Proof.
  intros [n Hn]. unfold set_prev. rewrite Hn. simpl. eexists; split; [done|].
  split; [rewrite dom_insert_lookup_L; eauto|].
  split; intros q; rewrite ?get_next_insert, ?get_prev_insert; [|done].
  case_decide; [|done]. subst. unfold get_next. by rewrite Hn.
Qed.

Lemma get_next_alloc p v h : get_next p h = Some v → p ∈ dom h.
Proof. unfold get_next. intros (n & Hn & _)%bind_Some. by apply elem_of_dom_2 in Hn. Qed.

Lemma get_prev_alloc p v h : get_prev p h = Some v → p ∈ dom h.
Proof. unfold get_prev. intros (n & Hn & _)%bind_Some. by apply elem_of_dom_2 in Hn. Qed.

Lemma get_next_is_Some p h : p ∈ dom h → ∃ v, get_next p h = Some v.
Proof. unfold get_next. intros [n ->]%elem_of_dom. simpl. eauto. Qed.

Lemma get_prev_is_Some p h : p ∈ dom h → ∃ v, get_prev p h = Some v.
Proof. unfold get_prev. intros [n ->]%elem_of_dom. simpl. eauto. Qed.

(** One assignment [p->next = v] or [p->prev = v], with its effect on every
    later read. *)
Ltac store_step Hd Hn Hp :=
  match goal with
  | |- context [set_next ?p ?v ?h] =>
      destruct (set_next_spec p v h) as (? & -> & Hd & Hn & Hp)
  | |- context [set_prev ?p ?v ?h] =>
      destruct (set_prev_spec p v h) as (? & -> & Hd & Hn & Hp)
  end; [|simpl].

(** ** Segments *)

Lemma seg_app h a l1 x l2 b :
  seg h a (l1 ++ x :: l2) b ↔ seg h a l1 x ∧ seg h x l2 b.
Proof. revert a. induction l1 as [|y l1 IH]; intros a; simpl; [done|]. rewrite IH. tauto. Qed.

Lemma seg_frame h h' a l b :
  (∀ p, p ∈ a :: l → get_next p h' = get_next p h) →
  (∀ p, p ∈ l ++ [b] → get_prev p h' = get_prev p h) →
  seg h a l b → seg h' a l b.
Proof.
  revert a. induction l as [|x l IH]; intros a Hn Hp; simpl.
  - intros [? ?]. split; [rewrite Hn|rewrite Hp]; set_solver.
  - intros [[? ?] Hs]. split; [split; [rewrite Hn|rewrite Hp]; set_solver|].
    apply IH; [| |done]; intros; [apply Hn|apply Hp]; set_solver.
Qed.

Lemma seg_dom h a l b : seg h a l b → ∀ p, p ∈ a :: l ++ [b] → p ∈ dom h.
Proof.
  revert a. induction l as [|x l IH]; intros a; simpl.
  - intros [H1%get_next_alloc H2%get_prev_alloc]. set_solver.
  - intros [[H1%get_next_alloc H2] Hs] p [->|Hp]%elem_of_cons; [done|]. by apply (IH x Hs).
Qed.

Lemma hd_in {A} (l : list A) a : hd a l ∈ a :: l.
Proof. destruct l; set_solver. Qed.

(** The last element of a segment that starts at [a]. *)
Definition endp (a : ptr) (l : list ptr) : ptr := default a (last l).

(** [set_solver], with the neighbours of a position abstracted. *)
Ltac rset :=
  repeat match goal with
  | |- context [hd ?a ?l] => generalize dependent (hd a l); intros
  | H : context [hd ?a ?l] |- _ => generalize dependent (hd a l); intros
  | |- context [endp ?a ?l] => generalize dependent (endp a l); intros
  | H : context [endp ?a ?l] |- _ => generalize dependent (endp a l); intros
  end; set_solver.

Lemma endp_cons a x l : endp a (x :: l) = endp x l.
Proof. unfold endp. rewrite last_cons. by destruct (last l). Qed.

Lemma endp_snoc a l x : endp a (l ++ [x]) = x.
Proof. unfold endp. by rewrite last_snoc. Qed.

Lemma endp_in a l : endp a l ∈ a :: l.
Proof.
  unfold endp. destruct (last l) eqn:E; simpl; [|set_solver].
  apply last_Some in E as [k ->]. set_solver.
Qed.

Lemma endp_ne a l : l ≠ [] → endp a l ∈ l.
Proof.
  destruct l using rev_ind; [done|]. intros _. rewrite endp_snoc. set_solver.
Qed.

(** The predecessor of the end of a segment, the successor of its start. *)
Lemma seg_prev h a l b : seg h a l b → get_prev b h = Some (endp a l).
Proof.
  revert a. induction l as [|x l IH]; intros a; simpl; [by intros [_ ?]|].
  intros [_ Hs]. by rewrite (IH _ Hs), endp_cons.
Qed.

Lemma seg_next h a l b : seg h a l b → get_next a h = Some (hd b l).
Proof. destruct l as [|x l]; simpl; [by intros [? _]|by intros [[? _] _]]. Qed.

(** Redirect the end of a segment from [b] to [b']. *)
Lemma seg_retarget h h' a l b b' :
  NoDup (a :: l) → seg h a l b →
  get_next (endp a l) h' = Some b' → get_prev b' h' = Some (endp a l) →
  (∀ q, q ∈ a :: l → q ≠ endp a l → get_next q h' = get_next q h) →
  (∀ q, q ∈ l → get_prev q h' = get_prev q h) →
  seg h' a l b'.
Proof.
  revert a. induction l as [|x l IH]; intros a Hnd Hs Hn Hp Fn Fp; [done|].
  rewrite endp_cons in *. destruct Hs as [[Hax Hxa] Hs]. apply NoDup_cons in Hnd as [Ha Hnd].
  split.
  - split; [|by rewrite Fp by set_solver]. rewrite Fn; [done|set_solver|].
    intros ->. apply Ha, endp_in.
  - apply IH; auto; intros; [apply Fn|apply Fp]; set_solver.
Qed.

(** A segment whose list is split: the first part ends at the head of the
    second. *)
Lemma seg_split h a l1 l2 e :
  seg h a (l1 ++ l2) e →
  seg h a l1 (hd e l2) ∧ match l2 with [] => True | x :: l2' => seg h x l2' e end.
Proof. destruct l2; [by rewrite app_nil_r|]. by rewrite seg_app. Qed.

Lemma store_ext h h' p :
  dom h' = dom h → get_next p h' = get_next p h → get_prev p h' = get_prev p h →
  h' !! p = h !! p.
Proof.
  intros Hd. unfold get_next, get_prev.
  destruct (h !! p) as [[n1 p1]|] eqn:E1, (h' !! p) as [[n2 p2]|] eqn:E2; simpl; try naive_solver.
Qed.

(** ** Specification of the operations *)

Lemma dill_list_init_spec self h :
  self ∈ dom h → ∃ h', dill_list_init self h = Some h' ∧ dlist h' self [] ∧ dom h' = dom h.
Proof.
  intros Hs. unfold dill_list_init.
  store_step Hd1 Hn1 Hp1; [by apply elem_of_dom|].
  store_step Hd2 Hn2 Hp2; [apply elem_of_dom; congruence|].
  eexists; split; [done|]. split; [|congruence].
  split; [apply NoDup_singleton|]. split; simpl.
  - rewrite Hn2, Hn1. by case_decide.
  - rewrite Hp2. by case_decide.
Qed.

Lemma dill_list_empty_spec h head l :
  dlist h head l → dill_list_empty head h = Some (bool_decide (l = [])).
Proof.
  intros [Hnd Hs]. unfold dill_list_empty. rewrite (seg_next _ _ _ _ Hs). simpl. f_equal.
  apply bool_decide_ext. destruct l as [|x l]; simpl; [done|]. apply NoDup_cons in Hnd. set_solver.
Qed.

Lemma dill_list_oneitem_spec h head l :
  dlist h head l → dill_list_oneitem head h = Some (bool_decide (length l = 1%nat)).
Proof.
  intros [Hnd Hs]. unfold dill_list_oneitem.
  rewrite (seg_next _ _ _ _ Hs), (seg_prev _ _ _ _ Hs). simpl. f_equal.
  rewrite <- bool_decide_and. apply bool_decide_ext.
  apply NoDup_cons in Hnd as [Hh Hnd].
  destruct l as [|x [|y l]]; simpl in *; [naive_solver|set_solver|].
  split; [|done]. intros [_ Heq]. exfalso. rewrite !endp_cons in Heq.
  apply NoDup_cons in Hnd as [Hx _]. apply Hx. rewrite Heq. apply endp_in.
Qed.

(** What the assignments of [dill_list_insert] do to the store. *)
Lemma dill_list_insert_effect item b p h :
  item ∈ dom h → b ∈ dom h → p ∈ dom h → get_prev b h = Some p → item ≠ b →
  ∃ h', dill_list_insert item b h = Some h' ∧ dom h' = dom h ∧
    (∀ q, get_next q h' =
      if decide (p = q) then Some item else if decide (item = q) then Some b else get_next q h) ∧
    (∀ q, get_prev q h' =
      if decide (b = q) then Some item else if decide (item = q) then Some p else get_prev q h).
Proof.
  intros Hi Hb Hp Hbp Hib. unfold dill_list_insert.
  store_step Hd1 Hn1 Hp1; [by apply elem_of_dom|]. rewrite Hp1, Hbp. simpl.
  store_step Hd2 Hn2 Hp2; [apply elem_of_dom; congruence|].
  rewrite Hp2, decide_False, Hp1, Hbp by done. simpl.
  store_step Hd3 Hn3 Hp3; [apply elem_of_dom; congruence|].
  edestruct (set_prev_spec b item) as (h' & -> & Hd4 & Hn4 & Hp4);
    [apply elem_of_dom; congruence|].
  exists h'. split; [done|]. split; [congruence|].
  split; intros; by rewrite ?Hn4, ?Hn3, ?Hn2, ?Hn1, ?Hp4, ?Hp3, ?Hp2, ?Hp1.
Qed.

Lemma dill_list_erase_effect x n p h :
  x ∈ dom h → n ∈ dom h → p ∈ dom h → get_next x h = Some n → get_prev x h = Some p → x ≠ p →
  ∃ h', dill_list_erase x h = Some h' ∧ dom h' = dom h ∧
    (∀ q, get_next q h' = if decide (p = q) then Some n else get_next q h) ∧
    (∀ q, get_prev q h' = if decide (n = q) then Some p else get_prev q h).
Proof.
  intros Hx Hn Hp Hxn Hxp Hne. unfold dill_list_erase. rewrite Hxp, Hxn. simpl.
  store_step Hd1 Hn1 Hp1; [by apply elem_of_dom|].
  rewrite Hn1, Hp1, decide_False, Hxn, Hxp by done. simpl.
  edestruct (set_prev_spec n p) as (h' & -> & Hd4 & Hn4 & Hp4);
    [apply elem_of_dom; congruence|].
  exists h'. split; [done|]. split; [congruence|].
  split; intros; by rewrite ?Hn4, ?Hn1, ?Hp4, ?Hp1.
Qed.

(** The rings before and after, as facts about the two stores' links only. *)
Lemma insert_shape h h' head l1 l2 item :
  NoDup (head :: l1 ++ l2) → seg h head (l1 ++ l2) head → item ∉ head :: l1 ++ l2 →
  (∀ q, get_next q h' = if decide (endp head l1 = q) then Some item
     else if decide (item = q) then Some (hd head l2) else get_next q h) →
  (∀ q, get_prev q h' = if decide (hd head l2 = q) then Some item
     else if decide (item = q) then Some (endp head l1) else get_prev q h) →
  seg h' head (l1 ++ item :: l2) head.
Proof.
  intros Hnd Hs Hni Hn Hp. destruct (seg_split _ _ _ _ _ Hs) as [Hs1 Hs2]. clear Hs.
  pose proof (endp_in head l1) as He. pose proof (hd_in l2 head) as Hh.
  apply NoDup_cons in Hnd as [Hh1 Hnd]. apply NoDup_app in Hnd as (Hnd1 & Hdj & Hnd2).
  assert (item ≠ endp head l1) as N1 by (intros ->; clear - He Hni; rset).
  assert (item ≠ hd head l2) as N2 by (intros ->; clear - Hh Hni; rset).
  assert (∀ q, q ∈ l1 → hd head l2 ≠ q) as N3 by (intros q Hq <-; clear - Hdj Hh Hh1 Hq; rset).
  assert (∀ q, q ∈ head :: l1 ++ l2 → item ≠ q) as N4 by (by intros q Hq ->).
  apply seg_app. split.
  - eapply seg_retarget; [|exact Hs1|..].
    + apply NoDup_cons. clear - Hh1 Hnd1. rset.
    + by rewrite Hn, decide_True.
    + by rewrite Hp, decide_False, decide_True.
    + intros q Hq Hne. rewrite Hn, !decide_False; [done| |done].
      apply N4. clear - Hq. rset.
    + intros q Hq. rewrite Hp, !decide_False; [done| |by apply N3].
      apply N4. clear - Hq. rset.
  - assert (link h' item (hd head l2)) as Hl.
    { split; [by rewrite Hn, decide_False, decide_True|by rewrite Hp, decide_True]. }
    destruct l2 as [|x l2]; [done|]. split; [done|]. simpl in *.
    apply NoDup_cons in Hnd2 as [Hx Hnd2].
    eapply seg_frame; [| |exact Hs2]; intros q Hq.
    + rewrite Hn, !decide_False; [done| |].
      * apply N4. clear - Hq. rset.
      * clear - Hq He Hh1 Hdj. rset.
    + rewrite Hp, !decide_False; [done| |].
      * apply N4. clear - Hq. rset.
      * clear - Hq Hx Hh1. rset.
Qed.

Lemma erase_shape h h' head l1 x l2 :
  NoDup (head :: l1 ++ x :: l2) → seg h head (l1 ++ x :: l2) head →
  (∀ q, get_next q h' = if decide (endp head l1 = q) then Some (hd head l2) else get_next q h) →
  (∀ q, get_prev q h' = if decide (hd head l2 = q) then Some (endp head l1) else get_prev q h) →
  seg h' head (l1 ++ l2) head.
Proof.
  intros Hnd Hs Hn Hp. apply seg_app in Hs as [Hs1 Hs2].
  pose proof (endp_in head l1) as He. pose proof (hd_in l2 head) as Hh.
  apply NoDup_cons in Hnd as [Hh1 Hnd]. apply NoDup_app in Hnd as (Hnd1 & Hdj & Hnd2).
  apply NoDup_cons in Hnd2 as [Hx Hnd2].
  assert (seg h' head l1 (hd head l2)) as Hs1'.
  { eapply seg_retarget; [|exact Hs1|..].
    - apply NoDup_cons. clear - Hh1 Hnd1. rset.
    - by rewrite Hn, decide_True.
    - by rewrite Hp, decide_True.
    - intros q Hq Hne. by rewrite Hn, decide_False.
    - intros q Hq. rewrite Hp, decide_False; [done|]. clear - Hh Hq Hdj Hh1. rset. }
  destruct l2 as [|y l2]; [by rewrite app_nil_r|].
  apply seg_app. split; [done|]. destruct Hs2 as [_ Hs2]. simpl in *.
  apply NoDup_cons in Hnd2 as [Hy Hnd2].
  eapply seg_frame; [| |exact Hs2]; intros q Hq.
  - rewrite Hn, decide_False; [done|]. clear - Hq He Hh1 Hdj. rset.
  - rewrite Hp, decide_False; [done|]. clear - Hq Hy Hh1. rset.
Qed.

(** Insertion in front of any position of the ring: [l2 = []] is the append at
    the end that every caller in [chan.c] and [cr.c] uses. *)
Lemma dill_list_insert_spec h head l1 l2 item :
  dlist h head (l1 ++ l2) → item ∈ dom h → item ∉ head :: l1 ++ l2 →
  ∃ h', dill_list_insert item (hd head l2) h = Some h' ∧
    dlist h' head (l1 ++ item :: l2) ∧ dom h' = dom h ∧
    ∀ p, p ∉ item :: head :: l1 ++ l2 → h' !! p = h !! p.
Proof.
  intros [Hnd Hs] Hi Hni.
  pose proof (seg_dom _ _ _ _ Hs) as Hdom.
  pose proof (endp_in head l1) as He. pose proof (hd_in l2 head) as Hh.
  destruct (dill_list_insert_effect item (hd head l2) (endp head l1) h)
    as (h' & Hins & Hd & Hn & Hp).
  - done.
  - apply Hdom. clear - Hh. rset.
  - apply Hdom. clear - He. rset.
  - destruct (seg_split _ _ _ _ _ Hs) as [Hs1 _]. by apply seg_prev in Hs1.
  - clear - Hh Hni. rset.
  - exists h'. split; [done|]. split; [split|split; [done|]].
    + apply NoDup_cons in Hnd as [? (? & ? & ?)%NoDup_app].
      apply NoDup_cons. split; [clear - H Hni; rset|].
      apply NoDup_app. split_and!; [done|clear - H1 Hni; rset|].
      apply NoDup_cons. clear - H2 Hni. rset.
    + by eapply insert_shape.
    + intros q Hq. apply store_ext; [done|rewrite Hn|rewrite Hp];
        rewrite !decide_False; [done| | |done| |]; clear - Hq He Hh; rset.
Qed.

(** Removal of an item from anywhere in the ring.  Its own cell keeps its old
    links, the rest of the store outside the ring is untouched. *)
Lemma dill_list_erase_spec h head l1 x l2 :
  dlist h head (l1 ++ x :: l2) →
  ∃ h', dill_list_erase x h = Some h' ∧ dlist h' head (l1 ++ l2) ∧ dom h' = dom h ∧
    ∀ p, p ∉ head :: l1 ++ l2 → h' !! p = h !! p.
Proof.
  intros [Hnd Hs].
  pose proof (seg_dom _ _ _ _ Hs) as Hdom.
  pose proof (endp_in head l1) as He. pose proof (hd_in l2 head) as Hh.
  apply NoDup_cons in Hnd as Hnd'. destruct Hnd' as [? (? & ? & ?)%NoDup_app].
  destruct (dill_list_erase_effect x (hd head l2) (endp head l1) h) as (h' & Her & Hd & Hn & Hp).
  - apply Hdom. clear. rset.
  - apply Hdom. clear - Hh. rset.
  - apply Hdom. clear - He. rset.
  - apply seg_app in Hs as [_ Hs2]. by apply seg_next in Hs2.
  - apply seg_app in Hs as [Hs1 _]. by apply seg_prev in Hs1.
  - clear - He H H1. rset.
  - exists h'. split; [done|]. split; [split|split; [done|]].
    + apply NoDup_cons in H2 as [? ?]. apply NoDup_cons. split; [clear - H; rset|].
      apply NoDup_app. split_and!; [done|clear - H1; rset|done].
    + by eapply erase_shape.
    + intros q Hq. apply store_ext; [done|rewrite Hn|rewrite Hp];
        rewrite !decide_False; [done| |done|]; clear - Hq He Hh; rset.
Qed.

(** Iteration with [dill_list_next] visits exactly the items, in order. *)
Lemma walk_spec h head l n :
  dlist h head l → (length l < n)%nat → walk n h head (hd head l) = Some l.
Proof.
  intros [Hnd Hs] Hlen. apply NoDup_cons in Hnd as [Hh _].
  assert (∀ a, seg h a l head → walk n h head (hd head l) = Some l) as Hw; [|by eapply Hw].
  clear Hs. revert n Hlen. induction l as [|x l IH]; intros n Hlen a Hs.
  - destruct n; [lia|]. simpl. by case_decide.
  - destruct n; [simpl in Hlen; lia|]. simpl in *. destruct Hs as [_ Hs].
    rewrite decide_False by (clear - Hh; rset).
    unfold dill_list_next. rewrite (seg_next _ _ _ _ Hs). simpl.
    erewrite IH; [done|clear - Hh; rset|lia|done].
Qed.

(** The operations of a client, and what they do to the abstract list; inserting
    before the head of the ring appends. *)
Inductive dop := Insert (item before : ptr) | Erase (item : ptr).

Fixpoint insert_before (item before : ptr) (l : list ptr) : list ptr :=
  match l with
  | [] => [item]
  | x :: l => if decide (x = before) then item :: x :: l else x :: insert_before item before l
  end.

Definition dop_run (o : dop) (h : heap) : option heap :=
  match o with
  | Insert item before => dill_list_insert item before h
  | Erase item => dill_list_erase item h
  end.
Definition dop_spec (o : dop) (l : list ptr) : list ptr :=
  match o with
  | Insert item before => insert_before item before l
  | Erase item => filter (λ x, x ≠ item) l
  end.

Fixpoint dops_run (os : list dop) (h : heap) : option heap :=
  match os with [] => Some h | o :: os => h ← dop_run o h; dops_run os h end.
Definition dops_spec (os : list dop) (l : list ptr) : list ptr := fold_left (λ l o, dop_spec o l) os l.

(** Inserted items are allocated and not linked yet, the others are linked. *)
Definition dop_ok (d : gset Z) (head : ptr) (o : dop) (l : list ptr) : Prop :=
  match o with
  | Insert item before => item ∈ d ∧ item ∉ head :: l ∧ before ∈ head :: l
  | Erase item => item ∈ l
  end.
Fixpoint dops_ok (d : gset Z) (head : ptr) (os : list dop) (l : list ptr) : Prop :=
  match os with
  | [] => True
  | o :: os => dop_ok d head o l ∧ dops_ok d head os (dop_spec o l)
  end.

Lemma insert_before_split item before head l :
  before ∈ head :: l → NoDup (head :: l) →
  ∃ l1 l2, l = l1 ++ l2 ∧ before = hd head l2 ∧ insert_before item before l = l1 ++ item :: l2.
Proof.
  intros Hb Hnd. apply elem_of_cons in Hb as [->|Hb].
  - exists l, []. rewrite app_nil_r. split; [done|]. split; [done|].
    apply NoDup_cons in Hnd as [Hh _]. clear -Hh. induction l as [|x l IH]; [done|]. simpl.
    apply not_elem_of_cons in Hh as [Hx Hl]. rewrite decide_False by congruence. f_equal. by apply IH.
  - clear Hnd. induction l as [|x l IH]; [by apply elem_of_nil in Hb|]. simpl.
    destruct (decide (x = before)) as [->|Hne]; [by exists [], (before :: l)|].
    destruct IH as (l1 & l2 & -> & -> & ->); [rset|]. by exists (x :: l1), l2.
Qed.

Lemma filter_erase (l1 l2 : list ptr) x :
  NoDup (l1 ++ x :: l2) → filter (λ y, y ≠ x) (l1 ++ x :: l2) = l1 ++ l2.
Proof.
  intros Hnd. apply NoDup_app in Hnd as (_ & Hd & Hnd). apply NoDup_cons in Hnd as [Hx _].
  assert (Hid : ∀ l : list ptr, x ∉ l → filter (λ y, y ≠ x) l = l).
  { intros l Hl. induction l as [|y l IH]; [done|]. apply not_elem_of_cons in Hl as [Hy Hl].
    rewrite filter_cons_True by congruence. by rewrite IH. }
  rewrite filter_app, filter_cons_False by tauto. rewrite !Hid; [done|done|].
  intros Hin. apply (Hd x Hin). left.
Qed.

Lemma dop_refines o h head l :
  dlist h head l → dop_ok (dom h) head o l →
  ∃ h', dop_run o h = Some h' ∧ dlist h' head (dop_spec o l) ∧ dom h' = dom h.
Proof.
  intros H Ho. destruct o as [item before|item]; cbn [dop_run dop_spec] in *.
  - destruct Ho as (Hi & Hni & Hb).
    destruct (insert_before_split item before head l Hb (proj1 H)) as (l1 & l2 & -> & -> & ->).
    destruct (dill_list_insert_spec h head l1 l2 item H Hi Hni) as (h' & E & H' & Hd & _). by exists h'.
  - destruct (list_elem_of_split l item Ho) as (l1 & l2 & ->).
    pose proof (proj1 H) as Hnd. apply NoDup_cons in Hnd as [_ Hnd]. rewrite filter_erase by done.
    destruct (dill_list_erase_spec h head l1 item l2 H) as (h' & E & H' & Hd & _). by exists h'.
Qed.

(** C32. The intrusive list of [list.h] implements a list: any sequence of insertions
    (anywhere) of unlinked items and erasures of linked ones runs without touching
    unallocated memory, and afterwards walking the list with [dill_list_next] from
    the head visits exactly the items of the abstract list, in its order. *)
Theorem dlist_refines_list h head l os :
  dlist h head l → dops_ok (dom h) head os l →
  ∃ h', dops_run os h = Some h' ∧ dlist h' head (dops_spec os l) ∧
    ∃ first, dill_list_next head h' = Some first ∧
      walk (S (length (dops_spec os l))) h' head first = Some (dops_spec os l).
Proof.
  revert h l. induction os as [|o os IH]; intros h l H Hok; cbn [dops_run dops_spec fold_left dops_ok] in *.
  - exists h. split; [done|]. split; [done|]. exists (hd head l).
    split; [apply (seg_next _ _ _ _ (proj2 H))|]. apply walk_spec; [done|lia].
  - destruct Hok as [Ho Hok]. destruct (dop_refines o h head l H Ho) as (h1 & -> & H1 & Hd).
    simpl. apply IH; [done|]. by rewrite Hd.
Qed.

(** Items 10, 20, 30 and the head 1. *)
Definition demo_heap : heap :=
  <[1 := mk_dill_list 1 1]> (<[10 := mk_dill_list 0 0]> (<[20 := mk_dill_list 0 0]> {[30 := mk_dill_list 0 0]})).

Lemma dlist_refines_list_witness :
  ∃ h', dops_run [Insert 10 1; Insert 20 1; Insert 30 20; Erase 10] demo_heap = Some h' ∧
    dlist h' 1 [30; 20].
Proof.
  destruct (dlist_refines_list demo_heap 1 [] [Insert 10 1; Insert 20 1; Insert 30 20; Erase 10])
    as (h' & E & H & _).
  - split; [apply NoDup_singleton|]. split; reflexivity.
  - cbn [dops_ok dop_ok dop_spec]. change (insert_before 10 1 []) with [10].
    change (insert_before 20 1 [10]) with [10; 20]. change (insert_before 30 20 [10; 20]) with [10; 30; 20].
    repeat split; try (apply elem_of_dom; eexists; reflexivity);
      repeat (rewrite elem_of_cons || rewrite elem_of_nil || rewrite list_elem_of_filter); simpl; intuition lia.
  - exists h'. split; [exact E|exact H].
Defined.

End Dlist.

(** * Singly linked stacks (slist.h) *)

Module Slist.

(** A cell is its [next] field; it may be [NULL] when the item is on no list. *)
Abbreviation heap := (gmap Z Z).

(** [p->next = v] for an allocated cell. *)
Definition store (p v : ptr) (h : heap) : option heap :=
  _ ← h !! p; Some (<[p := v]> h).

(** Initialize the list. *)
Definition dill_slist_init (self : ptr) (h : heap) : option heap := store self self h.

(** True if the list has no items. *)
Definition dill_slist_empty (self : ptr) (h : heap) : option bool :=
  n ← h !! self; Some (bool_decide (n = self)).

Definition dill_slist_next (it : ptr) (h : heap) : option ptr := h !! it.

(** Push the item to the beginning of the list. *)
Definition dill_slist_push (self item : ptr) (h : heap) : option heap :=
  n ← h !! self;
  h ← store item n h;
  store self item h.

(** Pop an item from the beginning of the list. *)
Definition dill_slist_pop (self : ptr) (h : heap) : option (ptr * heap) :=
  item ← h !! self;
  n ← h !! item;
  h ← store self n h;
  Some (item, h).

(** The cells [l], in order, from [a] to [b]. *)
Fixpoint seg (h : heap) (a : ptr) (l : list ptr) (b : ptr) : Prop :=
  match l with
  | [] => h !! a = Some b
  | x :: l' => h !! a = Some x ∧ seg h x l' b
  end.

Definition slist (h : heap) (self : ptr) (l : list ptr) : Prop :=
  NoDup (self :: l) ∧ seg h self l self.

Lemma store_spec p v h :
  is_Some (h !! p) → store p v h = Some (<[p := v]> h).
Proof. intros [x Hx]. unfold store. by rewrite Hx. Qed.

Lemma sseg_app h a l1 x l2 b :
  seg h a (l1 ++ x :: l2) b ↔ seg h a l1 x ∧ seg h x l2 b.
Proof. revert a. induction l1 as [|y l1 IH]; intros a; simpl; [done|]. rewrite IH. tauto. Qed.

Lemma sseg_frame h h' a l b :
  (∀ p, p ∈ a :: l → h' !! p = h !! p) → seg h a l b → seg h' a l b.
Proof.
  revert a. induction l as [|x l IH]; intros a Hf; simpl.
  - intros. rewrite Hf; [done|set_solver].
  - intros [H1 H2]. split; [rewrite Hf; [done|set_solver]|].
    apply IH; [|done]. intros; apply Hf; set_solver.
Qed.

Lemma sseg_insert_ne h p v a l b : p ∉ a :: l → seg h a l b → seg (<[p := v]> h) a l b.
Proof.
  intros Hp. apply sseg_frame. intros q Hq. apply lookup_insert_ne. by intros ->.
Qed.

Lemma sseg_hd h a l b : seg h a l b → h !! a = Some (hd b l).
Proof. destruct l; simpl; [done|by intros [? _]]. Qed.

Lemma slist_init_spec self h :
  is_Some (h !! self) →
  ∃ h', dill_slist_init self h = Some h' ∧ slist h' self [].
Proof.
  intros Hs. eexists. split; [by apply store_spec|]. split; [apply NoDup_singleton|].
  simpl. apply lookup_insert_eq.
Qed.

Lemma slist_empty_spec h self l :
  slist h self l → dill_slist_empty self h = Some (bool_decide (l = [])).
Proof.
  intros [Hnd Hs]. unfold dill_slist_empty. rewrite (sseg_hd _ _ _ _ Hs). simpl. f_equal.
  apply bool_decide_ext. apply NoDup_cons in Hnd as [Hh _].
  destruct l as [|x l]; simpl; [done|]. set_solver.
Qed.

Lemma slist_push_spec h self l item :
  slist h self l → is_Some (h !! item) → item ∉ self :: l →
  ∃ h', dill_slist_push self item h = Some h' ∧ slist h' self (item :: l) ∧
    ∀ p, p ∉ [self; item] → h' !! p = h !! p.
Proof.
  intros [Hnd Hs] Hi Hni. unfold dill_slist_push.
  pose proof (sseg_hd _ _ _ _ Hs) as Hn. rewrite Hn. simpl.
  rewrite store_spec by done. simpl.
  rewrite store_spec by (rewrite lookup_insert_ne by set_solver; eauto).
  eexists. split; [done|]. apply NoDup_cons in Hnd as [Hself Hnd]. split.
  - split; [rewrite !NoDup_cons; set_solver|]. simpl. split; [apply lookup_insert_eq|].
    apply sseg_insert_ne; [set_solver|]. destruct l as [|x l]; simpl in *.
    + apply lookup_insert_eq.
    + split; [apply lookup_insert_eq|]. apply sseg_insert_ne; [set_solver|]. tauto.
  - intros p Hp. rewrite !lookup_insert_ne by set_solver. done.
Qed.

(** Popping returns the most recently pushed item, or the list itself when it
    is empty, which leaves an empty list. *)
Lemma slist_pop_spec h self l :
  slist h self l →
  ∃ h', dill_slist_pop self h = Some (hd self l, h') ∧ slist h' self (tail l) ∧
    ∀ p, p ≠ self → h' !! p = h !! p.
Proof.
  intros [Hnd Hs]. unfold dill_slist_pop.
  pose proof (sseg_hd _ _ _ _ Hs) as Hn. rewrite Hn. simpl.
  apply NoDup_cons in Hnd as [Hself Hnd].
  destruct l as [|x l]; simpl in *.
  - rewrite Hn. simpl. rewrite store_spec by eauto. simpl. eexists. split; [done|].
    split; [split; [apply NoDup_singleton|apply lookup_insert_eq]|].
    intros. by apply lookup_insert_ne.
  - destruct Hs as [_ Hs]. pose proof (sseg_hd _ _ _ _ Hs) as Hx. rewrite Hx. simpl.
    rewrite store_spec by eauto. simpl. eexists. split; [done|].
    apply NoDup_cons in Hnd as [Hxl Hnd].
    split; [|intros; by apply lookup_insert_ne].
    split; [apply NoDup_cons; set_solver|]. destruct l as [|y l]; simpl in *.
    + apply lookup_insert_eq.
    + split; [apply lookup_insert_eq|]. apply sseg_insert_ne; [set_solver|tauto].
Qed.

End Slist.

(** * Queues (qlist.h) *)

Module Qlist.

Import Slist.

(** The store: the [slist] cells (the one of a queue [self] is its embedded
    [slist] field) and the [last] field of every queue. *)
Record qstore := mk_qstore { cells : gmap Z Z; lasts : gmap Z Z }.

Definition set_last (self v : ptr) (q : qstore) : qstore :=
  mk_qstore (cells q) (<[self := v]> (lasts q)).

(** Initialize the list. *)
Definition dill_qlist_init (self : ptr) (q : qstore) : option qstore :=
  h ← dill_slist_init self (cells q);
  Some (set_last self self (mk_qstore h (lasts q))).

(** True if the list has no items. *)
Definition dill_qlist_empty (self : ptr) (q : qstore) : option bool :=
  n ← cells q !! self; Some (bool_decide (n = self)).

(** Push an item to the end of the list. *)
Definition dill_qlist_push (self item : ptr) (q : qstore) : option qstore :=
  h ← store item self (cells q);
  l ← lasts q !! self;
  h ← store l item h;
  Some (set_last self item (mk_qstore h (lasts q))).

(** Pop an item from the beginning of the list. *)
Definition dill_qlist_pop (self : ptr) (q : qstore) : option (ptr * qstore) :=
  item ← cells q !! self;
  n ← cells q !! item;
  h ← store self n (cells q);
  l ← lasts q !! self;
  let q := mk_qstore h (lasts q) in
  Some (item, if decide (item = l) then set_last self self q else q).

(** The queue holds [l], oldest first, and [last] is its newest item. *)
Definition qlist (q : qstore) (self : ptr) (l : list ptr) : Prop :=
  slist (cells q) self l ∧ lasts q !! self = Some (default self (last l)).

(** A sequence of operations on one queue, as a client issues them. *)
Inductive qop := Push (item : ptr) | Pop.

Definition qop_run (self : ptr) (o : qop) (q : qstore) : option (list ptr * qstore) :=
  match o with
  | Push item => q ← dill_qlist_push self item q; Some ([], q)
  | Pop => '(x, q) ← dill_qlist_pop self q; Some ([x], q)
  end.

Fixpoint qops_run (self : ptr) (os : list qop) (q : qstore) : option (list ptr * qstore) :=
  match os with
  | [] => Some ([], q)
  | o :: os =>
      '(r1, q) ← qop_run self o q;
      '(r2, q) ← qops_run self os q;
      Some (r1 ++ r2, q)
  end.

(** The same operations on an abstract FIFO; popping an empty queue returns the
    queue itself. *)
Fixpoint fifo (self : ptr) (os : list qop) (l : list ptr) : list ptr * list ptr :=
  match os with
  | [] => ([], l)
  | Push x :: os => fifo self os (l ++ [x])
  | Pop :: os => let r := fifo self os (tail l) in (hd self l :: r.1, r.2)
  end.

(** A client may only push an allocated item that is not queued already. *)
Fixpoint pushes_ok (d : gset Z) (self : ptr) (os : list qop) (l : list ptr) : Prop :=
  match os with
  | [] => True
  | Push x :: os => x ∈ d ∧ x ∉ self :: l ∧ pushes_ok d self os (l ++ [x])
  | Pop :: os => pushes_ok d self os (tail l)
  end.

Lemma qlist_init_spec self q :
  is_Some (cells q !! self) →
  ∃ q', dill_qlist_init self q = Some q' ∧ qlist q' self [].
Proof.
  intros Hs. destruct (slist_init_spec _ _ Hs) as (h & Hi & Hr).
  unfold dill_qlist_init. rewrite Hi. simpl. eexists. split; [done|].
  split; [done|]. apply lookup_insert_eq.
Qed.

Lemma qlist_empty_spec q self l :
  qlist q self l → dill_qlist_empty self q = Some (bool_decide (l = [])).
Proof. intros [Hs _]. by apply (slist_empty_spec _ _ _ Hs). Qed.

(** Replacing the end of a chain after its last cell. *)
Lemma qseg_snoc h a l b x :
  NoDup (a :: l) → x ∉ a :: l → seg h a l b → h !! x = Some b →
  seg (<[default a (last l) := x]> h) a (l ++ [x]) b.
Proof.
  revert a. induction l as [|y l IH]; intros a Hnd Hx Hs Hxb; simpl in *.
  - split; [apply lookup_insert_eq|]. rewrite lookup_insert_ne by set_solver. done.
  - destruct Hs as [Ha Hs]. apply NoDup_cons in Hnd as [Hay Hnd].
    replace (default a (last (y :: l))) with (default y (last l))
      by (rewrite last_cons; by destruct (last l)).
    split; [|apply IH; set_solver].
    rewrite lookup_insert_ne; [done|]. intros E0. apply Hay. rewrite <- E0.
    destruct (last l) eqn:E; simpl; [|set_solver]. apply last_Some in E as [k ->]. set_solver.
Qed.

Lemma qseg_last_alloc h a l b : seg h a l b → is_Some (h !! default a (last l)).
Proof.
  revert a. induction l as [|x l IH]; intros a; simpl; [eauto|].
  intros [? Hs]. rewrite last_cons. specialize (IH _ Hs). by destruct (last l).
Qed.

Lemma store_dom p v h h' : store p v h = Some h' → dom h' = dom h.
Proof.
  unfold store. intros (x & Hx & [= <-])%bind_Some. rewrite dom_insert_lookup_L; eauto.
Qed.

Lemma qlist_push_spec q self l item :
  qlist q self l → is_Some (cells q !! item) → item ∉ self :: l →
  ∃ q', dill_qlist_push self item q = Some q' ∧ qlist q' self (l ++ [item]) ∧
    dom (cells q') = dom (cells q).
Proof.
  intros [[Hnd Hs] Hl] Hi Hni. unfold dill_qlist_push.
  rewrite store_spec by done. simpl. rewrite Hl. simpl.
  assert (default self (last l) ∈ self :: l) as Hin.
  { destruct (last l) eqn:E; simpl; [|set_solver]. apply last_Some in E as [k ->]. set_solver. }
  assert (is_Some (cells q !! default self (last l))) as Hld.
  { by eapply qseg_last_alloc. }
  rewrite store_spec by (rewrite lookup_insert_ne by set_solver; done). simpl.
  eexists. split; [done|]. split; [split; [split|]|].
  - apply NoDup_cons in Hnd as [? ?]. apply NoDup_cons. split; [set_solver|].
    apply NoDup_app. split_and!; [done|set_solver|apply NoDup_singleton].
  - apply qseg_snoc; [done|done| |apply lookup_insert_eq].
    apply sseg_insert_ne; [set_solver|done].
  - rewrite last_snoc. apply lookup_insert_eq.
  - simpl. rewrite !dom_insert_lookup_L; [done|done|].
    rewrite lookup_insert_ne by set_solver. done.
Qed.

Lemma qlist_pop_spec q self l :
  qlist q self l →
  ∃ q', dill_qlist_pop self q = Some (hd self l, q') ∧ qlist q' self (tail l) ∧
    dom (cells q') = dom (cells q).
Proof.
  intros [Hs Hl]. destruct (slist_pop_spec _ _ _ Hs) as (h & Hp & Hr & _).
  unfold dill_slist_pop in Hp. unfold dill_qlist_pop.
  apply bind_Some in Hp as (it & -> & Hp). simpl.
  apply bind_Some in Hp as (n & -> & Hp). simpl.
  apply bind_Some in Hp as (h' & Hst & Hp). rewrite Hst. simpl. rewrite Hl. simpl.
  injection Hp as -> ->. eexists. split; [done|].
  apply store_dom in Hst. split; [|by case_decide].
  destruct Hs as [[Hself Hnd]%NoDup_cons _].
  split; [by case_decide|]. destruct l as [|x l]; simpl in *.
  - case_decide; simpl; [apply lookup_insert_eq|done].
  - apply NoDup_cons in Hnd as [Hx _]. rewrite last_cons in *.
    destruct (last l) as [y|] eqn:E; simpl in *.
    + apply last_Some in E as [k ->]. rewrite decide_False by set_solver. done.
    + apply last_None in E as ->. rewrite decide_True by done. apply lookup_insert_eq.
Qed.

(** The queue of [qlist.h] refines the abstract FIFO: any sequence of
    pushes (of allocated, not yet queued items) and pops runs without touching
    unallocated memory, the pops return the pushed items in first-in-first-out
    order (the queue itself when it is empty), and the resulting structure
    again represents the abstract queue. *)
Lemma qlist_refines_fifo q self l os :
  qlist q self l → pushes_ok (dom (cells q)) self os l →
  ∃ q', qops_run self os q = Some ((fifo self os l).1, q') ∧ qlist q' self (fifo self os l).2.
Proof.
  revert q l. induction os as [|[x|] os IH]; intros q l Hq Hok; simpl in *; [eauto| |].
  - destruct Hok as (Hx & Hnx & Hok).
    destruct (qlist_push_spec q self l x) as (q1 & -> & Hq1 & Hd); [done|by apply elem_of_dom|done|].
    simpl. destruct (IH q1 (l ++ [x])) as (q2 & Hr & Hq2); [done|by rewrite Hd|].
    rewrite Hr. simpl. eauto.
  - destruct (qlist_pop_spec q self l Hq) as (q1 & -> & Hq1 & Hd). simpl.
    destruct (IH q1 (tail l)) as (q2 & Hr & Hq2); [done|by rewrite Hd|].
    rewrite Hr. simpl. eauto.
Qed.


(** The queue 1 and the items 10 and 20. *)
Definition demo_store : qstore := mk_qstore (<[1 := 1]> (<[10 := 0]> {[20 := 0]})) {[1 := 1]}.

Lemma qlist_refines_fifo_witness :
  ∃ q', qops_run 1 [Push 10; Push 20; Pop; Pop; Pop] demo_store = Some ([10; 20; 1], q') ∧ qlist q' 1 [].
Proof.
  apply (qlist_refines_fifo demo_store 1 [] [Push 10; Push 20; Pop; Pop; Pop]).
  - split; [split; [apply NoDup_singleton|reflexivity]|reflexivity].
  - cbn [pushes_ok app tail]. repeat split; try (apply elem_of_dom; eexists; reflexivity);
      repeat (rewrite elem_of_cons || rewrite elem_of_nil); intuition lia.
Defined.
End Qlist.
