(* ===== verification/Bytes.v ===== *)
(** Byte-level utilities of [utils.c]: network byte order, stripping of
    delimiters, base64.

    A [uint8_t] buffer is a [list Z] of values 0..255; a C string is the list of
    its characters before the terminating NUL.  A write of [n] bytes is the list
    of the bytes written. *)

From S2P Require Import Prelude.
From Stdlib Require Import ZArith Lia.
From stdpp Require Import base list.
Open Scope Z_scope.

(** * Integers in network byte order *)

Definition buf_at (buf : list Z) (i : nat) : Z := nth i buf 0.

Definition dill_gets (buf : list Z) : Z :=
  u16 (Z.lor (Z.shiftl (buf_at buf 0) 8) (buf_at buf 1)).

Definition dill_puts (val : Z) : list Z :=
  [u8 (Z.land (Z.shiftr val 8) 255); u8 (Z.land val 255)].

Definition dill_getl (buf : list Z) : Z :=
  u32 (Z.lor (Z.lor (Z.lor (Z.shiftl (buf_at buf 0) 24) (Z.shiftl (buf_at buf 1) 16))
    (Z.shiftl (buf_at buf 2) 8)) (buf_at buf 3)).

Definition dill_putl (val : Z) : list Z :=
  [u8 (Z.land (Z.shiftr val 24) 255); u8 (Z.land (Z.shiftr val 16) 255);
   u8 (Z.land (Z.shiftr val 8) 255); u8 (Z.land val 255)].

Definition dill_getll (buf : list Z) : Z :=
  u64 (Z.lor (Z.lor (Z.lor (Z.lor (Z.lor (Z.lor (Z.lor
    (Z.shiftl (buf_at buf 0) 56) (Z.shiftl (buf_at buf 1) 48))
    (Z.shiftl (buf_at buf 2) 40)) (Z.shiftl (buf_at buf 3) 32))
    (Z.shiftl (buf_at buf 4) 24)) (Z.shiftl (buf_at buf 5) 16))
    (Z.shiftl (buf_at buf 6) 8)) (Z.shiftl (buf_at buf 7) 0)).

Definition dill_putll (val : Z) : list Z :=
  [u8 (Z.land (Z.shiftr val 56) 255); u8 (Z.land (Z.shiftr val 48) 255);
   u8 (Z.land (Z.shiftr val 40) 255); u8 (Z.land (Z.shiftr val 32) 255);
   u8 (Z.land (Z.shiftr val 24) 255); u8 (Z.land (Z.shiftr val 16) 255);
   u8 (Z.land (Z.shiftr val 8) 255); u8 (Z.land val 255)].

(** * Stripping *)

(** The suffix that starts at the first character that is not [delim]. *)
Fixpoint dill_lstrip (string : list Z) (delim : Z) : list Z :=
  match string with
  | [] => []
  | c :: rest => if c =? delim then dill_lstrip rest delim else string
  end.

(** [end] as an offset; the loop keeps [end > string]. *)
Fixpoint rstrip_loop (string : list Z) (delim : Z) (e : nat) : nat :=
  match e with
  | O => O
  | S e' => if buf_at string e =? delim then rstrip_loop string delim e' else e
  end.

(** The offset of the pointer that is returned.  On the empty string [end]
    starts one before it, so [++end] is the string itself. *)
Definition dill_rstrip (string : list Z) (delim : Z) : nat :=
  match length string with
  | O => O
  | S e => S (rstrip_loop string delim e)
  end.

(** * Base64 *)

Definition ENCODEMAP : list Z :=
  [65; 66; 67; 68; 69; 70; 71; 72; 73; 74; 75; 76; 77; 78; 79; 80; 81; 82; 83; 84; 85; 86; 87; 88;
   89; 90; 97; 98; 99; 100; 101; 102; 103; 104; 105; 106; 107; 108; 109; 110; 111; 112; 113; 114;
   115; 116; 117; 118; 119; 120; 121; 122; 48; 49; 50; 51; 52; 53; 54; 55; 56; 57; 43; 47].

(** [ENCODEMAP[i]] *)
Definition enc (i : Z) : Z := nth (Z.to_nat i) ENCODEMAP 0.

Definition DECODEMAP : list Z :=
  [
   255; 255; 255; 255; 255; 255; 255; 255; 255; 255; 255; 255; 255; 255; 255; 255;
   255; 255; 255; 255; 255; 255; 255; 255; 255; 255; 255; 255; 255; 255; 255; 255;
   255; 255; 255; 255; 255; 255; 255; 255; 255; 255; 255; 62; 255; 255; 255; 63;
   52; 53; 54; 55; 56; 57; 58; 59; 60; 61; 255; 255; 255; 62; 255; 255;
   255; 0; 1; 2; 3; 4; 5; 6; 7; 8; 9; 10; 11; 12; 13; 14;
   15; 16; 17; 18; 19; 20; 21; 22; 23; 24; 25; 255; 255; 255; 255; 255;
   255; 26; 27; 28; 29; 30; 31; 32; 33; 34; 35; 36; 37; 38; 39; 40;
   41; 42; 43; 44; 45; 46; 47; 48; 49; 50; 51; 255; 255; 255; 255; 255;
   255; 255; 255; 255; 255; 255; 255; 255; 255; 255; 255; 255; 255; 255; 255; 255;
   255; 255; 255; 255; 255; 255; 255; 255; 255; 255; 255; 255; 255; 255; 255; 255;
   255; 255; 255; 255; 255; 255; 255; 255; 255; 255; 255; 255; 255; 255; 255; 255;
   255; 255; 255; 255; 255; 255; 255; 255; 255; 255; 255; 255; 255; 255; 255; 255;
   255; 255; 255; 255; 255; 255; 255; 255; 255; 255; 255; 255; 255; 255; 255; 255;
   255; 255; 255; 255; 255; 255; 255; 255; 255; 255; 255; 255; 255; 255; 255; 255;
   255; 255; 255; 255; 255; 255; 255; 255; 255; 255; 255; 255; 255; 255; 255; 255;
   255; 255; 255; 255; 255; 255; 255; 255; 255; 255; 255; 255; 255; 255; 255; 255
  ].

(** [isspace] in the C locale. *)
Definition isspace (c : Z) : bool := (c =? 32) || ((9 <=? c) && (c <=? 13)).

(** [out[io] = c], where [io] is an [unsigned] and [out] what has been written so far: the
    positions before the largest value of [io]. *)
Definition b64_write (io : Z) (out : list Z) (c : Z) : list Z :=
  if decide (Z.to_nat io < length out)%nat then <[Z.to_nat io := c]> out else out ++ [c].

(** [if(io >= out_len) return -1; out[io++] = c;] *)
Definition b64_put (out_len : Z) (w : Z * list Z) (c : Z) : option (Z * list Z) :=
  let '(io, out) := w in
  if out_len <=? io then None else Some (u32 (io + 1), b64_write io out c).

(** The encoder's inner loop: [while(rem >= 6)]. *)
Fixpoint b64_drain (fuel : nat) (out_len v rem : Z) (w : Z * list Z) : option (Z * (Z * list Z)) :=
  match fuel with
  | O => Some (rem, w)
  | S fuel =>
      if 6 <=? rem then
        let rem := rem - 6 in
        w ← b64_put out_len w (enc (Z.land (Z.shiftr v rem) 63));
        b64_drain fuel out_len v rem w
      else Some (rem, w)
  end.

(** How the loop over the input is left: by its condition or a [break], by [return -1], or by
    indexing [DECODEMAP] out of bounds ([char] is signed, so a character above 127 is a
    negative index).  Or it is still running after one turn more than there are characters: the
    counter [ii] is an [unsigned], and never reaches a length of [2 ^ 32] or more. *)
Inductive b64_exit :=
  | B64Break (v rem : Z) (w : Z * list Z)
  | B64Short
  | B64OutOfBounds
  | B64Running.

Fixpoint b64_encode_loop (fuel : nat) (inp : list Z) (out_len ii v rem : Z) (w : Z * list Z) : b64_exit :=
  match fuel with
  | O => B64Running
  | S fuel =>
      if Z.of_nat (length inp) <=? ii then B64Break v rem w
      else
        let ch := nth (Z.to_nat ii) inp 0 in
        let v := u32 (Z.lor (Z.shiftl v 8) ch) in
        let rem := rem + 8 in
        match b64_drain (Z.to_nat rem) out_len v rem w with
        | None => B64Short
        | Some (rem, w) => b64_encode_loop fuel inp out_len (u32 (ii + 1)) v rem w
        end
  end.

(** [while(io & 3)] pads the output. *)
Fixpoint b64_pad (fuel : nat) (out_len : Z) (w : Z * list Z) : option (Z * list Z) :=
  match fuel with
  | O => Some w
  | S fuel =>
      if Z.land w.1 3 =? 0 then Some w
      else w ← b64_put out_len w 61; b64_pad fuel out_len w
  end.

(** The result of a call: -1; the [int] made of [io], with the bytes written; an out-of-bounds
    read; or none yet after as many turns as there are characters and one. *)
Inductive b64_result :=
  | B64Fail
  | B64Done (rc : Z) (out : list Z)
  | B64Undefined
  | B64Unfinished.

(** After the encoder's loop; the terminating NUL is among the bytes written. *)
Definition b64_close_ (out_len v rem : Z) (w : Z * list Z) : option (Z * list Z) :=
  w ← (if rem =? 0 then Some w
       else b64_put out_len w (enc (Z.land (u32 (Z.shiftl v (6 - rem))) 63)));
  w ← b64_pad 4 out_len w;
  '(_, buf) ← b64_put out_len w 0;
  Some (w.1, buf).

Definition dill_base64_encode (inp : list Z) (out_len : Z) : b64_result :=
  match b64_encode_loop (S (length inp)) inp out_len 0 0 0 (0, []) with
  | B64Running => B64Unfinished
  | B64OutOfBounds => B64Undefined
  | B64Short => B64Fail
  | B64Break v rem w =>
      match b64_close_ out_len v rem w with None => B64Fail | Some (io, buf) => B64Done (s32 io) buf end
  end.

Fixpoint b64_decode_loop (fuel : nat) (inp : list Z) (out_len ii v rem : Z) (w : Z * list Z) : b64_exit :=
  match fuel with
  | O => B64Running
  | S fuel =>
      let next := b64_decode_loop fuel inp out_len (u32 (ii + 1)) in
      if Z.of_nat (length inp) <=? ii then B64Break v rem w
      else
        let c := nth (Z.to_nat ii) inp 0 in
        if isspace c then next v rem w
        else if c =? 61 then B64Break v rem w
        else if (c <? 0) || (255 <? c) then B64OutOfBounds
        else
          let ch := nth (Z.to_nat c) DECODEMAP 0 in
          if ch =? 255 then B64Break v rem w
          else
            let v := u32 (Z.lor (Z.shiftl v 6) ch) in
            let rem := rem + 6 in
            if 8 <=? rem then
              let rem := rem - 8 in
              match b64_put out_len w (Z.land (Z.shiftr v rem) 255) with
              | None => B64Short
              | Some w => next v rem w
              end
            else next v rem w
  end.

Definition dill_base64_decode (inp : list Z) (out_len : Z) : b64_result :=
  match b64_decode_loop (S (length inp)) inp out_len 0 0 0 (0, []) with
  | B64Running => B64Unfinished
  | B64OutOfBounds => B64Undefined
  | B64Short => B64Fail
  | B64Break v rem w =>
      if 8 <=? rem then
        let rem := rem - 8 in
        match b64_put out_len w (Z.land (Z.shiftr v rem) 255) with
        | None => B64Fail
        | Some (io, out) => B64Done (s32 io) out
        end
      else B64Done (s32 w.1) w.2
  end.

(** * Reference definitions *)

(** RFC 4648: three bytes are four characters; a short last group is padded. *)
Fixpoint b64_spec (s : list Z) : list Z :=
  match s with
  | [] => []
  | [a] => [enc (a / 4); enc (a mod 4 * 16); 61; 61]
  | [a; b] => [enc (a / 4); enc (a mod 4 * 16 + b / 16); enc (b mod 16 * 4); 61]
  | a :: b :: c :: s =>
      enc (a / 4) :: enc (a mod 4 * 16 + b / 16) :: enc (b mod 16 * 4 + c / 64)
        :: enc (c mod 64) :: b64_spec s
  end.

(** The number whose big-endian digits in base 256 are [bs]. *)
Definition be (bs : list Z) : Z := fold_left (λ acc b, acc * 256 + b) bs 0.

(** * Network byte order *)

Ltac bytes_unfold :=
  unfold u8, u16, u32, u64; rewrite ?land_255, ?shiftr_div by lia;
  repeat match goal with |- context [2 ^ ?n] =>
    let v := eval vm_compute in (2 ^ n) in change (2 ^ n) with v end.

Lemma dill_gets_be a b rest :
  is_byte a → is_byte b → dill_gets (a :: b :: rest) = be [a; b].
Proof.
  unfold is_byte, dill_gets, buf_at, be. intros. simpl.
  rewrite lor_shiftl_add by lia. bytes_unfold. rewrite Z.mod_small; lia.
Qed.

(** Or-ing shifted bytes together is Horner's rule. *)
Lemma lor_shift_step x y n m :
  0 ≤ m ≤ n → 0 ≤ y < 2 ^ (n - m) →
  Z.lor (Z.shiftl x n) (Z.shiftl y m) = Z.shiftl (x * 2 ^ (n - m) + y) m.
Proof.
  intros Hm Hy. rewrite <- lor_shiftl_add, Z.shiftl_lor, Z.shiftl_shiftl by lia.
  by replace (n - m + m) with n by lia.
Qed.

Lemma dill_getl_be a b c d rest :
  is_byte a → is_byte b → is_byte c → is_byte d →
  dill_getl (a :: b :: c :: d :: rest) = be [a; b; c; d].
Proof.
  unfold is_byte, dill_getl, buf_at, be. intros. simpl.
  rewrite !lor_shift_step, lor_shiftl_add by lia. bytes_unfold. rewrite Z.mod_small; lia.
Qed.

Lemma dill_getll_be a b c d e f g h rest :
  Forall is_byte [a; b; c; d; e; f; g; h] →
  dill_getll (a :: b :: c :: d :: e :: f :: g :: h :: rest) = be [a; b; c; d; e; f; g; h].
Proof.
  rewrite !Forall_cons. unfold is_byte, dill_getll, buf_at, be. intros. simpl.
  rewrite !lor_shift_step, Z.shiftl_0_r by lia. bytes_unfold. rewrite Z.mod_small; lia.
Qed.

Lemma u8_byte z : is_byte (u8 z).
Proof. unfold is_byte, u8. apply Z.mod_pos_bound. lia. Qed.

Lemma dill_puts_bytes v : Forall is_byte (dill_puts v).
Proof. repeat constructor; apply u8_byte. Qed.
Lemma dill_putl_bytes v : Forall is_byte (dill_putl v).
Proof. repeat constructor; apply u8_byte. Qed.
Lemma dill_putll_bytes v : Forall is_byte (dill_putll v).
Proof. repeat constructor; apply u8_byte. Qed.

Lemma dill_gets_puts v rest : dill_gets (dill_puts v ++ rest) = u16 v.
Proof.
  unfold dill_puts. simpl. rewrite dill_gets_be by apply u8_byte.
  unfold be. simpl. bytes_unfold. zdm.
Qed.

Lemma dill_getl_putl v rest : dill_getl (dill_putl v ++ rest) = u32 v.
Proof.
  unfold dill_putl. simpl. rewrite dill_getl_be by apply u8_byte.
  unfold be. simpl. bytes_unfold. Z.div_mod_to_equations. lia.
Qed.

Lemma dill_getll_putll v rest : dill_getll (dill_putll v ++ rest) = u64 v.
Proof.
  pose proof (dill_putll_bytes v) as Hb. unfold dill_putll in *. simpl.
  rewrite dill_getll_be by done.
  unfold be. simpl. bytes_unfold. Z.div_mod_to_equations. lia.
Qed.

Lemma puts_be a b : is_byte a → is_byte b → dill_puts (be [a; b]) = [a; b].
Proof. unfold is_byte, dill_puts, be. intros. simpl. bytes_unfold. repeat f_equal; zdm. Qed.

Lemma putl_be a b c d :
  is_byte a → is_byte b → is_byte c → is_byte d →
  dill_putl (be [a; b; c; d]) = [a; b; c; d].
Proof.
  unfold is_byte, dill_putl, be. intros. simpl. bytes_unfold.
  repeat f_equal; Z.div_mod_to_equations; lia.
Qed.

Lemma putll_be a b c d e f g h :
  Forall is_byte [a; b; c; d; e; f; g; h] →
  dill_putll (be [a; b; c; d; e; f; g; h]) = [a; b; c; d; e; f; g; h].
Proof.
  rewrite !Forall_cons. unfold is_byte, dill_putll, be. intros. simpl. bytes_unfold.
  repeat f_equal; Z.div_mod_to_equations; lia.
Qed.

(** The network-byte-order codecs are inverse to each other: decoding what
    [dill_puts], [dill_putl] or [dill_putll] wrote gives the value truncated to
    16, 32 or 64 bits, whatever follows in the buffer; and re-encoding a decoded
    2-, 4- or 8-byte buffer gives the same bytes back. *)
Lemma network_order_roundtrip v rest a b c d e f g h :
  Forall is_byte [a; b; c; d; e; f; g; h] →
  dill_gets (dill_puts v ++ rest) = v mod 2 ^ 16 ∧
  dill_getl (dill_putl v ++ rest) = v mod 2 ^ 32 ∧
  dill_getll (dill_putll v ++ rest) = v mod 2 ^ 64 ∧
  dill_puts (dill_gets [a; b]) = [a; b] ∧
  dill_putl (dill_getl [a; b; c; d]) = [a; b; c; d] ∧
  dill_putll (dill_getll [a; b; c; d; e; f; g; h]) = [a; b; c; d; e; f; g; h].
Proof.
  intros Hb. split_and!; [apply dill_gets_puts|apply dill_getl_putl|apply dill_getll_putll|..].
  - rewrite !Forall_cons in Hb. rewrite dill_gets_be by tauto. apply puts_be; tauto.
  - rewrite !Forall_cons in Hb. rewrite dill_getl_be by tauto. apply putl_be; tauto.
  - rewrite dill_getll_be by done. by apply putll_be.
Qed.

Lemma network_order_roundtrip_witness :
  dill_getll (dill_putll 81985529216486895) = 81985529216486895 ∧
  dill_puts (dill_gets [18; 52]) = [18; 52].
Proof.
  destruct (network_order_roundtrip 81985529216486895 [] 18 52 0 0 0 0 0 255)
    as (_ & _ & H & H' & _); [repeat constructor; vm_compute; congruence|].
  split; [exact H|exact H'].
Defined.

(** * Stripping *)

Lemma dill_lstrip_spec s d :
  ∃ k, s = repeat d k ++ dill_lstrip s d ∧ head (dill_lstrip s d) ≠ Some d.
Proof.
  induction s as [|c s IH]; simpl; [by exists O|].
  destruct (Z.eqb_spec c d) as [->|Hne].
  - destruct IH as (k & Hs & Hh). exists (S k). simpl. by rewrite <- Hs.
  - exists O. simpl. split; [done|]. congruence.
Qed.

Lemma rstrip_loop_spec s d e :
  (rstrip_loop s d e ≤ e)%nat ∧
  (∀ i, rstrip_loop s d e < i ≤ e → buf_at s i = d)%nat ∧
  (rstrip_loop s d e = O ∨ buf_at s (rstrip_loop s d e) ≠ d).
Proof.
  induction e as [|e IH]; simpl; [split_and!; [lia|lia|by left]|].
  destruct (Z.eqb_spec (buf_at s (S e)) d) as [Heq|Hne].
  - destruct IH as (Hle & Hd & Hor). split_and!; [lia| |done].
    intros i Hi. destruct (decide (i = S e)) as [->|]; [done|]. apply Hd. lia.
  - split_and!; [lia|lia|by right].
Qed.

Lemma dill_rstrip_facts s d :
  (dill_rstrip s d ≤ length s)%nat ∧
  (∀ i, dill_rstrip s d ≤ i < length s → buf_at s i = d)%nat ∧
  (s ≠ [] → 1 ≤ dill_rstrip s d)%nat ∧
  ((1 < dill_rstrip s d)%nat → buf_at s (dill_rstrip s d - 1) ≠ d).
Proof.
  unfold dill_rstrip. destruct (length s) as [|e] eqn:Hl.
  - split_and!; try lia. intros Hs. destruct Hs. by apply length_zero_iff_nil.
  - destruct (rstrip_loop_spec s d e) as (Hle & Hd & Hor).
    split_and!; [lia|intros; apply Hd; lia|lia|].
    intros Hlt. destruct Hor as [H0|Hne]; [lia|]. by rewrite Nat.sub_succ, Nat.sub_0_r.
Qed.

(** A string of delimiters only keeps its first character, although [utils.h]
    promises a pointer after the last character that is not [delim]. *)
Lemma dill_rstrip_all_delims d k : dill_rstrip (repeat d (S k)) d = 1%nat.
Proof.
  destruct (dill_rstrip_facts (repeat d (S k)) d) as (Hle & _ & Hge & Hne).
  rewrite repeat_length in Hle. specialize (Hge ltac:(done)).
  revert Hle Hge Hne. generalize (dill_rstrip (repeat d (S k)) d). intros e Hle Hge Hne.
  destruct (decide (e = 1)%nat); [done|]. exfalso.
  apply Hne; [lia|]. unfold buf_at. rewrite nth_repeat_lt; [done|lia].
Qed.

(** [dill_rstrip] returns an offset inside the string; everything from it
    on is [delim]; the character before it is not [delim] unless it is the first
    character of the string, which is never stripped: a string that consists of
    delimiters only keeps one of them. *)
Lemma dill_rstrip_spec s d k :
  (dill_rstrip s d ≤ length s)%nat ∧
  (∀ i, dill_rstrip s d ≤ i < length s → buf_at s i = d)%nat ∧
  (s ≠ [] → 1 ≤ dill_rstrip s d)%nat ∧
  ((1 < dill_rstrip s d)%nat → buf_at s (dill_rstrip s d - 1) ≠ d) ∧
  dill_rstrip (repeat d (S k)) d = 1%nat.
Proof.
  destruct (dill_rstrip_facts s d) as (? & ? & ? & ?). split_and!; try done.
  apply dill_rstrip_all_delims.
Qed.

(** * Base64 *)

(** ** The same computations with counters of any size *)

(** [if(io >= out_len) return -1; out[io++] = c;] where [io] is the number of
    bytes written so far, of any size. *)
Definition u_put (out_len : Z) (out : list Z) (c : Z) : option (list Z) :=
  if out_len <=? Z.of_nat (length out) then None else Some (out ++ [c]).

(** The encoder's inner loop: [while(rem >= 6)]. *)
Fixpoint u_drain (fuel : nat) (out_len v rem : Z) (out : list Z) : option (Z * list Z) :=
  match fuel with
  | O => Some (rem, out)
  | S fuel =>
      if 6 <=? rem then
        let rem := rem - 6 in
        out ← u_put out_len out (enc (Z.land (Z.shiftr v rem) 63));
        u_drain fuel out_len v rem out
      else Some (rem, out)
  end.

Fixpoint u_encode_loop (inp : list Z) (out_len v rem : Z) (out : list Z)
    : option (Z * Z * list Z) :=
  match inp with
  | [] => Some (v, rem, out)
  | ch :: inp =>
      let v := u32 (Z.lor (Z.shiftl v 8) ch) in
      let rem := rem + 8 in
      '(rem, out) ← u_drain (Z.to_nat rem) out_len v rem out;
      u_encode_loop inp out_len v rem out
  end.

(** [while(io & 3)] pads the output. *)
Fixpoint u_pad (fuel : nat) (out_len : Z) (out : list Z) : option (list Z) :=
  match fuel with
  | O => Some out
  | S fuel =>
      if Z.land (Z.of_nat (length out)) 3 =? 0 then Some out
      else out ← u_put out_len out 61; u_pad fuel out_len out
  end.

(** [None] is the return value -1; otherwise the returned length [io] and the
    bytes written, the terminating NUL included. *)
Definition u_encode (inp : list Z) (out_len : Z) : option (Z * list Z) :=
  '(v, rem, out) ← u_encode_loop inp out_len 0 0 [];
  out ← (if rem =? 0 then Some out
         else u_put out_len out
                (enc (Z.land (u32 (Z.shiftl v (6 - rem))) 63)));
  out ← u_pad 4 out_len out;
  buf ← u_put out_len out 0;
  Some (Z.of_nat (length out), buf).

(** How the decoder's loop is left: by its condition or a [break], by
    [return -1], or by indexing [DECODEMAP] out of bounds ([char] is signed, so
    a character above 127 is a negative index). *)
Inductive u_exit :=
  | UBreak (v rem : Z) (out : list Z)
  | UShort
  | UOutOfBounds.

Fixpoint u_decode_loop (inp : list Z) (out_len v rem : Z) (out : list Z) : u_exit :=
  match inp with
  | [] => UBreak v rem out
  | c :: inp =>
      if isspace c then u_decode_loop inp out_len v rem out
      else if c =? 61 then UBreak v rem out
      else if (c <? 0) || (255 <? c) then UOutOfBounds
      else
        let ch := nth (Z.to_nat c) DECODEMAP 0 in
        if ch =? 255 then UBreak v rem out
        else
          let v := u32 (Z.lor (Z.shiftl v 6) ch) in
          let rem := rem + 6 in
          if 8 <=? rem then
            let rem := rem - 8 in
            match u_put out_len out (Z.land (Z.shiftr v rem) 255) with
            | None => UShort
            | Some out => u_decode_loop inp out_len v rem out
            end
          else u_decode_loop inp out_len v rem out
  end.

Definition u_decode (inp : list Z) (out_len : Z) : b64_result :=
  match u_decode_loop inp out_len 0 0 [] with
  | UOutOfBounds => B64Undefined
  | UShort => B64Fail
  | UBreak v rem out =>
      if 8 <=? rem then
        let rem := rem - 8 in
        match u_put out_len out (Z.land (Z.shiftr v rem) 255) with
        | None => B64Fail
        | Some out => B64Done (Z.of_nat (length out)) out
        end
      else B64Done (Z.of_nat (length out)) out
  end.

(** Space check after a write: [out] is what has been written. *)
Definition fits (n : Z) (out : list Z) : option (list Z) :=
  if Z.of_nat (length out) <=? n then Some out else None.

Lemma b64_put_fits n out c : u_put n out c = fits n (out ++ [c]).
Proof.
  unfold u_put, fits. rewrite length_app. simpl.
  destruct (Z.leb_spec n (Z.of_nat (length out))), (Z.leb_spec (Z.of_nat (length out + 1)) n);
    done || lia.
Qed.

Lemma fits_bind {B} n out l (k : list Z → option B) :
  (o ← fits n out; o' ← fits n (o ++ l); k o') = o' ← fits n (out ++ l); k o'.
Proof.
  unfold fits. rewrite length_app.
  destruct (Z.leb_spec (Z.of_nat (length out)) n); simpl; rewrite ?length_app; [done|].
  destruct (Z.leb_spec (Z.of_nat (length out + length l)) n); [lia|done].
Qed.

Lemma fits_bind' n out l : (o ← fits n out; fits n (o ++ l)) = fits n (out ++ l).
Proof.
  transitivity (o ← fits n out; o' ← fits n (o ++ l); Some o').
  - destruct (fits n out) as [o|]; simpl; [|done]. by destruct (fits n (o ++ l)).
  - rewrite fits_bind. by destruct (fits _ _).
Qed.

(** The accumulator [v] holds 32 bits of an unbounded number [x]. *)
Lemma acc_step x k y :
  0 ≤ k → 0 ≤ y < 2 ^ k → u32 (Z.lor (Z.shiftl (u32 x) k) y) = u32 (x * 2 ^ k + y).
Proof.
  intros Hk Hy. rewrite lor_shiftl_add by lia. unfold u32.
  rewrite <- Z.add_mod_idemp_l, Z.mul_mod_idemp_l, Z.add_mod_idemp_l by lia. done.
Qed.

Lemma acc_read x r k :
  0 ≤ r → 0 ≤ k → r + k ≤ 32 → u32 x / 2 ^ r mod 2 ^ k = x / 2 ^ r mod 2 ^ k.
Proof.
  intros Hr Hk Hrk. unfold u32. replace 32 with (r + (32 - r)) by lia.
  rewrite Z.pow_add_r, Z.rem_mul_r by lia.
  rewrite (Z.mul_comm (2 ^ r)), Z.div_add by lia.
  rewrite (Z.div_small (x mod 2 ^ r)), Z.add_0_l by (apply Z.mod_pos_bound; lia).
  replace (32 - r) with (k + (32 - r - k)) by lia.
  rewrite Z.pow_add_r, Z.rem_mul_r by lia.
  rewrite (Z.mul_comm (2 ^ k)), Z.mod_add, Z.mod_mod by lia. done.
Qed.

Lemma acc_read6 x r : 0 ≤ r ≤ 26 → Z.land (Z.shiftr (u32 x) r) 63 = x / 2 ^ r mod 64.
Proof. intros. rewrite land_63, shiftr_div by lia. by apply (acc_read x r 6); lia. Qed.

Lemma acc_read8 x r : 0 ≤ r ≤ 24 → Z.land (Z.shiftr (u32 x) r) 255 = x / 2 ^ r mod 256.
Proof. intros. rewrite land_255, shiftr_div by lia. by apply (acc_read x r 8); lia. Qed.

(** The three states of the encoder's inner loop. *)
Lemma b64_drain_step fuel n x rem out :
  6 ≤ rem ≤ 32 →
  u_drain (S fuel) n (u32 x) rem out =
  o ← fits n (out ++ [enc (x / 2 ^ (rem - 6) mod 64)]); u_drain fuel n (u32 x) (rem - 6) o.
Proof.
  intros Hr. simpl. destruct (Z.leb_spec 6 rem); [|lia].
  by rewrite b64_put_fits, acc_read6 by lia.
Qed.

Lemma b64_drain_stop fuel n v rem out :
  rem < 6 → u_drain fuel n v rem out = Some (rem, out).
Proof. intros. destruct fuel; simpl; [done|]. by destruct (Z.leb_spec 6 rem); [lia|]. Qed.

Lemma b64_drain_8 n x out :
  u_drain 8 n (u32 x) 8 out = o ← fits n (out ++ [enc (x / 4 mod 64)]); Some (2, o).
Proof.
  rewrite b64_drain_step by lia. apply option_bind_ext_fun. intros o.
  by apply b64_drain_stop.
Qed.

Lemma b64_drain_10 n x out :
  u_drain 10 n (u32 x) 10 out = o ← fits n (out ++ [enc (x / 16 mod 64)]); Some (4, o).
Proof.
  rewrite b64_drain_step by lia. apply option_bind_ext_fun. intros o.
  by apply b64_drain_stop.
Qed.

Lemma b64_drain_12 n x out :
  u_drain 12 n (u32 x) 12 out =
  o ← fits n (out ++ [enc (x / 64 mod 64); enc (x mod 64)]); Some (0, o).
Proof.
  rewrite b64_drain_step by lia.
  transitivity (o ← fits n (out ++ [enc (x / 64 mod 64)]);
                o' ← fits n (o ++ [enc (x mod 64)]); Some (0, o')).
  - apply option_bind_ext_fun. intros o. rewrite b64_drain_step by lia.
    change (2 ^ (12 - 6 - 6)) with 1. rewrite Z.div_1_r.
    apply option_bind_ext_fun. intros o'. by apply b64_drain_stop.
  - rewrite fits_bind, <- app_assoc. done.
Qed.

(** What [u_encode] does after its main loop. *)
Definition b64_finish (n : Z) (s : Z * Z * list Z) : option (Z * list Z) :=
  let '(v, rem, out) := s in
  out ← (if rem =? 0 then Some out
         else u_put n out (enc (Z.land (u32 (Z.shiftl v (6 - rem))) 63)));
  out ← u_pad 4 n out;
  buf ← u_put n out 0;
  Some (Z.of_nat (length out), buf).

Lemma b64_encode_finish inp n :
  u_encode inp n = s ← u_encode_loop inp n 0 0 []; b64_finish n s.
Proof. unfold u_encode. by destruct (u_encode_loop _ _ _ _ _) as [[[]]|]. Qed.

Lemma land_3 z : Z.land z 3 = z mod 4.
Proof. apply (Z.land_ones z 2). lia. Qed.

Lemma b64_pad_stop fuel n out : Z.of_nat (length out) mod 4 = 0 → u_pad fuel n out = Some out.
Proof. intros H. destruct fuel; simpl; [done|]. by rewrite land_3, H. Qed.

Lemma b64_pad_step fuel n out :
  Z.of_nat (length out) mod 4 ≠ 0 →
  u_pad (S fuel) n out = o ← fits n (out ++ [61]); u_pad fuel n o.
Proof. intros H. simpl. rewrite land_3, b64_put_fits. by destruct (Z.eqb_spec (Z.of_nat (length out) mod 4) 0). Qed.

Lemma fits_ext {B} n out (k k' : list Z → option B) :
  k out = k' out → (o ← fits n out; k o) = (o ← fits n out; k' o).
Proof. intros H. unfold fits. by destruct (_ <=? _). Qed.

(** Merge a check with the one of a longer output. *)
Lemma fits_absorb {B} n out l (k : list Z → option B) :
  (o ← fits n out; (o' ← fits n (out ++ l); k o')) = (o' ← fits n (out ++ l); k o').
Proof. etransitivity; [|apply fits_bind]. by apply fits_ext. Qed.

(** The end of the encoder on an output whose padding and NUL are [l]. *)
Definition b64_end (n : Z) (out l : list Z) : option (Z * list Z) :=
  o ← fits n (out ++ l ++ [0]); Some (Z.of_nat (length (out ++ l)), o).

Lemma b64_end_app n out l1 l2 :
  (o ← fits n (out ++ l1); b64_end n o l2) = b64_end n out (l1 ++ l2).
Proof.
  transitivity (o ← fits n (out ++ l1); b64_end n (out ++ l1) l2); [by apply fits_ext|].
  unfold b64_end. rewrite fits_absorb. by rewrite <- !app_assoc.
Qed.

Lemma b64_close n out :
  Z.of_nat (length out) mod 4 = 0 →
  (o ← u_pad 4 n out; buf ← u_put n o 0; Some (Z.of_nat (length o), buf)) = b64_end n out [].
Proof.
  intros Hm. rewrite b64_pad_stop by done. simpl. unfold b64_end.
  by rewrite b64_put_fits, app_nil_r.
Qed.

Lemma b64_pads k : ∀ fuel n out,
  (k ≤ fuel)%nat → (Z.of_nat (length out) + Z.of_nat k) mod 4 = 0 → (k < 4)%nat →
  (o ← u_pad fuel n out; buf ← u_put n o 0; Some (Z.of_nat (length o), buf))
  = b64_end n out (repeat 61 k).
Proof.
  induction k as [|k IH]; intros fuel n out Hf Hm Hk.
  - rewrite b64_pad_stop by (rewrite <- Hm; f_equal; lia). simpl. unfold b64_end.
    by rewrite b64_put_fits, app_nil_r.
  - destruct fuel as [|fuel]; [lia|].
    rewrite b64_pad_step by zdm.
    transitivity (o ← fits n (out ++ [61]); b64_end n o (repeat 61 k)); [|by rewrite b64_end_app].
    rewrite option_bind_assoc. apply fits_ext. unfold compose. apply IH; [lia| |lia].
    rewrite length_app. simpl. rewrite <- Hm. f_equal. lia.
Qed.

Lemma b64_finish_0 n v out :
  Z.of_nat (length out) mod 4 = 0 → b64_finish n (v, 0, out) = b64_end n out [].
Proof.
  intros. unfold b64_finish. rewrite Z.eqb_refl.
  apply (b64_pads 0 4 n out); [lia|by rewrite Z.add_0_r|lia].
Qed.

Lemma b64_finish_rem n x rem k out :
  (rem = 2 ∧ k = 2%nat ∨ rem = 4 ∧ k = 1%nat) →
  (Z.of_nat (length out) + 1 + Z.of_nat k) mod 4 = 0 →
  b64_finish n (u32 x, rem, out) =
  b64_end n out (enc (x mod 2 ^ rem * 2 ^ (6 - rem)) :: repeat 61 k).
Proof.
  intros Hr Hm. unfold b64_finish. rewrite (proj2 (Z.eqb_neq rem 0)) by lia.
  assert (Z.land (u32 (Z.shiftl (u32 x) (6 - rem))) 63 = x mod 2 ^ rem * 2 ^ (6 - rem)) as ->.
  { rewrite <- (Z.lor_0_r (Z.shiftl (u32 x) (6 - rem))), acc_step by lia.
    rewrite <- (Z.shiftr_0_r (u32 _)), acc_read6, Z.div_1_r by lia.
    destruct Hr as [[-> _]|[-> _]]; simpl; zdm. }
  rewrite b64_put_fits. etransitivity; [|apply (b64_end_app n out [_] (repeat 61 k))].
  apply fits_ext. apply b64_pads; [lia| |lia]. rewrite length_app. simpl. rewrite <- Hm. f_equal. lia.
Qed.

Lemma b64_end_step n out l1 l2 (k : list Z → option (Z * list Z)) :
  k (out ++ l1) = b64_end n (out ++ l1) l2 →
  (o ← fits n (out ++ l1); k o) = b64_end n out (l1 ++ l2).
Proof. intros H. rewrite <- b64_end_app. by apply fits_ext. Qed.

(** One turn of the encoder's loop in each of its three states. *)
Lemma b64_loop_0 a inp n x out :
  0 ≤ a < 256 →
  u_encode_loop (a :: inp) n (u32 x) 0 out =
  o ← fits n (out ++ [enc (a / 4)]); u_encode_loop inp n (u32 (x * 256 + a)) 2 o.
Proof.
  intros Ha. cbn [u_encode_loop]. rewrite (acc_step x 8), (b64_drain_8 n), option_bind_assoc by lia.
  by replace ((x * 2 ^ 8 + a) / 4 mod 64) with (a / 4) by zdm.
Qed.

Lemma b64_loop_2 a b inp n x out :
  0 ≤ a < 256 → 0 ≤ b < 256 →
  u_encode_loop (b :: inp) n (u32 (x * 256 + a)) 2 out =
  o ← fits n (out ++ [enc (a mod 4 * 16 + b / 16)]);
  u_encode_loop inp n (u32 (x * 65536 + a * 256 + b)) 4 o.
Proof.
  intros Ha Hb. cbn [u_encode_loop].
  rewrite (acc_step _ 8), (b64_drain_10 n), option_bind_assoc by lia.
  replace (((x * 256 + a) * 2 ^ 8 + b) / 16 mod 64) with (a mod 4 * 16 + b / 16) by zdm.
  by replace ((x * 256 + a) * 2 ^ 8 + b) with (x * 65536 + a * 256 + b) by lia.
Qed.

Lemma b64_loop_4 b c inp n x out :
  0 ≤ b < 256 → 0 ≤ c < 256 →
  u_encode_loop (c :: inp) n (u32 (x * 256 + b)) 4 out =
  o ← fits n (out ++ [enc (b mod 16 * 4 + c / 64); enc (c mod 64)]);
  u_encode_loop inp n (u32 (x * 65536 + b * 256 + c)) 0 o.
Proof.
  intros Hb Hc. cbn [u_encode_loop].
  rewrite (acc_step _ 8), (b64_drain_12 n), option_bind_assoc by lia.
  replace (((x * 256 + b) * 2 ^ 8 + c) / 64 mod 64) with (b mod 16 * 4 + c / 64) by zdm.
  replace (((x * 256 + b) * 2 ^ 8 + c) mod 64) with (c mod 64) by zdm.
  by replace ((x * 256 + b) * 2 ^ 8 + c) with (x * 65536 + b * 256 + c) by lia.
Qed.

(** Encode any prefix of the input, padding included, from a group boundary. *)
Lemma b64_encode_gen m : ∀ inp n x out,
  (length inp ≤ m)%nat → Forall is_byte inp → Z.of_nat (length out) mod 4 = 0 →
  (s ← u_encode_loop inp n (u32 x) 0 out; b64_finish n s) = b64_end n out (b64_spec inp).
Proof.
  induction m as [|m IH]; intros [|a [|b [|c inp]]] n x out Hl Hb Ho; simpl in Hl; try lia;
    try (by apply b64_finish_0);
    rewrite ?Forall_cons in Hb; unfold is_byte in Hb; rewrite b64_loop_0 by lia;
    rewrite option_bind_assoc; apply (b64_end_step n out [_]); unfold compose.
  - etransitivity; [apply (b64_finish_rem n _ 2 2); [by left|rewrite length_app; simpl; zdm]|].
    by replace ((x * 256 + a) mod 2 ^ 2) with (a mod 4) by zdm.
  - rewrite b64_loop_2, option_bind_assoc by lia. apply (b64_end_step n _ [_]); unfold compose.
    etransitivity; [apply (b64_finish_rem n _ 4 1); [by right|rewrite !length_app; simpl; zdm]|].
    by replace ((x * 65536 + a * 256 + b) mod 2 ^ 4) with (b mod 16) by zdm.
  - rewrite b64_loop_2, option_bind_assoc by lia. apply (b64_end_step n _ [_]); unfold compose.
    replace (x * 65536 + a * 256 + b) with ((x * 256 + a) * 256 + b) by lia.
    rewrite b64_loop_4, option_bind_assoc by lia. apply (b64_end_step n _ [_; _]); unfold compose.
    apply IH; [lia|tauto|]. rewrite !length_app. simpl. zdm.
Qed.

Lemma b64_spec_len m : ∀ s, (length s ≤ m)%nat →
  Z.of_nat (length (b64_spec s)) = (Z.of_nat (length s) + 2) / 3 * 4.
Proof.
  induction m as [|m IH]; intros [|a [|b [|c s]]] Hl; simpl in Hl; try lia; try done.
  cbn [b64_spec length]. rewrite !Nat2Z.inj_succ, IH by lia. zdm.
Qed.

Lemma u_encode_eq inp out_len :
  Forall is_byte inp →
  u_encode inp out_len =
    (if (Z.of_nat (length inp) + 2) / 3 * 4 + 1 <=? out_len
     then Some ((Z.of_nat (length inp) + 2) / 3 * 4, b64_spec inp ++ [0])
     else None).
Proof.
  intros Hb. rewrite b64_encode_finish.
  etransitivity; [apply (b64_encode_gen (length inp) inp out_len 0 []); done|].
  unfold b64_end, fits. simpl app. rewrite length_app, Nat2Z.inj_add.
  rewrite (b64_spec_len (length inp) inp) by done. simpl (Z.of_nat (length [0])). by destruct (_ <=? _).
Qed.

(** ** The 32-bit counters

    As long as [io] does not wrap around, it is the number of bytes written. *)
Definition counted (out : list Z) : Z * list Z := (Z.of_nat (length out), out).

Lemma b64_put_counted n out c :
  Z.of_nat (length out) + 1 < 2 ^ 32 → b64_put n (counted out) c = counted <$> u_put n out c.
Proof.
  intros H. unfold b64_put, counted, u_put. destruct (n <=? _); [done|]. cbn [fmap option_fmap option_map].
  rewrite u32_small by lia. unfold b64_write. rewrite decide_False by lia.
  by rewrite length_app, Nat2Z.inj_add.
Qed.

Lemma u_put_len n out c o : u_put n out c = Some o → Z.of_nat (length o) = Z.of_nat (length out) + 1.
Proof. unfold u_put. destruct (_ <=? _); [done|]. intros [= <-]. rewrite length_app. simpl. lia. Qed.

(** Six bits of output for six bits of the accumulator. *)
Lemma b64_drain_counted fuel n v : ∀ rem out,
  0 ≤ rem → 6 * Z.of_nat (length out) + rem < 6 * (2 ^ 32 - 1) →
  b64_drain fuel n v rem (counted out) = prod_map id counted <$> u_drain fuel n v rem out ∧
  ∀ r o, u_drain fuel n v rem out = Some (r, o) →
    0 ≤ r ∧ 6 * Z.of_nat (length o) + r = 6 * Z.of_nat (length out) + rem.
Proof.
  induction fuel as [|fuel IH]; intros rem out Hr Hl; cbn [b64_drain u_drain].
  { split; [done|]. intros r o [= <- <-]. lia. }
  destruct (Z.leb_spec 6 rem); cbn zeta.
  2: { split; [done|]. intros r o [= <- <-]. lia. }
  rewrite b64_put_counted by lia. destruct (u_put _ _ _) as [o'|] eqn:E; [|done].
  apply u_put_len in E. cbn [fmap option_fmap option_map mbind option_bind].
  destruct (IH (rem - 6) o') as [H1 H2]; [lia|lia|]. split; [done|].
  intros r o Ho. destruct (H2 r o Ho). lia.
Qed.

Lemma b64_encode_loop_counted n : ∀ rest pre v rem out fuel,
  (length rest < fuel)%nat → 0 ≤ rem →
  6 * Z.of_nat (length out) + rem + 8 * Z.of_nat (length rest) < 6 * (2 ^ 32 - 1) →
  Z.of_nat (length (pre ++ rest)) < 2 ^ 32 →
  b64_encode_loop fuel (pre ++ rest) n (Z.of_nat (length pre)) v rem (counted out) =
    match u_encode_loop rest n v rem out with
    | None => B64Short
    | Some (v, rem, o) => B64Break v rem (counted o)
    end ∧
  ∀ v' r o, u_encode_loop rest n v rem out = Some (v', r, o) →
    0 ≤ r ∧ 6 * Z.of_nat (length o) + r = 6 * Z.of_nat (length out) + rem + 8 * Z.of_nat (length rest).
Proof.
  induction rest as [|ch rest IH]; intros pre v rem out [|fuel] Hf Hr Hm Hl; simpl in Hf; try lia.
  - cbn [b64_encode_loop u_encode_loop]. rewrite app_nil_r, Z.leb_refl. split; [done|].
    intros v' r o [= <- <- <-]. simpl. lia.
  - cbn [b64_encode_loop u_encode_loop]. simpl length in Hm. rewrite length_app in Hl |- *. simpl length in Hl |- *.
    rewrite (proj2 (Z.leb_gt _ _)) by lia. rewrite Nat2Z.id, nth_middle. cbn zeta.
    destruct (b64_drain_counted (Z.to_nat (rem + 8)) n (u32 (Z.lor (Z.shiftl v 8) ch)) (rem + 8) out)
      as [H1 H2]; [lia|lia|].
    rewrite H1. destruct (u_drain _ _ _ _ _) as [[r o]|]; [|done].
    cbn [fmap option_fmap option_map mbind option_bind prod_map id].
    destruct (H2 r o eq_refl) as [Hr0 Hro]. rewrite u32_small by lia.
    destruct (IH (pre ++ [ch]) (u32 (Z.lor (Z.shiftl v 8) ch)) r o fuel) as [H3 H4];
      [lia|lia|lia|rewrite <- app_assoc, length_app; simpl; lia|].
    rewrite <- app_assoc, length_app, Nat2Z.inj_add in H3. cbn [app length] in H3.
    split; [exact H3|]. intros v' r' o' Ho. destruct (H4 v' r' o' Ho). lia.
Qed.

Lemma b64_pad_counted fuel n : ∀ out,
  Z.of_nat (length out) + Z.of_nat fuel < 2 ^ 32 →
  b64_pad fuel n (counted out) = counted <$> u_pad fuel n out.
Proof.
  induction fuel as [|fuel IH]; intros out H; cbn [b64_pad u_pad]; [done|].
  cbn [counted fst]. destruct (_ =? 0); [done|]. change (Z.of_nat (length out), out) with (counted out).
  rewrite b64_put_counted by lia. destruct (u_put _ _ _) as [o|] eqn:E; [|done].
  apply u_put_len in E. cbn [fmap option_fmap option_map mbind option_bind]. apply IH. lia.
Qed.

Lemma u_pad_len fuel n : ∀ out o, u_pad fuel n out = Some o →
  Z.of_nat (length o) ≤ Z.of_nat (length out) + Z.of_nat fuel.
Proof.
  induction fuel as [|fuel IH]; intros out o; cbn [u_pad]; [intros [= <-]; lia|].
  destruct (_ =? 0); [intros [= <-]; lia|]. destruct (u_put _ _ _) as [o'|] eqn:E; [|done].
  apply u_put_len in E. cbn [mbind option_bind]. intros H. apply IH in H. lia.
Qed.

Lemma b64_close_counted n v rem out :
  Z.of_nat (length out) + 6 < 2 ^ 32 →
  b64_close_ n v rem (counted out) = b64_finish n (v, rem, out).
Proof.
  intros H. unfold b64_close_, b64_finish. rewrite b64_put_counted by lia.
  set (a := if rem =? 0 then Some out else u_put n out (enc (Z.land (u32 (Z.shiftl v (6 - rem))) 63))).
  assert (Ha : (if rem =? 0 then Some (counted out) else
    counted <$> u_put n out (enc (Z.land (u32 (Z.shiftl v (6 - rem))) 63))) = counted <$> a)
    by (unfold a; by destruct (rem =? 0)).
  rewrite Ha. destruct a as [o|] eqn:E; [|done]. cbn [fmap option_fmap option_map mbind option_bind].
  assert (Z.of_nat (length o) ≤ Z.of_nat (length out) + 1).
  { unfold a in E. destruct (rem =? 0); [injection E as <-; lia|]. apply u_put_len in E. lia. }
  rewrite b64_pad_counted by lia. destruct (u_pad _ _ _) as [o'|] eqn:E'; [|done].
  apply u_pad_len in E'. cbn [fmap option_fmap option_map mbind option_bind].
  rewrite b64_put_counted by lia. by destruct (u_put n o' 0).
Qed.

(** The encoder's output counted in an [int] that does not overflow. *)
Abbreviation encodable s := ((Z.of_nat (length s) + 2) / 3 * 4 < 2 ^ 31).

Lemma dill_base64_encode_eq inp out_len :
  Forall is_byte inp → encodable inp →
  dill_base64_encode inp out_len =
    (if (Z.of_nat (length inp) + 2) / 3 * 4 + 1 <=? out_len
     then B64Done ((Z.of_nat (length inp) + 2) / 3 * 4) (b64_spec inp ++ [0])
     else B64Fail).
Proof.
  intros Hb Hl. assert (Hl' : 8 * Z.of_nat (length inp) < 6 * (2 ^ 32 - 7)) by (revert Hl; zdm).
  unfold dill_base64_encode.
  destruct (b64_encode_loop_counted out_len inp [] 0 0 [] (S (length inp))) as [H1 H2]; [lia|lia|simpl; lia|simpl; lia|].
  cbn [app length] in H1. change (Z.of_nat 0, []) with (counted []) in H1. change (0, []) with (counted []).
  change (Z.of_nat 0) with 0 in H1. rewrite H1.
  pose proof (u_encode_eq inp out_len Hb) as Hu. rewrite b64_encode_finish in Hu.
  destruct (u_encode_loop inp out_len 0 0 []) as [[[v r] o]|]; cbn [mbind option_bind] in Hu.
  2: { by destruct (_ <=? _). }
  destruct (H2 v r o eq_refl) as [Hr Ho]. simpl length in Ho. rewrite b64_close_counted by lia. rewrite Hu.
  destruct (_ <=? _); [|done]. f_equal. rewrite s32_small; [done|]. split; [zdm|done].
Qed.

Lemma dill_base64_encode_inv inp n io buf :
  Forall is_byte inp → encodable inp → dill_base64_encode inp n = B64Done io buf →
  io = Z.of_nat (length (b64_spec inp)) ∧ buf = b64_spec inp ++ [0].
Proof.
  intros Hb Hl. rewrite dill_base64_encode_eq by done. destruct (_ <=? _); [|done].
  intros [= <- <-]. by rewrite (b64_spec_len (length inp) inp).
Qed.

(** The decoding table inverts the encoding table, and no character of the
    alphabet is white space or the padding sign. *)
Definition enc_ok (i : Z) : bool :=
  (nth (Z.to_nat (enc i)) DECODEMAP 0 =? i) && negb (isspace (enc i)) && negb (enc i =? 61)
  && (0 <=? enc i) && (enc i <=? 127).

Lemma enc_ok_all i : 0 ≤ i < 64 → enc_ok i = true.
Proof.
  intros Hi. assert (forallb enc_ok (map Z.of_nat (seq 0 64)) = true) as H by reflexivity.
  rewrite forallb_forall in H. apply H. apply in_map_iff. exists (Z.to_nat i).
  split; [lia|]. apply in_seq. lia.
Qed.

Lemma b64_decode_char i inp n x rem out :
  0 ≤ i < 64 → 0 ≤ rem < 8 →
  u_decode_loop (enc i :: inp) n (u32 x) rem out =
  if 2 <=? rem then
    match fits n (out ++ [(x * 64 + i) / 2 ^ (rem - 2) mod 256]) with
    | None => UShort
    | Some out => u_decode_loop inp n (u32 (x * 64 + i)) (rem - 2) out
    end
  else u_decode_loop inp n (u32 (x * 64 + i)) (rem + 6) out.
Proof.
  intros Hi Hr. pose proof (enc_ok_all i Hi) as He. unfold enc_ok in He.
  rewrite !andb_true_iff, !negb_true_iff, Z.eqb_eq, !Z.leb_le in He.
  destruct He as ((((Hd & Hs) & H61) & H0) & H127).
  cbn [u_decode_loop]. rewrite Hs, H61, (proj2 (Z.ltb_ge _ _)), (proj2 (Z.ltb_ge _ _)), Hd by lia.
  rewrite orb_false_l, (proj2 (Z.eqb_neq i 255)), (acc_step x 6) by lia.
  replace (8 <=? rem + 6) with (2 <=? rem) by (destruct (Z.leb_spec 2 rem), (Z.leb_spec 8 (rem + 6)); lia).
  destruct (Z.leb_spec 2 rem); [|done].
  rewrite b64_put_fits, acc_read8 by lia. by replace (rem + 6 - 8) with (rem - 2) by lia.
Qed.

Lemma fits_true n out : Z.of_nat (length out) ≤ n → fits n out = Some out.
Proof. intros. unfold fits. by rewrite (proj2 (Z.leb_le _ _)). Qed.

(** One decoded character when a byte is completed, and when it is not. *)
Lemma b64_decode_emit i y inp n x rem out :
  0 ≤ i < 64 → 2 ≤ rem < 8 → Z.of_nat (length out) < n →
  (x * 64 + i) / 2 ^ (rem - 2) mod 256 = y →
  u_decode_loop (enc i :: inp) n (u32 x) rem out =
  u_decode_loop inp n (u32 (x * 64 + i)) (rem - 2) (out ++ [y]).
Proof.
  intros Hi Hr Hn <-. rewrite b64_decode_char by lia. destruct (Z.leb_spec 2 rem); [|lia].
  rewrite fits_true; [done|]. rewrite length_app. simpl. lia.
Qed.

Lemma b64_decode_skip i inp n x out :
  0 ≤ i < 64 →
  u_decode_loop (enc i :: inp) n (u32 x) 0 out =
  u_decode_loop inp n (u32 (x * 64 + i)) 6 out.
Proof. intros Hi. by rewrite b64_decode_char by lia. Qed.

Lemma b64_decode_gen m : ∀ s n x out,
  (length s ≤ m)%nat → Forall is_byte s → Z.of_nat (length out + length s) ≤ n →
  ∃ v rem, 0 ≤ rem < 8 ∧
    u_decode_loop (b64_spec s) n (u32 x) 0 out = UBreak v rem (out ++ s).
Proof.
  induction m as [|m IH]; intros [|a [|b [|c s]]] n x out Hl Hb Hn; simpl in Hl, Hn; try lia;
    try (eexists _, 0; split; [lia|]; simpl; by rewrite app_nil_r);
    rewrite ?Forall_cons in Hb; unfold is_byte in Hb; cbn [b64_spec];
    rewrite b64_decode_skip by zdm.
  - rewrite (b64_decode_emit _ a) by (try lia; simpl; zdm).
    eexists _, 4. split; [lia|]. done.
  - rewrite (b64_decode_emit _ a) by (try lia; simpl; zdm).
    rewrite (b64_decode_emit _ b) by (rewrite ?length_app; simpl; zdm).
    eexists _, 2. split; [lia|]. by rewrite <- app_assoc.
  - rewrite (b64_decode_emit _ a) by (try lia; simpl; zdm).
    rewrite (b64_decode_emit _ b) by (rewrite ?length_app; simpl; zdm).
    rewrite (b64_decode_emit _ c) by (rewrite ?length_app; simpl; zdm).
    destruct (IH s n ((((x * 64 + a / 4) * 64 + (a mod 4 * 16 + b / 16)) * 64
      + (b mod 16 * 4 + c / 64)) * 64 + c mod 64) (((out ++ [a]) ++ [b]) ++ [c]))
      as (v & rem & Hr & He); [lia|tauto|rewrite !length_app; simpl; lia|].
    exists v, rem. split; [done|]. change (6 - 2 - 2 - 2) with 0. rewrite He.
    by rewrite <- !app_assoc.
Qed.

Lemma u_decode_spec s m :
  Forall is_byte s → Z.of_nat (length s) ≤ m → u_decode (b64_spec s) m = B64Done (Z.of_nat (length s)) s.
Proof.
  intros Hb Hm. unfold u_decode.
  destruct (b64_decode_gen (length s) s m 0 []) as (v & rem & Hr & Hd); [done|done|done|].
  change 0 with (u32 0) at 1. rewrite Hd. simpl.
  by rewrite (proj2 (Z.leb_gt 8 rem)) by lia.
Qed.

Definition exit_counted (e : u_exit) : b64_exit :=
  match e with
  | UBreak v rem o => B64Break v rem (counted o)
  | UShort => B64Short
  | UOutOfBounds => B64OutOfBounds
  end.

Lemma b64_decode_loop_counted n : ∀ rest pre v rem out fuel,
  (length rest < fuel)%nat → Z.of_nat (length out + length rest) + 1 < 2 ^ 32 →
  Z.of_nat (length (pre ++ rest)) + 1 < 2 ^ 32 →
  b64_decode_loop fuel (pre ++ rest) n (Z.of_nat (length pre)) v rem (counted out) =
    exit_counted (u_decode_loop rest n v rem out) ∧
  ∀ v' r o, u_decode_loop rest n v rem out = UBreak v' r o → (length o ≤ length out + length rest)%nat.
Proof.
  induction rest as [|c rest IH]; intros pre v rem out [|fuel] Hf Ho Hl; simpl in Hf; try lia.
  { cbn [b64_decode_loop u_decode_loop]. rewrite app_nil_r, Z.leb_refl. split; [done|].
    intros v' r o [= <- <- <-]. lia. }
  cbn [b64_decode_loop u_decode_loop]. rewrite length_app in Hl |- *. simpl length in Hl, Ho |- *.
  rewrite (proj2 (Z.leb_gt _ _)) by lia. rewrite Nat2Z.id, nth_middle, u32_small by lia. cbn zeta.
  assert (Hnext : ∀ v rem o, (length o ≤ S (length out))%nat →
    b64_decode_loop fuel (pre ++ c :: rest) n (Z.of_nat (length pre) + 1) v rem (counted o) =
      exit_counted (u_decode_loop rest n v rem o) ∧
    ∀ v' r o', u_decode_loop rest n v rem o = UBreak v' r o' → (length o' ≤ length out + S (length rest))%nat).
  { intros v1 r1 o1 Ho1. destruct (IH (pre ++ [c]) v1 r1 o1 fuel) as [H1 H2];
      [lia|lia|rewrite <- app_assoc, length_app; simpl; lia|].
    rewrite <- app_assoc, length_app, Nat2Z.inj_add in H1. cbn [app length] in H1.
    split; [exact H1|]. intros v2 r2 o2 H. apply H2 in H. lia. }
  assert (Hstop : ∀ v rem, exit_counted (UBreak v rem out) = B64Break v rem (counted out) ∧
    ∀ v' r o, UBreak v rem out = UBreak v' r o → (length o ≤ length out + S (length rest))%nat)
    by (split; [done|]; intros ??? [= <- <- <-]; lia).
  destruct (isspace c); [apply Hnext; lia|]. destruct (c =? 61); [apply Hstop|].
  destruct (_ || _); [done|]. destruct (_ =? 255); [apply Hstop|].
  destruct (8 <=? _); [|apply Hnext; lia]. rewrite b64_put_counted by lia.
  destruct (u_put _ _ _) as [o|] eqn:E; [|done]. apply u_put_len in E.
  cbn [fmap option_fmap option_map]. apply Hnext. lia.
Qed.

Lemma u_decode_len inp m rc o : u_decode inp m = B64Done rc o → rc = Z.of_nat (length o).
Proof.
  unfold u_decode. destruct (u_decode_loop _ _ _ _ _); try done. destruct (8 <=? _); [|by intros [= <- <-]].
  cbn zeta. destruct (u_put _ _ _); [|done]. by intros [= <- <-].
Qed.

Lemma dill_base64_decode_eq inp m :
  Z.of_nat (length inp) + 1 < 2 ^ 31 → dill_base64_decode inp m = u_decode inp m.
Proof.
  intros Hl. unfold dill_base64_decode, u_decode.
  destruct (b64_decode_loop_counted m inp [] 0 0 [] (S (length inp))) as [H1 H2]; [lia|simpl; lia|simpl; lia|].
  cbn [app length] in H1. change (Z.of_nat 0) with 0 in H1. change (0, []) with (counted []). rewrite H1.
  destruct (u_decode_loop inp m 0 0 []) as [v r o| |]; [|done|done].
  specialize (H2 v r o eq_refl). simpl in H2. cbn [exit_counted]. destruct (8 <=? r); cbn zeta.
  - rewrite b64_put_counted by lia. destruct (u_put _ _ _) as [o'|] eqn:E; [|done]. apply u_put_len in E.
    cbn [fmap option_fmap option_map counted]. by rewrite s32_small by lia.
  - cbn [counted fst snd]. by rewrite s32_small by lia.
Qed.

Lemma base64_decode_spec s m :
  Forall is_byte s → encodable s → Z.of_nat (length s) ≤ m →
  dill_base64_decode (b64_spec s) m = B64Done (Z.of_nat (length s)) s.
Proof.
  intros Hb Hl Hm. rewrite dill_base64_decode_eq; [by apply u_decode_spec|].
  rewrite (b64_spec_len (length s) s) by done. revert Hl. zdm.
Qed.

(** The characters of the encoding are ASCII. *)
Lemma enc_ascii i : 0 ≤ enc i ≤ 127.
Proof.
  unfold enc. destruct (nth_in_or_default (Z.to_nat i) ENCODEMAP 0) as [H| ->]; [|lia].
  assert (E : forallb (λ c, (0 <=? c) && (c <=? 127)) ENCODEMAP = true) by (vm_compute; reflexivity).
  rewrite forallb_forall in E. specialize (E _ H). apply andb_true_iff in E as [?%Z.leb_le ?%Z.leb_le]. lia.
Qed.

Lemma b64_spec_ascii m : ∀ s, (length s ≤ m)%nat → Forall (λ c, 0 ≤ c ≤ 127) (b64_spec s).
Proof.
  induction m as [|m IH]; intros [|a [|b [|c s]]] Hl; simpl in Hl; try lia; cbn [b64_spec];
    repeat (apply Forall_cons_2; [first [apply enc_ascii|lia]|]); try apply Forall_nil_2. apply IH. lia.
Qed.

(** ** What the decoder reads of a text *)

(** The alphabet of RFC 4648. *)
Definition in_alphabet (c : Z) : bool :=
  ((65 <=? c) && (c <=? 90)) || ((97 <=? c) && (c <=? 122)) || ((48 <=? c) && (c <=? 57)) || (c =? 43) || (c =? 47).

(** The characters of the alphabet up to the first character that is neither one nor white
    space, and the text from that character on. *)
Fixpoint b64_text (s : list Z) : list Z * list Z :=
  match s with
  | [] => ([], [])
  | c :: s' =>
      if isspace c then b64_text s'
      else if in_alphabet c then (c :: (b64_text s').1, (b64_text s').2)
      else ([], s)
  end.

Definition decodemap_ok (c : Z) : bool :=
  (c =? 61) || Bool.eqb (nth (Z.to_nat c) DECODEMAP 0 =? 255) (negb (in_alphabet c)).

Lemma decodemap_alphabet c : 0 ≤ c ≤ 127 → c ≠ 61 → (nth (Z.to_nat c) DECODEMAP 0 =? 255) = negb (in_alphabet c).
Proof.
  intros Hc Hn. assert (forallb decodemap_ok (map Z.of_nat (seq 0 128)) = true) as H by reflexivity.
  rewrite forallb_forall in H. apply eqb_prop.
  assert (Ho : decodemap_ok c = true) by (apply H, in_map_iff; exists (Z.to_nat c); split; [lia|apply in_seq; lia]).
  unfold decodemap_ok in Ho. by rewrite (proj2 (Z.eqb_neq c 61)) in Ho.
Qed.

(** The decoder turns [K] characters of the alphabet into the whole bytes of [6 * K] bits. *)
Lemma u_decode_loop_text n : ∀ s v rem out k,
  Forall (λ c, c ≤ 127) s → 0 ≤ rem < 8 → 8 * Z.of_nat (length out) + rem = 6 * k → Z.of_nat (length out) ≤ n →
  let K := k + Z.of_nat (length (b64_text s).1) in
  match u_decode_loop s n v rem out with
  | UShort => 8 * (n + 1) ≤ 6 * K
  | UOutOfBounds => 6 * K < 8 * (n + 1) ∧ ∃ c, head (b64_text s).2 = Some c ∧ c < 0
  | UBreak _ r o => 6 * K < 8 * (n + 1) ∧ (∀ c, head (b64_text s).2 = Some c → 0 ≤ c) ∧
      8 * Z.of_nat (length o) + r = 6 * K ∧ 0 ≤ r < 8
  end.
Proof.
  induction s as [|c s IH]; intros v rem out k Hs Hr Hk Hn; cbn [b64_text u_decode_loop].
  { cbn. split_and!; [lia|done|lia|lia|lia]. }
  apply Forall_cons in Hs as [Hc Hs]. destruct (isspace c); [by apply IH|].
  destruct (Z.eqb_spec c 61) as [->|H61].
  { cbn. split_and!; [lia|intros ? [= <-]; lia|lia|lia|lia]. }
  destruct (Z.ltb_spec c 0) as [H0|H0]; cbn [orb].
  { assert (in_alphabet c = false) as -> by (unfold in_alphabet; lia). cbn. split; [lia|by exists c]. }
  rewrite (proj2 (Z.ltb_ge 255 c)) by lia. rewrite decodemap_alphabet by lia.
  destruct (in_alphabet c); cbn [negb fst snd].
  2: { cbn. split_and!; [lia|intros ? [= <-]; lia|lia|lia|lia]. }
  cbn [length]. cbn zeta. rewrite Nat2Z.inj_succ.
  replace (k + Z.succ (Z.of_nat (length (b64_text s).1))) with ((k + 1) + Z.of_nat (length (b64_text s).1)) by lia.
  destruct (Z.leb_spec 8 (rem + 6)); [|apply IH; [done|lia..]].
  destruct (u_put n out _) as [o|] eqn:E.
  - unfold u_put in E. destruct (Z.leb_spec n (Z.of_nat (length out))); [done|]. injection E as <-.
    apply IH; [done|lia| |]; rewrite length_app; simpl; lia.
  - unfold u_put in E. destruct (Z.leb_spec n (Z.of_nat (length out))); [lia|done].
Qed.

Lemma u_decode_text s n :
  Forall (λ c, c ≤ 127) s → 0 ≤ n →
  let K := Z.of_nat (length (b64_text s).1) in
  match u_decode s n with
  | B64Fail => 8 * (n + 1) ≤ 6 * K
  | B64Undefined => 6 * K < 8 * (n + 1) ∧ ∃ c, head (b64_text s).2 = Some c ∧ c < 0
  | B64Done rc o => 6 * K < 8 * (n + 1) ∧ (∀ c, head (b64_text s).2 = Some c → 0 ≤ c) ∧ rc = 6 * K / 8
  | B64Unfinished => False
  end.
Proof.
  intros Hs Hn. pose proof (u_decode_loop_text n s 0 0 [] 0 Hs ltac:(lia) ltac:(done) ltac:(done)) as H.
  unfold u_decode. destruct (u_decode_loop s n 0 0 []) as [v r o| |]; [|done|done].
  destruct H as (H1 & H2 & H3 & H4). rewrite (proj2 (Z.leb_gt 8 r)) by lia.
  split_and!; [done|done|zdm].
Qed.

(** The counter of the encoder's loop is 32 bits wide: an input of [2 ^ 32] bytes or more is
    never reported to be encoded, however large the buffer. *)
Lemma b64_encode_loop_long inp n v0 r0 w0 : ∀ fuel ii v rem w,
  2 ^ 32 ≤ Z.of_nat (length inp) → 0 ≤ ii < 2 ^ 32 →
  b64_encode_loop fuel inp n ii v rem w ≠ B64Break v0 r0 w0.
Proof.
  induction fuel as [|fuel IH]; intros ii v rem w Hl Hi; cbn [b64_encode_loop]; [done|].
  rewrite (proj2 (Z.leb_gt _ _)) by lia. cbn zeta. destruct (b64_drain _ _ _ _ _) as [[r w']|]; [|done].
  apply IH; [done|]. unfold u32. apply Z.mod_pos_bound. lia.
Qed.

Lemma base64_endless inp n rc buf :
  2 ^ 32 ≤ Z.of_nat (length inp) → dill_base64_encode inp n ≠ B64Done rc buf.
Proof.
  intros Hl. unfold dill_base64_encode. destruct (b64_encode_loop _ _ _ _ _ _ _) eqn:E; try done.
  by apply b64_encode_loop_long in E.
Qed.

(** C30. Base64, for inputs whose encoding is shorter than [2 ^ 31] characters, the largest
    length the [int] result can report: the encoder fails exactly when the encoding, four
    characters for every three bytes begun, and its NUL do not fit the buffer; otherwise it
    writes the RFC 4648 encoding and the NUL, returns the number of characters, and decoding
    those, into any buffer that can hold the original bytes, returns the bytes and their
    number. *)
Theorem dill_base64_roundtrip s n :
  Forall is_byte s → (Z.of_nat (length s) + 2) / 3 * 4 < 2 ^ 31 →
  (n < (Z.of_nat (length s) + 2) / 3 * 4 + 1 → dill_base64_encode s n = B64Fail) ∧
  ((Z.of_nat (length s) + 2) / 3 * 4 + 1 ≤ n →
    ∃ io buf, dill_base64_encode s n = B64Done io buf ∧ buf = b64_spec s ++ [0] ∧
      io = (Z.of_nat (length s) + 2) / 3 * 4 ∧
      ∀ m, Z.of_nat (length s) ≤ m →
        dill_base64_decode (take (Z.to_nat io) buf) m = B64Done (Z.of_nat (length s)) s).
Proof.
  intros Hb Hl. rewrite dill_base64_encode_eq by done. destruct (Z.leb_spec ((Z.of_nat (length s) + 2) / 3 * 4 + 1) n).
  - split; [lia|]. intros _. eexists _, _. split_and!; [done..|]. intros m Hm.
    rewrite <- (b64_spec_len (length s) s), Nat2Z.id, take_app_length by done. by apply base64_decode_spec.
  - split; [done|lia].
Qed.

Lemma dill_base64_roundtrip_witness :
  ∃ io buf, dill_base64_encode [65; 1; 2; 255] 9 = B64Done io buf ∧ buf = [81; 81; 69; 67; 47; 119; 61; 61; 0] ∧
    dill_base64_decode (take (Z.to_nat io) buf) 4 = B64Done 4 [65; 1; 2; 255] ∧
    dill_base64_encode [65; 1; 2; 255] 8 = B64Fail.
Proof.
  assert (Hb : Forall is_byte [65; 1; 2; 255]) by (repeat constructor; vm_compute; congruence).
  destruct (dill_base64_roundtrip [65; 1; 2; 255] 9 Hb) as [_ H]; [reflexivity|].
  destruct H as (io & buf & He & Hf & _ & Hd); [vm_compute; congruence|]. exists io, buf. split_and!; [done|done| |].
  - apply (Hd 4). vm_compute. congruence.
  - apply (dill_base64_roundtrip [65; 1; 2; 255] 8 Hb); reflexivity.
Defined.
