(* ===== verification/Sha1.v ===== *)
(** SHA-1 as [utils.c] computes it, byte by byte and in place, for the
    WebSocket handshake; and the FIPS 180-4 definition it is proved equal to. *)

From S2P Require Import Prelude.
From Stdlib Require Import ZArith Lia.
From stdpp Require Import base list.
Open Scope Z_scope.

Definition DILL_SHA1_HASH_LEN : nat := 20.
Definition DILL_SHA1_BLOCK_LEN : Z := 64.

(** [buffer] is 16 words, [state] 5 words; both are also accessed as bytes. *)
Record dill_sha1 := mk_sha1 {
  buffer : list Z;
  state : list Z;
  bytes_hashed : Z;
  buffer_offset : Z;
  is_little_endian : bool;
}.

Definition word (ws : list Z) (i : nat) : Z := nth i ws 0.

(** [num << bits | num >> (32 - bits)] on a [uint32_t]. *)
Definition dill_sha1_rol32 (num bits : Z) : Z :=
  Z.lor (u32 (Z.shiftl num bits)) (Z.shiftr num (32 - bits)).

(** [*(uint8_t* )] store at byte [i] of an array of words: the byte's weight in
    its word depends on the endianness of the machine. *)
Definition set_byte (le : bool) (ws : list Z) (i data : Z) : list Z :=
  let k := Z.to_nat (i / 4) in
  let sh := 8 * (if le then i mod 4 else 3 - i mod 4) in
  <[k := Z.lor (Z.ldiff (word ws k) (Z.shiftl 255 sh)) (Z.shiftl data sh)]> ws.

(** The bytes of a word in memory order. *)
Definition word_bytes (le : bool) (w : Z) : list Z :=
  let b i := Z.land (Z.shiftr w (8 * i)) 255 in
  if le then [b 0; b 1; b 2; b 3] else [b 3; b 2; b 1; b 0].

(** [le] is the endianness of the machine; [test.c[0]] reads the byte at the
    lowest address of the word 1. *)
Definition dill_sha1_init (le : bool) (self : dill_sha1) : dill_sha1 :=
  mk_sha1 (buffer self)
    [0x67452301; 0xefcdab89; 0x98badcfe; 0x10325476; 0xc3d2e1f0]
    0 0 (negb (nth 0 (word_bytes le 1) 0 =? 0)).

(** One turn of the 80-step loop: the schedule, in place, then the round. *)
Definition sha1_round (st : list Z * (Z * Z * Z * Z * Z)) (i : nat)
    : list Z * (Z * Z * Z * Z * Z) :=
  let '(buf, (a, b, c, d, e)) := st in
  let at_ k := word buf ((i + k) mod 16)%nat in
  let buf :=
    if (16 <=? i)%nat then
      let t := Z.lxor (Z.lxor (Z.lxor (at_ 13%nat) (at_ 8%nat)) (at_ 2%nat)) (at_ 0%nat) in
      <[(i mod 16)%nat := dill_sha1_rol32 t 1]> buf
    else buf in
  let t :=
    if (i <? 20)%nat then u32 (Z.lxor d (Z.land b (Z.lxor c d)) + 0x5A827999)
    else if (i <? 40)%nat then u32 (Z.lxor (Z.lxor b c) d + 0x6ED9EBA1)
    else if (i <? 60)%nat then u32 (Z.lor (Z.land b c) (Z.land d (Z.lor b c)) + 0x8F1BBCDC)
    else u32 (Z.lxor (Z.lxor b c) d + 0xCA62C1D6) in
  let t := u32 (t + (dill_sha1_rol32 a 5 + e + word buf (i mod 16)%nat)) in
  (buf, (t, a, dill_sha1_rol32 b 30, c, d)).

Definition dill_sha1_add (self : dill_sha1) (data : Z) : dill_sha1 :=
  let le := is_little_endian self in
  let off := buffer_offset self in
  let buf := set_byte le (buffer self) (if le then Z.lxor off 3 else off) data in
  let off := u8 (off + 1) in
  if off =? DILL_SHA1_BLOCK_LEN then
    let s k := word (state self) k in
    let '(buf, (a, b, c, d, e)) :=
      fold_left sha1_round (seq 0 80) (buf, (s 0%nat, s 1%nat, s 2%nat, s 3%nat, s 4%nat)) in
    mk_sha1 buf
      [u32 (s 0%nat + a); u32 (s 1%nat + b); u32 (s 2%nat + c); u32 (s 3%nat + d); u32 (s 4%nat + e)]
      (bytes_hashed self) 0 le
  else mk_sha1 buf (state self) (bytes_hashed self) off le.

Definition dill_sha1_hashbyte (self : dill_sha1) (data : Z) : dill_sha1 :=
  dill_sha1_add
    (mk_sha1 (buffer self) (state self) (u32 (bytes_hashed self + 1))
       (buffer_offset self) (is_little_endian self)) data.

(** [while(self->buffer_offset != 56) dill_sha1_add(self, 0x00)]. *)
Fixpoint sha1_pad (fuel : nat) (self : dill_sha1) : option dill_sha1 :=
  if buffer_offset self =? 56 then Some self
  else match fuel with
       | O => None
       | S fuel => sha1_pad fuel (dill_sha1_add self 0)
       end.

Definition sha1_swap (w : Z) : Z :=
  Z.lor (Z.lor (Z.lor (Z.land (u32 (Z.shiftl w 24)) 0xFF000000) (Z.land (u32 (Z.shiftl w 8)) 0x00FF0000))
    (Z.land (Z.shiftr w 8) 0x0000FF00)) (Z.land (Z.shiftr w 24) 0x000000FF).

(** The 20 bytes the returned pointer designates. *)
Definition dill_sha1_result (fuel : nat) (self : dill_sha1) : option (list Z) :=
  self ← sha1_pad fuel (dill_sha1_add self 0x80);
  let n := bytes_hashed self in
  let self := fold_left dill_sha1_add
    [0; 0; 0; u8 (Z.shiftr n 29); u8 (Z.shiftr n 21); u8 (Z.shiftr n 13); u8 (Z.shiftr n 5);
     u8 (Z.shiftl n 3)] self in
  let st := if is_little_endian self then map sha1_swap (state self) else state self in
  Some (flat_map (word_bytes (is_little_endian self)) st).

(** * FIPS 180-4 *)

Definition ROTL (n x : Z) : Z := Z.lor ((x * 2 ^ n) mod 2 ^ 32) (x / 2 ^ (32 - n)).
Definition Ch (x y z : Z) : Z := Z.lor (Z.land x y) (Z.ldiff z x).
Definition Parity (x y z : Z) : Z := Z.lxor (Z.lxor x y) z.
Definition Maj (x y z : Z) : Z := Z.lor (Z.lor (Z.land x y) (Z.land x z)) (Z.land y z).

Definition f_t (t : nat) (x y z : Z) : Z :=
  if (t <? 20)%nat then Ch x y z else if (t <? 40)%nat then Parity x y z
  else if (t <? 60)%nat then Maj x y z else Parity x y z.
Definition K_t (t : nat) : Z :=
  if (t <? 20)%nat then 0x5a827999 else if (t <? 40)%nat then 0x6ed9eba1
  else if (t <? 60)%nat then 0x8f1bbcdc else 0xca62c1d6.

(** The message schedule: the 16 words of the block, extended [n] times. *)
Fixpoint schedule (n : nat) (block : list Z) : list Z :=
  match n with
  | O => block
  | S n =>
      let W := schedule n block in
      let t := (16 + n)%nat in
      let w i := word W (t - i)%nat in
      W ++ [ROTL 1 (Z.lxor (Z.lxor (Z.lxor (w 3%nat) (w 8%nat)) (w 14%nat)) (w 16%nat))]
  end.

Definition compress_step (W : list Z) (v : Z * Z * Z * Z * Z) (t : nat) : Z * Z * Z * Z * Z :=
  let '(a, b, c, d, e) := v in
  ((ROTL 5 a + f_t t b c d + e + K_t t + word W t) mod 2 ^ 32, a, ROTL 30 b, c, d).

Definition compress (H : list Z) (block : list Z) : list Z :=
  let h k := word H k in
  let '(a, b, c, d, e) :=
    fold_left (compress_step (schedule 64 block)) (seq 0 80)
      (h 0%nat, h 1%nat, h 2%nat, h 3%nat, h 4%nat) in
  [(h 0%nat + a) mod 2 ^ 32; (h 1%nat + b) mod 2 ^ 32; (h 2%nat + c) mod 2 ^ 32;
   (h 3%nat + d) mod 2 ^ 32; (h 4%nat + e) mod 2 ^ 32].

Definition H0 : list Z := [0x67452301; 0xefcdab89; 0x98badcfe; 0x10325476; 0xc3d2e1f0].

(** Big-endian bytes and words. *)
Fixpoint to_words (bs : list Z) : list Z :=
  match bs with
  | a :: b :: c :: d :: bs => (((a * 256 + b) * 256 + c) * 256 + d) :: to_words bs
  | _ => []
  end.
Definition be_bytes (k : nat) (v : Z) : list Z :=
  rev (map (λ i, v / 2 ^ (8 * Z.of_nat i) mod 256) (seq 0 k)).

(** The padding: a one bit, zeros to 448 modulo 512, the length in bits. *)
Definition padded (msg : list Z) : list Z :=
  let n := length msg in
  msg ++ [0x80] ++ repeat 0 (Z.to_nat ((55 - Z.of_nat n) mod 64)) ++ be_bytes 8 (8 * Z.of_nat n).

Fixpoint blocks (fuel : nat) (ws : list Z) : list (list Z) :=
  match fuel, ws with
  | S fuel, _ :: _ => take 16 ws :: blocks fuel (drop 16 ws)
  | _, _ => []
  end.

Definition sha1_spec (msg : list Z) : list Z :=
  let ws := to_words (padded msg) in
  flat_map (be_bytes 4) (fold_left compress (blocks (length ws) ws) H0).

(** Hash a message the way [dill_ws_response_key] does. *)
Definition sha1_of (le : bool) (junk : dill_sha1) (msg : list Z) : option (list Z) :=
  dill_sha1_result 64 (fold_left dill_sha1_hashbyte msg (dill_sha1_init le junk)).

(** * Bit-level facts *)

Lemma testbit_255 i : 0 ≤ i → Z.testbit 255 i = bool_decide (i < 8).
Proof.
  intros Hi. change 255 with (Z.ones 8). case_bool_decide.
  - apply Z.ones_spec_low. lia.
  - apply Z.ones_spec_high. lia.
Qed.

(** The byte of [w] at bit [sh], in place. *)
Lemma land_mask w sh :
  0 ≤ sh → Z.land w (Z.shiftl 255 sh) = (w / 2 ^ sh) mod 256 * 2 ^ sh.
Proof.
  intros Hs. rewrite <- shiftr_div, <- land_255, <- Z.shiftl_mul_pow2 by lia.
  apply Z.bits_inj'. intros i Hi. rewrite Z.land_spec, !Z.shiftl_spec, Z.land_spec by lia.
  destruct (decide (i < sh)).
  - rewrite !(Z.testbit_neg_r _ (i - sh)) by lia. by rewrite ?andb_false_r.
  - rewrite Z.shiftr_spec by lia. by replace (i - sh + sh) with i by lia.
Qed.

Lemma set_byte_word w sh d :
  0 ≤ sh → is_byte d →
  Z.lor (Z.ldiff w (Z.shiftl 255 sh)) (Z.shiftl d sh)
  = w - (w / 2 ^ sh) mod 256 * 2 ^ sh + d * 2 ^ sh.
Proof.
  intros Hs Hd. rewrite lor_add.
  - rewrite <- (land_mask w), (Z.shiftl_mul_pow2 d) by lia.
    rewrite <- (Z.lor_ldiff_and w (Z.shiftl 255 sh)) at 2.
    rewrite (lor_add (Z.ldiff _ _)); [lia|].
    rewrite Z.land_assoc, (Z.land_comm (Z.ldiff _ _)), <- Z.land_assoc.
    by rewrite Z.land_ldiff, Z.land_0_r.
  - apply Z.bits_inj'. intros i Hi. rewrite Z.land_spec, Z.ldiff_spec, Z.bits_0.
    rewrite !Z.shiftl_spec by lia. destruct (decide (sh ≤ i < sh + 8)).
    + rewrite testbit_255 by lia. rewrite bool_decide_true by lia. by rewrite andb_false_r.
    + destruct (decide (i < sh)); [rewrite (Z.testbit_neg_r d), andb_false_r by lia; done|].
      rewrite (Z.bits_above_log2 d), andb_false_r; [done|unfold is_byte in Hd; lia|].
      unfold is_byte in Hd. destruct (decide (d = 0)) as [->|]; [simpl; lia|].
      apply Z.log2_lt_pow2; [lia|]. apply Z.lt_le_trans with (2 ^ 8); [simpl; lia|].
      apply Z.pow_le_mono_r; lia.
Qed.

Lemma Ch_code b c d : Z.lxor d (Z.land b (Z.lxor c d)) = Ch b c d.
Proof.
  unfold Ch. apply Z.bits_inj'. intros i Hi.
  rewrite !Z.lxor_spec, Z.lor_spec, !Z.land_spec, Z.lxor_spec, Z.ldiff_spec.
  by destruct (Z.testbit b i), (Z.testbit c i), (Z.testbit d i).
Qed.

Lemma Maj_code b c d : Z.lor (Z.land b c) (Z.land d (Z.lor b c)) = Maj b c d.
Proof.
  unfold Maj. apply Z.bits_inj'. intros i Hi.
  rewrite !Z.lor_spec, !Z.land_spec, Z.lor_spec.
  by destruct (Z.testbit b i), (Z.testbit c i), (Z.testbit d i).
Qed.

Lemma rol32_ROTL x n : 0 ≤ n ≤ 32 → dill_sha1_rol32 x n = ROTL n x.
Proof.
  intros. unfold dill_sha1_rol32, ROTL, u32.
  by rewrite Z.shiftl_mul_pow2, Z.shiftr_div_pow2 by lia.
Qed.

(** * The in-place schedule is the FIPS schedule *)

Lemma schedule_length n block : length (schedule n block) = (length block + n)%nat.
Proof. induction n; simpl; [lia|]. rewrite length_app, IHn. simpl. lia. Qed.

Lemma word_app_l l k i : (i < length l)%nat → word (l ++ k) i = word l i.
Proof. intros. unfold word. by apply app_nth1. Qed.

Lemma schedule_stable n m block t :
  length block = 16%nat → (t < 16 + n)%nat → (n ≤ m)%nat →
  word (schedule m block) t = word (schedule n block) t.
Proof.
  intros Hb Ht Hm. induction Hm as [|m Hm IH]; [done|]. simpl.
  rewrite word_app_l; [done|]. rewrite schedule_length. lia.
Qed.

Lemma schedule_last n block :
  length block = 16%nat →
  word (schedule (S n) block) (16 + n)%nat =
  let w i := word (schedule n block) (16 + n - i)%nat in
  ROTL 1 (Z.lxor (Z.lxor (Z.lxor (w 3%nat) (w 8%nat)) (w 14%nat)) (w 16%nat)).
Proof.
  intros Hb. cbn [schedule]. unfold word at 1.
  rewrite app_nth2; rewrite schedule_length, Hb; [|lia].
  by replace (16 + n - (16 + n))%nat with O by lia.
Qed.

Lemma schedule_step N block t :
  length block = 16%nat → (16 ≤ t < 16 + N)%nat →
  let w i := word (schedule N block) (t - i)%nat in
  word (schedule N block) t =
  ROTL 1 (Z.lxor (Z.lxor (Z.lxor (w 3%nat) (w 8%nat)) (w 14%nat)) (w 16%nat)).
Proof.
  intros Hb Ht. cbn zeta. remember (t - 16)%nat as n eqn:Hn.
  assert (Ht' : t = (16 + n)%nat) by lia. clear Hn. subst t.
  rewrite (schedule_stable (S n) N block) by lia. rewrite schedule_last by done. cbn zeta.
  by rewrite !(schedule_stable n N) by lia.
Qed.

(** After [i] turns the ring holds the last sixteen words of the schedule. *)
Definition ring (W buf : list Z) (i : nat) : Prop :=
  length buf = 16%nat ∧
  ∀ t, (Nat.max i 16 - 16 ≤ t < Nat.max i 16)%nat → word buf (t mod 16)%nat = word W t.

Lemma ring_index i k j :
  (16 ≤ i)%nat → (k + j = 16)%nat → ((i + k) mod 16 = (i - j) mod 16)%nat.
Proof.
  intros. replace (i + k)%nat with (i - j + 1 * 16)%nat by lia. apply Nat.Div0.mod_add.
Qed.

Lemma mod16_inj t i : (t mod 16 = i mod 16)%nat → (t ≤ i < t + 16)%nat → t = i.
Proof.
  intros E H. pose proof (Nat.div_mod_eq t 16). pose proof (Nat.div_mod_eq i 16). lia.
Qed.

Lemma word_insert_eq l i v : (i < length l)%nat → word (<[i := v]> l) i = v.
Proof.
  intros Hi. unfold word. apply nth_lookup_Some. by apply list_lookup_insert_eq.
Qed.

Lemma word_insert_ne l i j v : i ≠ j → word (<[i := v]> l) j = word l j.
Proof.
  intros Hi. unfold word. rewrite !nth_lookup. by rewrite list_lookup_insert_ne.
Qed.

Lemma round_sum f K r e w :
  u32 (u32 (f + K) + (r + e + w)) = (r + f + e + K + w) mod 2 ^ 32.
Proof. unfold u32. rewrite Z.add_mod_idemp_l by lia. f_equal. lia. Qed.

Lemma sha1_round_spec block buf v i :
  let W := schedule 64 block in
  length block = 16%nat → (i < 80)%nat → ring W buf i →
  ∃ buf', sha1_round (buf, v) i = (buf', compress_step W v i) ∧ ring W buf' (S i).
Proof.
  intros W Hb Hi [Hl Hr]. destruct v as [[[[a b] c] d] e].
  set (buf' := if (16 <=? i)%nat then
      <[(i mod 16)%nat := dill_sha1_rol32 (Z.lxor (Z.lxor (Z.lxor (word buf ((i + 13) mod 16)%nat)
        (word buf ((i + 8) mod 16)%nat)) (word buf ((i + 2) mod 16)%nat)) (word buf ((i + 0) mod 16)%nat)) 1]> buf
    else buf).
  assert (Hring : ring W buf' (S i)).
  { unfold buf'. destruct (Nat.leb_spec 16 i) as [H16|H16].
    - split; [by rewrite length_insert|]. intros t Ht.
      destruct (decide (t = i)) as [->|Hne].
      + rewrite word_insert_eq by (rewrite Hl; apply Nat.mod_upper_bound; lia).
        rewrite rol32_ROTL by lia. unfold W. rewrite schedule_step by (done || lia). fold W.
        rewrite (ring_index i 13 3), (ring_index i 8 8), (ring_index i 2 14) by lia.
        rewrite (ring_index i 0 16) by lia.
        by rewrite !Hr by lia.
      + rewrite word_insert_ne; [apply Hr; lia|]. intros E. apply Hne.
        apply (mod16_inj t i); [by symmetry|lia].
    - split; [done|]. intros t Ht. apply Hr. lia. }
  exists buf'. split; [|done].
  assert (Hw : word buf' (i mod 16)%nat = word W i) by (apply Hring; lia).
  unfold sha1_round. fold buf'. cbn [compress_step]. rewrite Hw.
  unfold compress_step, f_t, K_t. rewrite !rol32_ROTL, Ch_code, Maj_code by lia.
  by destruct (i <? 20)%nat, (i <? 40)%nat, (i <? 60)%nat; rewrite round_sum.
Qed.

(** * The 80 rounds over one block *)

Lemma rounds_spec block n :
  let W := schedule 64 block in
  length block = 16%nat → ∀ i buf v, (i + n ≤ 80)%nat → ring W buf i →
  ∃ buf', fold_left sha1_round (seq i n) (buf, v) = (buf', fold_left (compress_step W) (seq i n) v)
    ∧ length buf' = 16%nat.
Proof.
  intros W Hb. induction n as [|n IH]; intros i buf v Hi Hr.
  - exists buf. split; [done|]. apply Hr.
  - destruct (sha1_round_spec block buf v i Hb ltac:(lia) Hr) as (buf1 & E & Hr1).
    destruct (IH (S i) buf1 (compress_step W v i) ltac:(lia) Hr1) as (buf2 & E2 & Hl).
    exists buf2. split; [|done]. cbn [seq fold_left]. by rewrite E.
Qed.

Lemma ring_start block : length block = 16%nat → ring (schedule 64 block) block 0.
Proof.
  intros Hb. split; [done|]. intros t Ht. rewrite Nat.mod_small by lia.
  by rewrite (schedule_stable 0 64) by lia.
Qed.

(** * 32-bit words *)

Definition w32 (z : Z) : Prop := 0 ≤ z < 2 ^ 32.

Lemma w32_bits z : w32 z ↔ 0 ≤ z ∧ ∀ i, 32 ≤ i → Z.testbit z i = false.
Proof.
  unfold w32. split.
  - intros [H0 H1]. split; [done|]. intros i Hi.
    rewrite <- (Z.mod_small z (2 ^ 32)) by lia. by apply Z.mod_pow2_bits_high.
  - intros [H0 Hb]. split; [done|]. rewrite <- (Z.mod_small z (2 ^ 32)).
    { apply Z.mod_pos_bound. lia. }
    split; [done|]. destruct (decide (z = 0)) as [->|]; [lia|].
    apply Z.log2_lt_cancel. rewrite Z.log2_pow2 by lia.
    destruct (decide (32 ≤ Z.log2 z)) as [H|]; [|lia].
    apply Hb in H. rewrite Z.bit_log2 in H by lia. done.
Qed.

Lemma w32_mod z : w32 (z mod 2 ^ 32).
Proof. apply Z.mod_pos_bound. lia. Qed.

Lemma w32_bitop f op a b :
  (∀ i, Z.testbit (op a b) i = f (Z.testbit a i) (Z.testbit b i)) → f false false = false →
  0 ≤ op a b → w32 a → w32 b → w32 (op a b).
Proof.
  rewrite !w32_bits. intros Hop Hf H [_ Ha] [_ Hb]. split; [done|].
  intros i Hi. by rewrite Hop, Ha, Hb.
Qed.

Lemma w32_lor a b : w32 a → w32 b → w32 (Z.lor a b).
Proof.
  intros Ha Hb. apply (w32_bitop orb); [apply Z.lor_spec|done| |done|done].
  apply Z.lor_nonneg. unfold w32 in *. lia.
Qed.

Lemma w32_lxor a b : w32 a → w32 b → w32 (Z.lxor a b).
Proof.
  intros Ha Hb. apply (w32_bitop xorb); [apply Z.lxor_spec|done| |done|done].
  apply Z.lxor_nonneg. unfold w32 in *. lia.
Qed.

Lemma w32_rol x n : 0 ≤ n ≤ 32 → w32 x → w32 (dill_sha1_rol32 x n).
Proof.
  intros Hn Hx. apply w32_lor; [apply w32_mod|]. rewrite shiftr_div by lia.
  unfold w32 in *. split; [apply Z.div_pos; lia|].
  apply Z.le_lt_trans with x; [|lia]. apply Z.div_le_upper_bound; nia.
Qed.

Lemma w32_word ws i : Forall w32 ws → w32 (word ws i).
Proof.
  intros H. unfold word. destruct (nth_in_or_default i ws 0) as [Hi| ->]; [|done].
  by apply (Forall_forall w32 ws), list_elem_of_In.
Qed.
#[export] Hint Resolve w32_mod w32_lor w32_lxor w32_word : dill.

Lemma round_w32 buf v i : Forall w32 buf → Forall w32 (sha1_round (buf, v) i).1.
Proof.
  intros H. destruct v as [[[[a b] c] d] e]. unfold sha1_round. cbn [fst].
  destruct (16 <=? i)%nat; [|done]. apply Forall_insert; [done|].
  apply w32_rol; [lia|]. auto 10 with dill.
Qed.

Lemma rounds_w32 ts st : Forall w32 st.1 → Forall w32 (fold_left sha1_round ts st).1.
Proof.
  revert st. induction ts as [|i ts IH]; intros [buf v] H; [done|].
  cbn [fold_left]. apply IH. by apply round_w32.
Qed.

(** * Bytes of the buffer *)

(** Byte [j] of an array of words in big-endian order. *)
Definition get_be (ws : list Z) (j : nat) : Z :=
  (word ws (j / 4) / 2 ^ (8 * (3 - Z.of_nat (j mod 4)))) mod 256.

Definition with_byte (w sh d : Z) : Z :=
  Z.lor (Z.ldiff w (Z.shiftl 255 sh)) (Z.shiftl d sh).

Lemma testbit_byte d i : is_byte d → 8 ≤ i → Z.testbit d i = false.
Proof.
  intros Hd Hi. unfold is_byte in Hd. rewrite <- (Z.mod_small d (2 ^ 8)) by lia.
  apply Z.mod_pow2_bits_high. lia.
Qed.

Lemma with_byte_bits w sh d i :
  0 ≤ sh → is_byte d → 0 ≤ i →
  Z.testbit (with_byte w sh d) i =
  if bool_decide (sh ≤ i < sh + 8) then Z.testbit d (i - sh) else Z.testbit w i.
Proof.
  intros Hs Hd Hi. unfold with_byte.
  rewrite Z.lor_spec, Z.ldiff_spec, !Z.shiftl_spec by lia. case_bool_decide as H.
  - rewrite testbit_255, bool_decide_true by lia. by rewrite andb_false_r.
  - destruct (decide (i < sh)).
    + rewrite !(Z.testbit_neg_r _ (i - sh)) by lia. by rewrite orb_false_r, andb_true_r.
    + rewrite testbit_255, bool_decide_false by lia.
      rewrite (testbit_byte d) by (done || lia). by rewrite orb_false_r, andb_true_r.
Qed.

Lemma with_byte_w32 w sh d : 0 ≤ sh ≤ 24 → is_byte d → w32 w → w32 (with_byte w sh d).
Proof.
  intros Hs Hd Hw. apply w32_bits. apply w32_bits in Hw as [Hw0 Hw]. split.
  - unfold with_byte. apply Z.lor_nonneg. split; [apply Z.ldiff_nonneg; by left|].
    apply Z.shiftl_nonneg. unfold is_byte in Hd. lia.
  - intros i Hi. rewrite with_byte_bits by (done || lia).
    case_bool_decide; [lia|by apply Hw].
Qed.

Lemma byte_bits w sh i :
  0 ≤ sh → 0 ≤ i →
  Z.testbit ((w / 2 ^ sh) mod 256) i = bool_decide (i < 8) && Z.testbit w (i + sh).
Proof.
  intros Hs Hi. rewrite <- land_255, Z.land_spec, testbit_255, <- shiftr_div by lia.
  rewrite Z.shiftr_spec by lia. apply andb_comm.
Qed.

Lemma with_byte_get w k k' d :
  0 ≤ k ≤ 3 → 0 ≤ k' ≤ 3 → is_byte d →
  (with_byte w (8 * k) d / 2 ^ (8 * k')) mod 256 =
  if bool_decide (k = k') then d else (w / 2 ^ (8 * k')) mod 256.
Proof.
  intros Hk Hk' Hd. apply Z.bits_inj'. intros i Hi.
  rewrite byte_bits, with_byte_bits by (done || lia).
  destruct (decide (k = k')) as [->|Hne].
  - rewrite (bool_decide_true (k' = k')) by done. destruct (decide (i < 8)).
    + rewrite !bool_decide_true by lia. simpl. f_equal. lia.
    + rewrite bool_decide_false by lia. by rewrite (testbit_byte d i) by (done || lia).
  - rewrite (bool_decide_false (k = k')), byte_bits by (done || lia).
    destruct (decide (i < 8)).
    + rewrite bool_decide_true, bool_decide_false by lia. done.
    + by rewrite bool_decide_false by lia.
Qed.

(** Both endiannesses store byte [j] of the message at the same place. *)
Lemma set_byte_be le ws (j : nat) d :
  (j < 64)%nat →
  set_byte le ws (if le then Z.lxor (Z.of_nat j) 3 else Z.of_nat j) d
  = <[(j / 4)%nat := with_byte (word ws (j / 4)) (8 * (3 - Z.of_nat (j mod 4))) d]> ws.
Proof.
  intros Hj. unfold set_byte, with_byte.
  assert (Hall : forallb (λ j : nat, forallb (λ le : bool,
      let i := if le then Z.lxor (Z.of_nat j) 3 else Z.of_nat j in
      (Z.to_nat (i / 4) =? j / 4)%nat &&
      (8 * (if le then i mod 4 else 3 - i mod 4) =? 8 * (3 - Z.of_nat (j mod 4))))
      [true; false]) (seq 0 64) = true) by (vm_compute; reflexivity).
  rewrite forallb_forall in Hall. specialize (Hall j ltac:(apply in_seq; lia)).
  rewrite forallb_forall in Hall.
  specialize (Hall le ltac:(destruct le; simpl; tauto)). cbn zeta in Hall.
  apply andb_prop in Hall as [H1 H2]. apply Nat.eqb_eq in H1. apply Z.eqb_eq in H2.
  by rewrite H1, H2.
Qed.

Lemma get_be_set ws (j i : nat) d :
  length ws = 16%nat → (j < 64)%nat → is_byte d →
  get_be (<[(j / 4)%nat := with_byte (word ws (j / 4)) (8 * (3 - Z.of_nat (j mod 4))) d]> ws) i
  = if bool_decide (i = j) then d else get_be ws i.
Proof.
  intros Hl Hj Hd. unfold get_be.
  assert (Hi := Nat.div_mod_eq i 4). assert (Hj' := Nat.div_mod_eq j 4).
  assert (Hi3 := Nat.mod_upper_bound i 4 ltac:(lia)).
  assert (Hj3 := Nat.mod_upper_bound j 4 ltac:(lia)).
  destruct (decide (j / 4 = i / 4)%nat) as [E|E].
  - rewrite <- E, word_insert_eq by lia. rewrite with_byte_get by (done || lia).
    case_bool_decide; case_bool_decide; (reflexivity || lia).
  - rewrite word_insert_ne by done. rewrite bool_decide_false by congruence. done.
Qed.

Lemma word_by_bytes w w' :
  w32 w → w32 w' →
  (∀ k, 0 ≤ k ≤ 3 → (w / 2 ^ (8 * k)) mod 256 = (w' / 2 ^ (8 * k)) mod 256) → w = w'.
Proof.
  intros Hw Hw' H. unfold w32 in *.
  pose proof (H 0 ltac:(lia)) as E0. pose proof (H 1 ltac:(lia)) as E1.
  pose proof (H 2 ltac:(lia)) as E2. pose proof (H 3 ltac:(lia)) as E3. clear H.
  change (2 ^ (8 * 0)) with 1 in E0. change (2 ^ (8 * 1)) with 256 in E1.
  change (2 ^ (8 * 2)) with 65536 in E2. change (2 ^ (8 * 3)) with 16777216 in E3. zdm.
Qed.

(** * Words of a byte string *)

Lemma bytes_ge0 l i : Forall is_byte l → is_byte (nth i l 0).
Proof.
  intros H. destruct (nth_in_or_default i l 0) as [Hi| ->]; [|done].
  by apply (Forall_forall is_byte l), list_elem_of_In.
Qed.

Lemma to_words_facts n : ∀ bs,
  length bs = (4 * n)%nat → Forall is_byte bs →
  length (to_words bs) = n ∧ Forall w32 (to_words bs) ∧
  ∀ j, (j < 4 * n)%nat → get_be (to_words bs) j = nth j bs 0.
Proof.
  induction n as [|n IH]; intros bs Hl Hb.
  { destruct bs; [|done]. split; [done|]. split; [constructor|]. lia. }
  destruct bs as [|a [|b [|c [|d bs]]]]; cbn [length] in Hl; try lia.
  do 4 apply Forall_cons in Hb as [? Hb]. unfold is_byte in *.
  destruct (IH bs ltac:(lia) Hb) as (IHl & IHw & IHg). cbn [to_words].
  split; [simpl; lia|]. split; [constructor; [unfold w32; lia|done]|].
  intros j Hj. destruct (decide (j < 4)%nat) as [H4|H4].
  - destruct j as [|[|[|[|j]]]]; [..|lia]; unfold get_be.
    + change ((((a * 256 + b) * 256 + c) * 256 + d) / 16777216 mod 256 = a). zdm.
    + change ((((a * 256 + b) * 256 + c) * 256 + d) / 65536 mod 256 = b). zdm.
    + change ((((a * 256 + b) * 256 + c) * 256 + d) / 256 mod 256 = c). zdm.
    + change ((((a * 256 + b) * 256 + c) * 256 + d) / 1 mod 256 = d). zdm.
  - replace j with (j - 4 + 1 * 4)%nat at 1 by lia. unfold get_be.
    rewrite Nat.div_add, Nat.Div0.mod_add by lia. rewrite Nat.add_1_r.
    change (word (?x :: ?l) (S ?k)) with (word l k).
    fold (get_be (to_words bs) (j - 4)). rewrite IHg by lia.
    by replace j with (S (S (S (S (j - 4))))) at 2 by lia.
Qed.

Lemma words_by_bytes ws ws' :
  Forall w32 ws → Forall w32 ws' → length ws = length ws' →
  (∀ j, (j < 4 * length ws)%nat → get_be ws j = get_be ws' j) → ws = ws'.
Proof.
  intros Hw Hw' Hl Hg. apply (nth_ext _ _ 0 0 Hl). intros i Hi.
  apply word_by_bytes; [by apply w32_word..|]. intros k Hk.
  specialize (Hg (i * 4 + Z.to_nat (3 - k))%nat ltac:(lia)). unfold get_be in Hg.
  rewrite Nat.add_comm, Nat.div_add, Nat.Div0.mod_add in Hg by lia.
  rewrite Nat.div_small, Nat.mod_small in Hg by lia.
  by replace (3 - Z.of_nat (Z.to_nat (3 - k))) with k in Hg by lia.
Qed.

(** * The running hash *)

(** [bs] are the bytes buffered after the last complete block. *)
Record pend (le : bool) (self : dill_sha1) (H bs : list Z) : Prop := {
  pend_state : state self = H;
  pend_buffer : length (buffer self) = 16%nat;
  pend_w32 : Forall w32 (buffer self);
  pend_off : buffer_offset self = Z.of_nat (length bs);
  pend_len : (length bs < 64)%nat;
  pend_bytes : Forall is_byte bs;
  pend_le : is_little_endian self = le;
  pend_get : ∀ j, (j < length bs)%nat → get_be (buffer self) j = nth j bs 0;
}.

Lemma store_byte le self H bs d :
  pend le self H bs → is_byte d →
  let off := buffer_offset self in
  let buf := set_byte le (buffer self) (if le then Z.lxor off 3 else off) d in
  length buf = 16%nat ∧ Forall w32 buf ∧
  ∀ j, (j < S (length bs))%nat → get_be buf j = nth j (bs ++ [d]) 0.
Proof.
  intros [Hs Hb Hw Ho Hl Hbs Hle Hg] Hd. cbn zeta. rewrite Ho, set_byte_be by lia.
  split; [by rewrite length_insert|]. split.
  { apply Forall_insert; [done|]. pose proof (Nat.mod_upper_bound (length bs) 4 ltac:(lia)).
    apply with_byte_w32; [lia|done|by apply w32_word]. }
  intros j Hj. rewrite get_be_set by done. case_bool_decide as E.
  - subst j. by rewrite app_nth2, Nat.sub_diag by lia.
  - rewrite app_nth1 by lia. apply Hg. lia.
Qed.

Lemma add_partial le self H bs d :
  pend le self H bs → is_byte d → (length bs < 63)%nat →
  pend le (dill_sha1_add self d) H (bs ++ [d]).
Proof.
  intros Hp Hd H63. pose proof (store_byte _ _ _ _ d Hp Hd) as (Hb & Hw & Hg).
  destruct Hp. unfold dill_sha1_add. rewrite pend_le0 in *.
  assert (Hu : u8 (buffer_offset self + 1) = Z.of_nat (length (bs ++ [d]))).
  { unfold u8. rewrite length_app. simpl length. rewrite Z.mod_small; lia. }
  rewrite Hu. case_eq (Z.of_nat (length (bs ++ [d])) =? DILL_SHA1_BLOCK_LEN);
    rewrite length_app in *; simpl length in *; unfold DILL_SHA1_BLOCK_LEN; [intros E; apply Z.eqb_eq in E; lia|intros _].
  constructor; simpl; rewrite ?length_app; simpl; auto with dill; try lia.
  intros j Hj. apply Hg. lia.
Qed.

Lemma add_full le self H bs d :
  pend le self H bs → is_byte d → length bs = 63%nat →
  pend le (dill_sha1_add self d) (compress H (to_words (bs ++ [d]))) [].
Proof.
  intros Hp Hd H63. pose proof (store_byte _ _ _ _ d Hp Hd) as (Hb & Hw & Hg).
  destruct Hp. unfold dill_sha1_add. rewrite pend_le0 in *.
  replace (u8 (buffer_offset self + 1)) with 64 by (rewrite pend_off0, H63; done).
  set (buf := set_byte _ _ _ _) in *. change (64 =? DILL_SHA1_BLOCK_LEN) with true. cbn iota.
  destruct (to_words_facts 16 (bs ++ [d])) as (Tl & Tw & Tg).
  { rewrite length_app. simpl length. lia. }
  { auto with dill. }
  assert (Hbuf : buf = to_words (bs ++ [d])).
  { apply words_by_bytes; [done..| |]; [by rewrite Hb, Tl|].
    intros j Hj. rewrite Tg, Hg by lia. done. }
  rewrite <- Hbuf in *. rewrite pend_state0.
  set (v := (word H 0, word H 1, word H 2, word H 3, word H 4)).
  destruct (rounds_spec buf 80 Hb 0 buf v ltac:(lia) (ring_start buf Hb)) as (buf' & E & Hl').
  pose proof (rounds_w32 (seq 0 80) (buf, v) Hw) as Hw'. rewrite E in *. simpl in Hw'.
  unfold compress. fold v.
  destruct (fold_left (compress_step _) _ v) as [[[[a b] c] d'] e].
  constructor; simpl; auto; lia.
Qed.

(** The hash of a whole number of blocks. *)
Definition absorb (bs : list Z) : list Z :=
  let ws := to_words bs in fold_left compress (blocks (length ws) ws) H0.

Lemma to_words_app n : ∀ a b,
  length a = (4 * n)%nat → to_words (a ++ b) = to_words a ++ to_words b.
Proof.
  induction n as [|n IH]; intros a b Hl; [by destruct a|].
  destruct a as [|a1 [|a2 [|a3 [|a4 a]]]]; cbn [length] in Hl; try lia.
  cbn [app to_words]. by rewrite IH by lia.
Qed.

Lemma blocks_app k : ∀ fuel ws blk,
  length ws = (16 * k)%nat → length blk = 16%nat → (k < fuel)%nat →
  blocks fuel (ws ++ blk) = blocks fuel ws ++ [blk].
Proof.
  induction k as [|k IH]; intros [|fuel] ws blk Hw Hb Hf; try lia.
  - destruct ws; [|done]. destruct blk as [|w blk]; [done|]. cbn [app].
    change (blocks (S fuel) (w :: blk)) with (take 16 (w :: blk) :: blocks fuel (drop 16 (w :: blk))).
    rewrite take_ge, drop_ge by lia. by destruct fuel.
  - destruct ws as [|w ws]; [simpl in Hw; lia|].
    change (blocks (S fuel) ((w :: ws) ++ blk)) with
      (take 16 ((w :: ws) ++ blk) :: blocks fuel (drop 16 ((w :: ws) ++ blk))).
    change (blocks (S fuel) (w :: ws)) with (take 16 (w :: ws) :: blocks fuel (drop 16 (w :: ws))).
    rewrite take_app_le, drop_app_le by lia. cbn [app]. f_equal. apply IH; [|done|lia].
    rewrite length_drop. lia.
Qed.

Lemma blocks_fuel k : ∀ f1 f2 ws,
  length ws = (16 * k)%nat → (k ≤ f1)%nat → (k ≤ f2)%nat → blocks f1 ws = blocks f2 ws.
Proof.
  induction k as [|k IH]; intros f1 f2 ws Hw H1 H2.
  - destruct ws; [|done]. by destruct f1, f2.
  - destruct f1 as [|f1], f2 as [|f2]; try lia. destruct ws as [|w ws]; [done|].
    change (blocks (S ?f) (w :: ws)) with (take 16 (w :: ws) :: blocks f (drop 16 (w :: ws))).
    f_equal. apply IH; [rewrite length_drop; lia|lia|lia].
Qed.

Lemma absorb_block k full blk :
  length full = (64 * k)%nat → length blk = 64%nat → Forall is_byte full → Forall is_byte blk →
  absorb (full ++ blk) = compress (absorb full) (to_words blk).
Proof.
  intros Hf Hb Hbf Hbb. unfold absorb. rewrite (to_words_app (16 * k)) by lia.
  destruct (to_words_facts (16 * k) full ltac:(lia) Hbf) as [Lf _].
  destruct (to_words_facts 16 blk ltac:(lia) Hbb) as [Lb _].
  rewrite (blocks_app k) by (rewrite ?length_app; lia).
  rewrite fold_left_app. cbn [fold_left]. f_equal. f_equal.
  apply (blocks_fuel k); rewrite ?length_app; lia.
Qed.

(** [all] has been fed to the hash. *)
Definition hashed (le : bool) (self : dill_sha1) (all : list Z) : Prop :=
  ∃ k full bs, all = full ++ bs ∧ length full = (64 * k)%nat ∧ Forall is_byte full ∧
    pend le self (absorb full) bs.

Lemma add_hashed le self all d :
  hashed le self all → is_byte d → hashed le (dill_sha1_add self d) (all ++ [d]).
Proof.
  intros (k & full & bs & -> & Hf & Hbf & Hp) Hd. pose proof (pend_len _ _ _ _ Hp) as Hl.
  pose proof (pend_bytes _ _ _ _ Hp) as Hbs. rewrite <- app_assoc.
  destruct (decide (length bs = 63)%nat) as [E|E].
  - exists (S k), (full ++ bs ++ [d]), []. rewrite app_nil_r, !length_app. simpl.
    split; [done|]. split; [lia|]. split; [auto with dill|].
    rewrite (absorb_block k) by (rewrite ?length_app; simpl; auto with dill; lia).
    by apply add_full.
  - exists k, full, (bs ++ [d]). repeat (split; [done|]). apply add_partial; [done..|lia].
Qed.

Lemma hashed_off le self all :
  hashed le self all → buffer_offset self = Z.of_nat (length all) mod 64.
Proof.
  intros (k & full & bs & -> & Hf & _ & Hp). rewrite (pend_off _ _ _ _ Hp), length_app.
  pose proof (pend_len _ _ _ _ Hp). zdm.
Qed.

Lemma add_bytes_hashed self d : bytes_hashed (dill_sha1_add self d) = bytes_hashed self.
Proof.
  unfold dill_sha1_add. destruct (_ =? _); [|done].
  by destruct (fold_left _ _ _) as [? [[[[? ?] ?] ?] ?]].
Qed.

Lemma adds_hashed le ds : ∀ self all,
  Forall is_byte ds → hashed le self all →
  hashed le (fold_left dill_sha1_add ds self) (all ++ ds).
Proof.
  induction ds as [|d ds IH]; intros self all Hd H; [by rewrite app_nil_r|].
  apply Forall_cons in Hd as [Hd Hds]. cbn [fold_left].
  change (d :: ds) with ([d] ++ ds). rewrite app_assoc. apply IH; [done|].
  by apply add_hashed.
Qed.

Lemma adds_bytes_hashed ds self : bytes_hashed (fold_left dill_sha1_add ds self) = bytes_hashed self.
Proof.
  revert self. induction ds as [|d ds IH]; intros self; [done|].
  cbn [fold_left]. by rewrite IH, add_bytes_hashed.
Qed.

Lemma hashbyte_hashed le self all d :
  hashed le self all → is_byte d → hashed le (dill_sha1_hashbyte self d) (all ++ [d]).
Proof.
  intros (k & full & bs & -> & Hf & Hbf & []) Hd. apply add_hashed; [|done].
  exists k, full, bs. repeat (split; [done|]). by constructor.
Qed.

Lemma hashbytes_hashed le ds : ∀ self all,
  Forall is_byte ds → hashed le self all →
  hashed le (fold_left dill_sha1_hashbyte ds self) (all ++ ds).
Proof.
  induction ds as [|d ds IH]; intros self all Hd H; [by rewrite app_nil_r|].
  apply Forall_cons in Hd as [Hd Hds]. cbn [fold_left].
  change (d :: ds) with ([d] ++ ds). rewrite app_assoc. apply IH; [done|].
  by apply hashbyte_hashed.
Qed.

Lemma hashbytes_count ds : ∀ self,
  bytes_hashed (fold_left dill_sha1_hashbyte ds self)
  = match ds with [] => bytes_hashed self | _ => u32 (bytes_hashed self + Z.of_nat (length ds)) end.
Proof.
  induction ds as [|d ds IH]; intros self; [done|]. cbn [fold_left]. rewrite IH.
  unfold dill_sha1_hashbyte. rewrite add_bytes_hashed. simpl bytes_hashed.
  destruct ds; simpl length; [done|]. unfold u32.
  rewrite Z.add_mod_idemp_l by lia. f_equal. lia.
Qed.

Lemma sha1_pad_hashed le fuel : ∀ self all,
  hashed le self all →
  let k := Z.to_nat ((56 - Z.of_nat (length all)) mod 64) in (k ≤ fuel)%nat →
  ∃ self', sha1_pad fuel self = Some self' ∧ hashed le self' (all ++ repeat 0 k) ∧
    bytes_hashed self' = bytes_hashed self.
Proof.
  induction fuel as [|fuel IH]; intros self all H k Hk;
    pose proof (hashed_off _ _ _ H) as Ho; cbn [sha1_pad].
  - assert ((56 - Z.of_nat (length all)) mod 64 = 0) by zdm. assert (k = 0%nat) as -> by lia.
    replace (buffer_offset self =? 56) with true by (symmetry; apply Z.eqb_eq; zdm).
    exists self. by rewrite app_nil_r.
  - destruct (Z.eqb_spec (buffer_offset self) 56) as [E|E].
    + assert (k = 0%nat) as -> by (unfold k; zdm). exists self. by rewrite app_nil_r.
    + destruct (IH (dill_sha1_add self 0) (all ++ [0])) as (self' & E' & H' & Hn).
      * by apply add_hashed.
      * rewrite length_app. simpl length. unfold k in Hk. zdm.
      * exists self'. split; [done|]. rewrite add_bytes_hashed in Hn. split; [|done].
        rewrite <- app_assoc in H'. rewrite length_app in H'. simpl length in H'.
        replace (repeat 0 k) with ([0] ++ repeat 0
          (Z.to_nat ((56 - Z.of_nat (length all + 1)) mod 64))); [done|].
        change ([0] ++ ?l) with (0 :: l). change (0 :: repeat 0 ?n) with (repeat 0 (S n)).
        f_equal. unfold k. zdm.
Qed.

Lemma sha1_init_hashed le junk :
  length (buffer junk) = 16%nat → Forall w32 (buffer junk) →
  hashed le (dill_sha1_init le junk) [].
Proof.
  intros Hl Hw. exists O, [], []. repeat (split; [done|]).
  constructor; simpl; try done; [lia|by destruct le|lia].
Qed.

Lemma compress_w32 H b : Forall w32 (compress H b) ∧ length (compress H b) = 5%nat.
Proof.
  unfold compress. destruct (fold_left _ _ _) as [[[[? ?] ?] ?] ?].
  split; [|done]. auto 7 with dill.
Qed.

Lemma absorb_w32 bs : Forall w32 (absorb bs).
Proof.
  unfold absorb. apply fold_left_inv; [intros; exact (proj1 (compress_w32 _ _))|].
  unfold H0, w32. repeat (apply Forall_cons_2; [lia|]). constructor.
Qed.

Lemma sha1_swap_bytes le w :
  w32 w → word_bytes le (if le then sha1_swap w else w) = be_bytes 4 w.
Proof.
  intros Hw. unfold w32 in Hw.
  assert (Hb : be_bytes 4 w = [w / 2 ^ 24 mod 256; w / 2 ^ 16 mod 256; w / 2 ^ 8 mod 256; w mod 256]).
  { unfold be_bytes. simpl. by rewrite Z.div_1_r. }
  rewrite Hb. destruct le; unfold word_bytes; rewrite !land_255, !shiftr_div by lia.
  - set (s := sha1_swap w).
    assert (Hs : s = w mod 256 * 2 ^ 24 + w / 2 ^ 8 mod 256 * 2 ^ 16
                     + w / 2 ^ 16 mod 256 * 2 ^ 8 + w / 2 ^ 24 mod 256).
    { unfold s, sha1_swap.
      change 0xFF000000 with (Z.shiftl 255 24). change 0x00FF0000 with (Z.shiftl 255 16).
      change 0x0000FF00 with (Z.shiftl 255 8). change 0x000000FF with (Z.shiftl 255 0).
      rewrite !land_mask by lia. rewrite !shiftr_div, !Z.shiftl_mul_pow2 by lia. unfold u32.
      replace (w * 2 ^ 24 mod 2 ^ 32 / 2 ^ 24 mod 256) with (w mod 256) by zdm.
      replace (w * 2 ^ 8 mod 2 ^ 32 / 2 ^ 16 mod 256) with (w / 2 ^ 8 mod 256) by zdm.
      replace (w / 2 ^ 8 / 2 ^ 8 mod 256) with (w / 2 ^ 16 mod 256) by zdm.
      replace (w / 2 ^ 24 / 2 ^ 0 mod 256 * 2 ^ 0) with (w / 2 ^ 24 mod 256) by zdm.
      generalize (Z.mod_pos_bound w 256 eq_refl), (Z.mod_pos_bound (w / 2 ^ 8) 256 eq_refl),
        (Z.mod_pos_bound (w / 2 ^ 16) 256 eq_refl), (Z.mod_pos_bound (w / 2 ^ 24) 256 eq_refl).
      generalize (w mod 256), (w / 2 ^ 8 mod 256), (w / 2 ^ 16 mod 256), (w / 2 ^ 24 mod 256).
      clear. intros a b c d Ha Hb Hc Hd. rewrite (lor_mul_add a) by lia.
      replace (a * 2 ^ 24 + b * 2 ^ 16) with ((a * 2 ^ 8 + b) * 2 ^ 16) by lia.
      rewrite (lor_mul_add (a * 2 ^ 8 + b)) by lia.
      replace ((a * 2 ^ 8 + b) * 2 ^ 16 + c * 2 ^ 8)
        with (((a * 2 ^ 8 + b) * 2 ^ 8 + c) * 2 ^ 8) by lia.
      rewrite lor_mul_add by lia. lia. }
    rewrite Hs. generalize (Z.mod_pos_bound w 256 eq_refl), (Z.mod_pos_bound (w / 2 ^ 8) 256 eq_refl),
        (Z.mod_pos_bound (w / 2 ^ 16) 256 eq_refl), (Z.mod_pos_bound (w / 2 ^ 24) 256 eq_refl).
    generalize (w mod 256), (w / 2 ^ 8 mod 256), (w / 2 ^ 16 mod 256), (w / 2 ^ 24 mod 256).
    clear. intros a b c d Ha Hb Hc Hd. change (8 * 0) with 0. change (8 * 1) with 8.
    change (8 * 2) with 16. change (8 * 3) with 24. f_equal; [zdm|]. f_equal; [zdm|].
    f_equal; [zdm|]. f_equal. zdm.
  - by rewrite Z.div_1_r.
Qed.

Lemma words_out le ws :
  Forall w32 ws →
  flat_map (word_bytes le) (if le then map sha1_swap ws else ws) = flat_map (be_bytes 4) ws.
Proof.
  induction 1 as [|w ws Hw _ IH]; [by destruct le|]. pose proof (sha1_swap_bytes le w Hw) as E.
  destruct le; cbn [map flat_map]; by rewrite E, IH.
Qed.

(** The length field: 64 bits of which the code computes the low 35. *)
Lemma length_field n :
  0 ≤ n < 2 ^ 32 →
  [0; 0; 0; u8 (Z.shiftr n 29); u8 (Z.shiftr n 21); u8 (Z.shiftr n 13); u8 (Z.shiftr n 5);
   u8 (Z.shiftl n 3)] = be_bytes 8 (8 * n).
Proof.
  intros Hn. unfold u8. rewrite !shiftr_div, Z.shiftl_mul_pow2 by lia.
  unfold be_bytes. simpl rev. simpl map.
  repeat (f_equal; [zdm|]). f_equal. zdm.
Qed.

Lemma be_bytes_byte k v : Forall is_byte (be_bytes k v).
Proof.
  unfold be_bytes. apply Forall_rev, Forall_map, Forall_true.
  intros i. apply Z.mod_pos_bound. lia.
Qed.

Lemma padded_length msg : Z.of_nat (length (padded msg)) mod 64 = 0.
Proof.
  unfold padded, be_bytes. rewrite !length_app, repeat_length, length_rev, length_map, length_seq.
  simpl (length [128]). zdm.
Qed.

Lemma sha1_of_correct (le : bool) (junk : dill_sha1) (msg : list Z) :
  length (buffer junk) = 16%nat → Forall w32 (buffer junk) →
  Forall is_byte msg → Z.of_nat (length msg) < 2 ^ 32 →
  sha1_of le junk msg = Some (sha1_spec msg).
Proof.
  intros Hl Hw Hm Hn. unfold sha1_of, dill_sha1_result.
  set (n := Z.of_nat (length msg)) in *.
  pose proof (hashbytes_hashed le msg _ [] Hm (sha1_init_hashed le junk Hl Hw)) as H1.
  assert (Hc : bytes_hashed (fold_left dill_sha1_hashbyte msg (dill_sha1_init le junk)) = n).
  { rewrite hashbytes_count. destruct msg; [done|]. simpl bytes_hashed. unfold u32.
    apply Z.mod_small. lia. }
  set (s1 := fold_left _ _ _) in *. clearbody s1. cbn [app] in H1.
  pose proof (add_hashed le s1 msg 0x80 H1 ltac:(done)) as H2.
  destruct (sha1_pad_hashed le 64 _ _ H2) as (s2 & E & H3 & Hc2); [zdm|].
  rewrite E. cbn [mbind option_bind]. rewrite Hc2, add_bytes_hashed, Hc.
  rewrite length_field by lia.
  pose proof (adds_hashed le _ s2 _ (be_bytes_byte 8 (8 * n)) H3) as H4.
  set (s3 := fold_left _ _ s2) in *. clearbody s3.
  rewrite length_app in H4. simpl (length [128]) in H4.
  assert (Hp : (msg ++ [128]) ++ repeat 0 (Z.to_nat ((56 - Z.of_nat (length msg + 1)) mod 64))
    ++ be_bytes 8 (8 * n) = padded msg).
  { unfold padded. rewrite <- app_assoc. fold n. do 4 f_equal. zdm. }
  rewrite <- !app_assoc in H4. rewrite <- !app_assoc in Hp. rewrite Hp in H4. clear Hp.
  pose proof (hashed_off _ _ _ H4) as Ho. destruct H4 as (k & full & bs & Hf & Hk & _ & Hs).
  assert (bs = []) as ->.
  { rewrite (pend_off _ _ _ _ Hs) in Ho. pose proof (pend_len _ _ _ _ Hs). apply length_zero_iff_nil.
    rewrite padded_length in Ho. lia. }
  rewrite app_nil_r in Hf. subst full.
  destruct Hs. rewrite pend_le0, pend_state0. f_equal.
  unfold sha1_spec. fold (absorb (padded msg)).
  apply words_out, absorb_w32.
Qed.

(** C29. The SHA-1 of [utils.c] is FIPS 180-4's: for every message shorter than
    2^32 bytes, on machines of either endianness and whatever the uninitialised
    block buffer holds, feeding the bytes one at a time and asking for the result
    terminates (at most 63 bytes of zero padding) with the 20 bytes of the
    standard's hash. *)
Theorem dill_sha1_correct (le : bool) (junk : dill_sha1) (msg : list Z) :
  length (buffer junk) = 16%nat → Forall w32 (buffer junk) →
  Forall is_byte msg → Z.of_nat (length msg) < 2 ^ 32 →
  sha1_of le junk msg = Some (sha1_spec msg).
Proof. apply sha1_of_correct. Qed.

Lemma dill_sha1_correct_witness :
  sha1_of true (mk_sha1 (repeat 7 16) [] 0 0 false) [97; 98; 99] = Some (sha1_spec [97; 98; 99]) ∧
  sha1_spec [97; 98; 99] =
    [0xa9; 0x99; 0x3e; 0x36; 0x47; 0x06; 0x81; 0x6a; 0xba; 0x3e;
     0x25; 0x71; 0x78; 0x50; 0xc2; 0x6c; 0x9c; 0xd0; 0xd8; 0x9d].
Proof.
  split; [|vm_compute; reflexivity].
  apply dill_sha1_correct; [reflexivity| |repeat constructor; done|simpl; lia].
  repeat constructor; done.
Defined.
