(* ===== verification/Handle.v ===== *)
(** The handle table ([handle.c]).

    Handles are indices into a growing array whose unused entries form a queue
    threaded through the array.  The operations are written once, over the
    interface [HandleEnv] of what they need from the rest of the library (the
    context, [errno], the blocking flags, [realloc] and the virtual calls); the
    theorems instantiate the interface with a state monad in which a dangling or
    invalid access has no result. *)

From S2P Require Import Prelude.
From Stdlib Require Import ZArith Lia.
From stdpp Require Import base gmap list.
Open Scope Z_scope.

Section Data.
Context {Vfs : Type}.

(** [struct dill_handle]; [vfs] is [None] in memory that [realloc] has just
    returned. *)
Record dill_handle := mk_handle {
  vfs : option Vfs;
  next : Z;
  type : ptr;
  hptr : ptr;
}.

(** [struct dill_ctx_handle].  [gen] counts the reallocations of the array: a C
    pointer into it is a pair of a generation and an index. *)
Record dill_ctx_handle := mk_ctx_handle {
  handles : list dill_handle;
  gen : nat;
  nhandles : Z;
  nused : Z;
  first : Z;
  last_ : Z;
}.

Definition dill_ctx_handle_init : dill_ctx_handle := mk_ctx_handle [] 0 0 0 (-1) (-1).

Definition handle_at (c : dill_ctx_handle) (h : Z) : option dill_handle :=
  if 0 <=? h then handles c !! Z.to_nat h else None.

Definition set_entry (h : Z) (e : dill_handle) (c : dill_ctx_handle) : dill_ctx_handle :=
  mk_ctx_handle (<[Z.to_nat h := e]> (handles c)) (gen c) (nhandles c) (nused c) (first c) (last_ c).
Definition set_first (v : Z) (c : dill_ctx_handle) : dill_ctx_handle :=
  mk_ctx_handle (handles c) (gen c) (nhandles c) (nused c) v (last_ c).
Definition set_last (v : Z) (c : dill_ctx_handle) : dill_ctx_handle :=
  mk_ctx_handle (handles c) (gen c) (nhandles c) (nused c) (first c) v.
Definition set_nused (v : Z) (c : dill_ctx_handle) : dill_ctx_handle :=
  mk_ctx_handle (handles c) (gen c) (nhandles c) v (first c) (last_ c).

(** The entries [n .. sz-1] that a growth to [sz] links into the unused list. *)
Definition fresh_entries (n sz : Z) : list dill_handle :=
  map (λ i, mk_handle None (if i =? sz - 1 then -1 else i + 1) NULL NULL)
    (seqZ n (sz - n)).

Definition grow (sz : Z) (c : dill_ctx_handle) : dill_ctx_handle :=
  mk_ctx_handle (handles c ++ fresh_entries (nhandles c) sz) (S (gen c)) sz (nused c)
    (nhandles c) (sz - 1).
End Data.
Arguments dill_handle : clear implicits.
Arguments dill_ctx_handle : clear implicits.

(** What the handle table needs from its environment. *)
Class HandleEnv (Vfs : Type) (M : Type → Type) `{MRet M, MBind M} := {
  h_get : M (dill_ctx_handle Vfs);
  h_put : dill_ctx_handle Vfs → M unit;
  (** [errno = e] *)
  h_errno : errno_t → M unit;
  (** [dill_canblock] and [dill_no_blocking] of cr.c *)
  h_canblock : M Z;
  h_no_blocking : bool → M bool;
  (** does [realloc] succeed for that many bytes *)
  h_realloc : Z → M bool;
  (** are the function pointers of the table set *)
  h_has_methods : Vfs → bool;
  (** the virtual calls *)
  h_query : Vfs → ptr → M ptr;
  h_close : Vfs → M unit;
  (** undefined behaviour, or a failed [dill_assert] *)
  h_crash : ∀ {A}, M A;
}.

Definition INT_MAX : Z := 2 ^ 31 - 1.
Definition SIZEOF_HANDLE : Z := 32.

Section Ops.
Context {Vfs : Type} {M : Type → Type} `{HandleEnv Vfs M}.

(** [DILL_CHECKHANDLE]: the entry, or [errno = EBADF]. *)
Definition check_handle (h : Z) : M (option (dill_handle Vfs)) :=
  c ← h_get;
  if (h <? 0) || (nhandles c <=? h) then h_errno EBADF;; mret None
  else match handle_at c h with
       | None => h_crash
       | Some e => if next e =? -2 then mret (Some e) else h_errno EBADF;; mret None
       end.

(** A write through a pointer [&ctx->handles[h]] computed in generation [g]. *)
Definition write_entry (g : nat) (h : Z) (f : dill_handle Vfs → dill_handle Vfs) : M unit :=
  c ← h_get;
  match handle_at c h with
  | Some e => if (g =? gen c)%nat then h_put (set_entry h (f e) c) else h_crash
  | None => h_crash
  end.

(** Expand the array when at most 8 handles are unused. [false]: out of memory. *)
Definition expand : M bool :=
  c ← h_get;
  if nhandles c - nused c <=? 8 then
    let sz := if nhandles c =? 0 then 256 else nhandles c * 2 in
    if INT_MAX <? sz then h_crash
    else
      ok ← h_realloc (sz * SIZEOF_HANDLE);
      if ok : bool then h_put (grow sz c);; mret true
      else h_errno ENOMEM;; mret false
  else mret true.

Definition dill_hmake (v : option Vfs) : M Z :=
  match v with
  | None => h_errno EINVAL;; mret (-1)
  | Some v =>
    if negb (h_has_methods v) then h_errno EINVAL;; mret (-1)
    else
      rc ← h_canblock;
      if rc <? 0 then mret (-1)
      else
        ok ← expand;
        if negb ok then mret (-1)
        else
          c ← h_get;
          let h := first c in
          match handle_at c h with
          | None => h_crash
          | Some e =>
            (** [if(dill_slow(ctx->first) == -1)]: [dill_slow] is [!!], so the
                comparison with -1 is never true and [last] is left alone. *)
            h_put (set_nused (nused c + 1)
              (set_entry h (mk_handle (Some v) (-2) NULL NULL) (set_first (next e) c)));;
            mret h
          end
  end.

(** "Return a handle to the shared pool." *)
Definition release (g : nat) (h : Z) : M unit :=
  write_entry g h (λ e, mk_handle (vfs e) (next e) (type e) NULL);;
  write_entry g h (λ e, mk_handle (vfs e) (-1) (type e) (hptr e));;
  c ← h_get;
  (if first c =? -1 then h_put (set_first h c)
   else write_entry (gen c) (last_ c) (λ e, mk_handle (vfs e) h (type e) (hptr e)));;
  c ← h_get;
  h_put (set_nused (nused c - 1) (set_last h c)).

Definition dill_hclose (h : Z) : M Z :=
  o ← check_handle h;
  match o with
  | None => mret (-1)
  | Some e =>
    g ← (c ← h_get; mret (gen c));
    old ← h_no_blocking true;
    match vfs e with
    | None => h_crash
    | Some v =>
      h_close v;;
      h_no_blocking old;;
      release g h;;
      mret 0
    end
  end.

Definition dill_hown (h : Z) : M Z :=
  o ← check_handle h;
  match o with
  | None => mret (-1)
  | Some e =>
    res ← dill_hmake (vfs e);
    if res <? 0 then
      rc ← dill_hclose h;
      if rc =? 0 then mret (-1) else h_crash
    else
      c ← h_get;
      release (gen c) h;;
      mret res
  end.

Definition dill_hquery (h : Z) (ty : ptr) : M ptr :=
  o ← check_handle h;
  match o with
  | None => mret NULL
  | Some e =>
    if negb (hptr e =? NULL) && (type e =? ty) then mret (hptr e)
    else
      g ← (c ← h_get; mret (gen c));
      match vfs e with
      | None => h_crash
      | Some v =>
        p ← h_query v ty;
        if p =? NULL then mret NULL
        else
          write_entry g h (λ e, mk_handle (vfs e) (next e) ty (hptr e));;
          write_entry g h (λ e, mk_handle (vfs e) (next e) (type e) p);;
          mret p
      end
  end.
End Ops.

(** * The state monad the theorems are about *)

(** The part of the coroutine state the table looks at is the two blocking flags
    of the running coroutine. *)
Record hst (Vfs : Type) := mk_hst {
  hctx : dill_ctx_handle Vfs;
  no_blocking1 : bool;
  no_blocking2 : bool;
  herrno : errno_t;
}.
Arguments mk_hst {Vfs}.
Arguments hctx {Vfs}.
Arguments no_blocking1 {Vfs}.
Arguments no_blocking2 {Vfs}.
Arguments herrno {Vfs}.

Definition HM (Vfs A : Type) : Type := hst Vfs → option (A * hst Vfs).
#[export] Instance HM_ret Vfs : MRet (HM Vfs) := λ A a s, Some (a, s).
#[export] Instance HM_bind Vfs : MBind (HM Vfs) :=
  λ A B k m s, match m s with Some (a, s) => k a s | None => None end.

Definition HM_crash {Vfs A} : HM Vfs A := λ _, None.

Definition set_err {Vfs} (e : errno_t) (s : hst Vfs) : hst Vfs :=
  mk_hst (hctx s) (no_blocking1 s) (no_blocking2 s) e.
Definition set_ctx {Vfs} (c : dill_ctx_handle Vfs) (s : hst Vfs) : hst Vfs :=
  mk_hst c (no_blocking1 s) (no_blocking2 s) (herrno s).
Definition set_nb2 {Vfs} (b : bool) (s : hst Vfs) : hst Vfs :=
  mk_hst (hctx s) (no_blocking1 s) b (herrno s).

(** The environment of a table whose objects answer queries by [query] (with
    [ENOTSUP] when they do not support the type, as every query function of the
    library does), are closed by [close], and whose [realloc] succeeds when
    [alloc] says so. *)
#[export] Instance HM_env {Vfs} (alloc : Z → bool) (methods : Vfs → bool) (query : Vfs → ptr → ptr)
    (close : Vfs → HM Vfs unit) : HandleEnv Vfs (HM Vfs) := {
  h_get := λ s, Some (hctx s, s);
  h_put := λ c s, Some (tt, set_ctx c s);
  h_errno := λ e s, Some (tt, set_err e s);
  h_canblock := λ s,
    if no_blocking1 s || no_blocking2 s then Some (-1, set_err ECANCELED s) else Some (0, s);
  h_no_blocking := λ b s, Some (no_blocking2 s, set_nb2 b s);
  h_realloc := λ n s, Some (alloc n, s);
  h_has_methods := methods;
  h_query := λ v ty s,
    if query v ty =? NULL then Some (NULL, set_err ENOTSUP s) else Some (query v ty, s);
  h_close := close;
  h_crash := λ A, HM_crash;
}.

(** * The table as a queue of unused handles *)

(** Live handles, the queue of unused ones, and the size of the array. *)
Record table (Vfs : Type) := mk_table {
  live : gmap Z Vfs;
  free : list Z;
  cap : Z;
}.
Arguments mk_table {Vfs}.
Arguments live {Vfs}.
Arguments free {Vfs}.
Arguments cap {Vfs}.

(** The queue threaded through the array, from index [i]. *)
Fixpoint chain {Vfs} (hs : list (dill_handle Vfs)) (i : Z) (fl : list Z) : Prop :=
  match fl with
  | [] => i = -1
  | x :: fl => i = x ∧ 0 ≤ x ∧ ∃ e, hs !! Z.to_nat x = Some e ∧ chain hs (next e) fl
  end.

Definition live_at {Vfs} (c : dill_ctx_handle Vfs) (h : Z) : option Vfs :=
  match handle_at c h with
  | Some e => if next e =? -2 then vfs e else None
  | None => None
  end.

(** A concrete table represents an abstract one. *)
Record represents {Vfs} (query : Vfs → ptr → ptr) (c : dill_ctx_handle Vfs) (t : table Vfs) : Prop := {
  rep_len : Z.of_nat (length (handles c)) = nhandles c;
  rep_cap : nhandles c = cap t;
  rep_chain : chain (handles c) (first c) (free t);
  rep_nodup : NoDup (free t);
  rep_last : ∀ x, last (free t) = Some x → last_ c = x;
  rep_live : ∀ h, live t !! h = live_at c h;
  rep_used : ∀ h e, handle_at c h = Some e → next e = -2 → is_Some (vfs e);
  rep_nused : nused c = Z.of_nat (size (live t));
  (** at most 8 unused handles are not in the queue *)
  rep_leak : cap t - nused c - 8 ≤ Z.of_nat (length (free t));
  (** the cache of the last query *)
  rep_cache : ∀ h e v, handle_at c h = Some e → next e = -2 → vfs e = Some v →
    hptr e ≠ NULL → hptr e = query v (type e);
}.

(** Growing, when at most 8 handles are unused.  The specification, from the comments of
    [dill_hmake]: the new handles are added to the queue of unused ones. *)
Definition s_expand {Vfs} (alloc : Z → bool) (t : table Vfs) : option (table Vfs) :=
  if cap t - Z.of_nat (size (live t)) <=? 8 then
    let sz := if cap t =? 0 then 256 else cap t * 2 in
    if alloc (sz * SIZEOF_HANDLE) then Some (mk_table (live t) (free t ++ seqZ (cap t) (sz - cap t)) sz)
    else None
  else Some t.

(** What the code does: [first] and [last] are overwritten, and the queue is the new handles
    only.  This is not the specification, but the view of the array that the proofs use. *)
Definition t_expand {Vfs} (alloc : Z → bool) (t : table Vfs) : option (table Vfs) :=
  if cap t - Z.of_nat (size (live t)) <=? 8 then
    let sz := if cap t =? 0 then 256 else cap t * 2 in
    if alloc (sz * SIZEOF_HANDLE) then Some (mk_table (live t) (seqZ (cap t) (sz - cap t)) sz)
    else None
  else Some t.

(** The operations, for either way of growing *)
Section Spec.
Context {Vfs : Type} (expand_by : table Vfs → option (table Vfs)) (methods : Vfs → bool) (query : Vfs → ptr → ptr).

(** Result, [errno] when the operation fails, new table. *)
Definition t_result : Type := Z * option errno_t * table Vfs.

Definition t_make (nb : bool) (v : option Vfs) (t : table Vfs) : t_result :=
  match v with
  | None => (-1, Some EINVAL, t)
  | Some v =>
    if negb (methods v) then (-1, Some EINVAL, t)
    else if nb then (-1, Some ECANCELED, t)
    else match expand_by t with
         | None => (-1, Some ENOMEM, t)
         | Some t =>
           match free t with
           | h :: fl => (h, None, mk_table (<[h := v]> (live t)) fl (cap t))
           | [] => (-1, None, t)
           end
         end
  end.

Definition t_release (h : Z) (t : table Vfs) : table Vfs :=
  mk_table (delete h (live t)) (free t ++ [h]) (cap t).

Definition t_close (h : Z) (t : table Vfs) : t_result :=
  match live t !! h with
  | None => (-1, Some EBADF, t)
  | Some _ => (0, None, t_release h t)
  end.

Definition t_own (nb : bool) (h : Z) (t : table Vfs) : t_result :=
  match live t !! h with
  | None => (-1, Some EBADF, t)
  | Some v =>
    match t_make nb (Some v) t with
    | (r, _, t') => if r <? 0 then (-1, None, t_release h t) else (r, None, t_release h t')
    end
  end.

(** The cache is not observable. *)
Definition t_query (h : Z) (ty : ptr) (t : table Vfs) : t_result :=
  match live t !! h with
  | None => (NULL, Some EBADF, t)
  | Some v => (query v ty, (if query v ty =? NULL then Some ENOTSUP else None), t)
  end.

Inductive hop := Make (v : option Vfs) | Close (h : Z) | Own (h : Z) | Query (h : Z) (ty : ptr).

Definition t_op (nb : bool) (o : hop) (t : table Vfs) : t_result :=
  match o with
  | Make v => t_make nb v t
  | Close h => t_close h t
  | Own h => t_own nb h t
  | Query h ty => t_query h ty t
  end.

Fixpoint t_ops (nb : bool) (os : list hop) (t : table Vfs) : list (Z * option errno_t) * table Vfs :=
  match os with
  | [] => ([], t)
  | o :: os =>
    let '(r, e, t) := t_op nb o t in
    let '(rs, t) := t_ops nb os t in ((r, e) :: rs, t)
  end.
End Spec.
Arguments hop : clear implicits.

(** * The array and the queue *)

Section Chain.
Context {Vfs : Type}.
Implicit Types (c : dill_ctx_handle Vfs) (hs : list (dill_handle Vfs)) (e : dill_handle Vfs).

Lemma handle_at_Some c h e :
  handle_at c h = Some e ↔ 0 ≤ h ∧ handles c !! Z.to_nat h = Some e.
Proof. unfold handle_at. destruct (Z.leb_spec 0 h); naive_solver lia. Qed.

Lemma handle_at_range c h e : handle_at c h = Some e → 0 ≤ h < Z.of_nat (length (handles c)).
Proof. intros [? E]%handle_at_Some. apply lookup_lt_Some in E. lia. Qed.

Lemma handle_at_is_Some c h : 0 ≤ h < Z.of_nat (length (handles c)) → is_Some (handle_at c h).
Proof.
  intros Hh. destruct (lookup_lt_is_Some_2 (handles c) (Z.to_nat h)) as [e He]; [lia|].
  exists e. apply handle_at_Some; split; [lia|done].
Qed.

Lemma handle_at_set_eq c h e e0 : handle_at c h = Some e0 → handle_at (set_entry h e c) h = Some e.
Proof.
  intros H. pose proof (handle_at_range _ _ _ H). apply handle_at_Some. split; [lia|].
  apply list_lookup_insert_eq. lia.
Qed.

Lemma handle_at_set_ne c h k e :
  0 ≤ h → h ≠ k → handle_at (set_entry h e c) k = handle_at c k.
Proof.
  intros Hh Hne. unfold handle_at. destruct (Z.leb_spec 0 k); [|done]. simpl.
  apply list_lookup_insert_ne. lia.
Qed.

Lemma chain_first hs i fl : chain hs i fl → i = hd (-1) fl.
Proof. destruct fl; cbn [chain]; [done|]. intros (-> & _). done. Qed.

Lemma chain_frame hs hs' i fl :
  (∀ x, x ∈ fl → hs' !! Z.to_nat x = hs !! Z.to_nat x) → chain hs i fl → chain hs' i fl.
Proof.
  revert i. induction fl as [|x fl IH]; intros i Hf; [done|]. cbn [chain].
  intros (-> & Hx & e & He & Hc). split; [done|]. split; [done|]. exists e.
  split; [rewrite Hf; [done|left]|]. apply IH; [|done]. intros y Hy. apply Hf. right. done.
Qed.

Lemma chain_pos hs i fl x : chain hs i fl → x ∈ fl → 0 ≤ x ∧ ∃ e, hs !! Z.to_nat x = Some e ∧ next e ≠ -2.
Proof.
  revert i. induction fl as [|y fl IH]; intros i Hc Hx; [by apply not_elem_of_nil in Hx|].
  destruct Hc as (-> & Hy & e & He & Hc). apply elem_of_cons in Hx as [->|Hx]; [|by eapply IH].
  split; [done|]. exists e. split; [done|]. destruct fl as [|z fl]; cbn [chain] in Hc; lia.
Qed.

Lemma chain_snoc hs i fl h eh el l :
  chain hs i fl → last fl = Some l → NoDup fl → h ∉ fl → 0 ≤ h →
  hs !! Z.to_nat h = Some eh → next eh = -1 → hs !! Z.to_nat l = Some el →
  chain (<[Z.to_nat l := mk_handle (vfs el) h (type el) (hptr el)]> hs) i (fl ++ [h]).
Proof.
  intros Hc Hl Hnd Hh H0 Heh Hn Hel. revert i Hc. induction fl as [|x fl IH]; intros i Hc; [done|].
  destruct Hc as (-> & Hx & e & He & Hc). apply NoDup_cons in Hnd as [Hxf Hnd].
  assert (Hxh : x ≠ h) by (intros ->; apply Hh; left).
  cbn [app chain]. split; [done|]. split; [done|].
  destruct fl as [|y fl].
  - injection Hl as ->. rewrite list_lookup_insert_eq by (by eapply lookup_lt_Some).
    eexists. split; [done|]. simpl. split; [done|]. split; [done|]. exists eh.
    rewrite list_lookup_insert_ne by lia. done.
  - exists e. assert (Hlx : l ≠ x).
    { intros ->. apply Hxf. rewrite last_cons_cons in Hl. by apply last_Some_elem_of. }
    assert (0 ≤ l). { apply (chain_pos _ _ _ l Hc). by apply last_Some_elem_of. }
    rewrite list_lookup_insert_ne by lia. split; [done|].
    apply IH; [by rewrite last_cons_cons in Hl|done| |done].
    intros Hin. apply Hh. by right.
Qed.

Lemma chain_fresh (hs : list (dill_handle Vfs)) n sz :
  Z.of_nat (length hs) = n → n < sz →
  chain (hs ++ fresh_entries n sz) n (seqZ n (sz - n)).
Proof.
  intros Hn Hsz. assert (H : ∀ k i, n ≤ i → sz - i = Z.of_nat (S k) →
    chain (hs ++ fresh_entries n sz) i (seqZ i (sz - i))).
  { induction k as [|k IH]; intros i Hi Hk; rewrite seqZ_cons by lia; cbn [chain];
      (split; [done|]; split; [lia|]);
      exists (mk_handle None (if i =? sz - 1 then -1 else i + 1) NULL NULL);
      (split; [rewrite lookup_app_r by lia; unfold fresh_entries;
        apply list_lookup_fmap_Some; exists i; split; [done|];
        apply lookup_seqZ; lia|]); simpl.
    - rewrite Hk. simpl. destruct (Z.eqb_spec i (sz - 1)); [|lia]. by cbn.
    - destruct (Z.eqb_spec i (sz - 1)); [lia|].
      replace (Z.pred (sz - i)) with (sz - (i + 1)) by lia.
      replace (Z.succ i) with (i + 1) by lia. apply IH; lia. }
  apply (H (Z.to_nat (sz - n - 1))); lia.
Qed.
End Chain.

(** * The three changes of the table *)

Section Rep.
Context {Vfs : Type} (query : Vfs → ptr → ptr).
Implicit Types (c : dill_ctx_handle Vfs) (t : table Vfs) (e : dill_handle Vfs).

Lemma live_entry c t h v :
  represents query c t → live t !! h = Some v →
  ∃ e, handle_at c h = Some e ∧ next e = -2 ∧ vfs e = Some v.
Proof.
  intros R Hl. rewrite (rep_live _ _ _ R) in Hl. unfold live_at in Hl.
  destruct (handle_at c h) as [e|]; [|done]. destruct (Z.eqb_spec (next e) (-2)); [|done].
  by exists e.
Qed.

Lemma live_range c t h v : represents query c t → live t !! h = Some v → 0 ≤ h < cap t.
Proof.
  intros R (e & He & _)%(live_entry c t h v R). apply handle_at_range in He.
  destruct R. lia.
Qed.

Lemma dead_entry c t h e :
  represents query c t → live t !! h = None → handle_at c h = Some e → next e ≠ -2.
Proof.
  intros R Hl He Hn. destruct (rep_used _ _ _ R h e He Hn) as [v Hv].
  rewrite (rep_live _ _ _ R) in Hl. unfold live_at in Hl. rewrite He, Hn, Hv in Hl. done.
Qed.

Lemma free_dead c t h : represents query c t → h ∈ free t → live t !! h = None ∧ 0 ≤ h.
Proof.
  intros R Hh. destruct (chain_pos _ _ _ h (rep_chain _ _ _ R) Hh) as (H0 & e & He & Hn).
  split; [|done]. rewrite (rep_live _ _ _ R). unfold live_at.
  assert (handle_at c h = Some e) as -> by (by apply handle_at_Some).
  by destruct (Z.eqb_spec (next e) (-2)).
Qed.

Lemma handle_at_grow c sz h :
  Z.of_nat (length (handles c)) = nhandles c →
  match handle_at (grow sz c) h with
  | Some e => handle_at c h = Some e ∨ (handle_at c h = None ∧ next e ≠ -2)
  | None => handle_at c h = None
  end.
Proof.
  intros Hl. destruct (handle_at (grow sz c) h) as [e|] eqn:He.
  - apply handle_at_Some in He as [H0 He]. simpl in He.
    apply lookup_app_Some in He as [He|[Hge He]]; [left; by apply handle_at_Some|right].
    split.
    + destruct (handle_at c h) eqn:E; [|done]. apply handle_at_range in E. lia.
    + apply list_lookup_fmap_Some in He as (i & -> & Hi). simpl.
      apply lookup_seqZ in Hi as [Hi ?]. destruct (Z.eqb_spec i (sz - 1)); lia.
  - unfold handle_at in *. destruct (0 <=? h); [|done]. simpl in He.
    apply lookup_ge_None in He. rewrite length_app in He. apply lookup_ge_None. lia.
Qed.

Lemma rep_grow c t sz :
  represents query c t → cap t - Z.of_nat (size (live t)) ≤ 8 → cap t < sz →
  represents query (grow sz c) (mk_table (live t) (seqZ (cap t) (sz - cap t)) sz).
Proof.
  intros R Hfull Hsz. pose proof (rep_len _ _ _ R) as Hlen. pose proof (rep_cap _ _ _ R) as Hcap.
  assert (G := λ h, handle_at_grow c sz h Hlen). constructor; simpl.
  - rewrite length_app. unfold fresh_entries. rewrite length_map, length_seqZ. lia.
  - done.
  - rewrite <- Hcap. apply chain_fresh; lia.
  - apply NoDup_seqZ.
  - intros x Hx. apply last_Some in Hx as [l' E].
    assert (H : seqZ (cap t) (sz - cap t) !! Z.to_nat (sz - cap t - 1) = Some (sz - 1))
      by (apply lookup_seqZ; lia).
    assert (Hl : length l' = Z.to_nat (sz - cap t - 1)).
    { apply (f_equal length) in E. rewrite length_seqZ, length_app in E. simpl in E. lia. }
    rewrite E, <- Hl, lookup_app_r, Nat.sub_diag in H by lia. by injection H.
  - intros h. rewrite (rep_live _ _ _ R). specialize (G h). unfold live_at.
    destruct (handle_at (grow sz c) h) as [e|]; [|by rewrite G].
    destruct G as [->|[-> Hn]]; [done|]. by destruct (Z.eqb_spec (next e) (-2)).
  - intros h e He Hn. specialize (G h). rewrite He in G. destruct G as [Hh|[_ ?]]; [|done].
    by eapply rep_used.
  - apply (rep_nused _ _ _ R).
  - rewrite length_seqZ, (rep_nused _ _ _ R). lia.
  - intros h e v He Hn Hv. specialize (G h). rewrite He in G. destruct G as [Hh|[_ ?]]; [|done].
    by eapply rep_cache.
Qed.

Definition take_first (v : Vfs) (e : dill_handle Vfs) c : dill_ctx_handle Vfs :=
  set_nused (nused c + 1)
    (set_entry (first c) (mk_handle (Some v) (-2) NULL NULL) (set_first (next e) c)).

Lemma handle_at_set c h e e0 k :
  handle_at c h = Some e0 →
  handle_at (set_entry h e c) k = if decide (h = k) then Some e else handle_at c k.
Proof.
  intros He. destruct (decide (h = k)) as [->|Hne]; [by eapply handle_at_set_eq|].
  apply handle_at_set_ne; [|done]. by apply handle_at_range in He as [? _].
Qed.

Lemma rep_take c t v h fl e :
  represents query c t → free t = h :: fl → handle_at c h = Some e →
  first c = h ∧ represents query (take_first v e c) (mk_table (<[h := v]> (live t)) fl (cap t)).
Proof.
  intros R Hf He. destruct (free_dead c t h R) as [Hd H0]; [rewrite Hf; left|].
  pose proof (rep_chain _ _ _ R) as Hc. rewrite Hf in Hc. destruct Hc as (Hfst & _ & e' & He' & Hc).
  split; [done|]. apply handle_at_Some in He as He2. destruct He2 as [_ He2].
  rewrite He' in He2. injection He2 as ->. subst h.
  pose proof (rep_nodup _ _ _ R) as Hnd. rewrite Hf in Hnd. apply NoDup_cons in Hnd as [Hhf Hnd].
  assert (HA : ∀ k, handle_at (take_first v e c) k =
    if decide (first c = k) then Some (mk_handle (Some v) (-2) NULL NULL) else handle_at c k).
  { intros k. apply (handle_at_set (set_first (next e) c) _ _ e). done. }
  constructor; simpl.
  - rewrite length_insert. apply (rep_len _ _ _ R).
  - apply (rep_cap _ _ _ R).
  - eapply chain_frame; [|exact Hc]. intros x Hx. apply list_lookup_insert_ne.
    destruct (free_dead c t x R) as [_ ?]; [rewrite Hf; by right|].
    intros E. apply Hhf. by replace (first c) with x by lia.
  - done.
  - intros x Hx. apply (rep_last _ _ _ R). rewrite Hf. destruct fl; [done|].
    by rewrite last_cons_cons.
  - intros k. rewrite lookup_insert. unfold live_at. rewrite HA.
    destruct (decide (first c = k)); [done|]. apply (rep_live _ _ _ R).
  - intros k e1. rewrite HA. destruct (decide (first c = k)); [naive_solver|]. apply (rep_used _ _ _ R).
  - rewrite map_size_insert_None by done. rewrite (rep_nused _ _ _ R). lia.
  - pose proof (rep_leak _ _ _ R) as HL. rewrite Hf in HL. simpl in HL. lia.
  - intros k e1 v1. rewrite HA. destruct (decide (first c = k)).
    + intros [= <-] _ _ Hp. done.
    + apply (rep_cache _ _ _ R).
Qed.

(** The queue after [h] is appended to it. *)
Definition released (h : Z) (e el : dill_handle Vfs) c : dill_ctx_handle Vfs :=
  let c1 := set_entry h (mk_handle (vfs e) (-1) (type e) NULL) c in
  let c2 := if first c =? -1 then set_first h c1
            else set_entry (last_ c) (mk_handle (vfs el) h (type el) (hptr el)) c1 in
  set_nused (nused c - 1) (set_last h c2).

Lemma rep_first c t : represents query c t → (first c = -1 ↔ free t = []).
Proof.
  intros R. pose proof (rep_chain _ _ _ R) as Hc. pose proof (chain_first _ _ _ Hc) as Hf.
  destruct (free t) as [|x fl] eqn:E; [done|]. split; [|done].
  destruct Hc as (-> & ? & _). lia.
Qed.

Lemma rep_last_entry c t :
  represents query c t → free t ≠ [] →
  ∃ el, handle_at c (last_ c) = Some el ∧ next el ≠ -2 ∧ last (free t) = Some (last_ c).
Proof.
  intros R Hf. destruct (last (free t)) as [l|] eqn:El; [|by apply last_None in El].
  rewrite (rep_last _ _ _ R l El).
  destruct (chain_pos _ _ _ l (rep_chain _ _ _ R)) as (H0 & el & Hel & Hn).
  { by apply last_Some_elem_of. }
  exists el. split; [by apply handle_at_Some|done].
Qed.

Lemma handle_at_released c t h e el k :
  represents query c t → handle_at c h = Some e → next e = -2 →
  (free t ≠ [] → handle_at c (last_ c) = Some el ∧ next el ≠ -2) →
  handle_at (released h e el c) k =
    if decide (h = k) then Some (mk_handle (vfs e) (-1) (type e) NULL)
    else if decide (free t ≠ [] ∧ last_ c = k) then Some (mk_handle (vfs el) h (type el) (hptr el))
    else handle_at c k.
Proof.
  intros R He Hn Hel. set (c1 := set_entry h (mk_handle (vfs e) (-1) (type e) NULL) c).
  assert (H1 : ∀ k, handle_at c1 k = if decide (h = k) then Some (mk_handle (vfs e) (-1) (type e) NULL)
    else handle_at c k) by (intros; by eapply handle_at_set).
  pose proof (rep_first c t R) as Hf. unfold released. fold c1.
  destruct (Z.eqb_spec (first c) (-1)) as [E|E].
  - change (handle_at c1 k = if decide (h = k) then Some (mk_handle (vfs e) (-1) (type e) NULL)
      else if decide (free t ≠ [] ∧ last_ c = k) then Some (mk_handle (vfs el) h (type el) (hptr el))
      else handle_at c k).
    rewrite H1. destruct (decide (h = k)); [done|]. rewrite decide_False; [done|]. tauto.
  - change (handle_at (set_entry (last_ c) (mk_handle (vfs el) h (type el) (hptr el)) c1) k =
      if decide (h = k) then Some (mk_handle (vfs e) (-1) (type e) NULL)
      else if decide (free t ≠ [] ∧ last_ c = k) then Some (mk_handle (vfs el) h (type el) (hptr el))
      else handle_at c k).
    destruct Hel as [Hel Hnl]; [tauto|]. assert (h ≠ last_ c) by congruence.
    rewrite (handle_at_set c1 _ _ el) by (rewrite H1; by rewrite decide_False).
    rewrite H1. destruct (decide (last_ c = k)) as [Ek|Ek].
    + rewrite decide_False by congruence. rewrite decide_True; [done|tauto].
    + destruct (decide (h = k)); [done|]. rewrite (decide_False (P := _ ∧ _)); [done|tauto].
Qed.

Lemma rep_release c t h v e el :
  represents query c t → live t !! h = Some v → handle_at c h = Some e → next e = -2 →
  (free t ≠ [] → handle_at c (last_ c) = Some el ∧ next el ≠ -2) →
  represents query (released h e el c) (t_release h t).
Proof.
  intros R Hv He Hn Hel. pose proof (handle_at_released c t h e el) as HA.
  assert (HA' := λ k, HA k R He Hn Hel). clear HA. pose proof (rep_first c t R) as Hf.
  assert (Hhf : h ∉ free t).
  { intros Hin. destruct (free_dead c t h R Hin). congruence. }
  assert (H0 : 0 ≤ h) by (by apply handle_at_range in He as [? _]).
  apply handle_at_Some in He as He'. destruct He' as [_ He'].
  constructor; simpl.
  - unfold released. destruct (_ =? _); simpl; rewrite !length_insert; apply (rep_len _ _ _ R).
  - unfold released. destruct (_ =? _); apply (rep_cap _ _ _ R).
  - unfold released. destruct (Z.eqb_spec (first c) (-1)) as [E|E].
    + destruct (rep_first c t R) as [H _]. rewrite (H E). simpl. split; [done|]. split; [done|].
      eexists. rewrite list_lookup_insert_eq; [|by eapply lookup_lt_Some]. by split.
    + destruct (rep_last_entry c t R) as (el' & Hel' & _ & Hl); [tauto|].
      destruct Hel as [Hel Hnl]; [tauto|]. assert (h ≠ last_ c) by congruence.
      apply handle_at_Some in Hel as [? Hel]. simpl.
      apply chain_snoc with (eh := mk_handle (vfs e) (-1) (type e) NULL); [..|done| |done|].
      * eapply chain_frame; [|apply (rep_chain _ _ _ R)]. intros x Hx.
        destruct (free_dead c t x R Hx) as [_ ?]. apply list_lookup_insert_ne.
        intros Ex. apply Hhf. by replace h with x by lia.
      * done.
      * apply (rep_nodup _ _ _ R).
      * done.
      * apply list_lookup_insert_eq. by eapply lookup_lt_Some.
      * rewrite list_lookup_insert_ne by lia. done.
  - apply NoDup_app. split; [apply (rep_nodup _ _ _ R)|]. split.
    + intros x Hx Hx'. apply list_elem_of_singleton in Hx'. by subst.
    + apply NoDup_singleton.
  - intros x. rewrite last_snoc. intros [= <-]. unfold released. by destruct (first c =? -1).
  - intros k. rewrite lookup_delete. unfold live_at. rewrite HA'.
    destruct (decide (h = k)); [done|]. rewrite (rep_live _ _ _ R). unfold live_at.
    destruct (decide (free t ≠ [] ∧ last_ c = k)) as [[Ht <-]|]; [|done].
    destruct (Hel Ht) as [-> Hnl]. simpl.
    destruct (Z.eqb_spec h (-2)); [lia|]. by destruct (Z.eqb_spec (next el) (-2)).
  - intros k e1. rewrite HA'. destruct (decide (h = k)); [naive_solver|].
    destruct (decide (free t ≠ [] ∧ last_ c = k)); [|apply (rep_used _ _ _ R)].
    intros [= <-]. simpl. lia.
  - rewrite map_size_delete_Some by done. pose proof (rep_nused _ _ _ R) as Hu.
    assert (size (live t) ≠ 0)%nat.
    { intros Hz. apply map_size_empty_iff in Hz. rewrite Hz in Hv. by rewrite lookup_empty in Hv. }
    unfold released. destruct (first c =? -1); simpl; lia.
  - rewrite length_app. simpl. pose proof (rep_leak _ _ _ R).
    unfold released. destruct (first c =? -1); simpl; lia.
  - intros k e1 v1. rewrite HA'. destruct (decide (h = k)); [naive_solver|].
    destruct (decide (free t ≠ [] ∧ last_ c = k)); [|apply (rep_cache _ _ _ R)].
    intros [= <-]. simpl. lia.
Qed.
(** Updating the query cache of a live handle. *)
Lemma rep_cache_update c t h e v ty :
  represents query c t → handle_at c h = Some e → next e = -2 → vfs e = Some v →
  represents query (set_entry h (mk_handle (vfs e) (next e) ty (query v ty)) c) t.
Proof.
  intros R He Hn Hv.
  assert (HA := λ k, handle_at_set c h (mk_handle (vfs e) (next e) ty (query v ty)) e k He).
  destruct R. constructor; simpl; try done.
  - by rewrite length_insert.
  - eapply chain_frame; [|done]. intros x Hx. apply list_lookup_insert_ne. intros Ex.
    destruct (chain_pos _ _ _ x rep_chain0 Hx) as (? & e1 & He1 & ?).
    apply handle_at_Some in He as [? He]. rewrite Ex in He. congruence.
  - intros k. unfold live_at. rewrite HA, rep_live0. unfold live_at.
    destruct (decide (h = k)) as [->|]; [by rewrite He|done].
  - intros k e1. rewrite HA. destruct (decide (h = k)); [naive_solver|]. apply rep_used0.
  - intros k e1 v1. rewrite HA. destruct (decide (h = k)) as [->|]; [|apply rep_cache0].
    intros [= <-] _ Hv1 _. simpl in *. congruence.
Qed.
End Rep.

(** * Queries in any environment *)

(** A monad whose computations have runs, and the handle context in its states;
    objects answer queries by [query]. *)
Class HandleRun {Vfs : Type} {M : Type → Type} `{HandleEnv Vfs M} (query : Vfs → ptr → ptr) (St : Type) := {
  hrun : ∀ {A}, M A → St → A → St → Prop;
  hr_ctx : St → dill_ctx_handle Vfs;
  hr_set : dill_ctx_handle Vfs → St → St;
  hr_err : errno_t → St → St;
  hr_ret : ∀ A (a : A) s, hrun (mret a) s a s;
  hr_bind : ∀ A B (m : M A) (k : A → M B) s a s1 b s2,
    hrun m s a s1 → hrun (k a) s1 b s2 → hrun (m ≫= k) s b s2;
  hr_get : ∀ s, hrun h_get s (hr_ctx s) s;
  hr_put : ∀ c s, hrun (h_put c) s tt (hr_set c s);
  hr_errno : ∀ e s, hrun (h_errno e) s tt (hr_err e s);
  hr_query : ∀ v ty s, hrun (h_query v ty) s (query v ty) (if query v ty =? NULL then hr_err ENOTSUP s else s);
  hr_ctx_set : ∀ c s, hr_ctx (hr_set c s) = c;
  hr_set_set : ∀ c c' s, hr_set c' (hr_set c s) = hr_set c' s;
}.

Section Queries.
Context {Vfs : Type} {M : Type → Type} {St : Type} `{HR : HandleRun Vfs M query St}.
Implicit Types (s : St) (t : table Vfs).

Lemma run_check s t h :
  represents query (hr_ctx s) t →
  match live t !! h with
  | None => hrun (check_handle h) s None (hr_err EBADF s)
  | Some v => ∃ e, handle_at (hr_ctx s) h = Some e ∧ next e = -2 ∧ vfs e = Some v ∧
      hrun (check_handle h) s (Some e) s
  end.
Proof.
  intros R. unfold check_handle. destruct (live t !! h) as [v|] eqn:Hl.
  - destruct (live_entry _ _ _ h v R Hl) as (e & He & Hn & Hv). exists e. repeat (split; [done|]).
    pose proof (live_range _ _ _ h v R Hl). pose proof (rep_cap _ _ _ R).
    eapply hr_bind; [apply hr_get|]. cbn beta.
    destruct (Z.ltb_spec h 0); [lia|]. destruct (Z.leb_spec (nhandles (hr_ctx s)) h); [lia|].
    cbn [orb]. rewrite He, Hn. apply hr_ret.
  - assert (Hfail : hrun (h_errno EBADF;; mret (A := option (dill_handle Vfs)) None) s None (hr_err EBADF s)).
    { eapply hr_bind; [apply hr_errno|apply hr_ret]. }
    eapply hr_bind; [apply hr_get|]. cbn beta.
    destruct (Z.ltb_spec h 0); [exact Hfail|]. destruct (Z.leb_spec (nhandles (hr_ctx s)) h); [exact Hfail|].
    cbn [orb]. destruct (handle_at_is_Some (hr_ctx s) h) as [e He].
    { rewrite (rep_len _ _ _ R). lia. }
    rewrite He. pose proof (dead_entry _ _ _ h e R Hl He).
    destruct (Z.eqb_spec (next e) (-2)); [done|exact Hfail].
Qed.

Lemma run_write s h f e :
  handle_at (hr_ctx s) h = Some e →
  hrun (write_entry (gen (hr_ctx s)) h f) s tt (hr_set (set_entry h (f e) (hr_ctx s)) s).
Proof.
  intros He. unfold write_entry. eapply hr_bind; [apply hr_get|]. cbn beta. rewrite He, Nat.eqb_refl.
  apply hr_put.
Qed.

(** [hquery] of a live handle: the answer of its object, through the cache. *)
Lemma run_hquery s t h ty :
  represents query (hr_ctx s) t →
  match live t !! h with
  | None => hrun (dill_hquery h ty) s NULL (hr_err EBADF s)
  | Some v =>
    if query v ty =? NULL then hrun (dill_hquery h ty) s NULL (hr_err ENOTSUP s)
    else ∃ c, (hrun (dill_hquery h ty) s (query v ty) s ∨ hrun (dill_hquery h ty) s (query v ty) (hr_set c s)) ∧
      represents query c t
  end.
Proof.
  intros R. pose proof (run_check s t h R) as Hck. unfold dill_hquery.
  destruct (live t !! h) as [v|] eqn:Hl.
  2: { eapply hr_bind; [exact Hck|apply hr_ret]. }
  destruct Hck as (e & He & Hn & Hv & Hck).
  destruct (negb (hptr e =? NULL) && (type e =? ty)) eqn:Hca.
  - apply andb_prop in Hca as Hca'. destruct Hca' as [Hp Ht].
    apply negb_true_iff, Z.eqb_neq in Hp. apply Z.eqb_eq in Ht.
    pose proof (rep_cache _ _ _ R h e v He Hn Hv Hp) as E. rewrite Ht in E.
    rewrite <- E. apply Z.eqb_neq in Hp as Hp'. rewrite Hp'. exists (hr_ctx s). split; [left|exact R].
    eapply hr_bind; [exact Hck|]. cbn iota beta. rewrite Hca. apply hr_ret.
  - pose proof (hr_query v ty s) as Hq. destruct (query v ty =? NULL) eqn:E.
    + eapply hr_bind; [exact Hck|]. cbn iota beta. rewrite Hca.
      eapply hr_bind; [eapply hr_bind; [apply hr_get|apply hr_ret]|]. cbn beta. rewrite Hv.
      eapply hr_bind; [exact Hq|]. cbn beta. rewrite E. apply hr_ret.
    + exists (set_entry h (mk_handle (vfs e) (next e) ty (query v ty)) (hr_ctx s)).
      split; [right|by apply (rep_cache_update query _ t)].
      eapply hr_bind; [exact Hck|]. cbn iota beta. rewrite Hca.
      eapply hr_bind; [eapply hr_bind; [apply hr_get|apply hr_ret]|]. cbn beta. rewrite Hv.
      eapply hr_bind; [exact Hq|]. cbn beta. rewrite E.
      eapply hr_bind; [by apply run_write|]. cbn beta.
      assert (Hset : handle_at (hr_ctx (hr_set (set_entry h (mk_handle (vfs e) (next e) ty (hptr e))
        (hr_ctx s)) s)) h = Some (mk_handle (vfs e) (next e) ty (hptr e))).
      { rewrite hr_ctx_set. by eapply handle_at_set_eq. }
      pose proof (run_write _ h (λ e, mk_handle (vfs e) (next e) (type e) (query v ty)) _ Hset) as Hw.
      rewrite hr_ctx_set, hr_set_set in Hw. cbn [gen set_entry vfs next type hptr] in Hw.
      unfold set_entry in Hw. cbn [handles gen nhandles nused first last_] in Hw.
      rewrite list_insert_insert_eq in Hw. rewrite <- Hv. eapply hr_bind; [exact Hw|apply hr_ret].
Qed.
End Queries.

(** * The operations implement the abstract table *)

Section Refine.
Context {Vfs : Type} (alloc : Z → bool) (methods : Vfs → bool) (query : Vfs → ptr → ptr).
Context (close : Vfs → HM Vfs unit).
Local Instance env : HandleEnv Vfs (HM Vfs) := HM_env alloc methods query close.
Implicit Types (s : hst Vfs) (t : table Vfs).

Definition blocked s : bool := no_blocking1 s || no_blocking2 s.

(** [s] is a state of the library whose table is [t]. *)
Definition in_table s t : Prop := represents query (hctx s) t.

(** The outcome of an operation: the abstract result, [errno] when it failed, the
    abstract table, and the flags as they were. *)
Definition refines (s : hst Vfs) (m : option (Z * hst Vfs)) (r : t_result) : Prop :=
  ∃ s', m = Some (r.1.1, s') ∧ in_table s' r.2 ∧
    (∀ e, r.1.2 = Some e → herrno s' = e) ∧
    no_blocking1 s' = no_blocking1 s ∧ no_blocking2 s' = no_blocking2 s.

Lemma refines_fail s t r e : in_table s t → refines s (Some (r, set_err e s)) (r, Some e, t).
Proof. intros R. exists (set_err e s). repeat (split; [done|]). naive_solver. Qed.

Lemma check_live s t h v :
  in_table s t → live t !! h = Some v →
  ∃ e, handle_at (hctx s) h = Some e ∧ next e = -2 ∧ vfs e = Some v ∧
    check_handle h s = Some (Some e, s).
Proof.
  intros R Hl. destruct (live_entry _ _ _ h v R Hl) as (e & He & Hn & Hv).
  exists e. repeat (split; [done|]). pose proof (live_range _ _ _ h v R Hl).
  pose proof (rep_cap _ _ _ R). unfold check_handle. simpl. unfold mbind, HM_bind.
  destruct (Z.ltb_spec h 0); [lia|]. destruct (Z.leb_spec (nhandles (hctx s)) h); [lia|].
  cbn [orb]. rewrite He. by rewrite Hn.
Qed.

Lemma check_dead s t h :
  in_table s t → live t !! h = None → check_handle h s = Some (None, set_err EBADF s).
Proof.
  intros R Hl. unfold check_handle. simpl. unfold mbind, HM_bind.
  destruct (Z.ltb_spec h 0); [done|]. destruct (Z.leb_spec (nhandles (hctx s)) h); [done|].
  cbn [orb]. destruct (handle_at_is_Some (hctx s) h) as [e He].
  { rewrite (rep_len _ _ _ R). lia. }
  rewrite He. pose proof (dead_entry _ _ _ h e R Hl He).
  by destruct (Z.eqb_spec (next e) (-2)).
Qed.

Lemma expand_spec s t :
  in_table s t → 0 ≤ cap t < 2 ^ 30 →
  match t_expand alloc t with
  | None => expand s = Some (false, set_err ENOMEM s)
  | Some t' => ∃ c, expand s = Some (true, set_ctx c s) ∧ represents query c t' ∧
      live t' = live t ∧ free t' ≠ []
  end.
Proof.
  intros R Hcap. pose proof (rep_cap _ _ _ R) as Hc. pose proof (rep_nused _ _ _ R) as Hu.
  unfold t_expand, expand. simpl. unfold mbind, HM_bind. rewrite Hc, Hu.
  destruct (Z.leb_spec (cap t - Z.of_nat (size (live t))) 8) as [Hle|Hgt].
  - set (sz := if cap t =? 0 then 256 else cap t * 2).
    assert (Hsz : cap t < sz ∧ sz ≤ 2 ^ 31 - 1).
    { unfold sz. destruct (Z.eqb_spec (cap t) 0); lia. }
    unfold INT_MAX. destruct (Z.ltb_spec (2 ^ 31 - 1) sz); [lia|].
    destruct (alloc (sz * SIZEOF_HANDLE)); [|done].
    exists (grow sz (hctx s)). split; [done|]. split; [apply rep_grow; [done|lia|lia]|].
    split; [done|]. simpl. rewrite seqZ_cons by lia. done.
  - exists (hctx s). split; [by destruct s|]. split; [done|]. split; [done|].
    pose proof (rep_leak _ _ _ R). intros E. rewrite E in *. simpl in *. lia.
Qed.

Lemma bind_ok {A B} (m : HM Vfs A) (k : A → HM Vfs B) s a s' :
  m s = Some (a, s') → (m ≫= k) s = k a s'.
Proof. intros E. unfold mbind, HM_bind. by rewrite E. Qed.

Lemma canblock_eq s :
  h_canblock s = Some (if blocked s then (-1, set_err ECANCELED s) else (0, s)).
Proof. simpl. unfold blocked. by destruct (_ || _). Qed.

Lemma hmake_spec s t v :
  in_table s t → 0 ≤ cap t < 2 ^ 30 →
  refines s (dill_hmake v s) (t_make (t_expand alloc) methods (blocked s) v t).
Proof.
  intros R Hcap. unfold dill_hmake, t_make.
  destruct v as [v|]; [|exact (refines_fail s t (-1) EINVAL R)].
  change (h_has_methods v) with (methods v). destruct (methods v); cbn [negb];
    [|exact (refines_fail s t (-1) EINVAL R)].
  pose proof (canblock_eq s) as Hb.
  destruct (blocked s); erewrite bind_ok by exact Hb; [exact (refines_fail s t (-1) ECANCELED R)|].
  cbn [Z.ltb Z.compare]. pose proof (expand_spec s t R Hcap) as HX.
  destruct (t_expand alloc t) as [t'|].
  - destruct HX as (c & HX & R' & El & Hf). erewrite bind_ok by exact HX. cbn [negb].
    erewrite bind_ok by done. cbn [hctx set_ctx].
    destruct (free t') as [|h fl] eqn:Ef; [done|].
    destruct (chain_pos _ _ _ h (rep_chain _ _ _ R')) as (H0 & e & He & _); [rewrite Ef; left|].
    assert (Hh : handle_at c h = Some e) by (apply handle_at_Some; split; [exact H0|exact He]).
    destruct (rep_take query c t' v h fl e R' Ef Hh) as [Hfst R2].
    rewrite Hfst, Hh. eexists. split; [done|]. simpl.
    unfold take_first in R2. rewrite Hfst in R2. split; [exact R2|]. naive_solver.
  - erewrite bind_ok by exact HX. exact (refines_fail s t (-1) ENOMEM R).
Qed.

Lemma write_entry_ok s g h f e :
  handle_at (hctx s) h = Some e → g = gen (hctx s) →
  write_entry g h f s = Some (tt, set_ctx (set_entry h (f e) (hctx s)) s).
Proof.
  intros He ->. unfold write_entry. erewrite bind_ok by done. rewrite He.
  by rewrite Nat.eqb_refl.
Qed.

Lemma release_spec s t h v :
  in_table s t → live t !! h = Some v →
  ∃ c, release (gen (hctx s)) h s = Some (tt, set_ctx c s) ∧
    gen c = gen (hctx s) ∧ represents query c (t_release h t).
Proof.
  intros R Hl. destruct (live_entry _ _ _ h v R Hl) as (e & He & Hn & Hv).
  assert (Hel : ∃ el, free t ≠ [] → handle_at (hctx s) (last_ (hctx s)) = Some el ∧ next el ≠ -2).
  { destruct (decide (free t = [])) as [E|E]; [by exists e|].
    destruct (rep_last_entry _ _ _ R E) as (el & ? & ? & _). by exists el. }
  destruct Hel as [el Hel]. exists (released h e el (hctx s)).
  split; [|split; [|by apply (rep_release _ _ _ _ v)]].
  2: { unfold released. by destruct (first (hctx s) =? -1). }
  pose proof (rep_first _ _ _ R) as Hf. unfold release.
  erewrite bind_ok by (by apply write_entry_ok). cbn [hctx set_ctx].
  erewrite bind_ok.
  2: { apply write_entry_ok; [|done]. by eapply handle_at_set_eq. }
  erewrite bind_ok by done. cbn [hctx set_ctx vfs next type hptr].
  set (c1 := set_entry h _ (set_entry h _ _)).
  assert (Hc1 : c1 = set_entry h (mk_handle (vfs e) (-1) (type e) NULL) (hctx s)).
  { unfold c1, set_entry. simpl. by rewrite list_insert_insert_eq. }
  rewrite Hc1. unfold released. change (first (set_entry _ _ ?c)) with (first c).
  destruct (Z.eqb_spec (first (hctx s)) (-1)) as [E|E].
  - erewrite bind_ok by done. by erewrite bind_ok by done.
  - erewrite bind_ok.
    2: { apply write_entry_ok; [|done]. simpl.
         destruct Hel as [Hel Hnl]; [tauto|]. rewrite handle_at_set_ne; [exact Hel| |congruence].
         by apply handle_at_range in He as [? _]. }
    by erewrite bind_ok by done.
Qed.

(** Closing a live handle, whatever its object does to the table meanwhile. *)
Lemma hclose_spec s t h v s2 t2 v2 :
  in_table s t → live t !! h = Some v →
  close v (set_nb2 true s) = Some (tt, s2) →
  gen (hctx s2) = gen (hctx s) → in_table s2 t2 → live t2 !! h = Some v2 →
  ∃ c, dill_hclose h s = Some (0, set_ctx c (set_nb2 (no_blocking2 s) s2)) ∧
    gen c = gen (hctx s) ∧ represents query c (t_release h t2).
Proof.
  intros R Hl Hc Hg R2 Hl2. destruct (check_live s t h v R Hl) as (e & He & Hn & Hv & Hck).
  destruct (release_spec (set_nb2 (no_blocking2 s) s2) t2 h v2 R2 Hl2) as (c & Hr & Hgc & R3).
  exists c. split; [|split; [by rewrite Hgc|done]]. unfold dill_hclose. erewrite bind_ok by exact Hck. cbn iota beta.
  erewrite bind_ok by done. erewrite bind_ok by done. rewrite Hv.
  erewrite bind_ok by exact Hc. erewrite bind_ok by done.
  rewrite <- Hg. by erewrite bind_ok by exact Hr.
Qed.

Lemma hclose_bad s t h :
  in_table s t → live t !! h = None → dill_hclose h s = Some (-1, set_err EBADF s).
Proof.
  intros R Hl. unfold dill_hclose. by erewrite bind_ok by (by eapply check_dead).
Qed.

Lemma query_eq s v ty :
  h_query v ty s = Some (if query v ty =? NULL then (NULL, set_err ENOTSUP s) else (query v ty, s)).
Proof. simpl. by destruct (_ =? _). Qed.

Lemma hquery_spec s t h ty :
  in_table s t → refines s (dill_hquery h ty s) (t_query query h ty t).
Proof.
  intros R. unfold t_query, dill_hquery. destruct (live t !! h) as [v|] eqn:Hl.
  2: { erewrite bind_ok by (by eapply check_dead). exact (refines_fail s t NULL EBADF R). }
  destruct (check_live s t h v R Hl) as (e & He & Hn & Hv & Hck).
  erewrite bind_ok by exact Hck. cbn iota beta.
  destruct (negb (hptr e =? NULL) && (type e =? ty)) eqn:Hca.
  - apply andb_prop in Hca as [Hp Ht]. apply negb_true_iff, Z.eqb_neq in Hp. apply Z.eqb_eq in Ht.
    pose proof (rep_cache _ _ _ R h e v He Hn Hv Hp) as E. rewrite Ht in E. rewrite E in *.
    apply Z.eqb_neq in Hp. rewrite Hp. by exists s.
  - erewrite bind_ok by done. rewrite Hv. pose proof (query_eq s v ty) as Hq.
    destruct (Z.eqb_spec (query v ty) NULL) as [E|E]; erewrite bind_ok by exact Hq.
    + rewrite E. exact (refines_fail s t NULL ENOTSUP R).
    + apply Z.eqb_neq in E as E'. rewrite E'.
      erewrite bind_ok by (by apply write_entry_ok). cbn [hctx set_ctx].
      erewrite bind_ok. 2: { apply write_entry_ok; [by eapply handle_at_set_eq|done]. }
      eexists. split; [done|]. simpl. split; [|naive_solver].
      set (c1 := set_entry h _ (set_entry h _ _)).
      assert (Hc1 : c1 = set_entry h (mk_handle (vfs e) (next e) ty (query v ty)) (hctx s)).
      { unfold c1, set_entry. simpl. by rewrite list_insert_insert_eq. }
      unfold in_table. simpl. rewrite Hc1. by apply (rep_cache_update query _ t).
Qed.

(** Objects whose close function does not use the table. *)
Hypothesis close_leaf : ∀ v s, ∃ e, close v s = Some (tt, set_err e s).

Lemma hclose_leaf s t h : in_table s t → refines s (dill_hclose h s) (t_close h t).
Proof.
  intros R. unfold t_close. destruct (live t !! h) as [v|] eqn:Hl.
  2: { rewrite (hclose_bad s t h R Hl). exact (refines_fail s t (-1) EBADF R). }
  destruct (close_leaf v (set_nb2 true s)) as [e Hc].
  destruct (hclose_spec s t h v _ t v R Hl Hc) as (c & E & _ & R'); [done..|].
  rewrite E. eexists. split; [done|]. split; [done|]. naive_solver.
Qed.

Lemma make_keeps nb v t h :
  live t !! h = Some v → live (t_make (t_expand alloc) methods nb (Some v) t).2 !! h = Some v.
Proof.
  intros Hl. unfold t_make. destruct (methods v); cbn [negb]; [|done].
  destruct nb; [done|]. unfold t_expand.
  destruct (_ <=? 8); [destruct (alloc _); [|done]|]; simpl.
  - destruct (seqZ _ _) as [|z]; [done|]. simpl. rewrite lookup_insert. by destruct (decide (z = h)).
  - destruct (free t) as [|z]; [done|]. simpl. rewrite lookup_insert. by destruct (decide (z = h)).
Qed.

Lemma make_neg nb v t :
  (∀ x, x ∈ free t → 0 ≤ x) → 0 ≤ cap t →
  (t_make (t_expand alloc) methods nb v t).1.1 < 0 → (t_make (t_expand alloc) methods nb v t).2 = t ∨
    (∃ t1, t_expand alloc t = Some t1 ∧ free t1 = []).
Proof.
  intros Hf Hcap. unfold t_make. destruct v as [v|]; [|by left].
  destruct (methods v); cbn [negb]; [|by left]. destruct nb; [by left|].
  unfold t_expand. destruct (_ <=? 8); [destruct (alloc _); [|by left]|]; simpl.
  - destruct (seqZ _ _) as [|z l] eqn:E; simpl; [intros _; right; eauto|].
    assert (Hz : z ∈ seqZ (cap t) ((if cap t =? 0 then 256 else cap t * 2) - cap t))
      by (rewrite E; left). apply elem_of_seqZ in Hz. lia.
  - destruct (free t) as [|z l] eqn:Ef; simpl; [intros _; right; by exists t|].
    intros Hz. specialize (Hf z ltac:(left)). lia.
Qed.

Lemma hown_leaf s t h :
  in_table s t → 0 ≤ cap t < 2 ^ 30 →
  refines s (dill_hown h s) (t_own (t_expand alloc) methods (blocked s) h t).
Proof.
  intros R Hcap. unfold t_own, dill_hown. destruct (live t !! h) as [v|] eqn:Hl.
  2: { erewrite bind_ok by (by eapply check_dead). exact (refines_fail s t (-1) EBADF R). }
  destruct (check_live s t h v R Hl) as (e & He & Hn & Hv & Hck).
  erewrite bind_ok by exact Hck. cbn iota beta. rewrite Hv.
  destruct (hmake_spec s t (Some v) R Hcap) as (s' & E & R' & _ & Hb1 & Hb2).
  pose proof (make_keeps (blocked s) v t h Hl) as Hl'.
  pose proof (make_neg (blocked s) (Some v) t) as Hneg.
  erewrite bind_ok by exact E.
  destruct (t_make (t_expand alloc) methods (blocked s) (Some v) t) as [[r er] t']. simpl in *.
  destruct (Z.ltb_spec r 0) as [Hr|Hr].
  - assert (t' = t) as ->.
    { destruct Hneg as [|(t1 & Ht1 & Hf1)]; [|lia|done|done|].
      - intros x Hx. by apply (free_dead _ _ _ x R).
      - pose proof (expand_spec s t R Hcap) as HX. rewrite Ht1 in HX.
        by destruct HX as (? & _ & _ & _ & ?). }
    destruct (hclose_leaf s' t h R') as (s2 & E2 & R2 & _ & H1 & H2). unfold t_close in *.
    rewrite Hl in *. erewrite bind_ok by exact E2. exists s2. split; [done|]. split; [done|].
    split; [done|]. split; congruence.
  - erewrite bind_ok by done. destruct (release_spec s' t' h v R' Hl') as (c & Hc & _ & R2).
    erewrite bind_ok by exact Hc. exists (set_ctx c s'). repeat (split; [done|]). done.
Qed.

(** ** Sequences of operations *)

Definition dill_op (o : hop Vfs) : HM Vfs Z :=
  match o with
  | Make v => dill_hmake v
  | Close h => dill_hclose h
  | Own h => dill_hown h
  | Query h ty => dill_hquery h ty
  end.

(** Run the operations; collect each result with the [errno] it left. *)
Fixpoint dill_ops (os : list (hop Vfs)) (s : hst Vfs) : option (list (Z * errno_t) * hst Vfs) :=
  match os with
  | [] => Some ([], s)
  | o :: os =>
    match dill_op o s with
    | None => None
    | Some (r, s) => '(rs, s') ← dill_ops os s; Some ((r, herrno s) :: rs, s')
    end
  end.

Definition agrees (r : Z * errno_t) (r' : Z * option errno_t) : Prop :=
  r.1 = r'.1 ∧ ∀ e, r'.2 = Some e → r.2 = e.

(** [realloc] does not succeed for a table of 2^30 entries (32 GiB). *)
Hypothesis alloc_bound : ∀ n, alloc n = true → n < 2 ^ 30 * SIZEOF_HANDLE.

Lemma expand_cap t t' : 0 ≤ cap t < 2 ^ 30 → t_expand alloc t = Some t' → 0 ≤ cap t' < 2 ^ 30.
Proof.
  intros Hc. unfold t_expand. destruct (_ <=? 8); [|by intros [= <-]].
  set (sz := if cap t =? 0 then 256 else cap t * 2).
  assert (0 ≤ sz) by (unfold sz; destruct (_ =? _); lia). clearbody sz.
  destruct (alloc _) eqn:Ha; [|done]. intros [= <-]. simpl.
  apply alloc_bound in Ha. unfold SIZEOF_HANDLE in *. lia.
Qed.

Lemma make_cap nb v t : 0 ≤ cap t < 2 ^ 30 → 0 ≤ cap (t_make (t_expand alloc) methods nb v t).2 < 2 ^ 30.
Proof.
  intros Hc. unfold t_make. destruct v as [v|]; [|done].
  destruct (methods v); cbn [negb]; [|done]. destruct nb; [done|].
  destruct (t_expand alloc t) as [t'|] eqn:E; [|done]. pose proof (expand_cap t t' Hc E).
  by destruct (free t').
Qed.

Lemma op_cap nb o t : 0 ≤ cap t < 2 ^ 30 → 0 ≤ cap (t_op (t_expand alloc) methods query nb o t).2 < 2 ^ 30.
Proof.
  intros Hc. destruct o as [v|h|h|h ty]; simpl.
  - by apply make_cap.
  - unfold t_close. by destruct (live t !! h).
  - unfold t_own. destruct (live t !! h) as [v|]; [|done].
    pose proof (make_cap nb (Some v) t Hc) as H.
    destruct (t_make (t_expand alloc) methods nb (Some v) t) as [[r e] t']. by destruct (r <? 0).
  - unfold t_query. by destruct (live t !! h).
Qed.

Lemma op_refines s t o :
  in_table s t → 0 ≤ cap t < 2 ^ 30 →
  refines s (dill_op o s) (t_op (t_expand alloc) methods query (blocked s) o t).
Proof.
  intros R Hc. destruct o; simpl;
    eauto using hmake_spec, hclose_leaf, hown_leaf, hquery_spec.
Qed.

Lemma ops_refine os : ∀ s t,
  in_table s t → 0 ≤ cap t < 2 ^ 30 →
  ∃ rs s', dill_ops os s = Some (rs, s') ∧
    Forall2 agrees rs (t_ops (t_expand alloc) methods query (blocked s) os t).1 ∧ in_table s' (t_ops (t_expand alloc) methods query (blocked s) os t).2 ∧
    blocked s' = blocked s.
Proof.
  induction os as [|o os IH]; intros s t R Hc; [by exists [], s|].
  destruct (op_refines s t o R Hc) as (s1 & E & R1 & He & H1 & H2).
  assert (Hb : blocked s1 = blocked s) by (unfold blocked; congruence).
  pose proof (op_cap (blocked s) o t Hc) as Hc1. cbn [dill_ops t_ops]. rewrite E.
  destruct (t_op (t_expand alloc) methods query (blocked s) o t) as [[r e] t1]. simpl in *.
  destruct (IH s1 t1 R1 Hc1) as (rs & s' & -> & Hrs & R' & Hb'). rewrite Hb in *.
  destruct (t_ops (t_expand alloc) methods query (blocked s) os t1) as [rs' t']. simpl in *.
  exists ((r, herrno s1) :: rs), s'. split; [done|]. split; [|done].
  constructor; [|done]. by split.
Qed.

(** A handle outside the queue that is not live is never handed out again. *)
Definition lost (h : Z) (t : table Vfs) : Prop :=
  h ∉ free t ∧ live t !! h = None ∧ 0 ≤ h < cap t.

Lemma expand_lost h t t' : 0 ≤ cap t → t_expand alloc t = Some t' → lost h t → lost h t'.
Proof.
  intros Hc. unfold t_expand, lost. destruct (_ <=? 8); [|by intros [= <-]].
  destruct (alloc _); [|done]. intros [= <-] (Hf & Hl & Hr). simpl. split; [|split; [done|]].
  - intros Hin. apply elem_of_seqZ in Hin. lia.
  - destruct (Z.eqb_spec (cap t) 0); lia.
Qed.

Lemma make_lost h nb v t :
  lost h t → lost h (t_make (t_expand alloc) methods nb v t).2 ∧ (t_make (t_expand alloc) methods nb v t).1.1 ≠ h.
Proof.
  intros Hl. assert (-1 ≠ h) by (destruct Hl as (_ & _ & ?); lia).
  assert (0 ≤ cap t) by (destruct Hl as (_ & _ & ?); lia).
  unfold t_make. destruct v as [v|]; [|done].
  destruct (methods v); cbn [negb]; [|done]. destruct nb; [done|].
  destruct (t_expand alloc t) as [t'|] eqn:E; [|done].
  apply (expand_lost h t t') in Hl; [|done..]. unfold lost in *.
  destruct (free t') as [|x fl] eqn:Ef; simpl; rewrite ?Ef; [done|].
  destruct Hl as (Hf & Hlv & Hr). rewrite elem_of_cons in Hf. split.
  - split; [tauto|]. split; [|done]. rewrite lookup_insert_ne; [done|]. intros ->. tauto.
  - intros ->. tauto.
Qed.

Lemma release_lost h k t : live t !! k ≠ None → lost h t → lost h (t_release k t).
Proof.
  intros Hk (Hf & Hl & Hr). unfold lost, t_release. simpl.
  assert (h ≠ k) by (intros ->; done). rewrite elem_of_app, list_elem_of_singleton, lookup_delete_ne by done.
  tauto.
Qed.

Lemma op_lost h nb o t :
  lost h t → lost h (t_op (t_expand alloc) methods query nb o t).2 ∧
  match o with Make _ | Own _ => (t_op (t_expand alloc) methods query nb o t).1.1 ≠ h | _ => True end.
Proof.
  intros Hl. destruct o as [v|k|k|k ty]; cbn [t_op].
  - by apply make_lost.
  - split; [|done]. unfold t_close. destruct (live t !! k) eqn:E; [|done].
    apply release_lost; [congruence|done].
  - unfold t_own. destruct (live t !! k) as [v|] eqn:E; cbn [fst snd].
    2: { split; [done|]. destruct Hl as (_ & _ & ?). lia. }
    pose proof (make_lost h nb (Some v) t Hl) as [Hm Hne].
    pose proof (make_keeps nb v t k E) as Hk.
    destruct (t_make (t_expand alloc) methods nb (Some v) t) as [[r e] t']. simpl in *.
    destruct (Z.ltb_spec r 0); simpl.
    + split; [apply release_lost; [congruence|done]|]. destruct Hl as (_ & _ & ?). lia.
    + split; [apply release_lost; [congruence|done]|done].
  - split; [|done]. unfold t_query. by destruct (live t !! k).
Qed.

(** The handles that a sequence of operations hands out. *)
Definition handed_out (os : list (hop Vfs)) (rs : list (Z * errno_t)) : list Z :=
  omap (λ '(o, (r, _)), match o with Make _ | Own _ => Some r | _ => None end) (zip os rs).

Lemma ops_lost h nb os : ∀ t rs,
  lost h t → Forall2 agrees rs (t_ops (t_expand alloc) methods query nb os t).1 → h ∉ handed_out os rs.
Proof.
  induction os as [|o os IH]; intros t rs Hl Hrs; [apply not_elem_of_nil|].
  cbn [t_ops] in Hrs. pose proof (op_lost h nb o t Hl) as [Hl' Hne].
  destruct (t_op (t_expand alloc) methods query nb o t) as [[r e] t1]. simpl in *.
  specialize (IH t1). destruct (t_ops (t_expand alloc) methods query nb os t1) as [rs' t'].
  inversion_clear Hrs as [|[r1 e1] ? rs1 ? [Hr _] Hrs']. simpl in Hr. subst r1.
  specialize (IH rs1 Hl' Hrs'). unfold handed_out in *. cbn [zip zip_with omap list_omap].
  destruct o; try done; rewrite elem_of_cons; intuition congruence.
Qed.

(** ** The specification as a map

    A handle that is made is one that is not in use; which one it is is left open. *)

(** Not all the memory for the handles in use and as many more can be had. *)
Definition no_memory (lv : gmap Z Vfs) : Prop :=
  ∃ n, alloc n = false ∧ n ≤ Z.max 256 (2 * (Z.of_nat (size lv) + 8)) * SIZEOF_HANDLE.

(** Operation [o] on the handles in use [lv] returns [r], leaves [errno] at [e] when it fails,
    and then [lv'] are in use. *)
Definition map_step (nb : bool) (lv : gmap Z Vfs) (o : hop Vfs) (r : Z) (e : errno_t) (lv' : gmap Z Vfs) : Prop :=
  match o with
  | Make None => r = -1 ∧ e = EINVAL ∧ lv' = lv
  | Make (Some v) =>
      if negb (methods v) then r = -1 ∧ e = EINVAL ∧ lv' = lv
      else if nb then r = -1 ∧ e = ECANCELED ∧ lv' = lv
      else (r = -1 ∧ e = ENOMEM ∧ lv' = lv ∧ no_memory lv) ∨ (0 ≤ r ∧ lv !! r = None ∧ lv' = <[r := v]> lv)
  | Close h => match lv !! h with
               | None => r = -1 ∧ e = EBADF ∧ lv' = lv
               | Some _ => r = 0 ∧ lv' = delete h lv
               end
  | Own h => match lv !! h with
             | None => r = -1 ∧ e = EBADF ∧ lv' = lv
             | Some v => if negb (methods v) || nb then r = -1 ∧ lv' = delete h lv
                 else (r = -1 ∧ lv' = delete h lv ∧ no_memory lv) ∨
                      (0 ≤ r ∧ lv !! r = None ∧ lv' = delete h (<[r := v]> lv))
             end
  | Query h ty => match lv !! h with
                  | None => r = NULL ∧ e = EBADF ∧ lv' = lv
                  | Some v => r = query v ty ∧ (query v ty = NULL → e = ENOTSUP) ∧ lv' = lv
                  end
  end.

Fixpoint map_run (nb : bool) (lv : gmap Z Vfs) (os : list (hop Vfs)) (rs : list (Z * errno_t)) (lv' : gmap Z Vfs) : Prop :=
  match os, rs with
  | [], [] => lv' = lv
  | o :: os, (r, e) :: rs => ∃ lv1, map_step nb lv o r e lv1 ∧ map_run nb lv1 os rs lv'
  | _, _ => False
  end.

Lemma expand_fails c t : represents query c t → t_expand alloc t = None → no_memory (live t).
Proof.
  intros R. pose proof (rep_len _ _ _ R). pose proof (rep_cap _ _ _ R). unfold t_expand.
  destruct (Z.leb_spec (cap t - Z.of_nat (size (live t))) 8); [|done]. destruct (alloc _) eqn:Ha; [done|]. intros _.
  eexists. split; [exact Ha|]. unfold SIZEOF_HANDLE. destruct (cap t =? 0); lia.
Qed.

Lemma make_map nb s t v : in_table s t → 0 ≤ cap t < 2 ^ 30 →
  let '(r, e, t') := t_make (t_expand alloc) methods nb v t in
  ∀ e', (∀ e0, e = Some e0 → e' = e0) → map_step nb (live t) (Make v) r e' (live t').
Proof.
  intros R Hc. unfold t_make, map_step. destruct v as [v|]; [|naive_solver]. destruct (methods v); cbn [negb]; [|naive_solver].
  destruct nb; [naive_solver|]. pose proof (expand_spec s t R Hc) as HX.
  destruct (t_expand alloc t) as [t'|] eqn:Ex.
  - destruct HX as (c & _ & R' & El & Hf). destruct (free t') as [|h fl] eqn:Ef; [done|].
    destruct (free_dead _ _ _ h R') as [Hd H0]; [rewrite Ef; left|]. rewrite El in *. intros e' _. right. cbn. done.
  - intros e' He. left. split; [done|]. split; [by apply He|]. split; [done|]. by eapply expand_fails.
Qed.

Lemma op_map nb s t o : in_table s t → 0 ≤ cap t < 2 ^ 30 →
  let '(r, e, t') := t_op (t_expand alloc) methods query nb o t in
  ∀ e', (∀ e0, e = Some e0 → e' = e0) → map_step nb (live t) o r e' (live t').
Proof.
  intros R Hc. destruct o as [v|h|h|h ty]; cbn [t_op].
  - by apply (make_map nb s).
  - unfold t_close, map_step. destruct (live t !! h); cbn; naive_solver.
  - unfold t_own. cbn [map_step]. destruct (live t !! h) as [v|] eqn:Hl; [|naive_solver].
    pose proof (make_map nb s t (Some v) R Hc) as Hm.
    destruct (t_make (t_expand alloc) methods nb (Some v) t) as [[r e] t']. cbn [map_step] in Hm.
    specialize (Hm (default E0 e)).
    destruct (methods v); cbn [negb orb] in *.
    + destruct nb; [destruct Hm as (-> & _ & _); [by intros ? ->|]; cbn; by intros e' _|].
      destruct Hm as [(-> & _ & _ & Hn)|(H0 & Hd & E)]; [by intros ? ->| |].
      * cbn. intros e' _. by left.
      * rewrite (proj2 (Z.ltb_ge r 0)) by lia. intros e' _. right. cbn. by rewrite E.
    + destruct Hm as (-> & _ & _); [by intros ? ->|]. cbn. by intros e' _.
  - unfold t_query, map_step. destruct (live t !! h) as [v|]; [|naive_solver].
    destruct (Z.eqb_spec (query v ty) NULL); naive_solver.
Qed.

Lemma ops_map os : ∀ s t rs,
  in_table s t → 0 ≤ cap t < 2 ^ 30 → Forall2 agrees rs (t_ops (t_expand alloc) methods query (blocked s) os t).1 →
  map_run (blocked s) (live t) os rs (live (t_ops (t_expand alloc) methods query (blocked s) os t).2).
Proof.
  induction os as [|o os IH]; intros s t rs R Hc Hag; cbn [t_ops] in Hag |- *; [by inversion Hag|].
  pose proof (op_map (blocked s) s t o R Hc) as Hm. pose proof (op_cap (blocked s) o t Hc) as Hc1.
  destruct (op_refines s t o R Hc) as (s1 & _ & R1 & _ & H1 & H2).
  assert (Hb : blocked s1 = blocked s) by (unfold blocked; congruence).
  destruct (t_op (t_expand alloc) methods query (blocked s) o t) as [[r e] t1]. cbn [fst snd] in *.
  specialize (IH s1 t1). rewrite Hb in IH.
  destruct (t_ops (t_expand alloc) methods query (blocked s) os t1) as [rs' t']. cbn [fst snd] in *.
  inversion_clear Hag as [|[r1 e1] ? rs1 ? [Hr He] Hrs']. cbn in Hr, He. subst r1.
  exists (live t1). split; [by apply Hm|by apply IH].
Qed.

(** ** The order in which handles are reused *)

(** The array is never extended while unused handles are queued: each time a handle is made, more
    than 8 are unused, or the queue is empty. *)
Fixpoint no_waste (nb : bool) (os : list (hop Vfs)) (t : table Vfs) : Prop :=
  match os with
  | [] => True
  | o :: os =>
      match o with
      | Make _ | Own _ => free t = [] ∨ 8 < cap t - Z.of_nat (size (live t))
      | _ => True
      end ∧ no_waste nb os (t_op (s_expand alloc) methods query nb o t).2
  end.

Lemma expand_same t : free t = [] ∨ 8 < cap t - Z.of_nat (size (live t)) → s_expand alloc t = t_expand alloc t.
Proof.
  intros Hw. unfold s_expand, t_expand. destruct (Z.leb_spec (cap t - Z.of_nat (size (live t))) 8); [|done].
  destruct Hw as [->|]; [done|lia].
Qed.

Lemma ops_same nb os : ∀ t, no_waste nb os t →
  t_ops (t_expand alloc) methods query nb os t = t_ops (s_expand alloc) methods query nb os t.
Proof.
  induction os as [|o os IH]; intros t Hw; [done|]. destruct Hw as [Ho Hw]. cbn [t_ops].
  assert (E : t_op (t_expand alloc) methods query nb o t = t_op (s_expand alloc) methods query nb o t).
  { destruct o; cbn [t_op]; try done; unfold t_own, t_make; rewrite (expand_same t) by done; done. }
  rewrite E. destruct (t_op (s_expand alloc) methods query nb o t) as [[r e] t1]. by rewrite (IH t1).
Qed.

(** C7. The handle table, for every sequence of hmake, hown, hclose and hquery calls on a
    well-formed table and objects whose close function does not use the table (for the others
    see C31), where realloc refuses 2^30 entries (32 GiB).  No call touches memory outside the array or through a stale pointer, and the
    final table is well formed.  The results (and [errno], when a call fails) are those of a
    finite map from the handles in use to objects: a new handle is one that is not in use; a
    query returns what the object answers, as if there were no cache; closing or transferring
    an unused handle is EBADF; and making one fails with EINVAL, ECANCELED or, if the memory
    for twice the handles cannot be had, ENOMEM, which for hown closes the old handle.  As
    long as the array is not extended while unused handles are queued, handles are reused in
    the order in which they were given back, new ones after them, as the comments in
    [dill_hmake] say; when it is extended then, the queued handles are lost
    ([hmake_growth_loses_unused]). *)
Theorem handle_table_refines s t os :
  in_table s t → 0 ≤ cap t < 2 ^ 30 →
  ∃ rs s' t', dill_ops os s = Some (rs, s') ∧ in_table s' t' ∧
    map_run (blocked s) (live t) os rs (live t') ∧
    (no_waste (blocked s) os t →
      Forall2 agrees rs (t_ops (s_expand alloc) methods query (blocked s) os t).1 ∧
      t' = (t_ops (s_expand alloc) methods query (blocked s) os t).2).
Proof.
  intros R Hc. destruct (ops_refine os s t R Hc) as (rs & s' & E & Hag & R' & _).
  exists rs, s'. eexists. split; [exact E|]. split; [exact R'|]. split; [by apply ops_map|].
  intros Hw. by rewrite <- ops_same.
Qed.

(** Growing the array loses the unused handles: when hmake grows a full enough
    table (at most 8 unused entries), it returns the first new index, and no later
    sequence of operations ever hands out again a handle that was unused before. *)
Lemma hmake_growth_loses_unused s t v h os :
  in_table s t → 0 ≤ cap t < 2 ^ 30 → blocked s = false → methods v = true →
  cap t - Z.of_nat (size (live t)) ≤ 8 →
  alloc ((if cap t =? 0 then 256 else cap t * 2) * SIZEOF_HANDLE) = true →
  h ∈ free t →
  ∃ s', dill_hmake (Some v) s = Some (cap t, s') ∧
    ∀ rs s'', dill_ops os s' = Some (rs, s'') → h ∉ handed_out os rs.
Proof.
  intros R Hc Hb Hm Hn Ha Hh.
  pose proof (hmake_spec s t (Some v) R Hc) as (s' & E & R' & _ & H1 & H2).
  destruct (free_dead _ _ _ h R Hh) as [Hd H0].
  assert (Hr : h < cap t).
  { destruct (chain_pos _ _ _ h (rep_chain _ _ _ R) Hh) as (_ & e & He & _).
    apply lookup_lt_Some in He. pose proof (rep_len _ _ _ R). pose proof (rep_cap _ _ _ R). lia. }
  unfold t_make, t_expand in *. rewrite Hm, Hb in *. cbn [negb] in *.
  destruct (Z.leb_spec (cap t - Z.of_nat (size (live t))) 8); [|lia]. rewrite Ha in *.
  set (sz := if cap t =? 0 then 256 else cap t * 2) in *.
  assert (cap t < sz) by (unfold sz; destruct (Z.eqb_spec (cap t) 0); lia).
  assert (Hsz : sz < 2 ^ 30) by (apply alloc_bound in Ha; unfold SIZEOF_HANDLE in *; lia).
  clearbody sz. cbn [free live cap] in *. rewrite seqZ_cons in * by lia. cbn [fst snd] in *.
  exists s'. split; [done|]. intros rs s'' Hos.
  destruct (ops_refine os s' _ R') as (rs' & s3 & E' & Hag & _ & _); [cbn [cap]; lia|].
  rewrite Hos in E'. injection E' as <- <-. eapply ops_lost; [|exact Hag].
  split; [|split; [|cbn [cap]; lia]]; cbn [free live].
  - intros Hin. apply elem_of_seqZ in Hin. lia.
  - rewrite lookup_insert_ne by lia. done.
Qed.
End Refine.

Lemma init_in_table {Vfs} (query : Vfs → ptr → ptr) :
  represents query dill_ctx_handle_init (mk_table ∅ [] 0).
Proof.
  assert (H : ∀ h, handle_at (Vfs := Vfs) dill_ctx_handle_init h = None).
  { intros h. unfold handle_at. by destruct (0 <=? h). }
  constructor; simpl; try done; try lia.
  - by apply NoDup_nil.
  - intros h. unfold live_at. by rewrite H, lookup_empty.
  - intros h e. by rewrite H.
  - intros h e v. by rewrite H.
Qed.

(** A program: three handles, one transferred, one closed, a reuse, errors. *)
Definition demo_state : hst Z := mk_hst dill_ctx_handle_init false false E0.
Definition demo_ops : list (hop Z) :=
  [Make (Some 7); Make (Some 8); Make None; Query 0 5; Query 0 5; Own 0; Query 0 5; Query 2 5;
   Close 1; Close 1; Close 300].
Definition demo_query (v ty : Z) : ptr := if ty =? 5 then 100 + v else NULL.
Definition demo_close (v : Z) : HM Z unit := mret tt.
Definition demo_alloc (n : Z) : bool := n <? 2 ^ 20.

Lemma handle_table_refines_witness :
  in_table demo_query demo_state (mk_table ∅ [] 0) ∧
  fst <$> dill_ops demo_alloc (λ _, true) demo_query demo_close demo_ops demo_state =
    Some [(0, E0); (1, E0); (-1, EINVAL); (107, EINVAL); (107, EINVAL); (2, EINVAL); (0, EBADF);
          (107, EBADF); (0, EBADF); (-1, EBADF); (-1, EBADF)] ∧
  no_waste demo_alloc (λ _, true) demo_query false demo_ops (mk_table ∅ [] 0) ∧
  ∃ rs s' t', dill_ops demo_alloc (λ _, true) demo_query demo_close demo_ops demo_state = Some (rs, s') ∧
    in_table demo_query s' t' ∧
    map_run demo_alloc (λ _, true) demo_query (blocked demo_state) ∅ demo_ops rs (live t') ∧
    (no_waste demo_alloc (λ _, true) demo_query (blocked demo_state) demo_ops (mk_table ∅ [] 0) →
      Forall2 agrees rs
        (t_ops (s_expand demo_alloc) (λ _, true) demo_query (blocked demo_state) demo_ops (mk_table ∅ [] 0)).1 ∧
      t' = (t_ops (s_expand demo_alloc) (λ _, true) demo_query (blocked demo_state) demo_ops (mk_table ∅ [] 0)).2).
Proof.
  split; [apply init_in_table|]. split; [vm_compute; reflexivity|]. split.
  { vm_compute. repeat split; first [by left|by right]. }
  refine (handle_table_refines demo_alloc (λ _, true) demo_query demo_close _ _ demo_state (mk_table ∅ [] 0) demo_ops _ _).
  - intros v s. exists (herrno s). by destruct s.
  - unfold demo_alloc, SIZEOF_HANDLE. intros n Hn. apply Z.ltb_lt in Hn. lia.
  - apply init_in_table.
  - simpl. lia.
Defined.

(** 248 handles fill the first array; the eight handles 248 .. 255 are then lost. *)
Definition full_ops : list (hop Z) := repeat (Make (Some 7)) 248.

Lemma hmake_growth_loses_unused_witness :
  ∃ rs s s',
    dill_ops demo_alloc (λ _, true) demo_query demo_close full_ops demo_state = Some (rs, s) ∧
    @dill_hmake Z (HM Z) _ _ (HM_env demo_alloc (λ _, true) demo_query demo_close) (Some 9) s
      = Some (256, s') ∧
    ∀ rs' s'', dill_ops demo_alloc (λ _, true) demo_query demo_close [Make (Some 9)] s' = Some (rs', s'')
      → 250 ∉ handed_out [Make (Some 9)] rs'.
Proof.
  assert (Hleaf : ∀ v (s : hst Z), ∃ e, demo_close v s = Some (tt, set_err e s)).
  { intros v s. exists (herrno s). by destruct s. }
  assert (Hbound : ∀ n, demo_alloc n = true → n < 2 ^ 30 * SIZEOF_HANDLE).
  { unfold demo_alloc, SIZEOF_HANDLE. intros n Hn. apply Z.ltb_lt in Hn. lia. }
  destruct (ops_refine demo_alloc (λ _, true) demo_query demo_close Hleaf Hbound full_ops demo_state
    (mk_table ∅ [] 0) (init_in_table _) ltac:(simpl; lia)) as (rs & s & E & _ & R & Hb).
  set (t := (t_ops (t_expand demo_alloc) (λ _, true) demo_query (blocked demo_state) full_ops (mk_table ∅ [] 0)).2)
    in *.
  assert (Hcap : cap t = 256) by (vm_compute; reflexivity).
  assert (Hsize : size (live t) = 248%nat) by (vm_compute; reflexivity).
  assert (Hfree : free t = [248; 249; 250; 251; 252; 253; 254; 255]) by (vm_compute; reflexivity).
  destruct (hmake_growth_loses_unused demo_alloc (λ _, true) demo_query demo_close Hleaf Hbound
    s t 9 250 [Make (Some 9)]) as (s' & Hm & Hos).
  - exact R.
  - rewrite Hcap. lia.
  - rewrite Hb. reflexivity.
  - reflexivity.
  - rewrite Hcap, Hsize. lia.
  - rewrite Hcap. reflexivity.
  - rewrite Hfree. apply list_elem_of_In. simpl. tauto.
  - exists rs, s, s'. rewrite Hcap in Hm. split; [exact E|]. split; [exact Hm|]. exact Hos.
Defined.

(** * Objects layered on other objects *)

Section Layers.
Context {Vfs : Type} (alloc : Z → bool) (methods : Vfs → bool) (query : Vfs → ptr → ptr).
(** The handle of the object below, for the objects that own one. *)
Context (under : Vfs → option Z).

(** The close functions of the protocol objects: close the handle of the layer
    below, assert that this succeeded, then free the object. *)
Fixpoint close_layer (fuel : nat) (v : Vfs) : HM Vfs unit :=
  match fuel with
  | O => HM_crash
  | S fuel =>
    match under v with
    | None => mret tt
    | Some u =>
      rc ← @dill_hclose Vfs (HM Vfs) _ _ (HM_env alloc methods query (close_layer fuel)) u;
      if rc =? 0 then mret tt else HM_crash
    end
  end.

Lemma close_layer_S fuel v :
  close_layer (S fuel) v =
  match under v with
  | None => mret tt
  | Some u =>
    rc ← @dill_hclose Vfs (HM Vfs) _ _ (HM_env alloc methods query (close_layer fuel)) u;
    if rc =? 0 then mret tt else HM_crash
  end.
Proof. done. Qed.

(** [l] is the protocol stack whose top is [h]. *)
Fixpoint stack (lv : gmap Z Vfs) (h : Z) (l : list Z) : Prop :=
  match l with
  | [] => False
  | x :: l => h = x ∧ ∃ v, lv !! x = Some v ∧
      match l with
      | [] => under v = None
      | y :: _ => under v = Some y ∧ stack lv y l
      end
  end.

Definition t_release_all (l : list Z) (t : table Vfs) : table Vfs :=
  foldr (λ h t, t_release h t) t l.

Lemma release_all_live l t h : h ∉ l → live (t_release_all l t) !! h = live t !! h.
Proof.
  induction l as [|x l IH]; intros Hh; [done|]. apply not_elem_of_cons in Hh as [Hx Hl].
  cbn [t_release_all foldr]. simpl. rewrite lookup_delete_ne by done. by apply IH.
Qed.

Lemma close_stack l : ∀ s t h fuel,
  represents query (hctx s) t → stack (live t) h l → NoDup l → (length l ≤ fuel)%nat →
  ∃ c, @dill_hclose Vfs (HM Vfs) _ _ (HM_env alloc methods query (close_layer fuel)) h s
      = Some (0, set_ctx c s) ∧ gen c = gen (hctx s) ∧
    represents query c (t_release_all l t).
Proof.
  induction l as [|x l IH]; intros s t h fuel R Hs Hnd Hf; [done|].
  destruct Hs as (-> & v & Hv & Hs). apply NoDup_cons in Hnd as [Hx Hnd].
  destruct fuel as [|fuel]; [simpl in Hf; lia|].
  assert (Hclose : ∃ c, close_layer (S fuel) v (set_nb2 true s) = Some (tt, set_ctx c (set_nb2 true s)) ∧
    gen c = gen (hctx s) ∧ represents query c (t_release_all l t)).
  { rewrite close_layer_S. destruct l as [|y l].
    - rewrite Hs. exists (hctx s). split; [by destruct s|done].
    - destruct Hs as [-> Hs].
      destruct (IH (set_nb2 true s) t y fuel R Hs Hnd) as (c & E & Hg & R'); [simpl in *; lia|].
      exists c. split; [|done]. by erewrite bind_ok by exact E. }
  destruct Hclose as (c & Hc & Hg & R').
  destruct (hclose_spec alloc methods query (close_layer (S fuel)) s t x v _
    (t_release_all l t) v R Hv Hc Hg R') as (c' & E & Hg' & R2).
  { by rewrite release_all_live. }
  exists c'. split; [etransitivity; [exact E|by destruct s]|done].
Qed.

(** C31. Closing a protocol stack: hclose of the top handle closes every layer down
    to the socket, without running out of the recursion depth (the number of
    layers suffices), without any layer's assertion that closing the layer below
    succeeded failing, and without touching memory outside the array; it returns
    0, restores the blocking flag, and exactly the handles of the stack become
    unused, the lowest layer's first. *)
Theorem hclose_protocol_stack s t h l fuel :
  represents query (hctx s) t → stack (live t) h l → NoDup l → (length l ≤ fuel)%nat →
  ∃ s', @dill_hclose Vfs (HM Vfs) _ _ (HM_env alloc methods query (close_layer fuel)) h s = Some (0, s') ∧
    no_blocking2 s' = no_blocking2 s ∧
    represents query (hctx s') (mk_table (foldr delete (live t) l) (free t ++ rev l) (cap t)).
Proof.
  intros R Hs Hnd Hf. destruct (close_stack l s t h fuel R Hs Hnd Hf) as (c & E & _ & R').
  exists (set_ctx c s). split; [done|]. split; [done|]. simpl.
  assert (Ht : t_release_all l t = mk_table (foldr delete (live t) l) (free t ++ rev l) (cap t)).
  { clear. induction l as [|x l IH]; simpl; [rewrite app_nil_r; by destruct t|].
    rewrite IH. unfold t_release. simpl. by rewrite app_assoc. }
  by rewrite <- Ht.
Qed.
End Layers.

(** Object 1 is a socket; object 2 owns handle 0; object 3 owns handle 1. *)
Definition demo_under (v : Z) : option Z := if v =? 1 then None else Some (v - 2).

Lemma hclose_protocol_stack_witness :
  ∃ rs s s',
    dill_ops demo_alloc (λ _, true) demo_query demo_close
      [Make (Some 1); Make (Some 2); Make (Some 3)] demo_state = Some (rs, s) ∧
    @dill_hclose Z (HM Z) _ _
      (HM_env demo_alloc (λ _, true) demo_query (close_layer demo_alloc (λ _, true) demo_query demo_under 3))
      2 s = Some (0, s') ∧
    no_blocking2 s' = no_blocking2 s ∧ nused (hctx s') = 0.
Proof.
  assert (Hleaf : ∀ v (s : hst Z), ∃ e, demo_close v s = Some (tt, set_err e s)).
  { intros v s. exists (herrno s). by destruct s. }
  assert (Hbound : ∀ n, demo_alloc n = true → n < 2 ^ 30 * SIZEOF_HANDLE).
  { unfold demo_alloc, SIZEOF_HANDLE. intros n Hn. apply Z.ltb_lt in Hn. lia. }
  set (os := [Make (Some 1); Make (Some 2); Make (Some 3)]).
  destruct (ops_refine demo_alloc (λ _, true) demo_query demo_close Hleaf Hbound os demo_state
    (mk_table ∅ [] 0) (init_in_table _) ltac:(simpl; lia)) as (rs & s & E & _ & R & Hb).
  set (t := (t_ops (t_expand demo_alloc) (λ _, true) demo_query (blocked demo_state) os (mk_table ∅ [] 0)).2) in *.
  assert (Hlive : live t = <[2 := 3]> (<[1 := 2]> (<[0 := 1]> ∅))) by (vm_compute; reflexivity).
  destruct (hclose_protocol_stack demo_alloc (λ _, true) demo_query demo_under s t 2 [2; 1; 0] 3)
    as (s' & Hc & Hn & R').
  - exact R.
  - rewrite Hlive. simpl. split; [reflexivity|]. exists 3. split; [reflexivity|]. split; [reflexivity|].
    split; [reflexivity|]. exists 2. split; [reflexivity|]. split; [reflexivity|].
    split; [reflexivity|]. exists 1. split; reflexivity.
  - repeat constructor; rewrite ?elem_of_cons, ?elem_of_nil; lia.
  - simpl. lia.
  - exists rs, s, s'. split; [exact E|]. split; [exact Hc|]. split; [exact Hn|].
    rewrite (rep_nused _ _ _ R'). simpl. rewrite Hlive. reflexivity.
Defined.
