(* ===== verification/Iol.v ===== *)
(** I/O lists ([iol.c]): chains of buffers in C memory.

    Nodes live in a finite map from addresses to [struct iolist]; the bytes of the
    buffers live in a second map.  An access outside the maps has no result. *)

From S2P Require Import Prelude.
From Stdlib Require Import ZArith Lia.
From stdpp Require Import base gmap list.
Open Scope Z_scope.

Record iolist := mk_iolist {
  iol_base : ptr;
  iol_len : Z;
  iol_next : ptr;
  iol_rsvd : Z;
}.

Abbreviation nodes := (gmap Z iolist).
Abbreviation memory := (gmap Z Z).

Definition set_rsvd (p : ptr) (v : Z) (h : nodes) : option nodes :=
  n ← h !! p; Some (<[p := mk_iolist (iol_base n) (iol_len n) (iol_next n) v]> h).

(** The marking loop; [inr it] is the jump to [error]. *)
Fixpoint mark_loop (fuel : nat) (it last : ptr) (nbf nbt : Z) (h : nodes)
    : option ((Z * Z + ptr) * nodes) :=
  if it =? NULL then Some (inl (nbf, nbt), h)
  else match fuel with
  | O => None
  | S fuel =>
    n ← h !! it;
    if negb (iol_rsvd n =? 0) || ((iol_next n =? NULL) && negb (it =? last)) then Some (inr it, h)
    else
      h ← set_rsvd it 1 h;
      mark_loop fuel (iol_next n) last (u64 (nbf + 1)) (u64 (nbt + iol_len n)) h
  end.

(** [for(it = first; it; it = it->iol_next) it->iol_rsvd = 0] *)
Fixpoint clear_loop (fuel : nat) (it : ptr) (h : nodes) : option nodes :=
  if it =? NULL then Some h
  else match fuel with
  | O => None
  | S fuel =>
    h ← set_rsvd it 0 h;
    n ← h !! it;
    clear_loop fuel (iol_next n) h
  end.

(** [for(it2 = first; it2 != it; it2 = it2->iol_next) it->iol_rsvd = 0] *)
Fixpoint error_loop (fuel : nat) (it2 it : ptr) (h : nodes) : option nodes :=
  if it2 =? it then Some h
  else match fuel with
  | O => None
  | S fuel =>
    h ← set_rsvd it 0 h;
    n ← h !! it2;
    error_loop fuel (iol_next n) it h
  end.

(** [inl (nbufs, nbytes)], or [inr EINVAL]. *)
Definition dill_iolcheck (fuel : nat) (first last : ptr) (h : nodes)
    : option ((Z * Z + errno_t) * nodes) :=
  if (first =? NULL) && (last =? NULL) then Some (inl (0, 0), h)
  else if (first =? NULL) || (last =? NULL) then Some (inr EINVAL, h)
  else
    l ← h !! last;
    if negb (iol_next l =? NULL) then Some (inr EINVAL, h)
    else
      '(r, h) ← mark_loop fuel first last 0 0 h;
      match r with
      | inl (nbf, nbt) => h ← clear_loop fuel first h; Some (inl (nbf, nbt), h)
      | inr it => h ← error_loop fuel first it h; Some (inr EINVAL, h)
      end.

(** The [iovec] the list is copied into. *)
Fixpoint dill_ioltoiov (fuel : nat) (first : ptr) (h : nodes) : option (list (ptr * Z)) :=
  if first =? NULL then Some []
  else match fuel with
  | O => None
  | S fuel =>
    n ← h !! first;
    iov ← dill_ioltoiov fuel (iol_next n) h;
    Some ((iol_base n, iol_len n) :: iov)
  end.

(** The first element of the trimmed list, or [inr tt] for -1. *)
Fixpoint dill_ioltrim (fuel : nat) (first : ptr) (n : Z) (h : nodes) : option (iolist + unit) :=
  let finish first n :=
    f ← h !! first;
    Some (inl (mk_iolist (if iol_base f =? NULL then NULL else iol_base f + n)
      (u64 (iol_len f - n)) (iol_next f) 0)) in
  match fuel with
  | O => None
  | S fuel =>
    if n =? 0 then finish first n
    else if first =? NULL then Some (inr tt)
    else
      f ← h !! first;
      if n <=? iol_len f then finish first n
      else dill_ioltrim fuel (iol_next f) (n - iol_len f) h
  end.

(** [memcpy] into, and out of, the byte memory. *)
Fixpoint store_bytes (a : ptr) (bs : list Z) (m : memory) : option memory :=
  match bs with
  | [] => Some m
  | b :: bs => match m !! a with Some _ => store_bytes (a + 1) bs (<[a := b]> m) | None => None end
  end.

Fixpoint load_bytes (a : ptr) (n : nat) (m : memory) : option (list Z) :=
  match n with
  | O => Some []
  | S n => b ← m !! a; bs ← load_bytes (a + 1) n m; Some (b :: bs)
  end.

Fixpoint dill_iolto (fuel : nat) (src : list Z) (first : ptr) (h : nodes) (m : memory)
    : option (Z * memory) :=
  let srclen := Z.of_nat (length src) in
  match fuel with
  | O => None
  | S fuel =>
    if srclen =? 0 then Some (0, m)
    else if first =? NULL then Some (-1, m)
    else
      f ← h !! first;
      if srclen <=? iol_len f then
        m ← (if iol_base f =? NULL then Some m else store_bytes (iol_base f) src m);
        Some (0, m)
      else
        let k := Z.to_nat (iol_len f) in
        m ← (if iol_base f =? NULL then Some m else store_bytes (iol_base f) (take k src) m);
        dill_iolto fuel (drop k src) (iol_next f) h m
  end.

(** The bytes written to [dst], and the return value. *)
Fixpoint dill_iolfrom (fuel : nat) (dstlen : Z) (first : ptr) (h : nodes) (m : memory)
    : option (Z * list Z) :=
  if first =? NULL then Some (0, [])
  else match fuel with
  | O => None
  | S fuel =>
    f ← h !! first;
    if dstlen <? iol_len f then Some (-1, [])
    else
      bs ← load_bytes (iol_base f) (Z.to_nat (iol_len f)) m;
      '(rc, rest) ← dill_iolfrom fuel (dstlen - iol_len f) (iol_next f) h m;
      Some (rc, bs ++ rest)
  end.

(** [sz += it->iol_len] over the list: [size_t] wraps around. *)
Fixpoint sum_len (fuel : nat) (it : ptr) (sz : Z) (h : gmap Z iolist) : option Z :=
  if it =? NULL then Some sz
  else match fuel with
  | O => None
  | S fuel => n ← h !! it; sum_len fuel (iol_next n) (u64 (sz + iol_len n)) h
  end.

(** * Well-formed lists *)

(** [l] are the addresses of the nodes from [a] up to, and excluding, [b]. *)
Fixpoint seg (h : nodes) (a : ptr) (l : list ptr) (b : ptr) : Prop :=
  match l with
  | [] => a = b
  | x :: l => a = x ∧ x ≠ NULL ∧ ∃ n, h !! x = Some n ∧ seg h (iol_next n) l b
  end.

(** [l] are the addresses of the nodes from [p] to the final [NULL]. *)
Definition path (h : nodes) (p : ptr) (l : list ptr) : Prop := seg h p l NULL.

Definition node (h : nodes) (p : ptr) : iolist := default (mk_iolist NULL 0 NULL 0) (h !! p).

Definition unmarked (h : nodes) (l : list ptr) : Prop := ∀ x, x ∈ l → iol_rsvd (node h x) = 0.

(** What [dill_iolcheck] accepts. *)
Definition valid (h : nodes) (first last_ : ptr) (l : list ptr) : Prop :=
  path h first l ∧ last l = Some last_ ∧ unmarked h l.

(** Every link of the heap leads to a node or is [NULL]. *)
Definition closed (h : nodes) : Prop :=
  h !! NULL = None ∧ ∀ p n, h !! p = Some n → iol_next n = NULL ∨ is_Some (h !! iol_next n).

Definition total (h : nodes) (l : list ptr) : Z := foldr (λ x a, iol_len (node h x) + a) 0 l.

(** * Links and marks *)

Definition with_rsvd (v : Z) (n : iolist) : iolist :=
  mk_iolist (iol_base n) (iol_len n) (iol_next n) v.

Definition mark_all (v : Z) (l : list ptr) (h : nodes) : nodes := foldr (alter (with_rsvd v)) h l.

Lemma set_rsvd_alter p v h n : h !! p = Some n → set_rsvd p v h = Some (alter (with_rsvd v) p h).
Proof.
  intros Hp. unfold set_rsvd. rewrite Hp. simpl. f_equal. apply map_eq. intros q.
  rewrite lookup_insert, lookup_alter. destruct (decide (p = q)) as [->|]; [by rewrite Hp|done].
Qed.

Lemma with_rsvd_twice v w n : with_rsvd v (with_rsvd w n) = with_rsvd v n.
Proof. done. Qed.

Lemma lookup_mark_all v l h p :
  mark_all v l h !! p = if decide (p ∈ l) then with_rsvd v <$> h !! p else h !! p.
Proof.
  induction l as [|x l IH]; [done|]. cbn [mark_all foldr]. rewrite lookup_alter.
  fold (mark_all v l h). destruct (decide (x = p)) as [->|Hne]; rewrite IH.
  - rewrite (decide_True (P := p ∈ p :: l)) by left.
    destruct (decide (p ∈ l)), (h !! p); done.
  - destruct (decide (p ∈ l)) as [Hp|Hp].
    + by rewrite decide_True by (by right).
    + rewrite decide_False; [done|]. rewrite elem_of_cons. intuition congruence.
Qed.

Lemma seg_mark v l0 h a l b : seg (mark_all v l0 h) a l b ↔ seg h a l b.
Proof.
  revert a. induction l as [|x l IH]; intros a; [done|]. cbn [seg].
  rewrite lookup_mark_all. split; intros (-> & Hx & n & Hn & Hs); repeat (split; [done|]).
  - destruct (decide (x ∈ l0)).
    + apply fmap_Some in Hn as (n' & Hn & ->). exists n'. split; [done|]. by apply IH.
    + exists n. split; [done|]. by apply IH.
  - rewrite Hn. destruct (decide (x ∈ l0)); eexists; (split; [done|]); by apply IH.
Qed.

Lemma iseg_app h a l1 l2 b : seg h a (l1 ++ l2) b ↔ ∃ c, seg h a l1 c ∧ seg h c l2 b.
Proof.
  revert a. induction l1 as [|x l1 IH]; intros a; simpl; [naive_solver|].
  split.
  - intros (-> & Hx & n & Hn & Hs). apply IH in Hs as (c & H1 & H2). naive_solver.
  - intros (c & (-> & Hx & n & Hn & Hs) & H2). repeat (split; [done|]).
    exists n. split; [done|]. apply IH. naive_solver.
Qed.

Lemma path_prefix h a l1 c l : seg h a l1 c → path h a l → ∃ l', l = l1 ++ l' ∧ path h c l'.
Proof.
  revert a l. induction l1 as [|x l1 IH]; intros a l Hs Hp; simpl in Hs.
  - subst. by exists l.
  - destruct Hs as (-> & Hx & n & Hn & Hs). destruct l as [|y l]; [by destruct Hx|].
    destruct Hp as (-> & _ & n' & Hn' & Hp). simplify_eq.
    destruct (IH _ _ Hs Hp) as (l' & -> & Hp'). by exists l'.
Qed.

Lemma path_det h a l l' : path h a l → path h a l' → l = l'.
Proof.
  intros H1 H2. destruct (path_prefix _ _ _ _ _ H1 H2) as (k & -> & Hk).
  destruct k as [|x k]; [by rewrite app_nil_r|]. by destruct Hk as (<- & ? & _).
Qed.

Lemma path_nodup h a l : path h a l → NoDup l.
Proof.
  revert a. induction l as [|x l IH]; intros a Hp; [apply NoDup_nil_2|].
  pose proof Hp as (-> & Hx & n & Hn & Hs). apply NoDup_cons. split; [|by eapply IH].
  intros Hin. apply list_elem_of_split in Hin as (l1 & l2 & ->).
  apply iseg_app in Hs as (c & Hs1 & Hs2). pose proof Hs2 as (-> & _).
  pose proof (path_det _ _ _ _ Hp Hs2) as E. apply (f_equal length) in E.
  simpl in E. rewrite length_app in E. simpl in E. lia.
Qed.

Lemma seg_alloc h a l b x : seg h a l b → x ∈ l → is_Some (h !! x).
Proof.
  revert a. induction l as [|y l IH]; intros a Hs Hx; [by apply elem_of_nil in Hx|].
  destruct Hs as (-> & _ & n & Hn & Hs). apply elem_of_cons in Hx as [->|Hx]; [by exists n|].
  by eapply IH.
Qed.

Lemma iseg_snoc h a l b n : seg h a l b → b ≠ NULL → h !! b = Some n → seg h a (l ++ [b]) (iol_next n).
Proof. intros Hs Hb Hn. apply iseg_app. exists b. split; [done|]. simpl. naive_solver. Qed.

(** The visited nodes are fewer than the nodes of the heap. *)
Lemma seg_length h a l b : seg h a l b → NoDup l → (length l ≤ size h)%nat.
Proof.
  intros Hs Hnd. rewrite <- (size_list_to_set (C := gset Z) l) by done.
  rewrite <- size_dom. apply subseteq_size. intros x Hx. apply elem_of_list_to_set in Hx.
  apply elem_of_dom. by eapply seg_alloc.
Qed.

Lemma clear_loop_spec l : ∀ h a fuel,
  path h a l → (length l ≤ fuel)%nat → clear_loop fuel a h = Some (mark_all 0 (rev l) h).
Proof.
  induction l as [|x l IH]; intros h a fuel Hp Hf.
  - cbv [path seg] in Hp. subst. by destruct fuel.
  - destruct Hp as (-> & Hx & n & Hn & Hp). destruct fuel as [|fuel]; [simpl in Hf; lia|].
    cbn [clear_loop]. destruct (Z.eqb_spec x NULL); [done|].
    rewrite (set_rsvd_alter _ _ _ n Hn). simpl. rewrite lookup_alter_eq, Hn. simpl.
    change (alter (with_rsvd 0) x h) with (mark_all 0 [x] h).
    rewrite IH; [|by apply seg_mark|simpl in Hf; lia].
    unfold mark_all. by rewrite foldr_app.
Qed.

Lemma error_loop_spec l : ∀ h a it n fuel,
  seg h a l it → it ∉ l → h !! it = Some n → (length l ≤ fuel)%nat →
  ∃ h', error_loop fuel a it h = Some h' ∧
    ∀ p, h' !! p = if decide (p = it ∧ l ≠ []) then with_rsvd 0 <$> h !! p else h !! p.
Proof.
  induction l as [|x l IH]; intros h a it n fuel Hs Hit Hn Hf.
  - simpl in Hs. subst. exists h. split; [destruct fuel; simpl; by rewrite Z.eqb_refl|].
    intros p. by rewrite decide_False by tauto.
  - destruct Hs as (-> & Hx & m & Hm & Hs). apply not_elem_of_cons in Hit as [Hne Hit].
    destruct fuel as [|fuel]; [simpl in Hf; lia|].
    cbn [error_loop]. destruct (Z.eqb_spec x it); [done|].
    rewrite (set_rsvd_alter _ _ _ n Hn). simpl. rewrite lookup_alter_ne, Hm by done. simpl.
    change (alter (with_rsvd 0) it h) with (mark_all 0 [it] h).
    destruct (IH (mark_all 0 [it] h) (iol_next m) it (with_rsvd 0 n) fuel) as (h' & E & Hh').
    + by apply seg_mark.
    + done.
    + rewrite lookup_mark_all. rewrite decide_True by (apply list_elem_of_singleton; done). by rewrite Hn.
    + simpl in Hf. lia.
    + exists h'. split; [exact E|]. intros p. rewrite Hh', lookup_mark_all.
      destruct (decide (p = it)) as [->|Hp].
      * rewrite (decide_True (P := it ∈ [it])) by (apply list_elem_of_singleton; done).
        rewrite (decide_True (P := _ ∧ x :: l ≠ [])) by done. rewrite Hn.
        by destruct (decide (it = it ∧ l ≠ [])).
      * rewrite !(decide_False (P := p = it ∧ _)) by tauto.
        rewrite decide_False; [done|]. by rewrite list_elem_of_singleton.
Qed.

(** * The check *)

Lemma node_lookup h p n : h !! p = Some n → node h p = n.
Proof. intros H. unfold node. by rewrite H. Qed.

Lemma total_app h l k : total h (l ++ k) = total h l + total h k.
Proof. induction l as [|x l IH]; simpl; [lia|]. rewrite IH. lia. Qed.

Lemma u64_add a b : u64 (u64 a + b) = u64 (a + b).
Proof. unfold u64. by rewrite Z.add_mod_idemp_l by lia. Qed.

(** How the marking loop ends. *)
Definition mark_result (h : nodes) (first lst : ptr) (r : Z * Z + ptr) (vis : list ptr) : Prop :=
  match r with
  | inl (nbf, nbt) => path h first vis ∧ (vis ≠ [] → last vis = Some lst) ∧
      nbf = u64 (Z.of_nat (length vis)) ∧ nbt = u64 (total h vis)
  | inr it => seg h first vis it ∧ it ≠ NULL ∧ ∃ n, h !! it = Some n ∧
      (it ∈ vis ∨ iol_rsvd n ≠ 0 ∨ (iol_next n = NULL ∧ it ≠ lst))
  end.

Lemma mark_loop_spec h first lst : closed h → ∀ fuel vis it,
  seg h first vis it → NoDup vis → unmarked h vis →
  (it = NULL → vis ≠ [] → last vis = Some lst) → it = NULL ∨ is_Some (h !! it) →
  (size h - length vis < fuel)%nat →
  ∃ r vis', mark_loop fuel it lst (u64 (Z.of_nat (length vis))) (u64 (total h vis))
      (mark_all 1 vis h) = Some (r, mark_all 1 vis' h) ∧
    NoDup vis' ∧ unmarked h vis' ∧ mark_result h first lst r vis'.
Proof.
  intros [Hnull Hcl]. induction fuel as [|fuel IH]; intros vis it Hs Hnd Hu Hlast Hit Hf; [lia|].
  cbn [mark_loop]. destruct (Z.eqb_spec it NULL) as [->|Hne].
  { exists (inl (u64 (Z.of_nat (length vis)), u64 (total h vis))), vis. naive_solver. }
  destruct Hit as [?|[n Hn]]; [done|].
  pose proof (lookup_mark_all 1 vis h it) as Hm. rewrite Hn in Hm.
  destruct (decide (it ∈ vis)) as [Hin|Hin].
  { rewrite Hm. simpl. exists (inr it), vis. repeat (split; [done|]). exists n. tauto. }
  rewrite Hm. cbn [mbind option_bind].
  destruct (negb (iol_rsvd n =? 0) || ((iol_next n =? NULL) && negb (it =? lst))) eqn:Hc.
  { exists (inr it), vis. repeat (split; [done|]). exists n. split; [done|].
    apply orb_prop in Hc as [Hc|Hc].
    - apply negb_true_iff, Z.eqb_neq in Hc. tauto.
    - apply andb_prop in Hc as [H1 H2]. apply Z.eqb_eq in H1.
      apply negb_true_iff, Z.eqb_neq in H2. tauto. }
  apply orb_false_iff in Hc as [Hr Hl]. apply negb_false_iff, Z.eqb_eq in Hr.
  rewrite (set_rsvd_alter _ _ _ n Hm). cbn [mbind option_bind].
  assert (Hmark : alter (with_rsvd 1) it (mark_all 1 vis h) = mark_all 1 (vis ++ [it]) h).
  { apply map_eq. intros p. rewrite lookup_alter, !lookup_mark_all.
    destruct (decide (it = p)) as [<-|Hp].
    - rewrite decide_False by done. rewrite decide_True; [done|]. apply elem_of_app. right. left.
    - destruct (decide (p ∈ vis)) as [Hv|Hv].
      + rewrite decide_True; [done|]. apply elem_of_app. by left.
      + rewrite decide_False; [done|]. rewrite elem_of_app, list_elem_of_singleton. intuition congruence. }
  assert (Hlen : (length vis < size h)%nat).
  { assert (Hs' : seg h first (vis ++ [it]) (iol_next n)) by (by apply iseg_snoc).
    apply seg_length in Hs'; [rewrite length_app in Hs'; simpl in Hs'; lia|].
    apply NoDup_app. split; [done|]. split; [|apply NoDup_singleton].
    intros x Hx Hx'. apply list_elem_of_singleton in Hx'. by subst. }
  rewrite !u64_add, Hmark.
  replace (Z.of_nat (length vis) + 1) with (Z.of_nat (length (vis ++ [it])))
    by (rewrite length_app; simpl; lia).
  replace (total h vis + iol_len n) with (total h (vis ++ [it])).
  2: { rewrite total_app. simpl. rewrite (node_lookup _ _ _ Hn). lia. }
  apply IH.
  - by apply iseg_snoc.
  - apply NoDup_app. split; [done|]. split; [|apply NoDup_singleton].
    intros x Hx Hx'. apply list_elem_of_singleton in Hx'. by subst.
  - intros x [Hx|Hx]%elem_of_app; [by apply Hu|]. apply list_elem_of_singleton in Hx as ->.
    by rewrite (node_lookup _ _ _ Hn).
  - intros E _. rewrite last_snoc. rewrite E, Z.eqb_refl in Hl. cbn [andb] in Hl.
    apply negb_false_iff, Z.eqb_eq in Hl. by subst.
  - by apply (Hcl it n).
  - rewrite length_app. simpl. lia.
Qed.

Lemma mark_clear h l : unmarked h l → mark_all 0 (rev l) (mark_all 1 l h) = h.
Proof.
  intros Hu. apply map_eq. intros p. rewrite !lookup_mark_all.
  destruct (decide (p ∈ l)) as [Hp|Hp].
  - rewrite decide_True by (by rewrite list_elem_of_In, <- in_rev, <- list_elem_of_In).
    specialize (Hu p Hp). unfold node in Hu. destruct (h !! p) as [n|]; [|done].
    simpl in *. f_equal. destruct n. unfold with_rsvd. simpl in *. by subst.
  - rewrite decide_False; [done|]. by rewrite list_elem_of_In, <- in_rev, <- list_elem_of_In.
Qed.

Lemma last_path h a l x n : path h a l → last l = Some x → h !! x = Some n → iol_next n = NULL.
Proof.
  intros Hp Hl Hn. apply last_Some in Hl as [l' ->]. apply iseg_app in Hp as (c & _ & Hc).
  destruct Hc as (_ & _ & n' & Hn' & Hc). simplify_eq. exact Hc.
Qed.

Lemma mark_error_invalid h first lst vis it n :
  seg h first vis it → NoDup vis → it ≠ NULL → h !! it = Some n →
  (it ∈ vis ∨ iol_rsvd n ≠ 0 ∨ (iol_next n = NULL ∧ it ≠ lst)) →
  ∀ l, ¬ valid h first lst l.
Proof.
  intros Hs Hnd Hnn Hn Hc l (Hp & Hl & Hu). destruct (path_prefix _ _ _ _ _ Hs Hp) as (l' & -> & Hp').
  pose proof (path_nodup _ _ _ Hp) as Hnd'. destruct l' as [|x l'].
  { cbv [path seg] in Hp'. by subst it. }
  destruct Hp' as (<- & Hx & n' & Hn' & Hp'). simplify_eq.
  destruct Hc as [Hc|[Hc|[Hc1 Hc2]]].
  - apply NoDup_app in Hnd' as (_ & Hd & _). apply (Hd it Hc). left.
  - apply Hc. rewrite <- (node_lookup _ _ _ Hn). apply Hu. apply elem_of_app. right. left.
  - rewrite Hc1 in Hp'. destruct l' as [|y l']; [|by destruct Hp' as (<- & ? & _)].
    rewrite last_snoc in Hl. congruence.
Qed.

(** Up to the first visit of [it]. *)
Lemma seg_upto h a l b : seg h a l b → NoDup l → ∃ l', seg h a l' b ∧ b ∉ l' ∧ (length l' ≤ length l)%nat.
Proof.
  intros Hs Hnd. destruct (decide (b ∈ l)) as [Hb|Hb]; [|by exists l].
  apply list_elem_of_split in Hb as (l1 & l2 & ->). exists l1.
  apply iseg_app in Hs as (c & Hs & Hs2). destruct Hs2 as (-> & _). split; [done|].
  apply NoDup_app in Hnd as (_ & Hd & _). split; [|rewrite length_app; lia].
  intros Hin. apply (Hd b Hin). left.
Qed.

Lemma iolcheck_total h first lst fuel :
  closed h → (first = NULL ∨ is_Some (h !! first)) → (lst = NULL ∨ is_Some (h !! lst)) →
  first ≠ NULL → (size h < fuel)%nat →
  (∃ l, valid h first lst l ∧
    dill_iolcheck fuel first lst h = Some (inl (u64 (Z.of_nat (length l)), u64 (total h l)), h)) ∨
  ((∀ l, ¬ valid h first lst l) ∧ ∃ h', dill_iolcheck fuel first lst h = Some (inr EINVAL, h')).
Proof.
  intros Hcl Hf Hl Hfn Hfuel. unfold dill_iolcheck.
  destruct (Z.eqb_spec first NULL); [done|]. cbn [andb orb].
  destruct (Z.eqb_spec lst NULL) as [->|Hln].
  { right. split; [|by exists h]. intros l (Hp & Hlast & _).
    apply last_Some_elem_of in Hlast. apply (seg_alloc _ _ _ _ _ Hp) in Hlast.
    destruct Hcl as [Hcl _]. rewrite Hcl in Hlast. by destruct Hlast. }
  destruct Hl as [?|[ln Hln']]; [done|]. rewrite Hln'. cbn [mbind option_bind].
  destruct (Z.eqb_spec (iol_next ln) NULL) as [Hnx|Hnx]; cbn [negb].
  2: { right. split; [|by exists h]. intros l (Hp & Hlast & _). apply Hnx. by eapply last_path. }
  destruct (mark_loop_spec h first lst Hcl fuel [] first) as (r & vis & E & Hnd & Hu & Hr); try done.
  - apply NoDup_nil_2.
  - intros x Hx. by apply elem_of_nil in Hx.
  - simpl. lia.
  - simpl mark_all in E. simpl length in E. simpl total in E. change (u64 (Z.of_nat 0)) with 0 in E.
    change (u64 0) with 0 in E. rewrite E. cbn [mbind option_bind]. destruct r as [[nbf nbt]|it].
    + left. destruct Hr as (Hp & Hlast & -> & ->). exists vis. split.
      * split; [done|]. split; [|done]. apply Hlast. intros ->. by cbv [path seg] in Hp.
      * rewrite (clear_loop_spec vis) by first [by apply seg_mark
          |apply seg_length in Hp; [lia|done]]. cbn [mbind option_bind].
        by rewrite mark_clear.
    + right. destruct Hr as (Hs & Hit & n' & Hn & Hc). split; [by eapply mark_error_invalid|].
      destruct (seg_upto _ _ _ _ Hs Hnd) as (l' & Hs' & Hnit & Hle).
      pose proof (seg_length _ _ _ _ Hs Hnd) as Hlen.
      pose proof (lookup_mark_all 1 vis h it) as Hm. rewrite Hn in Hm.
      destruct (error_loop_spec l' (mark_all 1 vis h) first it
        (if decide (it ∈ vis) then with_rsvd 1 n' else n') fuel) as (h' & -> & _); try done.
      * by apply seg_mark.
      * rewrite Hm. by destruct (decide (it ∈ vis)).
      * lia.
      * by exists h'.
Qed.

(** [dill_iolcheck] decides well-formedness and always terminates: on any store
    whose links lead to nodes (cyclic lists included), with as many loop turns as
    there are nodes, it accepts exactly when the nodes from [first] form a
    [NULL]-terminated list of unreserved nodes ending in [last], and then returns
    the number of nodes and bytes (modulo 2^64) and leaves every node as it was;
    otherwise it fails with EINVAL. *)
Lemma iolcheck_decides h first lst fuel :
  closed h → (first = NULL ∨ is_Some (h !! first)) → (lst = NULL ∨ is_Some (h !! lst)) →
  first ≠ NULL → (size h < fuel)%nat →
  (∃ l, valid h first lst l ∧
    dill_iolcheck fuel first lst h = Some (inl (u64 (Z.of_nat (length l)), u64 (total h l)), h)) ∨
  ((∀ l, ¬ valid h first lst l) ∧ ∃ h', dill_iolcheck fuel first lst h = Some (inr EINVAL, h')).
Proof. apply iolcheck_total. Qed.

(** A cyclic list of three nodes, and a good one of two. *)
Definition demo_nodes : nodes :=
  list_to_map [(1, mk_iolist 100 3 2 0); (2, mk_iolist NULL 4 3 0); (3, mk_iolist 200 5 1 0);
               (4, mk_iolist 300 6 5 0); (5, mk_iolist 400 7 NULL 0)].

Lemma demo_nodes_closed : closed demo_nodes.
Proof.
  split; [reflexivity|].
  assert (H : map_Forall (λ _ n, iol_next n = NULL ∨ is_Some (demo_nodes !! iol_next n)) demo_nodes)
    by (apply (bool_decide_unpack _); vm_compute; exact I).
  intros p n Hp. exact (H p n Hp).
Qed.

Lemma iolcheck_decides_witness :
  fst <$> dill_iolcheck 6 4 5 demo_nodes = Some (inl (2, 13)) ∧
  ((∃ l, valid demo_nodes 1 5 l ∧
    dill_iolcheck 6 1 5 demo_nodes = Some (inl (u64 (Z.of_nat (length l)), u64 (total demo_nodes l)), demo_nodes)) ∨
  ((∀ l, ¬ valid demo_nodes 1 5 l) ∧ ∃ h', dill_iolcheck 6 1 5 demo_nodes = Some (inr EINVAL, h'))).
Proof.
  split; [vm_compute; reflexivity|].
  apply (iolcheck_decides demo_nodes 1 5 6).
  - exact demo_nodes_closed.
  - right. eexists. reflexivity.
  - right. eexists. reflexivity.
  - discriminate.
  - vm_compute. lia.
Defined.

(** A failing check damages the list: the error path clears [it->iol_rsvd]
    where it means [it2->iol_rsvd].  A valid list of at least two nodes checked
    with the last node of another list is rejected, and from then on every check
    starting at its first node is rejected, the one that would have succeeded
    included. *)
Lemma iolcheck_failure_poisons h first x l lst nl fuel :
  closed h → valid h first x l → (2 ≤ length l)%nat → (size h < fuel)%nat →
  lst ≠ x → h !! lst = Some nl → iol_next nl = NULL →
  ∃ h', dill_iolcheck fuel first lst h = Some (inr EINVAL, h') ∧
    ∀ lst' r h'', dill_iolcheck fuel first lst' h' = Some (r, h'') → r = inr EINVAL.
Proof.
  intros Hcl (Hp & Hx & Hu) Hl2 Hfuel Hne Hlst Hnext.
  destruct l as [|f [|y l]]; simpl in Hl2; [lia|lia|clear Hl2].
  pose proof Hp as (-> & Hf0 & nf & Hnf & Hp'). pose proof Hp' as (Hfy & Hy0 & _).
  assert (Hln : lst ≠ NULL) by (intros ->; destruct Hcl as [Hcl _]; congruence).
  pose proof (path_nodup _ _ _ Hp) as Hndl.
  destruct (mark_loop_spec h f lst Hcl fuel [] f) as (r & vis & E & Hnd & Huv & Hr); try done.
  { apply NoDup_nil_2. }
  { intros z Hz. by apply elem_of_nil in Hz. }
  { right. by exists nf. }
  { simpl. lia. }
  simpl mark_all in E. simpl length in E. simpl total in E. change (u64 (Z.of_nat 0)) with 0 in E.
  change (u64 0) with 0 in E. destruct r as [[nbf nbt]|it].
  { exfalso. destruct Hr as (Hpv & Hlast & _). pose proof (path_det _ _ _ _ Hp Hpv) as <-.
    apply Hne. specialize (Hlast ltac:(done)). congruence. }
  destruct Hr as (Hs & Hit & n' & Hn & Hc).
  destruct (path_prefix _ _ _ _ _ Hs Hp) as (l' & El & Hpl).
  destruct l' as [|z l']; [by cbv [path seg] in Hpl|]. destruct Hpl as (<- & _).
  assert (Hitv : it ∉ vis).
  { intros Hin. rewrite El in Hndl. apply NoDup_app in Hndl as (_ & Hd & _). apply (Hd it Hin). left. }
  assert (Hfv : f ∈ vis).
  { destruct vis as [|v vis]; [|injection El as -> _; left]. cbv [seg] in Hs. subst it. simplify_eq.
    destruct Hc as [?|[Hc|[Hc _]]]; [done| |congruence]. exfalso. apply Hc.
    rewrite <- (node_lookup _ _ _ Hnf). apply Hu. left. }
  destruct (error_loop_spec vis (mark_all 1 vis h) f it n' fuel) as (h' & E2 & Hh').
  { by apply seg_mark. } { done. } { rewrite lookup_mark_all. by rewrite decide_False. }
  { pose proof (seg_length _ _ _ _ Hs Hnd). lia. }
  exists h'. unfold dill_iolcheck. destruct (Z.eqb_spec f NULL); [done|].
  destruct (Z.eqb_spec lst NULL); [done|]. cbn [andb orb]. rewrite Hlst. cbn [mbind option_bind].
  rewrite Hnext. cbn [negb]. rewrite Z.eqb_refl. cbn [negb]. rewrite E. cbn [mbind option_bind].
  rewrite E2. split; [done|]. intros lst' r h''. destruct (lst' =? NULL) eqn:El'; [by intros [= <- _]|].
  destruct (h' !! lst') as [nl'|]; [|done]. cbn [mbind option_bind].
  destruct (negb (iol_next nl' =? NULL)); [by intros [= <- _]|].
  assert (Hm : h' !! f = Some (with_rsvd 1 nf)).
  { rewrite Hh', lookup_mark_all. rewrite decide_False by (intros [-> _]; done).
    rewrite decide_True by done. by rewrite Hnf. }
  destruct fuel as [|fuel]; [lia|]. cbn [mark_loop]. destruct (Z.eqb_spec f NULL); [done|].
  rewrite Hm. cbn [mbind option_bind with_rsvd iol_rsvd]. cbn [Z.eqb negb orb mbind option_bind].
  destruct (error_loop (S fuel) f f h') as [h3|]; cbn [mbind option_bind]; [|done].
  by intros [= <- _].
Qed.

Lemma iolcheck_failure_poisons_witness :
  let h := <[6 := mk_iolist NULL 0 NULL 0]> demo_nodes in
  valid h 4 5 [4; 5] ∧
  ∃ h', dill_iolcheck 7 4 6 h = Some (inr EINVAL, h') ∧
    ∀ lst' r h'', dill_iolcheck 7 4 lst' h' = Some (r, h'') → r = inr EINVAL.
Proof.
  assert (Hv : valid (<[6 := mk_iolist NULL 0 NULL 0]> demo_nodes) 4 5 [4; 5]).
  { split; [|split; [reflexivity|]].
    - cbn. split; [reflexivity|]. split; [discriminate|]. eexists. split; [reflexivity|].
      cbn. split; [reflexivity|]. split; [discriminate|]. eexists. split; reflexivity.
    - intros x Hx. apply list_elem_of_In in Hx. destruct Hx as [<-|[<-|[]]]; reflexivity. }
  split; [exact Hv|].
  apply (iolcheck_failure_poisons _ 4 5 [4; 5] 6 (mk_iolist NULL 0 NULL 0) 7).
  - split; [reflexivity|]. intros p n Hp. apply lookup_insert_Some in Hp as [[<- <-]|[Hp H]]; [by left|].
    destruct demo_nodes_closed as [_ Hc]. destruct (Hc p n H) as [?|[n' Hn']]; [by left|right].
    destruct (decide (6 = iol_next n)) as [<-|]; [rewrite lookup_insert_eq; eauto|].
    rewrite lookup_insert_ne by done. eauto.
  - exact Hv.
  - simpl. lia.
  - vm_compute. lia.
  - discriminate.
  - reflexivity.
  - reflexivity.
Defined.

(** * Copying *)

(** Where the bytes of a list live: [None] is a byte to be skipped. *)
Definition slots (n : iolist) : list (option ptr) :=
  if iol_base n =? NULL then replicate (Z.to_nat (iol_len n)) None
  else map (λ i, Some (iol_base n + i)) (seqZ 0 (iol_len n)).

Definition flat (h : nodes) (l : list ptr) : list (option ptr) :=
  l ≫= λ x, slots (node h x).

Definition sized (h : nodes) (l : list ptr) : Prop :=
  ∀ x, x ∈ l → 0 ≤ iol_len (node h x) < 2 ^ 64.

Lemma length_slots n : 0 ≤ iol_len n → Z.of_nat (length (slots n)) = iol_len n.
Proof.
  intros H. unfold slots. destruct (_ =? _).
  - rewrite length_replicate. lia.
  - rewrite length_map, length_seqZ. lia.
Qed.

Lemma length_flat h l : sized h l → Z.of_nat (length (flat h l)) = total h l.
Proof.
  induction l as [|x l IH]; intros Hs; [done|]. unfold flat in *. cbn [mbind list_bind].
  rewrite length_app, Nat2Z.inj_add, length_slots by (apply Hs; left).
  simpl. rewrite IH; [done|]. intros y Hy. apply Hs. by right.
Qed.

(** The slots of a node whose first [n] bytes are trimmed. *)
Lemma slots_trim f n :
  0 ≤ n ≤ iol_len f → iol_len f < 2 ^ 64 → 0 ≤ iol_base f →
  slots (mk_iolist (if iol_base f =? NULL then NULL else iol_base f + n)
    (u64 (iol_len f - n)) (iol_next f) 0) = drop (Z.to_nat n) (slots f).
Proof.
  intros Hn Hl Hb. unfold slots, u64. cbn [iol_base iol_len]. rewrite Z.mod_small by lia.
  unfold NULL. destruct (Z.eqb_spec (iol_base f) 0) as [E|E].
  - cbn [Z.eqb]. rewrite drop_replicate. f_equal. lia.
  - destruct (Z.eqb_spec (iol_base f + n) 0); [lia|].
    rewrite <- fmap_drop. apply list_eq. intros i. rewrite !list_lookup_fmap, lookup_drop.
    destruct (decide (i < Z.to_nat (iol_len f - n))%nat) as [Hi|Hi].
    + rewrite !lookup_seqZ_lt by lia. simpl. do 2 f_equal. lia.
    + rewrite !lookup_seqZ_ge by lia. done.
Qed.

Lemma ioltrim_facts h l : ∀ first n fuel,
  path h first l → sized h l → (∀ x, x ∈ l → 0 ≤ iol_base (node h x)) → 0 ≤ n →
  (length l < fuel)%nat → l ≠ [] ∨ 0 < n →
  if n <=? total h l then
    ∃ r l', dill_ioltrim fuel first n h = Some (inl r) ∧ iol_rsvd r = 0 ∧
      path h (iol_next r) l' ∧ slots r ++ flat h l' = drop (Z.to_nat n) (flat h l)
  else dill_ioltrim fuel first n h = Some (inr tt).
Proof.
  induction l as [|x l IH]; intros first n fuel Hp Hs Hb Hn Hf Hne.
  - destruct Hne as [?|Hne]; [done|]. cbv [path seg] in Hp. subst. simpl total.
    destruct (Z.leb_spec n 0); [lia|]. destruct fuel; [simpl in Hf; lia|]. cbn [dill_ioltrim].
    destruct (Z.eqb_spec n 0); [lia|]. done.
  - destruct Hp as (-> & Hx & f & Hfx & Hp). pose proof (Hs x ltac:(left)) as Hsx.
    pose proof (Hb x ltac:(left)) as Hbx. rewrite (node_lookup _ _ _ Hfx) in Hsx, Hbx.
    assert (Hs' : sized h l) by (intros y Hy; apply Hs; by right).
    assert (Hb' : ∀ y, y ∈ l → 0 ≤ iol_base (node h y)) by (intros y Hy; apply Hb; by right).
    assert (Htot : 0 ≤ total h l) by (rewrite <- (length_flat h l Hs'); lia).
    destruct fuel as [|fuel]; [lia|]. cbn [dill_ioltrim total foldr].
    fold (total h l). rewrite (node_lookup _ _ _ Hfx).
    assert (Hfin : n ≤ iol_len f → ∃ r l', (f ← h !! x;
      Some (inl (mk_iolist (if iol_base f =? NULL then NULL else iol_base f + n)
        (u64 (iol_len f - n)) (iol_next f) 0))) = Some (inl r : iolist + unit) ∧ iol_rsvd r = 0 ∧
      path h (iol_next r) l' ∧ slots r ++ flat h l' = drop (Z.to_nat n) (flat h (x :: l))).
    { intros Hle. rewrite Hfx. cbn [mbind option_bind]. eexists _, l. split; [done|].
      split; [done|]. split; [done|]. rewrite slots_trim by lia. unfold flat at 2.
      cbn [mbind list_bind]. rewrite (node_lookup _ _ _ Hfx).
      rewrite drop_app_le; [done|]. pose proof (length_slots f). lia. }
    destruct (Z.leb_spec n (iol_len f + total h l)).
    + destruct (Z.eqb_spec n 0) as [->|Hn0]; [apply Hfin; lia|].
      destruct (Z.eqb_spec x NULL); [done|]. rewrite Hfx in *. cbn [mbind option_bind] in *.
      destruct (Z.leb_spec n (iol_len f)) as [Hle|Hgt]; [by apply Hfin|].
      specialize (IH (iol_next f) (n - iol_len f) fuel Hp Hs' Hb' ltac:(lia)).
      destruct (Z.leb_spec (n - iol_len f) (total h l)); [|lia].
      destruct IH as (r & l' & E & Hr & Hp' & Hfl); [simpl in Hf; lia|right; lia|].
      exists r, l'. split; [exact E|]. split; [done|]. split; [done|]. rewrite Hfl.
      unfold flat at 2. cbn [mbind list_bind]. rewrite (node_lookup _ _ _ Hfx).
      pose proof (length_slots f ltac:(lia)) as Hls.
      rewrite drop_app_ge by lia. unfold flat. f_equal. lia.
    + destruct (Z.eqb_spec n 0); [lia|]. destruct (Z.eqb_spec x NULL); [done|].
      rewrite Hfx in *. cbn [mbind option_bind]. destruct (Z.leb_spec n (iol_len f)); [lia|].
      specialize (IH (iol_next f) (n - iol_len f) fuel Hp Hs' Hb' ltac:(lia)).
      destruct (Z.leb_spec (n - iol_len f) (total h l)); [lia|].
      apply IH; [simpl in Hf; lia|right; lia].
Qed.

(** Trimming [n] bytes from a list: succeeds exactly when the list has that
    many bytes, and the trimmed list designates the same memory, byte for byte
    (skipped bytes of [NULL] buffers included), as the original list after its
    first [n] bytes. *)
Lemma ioltrim_spec h l first n fuel :
  path h first l → sized h l → (∀ x, x ∈ l → 0 ≤ iol_base (node h x)) → 0 ≤ n →
  (length l < fuel)%nat → l ≠ [] ∨ 0 < n →
  if n <=? total h l then
    ∃ r l', dill_ioltrim fuel first n h = Some (inl r) ∧ iol_rsvd r = 0 ∧
      path h (iol_next r) l' ∧ slots r ++ flat h l' = drop (Z.to_nat n) (flat h l)
  else dill_ioltrim fuel first n h = Some (inr tt).
Proof. apply ioltrim_facts. Qed.

Lemma demo_path : path demo_nodes 4 [4; 5].
Proof.
  cbn. split; [reflexivity|]. split; [discriminate|]. eexists. split; [reflexivity|].
  cbn. split; [reflexivity|]. split; [discriminate|]. eexists. split; reflexivity.
Qed.

Lemma demo_sized : sized demo_nodes [4; 5] ∧ ∀ x, x ∈ [4; 5] → 0 ≤ iol_base (node demo_nodes x).
Proof.
  split; intros x Hx; apply list_elem_of_In in Hx; destruct Hx as [<-|[<-|[]]]; vm_compute;
    intuition congruence.
Qed.

Lemma ioltrim_spec_witness :
  ∃ r l', dill_ioltrim 3 4 8 demo_nodes = Some (inl r) ∧ iol_rsvd r = 0 ∧
    path demo_nodes (iol_next r) l' ∧
    slots r ++ flat demo_nodes l' = map Some [402; 403; 404; 405; 406].
Proof.
  apply (ioltrim_spec demo_nodes [4; 5] 4 8 3).
  - exact demo_path.
  - exact (proj1 demo_sized).
  - exact (proj2 demo_sized).
  - lia.
  - simpl. lia.
  - left. discriminate.
Defined.

(** Write bytes to slots, in order; read them back. *)
Fixpoint scatter (sl : list (option ptr)) (src : list Z) (m : memory) : memory :=
  match sl, src with
  | Some a :: sl, b :: src => scatter sl src (<[a := b]> m)
  | None :: sl, _ :: src => scatter sl src m
  | _, _ => m
  end.

Definition gather (m : memory) (sl : list (option ptr)) : option (list Z) :=
  mapM (λ o, a ← o; m !! a) sl.

Definition allocated (m : memory) (sl : list (option ptr)) : Prop :=
  ∀ a, Some a ∈ sl → is_Some (m !! a).

Lemma allocated_insert m sl a b : allocated m sl → allocated (<[a := b]> m) sl.
Proof.
  intros H c Hc. destruct (decide (a = c)) as [->|].
  - rewrite lookup_insert_eq. eauto.
  - rewrite lookup_insert_ne by done. by apply H.
Qed.

Lemma store_bytes_scatter n : ∀ a bs m,
  allocated m (map (λ i, Some (a + i)) (seqZ 0 (Z.of_nat n))) → (length bs ≤ n)%nat →
  store_bytes a bs m = Some (scatter (map (λ i, Some (a + i)) (seqZ 0 (Z.of_nat n))) bs m).
Proof.
  induction n as [|n IH]; intros a bs m Ha Hl.
  - destruct bs; [done|simpl in Hl; lia].
  - rewrite seqZ_cons in * by lia. replace (Z.pred (Z.of_nat (S n))) with (Z.of_nat n) in * by lia.
    cbn [map] in *. destruct bs as [|b bs]; [done|]. cbn [store_bytes scatter].
    destruct (Ha (a + 0)) as [v Hv]; [left|]. rewrite Z.add_0_r in *. rewrite Hv.
    assert (E : map (λ i, Some (a + i)) (seqZ (Z.succ 0) (Z.of_nat n))
      = map (λ i, Some (a + 1 + i)) (seqZ 0 (Z.of_nat n))).
    { change (Z.succ 0) with (1 + 0). rewrite <- fmap_add_seqZ.
      change (map ?f ?l) with (f <$> l). rewrite <- list_fmap_compose. apply list_fmap_ext.
      intros i x _. simpl. f_equal. lia. }
    rewrite E in *. apply IH; [|simpl in Hl; lia]. apply allocated_insert.
    intros c Hc. apply Ha. by right.
Qed.

Lemma scatter_app sl1 : ∀ sl2 src m,
  scatter (sl1 ++ sl2) src m = scatter sl2 (drop (length sl1) src) (scatter sl1 (take (length sl1) src) m).
Proof.
  induction sl1 as [|[a|] sl1 IH]; intros sl2 [|b src] m; try done; simpl.
  - by destruct sl2 as [|[]].
  - apply IH.
  - by destruct sl2 as [|[]].
  - apply IH.
Qed.

Lemma scatter_none n : ∀ src m, scatter (replicate n None) src m = m.
Proof. induction n as [|n IH]; intros [|b src] m; try done. apply IH. Qed.

Lemma scatter_dom sl : ∀ src m, (∀ a, Some a ∈ sl → is_Some (m !! a)) → dom (scatter sl src m) = dom m.
Proof.
  induction sl as [|[a|] sl IH]; intros [|b src] m Ha; try done; cbn [scatter].
  - rewrite IH.
    + apply dom_insert_lookup_L. apply Ha. left.
    + apply allocated_insert. intros c Hc. apply Ha. by right.
  - apply IH. intros c Hc. apply Ha. by right.
Qed.

Lemma allocated_scatter sl sl' src m :
  allocated m sl → allocated m sl' → allocated (scatter sl src m) sl'.
Proof.
  intros Ha Hb c Hc. apply elem_of_dom. rewrite scatter_dom by done. apply elem_of_dom. by apply Hb.
Qed.

(** Copying into one node. *)
Lemma node_copy f src m :
  0 ≤ iol_len f → allocated m (slots f) → Z.of_nat (length src) ≤ iol_len f →
  (if iol_base f =? NULL then Some m else store_bytes (iol_base f) src m)
  = Some (scatter (slots f) src m).
Proof.
  intros Hl Ha Hs. unfold slots in *. destruct (iol_base f =? NULL).
  - by rewrite scatter_none.
  - rewrite <- (Z2Nat.id (iol_len f)) in * by lia. apply store_bytes_scatter; [done|lia].
Qed.

Lemma iolto_facts h l : ∀ first src m fuel,
  path h first l → sized h l → allocated m (flat h l) → (length l < fuel)%nat →
  dill_iolto fuel src first h m =
    Some (if Z.of_nat (length src) <=? total h l then 0 else -1, scatter (flat h l) src m).
Proof.
  induction l as [|x l IH]; intros first src m fuel Hp Hs Ha Hf;
    (destruct fuel as [|fuel]; [simpl in Hf; lia|]); cbn [dill_iolto].
  - cbv [path seg] in Hp. subst. simpl total. change (flat h []) with (@nil (option ptr)).
    destruct src as [|b src]; [done|]. cbn [length]. destruct (Z.eqb_spec (Z.of_nat (S (length src))) 0); [lia|].
    destruct (Z.leb_spec (Z.of_nat (S (length src))) 0); [lia|]. done.
  - destruct Hp as (-> & Hx & f & Hfx & Hp).
    assert (Hs' : sized h l) by (intros y Hy; apply Hs; by right).
    pose proof (Hs x ltac:(left)) as Hsx. rewrite (node_lookup _ _ _ Hfx) in Hsx.
    assert (Htot : 0 ≤ total h l) by (rewrite <- (length_flat h l Hs'); lia).
    pose proof (length_slots f ltac:(lia)) as Hls.
    assert (Efl : flat h (x :: l) = slots f ++ flat h l).
    { unfold flat. cbn [mbind list_bind]. by rewrite (node_lookup _ _ _ Hfx). }
    rewrite Efl in *. cbn [total foldr]. fold (total h l). rewrite (node_lookup _ _ _ Hfx).
    assert (Ha1 : allocated m (slots f)) by (intros c Hc; apply Ha; apply elem_of_app; by left).
    assert (Ha2 : allocated m (flat h l)) by (intros c Hc; apply Ha; apply elem_of_app; by right).
    destruct (Z.eqb_spec (Z.of_nat (length src)) 0) as [E|E].
    { destruct src; [|simpl in E; lia]. destruct (Z.leb_spec (Z.of_nat (length (@nil Z))) (iol_len f + total h l));
        [|simpl in *; lia]. do 2 f_equal. by destruct (slots f ++ flat h l) as [|[]]. }
    destruct (Z.eqb_spec x NULL); [done|]. rewrite Hfx. cbn [mbind option_bind].
    rewrite scatter_app. destruct (Z.leb_spec (Z.of_nat (length src)) (iol_len f)) as [Hle|Hgt].
    + rewrite (node_copy f src m) by (done || lia). cbn [mbind option_bind].
      destruct (Z.leb_spec (Z.of_nat (length src)) (iol_len f + total h l)); [|lia].
      rewrite take_ge, drop_ge by lia. by destruct (flat h l) as [|[]].
    + assert (Ek : length (slots f) = Z.to_nat (iol_len f)) by lia. rewrite Ek.
      rewrite (node_copy f (take (Z.to_nat (iol_len f)) src) m); [|lia|done|rewrite length_take; lia].
      cbn [mbind option_bind]. rewrite (IH (iol_next f)); [|done|done| |simpl in Hf; lia].
      * rewrite length_drop. do 2 f_equal.
        destruct (Z.leb_spec (Z.of_nat (length src - Z.to_nat (iol_len f))) (total h l)),
          (Z.leb_spec (Z.of_nat (length src)) (iol_len f + total h l)); (done || lia).
      * by apply allocated_scatter.
Qed.

Lemma gather_app m sl1 sl2 :
  gather m (sl1 ++ sl2) = (a ← gather m sl1; b ← gather m sl2; Some (a ++ b)).
Proof.
  unfold gather. induction sl1 as [|o sl1 IH]; simpl.
  - by destruct (mapM _ sl2).
  - destruct (o ≫= λ a, m !! a) as [v|]; [|done]. simpl. rewrite IH.
    destruct (mapM _ sl1) as [r1|]; [|done]. simpl. by destruct (mapM _ sl2).
Qed.

Lemma load_bytes_gather m n : ∀ a,
  load_bytes a n m = gather m (map (λ i, Some (a + i)) (seqZ 0 (Z.of_nat n))).
Proof.
  induction n as [|n IH]; intros a; [done|].
  rewrite seqZ_cons by lia. replace (Z.pred (Z.of_nat (S n))) with (Z.of_nat n) by lia.
  cbn [load_bytes map]. unfold gather in *. cbn [mapM]. cbn [mbind option_bind].
  rewrite Z.add_0_r. destruct (m !! a) as [v|]; [|done]. cbn [mbind option_bind].
  assert (E : map (λ i, Some (a + i)) (seqZ (Z.succ 0) (Z.of_nat n))
      = map (λ i, Some (a + 1 + i)) (seqZ 0 (Z.of_nat n))).
  { change (Z.succ 0) with (1 + 0). rewrite <- fmap_add_seqZ.
    change (map ?f ?l) with (f <$> l). rewrite <- list_fmap_compose. apply list_fmap_ext.
    intros i x _. simpl. f_equal. lia. }
  by rewrite E, IH.
Qed.

Lemma iolfrom_facts h m l : ∀ first dstlen fuel bs,
  path h first l → sized h l → gather m (flat h l) = Some bs → total h l ≤ dstlen →
  (length l ≤ fuel)%nat → dill_iolfrom fuel dstlen first h m = Some (0, bs).
Proof.
  induction l as [|x l IH]; intros first dstlen fuel bs Hp Hs Hg Ht Hf.
  - cbv [path seg] in Hp. subst. injection Hg as <-. by destruct fuel.
  - destruct Hp as (-> & Hx & f & Hfx & Hp).
    assert (Hs' : sized h l) by (intros y Hy; apply Hs; by right).
    pose proof (Hs x ltac:(left)) as Hsx. rewrite (node_lookup _ _ _ Hfx) in Hsx.
    assert (Htot : 0 ≤ total h l) by (rewrite <- (length_flat h l Hs'); lia).
    assert (Efl : flat h (x :: l) = slots f ++ flat h l).
    { unfold flat. cbn [mbind list_bind]. by rewrite (node_lookup _ _ _ Hfx). }
    rewrite Efl, gather_app in Hg.
    apply bind_Some in Hg as (b1 & H1 & Hg). apply bind_Some in Hg as (b2 & H2 & [= <-]).
    cbn [total foldr] in Ht. fold (total h l) in Ht. rewrite (node_lookup _ _ _ Hfx) in Ht.
    destruct fuel as [|fuel]; [simpl in Hf; lia|]. cbn [dill_iolfrom].
    destruct (Z.eqb_spec x NULL); [done|]. rewrite Hfx. cbn [mbind option_bind].
    destruct (Z.ltb_spec dstlen (iol_len f)); [lia|].
    assert (E : load_bytes (iol_base f) (Z.to_nat (iol_len f)) m = Some b1).
    { unfold slots in H1. destruct (Z.eqb_spec (iol_base f) NULL).
      - destruct (Z.to_nat (iol_len f)) as [|k] eqn:Ek; [by injection H1 as <-|done].
      - rewrite load_bytes_gather, Z2Nat.id by lia. exact H1. }
    rewrite E. cbn [mbind option_bind].
    rewrite (IH (iol_next f) (dstlen - iol_len f) fuel b2) by (done || (simpl in Hf; lia) || lia).
    done.
Qed.

Lemma sum_len_spec h l : ∀ it sz fuel,
  path h it l → sized h l → (length l ≤ fuel)%nat → sum_len fuel it (u64 sz) h = Some (u64 (sz + total h l)).
Proof.
  induction l as [|x l IH]; intros it sz fuel Hp Hs Hf.
  - cbv [path seg] in Hp. subst. cbn [total foldr]. rewrite Z.add_0_r. by destruct fuel.
  - destruct Hp as (-> & Hx & f & Hfx & Hp). destruct fuel as [|fuel]; [simpl in Hf; lia|].
    cbn [sum_len]. rewrite (proj2 (Z.eqb_neq _ _) Hx), Hfx. cbn [mbind option_bind].
    rewrite u64_add, IH; [|done|intros y Hy; apply Hs; by right|simpl in Hf; lia].
    cbn [total foldr]. fold (total h l). rewrite (node_lookup _ _ _ Hfx). do 2 f_equal. lia.
Qed.

(** Reading back distinct slots. *)
Lemma scatter_ne sl : ∀ src m a, Some a ∉ sl → scatter sl src m !! a = m !! a.
Proof.
  induction sl as [|[c|] sl IH]; intros [|b src] m a Ha; try done; cbn [scatter];
    apply not_elem_of_cons in Ha as [Hne Ha]; rewrite IH by done; [|done].
  apply lookup_insert_ne. congruence.
Qed.

Lemma gather_scatter sl : ∀ src m,
  NoDup sl → None ∉ sl → length src = length sl → gather (scatter sl src m) sl = Some src.
Proof.
  induction sl as [|[c|] sl IH]; intros src m Hnd Hnn Hl.
  - by destruct src.
  - destruct src as [|b src]; [done|]. apply NoDup_cons in Hnd as [Hc Hnd].
    apply not_elem_of_cons in Hnn as [_ Hnn]. cbn [scatter]. unfold gather. cbn [mapM].
    cbn [mbind option_bind]. rewrite scatter_ne by done. rewrite lookup_insert_eq.
    cbn [mbind option_bind]. pose proof (IH src (<[c := b]> m) Hnd Hnn ltac:(simpl in Hl; lia)) as E.
    unfold gather in E. by rewrite E.
  - exfalso. apply Hnn. left.
Qed.

(** Copying bytes into a list and out again: [dill_iolto] fills the buffers in
    order, whatever their number, sizes and addresses, returns 0 exactly when the
    bytes fit, and leaves the rest of the memory alone; for a list of disjoint
    non-[NULL] buffers of exactly that many bytes, [dill_iolfrom] then reads back
    the bytes that were copied. *)
Lemma iol_copy_roundtrip h l first src m fuel :
  path h first l → sized h l → allocated m (flat h l) → (length l < fuel)%nat →
  ∃ m', dill_iolto fuel src first h m =
      Some (if Z.of_nat (length src) <=? total h l then 0 else -1, m') ∧
    (∀ a, Some a ∉ flat h l → m' !! a = m !! a) ∧
    (NoDup (flat h l) → None ∉ flat h l → Z.of_nat (length src) = total h l →
     ∀ dstlen, total h l ≤ dstlen → dill_iolfrom fuel dstlen first h m' = Some (0, src)).
Proof.
  intros Hp Hs Ha Hf. exists (scatter (flat h l) src m). split; [by apply iolto_facts|].
  split; [intros a; apply scatter_ne|]. intros Hnd Hnn Hl dstlen Hd.
  apply (iolfrom_facts h _ l); [done|done| |done|lia].
  apply gather_scatter; [done|done|]. rewrite <- (length_flat h l Hs) in Hl. lia.
Qed.

Definition demo_memory : memory := list_to_map (map (λ a, (a, 0)) (seqZ 300 200)).

Lemma iol_copy_roundtrip_witness :
  ∃ m', dill_iolto 3 [1; 2; 3; 4; 5; 6; 7; 8; 9; 10; 11; 12; 13] 4 demo_nodes demo_memory = Some (0, m') ∧
    dill_iolfrom 3 13 4 demo_nodes m' = Some (0, [1; 2; 3; 4; 5; 6; 7; 8; 9; 10; 11; 12; 13]).
Proof.
  destruct (iol_copy_roundtrip demo_nodes [4; 5] 4 [1; 2; 3; 4; 5; 6; 7; 8; 9; 10; 11; 12; 13]
    demo_memory 3) as (m' & E & _ & Hr).
  - exact demo_path.
  - exact (proj1 demo_sized).
  - assert (H : Forall (λ o, match o with Some a => is_Some (demo_memory !! a) | None => True end)
      (flat demo_nodes [4; 5])) by (vm_compute; repeat constructor; eexists; reflexivity).
    rewrite Forall_forall in H. intros a Hin. exact (H (Some a) Hin).
  - simpl. lia.
  - exists m'. split; [exact E|]. apply Hr.
    + apply (bool_decide_unpack _). vm_compute. exact I.
    + apply (bool_decide_unpack _). vm_compute. exact I.
    + reflexivity.
    + vm_compute. discriminate.
Defined.
