(* ===== verification/World.v ===== *)
(** The coroutine runtime: the state of a thread ([ctx.h]) and suspension.

    A coroutine's C stack is a resumption: a function of the library or of the
    program is a computation [M A], which from a world finishes with a value,
    crashes (undefined behaviour or a failed [dill_assert]), suspends in
    [dill_wait], or starts another coroutine in [go].  The intrusive lists and the
    timer tree of the C structures are Rocq lists here; that the C operations
    implement those lists is proved in the files Lists and Rbtimers. *)

From S2P Require Import Prelude Handle.
From Stdlib Require Import ZArith Lia.
From stdpp Require Import base gmap list.
Open Scope Z_scope.

(** * The state *)

(** The function called when a clause is canceled. *)
Inductive cancel_fn := NoCancel | TimerCancel | ChCancel | FdCancelIn (fd : Z) | FdCancelOut (fd : Z).

#[export] Instance cancel_fn_eq_dec : EqDecision cancel_fn.
Proof. solve_decision. Defined.

(** [struct dill_cr], by address.  [ready_linked] is [ready.next != NULL];
    [clauses] is the stack of clauses, most recent first. *)
Record dill_cr := mk_cr {
  ready_linked : bool;
  cr_id : Z;
  cr_err : errno_t;
  clauses : list Z;
  cr_bundle : Z;
  cr_no_blocking1 : bool;
  cr_no_blocking2 : bool;
  done : bool;
  cr_mem : bool;
  closer : option Z;
}.

(** [struct dill_clause] (and the enclosing timer clause). *)
Record dill_clause := mk_clause { cl_cr : Z; cl_id : Z; cl_cancel : cancel_fn }.

(** [struct dill_bundle]: its coroutines, oldest first. *)
Record dill_bundle := mk_bundle { crs : list Z; waiter : option Z; bundle_mem : bool }.

(** [struct dill_halfchan]: the clauses waiting to receive ([hc_in]) and to send
    ([hc_out]), oldest first.  The two halves of a channel are at addresses [c]
    (index 0) and [c + 1] (index 1). *)
Record dill_halfchan := mk_halfchan {
  hc_in : list Z;
  hc_out : list Z;
  hc_index : bool;
  hc_done : bool;
  hc_mem : bool;
  hc_closed : bool;
}.

(** The message part of [struct dill_chanclause]. *)
Record dill_chanclause := mk_chanclause { cc_val : ptr; cc_len : Z }.

(** [struct dill_fdinfo] and [struct dill_ctx_pollset] (epoll.c.inc); an event mask
    is the pair of its EPOLLIN and EPOLLOUT bits. *)
Definition events : Type := bool * bool.
Record dill_fdinfo := mk_fdinfo {
  fi_in : option Z;
  fi_out : option Z;
  fi_currevs : events;
  fi_next : Z;
  fi_cached : bool;
}.
Record dill_ctx_pollset := mk_pollset {
  ps_fdinfos : gmap Z dill_fdinfo;
  ps_nfdinfos : Z;
  ps_changelist : Z;
  (** the kernel's interest set: what the successful epoll_ctl calls asked for *)
  ps_kernel : gmap Z events;
}.

(** One [epoll_wait]: interrupted or not, the events (EPOLLIN, EPOLLOUT, EPOLLERR
    or EPOLLHUP) by descriptor, and the clock afterwards. *)
Record poll_input := mk_poll_input {
  pi_intr : bool;
  pi_events : list (Z * (bool * bool * bool));
  pi_now : Z;
}.

(** The objects behind handles; [VUser] is any object outside this runtime. *)
Inductive vobj := VCr (c : Z) | VBundle (b : Z) | VChan (h : Z) | VUser (n : Z).

(** The thread: [errno], the contexts of [struct dill_ctx], the memory the messages
    live in, the next fresh address, the number of allocations that still succeed,
    and the clock and kernel events to come. *)
Record world := mk_world {
  w_errno : errno_t;
  w_handles : dill_ctx_handle vobj;
  w_r : Z;
  w_ready : list Z;
  w_timers : list (Z * Z);
  w_last_poll : Z;
  w_crs : gmap Z dill_cr;
  w_cls : gmap Z dill_clause;
  w_bundles : gmap Z dill_bundle;
  w_chans : gmap Z dill_halfchan;
  w_chcls : gmap Z dill_chanclause;
  w_pollset : dill_ctx_pollset;
  w_mem : gmap Z Z;
  w_next_id : Z;
  w_budget : nat;
  w_now : Z;
  w_polls : list poll_input;
}.

Definition set_errno (v : errno_t) (w : world) : world :=
    mk_world v (w_handles w) (w_r w) (w_ready w) (w_timers w) (w_last_poll w) (w_crs w) (w_cls w)
    (w_bundles w) (w_chans w) (w_chcls w) (w_pollset w) (w_mem w) (w_next_id w) (w_budget w) (w_now
    w) (w_polls w).
Definition set_handles (v : dill_ctx_handle vobj) (w : world) : world :=
    mk_world (w_errno w) v (w_r w) (w_ready w) (w_timers w) (w_last_poll w) (w_crs w) (w_cls w)
    (w_bundles w) (w_chans w) (w_chcls w) (w_pollset w) (w_mem w) (w_next_id w) (w_budget w) (w_now
    w) (w_polls w).
Definition set_r (v : Z) (w : world) : world :=
    mk_world (w_errno w) (w_handles w) v (w_ready w) (w_timers w) (w_last_poll w) (w_crs w) (w_cls
    w) (w_bundles w) (w_chans w) (w_chcls w) (w_pollset w) (w_mem w) (w_next_id w) (w_budget w)
    (w_now w) (w_polls w).
Definition set_ready (v : list Z) (w : world) : world :=
    mk_world (w_errno w) (w_handles w) (w_r w) v (w_timers w) (w_last_poll w) (w_crs w) (w_cls w)
    (w_bundles w) (w_chans w) (w_chcls w) (w_pollset w) (w_mem w) (w_next_id w) (w_budget w) (w_now
    w) (w_polls w).
Definition set_timers (v : list (Z * Z)) (w : world) : world :=
    mk_world (w_errno w) (w_handles w) (w_r w) (w_ready w) v (w_last_poll w) (w_crs w) (w_cls w)
    (w_bundles w) (w_chans w) (w_chcls w) (w_pollset w) (w_mem w) (w_next_id w) (w_budget w) (w_now
    w) (w_polls w).
Definition set_last_poll (v : Z) (w : world) : world :=
    mk_world (w_errno w) (w_handles w) (w_r w) (w_ready w) (w_timers w) v (w_crs w) (w_cls w)
    (w_bundles w) (w_chans w) (w_chcls w) (w_pollset w) (w_mem w) (w_next_id w) (w_budget w) (w_now
    w) (w_polls w).
Definition set_crs (v : gmap Z dill_cr) (w : world) : world :=
    mk_world (w_errno w) (w_handles w) (w_r w) (w_ready w) (w_timers w) (w_last_poll w) v (w_cls w)
    (w_bundles w) (w_chans w) (w_chcls w) (w_pollset w) (w_mem w) (w_next_id w) (w_budget w) (w_now
    w) (w_polls w).
Definition set_cls (v : gmap Z dill_clause) (w : world) : world :=
    mk_world (w_errno w) (w_handles w) (w_r w) (w_ready w) (w_timers w) (w_last_poll w) (w_crs w) v
    (w_bundles w) (w_chans w) (w_chcls w) (w_pollset w) (w_mem w) (w_next_id w) (w_budget w) (w_now
    w) (w_polls w).
Definition set_bundles (v : gmap Z dill_bundle) (w : world) : world :=
    mk_world (w_errno w) (w_handles w) (w_r w) (w_ready w) (w_timers w) (w_last_poll w) (w_crs w)
    (w_cls w) v (w_chans w) (w_chcls w) (w_pollset w) (w_mem w) (w_next_id w) (w_budget w) (w_now w)
    (w_polls w).
Definition set_chans (v : gmap Z dill_halfchan) (w : world) : world :=
    mk_world (w_errno w) (w_handles w) (w_r w) (w_ready w) (w_timers w) (w_last_poll w) (w_crs w)
    (w_cls w) (w_bundles w) v (w_chcls w) (w_pollset w) (w_mem w) (w_next_id w) (w_budget w) (w_now
    w) (w_polls w).
Definition set_chcls (v : gmap Z dill_chanclause) (w : world) : world :=
    mk_world (w_errno w) (w_handles w) (w_r w) (w_ready w) (w_timers w) (w_last_poll w) (w_crs w)
    (w_cls w) (w_bundles w) (w_chans w) v (w_pollset w) (w_mem w) (w_next_id w) (w_budget w) (w_now
    w) (w_polls w).
Definition set_pollset (v : dill_ctx_pollset) (w : world) : world :=
    mk_world (w_errno w) (w_handles w) (w_r w) (w_ready w) (w_timers w) (w_last_poll w) (w_crs w)
    (w_cls w) (w_bundles w) (w_chans w) (w_chcls w) v (w_mem w) (w_next_id w) (w_budget w) (w_now w)
    (w_polls w).
Definition set_mem (v : gmap Z Z) (w : world) : world :=
    mk_world (w_errno w) (w_handles w) (w_r w) (w_ready w) (w_timers w) (w_last_poll w) (w_crs w)
    (w_cls w) (w_bundles w) (w_chans w) (w_chcls w) (w_pollset w) v (w_next_id w) (w_budget w)
    (w_now w) (w_polls w).
Definition set_next_id (v : Z) (w : world) : world :=
    mk_world (w_errno w) (w_handles w) (w_r w) (w_ready w) (w_timers w) (w_last_poll w) (w_crs w)
    (w_cls w) (w_bundles w) (w_chans w) (w_chcls w) (w_pollset w) (w_mem w) v (w_budget w) (w_now w)
    (w_polls w).
Definition set_budget (v : nat) (w : world) : world :=
    mk_world (w_errno w) (w_handles w) (w_r w) (w_ready w) (w_timers w) (w_last_poll w) (w_crs w)
    (w_cls w) (w_bundles w) (w_chans w) (w_chcls w) (w_pollset w) (w_mem w) (w_next_id w) v (w_now
    w) (w_polls w).
Definition set_now (v : Z) (w : world) : world :=
    mk_world (w_errno w) (w_handles w) (w_r w) (w_ready w) (w_timers w) (w_last_poll w) (w_crs w)
    (w_cls w) (w_bundles w) (w_chans w) (w_chcls w) (w_pollset w) (w_mem w) (w_next_id w) (w_budget
    w) v (w_polls w).
Definition set_polls (v : list poll_input) (w : world) : world :=
    mk_world (w_errno w) (w_handles w) (w_r w) (w_ready w) (w_timers w) (w_last_poll w) (w_crs w)
    (w_cls w) (w_bundles w) (w_chans w) (w_chcls w) (w_pollset w) (w_mem w) (w_next_id w) (w_budget
    w) (w_now w) v.

Definition upd_cr (c : Z) (f : dill_cr → dill_cr) (w : world) : option world :=
  x ← w_crs w !! c; Some (set_crs (<[c := f x]> (w_crs w)) w).

(** * Computations *)

Inductive outcome (A : Type) :=
  | ODone (a : A) (w : world)
  | OCrash
  (** suspended in [dill_wait]; the rest runs when the coroutine is resumed *)
  | OWait (w : world) (k : world → outcome A)
  (** [go]: the new coroutine, running in [w], starts with the call [fn] (the function and its
      arguments); the rest runs when its parent is resumed *)
  | OGo (w : world) (fn : list Z) (parent : Z) (k : world → outcome A).
Arguments ODone {A}.
Arguments OCrash {A}.
Arguments OWait {A}.
Arguments OGo {A}.

Definition M (A : Type) : Type := world → outcome A.

Fixpoint obind_ {A B} (k : A → M B) (o : outcome A) : outcome B :=
  match o with
  | ODone a w => k a w
  | OCrash => OCrash
  | OWait w k' => OWait w (λ w', obind_ k (k' w'))
  | OGo w fn parent k' => OGo w fn parent (λ w', obind_ k (k' w'))
  end.

#[export] Instance M_ret : MRet M := λ A a w, ODone a w.
#[export] Instance M_bind : MBind M := λ A B k m w, obind_ k (m w).

Definition crash {A} : M A := λ w, OCrash.
Definition gets {A} (f : world → A) : M A := λ w, ODone (f w) w.
Definition modify (f : world → world) : M unit := λ w, ODone tt (f w).
(** A step of the library that does not suspend; [None] is a crash. *)
Definition lift (f : world → option world) : M unit :=
  λ w, match f w with Some w => ODone tt w | None => OCrash end.
Definition assert_ (b : bool) : M unit := if b then mret tt else crash.
Definition fail (e : errno_t) : M Z := modify (set_errno e);; mret (-1).
Definition fresh_addr : M Z := λ w, ODone (w_next_id w) (set_next_id (w_next_id w + 1) w).
(** [malloc] *)
Definition malloc : M (option Z) := λ w,
  match w_budget w with
  | O => ODone None w
  | S n => ODone (Some (w_next_id w)) (set_next_id (w_next_id w + 1) (set_budget n w))
  end.
