(* ===== verification/Cr.v ===== *)
(** Clauses, timers and suspension ([cr.c], first part).

    A coroutine that is about to suspend adds clauses; the first one triggered
    cancels the others and puts the coroutine in the ready queue.  The theorems
    state the invariant that makes this safe and that every operation keeps it. *)

From S2P Require Import Prelude Handle World.
From Stdlib Require Import ZArith Lia.
From stdpp Require Import base gmap list.
Open Scope Z_scope.

(** * Timers: the tree of [rbtree.c] as the list of its items in order *)

(** A new item goes after those with an equal value. *)
Fixpoint timer_insert (deadline cl : Z) (ts : list (Z * Z)) : list (Z * Z) :=
  match ts with
  | [] => [(deadline, cl)]
  | (d, c) :: ts' => if deadline <? d then (deadline, cl) :: ts else (d, c) :: timer_insert deadline cl ts'
  end.

Definition timer_erase (cl : Z) (ts : list (Z * Z)) : list (Z * Z) := filter (λ t, t.2 ≠ cl) ts.

(** * Cancellation *)

(** [dill_list_erase] of a channel clause: it is on the list of some half-channel. *)
Definition chan_linked (c : Z) (w : world) : bool :=
  bool_decide (map_Exists (λ _ hc, c ∈ hc_in hc ∨ c ∈ hc_out hc) (w_chans w)).
Definition chan_unlink (c : Z) (hc : dill_halfchan) : dill_halfchan :=
  mk_halfchan (filter (λ x, x ≠ c) (hc_in hc)) (filter (λ x, x ≠ c) (hc_out hc))
    (hc_index hc) (hc_done hc) (hc_mem hc) (hc_closed hc).
Definition dill_chcancel (c : Z) (w : world) : option world :=
  if chan_linked c w then Some (set_chans (chan_unlink c <$> w_chans w) w) else None.

Definition dill_timer_cancel (c : Z) (w : world) : option world :=
  if bool_decide (c ∈ (w_timers w).*2) then
    cl ← w_cls w !! c;
    let w := set_timers (timer_erase c (w_timers w)) w in
    (** [tmcl->cl.cr = NULL] *)
    Some (set_cls (<[c := mk_clause NULL (cl_id cl) (cl_cancel cl)]> (w_cls w)) w)
  else None.

Definition no_fdinfo : dill_fdinfo := mk_fdinfo None None (false, false) 0 false.
Definition fdinfo_at (fd : Z) (ps : dill_ctx_pollset) : dill_fdinfo := default no_fdinfo (ps_fdinfos ps !! fd).
Definition set_fdinfo (fd : Z) (i : dill_fdinfo) (ps : dill_ctx_pollset) : dill_ctx_pollset :=
  mk_pollset (<[fd := i]> (ps_fdinfos ps)) (ps_nfdinfos ps) (ps_changelist ps) (ps_kernel ps).

(** [if(!fdinfo->next) {fdinfo->next = ctx->changelist; ctx->changelist = fd + 1;}] *)
Definition add_change (fd : Z) (ps : dill_ctx_pollset) : dill_ctx_pollset :=
  let i := fdinfo_at fd ps in
  if fi_next i =? 0 then
    let ps := set_fdinfo fd (mk_fdinfo (fi_in i) (fi_out i) (fi_currevs i) (ps_changelist ps) (fi_cached i)) ps in
    mk_pollset (ps_fdinfos ps) (ps_nfdinfos ps) (fd + 1) (ps_kernel ps)
  else ps.

Definition dill_fdcancelin (fd : Z) (w : world) : world :=
  let i := fdinfo_at fd (w_pollset w) in
  set_pollset (add_change fd
    (set_fdinfo fd (mk_fdinfo None (fi_out i) (fi_currevs i) (fi_next i) (fi_cached i)) (w_pollset w))) w.
Definition dill_fdcancelout (fd : Z) (w : world) : world :=
  let i := fdinfo_at fd (w_pollset w) in
  set_pollset (add_change fd
    (set_fdinfo fd (mk_fdinfo (fi_in i) None (fi_currevs i) (fi_next i) (fi_cached i)) (w_pollset w))) w.

(** [if(cl->cancel) cl->cancel(cl)] *)
Definition cancel_clause (c : Z) (w : world) : option world :=
  cl ← w_cls w !! c;
  match cl_cancel cl with
  | NoCancel => Some w
  | TimerCancel => dill_timer_cancel c w
  | ChCancel => dill_chcancel c w
  | FdCancelIn fd => Some (dill_fdcancelin fd w)
  | FdCancelOut fd => Some (dill_fdcancelout fd w)
  end.

Fixpoint cancel_clauses (cs : list Z) (w : world) : option world :=
  match cs with
  | [] => Some w
  | c :: cs => w ← cancel_clause c w; cancel_clauses cs w
  end.

(** * Suspending and resuming *)

Definition dill_resume (c : Z) (id : Z) (err : errno_t) (w : world) : option world :=
  w ← upd_cr c (λ x, mk_cr true id err (clauses x) (cr_bundle x) (cr_no_blocking1 x)
      (cr_no_blocking2 x) (done x) (cr_mem x) (closer x)) w;
  Some (set_ready (w_ready w ++ [c]) w).

Definition dill_docancel (c : Z) (id : Z) (err : errno_t) (w : world) : option world :=
  x ← w_crs w !! c;
  if ready_linked x then None
  else
    w ← cancel_clauses (clauses x) w;
    dill_resume c id err w.

Definition dill_trigger (c : Z) (err : errno_t) (w : world) : option world :=
  cl ← w_cls w !! c;
  dill_docancel (cl_cr cl) (cl_id cl) err w.

Definition dill_cancel (c : Z) (err : errno_t) (w : world) : option world := dill_docancel c (-1) err w.

Definition dill_waitfor (c : Z) (id : Z) (cancel : cancel_fn) (w : world) : option world :=
  let w := set_cls (<[c := mk_clause (w_r w) id cancel]> (w_cls w)) w in
  upd_cr (w_r w) (λ x, mk_cr (ready_linked x) (cr_id x) (cr_err x) (c :: clauses x) (cr_bundle x)
    (cr_no_blocking1 x) (cr_no_blocking2 x) (done x) (cr_mem x) (closer x)) w.

(** Adds a timer clause; an infinite deadline adds nothing. *)
Definition dill_timer (c : Z) (id : Z) (deadline : Z) (w : world) : option world :=
  if deadline <? 0 then Some w
  else dill_waitfor c id TimerCancel (set_timers (timer_insert deadline c (w_timers w)) w).

Definition dill_canblock : M Z := λ w,
  match w_crs w !! w_r w with
  | None => OCrash
  | Some x =>
    if cr_no_blocking1 x || cr_no_blocking2 x then ODone (-1) (set_errno ECANCELED w) else ODone 0 w
  end.

Definition dill_no_blocking (val : bool) : M bool := λ w,
  match w_crs w !! w_r w with
  | None => OCrash
  | Some x =>
    ODone (cr_no_blocking2 x)
      (set_crs (<[w_r w := mk_cr (ready_linked x) (cr_id x) (cr_err x) (clauses x) (cr_bundle x)
        (cr_no_blocking1 x) val (done x) (cr_mem x) (closer x)]> (w_crs w)) w)
  end.

(** What the resumed coroutine does first: [dill_slist_init(&ctx->r->clauses);
    errno = ctx->r->err; return ctx->r->id]. *)
Definition dill_resumed (w : world) : outcome Z :=
  match w_crs w !! w_r w with
  | None => OCrash
  | Some x =>
    ODone (cr_id x)
      (set_errno (cr_err x)
        (set_crs (<[w_r w := mk_cr (ready_linked x) (cr_id x) (cr_err x) [] (cr_bundle x)
          (cr_no_blocking1 x) (cr_no_blocking2 x) (done x) (cr_mem x) (closer x)]> (w_crs w)) w))
  end.

(** The suspension point; what happens in between is [dill_wait_] of Sched. *)
Definition dill_wait : M Z := λ w, OWait w dill_resumed.

Definition dill_yield : M Z :=
  rc ← dill_canblock;
  if rc <? 0 then mret (-1)
  else
    r ← gets w_r;
    lift (dill_resume r 0 E0);;
    dill_wait.

(** The type tags: addresses of the placeholders. *)
Definition dill_cr_type : ptr := 1.
Definition dill_bundle_type : ptr := 2.
Definition dill_halfchan_type : ptr := 3.
Definition user_type : ptr := 4.

(** The query functions: [dill_cr_query], [dill_bundle_query], [dill_halfchan_query]. *)
Definition obj_query (v : vobj) (ty : ptr) : ptr :=
  match v with
  | VCr c => if ty =? dill_cr_type then c else NULL
  | VBundle b => if ty =? dill_bundle_type then b else NULL
  | VChan h => if ty =? dill_halfchan_type then h else NULL
  | VUser n => if ty =? user_type then n else NULL
  end.

(** The handle table of the thread, whose objects are closed by [close]. *)
#[export] Instance runtime_env (close : vobj → M unit) : HandleEnv vobj M := {|
  h_get := gets w_handles;
  h_put := λ c, modify (set_handles c);
  h_errno := λ e, modify (set_errno e);
  h_canblock := dill_canblock;
  h_no_blocking := dill_no_blocking;
  h_realloc := λ _, o ← malloc; mret (match o with Some _ => true | None => false end);
  h_has_methods := λ _, true;
  h_query := λ v ty,
    if obj_query v ty =? NULL then modify (set_errno ENOTSUP);; mret NULL else mret (obj_query v ty);
  h_close := close;
  h_crash := λ A, crash;
|}.

(** * The invariant *)

(** Where a clause with a given cancel function is linked. *)
Definition registered (k : cancel_fn) (c : Z) (w : world) : Prop :=
  match k with
  | NoCancel => False
  | TimerCancel => c ∈ (w_timers w).*2
  | ChCancel => ∃ h hc, w_chans w !! h = Some hc ∧ (c ∈ hc_in hc ∨ c ∈ hc_out hc)
  | FdCancelIn fd => fi_in (fdinfo_at fd (w_pollset w)) = Some c
  | FdCancelOut fd => fi_out (fdinfo_at fd (w_pollset w)) = Some c
  end.

(** The other half of a channel. *)
Definition dill_halfchan_other (h : Z) (hc : dill_halfchan) : Z := if hc_index hc then h - 1 else h + 1.

Definition chan_ok (h : Z) (cs : gmap Z dill_halfchan) : Prop :=
  h ≠ NULL ∧ ∃ hc hc', cs !! h = Some hc ∧ cs !! dill_halfchan_other h hc = Some hc' ∧
    hc_index hc' = negb (hc_index hc).

(** A buffer of [n] bytes at [v]. *)
Definition buf_ok (v n : Z) (m : gmap Z Z) : Prop := 0 ≤ n ∧ ∀ i, 0 ≤ i < n → is_Some (m !! (v + i)).

(** The handle table is well formed and its channels exist. *)
Definition handles_ok (c : dill_ctx_handle vobj) (cs : gmap Z dill_halfchan) : Prop :=
  ∃ t, represents obj_query c t ∧ ∀ k h, live t !! k = Some (VChan h) → chan_ok h cs.

Record wf (w : world) : Prop := {
  wf_ready_nodup : NoDup (w_ready w);
  (** the ready queue holds exactly the coroutines whose link is set *)
  wf_ready : ∀ c, c ∈ w_ready w ↔ ∃ x, w_crs w !! c = Some x ∧ ready_linked x = true;
  (** a linked clause belongs to a suspended coroutine that waits for it *)
  wf_registered : ∀ k c, registered k c w → ∃ cl x, w_cls w !! c = Some cl ∧ cl_cancel cl = k ∧
    w_crs w !! cl_cr cl = Some x ∧ ready_linked x = false ∧ c ∈ clauses x;
  (** the clauses of a coroutine that is not ready are linked *)
  wf_clauses : ∀ i x c, w_crs w !! i = Some x → ready_linked x = false → c ∈ clauses x →
    ∃ cl, w_cls w !! c = Some cl ∧ cl_cr cl = i ∧
      (cl_cancel cl = NoCancel ∨ registered (cl_cancel cl) c w);
  wf_clauses_nodup : ∀ i x, w_crs w !! i = Some x → NoDup (clauses x);
  (** addresses not yet used *)
  wf_fresh : ∀ c, is_Some (w_cls w !! c) → c < w_next_id w;
  wf_timers : NoDup (w_timers w).*2;
  wf_handles : handles_ok (w_handles w) (w_chans w);
  (** the clauses waiting on channels point to buffers *)
  wf_buffers : ∀ c, registered ChCancel c w →
    ∃ cc, w_chcls w !! c = Some cc ∧ buf_ok (cc_val cc) (cc_len cc) (w_mem w);
}.

(** Between two operations of the running coroutine it waits for nothing. *)
Definition running (w : world) : Prop :=
  wf w ∧ ∃ x, w_crs w !! w_r w = Some x ∧ ready_linked x = false ∧ clauses x = [].

Definition clear_clauses (x : dill_cr) : dill_cr :=
  mk_cr (ready_linked x) (cr_id x) (cr_err x) [] (cr_bundle x) (cr_no_blocking1 x)
    (cr_no_blocking2 x) (done x) (cr_mem x) (closer x).

(** A coroutine has just been taken from the ready queue. *)
Definition resumable (w : world) : Prop :=
  ∃ x, w_crs w !! w_r w = Some x ∧ running (set_crs (<[w_r w := clear_clauses x]> (w_crs w)) w).

(** What a coroutine may do to the world between [w0], where it was resumed, and
    [w]: it keeps running, and does not touch the clauses of the others. *)
Record segment (w0 w : world) : Prop := {
  seg_r : w_r w = w_r w0;
  seg_others : ∀ i x, i ≠ w_r w0 → w_crs w0 !! i = Some x →
    ∃ x', w_crs w !! i = Some x' ∧ clauses x' = clauses x;
  seg_dom : dom (w_crs w) = dom (w_crs w0);
}.

(** A new coroutine runs in [w]; its parent, running in [w0], is ready and waits for
    nothing. *)
Record forked (w0 w : world) : Prop := {
  fk_new : w_crs w0 !! w_r w = None;
  fk_parent : ∃ x, w_crs w !! w_r w0 = Some x ∧ clauses x = [];
  fk_others : ∀ i x, i ≠ w_r w0 → w_crs w0 !! i = Some x →
    ∃ x', w_crs w !! i = Some x' ∧ clauses x' = clauses x;
  fk_dom : dom (w_crs w) = {[w_r w]} ∪ dom (w_crs w0);
}.

(** A computation started in [w0] is safe when, from wherever it is resumed in a
    well-formed world, it neither crashes nor breaks the invariant, and ends
    running. *)
Inductive safe {A} (P : A → world → Prop) : world → outcome A → Prop :=
  | safe_done w0 a w : running w → segment w0 w → P a w → safe P w0 (ODone a w)
  | safe_wait w0 w k : wf w → segment w0 w →
      (∀ w', resumable w' → w_r w' = w_r w0 → safe P w' (k w')) → safe P w0 (OWait w k)
  (** the parent is ready and waits for nothing; the child runs *)
  | safe_go w0 w1 w fn k : segment w0 w1 → forked w1 w → running w →
      (∀ w', running w' → w_r w' = w_r w0 → safe P w' (k w')) → safe P w0 (OGo w fn (w_r w0) k).

(** * Cancelling *)

Definition unlink_all (cs : list Z) (hc : dill_halfchan) : dill_halfchan :=
  mk_halfchan (filter (λ c, c ∉ cs) (hc_in hc)) (filter (λ c, c ∉ cs) (hc_out hc))
    (hc_index hc) (hc_done hc) (hc_mem hc) (hc_closed hc).

(** The world after the clauses [cs] are canceled: [m] are the clauses, [p] the
    pollset. *)
Definition cancelled (cs : list Z) (m : gmap Z dill_clause) (p : dill_ctx_pollset) (w : world) : world :=
  set_pollset p (set_cls m (set_chans (unlink_all cs <$> w_chans w)
    (set_timers (filter (λ t, t.2 ∉ cs) (w_timers w)) w))).

(** Clauses are linked where their cancel function looks for them. *)
Definition kinds_ok (w : world) : Prop :=
  ∀ k c, registered k c w → ∃ cl, w_cls w !! c = Some cl ∧ cl_cancel cl = k.

Definition cls_after (cs : list Z) (m m' : gmap Z dill_clause) : Prop :=
  ∀ c, match m !! c with
       | None => m' !! c = None
       | Some cl => ∃ cl', m' !! c = Some cl' ∧ cl_id cl' = cl_id cl ∧ cl_cancel cl' = cl_cancel cl ∧
                     (c ∉ cs → cl' = cl)
       end.

Definition fds_after (cs : list Z) (p p' : dill_ctx_pollset) : Prop :=
  ∀ fd c, (fi_in (fdinfo_at fd p') = Some c ↔ fi_in (fdinfo_at fd p) = Some c ∧ c ∉ cs) ∧
          (fi_out (fdinfo_at fd p') = Some c ↔ fi_out (fdinfo_at fd p) = Some c ∧ c ∉ cs).

Lemma filter_none {A} (P : A → Prop) `{∀ x, Decision (P x)} (l : list A) :
  (∀ x, x ∈ l → P x) → filter P l = l.
Proof.
  induction l as [|x l IH]; intros H1; [done|]. rewrite filter_cons_True by (apply H1; left).
  f_equal. apply IH. intros y Hy. apply H1. by right.
Qed.

Lemma filter_filter {A} (P Q : A → Prop) `{∀ x, Decision (P x)} `{∀ x, Decision (Q x)} (l : list A) :
  filter P (filter Q l) = filter (λ x, Q x ∧ P x) l.
Proof.
  induction l as [|x l IH]; [done|]. destruct (decide (Q x)) as [HQ|HQ].
  - rewrite (filter_cons_True Q) by done. destruct (decide (P x)).
    + rewrite !filter_cons_True by done. by rewrite IH.
    + rewrite !filter_cons_False by tauto. by rewrite IH.
  - rewrite (filter_cons_False Q), filter_cons_False by tauto. done.
Qed.

Lemma unlink_none (cs : list Z) hc :
  (∀ c, c ∈ hc_in hc ∨ c ∈ hc_out hc → c ∉ cs) → unlink_all cs hc = hc.
Proof.
  intros H. unfold unlink_all. rewrite !filter_none by (intros c Hc; apply H; tauto). by destruct hc.
Qed.

Lemma chans_none (cs : list Z) w :
  (∀ c, registered ChCancel c w → c ∉ cs) → unlink_all cs <$> w_chans w = w_chans w.
Proof.
  intros H. apply map_eq. intros h. rewrite lookup_fmap. destruct (w_chans w !! h) as [hc|] eqn:E; [|done].
  simpl. f_equal. apply unlink_none. intros c Hc. apply H. by exists h, hc.
Qed.

Lemma timers_none (cs : list Z) w :
  (∀ c, registered TimerCancel c w → c ∉ cs) → filter (λ t : Z * Z, t.2 ∉ cs) (w_timers w) = w_timers w.
Proof.
  intros H. apply filter_none. intros [d c] Hin. apply H. simpl. apply list_elem_of_fmap. by exists (d, c).
Qed.

Lemma not_elem_single (c x : Z) : c ∉ [x] ↔ c ≠ x.
Proof. by rewrite list_elem_of_singleton. Qed.

Lemma chan_unlink_single c hc : chan_unlink c hc = unlink_all [c] hc.
Proof.
  unfold chan_unlink, unlink_all. f_equal; apply list_filter_iff; intros x; by rewrite not_elem_single.
Qed.

Lemma fdinfo_at_set fd i ps fd' :
  fdinfo_at fd' (set_fdinfo fd i ps) = if decide (fd = fd') then i else fdinfo_at fd' ps.
Proof. unfold fdinfo_at, set_fdinfo. simpl. rewrite lookup_insert. by destruct (decide (fd = fd')). Qed.

Lemma add_change_clauses fd ps fd' :
  fi_in (fdinfo_at fd' (add_change fd ps)) = fi_in (fdinfo_at fd' ps) ∧
  fi_out (fdinfo_at fd' (add_change fd ps)) = fi_out (fdinfo_at fd' ps).
Proof.
  unfold add_change. destruct (_ =? 0); [|done].
  change (fdinfo_at fd' (mk_pollset (ps_fdinfos ?p) _ _ _)) with (fdinfo_at fd' p).
  rewrite !fdinfo_at_set. by destruct (decide (fd = fd')) as [->|].
Qed.

Lemma cls_after_refl cs m : cls_after cs m m.
Proof. intros c. destruct (m !! c) as [cl|]; [|done]. by exists cl. Qed.

Lemma fds_none c w :
  (∀ fd, ¬ registered (FdCancelIn fd) c w ∧ ¬ registered (FdCancelOut fd) c w) →
  fds_after [c] (w_pollset w) (w_pollset w).
Proof.
  intros Hne fd x. destruct (Hne fd) as [H1 H2]. simpl in *. rewrite not_elem_single.
  split; split; try tauto; intros Hx; (split; [done|]); intros ->; tauto.
Qed.

(** A clause is linked in one place only. *)
Lemma registered_one c cl w :
  kinds_ok w → w_cls w !! c = Some cl → ∀ k, registered k c w → k = cl_cancel cl.
Proof. intros Hk Hcl k (cl' & Hcl' & <-)%Hk. by simplify_eq. Qed.

Lemma fdcancelin_spec c fd w :
  (∀ k, registered k c w → k = FdCancelIn fd) → fi_in (fdinfo_at fd (w_pollset w)) = Some c →
  fds_after [c] (w_pollset w) (w_pollset (dill_fdcancelin fd w)).
Proof.
  intros Honly Hr fd' x. unfold dill_fdcancelin. cbn [w_pollset set_pollset].
  match goal with |- context [add_change fd ?p] => destruct (add_change_clauses fd p fd') as [-> ->] end.
  rewrite fdinfo_at_set, not_elem_single.
  assert (Hfd1 : ∀ fd1, fi_in (fdinfo_at fd1 (w_pollset w)) = Some c → fd1 = fd).
  { intros fd1 H1. apply (Honly (FdCancelIn fd1)) in H1. congruence. }
  assert (Hfd2 : ∀ fd1, fi_out (fdinfo_at fd1 (w_pollset w)) ≠ Some c).
  { intros fd1 H1. by apply (Honly (FdCancelOut fd1)) in H1. }
  destruct (decide (fd = fd')) as [<-|Hne]; simpl; naive_solver.
Qed.

Lemma fdcancelout_spec c fd w :
  (∀ k, registered k c w → k = FdCancelOut fd) → fi_out (fdinfo_at fd (w_pollset w)) = Some c →
  fds_after [c] (w_pollset w) (w_pollset (dill_fdcancelout fd w)).
Proof.
  intros Honly Hr fd' x. unfold dill_fdcancelout. cbn [w_pollset set_pollset].
  match goal with |- context [add_change fd ?p] => destruct (add_change_clauses fd p fd') as [-> ->] end.
  rewrite fdinfo_at_set, not_elem_single.
  assert (Hfd1 : ∀ fd1, fi_out (fdinfo_at fd1 (w_pollset w)) = Some c → fd1 = fd).
  { intros fd1 H1. apply (Honly (FdCancelOut fd1)) in H1. congruence. }
  assert (Hfd2 : ∀ fd1, fi_in (fdinfo_at fd1 (w_pollset w)) ≠ Some c).
  { intros fd1 H1. by apply (Honly (FdCancelIn fd1)) in H1. }
  destruct (decide (fd = fd')) as [<-|Hne]; simpl; naive_solver.
Qed.

Lemma timer_cancel_spec c cl w :
  w_cls w !! c = Some cl → registered TimerCancel c w →
  unlink_all [c] <$> w_chans w = w_chans w →
  ∃ m, dill_timer_cancel c w = Some (cancelled [c] m (w_pollset w) w) ∧ cls_after [c] (w_cls w) m.
Proof.
  intros Hcl Hr Hch. unfold dill_timer_cancel. rewrite bool_decide_true by exact Hr.
  rewrite Hcl. cbn [mbind option_bind].
  exists (<[c := mk_clause NULL (cl_id cl) (cl_cancel cl)]> (w_cls w)). split.
  - unfold cancelled. rewrite Hch. f_equal. unfold timer_erase. destruct w.
    unfold set_cls, set_timers, set_chans, set_pollset. simpl.
    f_equal. apply list_filter_iff. intros t. by rewrite not_elem_single.
  - intros x. rewrite lookup_insert. destruct (decide (c = x)) as [<-|Hne].
    + rewrite Hcl. eexists. split; [done|]. split; [done|]. split; [done|].
      rewrite not_elem_single. by intros.
    + destruct (w_cls w !! x) as [clx|]; [|done]. by exists clx.
Qed.

Lemma cancel_clause_spec c cl w :
  kinds_ok w → w_cls w !! c = Some cl →
  cl_cancel cl = NoCancel ∨ registered (cl_cancel cl) c w →
  ∃ m p, cancel_clause c w = Some (cancelled [c] m p w) ∧
    cls_after [c] (w_cls w) m ∧ fds_after [c] (w_pollset w) p.
Proof.
  intros Hk Hcl Hr. unfold cancel_clause. rewrite Hcl. cbn [mbind option_bind].
  pose proof (registered_one c cl w Hk Hcl) as Honly.
  assert (Hch : cl_cancel cl ≠ ChCancel → unlink_all [c] <$> w_chans w = w_chans w).
  { intros Hne. apply chans_none. intros x Hx ->%list_elem_of_singleton. by apply Honly in Hx. }
  assert (Hti : cl_cancel cl ≠ TimerCancel → filter (λ t : Z * Z, t.2 ∉ [c]) (w_timers w) = w_timers w).
  { intros Hne. apply timers_none. intros x Hx ->%list_elem_of_singleton. by apply Honly in Hx. }
  assert (Hfd : (∀ fd, cl_cancel cl ≠ FdCancelIn fd ∧ cl_cancel cl ≠ FdCancelOut fd) →
    fds_after [c] (w_pollset w) (w_pollset w)).
  { intros Hne. apply fds_none. intros fd. destruct (Hne fd) as [H1 H2].
    split; intros H3%Honly; congruence. }
  destruct (cl_cancel cl) as [| | |fd|fd]; (destruct Hr as [Hr|Hr]; [done || clear Hr|]); try done.
  - exists (w_cls w), (w_pollset w). unfold cancelled. rewrite Hch, Hti by done.
    split; [by destruct w|]. split; [apply cls_after_refl|by apply Hfd].
  - destruct (timer_cancel_spec c cl w Hcl Hr (Hch ltac:(done))) as (m & -> & Hm).
    exists m, (w_pollset w). split; [done|]. split; [done|by apply Hfd].
  - unfold dill_chcancel, chan_linked. rewrite bool_decide_true.
    2: { destruct Hr as (h & hc & Hh & Hin). by exists h, hc. }
    exists (w_cls w), (w_pollset w). unfold cancelled. rewrite Hti by done. split.
    { f_equal. destruct w. unfold set_cls, set_timers, set_chans, set_pollset. simpl. f_equal.
      apply map_fmap_ext. intros h hc _. apply chan_unlink_single. }
    split; [apply cls_after_refl|by apply Hfd].
  - exists (w_cls w), (w_pollset (dill_fdcancelin fd w)). unfold cancelled. rewrite Hch, Hti by done.
    split; [by destruct w|]. split; [apply cls_after_refl|by apply fdcancelin_spec].
  - exists (w_cls w), (w_pollset (dill_fdcancelout fd w)). unfold cancelled. rewrite Hch, Hti by done.
    split; [by destruct w|]. split; [apply cls_after_refl|by apply fdcancelout_spec].
Qed.

(** What is linked after cancelling. *)
Lemma registered_cancelled cs m p w :
  fds_after cs (w_pollset w) p →
  ∀ k c, registered k c (cancelled cs m p w) ↔ registered k c w ∧ c ∉ cs.
Proof.
  intros Hfd k c. destruct k as [| | |fd|fd]; simpl; try apply Hfd; [tauto| |].
  - rewrite !list_elem_of_fmap. split.
    + intros ([d x] & -> & [Hx Hin]%list_elem_of_filter). simpl in *. split; [|done]. by exists (d, x).
    + intros [([d x] & -> & Hin) Hx]. exists (d, x). split; [done|]. by apply list_elem_of_filter.
  - split.
    + intros (h & hc & Hh & Hc). rewrite lookup_fmap in Hh. apply fmap_Some in Hh as (hc0 & Hh & ->).
      simpl in Hc. rewrite !list_elem_of_filter in Hc. split; [|tauto]. exists h, hc0. tauto.
    + intros [(h & hc & Hh & Hc) Hx]. exists h, (unlink_all cs hc). rewrite lookup_fmap, Hh.
      split; [done|]. simpl. rewrite !list_elem_of_filter. tauto.
Qed.

Lemma cls_after_app cs1 cs2 m m1 m2 :
  cls_after cs1 m m1 → cls_after cs2 m1 m2 → cls_after (cs1 ++ cs2) m m2.
Proof.
  intros H1 H2 c. specialize (H1 c). specialize (H2 c). destruct (m !! c) as [cl|].
  - destruct H1 as (cl1 & E1 & Hid1 & Hk1 & Hs1). rewrite E1 in H2.
    destruct H2 as (cl2 & E2 & Hid2 & Hk2 & Hs2). exists cl2. split; [done|].
    split; [congruence|]. split; [congruence|]. rewrite elem_of_app. intros Hn.
    rewrite Hs2, Hs1 by tauto. done.
  - by rewrite H1 in H2.
Qed.

Lemma cancelled_app cs1 cs2 m1 p1 m2 p2 w :
  cancelled cs2 m2 p2 (cancelled cs1 m1 p1 w) = cancelled (cs1 ++ cs2) m2 p2 w.
Proof.
  assert (Hf : ∀ l : list Z, filter (λ c, c ∉ cs2) (filter (λ c, c ∉ cs1) l) = filter (λ c, c ∉ cs1 ++ cs2) l).
  { intros l. rewrite filter_filter. apply list_filter_iff. intros x. rewrite elem_of_app. tauto. }
  change (cancelled cs2 m2 p2 (cancelled cs1 m1 p1 w)) with
    (set_pollset p2 (set_cls m2 (set_chans (unlink_all cs2 <$> (unlink_all cs1 <$> w_chans w))
      (set_timers (filter (λ t, t.2 ∉ cs2) (filter (λ t, t.2 ∉ cs1) (w_timers w))) w)))).
  unfold cancelled. do 3 f_equal.
  - rewrite <- map_fmap_compose. apply map_fmap_ext. intros h hc _. unfold unlink_all. simpl.
    by rewrite !Hf.
  - f_equal. rewrite filter_filter. apply list_filter_iff. intros x. rewrite elem_of_app. tauto.
Qed.

(** The clauses of a coroutine can be canceled: each is linked, or of the kind that
    is nowhere linked. *)
Definition cancelable (cs : list Z) (w : world) : Prop :=
  ∀ c, c ∈ cs → ∃ cl, w_cls w !! c = Some cl ∧ (cl_cancel cl = NoCancel ∨ registered (cl_cancel cl) c w).

(** Cancelling the first clause leaves the others so. *)
Lemma cancelled_rest c cs m p w :
  kinds_ok w → c ∉ cs → cancelable cs w → cls_after [c] (w_cls w) m → fds_after [c] (w_pollset w) p →
  kinds_ok (cancelled [c] m p w) ∧ cancelable cs (cancelled [c] m p w).
Proof.
  intros Hk Hc Hcs Hm Hp. pose proof (registered_cancelled [c] m p w Hp) as HR. split.
  - intros k x (Hx & _)%HR. destruct (Hk k x Hx) as (clx & Hclx & Hkx). specialize (Hm x).
    rewrite Hclx in Hm. destruct Hm as (cl' & E' & _ & Hk' & _). exists cl'. split; [done|congruence].
  - intros x Hx. destruct (Hcs x Hx) as (clx & Hclx & Hrx). specialize (Hm x).
    rewrite Hclx in Hm. destruct Hm as (cl' & E' & _ & Hk' & _). exists cl'. split; [done|].
    rewrite Hk'. destruct Hrx as [?|Hrx]; [by left|right]. apply HR. split; [done|].
    rewrite not_elem_single. by intros ->.
Qed.

Lemma cancel_clauses_spec cs : ∀ w,
  kinds_ok w → NoDup cs → cancelable cs w →
  ∃ m p, cancel_clauses cs w = Some (cancelled cs m p w) ∧
    cls_after cs (w_cls w) m ∧ fds_after cs (w_pollset w) p.
Proof.
  induction cs as [|c cs IH]; intros w Hk Hnd Hcs.
  - exists (w_cls w), (w_pollset w). cbn [cancel_clauses]. unfold cancelled.
    rewrite chans_none, timers_none by (intros ? _; apply not_elem_of_nil).
    split; [by destruct w|]. split; [apply cls_after_refl|]. intros fd c.
    assert (H : c ∉ []) by apply not_elem_of_nil. tauto.
  - apply NoDup_cons in Hnd as [Hc Hnd]. destruct (Hcs c ltac:(left)) as (cl & Hcl & Hr).
    destruct (cancel_clause_spec c cl w Hk Hcl Hr) as (m1 & p1 & E1 & Hm1 & Hp1).
    cbn [cancel_clauses]. rewrite E1. cbn [mbind option_bind].
    destruct (cancelled_rest c cs m1 p1 w Hk Hc ltac:(intros x Hx; apply Hcs; by right) Hm1 Hp1) as [Hk1 Hcs1].
    destruct (IH _ Hk1 Hnd Hcs1) as (m2 & p2 & E2 & Hm2 & Hp2).
    exists m2, p2. rewrite E2, cancelled_app. split; [done|].
    split; [exact (cls_after_app [c] cs _ m1 m2 Hm1 Hm2)|].
    intros fd x. destruct (Hp1 fd x) as [A1 A2]. destruct (Hp2 fd x) as [B1 B2].
    cbn [w_pollset cancelled set_pollset] in *. rewrite B1, B2, A1, A2.
    rewrite !elem_of_cons, elem_of_nil. tauto.
Qed.

(** * Waking a coroutine *)

Definition resumed (id : Z) (err : errno_t) (x : dill_cr) : dill_cr :=
  mk_cr true id err (clauses x) (cr_bundle x) (cr_no_blocking1 x) (cr_no_blocking2 x) (done x)
    (cr_mem x) (closer x).

(** The world after coroutine [i], whose state was [x], has been made ready. *)
Definition woken (i : Z) (x : dill_cr) (id : Z) (err : errno_t) (m : gmap Z dill_clause)
    (p : dill_ctx_pollset) (w : world) : world :=
  set_ready (w_ready w ++ [i]) (set_crs (<[i := resumed id err x]> (w_crs w)) (cancelled (clauses x) m p w)).

Lemma wf_kinds w : wf w → kinds_ok w.
Proof. intros H k c Hr. destruct (wf_registered _ H k c Hr) as (cl & x & ? & ? & _). by exists cl. Qed.

Lemma wf_not_ready w i x : wf w → w_crs w !! i = Some x → ready_linked x = false → i ∉ w_ready w.
Proof. intros H Hi Hx Hin. apply (wf_ready _ H) in Hin as (y & Hy & Hr). congruence. Qed.

Lemma NoDup_snoc {A} (l : list A) x : NoDup l → x ∉ l → NoDup (l ++ [x]).
Proof.
  intros Hl Hx. apply NoDup_app. split; [done|]. split; [|apply NoDup_singleton].
  intros y Hy ->%list_elem_of_singleton. done.
Qed.

Lemma NoDup_fmap_filter {A B} (f : A → B) (P : A → Prop) `{∀ x, Decision (P x)} (l : list A) :
  NoDup (f <$> l) → NoDup (f <$> filter P l).
Proof.
  induction l as [|x l IH]; intros Hl; [done|]. apply NoDup_cons in Hl as [Hx Hl].
  destruct (decide (P x)).
  - rewrite filter_cons_True by done. apply NoDup_cons. split; [|by apply IH].
    intros Hin. apply Hx. apply list_elem_of_fmap in Hin as (y & E & Hy).
    apply list_elem_of_filter in Hy as [_ Hy]. apply list_elem_of_fmap. by exists y.
  - rewrite filter_cons_False by done. by apply IH.
Qed.

Lemma chan_ok_unlink cs h (chans : gmap Z dill_halfchan) :
  chan_ok h chans → chan_ok h (unlink_all cs <$> chans).
Proof.
  intros (Hn & hc & hc' & Hh & Hh' & Hi). split; [done|].
  exists (unlink_all cs hc), (unlink_all cs hc'). rewrite !lookup_fmap, Hh.
  split; [done|]. change (dill_halfchan_other h (unlink_all cs hc)) with (dill_halfchan_other h hc).
  by rewrite Hh'.
Qed.

Lemma wf_woken w i x id err m p :
  wf w → w_crs w !! i = Some x → ready_linked x = false →
  cls_after (clauses x) (w_cls w) m → fds_after (clauses x) (w_pollset w) p →
  wf (woken i x id err m p w).
Proof.
  intros H Hi Hx Hm Hp. pose proof (registered_cancelled (clauses x) m p w Hp) as HR.
  assert (HR' : ∀ k c, registered k c (woken i x id err m p w) ↔ registered k c w ∧ c ∉ clauses x).
  { intros k c. rewrite <- HR. by destruct k. }
  assert (Hcls : ∀ c cl, w_cls w !! c = Some cl → c ∉ clauses x → m !! c = Some cl).
  { intros c cl Hc Hn. specialize (Hm c). rewrite Hc in Hm. destruct Hm as (cl' & -> & _ & _ & ->); done. }
  constructor; cbn [woken set_ready set_crs cancelled w_r w_crs w_ready w_cls w_timers w_next_id
    set_pollset set_cls set_chans set_timers].
  - apply NoDup_snoc; [apply (wf_ready_nodup _ H)|by eapply wf_not_ready].
  - intros c. rewrite elem_of_app, list_elem_of_singleton. destruct (decide (i = c)) as [<-|Hne].
    + rewrite lookup_insert_eq. split; [intros _; by eexists|tauto].
    + rewrite lookup_insert_ne by done. rewrite (wf_ready _ H c). intuition congruence.
  - intros k c [Hreg Hn]%HR'. destruct (wf_registered _ H k c Hreg) as (cl & y & Hcl & Hk & Hy & Hl & Hc).
    exists cl, y. split; [by apply Hcls|]. split; [done|]. split; [|done].
    rewrite lookup_insert_ne; [done|]. intros ->. congruence.
  - intros j y c Hy Hl Hc. destruct (decide (i = j)) as [<-|Hne].
    { rewrite lookup_insert_eq in Hy. injection Hy as <-. done. }
    rewrite lookup_insert_ne in Hy by done.
    destruct (wf_clauses _ H j y c Hy Hl Hc) as (cl & Hcl & Hcr & Hk).
    assert (Hn : c ∉ clauses x).
    { intros Hin. destruct (wf_clauses _ H i x c Hi Hx Hin) as (cl' & Hcl' & Hcr' & _). congruence. }
    exists cl. split; [by apply Hcls|]. split; [done|]. destruct Hk as [?|Hk]; [by left|right].
    by apply HR'.
  - intros j y Hy. destruct (decide (i = j)) as [<-|Hne].
    + rewrite lookup_insert_eq in Hy. injection Hy as <-. by apply (wf_clauses_nodup _ H i x).
    + rewrite lookup_insert_ne in Hy by done. by apply (wf_clauses_nodup _ H j y).
  - intros c Hc. apply (wf_fresh _ H). specialize (Hm c). destruct (w_cls w !! c); [done|].
    rewrite Hm in Hc. by destruct Hc.
  - apply NoDup_fmap_filter, (wf_timers _ H).
  - destruct (wf_handles _ H) as (t & Ht & Hc). exists t. split; [done|].
    intros k h Hk. by eapply chan_ok_unlink, Hc.
  - intros c [Hreg Hn]%HR'. apply (wf_buffers _ H c Hreg).
Qed.

Lemma wf_cancelable w i x :
  wf w → w_crs w !! i = Some x → ready_linked x = false → cancelable (clauses x) w.
Proof.
  intros H Hi Hx c Hc. destruct (wf_clauses _ H i x c Hi Hx Hc) as (cl & Hcl & _ & Hk). by exists cl.
Qed.

Lemma docancel_spec w i x id err :
  wf w → w_crs w !! i = Some x → ready_linked x = false →
  ∃ m p, dill_docancel i id err w = Some (woken i x id err m p w) ∧
    cls_after (clauses x) (w_cls w) m ∧ fds_after (clauses x) (w_pollset w) p ∧
    wf (woken i x id err m p w).
Proof.
  intros H Hi Hx. unfold dill_docancel. rewrite Hi. cbn [mbind option_bind]. rewrite Hx.
  destruct (cancel_clauses_spec (clauses x) w) as (m & p & E & Hm & Hp).
  - by apply wf_kinds.
  - by apply (wf_clauses_nodup _ H i).
  - by eapply wf_cancelable.
  - exists m, p. rewrite E. cbn [mbind option_bind]. split; [|split; [done|split; [done|by apply wf_woken]]].
    unfold dill_resume, upd_cr. change (w_crs (cancelled (clauses x) m p w)) with (w_crs w).
    rewrite Hi. done.
Qed.

Lemma running_woken w i x id err m p :
  running w → i ≠ w_r w → wf (woken i x id err m p w) → running (woken i x id err m p w).
Proof.
  intros [_ (y & Hy & Hl & Hc)] Hr H. split; [done|]. exists y. simpl. by rewrite lookup_insert_ne.
Qed.

(** A coroutine that waits for nothing puts itself in the ready queue. *)
Lemma wf_woken_self w x id err :
  wf w → w_crs w !! w_r w = Some x → ready_linked x = false → clauses x = [] →
  wf (set_ready (w_ready w ++ [w_r w]) (set_crs (<[w_r w := resumed id err x]> (w_crs w)) w)).
Proof.
  intros H Hx Hl Hc.
  pose proof (wf_woken w (w_r w) x id err (w_cls w) (w_pollset w) H Hx Hl (cls_after_refl _ _)) as Hwf.
  assert (Hw : woken (w_r w) x id err (w_cls w) (w_pollset w) w =
    set_ready (w_ready w ++ [w_r w]) (set_crs (<[w_r w := resumed id err x]> (w_crs w)) w)).
  { unfold woken, cancelled. rewrite Hc, chans_none, timers_none by (intros ? _; apply not_elem_of_nil).
    by destruct w. }
  rewrite <- Hw. apply Hwf. rewrite Hc. intros fd c.
  assert (c ∉ []) by apply not_elem_of_nil. tauto.
Qed.

(** A linked clause may be triggered: its coroutine is suspended, and not the
    running one. *)
Lemma registered_owner w k c :
  running w → registered k c w →
  ∃ cl x, w_cls w !! c = Some cl ∧ cl_cancel cl = k ∧ w_crs w !! cl_cr cl = Some x ∧
    ready_linked x = false ∧ c ∈ clauses x ∧ cl_cr cl ≠ w_r w.
Proof.
  intros [H (y & Hy & Hl & Hc)] Hr. destruct (wf_registered _ H k c Hr) as (cl & x & Hcl & Hk & Hx & Hxl & Hin).
  exists cl, x. repeat (split; [done|]). intros E. rewrite E, Hy in Hx. injection Hx as <-.
  rewrite Hc in Hin. by apply elem_of_nil in Hin.
Qed.

Lemma trigger_spec w k c err :
  running w → registered k c w →
  ∃ cl x m p, w_cls w !! c = Some cl ∧ w_crs w !! cl_cr cl = Some x ∧ c ∈ clauses x ∧
    ready_linked x = false ∧ cl_cr cl ≠ w_r w ∧
    dill_trigger c err w = Some (woken (cl_cr cl) x (cl_id cl) err m p w) ∧
    fds_after (clauses x) (w_pollset w) p ∧
    running (woken (cl_cr cl) x (cl_id cl) err m p w).
Proof.
  intros Hw Hr. destruct (registered_owner w k c Hw Hr) as (cl & x & Hcl & _ & Hx & Hxl & Hin & Hne).
  pose proof Hw as [H _].
  destruct (docancel_spec w (cl_cr cl) x (cl_id cl) err H Hx Hxl) as (m & p & E & _ & Hp & Hwf).
  exists cl, x, m, p. repeat (split; [done|]). split.
  - unfold dill_trigger. by rewrite Hcl.
  - split; [done|]. by apply running_woken.
Qed.

(** * Composing computations *)

Lemma M_bind_done {A B} (m : M A) (k : A → M B) w a w' :
  m w = ODone a w' → (m ≫= k) w = k a w'.
Proof. intros E. unfold mbind, M_bind. by rewrite E. Qed.

Lemma lift_done f w w' : f w = Some w' → lift f w = ODone tt w'.
Proof. intros E. unfold lift. by rewrite E. Qed.

Lemma segment_refl w : segment w w.
Proof. split; [done| |done]. intros i x _ Hx. by exists x. Qed.

Lemma segment_trans w1 w2 w3 : segment w1 w2 → segment w2 w3 → segment w1 w3.
Proof.
  intros [R1 S1 D1] [R2 S2 D2]. split; [congruence| |congruence]. intros i x Hi Hx.
  destruct (S1 i x Hi Hx) as (x' & Hx' & E). destruct (S2 i x') as (x'' & Hx'' & E'); [congruence|done|].
  exists x''. split; [done|congruence].
Qed.

(** The usual case: only the running coroutine's record changes. *)
Lemma segment_insert w w' x y :
  w_r w' = w_r w → w_crs w !! w_r w = Some y → w_crs w' = <[w_r w := x]> (w_crs w) → segment w w'.
Proof.
  intros Hr Hy Hc. split; [done| |].
  - intros i z Hi Hz. exists z. by rewrite Hc, lookup_insert_ne.
  - rewrite Hc. apply dom_insert_lookup_L. by exists y.
Qed.

Lemma segment_same w w' : w_r w' = w_r w → w_crs w' = w_crs w → segment w w'.
Proof. intros Hr Hc. split; [done| |by rewrite Hc]. intros i x _ Hx. exists x. by rewrite Hc. Qed.

Lemma safe_start {A} (P : A → world → Prop) w1 w2 o : segment w1 w2 → safe P w2 o → safe P w1 o.
Proof.
  intros Hseg Hs. pose proof (seg_r _ _ Hseg) as E.
  inversion Hs as [? a w Hw Hs' Ha|? w k Hw Hs' Hk|? w3 w fn k Hs' Hf Hw Hk]; subst.
  - constructor; [done| |done]. by eapply segment_trans.
  - constructor; [done|by eapply segment_trans|]. intros w' Hw' Hr. apply Hk; [done|congruence].
  - rewrite E in *. eapply safe_go; [|exact Hf|done|exact Hk]. by eapply segment_trans.
Qed.

Lemma safe_bind {A B} (P : A → world → Prop) (Q : B → world → Prop) (k : A → M B) w0 o :
  safe P w0 o → (∀ a w, running w → P a w → safe Q w (k a w)) → safe Q w0 (obind_ k o).
Proof.
  intros Hs Hk. induction Hs as [w0 a w Hw Hs Ha|w0 w k' Hw Hs _ IH|w0 w1 w fn k' Hs Hf Hw _ IH]; simpl.
  - eapply safe_start; [exact Hs|]. by apply Hk.
  - by constructor.
  - by eapply safe_go.
Qed.

Lemma safe_mono {A} (P Q : A → world → Prop) w0 o :
  (∀ a w, P a w → Q a w) → safe P w0 o → safe Q w0 o.
Proof.
  intros HPQ Hs. induction Hs as [w0 a w Hw Hs Ha|w0 w k' Hw Hs _ IH|w0 w1 w fn k' Hs Hf Hw _ IH].
  - constructor; auto.
  - by constructor.
  - by eapply safe_go.
Qed.

(** ** The fields the invariant does not look at *)

Lemma wf_set_errno e w : wf w → wf (set_errno e w).
Proof. by intros []. Qed.

Lemma running_set_errno e w : running w → running (set_errno e w).
Proof. intros [H Hx]. split; [by apply wf_set_errno|done]. Qed.

Lemma wf_set_handles c w :
  handles_ok c (w_chans w) → wf w → wf (set_handles c w).
Proof. intros Hc []. by constructor. Qed.

Lemma running_set_handles c w :
  handles_ok c (w_chans w) → running w → running (set_handles c w).
Proof. intros Hc [H Hx]. split; [by apply wf_set_handles|done]. Qed.

(** [fresh_addr] *)
Lemma running_fresh w : running w → running (set_next_id (w_next_id w + 1) w).
Proof.
  intros [[] Hx]. split; [|done]. constructor; try done.
  intros c Hc. cbn. specialize (wf_fresh0 c Hc). lia.
Qed.

(** * The handle operations on a world *)

Lemma canblock_spec w x :
  w_crs w !! w_r w = Some x →
  dill_canblock w = if cr_no_blocking1 x || cr_no_blocking2 x then ODone (-1) (set_errno ECANCELED w)
                    else ODone 0 w.
Proof. intros Hx. unfold dill_canblock. by rewrite Hx. Qed.

Section Hquery.
Context (close : vobj → M unit).
Local Instance env : HandleEnv vobj M := runtime_env close.

#[export, refine] Instance M_run : HandleRun (M := M) obj_query world := {|
  hrun := λ A m w a w', m w = ODone a w';
  hr_ctx := w_handles;
  hr_set := set_handles;
  hr_err := set_errno;
|}.
Proof.
  - done.
  - intros A B m k w a w1 b w2 E1 E2. by erewrite M_bind_done by exact E1.
  - done.
  - done.
  - done.
  - intros v ty w. cbv [h_query env runtime_env]. destruct (Z.eqb_spec (obj_query v ty) NULL) as [E|E]; [by rewrite E|done].
  - done.
  - done.
Defined.

Lemma hquery_run w t h ty :
  represents obj_query (w_handles w) t →
  ∃ c e, dill_hquery h ty w =
      ODone (match live t !! h with Some v => obj_query v ty | None => NULL end)
        (set_errno e (set_handles c w)) ∧
    represents obj_query c t.
Proof.
  intros R. pose proof (run_hquery (St := world) w t h ty R) as H. cbn [hrun hr_err hr_set M_run] in H.
  assert (Hw : ∀ e, set_errno e w = set_errno e (set_handles (w_handles w) w)) by (by destruct w).
  destruct (live t !! h) as [v|].
  - destruct (Z.eqb_spec (obj_query v ty) NULL) as [E|E].
    + exists (w_handles w), ENOTSUP. by rewrite E, <- Hw.
    + destruct H as (c & [H|H] & R').
      * exists (w_handles w), (w_errno w). rewrite <- Hw. split; [|done]. rewrite H. by destruct w.
      * exists c, (w_errno w). split; [|done]. rewrite H. by destruct w.
  - exists (w_handles w), EBADF. by rewrite <- Hw.
Qed.
End Hquery.

(** * Adding a clause *)

Definition push_clause (c : Z) (x : dill_cr) : dill_cr :=
  mk_cr (ready_linked x) (cr_id x) (cr_err x) (c :: clauses x) (cr_bundle x) (cr_no_blocking1 x)
    (cr_no_blocking2 x) (done x) (cr_mem x) (closer x).

(** [w1] is [w] with the clause [c] linked where the cancel function [k] looks. *)
Record linked_in (k : cancel_fn) (c : Z) (w w1 : world) : Prop := {
  li_r : w_r w1 = w_r w;
  li_crs : w_crs w1 = w_crs w;
  li_cls : w_cls w1 = w_cls w;
  li_ready : w_ready w1 = w_ready w;
  li_next : w_next_id w1 = w_next_id w;
  li_registered : ∀ k' c', registered k' c' w1 ↔ registered k' c' w ∨ (k ≠ NoCancel ∧ k' = k ∧ c' = c);
  li_timers : NoDup (w_timers w1).*2;
  li_handles : handles_ok (w_handles w1) (w_chans w1);
  li_buffers : ∀ c', registered ChCancel c' w1 →
    ∃ cc, w_chcls w1 !! c' = Some cc ∧ buf_ok (cc_val cc) (cc_len cc) (w_mem w1);
}.

Definition waited (c id : Z) (k : cancel_fn) (x : dill_cr) (w : world) : world :=
  set_crs (<[w_r w := push_clause c x]> (w_crs w)) (set_cls (<[c := mk_clause (w_r w) id k]> (w_cls w)) w).

Lemma waitfor_spec w w1 x c id k :
  wf w → linked_in k c w w1 → w_cls w !! c = None → c < w_next_id w →
  w_crs w !! w_r w = Some x → ready_linked x = false →
  dill_waitfor c id k w1 = Some (waited c id k x w1) ∧ wf (waited c id k x w1).
Proof.
  intros H L Hc Hfr Hx Hxl. pose proof (li_crs _ _ _ _ L) as Ecrs. pose proof (li_cls _ _ _ _ L) as Ecls.
  pose proof (li_r _ _ _ _ L) as Er. split.
  { unfold dill_waitfor, upd_cr. cbn [w_crs set_cls w_r]. rewrite Ecrs, Er, Hx. cbn [mbind option_bind].
    unfold waited. by rewrite Ecrs, Er. }
  assert (Hcn : ∀ i y, w_crs w !! i = Some y → ready_linked y = false → c ∉ clauses y).
  { intros i y Hy Hyl Hin. destruct (wf_clauses _ H i y c Hy Hyl Hin) as (cl & Hcl & _). congruence. }
  assert (HR : ∀ k' c', registered k' c' (waited c id k x w1) ↔
    registered k' c' w ∨ (k ≠ NoCancel ∧ k' = k ∧ c' = c)).
  { intros k' c'. rewrite <- (li_registered _ _ _ _ L). by destruct k'. }
  constructor; cbn [waited set_crs set_cls w_r w_crs w_cls w_ready w_timers w_next_id w_handles w_chans
    w_chcls w_mem]; rewrite ?Ecrs, ?Ecls, ?Er.
  - rewrite (li_ready _ _ _ _ L). apply (wf_ready_nodup _ H).
  - intros i. rewrite (li_ready _ _ _ _ L), (wf_ready _ H i). destruct (decide (w_r w = i)) as [<-|Hne].
    + rewrite lookup_insert_eq, Hx. split; intros (y & [= <-] & Hy); simpl in *; congruence.
    + by rewrite lookup_insert_ne.
  - intros k' c' Hreg%HR. destruct Hreg as [Hreg|(Hk & -> & ->)].
    + destruct (wf_registered _ H k' c' Hreg) as (cl & y & Hcl & Hk & Hy & Hyl & Hin).
      exists cl. assert (c ≠ c') by (intros ->; congruence). rewrite lookup_insert_ne by done.
      destruct (decide (w_r w = cl_cr cl)) as [E|Hne].
      * exists (push_clause c x). rewrite <- E, lookup_insert_eq. rewrite <- E, Hx in Hy. injection Hy as <-.
        repeat (split; [done|]). by right.
      * exists y. by rewrite lookup_insert_ne.
    + exists (mk_clause (w_r w) id k), (push_clause c x). rewrite !lookup_insert_eq. cbn [cl_cancel cl_cr].
      repeat (split; [done|]). left.
  - intros i y c' Hy Hyl Hin. destruct (decide (w_r w = i)) as [<-|Hne].
    + rewrite lookup_insert_eq in Hy. injection Hy as <-. apply elem_of_cons in Hin as [->|Hin].
      * exists (mk_clause (w_r w) id k). rewrite lookup_insert_eq. repeat (split; [done|]).
        simpl. destruct (decide (k = NoCancel)) as [|Hk]; [by left|right]. apply HR. by right.
      * destruct (wf_clauses _ H _ x c' Hx Hxl Hin) as (cl & Hcl & Hcr & Hk). exists cl.
        assert (c ≠ c') by (intros ->; congruence). rewrite lookup_insert_ne by done.
        repeat (split; [done|]). destruct Hk as [?|Hk]; [by left|right]. apply HR. by left.
    + rewrite lookup_insert_ne in Hy by done.
      destruct (wf_clauses _ H i y c' Hy Hyl Hin) as (cl & Hcl & Hcr & Hk). exists cl.
      assert (c ≠ c') by (intros ->; congruence). rewrite lookup_insert_ne by done.
      repeat (split; [done|]). destruct Hk as [?|Hk]; [by left|right]. apply HR. by left.
  - intros i y Hy. destruct (decide (w_r w = i)) as [<-|Hne].
    + rewrite lookup_insert_eq in Hy. injection Hy as <-. apply NoDup_cons. split; [by apply (Hcn (w_r w) x)|].
      by apply (wf_clauses_nodup _ H (w_r w)).
    + rewrite lookup_insert_ne in Hy by done. by apply (wf_clauses_nodup _ H i).
  - rewrite (li_next _ _ _ _ L). intros c' Hc'. destruct (decide (c = c')) as [<-|Hne]; [done|].
    rewrite lookup_insert_ne in Hc' by done. by apply (wf_fresh _ H).
  - apply (li_timers _ _ _ _ L).
  - apply (li_handles _ _ _ _ L).
  - intros c' Hreg%HR. apply (li_buffers _ _ _ _ L). by apply (li_registered _ _ _ _ L).
Qed.

Lemma timer_insert_in d c ts : ∀ x, x ∈ timer_insert d c ts ↔ x = (d, c) ∨ x ∈ ts.
Proof.
  intros x. induction ts as [|[d' c'] ts IH]; simpl.
  - rewrite list_elem_of_singleton, elem_of_nil. tauto.
  - destruct (d <? d'); rewrite !elem_of_cons; [tauto|]. rewrite IH. tauto.
Qed.

Lemma timer_insert_nodup d c ts : NoDup ts.*2 → c ∉ ts.*2 → NoDup (timer_insert d c ts).*2.
Proof.
  induction ts as [|[d' c'] ts IH]; intros Hnd Hc; simpl.
  - apply NoDup_singleton.
  - destruct (d <? d'); simpl; [by apply NoDup_cons|].
    apply NoDup_cons in Hnd as [Hn Hnd]. apply not_elem_of_cons in Hc as [Hne Hc].
    apply NoDup_cons. split; [|by apply IH].
    intros ([d1 c1] & E & Hin)%list_elem_of_fmap. simpl in E. subst c1.
    apply timer_insert_in in Hin as [[= -> ->]|Hin]; [done|]. apply Hn.
    apply list_elem_of_fmap. by exists (d1, c').
Qed.

Lemma timer_linked w d c :
  wf w → w_cls w !! c = None →
  linked_in TimerCancel c w (set_timers (timer_insert d c (w_timers w)) w).
Proof.
  intros H Hc. assert (Hn : c ∉ (w_timers w).*2).
  { intros Hin. destruct (wf_registered _ H TimerCancel c Hin) as (cl & _ & Hcl & _). congruence. }
  constructor; try done.
  - intros k' c'. destruct k'; simpl; try (split; [by left|intros [?|(_ & ? & _)]; done]).
    rewrite !list_elem_of_fmap. split.
    + intros ([d1 c1] & -> & [[= -> ->]|Hin]%timer_insert_in); [by right|left]. by exists (d1, c1).
    + intros [([d1 c1] & -> & Hin)|(_ & _ & ->)].
      * exists (d1, c1). split; [done|]. apply timer_insert_in. by right.
      * exists (d, c). split; [done|]. apply timer_insert_in. by left.
  - apply timer_insert_nodup; [apply (wf_timers _ H)|done].
  - apply (wf_handles _ H).
  - apply (wf_buffers _ H).
Qed.

Lemma timer_spec w x c id deadline :
  wf w → w_cls w !! c = None → c < w_next_id w → w_crs w !! w_r w = Some x → ready_linked x = false →
  ∃ w', dill_timer c id deadline w = Some w' ∧ wf w' ∧ segment w w'.
Proof.
  intros H Hc Hfr Hx Hxl. unfold dill_timer. destruct (deadline <? 0).
  { exists w. split; [done|]. split; [done|apply segment_refl]. }
  destruct (waitfor_spec w _ x c id TimerCancel H (timer_linked w deadline c H Hc) Hc Hfr Hx Hxl) as [E H'].
  eexists. split; [exact E|]. split; [exact H'|]. by eapply segment_insert.
Qed.

(** ** Resumption *)

Lemma resumed_running w : resumable w → ∃ id w', dill_resumed w = ODone id w' ∧ running w' ∧ segment w w'.
Proof.
  intros (x & Hx & H). unfold dill_resumed. rewrite Hx. eexists _, _. split; [done|].
  split; [by apply (running_set_errno _ _ H)|]. by eapply segment_insert.
Qed.

Lemma wait_safe w0 w : wf w → segment w0 w → safe (λ _ _, True) w0 (dill_wait w).
Proof.
  intros H Hs. constructor; [done|done|]. intros w' Hw' Hr.
  destruct (resumed_running w' Hw') as (id & w2 & -> & Hw2 & Hs2). by constructor.
Qed.

(** * Steps of the running coroutine *)

(** A step of the library that does not suspend: it keeps the invariant, the other
    coroutines' clauses, the shape of the channels and the extent of memory. *)
Record step_ok (w w' : world) : Prop := {
  st_running : running w';
  st_segment : segment w w';
  st_chans : ∀ h hc, w_chans w !! h = Some hc →
    ∃ hc', w_chans w' !! h = Some hc' ∧ hc_index hc' = hc_index hc;
  st_mem : dom (w_mem w') = dom (w_mem w);
  st_handles : ∀ t, represents obj_query (w_handles w) t → represents obj_query (w_handles w') t;
}.

Lemma step_refl w : running w → step_ok w w.
Proof. intros H. constructor; try done; [apply segment_refl|]. intros h hc Hh. by exists hc. Qed.

Lemma step_trans w1 w2 w3 : step_ok w1 w2 → step_ok w2 w3 → step_ok w1 w3.
Proof.
  intros [R1 S1 C1 M1 H1] [R2 S2 C2 M2 H2].
  constructor; [done|by eapply segment_trans| |congruence|by auto].
  intros h hc Hh. destruct (C1 h hc Hh) as (hc' & Hh' & E). destruct (C2 h hc' Hh') as (hc'' & Hh'' & E').
  exists hc''. split; [done|congruence].
Qed.

Lemma buf_ok_step v n w w' : step_ok w w' → buf_ok v n (w_mem w) → buf_ok v n (w_mem w').
Proof.
  intros [_ _ _ Hd _] [Hn Hb]. split; [done|]. intros i Hi. apply elem_of_dom. rewrite Hd.
  apply elem_of_dom. by apply Hb.
Qed.

Lemma chan_ok_step h w w' : step_ok w w' → chan_ok h (w_chans w) → chan_ok h (w_chans w').
Proof.
  intros [_ _ Hc _ _] (Hn & hc & hc' & Hh & Hh' & Hi). split; [done|].
  destruct (Hc h hc Hh) as (hc1 & H1 & E1). destruct (Hc _ hc' Hh') as (hc2 & H2 & E2).
  exists hc1, hc2. split; [done|]. unfold dill_halfchan_other in *. rewrite E1.
  split; [done|congruence].
Qed.

Lemma step_errno e w : running w → step_ok w (set_errno e w).
Proof.
  intros H. constructor; [by apply running_set_errno| |intros h hc Hh; by exists hc|done|done].
  by apply segment_same.
Qed.

Lemma step_handles c w :
  (∀ t, represents obj_query (w_handles w) t → represents obj_query c t) → running w →
  step_ok w (set_handles c w).
Proof.
  intros Hc H. constructor; [| |intros h hc Hh; by exists hc|done|done].
  - apply running_set_handles; [|done]. destruct H as [H _].
    destruct (wf_handles _ H) as (t & R & Ht). exists t. auto.
  - by apply segment_same.
Qed.

Lemma step_fresh w : running w → step_ok w (set_next_id (w_next_id w + 1) w).
Proof.
  intros H. constructor; [by apply running_fresh| |intros h hc Hh; by exists hc|done|done].
  by apply segment_same.
Qed.

Lemma step_woken w i x id err m p :
  running w → w_crs w !! i = Some x → i ≠ w_r w → running (woken i x id err m p w) →
  step_ok w (woken i x id err m p w).
Proof.
  intros H Hx Hi Hr. constructor; [done| | |done|done].
  - split; [done| |].
    + intros j y Hj Hy. cbn. destruct (decide (i = j)) as [<-|Hne].
      * exists (resumed id err x). rewrite lookup_insert_eq. split; [done|]. by simplify_eq.
      * exists y. by rewrite lookup_insert_ne.
    + cbn. apply dom_insert_lookup_L. by exists x.
  - intros h hc Hh. exists (unlink_all (clauses x) hc). cbn. by rewrite lookup_fmap, Hh.
Qed.

Lemma trigger_step w k c err :
  running w → registered k c w →
  ∃ cl x m p, w_cls w !! c = Some cl ∧ w_crs w !! cl_cr cl = Some x ∧ c ∈ clauses x ∧
    dill_trigger c err w = Some (woken (cl_cr cl) x (cl_id cl) err m p w) ∧
    step_ok w (woken (cl_cr cl) x (cl_id cl) err m p w).
Proof.
  intros H Hr. destruct (trigger_spec w k c err H Hr) as (cl & x & m & p & Hcl & Hx & Hin & Hl & Hne & E & _ & Hw').
  exists cl, x, m, p. repeat (split; [done|]). by apply step_woken.
Qed.

(** Looking up a channel by its handle. *)
Definition chan_of (t : table vobj) (h : Z) : ptr :=
  match live t !! h with Some v => obj_query v dill_halfchan_type | None => NULL end.

Lemma hquery_keeps close w t h ty :
  represents obj_query (w_handles w) t →
  ∃ c e, @dill_hquery vobj M _ _ (runtime_env close) h ty w =
      ODone (match live t !! h with Some v => obj_query v ty | None => NULL end)
        (set_errno e (set_handles c w)) ∧
    ∀ t', represents obj_query (w_handles w) t' → represents obj_query c t'.
Proof.
  intros R. destruct (hquery_run close w t h ty R) as (c & e & E & R'). exists c, e.
  split; [exact E|]. intros t' R2. destruct (hquery_run close w t' h ty R2) as (c' & e' & E' & R2').
  rewrite E in E'. apply (f_equal (λ o, match o with ODone _ w1 => w_handles w1 | _ => c end)) in E'.
  cbn in E'. by rewrite E'.
Qed.

Lemma hquery_chan close w t h :
  running w → represents obj_query (w_handles w) t →
  ∃ w', @dill_hquery vobj M _ _ (runtime_env close) h dill_halfchan_type w = ODone (chan_of t h) w' ∧
    step_ok w w' ∧ (∃ c e, w' = set_errno e (set_handles c w)) ∧
    (chan_of t h = NULL ∨ chan_ok (chan_of t h) (w_chans w)).
Proof.
  intros H R. destruct (hquery_keeps close w t h dill_halfchan_type R) as (c & e & E & Hc).
  eexists. split; [exact E|]. split.
  { eapply step_trans; [by apply (step_handles c)|apply step_errno].
    apply (st_running _ _ (step_handles c w Hc H)). }
  split; [by exists c, e|]. unfold chan_of. destruct (live t !! h) as [v|] eqn:Hl; [|by left].
  destruct v as [c'|b|h'|n]; simpl; try (by left). right.
  destruct H as [H _]. destruct (wf_handles _ H) as (t' & R' & Ht').
  apply (Ht' h). rewrite (rep_live _ _ _ R'), <- (rep_live _ _ _ R). done.
Qed.

Lemma safe_step {A} (P : A → world → Prop) w w' a : step_ok w w' → P a w' → safe P w (ODone a w').
Proof. intros [H Hs _ _ _] Ha. by constructor. Qed.

(** * Checking the invariant of a concrete world *)

Definition all_registered (w : world) : list (cancel_fn * Z) :=
  ((λ t, (TimerCancel, t.2)) <$> w_timers w) ++
  (map_to_list (w_chans w) ≫= λ p, (λ c, (ChCancel, c)) <$> (hc_in p.2 ++ hc_out p.2)) ++
  (map_to_list (ps_fdinfos (w_pollset w)) ≫= λ p,
    match fi_in p.2 with Some c => [(FdCancelIn p.1, c)] | None => [] end ++
    match fi_out p.2 with Some c => [(FdCancelOut p.1, c)] | None => [] end).

Lemma fdinfo_at_Some (f : dill_fdinfo → option Z) fd c p :
  f no_fdinfo = None → f (fdinfo_at fd p) = Some c ↔ ∃ i, ps_fdinfos p !! fd = Some i ∧ f i = Some c.
Proof.
  intros Hn. unfold fdinfo_at. destruct (ps_fdinfos p !! fd) as [i|]; simpl; [|naive_solver congruence].
  split; [intros H; by exists i|]. by intros (j & [= ->] & ?).
Qed.

Lemma all_registered_spec k c w : (k, c) ∈ all_registered w ↔ registered k c w.
Proof.
  unfold all_registered. rewrite !elem_of_app, list_elem_of_fmap, !list_elem_of_bind. split.
  - intros [(t & [= -> ->] & Ht)|[([h hc] & Hc & Hh)|([fd i] & Hc & Hi)]].
    + simpl. apply list_elem_of_fmap. by exists t.
    + apply list_elem_of_fmap in Hc as (c' & [= -> ->] & Hc). apply elem_of_map_to_list in Hh.
      exists h, hc. split; [done|]. by apply elem_of_app.
    + apply elem_of_map_to_list in Hi. simpl in Hc. apply elem_of_app in Hc as [Hc|Hc].
      * destruct (fi_in i) as [x|] eqn:E; [|by apply elem_of_nil in Hc].
        apply list_elem_of_singleton in Hc as [= -> ->]. simpl. apply fdinfo_at_Some; [done|]. by exists i.
      * destruct (fi_out i) as [x|] eqn:E; [|by apply elem_of_nil in Hc].
        apply list_elem_of_singleton in Hc as [= -> ->]. simpl. apply fdinfo_at_Some; [done|]. by exists i.
  - intros Hr. destruct k as [| | |fd|fd]; simpl in Hr; [done| | | |].
    + left. apply list_elem_of_fmap in Hr as (t & -> & Ht). by exists t.
    + right; left. destruct Hr as (h & hc & Hh & Hc). exists (h, hc).
      split; [|by apply elem_of_map_to_list]. apply list_elem_of_fmap. exists c. split; [done|].
      by apply elem_of_app.
    + right; right. apply fdinfo_at_Some in Hr as (i & Hi & E); [|done]. exists (fd, i).
      split; [|by apply elem_of_map_to_list]. simpl. rewrite E. apply elem_of_app. left. by left.
    + right; right. apply fdinfo_at_Some in Hr as (i & Hi & E); [|done]. exists (fd, i).
      split; [|by apply elem_of_map_to_list]. simpl. rewrite E. apply elem_of_app. right. by left.
Qed.

Definition registered_b (w : world) (p : cancel_fn * Z) : bool :=
  match w_cls w !! p.2 with
  | None => false
  | Some cl =>
    bool_decide (cl_cancel cl = p.1) &&
    match w_crs w !! cl_cr cl with
    | None => false
    | Some x => negb (ready_linked x) && bool_decide (p.2 ∈ clauses x)
    end
  end.

Definition clause_b (w : world) (i : Z) (c : Z) : bool :=
  match w_cls w !! c with
  | None => false
  | Some cl => (cl_cr cl =? i) &&
    (bool_decide (cl_cancel cl = NoCancel) || bool_decide ((cl_cancel cl, c) ∈ all_registered w))
  end.

Definition buffer_b (w : world) (p : cancel_fn * Z) : bool :=
  match p.1 with
  | ChCancel =>
    match w_chcls w !! p.2 with
    | None => false
    | Some cc => (0 <=? cc_len cc) &&
      forallb (λ i, bool_decide (is_Some (w_mem w !! (cc_val cc + Z.of_nat i)))) (seq 0 (Z.to_nat (cc_len cc)))
    end
  | _ => true
  end.

(** Everything in [wf] but the handle table. *)
Definition wf_b (w : world) : bool :=
  bool_decide (NoDup (w_ready w)) &&
  forallb (λ c, match w_crs w !! c with Some x => ready_linked x | None => false end) (w_ready w) &&
  forallb (λ p, negb (ready_linked p.2) || bool_decide (p.1 ∈ w_ready w)) (map_to_list (w_crs w)) &&
  forallb (registered_b w) (all_registered w) &&
  forallb (λ p, ready_linked p.2 || forallb (clause_b w p.1) (clauses p.2)) (map_to_list (w_crs w)) &&
  forallb (λ p, bool_decide (NoDup (clauses p.2))) (map_to_list (w_crs w)) &&
  forallb (λ p, p.1 <? w_next_id w) (map_to_list (w_cls w)) &&
  bool_decide (NoDup (w_timers w).*2) &&
  forallb (buffer_b w) (all_registered w).

Lemma forallb_elem {A} (f : A → bool) l x : forallb f l = true → x ∈ l → f x = true.
Proof. intros H Hx. apply forallb_forall with l; [done|]. by apply list_elem_of_In. Qed.

Lemma forallb_lookup {A} (f : Z * A → bool) (m : gmap Z A) i x :
  forallb f (map_to_list m) = true → m !! i = Some x → f (i, x) = true.
Proof. intros H Hx. by eapply forallb_elem; [|apply elem_of_map_to_list]. Qed.

Lemma registered_b_spec w k c :
  registered_b w (k, c) = true → ∃ cl x, w_cls w !! c = Some cl ∧ cl_cancel cl = k ∧
    w_crs w !! cl_cr cl = Some x ∧ ready_linked x = false ∧ c ∈ clauses x.
Proof.
  unfold registered_b. cbn [fst snd]. destruct (w_cls w !! c) as [cl|]; [|done]. intros [Hk H]%andb_prop.
  apply bool_decide_eq_true in Hk. destruct (w_crs w !! cl_cr cl) as [x|] eqn:Hx; [|done].
  apply andb_prop in H as [Hl Hc]. apply negb_true_iff in Hl. apply bool_decide_eq_true in Hc.
  by exists cl, x.
Qed.

Lemma clause_b_spec w i c :
  clause_b w i c = true → ∃ cl, w_cls w !! c = Some cl ∧ cl_cr cl = i ∧
    (cl_cancel cl = NoCancel ∨ registered (cl_cancel cl) c w).
Proof.
  unfold clause_b. destruct (w_cls w !! c) as [cl|]; [|done]. intros [Hi H]%andb_prop.
  exists cl. split; [done|]. split; [by apply Z.eqb_eq|]. apply orb_prop in H as [H|H].
  - left. by apply bool_decide_eq_true in H.
  - right. apply all_registered_spec. by apply bool_decide_eq_true in H.
Qed.

Lemma buffer_b_spec w c :
  buffer_b w (ChCancel, c) = true → ∃ cc, w_chcls w !! c = Some cc ∧ buf_ok (cc_val cc) (cc_len cc) (w_mem w).
Proof.
  unfold buffer_b. cbn [fst snd]. destruct (w_chcls w !! c) as [cc|]; [|done]. intros [Hl H]%andb_prop.
  exists cc. split; [done|]. split; [by apply Z.leb_le|]. intros i Hi.
  pose proof (forallb_elem _ _ (Z.to_nat i) H) as Hi'. cbn beta in Hi'.
  rewrite Z2Nat.id, bool_decide_eq_true in Hi' by lia. apply Hi'.
  apply list_elem_of_In, in_seq. lia.
Qed.

Lemma wf_b_sound w : wf_b w = true → handles_ok (w_handles w) (w_chans w) → wf w.
Proof.
  unfold wf_b. rewrite !andb_true_iff. intros ((((((((H1 & H2) & H3) & H4) & H5) & H6) & H7) & H8) & H9) Hh.
  constructor; [by apply bool_decide_eq_true in H1| | | | | |by apply bool_decide_eq_true in H8|done|].
  - intros c. split.
    + intros Hc. pose proof (forallb_elem _ _ _ H2 Hc) as Hx. cbn beta in Hx.
      destruct (w_crs w !! c) as [x|] eqn:E; [|done]. by exists x.
    + intros (x & Hx & Hl). pose proof (forallb_lookup _ _ _ _ H3 Hx) as Hc. cbn [fst snd] in Hc.
      rewrite Hl in Hc. by apply bool_decide_eq_true in Hc.
  - intros k c Hr. apply registered_b_spec. eapply forallb_elem; [exact H4|]. by apply all_registered_spec.
  - intros i x c Hx Hl Hc. pose proof (forallb_lookup _ _ _ _ H5 Hx) as Hcl. cbn [fst snd] in Hcl.
    rewrite Hl in Hcl. apply clause_b_spec. by eapply forallb_elem.
  - intros i x Hx. pose proof (forallb_lookup _ _ _ _ H6 Hx) as Hn. by apply bool_decide_eq_true in Hn.
  - intros c [cl Hc]. pose proof (forallb_lookup _ _ _ _ H7 Hc) as Hn. by apply Z.ltb_lt in Hn.
  - intros c Hr. apply buffer_b_spec. eapply forallb_elem; [exact H9|]. by apply all_registered_spec.
Qed.
