(* ===== verification/Chan.v ===== *)
(** Channels ([chan.c]): rendezvous between coroutines, by a copy from the
    sender's buffer to the receiver's. *)

From S2P Require Import Prelude Handle Iol World Cr.
From Stdlib Require Import ZArith Lia.
From stdpp Require Import base gmap list.
Open Scope Z_scope.

Definition get_chan (ch : Z) : M dill_halfchan := λ w,
  match w_chans w !! ch with Some hc => ODone hc w | None => OCrash end.
Definition get_chcl (c : Z) : M dill_chanclause := λ w,
  match w_chcls w !! c with Some cc => ODone cc w | None => OCrash end.
Definition put_chan (ch : Z) (hc : dill_halfchan) (w : world) : world :=
  set_chans (<[ch := hc]> (w_chans w)) w.
Definition put_chcl (c : Z) (cc : dill_chanclause) (w : world) : world :=
  set_chcls (<[c := cc]> (w_chcls w)) w.

(** The macro [dill_halfchan_other]. *)
Definition halfchan_other (ch : Z) : M Z := hc ← get_chan ch; mret (dill_halfchan_other ch hc).

(** [dill_list_insert(&chcl->item, &ch->in)], and [&ch->out]: at the end. *)
Definition link_in (ch c : Z) (w : world) : option world :=
  hc ← w_chans w !! ch;
  Some (put_chan ch (mk_halfchan (hc_in hc ++ [c]) (hc_out hc) (hc_index hc) (hc_done hc) (hc_mem hc)
    (hc_closed hc)) w).
Definition link_out (ch c : Z) (w : world) : option world :=
  hc ← w_chans w !! ch;
  Some (put_chan ch (mk_halfchan (hc_in hc) (hc_out hc ++ [c]) (hc_index hc) (hc_done hc) (hc_mem hc)
    (hc_closed hc)) w).

Definition memcpy (dst src : ptr) (len : Z) (w : world) : option world :=
  bs ← load_bytes src (Z.to_nat len) (w_mem w);
  m ← store_bytes dst bs (w_mem w);
  Some (set_mem m w).

Definition dill_halfchan_init (ch : Z) (index : bool) (w : world) : world :=
  put_chan ch (mk_halfchan [] [] index false true false) w.

(** [while(!dill_list_empty(l)) dill_trigger(first clause of l, EPIPE)] *)
Fixpoint drain (l : dill_halfchan → list Z) (fuel : nat) (ch : Z) : M unit :=
  hc ← get_chan ch;
  match l hc with
  | [] => mret tt
  | c :: _ =>
    match fuel with
    | O => crash
    | S fuel => lift (dill_trigger c EPIPE);; drain l fuel ch
    end
  end.

(** Resume any remaining receivers and senders with EPIPE. *)
Definition dill_halfchan_term (ch : Z) : M unit :=
  hc ← get_chan ch;
  drain hc_in (length (hc_in hc)) ch;;
  hc ← get_chan ch;
  drain hc_out (length (hc_out hc)) ch.

(** [free(ch)] of both halves *)
Definition free_chans (ch : Z) (w : world) : world := set_chans (delete ch (delete (ch + 1) (w_chans w))) w.

Definition dill_halfchan_close (ch : Z) : M unit :=
  hc ← get_chan ch;
  assert_ (negb (hc_closed hc));;
  other ← get_chan (dill_halfchan_other ch hc);
  if negb (hc_closed other) then
    modify (put_chan ch (mk_halfchan (hc_in hc) (hc_out hc) (hc_index hc) (hc_done hc) (hc_mem hc) true))
  else
    let first := if hc_index hc then dill_halfchan_other ch hc else ch in
    dill_halfchan_term first;;
    dill_halfchan_term (first + 1);;
    hc ← get_chan first;
    if negb (hc_mem hc) then
      modify (free_chans first)
    else mret tt.

Definition DILL_CHSEND : Z := 1.
Definition DILL_CHRECV : Z := 2.

(** [struct dill_chclause] *)
Record dill_chclause := mk_chclause { op : Z; ch_ : Z; val : ptr; len : Z }.

Section Ops.
Context (close : vobj → M unit).
Local Instance env : HandleEnv vobj M := runtime_env close.

Definition dill_chmake_mem (mem : option Z) : M (Z * Z * Z) :=
  match mem with
  | None => fail EINVAL;; mret (-1, -1, -1)
  | Some ch =>
    modify (dill_halfchan_init ch false);;
    modify (dill_halfchan_init (ch + 1) true);;
    h0 ← dill_hmake (Some (VChan ch));
    if h0 <? 0 then mret (-1, -1, -1)
    else
      h1 ← dill_hmake (Some (VChan (ch + 1)));
      if h1 <? 0 then
        err ← gets w_errno;
        dill_hclose h0;;
        modify (set_errno err);;
        mret (-1, -1, -1)
      else mret (0, h0, h1)
  end.

(** [malloc] of a [dill_chstorage], whose two halves have consecutive addresses. *)
Definition dill_chmake : M (Z * Z * Z) :=
  o ← malloc;
  match o with
  | None => fail ENOMEM;; mret (-1, -1, -1)
  | Some ch =>
    _ ← fresh_addr;
    '(rc, h0, h1) ← dill_chmake_mem (Some ch);
    if rc <? 0 then
      modify (free_chans ch);;
      mret (-1, -1, -1)
    else
      let unmem hc := mk_halfchan (hc_in hc) (hc_out hc) (hc_index hc) (hc_done hc) false (hc_closed hc) in
      hc ← get_chan ch;
      modify (put_chan ch (unmem hc));;
      hc ← get_chan (ch + 1);
      modify (put_chan (ch + 1) (unmem hc));;
      mret (rc, h0, h1)
  end.

(** Add the clauses and wait; [link] inserts the channel clause. *)
Definition dill_chsend (h : Z) (val : ptr) (len : Z) (deadline : Z) : M Z :=
  rc ← dill_canblock;
  if rc <? 0 then mret (-1)
  else
    ch ← dill_hquery h dill_halfchan_type;
    if ch =? NULL then mret (-1)
    else
      (** Sending is always done to the opposite side of the channel. *)
      ch ← halfchan_other ch;
      hc ← get_chan ch;
      if hc_done hc then fail EPIPE
      else
        match hc_in hc with
        | c :: _ =>
          cc ← get_chcl c;
          if negb (len =? cc_len cc) then
            lift (dill_trigger c EMSGSIZE);;
            fail EMSGSIZE
          else
            lift (memcpy (cc_val cc) val len);;
            lift (dill_trigger c E0);;
            mret 0
        | [] =>
          if deadline =? 0 then fail ETIMEDOUT
          else
            c ← fresh_addr;
            lift (link_out ch c);;
            modify (put_chcl c (mk_chanclause val len));;
            lift (dill_waitfor c 0 ChCancel);;
            t ← fresh_addr;
            lift (dill_timer t 1 deadline);;
            id ← dill_wait;
            if id <? 0 then mret (-1)
            else if id =? 1 then fail ETIMEDOUT
            else
              e ← gets w_errno;
              if bool_decide (e = E0) then mret 0 else mret (-1)
        end.

Definition dill_chrecv (h : Z) (val : ptr) (len : Z) (deadline : Z) : M Z :=
  rc ← dill_canblock;
  if rc <? 0 then mret (-1)
  else
    ch ← dill_hquery h dill_halfchan_type;
    if ch =? NULL then mret (-1)
    else
      hc ← get_chan ch;
      if hc_done hc then fail EPIPE
      else
        match hc_out hc with
        | c :: _ =>
          cc ← get_chcl c;
          if negb (len =? cc_len cc) then
            lift (dill_trigger c EMSGSIZE);;
            fail EMSGSIZE
          else
            lift (memcpy val (cc_val cc) len);;
            lift (dill_trigger c E0);;
            mret 0
        | [] =>
          if deadline =? 0 then fail ETIMEDOUT
          else
            c ← fresh_addr;
            lift (link_in ch c);;
            modify (put_chcl c (mk_chanclause val len));;
            lift (dill_waitfor c 0 ChCancel);;
            t ← fresh_addr;
            lift (dill_timer t 1 deadline);;
            id ← dill_wait;
            if id <? 0 then mret (-1)
            else if id =? 1 then fail ETIMEDOUT
            else
              e ← gets w_errno;
              if bool_decide (e = E0) then mret 0 else mret (-1)
        end.

Definition dill_chdone (h : Z) : M Z :=
  ch ← dill_hquery h dill_halfchan_type;
  if ch =? NULL then mret (-1)
  else
    ch ← halfchan_other ch;
    hc ← get_chan ch;
    if hc_done hc then fail EPIPE
    else
      modify (put_chan ch (mk_halfchan (hc_in hc) (hc_out hc) (hc_index hc) true (hc_mem hc) (hc_closed hc)));;
      dill_halfchan_term ch;;
      mret 0.

(** The first loop of [dill_choose], from clause [i] on: [Some r] is [return r]. *)
Fixpoint choose_ready (i : Z) (cls : list dill_chclause) : M (option Z) :=
  match cls with
  | [] => mret None
  | cl :: cls =>
    ch ← dill_hquery (ch_ cl) dill_halfchan_type;
    if ch =? NULL then mret (Some i)
    else if (0 <? len cl) && (val cl =? NULL) then modify (set_errno EINVAL);; mret (Some i)
    else if op cl =? DILL_CHSEND then
      ch ← halfchan_other ch;
      hc ← get_chan ch;
      if hc_done hc then modify (set_errno EPIPE);; mret (Some i)
      else match hc_in hc with
      | [] => choose_ready (i + 1) cls
      | c :: _ =>
        cc ← get_chcl c;
        if negb (len cl =? cc_len cc) then
          lift (dill_trigger c EMSGSIZE);;
          modify (set_errno EMSGSIZE);; mret (Some i)
        else
          lift (memcpy (cc_val cc) (val cl) (len cl));;
          lift (dill_trigger c E0);;
          modify (set_errno E0);; mret (Some i)
      end
    else if op cl =? DILL_CHRECV then
      hc ← get_chan ch;
      if hc_done hc then modify (set_errno EPIPE);; mret (Some i)
      else match hc_out hc with
      | [] => choose_ready (i + 1) cls
      | c :: _ =>
        cc ← get_chcl c;
        if negb (len cl =? cc_len cc) then
          lift (dill_trigger c EMSGSIZE);;
          modify (set_errno EMSGSIZE);; mret (Some i)
        else
          lift (memcpy (val cl) (cc_val cc) (len cl));;
          lift (dill_trigger c E0);;
          modify (set_errno E0);; mret (Some i)
      end
    else modify (set_errno EINVAL);; mret (Some i)
  end.

(** The second loop: add a clause per channel. *)
Fixpoint choose_wait (i : Z) (cls : list dill_chclause) : M unit :=
  match cls with
  | [] => mret tt
  | cl :: cls =>
    ch ← dill_hquery (ch_ cl) dill_halfchan_type;
    assert_ (negb (ch =? NULL));;
    c ← fresh_addr;
    (if op cl =? DILL_CHRECV then lift (link_in ch c)
     else other ← halfchan_other ch; lift (link_out other c));;
    modify (put_chcl c (mk_chanclause (val cl) (len cl)));;
    lift (dill_waitfor c i ChCancel);;
    choose_wait (i + 1) cls
  end.

(** [cls] is [None] for a [NULL] array. *)
Definition dill_choose (cls : option (list dill_chclause)) (nclauses : Z) (deadline : Z) : M Z :=
  rc ← dill_canblock;
  if rc <? 0 then mret (-1)
  else if (nclauses <? 0) || (negb (nclauses =? 0) && bool_decide (cls = None)) then fail EINVAL
  else
    let cls := default [] cls in
    if (length cls <? Z.to_nat nclauses)%nat then crash
    else
      let cls := take (Z.to_nat nclauses) cls in
      o ← choose_ready 0 cls;
      match o with
      | Some i => mret i
      | None =>
        if deadline =? 0 then fail ETIMEDOUT
        else
          choose_wait 0 cls;;
          t ← fresh_addr;
          lift (dill_timer t nclauses deadline);;
          id ← dill_wait;
          if id <? 0 then mret (-1)
          else if id =? nclauses then fail ETIMEDOUT
          else mret id
      end.
End Ops.

(** * Copies *)

Lemma buf_ok_dom v n (m m' : gmap Z Z) : dom m' = dom m → buf_ok v n m → buf_ok v n m'.
Proof.
  intros Hd [Hn Hb]. split; [done|]. intros i Hi. apply elem_of_dom. rewrite Hd. apply elem_of_dom.
  by apply Hb.
Qed.

Lemma load_ok n : ∀ a m, (∀ i, 0 ≤ i < Z.of_nat n → is_Some (m !! (a + i))) →
  ∃ bs, load_bytes a n m = Some bs ∧ length bs = n.
Proof.
  induction n as [|n IH]; intros a m H; [by exists []|]. cbn [load_bytes].
  destruct (H 0 ltac:(lia)) as [b Hb]. rewrite Z.add_0_r in Hb. rewrite Hb. cbn [mbind option_bind].
  destruct (IH (a + 1) m) as (bs & E & Hl).
  { intros i Hi. replace (a + 1 + i) with (a + (i + 1)) by lia. apply H. lia. }
  rewrite E. cbn [mbind option_bind]. exists (b :: bs). split; [done|simpl; lia].
Qed.

Lemma store_ok bs : ∀ a m, (∀ i, 0 ≤ i < Z.of_nat (length bs) → is_Some (m !! (a + i))) →
  ∃ m', store_bytes a bs m = Some m' ∧ dom m' = dom m.
Proof.
  induction bs as [|b bs IH]; intros a m H; [by exists m|]. cbn [store_bytes].
  destruct (H 0 ltac:(simpl; lia)) as [v Hv]. rewrite Z.add_0_r in Hv. rewrite Hv.
  destruct (IH (a + 1) (<[a := b]> m)) as (m' & E & Hd).
  { intros i Hi. replace (a + 1 + i) with (a + (i + 1)) by lia.
    rewrite lookup_insert. destruct (decide (a = a + (i + 1))); [by eexists|].
    apply H. simpl. lia. }
  exists m'. split; [done|]. rewrite Hd. apply dom_insert_lookup_L. by exists v.
Qed.

Lemma wf_set_mem m w : dom m = dom (w_mem w) → wf w → wf (set_mem m w).
Proof.
  intros Hd H. pose proof (wf_buffers _ H) as HB. destruct H. constructor; try done.
  intros c Hc. destruct (HB c Hc) as (cc & Hcc & Hb).
  exists cc. split; [done|]. by eapply buf_ok_dom.
Qed.

Lemma memcpy_step dst src n w :
  running w → buf_ok dst n (w_mem w) → buf_ok src n (w_mem w) →
  ∃ bs m, load_bytes src (Z.to_nat n) (w_mem w) = Some bs ∧ store_bytes dst bs (w_mem w) = Some m ∧
    memcpy dst src n w = Some (set_mem m w) ∧ step_ok w (set_mem m w).
Proof.
  intros [Hw Hx] [Hn Hd] [_ Hs]. destruct (load_ok (Z.to_nat n) src (w_mem w)) as (bs & E & Hl).
  { intros i Hi. apply Hs. lia. }
  destruct (store_ok bs dst (w_mem w)) as (m & E2 & Hdom).
  { intros i Hi. apply Hd. lia. }
  exists bs, m. split; [done|]. split; [done|]. split.
  - unfold memcpy. rewrite E. cbn [mbind option_bind]. by rewrite E2.
  - constructor; [split; [by apply wf_set_mem|done]| |intros h hc Hh; by exists hc|done|done].
    by apply segment_same.
Qed.

(** * Changes of a half-channel *)

Lemma chan_ok_put h ch hc hc' (cs : gmap Z dill_halfchan) :
  cs !! ch = Some hc → hc_index hc' = hc_index hc → chan_ok h cs → chan_ok h (<[ch := hc']> cs).
Proof.
  intros Hch Hi (Hn & a & b & Ha & Hb & Hab). split; [done|].
  assert (H : ∀ k x, cs !! k = Some x → ∃ y, <[ch := hc']> cs !! k = Some y ∧ hc_index y = hc_index x).
  { intros k x Hk. rewrite lookup_insert. destruct (decide (ch = k)) as [->|]; [|by exists x].
    exists hc'. split; [done|congruence]. }
  destruct (H _ _ Ha) as (a' & Ha' & Ea). destruct (H _ _ Hb) as (b' & Hb' & Eb).
  exists a', b'. unfold dill_halfchan_other in *. rewrite Ea. repeat (split; [done|]). congruence.
Qed.

Lemma handles_ok_put c ch hc hc' (cs : gmap Z dill_halfchan) :
  cs !! ch = Some hc → hc_index hc' = hc_index hc → handles_ok c cs → handles_ok c (<[ch := hc']> cs).
Proof.
  intros Hch Hi (t & R & Hc). exists t. split; [done|]. intros k h Hk. eapply chan_ok_put; eauto.
Qed.

(** Changing only the flags of a half-channel. *)
Lemma step_put_chan ch hc hc' w :
  running w → w_chans w !! ch = Some hc → hc_index hc' = hc_index hc →
  hc_in hc' = hc_in hc → hc_out hc' = hc_out hc → step_ok w (put_chan ch hc' w).
Proof.
  intros [Hw Hx] Hch Hi Hin Hout.
  assert (HR : ∀ k c, registered k c (put_chan ch hc' w) ↔ registered k c w).
  { intros k c. destruct k; try done. simpl. split; intros (h & x & Hh & Hc).
    - rewrite lookup_insert in Hh. destruct (decide (ch = h)) as [<-|].
      + injection Hh as <-. exists ch, hc. split; [done|]. by rewrite <- Hin, <- Hout.
      + by exists h, x.
    - destruct (decide (ch = h)) as [<-|Hne].
      + exists ch, hc'. rewrite lookup_insert_eq. split; [done|]. simplify_eq. by rewrite Hin, Hout.
      + exists h, x. by rewrite lookup_insert_ne. }
  constructor.
  - split; [|done]. destruct Hw. constructor; try done.
    + intros k c Hc. apply wf_registered. by apply HR.
    + intros i x c Hi' Hl Hc. destruct (wf_clauses i x c Hi' Hl Hc) as (cl & ? & ? & Hk).
      exists cl. repeat (split; [done|]). destruct Hk as [?|Hk]; [by left|right]. by apply HR.
    + by eapply handles_ok_put.
    + intros c Hc. apply wf_buffers. by apply (HR ChCancel).
  - by apply segment_same.
  - intros h x Hh. cbn. rewrite lookup_insert. destruct (decide (ch = h)) as [<-|]; [|by exists x].
    exists hc'. split; [done|]. by simplify_eq.
  - done.
  - done.
Qed.

(** Linking a fresh clause into a half-channel. *)
Definition with_in (l : list Z) (hc : dill_halfchan) : dill_halfchan :=
  mk_halfchan l (hc_out hc) (hc_index hc) (hc_done hc) (hc_mem hc) (hc_closed hc).
Definition with_out (l : list Z) (hc : dill_halfchan) : dill_halfchan :=
  mk_halfchan (hc_in hc) l (hc_index hc) (hc_done hc) (hc_mem hc) (hc_closed hc).

Lemma chan_linked_in ch hc hc' c cc w :
  wf w → w_chans w !! ch = Some hc → w_cls w !! c = None →
  (hc' = with_in (hc_in hc ++ [c]) hc ∨ hc' = with_out (hc_out hc ++ [c]) hc) →
  buf_ok (cc_val cc) (cc_len cc) (w_mem w) →
  linked_in ChCancel c w (put_chcl c cc (put_chan ch hc' w)).
Proof.
  intros H Hch Hc Hhc Hb.
  assert (Hmem : ∀ x, x ∈ hc_in hc' ∨ x ∈ hc_out hc' ↔ (x ∈ hc_in hc ∨ x ∈ hc_out hc) ∨ x = c).
  { intros x. destruct Hhc as [->| ->]; simpl; rewrite elem_of_app, list_elem_of_singleton; tauto. }
  assert (Hi : hc_index hc' = hc_index hc) by (by destruct Hhc as [->| ->]).
  assert (HR : ∀ k c', registered k c' (put_chcl c cc (put_chan ch hc' w)) ↔
    registered k c' w ∨ (ChCancel ≠ NoCancel ∧ k = ChCancel ∧ c' = c)).
  { intros k c'. destruct k; simpl; try (split; [by left|intros [?|(_ & ? & _)]; done]). split.
    - intros (h & x & Hh & Hx). rewrite lookup_insert in Hh. destruct (decide (ch = h)) as [<-|].
      + injection Hh as <-. apply Hmem in Hx as [Hx| ->]; [left|by right]. by exists ch, hc.
      + left. by exists h, x.
    - intros [(h & x & Hh & Hx)|(_ & _ & ->)].
      + destruct (decide (ch = h)) as [<-|Hne].
        * exists ch, hc'. rewrite lookup_insert_eq. split; [done|]. simplify_eq. apply Hmem. by left.
        * exists h, x. by rewrite lookup_insert_ne.
      + exists ch, hc'. rewrite lookup_insert_eq. split; [done|]. apply Hmem. by right. }
  constructor; try done.
  - apply (wf_timers _ H).
  - cbn. eapply handles_ok_put; [done|done|]. apply (wf_handles _ H).
  - intros c' Hc'. cbn. destruct (decide (c = c')) as [<-|Hne].
    + exists cc. by rewrite lookup_insert_eq.
    + rewrite lookup_insert_ne by done. apply (wf_buffers _ H). apply HR in Hc' as [?|(_ & _ & ->)]; done.
Qed.

(** * Preparing to wait *)

(** From [w0] the running coroutine has added some clauses. *)
Record prep (w0 w : world) : Prop := {
  pr_wf : wf w;
  pr_segment : segment w0 w;
  pr_r : ∃ x, w_crs w !! w_r w = Some x ∧ ready_linked x = false;
  pr_chans : ∀ h hc, w_chans w0 !! h = Some hc →
    ∃ hc', w_chans w !! h = Some hc' ∧ hc_index hc' = hc_index hc;
  pr_mem : dom (w_mem w) = dom (w_mem w0);
  pr_handles : ∀ t, represents obj_query (w_handles w0) t → represents obj_query (w_handles w) t;
}.

Lemma prep_refl w0 w : step_ok w0 w → prep w0 w.
Proof. intros [[Hw (x & Hx & Hl & _)] Hs Hc Hm Ht]. constructor; try done. by exists x. Qed.

Lemma prep_chan_ok h w0 w : prep w0 w → chan_ok h (w_chans w0) → chan_ok h (w_chans w).
Proof.
  intros P (Hn & hc & hc' & Hh & Hh' & Hi). split; [done|].
  destruct (pr_chans _ _ P h hc Hh) as (hc1 & H1 & E1).
  destruct (pr_chans _ _ P _ hc' Hh') as (hc2 & H2 & E2).
  exists hc1, hc2. split; [done|]. unfold dill_halfchan_other in *. rewrite E1.
  split; [done|congruence].
Qed.

Lemma wf_fresh_addr w : wf w → wf (set_next_id (w_next_id w + 1) w) ∧ w_cls w !! w_next_id w = None.
Proof.
  intros H. pose proof (wf_fresh _ H) as HF. split.
  - destruct H. constructor; try done. intros c Hc. cbn. specialize (HF c Hc). lia.
  - destruct (w_cls w !! w_next_id w) eqn:E; [|done].
    specialize (HF (w_next_id w) ltac:(by eexists)). lia.
Qed.

(** Adding a channel clause. *)
Lemma prep_clause {A} w0 w ch hc hc' (link : Z → M unit) cc i (k : M A) :
  prep w0 w → w_chans w !! ch = Some hc →
  (∀ c w1, w_chans w1 = w_chans w → link c w1 = ODone tt (put_chan ch (hc' c) w1)) →
  (∀ c, hc' c = with_in (hc_in hc ++ [c]) hc ∨ hc' c = with_out (hc_out hc ++ [c]) hc) →
  buf_ok (cc_val cc) (cc_len cc) (w_mem w) →
  ∃ w', prep w0 w' ∧
    (c ← fresh_addr; link c;; modify (put_chcl c cc);; lift (dill_waitfor c i ChCancel);; k) w = k w'.
Proof.
  intros [Hw Hs (x & Hx & Hl) Hc Hm Ht] Hch Hlink Hhc Hb.
  destruct (wf_fresh_addr w Hw) as [Hw1 Hfr]. set (c := w_next_id w) in *.
  set (w1 := set_next_id (c + 1) w) in *.
  pose proof (chan_linked_in ch hc (hc' c) c cc w1 Hw1 Hch Hfr (Hhc c) Hb) as L.
  destruct (waitfor_spec w1 _ x c i ChCancel Hw1 L Hfr ltac:(cbn; lia) Hx Hl) as [E Hw2].
  eexists. split.
  2: { erewrite M_bind_done by done. fold c w1. erewrite M_bind_done by (apply Hlink; done).
       erewrite M_bind_done by done. erewrite M_bind_done by (apply lift_done; exact E). reflexivity. }
  constructor; [done| | | |done|done].
  - eapply segment_trans; [exact Hs|]. by eapply segment_insert.
  - exists (push_clause c x). cbn. rewrite lookup_insert_eq. done.
  - intros h hx Hh. destruct (Hc h hx Hh) as (hx' & Hh' & Ei). cbn. rewrite lookup_insert.
    destruct (decide (ch = h)) as [<-|]; [|by exists hx']. exists (hc' c). split; [done|].
    simplify_eq. destruct (Hhc c) as [->| ->]; done.
Qed.

(** Adding the timer and waiting. *)
Lemma prep_wait {A} (P : A → world → Prop) w0 w i deadline (k : Z → M A) :
  prep w0 w → (∀ id w', running w' → safe P w' (k id w')) →
  safe P w0 ((t ← fresh_addr; lift (dill_timer t i deadline);; id ← dill_wait; k id) w).
Proof.
  intros [Hw Hs (x & Hx & Hl) Hc Hm Ht] Hk. destruct (wf_fresh_addr w Hw) as [Hw1 Hfr].
  erewrite M_bind_done by done. cbn beta.
  destruct (timer_spec _ x (w_next_id w) i deadline Hw1 Hfr ltac:(cbn; lia) Hx Hl) as (w2 & E & Hw2 & Hs2).
  erewrite M_bind_done by (apply lift_done; exact E).
  assert (Hs3 : segment w0 w2).
  { eapply segment_trans; [|exact Hs2]. eapply segment_trans; [exact Hs|by apply segment_same]. }
  eapply safe_bind; [by apply wait_safe|]. intros id w' Hw' _. by apply Hk.
Qed.

Lemma prep_hquery close w0 w t h :
  prep w0 w → represents obj_query (w_handles w0) t →
  ∃ w', @dill_hquery vobj M _ _ (runtime_env close) h dill_halfchan_type w = ODone (chan_of t h) w' ∧
    prep w0 w' ∧ w_chans w' = w_chans w ∧ w_mem w' = w_mem w.
Proof.
  intros [Hw Hs Hr Hc Hm Ht] R0. pose proof (Ht t R0) as R.
  destruct (hquery_keeps close w t h dill_halfchan_type R) as (c & e & E & Hkeep).
  eexists. split; [exact E|]. split; [|done].
  constructor; [|eapply segment_trans; [exact Hs|by apply segment_same]|done|done|done|auto].
  apply wf_set_errno, wf_set_handles; [|done].
  destruct (wf_handles _ Hw) as (t' & R' & Ht'). exists t'. auto.
Qed.

(** * Safety *)

Lemma running_canblock w : running w →
  ∃ rc w', dill_canblock w = ODone rc w' ∧ step_ok w w' ∧ (rc <? 0 = false → w' = w).
Proof.
  intros H. pose proof H as [_ (x & Hx & _)]. rewrite (canblock_spec w x Hx).
  destruct (_ || _); eexists _, _; (split; [reflexivity|]).
  - split; [by apply step_errno|done].
  - split; [by apply step_refl|done].
Qed.

Lemma fail_safe w0 w e : step_ok w0 w → safe (λ _ _, True) w0 (fail e w).
Proof.
  intros H. unfold fail. erewrite M_bind_done by done. eapply safe_step; [|done].
  eapply step_trans; [exact H|]. apply step_errno, (st_running _ _ H).
Qed.

(** The clause at the head of a list of a half-channel. *)
Lemma head_registered w ch hc c :
  w_chans w !! ch = Some hc → c ∈ hc_in hc ∨ c ∈ hc_out hc → registered ChCancel c w.
Proof. intros Hh Hc. by exists ch, hc. Qed.

Lemma trigger_safe {A} (P : A → world → Prop) w0 w c err (k : M A) :
  step_ok w0 w → registered ChCancel c w →
  (∀ w', step_ok w0 w' → safe P w0 (k w')) →
  safe P w0 ((lift (dill_trigger c err);; k) w).
Proof.
  intros H Hc Hk. destruct (trigger_step w ChCancel c err (st_running _ _ H) Hc)
    as (cl & x & m & p & _ & _ & _ & E & Hst).
  erewrite M_bind_done by (apply lift_done; exact E). apply Hk. by eapply step_trans.
Qed.

(** The immediate transfer: compare the lengths, copy, trigger. *)
Lemma transfer_safe {A} (P : A → world → Prop) w0 w c dst src n (k : M A) (k' : M A) cc :
  step_ok w0 w → registered ChCancel c w → w_chcls w !! c = Some cc →
  (n = cc_len cc → buf_ok dst n (w_mem w) ∧ buf_ok src n (w_mem w)) →
  (∀ w', step_ok w0 w' → safe P w0 (k w')) → (∀ w', step_ok w0 w' → safe P w0 (k' w')) →
  safe P w0 ((if negb (n =? cc_len cc) then lift (dill_trigger c EMSGSIZE);; k
    else lift (memcpy dst src n);; lift (dill_trigger c E0);; k') w).
Proof.
  intros H Hc Hcc Hb Hk Hk'. destruct (Z.eqb_spec n (cc_len cc)) as [En|En]; cbn [negb].
  - destruct (Hb En) as [Hd Hs].
    destruct (memcpy_step dst src n w (st_running _ _ H) Hd Hs) as (bs & m & _ & _ & E & Hst).
    erewrite M_bind_done by (apply lift_done; exact E).
    apply trigger_safe; [by eapply step_trans|done|done].
  - by apply trigger_safe.
Qed.


Lemma get_chan_done ch hc w : w_chans w !! ch = Some hc → get_chan ch w = ODone hc w.
Proof. intros H. unfold get_chan. by rewrite H. Qed.

Lemma get_chcl_done c cc w : w_chcls w !! c = Some cc → get_chcl c w = ODone cc w.
Proof. intros H. unfold get_chcl. by rewrite H. Qed.

(** What is needed after waiting. *)
Lemma wait_result_safe w id :
  running w →
  safe (λ _ _, True) w
    ((if id <? 0 then mret (-1) else if id =? 1 then fail ETIMEDOUT
      else e ← gets w_errno; if bool_decide (e = E0) then mret 0 else mret (-1)) w).
Proof.
  intros H. pose proof (step_refl w H) as Hst.
  destruct (id <? 0); [by eapply safe_step|]. destruct (id =? 1); [by apply fail_safe|].
  erewrite M_bind_done by done. destruct (bool_decide _); by eapply safe_step.
Qed.

(** ** Waking everybody *)

Definition one_list (l : dill_halfchan → list Z) : Prop := l = hc_in ∨ l = hc_out.

Lemma one_list_unlink l cs hc : one_list l → l (unlink_all cs hc) = filter (λ c, c ∉ cs) (l hc).
Proof. by intros [->| ->]. Qed.

(** Coroutine [i] has been made ready with the given [errno]. *)
Definition woken_with (err : errno_t) (i : Z) (w : world) : Prop :=
  i ∈ w_ready w ∧ ∃ x, w_crs w !! i = Some x ∧ ready_linked x = true ∧ cr_err x = err.

Lemma woken_with_mono err i w j x id e m p :
  woken_with err i w → w_crs w !! j = Some x → ready_linked x = false →
  woken_with err i (woken j x id e m p w).
Proof.
  intros (Hin & y & Hy & Hl & He) Hj Hx. split; [apply elem_of_app; by left|].
  exists y. cbn. rewrite lookup_insert_ne; [done|]. intros ->. congruence.
Qed.

Lemma filter_length_lt {A} (P : A → Prop) `{∀ x, Decision (P x)} (l : list A) x :
  x ∈ l → ¬ P x → (length (filter P l) < length l)%nat.
Proof.
  induction l as [|y l IH]; intros Hx Hn; [by apply elem_of_nil in Hx|].
  pose proof (length_filter P l) as Hl. destruct (decide (P y)).
  - rewrite filter_cons_True by done. simpl. apply elem_of_cons in Hx as [->|Hx]; [done|].
    specialize (IH Hx Hn). lia.
  - rewrite filter_cons_False by done. simpl. lia.
Qed.

(** [cs] are clauses that have been canceled: their coroutines are ready with
    [err], and the other clauses are as they were. *)
Record woke (err : errno_t) (cs : list Z) (w w' : world) : Prop := {
  woke_owner : ∀ c cl, c ∈ cs → w_cls w !! c = Some cl → woken_with err (cl_cr cl) w';
  woke_mono : ∀ i, woken_with err i w → woken_with err i w';
  woke_cls : ∀ c, c ∉ cs → w_cls w' !! c = w_cls w !! c;
}.

Lemma woke_trans err cs1 cs2 w1 w2 w3 :
  woke err cs1 w1 w2 → woke err cs2 w2 w3 → woke err (cs1 ++ cs2) w1 w3.
Proof.
  intros [O1 M1 C1] [O2 M2 C2]. constructor.
  - intros c cl Hc Hcl. destruct (decide (c ∈ cs1)) as [H1|H1]; [by eapply M2, O1|].
    apply elem_of_app in Hc as [?|Hc]; [done|]. apply (O2 c); [done|]. by rewrite C1.
  - auto.
  - intros c Hc. apply not_elem_of_app in Hc as [H1 H2]. by rewrite C2, C1.
Qed.

Lemma trigger_woke w c err :
  running w → registered ChCancel c w →
  ∃ x w', c ∈ clauses x ∧ dill_trigger c err w = Some w' ∧ step_ok w w' ∧
    w_chans w' = unlink_all (clauses x) <$> w_chans w ∧ woke err (clauses x) w w'.
Proof.
  intros H Hreg. destruct (registered_owner w ChCancel c H Hreg) as (cl & x & Hcl & _ & Hx & Hxl & Hin & Hne).
  pose proof H as [Hw _].
  destruct (docancel_spec w (cl_cr cl) x (cl_id cl) err Hw Hx Hxl) as (m & p & E & Hm & _ & Hwf).
  eexists x, _. split; [done|]. split; [unfold dill_trigger; rewrite Hcl; exact E|].
  split; [by apply step_woken; [..|apply running_woken]|]. split; [done|]. constructor.
  - intros c' cl' Hc' Hcl'. destruct (wf_clauses _ Hw (cl_cr cl) x c' Hx Hxl Hc') as (cl2 & Hcl2 & Hcr & _).
    simplify_eq. rewrite Hcr. split; [apply elem_of_app; right; left|].
    exists (resumed (cl_id cl) err x). cbn. by rewrite lookup_insert_eq.
  - intros i Hi. by apply woken_with_mono.
  - intros c' Hc'. cbn. specialize (Hm c'). destruct (w_cls w !! c') as [cl'|]; [|done].
    destruct Hm as (cl2 & -> & _ & _ & ->); done.
Qed.

Lemma woke_refl err w : woke err [] w w.
Proof. constructor; try done. intros c cl Hc. by apply elem_of_nil in Hc. Qed.

Lemma unlink_app cs1 cs2 hc : unlink_all cs2 (unlink_all cs1 hc) = unlink_all (cs1 ++ cs2) hc.
Proof.
  unfold unlink_all. simpl. f_equal; rewrite filter_filter; apply list_filter_iff; intros x;
    rewrite elem_of_app; tauto.
Qed.

Lemma unlink_nil hc : unlink_all [] hc = hc.
Proof. apply unlink_none. intros c _. apply not_elem_of_nil. Qed.

Lemma drain_spec l ch : one_list l → ∀ fuel w0 w hc,
  step_ok w0 w → w_chans w !! ch = Some hc → (length (l hc) ≤ fuel)%nat →
  ∃ w' cs, drain l fuel ch w = ODone tt w' ∧ step_ok w0 w' ∧
    w_chans w' !! ch = Some (unlink_all cs hc) ∧ l (unlink_all cs hc) = [] ∧ woke EPIPE cs w w'.
Proof.
  intros Hl. induction fuel as [|fuel IH]; intros w0 w hc Hst Hhc Hf; cbn [drain];
    erewrite M_bind_done by (by apply get_chan_done); destruct (l hc) as [|c lc] eqn:El; simpl in Hf; try lia.
  1,2: exists w, []; rewrite unlink_nil; repeat (split; [done|]); apply woke_refl.
  assert (Hreg : registered ChCancel c w).
  { eapply head_registered; [exact Hhc|]. destruct Hl as [->| ->]; rewrite El; [left|right]; left. }
  destruct (trigger_woke w c EPIPE (st_running _ _ Hst) Hreg) as (x & w1 & Hin & E & Hst2 & Hch & Hwk).
  erewrite M_bind_done by (apply lift_done; exact E).
  destruct (IH w0 w1 (unlink_all (clauses x) hc)) as (w' & cs & E' & Hst' & Hhc' & Hl' & Hwk').
  - by eapply step_trans.
  - by rewrite Hch, lookup_fmap, Hhc.
  - rewrite one_list_unlink by done.
    pose proof (filter_length_lt (λ c, c ∉ clauses x) (l hc) c) as Hlt.
    rewrite El in *. simpl in Hlt. specialize (Hlt ltac:(left) ltac:(tauto)). simpl. lia.
  - exists w', (clauses x ++ cs). rewrite <- unlink_app. repeat (split; [done|]). by eapply woke_trans.
Qed.

Lemma filter_nil_all (cs l : list Z) c : filter (λ c, c ∉ cs) l = [] → c ∈ l → c ∈ cs.
Proof.
  intros Hf Hc. destruct (decide (c ∈ cs)) as [|Hn]; [done|].
  assert (c ∈ filter (λ c, c ∉ cs) l) as Hin by (by apply list_elem_of_filter).
  rewrite Hf in Hin. by apply elem_of_nil in Hin.
Qed.

Lemma halfchan_term_spec ch w0 w hc :
  step_ok w0 w → w_chans w !! ch = Some hc →
  ∃ w' cs, dill_halfchan_term ch w = ODone tt w' ∧ step_ok w0 w' ∧
    w_chans w' !! ch = Some (unlink_all cs hc) ∧ woke EPIPE cs w w' ∧
    ∀ c, c ∈ hc_in hc ∨ c ∈ hc_out hc → c ∈ cs.
Proof.
  intros Hst Hhc. unfold dill_halfchan_term. erewrite M_bind_done by (by apply get_chan_done).
  destruct (drain_spec hc_in ch ltac:(by left) (length (hc_in hc)) w0 w hc Hst Hhc ltac:(lia))
    as (w1 & cs1 & E1 & Hst1 & Hhc1 & Hin1 & Hwk1).
  erewrite M_bind_done by exact E1. erewrite M_bind_done by (by apply get_chan_done).
  destruct (drain_spec hc_out ch ltac:(by right) (length (hc_out (unlink_all cs1 hc))) w0 w1 _ Hst1 Hhc1
    ltac:(lia)) as (w2 & cs2 & E2 & Hst2 & Hhc2 & Hout2 & Hwk2).
  exists w2, (cs1 ++ cs2). rewrite <- unlink_app. repeat (split; [done|]).
  split; [by eapply woke_trans|]. rewrite unlink_app in Hout2. intros c [Hc|Hc]; apply elem_of_app.
  - left. by apply (filter_nil_all cs1 (hc_in hc)).
  - apply elem_of_app. by apply (filter_nil_all (cs1 ++ cs2) (hc_out hc)).
Qed.

Section Safe.
Context (close : vobj → M unit).

Lemma chsend_safe w h val len deadline :
  running w → buf_ok val len (w_mem w) → safe (λ _ _, True) w (dill_chsend close h val len deadline w).
Proof.
  intros H Hb. unfold dill_chsend.
  destruct (running_canblock w H) as (rc & w1 & E & Hst & Hrc). erewrite M_bind_done by exact E.
  destruct (rc <? 0); [by eapply safe_step|]. rewrite (Hrc eq_refl) in *. clear Hrc E Hst w1.
  destruct (wf_handles _ (proj1 H)) as (t & R & _).
  destruct (hquery_chan close w t h H R) as (w1 & E & Hst & _ & Hch). erewrite M_bind_done by exact E.
  destruct (Z.eqb_spec (chan_of t h) NULL) as [|Hn]; [by eapply safe_step|].
  destruct Hch as [?|Hch]; [done|]. apply (chan_ok_step _ _ _ Hst) in Hch.
  destruct Hch as (_ & hc0 & hc & Hhc0 & Hhc & _).
  unfold halfchan_other. erewrite M_bind_done.
  2: { erewrite M_bind_done by (by apply get_chan_done). reflexivity. }
  erewrite M_bind_done by (by apply get_chan_done).
  destruct (hc_done hc); [by apply fail_safe|]. destruct (hc_in hc) as [|c l] eqn:Ein.
  - destruct (deadline =? 0); [by apply fail_safe|].
    edestruct (prep_clause (A := Z) w w1 (dill_halfchan_other (chan_of t h) hc0) hc (λ c, with_out (hc_out hc ++ [c]) hc)
      (λ c, lift (link_out (dill_halfchan_other (chan_of t h) hc0) c)) (mk_chanclause val len) 0)
      as (w2 & P2 & ->); [by apply prep_refl|exact Hhc| |by right| |].
    + intros c w2 Ew. unfold lift, link_out. by rewrite Ew, Hhc.
    + by eapply buf_ok_step.
    + apply prep_wait; [done|]. intros id w'. apply wait_result_safe.
  - assert (Hreg : registered ChCancel c w1) by (eapply head_registered; [exact Hhc|left; rewrite Ein; left]).
    destruct (wf_buffers _ (proj1 (st_running _ _ Hst)) c Hreg) as (cc & Hcc & Hbc).
    erewrite M_bind_done by (by apply get_chcl_done).
    apply transfer_safe; try done.
    + intros ->. split; [done|by eapply buf_ok_step].
    + intros w'. apply fail_safe.
    + intros w' Hw'. by eapply safe_step.
Qed.

Lemma chrecv_safe w h val len deadline :
  running w → buf_ok val len (w_mem w) → safe (λ _ _, True) w (dill_chrecv close h val len deadline w).
Proof.
  intros H Hb. unfold dill_chrecv.
  destruct (running_canblock w H) as (rc & w1 & E & Hst & Hrc). erewrite M_bind_done by exact E.
  destruct (rc <? 0); [by eapply safe_step|]. rewrite (Hrc eq_refl) in *. clear Hrc E Hst w1.
  destruct (wf_handles _ (proj1 H)) as (t & R & _).
  destruct (hquery_chan close w t h H R) as (w1 & E & Hst & _ & Hch). erewrite M_bind_done by exact E.
  destruct (Z.eqb_spec (chan_of t h) NULL) as [|Hn]; [by eapply safe_step|].
  destruct Hch as [?|Hch]; [done|]. apply (chan_ok_step _ _ _ Hst) in Hch.
  destruct Hch as (_ & hc & _ & Hhc & _ & _).
  erewrite M_bind_done by (by apply get_chan_done).
  destruct (hc_done hc); [by apply fail_safe|]. destruct (hc_out hc) as [|c l] eqn:Eout.
  - destruct (deadline =? 0); [by apply fail_safe|].
    edestruct (prep_clause (A := Z) w w1 (chan_of t h) hc (λ c, with_in (hc_in hc ++ [c]) hc)
      (λ c, lift (link_in (chan_of t h) c)) (mk_chanclause val len) 0)
      as (w2 & P2 & ->); [by apply prep_refl|exact Hhc| |by left| |].
    + intros c w2 Ew. unfold lift, link_in. by rewrite Ew, Hhc.
    + by eapply buf_ok_step.
    + apply prep_wait; [done|]. intros id w'. apply wait_result_safe.
  - assert (Hreg : registered ChCancel c w1) by (eapply head_registered; [exact Hhc|right; rewrite Eout; left]).
    destruct (wf_buffers _ (proj1 (st_running _ _ Hst)) c Hreg) as (cc & Hcc & Hbc).
    erewrite M_bind_done by (by apply get_chcl_done).
    apply transfer_safe; try done.
    + intros ->. split; [by eapply buf_ok_step|done].
    + intros w'. apply fail_safe.
    + intros w' Hw'. by eapply safe_step.
Qed.

Lemma chdone_safe w h : running w → safe (λ _ _, True) w (dill_chdone close h w).
Proof.
  intros H. unfold dill_chdone. destruct (wf_handles _ (proj1 H)) as (t & R & _).
  destruct (hquery_chan close w t h H R) as (w1 & E & Hst & _ & Hch). erewrite M_bind_done by exact E.
  destruct (Z.eqb_spec (chan_of t h) NULL) as [|Hn]; [by eapply safe_step|].
  destruct Hch as [?|Hch]; [done|]. apply (chan_ok_step _ _ _ Hst) in Hch.
  destruct Hch as (_ & hc0 & hc & Hhc0 & Hhc & _). unfold halfchan_other.
  erewrite M_bind_done.
  2: { erewrite M_bind_done by (by apply get_chan_done). reflexivity. }
  erewrite M_bind_done by (by apply get_chan_done).
  destruct (hc_done hc); [by apply fail_safe|].
  set (ch := dill_halfchan_other _ _) in *. set (hc' := mk_halfchan _ _ _ _ _ _).
  erewrite M_bind_done by reflexivity.
  assert (Hst2 : step_ok w (put_chan ch hc' w1)).
  { eapply step_trans; [exact Hst|]. by apply (step_put_chan ch hc hc' w1 (st_running _ _ Hst) Hhc). }
  destruct (halfchan_term_spec ch w (put_chan ch hc' w1) hc' Hst2) as (w2 & cs & E2 & Hst3 & _).
  { cbn. by rewrite lookup_insert_eq. }
  erewrite M_bind_done by exact E2. by eapply safe_step.
Qed.

Lemma yield_safe w : running w → safe (λ _ _, True) w (dill_yield w).
Proof.
  intros H. unfold dill_yield.
  destruct (running_canblock w H) as (rc & w1 & E & Hst & Hrc). erewrite M_bind_done by exact E.
  destruct (rc <? 0); [by eapply safe_step|]. rewrite (Hrc eq_refl) in *.
  erewrite M_bind_done by reflexivity.
  destruct H as [Hw (x & Hx & Hl & Hcl)].
  erewrite M_bind_done.
  2: { apply lift_done. unfold dill_resume, upd_cr. rewrite Hx. reflexivity. }
  eapply safe_mono; [|apply wait_safe]; [done| |].
  - apply (wf_woken_self w x 0 E0 Hw Hx Hl Hcl).
  - by eapply segment_insert.
Qed.

(** *** choose *)

Definition clause_buf (w : world) (cl : dill_chclause) : Prop := buf_ok (val cl) (len cl) (w_mem w).
Definition clause_valid (t : table vobj) (cl : dill_chclause) : Prop :=
  chan_of t (ch_ cl) ≠ NULL ∧ (op cl = DILL_CHSEND ∨ op cl = DILL_CHRECV).

Lemma ret_safe {A} (P : A → world → Prop) w0 w e a :
  step_ok w0 w → (∀ w', step_ok w0 w' → P a w') → safe P w0 ((modify (set_errno e);; mret a) w).
Proof.
  intros H HP. erewrite M_bind_done by reflexivity.
  assert (Hst : step_ok w0 (set_errno e w)).
  { eapply step_trans; [exact H|]. apply step_errno, (st_running _ _ H). }
  eapply safe_step; [exact Hst|]. by apply HP.
Qed.

Lemma choose_ready_safe t cls : ∀ i w0 w,
  step_ok w0 w → represents obj_query (w_handles w0) t → Forall (clause_buf w0) cls →
  safe (λ o w', step_ok w0 w' ∧ (o = None → Forall (clause_valid t) cls)) w0 (choose_ready close i cls w).
Proof.
  induction cls as [|cl cls IH]; intros i w0 w Hst R Hb; cbn [choose_ready].
  { eapply safe_step; [exact Hst|]. split; [done|]. intros _. constructor. }
  apply Forall_cons in Hb as [Hbcl Hb].
  destruct (hquery_chan close w t (ch_ cl) (st_running _ _ Hst) (st_handles _ _ Hst t R))
    as (w1 & E & Hst1 & _ & Hch). erewrite M_bind_done by exact E.
  assert (Hst01 : step_ok w0 w1) by (by eapply step_trans).
  destruct (Z.eqb_spec (chan_of t (ch_ cl)) NULL) as [|Hn]; [by eapply safe_step; [exact Hst01|]|].
  destruct Hch as [?|Hch]; [done|]. apply (chan_ok_step _ _ _ Hst1) in Hch.
  destruct Hch as (_ & hc0 & hc & Hhc0 & Hhc & _).
  pose proof (buf_ok_step _ _ _ _ Hst01 Hbcl) as Hb1.
  destruct ((0 <? len cl) && (val cl =? NULL)); [by apply ret_safe|].
  assert (Hnext : op cl = DILL_CHSEND ∨ op cl = DILL_CHRECV →
    safe (λ o w', step_ok w0 w' ∧ (o = None → Forall (clause_valid t) (cl :: cls))) w0
      (choose_ready close (i + 1) cls w1)).
  { intros Hop. eapply safe_mono; [|by apply IH]. intros o w' [Hw' Ho]. split; [done|].
    intros Hnone. constructor; [by split|by apply Ho]. }
  destruct (Z.eqb_spec (op cl) DILL_CHSEND) as [Hop|Hop].
  - unfold halfchan_other. erewrite M_bind_done.
    2: { erewrite M_bind_done by (by apply get_chan_done). reflexivity. }
    erewrite M_bind_done by (by apply get_chan_done).
    destruct (hc_done hc); [by apply ret_safe|]. destruct (hc_in hc) as [|c l] eqn:Ein; [by apply Hnext; left|].
    assert (Hreg : registered ChCancel c w1) by (eapply head_registered; [exact Hhc|left; rewrite Ein; left]).
    destruct (wf_buffers _ (proj1 (st_running _ _ Hst1)) c Hreg) as (cc & Hcc & Hbc).
    erewrite M_bind_done by (by apply get_chcl_done). apply transfer_safe; try done.
    + intros Elen. rewrite Elen in *. by split.
    + intros w' Hw'. by apply ret_safe.
    + intros w' Hw'. by apply ret_safe.
  - destruct (Z.eqb_spec (op cl) DILL_CHRECV) as [Hop2|Hop2]; [|by apply ret_safe].
    erewrite M_bind_done by (by apply get_chan_done).
    destruct (hc_done hc0); [by apply ret_safe|].
    destruct (hc_out hc0) as [|c l] eqn:Eout; [by apply Hnext; right|].
    assert (Hreg : registered ChCancel c w1) by (eapply head_registered; [exact Hhc0|right; rewrite Eout; left]).
    destruct (wf_buffers _ (proj1 (st_running _ _ Hst1)) c Hreg) as (cc & Hcc & Hbc).
    erewrite M_bind_done by (by apply get_chcl_done). apply transfer_safe; try done.
    + intros Elen. rewrite Elen in *. by split.
    + intros w' Hw'. by apply ret_safe.
    + intros w' Hw'. by apply ret_safe.
Qed.

Lemma live_chan_ok w t h :
  running w → represents obj_query (w_handles w) t → chan_of t h ≠ NULL → chan_ok (chan_of t h) (w_chans w).
Proof. intros H R Hn. destruct (hquery_chan close w t h H R) as (_ & _ & _ & _ & [?|?]); done. Qed.

Lemma choose_wait_prep t cls : ∀ i w0 w,
  prep w0 w → running w0 → represents obj_query (w_handles w0) t →
  Forall (clause_buf w0) cls → Forall (clause_valid t) cls →
  ∃ w', choose_wait close i cls w = ODone tt w' ∧ prep w0 w'.
Proof.
  induction cls as [|cl cls IH]; intros i w0 w Hp Hrun R Hb Hv; [by exists w|]. cbn [choose_wait].
  apply Forall_cons in Hb as [Hbcl Hb]. apply Forall_cons in Hv as [[Hn Hop] Hv].
  destruct (prep_hquery close w0 w t (ch_ cl) Hp R) as (w1 & E & Hp1 & Ech & Em).
  erewrite M_bind_done by exact E.
  erewrite M_bind_done by (by rewrite (proj2 (Z.eqb_neq _ _) Hn)).
  pose proof (prep_chan_ok _ _ _ Hp1 (live_chan_ok w0 t (ch_ cl) Hrun R Hn)) as Hch.
  destruct Hch as (_ & hc0 & hc & Hhc0 & Hhc & _).
  assert (Hb1 : buf_ok (val cl) (len cl) (w_mem w1)) by (eapply buf_ok_dom; [apply (pr_mem _ _ Hp1)|done]).
  destruct (Z.eqb_spec (op cl) DILL_CHRECV) as [Hr|Hr].
  - edestruct (prep_clause (A := unit) w0 w1 (chan_of t (ch_ cl)) hc0 (λ c, with_in (hc_in hc0 ++ [c]) hc0)
      (λ c, lift (link_in (chan_of t (ch_ cl)) c)) (mk_chanclause (val cl) (len cl)) i)
      as (w2 & Hp2 & ->); [done|done| |by left|done|by apply IH].
    intros c w2 Ew. unfold lift, link_in. by rewrite Ew, Hhc0.
  - edestruct (prep_clause (A := unit) w0 w1 (dill_halfchan_other (chan_of t (ch_ cl)) hc0) hc
      (λ c, with_out (hc_out hc ++ [c]) hc)
      (λ c, other ← halfchan_other (chan_of t (ch_ cl)); lift (link_out other c))
      (mk_chanclause (val cl) (len cl)) i)
      as (w2 & Hp2 & ->); [done|done| |by right|done|by apply IH].
    intros c w2 Ew. unfold halfchan_other. erewrite M_bind_done.
    2: { erewrite M_bind_done; [|apply get_chan_done; by rewrite Ew]. reflexivity. }
    unfold lift, link_out. by rewrite Ew, Hhc.
Qed.

Lemma choose_safe w cls n deadline :
  running w → (∀ l, cls = Some l → Forall (clause_buf w) l ∧ (Z.to_nat n ≤ length l)%nat) →
  safe (λ _ _, True) w (dill_choose close cls n deadline w).
Proof.
  intros H Hcls. unfold dill_choose.
  destruct (running_canblock w H) as (rc & w1 & E & Hst & Hrc). erewrite M_bind_done by exact E.
  destruct (rc <? 0); [by eapply safe_step|]. rewrite (Hrc eq_refl) in *. clear Hrc E Hst w1.
  destruct (Z.ltb_spec n 0) as [|Hn]; [by apply fail_safe, step_refl|]. cbn [orb].
  destruct (negb (n =? 0) && bool_decide (cls = None)) eqn:Hg; [by apply fail_safe, step_refl|].
  assert (Hl : Forall (clause_buf w) (default [] cls) ∧ (Z.to_nat n ≤ length (default [] cls))%nat).
  { destruct cls as [l|]; [by apply Hcls|]. split; [constructor|]. simpl in *.
    rewrite andb_true_r in Hg. apply negb_false_iff, Z.eqb_eq in Hg. subst. simpl. lia. }
  destruct Hl as [Hb Hlen]. destruct (Nat.ltb_spec (length (default [] cls)) (Z.to_nat n)); [lia|].
  set (l := take (Z.to_nat n) (default [] cls)).
  assert (Hbl : Forall (clause_buf w) l) by (by apply Forall_take).
  destruct (wf_handles _ (proj1 H)) as (t & R & _).
  eapply safe_bind; [by apply (choose_ready_safe t l 0 w w (step_refl w H))|].
  intros o w' Hw' [Hst Ho]. destruct o as [i|]; [by eapply safe_step; [apply step_refl|]|].
  destruct (deadline =? 0); [by apply fail_safe, step_refl|].
  destruct (choose_wait_prep t l 0 w' w' (prep_refl _ _ (step_refl _ Hw')) Hw') as (w2 & E2 & Hp2).
  { by apply (st_handles _ _ Hst). }
  { eapply Forall_impl; [exact Hbl|]. intros cl. by apply buf_ok_step. }
  { by apply Ho. }
  erewrite M_bind_done by exact E2. apply prep_wait; [done|].
  intros id w3 Hw3. destruct (id <? 0); [by eapply safe_step; [apply step_refl|]|].
  destruct (id =? n); [by apply fail_safe, step_refl|by eapply safe_step; [apply step_refl|]].
Qed.
End Safe.
