(* ===== verification/Chanspec.v ===== *)
(** What the channel operations of [chan.c] promise: they never crash, a message
    goes from one sender to one receiver, [chdone] wakes everybody, [choose] takes
    the first clause that is ready. *)

From S2P Require Import Prelude Handle Iol World Cr Chan.
From Stdlib Require Import ZArith Lia.
From stdpp Require Import base gmap list.
Open Scope Z_scope.

(** * Looking up a channel *)

(** Handle [h] of the table designates the half-channel at [ch]. *)
Definition designates (w : world) (h ch : Z) : Prop :=
  ∃ t, represents obj_query (w_handles w) t ∧ live t !! h = Some (VChan ch) ∧ ch ≠ NULL.

(** The running coroutine may block. *)
Definition may_block (w : world) : Prop :=
  ∃ x, w_crs w !! w_r w = Some x ∧ cr_no_blocking1 x = false ∧ cr_no_blocking2 x = false.

Lemma may_block_canblock w : may_block w → dill_canblock w = ODone 0 w.
Proof. intros (x & Hx & H1 & H2). rewrite (canblock_spec w x Hx). by rewrite H1, H2. Qed.

Section Lookup.
Context (close : vobj → M unit).

Lemma designates_hquery w h ch :
  running w → designates w h ch →
  ∃ c e, @dill_hquery vobj M _ _ (runtime_env close) h dill_halfchan_type w
      = ODone ch (set_errno e (set_handles c w)) ∧ running (set_errno e (set_handles c w)).
Proof.
  intros H (t & R & Hl & Hn). destruct (hquery_chan close w t h H R) as (w1 & E & Hst & (c & e & ->) & _).
  exists c, e. unfold chan_of in E. rewrite Hl in E. simpl in E. split; [exact E|].
  apply (st_running _ _ Hst).
Qed.
End Lookup.

(** * A message changes hands *)

(** The coroutine that clause [c] of [w] belongs to has been made ready, with the
    clause's id and the given [errno]; it comes after those already ready, none of
    its clauses is linked any more, and the other clauses are untouched. *)
Definition handed (err : errno_t) (c : Z) (w w' : world) : Prop :=
  ∃ cl x, w_cls w !! c = Some cl ∧ w_crs w !! cl_cr cl = Some x ∧ c ∈ clauses x ∧
    w_crs w' !! cl_cr cl = Some (resumed (cl_id cl) err x) ∧
    w_ready w' = w_ready w ++ [cl_cr cl] ∧
    ∀ k c', registered k c' w' ↔ registered k c' w ∧ c' ∉ clauses x.

Lemma trigger_handed w c err :
  running w → registered ChCancel c w →
  ∃ w', dill_trigger c err w = Some w' ∧ running w' ∧ handed err c w w' ∧ w_mem w' = w_mem w ∧
    w_errno w' = w_errno w ∧ w_r w' = w_r w.
Proof.
  intros H Hr.
  destruct (trigger_spec w ChCancel c err H Hr) as (cl & x & m & p & Hcl & Hx & Hin & Hl & Hne & E & Hp & Hw').
  eexists. split; [exact E|]. split; [exact Hw'|]. split; [|done].
  exists cl, x. repeat (split; [done|]). split; [cbn; by rewrite lookup_insert_eq|]. split; [done|].
  intros k c'. rewrite <- (registered_cancelled (clauses x) m p w Hp). by destruct k.
Qed.

Lemma load_shift n : ∀ a b v m, a < b →
  load_bytes b n (<[a := v]> m) = load_bytes b n m.
Proof.
  induction n as [|n IH]; intros a b v m Hab; [done|]. cbn [load_bytes].
  rewrite lookup_insert_ne by lia. rewrite IH by lia. done.
Qed.

Lemma store_head bs : ∀ a b v m m', a < b →
  store_bytes b bs m = Some m' → m !! a = Some v → m' !! a = Some v.
Proof.
  induction bs as [|x bs IH]; intros a b v m m' Hab Hs Ha; cbn [store_bytes] in Hs; [by simplify_eq|].
  destruct (m !! b); [|done]. eapply (IH a (b + 1)); [lia|exact Hs|].
  by rewrite lookup_insert_ne by lia.
Qed.

(** What was stored is loaded. *)
Lemma store_load bs : ∀ a m m', store_bytes a bs m = Some m' → load_bytes a (length bs) m' = Some bs.
Proof.
  induction bs as [|b bs IH]; intros a m m' Hs; [done|]. cbn [store_bytes] in Hs.
  destruct (m !! a); [|done]. cbn [length load_bytes].
  rewrite (store_head bs a (a + 1) b _ m' ltac:(lia) Hs) by apply lookup_insert_eq.
  by rewrite (IH _ _ _ Hs).
Qed.

Lemma load_length n : ∀ a m bs, load_bytes a n m = Some bs → length bs = n.
Proof.
  induction n as [|n IH]; intros a m bs Hl; cbn [load_bytes] in Hl; [by simplify_eq|].
  obind. simpl. f_equal. by eapply IH.
Qed.

(** The copy of [n] bytes from [src] to [dst] has been made in [m']. *)
Definition copied (dst src n : Z) (m m' : gmap Z Z) : Prop :=
  ∃ bs, load_bytes src (Z.to_nat n) m = Some bs ∧ store_bytes dst bs m = Some m' ∧
    load_bytes dst (Z.to_nat n) m' = Some bs.

(** The shared end of an immediate transfer with the peer's clause [c]. *)
Lemma transfer_spec w c dst src n :
  running w → registered ChCancel c w →
  buf_ok dst n (w_mem w) → buf_ok src n (w_mem w) →
  ∃ w', (∀ B (k : M B), (lift (memcpy dst src n);; lift (dill_trigger c E0);; k) w = k w') ∧ running w' ∧
    handed E0 c w w' ∧ copied dst src n (w_mem w) (w_mem w').
Proof.
  intros H Hr Hd Hs. destruct (memcpy_step dst src n w H Hd Hs) as (bs & m & El & Es & E & Hst).
  destruct (trigger_handed (set_mem m w) c E0 (st_running _ _ Hst) Hr) as (w' & E' & Hw' & Hh & Hm & _).
  exists w'. split.
  { intros B k. erewrite M_bind_done by (apply lift_done; exact E).
    by erewrite M_bind_done by (apply lift_done; exact E'). }
  split; [done|]. split; [exact Hh|]. exists bs. split; [done|]. rewrite Hm. split; [done|].
  rewrite <- (load_length _ _ _ _ El). by eapply store_load.
Qed.

Lemma mismatch_spec w c :
  running w → registered ChCancel c w →
  ∃ w', (∀ B (k : M B), (lift (dill_trigger c EMSGSIZE);; k) w = k w') ∧ running w' ∧
    handed EMSGSIZE c w w' ∧ w_mem w' = w_mem w.
Proof.
  intros H Hr. destruct (trigger_handed w c EMSGSIZE H Hr) as (w' & E & Hw' & Hh & Hm & _).
  exists w'. split; [|done]. intros B k. by erewrite M_bind_done by (apply lift_done; exact E).
Qed.

(** What an operation that finds its peer's clause [c] waiting does: the peer's
    buffer is [cc_val]. *)
Definition met (c : Z) (dst src : dill_chanclause → Z) (n : Z) (w : world) (o : outcome Z) : Prop :=
  ∃ cc, w_chcls w !! c = Some cc ∧
    if n =? cc_len cc then
      ∃ w', o = ODone 0 w' ∧ running w' ∧ handed E0 c w w' ∧
        copied (dst cc) (src cc) n (w_mem w) (w_mem w')
    else
      ∃ w', o = ODone (-1) w' ∧ running w' ∧ w_errno w' = EMSGSIZE ∧ handed EMSGSIZE c w w' ∧
        w_mem w' = w_mem w.

Lemma registered_same k x c e w : registered k x (set_errno e (set_handles c w)) ↔ registered k x w.
Proof. by destruct k. Qed.

Lemma handed_same err x c e w w' : handed err x (set_errno e (set_handles c w)) w' → handed err x w w'.
Proof.
  intros (cl & y & H1 & H2 & H3 & H4 & H5 & H6). exists cl, y. repeat (split; [done|]).
  intros k c'. by rewrite H6, registered_same.
Qed.

Lemma handed_errno err c e w w' : handed err c w w' → handed err c w (set_errno e w').
Proof.
  intros (cl & y & A1 & A2 & A3 & A4 & A5 & A6). exists cl, y. repeat (split; [done|]).
  intros k x'. rewrite <- A6. by destruct k.
Qed.

Lemma met_intro w c e x (dst src : dill_chanclause → Z) v n :
  running (set_errno e (set_handles c w)) → registered ChCancel x w →
  buf_ok v n (w_mem w) →
  (∀ cc, (dst cc = cc_val cc ∧ src cc = v) ∨ (dst cc = v ∧ src cc = cc_val cc)) →
  met x dst src n w ((cc ← get_chcl x;
    if negb (n =? cc_len cc) then lift (dill_trigger x EMSGSIZE);; fail EMSGSIZE
    else lift (memcpy (dst cc) (src cc) n);; lift (dill_trigger x E0);; mret 0)
    (set_errno e (set_handles c w))).
Proof.
  intros H Hr Hb Hds. set (w1 := set_errno e (set_handles c w)) in *.
  assert (Hr1 : registered ChCancel x w1) by (by apply registered_same).
  destruct (wf_buffers _ (proj1 H) x Hr1) as (cc & Hcc & Hbc).
  erewrite M_bind_done by (by apply get_chcl_done). exists cc. split; [exact Hcc|].
  destruct (Z.eqb_spec n (cc_len cc)) as [->|Hne]; cbn [negb].
  - assert (Hbufs : buf_ok (dst cc) (cc_len cc) (w_mem w1) ∧ buf_ok (src cc) (cc_len cc) (w_mem w1)).
    { destruct (Hds cc) as [[-> ->]|[-> ->]]; by split. }
    destruct (transfer_spec w1 x _ _ _ H Hr1 (proj1 Hbufs) (proj2 Hbufs)) as (w' & E & Hw' & Hh & Hc).
    exists w'. split; [by rewrite E|]. split; [done|]. split; [by eapply handed_same|done].
  - destruct (mismatch_spec w1 x H Hr1) as (w' & E & Hw' & Hh & Hm).
    exists (set_errno EMSGSIZE w'). split; [by rewrite E|]. split; [by apply running_set_errno|].
    split; [done|]. split; [|done]. apply handed_errno. by eapply handed_same.
Qed.

(** ** Waiting *)

(** The result and [errno] of a send or receive that was resumed with [id] and
    [err]. *)
Definition chan_result (id : Z) (err : errno_t) : Z * errno_t :=
  if id <? 0 then (-1, err)
  else if id =? 1 then (-1, ETIMEDOUT)
  else if bool_decide (err = E0) then (0, E0) else (-1, err).

(** The rest of a send or receive, run when its coroutine is resumed. *)
Definition finishes (k : world → outcome Z) : Prop :=
  ∀ w x, w_crs w !! w_r w = Some x →
    ∃ w', k w = ODone (chan_result (cr_id x) (cr_err x)).1 w' ∧
      w_errno w' = (chan_result (cr_id x) (cr_err x)).2 ∧ w_mem w' = w_mem w ∧ w_chans w' = w_chans w.

(** The running coroutine of [w] has suspended in [w1] on half-channel [ch], which
    is now [hc']: clause [w_next_id w] carries the buffer, and unless the deadline
    is infinite the next clause is the timer. *)
Record suspended_on (ch : Z) (hc' : dill_halfchan) (val len deadline : Z) (w w1 : world) : Prop := {
  su_wf : wf w1;
  su_chan : w_chans w1 = <[ch := hc']> (w_chans w);
  su_chcl : w_chcls w1 !! w_next_id w = Some (mk_chanclause val len);
  su_clause : w_cls w1 !! w_next_id w = Some (mk_clause (w_r w) 0 ChCancel);
  su_timer : 0 ≤ deadline → w_cls w1 !! (w_next_id w + 1) = Some (mk_clause (w_r w) 1 TimerCancel);
  su_timers : w_timers w1 = if deadline <? 0 then w_timers w
                            else timer_insert deadline (w_next_id w + 1) (w_timers w);
  su_cr : ∃ x, w_crs w1 !! w_r w = Some x ∧ ready_linked x = false ∧
    clauses x = if deadline <? 0 then [w_next_id w] else [w_next_id w + 1; w_next_id w];
  su_r : w_r w1 = w_r w;
  su_mem : w_mem w1 = w_mem w;
}.

Lemma timer_run w x c id deadline :
  wf w → w_cls w !! c = None → c < w_next_id w → w_crs w !! w_r w = Some x → ready_linked x = false →
  ∃ w', dill_timer c id deadline w = Some w' ∧ wf w' ∧
    w' = if deadline <? 0 then w
         else waited c id TimerCancel x (set_timers (timer_insert deadline c (w_timers w)) w).
Proof.
  intros H Hc Hfr Hx Hxl. unfold dill_timer. destruct (deadline <? 0); [by exists w|].
  destruct (waitfor_spec w _ x c id TimerCancel H (timer_linked w deadline c H Hc) Hc Hfr Hx Hxl) as [E H'].
  eexists. split; [exact E|]. by split.
Qed.

Lemma suspend_spec w c e ch hc hc' link val len deadline :
  running (set_errno e (set_handles c w)) → w_chans w !! ch = Some hc →
  (∀ x w1, w_chans w1 = w_chans w → link x w1 = ODone tt (put_chan ch (hc' x) w1)) →
  (∀ x, hc' x = with_in (hc_in hc ++ [x]) hc ∨ hc' x = with_out (hc_out hc ++ [x]) hc) →
  buf_ok val len (w_mem w) →
  ∃ w1 k, (c ← fresh_addr; link c;; modify (put_chcl c (mk_chanclause val len));;
      lift (dill_waitfor c 0 ChCancel);; t ← fresh_addr; lift (dill_timer t 1 deadline);;
      id ← dill_wait;
      if id <? 0 then mret (-1)
      else if id =? 1 then fail ETIMEDOUT
      else e ← gets w_errno; if bool_decide (e = E0) then mret 0 else mret (-1))
      (set_errno e (set_handles c w)) = OWait w1 k ∧
    suspended_on ch (hc' (w_next_id w)) val len deadline w w1 ∧ finishes k.
Proof.
  intros [Hw (x & Hx & Hl & Hcs)] Hch Hlink Hhc Hb. set (w0 := set_errno e (set_handles c w)) in *.
  destruct (wf_fresh_addr w0 Hw) as [Hw1 Hfr]. set (n := w_next_id w) in *.
  change (w_next_id w0) with n in *. set (w1 := set_next_id (n + 1) w0) in *.
  pose proof (chan_linked_in ch hc (hc' n) n (mk_chanclause val len) w1 Hw1 Hch Hfr (Hhc n) Hb) as L.
  destruct (waitfor_spec w1 _ x n 0 ChCancel Hw1 L Hfr ltac:(cbn; lia) Hx Hl) as [E Hw2].
  set (w2 := waited n 0 ChCancel x _) in *.
  destruct (wf_fresh_addr w2 Hw2) as [Hw3 Hfr3]. change (w_next_id w2) with (n + 1) in *.
  set (w3 := set_next_id (n + 1 + 1) w2) in *.
  assert (Hx3 : w_crs w3 !! w_r w3 = Some (push_clause n x)) by (cbn; apply lookup_insert_eq).
  destruct (timer_run w3 (push_clause n x) (n + 1) 1 deadline Hw3 Hfr3 ltac:(cbn; lia) Hx3 Hl)
    as (w4 & E4 & Hw4 & Ew4).
  exists w4. eexists. split; [|split].
  - erewrite M_bind_done by done. erewrite M_bind_done by (apply Hlink; done).
    erewrite M_bind_done by done. erewrite M_bind_done by (apply lift_done; exact E).
    erewrite M_bind_done by done. erewrite M_bind_done by (apply lift_done; exact E4). reflexivity.
  - rewrite Ew4 in *. clear Ew4 E4.
    destruct (deadline <? 0) eqn:Ed; constructor; rewrite ?Ed; try done; try lia.
    + cbn. apply lookup_insert_eq.
    + cbn. apply lookup_insert_eq.
    + exists (push_clause n x). cbn. by rewrite lookup_insert_eq, Hcs.
    + cbn. apply lookup_insert_eq.
    + cbn. rewrite lookup_insert_ne by lia. apply lookup_insert_eq.
    + intros _. cbn. apply lookup_insert_eq.
    + exists (push_clause (n + 1) (push_clause n x)). cbn. by rewrite lookup_insert_eq, Hcs.
  - intros w' y Hy. unfold dill_resumed. rewrite Hy. cbn [obind_]. unfold chan_result.
    destruct (cr_id y <? 0); [by eexists|]. destruct (cr_id y =? 1); [by eexists|].
    erewrite M_bind_done by done. cbn [w_errno set_errno].
    destruct (bool_decide (cr_err y = E0)) eqn:Eb; (eexists; split; [reflexivity|]); [|done].
    by apply bool_decide_eq_true in Eb.
Qed.

Section Rendezvous.
Context (close : vobj → M unit).

(** C5. A sender meets a waiting receiver: when receivers wait on the other half of
    the channel, [dill_chsend] serves the one that came first. If the lengths agree
    the bytes of the message are copied into the receiver's buffer and 0 is
    returned; if they differ, both sides get EMSGSIZE and no byte is copied. In
    both cases the receiver is queued behind the coroutines already ready, with the
    id of its clause, and all its other clauses (timer, other channels) are
    unlinked, while nobody else's are. *)
Theorem chsend_meets_receiver w h ch hc0 hc c l val len deadline :
  running w → may_block w → designates w h ch →
  w_chans w !! ch = Some hc0 → w_chans w !! dill_halfchan_other ch hc0 = Some hc →
  hc_done hc = false → hc_in hc = c :: l → buf_ok val len (w_mem w) →
  met c cc_val (λ _, val) len w (dill_chsend close h val len deadline w).
Proof.
  intros H Hmb Hd Hch0 Hch Hdone Hin Hb. unfold dill_chsend.
  erewrite M_bind_done by (by apply may_block_canblock). cbn [Z.ltb Z.compare].
  destruct (designates_hquery close w h ch H Hd) as (cs & e & E & H1). erewrite M_bind_done by exact E.
  destruct Hd as (t & R & Hl & Hn). rewrite (proj2 (Z.eqb_neq _ _) Hn).
  unfold halfchan_other. erewrite M_bind_done.
  2: { erewrite M_bind_done by (by apply get_chan_done). reflexivity. }
  erewrite M_bind_done by (by apply get_chan_done). rewrite Hdone, Hin.
  apply (met_intro w cs e c cc_val (λ _, val) val len); [done| |done|by left].
  eapply head_registered; [exact Hch|left]. rewrite Hin. left.
Qed.

(** C6. A receiver meets a waiting sender: when senders wait on the half-channel,
    [dill_chrecv] serves the one that came first, with the same outcomes as
    [dill_chsend] with the roles of the buffers exchanged. *)
Theorem chrecv_meets_sender w h ch hc c l val len deadline :
  running w → may_block w → designates w h ch →
  w_chans w !! ch = Some hc → hc_done hc = false → hc_out hc = c :: l → buf_ok val len (w_mem w) →
  met c (λ _, val) cc_val len w (dill_chrecv close h val len deadline w).
Proof.
  intros H Hmb Hd Hch Hdone Hout Hb. unfold dill_chrecv.
  erewrite M_bind_done by (by apply may_block_canblock). cbn [Z.ltb Z.compare].
  destruct (designates_hquery close w h ch H Hd) as (cs & e & E & H1). erewrite M_bind_done by exact E.
  destruct Hd as (t & R & Hl & Hn). rewrite (proj2 (Z.eqb_neq _ _) Hn).
  erewrite M_bind_done by (by apply get_chan_done). rewrite Hdone, Hout.
  apply (met_intro w cs e c (λ _, val) cc_val val len); [done| |done|by right].
  eapply head_registered; [exact Hch|right]. rewrite Hout. left.
Qed.

(** C13. A receiver that finds no sender: with a zero deadline [dill_chrecv] fails
    with ETIMEDOUT at once; otherwise it suspends, last in the queue of the
    half-channel, with its buffer registered and a timer unless the deadline is
    infinite, and when resumed returns by the reason of the resumption: 0 when a
    sender wrote the message, -1 with ETIMEDOUT from the timer, -1 with EPIPE,
    EMSGSIZE or ECANCELED when that is what it was woken with. *)
Theorem chrecv_waits w h ch hc val len deadline :
  running w → may_block w → designates w h ch →
  w_chans w !! ch = Some hc → hc_done hc = false → hc_out hc = [] → buf_ok val len (w_mem w) →
  if deadline =? 0 then
    ∃ w', dill_chrecv close h val len deadline w = ODone (-1) w' ∧ w_errno w' = ETIMEDOUT ∧ running w' ∧
      w_chans w' = w_chans w
  else
    ∃ w1 k, dill_chrecv close h val len deadline w = OWait w1 k ∧
      suspended_on ch (with_in (hc_in hc ++ [w_next_id w]) hc) val len deadline w w1 ∧ finishes k.
Proof.
  intros H Hmb Hd Hch Hdone Hout Hb. unfold dill_chrecv.
  erewrite M_bind_done by (by apply may_block_canblock). cbn [Z.ltb Z.compare].
  destruct (designates_hquery close w h ch H Hd) as (cs & e & E & H1). erewrite M_bind_done by exact E.
  destruct Hd as (t & R & Hl & Hn). rewrite (proj2 (Z.eqb_neq _ _) Hn).
  erewrite M_bind_done by (by apply get_chan_done). rewrite Hdone, Hout.
  destruct (deadline =? 0).
  { eexists. split; [reflexivity|]. split; [done|]. split; [by apply running_set_errno|done]. }
  apply (suspend_spec w cs e ch hc (λ x, with_in (hc_in hc ++ [x]) hc)); [done|done| |by left|done].
  intros x w1 Ew. unfold lift, link_in. by rewrite Ew, Hch.
Qed.

(** A sender that finds no receiver: as [chrecv_waits], on the other half of
    the channel and among the senders. *)
Lemma chsend_waits w h ch hc0 hc val len deadline :
  running w → may_block w → designates w h ch →
  w_chans w !! ch = Some hc0 → w_chans w !! dill_halfchan_other ch hc0 = Some hc →
  hc_done hc = false → hc_in hc = [] → buf_ok val len (w_mem w) →
  if deadline =? 0 then
    ∃ w', dill_chsend close h val len deadline w = ODone (-1) w' ∧ w_errno w' = ETIMEDOUT ∧ running w' ∧
      w_chans w' = w_chans w
  else
    ∃ w1 k, dill_chsend close h val len deadline w = OWait w1 k ∧
      suspended_on (dill_halfchan_other ch hc0) (with_out (hc_out hc ++ [w_next_id w]) hc) val len
        deadline w w1 ∧ finishes k.
Proof.
  intros H Hmb Hd Hch0 Hch Hdone Hin Hb. unfold dill_chsend.
  erewrite M_bind_done by (by apply may_block_canblock). cbn [Z.ltb Z.compare].
  destruct (designates_hquery close w h ch H Hd) as (cs & e & E & H1). erewrite M_bind_done by exact E.
  destruct Hd as (t & R & Hl & Hn). rewrite (proj2 (Z.eqb_neq _ _) Hn).
  unfold halfchan_other. erewrite M_bind_done.
  2: { erewrite M_bind_done by (by apply get_chan_done). reflexivity. }
  erewrite M_bind_done by (by apply get_chan_done). rewrite Hdone, Hin.
  destruct (deadline =? 0).
  { eexists. split; [reflexivity|]. split; [done|]. split; [by apply running_set_errno|done]. }
  apply (suspend_spec w cs e _ hc (λ x, with_out (hc_out hc ++ [x]) hc)); [done|done| |by right|done].
  intros x w1 Ew. unfold lift, link_out. by rewrite Ew, Hch.
Qed.
End Rendezvous.

(** * Failures *)

Section Failures.
Context (close : vobj → M unit).

Lemma hquery_fails w t h ty :
  represents obj_query (w_handles w) t →
  match live t !! h with Some v => obj_query v ty = NULL | None => True end →
  @dill_hquery vobj M _ _ (runtime_env close) h ty w =
    ODone NULL (set_errno (match live t !! h with Some _ => ENOTSUP | None => EBADF end) w).
Proof.
  intros R Hq. pose proof (run_hquery (HR := M_run close) w t h ty R) as H.
  cbn [hrun hr_err M_run] in H. destruct (live t !! h) as [v|]; [|exact H]. rewrite Hq in H. exact H.
Qed.

(** [errno] when handle [h] is no channel. *)
Definition not_a_channel (w : world) (h : Z) (e : errno_t) : Prop :=
  ∃ t, represents obj_query (w_handles w) t ∧
    match live t !! h with
    | Some v => obj_query v dill_halfchan_type = NULL ∧ e = ENOTSUP
    | None => e = EBADF
    end.

Lemma not_a_channel_hquery w h e :
  not_a_channel w h e →
  @dill_hquery vobj M _ _ (runtime_env close) h dill_halfchan_type w = ODone NULL (set_errno e w).
Proof.
  intros (t & R & He). rewrite (hquery_fails w t h dill_halfchan_type R).
  - destruct (live t !! h); [by destruct He as [_ ->]|by subst].
  - destruct (live t !! h); [by destruct He|done].
Qed.

(** C28. Refusals that change nothing but [errno]: a coroutine that is being
    canceled, or that runs inside hclose, gets ECANCELED from every blocking
    operation; and a handle that is closed, or that is no channel, gives EBADF or
    ENOTSUP, for sending, receiving and ending the channel. *)
Theorem chan_op_refusals w h val len deadline :
  ((∃ x, w_crs w !! w_r w = Some x ∧ cr_no_blocking1 x || cr_no_blocking2 x = true) →
    dill_chsend close h val len deadline w = ODone (-1) (set_errno ECANCELED w) ∧
    dill_chrecv close h val len deadline w = ODone (-1) (set_errno ECANCELED w) ∧
    (∀ cls n, dill_choose close cls n deadline w = ODone (-1) (set_errno ECANCELED w)) ∧
    dill_yield w = ODone (-1) (set_errno ECANCELED w)) ∧
  (∀ e, may_block w → not_a_channel w h e →
    dill_chsend close h val len deadline w = ODone (-1) (set_errno e w) ∧
    dill_chrecv close h val len deadline w = ODone (-1) (set_errno e w) ∧
    dill_chdone close h w = ODone (-1) (set_errno e w)).
Proof.
  split.
  - intros (x & Hx & Hb). pose proof (canblock_spec w x Hx) as E. rewrite Hb in E.
    unfold dill_chsend, dill_chrecv, dill_choose, dill_yield.
    repeat split; intros; by erewrite M_bind_done by exact E.
  - intros e Hmb Hn. pose proof (not_a_channel_hquery w h e Hn) as E.
    unfold dill_chsend, dill_chrecv, dill_chdone.
    split; [|split]; [erewrite M_bind_done by (by apply may_block_canblock)..|];
      cbn [Z.ltb Z.compare]; by erewrite M_bind_done by exact E.
Qed.

Lemma fail_done e w : fail e w = ODone (-1) (set_errno e w).
Proof. done. Qed.

(** C9. Ending a channel: [dill_chdone] marks the other half as done and wakes every
    coroutine that waits on it, to receive or to send, with EPIPE, leaving no
    clause linked there; doing it twice fails with EPIPE, and from then on so do
    sending through this handle, and receiving from the other half. *)
Theorem chdone_ends_channel w h ch hc0 hc :
  running w → designates w h ch →
  w_chans w !! ch = Some hc0 → w_chans w !! dill_halfchan_other ch hc0 = Some hc →
  (hc_done hc = false →
    ∃ w' hc', dill_chdone close h w = ODone 0 w' ∧ running w' ∧
      w_chans w' !! dill_halfchan_other ch hc0 = Some hc' ∧
      hc_done hc' = true ∧ hc_in hc' = [] ∧ hc_out hc' = [] ∧
      ∀ c cl, c ∈ hc_in hc ∨ c ∈ hc_out hc → w_cls w !! c = Some cl → woken_with EPIPE (cl_cr cl) w') ∧
  (hc_done hc = true →
    (∃ w', dill_chdone close h w = ODone (-1) w' ∧ w_errno w' = EPIPE ∧ w_chans w' = w_chans w) ∧
    (may_block w → ∀ val len deadline,
      (∃ w', dill_chsend close h val len deadline w = ODone (-1) w' ∧ w_errno w' = EPIPE ∧ w_chans w' = w_chans w) ∧
      ∀ h', designates w h' (dill_halfchan_other ch hc0) →
        ∃ w', dill_chrecv close h' val len deadline w = ODone (-1) w' ∧ w_errno w' = EPIPE ∧ w_chans w' = w_chans w)).
Proof.
  intros H Hd Hch0 Hch.
  destruct (designates_hquery close w h ch H Hd) as (cs & e & E & H1).
  pose proof Hd as (t & R & Hl & Hn). apply Z.eqb_neq in Hn as Hn'.
  assert (Eo : halfchan_other ch (set_errno e (set_handles cs w)) =
    ODone (dill_halfchan_other ch hc0) (set_errno e (set_handles cs w))).
  { unfold halfchan_other. by erewrite M_bind_done by (by apply get_chan_done). }
  split.
  - intros Hdone. unfold dill_chdone. erewrite M_bind_done by exact E. rewrite Hn'.
    erewrite M_bind_done by exact Eo. erewrite M_bind_done by (by apply get_chan_done). rewrite Hdone.
    set (hc1 := mk_halfchan _ _ _ _ _ _). erewrite M_bind_done by reflexivity.
    set (w1 := set_errno e (set_handles cs w)) in *.
    assert (Hst : step_ok w1 (put_chan (dill_halfchan_other ch hc0) hc1 w1)) by (by eapply step_put_chan).
    destruct (halfchan_term_spec (dill_halfchan_other ch hc0) w1 _ hc1 Hst) as (w2 & cs2 & E2 & Hst2 & Hhc2 & Hwk & Hall).
    { cbn. apply lookup_insert_eq. }
    erewrite M_bind_done by exact E2. exists w2, (unlink_all cs2 hc1).
    split; [done|]. split; [apply (st_running _ _ Hst2)|]. split; [done|]. split; [done|].
    assert (Hnil : ∀ l : list Z, (∀ c, c ∈ l → c ∈ cs2) → filter (λ c, c ∉ cs2) l = []).
    { intros l Hlc. induction l as [|c l IH]; [done|].
      rewrite filter_cons_False by (pose proof (Hlc c ltac:(left)); tauto).
      apply IH. intros c' Hc'. apply Hlc. by right. }
    split; [apply Hnil; intros c Hc; apply Hall; by left|].
    split; [apply Hnil; intros c Hc; apply Hall; by right|].
    intros c cl Hc Hcl. apply (woke_owner _ _ _ _ Hwk c); [by apply Hall|done].
  - intros Hdone. split; [|intros Hmb val len deadline; split].
    + exists (set_errno EPIPE (set_errno e (set_handles cs w))). split; [|done]. unfold dill_chdone. erewrite M_bind_done by exact E. rewrite Hn'.
      erewrite M_bind_done by exact Eo. erewrite M_bind_done by (by apply get_chan_done).
      rewrite Hdone. apply fail_done.
    + exists (set_errno EPIPE (set_errno e (set_handles cs w))). split; [|done]. unfold dill_chsend.
      erewrite M_bind_done by (by apply may_block_canblock). cbn [Z.ltb Z.compare].
      erewrite M_bind_done by exact E. rewrite Hn'.
      erewrite M_bind_done by exact Eo. erewrite M_bind_done by (by apply get_chan_done).
      rewrite Hdone. apply fail_done.
    + intros h' Hd'. destruct (designates_hquery close w h' _ H Hd') as (cs' & e' & E' & _).
      destruct Hd' as (t' & _ & _ & Hn2). apply Z.eqb_neq in Hn2.
      exists (set_errno EPIPE (set_errno e' (set_handles cs' w))). split; [|done]. unfold dill_chrecv.
      erewrite M_bind_done by (by apply may_block_canblock). cbn [Z.ltb Z.compare].
      erewrite M_bind_done by exact E'. rewrite Hn2. erewrite M_bind_done by (by apply get_chan_done).
      rewrite Hdone. apply fail_done.
Qed.
End Failures.

(** * [dill_choose] *)

Section Choose.
Context (close : vobj → M unit).

(** The clause names a channel that is open on this side; [P hc l] is about the
    half-channel that is looked at and the queue of peers on it. *)
Definition clause_at (P : dill_halfchan → list Z → Prop) (w : world) (cl : dill_chclause) : Prop :=
  (0 < len cl → val cl ≠ NULL) ∧
  ∃ ch hc0, designates w (ch_ cl) ch ∧ w_chans w !! ch = Some hc0 ∧
    ((op cl = DILL_CHSEND ∧ ∃ hc, w_chans w !! dill_halfchan_other ch hc0 = Some hc ∧ P hc (hc_in hc)) ∨
     (op cl = DILL_CHRECV ∧ P hc0 (hc_out hc0))).

(** Nothing to do yet; peer [c] waits. *)
Definition idle : world → dill_chclause → Prop := clause_at (λ hc l, hc_done hc = false ∧ l = []).
Definition offer (c : Z) : world → dill_chclause → Prop :=
  clause_at (λ hc l, hc_done hc = false ∧ ∃ l', l = c :: l').

(** [w1] is [w] after some queries. *)
Definition requeried (w w1 : world) : Prop :=
  ∃ c e, w1 = set_errno e (set_handles c w) ∧ running w1 ∧
    ∀ t, represents obj_query (w_handles w) t → represents obj_query c t.

Lemma requeried_refl w : running w → requeried w w.
Proof. intros H. exists (w_handles w), (w_errno w). split; [by destruct w|done]. Qed.

Lemma requeried_hquery w w1 h ch :
  requeried w w1 → designates w h ch →
  ∃ w2, @dill_hquery vobj M _ _ (runtime_env close) h dill_halfchan_type w1 = ODone ch w2 ∧ requeried w w2.
Proof.
  intros (c & e & -> & H & Hk) (t & R & Hl & Hn).
  destruct (hquery_keeps close (set_errno e (set_handles c w)) t h dill_halfchan_type (Hk t R))
    as (c' & e' & E & Hk').
  rewrite Hl in E. simpl in E. eexists. split; [exact E|]. exists c', e'.
  split; [done|]. split; [|intros t' R'; by apply Hk', Hk].
  pose proof (step_handles c' _ Hk' H) as Hst. apply (running_set_errno _ _ (st_running _ _ Hst)).
Qed.

Lemma requeried_chan w w1 ch hc : requeried w w1 → w_chans w !! ch = Some hc → get_chan ch w1 = ODone hc w1.
Proof. intros (c & e & -> & _) Hc. by apply get_chan_done. Qed.

Lemma requeried_other w w1 ch hc :
  requeried w w1 → w_chans w !! ch = Some hc → halfchan_other ch w1 = ODone (dill_halfchan_other ch hc) w1.
Proof. intros H Hc. unfold halfchan_other. by erewrite M_bind_done by (by eapply requeried_chan). Qed.

(** The value check of a clause passes. *)
Lemma value_check cl : (0 < len cl → val cl ≠ NULL) → (0 <? len cl) && (val cl =? NULL) = false.
Proof.
  intros H. destruct (Z.ltb_spec 0 (len cl)) as [Hl|]; [|done]. simpl. by apply Z.eqb_neq, H.
Qed.

Lemma choose_ready_idle w pre post : ∀ i w1,
  requeried w w1 → Forall (idle w) pre →
  ∃ w2, choose_ready close i (pre ++ post) w1 = choose_ready close (i + Z.of_nat (length pre)) post w2 ∧
    requeried w w2.
Proof.
  induction pre as [|cl pre IH]; intros i w1 Hq Hpre.
  { exists w1. split; [|done]. simpl. by rewrite Z.add_0_r. }
  apply Forall_cons in Hpre as [(Hv & ch & hc0 & Hd & Hch0 & Hop) Hpre].
  cbn [app choose_ready]. destruct (requeried_hquery w w1 _ _ Hq Hd) as (w2 & E & Hq2).
  erewrite M_bind_done by exact E. destruct Hd as (t & _ & _ & Hn). rewrite (proj2 (Z.eqb_neq _ _) Hn).
  rewrite value_check by done.
  destruct (IH (i + 1) w2 Hq2 Hpre) as (w3 & E3 & Hq3). exists w3. split; [|done].
  replace (i + Z.of_nat (length (cl :: pre))) with (i + 1 + Z.of_nat (length pre)) by (simpl; lia).
  rewrite <- E3. destruct Hop as [(-> & hc & Hch & Hdone & Hin)|(-> & Hdone & Hout)]; cbn [Z.eqb Pos.eqb DILL_CHSEND DILL_CHRECV].
  - erewrite M_bind_done by (by eapply requeried_other). erewrite M_bind_done by (by eapply requeried_chan).
    by rewrite Hdone, Hin.
  - erewrite M_bind_done by (by eapply requeried_chan). by rewrite Hdone, Hout.
Qed.

(** What choosing clause [i], whose peer [c] waits, does. *)
Definition chosen (i : Z) (cl : dill_chclause) (c : Z) (w w' : world) : Prop :=
  ∃ cc, w_chcls w !! c = Some cc ∧ running w' ∧
    if len cl =? cc_len cc then
      w_errno w' = E0 ∧ handed E0 c w w' ∧
      copied (if op cl =? DILL_CHSEND then cc_val cc else val cl)
        (if op cl =? DILL_CHSEND then val cl else cc_val cc) (len cl) (w_mem w) (w_mem w')
    else w_errno w' = EMSGSIZE ∧ handed EMSGSIZE c w w' ∧ w_mem w' = w_mem w.


Lemma transfer_chosen w w1 i cl x (dst src : dill_chanclause → Z) :
  requeried w w1 → registered ChCancel x w → clause_buf w cl →
  dst = (λ cc, if op cl =? DILL_CHSEND then cc_val cc else val cl) →
  src = (λ cc, if op cl =? DILL_CHSEND then val cl else cc_val cc) →
  ∃ w', (cc ← get_chcl x;
    if negb (len cl =? cc_len cc) then
      lift (dill_trigger x EMSGSIZE);; modify (set_errno EMSGSIZE);; mret (Some i)
    else lift (memcpy (dst cc) (src cc) (len cl));; lift (dill_trigger x E0);;
      modify (set_errno E0);; mret (Some i)) w1 = ODone (Some i) w' ∧ chosen i cl x w w'.
Proof.
  intros (c & e & -> & H & _) Hr Hb Edst Esrc. set (w1 := set_errno e (set_handles c w)) in *.
  assert (Hr1 : registered ChCancel x w1) by (by apply registered_same).
  destruct (wf_buffers _ (proj1 H) x Hr1) as (cc & Hcc & Hbc).
  erewrite M_bind_done by (by apply get_chcl_done). unfold chosen.
  destruct (Z.eqb_spec (len cl) (cc_len cc)) as [E|E]; cbn [negb].
  - assert (Hd : buf_ok (dst cc) (len cl) (w_mem w1) ∧ buf_ok (src cc) (len cl) (w_mem w1)).
    { rewrite Edst, Esrc, E in *. destruct (op cl =? DILL_CHSEND); split; try done; unfold clause_buf in Hb;
        by rewrite E in Hb. }
    destruct (transfer_spec w1 x _ _ _ H Hr1 (proj1 Hd) (proj2 Hd)) as (w' & Ew & Hw' & Hh & Hc).
    exists (set_errno E0 w'). split; [by rewrite Ew|]. exists cc. split; [exact Hcc|].
    split; [by apply running_set_errno|]. rewrite E, Z.eqb_refl. split; [done|].
    split; [by apply handed_errno; eapply handed_same|]. rewrite Edst, Esrc, E in Hc. exact Hc.
  - destruct (mismatch_spec w1 x H Hr1) as (w' & Ew & Hw' & Hh & Hm).
    exists (set_errno EMSGSIZE w'). split; [by rewrite Ew|]. exists cc. split; [exact Hcc|].
    split; [by apply running_set_errno|]. apply Z.eqb_neq in E. rewrite E. split; [done|].
    split; [by apply handed_errno; eapply handed_same|done].
Qed.

Lemma choose_ready_offer w w1 i cl post x :
  requeried w w1 → offer x w cl → clause_buf w cl →
  ∃ w', choose_ready close i (cl :: post) w1 = ODone (Some i) w' ∧ chosen i cl x w w'.
Proof.
  intros Hq (Hv & ch & hc0 & Hd & Hch0 & Hop) Hb. cbn [choose_ready].
  destruct (requeried_hquery w w1 _ _ Hq Hd) as (w2 & E & Hq2). erewrite M_bind_done by exact E.
  destruct Hd as (t & _ & _ & Hn). rewrite (proj2 (Z.eqb_neq _ _) Hn). rewrite value_check by done.
  destruct Hop as [(Hop & hc & Hch & Hdone & l' & Hin)|(Hop & Hdone & l' & Hout)].
  - rewrite Hop. cbn [Z.eqb Pos.eqb DILL_CHSEND]. erewrite M_bind_done by (by eapply requeried_other).
    erewrite M_bind_done by (by eapply requeried_chan). rewrite Hdone, Hin.
    apply (transfer_chosen w w2 i cl x cc_val (λ _, val cl)); try done; [|by rewrite Hop..].
    eapply head_registered; [exact Hch|left]. rewrite Hin. left.
  - rewrite Hop. cbn [Z.eqb Pos.eqb DILL_CHSEND DILL_CHRECV]. erewrite M_bind_done by (by eapply requeried_chan).
    rewrite Hdone, Hout.
    apply (transfer_chosen w w2 i cl x (λ _, val cl) cc_val); try done; [|by rewrite Hop..].
    eapply head_registered; [exact Hch0|right]. rewrite Hout. left.
Qed.

Lemma choose_start w cls deadline :
  may_block w →
  dill_choose close (Some cls) (Z.of_nat (length cls)) deadline w =
    (o ← choose_ready close 0 cls;
     match o with
     | Some i => mret i
     | None =>
       if deadline =? 0 then fail ETIMEDOUT
       else
         choose_wait close 0 cls;; t ← fresh_addr; lift (dill_timer t (Z.of_nat (length cls)) deadline);;
         id ← dill_wait;
         if id <? 0 then mret (-1)
         else if id =? Z.of_nat (length cls) then fail ETIMEDOUT else mret id
     end) w.
Proof.
  intros Hmb. unfold dill_choose. erewrite M_bind_done by (by apply may_block_canblock).
  cbn [Z.ltb Z.compare]. destruct (Z.ltb_spec (Z.of_nat (length cls)) 0); [lia|].
  rewrite bool_decide_false, andb_false_r by done. cbn [orb default].
  rewrite Nat2Z.id. change (id cls) with cls.
  destruct (Nat.ltb_spec (length cls) (length cls)); [lia|]. by rewrite firstn_all.
Qed.

(** C8. [dill_choose] takes the first clause that can proceed: if every clause before
    clause [i] is idle and a peer waits for clause [i], it completes that clause,
    as the plain operation would, and returns [i], with [errno] 0, or EMSGSIZE (and
    no copy) when the lengths differ; the other clauses have no effect. *)
Theorem choose_takes_first w pre cl post c deadline :
  running w → may_block w → Forall (idle w) pre → offer c w cl → clause_buf w cl →
  let i := Z.of_nat (length pre) in
  let cls := pre ++ cl :: post in
  ∃ w', dill_choose close (Some cls) (Z.of_nat (length cls)) deadline w = ODone i w' ∧ chosen i cl c w w'.
Proof.
  intros H Hmb Hpre Hcl Hb i cls. rewrite choose_start by done.
  destruct (choose_ready_idle w pre (cl :: post) 0 w (requeried_refl w H) Hpre) as (w1 & E & Hq).
  destruct (choose_ready_offer w w1 i cl post c Hq Hcl Hb) as (w2 & E2 & Hc).
  rewrite Z.add_0_l in E. fold cls i in E. rewrite E2 in E.
  exists w2. split; [|done]. by erewrite M_bind_done by exact E.
Qed.
End Choose.

(** * A concrete world: the channel 100/101 with handles 0 and 1 *)

Definition demo_table : table vobj :=
  (t_ops (t_expand (λ _, true)) (λ _, true) obj_query false [Make (Some (VChan 100)); Make (Some (VChan 101))]
    (mk_table ∅ [] 0)).2.
Definition demo_handles : dill_ctx_handle vobj :=
  match dill_ops (λ n, n <? 2 ^ 20) (λ _, true) obj_query (λ _, mret tt)
    [Make (Some (VChan 100)); Make (Some (VChan 101))] (mk_hst dill_ctx_handle_init false false E0) with
  | Some (_, s) => hctx s
  | None => dill_ctx_handle_init
  end.

Lemma demo_handles_represent : represents obj_query demo_handles demo_table.
Proof.
  assert (Hleaf : ∀ (v : vobj) (s : hst vobj), ∃ e, (mret tt : HM vobj unit) s = Some (tt, set_err e s)).
  { intros v s. exists (herrno s). by destruct s. }
  assert (Hbound : ∀ n, (n <? 2 ^ 20) = true → n < 2 ^ 30 * SIZEOF_HANDLE).
  { unfold SIZEOF_HANDLE. intros n Hn. apply Z.ltb_lt in Hn. lia. }
  destruct (ops_refine (λ n, n <? 2 ^ 20) (λ _, true) obj_query (λ _, mret tt) Hleaf Hbound
    [Make (Some (VChan 100)); Make (Some (VChan 101))] (mk_hst dill_ctx_handle_init false false E0)
    (mk_table ∅ [] 0) (init_in_table _) ltac:(simpl; lia)) as (rs & s & E & _ & R & _).
  unfold demo_handles. rewrite E. exact R.
Qed.

(** The main coroutine 5 runs; coroutine 6, unless [idle6], waits on half-channel
    101 with clause 900 and timer 901; [ins] and [outs] are the lists of 101. *)
Definition demo_world (ins outs : list Z) (ended idle6 : bool) : world :=
  mk_world E0 demo_handles 5 [] (if idle6 then [] else [(50, 901)]) 0
    (<[5 := mk_cr false 0 E0 [] NULL false false false false None]>
      (<[6 := mk_cr false 0 E0 (if idle6 then [] else [901; 900]) NULL false false false false None]> ∅))
    (if idle6 then ∅ else <[900 := mk_clause 6 0 ChCancel]> {[901 := mk_clause 6 1 TimerCancel]})
    ∅
    (<[100 := mk_halfchan [] [] false false false false]>
      {[101 := mk_halfchan ins outs true ended false false]})
    {[900 := mk_chanclause 200 2]} (mk_pollset ∅ 16 0xffffffff ∅)
    (<[200 := 0]> (<[201 := 0]> (<[300 := 7]> {[301 := 8]}))) 1000 10 0 [].

Lemma demo_running ins outs ended idle6 :
  wf_b (demo_world ins outs ended idle6) = true → running (demo_world ins outs ended idle6).
Proof.
  intros Hb. split; [apply wf_b_sound; [done|]|by eexists].
  exists demo_table. split; [apply demo_handles_represent|]. intros k h Hk.
  assert (Hl : live demo_table = <[1 := VChan 101]> (<[0 := VChan 100]> ∅)) by (vm_compute; reflexivity).
  rewrite Hl in Hk. apply lookup_insert_Some in Hk as [[_ [= <-]]|[_ Hk]].
  - split; [done|]. by eexists _, _.
  - apply lookup_insert_Some in Hk as [[_ [= <-]]|[_ Hk]]; [|by rewrite lookup_empty in Hk].
    split; [done|]. by eexists _, _.
Qed.

Lemma demo_designates ins outs ended idle6 :
  designates (demo_world ins outs ended idle6) 0 100 ∧ designates (demo_world ins outs ended idle6) 1 101.
Proof.
  split; exists demo_table; (split; [apply demo_handles_represent|]); by vm_compute.
Qed.

Lemma demo_may_block ins outs ended idle6 : may_block (demo_world ins outs ended idle6).
Proof. by eexists. Qed.

Lemma buf_ok_2 v (m : gmap Z Z) : is_Some (m !! v) → is_Some (m !! (v + 1)) → buf_ok v 2 m.
Proof.
  intros H0 H1. split; [lia|]. intros i Hi. destruct (decide (i = 0)) as [->|]; [by rewrite Z.add_0_r|].
  by replace i with 1 by lia.
Qed.

Definition demo_close (v : vobj) : M unit := mret tt.

Lemma chsend_meets_receiver_witness :
  met 900 cc_val (λ _, 300) 2 (demo_world [900] [] false false)
    (dill_chsend demo_close 0 300 2 10 (demo_world [900] [] false false)).
Proof.
  apply (chsend_meets_receiver demo_close (demo_world [900] [] false false) 0 100
    (mk_halfchan [] [] false false false false) (mk_halfchan [900] [] true false false false) 900 [] 300 2 10).
  - apply demo_running. vm_compute. reflexivity.
  - apply demo_may_block.
  - apply demo_designates.
  - reflexivity.
  - reflexivity.
  - reflexivity.
  - reflexivity.
  - apply buf_ok_2; eexists; reflexivity.
Defined.

Lemma chrecv_meets_sender_witness :
  met 900 (λ _, 300) cc_val 2 (demo_world [] [900] false false)
    (dill_chrecv demo_close 1 300 2 10 (demo_world [] [900] false false)).
Proof.
  apply (chrecv_meets_sender demo_close (demo_world [] [900] false false) 1 101
    (mk_halfchan [] [900] true false false false) 900 [] 300 2 10).
  - apply demo_running. vm_compute. reflexivity.
  - apply demo_may_block.
  - apply demo_designates.
  - reflexivity.
  - reflexivity.
  - reflexivity.
  - apply buf_ok_2; eexists; reflexivity.
Defined.

Lemma chrecv_waits_witness :
  ∃ w1 k, dill_chrecv demo_close 1 300 2 10 (demo_world [900] [] false false) = OWait w1 k ∧
    suspended_on 101 (with_in [900; 1000] (mk_halfchan [900] [] true false false false)) 300 2 10
      (demo_world [900] [] false false) w1 ∧ finishes k.
Proof.
  apply (chrecv_waits demo_close (demo_world [900] [] false false) 1 101
    (mk_halfchan [900] [] true false false false) 300 2 10).
  - apply demo_running. vm_compute. reflexivity.
  - apply demo_may_block.
  - apply demo_designates.
  - reflexivity.
  - reflexivity.
  - reflexivity.
  - apply buf_ok_2; eexists; reflexivity.
Defined.

Lemma chsend_waits_witness :
  ∃ w1 k, dill_chsend demo_close 0 300 2 (-1) (demo_world [] [900] false false) = OWait w1 k ∧
    suspended_on 101 (with_out [900; 1000] (mk_halfchan [] [900] true false false false)) 300 2 (-1)
      (demo_world [] [900] false false) w1 ∧ finishes k.
Proof.
  apply (chsend_waits demo_close (demo_world [] [900] false false) 0 100
    (mk_halfchan [] [] false false false false) (mk_halfchan [] [900] true false false false) 300 2 (-1)).
  - apply demo_running. vm_compute. reflexivity.
  - apply demo_may_block.
  - apply demo_designates.
  - reflexivity.
  - reflexivity.
  - reflexivity.
  - reflexivity.
  - apply buf_ok_2; eexists; reflexivity.
Defined.

Lemma chan_op_refusals_witness :
  dill_chsend demo_close 7 300 2 10 (demo_world [] [] false true) =
    ODone (-1) (set_errno EBADF (demo_world [] [] false true)).
Proof.
  apply (proj2 (chan_op_refusals demo_close (demo_world [] [] false true) 7 300 2 10)).
  - apply demo_may_block.
  - exists demo_table. split; [apply demo_handles_represent|]. vm_compute. reflexivity.
Defined.

Lemma chdone_ends_channel_witness :
  ∃ w' hc', dill_chdone demo_close 0 (demo_world [900] [] false false) = ODone 0 w' ∧ running w' ∧
    w_chans w' !! 101 = Some hc' ∧ hc_done hc' = true ∧ hc_in hc' = [] ∧ hc_out hc' = [] ∧
    woken_with EPIPE 6 w'.
Proof.
  destruct (chdone_ends_channel demo_close (demo_world [900] [] false false) 0 100
    (mk_halfchan [] [] false false false false) (mk_halfchan [900] [] true false false false)) as [H _].
  - apply demo_running. vm_compute. reflexivity.
  - apply demo_designates.
  - reflexivity.
  - reflexivity.
  - destruct (H eq_refl) as (w' & hc' & E & Hr & Hc & Hd & Hi & Ho & Hw). exists w', hc'.
    split; [exact E|]. split; [exact Hr|]. split; [exact Hc|]. split; [exact Hd|].
    split; [exact Hi|]. split; [exact Ho|].
    exact (Hw 900 (mk_clause 6 0 ChCancel) ltac:(left; left) eq_refl).
Defined.

Lemma choose_takes_first_witness :
  ∃ w', dill_choose demo_close
      (Some [mk_chclause DILL_CHRECV 0 300 2; mk_chclause DILL_CHSEND 0 300 2; mk_chclause DILL_CHRECV 1 300 2])
      3 10 (demo_world [900] [] false false) = ODone 1 w' ∧
    chosen 1 (mk_chclause DILL_CHSEND 0 300 2) 900 (demo_world [900] [] false false) w'.
Proof.
  apply (choose_takes_first demo_close (demo_world [900] [] false false) [mk_chclause DILL_CHRECV 0 300 2]
    (mk_chclause DILL_CHSEND 0 300 2) [mk_chclause DILL_CHRECV 1 300 2] 900 10).
  - apply demo_running. vm_compute. reflexivity.
  - apply demo_may_block.
  - apply Forall_cons. split; [|apply Forall_nil; exact I]. split; [intros _; discriminate|].
    exists 100, (mk_halfchan [] [] false false false false). split; [apply demo_designates|].
    split; [reflexivity|]. right. split; [reflexivity|]. split; reflexivity.
  - split; [intros _; discriminate|].
    exists 100, (mk_halfchan [] [] false false false false). split; [apply demo_designates|].
    split; [reflexivity|]. left. split; [reflexivity|].
    exists (mk_halfchan [900] [] true false false false). split; [reflexivity|]. split; [reflexivity|].
    exists []. reflexivity.
  - apply buf_ok_2; eexists; reflexivity.
Defined.

(** C1. The channel operations never crash: started in any well-formed world by a
    coroutine that waits for nothing, with buffers of the lengths given, sending,
    receiving, ending, choosing and yielding run to their end without a failed
    assertion, an access outside the tables, or a broken link, whatever the other
    coroutines do while this one is suspended, provided they keep the invariant too
    (which is what [safe] says, since it demands the invariant back). *)
Theorem chan_ops_never_crash close w :
  running w →
  (∀ h val len deadline, buf_ok val len (w_mem w) →
    safe (λ _ _, True) w (dill_chsend close h val len deadline w) ∧
    safe (λ _ _, True) w (dill_chrecv close h val len deadline w)) ∧
  (∀ h, safe (λ _ _, True) w (dill_chdone close h w)) ∧
  (∀ cls n deadline,
    (∀ l, cls = Some l → Forall (clause_buf w) l ∧ (Z.to_nat n ≤ length l)%nat) →
    safe (λ _ _, True) w (dill_choose close cls n deadline w)) ∧
  safe (λ _ _, True) w (dill_yield w).
Proof.
  intros H. split; [|split; [|split]].
  - intros h v n d Hb. split; [by apply chsend_safe|by apply chrecv_safe].
  - intros h. by apply chdone_safe.
  - intros cls n d Hc. by apply choose_safe.
  - by apply yield_safe.
Qed.

Lemma chan_ops_never_crash_witness :
  safe (λ _ _, True) (demo_world [900] [] false false)
    (dill_choose demo_close (Some [mk_chclause DILL_CHRECV 0 300 2]) 1 10 (demo_world [900] [] false false)).
Proof.
  apply (chan_ops_never_crash demo_close (demo_world [900] [] false false)).
  - apply demo_running. vm_compute. reflexivity.
  - intros l [= <-]. split; [|simpl; lia]. apply Forall_cons. split; [|apply Forall_nil; exact I].
    apply buf_ok_2; eexists; reflexivity.
Defined.
