(* ===== verification/Bundle.v ===== *)
(** Bundles, the life of coroutines, and the handles of both ([cr.c], second part). *)

From S2P Require Import Prelude Handle World Cr Chan.
From Stdlib Require Import ZArith Lia.
From stdpp Require Import base gmap list.
Open Scope Z_scope.

Definition get_cr (c : Z) : M dill_cr := λ w,
  match w_crs w !! c with Some x => ODone x w | None => OCrash end.
Definition get_bundle (b : Z) : M dill_bundle := λ w,
  match w_bundles w !! b with Some x => ODone x w | None => OCrash end.
Definition put_bundle (b : Z) (x : dill_bundle) (w : world) : world :=
  set_bundles (<[b := x]> (w_bundles w)) w.

Definition set_no_blocking1 (x : dill_cr) : dill_cr :=
  mk_cr (ready_linked x) (cr_id x) (cr_err x) (clauses x) (cr_bundle x) true (cr_no_blocking2 x)
    (done x) (cr_mem x) (closer x).
Definition set_closer (r : Z) (x : dill_cr) : dill_cr :=
  mk_cr (ready_linked x) (cr_id x) (cr_err x) (clauses x) (cr_bundle x) (cr_no_blocking1 x)
    (cr_no_blocking2 x) (done x) (cr_mem x) (Some r).
Definition set_done (x : dill_cr) : dill_cr :=
  mk_cr (ready_linked x) (cr_id x) (cr_err x) (clauses x) (cr_bundle x) (cr_no_blocking1 x)
    (cr_no_blocking2 x) true (cr_mem x) (closer x).

(** [dill_cr_close].  Deallocation puts the stack in the cache (see Stack), which
    leaves the record at its top readable. *)
Definition dill_cr_close (c : Z) : M unit :=
  x ← get_cr c;
  if done x then mret tt
  else
    lift (upd_cr c set_no_blocking1);;
    x ← get_cr c;
    (if ready_linked x then mret tt else lift (dill_cancel c ECANCELED));;
    r ← gets w_r;
    lift (upd_cr c (set_closer r));;
    rc ← dill_wait;
    e ← gets w_errno;
    assert_ (negb ((rc =? -1) && bool_decide (e = ECANCELED)));;
    assert_ ((rc =? -1) && bool_decide (e = E0)).

(** The item after [c]: [None] at the end of the list. *)
Fixpoint item_after (c : Z) (l : list Z) : option Z :=
  match l with
  | [] => None
  | x :: l => if x =? c then head l else item_after c l
  end.

(** The loop of [dill_bundle_close] from item [it].  While a coroutine stops, others
    may leave the bundle, or join it: every joiner costs an allocation. *)
Fixpoint close_loop (fuel : nat) (b : Z) (it : option Z) : M unit :=
  match it with
  | None => mret tt
  | Some c =>
    match fuel with
    | O => crash
    | S fuel =>
      dill_cr_close c;;
      x ← get_bundle b;
      assert_ (bool_decide (c ∈ crs x));;
      close_loop fuel b (item_after c (crs x))
    end
  end.

Definition dill_bundle_close (b : Z) : M unit :=
  x ← get_bundle b;
  n ← gets w_budget;
  close_loop (length (crs x) + n) b (head (crs x));;
  x ← get_bundle b;
  if bundle_mem x then mret tt else modify (λ w, set_bundles (delete b (w_bundles w)) w).

(** The close functions of the objects behind the handles. *)
Definition obj_close (v : vobj) : M unit :=
  match v with
  | VCr c => dill_cr_close c
  | VBundle b => dill_bundle_close b
  | VChan h => dill_halfchan_close h
  | VUser _ => mret tt
  end.

Definition hmake (v : vobj) : M Z := @dill_hmake vobj M _ _ (runtime_env obj_close) (Some v).
Definition hclose (h : Z) : M Z := @dill_hclose vobj M _ _ (runtime_env obj_close) h.
Definition hquery (h : Z) (ty : ptr) : M ptr := @dill_hquery vobj M _ _ (runtime_env obj_close) h ty.

Definition dill_bundle_mem (mem : option Z) : M Z :=
  match mem with
  | None => mret (-1)     (** [err] is a local variable here: [errno] is not set *)
  | Some b =>
    modify (put_bundle b (mk_bundle [] None true));;
    hmake (VBundle b)
  end.

Definition dill_bundle : M Z :=
  o ← malloc;
  match o with
  | None => fail ENOMEM
  | Some b =>
    h ← dill_bundle_mem (Some b);
    if h <? 0 then
      modify (λ w, set_bundles (delete b (w_bundles w)) w);;
      mret (-1)
    else
      x ← get_bundle b;
      modify (put_bundle b (mk_bundle (crs x) (waiter x) false));;
      mret h
  end.

Definition dill_bundle_wait (h : Z) (deadline : Z) : M Z :=
  rc ← dill_canblock;
  if rc <? 0 then mret (-1)
  else
    b ← hquery h dill_bundle_type;
    if b =? NULL then mret (-1)
    else
      x ← get_bundle b;
      if bool_decide (crs x = []) then mret 0
      else
        c ← fresh_addr;
        modify (put_bundle b (mk_bundle (crs x) (Some c) (bundle_mem x)));;
        lift (dill_waitfor c 0 NoCancel);;
        t ← fresh_addr;
        lift (dill_timer t 1 deadline);;
        id ← dill_wait;
        x ← get_bundle b;
        modify (put_bundle b (mk_bundle (crs x) None (bundle_mem x)));;
        if id <? 0 then mret (-1)
        else if id =? 1 then fail ETIMEDOUT
        else
          assert_ (id =? 0);;
          mret 0.

(** The storage sizes of a 64-bit system. *)
Definition SIZEOF_BUNDLE_STORAGE : Z := 64.
Definition SIZEOF_CR : Z := 272.

(** [error2] of [dill_prologue] *)
Definition prologue_error2 (new_bundle : bool) (bndl : Z) (err : errno_t) : M (option Z) :=
  (if new_bundle then rc ← hclose bndl; assert_ (rc =? 0) else mret tt);;
  modify (set_errno err);;
  mret None.

(** [dill_prologue] up to the switch: the bundle handle to return and the address of
    the new [dill_cr], or [None] for -1. *)
Definition dill_prologue (mem : option (Z * Z)) (bndl : Z) : M (option (Z * Z)) :=
  let fail_ e := modify (set_errno e);; mret None in
  rc ← dill_canblock;
  if rc <? 0 then fail_ ECANCELED
  else
    let new_bundle := bndl <? 0 in
    '(bndl, mem) ← (if new_bundle then
        match mem with
        | Some (p, n) =>
          b ← dill_bundle_mem (Some p);
          mret (b, Some (p + SIZEOF_BUNDLE_STORAGE, u64 (n - SIZEOF_BUNDLE_STORAGE)))
        | None => b ← dill_bundle; mret (b, None)
        end
      else mret (bndl, mem));
    if bndl <? 0 then mret None
    else
      b ← hquery bndl dill_bundle_type;
      if b =? NULL then
        err ← gets w_errno;
        _ ← prologue_error2 new_bundle bndl err;
        mret None
      else
        o ← (match mem with
          | None =>
            o ← malloc;
            match o with Some cr => mret (Some cr) | None => mret None end
          | Some (p, n) =>
            (** align the top of the stack to a 16-byte boundary *)
            let top := Z.land (p + n) (Z.lnot 15) in
            if top - p <? SIZEOF_CR then mret None else mret (Some (top - SIZEOF_CR))
          end);
        match o with
        | None =>
          _ ← prologue_error2 new_bundle bndl ENOMEM;
          mret None
        | Some cr =>
          x ← get_bundle b;
          modify (put_bundle b (mk_bundle (crs x ++ [cr]) (waiter x) (bundle_mem x)));;
          modify (λ w, set_crs (<[cr := mk_cr false 0 E0 [] b false false false
            (match mem with Some _ => true | None => false end) None]> (w_crs w)) w);;
          (** "Add parent coroutine to the list of coroutines ready for execution." *)
          r ← gets w_r;
          lift (dill_resume r 0 E0);;
          mret (Some ((if new_bundle then bndl else 0), cr))
        end.

(** The macro [dill_go_]: the parent goes on, later, with the handle. *)
Definition switch_to (fn : list Z) (h cr : Z) : M Z := λ w, OGo (set_r cr w) fn (w_r w) (λ w', ODone h w').

Definition dill_go (fn : list Z) (mem : option (Z * Z)) (bndl : Z) : M Z :=
  o ← dill_prologue mem bndl;
  match o with
  | None => mret (-1)
  | Some (h, cr) => switch_to fn h cr
  end.

Definition dill_epilogue : M unit :=
  r ← gets w_r;
  lift (upd_cr r set_done);;
  x ← get_cr r;
  (match closer x with
   | Some c => lift (dill_cancel c E0)
   | None => mret tt
   end);;
  (if cr_no_blocking1 x then mret tt
   else
     b ← get_bundle (cr_bundle x);
     (if bool_decide (crs b = [r]) then
        match waiter b with
        | Some c => lift (dill_trigger c E0)
        | None => mret tt
        end
      else mret tt);;
     modify (put_bundle (cr_bundle x)
       (mk_bundle (filter (λ c, c ≠ r) (crs b)) (waiter b) (bundle_mem b)));;
     dill_cr_close r);;
  x ← get_cr r;
  assert_ (bool_decide (clauses x = []));;
  (** "With no clauses added, this call will never return." *)
  _ ← dill_wait;
  mret tt.

(** [dill_ctx_cr_init]: the world of a fresh thread, whose only coroutine is the
    main one. *)
Definition MAIN : Z := 5.
Definition initial_world (nfds : Z) (budget : nat) (now : Z) (polls : list poll_input) (mem : gmap Z Z) : world :=
  mk_world E0 dill_ctx_handle_init MAIN [] [] now
    {[ MAIN := mk_cr false 0 E0 [] NULL false false false false None ]}
    ∅ ∅ ∅ ∅ (mk_pollset ∅ nfds 0xffffffff ∅) mem 1000 budget now polls.
