(* ===== verification/Rbtree.v ===== *)
(** The red-black tree of the timers ([rbtree.c]), on a store of items that point to
    each other.  The root and the leaf of a tree are sentinels inside the structure, at
    the addresses [rt] ([&self->root]) and [nl] ([&self->nil]). *)

From Stdlib Require Import ZArith Lia.
From stdpp Require Import base gmap list.
From S2P Require Import Prelude.
Open Scope Z_scope.

Record dill_rbtree_item := mk_item { it_up : ptr; it_left : ptr; it_right : ptr; it_red : bool; it_val : Z }.

Notation tstore := (gmap Z dill_rbtree_item).

(** Computations on the store; they have no result when they follow a pointer that is
    not allocated. *)
Definition TM (A : Type) : Type := tstore → option (A * tstore).
#[export] Instance TM_ret : MRet TM := λ A a h, Some (a, h).
#[export] Instance TM_bind : MBind TM := λ A B k m h, match m h with Some (a, h) => k a h | None => None end.

Definition stuck {A} : TM A := λ _, None.
Definition get {A} (f : dill_rbtree_item → A) (p : ptr) : TM A := λ h, x ← h !! p; Some (f x, h).
Definition upd (f : dill_rbtree_item → dill_rbtree_item) (p : ptr) : TM unit := λ h, x ← h !! p; Some (tt, <[p := f x]> h).

Definition with_up (v : ptr) (x : dill_rbtree_item) := mk_item v (it_left x) (it_right x) (it_red x) (it_val x).
Definition with_left (v : ptr) (x : dill_rbtree_item) := mk_item (it_up x) v (it_right x) (it_red x) (it_val x).
Definition with_right (v : ptr) (x : dill_rbtree_item) := mk_item (it_up x) (it_left x) v (it_red x) (it_val x).
Definition with_red (v : bool) (x : dill_rbtree_item) := mk_item (it_up x) (it_left x) (it_right x) v (it_val x).
Definition with_val (v : Z) (x : dill_rbtree_item) := mk_item (it_up x) (it_left x) (it_right x) (it_red x) v.

Definition up := get it_up.
Definition left := get it_left.
Definition right := get it_right.
Definition red := get it_red.
Definition val := get it_val.
Definition set_up (p v : ptr) : TM unit := upd (with_up v) p.
Definition set_left (p v : ptr) : TM unit := upd (with_left v) p.
Definition set_right (p v : ptr) : TM unit := upd (with_right v) p.
Definition set_red (p : ptr) (v : bool) : TM unit := upd (with_red v) p.
Definition set_val (p : ptr) (v : Z) : TM unit := upd (with_val v) p.

Section Tree.
Context (rt nl : ptr).

Definition dill_rbtree_init : TM unit :=
  set_up nl nl;; set_left nl nl;; set_right nl nl;; set_red nl false;; set_val nl 0;;
  set_up rt nl;; set_left rt nl;; set_right rt nl;; set_val rt 0;; set_red rt false.

(** [if(x == p->left) p->left = y; else p->right = y;] with [p = x->up] *)
Definition relink (p x y : ptr) : TM unit :=
  l ← left p; if x =? l then set_left p y else set_right p y.

Definition dill_rbtree_lrotate (x : ptr) : TM unit :=
  y ← right x;
  b ← left y;
  set_right x b;;
  (if b =? nl then mret tt else set_up b x);;
  p ← up x;
  set_up y p;;
  relink p x y;;
  set_left y x;;
  set_up x y.

Definition dill_rbtree_rrotate (y : ptr) : TM unit :=
  x ← left y;
  b ← right x;
  set_left y b;;
  (if b =? nl then mret tt else set_up b y);;
  p ← up y;
  set_up x p;;
  relink p y x;;
  set_right x y;;
  set_up y x.

(** The descent: the last item before the leaf. *)
Fixpoint descend (fuel : nat) (zv : Z) (y x : ptr) : TM ptr :=
  if x =? nl then mret y
  else match fuel with
  | O => stuck
  | S fuel =>
    v ← val x;
    x' ← (if zv <? v then left x else right x);
    descend fuel zv x x'
  end.

Definition dill_rbtree_insert_help (fuel : nat) (z : ptr) : TM unit :=
  set_right z nl;;
  set_left z nl;;
  zv ← val z;
  x ← left rt;
  y ← descend fuel zv rt x;
  set_up z y;;
  yv ← val y;
  if (y =? rt) || (zv <? yv) then set_left y z else set_right y z.

(** [while(x->up->red)] *)
Fixpoint insert_loop (fuel : nat) (x : ptr) : TM unit :=
  match fuel with
  | O => stuck
  | S fuel =>
    p ← up x;
    c ← red p;
    if negb c then mret tt
    else
      g ← up p;
      gl ← left g;
      if p =? gl then
        y ← right g;
        cy ← red y;
        if cy : bool then
          set_red p false;; set_red y false;; set_red g true;;
          insert_loop fuel g
        else
          pr ← right p;
          x ← (if x =? pr then dill_rbtree_lrotate p;; mret p else mret x);
          p ← up x;
          set_red p false;;
          g ← up p;
          set_red g true;;
          dill_rbtree_rrotate g;;
          insert_loop fuel x
      else
        y ← left g;
        cy ← red y;
        if cy : bool then
          set_red p false;; set_red y false;; set_red g true;;
          insert_loop fuel g
        else
          pl ← left p;
          x ← (if x =? pl then dill_rbtree_rrotate p;; mret p else mret x);
          p ← up x;
          set_red p false;;
          g ← up p;
          set_red g true;;
          dill_rbtree_lrotate g;;
          insert_loop fuel x
  end.

Definition dill_rbtree_insert (fuel : nat) (v : Z) (item : ptr) : TM unit :=
  set_val item v;;
  dill_rbtree_insert_help fuel item;;
  set_red item true;;
  insert_loop fuel item;;
  r ← left rt;
  set_red r false.

Definition dill_rbtree_empty : TM bool := l ← left rt; mret (l =? nl).

(** [while(x->left != nil) x = x->left;] *)
Fixpoint leftmost (fuel : nat) (x : ptr) : TM ptr :=
  match fuel with
  | O => stuck
  | S fuel => l ← left x; if l =? nl then mret x else leftmost fuel l
  end.

Definition dill_rbtree_first (fuel : nat) : TM ptr :=
  x ← left rt;
  if x =? nl then mret NULL else leftmost fuel x.

(** [while(x == y->right) {x = y; y = y->up;}] *)
Fixpoint climb (fuel : nat) (x y : ptr) : TM ptr :=
  match fuel with
  | O => stuck
  | S fuel => r ← right y; if x =? r then u ← up y; climb fuel y u else mret y
  end.

Definition dill_rbtree_next_help (fuel : nat) (x : ptr) : TM ptr :=
  y ← right x;
  if negb (nl =? y) then leftmost fuel y
  else
    y ← up x;
    y ← climb fuel x y;
    if y =? rt then mret nl else mret y.

Definition dill_rbtree_next (fuel : nat) (x : ptr) : TM ptr :=
  it ← dill_rbtree_next_help fuel x;
  if it =? nl then mret NULL else mret it.

(** A round of [while((!x->red) && (root != x))] when [x] is the left, and the right,
    child of its parent; [loop] is the rest of the rounds. *)
Definition fix_left_tail (loop : ptr → TM ptr) (root x w : ptr) : TM ptr :=
  wr ← right w; cr ← red wr;
  wl ← left w; cl ← red wl;
  if negb cr && negb cl then
    set_red w true;;
    p ← up x;
    loop p
  else
    w ← (if negb cr then
           set_red wl false;; set_red w true;;
           dill_rbtree_rrotate w;;
           p ← up x; right p
         else mret w);
    p ← up x;
    cp ← red p;
    set_red w cp;;
    set_red p false;;
    f ← right w;
    set_red f false;;
    dill_rbtree_lrotate p;;
    loop root.
Definition fix_left (loop : ptr → TM ptr) (root x : ptr) : TM ptr :=
  p ← up x;
  w ← right p;
  cw ← red w;
  w ← (if cw : bool then
         set_red w false;; set_red p true;;
         dill_rbtree_lrotate p;;
         p ← up x; right p
       else mret w);
  fix_left_tail loop root x w.
Definition fix_right_tail (loop : ptr → TM ptr) (root x w : ptr) : TM ptr :=
  wr ← right w; cr ← red wr;
  wl ← left w; cl ← red wl;
  if negb cr && negb cl then
    set_red w true;;
    p ← up x;
    loop p
  else
    w ← (if negb cl then
           set_red wr false;; set_red w true;;
           dill_rbtree_lrotate w;;
           p ← up x; left p
         else mret w);
    p ← up x;
    cp ← red p;
    set_red w cp;;
    set_red p false;;
    f ← left w;
    set_red f false;;
    dill_rbtree_rrotate p;;
    loop root.
Definition fix_right (loop : ptr → TM ptr) (root x : ptr) : TM ptr :=
  p ← up x;
  w ← left p;
  cw ← red w;
  w ← (if cw : bool then
         set_red w false;; set_red p true;;
         dill_rbtree_rrotate p;;
         p ← up x; left p
       else mret w);
  fix_right_tail loop root x w.

(** The loop; [root] is the one from before it.  The result is [x] after the loop. *)
Fixpoint fixup_loop (fuel : nat) (root x : ptr) : TM ptr :=
  match fuel with
  | O => stuck
  | S fuel =>
    c ← red x;
    if c || (root =? x) then mret x
    else
      p ← up x;
      l ← left p;
      if x =? l then fix_left (fixup_loop fuel root) root x else fix_right (fixup_loop fuel root) root x
  end.

Definition dill_rbtree_fixup (fuel : nat) (x : ptr) : TM unit :=
  root ← left rt;
  x ← fixup_loop fuel root x;
  set_red x false.

(** [y], with at most one child, is taken out and [x], its child, put in its place. *)
Definition unlink (y x : ptr) : TM unit :=
  yu ← up y;
  set_up x yu;;
  xu ← up x;
  if rt =? xu then set_left rt x else relink yu y x.

(** [y] takes the place and the colour of [z]. *)
Definition replace (z y : ptr) : TM unit :=
  zl ← left z;
  set_left y zl;;
  zr ← right z;
  set_right y zr;;
  zu ← up z;
  set_up y zu;;
  zc ← red z;
  set_red y zc;;
  zr ← right z;
  set_up zr y;;
  zl ← left z;
  set_up zl y;;
  zu ← up z;
  relink zu z y.

Definition dill_rbtree_erase (fuel : nat) (z : ptr) : TM unit :=
  zl ← left z;
  zr ← right z;
  y ← (if (zl =? nl) || (zr =? nl) then mret z else dill_rbtree_next_help fuel z);
  yl ← left y;
  x ← (if yl =? nl then right y else mret yl);
  unlink y x;;
  if negb (y =? z) then
    c ← red y;
    (if negb c then dill_rbtree_fixup fuel x else mret tt);;
    replace z y
  else
    c ← red y;
    if negb c then dill_rbtree_fixup fuel x else mret tt.
End Tree.

(** A store of twelve blank items, for the concrete runs. *)
Definition demo_blank : dill_rbtree_item := mk_item NULL NULL NULL false 0.
Definition demo_store : tstore := list_to_map ((λ p, (p, demo_blank)) <$> seqZ 1 12).
