(* ===== verification/Rbheap.v ===== *)
(** The store of [Rbtree.v] as a tree with a focus: what a zipper of items occupies, how
    the operations read it, and what the rotations and the writes to one item do to it. *)

From Stdlib Require Import ZArith Lia.
From stdpp Require Import base gmap list.
From S2P Require Import Prelude Rbtree.
Open Scope Z_scope.

(** * Weakest preconditions *)

Definition twp {A} (m : TM A) (Q : A → tstore → Prop) (h : tstore) : Prop :=
  match m h with Some (a, h') => Q a h' | None => False end.

Lemma twp_ret {A} (a : A) Q h : Q a h → twp (mret a) Q h.
Proof. done. Qed.
Lemma twp_bind {A B} (m : TM A) (f : A → TM B) Q h : twp m (λ a, twp (f a) Q) h → twp (m ≫= f) Q h.
Proof. unfold twp, mbind, TM_bind. by destruct (m h) as [[a h']|]. Qed.
Lemma twp_mono {A} (m : TM A) (P Q : A → tstore → Prop) h :
  twp m P h → (∀ a h', P a h' → Q a h') → twp m Q h.
Proof. unfold twp. destruct (m h) as [[a h']|]; auto. Qed.
Lemma twp_get {A} (f : dill_rbtree_item → A) p x Q h : h !! p = Some x → Q (f x) h → twp (get f p) Q h.
Proof. unfold twp, get. by intros ->. Qed.
Lemma twp_upd f p x (Q : unit → tstore → Prop) h : h !! p = Some x → Q tt (<[p := f x]> h) → twp (upd f p) Q h.
Proof. unfold twp, upd. by intros ->. Qed.
Lemma twp_run {A} (m : TM A) Q h : twp m Q h → ∃ a h', m h = Some (a, h') ∧ Q a h'.
Proof. unfold twp. destruct (m h) as [[a h']|]; [eauto|done]. Qed.

(** * Trees and contexts *)

Inductive tree : Type := E | T (c : bool) (l : tree) (p : ptr) (v : Z) (r : tree).

(** A step from the focus to its parent: the focus is its left or its right child. *)
Inductive frame : Type := FL (c : bool) (p : ptr) (v : Z) (r : tree) | FR (c : bool) (l : tree) (p : ptr) (v : Z).

Definition isred (t : tree) : bool := match t with E => false | T c _ _ _ _ => c end.
Definition fptr (f : frame) : ptr := match f with FL _ p _ _ | FR _ _ p _ => p end.
Definition fill (f : frame) (t : tree) : tree :=
  match f with FL c p v r => T c t p v r | FR c l p v => T c l p v t end.
Definition plug (k : list frame) (t : tree) : tree := fold_left (λ t f, fill f t) k t.

(** The items in order, with their values. *)
Fixpoint ino (t : tree) : list (Z * ptr) :=
  match t with E => [] | T _ l p v r => ino l ++ (v, p) :: ino r end.
Fixpoint lk (k : list frame) : list (Z * ptr) :=
  match k with [] => [] | FL _ _ _ _ :: k => lk k | FR _ l p v :: k => lk k ++ ino l ++ [(v, p)] end.
Fixpoint rk (k : list frame) : list (Z * ptr) :=
  match k with [] => [] | FL _ p v r :: k => (v, p) :: ino r ++ rk k | FR _ _ _ _ :: k => rk k end.
Definition whole (k : list frame) (t : tree) : list (Z * ptr) := lk k ++ ino t ++ rk k.

Lemma whole_fill f k t : whole (f :: k) t = whole k (fill f t).
Proof. unfold whole. destruct f; cbn; by rewrite <- ?app_assoc. Qed.
Lemma whole_plug k t : whole k t = ino (plug k t).
Proof.
  revert t. induction k as [|f k IH]; intros t; [unfold whole; cbn; by rewrite app_nil_r|].
  rewrite whole_fill. apply IH.
Qed.

Definition ptrs (t : tree) : list ptr := (ino t).*2.
Definition kptrs (k : list frame) : list ptr := (rk k ++ lk k).*2.

Lemma whole_perm k t : (whole k t).*2 ≡ₚ ptrs t ++ kptrs k.
Proof.
  unfold whole, ptrs, kptrs. rewrite !fmap_app.
  rewrite (Permutation_app_comm (lk k).*2). by rewrite <- app_assoc.
Qed.

Lemma elem_ptrs_T x c l p v r : x ∈ ptrs (T c l p v r) ↔ x = p ∨ x ∈ ptrs l ∨ x ∈ ptrs r.
Proof. unfold ptrs. cbn. rewrite fmap_app, fmap_cons, elem_of_app, elem_of_cons. cbn. tauto. Qed.
Lemma elem_kptrs x f k : x ∈ kptrs (f :: k) ↔ x = fptr f ∨ x ∈ ptrs (fill f E) ∨ x ∈ kptrs k.
Proof.
  unfold kptrs, ptrs. destruct f; cbn;
    rewrite ?fmap_app, ?fmap_cons, ?fmap_app, ?elem_of_app, ?elem_of_cons; cbn;
    rewrite ?fmap_app, ?fmap_cons, ?elem_of_app, ?elem_of_cons; cbn; rewrite ?elem_of_nil; tauto.
Qed.

Section Rep.
Context (rt nl : ptr).

Definition root (t : tree) : ptr := match t with E => nl | T _ _ p _ _ => p end.
Definition parent (k : list frame) : ptr := match k with [] => rt | f :: _ => fptr f end.
(** The item of the parent when the focus is at [o]. *)
Definition pitem (k : list frame) (o : ptr) : dill_rbtree_item :=
  match k with
  | [] => mk_item nl o nl false 0
  | FL c p v r :: k => mk_item (parent k) o (root r) c v
  | FR c l p v :: k => mk_item (parent k) (root l) o c v
  end.

Fixpoint rep (h : tstore) (u : ptr) (t : tree) : Prop :=
  match t with
  | E => True
  | T c l p v r => h !! p = Some (mk_item u (root l) (root r) c v) ∧ rep h p l ∧ rep h p r
  end.

Fixpoint repk (h : tstore) (k : list frame) (o : ptr) : Prop :=
  h !! parent k = Some (pitem k o) ∧
  match k with
  | [] => True
  | FL c p v r :: k => rep h p r ∧ repk h k p
  | FR c l p v :: k => rep h p l ∧ repk h k p
  end.

(** The store holds the tree, with the focus at [t]; the parent of the leaf is [un]. *)
Record zrep (h : tstore) (un : ptr) (k : list frame) (t : tree) : Prop := mk_zrep {
  zr_nil : h !! nl = Some (mk_item un nl nl false 0);
  zr_ctx : repk h k (root t);
  zr_foc : rep h (parent k) t;
  zr_dup : NoDup (nl :: rt :: (whole k t).*2);
}.

Lemma zrep_up h un f k t : zrep h un (f :: k) t ↔ zrep h un k (fill f t).
Proof.
  split; intros [Hn Hk Ht Hd]; split; try done; try (by rewrite ?whole_fill in * );
    destruct f; cbn in *; tauto.
Qed.
Lemma zrep_plug h un k t : zrep h un k t ↔ zrep h un [] (plug k t).
Proof. revert t. induction k as [|f k IH]; intros t; [done|]. rewrite zrep_up. apply IH. Qed.


(** ** Distinct items *)

Lemma zrep_nodup h un k t : zrep h un k t → NoDup (nl :: rt :: ptrs t ++ kptrs k).
Proof. intros [_ _ _ Hd]. by rewrite <- whole_perm. Qed.

Lemma ptrs_T c l p v r : ptrs (T c l p v r) = ptrs l ++ p :: ptrs r.
Proof. unfold ptrs. cbn. by rewrite fmap_app. Qed.
Lemma kptrs_FL c p v r k : kptrs (FL c p v r :: k) ≡ₚ p :: ptrs r ++ kptrs k.
Proof.
  unfold kptrs, ptrs. cbn. rewrite !fmap_app. cbn. by rewrite <- app_assoc.
Qed.
Lemma kptrs_FR c l p v k : kptrs (FR c l p v :: k) ≡ₚ p :: ptrs l ++ kptrs k.
Proof.
  unfold kptrs, ptrs. cbn. rewrite !fmap_app. cbn. rewrite !app_assoc. rewrite <- Permutation_cons_append.
  apply perm_skip. rewrite Permutation_app_comm. by rewrite app_assoc.
Qed.

(** ** Reading *)

Lemma rep_root h u un t : h !! nl = Some (mk_item un nl nl false 0) → rep h u t →
  ∃ u' l r v, h !! root t = Some (mk_item u' l r (isred t) v).
Proof. intros Hn Ht. destruct t as [|c l p v r]; cbn in *; [eauto|]. destruct Ht as [-> _]. eauto. Qed.
Lemma repk_parent h k o : repk h k o → h !! parent k = Some (pitem k o).
Proof. destruct k as [|[]]; cbn; by intros [? _]. Qed.

Ltac red_rep := cbn [rep repk root isred parent pitem fptr fill].
Ltac red_rep_all := cbn [rep repk root isred parent pitem fptr fill] in *.

(** ** Deciding that items are distinct *)

Lemma parent_in k : parent k ∈ rt :: kptrs k.
Proof.
  destruct k as [|f k]; cbn [parent]; [by left|]. right. apply elem_kptrs. by left.
Qed.
Lemma parent_neq k x : x ≠ rt → x ∉ kptrs k → parent k ≠ x.
Proof. intros Hr Hk E. pose proof (parent_in k) as Hp. rewrite E, elem_of_cons in Hp. tauto. Qed.
Lemma parent_notin k (l : list ptr) : rt ∉ l → (∀ q, q ∈ l → q ∉ kptrs k) → parent k ∉ l.
Proof.
  intros Hr Hk Hl. pose proof (parent_in k) as Hp. rewrite elem_of_cons in Hp.
  destruct Hp as [Hp|Hp]; [by rewrite Hp in Hl|by apply (Hk (parent k))].
Qed.
Lemma notin_app_2 {A} (l l1 l2 : list A) :
  (∀ q, q ∈ l → q ∉ l1 ++ l2) ↔ (∀ q, q ∈ l → q ∉ l1) ∧ (∀ q, q ∈ l → q ∉ l2).
Proof.
  split; [intros H; split; intros q Hq; by apply H, not_elem_of_app in Hq as []|].
  intros [H1 H2] q Hq. apply not_elem_of_app. split; [by apply H1|by apply H2].
Qed.
Lemma notin_cons_2 {A} (l l2 : list A) x :
  (∀ q, q ∈ l → q ∉ x :: l2) ↔ x ∉ l ∧ (∀ q, q ∈ l → q ∉ l2).
Proof.
  split.
  - intros H. split; [intros Hx; apply (H x Hx); by left|]. intros q Hq Hl. apply (H q Hq). by right.
  - intros [Hx H] q Hq. rewrite not_elem_of_cons. split; [by intros ->|by apply H].
Qed.

(** [distinct Hd] takes the absence of duplicates apart: two items differ, an item is not
    in a list, or two lists have no item in common.  [dj] uses the facts. *)
Ltac distinct Hd :=
  rewrite ?ptrs_T in Hd; repeat rewrite <- ?app_assoc, <- ?app_comm_cons in Hd;
  repeat rewrite ?NoDup_cons, ?NoDup_app, ?not_elem_of_cons, ?not_elem_of_app, ?notin_app_2, ?notin_cons_2 in Hd;
  decompose [and] Hd.
Ltac dj0 :=
  first
    [ assumption
    | congruence
    | let Hin := fresh in intros Hin;
      match goal with
      | H : ∀ q, q ∈ ?l → q ∉ ?l', H' : ?x ∈ ?l |- False => by eapply H
      end ].
Ltac dj :=
  rewrite ?ptrs_T, ?not_elem_of_cons, ?not_elem_of_app, ?not_elem_of_cons;
  repeat match goal with |- _ ∧ _ => split end;
  try first
    [ dj0
    | apply parent_neq; dj0
    | apply not_eq_sym, parent_neq; dj0
    | apply parent_notin; [dj0|first [assumption|intros ? ?; dj0]] ].

(** ** Writing one item *)

Lemma rep_insert h u t q i : q ∉ ptrs t → rep h u t → rep (<[q := i]> h) u t.
Proof.
  revert u. induction t as [|c l IHl p v r IHr]; intros u Hq; [done|]. red_rep.
  rewrite elem_ptrs_T in Hq. intros (Hp & Hl & Hr).
  rewrite lookup_insert_ne by (intros ->; tauto). split; [done|]. split; [apply IHl|apply IHr]; tauto.
Qed.
Lemma repk_insert h k o q i : q ∉ rt :: kptrs k → repk h k o → repk (<[q := i]> h) k o.
Proof.
  revert o. induction k as [|f k IH]; intros o Hq.
  - red_rep. intros [Hp _]. rewrite lookup_insert_ne by (intros ->; set_solver). done.
  - assert (q ∉ rt :: kptrs k ∧ q ≠ fptr f ∧ q ∉ ptrs (fill f E)) as (Hk & Hf & Ht).
    { rewrite elem_of_cons, elem_kptrs in Hq. rewrite elem_of_cons. tauto. }
    destruct f; red_rep_all; rewrite elem_ptrs_T in Ht; intros (Hp & Hr & Hkk);
      rewrite lookup_insert_ne by done; (split; [done|]);
      (split; [apply rep_insert; tauto|by apply IH]).
Qed.
Lemma repk_hole h k o o' : NoDup (rt :: kptrs k) → repk h k o → repk (<[parent k := pitem k o']> h) k o'.
Proof.
  destruct k as [|[c p v r|c l p v] k]; red_rep.
  - intros _ _. by rewrite lookup_insert_eq.
  - rewrite kptrs_FL. intros Hd (_ & Hr & Hk). rewrite lookup_insert_eq. split; [done|].
    rewrite !NoDup_cons, NoDup_app in Hd. destruct Hd as (Hrt & Hp & _).
    split; [apply rep_insert; [set_solver|done]|apply repk_insert; [set_solver|done]].
  - rewrite kptrs_FR. intros Hd (_ & Hr & Hk). rewrite lookup_insert_eq. split; [done|].
    rewrite !NoDup_cons, NoDup_app in Hd. destruct Hd as (Hrt & Hp & _).
    split; [apply rep_insert; [set_solver|done]|apply repk_insert; [set_solver|done]].
Qed.

(** ** The focus *)

Lemma zrep_item h un k c l p v r : zrep h un k (T c l p v r) →
  h !! p = Some (mk_item (parent k) (root l) (root r) c v).
Proof. intros [_ _ Ht _]. apply Ht. Qed.
Lemma zrep_color h un k t : zrep h un k t →
  ∃ u l r v, h !! root t = Some (mk_item u l r (isred t) v).
Proof. intros [Hn _ Ht _]. by eapply rep_root. Qed.
Lemma zrep_distinct h un k c l p v r : zrep h un k (T c l p v r) → p ≠ nl ∧ p ≠ rt.
Proof.
  intros Hz%zrep_nodup. rewrite !NoDup_cons, ptrs_T in Hz. destruct Hz as (Hn & Hr & _).
  split; intros ->; [apply Hn|apply Hr]; set_solver.
Qed.
Lemma zrep_parent_neq h un k t : zrep h un k t → k ≠ [] → parent k ≠ rt.
Proof.
  intros Hz Hk. destruct k as [|f k]; [done|]. apply zrep_up in Hz.
  destruct f; by apply zrep_distinct in Hz as [_ ?].
Qed.
Lemma zrep_not_sibling h un k c l p v r : zrep h un k (T c l p v r) → root l = root r → l = E ∧ r = E.
Proof.
  intros Hz%zrep_nodup Hlr. rewrite !NoDup_cons, ptrs_T, !NoDup_app, NoDup_cons in Hz.
  destruct Hz as (Hn & _ & (Hl & Hd & _) & _).
  destruct l as [|cl ll pl vl rl], r as [|cr lr pr vr rr]; cbn in Hlr; [done| | |].
  - exfalso. apply Hn. rewrite !ptrs_T. set_solver.
  - exfalso. apply Hn. rewrite !ptrs_T. set_solver.
  - exfalso. subst. apply (Hd pr); rewrite !ptrs_T; set_solver.
Qed.

(** Painting the focus. *)
Lemma twp_paint k c l p v r c' h un (Q : unit → tstore → Prop) :
  zrep h un k (T c l p v r) →
  (∀ h', (∀ q, q ≠ p → h' !! q = h !! q) → zrep h' un k (T c' l p v r) → Q tt h') →
  twp (set_red p c') Q h.
Proof.
  intros Hz HQ. pose proof (zrep_nodup _ _ _ _ Hz) as Hd. pose proof Hz as [Hn Hk Ht Hd0].
  eapply twp_upd; [exact (proj1 Ht)|]. apply HQ; [intros; by rewrite lookup_insert_ne|].
  distinct Hd.
  destruct Ht as (Hp & Hl & Hr). unfold with_red; cbn [it_up it_left it_right it_val].
  split; [|apply repk_insert; [dj|done]| |done].
  - rewrite lookup_insert_ne by dj. done.
  - red_rep. rewrite lookup_insert_eq. split; [done|].
    split; apply rep_insert; try done; dj.
Qed.

(** Replacing the focus in its parent. *)
Definition sibling (k : list frame) : ptr :=
  match k with FR _ l _ _ :: _ => root l | _ => rt end.
Lemma sibling_neq k x : x ≠ nl → x ≠ rt → x ∉ kptrs k → sibling k ≠ x.
Proof.
  intros Hn Hr Hk. destruct k as [|[|c [|cl ll pl vl rl] p v] k]; cbn; try congruence.
  intros ->. apply Hk. rewrite kptrs_FR. right. rewrite elem_of_app, elem_ptrs_T. tauto.
Qed.
Lemma twp_relink k o o' h (Q : unit → tstore → Prop) :
  h !! parent k = Some (pitem k o) → sibling k ≠ o → Q tt (<[parent k := pitem k o']> h) →
  twp (relink (parent k) o o') Q h.
Proof.
  intros Hp Hs HQ. unfold relink, left, set_left, set_right.
  apply twp_bind. eapply twp_get; [exact Hp|].
  destruct k as [|[c p v r|c l p v] k]; cbn [parent fptr pitem it_left sibling] in *.
  - rewrite Z.eqb_refl. by eapply twp_upd.
  - rewrite Z.eqb_refl. by eapply twp_upd.
  - destruct (Z.eqb_spec o (root l)); [done|]. by eapply twp_upd.
Qed.

(** Rotations keep the items, their order and everything else in the store. *)
Ltac look := repeat first [rewrite lookup_insert_eq | rewrite lookup_insert_ne by dj]; first [eassumption | reflexivity].
Ltac trun :=
  unfold up, left, right, red, val, set_up, set_left, set_right, set_red, set_val;
  repeat (cbn [root it_up it_left it_right it_red it_val with_up with_left with_right with_red with_val];
    lazymatch goal with
    | |- twp (_ ≫= _) _ _ => apply twp_bind
    | |- twp (mret _) _ _ => apply twp_ret
    | |- twp (get _ _) _ _ => eapply twp_get; [look|]
    | |- twp (upd _ _) _ _ => eapply twp_upd; [look|]
    end).
Ltac untouched :=
  let q := fresh "q" in let Hq := fresh "Hq" in
  intros q Hq; rewrite whole_perm, !ptrs_T in Hq;
  repeat rewrite ?not_elem_of_cons, ?not_elem_of_app in Hq; decompose [and] Hq;
  repeat rewrite lookup_insert_ne by dj; done.
(** The new store holds the new tree, item by item. *)
Ltac rebuild_ctx :=
  repeat first
    [ eassumption
    | apply repk_insert; [solve [dj]|]
    | eapply repk_hole; [apply NoDup_cons; split; solve [dj]|] ].
Ltac rebuild :=
  red_rep;
  lazymatch goal with
  | |- _ ∧ _ => split; [rebuild|rebuild]
  | |- True => done
  | |- rep _ _ _ => repeat first [eassumption | apply rep_insert; [solve [dj]|]]
  | |- repk _ _ _ => rebuild_ctx
  | |- _ !! _ = _ => look
  end.
Lemma whole_rotate k c d a x v b y w e c' d' :
  whole k (T d' (T c' a x v b) y w e) = whole k (T c a x v (T d b y w e)).
Proof. unfold whole. cbn. rewrite <- !app_assoc. cbn. by rewrite <- !app_assoc. Qed.

Lemma twp_lrotate k c d a x v b y w e h un (Q : unit → tstore → Prop) :
  zrep h un k (T c a x v (T d b y w e)) →
  (∀ h', (∀ q, q ∉ rt :: (whole k (T c a x v (T d b y w e))).*2 → h' !! q = h !! q) →
    zrep h' un k (T d (T c a x v b) y w e) → Q tt h') →
  twp (dill_rbtree_lrotate nl x) Q h.
Proof.
  intros Hz HQ. pose proof (zrep_nodup _ _ _ _ Hz) as Hd. pose proof Hz as [Hn Hk Ht Hd0].
  destruct Ht as (Hx & Ha & Hy & Hb & He). cbn [root] in *.
  pose proof (repk_parent _ _ _ Hk) as Hp.
  destruct b as [|cb lb pb vb rb].
  - distinct Hd. unfold dill_rbtree_lrotate. trun. cbn [root]. rewrite Z.eqb_refl. trun.
    apply twp_relink; [look|apply sibling_neq; dj|]. trun. apply HQ; [untouched|].
    split; [look|rebuild_ctx|rebuild|by rewrite (whole_rotate k c d)].
  - destruct Hb as (Hb & Hlb & Hrb).
    distinct Hd. unfold dill_rbtree_lrotate. trun. cbn [root]. rewrite (proj2 (Z.eqb_neq pb nl)) by dj. trun.
    apply twp_relink; [look|apply sibling_neq; dj|]. trun. apply HQ; [untouched|].
    split; [look|rebuild_ctx|rebuild|by rewrite (whole_rotate k c d)].
Qed.

Lemma twp_rrotate k c d a x v b y w e h un (Q : unit → tstore → Prop) :
  zrep h un k (T d (T c a x v b) y w e) →
  (∀ h', (∀ q, q ∉ rt :: (whole k (T d (T c a x v b) y w e)).*2 → h' !! q = h !! q) →
    zrep h' un k (T c a x v (T d b y w e)) → Q tt h') →
  twp (dill_rbtree_rrotate nl y) Q h.
Proof.
  intros Hz HQ. pose proof (zrep_nodup _ _ _ _ Hz) as Hd. pose proof Hz as [Hn Hk Ht Hd0].
  destruct Ht as (Hy & (Hx & Ha & Hb) & He). cbn [root] in *.
  pose proof (repk_parent _ _ _ Hk) as Hp.
  destruct b as [|cb lb pb vb rb].
  - distinct Hd. unfold dill_rbtree_rrotate. trun. cbn [root]. rewrite Z.eqb_refl. trun.
    apply twp_relink; [look|apply sibling_neq; dj|]. trun. apply HQ; [untouched|].
    split; [look|rebuild_ctx|rebuild|by rewrite <- (whole_rotate k c d a x v E y w e c d)].
  - destruct Hb as (Hb & Hlb & Hrb).
    distinct Hd. unfold dill_rbtree_rrotate. trun. cbn [root]. rewrite (proj2 (Z.eqb_neq pb nl)) by dj. trun.
    apply twp_relink; [look|apply sibling_neq; dj|]. trun. apply HQ; [untouched|].
    split; [look|rebuild_ctx|rebuild|by rewrite <- (whole_rotate k c d a x v (T cb lb pb vb rb) y w e c d)].
Qed.

(** A new leaf below the parent of an empty focus, on the side its value asks for. *)
Definition goes (k : list frame) (v : Z) : Prop :=
  match k with [] => True | FL _ _ w _ :: _ => v < w | FR _ _ _ w :: _ => w ≤ v end.
Lemma twp_attach k z u c v h un (Q : unit → tstore → Prop) :
  zrep h un k E → z ∉ nl :: rt :: (whole k E).*2 → h !! z = Some (mk_item u nl nl c v) → goes k v →
  (∀ h', (∀ q, q ∉ z :: rt :: (whole k E).*2 → h' !! q = h !! q) →
    zrep h' un k (T c E z v E) → Q tt h') →
  twp (set_up z (parent k);; yv ← val (parent k);
       if (parent k =? rt) || (v <? yv) then set_left (parent k) z else set_right (parent k) z) Q h.
Proof.
  intros Hz Hout Hi Hg HQ. pose proof (zrep_nodup _ _ _ _ Hz) as Hd. pose proof Hz as [Hn Hk _ Hd0].
  pose proof (repk_parent _ _ _ Hk) as Hp. cbn [root] in *.
  rewrite whole_perm in Hout. cbn [ptrs] in Hd, Hout.
  repeat rewrite ?not_elem_of_cons, ?not_elem_of_app in Hout. decompose [and] Hout. distinct Hd.
  assert (parent k ≠ z) by dj.
  assert (Hk' : zrep (<[parent k := pitem k z]> (<[z := mk_item (parent k) nl nl c v]> h)) un k (T c E z v E)).
  { split; [look|rebuild_ctx|rebuild|].
    rewrite whole_perm, ptrs_T. cbn [ptrs ino fmap list_fmap app].
    apply NoDup_cons; split; [dj|]. apply NoDup_cons; split; [dj|]. apply NoDup_cons; split; dj. }
  assert (Hf : ∀ q, q ∉ z :: rt :: (whole k E).*2 →
    <[parent k := pitem k z]> (<[z := mk_item (parent k) nl nl c v]> h) !! q = h !! q).
  { intros q Hq. rewrite whole_perm in Hq. repeat rewrite ?not_elem_of_cons, ?not_elem_of_app in Hq.
    decompose [and] Hq. repeat rewrite lookup_insert_ne by dj. done. }
  specialize (HQ _ Hf Hk'). trun.
  destruct k as [|[c' p w r|c' l p w] k]; cbn [parent fptr pitem it_val goes] in *.
  - rewrite Z.eqb_refl. cbn [orb]. trun. exact HQ.
  - rewrite (proj2 (Z.eqb_neq p rt)) by (eapply zrep_parent_neq with (k := FL c' p w r :: k); [exact Hz|done]).
    rewrite (proj2 (Z.ltb_lt v w)) by done. cbn [orb]. trun. exact HQ.
  - rewrite (proj2 (Z.eqb_neq p rt)) by (eapply zrep_parent_neq with (k := FR c' l p w :: k); [exact Hz|done]).
    rewrite (proj2 (Z.ltb_ge v w)) by done. cbn [orb]. trun. exact HQ.
Qed.

(** Taking an item with at most one child out, and putting one in the place of another. *)
Lemma twp_unlink k c l y v r t h un (Q : unit → tstore → Prop) :
  zrep h un k (T c l y v r) → l = E ∧ t = r ∨ r = E ∧ t = l →
  (∀ h' un', (∀ q, q ∉ nl :: rt :: (whole k t).*2 → h' !! q = h !! q) →
    zrep h' un' k t → (t = E → un' = parent k) → Q tt h') →
  twp (unlink rt y (root t)) Q h.
Proof.
  intros Hz Hlr HQ. pose proof (zrep_nodup _ _ _ _ Hz) as Hd.
  pose proof (zrep_parent_neq _ _ _ _ Hz) as Hpn. pose proof Hz as [Hn Hk Ht Hd0].
  pose proof (repk_parent _ _ _ Hk) as Hp. destruct Ht as (Hy & Hl & Hr). cbn [root] in *.
  assert (Ht : rep h y t) by (by destruct Hlr as [[_ ->]|[_ ->]]).
  assert (Hdt : NoDup (nl :: rt :: (y :: ptrs t) ++ kptrs k)).
  { revert Hd. rewrite ptrs_T. destruct Hlr as [[-> ->]|[-> ->]]; cbn [ptrs ino fmap list_fmap app]; [done|].
    intros Hd. eapply NoDup_Permutation_proper; [|exact Hd]. do 2 apply perm_skip.
    rewrite <- app_assoc. apply Permutation_middle. }
  assert (Hdup : NoDup (nl :: rt :: (whole k t).*2)).
  { rewrite whole_perm. rewrite !NoDup_cons in Hdt |- *. cbn [app] in Hdt. rewrite NoDup_cons in Hdt. set_solver. }
  clear Hlr Hl Hr Hd Hz Hd0. unfold unlink.
  (** Both ways of writing to the parent are the same. *)
  assert (Hlink : ∀ h', h' !! parent k = Some (pitem k y) → sibling k ≠ y →
    twp (if rt =? parent k then set_left rt (root t) else relink (parent k) y (root t)) Q h' ↔
    Q tt (<[parent k := pitem k (root t)]> h')).
  { intros h' Hp' Hs. unfold twp, relink, set_left, set_right, left, get, upd, mbind, TM_bind, option_bind.
    destruct k as [|[c' p w r'|c' l' p w] k]; cbn [parent fptr pitem sibling] in *.
    - rewrite Z.eqb_refl, Hp'. done.
    - rewrite (proj2 (Z.eqb_neq rt p)) by (by apply not_eq_sym, Hpn).
      rewrite Hp'. cbn [it_left]. rewrite Z.eqb_refl, Hp'. done.
    - rewrite (proj2 (Z.eqb_neq rt p)) by (by apply not_eq_sym, Hpn).
      rewrite Hp'. cbn [it_left]. rewrite (proj2 (Z.eqb_neq y (root l'))) by congruence. rewrite Hp'. done. }
  destruct t as [|ct lt p w rt'].
  - distinct Hdt. assert (sibling k ≠ y) by (apply sibling_neq; dj).
    trun. apply Hlink; [look|done|]. apply (HQ _ (parent k)); [|split; [look|rebuild_ctx|rebuild|done]|done].
    intros q Hq. rewrite whole_perm in Hq. repeat rewrite ?not_elem_of_cons, ?not_elem_of_app in Hq.
    decompose [and] Hq. cbn [root]. repeat rewrite lookup_insert_ne by dj. done.
  - destruct Ht as (Hpi & Hl & Hr). distinct Hdt. assert (sibling k ≠ y) by (apply sibling_neq; dj).
    cbn [root]. trun. apply Hlink; [look|done|].
    apply (HQ _ un); [|split; [look|rebuild_ctx|rebuild|done]|done].
    intros q Hq. rewrite whole_perm, ptrs_T in Hq. repeat rewrite ?not_elem_of_cons, ?not_elem_of_app in Hq.
    decompose [and] Hq. cbn [root]. repeat rewrite lookup_insert_ne by dj. done.
Qed.

Lemma twp_replace k c l z vz r y i h un (Q : unit → tstore → Prop) :
  zrep h un k (T c l z vz r) → y ∉ nl :: rt :: (whole k (T c l z vz r)).*2 → h !! y = Some i →
  (∀ h' un', (∀ q, q ∉ y :: nl :: rt :: (whole k (T c l z vz r)).*2 → h' !! q = h !! q) →
    zrep h' un' k (T c l y (it_val i) r) → Q tt h') →
  twp (replace z y) Q h.
Proof.
  intros Hz Hy Hi HQ. pose proof (zrep_nodup _ _ _ _ Hz) as Hd. pose proof Hz as [Hn Hk Ht Hd0].
  pose proof (repk_parent _ _ _ Hk) as Hp. destruct Ht as (Hzi & Hl & Hr). cbn [root] in *.
  rewrite whole_perm, ptrs_T in Hy.
  assert (Hdup : NoDup (nl :: rt :: (whole k (T c l y (it_val i) r)).*2)).
  { rewrite whole_perm, ptrs_T. rewrite ptrs_T in Hd. rewrite !NoDup_cons, <- app_assoc, <- app_comm_cons in *.
    rewrite <- Permutation_middle in Hd |- *. rewrite NoDup_cons in Hd |- *.
    clear -Hd Hy. set_solver. }
  assert (Hout : ∀ q, q ∉ y :: nl :: rt :: (whole k (T c l z vz r)).*2 →
    q ≠ y ∧ q ≠ nl ∧ q ≠ rt ∧ q ≠ z ∧ q ≠ parent k ∧ q ∉ ptrs l ∧ q ∉ ptrs r).
  { intros q Hq. rewrite whole_perm, ptrs_T in Hq. repeat rewrite ?not_elem_of_cons, ?not_elem_of_app in Hq.
    decompose [and] Hq. repeat split; dj. }
  unfold replace.
  assert (parent k ≠ z) by (clear -Hd; distinct Hd; dj).
  destruct l as [|cl ll pl vl rl]; [|destruct Hl as (Hpl & Hll & Hlr)];
    (destruct r as [|cr lr pr vr rr]; [|destruct Hr as (Hpr & Hrl & Hrr)]);
    clear Hz Hd0; rewrite ?ptrs_T in Hy; repeat rewrite ?not_elem_of_cons, ?not_elem_of_app in Hy;
    decompose [and] Hy; distinct Hd;
    trun; (apply twp_relink; [look|apply sibling_neq; dj|]);
    [apply (HQ _ y)|apply (HQ _ y)|apply (HQ _ y)|apply (HQ _ un)];
    lazymatch goal with
    | |- zrep _ _ _ _ => split; [look|rebuild_ctx|rebuild|done]
    | |- _ =>
      let q := fresh "q" in let Hq := fresh "Hq" in
      intros q Hq; apply Hout in Hq; rewrite ?ptrs_T in Hq;
      repeat rewrite ?not_elem_of_cons, ?not_elem_of_app in Hq; decompose [and] Hq;
      repeat rewrite lookup_insert_ne by dj; done
    end.
Qed.
End Rep.
