(* ===== verification/Rbspec.v ===== *)
(** The red-black tree of the timers: the loops of [Rbtree.v] keep it balanced, and each
    operation does to it what it does to the sorted list of its items. *)

From Stdlib Require Import ZArith Lia.
From stdpp Require Import base gmap list sorting.
From S2P Require Import Prelude Cr Rbtree Rbheap.
Open Scope Z_scope.

(** * Red-black trees *)

(** [n] black items on each way down, no red item below a red one. *)
Fixpoint rb (n : nat) (t : tree) : Prop :=
  match t with
  | E => n = O
  | T true l _ _ r => isred l = false ∧ isred r = false ∧ rb n l ∧ rb n r
  | T false l _ _ r => match n with S n => rb n l ∧ rb n r | O => False end
  end.

(** The parent of the focus is a black item. *)
Definition kblack (k : list frame) : bool :=
  match k with FL c _ _ _ :: _ | FR c _ _ _ :: _ => negb c | [] => false end.
Definition kred (k : list frame) : bool :=
  match k with FL c _ _ _ :: _ | FR c _ _ _ :: _ => c | [] => false end.

(** A context that completes a black tree of [n] levels. *)
Fixpoint rbk (n : nat) (k : list frame) : Prop :=
  match k with
  | [] => True
  | FL true _ _ r :: k => isred r = false ∧ rb n r ∧ kblack k = true ∧ rbk n k
  | FR true l _ _ :: k => isred l = false ∧ rb n l ∧ kblack k = true ∧ rbk n k
  | FL false _ _ r :: k => rb n r ∧ rbk (S n) k
  | FR false l _ _ :: k => rb n l ∧ rbk (S n) k
  end.

(** A red-black tree with a focus: a red focus has a black item above it. *)
Definition good (k : list frame) (t : tree) : Prop :=
  ∃ n, rb n t ∧ rbk n k ∧ (isred t = true → kblack k = true).

Lemma good_fill f k t : good (f :: k) t → good k (fill f t).
Proof.
  intros (n & Ht & Hk & Hr).
  destruct f as [[] p v r|[] l p v]; cbn [rbk kblack negb fill isred] in *; [|exists (S n); cbn; naive_solver| |exists (S n); cbn; naive_solver];
    (assert (isred t = false) by (destruct (isred t); [by specialize (Hr eq_refl)|done]));
    exists n; cbn; tauto.
Qed.
Lemma good_down_left k c l p v r : good k (T c l p v r) → good (FL c p v r :: k) l.
Proof.
  intros (n & Ht & Hk & Hr). destruct c; cbn [rb isred] in Ht, Hr.
  - destruct Ht as (Hl & ? & ? & ?). exists n. cbn. rewrite Hl. naive_solver.
  - destruct n as [|n]; [done|]. destruct Ht. exists n. cbn. naive_solver.
Qed.
Lemma good_down_right k c l p v r : good k (T c l p v r) → good (FR c l p v :: k) r.
Proof.
  intros (n & Ht & Hk & Hr). destruct c; cbn [rb isred] in Ht, Hr.
  - destruct Ht as (? & Hrr & ? & ?). exists n. cbn. rewrite Hrr. naive_solver.
  - destruct n as [|n]; [done|]. destruct Ht. exists n. cbn. naive_solver.
Qed.
Lemma good_plug k t : good k t ↔ good [] (plug k t).
Proof.
  revert t. induction k as [|f k IH]; intros t; [done|]. cbn. rewrite <- IH.
  split; [apply good_fill|]. destruct f; [apply good_down_left|apply good_down_right].
Qed.
Lemma good_nil t : good [] t ↔ isred t = false ∧ ∃ n, rb n t.
Proof.
  split.
  - intros (n & Ht & _ & Hr). destruct (isred t); [by specialize (Hr eq_refl)|eauto].
  - intros [Hr [n Ht]]. exists n. by rewrite Hr.
Qed.

(** ** Height *)

Fixpoint hgt (t : tree) : nat := match t with E => O | T _ l _ _ r => S (hgt l `max` hgt r) end.

Lemma rb_height n t : rb n t → (hgt t ≤ 2 * n + if isred t then 1 else 0)%nat.
Proof.
  revert n. induction t as [|[] l IHl p v r IHr]; intros n; cbn [rb hgt isred]; [lia| |].
  - intros (Hl & Hr & Hnl & Hnr). apply IHl in Hnl. apply IHr in Hnr. rewrite Hl in Hnl. rewrite Hr in Hnr. lia.
  - destruct n as [|n]; [done|]. intros [Hnl Hnr]. apply IHl in Hnl. apply IHr in Hnr.
    destruct (isred l), (isred r); lia.
Qed.
Lemma rb_size n t : rb n t → (2 ^ n ≤ S (length (ino t)))%nat.
Proof.
  revert n. induction t as [|[] l IHl p v r IHr]; intros n; cbn [rb ino].
  - intros ->. cbn. lia.
  - intros (_ & _ & Hl & Hr). apply IHl in Hl. rewrite length_app. lia.
  - destruct n as [|n]; [done|]. intros [Hl Hr]. apply IHl in Hl. apply IHr in Hr.
    rewrite length_app. cbn [length]. rewrite Nat.pow_succ_r'. lia.
Qed.
Lemma good_height t : good [] t → (hgt t ≤ 2 * Nat.log2 (S (length (ino t))))%nat.
Proof.
  intros [Hr [n Hn]]%good_nil. pose proof (rb_height _ _ Hn) as Hh. rewrite Hr in Hh.
  apply rb_size in Hn. pose proof (Nat.log2_le_mono _ _ Hn) as Hl. rewrite Nat.log2_pow2 in Hl; lia.
Qed.
Lemma hgt_plug k t : (length k + hgt t ≤ hgt (plug k t))%nat.
Proof.
  revert t. induction k as [|f k IH]; intros t; [done|]. cbn [length plug fold_left].
  specialize (IH (fill f t)). unfold plug in IH. destruct f; cbn [fill hgt] in *; lia.
Qed.

Section Spec.
Context (rt nl : ptr).

(** * The loops, over a focus *)

(** The store holds the items [ls] in this order, and is [h0] elsewhere. *)
Definition holds (h0 : tstore) (ls : list (Z * ptr)) (h : tstore) (un : ptr) (k : list frame) (t : tree) : Prop :=
  zrep rt nl h un k t ∧ whole k t = ls ∧ ∀ q, q ∉ nl :: rt :: ls.*2 → h !! q = h0 !! q.

Lemma holds_fill h0 ls h un f k t : holds h0 ls h un (f :: k) t ↔ holds h0 ls h un k (fill f t).
Proof. unfold holds. by rewrite zrep_up, whole_fill. Qed.
Lemma holds_plug h0 ls h un k t : holds h0 ls h un k t ↔ holds h0 ls h un [] (plug k t).
Proof. revert t. induction k as [|f k IH]; intros t; [done|]. rewrite holds_fill. apply IH. Qed.

Lemma holds_refocus h0 ls h un k t k' t' :
  holds h0 ls h un k t → plug k t = plug k' t' → holds h0 ls h un k' t'.
Proof. rewrite holds_plug, (holds_plug _ _ _ _ k' t'). by intros ? <-. Qed.

Lemma holds_paint h0 ls k c l p v r c' h un (Q : unit → tstore → Prop) :
  holds h0 ls h un k (T c l p v r) →
  (∀ h', holds h0 ls h' un k (T c' l p v r) → Q tt h') → twp (set_red p c') Q h.
Proof.
  intros (Hz & Hw & Hf) HQ. eapply twp_paint; [exact Hz|]. intros h' Hh' Hz'. apply HQ.
  split; [done|]. split; [done|]. intros q Hq. rewrite Hh'; [by apply Hf|].
  intros ->. apply Hq. do 2 right. rewrite <- Hw, whole_perm, ptrs_T. set_solver.
Qed.
Lemma holds_lrotate h0 ls k c d a x v b y w e h un (Q : unit → tstore → Prop) :
  holds h0 ls h un k (T c a x v (T d b y w e)) →
  (∀ h', holds h0 ls h' un k (T d (T c a x v b) y w e) → Q tt h') → twp (dill_rbtree_lrotate nl x) Q h.
Proof.
  intros (Hz & Hw & Hf) HQ. eapply twp_lrotate; [exact Hz|]. intros h' Hh' Hz'. apply HQ.
  split; [done|]. split; [by rewrite <- Hw, (whole_rotate k c d)|]. intros q Hq. rewrite Hh'; [by apply Hf|].
  rewrite Hw. by apply not_elem_of_cons in Hq as [_ ?].
Qed.
Lemma holds_rrotate h0 ls k c d a x v b y w e h un (Q : unit → tstore → Prop) :
  holds h0 ls h un k (T d (T c a x v b) y w e) →
  (∀ h', holds h0 ls h' un k (T c a x v (T d b y w e)) → Q tt h') → twp (dill_rbtree_rrotate nl y) Q h.
Proof.
  intros (Hz & Hw & Hf) HQ. eapply twp_rrotate; [exact Hz|]. intros h' Hh' Hz'. apply HQ.
  split; [done|]. split; [by rewrite <- Hw, <- (whole_rotate k c d _ _ _ _ _ _ _ c d)|]. intros q Hq. rewrite Hh'; [by apply Hf|].
  rewrite Hw. by apply not_elem_of_cons in Hq as [_ ?].
Qed.

Lemma twp_red_root h u un t (Q : bool → tstore → Prop) :
  h !! nl = Some (mk_item un nl nl false 0) → rep nl h u t → Q (isred t) h → twp (red (root nl t)) Q h.
Proof. intros Hn Ht HQ. destruct (rep_root _ _ _ _ _ Hn Ht) as (u' & l & r & v & Hi). by eapply twp_get. Qed.

(** [expose H]: every item near the focus, as facts about the store. *)
Ltac ands H :=
  lazymatch type of H with
  | _ ∧ _ => let H1 := fresh in let H2 := fresh in destruct H as [H1 H2]; ands H1; ands H2
  | _ => idtac
  end.
Ltac expose H :=
  let Z := fresh "HZ" in let K := fresh "HK" in let F := fresh "HF" in
  pose proof (proj1 H) as Z; pose proof (zr_nil _ _ _ _ _ _ Z); pose proof (zr_ctx _ _ _ _ _ _ Z) as K;
  pose proof (zr_foc _ _ _ _ _ _ Z) as F; clear Z;
  cbn [rep repk root isred parent pitem fptr fill] in K, F;
  ands K; ands F.
(** [reads]: run the reads that the facts decide. *)
Ltac red_step :=
  cbn [it_up it_left it_right it_red it_val parent fptr root negb andb orb isred];
  rewrite ?Z.eqb_refl; cbn [negb andb orb].
Ltac reads :=
  unfold up, left, right, red, val; red_step;
  repeat (lazymatch goal with
    | |- twp (_ ≫= _) _ _ => apply twp_bind
    | |- twp (mret _) _ _ => apply twp_ret
    | |- twp (get it_red (root nl ?t)) _ _ => eapply twp_red_root; [eassumption|eassumption|]
    | |- twp (get _ _) _ _ => eapply twp_get; [first [eassumption|eapply repk_parent; eassumption]|]
    end; red_step).

(** [paint], [lrot], [rrot]: a write at the focus [k], with the fact [H] about the new store. *)
Ltac refocus H := eapply holds_refocus; [exact H|reflexivity].
Ltac at_focus tac H k :=
  repeat lazymatch goal with |- twp (_ ≫= _) _ _ => apply twp_bind end;
  let h' := fresh "h" in let H' := fresh "Hn" in
  tac k; [refocus H|intros h' H'; clear H; rename H' into H].
Ltac paint H k := at_focus ltac:(fun k => eapply (holds_paint _ _ k)) H k.
Ltac lrot H k := at_focus ltac:(fun k => eapply (holds_lrotate _ _ k)) H k.
Ltac rrot H k := at_focus ltac:(fun k => eapply (holds_rrotate _ _ k)) H k.

Lemma holds_neq h0 ls h un k c l p v r : holds h0 ls h un k (T c l p v r) → l ≠ E → root nl l ≠ root nl r.
Proof. intros [Hz _] Hl Hlr. by destruct (zrep_not_sibling _ _ _ _ _ _ _ _ _ _ Hz Hlr). Qed.

(** An item at the focus is not the other child of its parent. *)
Lemma holds_left_neq h0 ls h un c q w s k c' l p v r :
  holds h0 ls h un (FL c q w s :: k) (T c' l p v r) → (p =? root nl s) = false.
Proof.
  intros Hh%holds_fill. apply Z.eqb_neq. eapply (holds_neq _ _ _ _ _ _ (T c' l p v r)); [exact Hh|done].
Qed.
Lemma holds_right_neq h0 ls h un c s q w k c' l p v r :
  holds h0 ls h un (FR c s q w :: k) (T c' l p v r) → (p =? root nl s) = false.
Proof.
  intros [Hz%zrep_up _]. apply Z.eqb_neq. intros Heq.
  by destruct (zrep_not_sibling _ _ _ _ _ _ _ _ _ _ Hz (eq_sym Heq)).
Qed.

(** [insert_loop] ends, with a tree that is red-black but for a red root: what a round
    needs, and what the rest of the rounds does. *)
Definition insert_post (h0 : tstore) ls un (Q : unit → tstore → Prop) : Prop :=
  ∀ h' k' t' n', holds h0 ls h' un k' t' → rb n' t' → rbk n' k' → (isred t' = true → kred k' = false) → Q tt h'.
Definition insert_pre (h0 : tstore) ls un h k l p v r n (fuel : nat) : Prop :=
  holds h0 ls h un k (T true l p v r) ∧ isred l = false ∧ isred r = false ∧ rb n l ∧ rb n r ∧ rbk n k ∧
  (length k < fuel)%nat.
Definition insert_ok (h0 : tstore) ls un Q (fuel : nat) : Prop :=
  ∀ h k l p v r n, insert_pre h0 ls un h k l p v r n fuel → twp (insert_loop nl fuel p) Q h.

Lemma insert_left h0 ls un Q fuel h k q w s l p v r n :
  insert_ok h0 ls un Q fuel → insert_pre h0 ls un h (FL true q w s :: k) l p v r n (S fuel) →
  twp (insert_loop nl (S fuel) p) Q h.
Proof.
  intros IH (Hh & Hl & Hr & Hnl & Hnr & (Hs & Hns & Hb & Hk) & Hf). cbn [length] in Hf. cbn [insert_loop].
  destruct k as [|[[] g gw u|[] u g gw] k]; try done; cbn [rbk length] in Hk, Hf.
  - (** [p] is the left child of the left child of [g] *)
    pose proof (holds_left_neq _ _ _ _ _ _ _ _ _ _ _ _ _ _ Hh) as Hne.
    expose Hh. reads. destruct (isred u) eqn:Hu.
    + destruct u as [|[] ul up_ uv ur]; try done. reads.
      paint Hh (FL false g gw (T true ul up_ uv ur) :: k).
      paint Hh (FR false (T false (T true l p v r) q w s) g gw :: k).
      paint Hh k.
      eapply (IH _ k _ _ _ _ (S n)); split; [exact Hh|]. cbn in *. repeat split; first [done|lia|tauto].
    + reads. rewrite Hne. reads.
      paint Hh (FL false g gw u :: k). expose Hh. reads. paint Hh k. rrot Hh k.
      eapply (IH _ (FL false q w (T true s g gw u) :: k) l p v r n). split; [refocus Hh|]. cbn. repeat split; first [done|lia|tauto].
  - (** [p] is the left child of the right child of [g] *)
    pose proof (holds_right_neq _ _ _ _ _ _ _ _ _ _ _ _ _ _ (proj1 (holds_fill _ _ _ _ (FL true q w s) _ _) Hh)) as Hne.
    expose Hh. reads. rewrite Hne. reads. destruct (isred u) eqn:Hu.
    + destruct u as [|[] ul up_ uv ur]; try done. reads.
      paint Hh (FR false (T true ul up_ uv ur) g gw :: k).
      paint Hh (FL false g gw (T false (T true l p v r) q w s) :: k).
      paint Hh k.
      eapply (IH _ k _ _ _ _ (S n)); split; [exact Hh|]. cbn in *. repeat split; first [done|lia|tauto].
    + reads. rrot Hh (FR false u g gw :: k). reads.
      apply (holds_refocus _ _ _ _ _ _ (FR true l p v :: FR false u g gw :: k) (T true r q w s)) in Hh; [|done].
      expose Hh. reads. paint Hh (FR false u g gw :: k). expose Hh. reads. paint Hh k. lrot Hh k.
      eapply (IH _ (FR false (T true u g gw l) p v :: k) r q w s n). split; [refocus Hh|]. cbn. repeat split; first [done|lia|tauto].
Qed.

Lemma insert_right h0 ls un Q fuel h k q w s l p v r n :
  insert_ok h0 ls un Q fuel → insert_pre h0 ls un h (FR true s q w :: k) l p v r n (S fuel) →
  twp (insert_loop nl (S fuel) p) Q h.
Proof.
  intros IH (Hh & Hl & Hr & Hnl & Hnr & (Hs & Hns & Hb & Hk) & Hf). cbn [length] in Hf. cbn [insert_loop].
  destruct k as [|[[] g gw u|[] u g gw] k]; try done; cbn [rbk length] in Hk, Hf.
  - (** [p] is the right child of the left child of [g] *)
    expose Hh. reads. destruct (isred u) eqn:Hu.
    + destruct u as [|[] ul up_ uv ur]; try done. reads.
      paint Hh (FL false g gw (T true ul up_ uv ur) :: k).
      paint Hh (FR false (T false s q w (T true l p v r)) g gw :: k).
      paint Hh k.
      eapply (IH _ k _ _ _ _ (S n)); split; [exact Hh|]. cbn in *. repeat split; first [done|lia|tauto].
    + reads. lrot Hh (FL false g gw u :: k). reads.
      apply (holds_refocus _ _ _ _ _ _ (FL true p v r :: FL false g gw u :: k) (T true s q w l)) in Hh; [|done].
      expose Hh. reads. paint Hh (FL false g gw u :: k). expose Hh. reads. paint Hh k. rrot Hh k.
      eapply (IH _ (FL false p v (T true r g gw u) :: k) s q w l n). split; [refocus Hh|]. cbn. repeat split; first [done|lia|tauto].
  - (** [p] is the right child of the right child of [g] *)
    pose proof (holds_right_neq _ _ _ _ _ _ _ _ _ _ _ _ _ _ Hh) as Hne.
    pose proof (holds_right_neq _ _ _ _ _ _ _ _ _ _ _ _ _ _ (proj1 (holds_fill _ _ _ _ (FR true s q w) _ _) Hh)) as Hne'.
    expose Hh. reads. rewrite Hne'. reads. destruct (isred u) eqn:Hu.
    + destruct u as [|[] ul up_ uv ur]; try done. reads.
      paint Hh (FR false (T true ul up_ uv ur) g gw :: k).
      paint Hh (FL false g gw (T false s q w (T true l p v r)) :: k).
      paint Hh k.
      eapply (IH _ k _ _ _ _ (S n)); split; [exact Hh|]. cbn in *. repeat split; first [done|lia|tauto].
    + reads. rewrite Hne. reads.
      paint Hh (FR false u g gw :: k). expose Hh. reads. paint Hh k. lrot Hh k.
      eapply (IH _ (FR false (T true u g gw s) q w :: k) l p v r n). split; [refocus Hh|]. cbn. repeat split; first [done|lia|tauto].
Qed.

Lemma insert_loop_spec h0 ls un Q fuel : insert_post h0 ls un Q → insert_ok h0 ls un Q fuel.
Proof.
  intros HQ. induction fuel as [|fuel IH]; intros h k l p v r n Hpre; pose proof Hpre as (Hh & Hl & Hr & Hnl & Hnr & Hk & Hf); [lia|].
  destruct k as [|f k].
  { cbn [insert_loop]. expose Hh. reads. by apply (HQ h [] (T true l p v r) n). }
  destruct f as [[] q w s|[] s q w].
  - by eapply insert_left.
  - cbn [insert_loop]. expose Hh; reads. by eapply HQ.
  - by eapply insert_right.
  - cbn [insert_loop]. expose Hh; reads. by eapply HQ.
Qed.

(** * Insertion *)

Definition sorted (ls : list (Z * ptr)) : Prop := StronglySorted Z.le ls.*1.

Lemma sorted_app l1 l2 : sorted (l1 ++ l2) ↔
  sorted l1 ∧ sorted l2 ∧ ∀ a b, a ∈ l1 → b ∈ l2 → a.1 ≤ b.1.
Proof.
  unfold sorted. rewrite fmap_app. rewrite StronglySorted_app. split.
  - intros (H & ? & ?). split; [done|]. split; [done|]. intros a b Ha Hb. apply H; by apply list_elem_of_fmap_2.
  - intros (? & ? & H). split; [|done]. intros x y (a & -> & Ha)%list_elem_of_fmap (b & -> & Hb)%list_elem_of_fmap.
    by apply H.
Qed.
Lemma sorted_cons a l : sorted (a :: l) ↔ sorted l ∧ ∀ b, b ∈ l → a.1 ≤ b.1.
Proof.
  rewrite (sorted_app [a] l). split.
  - intros (_ & ? & H). split; [done|]. intros b. apply H. by left.
  - intros [? H]. split; [repeat constructor|]. split; [done|]. intros x b ->%list_elem_of_singleton. apply H.
Qed.

Lemma timer_insert_split v z l1 l2 :
  (∀ a, a ∈ l1 → a.1 ≤ v) → (∀ a, a ∈ l2 → v < a.1) → timer_insert v z (l1 ++ l2) = l1 ++ (v, z) :: l2.
Proof.
  intros H1 H2. induction l1 as [|[d c] l1 IH]; cbn.
  - destruct l2 as [|[d c] l2]; [done|]. cbn. rewrite (proj2 (Z.ltb_lt v d)); [done|]. apply (H2 (d, c)). by left.
  - rewrite (proj2 (Z.ltb_ge v d)). { rewrite IH; [done|]. intros a Ha. apply H1. by right. }
    apply (H1 (d, c)). by left.
Qed.
Lemma listing_insert_sorted v z ls : sorted ls → sorted (timer_insert v z ls).
Proof.
  induction ls as [|[d c] ls IH]; cbn; [intros _; by repeat constructor|].
  intros Hs. pose proof Hs as [Hs' Hd]%sorted_cons. destruct (Z.ltb_spec v d).
  - rewrite sorted_cons. split; [done|]. intros b [->|Hb]%elem_of_cons; cbn in *; [lia|]. specialize (Hd b Hb). cbn in Hd. lia.
  - rewrite sorted_cons. split; [by apply IH|]. cbn in *.
    intros b Hb. assert (b = (v, z) ∨ b ∈ ls) as [->|Hb']; [|cbn; lia|by apply Hd].
    clear -Hb. induction ls as [|[d' c'] ls IH]; cbn in Hb; [set_solver|].
    destruct (v <? d'); set_solver.
Qed.

(** [descend] goes to the place of the value, after the items with the same one. *)
Lemma descend_spec h0 ls h un zv (Q : ptr → tstore → Prop) fuel k t :
  holds h0 ls h un k t → sorted ls → (hgt t ≤ fuel)%nat →
  (∀ a, a ∈ lk k → a.1 ≤ zv) → (∀ a, a ∈ rk k → zv < a.1) →
  (∀ k', holds h0 ls h un k' E → plug k' E = plug k t →
    (∀ a, a ∈ lk k' → a.1 ≤ zv) → (∀ a, a ∈ rk k' → zv < a.1) → Q (parent rt k') h) →
  twp (descend nl fuel zv (parent rt k) (root nl t)) Q h.
Proof.
  intros Hh Hs. revert fuel k Hh. induction t as [|c l IHl p v r IHr]; intros fuel k Hh Hf Hlk Hrk HQ.
  - assert (E : descend nl fuel zv (parent rt k) nl = mret (parent rt k)) by (destruct fuel; cbn; by rewrite Z.eqb_refl).
    cbn [root]. rewrite E. by apply HQ.
  - cbn [hgt] in Hf. destruct fuel as [|fuel]; [lia|]. cbn [descend root].
    rewrite (proj2 (Z.eqb_neq p nl)) by (by destruct (zrep_distinct _ _ _ _ _ _ _ _ _ _ (proj1 Hh))).
    pose proof Hh as (_ & Hw & _). unfold whole in Hw. cbn [ino] in Hw. rewrite <- Hw in Hs.
    rewrite !sorted_app, sorted_cons in Hs. destruct Hs as (_ & ((_ & (_ & Hvr) & Hlv) & _ & _) & _).
    expose Hh. reads. destruct (Z.ltb_spec zv v); reads.
    + apply (IHl fuel (FL c p v r :: k)); try done; [by apply holds_fill|lia|].
      cbn [rk]. intros a [->|[Ha|Ha]%elem_of_app]%elem_of_cons; [done| |by apply Hrk].
      specialize (Hvr a Ha). cbn in Hvr. lia.
    + apply (IHr fuel (FR c l p v :: k)); try done; [by apply holds_fill|lia|].
      cbn [lk]. intros a [Ha|[Ha| ->%list_elem_of_singleton]%elem_of_app]%elem_of_app; [by apply Hlk| |done].
      specialize (Hlv a (v, p) Ha ltac:(by left)). cbn in Hlv. lia.
Qed.

(** ** The tree of a list *)

(** The store holds a red-black tree of the items [ls], which are in order. *)
Definition tree_of (h : tstore) (ls : list (Z * ptr)) : Prop :=
  ∃ un t, holds h ls h un [] t ∧ good [] t ∧ sorted ls.

Lemma tree_of_intro h0 h ls un k t : holds h0 ls h un k t → good k t → sorted ls → tree_of h ls.
Proof.
  intros (Hz & Hw & _) Hg Hs. exists un, (plug k t).
  split; [|split; [exact (proj1 (good_plug _ _) Hg)|done]].
  split; [exact (proj1 (zrep_plug _ _ _ _ _ _) Hz)|]. split; [|done].
  rewrite (whole_plug []). change (ino (plug k t) = ls). by rewrite <- whole_plug.
Qed.
Lemma holds_tree ls h0 h un t : holds h0 ls h un [] t → ino t = ls.
Proof. intros (_ & Hw & _). by rewrite whole_plug in Hw. Qed.

Lemma zrep_insert h un k t q i :
  zrep rt nl h un k t → q ∉ nl :: rt :: (whole k t).*2 → zrep rt nl (<[q := i]> h) un k t.
Proof.
  intros [Hn Hk Ht Hd] Hq. rewrite whole_perm in Hq.
  repeat rewrite ?not_elem_of_cons, ?not_elem_of_app in Hq. decompose [and] Hq. split; [|..|done].
  - by rewrite lookup_insert_ne.
  - apply repk_insert; [|done]. apply not_elem_of_cons; by split.
  - by apply rep_insert.
Qed.

Lemma rb_plug n k t : rb n t → rbk n k → (isred t = true → kred k = false) → ∃ m, rb m (plug k t).
Proof.
  intros Ht Hk Hr. destruct k as [|f k]; [by exists n|].
  assert (Hg : good (f :: k) t).
  { exists n. split; [done|]. split; [done|]. intros H. specialize (Hr H). destruct f as [[]|[]]; done. }
  apply good_plug, good_nil in Hg. apply Hg.
Qed.

Lemma timer_insert_perm v z ls : timer_insert v z ls ≡ₚ (v, z) :: ls.
Proof.
  induction ls as [|[d c] ls IH]; cbn; [done|]. destruct (v <? d); [done|]. rewrite IH. apply perm_swap.
Qed.

(** The item goes in as a leaf, after the items with the same value. *)
Lemma insert_help_spec h ls v z i fuel un t (Q : unit → tstore → Prop) :
  holds h ls h un [] t → good [] t → sorted ls → z ∉ nl :: rt :: ls.*2 → h !! z = Some i → (hgt t ≤ fuel)%nat →
  (∀ h' k, holds h (timer_insert v z ls) h' un k (T (it_red i) E z v E) → good k E → (length k ≤ hgt t)%nat → Q tt h') →
  twp (set_val z v;; dill_rbtree_insert_help rt nl fuel z) Q h.
Proof.
  intros Hh Hg Hs Hz Hi Hf HQ. unfold dill_rbtree_insert_help.
  (** the item is blank; [h1] is the store in which the descent starts *)
  repeat apply twp_bind. eapply twp_upd; [exact Hi|].
  apply twp_bind. eapply twp_upd; [apply lookup_insert_eq|]. rewrite insert_insert_eq.
  apply twp_bind. eapply twp_upd; [apply lookup_insert_eq|]. rewrite insert_insert_eq.
  set (i1 := mk_item (it_up i) nl nl (it_red i) v). change (with_left nl _) with i1. set (h1 := <[z := i1]> h).
  assert (Hh1 : holds h1 ls h1 un [] t).
  { destruct Hh as (Hzr & Hw & _). split; [|by split]. apply zrep_insert; [done|by rewrite Hw]. }
  assert (Hz1 : h1 !! z = Some i1) by apply lookup_insert_eq.
  apply twp_bind. eapply twp_get; [exact Hz1|]. cbn [it_val].
  expose Hh1. reads.
  eapply (descend_spec h1 ls h1 un v _ fuel [] t); [exact Hh1|exact Hs|lia|cbn; set_solver|cbn; set_solver|].
  intros k Hk Hpl Hlk Hrk. pose proof Hk as (Hkz & Hkw & _).
  assert (Hgo : goes k v).
  { destruct k as [|[c q w r|c l q w] k]; cbn [goes]; [done|apply (Hrk (w, q))|apply (Hlk (w, q))]; cbn; set_solver. }
  eapply (twp_attach rt nl k z (it_up i) (it_red i) v); [exact Hkz|by rewrite Hkw|exact Hz1|exact Hgo|].
  intros h2 Hf2 Hz2. rewrite Hkw in Hf2. apply (HQ h2 k).
  - split; [exact Hz2|]. split.
    + rewrite <- Hkw. unfold whole. cbn [ino app]. symmetry. by apply timer_insert_split.
    + intros q Hq. rewrite timer_insert_perm in Hq. cbn in Hq. rewrite Hf2 by set_solver.
      apply lookup_insert_ne. set_solver.
  - apply good_plug. by rewrite Hpl.
  - pose proof (hgt_plug k E) as Hhk. rewrite Hpl in Hhk. cbn in Hhk. lia.
Qed.

Lemma dill_rbtree_insert_spec h ls v z i fuel :
  tree_of h ls → z ∉ nl :: rt :: ls.*2 → h !! z = Some i → (2 * Nat.log2 (S (length ls)) < fuel)%nat →
  twp (dill_rbtree_insert rt nl fuel v z) (λ _ h', tree_of h' (timer_insert v z ls) ∧
    ∀ q, q ∉ nl :: rt :: z :: ls.*2 → h' !! q = h !! q) h.
Proof.
  intros (un & t & Hh & Hg & Hs) Hz Hi Hf.
  pose proof (good_height _ Hg) as Hb. rewrite (holds_tree _ _ _ _ _ Hh) in Hb.
  assert (Hbind : ∀ (m n : TM unit) (o : TM unit) Q, twp ((m;; n);; o) Q h → twp (m;; n;; o) Q h).
  { intros m n o Q. unfold twp, mbind, TM_bind. by destruct (m h) as [[]|]. }
  apply Hbind, twp_bind, (insert_help_spec h ls v z i fuel un t); try done; [lia|].
  intros h2 k Hh2 (n & -> & Hk & _) Hlen. paint Hh2 k. apply twp_bind.
  refine (insert_loop_spec h (timer_insert v z ls) un _ _ _ _ k E z v E 0%nat _).
  2: { split; [exact Hh2|]. repeat split; [exact Hk|lia]. }
  intros h' k' t' n' Hh' Hn' Hk' Hr'. destruct (rb_plug _ _ _ Hn' Hk' Hr') as [m Hm].
  apply holds_plug in Hh'. pose proof (holds_tree _ _ _ _ _ Hh') as Hino.
  destruct (plug k' t') as [|c l p w r].
  { symmetry in Hino. apply (f_equal length) in Hino. rewrite timer_insert_perm in Hino. done. }
  expose Hh'. reads. paint Hh' (@nil frame). split.
  - eapply tree_of_intro; [exact Hh'| |by apply listing_insert_sorted].
    apply good_nil. split; [done|]. destruct c; [exists (S m)|exists m]; cbn in *; tauto.
  - intros q Hq. apply Hh'. rewrite timer_insert_perm. cbn. set_solver.
Qed.

(** * The order of the items *)

Lemma leftmost_spec h0 ls h un (Q : ptr → tstore → Prop) fuel k c l p v r :
  holds h0 ls h un k (T c l p v r) → (hgt (T c l p v r) ≤ fuel)%nat →
  (∀ k' c' p' v' r', holds h0 ls h un k' (T c' E p' v' r') → plug k' (T c' E p' v' r') = plug k (T c l p v r) →
    lk k' = lk k → Q p' h) →
  twp (leftmost nl fuel p) Q h.
Proof.
  revert fuel k c p v r. induction l as [|cl ll IHl pl vl rl _]; intros fuel k c p v r Hh Hf HQ;
    cbn [hgt] in Hf; (destruct fuel as [|fuel]; [lia|]); cbn [leftmost]; expose Hh; reads.
  - by eapply HQ.
  - pose proof (proj2 (holds_fill _ _ _ _ (FL c p v r) _ _) Hh) as Hl.
    rewrite (proj2 (Z.eqb_neq pl nl)) by (by destruct (zrep_distinct _ _ _ _ _ _ _ _ _ _ (proj1 Hl))).
    eapply (IHl fuel _ cl pl vl rl Hl); [cbn [hgt]; lia|].
    intros k' c' p' v' r' H' Hpl Hlk. by eapply HQ.
Qed.

Definition first_of (d : ptr) (ls : list (Z * ptr)) : ptr := match ls with [] => d | (_, p) :: _ => p end.

Lemma climb_spec h0 ls h un (Q : ptr → tstore → Prop) fuel k c l p v r :
  holds h0 ls h un k (T c l p v r) → (length k < fuel)%nat →
  Q (first_of rt (rk k)) h → twp (climb fuel p (parent rt k)) Q h.
Proof.
  revert fuel c l p v r. induction k as [|f k IH]; intros fuel c l p v r Hh Hf HQ;
    (destruct fuel as [|fuel]; [lia|]); cbn [climb length] in *.
  - expose Hh. reads.
    by rewrite (proj2 (Z.eqb_neq p nl)) by (by destruct (zrep_distinct _ _ _ _ _ _ _ _ _ _ (proj1 Hh))).
  - destruct f as [c' q w s|c' s q w].
    + pose proof (holds_left_neq _ _ _ _ _ _ _ _ _ _ _ _ _ _ Hh) as Hne.
      expose Hh. reads. by rewrite Hne.
    + expose Hh. reads. eapply (IH fuel c' s q w (T c l p v r)); [by apply holds_fill in Hh|lia|done].
Qed.

(** With a right child: the leftmost item below it. *)
Lemma next_help_right h0 ls h un (Q : ptr → tstore → Prop) fuel k c l p v cr lr pr vr rr :
  holds h0 ls h un k (T c l p v (T cr lr pr vr rr)) → (hgt (T cr lr pr vr rr) ≤ fuel)%nat →
  (∀ k' c' p' v' r', holds h0 ls h un k' (T c' E p' v' r') →
    plug k' (T c' E p' v' r') = plug k (T c l p v (T cr lr pr vr rr)) →
    lk k' = lk k ++ ino l ++ [(v, p)] → Q p' h) →
  twp (dill_rbtree_next_help rt nl fuel p) Q h.
Proof.
  intros Hh Hf HQ. unfold dill_rbtree_next_help. expose Hh. reads.
  pose proof (proj2 (holds_fill _ _ _ _ (FR c l p v) _ _) Hh) as Hr.
  rewrite (proj2 (Z.eqb_neq nl pr)) by (apply not_eq_sym; by destruct (zrep_distinct _ _ _ _ _ _ _ _ _ _ (proj1 Hr))).
  cbn [negb]. eapply leftmost_spec; [exact Hr|done|].
  intros k' c' p' v' r' Hh' Hpl Hlk. by eapply HQ.
Qed.

(** The item after the one at the focus, or the leaf. *)
Lemma dill_rbtree_next_help_spec h0 ls h un (Q : ptr → tstore → Prop) fuel k c l p v r :
  holds h0 ls h un k (T c l p v r) → (hgt (plug k (T c l p v r)) ≤ fuel)%nat →
  Q (first_of nl (ino r ++ rk k)) h →
  twp (dill_rbtree_next_help rt nl fuel p) Q h.
Proof.
  intros Hh Hf HQ. pose proof (hgt_plug k (T c l p v r)) as Hhp. cbn [hgt] in Hhp.
  destruct r as [|cr lr pr vr rr].
  - unfold dill_rbtree_next_help. expose Hh. reads. reads. eapply climb_spec; [exact Hh|lia|].
    cbn [ino app] in HQ.
    destruct (rk k) as [|[w q] rs] eqn:Erk; cbn [first_of] in *; [by rewrite Z.eqb_refl|].
    rewrite (proj2 (Z.eqb_neq q rt)); [done|]. intros ->.
    pose proof (zr_dup _ _ _ _ _ _ (proj1 Hh)) as Hd. rewrite !NoDup_cons, whole_perm in Hd.
    apply (proj1 (proj2 Hd)). rewrite elem_of_app. right. unfold kptrs. rewrite Erk. by left.
  - eapply next_help_right; [exact Hh|cbn [hgt] in *; lia|].
    intros k' c' p' v' r' Hh' Hpl Hlk.
    assert (Hw : whole k' (T c' E p' v' r') = whole k (T c l p v (T cr lr pr vr rr))) by (by rewrite !whole_plug, Hpl).
    revert Hw HQ. generalize (T cr lr pr vr rr). intros R Hw HQ.
    unfold whole in Hw. rewrite Hlk in Hw. cbn [ino app] in Hw. rewrite <- !app_assoc in Hw. cbn [app] in Hw.
    do 2 apply app_inv_head in Hw. injection Hw as Hw. by rewrite <- Hw in HQ.
Qed.

(** * Rebalancing after an erasure *)

Lemma twp_bind_inv {A B} (m : TM A) (f : A → TM B) Q h : twp (m ≫= f) Q h → twp m (λ a, twp (f a) Q) h.
Proof. unfold twp, mbind, TM_bind. by destruct (m h) as [[a h']|]. Qed.

(** [root] is a black item on the path to the focus. *)
Definition black_above (root : ptr) (k : list frame) : Prop :=
  ∃ (w : Z) (t : tree), FL false root w t ∈ k ∨ FR false t root w ∈ k.
(** The topmost item, when the focus is at [o]. *)
Fixpoint top (o : ptr) (k : list frame) : ptr := match k with [] => o | f :: k => top (fptr f) k end.
Lemma root_plug k t : root nl (plug k t) = top (root nl t) k.
Proof.
  revert t. induction k as [|f k IH]; intros t; [done|].
  change (root nl (plug k (fill f t)) = top (fptr f) k). rewrite IH. by destruct f.
Qed.
Lemma top_black n k o : rbk n k → k ≠ [] → black_above (top o k) k.
Proof.
  revert n o. induction k as [|f k IH]; intros n o Hk Hne; [done|]. destruct k as [|g k].
  - destruct f as [[] p v r|[] l p v]; cbn in Hk |- *; try (by destruct Hk as (_ & _ & ? & _)); [exists v, r|exists v, l]; set_solver.
  - destruct (IH (if kred [f] then n else S n) (fptr f)) as (w & t & Ht); [|done|exists w, t; cbn; set_solver].
    destruct f as [[] p v r|[] l p v]; cbn in Hk |- *; tauto.
Qed.

Definition fix_post (h0 : tstore) ls (Q : ptr → tstore → Prop) : Prop :=
  (∀ h un k c l p v r, holds h0 ls h un k (T c l p v r) → good k (T false l p v r) → Q p h) ∧
  (∀ h un k t x i, holds h0 ls h un k t → good k t → h !! x = Some i → it_red i = false → Q x h).

(** The focus lacks a black level, or is red and only has to be painted black. *)
Definition fix_pre (h0 : tstore) ls (root : ptr) h (un : ptr) k (t : tree) (n fuel : nat) : Prop :=
  holds h0 ls h un k t ∧ (t = E → un = parent rt k) ∧ rbk (S n) k ∧
  match t with
  | T true l _ _ r => rb n l ∧ rb n r ∧ (0 < fuel)%nat
  | _ => rb n t ∧ root = top (Rbheap.root nl t) k ∧ (S (length k) < fuel)%nat
  end.

Lemma holds_above h0 ls h un k t root :
  holds h0 ls h un k t → black_above root k → ∃ i, h !! root = Some i ∧ it_red i = false.
Proof.
  intros Hh (w & s & Hf). revert t Hh.
  induction k as [|f' k IH]; [destruct Hf as [Hf|Hf]; by apply not_elem_of_nil in Hf|]. intros t Hh.
  rewrite !elem_of_cons in Hf. apply holds_fill in Hh.
  destruct Hf as [[<-|Hf]|[<-|Hf]]; try (by eapply IH; eauto); expose Hh; eauto.
Qed.

Lemma twp_up_root h0 ls h un k t (Q : ptr → tstore → Prop) :
  holds h0 ls h un k t → (t = E → un = parent rt k) → Q (parent rt k) h → twp (get it_up (root nl t)) Q h.
Proof.
  intros Hh Hu HQ. expose Hh. destruct t as [|c l p v r]; cbn [root].
  - eapply twp_get; [eassumption|]. cbn [it_up]. by rewrite Hu.
  - destruct HF as (Hp & _). eapply twp_get; [exact Hp|done].
Qed.

(** The last rounds: the sibling is black. *)
Section Round.
Context (h0 : tstore) (ls : list (Z * ptr)) (Q : ptr → tstore → Prop) (root : ptr) (fuel : nat) (loop : ptr → TM ptr).
Context (Hloop : ∀ h un k t n, fix_pre h0 ls root h un k t n fuel → twp (loop (Rbheap.root nl t)) Q h).
Context (Hroot : ∀ h i, h !! root = Some i → Q root h → twp (loop root) Q h).
Context (HQ : fix_post h0 ls Q).

Definition tail_pre (un : ptr) (k : list frame) (c : bool) (q : ptr) (t : tree) (n : nat) : Prop :=
  (t = E → un = q) ∧ isred t = false ∧ rb n t ∧
  (if c then kblack k = true ∧ rbk (S n) k ∧ (0 < fuel)%nat else rbk (S (S n)) k ∧ (S (length k) < fuel)%nat) ∧
  (root = q ∨ black_above root k) ∧ (c = false → root = top q k).

Lemma tail_up h un k c q t n f : tail_pre un k c q t n → fptr f = q → holds h0 ls h un (f :: k) t →
  ∀ Q : ptr → tstore → Prop, Q q h → twp (get it_up (Rbheap.root nl t)) Q h.
Proof. intros (Hu & _) <- Hh Q' HQ'. by eapply twp_up_root. Qed.

Lemma fix_left_far h un k c q w t a sp sv bl bp bv br n :
  holds h0 ls h un (FL c q w (T false a sp sv (T true bl bp bv br)) :: k) t → tail_pre un k c q t n →
  rb n a → rb n bl → rb n br →
  twp (p ← up (Rbheap.root nl t); cp ← red p; set_red sp cp;; set_red p false;; f ← right sp; set_red f false;;
       dill_rbtree_lrotate nl p;; loop root) Q h.
Proof.
  intros Hh Hpre Ha Hbl Hbr. pose proof Hpre as (Hu & Ht & Hnt & Hk & Hr & _).
  apply twp_bind. eapply (tail_up _ _ _ _ _ _ _ (FL c q w _)); [exact Hpre|done|exact Hh|]. expose Hh. reads.
  paint Hh (FR c t q w :: k). paint Hh k. expose Hh. reads.
  paint Hh (FR c a sp sv :: FR false t q w :: k). lrot Hh k.
  assert (Hgood : good k (T c (T false t q w a) sp sv (T false bl bp bv br))).
  { destruct c; [exists (S n)|exists (S (S n))]; cbn in *; naive_solver. }
  assert (∃ i, h4 !! root = Some i ∧ it_red i = false) as (i & Hi & Hred).
  { destruct Hr as [->|Hr]; [|by eapply holds_above].
    apply (holds_refocus _ _ _ _ _ _ (FL c sp sv (T false bl bp bv br) :: k) (T false t q w a)) in Hh; [|done].
    expose Hh. eauto. }
  eapply Hroot; [exact Hi|]. by eapply (proj2 HQ).
Qed.

Lemma fix_left_tail_spec h un k c q w t a sp sv b n :
  holds h0 ls h un (FL c q w (T false a sp sv b) :: k) t → tail_pre un k c q t n → rb n a → rb n b →
  twp (fix_left_tail nl loop root (Rbheap.root nl t) sp) Q h.
Proof.
  intros Hh Hpre Ha Hb. pose proof Hpre as (Hu & Ht & Hnt & Hk & Hr & Hr'). unfold fix_left_tail.
  expose Hh. reads. destruct (negb (isred b) && negb (isred a)) eqn:Hab.
  - apply andb_true_iff in Hab as [Hb'%negb_true_iff Ha'%negb_true_iff].
    paint Hh (FR c t q w :: k). apply twp_bind.
    eapply (tail_up _ _ _ _ _ _ _ (FL c q w _)); [exact Hpre|done|refocus Hh|].
    apply (Hloop _ un k (T c t q w (T true a sp sv b)) (if c then n else S n)).
    split; [refocus Hh|]. split; [done|]. destruct c.
    + destruct Hk as (_ & Hk & Hf). split; [done|]. split; [done|]. split; [cbn; tauto|done].
    + destruct Hk as (Hk & Hf). split; [done|]. split; [cbn; tauto|]. split; [by apply Hr'|done].
  - destruct (isred b) eqn:Hbr; cbn [negb andb] in Hab |- *.
    + destruct b as [|[] bl bp bv br]; try done. destruct Hb as (_ & _ & Hbl & Hbr').
      reads. apply twp_bind_inv. by eapply fix_left_far.
    + (** the near nephew is red: it becomes the sibling *)
      destruct a as [|[] al ap av ar]; try done. destruct Ha as (Hl & Hr0 & Hal & Har). reads.
      paint Hh (FL false sp sv b :: FR c t q w :: k). paint Hh (FR c t q w :: k). rrot Hh (FR c t q w :: k).
      apply (holds_refocus _ _ _ _ _ _ (FL c q w (T false al ap av (T true ar sp sv b)) :: k) t) in Hh; [|done].
      apply twp_bind. eapply (tail_up _ _ _ _ _ _ _ (FL c q w _)); [exact Hpre|done|exact Hh|].
      expose Hh. reads. apply twp_bind_inv. by eapply fix_left_far.
Qed.

Lemma root_above n q k : rbk n k → root = top q k → root = q ∨ black_above root k.
Proof. intros Hk ->. destruct k as [|f k]; [by left|]. right. eapply top_black; [exact Hk|done]. Qed.

Lemma fix_left_spec h un k c q w s t n :
  holds h0 ls h un (FL c q w s :: k) t → (t = E → un = q) → isred t = false → rb n t →
  rbk (S n) (FL c q w s :: k) → root = top q k → (S (length k) < fuel)%nat →
  twp (fix_left nl loop root (Rbheap.root nl t)) Q h.
Proof.
  intros Hh Hu Ht Hnt Hk Hr Hf. unfold fix_left.
  destruct s as [|[] a sp sv b]; [destruct c; cbn in Hk; [by destruct Hk as (_ & ? & _)|by destruct Hk]| |].
  - (** a red sibling: it goes up, and the parent becomes red *)
    destruct c; [by destruct Hk as [? _]|]. destruct Hk as ((Ha & Hb & Hna & Hnb) & Hk).
    destruct a as [|[] al ap av ar]; [done|done|]. destruct Hna as [Hal Har].
    assert (Hpre : tail_pre un (FL false sp sv b :: k) true q t n).
    { split; [done|]. split; [done|]. split; [done|]. split; [|split; [|done]].
      - split; [done|]. split; [by split|lia].
      - destruct (root_above _ _ _ Hk Hr) as [?|(w' & s' & ?)]; [by left|right]. exists w', s'. set_solver. }
    apply twp_bind. eapply twp_up_root; [exact Hh|done|]. cbn [parent fptr]. expose Hh. reads.
    paint Hh (FR false t q w :: k). paint Hh k. lrot Hh k.
    apply (holds_refocus _ _ _ _ _ _ (FL true q w (T false al ap av ar) :: FL false sp sv b :: k) t) in Hh; [|done].
    apply twp_bind. eapply (tail_up _ _ _ _ _ _ _ (FL true q w _)); [exact Hpre|done|exact Hh|].
    expose Hh. reads. by eapply fix_left_tail_spec.
  - assert (rb n a ∧ rb n b) as [Ha Hb] by (destruct c; cbn in Hk; tauto).
    assert (Hpre : tail_pre un k c q t n).
    { split; [done|]. split; [done|]. split; [done|]. split; [|split; [|done]].
      - destruct c; cbn in Hk; repeat split; first [tauto|lia].
      - destruct c; cbn in Hk; [apply (root_above (S n))|apply (root_above (S (S n)))]; tauto. }
    apply twp_bind. eapply twp_up_root; [exact Hh|done|]. cbn [parent fptr]. expose Hh. reads.
    by eapply fix_left_tail_spec.
Qed.

Lemma fix_right_far h un k c q w t a sp sv bl bp bv br n :
  holds h0 ls h un (FR c (T false (T true bl bp bv br) sp sv a) q w :: k) t → tail_pre un k c q t n →
  rb n a → rb n bl → rb n br →
  twp (p ← up (Rbheap.root nl t); cp ← red p; set_red sp cp;; set_red p false;; f ← left sp; set_red f false;;
       dill_rbtree_rrotate nl p;; loop root) Q h.
Proof.
  intros Hh Hpre Ha Hbl Hbr. pose proof Hpre as (Hu & Ht & Hnt & Hk & Hr & _).
  apply twp_bind. eapply (tail_up _ _ _ _ _ _ _ (FR c _ q w)); [exact Hpre|done|exact Hh|]. expose Hh. reads.
  paint Hh (FL c q w t :: k). paint Hh k. expose Hh. reads.
  paint Hh (FL c sp sv a :: FL false q w t :: k). rrot Hh k.
  assert (Hgood : good k (T c (T false bl bp bv br) sp sv (T false a q w t))).
  { destruct c; [exists (S n)|exists (S (S n))]; cbn in *; naive_solver. }
  assert (∃ i, h4 !! root = Some i ∧ it_red i = false) as (i & Hi & Hred).
  { destruct Hr as [->|Hr]; [|by eapply holds_above].
    apply (holds_refocus _ _ _ _ _ _ (FR c (T false bl bp bv br) sp sv :: k) (T false a q w t)) in Hh; [|done].
    expose Hh. eauto. }
  eapply Hroot; [exact Hi|]. by eapply (proj2 HQ).
Qed.

Lemma fix_right_tail_spec h un k c q w t a sp sv b n :
  holds h0 ls h un (FR c (T false b sp sv a) q w :: k) t → tail_pre un k c q t n → rb n a → rb n b →
  twp (fix_right_tail nl loop root (Rbheap.root nl t) sp) Q h.
Proof.
  intros Hh Hpre Ha Hb. pose proof Hpre as (Hu & Ht & Hnt & Hk & Hr & Hr'). unfold fix_right_tail.
  expose Hh. reads. destruct (negb (isred a) && negb (isred b)) eqn:Hab.
  - apply andb_true_iff in Hab as [Ha'%negb_true_iff Hb'%negb_true_iff].
    paint Hh (FL c q w t :: k). apply twp_bind.
    eapply (tail_up _ _ _ _ _ _ _ (FR c _ q w)); [exact Hpre|done|refocus Hh|].
    apply (Hloop _ un k (T c (T true b sp sv a) q w t) (if c then n else S n)).
    split; [refocus Hh|]. split; [done|]. destruct c.
    + destruct Hk as (_ & Hk & Hf). split; [done|]. split; [cbn; tauto|]. split; [done|done].
    + destruct Hk as (Hk & Hf). split; [done|]. split; [cbn; tauto|]. split; [by apply Hr'|done].
  - destruct (isred b) eqn:Hbr; cbn [negb andb] in Hab |- *.
    + destruct b as [|[] bl bp bv br]; try done. destruct Hb as (_ & _ & Hbl & Hbr').
      reads. apply twp_bind_inv. by eapply fix_right_far.
    + (** the near nephew is red: it becomes the sibling *)
      destruct a as [|[] al ap av ar]; try done. destruct Ha as (Hl & Hr0 & Hal & Har). reads.
      paint Hh (FR false b sp sv :: FL c q w t :: k). paint Hh (FL c q w t :: k). lrot Hh (FL c q w t :: k).
      apply (holds_refocus _ _ _ _ _ _ (FR c (T false (T true b sp sv al) ap av ar) q w :: k) t) in Hh; [|done].
      apply twp_bind. eapply (tail_up _ _ _ _ _ _ _ (FR c _ q w)); [exact Hpre|done|exact Hh|].
      expose Hh. reads. apply twp_bind_inv. by eapply fix_right_far.
Qed.

Lemma fix_right_spec h un k c q w s t n :
  holds h0 ls h un (FR c s q w :: k) t → (t = E → un = q) → isred t = false → rb n t →
  rbk (S n) (FR c s q w :: k) → root = top q k → (S (length k) < fuel)%nat →
  twp (fix_right nl loop root (Rbheap.root nl t)) Q h.
Proof.
  intros Hh Hu Ht Hnt Hk Hr Hf. unfold fix_right.
  destruct s as [|[] b sp sv a]; [destruct c; cbn in Hk; [by destruct Hk as (_ & ? & _)|by destruct Hk]| |].
  - (** a red sibling: it goes up, and the parent becomes red *)
    destruct c; [by destruct Hk as [? _]|]. destruct Hk as ((Hb & Ha & Hnb & Hna) & Hk).
    destruct a as [|[] al ap av ar]; [done|done|]. destruct Hna as [Hal Har].
    assert (Hpre : tail_pre un (FR false b sp sv :: k) true q t n).
    { split; [done|]. split; [done|]. split; [done|]. split; [|split; [|done]].
      - split; [done|]. split; [by split|lia].
      - destruct (root_above _ _ _ Hk Hr) as [?|(w' & s' & ?)]; [by left|right]. exists w', s'. set_solver. }
    apply twp_bind. eapply twp_up_root; [exact Hh|done|]. cbn [parent fptr]. expose Hh. reads.
    paint Hh (FL false q w t :: k). paint Hh k. rrot Hh k.
    apply (holds_refocus _ _ _ _ _ _ (FR true (T false al ap av ar) q w :: FR false b sp sv :: k) t) in Hh; [|done].
    apply twp_bind. eapply (tail_up _ _ _ _ _ _ _ (FR true _ q w)); [exact Hpre|done|exact Hh|].
    expose Hh. reads. by eapply fix_right_tail_spec.
  - assert (rb n a ∧ rb n b) as [Ha Hb] by (destruct c; cbn in Hk; tauto).
    assert (Hpre : tail_pre un k c q t n).
    { split; [done|]. split; [done|]. split; [done|]. split; [|split; [|done]].
      - destruct c; cbn in Hk; repeat split; first [tauto|lia].
      - destruct c; cbn in Hk; [apply (root_above (S n))|apply (root_above (S (S n)))]; tauto. }
    apply twp_bind. eapply twp_up_root; [exact Hh|done|]. cbn [parent fptr]. expose Hh. reads.
    by eapply fix_right_tail_spec.
Qed.
End Round.

Lemma focus_not_top h0 ls h un f k t : holds h0 ls h un (f :: k) t → top (root nl t) (f :: k) ≠ root nl t.
Proof.
  intros [Hz _]. pose proof (zrep_nodup _ _ _ _ _ _ Hz) as Hd.
  assert (Htop : ∀ o, top o (f :: k) ∈ kptrs (f :: k)).
  { clear. revert f. induction k as [|g k IH]; intros f o; rewrite elem_kptrs; [by left|]. right. right. apply (IH g (fptr f)). }
  specialize (Htop (root nl t)). intros E. rewrite E in Htop.
  rewrite !NoDup_cons, NoDup_app in Hd. destruct Hd as (Hn & _ & _ & Hd & _).
  destruct t as [|c l p v r]; cbn [root] in Htop; [apply Hn; set_solver|].
  apply (Hd p); [|done]. rewrite ptrs_T. set_solver.
Qed.

(** The loop ends, within as many rounds as there are items above the focus. *)
Lemma fixup_loop_spec h0 ls Q root : fix_post h0 ls Q →
  ∀ fuel h un k t n, fix_pre h0 ls root h un k t n fuel → twp (fixup_loop nl fuel root (Rbheap.root nl t)) Q h.
Proof.
  intros HQ. induction fuel as [|fuel IH]; intros h un k t n (Hh & Hu & Hk & Ht).
  { exfalso. destruct t as [|[] l p v r]; destruct Ht as (_ & _ & ?); lia. }
  destruct (isred t) eqn:Hred.
  - destruct t as [|[] l p v r]; try done. destruct Ht as (Hl & Hr & _). cbn [fixup_loop Rbheap.root].
    expose Hh. reads. eapply (proj1 HQ); [exact Hh|]. by exists (S n).
  - assert (rb n t ∧ root = top (Rbheap.root nl t) k ∧ (S (length k) < S fuel)%nat) as (Hnt & Hr & Hf).
    { by destruct t as [|[] l p v r]. }
    clear Ht. cbn [fixup_loop]. destruct k as [|f k].
    + cbn [top] in Hr. subst root. destruct (zrep_color _ _ _ _ _ _ (proj1 Hh)) as (u & l & r & v & Hi).
      unfold red. apply twp_bind. eapply twp_get; [exact Hi|]. cbn [it_red]. rewrite Hred, Z.eqb_refl. cbn [orb].
      eapply (proj2 HQ); [exact Hh|by apply good_nil; eauto|exact Hi|done].
    + pose proof (focus_not_top _ _ _ _ _ _ _ Hh) as Hne. rewrite <- Hr in Hne. cbn [top] in Hr.
      destruct (zrep_color _ _ _ _ _ _ (proj1 Hh)) as (u & l & r & v & Hi).
      unfold red, up, left. apply twp_bind. eapply twp_get; [exact Hi|]. cbn [it_red].
      rewrite Hred, (proj2 (Z.eqb_neq _ _) Hne). cbn [orb]. apply twp_bind.
      eapply twp_up_root; [exact Hh|done|]. apply twp_bind.
      assert (Hroot : ∀ h i, h !! root = Some i → Q root h → twp (fixup_loop nl fuel root root) Q h).
      { intros h' i' Hi' HQ'. destruct fuel as [|fuel']; [cbn [length] in Hf; lia|]. cbn [fixup_loop].
        unfold red. apply twp_bind. eapply twp_get; [exact Hi'|]. by rewrite Z.eqb_refl, orb_true_r. }
      cbn [length] in Hf.
      destruct f as [c q w s|c s q w]; cbn [parent fptr] in *; expose Hh; reads.
      * eapply (fix_left_spec h0 ls Q root fuel); try done; lia.
      * rewrite (proj2 (Z.eqb_neq _ (Rbheap.root nl s))).
        -- eapply (fix_right_spec h0 ls Q root fuel); try done; lia.
        -- intros Heq. destruct (zrep_not_sibling _ _ _ _ _ _ _ _ _ _ (proj1 (zrep_up _ _ _ _ (FR c s q w) _ _) (proj1 Hh)) (eq_sym Heq)) as [-> _].
           by destruct c; cbn in Hk; [destruct Hk as (_ & ? & _)|destruct Hk as [? _]].
Qed.

Lemma dill_rbtree_fixup_spec h0 ls h un k t n fuel :
  holds h0 ls h un k t → (t = E → un = parent rt k) → rbk (S n) k →
  match t with T true l _ _ r => rb n l ∧ rb n r | _ => rb n t end → (S (length k) < fuel)%nat →
  twp (dill_rbtree_fixup rt nl fuel (root nl t))
    (λ _ h', ∃ un' t', holds h0 ls h' un' [] t' ∧ good [] t') h.
Proof.
  intros Hh Hu Hk Ht Hf. unfold dill_rbtree_fixup.
  pose proof (proj1 (holds_plug _ _ _ _ _ _) Hh) as Hp. expose Hp. reads. rewrite root_plug.
  eapply (fixup_loop_spec h0 ls _ (top (root nl t) k)); [|split; [exact Hh|split; [done|split; [exact Hk|]]]].
  2: { destruct t as [|[] l p v r]; (split; [apply Ht|]); (split; [try done; apply Ht|]); try done; lia. }
  clear. split.
  - intros h un k c l p v r Hh Hg. paint Hh k. exists un, (plug k (T false l p v r)).
    split; [exact (proj1 (holds_plug _ _ _ _ _ _) Hh)|exact (proj1 (good_plug _ _) Hg)].
  - intros h un k t x i Hh Hg Hi Hb. unfold set_red. eapply twp_upd; [exact Hi|].
    assert (with_red false i = i) as -> by (destruct i; cbn in *; by subst).
    rewrite insert_id by done. exists un, (plug k t). split; [exact (proj1 (holds_plug _ _ _ _ _ _) Hh)|exact (proj1 (good_plug _ _) Hg)].
Qed.

Lemma locate t z : z ∈ ptrs t → ∃ k c l v r, plug k (T c l z v r) = t.
Proof.
  enough (H : ∀ k, z ∈ ptrs t → ∃ k' c l v r, plug k' (T c l z v r) = plug k t) by exact (H []).
  induction t as [|c l IHl p v r IHr]; intros k; [by intros ?%not_elem_of_nil|].
  rewrite elem_ptrs_T. intros [->|[Hl|Hr]].
  - by exists k, c, l, v, r.
  - exact (IHl (FL c p v r :: k) Hl).
  - exact (IHr (FR c l p v :: k) Hr).
Qed.

Lemma split_unique (A A' B B' : list (Z * ptr)) (a a' : Z * ptr) :
  NoDup (A ++ a :: B).*2 → A ++ a :: B = A' ++ a' :: B' → a.2 = a'.2 → A = A' ∧ a = a' ∧ B = B'.
Proof.
  intros Hd Heq Ha. revert A' Heq Hd. induction A as [|x A IH]; intros [|x' A'] Heq Hd; cbn in Heq.
  - by injection Heq as -> ->.
  - injection Heq as -> ->. exfalso. cbn in Hd. apply NoDup_cons in Hd as [Hd _]. apply Hd.
    rewrite Ha, fmap_app. cbn. set_solver.
  - injection Heq as -> <-. exfalso. cbn in Hd. apply NoDup_cons in Hd as [Hd _]. apply Hd.
    rewrite <- Ha, fmap_app. cbn. set_solver.
  - injection Heq as -> Heq. cbn in Hd. apply NoDup_cons in Hd as [_ Hd].
    destruct (IH A' Heq Hd) as (-> & -> & ->). done.
Qed.
Lemma timer_erase_split A v z B : NoDup (A ++ (v, z) :: B).*2 → timer_erase z (A ++ (v, z) :: B) = A ++ B.
Proof.
  rewrite fmap_app. cbn. rewrite <- Permutation_middle, NoDup_cons, <- fmap_app. intros [Hz _].
  unfold timer_erase. rewrite filter_app, filter_cons_False by (cbn; tauto). rewrite <- filter_app.
  revert Hz. generalize (A ++ B). intros l Hz. induction l as [|[d c] l IH]; [done|].
  cbn in Hz. rewrite filter_cons_True by (cbn; set_solver). f_equal. apply IH. set_solver.
Qed.
Lemma sorted_remove A a B : sorted (A ++ a :: B) → sorted (A ++ B).
Proof.
  rewrite !sorted_app, sorted_cons. intros (HA & (HB & _) & H). split; [done|]. split; [done|].
  intros x y Hx Hy. apply H; [done|by right].
Qed.

(** After an item with at most one child is gone, a missing black level is mended. *)
Lemma mend_spec h0 ls h un k c l y v r t fuel :
  holds h0 ls h un k t → (t = E → un = parent rt k) → good k (T c l y v r) →
  l = E ∧ t = r ∨ r = E ∧ t = l → (S (length k) < fuel)%nat →
  twp (if negb c then dill_rbtree_fixup rt nl fuel (root nl t) else mret tt)
    (λ _ h', ∃ un' t', holds h0 ls h' un' [] t' ∧ good [] t') h.
Proof.
  intros Hh Hu (n & Hn & Hk & Hr) Ht Hf. destruct c; cbn [negb].
  - apply twp_ret. exists un, (plug k t). split; [exact (proj1 (holds_plug _ _ _ _ _ _) Hh)|].
    refine (proj1 (good_plug _ _) _).
    destruct Hn as (Hl & Hrr & Hnl & Hnr). exists n. destruct Ht as [[_ ->]|[_ ->]]; split; try done; split; try done; congruence.
  - destruct n as [|n]; [by destruct Hn|]. eapply dill_rbtree_fixup_spec; [exact Hh|done|exact Hk| |done].
    assert (rb n t) by (destruct Hn, Ht as [[_ ->]|[_ ->]]; done). destruct t as [|[] ? ? ? ?]; cbn in *; tauto.
Qed.

Lemma whole_focus k c l p v r : whole k (T c l p v r) = (lk k ++ ino l) ++ (v, p) :: ino r ++ rk k.
Proof. unfold whole. cbn [ino]. by rewrite <- !app_assoc. Qed.

Lemma unlink_spec h ls un k c l y v r t (Q : unit → tstore → Prop) :
  holds h ls h un k (T c l y v r) → l = E ∧ t = r ∨ r = E ∧ t = l →
  (∀ h1 un1 u' l' r', holds h (whole k t) h1 un1 k t → (t = E → un1 = parent rt k) →
    h1 !! y = Some (mk_item u' l' r' c v) → y ∉ nl :: rt :: (whole k t).*2 → Q tt h1) →
  twp (unlink rt y (root nl t)) Q h.
Proof.
  intros (Hz & Hw & _) Ht HQ. pose proof (zrep_item _ _ _ _ _ _ _ _ _ _ Hz) as Hy.
  assert (Hout : y ∉ nl :: rt :: (whole k t).*2).
  { destruct (zrep_distinct _ _ _ _ _ _ _ _ _ _ Hz) as [Hn Hr]. rewrite !not_elem_of_cons, whole_perm.
    split; [done|]. split; [done|]. pose proof (zrep_nodup _ _ _ _ _ _ Hz) as Hd.
    rewrite !NoDup_cons, ptrs_T in Hd. destruct Hd as (_ & _ & Hd).
    rewrite <- app_assoc, <- app_comm_cons, <- Permutation_middle, NoDup_cons in Hd. destruct Hd as [Hd _].
    by destruct Ht as [[-> ->]|[-> ->]]. }
  eapply twp_unlink; [exact Hz|exact Ht|]. intros h1 un1 Hf Hz1 Hu.
  eapply (HQ h1 un1); [split; [exact Hz1|by split]|exact Hu| |exact Hout]. by rewrite Hf.
Qed.

(** An item with at most one child is erased itself. *)
Lemma erase_self h ls un k c l z v r t fuel :
  holds h ls h un k (T c l z v r) → l = E ∧ t = r ∨ r = E ∧ t = l → good k (T c l z v r) →
  sorted (whole k t) → (S (length k) < fuel)%nat →
  twp (unlink rt z (root nl t);; c ← red z; if negb c then dill_rbtree_fixup rt nl fuel (root nl t) else mret tt)
    (λ _ h', tree_of h' (whole k t) ∧ ∀ q, q ∉ nl :: rt :: (whole k t).*2 → h' !! q = h !! q) h.
Proof.
  intros Hh Ht Hg Hs Hf. apply twp_bind. eapply unlink_spec; [exact Hh|exact Ht|].
  intros h1 un1 u' l' r' Hh1 Hu Hz _. apply twp_bind. eapply twp_get; [exact Hz|]. cbn [it_red].
  eapply twp_mono; [eapply mend_spec; [exact Hh1|exact Hu|exact Hg|exact Ht|exact Hf]|].
  intros _ h' (un' & t' & Hh' & Hg'). split; [by eapply tree_of_intro|apply Hh'].
Qed.

(** An item with two children: the next item, which has no left child, takes its place. *)
Lemma erase_next h ls un k c y v r z vz A B fuel :
  holds h ls h un k (T c E y v r) → ls = A ++ (vz, z) :: (v, y) :: B → good k (T c E y v r) →
  sorted (A ++ (v, y) :: B) → (S (length k) < fuel)%nat →
  twp (unlink rt y (root nl r);;
       c ← red y;
       (if negb c then dill_rbtree_fixup rt nl fuel (root nl r) else mret tt);;
       replace z y)
    (λ _ h', tree_of h' (A ++ (v, y) :: B) ∧ ∀ q, q ∉ nl :: rt :: ls.*2 → h' !! q = h !! q) h.
Proof.
  intros Hh -> Hg Hs Hf. pose proof (zr_dup _ _ _ _ _ _ (proj1 Hh)) as Hd.
  pose proof Hh as (_ & Hw & _). rewrite Hw in Hd. rewrite !NoDup_cons in Hd. destruct Hd as (Hn & Hr & Hd).
  assert (Hw1 : whole k r = A ++ (vz, z) :: B).
  { unfold whole in Hw |- *. cbn [ino app] in Hw.
    destruct (split_unique (lk k) (A ++ [(vz, z)]) (ino r ++ rk k) B (v, y) (v, y)) as (-> & _ & ->); try done.
    - by rewrite Hw.
    - by rewrite Hw, <- app_assoc.
    - by rewrite <- app_assoc. }
  apply twp_bind. eapply unlink_spec; [exact Hh|by left|].
  intros h1 un1 u' l' r' Hh1 Hu Hy Hout. rewrite Hw1 in Hh1, Hout.
  apply twp_bind. eapply twp_get; [exact Hy|]. cbn [it_red]. apply twp_bind.
  eapply twp_mono; [eapply mend_spec; [exact Hh1|exact Hu|exact Hg|by left|exact Hf]|].
  intros _ h2 (un2 & t2 & Hh2 & Hg2). pose proof Hh2 as (_ & _ & Hf2). pose proof Hh1 as (_ & _ & Hf1).
  destruct (locate t2 z) as (k3 & c3 & l3 & v3 & r3 & <-).
  { unfold ptrs. rewrite (holds_tree _ _ _ _ _ Hh2), fmap_app. cbn. set_solver. }
  apply holds_plug in Hh2. apply good_plug in Hg2. pose proof Hh2 as (Hz2 & Hw2 & _).
  assert (Hd1 : NoDup (A ++ (vz, z) :: B).*2).
  { rewrite <- Hw2. pose proof (zr_dup _ _ _ _ _ _ Hz2) as Hd2. rewrite !NoDup_cons in Hd2. apply Hd2. }
  assert (lk k3 ++ ino l3 = A ∧ (v3, z) = (vz, z) ∧ ino r3 ++ rk k3 = B) as (HA & [= ->] & HB).
  { rewrite whole_focus in Hw2. apply split_unique; [by rewrite Hw2|exact Hw2|done]. }
  eapply twp_replace; [exact Hz2|by rewrite Hw2| |].
  { rewrite (Hf2 _ Hout), <- (Hf1 _ Hout). exact Hy. }
  cbn [it_val]. intros h3 un3 Hf3 Hz3. rewrite Hw2 in Hf3. split.
  - eapply (tree_of_intro h3); [split; [exact Hz3|split; [|done]]| |done].
    + by rewrite whole_focus, HA, HB.
    + destruct Hg2 as (n & Hrb & ?). exists n. by destruct c3.
  - intros q Hq. rewrite fmap_app in Hq. cbn in Hq. rewrite Hf3, Hf2; [done|..];
      rewrite fmap_app; cbn; set_solver.
Qed.

(** What erasing does when [y] is the item after [z]. *)
Lemma erase_rest h ls un k c y v r z vz A R fuel :
  holds h ls h un k (T c E y v r) → ls = A ++ (vz, z) :: R → lk k = A ++ [(vz, z)] → good k (T c E y v r) →
  sorted (A ++ R) → (S (length k) < fuel)%nat →
  twp (yl ← left y;
       x ← (if yl =? nl then right y else mret yl);
       unlink rt y x;;
       if negb (y =? z) then
         c ← red y;
         (if negb c then dill_rbtree_fixup rt nl fuel x else mret tt);;
         replace z y
       else
         c ← red y;
         if negb c then dill_rbtree_fixup rt nl fuel x else mret tt)
    (λ _ h', tree_of h' (A ++ R) ∧ ∀ q, q ∉ nl :: rt :: ls.*2 → h' !! q = h !! q) h.
Proof.
  intros Hh Hls Hlk Hg Hs Hf. pose proof Hh as (Hz & Hw & _).
  pose proof (zr_dup _ _ _ _ _ _ Hz) as Hd. rewrite !NoDup_cons in Hd. destruct Hd as (_ & _ & Hd).
  rewrite Hls, whole_focus, Hlk in Hw. cbn [ino] in Hw. rewrite app_nil_r, <- app_assoc in Hw.
  apply app_inv_head in Hw. injection Hw as <-.
  assert (Hyz : (y =? z) = false).
  { apply Z.eqb_neq. intros ->. rewrite whole_focus, Hlk, fmap_app in Hd. cbn in Hd.
    rewrite app_nil_r, fmap_app, <- app_assoc in Hd. apply NoDup_app in Hd as (_ & _ & Hd).
    apply NoDup_cons in Hd as [Hd _]. set_solver. }
  expose Hh. reads. rewrite Hyz. cbn [negb]. apply twp_bind_inv. by eapply erase_next.
Qed.

Lemma item_not_leaf h0 ls h un k c l p v r : holds h0 ls h un k (T c l p v r) → (p =? nl) = false.
Proof. intros [Hz _]. apply Z.eqb_neq. by destruct (zrep_distinct _ _ _ _ _ _ _ _ _ _ Hz). Qed.

Lemma dill_rbtree_erase_spec h A vz z B fuel :
  tree_of h (A ++ (vz, z) :: B) → (S (2 * Nat.log2 (S (length (A ++ (vz, z) :: B)))) < fuel)%nat →
  twp (dill_rbtree_erase rt nl fuel z) (λ _ h', tree_of h' (A ++ B) ∧
    ∀ q, q ∉ nl :: rt :: (A ++ (vz, z) :: B).*2 → h' !! q = h !! q) h.
Proof.
  intros (un & t & Hh & Hg & Hs) Hf. pose proof (good_height _ Hg) as Hb. pose proof (holds_tree _ _ _ _ _ Hh) as Hino.
  rewrite Hino in Hb.
  destruct (locate t z) as (k & c & l & v & r & <-).
  { unfold ptrs. rewrite Hino, fmap_app. cbn. set_solver. }
  pose proof (hgt_plug k (T c l z v r)) as Hhk. cbn [hgt] in Hhk.
  apply holds_plug in Hh. apply good_plug in Hg. pose proof Hh as (Hz & Hw & _).
  pose proof (zr_dup _ _ _ _ _ _ Hz) as Hd. rewrite Hw, !NoDup_cons in Hd. destruct Hd as (_ & _ & Hd).
  assert (lk k ++ ino l = A ∧ (v, z) = (vz, z) ∧ ino r ++ rk k = B) as (<- & [= ->] & <-).
  { rewrite whole_focus in Hw. apply split_unique; [by rewrite Hw|exact Hw|done]. }
  pose proof (sorted_remove _ _ _ Hs) as Hs'.
  unfold dill_rbtree_erase. expose Hh. reads.
  destruct l as [|cl ll pl vl rl].
  - (** no left child *)
    reads. apply twp_bind_inv. eapply twp_mono; [eapply erase_self; [exact Hh|by left|exact Hg| |lia]|].
    { unfold whole. cbn [ino] in Hs'. by rewrite app_nil_r in Hs'. }
    intros _ h' [Ht' Hf']. unfold whole in Ht', Hf'. cbn [ino]. rewrite app_nil_r. split; [exact Ht'|].
    intros q Hq. apply Hf'. rewrite !fmap_app in *. cbn in Hq. rewrite ?fmap_app in Hq. set_solver.
  - pose proof (item_not_leaf _ _ _ _ _ _ _ _ _ _ (proj2 (holds_fill _ _ _ _ (FL c z vz r) _ _) Hh)) as Hpl.
    destruct r as [|cr lr pr vr rr].
    + (** no right child *)
      cbn [root]. rewrite Hpl. reads. rewrite Hpl. reads. apply twp_bind_inv.
      eapply twp_mono; [eapply (erase_self h _ un k c (T cl ll pl vl rl) z vz E (T cl ll pl vl rl)); [exact Hh|by right|exact Hg| |lia]|].
      { unfold whole. revert Hs'. generalize (T cl ll pl vl rl). intros t. cbn [ino app]. by rewrite <- app_assoc. }
      intros _ h' [Ht' Hf']. revert Ht' Hf'. generalize (T cl ll pl vl rl). intros t Ht' Hf'.
      unfold whole in Ht', Hf'. cbn [ino app]. rewrite <- app_assoc. split; [exact Ht'|].
      intros q Hq. apply Hf'. rewrite !fmap_app in *. cbn in Hq. set_solver.
    + (** two children *)
      pose proof (item_not_leaf _ _ _ _ _ _ _ _ _ _ (proj2 (holds_fill _ _ _ _ (FR c _ z vz) _ _) Hh)) as Hpr.
      cbn [root]. rewrite Hpl, Hpr. cbn [orb]. eapply next_help_right; [exact Hh|cbn [hgt] in *; lia|].
      intros k' c' y vy r' Hh' Hpl' Hlk. pose proof (hgt_plug k' (T c' E y vy r')) as Hhk'.
      rewrite Hpl' in Hhk'. cbn [hgt] in Hhk', Hhk.
      assert (Hg' : good k' (T c' E y vy r')) by (apply good_plug; rewrite Hpl'; by apply good_plug in Hg).
      eapply (erase_rest _ _ _ _ _ _ _ _ _ _ _ (ino (T cr lr pr vr rr) ++ rk k));
        [exact Hh'|done|by rewrite Hlk, <- app_assoc|exact Hg'|exact Hs'|lia].
Qed.

(** * The operations together *)

Lemma dill_rbtree_init_spec h i j (Q : unit → tstore → Prop) :
  rt ≠ nl → h !! rt = Some i → h !! nl = Some j →
  (∀ h', tree_of h' [] → (∀ q, q ≠ rt → q ≠ nl → h' !! q = h !! q) → Q tt h') →
  twp (dill_rbtree_init rt nl) Q h.
Proof.
  intros Hne Hi Hj HQ. unfold dill_rbtree_init, set_up, set_left, set_right, set_val, set_red.
  repeat (try apply twp_bind; eapply twp_upd;
    [repeat first [rewrite lookup_insert_eq|rewrite lookup_insert_ne by congruence]; first [eassumption|reflexivity]|]).
  apply HQ.
  - exists nl, E. split; [|split; [by apply good_nil; split; [|exists 0%nat]|by constructor]].
    split; [|done]. split; cbn.
    + repeat rewrite lookup_insert_ne by congruence. by rewrite lookup_insert_eq.
    + split; [by rewrite lookup_insert_eq|done].
    + done.
    + repeat constructor; set_solver.
  - intros q Hq1 Hq2. repeat rewrite lookup_insert_ne by congruence. done.
Qed.

Lemma dill_rbtree_first_spec h ls fuel (Q : ptr → tstore → Prop) :
  tree_of h ls → (2 * Nat.log2 (S (length ls)) ≤ fuel)%nat → Q (first_of NULL ls) h →
  twp (dill_rbtree_first rt nl fuel) Q h.
Proof.
  intros (un & t & Hh & Hg & _) Hf HQ. pose proof (good_height _ Hg) as Hb.
  pose proof (holds_tree _ _ _ _ _ Hh) as Hino. rewrite Hino in Hb. subst ls.
  unfold dill_rbtree_first. expose Hh. reads. destruct t as [|c l p v r]; cbn [root].
  - rewrite Z.eqb_refl. by apply twp_ret.
  - rewrite (item_not_leaf _ _ _ _ _ _ _ _ _ _ Hh). eapply leftmost_spec; [exact Hh|lia|].
    intros k' c' p' v' r' Hh' _ Hlk. pose proof Hh' as (_ & Hw & _). rewrite whole_focus, Hlk in Hw.
    cbn [lk ino app] in Hw, HQ. by rewrite <- Hw in HQ.
Qed.

(** The item after [z], NULL after the last one. *)
Fixpoint next_of (z : ptr) (ls : list (Z * ptr)) : ptr :=
  match ls with [] => NULL | (_, p) :: ls => if p =? z then first_of NULL ls else next_of z ls end.

Lemma next_of_split A v z B : NoDup (A ++ (v, z) :: B).*2 → next_of z (A ++ (v, z) :: B) = first_of NULL B.
Proof.
  induction A as [|[w q] A IH]; cbn; [by rewrite Z.eqb_refl|]. rewrite NoDup_cons. intros [Hq Hd].
  rewrite (proj2 (Z.eqb_neq q z)); [by apply IH|]. intros ->. apply Hq. rewrite fmap_app. cbn. set_solver.
Qed.

Lemma tree_of_nodup h ls : tree_of h ls → nl ∉ rt :: ls.*2 ∧ rt ∉ ls.*2 ∧ NoDup ls.*2.
Proof.
  intros (un & t & (Hz & Hw & _) & _). pose proof (zr_dup _ _ _ _ _ _ Hz) as Hd. by rewrite Hw, !NoDup_cons in Hd.
Qed.

Lemma dill_rbtree_next_spec h A v z B fuel (Q : ptr → tstore → Prop) :
  tree_of h (A ++ (v, z) :: B) → (2 * Nat.log2 (S (length (A ++ (v, z) :: B))) ≤ fuel)%nat →
  Q (first_of NULL B) h → twp (dill_rbtree_next rt nl fuel z) Q h.
Proof.
  intros Ht Hf HQ. pose proof (tree_of_nodup _ _ Ht) as (Hn & _ & Hd). destruct Ht as (un & t & Hh & Hg & _).
  pose proof (good_height _ Hg) as Hb. pose proof (holds_tree _ _ _ _ _ Hh) as Hino. rewrite Hino in Hb.
  destruct (locate t z) as (k & c & l & v' & r & <-).
  { unfold ptrs. rewrite Hino, fmap_app. cbn. set_solver. }
  apply holds_plug in Hh. pose proof Hh as (_ & Hw & _). rewrite whole_focus in Hw.
  destruct (split_unique (lk k ++ ino l) A (ino r ++ rk k) B (v', z) (v, z)) as (<- & [= ->] & <-);
    [by rewrite Hw|done|done|].
  unfold dill_rbtree_next. apply twp_bind. eapply dill_rbtree_next_help_spec; [exact Hh|lia|].
  destruct (ino r ++ rk k) as [|[w q] B] eqn:EB; cbn [first_of] in *; [by rewrite Z.eqb_refl; apply twp_ret|].
  rewrite (proj2 (Z.eqb_neq q nl)); [by apply twp_ret|]. intros ->. apply Hn. rewrite fmap_app. cbn. set_solver.
Qed.

Lemma dill_rbtree_empty_spec h ls (Q : bool → tstore → Prop) :
  tree_of h ls → Q (bool_decide (ls = [])) h → twp (dill_rbtree_empty rt nl) Q h.
Proof.
  intros (un & t & Hh & Hg & _) HQ. pose proof (holds_tree _ _ _ _ _ Hh) as <-.
  unfold dill_rbtree_empty. expose Hh. reads. destruct t as [|c l p v r]; cbn [root].
  - by rewrite Z.eqb_refl.
  - rewrite (item_not_leaf _ _ _ _ _ _ _ _ _ _ Hh). rewrite bool_decide_eq_false_2 in HQ; [done|].
    cbn [ino]. intros H'. by apply app_nil in H' as [_ ?].
Qed.
End Spec.
