(* ===== verification/Rbtimers.v ===== *)
(** The timers: any sequence of operations on the red-black tree behaves as on the sorted
    list the scheduler is modelled over, in a logarithmic number of rounds of each loop. *)

From Stdlib Require Import ZArith Lia.
From stdpp Require Import base gmap list sorting.
From S2P Require Import Prelude Cr Rbtree Rbheap Rbspec.
Open Scope Z_scope.

(** * Sequences of operations *)

Inductive rbop : Type := Insert (v : Z) (z : ptr) | Erase (z : ptr) | First | Next (z : ptr) | IsEmpty.

Definition rb_op (rt nl : ptr) (fuel : nat) (o : rbop) : TM Z :=
  match o with
  | Insert v z => dill_rbtree_insert rt nl fuel v z;; mret 0
  | Erase z => dill_rbtree_erase rt nl fuel z;; mret 0
  | First => dill_rbtree_first rt nl fuel
  | Next z => dill_rbtree_next rt nl fuel z
  | IsEmpty => b ← dill_rbtree_empty rt nl; mret (if b : bool then 1 else 0)
  end.
Fixpoint rb_ops (rt nl : ptr) (fuel : nat) (os : list rbop) : TM (list Z) :=
  match os with
  | [] => mret []
  | o :: os => r ← rb_op rt nl fuel o; rs ← rb_ops rt nl fuel os; mret (r :: rs)
  end.

(** The same on the list of the scheduler; [None] when an item is inserted twice, or
    erased or passed to [next] without being in. *)
Definition list_op (o : rbop) (ls : list (Z * ptr)) : option (Z * list (Z * ptr)) :=
  match o with
  | Insert v z => if decide (z ∈ ls.*2) then None else Some (0, timer_insert v z ls)
  | Erase z => if decide (z ∈ ls.*2) then Some (0, timer_erase z ls) else None
  | First => Some (first_of NULL ls, ls)
  | Next z => if decide (z ∈ ls.*2) then Some (next_of z ls, ls) else None
  | IsEmpty => Some (if bool_decide (ls = []) then 1 else 0, ls)
  end.
Fixpoint list_ops (os : list rbop) (ls : list (Z * ptr)) : option (list Z * list (Z * ptr)) :=
  match os with
  | [] => Some ([], ls)
  | o :: os => '(r, ls) ← list_op o ls; '(rs, ls) ← list_ops os ls; Some (r :: rs, ls)
  end.

(** * No operation allocates or frees *)

Definition same_dom {A} (m : TM A) : Prop := ∀ h a h', m h = Some (a, h') → dom h' = dom h.

Lemma same_ret {A} (a : A) : same_dom (mret a).
Proof. by intros h a' h' [= -> ->]. Qed.
Lemma same_stuck {A} : same_dom (@stuck A).
Proof. done. Qed.
Lemma same_bind {A B} (m : TM A) (f : A → TM B) : same_dom m → (∀ a, same_dom (f a)) → same_dom (m ≫= f).
Proof.
  intros Hm Hf h b h'. unfold mbind, TM_bind. destruct (m h) as [[a h1]|] eqn:E; [|done].
  intros H%Hf. by rewrite H, (Hm _ _ _ E).
Qed.
Lemma same_get {A} (f : dill_rbtree_item → A) p : same_dom (get f p).
Proof. unfold get. intros h a h'. destruct (h !! p); [|done]. by intros [= _ ->]. Qed.
Lemma same_upd f p : same_dom (upd f p).
Proof.
  unfold upd. intros h a h'. destruct (h !! p) eqn:E; [|done]. intros [= _ <-].
  rewrite dom_insert_lookup_L; [done|]. by eexists.
Qed.
Create HintDb same_dom.
#[export] Hint Resolve same_ret same_stuck same_bind same_get same_upd : same_dom.
(** [same]: every branch is a composition of such computations. *)
Ltac same :=
  unfold up, left, right, red, val, set_up, set_left, set_right, set_red, set_val;
  repeat match goal with
  | |- same_dom (_ ≫= _) => apply same_bind; [|intros ?]
  | |- same_dom (if ?b then _ else _) => destruct b
  end; auto with same_dom.

Lemma same_relink p x y : same_dom (relink p x y).
Proof. unfold relink. same. Qed.
#[export] Hint Resolve same_relink : same_dom.
Lemma same_lrotate nl x : same_dom (dill_rbtree_lrotate nl x).
Proof. unfold dill_rbtree_lrotate. same. Qed.
Lemma same_rrotate nl x : same_dom (dill_rbtree_rrotate nl x).
Proof. unfold dill_rbtree_rrotate. same. Qed.
#[export] Hint Resolve same_lrotate same_rrotate : same_dom.

Lemma same_descend nl fuel zv y x : same_dom (descend nl fuel zv y x).
Proof. revert y x. induction fuel as [|fuel IH]; intros y x; cbn [descend]; same. Qed.
Lemma same_leftmost nl fuel x : same_dom (leftmost nl fuel x).
Proof. revert x. induction fuel as [|fuel IH]; intros x; cbn [leftmost]; same. Qed.
Lemma same_climb fuel x y : same_dom (climb fuel x y).
Proof. revert x y. induction fuel as [|fuel IH]; intros x y; cbn [climb]; same. Qed.
Lemma same_insert_loop nl fuel x : same_dom (insert_loop nl fuel x).
Proof. revert x. induction fuel as [|fuel IH]; intros x; cbn [insert_loop]; same. Qed.
#[export] Hint Resolve same_descend same_leftmost same_climb same_insert_loop : same_dom.
Lemma same_next_help rt nl fuel x : same_dom (dill_rbtree_next_help rt nl fuel x).
Proof. unfold dill_rbtree_next_help. same. Qed.
Lemma same_fixup_loop nl fuel root x : same_dom (fixup_loop nl fuel root x).
Proof.
  revert x. induction fuel as [|fuel IH]; intros x; cbn [fixup_loop];
    unfold fix_left, fix_right, fix_left_tail, fix_right_tail; same.
Qed.
#[export] Hint Resolve same_next_help same_fixup_loop : same_dom.
Lemma same_fixup rt nl fuel x : same_dom (dill_rbtree_fixup rt nl fuel x).
Proof. unfold dill_rbtree_fixup. same. Qed.
#[export] Hint Resolve same_fixup : same_dom.
Lemma same_op rt nl fuel o : same_dom (rb_op rt nl fuel o).
Proof.
  destruct o; cbn [rb_op]; unfold dill_rbtree_insert, dill_rbtree_insert_help, dill_rbtree_erase, unlink, replace,
    dill_rbtree_first, dill_rbtree_next, dill_rbtree_empty; same.
Qed.
Lemma same_init rt nl : same_dom (dill_rbtree_init rt nl).
Proof. unfold dill_rbtree_init. same. Qed.

(** * Refinement *)

Lemma list_op_length o ls r ls' : list_op o ls = Some (r, ls') → (length ls' ≤ S (length ls))%nat.
Proof.
  destruct o; cbn; repeat case_decide; intros [= <- <-]; try lia.
  - rewrite timer_insert_perm. cbn. lia.
  - unfold timer_erase. pose proof (length_filter (λ t : Z * Z, t.2 ≠ z) ls). lia.
Qed.

(** The items an operation brings in. *)
Definition brings (o : rbop) (z : ptr) : Prop := match o with Insert _ z' => z' = z | _ => False end.

Lemma rb_op_spec rt nl fuel h ls o r ls' :
  tree_of rt nl h ls → (∀ z, brings o z → z ≠ rt ∧ z ≠ nl ∧ is_Some (h !! z)) → list_op o ls = Some (r, ls') →
  (S (2 * Nat.log2 (S (length ls))) < fuel)%nat →
  ∃ h', rb_op rt nl fuel o h = Some (r, h') ∧ tree_of rt nl h' ls' ∧ dom h' = dom h ∧
    ∀ q, q ∉ nl :: rt :: ls.*2 ++ ls'.*2 → h' !! q = h !! q.
Proof.
  intros Ht Hz Ho Hf.
  enough (Htwp : twp (rb_op rt nl fuel o) (λ r' h', r' = r ∧ tree_of rt nl h' ls' ∧
    ∀ q, q ∉ nl :: rt :: ls.*2 ++ ls'.*2 → h' !! q = h !! q) h).
  { apply twp_run in Htwp as (r' & h' & E & -> & Ht' & Hf'). exists h'. split; [done|]. split; [done|].
    split; [|done]. by apply (same_op _ _ _ _ _ _ _ E). }
  assert (Hin : ∀ z, z ∈ ls.*2 → ∃ A v B, ls = A ++ (v, z) :: B).
  { intros z ([v q] & -> & (A & B & ->)%list_elem_of_split)%list_elem_of_fmap. by exists A, v, B. }
  pose proof (tree_of_nodup _ _ _ _ Ht) as (Hn & Hr & Hd).
  destruct o as [v z|z| |z|]; cbn [list_op rb_op] in Ho |- *.
  - case_decide; [done|]. injection Ho as <- <-. destruct (Hz z eq_refl) as (H1 & H2 & [i Hi]). apply twp_bind.
    eapply twp_mono; [eapply dill_rbtree_insert_spec; [exact Ht| |exact Hi|lia]|]; [set_solver|].
    intros _ h' [Ht' Hf']. apply twp_ret. split; [done|]. split; [done|].
    intros q Hq. apply Hf'. rewrite timer_insert_perm in Hq. cbn in Hq. set_solver.
  - case_decide as Hzi; [|done]. injection Ho as <- <-. destruct (Hin z Hzi) as (A & v & B & ->). apply twp_bind.
    eapply twp_mono; [eapply dill_rbtree_erase_spec; [exact Ht|exact Hf]|].
    intros _ h' [Ht' Hf']. apply twp_ret. rewrite timer_erase_split by done. split; [done|]. split; [done|].
    intros q Hq. apply Hf'. set_solver.
  - injection Ho as <- <-. eapply dill_rbtree_first_spec; [exact Ht|lia|done].
  - case_decide as Hzi; [|done]. injection Ho as <- <-. destruct (Hin z Hzi) as (A & v & B & ->).
    eapply dill_rbtree_next_spec; [exact Ht|lia|]. by rewrite next_of_split.
  - injection Ho as <- <-. apply twp_bind. eapply dill_rbtree_empty_spec; [exact Ht|]. apply twp_ret.
    split; [by case_bool_decide|done].
Qed.

Lemma rb_ops_spec rt nl fuel os : ∀ h ls rs ls',
  tree_of rt nl h ls → (∀ o z, o ∈ os → brings o z → z ≠ rt ∧ z ≠ nl ∧ is_Some (h !! z)) →
  list_ops os ls = Some (rs, ls') → (S (2 * Nat.log2 (S (length ls + length os))) < fuel)%nat →
  ∃ h', rb_ops rt nl fuel os h = Some (rs, h') ∧ tree_of rt nl h' ls'.
Proof.
  induction os as [|o os IH]; intros h ls rs ls' Ht Hz Ho Hf; cbn [list_ops rb_ops] in *.
  - injection Ho as <- <-. by exists h.
  - destruct (list_op o ls) as [[r ls1]|] eqn:E; [|done]. cbn in Ho.
    destruct (list_ops os ls1) as [[rs1 ls2]|] eqn:E'; [|done]. injection Ho as <- <-.
    pose proof (list_op_length _ _ _ _ E) as Hlen. cbn [length] in Hf.
    destruct (rb_op_spec rt nl fuel h ls o r ls1 Ht) as (h1 & Hh1 & Ht1 & Hdom & _); [set_solver|done| |].
    { pose proof (Nat.log2_le_mono (S (length ls)) (S (length ls + S (length os)))). lia. }
    destruct (IH h1 ls1 rs1 ls2 Ht1) as (h2 & Hh2 & Ht2); [|done| |].
    { intros o' z Ho' Hb. destruct (Hz o' z) as (? & ? & Hs); [by right|done|]. split; [done|]. split; [done|].
      apply elem_of_dom. rewrite Hdom. by apply elem_of_dom. }
    { pose proof (Nat.log2_le_mono (S (length ls1 + length os)) (S (length ls + S (length os)))). lia. }
    exists h2. unfold mbind, TM_bind. by rewrite Hh1, Hh2.
Qed.

(** C3. The timers are the sorted list of the scheduler: from [dill_rbtree_init] on, any
    sequence of insertions, erasures and look-ups on the tree terminates, follows no pointer
    that is not allocated, and returns what it returns on the list that [dill_timer] and
    [dill_timer_cancel] are modelled over: the item with the lowest value first, items with
    the same value in the order of their insertion.  [2 log2 (n + 1) + 2] rounds of
    each loop are enough for [n] operations. *)
Theorem rbtree_refines_timers rt nl h os rs ls fuel :
  rt ≠ nl → is_Some (h !! rt) → is_Some (h !! nl) →
  (∀ o z, o ∈ os → brings o z → z ≠ rt ∧ z ≠ nl ∧ is_Some (h !! z)) →
  list_ops os [] = Some (rs, ls) → (S (2 * Nat.log2 (S (length os))) < fuel)%nat →
  ∃ h', (dill_rbtree_init rt nl;; rb_ops rt nl fuel os) h = Some (rs, h') ∧ tree_of rt nl h' ls.
Proof.
  intros Hne [i Hi] [j Hj] Hz Ho Hf.
  assert (Hinit : twp (dill_rbtree_init rt nl) (λ _ h1, tree_of rt nl h1 []) h)
    by (eapply dill_rbtree_init_spec; eauto).
  apply twp_run in Hinit as ([] & h1 & E & Ht). pose proof (same_init _ _ _ _ _ E) as Hdom.
  destruct (rb_ops_spec rt nl fuel os h1 [] rs ls Ht) as (h' & E' & Ht'); [|done|done|].
  - intros o z Hin Hb. destruct (Hz o z Hin Hb) as (? & ? & Hs). split; [done|]. split; [done|].
    apply elem_of_dom. rewrite Hdom. by apply elem_of_dom.
  - exists h'. unfold mbind, TM_bind. by rewrite E.
Qed.

Definition demo_ops : list rbop :=
  [Insert 5 3; Insert 3 4; Insert 5 5; Insert 1 6; First; Erase 3; Next 6; Next 4; Next 5; IsEmpty].
Lemma rbtree_refines_timers_witness :
  ∃ h', (dill_rbtree_init 1 2;; rb_ops 1 2 9 demo_ops) demo_store = Some ([0; 0; 0; 0; 6; 0; 4; 5; 0; 0], h') ∧
    tree_of 1 2 h' [(1, 6); (3, 4); (5, 5)].
Proof.
  apply rbtree_refines_timers.
  - discriminate.
  - eexists. vm_compute. reflexivity.
  - eexists. vm_compute. reflexivity.
  - intros o z Ho Hb. apply list_elem_of_In in Ho. repeat destruct Ho as [<-|Ho];
      cbn in Hb; try done; subst z; (split; [discriminate|split; [discriminate|eexists; vm_compute; reflexivity]]).
  - vm_compute. reflexivity.
  - cbn. lia.
Defined.

(** C4. The shape of the tree is an invariant: every operation leaves a red-black tree with
    a black root, in which all pointers to parents and children agree and every way down
    passes the same number of black items, so that its height is at most twice the
    logarithm of the number of its items; and it writes to no other item of memory. *)
Theorem rbtree_stays_balanced rt nl h ls o r ls' fuel :
  tree_of rt nl h ls → (∀ z, brings o z → z ≠ rt ∧ z ≠ nl ∧ is_Some (h !! z)) →
  list_op o ls = Some (r, ls') → (S (2 * Nat.log2 (S (length ls))) < fuel)%nat →
  ∃ h' un t n, rb_op rt nl fuel o h = Some (r, h') ∧
    zrep rt nl h' un [] t ∧ ino t = ls' ∧ sorted ls' ∧
    isred t = false ∧ rb n t ∧ (hgt t ≤ 2 * Nat.log2 (S (length ls')))%nat ∧
    ∀ q, q ∉ nl :: rt :: ls.*2 ++ ls'.*2 → h' !! q = h !! q.
Proof.
  intros Ht Hz Ho Hf. destruct (rb_op_spec _ _ _ _ _ _ _ _ Ht Hz Ho Hf) as (h' & E & (un & t & Hh & Hg & Hs) & _ & Hfr).
  pose proof (holds_tree _ _ _ _ _ _ _ Hh) as Hino. pose proof (good_height _ Hg) as Hb. rewrite Hino in Hb.
  apply good_nil in Hg as [Hr [n Hn]]. exists h', un, t, n. by destruct Hh.
Qed.

Lemma rbtree_stays_balanced_witness :
  ∃ h, tree_of 1 2 h [(3, 4); (5, 3); (5, 5)] ∧
  ∃ h' un t n, rb_op 1 2 9 (Erase 3) h = Some (0, h') ∧
    zrep 1 2 h' un [] t ∧ ino t = [(3, 4); (5, 5)] ∧ sorted [(3, 4); (5, 5)] ∧
    isred t = false ∧ rb n t ∧ (hgt t ≤ 2 * Nat.log2 3)%nat ∧
    ∀ q, q ∉ [2; 1; 4; 3; 5; 4; 5] → h' !! q = h !! q.
Proof.
  assert (Hinit : ∃ h, tree_of 1 2 h [] ∧ dom h = dom demo_store).
  { destruct (twp_run (dill_rbtree_init 1 2) (λ _ h1, tree_of 1 2 h1 []) demo_store) as ([] & h & E & Ht).
    - eapply (dill_rbtree_init_spec 1 2 demo_store demo_blank demo_blank);
        [discriminate|vm_compute; reflexivity|vm_compute; reflexivity|auto].
    - exists h. split; [exact Ht|]. exact (same_init _ _ _ _ _ E). }
  destruct Hinit as (h0 & Ht0 & Hd0).
  destruct (rb_ops_spec 1 2 9 [Insert 5 3; Insert 3 4; Insert 5 5] h0 [] [0; 0; 0] [(3, 4); (5, 3); (5, 5)] Ht0)
    as (h & _ & Ht).
  - intros o z Ho Hb. apply list_elem_of_In in Ho. repeat destruct Ho as [<-|Ho]; cbn in Hb; try done; subst z;
      (split; [discriminate|split; [discriminate|apply elem_of_dom; rewrite Hd0; apply elem_of_dom; eexists; vm_compute; reflexivity]]).
  - vm_compute. reflexivity.
  - cbn. lia.
  - exists h. split; [exact Ht|]. apply (rbtree_stays_balanced 1 2 h [(3, 4); (5, 3); (5, 5)]).
    + exact Ht.
    + intros z Hb. destruct Hb.
    + vm_compute. reflexivity.
    + cbn. lia.
Defined.
