(* ===== verification/Sched.v ===== *)
(** The scheduler: the pollset ([epoll.c.inc]), the waiting loop of [dill_wait], the
    descriptor and sleep functions of [libdill.c], and the machine that runs the
    coroutines of a thread. *)

From S2P Require Import Prelude Handle Lists Iol World Cr Chan Bundle.
From Stdlib Require Import ZArith Lia.
From stdpp Require Import base gmap list.
Open Scope Z_scope.

Definition DILL_ENDLIST : Z := 0xffffffff.
Definition ENOENT : errno_t := EOTHER 2.
Definition EPERM : errno_t := EOTHER 1.
Definition ELOOP : errno_t := EOTHER 40.

Inductive ctl_op := CTL_ADD | CTL_MOD | CTL_DEL.

(** The effect of a successful call on the interest set. *)
Definition ctl_effect (o : ctl_op) (fd : Z) (ev : events) (k : gmap Z events) : gmap Z events :=
  match o with CTL_DEL => delete fd k | _ => <[fd := ev]> k end.

Definition mask_empty (ev : events) : bool := negb (ev.1 || ev.2).

Section Pollset.
(** The kernel: does [epoll_ctl] fail, given the interest set, and how. *)
Context (epoll_ctl : gmap Z events → ctl_op → Z → events → option errno_t).

Definition set_ps (p : dill_ctx_pollset) (w : world) : world := set_pollset p w.

(** Call the kernel; on success update the interest set. *)
Definition do_ctl (o : ctl_op) (fd : Z) (ev : events) : M (option errno_t) := λ w,
  let p := w_pollset w in
  match epoll_ctl (ps_kernel p) o fd ev with
  | Some e => ODone (Some e) (set_errno e w)
  | None => ODone None (set_pollset
      (mk_pollset (ps_fdinfos p) (ps_nfdinfos p) (ps_changelist p) (ctl_effect o fd ev (ps_kernel p))) w)
  end.

Definition put_fdinfo (fd : Z) (i : dill_fdinfo) : M unit :=
  modify (λ w, set_pollset (set_fdinfo fd i (w_pollset w)) w).

(** The part of [dill_pollset_in] and [dill_pollset_out] before the busy check. *)
Definition pollset_cache (fd : Z) (ev : events) : M Z :=
  p ← gets w_pollset;
  if (fd <? 0) || (ps_nfdinfos p <=? fd) then fail EBADF
  else if fi_cached (fdinfo_at fd p) then mret 0
  else
    r ← do_ctl CTL_ADD fd ev;
    match r with
    | Some e => if bool_decide (e = ELOOP) || bool_decide (e = EPERM) then fail ENOTSUP else mret (-1)
    | None => put_fdinfo fd (mk_fdinfo None None ev 0 true);; mret 0
    end.

Definition dill_pollset_in (c : Z) (id : Z) (fd : Z) : M Z :=
  rc ← pollset_cache fd (true, false);
  if rc <? 0 then mret (-1)
  else
    i ← gets (λ w, fdinfo_at fd (w_pollset w));
    match fi_in i with
    | Some _ => fail EBUSY
    | None =>
      modify (λ w, set_pollset (add_change fd (w_pollset w)) w);;
      i ← gets (λ w, fdinfo_at fd (w_pollset w));
      put_fdinfo fd (mk_fdinfo (Some c) (fi_out i) (fi_currevs i) (fi_next i) (fi_cached i));;
      lift (dill_waitfor c id (FdCancelIn fd));;
      mret 0
    end.

Definition dill_pollset_out (c : Z) (id : Z) (fd : Z) : M Z :=
  rc ← pollset_cache fd (false, true);
  if rc <? 0 then mret (-1)
  else
    i ← gets (λ w, fdinfo_at fd (w_pollset w));
    match fi_out i with
    | Some _ => fail EBUSY
    | None =>
      modify (λ w, set_pollset (add_change fd (w_pollset w)) w);;
      i ← gets (λ w, fdinfo_at fd (w_pollset w));
      put_fdinfo fd (mk_fdinfo (fi_in i) (Some c) (fi_currevs i) (fi_next i) (fi_cached i));;
      lift (dill_waitfor c id (FdCancelOut fd));;
      mret 0
    end.

(** Unlink [fd] from the changelist: [pidx] designates the head of the list when
    [None], and the [next] field of a descriptor otherwise. *)
Fixpoint changelist_remove (fuel : nat) (pidx : option Z) (fd : Z) (p : dill_ctx_pollset)
    : option dill_ctx_pollset :=
  let idx := match pidx with None => ps_changelist p | Some q => fi_next (fdinfo_at q p) end in
  match fuel with
  | O => None
  | S fuel =>
    if (idx =? 0) || (idx =? DILL_ENDLIST) then None
    else if idx - 1 =? fd then
      let nx := fi_next (fdinfo_at fd p) in
      Some match pidx with
      | None => mk_pollset (ps_fdinfos p) (ps_nfdinfos p) nx (ps_kernel p)
      | Some q =>
        let i := fdinfo_at q p in
        set_fdinfo q (mk_fdinfo (fi_in i) (fi_out i) (fi_currevs i) nx (fi_cached i)) p
      end
    else changelist_remove fuel (Some (idx - 1)) fd p
  end.

(** [&ctx->fdinfos[fd]] is not checked against the number of infos: out of range there is no
    result. *)
Definition dill_pollset_clean (fd : Z) : M Z :=
  n ← gets (λ w, ps_nfdinfos (w_pollset w));
  assert_ ((0 <=? fd) && (fd <? n));;
  i ← gets (λ w, fdinfo_at fd (w_pollset w));
  if negb (fi_cached i) then mret 0
  else if bool_decide (is_Some (fi_in i)) || bool_decide (is_Some (fi_out i)) then fail EBUSY
  else
    (if mask_empty (fi_currevs i) then mret tt
     else
       r ← do_ctl CTL_DEL fd (false, false);
       assert_ (match r with Some e => bool_decide (e = ENOENT) | None => true end);;
       put_fdinfo fd (mk_fdinfo (fi_in i) (fi_out i) (false, false) (fi_next i) (fi_cached i)));;
    (if fi_next i =? 0 then mret tt
     else
       n ← gets (λ w, Z.to_nat (ps_nfdinfos (w_pollset w)));
       lift (λ w, p ← changelist_remove (S n) None fd (w_pollset w);
         let i := fdinfo_at fd p in
         Some (set_pollset (set_fdinfo fd (mk_fdinfo (fi_in i) (fi_out i) (fi_currevs i) 0 (fi_cached i)) p) w)));;
    i ← gets (λ w, fdinfo_at fd (w_pollset w));
    put_fdinfo fd (mk_fdinfo (fi_in i) (fi_out i) (fi_currevs i) (fi_next i) false);;
    mret 0.

(** ** [dill_pollset_poll] *)

(** One turn of the first loop: bring the kernel up to date for descriptor [fd]. *)
Definition apply_change (p : dill_ctx_pollset) : option dill_ctx_pollset :=
  let fd := ps_changelist p - 1 in
  let i := fdinfo_at fd p in
  let ev : events := (bool_decide (is_Some (fi_in i)), bool_decide (is_Some (fi_out i))) in
  k ← (if bool_decide (fi_currevs i = ev) then Some (ps_kernel p)
       else
         let o := if mask_empty ev then CTL_DEL
                  else if mask_empty (fi_currevs i) then CTL_ADD else CTL_MOD in
         match epoll_ctl (ps_kernel p) o fd ev with
         | Some _ => None      (** [dill_assert(rc == 0)] *)
         | None => Some (ctl_effect o fd ev (ps_kernel p))
         end);
  Some (mk_pollset (<[fd := mk_fdinfo (fi_in i) (fi_out i) ev 0 (fi_cached i)]> (ps_fdinfos p))
    (ps_nfdinfos p) (fi_next i) k).

Fixpoint apply_changes (fuel : nat) (p : dill_ctx_pollset) : option dill_ctx_pollset :=
  if ps_changelist p =? DILL_ENDLIST then Some p
  else match fuel with
       | O => None
       | S fuel => p ← apply_change p; apply_changes fuel p
       end.

(** One event: EPOLLIN, EPOLLOUT, EPOLLERR|EPOLLHUP. *)
Definition fire_event (fd : Z) (ev : bool * bool * bool) (w : world) : option world :=
  let '(ein, eout, eerr) := ev in
  w ← match fi_in (fdinfo_at fd (w_pollset w)) with
      | Some c =>
        if ein || eerr then
          w ← dill_trigger c E0 w;
          Some (match fi_in (fdinfo_at fd (w_pollset w)) with
                | None => set_pollset (add_change fd (w_pollset w)) w
                | Some _ => w
                end)
        else Some w
      | None => Some w
      end;
  match fi_out (fdinfo_at fd (w_pollset w)) with
  | Some c =>
    if eout || eerr then
      w ← dill_trigger c E0 w;
      Some (match fi_out (fdinfo_at fd (w_pollset w)) with
            | None => set_pollset (add_change fd (w_pollset w)) w
            | Some _ => w
            end)
    else Some w
  | None => Some w
  end.

Fixpoint fire_events (evs : list (Z * (bool * bool * bool))) (w : world) : option world :=
  match evs with
  | [] => Some w
  | (fd, ev) :: evs => w ← fire_event fd ev w; fire_events evs w
  end.

(** The return value of [dill_pollset_poll], given what [epoll_wait] reports. *)
Definition dill_pollset_poll (inp : poll_input) (w : world) : option (Z * world) :=
  let p := w_pollset w in
  p ← apply_changes (S (Z.to_nat (ps_nfdinfos p))) p;
  let w := set_now (pi_now inp) (set_pollset p w) in
  if pi_intr inp then Some (-1, w)
  else
    w ← fire_events (pi_events inp) w;
    Some (match pi_events inp with [] => 0 | _ => 1 end, w).

(** ** The waiting loop of [dill_wait] *)

(** [(int)x] *)
Definition to_int (x : Z) : Z := (x + 2 ^ 31) mod 2 ^ 32 - 2 ^ 31.

Definition poll_timeout (block : bool) (nw : Z) (ts : list (Z * Z)) : Z :=
  if block then
    match ts with
    | [] => -1
    | (deadline, _) :: _ => to_int (if deadline <=? nw then 0 else deadline - nw)
    end
  else 0.

(** Fire all expired timers; the flag tells whether there was one. *)
Fixpoint fire_timers (fuel : nat) (nw : Z) (fired : bool) (w : world) : option (bool * world) :=
  match w_timers w with
  | [] => Some (fired, w)
  | (d, c) :: _ =>
    if nw <? d then Some (fired, w)
    else match fuel with
         | O => None
         | S fuel => w ← dill_trigger c ETIMEDOUT w; fire_timers fuel nw true w
         end
  end.

(** How the scheduler ends: a coroutine to run, a crash, or no more input (the
    process sleeps in [epoll_wait]). *)
Inductive sched_result := SRun (w : world) | SCrash | SSleep (w : world).

(** "There's a coroutine ready to be executed so jump to it." *)
Definition pop_ready (w : world) : sched_result :=
  match w_ready w with
  | [] => SCrash
  | c :: rest =>
    match w_crs w !! c with
    | None => SCrash
    | Some x =>
      SRun (set_r c (set_ready rest (set_crs (<[c := mk_cr false (cr_id x) (cr_err x) (clauses x)
        (cr_bundle x) (cr_no_blocking1 x) (cr_no_blocking2 x) (done x) (cr_mem x) (closer x)]>
        (w_crs w)) w)))
    end
  end.

(** The loop [while(1)], a turn per input. *)
Fixpoint poll_loop (inputs : list poll_input) (block : bool) (nw : Z) (w : world) : sched_result :=
  match inputs with
  | [] => SSleep w
  | inp :: inputs =>
    let timeout := poll_timeout block nw (w_timers w) in
    match dill_pollset_poll inp (set_polls inputs w) with
    | None => SCrash
    | Some (fired, w) =>
      let nw := if timeout =? 0 then nw else w_now w in
      if fired <? 0 then poll_loop inputs block nw w
      else
        match fire_timers (length (w_timers w)) nw (negb (fired =? 0)) w with
        | None => SCrash
        | Some (fired, w) =>
          if negb block || fired then pop_ready (set_last_poll nw w)
          else poll_loop inputs block nw w
        end
    end
  end.

Definition dill_wait_ (w : world) : sched_result :=
  let nw := w_now w in
  let block := match w_ready w with [] => true | _ => false end in
  if block || (w_last_poll w + 1000 <? nw) then poll_loop (w_polls w) block nw w
  else pop_ready w.

(** ** [libdill.c] *)

Definition dill_msleep (deadline : Z) : M Z :=
  rc ← dill_canblock;
  if rc <? 0 then mret (-1)
  else
    t ← fresh_addr;
    lift (dill_timer t 1 deadline);;
    id ← dill_wait;
    if id <? 0 then mret (-1) else mret 0.

Definition dill_fdin (fd : Z) (deadline : Z) : M Z :=
  rc ← dill_canblock;
  if rc <? 0 then mret (-1)
  else
    c ← fresh_addr;
    rc ← dill_pollset_in c 1 fd;
    if rc <? 0 then mret (-1)
    else
      t ← fresh_addr;
      lift (dill_timer t 2 deadline);;
      id ← dill_wait;
      if id <? 0 then mret (-1) else if id =? 2 then fail ETIMEDOUT else mret 0.

Definition dill_fdout (fd : Z) (deadline : Z) : M Z :=
  rc ← dill_canblock;
  if rc <? 0 then mret (-1)
  else
    c ← fresh_addr;
    rc ← dill_pollset_out c 1 fd;
    if rc <? 0 then mret (-1)
    else
      t ← fresh_addr;
      lift (dill_timer t 2 deadline);;
      id ← dill_wait;
      if id <? 0 then mret (-1) else if id =? 2 then fail ETIMEDOUT else mret 0.

Definition dill_fdclean (fd : Z) : M Z := dill_pollset_clean fd.

(** ** The machine *)

(** The functions that [go] can start. *)
Context (prog : list Z → M unit).

(** The coroutine that runs, and the stacks of the suspended ones. *)
Record sys := mk_sys { s_run : outcome unit; s_conts : gmap Z (world → outcome unit) }.

Inductive status := SNext (s : sys) | SExit (w : world) | SIdle (w : world) | SFail.

(** Run until the next switch of coroutines. *)
Definition sys_step (s : sys) : status :=
  match s_run s with
  | ODone _ w => SExit w
  | OCrash => SFail
  | OWait w k =>
    let conts := <[w_r w := k]> (s_conts s) in
    match dill_wait_ w with
    | SCrash => SFail
    | SSleep w => SIdle w
    | SRun w' =>
      match conts !! w_r w' with
      | Some k' => SNext (mk_sys (k' w') (delete (w_r w') conts))
      | None => SFail
      end
    end
  | OGo w fn parent k =>
    SNext (mk_sys ((prog fn;; dill_epilogue) w) (<[parent := k]> (s_conts s)))
  end.

Fixpoint sys_run (fuel : nat) (s : sys) : status :=
  match fuel with
  | O => SNext s
  | S fuel => match sys_step s with SNext s => sys_run fuel s | r => r end
  end.
End Pollset.
