(* ===== verification/Pollspec.v ===== *)
(** The pollset of [epoll.c.inc]: the changelist and the interest set of the kernel
    stay consistent, and polling leaves the kernel asked for exactly the events
    somebody waits for. *)

From S2P Require Import Prelude Handle World Cr Sched.
From Stdlib Require Import ZArith Lia.
From stdpp Require Import base gmap list.
Open Scope Z_scope.

(** The events of a descriptor that somebody waits for. *)
Definition waits (i : dill_fdinfo) : events :=
  (bool_decide (is_Some (fi_in i)), bool_decide (is_Some (fi_out i))).

(** The changelist from [idx] is [l]: each descriptor's [next] is the index of the
    following one, plus one. *)
Fixpoint changes (p : dill_ctx_pollset) (idx : Z) (l : list Z) : Prop :=
  match l with
  | [] => idx = DILL_ENDLIST
  | fd :: l => idx = fd + 1 ∧ 0 ≤ fd < ps_nfdinfos p ∧ fi_next (fdinfo_at fd p) ≠ 0 ∧
      changes p (fi_next (fdinfo_at fd p)) l
  end.

Section Invariant.
(** The descriptors the kernel can poll. *)
Context (pollable : Z → Prop).

(** Every descriptor whose interest is out of date, [ex] aside, is in the changelist. *)
Record pollset_ok_but (ex : option Z) (l : list Z) (p : dill_ctx_pollset) : Prop := {
  po_size : 0 ≤ ps_nfdinfos p < 2 ^ 31;
  po_list : changes p (ps_changelist p) l;
  po_nodup : NoDup l;
  po_next : ∀ fd, fi_next (fdinfo_at fd p) ≠ 0 ↔ fd ∈ l;
  po_pending : ∀ fd, fi_next (fdinfo_at fd p) = 0 → ex ≠ Some fd →
    fi_currevs (fdinfo_at fd p) = waits (fdinfo_at fd p);
  po_kernel : ∀ fd, ps_kernel p !! fd =
    if mask_empty (fi_currevs (fdinfo_at fd p)) then None else Some (fi_currevs (fdinfo_at fd p));
  po_uncached : ∀ fd, fi_cached (fdinfo_at fd p) = false →
    fi_currevs (fdinfo_at fd p) = (false, false) ∧ waits (fdinfo_at fd p) = (false, false) ∧
    fi_next (fdinfo_at fd p) = 0;
  po_cached : ∀ fd, fi_cached (fdinfo_at fd p) = true → pollable fd ∧ 0 ≤ fd < ps_nfdinfos p;
}.

Definition pollset_ok (p : dill_ctx_pollset) : Prop := ∃ l, pollset_ok_but None l p.

Lemma changes_frame p p' l : ∀ idx,
  ps_nfdinfos p' = ps_nfdinfos p → (∀ fd, fd ∈ l → fi_next (fdinfo_at fd p') = fi_next (fdinfo_at fd p)) →
  changes p idx l → changes p' idx l.
Proof.
  induction l as [|fd l IH]; intros idx Hn Hf; [done|]. intros (-> & Hr & Hne & Hc). cbn [changes].
  rewrite Hn, (Hf fd) by left. repeat (split; [done|]). apply IH; [done| |done].
  intros fd' Hfd'. apply Hf. by right.
Qed.

Lemma fdinfo_at_mk m n c k fd : fdinfo_at fd (mk_pollset m n c k) = default no_fdinfo (m !! fd).
Proof. done. Qed.

(** Changing who waits for a descriptor. *)
Lemma ok_set_waits l p fd i :
  pollset_ok_but None l p → fi_cached (fdinfo_at fd p) = true →
  fi_next i = fi_next (fdinfo_at fd p) → fi_currevs i = fi_currevs (fdinfo_at fd p) → fi_cached i = true →
  pollset_ok_but (Some fd) l (set_fdinfo fd i p).
Proof.
  intros H Hc Hn He Hca.
  assert (HN : ∀ fd', fi_next (fdinfo_at fd' (set_fdinfo fd i p)) = fi_next (fdinfo_at fd' p)).
  { intros fd'. rewrite fdinfo_at_set. destruct (decide (fd = fd')) as [<-|]; done. }
  constructor.
  - apply (po_size _ _ _ H).
  - apply changes_frame with p; [done| |apply (po_list _ _ _ H)]. intros fd' _. apply HN.
  - apply (po_nodup _ _ _ H).
  - intros fd'. rewrite HN. apply (po_next _ _ _ H).
  - intros fd'. rewrite HN. intros Hz Hne. rewrite !fdinfo_at_set. rewrite decide_False by congruence.
    by apply (po_pending _ _ _ H).
  - intros fd'. cbn [ps_kernel set_fdinfo]. rewrite (po_kernel _ _ _ H fd'). rewrite fdinfo_at_set.
    destruct (decide (fd = fd')) as [<-|]; [by rewrite He|done].
  - intros fd'. rewrite fdinfo_at_set. destruct (decide (fd = fd')) as [<-|]; [congruence|].
    apply (po_uncached _ _ _ H).
  - intros fd'. rewrite fdinfo_at_set. destruct (decide (fd = fd')) as [<-|]; [|apply (po_cached _ _ _ H)].
    intros _. by apply (po_cached _ _ _ H).
Qed.

Lemma ok_add_change l p fd :
  pollset_ok_but (Some fd) l p → fi_cached (fdinfo_at fd p) = true → pollset_ok (add_change fd p).
Proof.
  intros H Hc. unfold add_change. destruct (Z.eqb_spec (fi_next (fdinfo_at fd p)) 0) as [Hz|Hz].
  2: { exists l. destruct H. constructor; try done. intros fd' Hz' _. apply po_pending0; [done|]. congruence. }
  pose proof (po_cached _ _ _ H fd Hc) as [_ Hr]. pose proof (po_size _ _ _ H) as Hs.
  assert (Hfd : fd ∉ l) by (rewrite <- (po_next _ _ _ H fd); tauto).
  set (i := mk_fdinfo _ _ _ _ _). exists (fd :: l).
  assert (HA : ∀ fd', fdinfo_at fd' (mk_pollset (ps_fdinfos (set_fdinfo fd i p))
    (ps_nfdinfos (set_fdinfo fd i p)) (fd + 1) (ps_kernel (set_fdinfo fd i p))) =
    if decide (fd = fd') then i else fdinfo_at fd' p) by apply (fdinfo_at_set fd i p).
  assert (Hcl : ps_changelist p ≠ 0).
  { pose proof (po_list _ _ _ H) as Hl. destruct l; simpl in Hl; [rewrite Hl; done|lia]. }
  constructor; [done| | |intros fd'; rewrite ?HA..].
  - cbn [changes ps_changelist]. rewrite HA, decide_True by done. split; [done|]. split; [exact Hr|].
    split; [exact Hcl|]. cbn [fi_next i]. apply changes_frame with p; [done| |apply (po_list _ _ _ H)].
    intros fd' Hfd'. rewrite HA, decide_False; [done|]. intros ->. done.
  - apply NoDup_cons. split; [done|apply (po_nodup _ _ _ H)].
  - rewrite elem_of_cons. destruct (decide (fd = fd')) as [<-|Hne]; [tauto|].
    rewrite (po_next _ _ _ H). intuition congruence.
  - intros Hn _. destruct (decide (fd = fd')) as [<-|Hne]; [done|].
    apply (po_pending _ _ _ H); [done|congruence].
  - cbn [ps_kernel set_fdinfo]. rewrite (po_kernel _ _ _ H fd').
    destruct (decide (fd = fd')) as [<-|]; done.
  - destruct (decide (fd = fd')) as [<-|]; [cbn [fi_cached i]; congruence|].
    apply (po_uncached _ _ _ H).
  - destruct (decide (fd = fd')) as [<-|]; [intros _; apply (po_cached _ _ _ H fd Hc)|].
    apply (po_cached _ _ _ H).
Qed.

Lemma add_change_cached fd fd' p : fi_cached (fdinfo_at fd (add_change fd' p)) = fi_cached (fdinfo_at fd p).
Proof.
  unfold add_change. destruct (_ =? 0); [|done].
  change (fdinfo_at fd (mk_pollset (ps_fdinfos ?q) _ _ _)) with (fdinfo_at fd q).
  rewrite fdinfo_at_set. by destruct (decide (fd' = fd)) as [->|].
Qed.

Lemma waiting_cached l p fd : pollset_ok_but None l p →
  is_Some (fi_in (fdinfo_at fd p)) ∨ is_Some (fi_out (fdinfo_at fd p)) → fi_cached (fdinfo_at fd p) = true.
Proof.
  intros H Hw. destruct (fi_cached (fdinfo_at fd p)) eqn:E; [done|].
  destruct (po_uncached _ _ _ H fd E) as (_ & Hf & _). unfold waits in Hf. injection Hf as H1 H2.
  apply bool_decide_eq_false in H1, H2. tauto.
Qed.

Lemma ok_fdcancelin fd w :
  pollset_ok (w_pollset w) → is_Some (fi_in (fdinfo_at fd (w_pollset w))) →
  pollset_ok (w_pollset (dill_fdcancelin fd w)).
Proof.
  intros [l H] Hin. pose proof (waiting_cached l _ fd H ltac:(by left)) as Hc.
  apply (ok_add_change l); [by apply ok_set_waits|]. by rewrite fdinfo_at_set, decide_True.
Qed.

Lemma ok_fdcancelout fd w :
  pollset_ok (w_pollset w) → is_Some (fi_out (fdinfo_at fd (w_pollset w))) →
  pollset_ok (w_pollset (dill_fdcancelout fd w)).
Proof.
  intros [l H] Hin. pose proof (waiting_cached l _ fd H ltac:(by right)) as Hc.
  apply (ok_add_change l); [by apply ok_set_waits|]. by rewrite fdinfo_at_set, decide_True.
Qed.

Lemma ok_cancel_clause c cl w w' :
  w_cls w !! c = Some cl → cl_cancel cl = NoCancel ∨ registered (cl_cancel cl) c w →
  cancel_clause c w = Some w' → pollset_ok (w_pollset w) → pollset_ok (w_pollset w').
Proof.
  intros Hcl Hr E H. unfold cancel_clause in E. rewrite Hcl in E. cbn [mbind option_bind] in E.
  destruct (cl_cancel cl) as [| | |fd|fd]; simpl in Hr.
  - by injection E as <-.
  - unfold dill_timer_cancel in E. destruct (bool_decide _); [|done]. rewrite Hcl in E. by injection E as <-.
  - unfold dill_chcancel in E. destruct (chan_linked c w); [|done]. by injection E as <-.
  - injection E as <-. destruct Hr as [?|Hr]; [done|]. apply ok_fdcancelin; [done|by eexists].
  - injection E as <-. destruct Hr as [?|Hr]; [done|]. apply ok_fdcancelout; [done|by eexists].
Qed.

(** ** Telling the kernel *)

Context (epoll_ctl : gmap Z events → ctl_op → Z → events → option errno_t).

(** What epoll promises about descriptors that stay open while they are cached. *)
Record epoll_laws : Prop := {
  law_add : ∀ k fd ev, pollable fd → k !! fd = None → epoll_ctl k CTL_ADD fd ev = None;
  law_mod : ∀ k fd ev, is_Some (k !! fd) → epoll_ctl k CTL_MOD fd ev = None;
  law_del : ∀ k fd ev, is_Some (k !! fd) → epoll_ctl k CTL_DEL fd ev = None;
  law_pollable : ∀ k fd ev, epoll_ctl k CTL_ADD fd ev = None → pollable fd;
}.
Context (laws : epoll_laws).

(** Only the bookkeeping differs: everybody waits for what he did. *)
Definition same_waits (p p' : dill_ctx_pollset) : Prop :=
  ∀ fd, fi_in (fdinfo_at fd p') = fi_in (fdinfo_at fd p) ∧ fi_out (fdinfo_at fd p') = fi_out (fdinfo_at fd p).

Lemma same_waits_eq p p' fd : same_waits p p' → waits (fdinfo_at fd p') = waits (fdinfo_at fd p).
Proof. intros H. unfold waits. by destruct (H fd) as [-> ->]. Qed.

(** The call to the kernel succeeds and leaves it with [ev]. *)
Lemma change_ctl (k : gmap Z events) fd (cur ev : events) :
  pollable fd → k !! fd = (if mask_empty cur then None else Some cur) → cur ≠ ev →
  let o := if mask_empty ev then CTL_DEL else if mask_empty cur then CTL_ADD else CTL_MOD in
  epoll_ctl k o fd ev = None ∧
  ∀ fd', ctl_effect o fd ev k !! fd' = if decide (fd = fd') then (if mask_empty ev then None else Some ev)
                                       else k !! fd'.
Proof.
  intros Hp Hk Hne o. unfold o. destruct (mask_empty ev) eqn:Ev.
  - assert (Hcur : mask_empty cur = false).
    { destruct cur as [[] []], ev as [[] []]; done. }
    rewrite Hcur in Hk. split; [apply (law_del laws); by eexists|]. intros fd'. cbn [ctl_effect].
    destruct (decide (fd = fd')) as [<-|]; [apply lookup_delete_eq|by apply lookup_delete_ne].
  - destruct (mask_empty cur).
    + split; [by apply (law_add laws)|]. intros fd'. cbn [ctl_effect]. rewrite lookup_insert. done.
    + split; [apply (law_mod laws); by eexists|]. intros fd'. cbn [ctl_effect]. rewrite lookup_insert. done.
Qed.

Lemma apply_change_ok fd l p :
  pollset_ok_but None (fd :: l) p →
  ∃ p', apply_change epoll_ctl p = Some p' ∧ pollset_ok_but None l p' ∧ same_waits p p'.
Proof.
  intros H. pose proof (po_list _ _ _ H) as (Hcl & Hr & Hn & Hl).
  pose proof (po_nodup _ _ _ H) as Hnd. apply NoDup_cons in Hnd as [Hfd Hnd].
  unfold apply_change. replace (ps_changelist p - 1) with fd by lia.
  set (i := fdinfo_at fd p) in *. fold (waits i).
  assert (Hcached : fi_cached i = true).
  { destruct (fi_cached i) eqn:E; [done|]. by destruct (po_uncached _ _ _ H fd E) as (_ & _ & ?). }
  destruct (po_cached _ _ _ H fd Hcached) as [Hp _].
  assert (Hk : ∃ k, (if bool_decide (fi_currevs i = waits i) then Some (ps_kernel p)
      else
       match
         epoll_ctl (ps_kernel p) (if mask_empty (waits i) then CTL_DEL
             else if mask_empty (fi_currevs i) then CTL_ADD else CTL_MOD) fd (waits i)
       with
       | Some _ => None
       | None => Some (ctl_effect (if mask_empty (waits i) then CTL_DEL
             else if mask_empty (fi_currevs i) then CTL_ADD else CTL_MOD) fd (waits i) (ps_kernel p))
       end) = Some k ∧ ∀ fd', k !! fd' = if decide (fd = fd') then
         (if mask_empty (waits i) then None else Some (waits i)) else ps_kernel p !! fd').
  { case_bool_decide as Hev.
    - exists (ps_kernel p). split; [done|]. intros fd'. destruct (decide (fd = fd')) as [<-|]; [|done].
      rewrite (po_kernel _ _ _ H fd). fold i. by rewrite Hev.
    - destruct (change_ctl (ps_kernel p) fd (fi_currevs i) (waits i) Hp (po_kernel _ _ _ H fd) Hev)
        as [-> Hk]. by eexists. }
  destruct Hk as (k & -> & Hk). cbn [mbind option_bind]. eexists. split; [reflexivity|].
  set (i' := mk_fdinfo (fi_in i) (fi_out i) (waits i) 0 (fi_cached i)). set (p' := mk_pollset _ _ _ _).
  assert (HA : ∀ fd', fdinfo_at fd' p' = if decide (fd = fd') then i' else fdinfo_at fd' p)
    by apply (fdinfo_at_set fd i' p).
  split.
  2: { intros fd'. rewrite HA. by destruct (decide (fd = fd')) as [<-|]. }
  constructor; [apply (po_size _ _ _ H)| |done|intros fd'; rewrite ?HA..].
  - cbn [ps_changelist p']. apply changes_frame with p; [done| |exact Hl].
    intros fd' Hfd'. rewrite HA, decide_False; [done|]. by intros ->.
  - pose proof (po_next _ _ _ H fd') as HN. rewrite elem_of_cons in HN.
    destruct (decide (fd = fd')) as [<-|]; [simpl; tauto|]. rewrite HN. intuition congruence.
  - destruct (decide (fd = fd')) as [<-|]; [done|]. intros Hz _. by apply (po_pending _ _ _ H).
  - cbn [ps_kernel p']. rewrite Hk. destruct (decide (fd = fd')) as [<-|]; [done|].
    apply (po_kernel _ _ _ H).
  - destruct (decide (fd = fd')) as [<-|]; [cbn [fi_cached i']; congruence|]. apply (po_uncached _ _ _ H).
  - destruct (decide (fd = fd')) as [<-|]; [intros _; by apply (po_cached _ _ _ H)|].
    apply (po_cached _ _ _ H).
Qed.

Lemma changes_length p l : ∀ idx, changes p idx l → NoDup l → (length l ≤ Z.to_nat (ps_nfdinfos p))%nat.
Proof.
  intros idx Hc Hnd.
  assert (Hr : ∀ fd, fd ∈ l → 0 ≤ fd < ps_nfdinfos p).
  { clear Hnd. revert idx Hc. induction l as [|x l IH]; intros idx Hc fd Hfd; [by apply elem_of_nil in Hfd|].
    destruct Hc as (_ & Hx & _ & Hc). apply elem_of_cons in Hfd as [->|Hfd]; [done|by eapply IH]. }
  rewrite <- (length_seqZ 0 (ps_nfdinfos p)). apply submseteq_length, NoDup_submseteq; [done|].
  intros fd Hfd. apply elem_of_seqZ. specialize (Hr fd Hfd). lia.
Qed.

Lemma apply_changes_ok l : ∀ p fuel,
  pollset_ok_but None l p → (length l ≤ fuel)%nat →
  ∃ p', apply_changes epoll_ctl fuel p = Some p' ∧ pollset_ok_but None [] p' ∧ same_waits p p'.
Proof.
  induction l as [|fd l IH]; intros p fuel H Hf.
  - exists p. pose proof (po_list _ _ _ H) as E. simpl in E.
    split; [destruct fuel; cbn [apply_changes]; by rewrite E|done].
  - pose proof (po_list _ _ _ H) as (E & Hr & _). pose proof (po_size _ _ _ H) as Hs.
    destruct fuel as [|fuel]; [simpl in Hf; lia|]. cbn [apply_changes].
    destruct (Z.eqb_spec (ps_changelist p) DILL_ENDLIST) as [E2|_]; [unfold DILL_ENDLIST in E2; lia|].
    destruct (apply_change_ok fd l p H) as (p1 & -> & H1 & Hw1). cbn [mbind option_bind].
    destruct (IH p1 fuel H1 ltac:(simpl in Hf; lia)) as (p2 & -> & H2 & Hw2).
    exists p2. split; [done|]. split; [done|]. intros fd'. destruct (Hw1 fd') as [A1 A2].
    destruct (Hw2 fd') as [B1 B2]. by rewrite B1, B2, A1, A2.
Qed.

(** What the kernel is asked for when nothing is out of date. *)
Lemma synced p fd : pollset_ok_but None [] p →
  ps_kernel p !! fd = if mask_empty (waits (fdinfo_at fd p)) then None else Some (waits (fdinfo_at fd p)).
Proof.
  intros H. rewrite (po_kernel _ _ _ H fd), (po_pending _ _ _ H fd); [done| |done].
  destruct (Z.eq_dec (fi_next (fdinfo_at fd p)) 0) as [|Hn]; [done|].
  apply (po_next _ _ _ H) in Hn. by apply elem_of_nil in Hn.
Qed.

(** C14. Polling brings the kernel up to date: from a consistent pollset, the first
    loop of [dill_pollset_poll] terminates within one turn per descriptor, no call
    to epoll_ctl fails (so its assertion holds), and afterwards the changelist is
    empty and the kernel is asked, for every descriptor, for exactly the events
    that some coroutine waits for; who waits for what is not changed. *)
Theorem apply_changes_syncs p :
  pollset_ok p →
  ∃ p', apply_changes epoll_ctl (S (Z.to_nat (ps_nfdinfos p))) p = Some p' ∧
    pollset_ok p' ∧ ps_changelist p' = DILL_ENDLIST ∧ same_waits p p' ∧
    ∀ fd, ps_kernel p' !! fd =
      if mask_empty (waits (fdinfo_at fd p)) then None else Some (waits (fdinfo_at fd p)).
Proof.
  intros [l H]. destruct (apply_changes_ok l p (S (Z.to_nat (ps_nfdinfos p))) H) as (p' & E & H' & Hw).
  { pose proof (changes_length p l _ (po_list _ _ _ H) (po_nodup _ _ _ H)). lia. }
  exists p'. split; [done|]. split; [by exists []|]. split; [apply (po_list _ _ _ H')|]. split; [done|].
  intros fd. by rewrite (synced p' fd H'), (same_waits_eq p p' fd Hw).
Qed.
End Invariant.

(** * A concrete kernel and pollset *)

Definition demo_epoll (k : gmap Z events) (o : ctl_op) (fd : Z) (ev : events) : option errno_t :=
  match o, k !! fd with
  | CTL_ADD, Some _ => Some EEXIST
  | CTL_ADD, None => None
  | _, Some _ => None
  | _, None => Some ENOENT
  end.

Lemma demo_laws : epoll_laws (λ _, True) demo_epoll.
Proof.
  constructor; unfold demo_epoll; try done.
  - by intros k fd ev _ ->.
  - by intros k fd ev [x ->].
  - by intros k fd ev [x ->].
Qed.

(** Descriptor 3: clause 902 waits to receive, which the kernel has not been told. *)
Definition demo_fdinfo : dill_fdinfo := mk_fdinfo (Some 902) None (false, false) DILL_ENDLIST true.
Definition demo_pollset : dill_ctx_pollset := mk_pollset {[3 := demo_fdinfo]} 16 4 ∅.

Lemma demo_fdinfo_at fd : fdinfo_at fd demo_pollset = if decide (3 = fd) then demo_fdinfo else no_fdinfo.
Proof.
  unfold fdinfo_at, demo_pollset. cbn [ps_fdinfos]. rewrite lookup_singleton.
  by destruct (decide (3 = fd)).
Qed.

Lemma demo_pollset_ok : pollset_ok (λ _, True) demo_pollset.
Proof.
  exists [3]. constructor; try (intros fd; rewrite demo_fdinfo_at).
  - cbn. lia.
  - cbn [changes]. rewrite demo_fdinfo_at. cbn. repeat split; done.
  - apply NoDup_singleton.
  - rewrite list_elem_of_singleton. destruct (decide (3 = fd)) as [<-|Hne]; [done|].
    cbn. split; [done|]. intros ->. done.
  - by destruct (decide (3 = fd)).
  - by destruct (decide (3 = fd)).
  - by destruct (decide (3 = fd)).
  - destruct (decide (3 = fd)) as [<-|]; [cbn; lia|done].
Qed.

Lemma apply_changes_syncs_witness :
  ∃ p', apply_changes demo_epoll 17 demo_pollset = Some p' ∧ ps_changelist p' = DILL_ENDLIST ∧
    ps_kernel p' !! 3 = Some (true, false).
Proof.
  destruct (apply_changes_syncs (λ _, True) demo_epoll demo_laws demo_pollset demo_pollset_ok)
    as (p' & E & _ & Hc & _ & Hk).
  exists p'. split; [exact E|]. split; [exact Hc|]. exact (Hk 3).
Defined.
