(* ===== verification/Waitspec.v ===== *)
(** The waiting loop of [dill_wait]: it never crashes, it resumes the coroutine that
    has been ready longest, and timers fire in the order of their deadlines. *)

From S2P Require Import Prelude Handle World Cr Chan Chanspec Sched Pollspec.
From Stdlib Require Import ZArith Lia.
From stdpp Require Import base gmap list.
Open Scope Z_scope.

Section Wait.
Context (pollable : Z → Prop).
Context (epoll_ctl : gmap Z events → ctl_op → Z → events → option errno_t).
Context (laws : epoll_laws pollable epoll_ctl).

Local Abbreviation pollset_ok := (pollset_ok pollable).

(** * Steps of the scheduler *)

(** From [w] the scheduler made more coroutines ready and did nothing else to the
    coroutines. *)
Record sched_step (w w' : world) : Prop := {
  ss_wf : wf w';
  ss_pollset : pollset_ok (w_pollset w');
  ss_ready : ∃ l, w_ready w' = w_ready w ++ l;
  ss_timers : ∀ t, t ∈ w_timers w' → t ∈ w_timers w;
  ss_crs : ∀ i x, w_crs w !! i = Some x → ∃ x', w_crs w' !! i = Some x' ∧ clauses x' = clauses x;
  ss_dom : dom (w_crs w') = dom (w_crs w);
  ss_kind : ∀ c cl, w_cls w !! c = Some cl → ∃ cl', w_cls w' !! c = Some cl' ∧ cl_cancel cl' = cl_cancel cl;
  ss_mem : w_mem w' = w_mem w;
}.

Lemma sched_refl w : wf w → pollset_ok (w_pollset w) → sched_step w w.
Proof.
  intros H Hp. constructor; try done; [by exists []; rewrite app_nil_r| |].
  - intros i x Hx. by exists x.
  - intros c cl Hc. by exists cl.
Qed.

Lemma sched_trans w1 w2 w3 : sched_step w1 w2 → sched_step w2 w3 → sched_step w1 w3.
Proof.
  intros [A1 A2 [l1 A3] A4 A5 A6 A8 A7] [B1 B2 [l2 B3] B4 B5 B6 B8 B7]. constructor; try done; try congruence.
  - exists (l1 ++ l2). by rewrite B3, A3, app_assoc.
  - auto.
  - intros i x Hx. destruct (A5 i x Hx) as (x1 & Hx1 & E1). destruct (B5 i x1 Hx1) as (x2 & Hx2 & E2).
    exists x2. split; [done|congruence].
  - intros c cl Hc. destruct (A8 c cl Hc) as (cl1 & Hc1 & E1). destruct (B8 c cl1 Hc1) as (cl2 & Hc2 & E2).
    exists cl2. split; [done|congruence].
Qed.

Definition cached_same (p p' : dill_ctx_pollset) : Prop :=
  ∀ fd, fi_cached (fdinfo_at fd p') = fi_cached (fdinfo_at fd p).

Lemma cancel_clause_cached c w w' :
  cancel_clause c w = Some w' → cached_same (w_pollset w) (w_pollset w').
Proof.
  intros E fd. unfold cancel_clause in E. destruct (w_cls w !! c) as [cl|] eqn:Hcl; [|done].
  cbn [mbind option_bind] in E. destruct (cl_cancel cl) as [| | |f|f].
  - by injection E as <-.
  - unfold dill_timer_cancel in E. destruct (bool_decide _); [|done]. rewrite Hcl in E. by injection E as <-.
  - unfold dill_chcancel in E. destruct (chan_linked c w); [|done]. by injection E as <-.
  - injection E as <-. unfold dill_fdcancelin. cbn [w_pollset set_pollset].
    rewrite add_change_cached, fdinfo_at_set. by destruct (decide (f = fd)) as [->|].
  - injection E as <-. unfold dill_fdcancelout. cbn [w_pollset set_pollset].
    rewrite add_change_cached, fdinfo_at_set. by destruct (decide (f = fd)) as [->|].
Qed.

Lemma ok_cancel_clauses cs : ∀ w w',
  kinds_ok w → NoDup cs → cancelable cs w →
  cancel_clauses cs w = Some w' → pollset_ok (w_pollset w) →
  pollset_ok (w_pollset w') ∧ cached_same (w_pollset w) (w_pollset w').
Proof.
  induction cs as [|c cs IH]; intros w w' Hk Hnd Hcs E H; cbn [cancel_clauses] in E; [by injection E as <-|].
  apply NoDup_cons in Hnd as [Hc Hnd]. destruct (Hcs c ltac:(left)) as (cl & Hcl & Hr).
  destruct (cancel_clause_spec c cl w Hk Hcl Hr) as (m1 & p1 & E1 & Hm1 & Hp1).
  rewrite E1 in E. cbn [mbind option_bind] in E.
  pose proof (ok_cancel_clause pollable c cl w _ Hcl Hr E1 H) as H1.
  pose proof (cancel_clause_cached c w _ E1) as Hc1.
  destruct (cancelled_rest c cs m1 p1 w Hk Hc ltac:(intros x Hx; apply Hcs; by right) Hm1 Hp1) as [Hk1 Hcs1].
  destruct (IH _ w' Hk1 Hnd Hcs1 E H1) as [H2 Hc2].
  split; [done|]. intros fd. by rewrite Hc2, Hc1.
Qed.

(** Triggering a linked clause, by the scheduler. *)
Lemma trigger_sched w k c err :
  wf w → pollset_ok (w_pollset w) → registered k c w →
  ∃ w' i x, dill_trigger c err w = Some w' ∧ sched_step w w' ∧ cached_same (w_pollset w) (w_pollset w') ∧
    w_crs w !! i = Some x ∧ c ∈ clauses x ∧ w_ready w' = w_ready w ++ [i] ∧
    (∀ k' c', registered k' c' w' ↔ registered k' c' w ∧ c' ∉ clauses x) ∧
    w_now w' = w_now w ∧ w_polls w' = w_polls w ∧ w_timers w' = filter (λ t, t.2 ∉ clauses x) (w_timers w).
Proof.
  intros H Hp Hr. destruct (wf_registered _ H k c Hr) as (cl & x & Hcl & Hk & Hx & Hxl & Hin).
  destruct (docancel_spec w (cl_cr cl) x (cl_id cl) err H Hx Hxl) as (m & p & E & Hm & Hfd & Hwf).
  exists (woken (cl_cr cl) x (cl_id cl) err m p w), (cl_cr cl), x.
  pose proof (wf_cancelable w _ x H Hx Hxl) as HC.
  destruct (cancel_clauses_spec (clauses x) w (wf_kinds w H) (wf_clauses_nodup _ H _ x Hx) HC)
    as (m' & p' & E' & _ & _).
  assert (Epp : p' = p).
  { unfold dill_docancel in E. rewrite Hx in E. cbn [mbind option_bind] in E. rewrite Hxl, E' in E.
    cbn [mbind option_bind] in E. unfold dill_resume, upd_cr in E.
    change (w_crs (cancelled (clauses x) m' p' w)) with (w_crs w) in E. rewrite Hx in E.
    cbn [mbind option_bind] in E. injection E. by intros. }
  subst p'. destruct (ok_cancel_clauses (clauses x) w _ (wf_kinds w H) (wf_clauses_nodup _ H _ x Hx) HC E' Hp)
    as [Hp' Hca].
  split; [unfold dill_trigger; rewrite Hcl; exact E|]. split.
  { constructor; [done|exact Hp'|by exists [cl_cr cl]| | | | |done].
    - intros t Ht. by apply list_elem_of_filter in Ht as [_ ?].
    - intros i y Hy. cbn. destruct (decide (cl_cr cl = i)) as [<-|Hne].
      + exists (resumed (cl_id cl) err x). rewrite lookup_insert_eq. split; [done|]. by simplify_eq.
      + exists y. by rewrite lookup_insert_ne.
    - cbn. apply dom_insert_lookup_L. by exists x.
    - intros c' cl' Hc'. cbn. specialize (Hm c'). rewrite Hc' in Hm. destruct Hm as (cl2 & ? & _ & ? & _).
      by exists cl2. }
  split; [exact Hca|]. split; [done|]. split; [done|]. split; [done|]. split; [|done].
  intros k' c'. rewrite <- (registered_cancelled (clauses x) m p w Hfd). by destruct k'.
Qed.

(** * Timers *)

(** The timers are in the order of their deadlines. *)
Fixpoint timers_sorted (ts : list (Z * Z)) : Prop :=
  match ts with
  | [] => True
  | t :: ts => (∀ t', t' ∈ ts → t.1 ≤ t'.1) ∧ timers_sorted ts
  end.

Lemma timer_insert_sorted d c ts : timers_sorted ts → timers_sorted (timer_insert d c ts).
Proof.
  induction ts as [|[d' c'] ts IH]; intros H; simpl.
  - split; [|done]. intros t Ht. by apply elem_of_nil in Ht.
  - destruct H as [H1 H2]. simpl in H1. destruct (Z.ltb_spec d d'); simpl; (split; [|try done]).
    + intros t [->|Ht]%elem_of_cons; simpl; [lia|]. specialize (H1 t Ht). lia.
    + intros t [->|Ht]%timer_insert_in; simpl; [lia|by apply H1].
    + by apply IH.
Qed.

Lemma timers_sorted_filter (P : Z * Z → Prop) `{∀ x, Decision (P x)} ts :
  timers_sorted ts → timers_sorted (filter P ts).
Proof.
  induction ts as [|t ts IH]; intros Hs; [done|]. destruct Hs as [H1 H2]. destruct (decide (P t)).
  - rewrite filter_cons_True by done. split; [|by apply IH].
    intros t' Ht'. apply list_elem_of_filter in Ht' as [_ Ht']. by apply H1.
  - rewrite filter_cons_False by done. by apply IH.
Qed.

Lemma fire_timers_ok nw fuel : ∀ fired w,
  wf w → pollset_ok (w_pollset w) → timers_sorted (w_timers w) → (length (w_timers w) ≤ fuel)%nat →
  ∃ fired' w', fire_timers fuel nw fired w = Some (fired', w') ∧ sched_step w w' ∧
    timers_sorted (w_timers w') ∧ (∀ t, t ∈ w_timers w' → nw < t.1) ∧
    w_now w' = w_now w ∧ w_polls w' = w_polls w ∧
    (fired' = true → fired = true ∨ w_ready w' ≠ []) ∧
    (fired' = false → fired = false ∧ w' = w).
Proof.
  induction fuel as [|fuel IH]; intros fired w H Hp Hs Hf; cbn [fire_timers];
    destruct (w_timers w) as [|[d c] ts] eqn:Et; simpl in Hf; try lia.
  1,2: exists fired, w; (split; [done|]; split; [by apply sched_refl|]; rewrite Et; split; [done|];
    split; [intros t Ht; by apply elem_of_nil in Ht|by auto 6]).
  destruct Hs as [Hs1 Hs2]. simpl in Hs1. destruct (Z.ltb_spec nw d) as [Hd|Hd].
  { exists fired, w. split; [done|]. split; [by apply sched_refl|]. rewrite Et. split; [by split|].
    split; [|by auto 6]. intros t [->|Ht]%elem_of_cons; simpl; [done|]. specialize (Hs1 t Ht). lia. }
  assert (Hr : registered TimerCancel c w).
  { simpl. rewrite Et. left. }
  destruct (trigger_sched w TimerCancel c ETIMEDOUT H Hp Hr)
    as (w1 & i & x & E & Hst & _ & _ & Hin & Hrd & _ & En & Epo & Eti).
  rewrite E. cbn [mbind option_bind].
  assert (Hlen : (length (w_timers w1) ≤ fuel)%nat).
  { pose proof (filter_length_lt (λ t : Z * Z, t.2 ∉ clauses x) (w_timers w) (d, c)) as Hlt.
    rewrite <- Eti, Et in Hlt. simpl in Hlt. specialize (Hlt ltac:(left) ltac:(tauto)). lia. }
  destruct (IH true w1 (ss_wf _ _ Hst) (ss_pollset _ _ Hst)) as (f' & w2 & E2 & Hst2 & Hs' & Hall & En2 & Ep2 & Ht & Hfa).
  { rewrite Eti. apply timers_sorted_filter. rewrite Et. by split. }
  { done. }
  exists f', w2. split; [done|]. split; [by eapply sched_trans|]. split; [done|]. split; [done|].
  split; [congruence|]. split; [congruence|]. split.
  - intros _. right. destruct (ss_ready _ _ Hst2) as [l ->]. rewrite Hrd. by destruct (w_ready w).
  - intros Hf'. by destruct (Hfa Hf') as [? _].
Qed.

(** * Events *)

(** What the kernel reports is part of what it was asked for; errors and hang-ups
    are reported for every descriptor it watches. *)
Definition reports (inp : poll_input) (k : gmap Z events) : Prop :=
  ∀ fd e_in e_out e_err, (fd, (e_in, e_out, e_err)) ∈ pi_events inp →
    ∃ m, k !! fd = Some m ∧ (e_in = true → m.1 = true) ∧ (e_out = true → m.2 = true) ∧
      e_in || e_out || e_err = true.

(** [k] asks for exactly what is waited for. *)
Definition interest_of (p : dill_ctx_pollset) (k : gmap Z events) : Prop :=
  ∀ fd, k !! fd = if mask_empty (waits (fdinfo_at fd p)) then None else Some (waits (fdinfo_at fd p)).

Lemma registered_pollset p w :
  same_waits (w_pollset w) p → ∀ k c, registered k c (set_pollset p w) ↔ registered k c w.
Proof. intros H k c. destruct k as [| | |fd|fd]; simpl; try done; destruct (H fd) as [E1 E2]; by rewrite ?E1, ?E2. Qed.

Lemma wf_set_pollset p w : same_waits (w_pollset w) p → wf w → wf (set_pollset p w).
Proof.
  intros Hs H. pose proof (registered_pollset p w Hs) as HR. destruct H. constructor; try done.
  - intros k c Hc. apply wf_registered. by apply HR.
  - intros i x c Hx Hl Hc. destruct (wf_clauses i x c Hx Hl Hc) as (cl & ? & ? & Hk). exists cl.
    repeat (split; [done|]). destruct Hk as [?|?]; [by left|right]. by apply HR.
Qed.

Lemma sched_pollset p w :
  same_waits (w_pollset w) p → pollset_ok p → wf w → sched_step w (set_pollset p w).
Proof.
  intros Hs Hp H. constructor; try done; [by apply wf_set_pollset|by exists []; rewrite app_nil_r| |].
  - intros i x Hx. by exists x.
  - intros c cl Hc. by exists cl.
Qed.

(** What does not change while events fire. *)
Definition quiet (w w' : world) : Prop :=
  w_now w' = w_now w ∧ w_polls w' = w_polls w ∧ (timers_sorted (w_timers w) → timers_sorted (w_timers w')).

(** One side of an event: trigger the waiting clause, put the descriptor in the
    changelist if it is not there. *)
Lemma fire_side_ok (f : dill_fdinfo → option Z) (k : Z → cancel_fn) fd c w :
  (∀ fd c w, registered (k fd) c w ↔ f (fdinfo_at fd (w_pollset w)) = Some c) →
  f = fi_in ∨ f = fi_out →
  wf w → pollset_ok (w_pollset w) → f (fdinfo_at fd (w_pollset w)) = Some c →
  ∃ w', (w ← dill_trigger c E0 w;
      Some (match f (fdinfo_at fd (w_pollset w)) with
            | None => set_pollset (add_change fd (w_pollset w)) w
            | Some _ => w end)) = Some w' ∧
    sched_step w w' ∧ (length (w_ready w) < length (w_ready w'))%nat ∧ quiet w w'.
Proof.
  intros Hk Hf H Hp Hc. pose proof Hp as [l Hl].
  assert (Hcached : fi_cached (fdinfo_at fd (w_pollset w)) = true).
  { eapply waiting_cached; [exact Hl|]. destruct Hf as [->| ->]; [left|right]; by eexists. }
  destruct (trigger_sched w (k fd) c E0 H Hp ltac:(by apply Hk))
    as (w1 & i & x & E & Hst & Hca & _ & _ & Hrd & _ & En & Epo & Eti).
  rewrite E. cbn [mbind option_bind]. eexists. split; [reflexivity|].
  assert (Hq : quiet w w1).
  { repeat (split; [done|]). rewrite Eti. apply timers_sorted_filter. }
  assert (Hne : (length (w_ready w) < length (w_ready w1))%nat) by (rewrite Hrd, length_app; simpl; lia).
  destruct (f (fdinfo_at fd (w_pollset w1))); (split; [|by split]); [exact Hst|]. eapply sched_trans; [exact Hst|].
  pose proof (ss_pollset _ _ Hst) as [l1 Hl1]. apply sched_pollset; [| |apply (ss_wf _ _ Hst)].
  - intros fd'. apply add_change_clauses.
  - apply (ok_add_change pollable l1); [|by rewrite Hca].
    destruct Hl1. constructor; try done. intros fd' Hz _. by apply po_pending.
Qed.

Lemma quiet_refl w : quiet w w.
Proof. by repeat split. Qed.

Lemma quiet_trans w1 w2 w3 : quiet w1 w2 → quiet w2 w3 → quiet w1 w3.
Proof. intros (A & B & C) (A' & B' & C'). split; [congruence|]. split; [congruence|auto]. Qed.

Lemma ready_grows w w' : sched_step w w' → w_ready w ≠ [] → w_ready w' ≠ [].
Proof. intros Hst Hn. destruct (ss_ready _ _ Hst) as [l ->]. by destruct (w_ready w). Qed.

(** One direction of an event: whoever waits for it is triggered. *)
Lemma fire_half_ok (f : dill_fdinfo → option Z) (k : Z → cancel_fn) fd (b : bool) w :
  (∀ fd c w, registered (k fd) c w ↔ f (fdinfo_at fd (w_pollset w)) = Some c) →
  f = fi_in ∨ f = fi_out → wf w → pollset_ok (w_pollset w) →
  ∃ w', match f (fdinfo_at fd (w_pollset w)) with
      | Some c =>
        if b then
          w ← dill_trigger c E0 w;
          Some (match f (fdinfo_at fd (w_pollset w)) with
                | None => set_pollset (add_change fd (w_pollset w)) w
                | Some _ => w
                end)
        else Some w
      | None => Some w
      end = Some w' ∧ sched_step w w' ∧ quiet w w' ∧
    (bool_decide (is_Some (f (fdinfo_at fd (w_pollset w)))) && b = true → w_ready w' ≠ []) ∧
    (w_ready w' = w_ready w → w' = w).
Proof.
  intros Hk Hf H Hp. assert (Hnone : sched_step w w ∧ quiet w w) by (split; [by apply sched_refl|apply quiet_refl]).
  destruct (f (fdinfo_at fd (w_pollset w))) as [c|] eqn:Ei.
  2: { exists w. rewrite bool_decide_false by (by intros []). split; [done|]. by destruct Hnone. }
  destruct b; [|exists w; rewrite andb_false_r; split; [done|]; by destruct Hnone].
  destruct (fire_side_ok f k fd c w Hk Hf H Hp Ei) as (w1 & E & Hst & Hne & Hq).
  exists w1. split; [exact E|]. split; [done|]. split; [done|].
  split; [intros _ Hnil; rewrite Hnil in Hne; simpl in Hne; lia|]. intros Er. rewrite Er in Hne. lia.
Qed.

Lemma fire_event_ok fd e_in e_out e_err w :
  wf w → pollset_ok (w_pollset w) →
  ∃ w', fire_event fd (e_in, e_out, e_err) w = Some w' ∧ sched_step w w' ∧ quiet w w' ∧
    (let m := waits (fdinfo_at fd (w_pollset w)) in
     (m.1 && (e_in || e_err)) || (m.2 && (e_out || e_err)) = true → w_ready w' ≠ []).
Proof.
  intros H Hp. unfold fire_event.
  destruct (fire_half_ok fi_in FdCancelIn fd (e_in || e_err) w ltac:(done) ltac:(by left) H Hp)
    as (w1 & -> & Hst1 & Hq1 & Hn1 & Hsame). cbn [mbind option_bind].
  destruct (fire_half_ok fi_out FdCancelOut fd (e_out || e_err) w1 ltac:(done) ltac:(by right) (ss_wf _ _ Hst1) (ss_pollset _ _ Hst1))
    as (w2 & -> & Hst2 & Hq2 & Hn2 & _). exists w2. split; [done|].
  split; [by eapply sched_trans|]. split; [by eapply quiet_trans|].
  cbv zeta; intros [Hm|Hm]%orb_prop; [by apply (ready_grows _ _ Hst2), Hn1|].
  assert (Hd : w_ready w1 = [] ∨ w_ready w1 ≠ []) by (destruct (w_ready w1); [by left|by right]).
  destruct Hd as [Er|Er]; [|by apply (ready_grows _ _ Hst2)].
  apply Hn2. destruct (ss_ready _ _ Hst1) as [l El]. rewrite Er in El.
  symmetry in El. apply app_eq_nil in El as [El _]. rewrite (Hsame ltac:(congruence)). exact Hm.
Qed.

Lemma fire_events_ok evs : ∀ w,
  wf w → pollset_ok (w_pollset w) →
  ∃ w', fire_events evs w = Some w' ∧ sched_step w w' ∧ quiet w w' ∧
    ((∃ fd e_in e_out e_err evs', evs = (fd, (e_in, e_out, e_err)) :: evs' ∧
      let m := waits (fdinfo_at fd (w_pollset w)) in
      (m.1 && (e_in || e_err)) || (m.2 && (e_out || e_err)) = true) → w_ready w' ≠ []).
Proof.
  induction evs as [|[fd [[e_in e_out] e_err]] evs IH]; intros w H Hp; cbn [fire_events].
  { exists w. split; [done|]. split; [by apply sched_refl|]. split; [apply quiet_refl|].
    by intros (? & ? & ? & ? & ? & ? & _). }
  destruct (fire_event_ok fd e_in e_out e_err w H Hp) as (w1 & -> & Hst1 & Hq1 & Hn1).
  cbn [mbind option_bind].
  destruct (IH w1 (ss_wf _ _ Hst1) (ss_pollset _ _ Hst1)) as (w2 & -> & Hst2 & Hq2 & _).
  exists w2. split; [done|]. split; [by eapply sched_trans|]. split; [by eapply quiet_trans|].
  intros (fd' & a & b & d & evs' & [= <- <- <- <- <-] & Hm). apply (ready_grows _ _ Hst2). by apply Hn1.
Qed.

(** * The loop *)

Lemma pop_ready_ok w c rest :
  wf w → w_ready w = c :: rest →
  ∃ w' x, pop_ready w = SRun w' ∧ resumable w' ∧ w_r w' = c ∧ w_ready w' = rest ∧
    w_crs w !! c = Some x ∧ ready_linked x = true ∧
    (∀ i, i ≠ c → w_crs w' !! i = w_crs w !! i) ∧ dom (w_crs w') = dom (w_crs w) ∧
    w_pollset w' = w_pollset w ∧ w_timers w' = w_timers w ∧ w_last_poll w' = w_last_poll w ∧
    w_mem w' = w_mem w.
Proof.
  intros H Hr. pose proof (wf_ready_nodup _ H) as Hnd. rewrite Hr in Hnd. apply NoDup_cons in Hnd as [Hc Hnd].
  pose proof (wf_ready _ H) as HW.
  destruct (proj1 (HW c) ltac:(rewrite Hr; left)) as (x & Hx & Hl).
  unfold pop_ready. rewrite Hr, Hx. set (x' := mk_cr false _ _ _ _ _ _ _ _ _).
  eexists _, x. split; [reflexivity|]. split; [|split; [done|]; split; [done|]; split; [done|]; split; [done|]].
  2: { split; [intros i Hi; cbn; by rewrite lookup_insert_ne|].
       split; [cbn; apply dom_insert_lookup_L; by exists x|done]. }
  exists x'. split; [cbn; apply lookup_insert_eq|]. split.
  2: { exists (clear_clauses x'). cbn. by rewrite lookup_insert_eq. }
  cbn [w_crs set_r set_ready set_crs w_r]. rewrite insert_insert_eq.
  set (w' := set_crs _ _).
  assert (HR : ∀ k c', registered k c' w' ↔ registered k c' w) by (by intros []).
  assert (Hreg : ∀ k c' cl, registered k c' w → w_cls w !! c' = Some cl → cl_cr cl ≠ c).
  { intros k c' cl Hk Hcl E. destruct (wf_registered _ H k c' Hk) as (cl' & y & Hcl' & _ & Hy & Hyl & _).
    simplify_eq. congruence. }
  destruct H. constructor; try done; cbn [w' w_ready w_crs set_crs set_r set_ready].
  - intros i. rewrite lookup_insert. destruct (decide (c = i)) as [<-|Hne].
    + split; [done|]. intros (y & [= <-] & Hy). done.
    + rewrite <- HW, Hr, elem_of_cons. intuition congruence.
  - intros k c' Hk. apply HR in Hk. destruct (wf_registered k c' Hk) as (cl & y & Hcl & E & Hy & Hyl & Hin).
    exists cl, y. repeat (split; [done|]). rewrite lookup_insert_ne; [done|]. intros Ec.
    by apply (Hreg k c' cl Hk Hcl).
  - intros i y c' Hy Hyl Hin. rewrite lookup_insert in Hy. destruct (decide (c = i)) as [<-|Hne].
    { injection Hy as <-. by apply elem_of_nil in Hin. }
    destruct (wf_clauses i y c' Hy Hyl Hin) as (cl & ? & ? & Hk). exists cl. repeat (split; [done|]).
    destruct Hk as [?|Hk]; [by left|right]. by apply HR.
  - intros i y Hy. rewrite lookup_insert in Hy. destruct (decide (c = i)) as [<-|Hne].
    + injection Hy as <-. apply NoDup_nil. exact I.
    + by apply (wf_clauses_nodup i).
Qed.

(** One poll: the world in which the events have fired. *)
Lemma pollset_poll_ok inp w :
  wf w → pollset_ok (w_pollset w) → (∀ k, interest_of (w_pollset w) k → reports inp k) →
  ∃ r w', dill_pollset_poll epoll_ctl inp w = Some (r, w') ∧ sched_step w w' ∧
    w_polls w' = w_polls w ∧ (timers_sorted (w_timers w) → timers_sorted (w_timers w')) ∧
    (r = -1 ∨ r = 0 ∨ r = 1) ∧
    (r = 1 → w_ready w' ≠ []) ∧
    (r ≠ 1 → w_ready w' = w_ready w ∧ w_timers w' = w_timers w ∧ same_waits (w_pollset w) (w_pollset w')).
Proof.
  intros H [l Hl] Hrep. unfold dill_pollset_poll.
  destruct (apply_changes_ok pollable epoll_ctl laws l (w_pollset w) (S (Z.to_nat (ps_nfdinfos (w_pollset w)))) Hl)
    as (p & -> & Hp & Hsame).
  { pose proof (changes_length (w_pollset w) l _ (po_list _ _ _ _ Hl) (po_nodup _ _ _ _ Hl)). lia. }
  cbn [mbind option_bind].
  assert (Hint : interest_of (w_pollset w) (ps_kernel p)).
  { intros fd. by rewrite (synced pollable p fd Hp), (same_waits_eq _ p fd Hsame). }
  specialize (Hrep _ Hint). set (w1 := set_now (pi_now inp) (set_pollset p w)).
  assert (Hst : sched_step w w1).
  { pose proof (sched_pollset p w Hsame ltac:(by exists []) H) as [S1 S2 S3 S4 S5 S6 S7 S8].
    constructor; try done. by destruct S1. }
  destruct (pi_intr inp).
  { exists (-1), w1. repeat (split; [done|]). split; [by left|]. split; [done|]. by intros _. }
  destruct (fire_events_ok (pi_events inp) w1 (ss_wf _ _ Hst) (ss_pollset _ _ Hst))
    as (w2 & E & Hst2 & (Hn & Hpo & Hts) & Hne).
  rewrite E. cbn [mbind option_bind]. eexists _, w2. split; [reflexivity|].
  split; [by eapply sched_trans|]. split; [by rewrite Hpo|]. split; [done|].
  unfold reports in Hrep. destruct (pi_events inp) as [|[fd [[a b] e]] evs] eqn:Eev.
  - split; [by auto|]. split; [done|]. intros _. cbn [fire_events] in E. by injection E as <-.
  - split; [by auto|]. split; [|done]. intros _. apply Hne. exists fd, a, b, e, evs. split; [done|].
    destruct (Hrep fd a b e ltac:(left)) as (m & Hm & Ha & Hb & Hany). pose proof (synced pollable p fd Hp) as Hs. assert (Hs2 := eq_trans (eq_sym Hm) Hs). clear Hs Hm. rename Hs2 into Hs.
    change (w_pollset w1) with p. destruct (mask_empty (waits (fdinfo_at fd p))) eqn:Em; [done|].
    injection Hs as ->. cbv zeta. destruct (waits (fdinfo_at fd p)) as [m1 m2]. unfold mask_empty in Em.
    cbn [fst snd] in *. destruct m1, m2, a, b, e; try done; by (specialize (Ha eq_refl) || specialize (Hb eq_refl)).
Qed.

(** How the loop ends. *)
Definition loop_ok (w : world) (r : sched_result) : Prop :=
  match r with
  | SCrash => False
  | SSleep w' => sched_step w w' ∧ w_ready w' = w_ready w
  | SRun w' => ∃ w1, sched_step w w1 ∧ w_ready w1 ≠ [] ∧ timers_sorted (w_timers w1) ∧
      (∀ t, t ∈ w_timers w1 → w_last_poll w1 < t.1) ∧ pop_ready w1 = SRun w'
  end.

Lemma loop_ok_start w0 w r :
  sched_step w0 w → w_ready w = w_ready w0 → loop_ok w r → loop_ok w0 r.
Proof.
  intros Hst Er. destruct r as [w'| |w']; simpl; [|done|].
  - intros (w1 & S1 & R1). exists w1. split; [by eapply sched_trans|done].
  - intros (S1 & R1). split; [by eapply sched_trans|congruence].
Qed.

Lemma sched_polls w polls nw :
  wf w → pollset_ok (w_pollset w) → sched_step w (set_last_poll nw (set_polls polls w)).
Proof.
  intros H Hp. destruct (sched_refl w H Hp). constructor; try done. by destruct H.
Qed.

Lemma poll_loop_ok inputs : ∀ block nw w,
  wf w → pollset_ok (w_pollset w) → timers_sorted (w_timers w) →
  (block = false → w_ready w ≠ []) →
  (∀ inp k, inp ∈ inputs → interest_of (w_pollset w) k → reports inp k) →
  loop_ok w (poll_loop epoll_ctl inputs block nw w).
Proof.
  induction inputs as [|inp inputs IH]; intros block nw w H Hp Hts Hb Hrep; cbn [poll_loop].
  { split; [by apply sched_refl|done]. }
  pose proof (sched_polls w inputs (w_last_poll w) H Hp) as Hst0.
  assert (Ew0 : set_last_poll (w_last_poll w) (set_polls inputs w) = set_polls inputs w) by (by destruct w).
  rewrite Ew0 in Hst0.
  destruct (pollset_poll_ok inp (set_polls inputs w) (ss_wf _ _ Hst0) (ss_pollset _ _ Hst0))
    as (r & w1 & -> & Hst1 & Hpo & Hts1 & Hr & Hr1 & Hrn).
  { intros k. apply Hrep. left. }
  set (nw' := if poll_timeout block nw (w_timers w) =? 0 then nw else w_now w1).
  assert (Hst01 : sched_step w w1) by (by eapply sched_trans).
  destruct (Z.ltb_spec r 0) as [Hneg|Hpos].
  { assert (Hr' : r ≠ 1) by lia. destruct (Hrn Hr') as (E1 & E2 & E3).
    apply (loop_ok_start w w1); [done|done|]. apply IH; [apply (ss_wf _ _ Hst1)|apply (ss_pollset _ _ Hst1)| | |].
    - rewrite E2. exact Hts.
    - intros Hbf. rewrite E1. by apply Hb.
    - intros i k Hi Hk. apply Hrep; [by right|]. intros fd. rewrite (Hk fd).
      by rewrite (same_waits_eq (w_pollset w) (w_pollset w1) fd E3). }
  destruct (fire_timers_ok nw' (length (w_timers w1)) (negb (r =? 0)) w1 (ss_wf _ _ Hst1) (ss_pollset _ _ Hst1)
    (Hts1 Hts) ltac:(lia)) as (fired & w2 & -> & Hst2 & Hts2 & Hall & En & Epo & Hft & Hff).
  assert (Hst02 : sched_step w w2) by (by eapply sched_trans).
  destruct (negb block || fired) eqn:Ebf.
  - assert (Hne : w_ready w2 ≠ []).
    { apply orb_prop in Ebf as [Ebl|Ef].
      - apply negb_true_iff in Ebl. apply (ready_grows _ _ Hst02). by apply Hb.
      - destruct (Hft Ef) as [Er|?]; [|done]. apply (ready_grows _ _ Hst2), Hr1.
        destruct (Z.eqb_spec r 0); [done|]. lia. }
    set (w3 := set_last_poll nw' w2).
    assert (Hst3 : sched_step w2 w3).
    { pose proof (sched_polls w2 (w_polls w2) nw' (ss_wf _ _ Hst2) (ss_pollset _ _ Hst2)) as Hs.
      by destruct w2. }
    destruct (w_ready w2) as [|c rest] eqn:Er2; [done|].
    destruct (pop_ready_ok w3 c rest (ss_wf _ _ Hst3) Er2) as (w4 & x & E4 & _). rewrite E4.
    exists w3. split; [by eapply sched_trans|]. change (w_ready w3) with (w_ready w2). rewrite Er2.
    repeat (split; [done|]). exact E4.
  - apply orb_false_iff in Ebf as [Ebl Ef]. apply negb_false_iff in Ebl. subst block.
    destruct (Hff Ef) as [Er ->]. apply negb_false_iff, Z.eqb_eq in Er. subst r.
    destruct (Hrn ltac:(lia)) as (E1 & E2 & E3).
    apply (loop_ok_start w w1); [done|done|]. apply IH; [apply (ss_wf _ _ Hst1)|apply (ss_pollset _ _ Hst1)| |done|].
    + rewrite E2. exact Hts.
    + intros i k Hi Hk. apply Hrep; [by right|]. intros fd. rewrite (Hk fd).
      by rewrite (same_waits_eq (w_pollset w) (w_pollset w1) fd E3).
Qed.

(** The expired timers have fired: their coroutines are ready. *)
Lemma expired_ready w w1 now' :
  wf w → sched_step w w1 → (∀ t, t ∈ w_timers w1 → now' < t.1) →
  ∀ d c, (d, c) ∈ w_timers w → d ≤ now' →
  ∃ cl, w_cls w !! c = Some cl ∧ cl_cr cl ∈ w_ready w1.
Proof.
  intros H Hst Hall d c Hin Hd.
  assert (Hr : registered TimerCancel c w) by (simpl; apply list_elem_of_fmap; by exists (d, c)).
  destruct (wf_registered _ H TimerCancel c Hr) as (cl & x & Hcl & Hk & Hx & Hxl & Hc).
  exists cl. split; [done|]. destruct (ss_crs _ _ Hst _ x Hx) as (x1 & Hx1 & Ecl).
  apply (wf_ready _ (ss_wf _ _ Hst)). exists x1. split; [done|]. apply not_false_iff_true. intros Hl1.
  destruct (wf_clauses _ (ss_wf _ _ Hst) _ x1 c Hx1 Hl1 ltac:(by rewrite Ecl)) as (cl1 & Hcl1 & _ & Hk1).
  destruct (ss_kind _ _ Hst c cl Hcl) as (cl2 & Hcl2 & Ek). simplify_eq.
  rewrite Ek, Hk in Hk1. destruct Hk1 as [?|Hk1]; [done|].
  simpl in Hk1. apply list_elem_of_fmap in Hk1 as ([d' c'] & -> & Ht). simpl in *.
  pose proof (ss_timers _ _ Hst _ Ht) as Ht0. specialize (Hall _ Ht). simpl in Hall.
  assert (d = d'); [|lia]. pose proof (wf_timers _ H) as Hnd. clear -Hnd Hin Ht0.
  induction (w_timers w) as [|[a b] l IH]; [by apply elem_of_nil in Hin|].
  apply NoDup_cons in Hnd as [Hb Hnd]. simpl in Hb.
  apply elem_of_cons in Hin as [E1|Hin]; apply elem_of_cons in Ht0 as [E2|Ht0]; simplify_eq; [done| | |].
  - exfalso. apply Hb. apply list_elem_of_fmap. by exists (d', b).
  - exfalso. apply Hb. apply list_elem_of_fmap. by exists (d, b).
  - by apply IH.
Qed.

(** [w] has its pollset consistent, its timers in order, and a kernel that reports
    what it is asked for. *)
Record can_wait (w : world) : Prop := {
  cw_wf : wf w;
  cw_pollset : pollset_ok (w_pollset w);
  cw_timers : timers_sorted (w_timers w);
  cw_reports : ∀ inp k, inp ∈ w_polls w → interest_of (w_pollset w) k → reports inp k;
}.

(** The coroutines are as they were, but for those made ready or resumed. *)
Definition same_coroutines (w w' : world) : Prop :=
  dom (w_crs w') = dom (w_crs w) ∧
  ∀ i x, i ≠ w_r w' → w_crs w !! i = Some x → ∃ x', w_crs w' !! i = Some x' ∧ clauses x' = clauses x.

Lemma loop_wait w r :
  wf w → timers_sorted (w_timers w) → loop_ok w r →
  match r with
  | SCrash => False
  | SSleep w' => sched_step w w' ∧ w_ready w' = w_ready w
  | SRun w' => resumable w' ∧ same_coroutines w w' ∧ pollset_ok (w_pollset w') ∧
      timers_sorted (w_timers w') ∧
      (∀ c rest, w_ready w = c :: rest → w_r w' = c ∧ ∃ l, w_ready w' = rest ++ l) ∧
      (∀ d c, (d, c) ∈ w_timers w → d ≤ w_last_poll w' →
        ∃ cl, w_cls w !! c = Some cl ∧ cl_cr cl ∈ w_r w' :: w_ready w')
  end.
Proof.
  intros H Hts. destruct r as [w'| |w']; simpl; [|done|done].
  intros (w1 & Hst & Hne & Hts1 & Hall & E). destruct (w_ready w1) as [|c rest] eqn:Er; [done|].
  destruct (pop_ready_ok w1 c rest (ss_wf _ _ Hst) Er)
    as (w2 & x & E2 & Hres & Er2 & Erd & Hx & Hl & Hoth & Hdom & Ep & Et & El & _).
  rewrite E2 in E. injection E as <-. split; [done|]. split; [split|].
  - by rewrite Hdom, (ss_dom _ _ Hst).
  - intros i y Hi Hy. rewrite Hoth by congruence. by apply (ss_crs _ _ Hst).
  - rewrite Ep, Et, El. split; [apply (ss_pollset _ _ Hst)|]. split; [done|]. split.
    + intros c0 rest0 E0. destruct (ss_ready _ _ Hst) as [l El2]. rewrite Er, E0 in El2.
      injection El2 as -> ->. split; [done|]. by exists l.
    + intros d c0 Hin Hd. destruct (expired_ready w w1 (w_last_poll w1) H Hst Hall d c0 Hin Hd) as (cl & Hcl & Hc).
      exists cl. split; [done|]. rewrite Er2, Erd. by rewrite <- Er.
Qed.

(** C2. The scheduler: from a well-formed world, [dill_wait] never crashes. If
    coroutines are ready it resumes the one that has been ready longest, the others
    keep their order, and those woken meanwhile come after them; it switches only
    into a coroutine that is in a state to be resumed; nobody else's clauses
    change. When it polled, every timer that had expired at the time of the poll
    has fired, so that its coroutine is running or ready. It sleeps only when no
    coroutine is ready or the poll was interrupted, and all poll results given have
    been consumed. *)
Theorem dill_wait_resumes_oldest w :
  can_wait w →
  match dill_wait_ epoll_ctl w with
  | SCrash => False
  | SSleep w' => sched_step w w' ∧ w_ready w' = w_ready w
  | SRun w' => resumable w' ∧ same_coroutines w w' ∧ pollset_ok (w_pollset w') ∧
      timers_sorted (w_timers w') ∧
      (∀ c rest, w_ready w = c :: rest → w_r w' = c ∧ ∃ l, w_ready w' = rest ++ l) ∧
      (w_ready w = [] ∨ w_last_poll w + 1000 < w_now w →
        ∀ d c, (d, c) ∈ w_timers w → d ≤ w_last_poll w' →
          ∃ cl, w_cls w !! c = Some cl ∧ cl_cr cl ∈ w_r w' :: w_ready w')
  end.
Proof.
  intros [H Hp Hts Hrep]. unfold dill_wait_.
  set (block := match w_ready w with [] => true | _ => false end).
  destruct (block || (w_last_poll w + 1000 <? w_now w)) eqn:Eb.
  - assert (Hb : block = false → w_ready w ≠ []) by (unfold block; by destruct (w_ready w)).
    pose proof (loop_wait w _ H Hts (poll_loop_ok (w_polls w) block (w_now w) w H Hp Hts Hb Hrep)) as HL.
    destruct (poll_loop _ _ _ _ _) as [w'| |w']; [|done|done].
    destruct HL as (L1 & L2 & L3 & L4 & L5 & L6). repeat (split; [done|]). intros _. exact L6.
  - apply orb_false_iff in Eb as [Eb1 Eb2]. apply Z.ltb_ge in Eb2.
    destruct (w_ready w) as [|c rest] eqn:Er; [done|].
    destruct (pop_ready_ok w c rest H Er)
      as (w2 & x & -> & Hres & Er2 & Erd & Hx & Hl & Hoth & Hdom & Ep & Et & El & _).
    split; [done|]. split; [split; [done|]|].
    { intros i y Hi Hy. rewrite Hoth by congruence. by exists y. }
    rewrite Ep, Et. split; [done|]. split; [done|]. split.
    + intros c0 rest0 [= <- <-]. split; [done|]. exists []. by rewrite app_nil_r.
    + intros [?|?]; [done|lia].
Qed.
End Wait.

(** The main coroutine 5 waits for timer 901, coroutine 6 for descriptor 3. *)
Definition demo_waiting : world :=
  mk_world E0 Chanspec.demo_handles 5 [] [(50, 901)] 0
    (<[5 := mk_cr false 0 E0 [901] NULL false false false false None]>
      {[6 := mk_cr false 0 E0 [902] NULL false false false false None]})
    (<[902 := mk_clause 6 1 (FdCancelIn 3)]> {[901 := mk_clause 5 1 TimerCancel]})
    ∅
    (<[100 := mk_halfchan [] [] false false false false]> {[101 := mk_halfchan [] [] true false false false]})
    ∅ demo_pollset ∅ 1000 10 20 [mk_poll_input true [] 30; mk_poll_input false [(3, (true, false, false))] 60].

Lemma demo_can_wait : can_wait (λ _, True) demo_waiting.
Proof.
  constructor.
  - apply wf_b_sound; [vm_compute; reflexivity|].
    apply (wf_handles _ (proj1 (Chanspec.demo_running [] [] false true ltac:(vm_compute; reflexivity)))).
  - exact demo_pollset_ok.
  - split; [|exact I]. intros t Ht. by apply elem_of_nil in Ht.
  - intros inp k Hin Hk fd a b e Hev. apply elem_of_cons in Hin as [->|Hin]; [by apply elem_of_nil in Hev|].
    apply list_elem_of_singleton in Hin as ->. apply list_elem_of_singleton in Hev as [= -> -> -> ->].
    exists (true, false). split; [exact (Hk 3)|done].
Qed.

Lemma dill_wait_resumes_oldest_witness :
  match dill_wait_ demo_epoll demo_waiting with
  | SRun w' => w_r w' = 6 ∧ w_ready w' = [5] ∧ resumable w'
  | _ => False
  end.
Proof.
  pose proof (dill_wait_resumes_oldest (λ _, True) demo_epoll demo_laws demo_waiting demo_can_wait) as H.
  assert (E : match dill_wait_ demo_epoll demo_waiting with
    | SRun w' => w_r w' = 6 ∧ w_ready w' = [5] | _ => False end) by (vm_compute; split; reflexivity).
  destruct (dill_wait_ demo_epoll demo_waiting) as [w'| |w']; [|exact E|exact E].
  split; [exact (proj1 E)|]. split; [exact (proj2 E)|exact (proj1 H)].
Defined.
