(* ===== verification/Waiters.v ===== *)
(** What a back end of the pollset needs from [cr.c], as an interface: adding a clause
    ([dill_waitfor]) and triggering one ([dill_trigger]), whose cancel functions call back
    into the pollset.  [Epoll] is modelled inside the runtime ([Cr], [Sched]); the other back
    ends ([Poll], [Kqueue]) are modelled and verified against this interface, which the
    runtime of [cr.c] implements. *)

From S2P Require Import Prelude Handle World Cr.
From Stdlib Require Import ZArith Lia.
From stdpp Require Import base gmap list.
Open Scope Z_scope.

(** * The interface *)

(** The field of [struct dill_fdinfo] a clause is in: [in] or [out]. *)
Inductive dir := DIn | DOut.
#[export] Instance dir_eq_dec : EqDecision dir.
Proof. solve_decision. Defined.

Definition ev_get (d : dir) (ev : events) : bool := match d with DIn => ev.1 | DOut => ev.2 end.
Definition ev_set (d : dir) (b : bool) (ev : events) : events :=
  match d with DIn => (b, ev.2) | DOut => (ev.1, b) end.

(** [wt_waitfor c id d fd] is [fdcl->fdinfo = fdi; dill_waitfor(&fdcl->cl, id, cancel)] where
    [cancel] is the cancel function of direction [d].  [wt_trigger c] is
    [dill_trigger(cl, 0)]; the cancel functions of descriptors that it calls are returned, in
    the order of the calls. *)
Class Waiters (R : Type) := {
  wt_waitfor : Z → Z → dir → Z → R → option R;
  wt_trigger : Z → R → option (list (dir * Z) * R);
}.

(** What the pollset relies on.  [wt_fds] are the clauses that wait for a descriptor, with
    their coroutine; [wt_ready] is the queue of coroutines to resume. *)
Class WaitersLaws (R : Type) `{Waiters R} := {
  wt_ok : R → Prop;
  wt_running : R → Prop;
  wt_fresh : Z → R → Prop;
  wt_fds : R → gmap Z (Z * dir * Z);
  wt_ready : R → list Z;
  (** The running coroutine can add an unused clause. *)
  waitfor_law c id d fd r : wt_ok r → wt_running r → wt_fresh c r →
    wt_fds r !! c = None ∧
    ∃ k r', wt_waitfor c id d fd r = Some r' ∧ wt_ok r' ∧ wt_running r' ∧
      wt_fds r' = <[c := (k, d, fd)]> (wt_fds r) ∧ wt_ready r' = wt_ready r;
  (** Triggering a clause cancels all the clauses of its coroutine, which becomes ready. *)
  trigger_law c k d fd r : wt_ok r → wt_fds r !! c = Some (k, d, fd) →
    ∃ cs r', wt_trigger c r = Some (cs, r') ∧ wt_ok r' ∧
      wt_fds r' = filter (λ x, x.2.1.1 ≠ k) (wt_fds r) ∧
      (∀ d fd, (d, fd) ∈ cs ↔ ∃ c', wt_fds r !! c' = Some (k, d, fd)) ∧
      wt_ready r' = wt_ready r ++ [k];
}.

(** * Firing: the specification of a poll *)

(** [rev fd d]: the system reported an event that wakes who waits for direction [d]. *)
Definition wakes {R} `{WaitersLaws R} (rev : Z → dir → bool) (r : R) (k : Z) : Prop :=
  ∃ c d fd, wt_fds r !! c = Some (k, d, fd) ∧ rev fd d = true.

(** Exactly the coroutines that wait for a reported event become ready, once each, and
    nobody else stops waiting. *)
Definition fired {R} `{WaitersLaws R} (rev : Z → dir → bool) (r r' : R) : Prop :=
  ∃ T, NoDup T ∧ (∀ k, k ∈ T ↔ wakes rev r k) ∧ wt_ready r' = wt_ready r ++ T ∧
    wt_fds r' = filter (λ x, x.2.1.1 ∉ T) (wt_fds r).

Section Firing.
Context {R : Type} `{LawsR : WaitersLaws R}.
Implicit Types r : R.

Lemma fired_none rev r : (∀ k, ¬ wakes rev r k) → fired rev r r.
Proof.
  intros Hn. exists []. split; [constructor|]. split.
  - intros k. split; [intros []%not_elem_of_nil|]. intros Hw. by destruct (Hn k).
  - split; [by rewrite app_nil_r|]. symmetry. apply map_filter_id. intros c x _. apply not_elem_of_nil.
Qed.

(** Events may be handled in any number of steps. *)
Lemma fired_trans rev1 rev2 r1 r2 r3 :
  fired rev1 r1 r2 → fired rev2 r2 r3 → fired (λ fd d, rev1 fd d || rev2 fd d) r1 r3.
Proof.
  intros (T1 & N1 & W1 & Q1 & F1) (T2 & N2 & W2 & Q2 & F2).
  assert (Hin : ∀ c x, wt_fds r2 !! c = Some x ↔ wt_fds r1 !! c = Some x ∧ x.1.1 ∉ T1).
  { intros c x. rewrite F1. apply map_lookup_filter_Some. }
  exists (T1 ++ T2). split; [|split; [|split]].
  - apply NoDup_app. split; [done|]. split; [|done].
    intros k H1 (c & d & fd & Hc & _)%W2. apply Hin in Hc as [_ Hc]. done.
  - intros k. rewrite elem_of_app, W1, W2. split.
    + intros [(c & d & fd & Hc & E)|(c & d & fd & Hc & E)]; exists c, d, fd.
      * split; [done|]. by rewrite E.
      * apply Hin in Hc as [Hc _]. split; [done|]. by rewrite E, orb_true_r.
    + intros (c & d & fd & Hc & E). destruct (rev1 fd d) eqn:E1; [left; by exists c, d, fd|].
      destruct (decide (k ∈ T1)) as [Hk|Hk]; [left; by apply W1|].
      right. exists c, d, fd. split; [|done]. by apply Hin.
  - by rewrite Q2, Q1, app_assoc.
  - rewrite F2, F1, map_filter_filter. apply map_filter_ext. intros c x _.
    rewrite elem_of_app. naive_solver.
Qed.

Lemma fired_ext rev rev' r r' :
  (∀ c k d fd, wt_fds r !! c = Some (k, d, fd) → rev fd d = rev' fd d) → fired rev r r' → fired rev' r r'.
Proof.
  intros He (T & N & W & Q & F). exists T. split; [done|]. split; [|done].
  intros k. rewrite W. unfold wakes. split; intros (c & d & fd & Hc & E); exists c, d, fd; split; try done.
  - by rewrite <- (He c k d fd Hc).
  - by rewrite (He c k d fd Hc).
Qed.
End Firing.

(** * C arrays: an access out of bounds has no result *)

Definition zget {A} (l : list A) (i : Z) : option A := if i <? 0 then None else l !! Z.to_nat i.
Definition zset {A} (l : list A) (i : Z) (x : A) : option (list A) :=
  if (0 <=? i) && (i <? Z.of_nat (length l)) then Some (<[Z.to_nat i := x]> l) else None.

Lemma zget_Some {A} (l : list A) i x : zget l i = Some x ↔ 0 ≤ i ∧ l !! Z.to_nat i = Some x.
Proof. unfold zget. destruct (Z.ltb_spec i 0); [|naive_solver lia]. split; [done|]. intros [? _]. lia. Qed.

Lemma zget_lt {A} (l : list A) i x : zget l i = Some x → 0 ≤ i < Z.of_nat (length l).
Proof. intros [H0 H%lookup_lt_Some]%zget_Some. lia. Qed.

Lemma zget_is_Some {A} (l : list A) i : 0 ≤ i < Z.of_nat (length l) → ∃ x, zget l i = Some x.
Proof.
  intros Hi. destruct (lookup_lt_is_Some_2 l (Z.to_nat i)) as [x Hx]; [lia|].
  exists x. apply zget_Some. split; [lia|done].
Qed.

Lemma zset_ok {A} (l : list A) i x : 0 ≤ i < Z.of_nat (length l) → zset l i x = Some (<[Z.to_nat i := x]> l).
Proof.
  intros Hi. unfold zset. destruct (Z.leb_spec 0 i); [|lia]. by destruct (Z.ltb_spec i (Z.of_nat (length l))); [|lia].
Qed.

Lemma zget_insert {A} (l : list A) i j x : 0 ≤ i < Z.of_nat (length l) →
  zget (<[Z.to_nat i := x]> l) j = if decide (j = i) then Some x else zget l j.
Proof.
  intros Hi. unfold zget. destruct (Z.ltb_spec j 0).
  - by destruct (decide (j = i)); [lia|].
  - destruct (decide (j = i)) as [->|Hj]; [apply list_lookup_insert_eq; lia|].
    apply list_lookup_insert_ne. lia.
Qed.

(** * The state of a back end *)

(** The runtime, the context of the pollset and [errno]; [None] is a crash. *)
Record bst (R C : Type) := mk_bst { b_rt : R; b_ctx : C; b_errno : errno_t }.
Arguments mk_bst {R C}.
Arguments b_rt {R C}.
Arguments b_ctx {R C}.
Arguments b_errno {R C}.

Definition BM (R C A : Type) : Type := bst R C → option (A * bst R C).
#[export] Instance BM_ret R C : MRet (BM R C) := λ A a s, Some (a, s).
#[export] Instance BM_bind R C : MBind (BM R C) := λ A B k m s,
  match m s with Some (a, s) => k a s | None => None end.

Definition b_get {R C} : BM R C C := λ s, Some (b_ctx s, s).
Definition b_put {R C} (c : C) : BM R C unit := λ s, Some (tt, mk_bst (b_rt s) c (b_errno s)).
Definition b_crash {R C A} : BM R C A := λ _, None.
Definition b_lift {R C A} (o : option A) : BM R C A := λ s, a ← o; Some (a, s).
Definition b_assert {R C} (b : bool) : BM R C unit := λ s, if b then Some (tt, s) else None.
Definition b_fail {R C} (e : errno_t) : BM R C Z := λ s, Some (-1, mk_bst (b_rt s) (b_ctx s) e).

(** Read, and update, the context. *)
Definition b_upd {R C} (f : C → option C) : BM R C unit := c ← b_get; c ← b_lift (f c); b_put c.

Lemma b_run {R C A B} (m : BM R C A) (k : A → BM R C B) s a s' :
  m s = Some (a, s') → (m ≫= k) s = k a s'.
Proof. intros E. unfold mbind, BM_bind. by rewrite E. Qed.

Lemma b_run_inv {R C A B} (m : BM R C A) (k : A → BM R C B) s r :
  (m ≫= k) s = Some r → ∃ a s', m s = Some (a, s') ∧ k a s' = Some r.
Proof. unfold mbind, BM_bind. destruct (m s) as [[a s']|]; [|done]. intros E. by exists a, s'. Qed.

Lemma b_upd_run {R C} (f : C → option C) (s : bst R C) c :
  f (b_ctx s) = Some c → b_upd f s = Some (tt, mk_bst (b_rt s) c (b_errno s)).
Proof. intros E. unfold b_upd. rewrite (b_run b_get _ s (b_ctx s) s eq_refl).
  unfold b_lift. by rewrite (b_run _ _ s c s) by (by rewrite E). Qed.

(** Run the first step of a computation, given that it succeeds. *)
Ltac brun E := rewrite (b_run _ _ _ _ _ E).

Section Calls.
Context {R C : Type} `{Waiters R}.

Definition b_waitfor (c id : Z) (d : dir) (fd : Z) : BM R C unit := λ s,
  r ← wt_waitfor c id d fd (b_rt s); Some (tt, mk_bst r (b_ctx s) (b_errno s)).

(** [dill_trigger]: the cancel functions of the pollset are [cancel]. *)
Definition cancel_fds (cancel : dir → Z → C → option C) : list (dir * Z) → C → option C :=
  fix go cs p := match cs with [] => Some p | (d, fd) :: cs => p ← cancel d fd p; go cs p end.
Definition b_trigger (cancel : dir → Z → C → option C) (c : Z) : BM R C unit := λ s,
  '(cs, r) ← wt_trigger c (b_rt s);
  p ← cancel_fds cancel cs (b_ctx s);
  Some (tt, mk_bst r p (b_errno s)).
End Calls.

(** * The runtime of [cr.c] implements the interface *)

Definition fd_kind (k : cancel_fn) : option (dir * Z) :=
  match k with FdCancelIn fd => Some (DIn, fd) | FdCancelOut fd => Some (DOut, fd) | _ => None end.
Definition fd_cancel (d : dir) (fd : Z) : cancel_fn :=
  match d with DIn => FdCancelIn fd | DOut => FdCancelOut fd end.

(** [cancel_clauses], except that the cancel functions of the pollset are left to do. *)
Fixpoint cancel_rest (cs : list Z) (w : world) : option (list (dir * Z) * world) :=
  match cs with
  | [] => Some ([], w)
  | c :: cs =>
    cl ← w_cls w !! c;
    match fd_kind (cl_cancel cl) with
    | Some df => '(l, w) ← cancel_rest cs w; Some (df :: l, w)
    | None => w ← cancel_clause c w; cancel_rest cs w
    end
  end.

#[export] Instance world_waiters : Waiters world := {|
  wt_waitfor c id d fd w := dill_waitfor c id (fd_cancel d fd) w;
  wt_trigger c w :=
    cl ← w_cls w !! c;
    x ← w_crs w !! cl_cr cl;
    if ready_linked x then None
    else
      '(l, w) ← cancel_rest (clauses x) w;
      w ← dill_resume (cl_cr cl) (cl_id cl) E0 w;
      Some (l, w)
|}.

(** The cancel functions of epoll.c.inc *)
Definition epoll_cancel (df : dir * Z) (w : world) : world :=
  match df with (DIn, fd) => dill_fdcancelin fd w | (DOut, fd) => dill_fdcancelout fd w end.
Definition epoll_cancels (l : list (dir * Z)) (w : world) : world := foldl (λ w df, epoll_cancel df w) w l.

(** ** The interface is [dill_trigger] with the calls of the pollset taken out *)

Definition epoll_ps (df : dir * Z) (p : dill_ctx_pollset) : dill_ctx_pollset :=
  let '(d, fd) := df in
  let i := fdinfo_at fd p in
  add_change fd (set_fdinfo fd (match d with
    | DIn => mk_fdinfo None (fi_out i) (fi_currevs i) (fi_next i) (fi_cached i)
    | DOut => mk_fdinfo (fi_in i) None (fi_currevs i) (fi_next i) (fi_cached i) end) p).

Lemma epoll_cancel_frame df w : epoll_cancel df w = set_pollset (epoll_ps df (w_pollset w)) w.
Proof. by destruct df as [[] fd]. Qed.

(** What [cancel_clause] does for timers and channels ignores the pollset. *)
Lemma cancel_clause_pollset c p w cl : w_cls w !! c = Some cl → fd_kind (cl_cancel cl) = None →
  cancel_clause c (set_pollset p w) = set_pollset p <$> cancel_clause c w.
Proof.
  intros Hc Hk. unfold cancel_clause. cbn [set_pollset w_cls]. rewrite Hc. cbn [mbind option_bind].
  destruct (cl_cancel cl) as [| | |f|f]; try done.
  - unfold dill_timer_cancel. cbn [set_pollset w_cls w_timers]. rewrite Hc.
    by destruct (bool_decide _).
  - unfold dill_chcancel, chan_linked. cbn [set_pollset w_chans]. by destruct (bool_decide _).
Qed.

Lemma cancel_rest_pollset cs : ∀ p w,
  cancel_rest cs (set_pollset p w) = (λ '(l, w), (l, set_pollset p w)) <$> cancel_rest cs w.
Proof.
  induction cs as [|c cs IH]; intros p w; [done|]. cbn [cancel_rest set_pollset w_cls].
  destruct (w_cls w !! c) as [cl|] eqn:Hc; [|done]. cbn [mbind option_bind].
  destruct (fd_kind (cl_cancel cl)) as [df|] eqn:Hk.
  - change (mk_world _ _ _ _ _ _ _ _ _ _ _ p _ _ _ _ _) with (set_pollset p w). rewrite IH.
    by destruct (cancel_rest cs w) as [[]|].
  - change (mk_world _ _ _ _ _ _ _ _ _ _ _ p _ _ _ _ _) with (set_pollset p w).
    rewrite (cancel_clause_pollset c p w cl Hc Hk).
    destruct (cancel_clause c w) as [w1|]; [|done]. cbn [fmap option_fmap option_map mbind option_bind]. apply IH.
Qed.

Lemma fd_kind_inv k df : fd_kind k = Some df → k = fd_cancel df.1 df.2.
Proof. destruct k; naive_solver. Qed.

Lemma cancel_fd_clause c w cl df : w_cls w !! c = Some cl → fd_kind (cl_cancel cl) = Some df →
  cancel_clause c w = Some (epoll_cancel df w).
Proof.
  intros Hc Hk. unfold cancel_clause. rewrite Hc. cbn [mbind option_bind].
  rewrite (fd_kind_inv _ _ Hk). by destruct df as [[] fd].
Qed.

Lemma cancel_rest_keeps cs w l w1 : cancel_rest cs w = Some (l, w1) → w_pollset w1 = w_pollset w.
Proof.
  intros E. assert (Hw : set_pollset (w_pollset w) w = w) by (by destruct w).
  pose proof (cancel_rest_pollset cs (w_pollset w) w) as H. rewrite Hw, E in H.
  cbn in H. injection H as H. by rewrite H at 1.
Qed.

Lemma cancel_clauses_rest cs : ∀ w,
  cancel_clauses cs w = (λ '(l, w), epoll_cancels l w) <$> cancel_rest cs w.
Proof.
  induction cs as [|c cs IH]; intros w; [done|]. cbn [cancel_clauses cancel_rest].
  destruct (w_cls w !! c) as [cl|] eqn:Hc; cbn [mbind option_bind];
    [|unfold cancel_clause; by rewrite Hc].
  destruct (fd_kind (cl_cancel cl)) as [df|] eqn:Hk.
  - rewrite (cancel_fd_clause c w cl df Hc Hk). cbn [mbind option_bind]. rewrite IH.
    rewrite epoll_cancel_frame, cancel_rest_pollset.
    destruct (cancel_rest cs w) as [[l w1]|] eqn:E; [|done]. cbn.
    by rewrite (epoll_cancel_frame df w1), (cancel_rest_keeps cs w l w1 E).
  - destruct (cancel_clause c w) as [w1|]; [|done]. apply IH.
Qed.

Lemma epoll_cancels_frame l : ∀ w,
  epoll_cancels l w = set_pollset (foldl (λ p df, epoll_ps df p) (w_pollset w) l) w.
Proof.
  induction l as [|df l IH]; intros w; [by destruct w|].
  change (epoll_cancels (df :: l) w) with (epoll_cancels l (epoll_cancel df w)).
  rewrite IH. by rewrite epoll_cancel_frame.
Qed.

Lemma dill_resume_pollset c id e p w :
  dill_resume c id e (set_pollset p w) = set_pollset p <$> dill_resume c id e w.
Proof. unfold dill_resume, upd_cr. cbn. by destruct (w_crs w !! c). Qed.

Lemma dill_resume_keeps c id e w w' : dill_resume c id e w = Some w' → w_pollset w' = w_pollset w.
Proof. unfold dill_resume, upd_cr. intros E. obind. done. Qed.

(** [dill_trigger] of the runtime is the interface, then the cancel functions of epoll. *)
Lemma dill_trigger_epoll c w : dill_trigger c E0 w = (λ '(l, w), epoll_cancels l w) <$> wt_trigger c w.
Proof.
  unfold dill_trigger, dill_docancel. cbn [wt_trigger world_waiters].
  destruct (w_cls w !! c) as [cl|]; [|done]. cbn [mbind option_bind].
  destruct (w_crs w !! cl_cr cl) as [x|]; [|done]. cbn [mbind option_bind].
  destruct (ready_linked x); [done|]. rewrite cancel_clauses_rest.
  destruct (cancel_rest (clauses x) w) as [[l w1]|]; [|done]. cbn.
  rewrite epoll_cancels_frame, dill_resume_pollset.
  destruct (dill_resume (cl_cr cl) (cl_id cl) E0 w1) as [w2|] eqn:E; [|done]. cbn.
  by rewrite epoll_cancels_frame, (dill_resume_keeps _ _ _ _ _ E).
Qed.

(** ** The laws *)

Definition fd_waits (w : world) : gmap Z (Z * dir * Z) :=
  map_imap (λ c cl, '(d, fd) ← fd_kind (cl_cancel cl);
    x ← w_crs w !! cl_cr cl;
    if negb (ready_linked x) && bool_decide (c ∈ clauses x) then Some (cl_cr cl, d, fd) else None) (w_cls w).

(** The cancel function of a clause finds the clause. *)
Definition cancellable (w : world) (c : Z) (k : cancel_fn) : Prop :=
  match k with
  | TimerCancel => c ∈ (w_timers w).*2
  | ChCancel => chan_linked c w = true
  | _ => True
  end.

(** The part of [wf] that does not depend on the pollset. *)
Definition clauses_ok (w : world) : Prop :=
  ∀ i x, w_crs w !! i = Some x → ready_linked x = false →
    NoDup (clauses x) ∧ ∀ c, c ∈ clauses x →
      ∃ cl, w_cls w !! c = Some cl ∧ cl_cr cl = i ∧ cancellable w c (cl_cancel cl).

Lemma fd_waits_Some w c k d fd : fd_waits w !! c = Some (k, d, fd) ↔
  ∃ cl x, w_cls w !! c = Some cl ∧ cl_cr cl = k ∧ cl_cancel cl = fd_cancel d fd ∧
    w_crs w !! k = Some x ∧ ready_linked x = false ∧ c ∈ clauses x.
Proof.
  unfold fd_waits. rewrite map_lookup_imap. split.
  - intros E. apply bind_Some in E as (cl & Hc & E). apply bind_Some in E as ([d' fd'] & Hk & E).
    apply bind_Some in E as (x & Hx & E). apply fd_kind_inv in Hk.
    destruct (ready_linked x) eqn:Hr; [done|]. cbn in E. case_bool_decide; [|done].
    injection E as <- <- <-. by exists cl, x.
  - intros (cl & x & Hc & <- & Hk & Hx & Hr & Hin). rewrite Hc. cbn. rewrite Hk.
    replace (fd_kind (fd_cancel d fd)) with (Some (d, fd)) by (by destruct d). cbn.
    rewrite Hx. cbn. rewrite Hr. cbn. by rewrite bool_decide_true.
Qed.

(** What cancelling the clauses [cs] of coroutine [i] leaves alone. *)
Record rest_done (cs : list Z) (w w' : world) : Prop := {
  rd_crs : w_crs w' = w_crs w;
  rd_ready : w_ready w' = w_ready w;
  rd_cls : ∀ c, c ∉ cs → w_cls w' !! c = w_cls w !! c;
  rd_fds : ∀ c cl df, w_cls w !! c = Some cl → fd_kind (cl_cancel cl) = Some df → w_cls w' !! c = Some cl;
  rd_kind : ∀ c cl, w_cls w !! c = Some cl → ∃ cl', w_cls w' !! c = Some cl' ∧ cl_cancel cl' = cl_cancel cl;
  rd_ok : ∀ c k, c ∉ cs → cancellable w c k → cancellable w' c k;
}.

Lemma rest_done_refl w : rest_done [] w w.
Proof. constructor; try done; naive_solver. Qed.

Lemma rest_done_trans cs1 cs2 w1 w2 w3 :
  rest_done cs1 w1 w2 → rest_done cs2 w2 w3 → rest_done (cs1 ++ cs2) w1 w3.
Proof.
  intros [A1 A2 A3 A4 A5 A6] [B1 B2 B3 B4 B5 B6]. constructor; try congruence.
  - intros c [H1 H2]%not_elem_of_app. by rewrite B3, A3.
  - intros c cl df Hc Hk. by apply (B4 c cl df); [apply (A4 c cl df)|].
  - intros c cl Hc. destruct (A5 c cl Hc) as (cl1 & H1 & E1). destruct (B5 c cl1 H1) as (cl2 & H2 & E2).
    exists cl2. split; [done|congruence].
  - intros c k [H1 H2]%not_elem_of_app Hk. by apply B6, A6.
Qed.

Lemma chan_linked_unlink c c' w : c' ≠ c → chan_linked c' w = true →
  chan_linked c' (set_chans (chan_unlink c <$> w_chans w) w) = true.
Proof.
  unfold chan_linked. intros Hne (h & hc & Hh & Hin)%bool_decide_eq_true. apply bool_decide_eq_true.
  exists h, (chan_unlink c hc). cbn. split; [by rewrite lookup_fmap, Hh|].
  rewrite !list_elem_of_filter. naive_solver.
Qed.

Lemma cancel_one c w cl : w_cls w !! c = Some cl → fd_kind (cl_cancel cl) = None →
  cancellable w c (cl_cancel cl) → ∃ w', cancel_clause c w = Some w' ∧ rest_done [c] w w'.
Proof.
  intros Hc Hk Ha. unfold cancel_clause. rewrite Hc. cbn [mbind option_bind].
  destruct (cl_cancel cl) as [| | |f|f] eqn:Ek; try done.
  - exists w. split; [done|]. apply (rest_done_trans [] [c] w w w); [apply rest_done_refl|].
    constructor; try done; naive_solver.
  - unfold dill_timer_cancel. cbn [cancellable] in Ha. rewrite bool_decide_true, Hc by done.
    eexists. split; [done|]. constructor; try done; cbn.
    + intros c' Hc'%not_elem_of_cons. by rewrite lookup_insert_ne by naive_solver.
    + intros c' cl' df H1 H2. rewrite lookup_insert_ne; [done|]. intros ->. rewrite Hc in H1. by simplify_eq/=; rewrite Ek in H2.
    + intros c' cl' H1. destruct (decide (c = c')) as [<-|Hn].
      * rewrite lookup_insert_eq. eexists. split; [done|]. rewrite Hc in H1. by simplify_eq.
      * rewrite lookup_insert_ne by done. by exists cl'.
    + intros c' k Hc'%not_elem_of_cons. destruct k; cbn; try done.
      unfold timer_erase. intros ([d c2] & -> & Hin)%list_elem_of_fmap.
      apply list_elem_of_fmap. exists (d, c2). split; [done|]. apply list_elem_of_filter. cbn in *. naive_solver.
  - unfold dill_chcancel. cbn [cancellable] in Ha. rewrite Ha. eexists. split; [done|].
    constructor; try done; [naive_solver|].
    intros c' k Hc'%not_elem_of_cons. destruct k; cbn; try done. apply chan_linked_unlink. naive_solver.
Qed.

Lemma cancel_rest_ok cs : ∀ w, NoDup cs →
  (∀ c, c ∈ cs → ∃ cl, w_cls w !! c = Some cl ∧ cancellable w c (cl_cancel cl)) →
  ∃ l w', cancel_rest cs w = Some (l, w') ∧ rest_done cs w w' ∧
    ∀ d fd, (d, fd) ∈ l ↔ ∃ c cl, c ∈ cs ∧ w_cls w !! c = Some cl ∧ cl_cancel cl = fd_cancel d fd.
Proof.
  induction cs as [|c cs IH]; intros w Hnd Hall.
  { exists [], w. split; [done|]. split; [apply rest_done_refl|]. intros d fd. split; [intros []%not_elem_of_nil|].
    intros (c & cl & []%not_elem_of_nil & _). }
  apply NoDup_cons in Hnd as [Hnc Hnd].
  destruct (Hall c) as (cl & Hc & Ha); [left|]. cbn [cancel_rest]. rewrite Hc. cbn [mbind option_bind].
  destruct (fd_kind (cl_cancel cl)) as [[d0 fd0]|] eqn:Hk.
  - destruct (IH w Hnd) as (l & w' & E & Hd & Hl); [intros c' Hc'; apply Hall; by right|]. rewrite E.
    exists ((d0, fd0) :: l), w'. split; [done|]. split.
    { apply (rest_done_trans [c] cs w w w'); [|done]. constructor; try done; naive_solver. }
    intros d fd. rewrite elem_of_cons, Hl. apply fd_kind_inv in Hk. cbn in Hk. split.
    + intros [E'|(c' & cl' & H1 & H2)]; [simplify_eq; exists c, cl; split; [left|done]|].
      exists c', cl'. split; [by right|done].
    + intros (c' & cl' & [->|H1]%elem_of_cons & H2 & H3); [|right; by exists c', cl'].
      left. simplify_eq. rewrite Hk in H3. by destruct d, d0; simplify_eq/=.
  - destruct (cancel_one c w cl Hc Hk Ha) as (w1 & E1 & D1). rewrite E1. cbn [mbind option_bind].
    destruct (IH w1 Hnd) as (l & w' & E & Hd & Hl).
    { intros c' Hc'. destruct (Hall c') as (cl' & H1 & H2); [by right|].
      assert (c' ∉ [c]) by (rewrite list_elem_of_singleton; naive_solver).
      exists cl'. rewrite (rd_cls _ _ _ D1) by done. split; [done|]. by apply (rd_ok _ _ _ D1). }
    exists l, w'. split; [done|]. split; [by apply (rest_done_trans [c] cs w w1 w')|].
    intros d fd. rewrite Hl. split; intros (c' & cl' & H1 & H2 & H3).
    + exists c', cl'. split; [by right|]. split; [|done].
      rewrite <- H2. symmetry. apply (rd_cls _ _ _ D1). rewrite list_elem_of_singleton. naive_solver.
    + apply elem_of_cons in H1 as [->|H1].
      { exfalso. rewrite Hc in H2. simplify_eq. rewrite H3 in Hk. by destruct d. }
      exists c', cl'. split; [done|]. split; [|done].
      rewrite (rd_cls _ _ _ D1); [done|]. rewrite list_elem_of_singleton. naive_solver.
Qed.

Definition is_running (w : world) : Prop := ∃ x, w_crs w !! w_r w = Some x ∧ ready_linked x = false.

Lemma world_waitfor c id d fd w : clauses_ok w → is_running w → w_cls w !! c = None →
  fd_waits w !! c = None ∧
  ∃ k w', wt_waitfor c id d fd w = Some w' ∧ clauses_ok w' ∧ is_running w' ∧
    fd_waits w' = <[c := (k, d, fd)]> (fd_waits w) ∧ w_ready w' = w_ready w.
Proof.
  intros Hok (x & Hx & Hr) Hc. split.
  { destruct (fd_waits w !! c) as [[[k' d'] fd']|] eqn:E; [|done].
    apply fd_waits_Some in E as (cl & ? & ? & _). congruence. }
  exists (w_r w). cbn [wt_waitfor world_waiters]. unfold dill_waitfor, upd_cr. cbn. rewrite Hx. cbn.
  eexists. split; [done|]. split; [|split; [|split; [|done]]].
  - intros i y. cbn. rewrite lookup_insert_Some. intros [[<- <-]|[Hn Hy]] Hry; cbn in *.
    + destruct (Hok _ _ Hx Hr) as [Hnd Hall]. split.
      * constructor; [|done]. intros Hin. destruct (Hall c Hin) as (cl & ? & _). congruence.
      * intros c' [->|Hin]%elem_of_cons.
        { exists (mk_clause (w_r w) id (fd_cancel d fd)). rewrite lookup_insert_eq. by destruct d. }
        destruct (Hall c' Hin) as (cl & H1 & H2). exists cl. rewrite lookup_insert_ne by congruence. done.
    + destruct (Hok _ _ Hy Hry) as [Hnd Hall]. split; [done|].
      intros c' Hin. destruct (Hall c' Hin) as (cl & H1 & H2). exists cl. rewrite lookup_insert_ne by congruence. done.
  - eexists. cbn. by rewrite lookup_insert_eq.
  - apply map_eq. intros c'. apply option_eq. intros [[k' d'] fd'].
    rewrite fd_waits_Some, lookup_insert_Some, fd_waits_Some. cbn. split.
    + intros (cl & y & H1 & H2 & H3 & H4 & H5 & H6). apply lookup_insert_Some in H1 as [[<- <-]|[Hn H1]].
      * left. cbn in *. split; [done|]. by destruct d, d'; simplify_eq/=.
      * right. split; [done|]. apply lookup_insert_Some in H4 as [[<- <-]|[Hn' H4]]; [|by exists cl, y].
        cbn in H6. apply elem_of_cons in H6 as [?|H6]; [congruence|]. by exists cl, x.
    + intros [[<- [= <- <- <-]]|[Hn (cl & y & H1 & H2 & H3 & H4 & H5 & H6)]].
      * eexists _, _. rewrite !lookup_insert_eq. repeat split; [done|]. cbn. left.
      * exists cl. destruct (decide (k' = w_r w)) as [->|Hk].
        { eexists. rewrite lookup_insert_eq, lookup_insert_ne by done. repeat split; try done. cbn.
          rewrite Hx in H4. simplify_eq. by right. }
        exists y. rewrite !lookup_insert_ne by done. done.
Qed.

Lemma world_trigger c k d fd w : clauses_ok w → fd_waits w !! c = Some (k, d, fd) →
  ∃ cs w', wt_trigger c w = Some (cs, w') ∧ clauses_ok w' ∧
    fd_waits w' = filter (λ x, x.2.1.1 ≠ k) (fd_waits w) ∧
    (∀ d fd, (d, fd) ∈ cs ↔ ∃ c', fd_waits w !! c' = Some (k, d, fd)) ∧
    w_ready w' = w_ready w ++ [k].
Proof.
  intros Hok (cl & x & Hc & Hk & Ek & Hx & Hr & Hin)%fd_waits_Some.
  destruct (Hok k x Hx Hr) as [Hnd Hall].
  destruct (cancel_rest_ok (clauses x) w Hnd) as (l & w1 & E & D & Hl).
  { intros c' Hc'. destruct (Hall c' Hc') as (cl' & ? & _ & ?). by exists cl'. }
  cbn [wt_trigger world_waiters]. rewrite Hc. cbn [mbind option_bind]. rewrite Hk, Hx. cbn [mbind option_bind].
  rewrite Hr, E. cbn [mbind option_bind]. unfold dill_resume, upd_cr. rewrite (rd_crs _ _ _ D), Hx. cbn.
  (** a clause of another coroutine is untouched *)
  assert (Hother : ∀ i y c', i ≠ k → w_crs w !! i = Some y → ready_linked y = false → c' ∈ clauses y →
    c' ∉ clauses x).
  { intros i y c' Hi Hy Hry Hc' Hcx. destruct (Hok i y Hy Hry) as [_ Hally].
    destruct (Hally c' Hc') as (cl1 & ? & ? & _), (Hall c' Hcx) as (cl2 & ? & ? & _). congruence. }
  eexists _, _. split; [done|]. split; [|split; [|split]].
  - intros i y. cbn. rewrite lookup_insert_Some. intros [[<- <-]|[Hn Hy]] Hry; [done|].
    destruct (Hok i y Hy Hry) as [Hndy Hally]. split; [done|]. intros c' Hc'.
    destruct (Hally c' Hc') as (cl' & H1 & H2 & H3). exists cl'.
    pose proof (Hother i y c' ltac:(done) Hy Hry Hc') as Hno.
    rewrite (rd_cls _ _ _ D) by done. split; [done|]. split; [done|]. apply (rd_ok _ _ _ D c' _ Hno) in H3.
    by destruct (cl_cancel cl').
  - apply map_eq. intros c'. apply option_eq. intros [[k' d'] fd'].
    rewrite map_lookup_filter_Some, !fd_waits_Some. cbn. split.
    + intros (cl' & y & H1 & <- & H3 & H4 & H5 & H6). apply lookup_insert_Some in H4 as [[Hk' <-]|[Hn H4]]; [done|].
      split; [|done]. exists cl', y.
      rewrite (rd_cls _ _ _ D) in H1 by (by apply (Hother (cl_cr cl') y c')). done.
    + intros [(cl' & y & H1 & H2 & H3 & H4 & H5 & H6) Hn]. exists cl', y.
      rewrite lookup_insert_ne by done. split; [|done]. apply (rd_fds _ _ _ D c' cl' (d', fd')); [done|].
      rewrite H3. by destruct d'.
  - intros d' fd'. rewrite Hl. split.
    + intros (c' & cl' & H1 & H2 & H3). exists c'. apply fd_waits_Some. exists cl', x.
      destruct (Hall c' H1) as (cl2 & ? & ? & _). repeat split; try done. congruence.
    + intros (c' & (cl' & y & H1 & H2 & H3 & H4 & H5 & H6)%fd_waits_Some). exists c', cl'.
      rewrite Hx in H4. by simplify_eq.
  - by rewrite (rd_ready _ _ _ D).
Qed.

#[export] Instance world_laws : WaitersLaws world := {|
  wt_ok := clauses_ok;
  wt_running := is_running;
  wt_fresh c w := w_cls w !! c = None;
  wt_fds := fd_waits;
  wt_ready := w_ready;
  waitfor_law := world_waitfor;
  trigger_law := world_trigger;
|}.
