(* ===== verification/Poll.v ===== *)
(** The back end of the pollset for poll(2) ([poll.c.inc]).

    The array given to poll(2) is compact: descriptors are added at its end, and one that is
    removed is overwritten with the last.  [idx] of [struct dill_fdinfo] points back into it.
    The theorems are proved for any runtime that implements [Waiters]. *)

From S2P Require Import Prelude Handle World Cr Waiters.
From Stdlib Require Import ZArith Lia.
From stdpp Require Import base gmap list.
Open Scope Z_scope.

(** * The data *)

(** What poll(2) reports of a descriptor: POLLIN, POLLOUT, and whether one of POLLERR,
    POLLHUP and POLLNVAL. *)
Definition revents : Type := bool * bool * bool.
Definition reported (d : dir) (rv : revents) : bool :=
  let '(rin, rout, rerr) := rv in match d with DIn => rin || rerr | DOut => rout || rerr end.
Definition no_revents (rv : revents) : bool := let '(rin, rout, rerr) := rv in negb (rin || rout || rerr).

(** [struct pollfd] *)
Record pollfd := mk_pollfd { pfd_fd : Z; pfd_events : events; pfd_revents : revents }.
Definition mask (d : dir) (b : bool) (e : pollfd) : pollfd :=
  mk_pollfd (pfd_fd e) (ev_set d b (pfd_events e)) (pfd_revents e).

(** [struct dill_fdinfo] *)
Record dill_fdinfo := mk_fdinfo {
  f_idx : Z;
  f_in : option Z;
  f_out : option Z;
  f_cached : bool;
}.
Definition f_get (d : dir) (f : dill_fdinfo) : option Z := match d with DIn => f_in f | DOut => f_out f end.
Definition f_set (d : dir) (c : option Z) (f : dill_fdinfo) : dill_fdinfo :=
  match d with
  | DIn => mk_fdinfo (f_idx f) c (f_out f) (f_cached f)
  | DOut => mk_fdinfo (f_idx f) (f_in f) c (f_cached f)
  end.
Definition set_idx (i : Z) (f : dill_fdinfo) : dill_fdinfo := mk_fdinfo i (f_in f) (f_out f) (f_cached f).
Definition set_cached (b : bool) (f : dill_fdinfo) : dill_fdinfo := mk_fdinfo (f_idx f) (f_in f) (f_out f) b.

(** [struct dill_ctx_pollset] *)
Record dill_ctx_pollset := mk_pollset {
  pollset_size : Z;
  pollset : list pollfd;
  nfdinfos : Z;
  fdinfos : list dill_fdinfo;
}.

(** [ctx->fdinfos[fd] = f(ctx->fdinfos[fd])], and the same for the pollset. *)
Definition upd_info (fd : Z) (f : dill_fdinfo → dill_fdinfo) (p : dill_ctx_pollset) : option dill_ctx_pollset :=
  i ← zget (fdinfos p) fd;
  l ← zset (fdinfos p) fd (f i);
  Some (mk_pollset (pollset_size p) (pollset p) (nfdinfos p) l).
Definition upd_pfd (i : Z) (f : pollfd → pollfd) (p : dill_ctx_pollset) : option dill_ctx_pollset :=
  e ← zget (pollset p) i;
  l ← zset (pollset p) i (f e);
  Some (mk_pollset (pollset_size p) l (nfdinfos p) (fdinfos p)).
Definition set_size (n : Z) (p : dill_ctx_pollset) : dill_ctx_pollset :=
  mk_pollset n (pollset p) (nfdinfos p) (fdinfos p).

(** * The operations *)

(** [malloc_pollset n] is the memory malloc returns for [n] entries, whatever it contains,
    and [malloc_infos] whether the second malloc succeeds. *)
Definition dill_ctx_pollset_init (maxfds : Z) (malloc_pollset : option (list pollfd)) (malloc_infos : bool)
    : errno_t + dill_ctx_pollset :=
  match malloc_pollset with
  | None => inl ENOMEM
  | Some set =>
    if malloc_infos
    then inr (mk_pollset 0 set maxfds (replicate (Z.to_nat maxfds) (mk_fdinfo (-1) None None false)))
    else inl ENOMEM
  end.

Definition fdcancel (d : dir) (fd : Z) (p : dill_ctx_pollset) : option dill_ctx_pollset :=
  i ← zget (fdinfos p) fd;
  p ← upd_info fd (f_set d None) p;
  upd_pfd (f_idx i) (mask d false) p.
Definition dill_fdcancelin (fd : Z) : dill_ctx_pollset → option dill_ctx_pollset := fdcancel DIn fd.
Definition dill_fdcancelout (fd : Z) : dill_ctx_pollset → option dill_ctx_pollset := fdcancel DOut fd.

(** [--ctx->pollset_size], and the last entry is moved to the vacant slot [i]. *)
Definition fill_slot (i : Z) (p : dill_ctx_pollset) : option dill_ctx_pollset :=
  let p := set_size (pollset_size p - 1) p in
  if i =? pollset_size p then Some p
  else
    lastpfd ← zget (pollset p) (pollset_size p);
    p ← upd_pfd i (λ _, lastpfd) p;
    upd_info (pfd_fd lastpfd) (set_idx i) p.

Section Poll.
Context {R : Type} `{Waiters R}.
Notation PM := (BM R dill_ctx_pollset).

Definition get_info (fd : Z) : PM dill_fdinfo := p ← b_get; b_lift (zget (fdinfos p) fd).
Definition get_pfd (i : Z) : PM pollfd := p ← b_get; b_lift (zget (pollset p) i).

(** A descriptor is checked when it is first used; [getfd] is the error of fcntl(F_GETFD). *)
Definition check_fd (getfd : option errno_t) (fd : Z) (fdi : dill_fdinfo) : PM Z :=
  if f_cached fdi then mret 0
  else match getfd with
       | Some e => if bool_decide (e = EBADF) then b_fail EBADF else b_crash
       | None => b_upd (upd_info fd (set_cached true));; mret 0
       end.

(** [if(fdi->idx < 0)]: a new entry at the end of the pollset *)
Definition enter_fd (fd : Z) (fdi : dill_fdinfo) : PM unit :=
  if f_idx fdi <? 0 then
    p ← b_get;
    b_upd (upd_info fd (set_idx (pollset_size p)));;
    b_upd (λ p, Some (set_size (pollset_size p + 1) p));;
    b_upd (upd_pfd (pollset_size p) (λ e, mk_pollfd fd (pfd_events e) (pfd_revents e)))
  else mret tt.

(** The part of [dill_pollset_in] and [dill_pollset_out] before the busy check. *)
Definition pollset_add (getfd : option errno_t) (fd : Z) : PM Z :=
  p ← b_get;
  if (fd <? 0) || (nfdinfos p <=? fd) then b_fail EBADF
  else
    fdi ← get_info fd;
    rc ← check_fd getfd fd fdi;
    if rc <? 0 then mret (-1) else enter_fd fd fdi;; mret 0.

(** [dill_pollset_in] and [dill_pollset_out] differ in the direction only. *)
Definition pollset_wait (d : dir) (getfd : option errno_t) (c id fd : Z) : PM Z :=
  rc ← pollset_add getfd fd;
  if rc <? 0 then mret (-1)
  else
    fdi ← get_info fd;
    match f_get d fdi with
    | Some _ => b_fail EBUSY
    | None =>
      b_upd (upd_pfd (f_idx fdi) (mask d true));;
      b_upd (upd_info fd (f_set d (Some c)));;
      b_waitfor c id d fd;;
      mret 0
    end.
Definition dill_pollset_in : option errno_t → Z → Z → Z → PM Z := pollset_wait DIn.
Definition dill_pollset_out : option errno_t → Z → Z → Z → PM Z := pollset_wait DOut.

Definition dill_pollset_clean (fd : Z) : PM Z :=
  fdi ← get_info fd;
  if negb (f_cached fdi) then mret 0
  else if bool_decide (is_Some (f_in fdi)) || bool_decide (is_Some (f_out fdi)) then b_fail EBUSY
  else
    (if 0 <=? f_idx fdi then
       b_upd (fill_slot (f_idx fdi));;
       b_upd (upd_info fd (set_idx (-1)))
     else mret tt);;
    b_upd (upd_info fd (set_cached false));;
    mret 0.

(** ** [dill_pollset_poll] *)

(** What poll(2) returns: EINTR, another error, or the events of each entry. *)
Inductive poll_result := PollIntr | PollError | PollEvents (rvs : list revents).

(** The kernel writes [revents] of the entries. *)
Fixpoint write_revents (rvs : list revents) (es : list pollfd) : list pollfd :=
  match rvs, es with
  | rv :: rvs, e :: es => mk_pollfd (pfd_fd e) (pfd_events e) rv :: write_revents rvs es
  | _, _ => es
  end.

(** "Resume the blocked coroutines" of one direction of entry [i]. *)
Definition fire_dir (d : dir) (i : Z) : PM unit :=
  pfd ← get_pfd i;
  fdi ← get_info (pfd_fd pfd);
  match f_get d fdi with
  | Some c =>
    if reported d (pfd_revents pfd) then b_upd (upd_pfd i (mask d false));; b_trigger fdcancel c
    else mret tt
  | None => mret tt
  end.

(** The body of the loop; the result tells whether entry [i] was removed. *)
Definition poll_entry (i : Z) : PM bool :=
  fire_dir DIn i;;
  fire_dir DOut i;;
  pfd ← get_pfd i;
  if (pfd_events pfd).1 || (pfd_events pfd).2 then mret false
  else
    b_upd (upd_info (pfd_fd pfd) (set_idx (-1)));;
    fdi ← get_info (pfd_fd pfd);
    b_assert (negb (bool_decide (is_Some (f_in fdi))) && negb (bool_decide (is_Some (f_out fdi))));;
    b_upd (fill_slot i);;
    mret true.

Fixpoint poll_entries (fuel : nat) (i : Z) : PM unit :=
  p ← b_get;
  if i =? pollset_size p then mret tt
  else match fuel with
       | O => b_crash
       | S fuel => removed ← poll_entry i; poll_entries fuel (if removed : bool then i else i + 1)
       end.

Definition dill_pollset_poll (res : poll_result) : PM Z :=
  match res with
  | PollIntr => mret (-1)
  | PollError => b_crash    (** [dill_assert(numevs >= 0)] *)
  | PollEvents rvs =>
    b_upd (λ p, Some (mk_pollset (pollset_size p) (write_revents rvs (pollset p)) (nfdinfos p) (fdinfos p)));;
    p ← b_get;
    poll_entries (Z.to_nat (pollset_size p)) 0;;
    mret (if forallb no_revents rvs then 0 else 1)
  end.
End Poll.

(** * The invariant *)

(** Entries and infos point to each other. *)
Record compact (p : dill_ctx_pollset) : Prop := {
  co_nfdinfos : nfdinfos p = Z.of_nat (length (fdinfos p));
  co_length : length (pollset p) = length (fdinfos p);
  co_size : 0 ≤ pollset_size p;
  co_idx : ∀ fd f, zget (fdinfos p) fd = Some f → f_idx f = -1 ∨
    (0 ≤ f_idx f < pollset_size p ∧ ∃ e, zget (pollset p) (f_idx f) = Some e ∧ pfd_fd e = fd);
  co_entry : ∀ j, 0 ≤ j < pollset_size p → ∃ e f, zget (pollset p) j = Some e ∧
    zget (fdinfos p) (pfd_fd e) = Some f ∧ f_idx f = j;
  co_cached : ∀ fd f, zget (fdinfos p) fd = Some f → 0 ≤ f_idx f → f_cached f = true;
}.

(** poll(2) is asked for what somebody waits for. *)
Definition asked (p : dill_ctx_pollset) : Prop :=
  ∀ fd f d c, zget (fdinfos p) fd = Some f → f_get d f = Some c →
    ∃ e, zget (pollset p) (f_idx f) = Some e ∧ ev_get d (pfd_events e) = true.

Lemma compact_size p : compact p → pollset_size p ≤ Z.of_nat (length (pollset p)).
Proof.
  intros Hc. destruct (decide (pollset_size p ≤ 0)); [lia|].
  destruct (co_entry p Hc (pollset_size p - 1)) as (e & f & E & _); [pose proof (co_size p Hc); lia|].
  apply zget_lt in E. lia.
Qed.

Lemma upd_info_ok fd f p i : compact p → zget (fdinfos p) fd = Some i →
  upd_info fd f p = Some (mk_pollset (pollset_size p) (pollset p) (nfdinfos p) (<[Z.to_nat fd := f i]> (fdinfos p))).
Proof. intros Hc E. unfold upd_info. rewrite E. cbn. by rewrite zset_ok by (by eapply zget_lt). Qed.

Lemma upd_pfd_ok i f p e : zget (pollset p) i = Some e →
  upd_pfd i f p = Some (mk_pollset (pollset_size p) (<[Z.to_nat i := f e]> (pollset p)) (nfdinfos p) (fdinfos p)).
Proof. intros E. unfold upd_pfd. rewrite E. cbn. by rewrite zset_ok by (by eapply zget_lt). Qed.

(** ** Cancelling

    [cleared Pe Pf p p']: the bits of [events] that [Pe] tells are reset, and the fields [in]
    and [out] that [Pf] tells. *)
Definition info_cleared (P : dir → Prop) (f f' : dill_fdinfo) : Prop :=
  f_idx f' = f_idx f ∧ f_cached f' = f_cached f ∧
  ∀ d c, f_get d f' = Some c ↔ f_get d f = Some c ∧ ¬ P d.
Definition pfd_cleared (P : dir → Prop) (e e' : pollfd) : Prop :=
  pfd_fd e' = pfd_fd e ∧ pfd_revents e' = pfd_revents e ∧
  ∀ d, ev_get d (pfd_events e') = true ↔ ev_get d (pfd_events e) = true ∧ ¬ P d.

Record cleared (Pe Pf : dir → Z → Prop) (p p' : dill_ctx_pollset) : Prop := {
  cd_size : pollset_size p' = pollset_size p;
  cd_nfdinfos : nfdinfos p' = nfdinfos p;
  cd_len : length (fdinfos p') = length (fdinfos p);
  cd_length : length (pollset p') = length (pollset p);
  cd_infos : ∀ fd f, zget (fdinfos p) fd = Some f →
    ∃ f', zget (fdinfos p') fd = Some f' ∧ info_cleared (λ d, Pf d fd) f f';
  cd_pfds : ∀ j e, j < pollset_size p → zget (pollset p) j = Some e →
    ∃ e', zget (pollset p') j = Some e' ∧ pfd_cleared (λ d, Pe d (pfd_fd e)) e e';
}.

Lemma cleared_refl p : cleared (λ _ _, False) (λ _ _, False) p p.
Proof.
  constructor; try done.
  - intros fd f E. exists f. split; [done|]. split; [done|]. split; [done|]. naive_solver.
  - intros j e _ E. exists e. split; [done|]. split; [done|]. split; [done|]. naive_solver.
Qed.

Lemma cleared_trans Pe1 Pf1 Pe2 Pf2 p1 p2 p3 : cleared Pe1 Pf1 p1 p2 → cleared Pe2 Pf2 p2 p3 →
  cleared (λ d fd, Pe1 d fd ∨ Pe2 d fd) (λ d fd, Pf1 d fd ∨ Pf2 d fd) p1 p3.
Proof.
  intros [A1 A2 A3 A4 A5 A6] [B1 B2 B3 B4 B5 B6]. constructor; try congruence.
  - intros fd f E. destruct (A5 fd f E) as (f1 & E1 & I1 & C1 & G1).
    destruct (B5 fd f1 E1) as (f2 & E2 & I2 & C2 & G2). exists f2. split; [done|].
    split; [congruence|]. split; [congruence|]. intros d c. rewrite G2, G1. tauto.
  - intros j e Hj E. destruct (A6 j e Hj E) as (e1 & E1 & I1 & C1 & G1).
    destruct (B6 j e1 ltac:(lia) E1) as (e2 & E2 & I2 & C2 & G2). exists e2. split; [done|].
    split; [congruence|]. split; [congruence|]. intros d. rewrite G2, G1, I1. tauto.
Qed.

Lemma cleared_ext Pe Pf Pe' Pf' p p' : (∀ d fd, Pe d fd ↔ Pe' d fd) → (∀ d fd, Pf d fd ↔ Pf' d fd) →
  cleared Pe Pf p p' → cleared Pe' Pf' p p'.
Proof.
  intros He Hf [A1 A2 A3 A4 A5 A6]. constructor; try done.
  - intros fd f E. destruct (A5 fd f E) as (f1 & E1 & I1 & C1 & G1). exists f1. split; [done|].
    split; [done|]. split; [done|]. intros d c. by rewrite G1, Hf.
  - intros j e Hj E. destruct (A6 j e Hj E) as (e1 & E1 & I1 & C1 & G1). exists e1. split; [done|].
    split; [done|]. split; [done|]. intros d. by rewrite G1, He.
Qed.

Lemma cleared_compact Pe Pf p p' : cleared Pe Pf p p' → compact p → compact p'.
Proof.
  intros [A1 A2 A3 A4 A5 A6] Hc.
  assert (Hback : ∀ fd f', zget (fdinfos p') fd = Some f' →
    ∃ f, zget (fdinfos p) fd = Some f ∧ f_idx f' = f_idx f ∧ f_cached f' = f_cached f).
  { intros fd f' E. destruct (zget_is_Some (fdinfos p) fd) as [f Ef]; [apply zget_lt in E; lia|].
    destruct (A5 fd f Ef) as (f1 & E1 & I1 & C1 & _). exists f. by simplify_eq. }
  constructor.
  - rewrite A2, A3. apply Hc.
  - rewrite A4, A3. apply Hc.
  - rewrite A1. apply Hc.
  - intros fd f' E'. destruct (Hback fd f' E') as (f & E & I & _). rewrite I, A1.
    destruct (co_idx p Hc fd f E) as [|(Hi & e & Ee & Hfd)]; [by left|right]. split; [done|].
    destruct (A6 (f_idx f) e (proj2 Hi) Ee) as (e' & E1 & F1 & _). exists e'. split; [done|congruence].
  - rewrite A1. intros j Hj. destruct (co_entry p Hc j Hj) as (e & f & Ee & Ef & Ei).
    destruct (A6 j e ltac:(lia) Ee) as (e' & E1 & F1 & _). destruct (A5 _ f Ef) as (f' & E2 & I2 & _).
    exists e', f'. rewrite F1, I2. done.
  - intros fd f' E' Hi. destruct (Hback fd f' E') as (f & E & I & C). rewrite C.
    apply (co_cached p Hc fd f E). by rewrite <- I.
Qed.

Lemma mask_cleared i d p e : compact p → 0 ≤ i < pollset_size p → zget (pollset p) i = Some e →
  ∃ p', upd_pfd i (mask d false) p = Some p' ∧ cleared (λ d' fd, d' = d ∧ fd = pfd_fd e) (λ _ _, False) p p'.
Proof.
  intros Hc Hi E. rewrite (upd_pfd_ok i _ p e E). eexists. split; [done|]. constructor; try done; cbn.
  - by rewrite length_insert.
  - intros fd f Ef. exists f. split; [done|]. split; [done|]. split; [done|]. naive_solver.
  - intros j e' Hj Ej. rewrite zget_insert by (by eapply zget_lt). case_decide as Hji.
    + subst j. rewrite E in Ej. simplify_eq. eexists. split; [done|]. split; [done|]. split; [done|].
      intros d'. destruct d, d'; cbn; naive_solver.
    + exists e'. split; [done|]. split; [done|]. split; [done|]. intros d'. split; [|tauto].
      intros He. split; [done|]. intros [-> Hfd].
      (** two entries of a descriptor are the same *)
      destruct (co_entry p Hc i Hi) as (e1 & f1 & E1 & F1 & I1).
      destruct (co_entry p Hc j) as (e2 & f2 & E2 & F2 & I2); [pose proof (zget_lt _ _ _ Ej); lia|].
      rewrite E in E1. rewrite Ej in E2. simplify_eq. rewrite Hfd in F2. rewrite F1 in F2. by simplify_eq.
Qed.

Lemma info_set_cleared fd d p f : compact p → zget (fdinfos p) fd = Some f →
  ∃ p', upd_info fd (f_set d None) p = Some p' ∧ cleared (λ _ _, False) (λ d' fd', d' = d ∧ fd' = fd) p p' ∧
    pollset p' = pollset p.
Proof.
  intros Hc E. rewrite (upd_info_ok fd _ p f Hc E). eexists. split; [done|]. split; [|done]. constructor; try done; cbn.
  - by rewrite length_insert.
  - intros fd' f' Ef. rewrite zget_insert by (by eapply zget_lt). case_decide as Hfd.
    + subst fd'. rewrite E in Ef. simplify_eq. eexists. split; [done|].
      split; [by destruct d|]. split; [by destruct d|]. intros d' c. destruct d, d'; cbn; naive_solver.
    + exists f'. split; [done|]. split; [done|]. split; [done|]. naive_solver.
  - intros j e _ Ej. exists e. split; [done|]. split; [done|]. split; [done|]. naive_solver.
Qed.

(** A cancel function is called for a descriptor that is in the pollset. *)
Definition polled (p : dill_ctx_pollset) (fd : Z) : Prop :=
  ∃ f, zget (fdinfos p) fd = Some f ∧ 0 ≤ f_idx f.

Lemma poll_fdcancel_ok d fd p : compact p → polled p fd →
  ∃ p', fdcancel d fd p = Some p' ∧
    cleared (λ d' fd', (d', fd') = (d, fd)) (λ d' fd', (d', fd') = (d, fd)) p p'.
Proof.
  intros Hc (f & Ef & Hf). unfold fdcancel. rewrite Ef. cbn [mbind option_bind].
  destruct (info_set_cleared fd d p f Hc Ef) as (p1 & E1 & C1 & Hp1). rewrite E1. cbn [mbind option_bind].
  destruct (co_idx p Hc fd f Ef) as [|(Hi & e & Ee & Hfd)]; [lia|].
  assert (Hc1 : compact p1) by (by eapply cleared_compact).
  destruct (mask_cleared (f_idx f) d p1 e Hc1) as (p2 & E2 & C2).
  { by rewrite (cd_size _ _ _ _ C1). } { by rewrite Hp1. }
  rewrite E2. exists p2. split; [done|]. eapply cleared_ext, cleared_trans; [| |exact C1|exact C2];
    intros d' fd'; cbn; try rewrite Hfd; naive_solver.
Qed.

Lemma cleared_polled Pe Pf p p' fd : cleared Pe Pf p p' → polled p fd → polled p' fd.
Proof.
  intros C (f & E & Hf). destruct (cd_infos _ _ _ _ C fd f E) as (f' & E' & I & _).
  exists f'. split; [done|]. by rewrite I.
Qed.

Lemma poll_cancel_fds_ok cs : ∀ p, compact p → (∀ d fd, (d, fd) ∈ cs → polled p fd) →
  ∃ p', cancel_fds fdcancel cs p = Some p' ∧ cleared (λ d fd, (d, fd) ∈ cs) (λ d fd, (d, fd) ∈ cs) p p'.
Proof.
  induction cs as [|[d fd] cs IH]; intros p Hc Hall.
  - exists p. split; [done|]. eapply cleared_ext, cleared_refl; intros d fd; rewrite elem_of_nil; done.
  - destruct (poll_fdcancel_ok d fd p Hc) as (p1 & E1 & C1); [apply (Hall d); left|].
    cbn [cancel_fds]. rewrite E1. cbn [mbind option_bind].
    destruct (IH p1) as (p2 & E2 & C2); [by eapply cleared_compact| |].
    { intros d' fd' Hin. eapply cleared_polled; [done|]. apply (Hall d'). by right. }
    exists p2. split; [done|]. eapply cleared_ext, cleared_trans; [| |exact C1|exact C2];
      intros d' fd'; cbn; rewrite elem_of_cons; tauto.
Qed.

(** ** Removing an entry *)

(** Entry [i], of descriptor [fd], is removed, and the last entry takes its place. *)
Record dropped (fd i : Z) (p p' : dill_ctx_pollset) : Prop := {
  dr_size : pollset_size p' = pollset_size p - 1;
  dr_nfdinfos : nfdinfos p' = nfdinfos p;
  dr_len : length (fdinfos p') = length (fdinfos p);
  dr_length : length (pollset p') = length (pollset p);
  dr_pfds : ∀ j, 0 ≤ j < pollset_size p - 1 →
    zget (pollset p') j = if decide (j = i) then zget (pollset p) (pollset_size p - 1) else zget (pollset p) j;
  dr_infos : ∀ fd' f, zget (fdinfos p) fd' = Some f → ∃ f', zget (fdinfos p') fd' = Some f' ∧
    f_in f' = f_in f ∧ f_out f' = f_out f ∧ f_cached f' = f_cached f ∧
    f_idx f' = if decide (fd' = fd) then -1 else if decide (f_idx f = pollset_size p - 1) then i else f_idx f;
}.

Lemma entry_info p i e f : compact p → 0 ≤ i < pollset_size p → zget (pollset p) i = Some e →
  zget (fdinfos p) (pfd_fd e) = Some f → f_idx f = i.
Proof.
  intros Hc Hi Ee Ef. destruct (co_entry p Hc i Hi) as (e' & f' & Ee' & Ef' & Hf').
  by simplify_eq.
Qed.

(** The loop of [dill_pollset_poll] resets [idx] before it fills the slot. *)
Lemma drop_ok i p e : compact p → 0 ≤ i < pollset_size p → zget (pollset p) i = Some e →
  ∃ p1 p', upd_info (pfd_fd e) (set_idx (-1)) p = Some p1 ∧ fill_slot i p1 = Some p' ∧
    dropped (pfd_fd e) i p p' ∧
    ∀ f, zget (fdinfos p) (pfd_fd e) = Some f → zget (fdinfos p1) (pfd_fd e) = Some (set_idx (-1) f).
Proof.
  intros Hc Hi Ee. destruct (co_entry p Hc i Hi) as (e0 & f & Ee0 & Ef & Hf).
  rewrite Ee in Ee0. symmetry in Ee0. simplify_eq. pose proof (zget_lt _ _ _ Ef) as Hfd.
  rewrite (upd_info_ok _ _ _ _ Hc Ef). unfold fill_slot.
  exists (mk_pollset (pollset_size p) (pollset p) (nfdinfos p)
    (<[Z.to_nat (pfd_fd e) := set_idx (-1) f]> (fdinfos p))). cbn.
  pose proof (compact_size p Hc) as Hs.
  destruct (co_entry p Hc (pollset_size p - 1)) as (l & fl & El & Efl & Hfl); [lia|].
  destruct (Z.eqb_spec (f_idx f) (pollset_size p - 1)) as [Hlast|Hlast].
  - eexists. split; [done|]. split; [done|]. split; [|intros f' Ef'; rewrite zget_insert by done;
      rewrite decide_True by done; congruence]. constructor; try done; cbn.
    + by rewrite length_insert.
    + intros j Hj. by rewrite decide_False by lia.
    + intros fd' f' Ef'. rewrite zget_insert by done. case_decide as Hd.
      * subst. rewrite Ef in Ef'. simplify_eq. eexists. done.
      * exists f'. repeat split; try done. case_decide as Hi'; [|done].
        exfalso. apply Hd. destruct (co_idx p Hc fd' f' Ef') as [|(_ & e' & Ee' & <-)]; [lia|].
        rewrite Hi', <- Hlast in Ee'. by simplify_eq.
  - assert (Hne : pfd_fd l ≠ pfd_fd e).
    { intros Heq. rewrite Heq, Ef in Efl. simplify_eq; lia. }
    rewrite El. cbn. unfold upd_pfd. cbn. rewrite Ee. cbn. rewrite zset_ok by lia. cbn.
    unfold upd_info. cbn. rewrite zget_insert by done. rewrite decide_False, Efl by done. cbn.
    rewrite zset_ok by (rewrite length_insert; by eapply zget_lt). cbn.
    eexists. split; [done|]. split; [done|]. split; [|intros f' Ef'; cbn; rewrite zget_insert by done;
      rewrite decide_True by done; congruence]. constructor; try done; cbn.
    + by rewrite !length_insert.
    + by rewrite length_insert.
    + intros j Hj. rewrite zget_insert by lia. case_decide; congruence.
    + intros fd' f' Ef'. rewrite zget_insert by (rewrite length_insert; by eapply zget_lt).
      case_decide as Hd; [subst fd'|].
      * rewrite Efl in Ef'. simplify_eq. eexists. split; [done|]. repeat split; try done. cbn.
        by rewrite decide_False, decide_True by done.
      * rewrite zget_insert by done. case_decide as Hd'.
        { subst. rewrite Ef in Ef'. simplify_eq. by eexists. }
        exists f'. repeat split; try done. case_decide as Hi'; [|done].
        exfalso. apply Hd. destruct (co_idx p Hc fd' f' Ef') as [|(_ & e' & Ee' & <-)]; [lia|].
        rewrite Hi', El in Ee'. by simplify_eq.
Qed.

(** [dill_pollset_clean] fills the slot first, which makes no difference. *)
Lemma drop_clean i p e p1 p' : compact p → 0 ≤ i < pollset_size p → zget (pollset p) i = Some e →
  upd_info (pfd_fd e) (set_idx (-1)) p = Some p1 → fill_slot i p1 = Some p' →
  ∃ p2, fill_slot i p = Some p2 ∧ upd_info (pfd_fd e) (set_idx (-1)) p2 = Some p'.
Proof.
  intros Hc Hi Ee E1 E2. destruct (co_entry p Hc i Hi) as (e0 & f & Ee0 & Ef & Hf).
  rewrite Ee in Ee0. symmetry in Ee0. simplify_eq. pose proof (zget_lt _ _ _ Ef) as Hfd.
  rewrite (upd_info_ok _ _ _ _ Hc Ef) in E1. injection E1 as <-. unfold fill_slot in *. cbn in E2.
  pose proof (compact_size p Hc) as Hs.
  destruct (co_entry p Hc (pollset_size p - 1)) as (l & fl & El & Efl & Hfl); [lia|]. cbn.
  destruct (Z.eqb_spec (f_idx f) (pollset_size p - 1)) as [Hlast|Hlast].
  - injection E2 as <-. eexists. split; [done|]. unfold upd_info. cbn. rewrite Ef. cbn. by rewrite zset_ok.
  - assert (Hne : pfd_fd l ≠ pfd_fd e).
    { intros Heq. rewrite Heq, Ef in Efl. simplify_eq; lia. }
    pose proof (zget_lt _ _ _ Efl). rewrite El in E2 |- *. cbn in E2 |- *. unfold upd_pfd in *. cbn in E2 |- *.
    rewrite Ee in E2 |- *. cbn in E2 |- *. rewrite zset_ok in E2 |- * by lia. cbn in E2 |- *.
    unfold upd_info in *. cbn in E2 |- *. rewrite zget_insert, decide_False, Efl in E2 by done. rewrite Efl.
    cbn in E2 |- *. rewrite zset_ok in E2 by (rewrite length_insert; lia). rewrite zset_ok by lia.
    eexists. split; [done|]. cbn. rewrite zget_insert, decide_False, Ef by (done || lia). cbn.
    rewrite zset_ok by (rewrite length_insert; lia). cbn in E2 |- *. rewrite <- E2. do 2 f_equal.
    apply list_insert_insert_ne. pose proof (zget_lt _ _ _ Efl). intros ?. apply Hne. lia.
Qed.

Lemma dropped_compact fd i p p' e : dropped fd i p p' → compact p → 0 ≤ i < pollset_size p →
  zget (pollset p) i = Some e → pfd_fd e = fd → compact p'.
Proof.
  intros [A1 A2 A3 A4 A5 A6] Hc Hi Ee <-.
  destruct (co_entry p Hc i Hi) as (e0 & f0 & Ee0 & Ef0 & Hf0).
  rewrite Ee in Ee0. symmetry in Ee0. simplify_eq.
  destruct (co_entry p Hc (pollset_size p - 1)) as (l & fl & El & Efl & Hfl); [lia|].
  assert (Hback : ∀ fd f', zget (fdinfos p') fd = Some f' → ∃ f, zget (fdinfos p) fd = Some f).
  { intros fd f' E. apply zget_is_Some. apply zget_lt in E. lia. }
  constructor; try lia.
  - rewrite A2, A3. apply Hc.
  - rewrite A4, A3. apply Hc.
  - intros fd f' E'. destruct (Hback fd f' E') as (f & E). destruct (A6 fd f E) as (f2 & E2 & _ & _ & _ & I).
    rewrite E' in E2. symmetry in E2. simplify_eq. rewrite I, A1. case_decide as H1; [by left|].
    destruct (co_idx p Hc fd f E) as [Hm|(Hx & y & Ex & Hfd)].
    { left. rewrite decide_False by lia. done. }
    right. case_decide as H2.
    + rewrite H2, El in Ex. simplify_eq.
      assert (f_idx f0 ≠ pollset_size p - 1).
      { intros Heq. rewrite Heq, El in Ee. by simplify_eq. }
      split; [lia|]. exists y. rewrite A5 by lia. by rewrite decide_True.
    + split; [lia|]. exists y. rewrite A5 by lia. rewrite decide_False; [done|]. intros Heq. rewrite Heq, Ee in Ex.
      by simplify_eq.
  - rewrite A1. intros j Hj. rewrite A5 by lia. case_decide as Hd.
    + subst j. destruct (A6 _ fl Efl) as (f' & E' & _ & _ & _ & I). exists l, f'. rewrite I.
      rewrite decide_False, decide_True; [done|done|]. intros Heq. rewrite Heq, Ef0 in Efl. simplify_eq; lia.
    + destruct (co_entry p Hc j) as (y & f & E & Ef & Hf); [lia|].
      destruct (A6 _ f Ef) as (f' & E' & _ & _ & _ & I). exists y, f'. rewrite I.
      rewrite decide_False, decide_False; [done|lia|]. intros Heq. rewrite Heq, Ef0 in Ef. by simplify_eq.
  - intros fd f' E' Hx. destruct (Hback fd f' E') as (f & E). destruct (A6 fd f E) as (f2 & E2 & _ & _ & C & I).
    rewrite E' in E2. symmetry in E2. simplify_eq. rewrite C. apply (co_cached p Hc fd f E).
    rewrite I in Hx. case_decide; [lia|]. case_decide; lia.
Qed.

Section Spec.
Context {R : Type} `{LawsR : WaitersLaws R}.
Notation PM := (BM R dill_ctx_pollset).
Notation state := (bst R dill_ctx_pollset).
Implicit Types s : state.

(** The pollset and the runtime agree on who waits for what. *)
Record pollset_ok (s : state) : Prop := {
  pk_rt : wt_ok (b_rt s);
  pk_compact : compact (b_ctx s);
  pk_asked : asked (b_ctx s);
  pk_agree : ∀ c d fd, (∃ k, wt_fds (b_rt s) !! c = Some (k, d, fd)) ↔
    ∃ f, zget (fdinfos (b_ctx s)) fd = Some f ∧ f_get d f = Some c;
}.

Lemma agree_unique s c c' k k' d fd : pollset_ok s → wt_fds (b_rt s) !! c = Some (k, d, fd) →
  wt_fds (b_rt s) !! c' = Some (k', d, fd) → c = c' ∧ k = k'.
Proof.
  intros Hs E E'. destruct (proj1 (pk_agree s Hs c d fd)) as (f & Ef & Hf); [by exists k|].
  destruct (proj1 (pk_agree s Hs c' d fd)) as (f' & Ef' & Hf'); [by exists k'|]. by simplify_eq.
Qed.

Lemma agree_waits s c d fd f : pollset_ok s → zget (fdinfos (b_ctx s)) fd = Some f → f_get d f = Some c →
  ∃ k, wt_fds (b_rt s) !! c = Some (k, d, fd).
Proof. intros Hs E Hf. apply (pk_agree s Hs). by exists f. Qed.

Lemma waits_polled s c k d fd : pollset_ok s → wt_fds (b_rt s) !! c = Some (k, d, fd) → polled (b_ctx s) fd.
Proof.
  intros Hs E. destruct (proj1 (pk_agree s Hs c d fd)) as (f & Ef & Hf); [by exists k|].
  destruct (pk_asked s Hs fd f d c Ef Hf) as (e & Ee & _). exists f. split; [done|]. apply zget_lt in Ee. lia.
Qed.

Lemma poll_get_info_run fd s f : zget (fdinfos (b_ctx s)) fd = Some f → get_info fd s = Some (f, s).
Proof. intros E. unfold get_info. rewrite (b_run b_get _ s (b_ctx s) s eq_refl). unfold b_lift. by rewrite E. Qed.

Lemma get_pfd_run i s e : zget (pollset (b_ctx s)) i = Some e → get_pfd i s = Some (e, s).
Proof. intros E. unfold get_pfd. rewrite (b_run b_get _ s (b_ctx s) s eq_refl). unfold b_lift. by rewrite E. Qed.

(** ** Triggering the waiter of one direction *)

Lemma mask_cancel_ok d i fd (cs : list (dir * Z)) p e : compact p → 0 ≤ i < pollset_size p → zget (pollset p) i = Some e →
  pfd_fd e = fd → (∀ d fd, (d, fd) ∈ cs → polled p fd) → (d, fd) ∈ cs →
  ∃ p1 p', upd_pfd i (mask d false) p = Some p1 ∧ cancel_fds fdcancel cs p1 = Some p' ∧
    cleared (λ d fd, (d, fd) ∈ cs) (λ d fd, (d, fd) ∈ cs) p p'.
Proof.
  intros Hc Hi Ee Hfd Hcs Hin. destruct (mask_cleared i d p e Hc Hi Ee) as (p1 & E1 & C1).
  destruct (poll_cancel_fds_ok cs p1) as (p' & E2 & C2); [by eapply cleared_compact| |].
  { intros d' fd' H'. eapply cleared_polled, Hcs; done. }
  exists p1, p'. split; [done|]. split; [done|].
  eapply cleared_ext, cleared_trans; [| |exact C1|exact C2]; intros d' fd'; cbn; naive_solver.
Qed.

(** The clauses of one coroutine are canceled. *)
Lemma cleared_ok s k (cs : list (dir * Z)) r' p' : pollset_ok s → wt_ok r' →
  wt_fds r' = filter (λ x, x.2.1.1 ≠ k) (wt_fds (b_rt s)) →
  (∀ d fd, (d, fd) ∈ cs ↔ ∃ c', wt_fds (b_rt s) !! c' = Some (k, d, fd)) →
  cleared (λ d fd, (d, fd) ∈ cs) (λ d fd, (d, fd) ∈ cs) (b_ctx s) p' →
  pollset_ok (mk_bst r' p' (b_errno s)).
Proof.
  intros Hs Hr Hw Hcs C. pose proof (pk_compact s Hs) as Hc. constructor; cbn; [done|by eapply cleared_compact| |].
  - intros fd f' d c Ef' Hf'. destruct (zget_is_Some (fdinfos (b_ctx s)) fd) as [f Ef].
    { rewrite <- (cd_len _ _ _ _ C). by eapply zget_lt. }
    destruct (cd_infos _ _ _ _ C fd f Ef) as (f1 & Ef1 & I & _ & G). rewrite Ef' in Ef1. symmetry in Ef1. simplify_eq.
    destruct (proj1 (G d c) Hf') as [Hfc Hno]. destruct (pk_asked s Hs fd f d c Ef Hfc) as (e & Ee & Hb).
    destruct (co_idx _ Hc fd f Ef) as [Hm|(Hi & e0 & Ee0 & Hfd)]; [apply zget_lt in Ee; lia|].
    destruct (cd_pfds _ _ _ _ C (f_idx f) e (proj2 Hi) Ee) as (e' & Ee' & _ & _ & Ge).
    exists e'. rewrite I. split; [done|]. apply Ge. split; [done|]. by simplify_eq.
  - intros c d fd. rewrite Hw. setoid_rewrite map_lookup_filter_Some. cbn. split.
    + intros (k' & Hk' & Hne). destruct (proj1 (pk_agree s Hs c d fd)) as (f & Ef & Hf); [by exists k'|].
      destruct (cd_infos _ _ _ _ C fd f Ef) as (f' & Ef' & _ & _ & G). exists f'. split; [done|]. apply G.
      split; [done|]. intros (c' & Hc')%Hcs. by destruct (agree_unique s c c' k' k d fd Hs Hk' Hc').
    + intros (f' & Ef' & Hf'). destruct (zget_is_Some (fdinfos (b_ctx s)) fd) as [f Ef].
      { rewrite <- (cd_len _ _ _ _ C). by eapply zget_lt. }
      destruct (cd_infos _ _ _ _ C fd f Ef) as (f1 & Ef1 & _ & _ & G). rewrite Ef' in Ef1. symmetry in Ef1. simplify_eq.
      destruct (proj1 (G d c) Hf') as [Hfc Hno]. destruct (agree_waits s c d fd f Hs Ef Hfc) as [k' Hk'].
      exists k'. split; [done|]. intros ->. apply Hno, Hcs. by exists c.
Qed.

Definition at_dir (d : dir) (fd : Z) (rv : revents) : Z → dir → bool :=
  λ fd' d', bool_decide (fd' = fd) && bool_decide (d' = d) && reported d rv.

Lemma poll_at_dir_true d fd rv fd' d' : at_dir d fd rv fd' d' = true ↔ fd' = fd ∧ d' = d ∧ reported d rv = true.
Proof. unfold at_dir. rewrite !andb_true_iff, !bool_decide_eq_true. tauto. Qed.

(** Firing changes entries only by resetting bits. *)
Definition faded (p p' : dill_ctx_pollset) : Prop := ∃ P, cleared P P p p'.

Lemma faded_refl p : faded p p.
Proof. eexists. apply cleared_refl. Qed.

Lemma faded_trans p1 p2 p3 : faded p1 p2 → faded p2 p3 → faded p1 p3.
Proof. intros [P1 C1] [P2 C2]. eexists. by eapply cleared_trans. Qed.

Lemma fire_dir_ok d i s e : pollset_ok s → 0 ≤ i < pollset_size (b_ctx s) →
  zget (pollset (b_ctx s)) i = Some e →
  ∃ s', fire_dir d i s = Some (tt, s') ∧ pollset_ok s' ∧ b_errno s' = b_errno s ∧
    fired (at_dir d (pfd_fd e) (pfd_revents e)) (b_rt s) (b_rt s') ∧ faded (b_ctx s) (b_ctx s').
Proof.
  intros Hs Hi Ee. pose proof (pk_compact s Hs) as Hc.
  destruct (co_entry _ Hc i Hi) as (e0 & f & Ee0 & Ef & Hf). rewrite Ee in Ee0. symmetry in Ee0. simplify_eq.
  unfold fire_dir. brun (get_pfd_run _ _ _ Ee). brun (poll_get_info_run _ _ _ Ef).
  assert (Hquiet : (∀ c, f_get d f = Some c → reported d (pfd_revents e) = false) →
    fired (at_dir d (pfd_fd e) (pfd_revents e)) (b_rt s) (b_rt s)).
  { intros Hno. apply fired_none. intros k (c & d' & fd' & Hw & (-> & -> & Hr)%poll_at_dir_true).
    destruct (proj1 (pk_agree s Hs c d (pfd_fd e))) as (f' & Ef' & Hf'); [by exists k|]. simplify_eq.
    by rewrite (Hno c Hf') in Hr. }
  destruct (f_get d f) as [c|] eqn:Hg.
  2: { exists s. split; [done|]. split; [done|]. split; [done|]. split; [by apply Hquiet|apply faded_refl]. }
  destruct (reported d (pfd_revents e)) eqn:Hr.
  2: { exists s. split; [done|]. split; [done|]. split; [done|]. split; [by apply Hquiet|apply faded_refl]. }
  destruct (agree_waits s c d _ f Hs Ef Hg) as [k Hk].
  destruct (trigger_law c k d (pfd_fd e) (b_rt s) (pk_rt s Hs) Hk) as (cs & r' & E & Hok & Hw & Hcs & Hq).
  destruct (mask_cancel_ok d (f_idx f) (pfd_fd e) cs (b_ctx s) e) as (p1 & p' & E1 & E2 & C); try done.
  { intros d' fd' (c' & Hc')%Hcs. by eapply waits_polled. } { apply Hcs. by exists c. }
  brun (b_upd_run _ _ _ E1). unfold b_trigger. cbn. rewrite E. cbn. rewrite E2. cbn.
  eexists. split; [done|]. split; [by eapply cleared_ok|]. split; [done|]. split; [|by eexists].
  exists [k]. split; [apply NoDup_singleton|]. split; [|split; [done|]].
  - intros k'. rewrite list_elem_of_singleton. split.
    + intros ->. exists c, d, (pfd_fd e). split; [done|]. by apply poll_at_dir_true.
    + intros (c' & d' & fd' & Hw' & (-> & -> & _)%poll_at_dir_true). by destruct (agree_unique s c c' k k' d (pfd_fd e) Hs Hk Hw').
  - cbn. rewrite Hw. apply map_filter_ext. intros c' x _. by rewrite list_elem_of_singleton.
Qed.

(** ** One entry *)

(** Descriptor [fd] is at index [i] or after, with [rv] reported. *)
Definition on_rest (i : Z) (p : dill_ctx_pollset) (fd : Z) (rv : revents) : Prop :=
  ∃ j e, i ≤ j < pollset_size p ∧ zget (pollset p) j = Some e ∧ pfd_fd e = fd ∧ pfd_revents e = rv.

Lemma faded_rest i p p' fd rv : compact p → 0 ≤ i → faded p p' → on_rest i p' fd rv ↔ on_rest i p fd rv.
Proof.
  intros Hc Hi [P C]. split; intros (j & e & Hj & Ee & <- & <-).
  - rewrite (cd_size _ _ _ _ C) in Hj. destruct (co_entry p Hc j) as (e0 & _ & E0 & _); [lia|].
    destruct (cd_pfds _ _ _ _ C j e0 (proj2 Hj) E0) as (e1 & E1 & H1 & H2 & _). simplify_eq.
    by exists j, e0.
  - destruct (cd_pfds _ _ _ _ C j e (proj2 Hj) Ee) as (e1 & E1 & H1 & H2 & _).
    exists j, e1. by rewrite (cd_size _ _ _ _ C).
Qed.

Lemma dropped_rest fd0 i p p' fd rv : 0 ≤ i < pollset_size p → dropped fd0 i p p' →
  on_rest i p' fd rv ↔ on_rest (i + 1) p fd rv.
Proof.
  intros Hi D. unfold on_rest. rewrite (dr_size _ _ _ _ D). split; intros (j & e & Hj & Ee & H1 & H2).
  - rewrite (dr_pfds _ _ _ _ D) in Ee by lia. case_decide.
    + exists (pollset_size p - 1), e. split; [lia|done].
    + exists j, e. split; [lia|done].
  - destruct (decide (j = pollset_size p - 1)) as [->|Hn].
    + exists i, e. split; [lia|]. rewrite (dr_pfds _ _ _ _ D) by lia. by rewrite decide_True.
    + exists j, e. split; [lia|]. rewrite (dr_pfds _ _ _ _ D) by lia. by rewrite decide_False by lia.
Qed.

Lemma rest_next i p fd rv e : zget (pollset p) i = Some e → i < pollset_size p →
  on_rest i p fd rv ↔ (fd = pfd_fd e ∧ rv = pfd_revents e) ∨ on_rest (i + 1) p fd rv.
Proof.
  intros Ee Hi. split.
  - intros (j & e' & Hj & Ee' & <- & <-). destruct (decide (j = i)) as [->|Hn].
    + left. by simplify_eq.
    + right. exists j, e'. split; [lia|done].
  - intros [[-> ->]|(j & e' & Hj & H')]; [exists i, e|exists j, e']; (split; [lia|done]).
Qed.

(** An entry that nobody asks for is removed, and nobody waits for its descriptor. *)
Lemma unasked_waits s i e d f : pollset_ok s → 0 ≤ i < pollset_size (b_ctx s) →
  zget (pollset (b_ctx s)) i = Some e → zget (fdinfos (b_ctx s)) (pfd_fd e) = Some f →
  (pfd_events e).1 || (pfd_events e).2 = false → f_get d f = None.
Proof.
  intros Hs Hi Ee Ef Hev. destruct (f_get d f) as [c|] eqn:Hg; [|done]. exfalso.
  destruct (pk_asked s Hs _ f d c Ef Hg) as (e' & Ee' & Hb).
  rewrite (entry_info _ _ _ _ (pk_compact s Hs) Hi Ee Ef), Ee in Ee'. simplify_eq.
  apply orb_false_iff in Hev as [H1 H2]. destruct d; cbn in Hb; congruence.
Qed.

Lemma dropped_ok s fd i p' e : pollset_ok s → 0 ≤ i < pollset_size (b_ctx s) →
  zget (pollset (b_ctx s)) i = Some e → pfd_fd e = fd →
  (∀ f d, zget (fdinfos (b_ctx s)) fd = Some f → f_get d f = None) →
  dropped fd i (b_ctx s) p' → pollset_ok (mk_bst (b_rt s) p' (b_errno s)).
Proof.
  intros Hs Hi Ee Hfd Hno D. pose proof (pk_compact s Hs) as Hc.
  assert (Hinfo : ∀ fd' f' d c, zget (fdinfos p') fd' = Some f' → f_get d f' = Some c →
    ∃ f, zget (fdinfos (b_ctx s)) fd' = Some f ∧ f_get d f = Some c ∧
      f_idx f' = if decide (fd' = fd) then -1 else if decide (f_idx f = pollset_size (b_ctx s) - 1) then i else f_idx f).
  { intros fd' f' d c Ef' Hg. destruct (zget_is_Some (fdinfos (b_ctx s)) fd') as [f Ef].
    { rewrite <- (dr_len _ _ _ _ D). by eapply zget_lt. }
    destruct (dr_infos _ _ _ _ D fd' f Ef) as (f1 & Ef1 & H1 & H2 & _ & H3). simplify_eq. exists f.
    split; [done|]. split; [|done]. destruct d; cbn in *; congruence. }
  constructor; cbn; [apply Hs|by eapply dropped_compact| |].
  - intros fd' f' d c Ef' Hg. destruct (Hinfo fd' f' d c Ef' Hg) as (f & Ef & Hf & Hidx).
    destruct (decide (fd' = fd)) as [->|Hn]; [by rewrite (Hno f d Ef) in Hf|].
    destruct (pk_asked s Hs fd' f d c Ef Hf) as (e' & Ee' & Hb). exists e'. split; [|done].
    destruct (co_idx _ Hc fd' f Ef) as [Hm|(Hx & e2 & E2 & Hfd2)]; [apply zget_lt in Ee'; lia|].
    rewrite Ee' in E2. symmetry in E2. simplify_eq.
    assert (f_idx f ≠ i) by (intros Heq; rewrite Heq, Ee in Ee'; by simplify_eq).
    rewrite Hidx. case_decide as Hl.
    + rewrite (dr_pfds _ _ _ _ D) by lia. rewrite decide_True by done. by rewrite <- Hl.
    + rewrite (dr_pfds _ _ _ _ D) by lia. by rewrite decide_False.
  - intros c d fd'. rewrite (pk_agree s Hs). split.
    + intros (f & Ef & Hf). destruct (dr_infos _ _ _ _ D fd' f Ef) as (f1 & Ef1 & H1 & H2 & _).
      exists f1. split; [done|]. destruct d; cbn in *; congruence.
    + intros (f' & Ef' & Hf'). destruct (Hinfo fd' f' d c Ef' Hf') as (f & Ef & Hf & _). by exists f.
Qed.

Definition at_fd (fd : Z) (rv : revents) : Z → dir → bool := λ fd' d', at_dir DIn fd rv fd' d' || at_dir DOut fd rv fd' d'.

Lemma poll_at_fd_true fd rv fd' d' : at_fd fd rv fd' d' = true ↔ fd' = fd ∧ reported d' rv = true.
Proof. unfold at_fd. rewrite orb_true_iff, !poll_at_dir_true. destruct d'; naive_solver. Qed.

Lemma poll_entry_ok i s e : pollset_ok s → 0 ≤ i < pollset_size (b_ctx s) →
  zget (pollset (b_ctx s)) i = Some e →
  ∃ b s', poll_entry i s = Some (b, s') ∧ pollset_ok s' ∧ b_errno s' = b_errno s ∧
    fired (at_fd (pfd_fd e) (pfd_revents e)) (b_rt s) (b_rt s') ∧
    pollset_size (b_ctx s') = pollset_size (b_ctx s) - (if b : bool then 1 else 0) ∧
    ∀ fd rv, on_rest (if b then i else i + 1) (b_ctx s') fd rv ↔ on_rest (i + 1) (b_ctx s) fd rv.
Proof.
  intros Hs Hi Ee. unfold poll_entry.
  destruct (fire_dir_ok DIn i s e Hs Hi Ee) as (s1 & E1 & Hs1 & Q1 & F1 & D1). brun E1.
  assert (Hi1 : 0 ≤ i < pollset_size (b_ctx s1)) by (destruct D1 as [? D1]; by rewrite (cd_size _ _ _ _ D1)).
  destruct (co_entry _ (pk_compact s1 Hs1) i Hi1) as (e1 & f1 & Ee1 & _).
  assert (He1 : pfd_fd e1 = pfd_fd e ∧ pfd_revents e1 = pfd_revents e).
  { destruct D1 as [? D1]. destruct (cd_pfds _ _ _ _ D1 i e (proj2 Hi) Ee) as (? & ? & ? & ? & _). by simplify_eq. }
  destruct (fire_dir_ok DOut i s1 e1 Hs1 Hi1 Ee1) as (s2 & E2 & Hs2 & Q2 & F2 & D2). brun E2.
  destruct He1 as [Hfd1 Hrv1]. rewrite Hfd1, Hrv1 in F2. pose proof (fired_trans _ _ _ _ _ F1 F2) as F.
  assert (Hi2 : 0 ≤ i < pollset_size (b_ctx s2)) by (destruct D2 as [? D2]; by rewrite (cd_size _ _ _ _ D2)).
  destruct (co_entry _ (pk_compact s2 Hs2) i Hi2) as (e2 & f2 & Ee2 & Ef2 & Hf2). brun (get_pfd_run _ _ _ Ee2).
  assert (Hfd2 : pfd_fd e2 = pfd_fd e).
  { destruct D2 as [? D2]. destruct (cd_pfds _ _ _ _ D2 i e1 (proj2 Hi1) Ee1) as (? & ? & ? & _). simplify_eq; congruence. }
  pose proof (faded_trans _ _ _ D1 D2) as D.
  assert (Hsize : pollset_size (b_ctx s2) = pollset_size (b_ctx s)) by (destruct D as [? D]; by rewrite (cd_size _ _ _ _ D)).
  destruct ((pfd_events e2).1 || (pfd_events e2).2) eqn:Hev.
  { exists false, s2. split; [done|]. split; [done|]. split; [congruence|]. split; [done|]. split; [lia|].
    intros fd rv. apply faded_rest; [apply Hs|lia|done]. }
  destruct (drop_ok i (b_ctx s2) e2 (pk_compact s2 Hs2) Hi2 Ee2) as (p1 & p2 & U1 & U2 & Dr & Hinfo).
  brun (b_upd_run _ _ _ U1). erewrite b_run by (apply poll_get_info_run; apply (Hinfo f2 Ef2)). cbn [b_ctx b_rt b_errno].
  pose proof (λ d, unasked_waits s2 i e2 d f2 Hs2 Hi2 Ee2 Ef2 Hev) as Hno.
  rewrite (b_run _ _ _ tt (mk_bst (b_rt s2) p1 (b_errno s2))).
  2: { unfold b_assert. cbn. pose proof (Hno DIn) as N1. pose proof (Hno DOut) as N2. cbn in N1, N2. by rewrite N1, N2. }
  brun (b_upd_run _ (mk_bst (b_rt s2) p1 (b_errno s2)) _ U2). eexists true, _. split; [done|]. cbn [b_ctx b_rt b_errno].
  split; [|split; [congruence|split; [done|split]]].
  - apply (dropped_ok s2 (pfd_fd e2) _ p2 e2 Hs2 Hi2 Ee2 eq_refl); [|done]. intros f d Ef. simplify_eq. apply Hno.
  - by rewrite (dr_size _ _ _ _ Dr), Hsize.
  - intros fd rv. rewrite (dropped_rest _ _ _ _ _ _ Hi2 Dr). apply faded_rest; [apply Hs|lia|done].
Qed.

Lemma poll_entries_ok rev fuel : ∀ i s, pollset_ok s → 0 ≤ i ≤ pollset_size (b_ctx s) →
  pollset_size (b_ctx s) - i ≤ Z.of_nat fuel →
  (∀ fd rv d, on_rest i (b_ctx s) fd rv → reported d rv = rev fd d) →
  (∀ c k d fd, wt_fds (b_rt s) !! c = Some (k, d, fd) → rev fd d = true → ∃ rv, on_rest i (b_ctx s) fd rv) →
  ∃ s', poll_entries fuel i s = Some (tt, s') ∧ pollset_ok s' ∧ b_errno s' = b_errno s ∧
    fired rev (b_rt s) (b_rt s').
Proof.
  induction fuel as [|fuel IH]; intros i s Hs Hi Hfuel Hrev Hw; cbn [poll_entries];
    rewrite (b_run b_get _ s (b_ctx s) s eq_refl); destruct (Z.eqb_spec i (pollset_size (b_ctx s))) as [->|Hn]; try lia.
  1,2: exists s; do 3 (split; [done|]); apply fired_none;
    intros k (c & d & fd & Hc & Hr); destruct (Hw c k d fd Hc Hr) as (rv & j & e & ? & _); lia.
  destruct (co_entry _ (pk_compact s Hs) i) as (e & _ & Ee & _); [lia|].
  destruct (poll_entry_ok i s e Hs ltac:(lia) Ee) as (b & s1 & E1 & Hs1 & Q1 & F1 & Hsz & Hrest). brun E1.
  pose proof (λ fd rv, rest_next i (b_ctx s) fd rv e Ee ltac:(lia)) as Hnext.
  destruct (IH (if b then i else i + 1) s1) as (s' & E' & Hs' & Q' & F'); try done.
  - destruct b; lia.
  - destruct b; lia.
  - intros fd rv d Hr. apply Hrev, Hnext. right. by apply Hrest.
  - intros c k d fd Hc Hr. destruct F1 as (T & _ & HT & _ & HF). rewrite HF in Hc.
    apply map_lookup_filter_Some in Hc as [Hc HnT]. destruct (Hw c k d fd Hc Hr) as (rv & Hon).
    exists rv. apply Hrest. pose proof (Hrev fd rv d Hon) as Hrd. apply Hnext in Hon as [[-> ->]|Hon]; [|done].
    exfalso. apply HnT, HT. exists c, d, (pfd_fd e). split; [done|]. apply poll_at_fd_true. by rewrite Hrd.
  - exists s'. split; [done|]. split; [done|]. split; [congruence|].
    eapply fired_ext, fired_trans; [|exact F1|exact F']. intros c k d fd _. cbn.
    destruct (at_fd _ _ fd d) eqn:Hat; [|done]. apply poll_at_fd_true in Hat as [-> Hrd].
    cbn. rewrite <- (Hrev (pfd_fd e) (pfd_revents e) d); [done|]. apply Hnext. by left.
Qed.

(** ** poll(2) *)

(** What poll(2) reported for a direction of descriptor [fd]. *)
Definition reports (p : dill_ctx_pollset) (rvs : list revents) (fd : Z) (d : dir) : bool :=
  match f ← zget (fdinfos p) fd; zget rvs (f_idx f) with Some rv => reported d rv | None => false end.

Lemma write_revents_length rvs : ∀ es, length (write_revents rvs es) = length es.
Proof. induction rvs as [|rv rvs IH]; intros [|e es]; cbn; auto. Qed.

Lemma write_revents_lookup rvs : ∀ es j, write_revents rvs es !! j =
  (λ e, match rvs !! j with Some rv => mk_pollfd (pfd_fd e) (pfd_events e) rv | None => e end) <$> es !! j.
Proof.
  induction rvs as [|rv rvs IH]; intros [|e es] [|j]; try done; cbn.
  - by destruct (es !! j).
  - apply IH.
Qed.

Lemma zget_write rvs es j e : zget es j = Some e → zget (write_revents rvs es) j =
  Some (match zget rvs j with Some rv => mk_pollfd (pfd_fd e) (pfd_events e) rv | None => e end).
Proof.
  intros [Hj E]%zget_Some. unfold zget. destruct (Z.ltb_spec j 0); [lia|].
  by rewrite write_revents_lookup, E.
Qed.

Definition with_revents (rvs : list revents) (p : dill_ctx_pollset) : dill_ctx_pollset :=
  mk_pollset (pollset_size p) (write_revents rvs (pollset p)) (nfdinfos p) (fdinfos p).

Lemma with_revents_back rvs p j e' : zget (pollset (with_revents rvs p)) j = Some e' →
  ∃ e, zget (pollset p) j = Some e ∧ pfd_fd e' = pfd_fd e ∧ pfd_events e' = pfd_events e ∧
    ∀ rv, zget rvs j = Some rv → pfd_revents e' = rv.
Proof.
  cbn. intros E. destruct (zget_is_Some (pollset p) j) as [e Ee].
  { apply zget_lt in E. by rewrite write_revents_length in E. }
  rewrite (zget_write _ _ _ _ Ee) in E. exists e. split; [done|]. destruct (zget rvs j); simplify_eq; naive_solver.
Qed.

Lemma with_revents_ok rvs s : pollset_ok s → pollset_ok (mk_bst (b_rt s) (with_revents rvs (b_ctx s)) (b_errno s)).
Proof.
  intros Hs. pose proof (pk_compact s Hs) as Hc. constructor; cbn; [apply Hs| | |apply Hs].
  - constructor; cbn; try apply Hc.
    + rewrite write_revents_length. apply Hc.
    + intros fd f E. destruct (co_idx _ Hc fd f E) as [|(Hi & e & Ee & Hfd)]; [by left|right].
      split; [done|]. rewrite (zget_write _ _ _ _ Ee). eexists. split; [done|]. by destruct (zget rvs _).
    + intros j Hj. destruct (co_entry _ Hc j Hj) as (e & f & Ee & Ef & Hf). rewrite (zget_write _ _ _ _ Ee).
      eexists _, f. split; [done|]. by destruct (zget rvs j).
  - intros fd f d c E Hf. destruct (pk_asked s Hs fd f d c E Hf) as (e & Ee & Hb).
    cbn. rewrite (zget_write _ _ _ _ Ee). eexists. split; [done|]. by destruct (zget rvs _).
Qed.

Lemma poll_pollset_poll_ok rvs s : pollset_ok s → Z.of_nat (length rvs) = pollset_size (b_ctx s) →
  ∃ s', dill_pollset_poll (PollEvents rvs) s = Some (if forallb no_revents rvs then 0 else 1, s') ∧
    pollset_ok s' ∧ b_errno s' = b_errno s ∧ fired (reports (b_ctx s) rvs) (b_rt s) (b_rt s').
Proof.
  intros Hs Hlen. unfold dill_pollset_poll. set (p := b_ctx s) in *.
  erewrite b_run by (by apply b_upd_run). fold p. change (mk_pollset _ _ _ _) with (with_revents rvs p).
  set (s1 := mk_bst (b_rt s) (with_revents rvs p) (b_errno s)).
  rewrite (b_run b_get _ s1 (b_ctx s1) s1 eq_refl).
  pose proof (with_revents_ok rvs s Hs) as Hs1. fold p in Hs1. fold s1 in Hs1.
  pose proof (pk_compact s Hs) as Hc. fold p in Hc.
  destruct (poll_entries_ok (reports p rvs) (Z.to_nat (pollset_size (b_ctx s1))) 0 s1 Hs1) as (s' & E & Hs' & Q & F).
  - pose proof (co_size p Hc). cbn. lia.
  - pose proof (co_size p Hc). cbn. lia.
  - intros fd rv d (j & e' & Hj & Ee' & <- & <-). cbn in Hj. fold p in Hj.
    destruct (with_revents_back rvs p j e' Ee') as (e & Ee & -> & _ & Hrv).
    destruct (co_entry p Hc j Hj) as (e0 & f & Ee0 & Ef & Hf). rewrite Ee in Ee0. symmetry in Ee0. simplify_eq.
    destruct (zget_is_Some rvs (f_idx f)) as [rv Erv]; [lia|].
    unfold reports. rewrite Ef. cbn. rewrite Erv. by rewrite (Hrv rv Erv).
  - intros c k d fd Hcl _. destruct (waits_polled s1 c k d fd Hs1 Hcl) as (f & Ef & Hf).
    destruct (co_idx _ (pk_compact s1 Hs1) fd f Ef) as [|(Hx & e & Ee & Hfd)]; [lia|].
    exists (pfd_revents e), (f_idx f), e. done.
  - brun E. exists s'. split; [done|]. split; [done|]. split; [done|]. exact F.
Qed.

(** ** Waiting *)

(** Nobody's clauses change, and no entry. *)
Record kept (p p' : dill_ctx_pollset) : Prop := {
  kp_len : length (fdinfos p') = length (fdinfos p);
  kp_infos : ∀ fd f, zget (fdinfos p) fd = Some f → ∃ f', zget (fdinfos p') fd = Some f' ∧
    (∀ d, f_get d f' = f_get d f) ∧ (0 ≤ f_idx f → f_idx f' = f_idx f);
  kp_pfds : ∀ j e, j < pollset_size p → zget (pollset p) j = Some e → zget (pollset p') j = Some e;
}.

Lemma kept_ok s p' : pollset_ok s → kept (b_ctx s) p' → compact p' → pollset_ok (mk_bst (b_rt s) p' (b_errno s)).
Proof.
  intros Hs [K1 K2 K3] Hc.
  assert (Hback : ∀ fd f' d c, zget (fdinfos p') fd = Some f' → f_get d f' = Some c →
    ∃ f, zget (fdinfos (b_ctx s)) fd = Some f ∧ f_get d f = Some c ∧ (0 ≤ f_idx f → f_idx f' = f_idx f)).
  { intros fd f' d c Ef' Hg. destruct (zget_is_Some (fdinfos (b_ctx s)) fd) as [f Ef].
    { rewrite <- K1. by eapply zget_lt. }
    destruct (K2 fd f Ef) as (f1 & Ef1 & G & I). simplify_eq. exists f. rewrite <- G. done. }
  constructor; cbn; [apply Hs|done| |].
  - intros fd f' d c Ef' Hg. destruct (Hback fd f' d c Ef' Hg) as (f & Ef & Hf & I).
    destruct (pk_asked s Hs fd f d c Ef Hf) as (e & Ee & Hb).
    destruct (co_idx _ (pk_compact s Hs) fd f Ef) as [Hm|[Hx _]]; [apply zget_lt in Ee; lia|].
    exists e. rewrite I by lia. split; [|done]. apply K3; [lia|done].
  - intros c d fd. rewrite (pk_agree s Hs). split.
    + intros (f & Ef & Hf). destruct (K2 fd f Ef) as (f' & Ef' & G & _). exists f'. by rewrite G.
    + intros (f' & Ef' & Hf'). destruct (Hback fd f' d c Ef' Hf') as (f & Ef & Hf & _). by exists f.
Qed.

Lemma set_cached_ok p fd f b : compact p → zget (fdinfos p) fd = Some f → b = true ∨ f_idx f = -1 →
  ∃ p', upd_info fd (set_cached b) p = Some p' ∧ compact p' ∧ kept p p' ∧
    zget (fdinfos p') fd = Some (set_cached b f) ∧ pollset_size p' = pollset_size p ∧ nfdinfos p' = nfdinfos p.
Proof.
  intros Hc Ef Hb. pose proof (zget_lt _ _ _ Ef) as Hfd. rewrite (upd_info_ok fd _ p f Hc Ef).
  eexists. split; [done|]. assert (Hin : ∀ fd' f', zget (fdinfos p) fd' = Some f' →
    ∃ f2, zget (<[Z.to_nat fd := set_cached b f]> (fdinfos p)) fd' = Some f2 ∧ f_idx f2 = f_idx f' ∧ ∀ d, f_get d f2 = f_get d f').
  { intros fd' f' Ef'. rewrite zget_insert by done. case_decide as Hd; [|by exists f'].
    subst fd'. rewrite Ef in Ef'. simplify_eq. eexists. split; [done|]. split; [done|]. by intros []. }
  split; [constructor; cbn; try apply Hc|split; [constructor; cbn; try done|split]].
  - rewrite length_insert. apply Hc.
  - rewrite length_insert. apply Hc.
  - intros fd' f2 E2. destruct (zget_is_Some (fdinfos p) fd') as [f' Ef'].
    { apply zget_lt in E2. by rewrite length_insert in E2. }
    destruct (Hin fd' f' Ef') as (f3 & E3 & I & _). rewrite E2 in E3. simplify_eq. rewrite I. by apply (co_idx p Hc).
  - intros j Hj. destruct (co_entry p Hc j Hj) as (e & f' & Ee & Ef' & Hf).
    destruct (Hin _ f' Ef') as (f3 & E3 & I & _). exists e, f3. by rewrite I.
  - intros fd' f2. rewrite zget_insert by done. case_decide as Hd; [|apply (co_cached p Hc)].
    intros [= <-] Hx. cbn in Hx. destruct Hb as [->|Hb]; [done|lia].
  - by rewrite length_insert.
  - intros fd' f' Ef'. destruct (Hin fd' f' Ef') as (f3 & E3 & I & G). exists f3. by rewrite I.
  - cbn. rewrite zget_insert by done. by rewrite decide_True.
  - done.
Qed.

(** There is room for a descriptor that is not in the pollset. *)
Lemma room p fd f : compact p → zget (fdinfos p) fd = Some f → f_idx f = -1 →
  pollset_size p < Z.of_nat (length (pollset p)).
Proof.
  intros Hc Ef Hm. pose proof (compact_size p Hc). destruct (decide (pollset_size p = Z.of_nat (length (pollset p)))) as [Hn|]; [|lia].
  exfalso. pose proof (co_length p Hc) as Hl.
  assert (Hent : ∀ (i : nat) e, pollset p !! i = Some e → ∃ g, zget (fdinfos p) (pfd_fd e) = Some g ∧ f_idx g = Z.of_nat i).
  { intros i e Ee. pose proof (lookup_lt_Some _ _ _ Ee). destruct (co_entry p Hc (Z.of_nat i)) as (e' & g & Ee' & Eg & Hg); [lia|].
    apply zget_Some in Ee' as [_ Ee']. rewrite Nat2Z.id, Ee in Ee'. simplify_eq. by exists g. }
  assert (Hsub : (fd :: (pfd_fd <$> pollset p)) ⊆+ seqZ 0 (Z.of_nat (length (fdinfos p)))).
  { apply NoDup_submseteq.
    - constructor.
      + intros (e & -> & (i & Ei)%list_elem_of_lookup)%list_elem_of_fmap.
        destruct (Hent i e Ei) as (g & Eg & Hg). rewrite Ef in Eg. simplify_eq. lia.
      + apply NoDup_alt. intros i j x. rewrite !list_lookup_fmap. intros (e & Ei & ->)%fmap_Some (e' & Ej & Heq)%fmap_Some.
        destruct (Hent i e Ei) as (g & Eg & Hg), (Hent j e' Ej) as (g' & Eg' & Hg').
        rewrite Heq, Eg' in Eg. simplify_eq. lia.
    - intros x [->|(e & -> & (i & Ei)%list_elem_of_lookup)%list_elem_of_fmap]%elem_of_cons; apply elem_of_seqZ.
      + apply zget_lt in Ef. lia.
      + destruct (Hent i e Ei) as (g & Eg & Hg). apply zget_lt in Eg. lia. }
  apply submseteq_length in Hsub. cbn in Hsub. rewrite length_fmap, length_seqZ in Hsub. lia.
Qed.

Lemma add_entry_ok p fd f : compact p → zget (fdinfos p) fd = Some f → f_idx f = -1 → f_cached f = true →
  ∃ p1 p', upd_info fd (set_idx (pollset_size p)) p = Some p1 ∧
    upd_pfd (pollset_size p) (λ e, mk_pollfd fd (pfd_events e) (pfd_revents e)) (set_size (pollset_size p1 + 1) p1) = Some p' ∧
    compact p' ∧ kept p p' ∧ polled p' fd.
Proof.
  intros Hc Ef Hm Hca. pose proof (zget_lt _ _ _ Ef) as Hfd. pose proof (room p fd f Hc Ef Hm) as Hroom.
  pose proof (co_size p Hc) as Hs0. rewrite (upd_info_ok fd _ p f Hc Ef).
  set (p1 := mk_pollset _ _ _ _). exists p1.
  destruct (zget_is_Some (pollset p) (pollset_size p)) as [e0 Ee0]; [lia|].
  rewrite (upd_pfd_ok (pollset_size p) _ (set_size (pollset_size p1 + 1) p1) e0 Ee0). eexists. split; [done|]. split; [done|].
  split; [constructor; cbn; try lia|split; [constructor; cbn|]].
  - rewrite length_insert. apply Hc.
  - rewrite !length_insert. apply Hc.
  - intros fd' f'. rewrite zget_insert by done. case_decide as Hd.
    + intros [= <-]. cbn. right. split; [lia|]. rewrite zget_insert by lia. rewrite decide_True by done.
      eexists. split; [done|]. by subst.
    + intros Ef'. destruct (co_idx p Hc fd' f' Ef') as [|(Hx & e & Ee & <-)]; [by left|right].
      split; [lia|]. exists e. rewrite zget_insert by lia. by rewrite decide_False by lia.
  - intros j Hj. rewrite zget_insert by lia. case_decide as Hd.
    + subst j. eexists _, _. split; [done|]. cbn. rewrite zget_insert by done. by rewrite decide_True.
    + destruct (co_entry p Hc j) as (e & f' & Ee & Ef' & Hf'); [lia|]. exists e, f'. split; [done|]. split; [|done].
      rewrite zget_insert by done. rewrite decide_False; [done|]. intros Heq. rewrite Heq, Ef in Ef'. simplify_eq; lia.
  - intros fd' f'. rewrite zget_insert by done. case_decide as Hd; [|apply (co_cached p Hc)].
    intros [= <-] _. done.
  - by rewrite length_insert.
  - intros fd' f' Ef'. rewrite zget_insert by done. case_decide as Hd; [|by exists f'].
    subst fd'. rewrite Ef in Ef'. simplify_eq. eexists. split; [done|]. split; [by intros []|]. lia.
  - intros j e Hj Ee. rewrite zget_insert by lia. by rewrite decide_False by lia.
  - eexists. cbn. rewrite zget_insert by done. rewrite decide_True by done. split; [done|]. cbn. lia.
Qed.

(** A descriptor that the pollset takes: in range, and known or open. *)
Definition usable (p : dill_ctx_pollset) (getfd : option errno_t) (fd : Z) : Prop :=
  ∃ f, zget (fdinfos p) fd = Some f ∧ (f_cached f = true ∨ getfd = None).

Lemma kept_refl p : kept p p.
Proof. constructor; try done. intros fd f E. by exists f. Qed.

Lemma kept_trans p1 p2 p3 : pollset_size p1 ≤ pollset_size p2 → kept p1 p2 → kept p2 p3 → kept p1 p3.
Proof.
  intros Hsz [A1 A2 A3] [B1 B2 B3]. constructor; [congruence| |].
  - intros fd f E. destruct (A2 fd f E) as (f1 & E1 & G1 & I1). destruct (B2 fd f1 E1) as (f2 & E2 & G2 & I2).
    exists f2. split; [done|]. split; [intros d; by rewrite G2|]. intros Hi. rewrite I2; [by apply I1|]. rewrite I1; lia.
  - intros j e Hj E. apply B3; [lia|]. by apply A3.
Qed.

Lemma check_fd_ok getfd fd f s : compact (b_ctx s) → zget (fdinfos (b_ctx s)) fd = Some f →
  getfd = None ∨ getfd = Some EBADF →
  (check_fd getfd fd f s = Some (-1, mk_bst (b_rt s) (b_ctx s) EBADF) ∧ f_cached f = false ∧ getfd ≠ None) ∨
  (∃ p', check_fd getfd fd f s = Some (0, mk_bst (b_rt s) p' (b_errno s)) ∧ (f_cached f = true ∨ getfd = None) ∧
    compact p' ∧ kept (b_ctx s) p' ∧ pollset_size p' = pollset_size (b_ctx s) ∧
    zget (fdinfos p') fd = Some (set_cached true f)).
Proof.
  intros Hc Ef Hg. unfold check_fd. destruct (f_cached f) eqn:Hca.
  { right. exists (b_ctx s). split; [by destruct s|]. split; [by left|]. split; [done|]. split; [apply kept_refl|].
    split; [done|]. rewrite Ef. destruct f. cbn in *. by subst. }
  destruct Hg as [->| ->]; [right|left; done].
  destruct (set_cached_ok _ fd f true Hc Ef) as (p' & U & Hc' & Hk & Ef' & Hsz & _); [by left|].
  exists p'. brun (b_upd_run _ _ _ U). split; [done|]. split; [by right|]. done.
Qed.

Lemma enter_fd_ok fd f g s : compact (b_ctx s) → zget (fdinfos (b_ctx s)) fd = Some f → f_cached f = true →
  f_idx g = f_idx f →
  ∃ p', enter_fd fd g s = Some (tt, mk_bst (b_rt s) p' (b_errno s)) ∧
    compact p' ∧ kept (b_ctx s) p' ∧ polled p' fd.
Proof.
  intros Hc Ef Hca Hi. unfold enter_fd. rewrite Hi.
  destruct (co_idx _ Hc fd f Ef) as [Hm|(Hx & _)].
  - rewrite Hm. cbn [Z.ltb Z.compare]. destruct (add_entry_ok _ fd f Hc Ef Hm Hca) as (p1 & p2 & U1 & U2 & H2).
    exists p2. split; [|done]. rewrite (b_run b_get _ s (b_ctx s) s eq_refl).
    brun (b_upd_run _ _ _ U1). erewrite b_run by (by apply b_upd_run).
    exact (b_upd_run _ (mk_bst (b_rt s) (set_size (pollset_size p1 + 1) p1) (b_errno s)) p2 U2).
  - destruct (Z.ltb_spec (f_idx f) 0); [lia|]. exists (b_ctx s). split; [by destruct s|]. split; [done|].
    split; [apply kept_refl|]. exists f. split; [done|lia].
Qed.

Lemma pollset_add_ok getfd fd s : compact (b_ctx s) → getfd = None ∨ getfd = Some EBADF →
  (pollset_add getfd fd s = Some (-1, mk_bst (b_rt s) (b_ctx s) EBADF) ∧ ¬ usable (b_ctx s) getfd fd) ∨
  (∃ p', pollset_add getfd fd s = Some (0, mk_bst (b_rt s) p' (b_errno s)) ∧ usable (b_ctx s) getfd fd ∧
    compact p' ∧ kept (b_ctx s) p' ∧ polled p' fd).
Proof.
  intros Hc Hg. unfold pollset_add. rewrite (b_run b_get _ s (b_ctx s) s eq_refl). pose proof (co_nfdinfos _ Hc) as Hn.
  destruct ((fd <? 0) || (nfdinfos (b_ctx s) <=? fd)) eqn:Hr.
  { left. split; [done|]. intros (f & E & _). apply zget_lt in E. lia. }
  destruct (zget_is_Some (fdinfos (b_ctx s)) fd) as [f Ef]; [lia|]. brun (poll_get_info_run fd s f Ef).
  destruct (check_fd_ok getfd fd f s Hc Ef Hg) as [(E & Hca & Hgd)|(p1 & E & Hu & Hc1 & Hk1 & Hsz & Ef1)]; brun E.
  { left. split; [done|]. intros (f' & Ef' & H'). simplify_eq. destruct H'; congruence. }
  right. destruct (enter_fd_ok fd (set_cached true f) f (mk_bst (b_rt s) p1 (b_errno s)) Hc1 Ef1)
    as (p' & E' & Hc' & Hk' & Hp'); [done..|].
  exists p'. cbn [Z.ltb Z.compare]. brun E'. split; [done|]. split; [by exists f|]. split; [done|]. split; [|done].
  eapply kept_trans; [|done|done]. lia.
Qed.

(** [fdi->in = fdcl] and [events |= POLLIN] *)
Record claimed (d : dir) (fd c i : Z) (p p' : dill_ctx_pollset) : Prop := {
  cl_size : pollset_size p' = pollset_size p;
  cl_nfdinfos : nfdinfos p' = nfdinfos p;
  cl_len : length (fdinfos p') = length (fdinfos p);
  cl_length : length (pollset p') = length (pollset p);
  cl_infos : ∀ fd' f, zget (fdinfos p) fd' = Some f → ∃ f', zget (fdinfos p') fd' = Some f' ∧
    f_idx f' = f_idx f ∧ f_cached f' = f_cached f ∧
    ∀ d' c', f_get d' f' = Some c' ↔ f_get d' f = Some c' ∨ (fd' = fd ∧ d' = d ∧ c' = c);
  cl_pfds : ∀ j e, zget (pollset p) j = Some e → ∃ e', zget (pollset p') j = Some e' ∧ pfd_fd e' = pfd_fd e ∧
    ∀ d', ev_get d' (pfd_events e') = ev_get d' (pfd_events e) || (bool_decide (j = i) && bool_decide (d' = d));
}.

Lemma poll_claim_ok d fd c p f e : compact p → zget (fdinfos p) fd = Some f → zget (pollset p) (f_idx f) = Some e →
  f_get d f = None →
  ∃ p1 p2, upd_pfd (f_idx f) (mask d true) p = Some p1 ∧ upd_info fd (f_set d (Some c)) p1 = Some p2 ∧
    claimed d fd c (f_idx f) p p2.
Proof.
  intros Hc Ef Ee Hno. pose proof (zget_lt _ _ _ Ef) as Hr1. pose proof (zget_lt _ _ _ Ee) as Hr2.
  rewrite (upd_pfd_ok _ _ _ _ Ee). set (p1 := mk_pollset _ _ _ _). exists p1.
  unfold upd_info. change (fdinfos p1) with (fdinfos p). rewrite Ef. cbn [mbind option_bind]. rewrite zset_ok by done.
  eexists. split; [done|]. split; [done|]. constructor; cbn; try done.
  - by rewrite length_insert.
  - by rewrite length_insert.
  - intros fd' f' Ef'. rewrite zget_insert by done. case_decide as Hd; [|exists f'; naive_solver].
    subst fd'. rewrite Ef in Ef'. simplify_eq. eexists. split; [done|]. split; [by destruct d|]. split; [by destruct d|].
    intros d' c'. destruct d, d'; cbn in *; naive_solver.
  - intros j e' Ee'. rewrite zget_insert by lia. case_decide as Hd.
    + subst j. rewrite Ee in Ee'. simplify_eq. eexists. split; [done|]. split; [done|].
      intros d'. rewrite bool_decide_true by done. destruct d, d'; cbn; by rewrite ?orb_true_r, ?orb_false_r.
    + exists e'. split; [done|]. split; [done|]. intros d'. by rewrite bool_decide_false, orb_false_r.
Qed.

Lemma claimed_back d fd c i p p' fd' f' : claimed d fd c i p p' → zget (fdinfos p') fd' = Some f' →
  ∃ f, zget (fdinfos p) fd' = Some f ∧ f_idx f' = f_idx f ∧ f_cached f' = f_cached f ∧
    ∀ d' c', f_get d' f' = Some c' ↔ f_get d' f = Some c' ∨ (fd' = fd ∧ d' = d ∧ c' = c).
Proof.
  intros C Ef'. destruct (zget_is_Some (fdinfos p) fd') as [f Ef].
  { rewrite <- (cl_len _ _ _ _ _ _ C). by eapply zget_lt. }
  destruct (cl_infos _ _ _ _ _ _ C fd' f Ef) as (f1 & Ef1 & H'). simplify_eq. by exists f.
Qed.

Lemma claimed_compact d fd c i p p' : claimed d fd c i p p' → compact p → compact p'.
Proof.
  intros C Hc. pose proof C as [A1 A2 A3 A4 A5 A6]. constructor.
  - rewrite A2, A3. apply Hc.
  - rewrite A4, A3. apply Hc.
  - rewrite A1. apply Hc.
  - intros fd' f' E'. destruct (claimed_back _ _ _ _ _ _ fd' f' C E') as (f0 & E0 & I & _). rewrite I, A1.
    destruct (co_idx p Hc fd' f0 E0) as [|(Hy & e' & Ey & Hfd')]; [by left|right]. split; [done|].
    destruct (A6 _ e' Ey) as (e2 & E2 & F2 & _). exists e2. split; [done|congruence].
  - rewrite A1. intros j Hj. destruct (co_entry p Hc j Hj) as (e' & f0 & Ee' & E0 & Hf0).
    destruct (A6 j e' Ee') as (e2 & E2 & F2 & _). destruct (A5 _ f0 E0) as (f' & E' & I & _).
    exists e2, f'. rewrite F2, I. done.
  - intros fd' f' E' Hy. destruct (claimed_back _ _ _ _ _ _ fd' f' C E') as (f0 & E0 & I & Ca & _). rewrite Ca.
    apply (co_cached p Hc fd' f0 E0). lia.
Qed.

(** The clause is added. *)
Lemma add_clause_ok d fd c k r' f p s : pollset_ok s → compact p → kept (b_ctx s) p →
  zget (fdinfos p) fd = Some f → 0 ≤ f_idx f → f_get d f = None → wt_ok r' →
  wt_fds (b_rt s) !! c = None → wt_fds r' = <[c := (k, d, fd)]> (wt_fds (b_rt s)) →
  ∃ p1 p2, upd_pfd (f_idx f) (mask d true) p = Some p1 ∧ upd_info fd (f_set d (Some c)) p1 = Some p2 ∧
    pollset_ok (mk_bst r' p2 (b_errno s)).
Proof.
  intros Hs Hc Hk Ef Hi Hno Hr Hfr Hw. pose proof (kept_ok s p Hs Hk Hc) as Hs1.
  destruct (co_idx p Hc fd f Ef) as [|(Hx & e & Ee & Hfd)]; [lia|].
  destruct (poll_claim_ok d fd c p f e Hc Ef Ee Hno) as (p1 & p2 & U1 & U2 & C).
  exists p1, p2. split; [done|]. split; [done|]. constructor; cbn; [done|by eapply claimed_compact| |].
  - intros fd' f' d' c' E' Hg. destruct (claimed_back _ _ _ _ _ _ fd' f' C E') as (f0 & E0 & I & _ & G). rewrite I.
    destruct (proj1 (G d' c') Hg) as [Hg'|(-> & -> & ->)].
    + destruct (pk_asked _ Hs1 fd' f0 d' c' E0 Hg') as (e' & Ee' & Hb).
      destruct (cl_pfds _ _ _ _ _ _ C _ e' Ee') as (e2 & E2 & _ & V). exists e2. split; [done|]. by rewrite V, Hb.
    + rewrite Ef in E0. simplify_eq. destruct (cl_pfds _ _ _ _ _ _ C _ e Ee) as (e2 & E2 & _ & V).
      exists e2. split; [done|]. rewrite V, !bool_decide_true by done. by rewrite orb_true_r.
  - intros c' d' fd'. rewrite Hw. setoid_rewrite lookup_insert_Some. pose proof (pk_agree _ Hs1 c' d' fd') as Ha. cbn in Ha. split.
    + intros (k' & [[<- [= -> <- <-]]|[Hn Hk']]).
      * destruct (cl_infos _ _ _ _ _ _ C fd f Ef) as (f' & E' & _ & _ & G). exists f'. split; [done|]. apply G. by right.
      * destruct (proj1 Ha) as (f0 & E0 & Hg); [by exists k'|].
        destruct (cl_infos _ _ _ _ _ _ C fd' f0 E0) as (f' & E' & _ & _ & G). exists f'. split; [done|]. apply G. by left.
    + intros (f' & E' & Hg). destruct (claimed_back _ _ _ _ _ _ fd' f' C E') as (f0 & E0 & _ & _ & G).
      destruct (proj1 (G d' c') Hg) as [Hg'|(-> & -> & ->)].
      * destruct (proj2 Ha) as [k' Hk']; [by exists f0|]. exists k'. right. split; [|done]. congruence.
      * exists k. by left.
Qed.

Definition wait_outcome (d : dir) (getfd : option errno_t) (c fd : Z) (s : state) (rc : Z) (s' : state) : Prop :=
  (rc = -1 ∧ b_rt s' = b_rt s ∧
    ((b_errno s' = EBADF ∧ ¬ usable (b_ctx s) getfd fd) ∨
     (b_errno s' = EBUSY ∧ ∃ k c', wt_fds (b_rt s) !! c' = Some (k, d, fd)))) ∨
  (rc = 0 ∧ b_errno s' = b_errno s ∧ usable (b_ctx s) getfd fd ∧ (∀ k c', wt_fds (b_rt s) !! c' ≠ Some (k, d, fd)) ∧
    wt_ready (b_rt s') = wt_ready (b_rt s) ∧ ∃ k, wt_fds (b_rt s') = <[c := (k, d, fd)]> (wt_fds (b_rt s))).

Lemma poll_pollset_wait_ok d getfd c id fd s : pollset_ok s → wt_running (b_rt s) → wt_fresh c (b_rt s) →
  getfd = None ∨ getfd = Some EBADF →
  ∃ rc s', pollset_wait d getfd c id fd s = Some (rc, s') ∧ pollset_ok s' ∧ wt_running (b_rt s') ∧
    wait_outcome d getfd c fd s rc s'.
Proof.
  intros Hs Hrun Hfr Hg. unfold pollset_wait, wait_outcome.
  destruct (pollset_add_ok getfd fd s (pk_compact s Hs) Hg) as [[E Hu]|(p & E & Hu & Hc & Hk & (f & Ef & Hi))]; brun E.
  { exists (-1), (mk_bst (b_rt s) (b_ctx s) EBADF). split; [done|]. split; [by destruct Hs; constructor|].
    split; [done|]. left. split; [done|]. split; [done|]. by left. }
  cbn [Z.ltb Z.compare]. pose proof (kept_ok s p Hs Hk Hc) as Hs1.
  brun (poll_get_info_run fd (mk_bst (b_rt s) p (b_errno s)) f Ef). destruct (f_get d f) as [c'|] eqn:Hgf.
  { destruct (agree_waits _ c' d fd f Hs1 Ef Hgf) as [k Hk'].
    exists (-1), (mk_bst (b_rt s) p EBUSY). split; [done|]. split; [by destruct Hs1; constructor|].
    split; [done|]. left. split; [done|]. split; [done|]. right. split; [done|]. by exists k, c'. }
  destruct (waitfor_law c id d fd (b_rt s) (pk_rt s Hs) Hrun Hfr) as (Hnone & k & r' & W & Hok & Hrun' & Hw & Hq).
  destruct (add_clause_ok d fd c k r' f p s) as (p1 & p2 & U1 & U2 & Hs2); try done.
  brun (b_upd_run _ (mk_bst (b_rt s) p (b_errno s)) _ U1). cbn [b_ctx b_rt b_errno].
  brun (b_upd_run _ (mk_bst (b_rt s) p1 (b_errno s)) _ U2). cbn [b_ctx b_rt b_errno].
  rewrite (b_run _ _ _ tt (mk_bst r' p2 (b_errno s))) by (unfold b_waitfor; cbn; by rewrite W).
  exists 0, (mk_bst r' p2 (b_errno s)). split; [done|]. split; [done|]. split; [done|]. right.
  split; [done|]. split; [done|]. split; [done|]. split; [|split; [done|by exists k]].
  intros k' c' Hk'. destruct (proj1 (pk_agree _ Hs1 c' d fd)) as (f' & Ef' & Hf'); [by exists k'|].
  cbn in Ef'. simplify_eq.
Qed.

(** ** Cleaning *)

Lemma poll_pollset_clean_ok fd s : pollset_ok s → 0 ≤ fd < nfdinfos (b_ctx s) →
  ∃ rc s', dill_pollset_clean fd s = Some (rc, s') ∧ pollset_ok s' ∧ b_rt s' = b_rt s ∧
    ((rc = -1 ∧ b_errno s' = EBUSY ∧ ∃ c k d, wt_fds (b_rt s) !! c = Some (k, d, fd)) ∨
     (rc = 0 ∧ b_errno s' = b_errno s ∧
        ∃ f, zget (fdinfos (b_ctx s')) fd = Some f ∧ f_idx f = -1 ∧ f_cached f = false ∧ f_in f = None ∧ f_out f = None)).
Proof.
  intros Hs Hfd. pose proof (pk_compact s Hs) as Hc. pose proof (co_nfdinfos _ Hc) as Hn.
  destruct (zget_is_Some (fdinfos (b_ctx s)) fd) as [f Ef]; [lia|].
  unfold dill_pollset_clean. brun (poll_get_info_run fd s f Ef).
  assert (Hidle : f_cached f = false → f_idx f = -1).
  { intros Hca. destruct (co_idx _ Hc fd f Ef) as [|[Hx _]]; [done|]. rewrite (co_cached _ Hc fd f Ef) in Hca by lia. done. }
  destruct (f_cached f) eqn:Hca; cbn [negb].
  2: { exists 0, s. split; [done|]. split; [done|]. split; [done|]. right. split; [done|]. split; [done|].
    exists f. split; [done|]. split; [by apply Hidle|]. split; [done|].
    assert (Hw : ∀ d, f_get d f = None).
    { intros d. destruct (f_get d f) as [c|] eqn:Hg; [|done]. destruct (pk_asked s Hs fd f d c Ef Hg) as (e & Ee & _).
      rewrite Hidle in Ee by done. apply zget_lt in Ee. lia. }
    split; [apply (Hw DIn)|apply (Hw DOut)]. }
  destruct (bool_decide (is_Some (f_in f)) || bool_decide (is_Some (f_out f))) eqn:Hb.
  { exists (-1), (mk_bst (b_rt s) (b_ctx s) EBUSY). split; [done|]. split; [by destruct Hs; constructor|]. split; [done|].
    left. split; [done|]. split; [done|]. apply orb_true_iff in Hb as [[c Hg]%bool_decide_eq_true|[c Hg]%bool_decide_eq_true].
    - destruct (agree_waits s c DIn fd f Hs Ef Hg) as [k Hk]. by exists c, k, DIn.
    - destruct (agree_waits s c DOut fd f Hs Ef Hg) as [k Hk]. by exists c, k, DOut. }
  apply orb_false_iff in Hb as [Hbi%bool_decide_eq_false%eq_None_not_Some Hbo%bool_decide_eq_false%eq_None_not_Some].
  assert (Hdrop : ∃ p', (if 0 <=? f_idx f then b_upd (fill_slot (f_idx f));; b_upd (upd_info fd (set_idx (-1))) else mret tt) s
      = Some (tt, mk_bst (b_rt s) p' (b_errno s)) ∧ pollset_ok (mk_bst (b_rt s) p' (b_errno s)) ∧
      ∃ f', zget (fdinfos p') fd = Some f' ∧ f_idx f' = -1 ∧ f_in f' = None ∧ f_out f' = None).
  { destruct (co_idx _ Hc fd f Ef) as [Hm|(Hx & e & Ee & Hfe)].
    { rewrite Hm. exists (b_ctx s). split; [by destruct s|]. split; [by destruct s|]. by exists f. }
    destruct (Z.leb_spec 0 (f_idx f)); [|lia]. subst fd.
    destruct (drop_ok _ _ e Hc Hx Ee) as (p1 & p' & U1 & U2 & Dr & _).
    destruct (drop_clean _ _ e p1 p' Hc Hx Ee U1 U2) as (p2 & V1 & V2). exists p'. brun (b_upd_run _ _ _ V1).
    split; [exact (b_upd_run _ (mk_bst (b_rt s) p2 (b_errno s)) p' V2)|]. split.
    - apply (dropped_ok s (pfd_fd e) _ p' e Hs Hx Ee eq_refl); [|done]. intros f' d Ef'. simplify_eq. by destruct d.
    - destruct (dr_infos _ _ _ _ Dr _ f Ef) as (f' & Ef' & H1 & H2 & _ & H3). exists f'.
      rewrite decide_True in H3 by done. split; [done|]. split; [done|]. split; congruence. }
  destruct Hdrop as (p' & E & Hs' & f' & Ef' & Hm & Hi' & Ho'). brun E.
  destruct (set_cached_ok p' fd f' false (pk_compact _ Hs') Ef') as (p2 & U & Hc2 & Hk2 & Ef2 & _); [by right|].
  brun (b_upd_run _ (mk_bst (b_rt s) p' (b_errno s)) _ U). eexists 0, _. split; [done|]. cbn.
  split; [apply (kept_ok _ p2 Hs' Hk2 Hc2)|]. split; [done|]. right. split; [done|]. split; [done|].
  exists (set_cached false f'). done.
Qed.

(** ** Initialisation *)

Lemma poll_pollset_init_ok maxfds set infos p r e : 0 ≤ maxfds → wt_ok r → wt_fds r = ∅ →
  (∀ l, set = Some l → Z.of_nat (length l) = maxfds) →
  dill_ctx_pollset_init maxfds set infos = inr p → pollset_ok (mk_bst r p e).
Proof.
  intros Hm Hr Hw Hl. unfold dill_ctx_pollset_init. destruct set as [l|]; [|done]. destruct infos; [|done].
  intros [= <-]. pose proof (Hl l eq_refl) as Hlen.
  assert (Hinfo : ∀ fd f, zget (replicate (Z.to_nat maxfds) (mk_fdinfo (-1) None None false)) fd = Some f →
    f = mk_fdinfo (-1) None None false).
  { intros fd f [_ [-> _]%lookup_replicate]%zget_Some. done. }
  constructor; cbn; [done|constructor; cbn| |].
  - rewrite length_replicate. lia.
  - rewrite length_replicate. lia.
  - done.
  - intros fd f ->%Hinfo. by left.
  - lia.
  - by intros fd f ->%Hinfo.
  - intros fd f d c ->%Hinfo. by destruct d.
  - intros c d fd. rewrite Hw. setoid_rewrite lookup_empty. split; [naive_solver|].
    intros (f & ->%Hinfo & Hg). by destruct d.
Qed.

(** ** Every call does what [pollset.h] promises *)

Inductive call :=
  | CallIn (getfd : option errno_t) (c id fd : Z)
  | CallOut (getfd : option errno_t) (c id fd : Z)
  | CallClean (fd : Z)
  | CallPoll (res : poll_result).

Definition run_call (a : call) : PM Z :=
  match a with
  | CallIn getfd c id fd => dill_pollset_in getfd c id fd
  | CallOut getfd c id fd => dill_pollset_out getfd c id fd
  | CallClean fd => dill_pollset_clean fd
  | CallPoll res => dill_pollset_poll res
  end.

(** What the callers of the library and the system guarantee: a running coroutine waits
    with an unused clause, fcntl fails with EBADF only, only descriptors in range are cleaned,
    and poll(2), when it does not fail but for a signal, reports on each entry.  When it reports
    anything, then something that somebody waits for: it need not ([stale_events]), and then
    the call returns 1 although no clause is triggered. *)
Definition call_ok (s : state) (a : call) : Prop :=
  match a with
  | CallIn getfd c _ _ | CallOut getfd c _ _ =>
    wt_running (b_rt s) ∧ wt_fresh c (b_rt s) ∧ (getfd = None ∨ getfd = Some EBADF)
  | CallClean fd => 0 ≤ fd < nfdinfos (b_ctx s)
  | CallPoll PollIntr => True
  | CallPoll PollError => False
  | CallPoll (PollEvents rvs) => Z.of_nat (length rvs) = pollset_size (b_ctx s) ∧
      (forallb no_revents rvs = false → ∃ k, wakes (reports (b_ctx s) rvs) (b_rt s) k)
  end.

Definition call_outcome (a : call) (s : state) (rc : Z) (s' : state) : Prop :=
  match a with
  | CallIn getfd c _ fd => wait_outcome DIn getfd c fd s rc s'
  | CallOut getfd c _ fd => wait_outcome DOut getfd c fd s rc s'
  | CallClean fd => b_rt s' = b_rt s ∧
      ((rc = -1 ∧ b_errno s' = EBUSY ∧ ∃ c k d, wt_fds (b_rt s) !! c = Some (k, d, fd)) ∨
       (rc = 0 ∧ b_errno s' = b_errno s ∧ ∃ f, zget (fdinfos (b_ctx s')) fd = Some f ∧
          f_idx f = -1 ∧ f_cached f = false ∧ f_in f = None ∧ f_out f = None))
  | CallPoll (PollEvents rvs) => fired (reports (b_ctx s) rvs) (b_rt s) (b_rt s') ∧ b_errno s' = b_errno s ∧
      ((rc = 0 ∧ wt_ready (b_rt s') = wt_ready (b_rt s) ∧ wt_fds (b_rt s') = wt_fds (b_rt s)) ∨
       (rc = 1 ∧ ∃ k T, wt_ready (b_rt s') = wt_ready (b_rt s) ++ k :: T))
  | CallPoll _ => rc = -1 ∧ s' = s
  end.

(** A report without events wakes nobody. *)
Lemma quiet_reports p rvs fd d : forallb no_revents rvs = true → reports p rvs fd d = false.
Proof.
  intros Hq. unfold reports. destruct (zget (fdinfos p) fd) as [f|]; [|done]. cbn [mbind option_bind].
  destruct (zget rvs (f_idx f)) as [[[i o] e]|] eqn:E; [|done]. apply zget_Some in E as [_ E].
  rewrite forallb_forall in Hq. assert (Hin : In (i, o, e) rvs) by (by eapply list_elem_of_In, list_elem_of_lookup_2).
  apply Hq in Hin. destruct i, o, e; try done; by destruct d.
Qed.

(** The header's promise for the result of a poll. *)
Lemma poll_result_ok p rvs r r' :
  (forallb no_revents rvs = false → ∃ k, wakes (reports p rvs) r k) → fired (reports p rvs) r r' →
  let rc := if forallb no_revents rvs then 0 else 1 in
  (rc = 0 ∧ wt_ready r' = wt_ready r ∧ wt_fds r' = wt_fds r) ∨ (rc = 1 ∧ ∃ k T, wt_ready r' = wt_ready r ++ k :: T).
Proof.
  intros Hw (T & _ & HT & Hq & Hf). destruct (forallb no_revents rvs) eqn:E; cbn zeta.
  - left. assert (T = []) as ->.
    { destruct T as [|k T]; [done|]. destruct (proj1 (HT k)) as (c & d & fd & _ & Hr); [by left|].
      by rewrite quiet_reports in Hr. }
    rewrite app_nil_r in Hq. split_and!; [done|done|]. rewrite Hf. apply map_filter_id. intros c x _. apply not_elem_of_nil.
  - right. split; [done|]. destruct (Hw eq_refl) as [k Hk%HT]. destruct T as [|k' T]; [by apply not_elem_of_nil in Hk|].
    by exists k', T.
Qed.

(** C15. The pollset on poll(2): from any state in which the array of poll(2), the infos of the
    descriptors and the waiting clauses agree, every call of the pollset returns (no failed
    assertion, no access out of the arrays) and keeps them in agreement.  Waiting adds the
    clause, or fails with EBADF or EBUSY and adds nothing; cleaning forgets a descriptor nobody
    waits for.  A poll resumes exactly the coroutines that wait for a reported event, once each,
    whatever entries are moved meanwhile; it returns -1 when it is interrupted, 0 when nothing
    is reported, and then triggers no clause, and 1 when at least one clause is triggered.  The
    last holds on condition that a report with events has one somebody waits for: poll(2) may
    report others only ([stale_events]), and the code returns 1 then too. *)
Theorem poll_calls_correct a s : pollset_ok s → call_ok s a →
  ∃ rc s', run_call a s = Some (rc, s') ∧ pollset_ok s' ∧ call_outcome a s rc s'.
Proof.
  intros Hs Ha. destruct a as [g c id fd|g c id fd|fd|[| |rvs]]; cbn in Ha.
  - destruct Ha as (H1 & H2 & H3). destruct (poll_pollset_wait_ok DIn g c id fd s Hs H1 H2 H3) as (rc & s' & E & Hs' & _ & Ho).
    by exists rc, s'.
  - destruct Ha as (H1 & H2 & H3). destruct (poll_pollset_wait_ok DOut g c id fd s Hs H1 H2 H3) as (rc & s' & E & Hs' & _ & Ho).
    by exists rc, s'.
  - destruct (poll_pollset_clean_ok fd s Hs Ha) as (rc & s' & E & Hs' & Hrt & Ho). by exists rc, s'.
  - by exists (-1), s.
  - done.
  - destruct Ha as [Hn Hw]. destruct (poll_pollset_poll_ok rvs s Hs Hn) as (s' & E & Hs' & Hq & Hf).
    eexists _, s'. split; [exact E|]. split; [done|]. split; [exact Hf|]. split; [exact Hq|].
    exact (poll_result_ok (b_ctx s) rvs _ _ Hw Hf).
Qed.
End Spec.

(** * Examples, on the runtime of [cr.c] *)

Definition idle_cr : dill_cr := mk_cr false 0 E0 [] NULL false false false false None.

(** Coroutines 1 and 5, coroutine 1 running; the pollset of epoll is not used. *)
Definition demo_world : world :=
  mk_world E0 dill_ctx_handle_init 1 [] [] 0 (<[1 := idle_cr]> {[5 := idle_cr]}) ∅ ∅ ∅ ∅
    (World.mk_pollset ∅ 0 0 ∅) ∅ 1000 10 0 [].

(** The memory of the pollset as malloc returned it: all zero. *)
Definition demo_start : bst world dill_ctx_pollset :=
  mk_bst demo_world (mk_pollset 0 (replicate 8 (mk_pollfd 0 (false, false) (false, false, false))) 8
    (replicate 8 (mk_fdinfo (-1) None None false))) E0.

(** Coroutine [k] runs, waiting for nothing. *)
Definition switch (k : Z) (s : bst world dill_ctx_pollset) : bst world dill_ctx_pollset :=
  mk_bst (set_crs (<[k := idle_cr]> (w_crs (b_rt s))) (set_ready [] (set_r k (b_rt s)))) (b_ctx s) (b_errno s).

Definition after {A} (o : option (A * bst world dill_ctx_pollset)) : bst world dill_ctx_pollset :=
  match o with Some (_, s) => s | None => demo_start end.

(** Coroutine 1 waits to read from descriptor 2. *)
Definition demo_one : bst world dill_ctx_pollset := after (dill_pollset_in None 101 7 2 demo_start).
(** Then coroutine 5 waits to write to descriptor 3. *)
Definition demo_two : bst world dill_ctx_pollset := after (dill_pollset_out None 105 7 3 (switch 5 demo_one)).

Lemma poll_demo_start_ok : pollset_ok demo_start.
Proof.
  apply (poll_pollset_init_ok 8 (Some (replicate 8 (mk_pollfd 0 (false, false) (false, false, false)))) true); try done.
  - intros i x. cbn. rewrite lookup_insert_Some, lookup_singleton_Some.
    intros [[<- <-]|[_ [<- <-]]] _; (split; [constructor|intros c []%not_elem_of_nil]).
  - by intros l [= <-].
Qed.

Lemma poll_demo_one_ok : pollset_ok demo_one.
Proof.
  destruct (poll_pollset_wait_ok DIn None 101 7 2 demo_start poll_demo_start_ok) as (rc & s' & E & Hs & _); [|done|by left|].
  - by exists idle_cr.
  - unfold demo_one, dill_pollset_in. by rewrite E.
Qed.

Lemma poll_calls_correct_witness :
  (reports (b_ctx demo_one) [(true, false, false)] 2 DIn = true) ∧
  ∃ rc s', run_call (CallPoll (PollEvents [(true, false, false)])) demo_one = Some (rc, s') ∧ pollset_ok s' ∧
    call_outcome (CallPoll (PollEvents [(true, false, false)])) demo_one rc s'.
Proof.
  split; [vm_compute; reflexivity|].
  apply (poll_calls_correct (CallPoll (PollEvents [(true, false, false)])) demo_one poll_demo_one_ok).
  split; [vm_compute; reflexivity|]. intros _. exists 1, 101, DIn, 2. split; vm_compute; reflexivity.
Defined.

Definition ready_and_size (s : bst world dill_ctx_pollset) : list Z * Z := (w_ready (b_rt s), pollset_size (b_ctx s)).

(** Descriptor 2 is readable: coroutine 1 is resumed, and its entry is overwritten. *)
Example demo_poll : match dill_pollset_poll (PollEvents [(true, false, false); (false, false, false)]) demo_two with
  | Some (rc, s') => rc = 1 ∧ ready_and_size s' = ([1], 1) | None => False end.
Proof. vm_compute. split; reflexivity. Qed.

(** The entry after the last one keeps the mask of the entry that was moved.  Coroutine 1
    waits to read again, and poll(2) is also asked whether it can write.  It can; the call
    returns 1, but nobody is resumed, and [dill_wait] takes a coroutine from the empty ready
    queue. *)
Definition demo_three : bst world dill_ctx_pollset :=
  after (dill_pollset_in None 111 7 2
    (switch 1 (after (dill_pollset_poll (PollEvents [(true, false, false); (false, false, false)]) demo_two)))).

Lemma stale_events :
  pfd_events <$> zget (pollset (b_ctx demo_three)) 1 = Some (true, true) ∧
  match dill_pollset_poll (PollEvents [(false, false, false); (false, true, false)]) demo_three with
  | Some (rc, s') => rc = 1 ∧ w_ready (b_rt s') = [] | None => False end.
Proof. vm_compute. split; [reflexivity|]. split; reflexivity. Qed.
