(* ===== verification/Kqueue.v ===== *)
(** The back end of the pollset for kqueue ([kqueue.c.inc]).

    Changes are collected in a list of descriptors and sent to the kernel in batches when the
    pollset is polled; the events of a descriptor are joined before its waiters are resumed.
    As [Poll], it is verified for any runtime that implements [Waiters]. *)

From S2P Require Import Prelude Handle World Cr Waiters.
From Stdlib Require Import ZArith Lia.
From stdpp Require Import base gmap list.
Open Scope Z_scope.

(** * The data *)

Definition DILL_ENDLIST : Z := 0xffffffff.
Definition DILL_CHNGSSIZE : Z := 128.
Definition DILL_EVSSIZE : Z := 128.

(** [struct dill_fdinfo]; [currevs] and [firing] are pairs of FDW_IN and FDW_OUT. *)
Record dill_fdinfo := mk_fdinfo {
  f_in : option Z;
  f_out : option Z;
  f_currevs : events;
  f_firing : events;
  f_next : Z;
  f_cached : bool;
}.
Definition f_get (d : dir) (f : dill_fdinfo) : option Z := match d with DIn => f_in f | DOut => f_out f end.
Definition f_set (d : dir) (c : option Z) (f : dill_fdinfo) : dill_fdinfo :=
  match d with
  | DIn => mk_fdinfo c (f_out f) (f_currevs f) (f_firing f) (f_next f) (f_cached f)
  | DOut => mk_fdinfo (f_in f) c (f_currevs f) (f_firing f) (f_next f) (f_cached f)
  end.
Definition set_currevs (e : events) (f : dill_fdinfo) : dill_fdinfo :=
  mk_fdinfo (f_in f) (f_out f) e (f_firing f) (f_next f) (f_cached f).
Definition set_firing (e : events) (f : dill_fdinfo) : dill_fdinfo :=
  mk_fdinfo (f_in f) (f_out f) (f_currevs f) e (f_next f) (f_cached f).
Definition set_next (n : Z) (f : dill_fdinfo) : dill_fdinfo :=
  mk_fdinfo (f_in f) (f_out f) (f_currevs f) (f_firing f) n (f_cached f).
Definition set_cached (b : bool) (f : dill_fdinfo) : dill_fdinfo :=
  mk_fdinfo (f_in f) (f_out f) (f_currevs f) (f_firing f) (f_next f) b.

(** What calloc returns *)
Definition zero_info : dill_fdinfo := mk_fdinfo None None (false, false) (false, false) 0 false.

#[export] Instance dir_countable : Countable dir.
Proof.
  refine (inj_countable' (λ d, match d with DIn => true | DOut => false end)
    (λ b : bool, if b then DIn else DOut) _). by intros [].
Defined.

(** [struct dill_ctx_pollset]; [kernel] are the filters that successful calls of kevent
    asked for. *)
Record dill_ctx_pollset := mk_pollset {
  fdinfos : gmap Z dill_fdinfo;
  nfdinfos : Z;
  changelist : Z;
  kernel : gset (Z * dir);
}.
Definition info_at (fd : Z) (p : dill_ctx_pollset) : dill_fdinfo := default zero_info (fdinfos p !! fd).
Definition upd_info (fd : Z) (f : dill_fdinfo → dill_fdinfo) (p : dill_ctx_pollset) : dill_ctx_pollset :=
  mk_pollset (<[fd := f (info_at fd p)]> (fdinfos p)) (nfdinfos p) (changelist p) (kernel p).
Definition set_changelist (n : Z) (p : dill_ctx_pollset) : dill_ctx_pollset :=
  mk_pollset (fdinfos p) (nfdinfos p) n (kernel p).
Definition set_kernel (k : gset (Z * dir)) (p : dill_ctx_pollset) : dill_ctx_pollset :=
  mk_pollset (fdinfos p) (nfdinfos p) (changelist p) k.

(** [EV_SET(&ev, fd, EVFILT_READ or EVFILT_WRITE, EV_ADD or EV_DELETE, ...)] *)
Record change := mk_change { ch_fd : Z; ch_dir : dir; ch_add : bool }.
Definition kernel_change (k : gset (Z * dir)) (ch : change) : gset (Z * dir) :=
  if ch_add ch then {[(ch_fd ch, ch_dir ch)]} ∪ k else k ∖ {[(ch_fd ch, ch_dir ch)]}.
Definition kernel_changes (k : gset (Z * dir)) (chs : list change) : gset (Z * dir) := foldl kernel_change k chs.

(** A [struct kevent] the kernel reports: its filter, and whether [flags] is EV_EOF or
    EV_ERROR. *)
Record kevent_t := mk_kevent { ev_ident : Z; ev_filter : dir; ev_eof : bool; ev_error : bool }.
(** What kevent returns when it waits: EINTR, another error, or events. *)
Inductive kq_result := KqIntr | KqError | KqEvents (evs : list kevent_t).

(** * The operations *)

(** [calloc] succeeds, and the error of [kqueue()] *)
Definition dill_ctx_pollset_init (maxfds : Z) (calloc : bool) (kqueue : option errno_t)
    : errno_t + dill_ctx_pollset :=
  if negb calloc then inl ENOMEM
  else match kqueue with Some e => inl e | None => inr (mk_pollset ∅ maxfds DILL_ENDLIST ∅) end.

(** [if(!fdinfo->next) {fdinfo->next = ctx->changelist; ctx->changelist = fd + 1;}] *)
Definition add_change (fd : Z) (p : dill_ctx_pollset) : dill_ctx_pollset :=
  if f_next (info_at fd p) =? 0
  then set_changelist (fd + 1) (upd_info fd (set_next (changelist p)) p)
  else p.

Definition fdcancel (d : dir) (fd : Z) (p : dill_ctx_pollset) : option dill_ctx_pollset :=
  Some (add_change fd (upd_info fd (f_set d None) p)).
Definition dill_fdcancelin (fd : Z) : dill_ctx_pollset → option dill_ctx_pollset := fdcancel DIn fd.
Definition dill_fdcancelout (fd : Z) : dill_ctx_pollset → option dill_ctx_pollset := fdcancel DOut fd.

Section Kqueue.
Context {R : Type} `{Waiters R}.
(** The error of kevent when it applies changes *)
Context (kevent : gset (Z * dir) → list change → option errno_t).
Notation KM := (BM R dill_ctx_pollset).

Definition b_mod (f : dill_ctx_pollset → dill_ctx_pollset) : KM unit := p ← b_get; b_put (f p).

(** [&ctx->fdinfos[fd]], of which there are [nfdinfos] *)
Definition get_info (fd : Z) : KM dill_fdinfo :=
  p ← b_get; b_assert ((0 <=? fd) && (fd <? nfdinfos p));; mret (info_at fd p).

(** [kevent(ctx->kfd, chngs, nchngs, NULL, 0, NULL)] *)
Definition do_changes (chs : list change) : KM (option errno_t) :=
  p ← b_get;
  match kevent (kernel p) chs with
  | Some e => mret (Some e)
  | None => b_put (set_kernel (kernel_changes (kernel p) chs) p);; mret None
  end.

(** [if(!fdi->cached)] *)
Definition cache_fd (d : dir) (fd : Z) (fdi : dill_fdinfo) : KM Z :=
  if f_cached fdi then mret 0
  else
    r ← do_changes [mk_change fd d true];
    match r with
    | Some e => b_assert (bool_decide (e = EBADF));; b_fail e
    | None => b_mod (upd_info fd (λ _, mk_fdinfo None None (ev_set d true (false, false)) (false, false) 0 true));; mret 0
    end.

(** [dill_pollset_in] and [dill_pollset_out] differ in the direction only. *)
Definition pollset_wait (d : dir) (c id fd : Z) : KM Z :=
  p ← b_get;
  if (fd <? 0) || (nfdinfos p <=? fd) then b_fail EBADF
  else
    fdi ← get_info fd;
    rc ← cache_fd d fd fdi;
    if rc <? 0 then mret (-1)
    else
      fdi ← get_info fd;
      match f_get d fdi with
      | Some _ => b_fail EBUSY
      | None =>
        b_mod (add_change fd);;
        b_mod (upd_info fd (f_set d (Some c)));;
        b_waitfor c id d fd;;
        mret 0
      end.
Definition dill_pollset_in : Z → Z → Z → KM Z := pollset_wait DIn.
Definition dill_pollset_out : Z → Z → Z → KM Z := pollset_wait DOut.

(** Unlink [fd] from the changelist: [pidx] designates the head of the list when [None],
    and the [next] field of a descriptor otherwise. *)
Fixpoint changelist_remove (fuel : nat) (pidx : option Z) (fd : Z) (p : dill_ctx_pollset)
    : option dill_ctx_pollset :=
  let idx := match pidx with None => changelist p | Some q => f_next (info_at q p) end in
  match fuel with
  | O => None
  | S fuel =>
    if (idx =? 0) || (idx =? DILL_ENDLIST) then None
    else if idx - 1 =? fd then
      let nx := f_next (info_at fd p) in
      Some match pidx with None => set_changelist nx p | Some q => upd_info q (set_next nx) p end
    else changelist_remove fuel (Some (idx - 1)) fd p
  end.

Definition deletions (fd : Z) (e : events) : list change :=
  (if e.1 then [mk_change fd DIn false] else []) ++ (if e.2 then [mk_change fd DOut false] else []).

(** "Remove the file descriptor from the pollset if it is still there." *)
Definition delete_filters (fd : Z) (fdi : dill_fdinfo) : KM unit :=
  if (f_currevs fdi).1 || (f_currevs fdi).2 then
    r ← do_changes (deletions fd (f_currevs fdi));
    b_assert (match r with Some _ => false | None => true end)
  else mret tt.

(** "If needed, remove the fd from the changelist." *)
Definition leave_changelist (fd : Z) (fdi : dill_fdinfo) : KM unit :=
  if f_next fdi =? 0 then mret tt
  else
    b_upd (λ p, changelist_remove (S (Z.to_nat (nfdinfos p))) None fd p);;
    b_mod (upd_info fd (set_next 0)).

Definition dill_pollset_clean (fd : Z) : KM Z :=
  fdi ← get_info fd;
  if negb (f_cached fdi) then mret 0
  else if bool_decide (is_Some (f_in fdi)) || bool_decide (is_Some (f_out fdi)) then b_fail EBUSY
  else
    delete_filters fd fdi;;
    b_mod (upd_info fd (set_currevs (false, false)));;
    leave_changelist fd fdi;;
    b_mod (upd_info fd (set_cached false));;
    mret 0.

(** ** [dill_pollset_poll] *)

(** [EV_SET(&chngs[nchngs], ...); ++nchngs]: a write behind the array has no result. *)
Definition ev_set_chng (ch : change) (chngs : list change) : KM (list change) :=
  b_assert (Z.of_nat (length chngs) <? DILL_CHNGSSIZE);; mret (chngs ++ [ch]).

(** Add or delete the filter of one direction. *)
Definition update_filter (d : dir) (fd : Z) (chngs : list change) : KM (list change) :=
  fdi ← get_info fd;
  let waits := bool_decide (is_Some (f_get d fdi)) in
  if bool_decide (waits = ev_get d (f_currevs fdi)) then mret chngs
  else
    chngs ← ev_set_chng (mk_change fd d waits) chngs;
    b_mod (upd_info fd (set_currevs (ev_set d waits (f_currevs fdi))));;
    mret chngs.

(** "Flush the changes to the pollset even if there is one empty entry left" *)
Definition send_full (chngs : list change) : KM (list change) :=
  if DILL_CHNGSSIZE - 1 <=? Z.of_nat (length chngs) then
    r ← do_changes chngs;
    b_assert (match r with Some _ => false | None => true end);;
    mret []
  else mret chngs.

(** A turn of the first loop *)
Definition flush_one (chngs : list change) : KM (list change) :=
  chngs ← send_full chngs;
  p ← b_get;
  let fd := changelist p - 1 in
  chngs ← update_filter DIn fd chngs;
  chngs ← update_filter DOut fd chngs;
  fdi ← get_info fd;
  b_mod (upd_info fd (set_firing (false, false)));;
  b_mod (set_changelist (f_next fdi));;
  b_mod (upd_info fd (set_next 0));;
  mret chngs.

Fixpoint flush (fuel : nat) (chngs : list change) : KM (list change) :=
  p ← b_get;
  if changelist p =? DILL_ENDLIST then mret chngs
  else match fuel with O => b_crash | S fuel => chngs ← flush_one chngs; flush fuel chngs end.

(** "Join events on file descriptor basis." *)
Definition join_event (ev : kevent_t) : KM unit :=
  b_assert (negb (ev_error ev));;
  fdi ← get_info (ev_ident ev);
  let firing := if ev_eof ev then (true, true) else ev_set (ev_filter ev) true (f_firing fdi) in
  b_mod (upd_info (ev_ident ev) (set_firing firing));;
  b_mod (add_change (ev_ident ev)).

Fixpoint join_events (evs : list kevent_t) : KM unit :=
  match evs with [] => mret tt | ev :: evs => join_event ev;; join_events evs end.

(** "Resume blocked coroutines" of descriptor [fd], one direction. *)
Definition resume_dir (d : dir) (fd : Z) : KM unit :=
  fdi ← get_info fd;
  match f_get d fdi with
  | Some c => if ev_get d (f_firing fdi) then b_trigger fdcancel c else mret tt
  | None => mret tt
  end.

Fixpoint resume (fuel : nat) (chl : Z) : KM unit :=
  if chl =? DILL_ENDLIST then mret tt
  else match fuel with
       | O => b_crash
       | S fuel =>
         let fd := chl - 1 in
         resume_dir DIn fd;;
         resume_dir DOut fd;;
         b_mod (upd_info fd (set_firing (false, false)));;
         fdi ← get_info fd;
         resume fuel (f_next fdi)
       end.

(** "Apply any changes to the pollset": what is left of the changes is sent by the call of
    kevent that waits, even when that call is interrupted. *)
Definition pollset_sync : KM unit :=
  p ← b_get;
  chngs ← flush (S (Z.to_nat (nfdinfos p))) [];
  r ← do_changes chngs;
  b_assert (match r with Some _ => false | None => true end).

Definition dill_pollset_poll (res : kq_result) : KM Z :=
  pollset_sync;;
  match res with
  | KqIntr => mret (-1)
  | KqError => b_crash    (** [dill_assert(nevs >= 0)] *)
  | KqEvents evs =>
    join_events evs;;
    p ← b_get;
    resume (S (Z.to_nat (nfdinfos p))) (changelist p);;
    mret (match evs with [] => 0 | _ => 1 end)
  end.
End Kqueue.

(** * The invariant of the bookkeeping *)

Section Invariant.
Context (pollable : Z → Prop).
Context (kevent : gset (Z * dir) → list change → option errno_t).

(** Changes the kernel can apply: descriptors it can poll are added, filters it has are
    deleted. *)
Fixpoint valid_changes (k : gset (Z * dir)) (chs : list change) : Prop :=
  match chs with
  | [] => True
  | ch :: chs => (if ch_add ch then pollable (ch_fd ch) else (ch_fd ch, ch_dir ch) ∈ k) ∧
      valid_changes (kernel_change k ch) chs
  end.

(** Such changes are applied (the kernel is not out of memory for filters of descriptors it
    already polls); and a descriptor that is added without an error can be polled.  Nothing is
    said of the errors for other descriptors: kevent(2) names EBADF, EINVAL, ENOENT, ENOMEM and
    EACCES. *)
Record kevent_laws : Prop := {
  law_valid : ∀ k chs, valid_changes k chs → kevent k chs = None;
  law_pollable : ∀ k fd d, kevent k [mk_change fd d true] = None → pollable fd;
}.

Lemma valid_app k chs ch : valid_changes k chs →
  (if ch_add ch then pollable (ch_fd ch) else (ch_fd ch, ch_dir ch) ∈ kernel_changes k chs) →
  valid_changes k (chs ++ [ch]).
Proof.
  revert k. induction chs as [|c chs IH]; intros k; cbn.
  - intros _ H. by split.
  - intros [H1 H2] H. split; [done|]. by apply IH.
Qed.

Lemma apply_app k chs ch : kernel_changes k (chs ++ [ch]) = kernel_change (kernel_changes k chs) ch.
Proof. unfold kernel_changes. by rewrite foldl_app. Qed.

(** The changelist from [idx] is [l]. *)
Fixpoint chain (p : dill_ctx_pollset) (idx : Z) (l : list Z) : Prop :=
  match l with
  | [] => idx = DILL_ENDLIST
  | fd :: l => idx = fd + 1 ∧ 0 ≤ fd < nfdinfos p ∧ f_next (info_at fd p) ≠ 0 ∧
      chain p (f_next (info_at fd p)) l
  end.

Definition waits (d : dir) (f : dill_fdinfo) : bool := bool_decide (is_Some (f_get d f)).

(** [chs] are changes not yet sent to the kernel; every descriptor whose filters are out of
    date, [ex] aside, is in the changelist. *)
Record kq_ok_but (ex : option Z) (l : list Z) (chs : list change) (p : dill_ctx_pollset) : Prop := {
  kq_size : 0 ≤ nfdinfos p < 2 ^ 31;
  kq_list : chain p (changelist p) l;
  kq_nodup : NoDup l;
  kq_next : ∀ fd, f_next (info_at fd p) ≠ 0 ↔ fd ∈ l;
  kq_synced : ∀ fd d, f_next (info_at fd p) = 0 → ex ≠ Some fd →
    ev_get d (f_currevs (info_at fd p)) = waits d (info_at fd p);
  kq_kernel : ∀ fd d, (fd, d) ∈ kernel_changes (kernel p) chs ↔ ev_get d (f_currevs (info_at fd p)) = true;
  kq_valid : valid_changes (kernel p) chs;
  kq_uncached : ∀ fd, f_cached (info_at fd p) = false →
    f_currevs (info_at fd p) = (false, false) ∧ (∀ d, f_get d (info_at fd p) = None) ∧ f_next (info_at fd p) = 0;
  kq_cached : ∀ fd, f_cached (info_at fd p) = true → pollable fd ∧ 0 ≤ fd < nfdinfos p;
}.
Abbreviation kq_ok := (kq_ok_but None).

Lemma info_at_upd fd f p fd' :
  info_at fd' (upd_info fd f p) = if decide (fd = fd') then f (info_at fd p) else info_at fd' p.
Proof.
  unfold info_at at 1. cbn. destruct (decide (fd = fd')) as [<-|Hn].
  - by rewrite lookup_insert_eq.
  - by rewrite lookup_insert_ne.
Qed.

Lemma info_at_changelist n p fd : info_at fd (set_changelist n p) = info_at fd p.
Proof. done. Qed.

Lemma kq_chain_frame p p' l : ∀ idx, nfdinfos p' = nfdinfos p →
  (∀ fd, fd ∈ l → f_next (info_at fd p') = f_next (info_at fd p)) → chain p idx l → chain p' idx l.
Proof.
  induction l as [|fd l IH]; intros idx Hn Hf; [done|]. intros (-> & Hr & Hne & Hc). cbn [chain].
  rewrite Hn, (Hf fd) by left. repeat (split; [done|]). apply IH; [done| |done].
  intros fd' Hfd'. apply Hf. by right.
Qed.

Lemma chain_range p l : ∀ idx, chain p idx l → ∀ fd, fd ∈ l → 0 ≤ fd < nfdinfos p.
Proof.
  induction l as [|x l IH]; intros idx Hc fd Hfd; [by apply elem_of_nil in Hfd|].
  destruct Hc as (_ & Hx & _ & Hc). apply elem_of_cons in Hfd as [->|Hfd]; [done|by eapply IH].
Qed.

Lemma chain_length p l : ∀ idx, chain p idx l → NoDup l → (length l ≤ Z.to_nat (nfdinfos p))%nat.
Proof.
  intros idx Hc Hnd. rewrite <- (length_seqZ 0 (nfdinfos p)). apply submseteq_length, NoDup_submseteq; [done|].
  intros fd Hfd. apply elem_of_seqZ. pose proof (chain_range p l idx Hc fd Hfd). lia.
Qed.

(** Updates that leave a part of the bookkeeping alone *)
Lemma ok_upd ex ex' l chs p fd f : kq_ok_but ex l chs p →
  f_next (f (info_at fd p)) = f_next (info_at fd p) →
  f_currevs (f (info_at fd p)) = f_currevs (info_at fd p) →
  f_cached (f (info_at fd p)) = f_cached (info_at fd p) →
  (∀ fd', ex' ≠ Some fd' → ex ≠ Some fd') →
  (ex' = Some fd ∧ f_cached (info_at fd p) = true ∨ ∀ d, f_get d (f (info_at fd p)) = f_get d (info_at fd p)) →
  kq_ok_but ex' l chs (upd_info fd f p).
Proof.
  intros H Hn He Hc Hex Hw.
  assert (HN : ∀ fd', f_next (info_at fd' (upd_info fd f p)) = f_next (info_at fd' p)).
  { intros fd'. rewrite info_at_upd. by destruct (decide (fd = fd')) as [<-|]. }
  assert (HE : ∀ fd', f_currevs (info_at fd' (upd_info fd f p)) = f_currevs (info_at fd' p)).
  { intros fd'. rewrite info_at_upd. by destruct (decide (fd = fd')) as [<-|]. }
  assert (HC : ∀ fd', f_cached (info_at fd' (upd_info fd f p)) = f_cached (info_at fd' p)).
  { intros fd'. rewrite info_at_upd. by destruct (decide (fd = fd')) as [<-|]. }
  constructor.
  - apply H.
  - apply kq_chain_frame with p; [done| |apply H]. auto.
  - apply H.
  - intros fd'. rewrite HN. apply H.
  - intros fd' d. rewrite HN, HE. intros Hz Hne. rewrite (kq_synced _ _ _ _ H fd' d Hz (Hex _ Hne)).
    rewrite info_at_upd. destruct (decide (fd = fd')) as [<-|]; [|done].
    destruct Hw as [[-> _]|Hw]; [done|]. unfold waits. by rewrite Hw.
  - intros fd' d. rewrite HE. apply H.
  - apply H.
  - intros fd'. rewrite HC, HE, HN. intros Hu. destruct (kq_uncached _ _ _ _ H fd' Hu) as (U1 & U2 & U3).
    split; [done|]. split; [|done]. intros d. rewrite info_at_upd. destruct (decide (fd = fd')) as [<-|]; [|done].
    destruct Hw as [[_ Hw]|Hw]; [congruence|]. by rewrite Hw.
  - intros fd'. rewrite HC. apply H.
Qed.

Lemma ok_set l chs p fd d c : kq_ok l chs p → f_cached (info_at fd p) = true →
  kq_ok_but (Some fd) l chs (upd_info fd (f_set d c) p).
Proof.
  intros H Hc. apply (ok_upd None _ _ _ _ _ _ H); try by destruct d. by left.
Qed.

Lemma ok_firing ex l chs p fd e : kq_ok_but ex l chs p → kq_ok_but ex l chs (upd_info fd (set_firing e) p).
Proof. intros H. apply (ok_upd ex _ _ _ _ _ _ H); try done. right. by intros []. Qed.

Lemma ok_in_list l chs p fd : kq_ok_but (Some fd) l chs p → fd ∈ l → kq_ok l chs p.
Proof.
  intros H Hin. destruct H as [H1 H2 H3 H4 H5 H6 H7 H8 H9]. constructor; try done.
  intros fd' d Hz _. apply H5; [done|]. intros [= ->]. by apply H4 in Hin.
Qed.

Lemma list_not_zero ex l chs p : kq_ok_but ex l chs p → changelist p ≠ 0.
Proof.
  intros H. pose proof (kq_list _ _ _ _ H) as Hl. destruct l; cbn in Hl; [by rewrite Hl|lia].
Qed.

Lemma kq_ok_add_change ex l chs p fd : kq_ok_but ex l chs p → ex = None ∨ ex = Some fd →
  f_cached (info_at fd p) = true →
  kq_ok (if f_next (info_at fd p) =? 0 then fd :: l else l) chs (add_change fd p).
Proof.
  intros H Hex Hc. unfold add_change. destruct (Z.eqb_spec (f_next (info_at fd p)) 0) as [Hz|Hz].
  2: { destruct Hex as [->| ->]; [done|]. eapply ok_in_list; [done|]. by apply (kq_next _ _ _ _ H). }
  pose proof (kq_cached _ _ _ _ H fd Hc) as [Hp Hr].
  assert (Hfd : fd ∉ l) by (rewrite <- (kq_next _ _ _ _ H fd); tauto).
  set (p1 := upd_info fd (set_next (changelist p)) p).
  assert (HA : ∀ fd', info_at fd' (set_changelist (fd + 1) p1) =
    if decide (fd = fd') then set_next (changelist p) (info_at fd p) else info_at fd' p) by apply (info_at_upd fd).
  pose proof (list_not_zero _ _ _ _ H) as Hcl.
  constructor; [apply H| | |intros fd'; rewrite ?HA..|apply H| |].
  - cbn [chain changelist set_changelist]. rewrite HA, decide_True by done. split; [done|]. split; [exact Hr|].
    split; [exact Hcl|]. cbn [f_next set_next]. apply kq_chain_frame with p; [done| |apply H].
    intros fd' Hfd'. rewrite HA, decide_False; [done|]. by intros ->.
  - apply NoDup_cons. split; [done|apply H].
  - rewrite elem_of_cons. destruct (decide (fd = fd')) as [<-|Hne]; [cbn; tauto|].
    rewrite (kq_next _ _ _ _ H). intuition congruence.
  - intros d. destruct (decide (fd = fd')) as [<-|Hne]; [done|]. intros Hn _.
    apply (kq_synced _ _ _ _ H); [done|]. destruct Hex as [->| ->]; congruence.
  - intros d. transitivity (ev_get d (f_currevs (info_at fd' p)) = true); [apply (kq_kernel _ _ _ _ H)|].
    by destruct (decide (fd = fd')) as [<-|].
  - intros fd'. rewrite HA. destruct (decide (fd = fd')) as [<-|]; [cbn; congruence|]. apply H.
  - intros fd'. rewrite HA. destruct (decide (fd = fd')) as [<-|]; apply H.
Qed.

(** ** Sending the changes to the kernel *)

Context (laws : kevent_laws).

(** Only the bookkeeping differs: who waits, and what is cached, is as before. *)
Definition same_waits (p p' : dill_ctx_pollset) : Prop :=
  nfdinfos p' = nfdinfos p ∧ ∀ fd, f_cached (info_at fd p') = f_cached (info_at fd p) ∧
    ∀ d, f_get d (info_at fd p') = f_get d (info_at fd p).

Lemma same_waits_refl p : same_waits p p.
Proof. by split. Qed.

Lemma same_waits_trans p1 p2 p3 : same_waits p1 p2 → same_waits p2 p3 → same_waits p1 p3.
Proof.
  intros [A1 A2] [B1 B2]. split; [congruence|]. intros fd. destruct (A2 fd) as [C1 C2], (B2 fd) as [D1 D2].
  split; [congruence|]. intros d. by rewrite D2, C2.
Qed.

Lemma ok_sent ex l chs p : kq_ok_but ex l chs p →
  kevent (kernel p) chs = None ∧ kq_ok_but ex l [] (set_kernel (kernel_changes (kernel p) chs) p).
Proof. intros H. split; [apply (law_valid laws), H|]. destruct H. constructor; try done. by apply kq_chain_frame with p. Qed.

(** The filter of one direction of the first descriptor of the list is brought up to date. *)
Lemma ok_filter l chs p fd d : kq_ok l chs p → fd ∈ l →
  let f := info_at fd p in
  kq_ok l (chs ++ [mk_change fd d (waits d f)]) (upd_info fd (set_currevs (ev_set d (waits d f) (f_currevs f))) p) ∨
  ev_get d (f_currevs f) = waits d f.
Proof.
  intros H Hin f. destruct (decide (ev_get d (f_currevs f) = waits d f)) as [|Hne]; [by right|left].
  assert (Hca : f_cached f = true).
  { destruct (f_cached f) eqn:E; [done|]. destruct (kq_uncached _ _ _ _ H fd E) as (_ & _ & Hz).
    apply (kq_next _ _ _ _ H) in Hin. done. }
  set (p' := upd_info _ _ _).
  assert (HA : ∀ fd', info_at fd' p' = if decide (fd = fd') then
    set_currevs (ev_set d (waits d f) (f_currevs f)) f else info_at fd' p) by apply info_at_upd.
  assert (HN : ∀ fd', f_next (info_at fd' p') = f_next (info_at fd' p)).
  { intros fd'. rewrite HA. by destruct (decide (fd = fd')) as [<-|]. }
  constructor; [apply H| |apply H| | | | | |].
  - apply kq_chain_frame with p; [done| |apply H]. auto.
  - intros fd'. rewrite HN. apply H.
  - intros fd' d' Hz _. rewrite HN in Hz. rewrite HA. destruct (decide (fd = fd')) as [<-|].
    { by apply (kq_next _ _ _ _ H) in Hin. }
    by apply (kq_synced _ _ _ _ H).
  - intros fd' d'. rewrite apply_app. unfold kernel_change. cbn [ch_add ch_fd ch_dir kernel p' upd_info]. rewrite HA.
    pose proof (kq_kernel _ _ _ _ H fd' d') as Hk.
    destruct (decide (fd = fd')) as [<-|Hfd]; cbn [f_currevs set_currevs]; destruct (waits d f) eqn:Ew.
    + rewrite elem_of_union, elem_of_singleton, Hk. fold f. destruct d, d'; cbn; naive_solver.
    + rewrite elem_of_difference, elem_of_singleton, Hk. fold f. destruct d, d'; cbn; naive_solver.
    + rewrite elem_of_union, elem_of_singleton, Hk. naive_solver.
    + rewrite elem_of_difference, elem_of_singleton, Hk. naive_solver.
  - apply valid_app; [apply H|]. cbn [ch_add ch_fd ch_dir]. destruct (waits d f) eqn:Ew.
    + by apply (kq_cached _ _ _ _ H).
    + apply (kq_kernel _ _ _ _ H). fold f. by destruct (ev_get d (f_currevs f)).
  - intros fd'. rewrite HA. destruct (decide (fd = fd')) as [<-|]; [cbn; congruence|apply H].
  - intros fd'. rewrite HA. destruct (decide (fd = fd')) as [<-|]; apply H.
Qed.

(** The first descriptor leaves the list when its filters are up to date. *)
Lemma ok_pop fd l chs p : kq_ok (fd :: l) chs p →
  (∀ d, ev_get d (f_currevs (info_at fd p)) = waits d (info_at fd p)) →
  kq_ok l chs (upd_info fd (set_next 0) (set_changelist (f_next (info_at fd p)) p)).
Proof.
  intros H Hs. pose proof (kq_list _ _ _ _ H) as (Hcl & Hr & Hn & Hl).
  pose proof (kq_nodup _ _ _ _ H) as Hnd. apply NoDup_cons in Hnd as [Hfd Hnd].
  set (p' := upd_info _ _ _).
  assert (HA : ∀ fd', info_at fd' p' = if decide (fd = fd') then set_next 0 (info_at fd p) else info_at fd' p)
    by apply (info_at_upd fd (set_next 0) (set_changelist (f_next (info_at fd p)) p)).
  constructor; [apply H| |done|intros fd'; rewrite ?HA..|apply H| |].
  - apply kq_chain_frame with p; [done| |exact Hl]. intros fd' Hfd'. rewrite HA, decide_False; [done|]. by intros ->.
  - pose proof (kq_next _ _ _ _ H fd') as HN. rewrite elem_of_cons in HN.
    destruct (decide (fd = fd')) as [<-|]; [cbn; tauto|]. rewrite HN. intuition congruence.
  - intros d. destruct (decide (fd = fd')) as [<-|]; [intros _ _; apply (Hs d)|]. intros Hz _. by apply (kq_synced _ _ _ _ H).
  - intros d. transitivity (ev_get d (f_currevs (info_at fd' p)) = true); [apply (kq_kernel _ _ _ _ H)|].
    by destruct (decide (fd = fd')) as [<-|].
  - intros fd'. rewrite HA. destruct (decide (fd = fd')) as [<-|]; [|apply H].
    intros Hu. destruct (kq_uncached _ _ _ _ H fd Hu) as (_ & _ & ?). done.
  - intros fd'. rewrite HA. destruct (decide (fd = fd')) as [<-|]; apply H.
Qed.
End Invariant.

Section Spec.
Context {R : Type} {WR : Waiters R} {LawsR : WaitersLaws R}.
Context (pollable : Z → Prop).
Context (kevent : gset (Z * dir) → list change → option errno_t).
Context (laws : kevent_laws pollable kevent).
Notation state := (bst R dill_ctx_pollset).
Implicit Types s : state.
Abbreviation kq_ok := (kq_ok_but pollable None).

Definition with_ctx (s : state) (p : dill_ctx_pollset) : state := mk_bst (b_rt s) p (b_errno s).

Lemma kq_get_info_run fd s : 0 ≤ fd < nfdinfos (b_ctx s) → get_info fd s = Some (info_at fd (b_ctx s), s).
Proof.
  intros Hr. unfold get_info. rewrite (b_run b_get _ s (b_ctx s) s eq_refl).
  rewrite (b_run _ _ s tt s); [done|]. unfold b_assert. by replace (_ && _) with true by lia.
Qed.

Lemma b_mod_run f s : b_mod f s = Some (tt, with_ctx s (f (b_ctx s))).
Proof. done. Qed.

Lemma do_changes_eq chs s : do_changes kevent chs s = Some (match kevent (kernel (b_ctx s)) chs with
  | Some e => (Some e, s)
  | None => (None, with_ctx s (set_kernel (kernel_changes (kernel (b_ctx s)) chs) (b_ctx s))) end).
Proof. unfold do_changes. rewrite (b_run b_get _ s (b_ctx s) s eq_refl). by destruct (kevent _ _). Qed.

Lemma do_changes_run l ex chs s : kq_ok_but pollable ex l chs (b_ctx s) →
  do_changes kevent chs s = Some (None, with_ctx s (set_kernel (kernel_changes (kernel (b_ctx s)) chs) (b_ctx s))).
Proof.
  intros H. rewrite do_changes_eq. by destruct (ok_sent _ _ laws _ _ _ _ H) as [-> _].
Qed.

(** ** Flushing *)

Definition quiet (p : dill_ctx_pollset) : Prop := ∀ fd, f_firing (info_at fd p) = (false, false).

Lemma quiet_upd fd f p : quiet p → (f_firing (f (info_at fd p)) = (false, false)) → quiet (upd_info fd f p).
Proof. intros H Hf fd'. rewrite info_at_upd. by destruct (decide (fd = fd')) as [<-|]. Qed.

Lemma update_filter_ok d fd l chs s : kq_ok l chs (b_ctx s) → fd ∈ l → quiet (b_ctx s) →
  Z.of_nat (length chs) < DILL_CHNGSSIZE →
  ∃ chs' p', update_filter d fd chs s = Some (chs', with_ctx s p') ∧ kq_ok l chs' p' ∧ quiet p' ∧
    same_waits (b_ctx s) p' ∧ (length chs' ≤ S (length chs))%nat ∧
    (∀ d', ev_get d' (f_currevs (info_at fd p')) =
      if decide (d' = d) then waits d (info_at fd p') else ev_get d' (f_currevs (info_at fd (b_ctx s)))).
Proof.
  intros H Hin Hq Hlen. pose proof (chain_range _ _ _ (kq_list _ _ _ _ _ H) fd Hin) as Hr.
  unfold update_filter. brun (kq_get_info_run fd s Hr). cbv zeta beta. fold (waits d (info_at fd (b_ctx s))).
  set (f := info_at fd (b_ctx s)). case_bool_decide as Heq.
  { exists chs, (b_ctx s). split; [by destruct s|]. split; [done|]. split; [done|]. split; [apply same_waits_refl|].
    split; [lia|]. intros d'. case_decide; [by subst|done]. }
  destruct (ok_filter _ _ _ _ fd d H Hin) as [H'|H']; [|fold f in H'; congruence].
  fold f in H'. rewrite (b_run _ _ s (chs ++ [mk_change fd d (waits d f)]) s).
  2: { unfold ev_set_chng, b_assert. apply Z.ltb_lt in Hlen. by rewrite Hlen. }
  brun (b_mod_run (upd_info fd (set_currevs (ev_set d (waits d f) (f_currevs f)))) s).
  eexists _, _. split; [done|]. split; [exact H'|]. split; [apply quiet_upd; [done|apply Hq]|]. split; [|split].
  - split; [done|]. intros fd'. rewrite info_at_upd. by destruct (decide (fd = fd')) as [<-|].
  - rewrite length_app. cbn. lia.
  - intros d'. rewrite info_at_upd, decide_True by done. fold f. by destruct d, d'.
Qed.

Lemma send_full_ok l chs s : kq_ok l chs (b_ctx s) → quiet (b_ctx s) →
  Z.of_nat (length chs) ≤ DILL_CHNGSSIZE →
  ∃ chs' p', send_full kevent chs s = Some (chs', with_ctx s p') ∧ kq_ok l chs' p' ∧ quiet p' ∧
    same_waits (b_ctx s) p' ∧ Z.of_nat (length chs') < DILL_CHNGSSIZE - 1 ∧ changelist p' = changelist (b_ctx s).
Proof.
  intros H Hq Hlen. unfold send_full. destruct (Z.leb_spec (DILL_CHNGSSIZE - 1) (Z.of_nat (length chs))).
  - brun (do_changes_run _ _ _ _ H). eexists _, _. split; [done|].
    split; [apply (ok_sent _ _ laws _ _ _ _ H)|]. split; [done|]. split; [by split|done].
  - exists chs, (b_ctx s). split; [by destruct s|]. split; [done|]. split; [done|]. split; [apply same_waits_refl|done].
Qed.

Lemma flush_one_ok fd l chs s : kq_ok (fd :: l) chs (b_ctx s) → quiet (b_ctx s) →
  Z.of_nat (length chs) ≤ DILL_CHNGSSIZE →
  ∃ chs' p', flush_one kevent chs s = Some (chs', with_ctx s p') ∧ kq_ok l chs' p' ∧ quiet p' ∧
    same_waits (b_ctx s) p' ∧ Z.of_nat (length chs') ≤ DILL_CHNGSSIZE.
Proof.
  intros H Hq Hlen. unfold flush_one.
  destruct (send_full_ok (fd :: l) chs s H Hq Hlen) as (chs1 & p1 & E1 & H1 & Hq1 & Hw1 & Hl1 & Hc1).
  brun E1. rewrite (b_run b_get _ (with_ctx s p1) p1 (with_ctx s p1) eq_refl).
  pose proof (kq_list _ _ _ _ _ H1) as (Hcl & Hr & _). replace (changelist p1 - 1) with fd by lia.
  destruct (update_filter_ok DIn fd (fd :: l) chs1 (with_ctx s p1) H1) as (chs2 & p2 & E2 & H2 & Hq2 & Hw2 & Hl2 & G2);
    [left|done|lia|]. brun E2.
  destruct (update_filter_ok DOut fd (fd :: l) chs2 (with_ctx s p2) H2) as (chs3 & p3 & E3 & H3 & Hq3 & Hw3 & Hl3 & G3);
    [left|done|lia|]. change (with_ctx (with_ctx s p1) p2) with (with_ctx s p2). brun E3.
  change (with_ctx (with_ctx s p2) p3) with (with_ctx s p3).
  erewrite b_run by (apply kq_get_info_run; destruct Hw2 as [N2 _], Hw3 as [N3 _]; cbn in *; lia).
  cbn [with_ctx b_ctx] in *.
  pose proof (ok_firing _ None _ _ _ fd (false, false) H3) as H4. set (p4 := upd_info fd (set_firing (false, false)) p3) in *.
  assert (E4 : info_at fd p4 = set_firing (false, false) (info_at fd p3)) by (unfold p4; by rewrite info_at_upd, decide_True).
  assert (Hw : same_waits (b_ctx s) p3) by (eapply same_waits_trans; [exact Hw1|]; eapply same_waits_trans; [exact Hw2|exact Hw3]).
  exists chs3, (upd_info fd (set_next 0) (set_changelist (f_next (info_at fd p3)) p4)). split; [done|]. split; [|split; [|split]].
  - replace (f_next (info_at fd p3)) with (f_next (info_at fd p4)) by (by rewrite E4). apply (ok_pop pollable fd l chs3 p4 H4).
    intros d. rewrite E4. cbn. change (waits d (set_firing _ ?f)) with (waits d f).
    destruct d; rewrite G3.
    + rewrite decide_False by done. rewrite G2, decide_True by done. unfold waits. f_equal.
      destruct Hw3 as [_ Hw3]. destruct (Hw3 fd) as [_ ->]. done.
    + by rewrite decide_True.
  - apply quiet_upd; [|]; [intros fd'; unfold p4|].
    + change (info_at fd' (set_changelist _ ?q)) with (info_at fd' q). rewrite info_at_upd.
      by destruct (decide (fd = fd')) as [<-|].
    + change (info_at fd (set_changelist _ ?q)) with (info_at fd q). by rewrite E4.
  - eapply same_waits_trans; [exact Hw|]. split; [done|]. intros fd'. rewrite info_at_upd.
    change (info_at ?x (set_changelist _ ?q)) with (info_at x q). rewrite E4.
    destruct (decide (fd = fd')) as [<-|]; [by split; [|intros []]|]. unfold p4. rewrite info_at_upd. by rewrite decide_False.
  - lia.
Qed.

Lemma flush_ok fuel : ∀ l chs s, kq_ok l chs (b_ctx s) → quiet (b_ctx s) → (length l ≤ fuel)%nat →
  Z.of_nat (length chs) ≤ DILL_CHNGSSIZE →
  ∃ chs' p', flush kevent fuel chs s = Some (chs', with_ctx s p') ∧ kq_ok [] chs' p' ∧ quiet p' ∧
    same_waits (b_ctx s) p'.
Proof.
  induction fuel as [|fuel IH]; intros l chs s H Hq Hf Hlen; cbn [flush];
    rewrite (b_run b_get _ s (b_ctx s) s eq_refl); pose proof (kq_list _ _ _ _ _ H) as Hl;
    pose proof (kq_size _ _ _ _ _ H) as Hs; destruct l as [|fd l]; cbn in Hl; try (cbn in Hf; lia).
  1,2: rewrite Hl; exists chs, (b_ctx s); split; [by destruct s|]; split; [done|]; split; [done|apply same_waits_refl].
  destruct Hl as (Hl & Hr & _). destruct (Z.eqb_spec (changelist (b_ctx s)) DILL_ENDLIST) as [E|_]; [unfold DILL_ENDLIST in E; lia|].
  destruct (flush_one_ok fd l chs s H Hq Hlen) as (chs1 & p1 & E1 & H1 & Hq1 & Hw1 & Hl1). brun E1.
  destruct (IH l chs1 (with_ctx s p1) H1 Hq1) as (chs2 & p2 & E2 & H2 & Hq2 & Hw2); [cbn in Hf; lia|done|].
  exists chs2, p2. split; [done|]. split; [done|]. split; [done|]. by eapply same_waits_trans.
Qed.

(** What the kernel is asked for when nothing is out of date *)
Lemma kernel_waits p fd d : kq_ok [] [] p → (fd, d) ∈ kernel p ↔ waits d (info_at fd p) = true.
Proof.
  intros H. pose proof (kq_kernel _ _ _ _ _ H fd d) as Hk. cbn in Hk. rewrite Hk, (kq_synced _ _ _ _ _ H fd d); [done| |done].
  destruct (decide (f_next (info_at fd p) = 0)) as [|Hn]; [done|].
  apply (kq_next _ _ _ _ _ H) in Hn. by apply elem_of_nil in Hn.
Qed.

(** ** Joining the events *)

(** The events of a direction of descriptor [fd] *)
Definition reports (evs : list kevent_t) (fd : Z) (d : dir) : bool :=
  existsb (λ ev, bool_decide (ev_ident ev = fd) && (ev_eof ev || bool_decide (ev_filter ev = d))) evs.

Lemma same_waits_waits p p' d fd : same_waits p p' → waits d (info_at fd p') = waits d (info_at fd p).
Proof. intros [_ Hw]. unfold waits. by destruct (Hw fd) as [_ ->]. Qed.

Lemma kq_waiting_cached l chs p d fd : kq_ok l chs p → waits d (info_at fd p) = true → f_cached (info_at fd p) = true.
Proof.
  intros H Hw. destruct (f_cached (info_at fd p)) eqn:E; [done|].
  destruct (kq_uncached _ _ _ _ _ H fd E) as (_ & U & _). unfold waits in Hw. by rewrite U in Hw.
Qed.

Lemma add_change_info fd fd' p : ∃ n, info_at fd' (add_change fd p) = set_next n (info_at fd' p) ∧
  (f_next (info_at fd' p) ≠ 0 → n = f_next (info_at fd' p)).
Proof.
  unfold add_change. destruct (Z.eqb_spec (f_next (info_at fd p)) 0) as [Hz|Hz].
  - rewrite info_at_changelist, info_at_upd. destruct (decide (fd = fd')) as [<-|].
    + by eexists.
    + exists (f_next (info_at fd' p)). by destruct (info_at fd' p).
  - exists (f_next (info_at fd' p)). by destruct (info_at fd' p).
Qed.

Lemma add_change_same fd p : same_waits p (add_change fd p).
Proof.
  split; [by unfold add_change; destruct (_ =? 0)|]. intros fd'.
  destruct (add_change_info fd fd' p) as (n & -> & _). split; [done|]. by intros [].
Qed.

Lemma add_change_firing fd fd' p : f_firing (info_at fd' (add_change fd p)) = f_firing (info_at fd' p).
Proof. by destruct (add_change_info fd fd' p) as (n & -> & _). Qed.

Lemma join_event_ok ev l s : kq_ok l [] (b_ctx s) → ev_error ev = false →
  waits (ev_filter ev) (info_at (ev_ident ev) (b_ctx s)) = true →
  ∃ l' p', join_event ev s = Some (tt, with_ctx s p') ∧ kq_ok l' [] p' ∧ same_waits (b_ctx s) p' ∧
    (∀ fd, fd ∈ l → fd ∈ l') ∧ ev_ident ev ∈ l' ∧
    ∀ fd d, ev_get d (f_firing (info_at fd p')) =
      ev_get d (f_firing (info_at fd (b_ctx s))) || reports [ev] fd d.
Proof.
  intros H He Hw. set (fd0 := ev_ident ev) in *. unfold join_event. pose proof (kq_waiting_cached _ _ _ _ _ H Hw) as Hc.
  destruct (kq_cached _ _ _ _ _ H fd0 Hc) as [_ Hr].
  rewrite (b_run _ _ s tt s) by (by rewrite He). brun (kq_get_info_run fd0 s Hr). cbv zeta. fold fd0.
  set (e := if ev_eof ev then _ else _). pose proof (ok_firing _ None _ _ _ fd0 e H) as H1.
  set (p1 := upd_info fd0 (set_firing e) (b_ctx s)) in *.
  assert (HA : ∀ fd, info_at fd p1 = if decide (fd0 = fd) then set_firing e (info_at fd0 (b_ctx s)) else info_at fd (b_ctx s))
    by apply info_at_upd.
  assert (Hc1 : f_cached (info_at fd0 p1) = true) by (by rewrite HA, decide_True).
  pose proof (kq_ok_add_change _ None _ _ _ fd0 H1 ltac:(by left) Hc1) as H2.
  eexists _, (add_change fd0 p1). split; [done|]. split; [exact H2|]. split; [|split; [|split]].
  - eapply same_waits_trans; [|apply add_change_same]. split; [done|]. intros fd. rewrite HA.
    destruct (decide (fd0 = fd)) as [<-|]; [by split; [|intros []]|done].
  - intros fd Hfd. destruct (_ =? 0); [by right|done].
  - destruct (Z.eqb_spec (f_next (info_at fd0 p1)) 0) as [|Hn]; [left|]. by apply (kq_next _ _ _ _ _ H1).
  - intros fd d. rewrite add_change_firing, HA. unfold reports. cbn [existsb]. fold fd0. rewrite orb_false_r.
    destruct (decide (fd0 = fd)) as [<-|Hn].
    + rewrite bool_decide_true by done. unfold e. cbn. destruct (ev_eof ev).
      * destruct d; by rewrite orb_true_r.
      * destruct d, (ev_filter ev); cbn; by rewrite ?orb_true_r, ?orb_false_r.
    + by rewrite bool_decide_false, orb_false_r.
Qed.

Lemma join_events_ok evs : ∀ l s, kq_ok l [] (b_ctx s) →
  (∀ ev, ev ∈ evs → ev_error ev = false ∧ waits (ev_filter ev) (info_at (ev_ident ev) (b_ctx s)) = true) →
  ∃ l' p', join_events evs s = Some (tt, with_ctx s p') ∧ kq_ok l' [] p' ∧ same_waits (b_ctx s) p' ∧
    (∀ fd, fd ∈ l → fd ∈ l') ∧ (∀ fd d, reports evs fd d = true → fd ∈ l') ∧
    ∀ fd d, ev_get d (f_firing (info_at fd p')) =
      ev_get d (f_firing (info_at fd (b_ctx s))) || reports evs fd d.
Proof.
  induction evs as [|ev evs IH]; intros l s H Hall; cbn [join_events].
  { exists l, (b_ctx s). split; [by destruct s|]. split; [done|]. split; [apply same_waits_refl|].
    split; [done|]. split; [done|]. intros fd d. by rewrite orb_false_r. }
  destruct (Hall ev) as [He Hw]; [left|].
  destruct (join_event_ok ev l s H He Hw) as (l1 & p1 & E1 & H1 & Hw1 & Hin1 & Hev1 & G1). brun E1.
  destruct (IH l1 (with_ctx s p1) H1) as (l2 & p2 & E2 & H2 & Hw2 & Hin2 & Hev2 & G2).
  { intros ev' Hev'. destruct (Hall ev') as [A B]; [by right|]. split; [done|]. cbn.
    by rewrite (same_waits_waits _ _ _ _ Hw1). }
  exists l2, p2. split; [done|]. split; [done|]. split; [by eapply same_waits_trans|]. split; [by auto|]. split.
  - intros fd d Hr. unfold reports in Hr. cbn [existsb] in Hr. apply orb_true_iff in Hr as [Hr|Hr]; [|by eapply Hev2].
    apply andb_true_iff in Hr as [Hr%bool_decide_eq_true _]. apply Hin2. by rewrite <- Hr.
  - intros fd d. rewrite G2. cbn [with_ctx b_ctx]. rewrite G1, <- orb_assoc. f_equal. unfold reports. cbn [existsb].
    by rewrite orb_false_r.
Qed.

(** ** Resuming *)

(** The fields [in] and [out] that [P] tells are reset; the list [l] is not touched. *)
Record cleared (P : dir → Z → Prop) (l : list Z) (p p' : dill_ctx_pollset) : Prop := {
  cd_nfdinfos : nfdinfos p' = nfdinfos p;
  cd_cached : ∀ fd, f_cached (info_at fd p') = f_cached (info_at fd p);
  cd_firing : ∀ fd, f_firing (info_at fd p') = f_firing (info_at fd p);
  cd_next : ∀ fd, fd ∈ l → f_next (info_at fd p') = f_next (info_at fd p);
  cd_get : ∀ fd d c, f_get d (info_at fd p') = Some c ↔ f_get d (info_at fd p) = Some c ∧ ¬ P d fd;
}.

Lemma kq_fdcancel_ok d fd l p : kq_ok l [] p → f_cached (info_at fd p) = true →
  ∃ p' l', fdcancel d fd p = Some p' ∧ kq_ok l' [] p' ∧ (∀ fd, fd ∈ l → fd ∈ l') ∧
    cleared (λ d' fd', (d', fd') = (d, fd)) l p p'.
Proof.
  intros H Hc. pose proof (ok_set _ _ _ _ fd d None H Hc) as H1. set (p1 := upd_info fd (f_set d None) p) in *.
  assert (HA : ∀ fd', info_at fd' p1 = if decide (fd = fd') then f_set d None (info_at fd p) else info_at fd' p)
    by apply info_at_upd.
  assert (Hc1 : f_cached (info_at fd p1) = true) by (rewrite HA, decide_True by done; by destruct d).
  pose proof (kq_ok_add_change _ (Some fd) _ _ _ fd H1 ltac:(by right) Hc1) as H2.
  eexists (add_change fd p1), _. split; [done|]. split; [exact H2|]. split.
  { intros fd' Hfd'. destruct (_ =? 0); [by right|done]. }
  pose proof (add_change_same fd p1) as [Hn Hw]. constructor; [done| | | |].
  - intros fd'. destruct (Hw fd') as [-> _]. rewrite HA. destruct (decide (fd = fd')) as [<-|]; [by destruct d|done].
  - intros fd'. rewrite add_change_firing, HA. destruct (decide (fd = fd')) as [<-|]; [by destruct d|done].
  - intros fd' Hfd'. destruct (add_change_info fd fd' p1) as (n & -> & Hnext). cbn.
    assert (Hz : f_next (info_at fd' p1) ≠ 0) by (by apply (kq_next _ _ _ _ _ H1)).
    rewrite (Hnext Hz), HA. destruct (decide (fd = fd')) as [<-|]; [by destruct d|done].
  - intros fd' d' c. destruct (Hw fd') as [_ Hw']. rewrite Hw', HA.
    destruct (decide (fd = fd')) as [<-|]; [|naive_solver]. destruct d, d'; cbn; naive_solver.
Qed.

Lemma kq_cancel_fds_ok cs : ∀ l p, kq_ok l [] p → (∀ d fd, (d, fd) ∈ cs → f_cached (info_at fd p) = true) →
  ∃ p' l', cancel_fds fdcancel cs p = Some p' ∧ kq_ok l' [] p' ∧ (∀ fd, fd ∈ l → fd ∈ l') ∧
    cleared (λ d fd, (d, fd) ∈ cs) l p p'.
Proof.
  induction cs as [|[d fd] cs IH]; intros l p H Hall.
  { exists p, l. split; [done|]. split; [done|]. split; [done|]. constructor; try done.
    intros fd d c. rewrite elem_of_nil. tauto. }
  destruct (kq_fdcancel_ok d fd l p H) as (p1 & l1 & E1 & H1 & Hl1 & C1); [apply (Hall d); left|].
  cbn [cancel_fds]. rewrite E1. cbn [mbind option_bind].
  destruct (IH l1 p1 H1) as (p2 & l2 & E2 & H2 & Hl2 & C2).
  { intros d' fd' Hin. rewrite (cd_cached _ _ _ _ C1). apply (Hall d'). by right. }
  exists p2, l2. split; [done|]. split; [done|]. split; [by auto|].
  destruct C1 as [A1 A2 A3 A4 A5], C2 as [B1 B2 B3 B4 B5]. constructor; [congruence|..].
  - intros fd'. by rewrite B2.
  - intros fd'. by rewrite B3.
  - intros fd' Hfd'. rewrite B4 by auto. by apply A4.
  - intros fd' d' c. rewrite B5, A5, elem_of_cons. tauto.
Qed.

(** The pollset and the runtime agree on who waits for what. *)
Record linked (s : state) : Prop := {
  lk_rt : wt_ok (b_rt s);
  lk_agree : ∀ c d fd, (∃ k, wt_fds (b_rt s) !! c = Some (k, d, fd)) ↔ f_get d (info_at fd (b_ctx s)) = Some c;
}.

Lemma linked_unique s c c' k k' d fd : linked s → wt_fds (b_rt s) !! c = Some (k, d, fd) →
  wt_fds (b_rt s) !! c' = Some (k', d, fd) → c = c' ∧ k = k'.
Proof.
  intros Hs E E'. pose proof (proj1 (lk_agree s Hs c d fd) ltac:(by exists k)).
  pose proof (proj1 (lk_agree s Hs c' d fd) ltac:(by exists k')). by simplify_eq.
Qed.

Lemma linked_same s p' : linked s → same_waits (b_ctx s) p' → linked (with_ctx s p').
Proof. intros Hs [_ Hw]. constructor; [apply Hs|]. intros c d fd. cbn. destruct (Hw fd) as [_ ->]. apply Hs. Qed.

(** The clauses of one coroutine are canceled. *)
Lemma cleared_linked s l k (cs : list (dir * Z)) r' p' : linked s → wt_ok r' →
  wt_fds r' = filter (λ x, x.2.1.1 ≠ k) (wt_fds (b_rt s)) →
  (∀ d fd, (d, fd) ∈ cs ↔ ∃ c', wt_fds (b_rt s) !! c' = Some (k, d, fd)) →
  cleared (λ d fd, (d, fd) ∈ cs) l (b_ctx s) p' → linked (mk_bst r' p' (b_errno s)).
Proof.
  intros Hs Hr Hw Hcs C. constructor; cbn; [done|]. intros c d fd. rewrite Hw, (cd_get _ _ _ _ C).
  setoid_rewrite map_lookup_filter_Some. cbn. split.
  - intros (k' & Hk' & Hne). split; [apply (lk_agree s Hs); by exists k'|]. intros (c' & Hc')%Hcs.
    by destruct (linked_unique s c c' k' k d fd Hs Hk' Hc').
  - intros [Hg Hno]. apply (lk_agree s Hs) in Hg as [k' Hk']. exists k'. split; [done|]. intros ->. apply Hno, Hcs. by exists c.
Qed.

Definition at_dir (d : dir) (fd : Z) (e : events) : Z → dir → bool :=
  λ fd' d', bool_decide (fd' = fd) && bool_decide (d' = d) && ev_get d e.

Lemma kq_at_dir_true d fd e fd' d' : at_dir d fd e fd' d' = true ↔ fd' = fd ∧ d' = d ∧ ev_get d e = true.
Proof. unfold at_dir. rewrite !andb_true_iff, !bool_decide_eq_true. tauto. Qed.

(** What a step of the loop does to the pollset: the list [l] only grows, at its head. *)
Definition step_ok (l : list Z) (s s' : state) : Prop :=
  linked s' ∧ b_errno s' = b_errno s ∧ nfdinfos (b_ctx s') = nfdinfos (b_ctx s) ∧
  (∃ l', kq_ok l' [] (b_ctx s') ∧ ∀ fd, fd ∈ l → fd ∈ l') ∧
  (∀ fd, f_firing (info_at fd (b_ctx s')) = f_firing (info_at fd (b_ctx s))) ∧
  (∀ fd, fd ∈ l → f_next (info_at fd (b_ctx s')) = f_next (info_at fd (b_ctx s))).

Lemma kq_step_refl l s : linked s → kq_ok l [] (b_ctx s) → step_ok l s s.
Proof. intros Hs H. repeat (split; [done|]). split; [by exists l|done]. Qed.

Lemma resume_dir_ok d fd l s : linked s → kq_ok l [] (b_ctx s) → 0 ≤ fd < nfdinfos (b_ctx s) →
  ∃ s', resume_dir d fd s = Some (tt, s') ∧ step_ok l s s' ∧
    fired (at_dir d fd (f_firing (info_at fd (b_ctx s)))) (b_rt s) (b_rt s').
Proof.
  intros Hs H Hr. unfold resume_dir. brun (kq_get_info_run fd s Hr). set (f := info_at fd (b_ctx s)).
  assert (Hquiet : (f_get d f = None ∨ ev_get d (f_firing f) = false) → fired (at_dir d fd (f_firing f)) (b_rt s) (b_rt s)).
  { intros Hno. apply fired_none. intros k (c & d' & fd' & Hw & (-> & -> & Hfi)%kq_at_dir_true).
    pose proof (proj1 (lk_agree s Hs c d fd) ltac:(by exists k)). fold f in H0. destruct Hno; congruence. }
  destruct (f_get d f) as [c|] eqn:Hg; [|exists s; split; [done|]; split; [by apply kq_step_refl|by apply Hquiet; left]].
  destruct (ev_get d (f_firing f)) eqn:Hfi; [|exists s; split; [done|]; split; [by apply kq_step_refl|by apply Hquiet; right]].
  destruct (proj2 (lk_agree s Hs c d fd) Hg) as [k Hk].
  destruct (trigger_law c k d fd (b_rt s) (lk_rt s Hs) Hk) as (cs & r' & E & Hok & Hw & Hcs & Hq).
  destruct (kq_cancel_fds_ok cs l (b_ctx s) H) as (p' & l' & E' & H' & Hl' & C).
  { intros d' fd' (c' & Hc')%Hcs. apply (kq_waiting_cached l [] _ d' fd' H). unfold waits.
    rewrite (proj1 (lk_agree s Hs c' d' fd') ltac:(by exists k)). by apply bool_decide_true. }
  unfold b_trigger. rewrite E. cbn. rewrite E'. cbn. eexists. split; [done|]. split.
  - split; [by eapply cleared_linked|]. split; [done|]. split; [apply C|]. split; [by exists l'|]. split; apply C.
  - exists [k]. split; [apply NoDup_singleton|]. split; [|split; [done|]].
    + intros k'. rewrite list_elem_of_singleton. split.
      * intros ->. exists c, d, fd. split; [done|]. by apply kq_at_dir_true.
      * intros (c' & d' & fd' & Hw' & (-> & -> & _)%kq_at_dir_true). by destruct (linked_unique s c c' k k' d fd Hs Hk Hw').
    + cbn. rewrite Hw. apply map_filter_ext. intros c' x _. by rewrite list_elem_of_singleton.
Qed.

Definition at_fd (fd : Z) (e : events) : Z → dir → bool := λ fd' d', at_dir DIn fd e fd' d' || at_dir DOut fd e fd' d'.

Lemma kq_at_fd_true fd e fd' d' : at_fd fd e fd' d' = true ↔ fd' = fd ∧ ev_get d' e = true.
Proof. unfold at_fd. rewrite orb_true_iff, !kq_at_dir_true. destruct d'; naive_solver. Qed.

(** One descriptor of the list: its waiters are resumed, its events forgotten. *)
Lemma resume_fd_ok fd l s : linked s → kq_ok l [] (b_ctx s) → fd ∈ l →
  ∃ s1 s2 l', resume_dir DIn fd s = Some (tt, s1) ∧ resume_dir DOut fd s1 = Some (tt, s2) ∧
    linked s2 ∧ kq_ok l' [] (b_ctx s2) ∧ (∀ fd, fd ∈ l → fd ∈ l') ∧ b_errno s2 = b_errno s ∧
    nfdinfos (b_ctx s2) = nfdinfos (b_ctx s) ∧
    (∀ fd, f_firing (info_at fd (b_ctx s2)) = f_firing (info_at fd (b_ctx s))) ∧
    (∀ fd, fd ∈ l → f_next (info_at fd (b_ctx s2)) = f_next (info_at fd (b_ctx s))) ∧
    fired (at_fd fd (f_firing (info_at fd (b_ctx s)))) (b_rt s) (b_rt s2).
Proof.
  intros Hs H Hin. pose proof (chain_range _ _ _ (kq_list _ _ _ _ _ H) fd Hin) as Hr.
  destruct (resume_dir_ok DIn fd l s Hs H Hr) as (s1 & E1 & (Hs1 & Q1 & N1 & (l1 & H1 & Hl1) & F1 & X1) & Fi1).
  destruct (resume_dir_ok DOut fd l1 s1 Hs1 H1) as (s2 & E2 & (Hs2 & Q2 & N2 & (l2 & H2 & Hl2) & F2 & X2) & Fi2); [lia|].
  exists s1, s2, l2. split; [done|]. split; [done|]. split; [done|]. split; [done|]. split; [by auto|].
  split; [congruence|]. split; [congruence|]. split; [intros fd'; by rewrite F2|].
  split; [intros fd' Hfd'; rewrite X2 by auto; by apply X1|]. rewrite F1 in Fi2. by eapply fired_trans.
Qed.

Lemma resume_ok rev fuel : ∀ rest chl l s, linked s → kq_ok l [] (b_ctx s) →
  chain (b_ctx s) chl rest → NoDup rest → (∀ fd, fd ∈ rest → fd ∈ l) → (length rest ≤ fuel)%nat →
  (∀ fd d, fd ∈ rest → ev_get d (f_firing (info_at fd (b_ctx s))) = rev fd d) →
  (∀ fd, fd ∉ rest → f_firing (info_at fd (b_ctx s)) = (false, false)) →
  (∀ c k d fd, wt_fds (b_rt s) !! c = Some (k, d, fd) → rev fd d = true → fd ∈ rest) →
  ∃ s' l', resume fuel chl s = Some (tt, s') ∧ linked s' ∧ kq_ok l' [] (b_ctx s') ∧ quiet (b_ctx s') ∧
    b_errno s' = b_errno s ∧ nfdinfos (b_ctx s') = nfdinfos (b_ctx s) ∧ fired rev (b_rt s) (b_rt s').
Proof.
  induction fuel as [|fuel IH]; intros rest chl l s Hs H Hch Hnd Hsub Hf Hrev Hoff Hw; cbn [resume];
    destruct rest as [|fd rest]; cbn in Hch; try (cbn in Hf; lia).
  1,2: rewrite Hch; exists s, l; do 3 (split; [done|]); split; [intros fd; apply Hoff, not_elem_of_nil|];
    do 2 (split; [done|]); apply fired_none; intros k (c & d & fd & Hc & Hr); by apply (Hw c k d fd Hc), elem_of_nil in Hr.
  destruct Hch as (-> & Hr & Hn & Hch). pose proof (kq_size _ _ _ _ _ H) as Hsz.
  destruct (Z.eqb_spec (fd + 1) DILL_ENDLIST) as [E|_]; [unfold DILL_ENDLIST in E; lia|].
  replace (fd + 1 - 1) with fd by lia. apply NoDup_cons in Hnd as [Hfd Hnd].
  destruct (resume_fd_ok fd l s Hs H) as (s1 & s2 & l2 & E1 & E2 & Hs2 & H2 & Hl2 & Q2 & N2 & F2 & X2 & Fi2).
  { apply Hsub. left. }
  brun E1. brun E2. set (off := set_firing (false, false)). set (p3 := upd_info fd off (b_ctx s2)).
  change ((b_mod (upd_info fd off) ≫= ?k) s2) with (k tt (with_ctx s2 p3)). cbv beta.
  assert (HA : ∀ fd', info_at fd' p3 = if decide (fd = fd') then off (info_at fd (b_ctx s2)) else info_at fd' (b_ctx s2))
    by apply info_at_upd.
  erewrite b_run by (apply kq_get_info_run; cbn; lia). cbn [with_ctx b_ctx].
  pose proof (ok_firing _ None _ _ _ fd (false, false) H2) as H3. fold off in H3. fold p3 in H3.
  assert (Hnx : ∀ fd', fd' ∈ l → f_next (info_at fd' p3) = f_next (info_at fd' (b_ctx s))).
  { intros fd' Hfd'. rewrite HA. destruct (decide (fd = fd')) as [<-|]; by apply X2. }
  assert (Hlk : linked (with_ctx s2 p3)).
  { apply linked_same; [done|]. split; [done|]. intros fd'. rewrite HA. destruct (decide (fd = fd')) as [<-|]; [|done].
    split; [done|]. by intros []. }
  rewrite (Hnx fd) by (apply Hsub; left).
  destruct (IH rest (f_next (info_at fd (b_ctx s))) l2 (with_ctx s2 p3) Hlk H3) as (s' & l' & E & Rs); try done.
  - eapply kq_chain_frame; [|intros fd' Hfd'; apply Hnx, Hsub; by right|exact Hch]. done.
  - intros fd' Hfd'. apply Hl2, Hsub. by right.
  - cbn in Hf. lia.
  - intros fd' d Hfd'. cbn. rewrite HA, decide_False by (by intros ->). rewrite F2. apply Hrev. by right.
  - intros fd' Hfd'. cbn. rewrite HA. destruct (decide (fd = fd')) as [<-|Hne]; [done|]. rewrite F2. apply Hoff.
    rewrite elem_of_cons. naive_solver.
  - intros c k d fd' Hc Hrv. cbn in Hc. destruct Fi2 as (T & _ & HT & _ & HF). rewrite HF in Hc.
    apply map_lookup_filter_Some in Hc as [Hc HnT]. pose proof (Hw c k d fd' Hc Hrv) as Hin.
    apply elem_of_cons in Hin as [->|Hin]; [|done]. exfalso. apply HnT, HT. exists c, d, fd. split; [done|].
    apply kq_at_fd_true. split; [done|]. rewrite Hrev by left. done.
  - exists s', l'. split; [done|]. destruct Rs as (R1 & R2 & R3 & R4 & R5 & R6).
    split; [done|]. split; [done|]. split; [done|]. split; [cbn in R4; congruence|]. split; [cbn in R5; congruence|].
    eapply fired_ext, fired_trans; [|exact Fi2|exact R6]. intros c k d fd' _. cbn.
    destruct (at_fd _ _ fd' d) eqn:Hat; [|done]. apply kq_at_fd_true in Hat as [-> Hrd]. by rewrite <- Hrev, Hrd by left.
Qed.

(** ** The operations *)

Record pollset_ok (s : state) : Prop := {
  pk_linked : linked s;
  pk_quiet : quiet (b_ctx s);
  pk_lists : ∃ l, kq_ok l [] (b_ctx s);
}.

(** What the system guarantees of the events it reports: no errors, and only of filters it
    was asked for, that is (by [kernel_waits]) of directions somebody waits for. *)
Definition result_ok (s : state) (res : kq_result) : Prop :=
  match res with
  | KqIntr => True
  | KqError => False
  | KqEvents evs => ∀ ev, ev ∈ evs → ev_error ev = false ∧
      waits (ev_filter ev) (info_at (ev_ident ev) (b_ctx s)) = true
  end.

Lemma sync_ok s : pollset_ok s →
  ∃ p', pollset_sync kevent s = Some (tt, with_ctx s p') ∧ kq_ok [] [] p' ∧ quiet p' ∧ same_waits (b_ctx s) p' ∧
    ∀ fd d, (fd, d) ∈ kernel p' ↔ waits d (info_at fd (b_ctx s)) = true.
Proof.
  intros [Hs Hq [l H]]. unfold pollset_sync. rewrite (b_run b_get _ s (b_ctx s) s eq_refl).
  pose proof (chain_length _ _ _ (kq_list _ _ _ _ _ H) (kq_nodup _ _ _ _ _ H)) as Hlen.
  destruct (flush_ok (S (Z.to_nat (nfdinfos (b_ctx s)))) l [] s H Hq) as (chs & p1 & E1 & H1 & Hq1 & Hw1); [lia|done|].
  brun E1. brun (do_changes_run _ _ _ (with_ctx s p1) H1).
  destruct (ok_sent _ _ laws _ _ _ _ H1) as [_ H2].
  eexists. split; [done|]. split; [exact H2|]. split; [done|]. split; [done|].
  intros fd d. rewrite <- (same_waits_waits _ _ d fd Hw1). apply (kernel_waits _ fd d H2).
Qed.

Lemma kq_pollset_poll_ok res s : pollset_ok s → result_ok s res →
  ∃ rc s', dill_pollset_poll kevent res s = Some (rc, s') ∧ pollset_ok s' ∧ b_errno s' = b_errno s ∧
    match res with
    | KqEvents evs => fired (reports evs) (b_rt s) (b_rt s') ∧ rc = match evs with [] => 0 | _ => 1 end
    | _ => rc = -1 ∧ b_rt s' = b_rt s
    end.
Proof.
  intros Hs Hres. destruct (sync_ok s Hs) as (p1 & E1 & H1 & Hq1 & Hw1 & _). unfold dill_pollset_poll. brun E1.
  assert (Hs1 : linked (with_ctx s p1)) by (apply linked_same; [apply Hs|done]).
  destruct res as [| |evs]; cbn in Hres; [|done|].
  { exists (-1), (with_ctx s p1). split; [done|]. split; [|done]. split; [done|done|by exists []]. }
  destruct (join_events_ok evs [] (with_ctx s p1) H1) as (l2 & p2 & E2 & H2 & Hw2 & _ & Hin2 & G2).
  { intros ev Hev. destruct (Hres ev Hev) as [A B]. split; [done|]. cbn. by rewrite (same_waits_waits _ _ _ _ Hw1). }
  brun E2. cbn [with_ctx b_ctx b_rt b_errno] in *. set (s2 := mk_bst (b_rt s) p2 (b_errno s)).
  change (with_ctx (with_ctx s p1) p2) with s2. rewrite (b_run b_get _ s2 p2 s2 eq_refl).
  assert (Hs2 : linked s2) by (change s2 with (with_ctx (with_ctx s p1) p2); by apply linked_same).
  assert (Hfi : ∀ fd d, ev_get d (f_firing (info_at fd p2)) = reports evs fd d).
  { intros fd d. rewrite G2, Hq1. by destruct d. }
  destruct (resume_ok (reports evs) (S (Z.to_nat (nfdinfos p2))) l2 (changelist p2) l2 s2 Hs2 H2)
    as (s3 & l3 & E3 & Hs3 & H3 & Hq3 & Q3 & _ & Fi3); try done.
  - apply H2.
  - apply H2.
  - pose proof (chain_length _ _ _ (kq_list _ _ _ _ _ H2) (kq_nodup _ _ _ _ _ H2)). lia.
  - intros fd Hno. assert (Hf : ∀ d, ev_get d (f_firing (info_at fd p2)) = false).
    { intros d. rewrite Hfi. destruct (reports evs fd d) eqn:E; [|done]. by destruct (Hno (Hin2 fd d E)). }
    pose proof (Hf DIn) as A. pose proof (Hf DOut) as B. cbn in A, B.
    change (f_firing (info_at fd (b_ctx s2))) with (f_firing (info_at fd p2)). destruct (f_firing (info_at fd p2)). cbn in *. congruence.
  - intros c k d fd _ Hr. by eapply Hin2.
  - brun E3. eexists _, s3. split; [done|]. split; [|done]. split; [done|done|by exists l3].
Qed.

(** ** Waiting *)

(** A descriptor that the pollset takes: in range, and known or accepted by the kernel. *)
Definition usable (p : dill_ctx_pollset) (d : dir) (fd : Z) : Prop :=
  0 ≤ fd < nfdinfos p ∧ (f_cached (info_at fd p) = true ∨ kevent (kernel p) [mk_change fd d true] = None).

(** A new descriptor that the kernel refuses with another error than EBADF. *)
Definition refused (p : dill_ctx_pollset) (d : dir) (fd : Z) : Prop :=
  0 ≤ fd < nfdinfos p ∧ f_cached (info_at fd p) = false ∧
  ∃ e, kevent (kernel p) [mk_change fd d true] = Some e ∧ e ≠ EBADF.

Definition wait_outcome (d : dir) (c fd : Z) (s : state) (rc : Z) (s' : state) : Prop :=
  (rc = -1 ∧ b_rt s' = b_rt s ∧
    ((b_errno s' = EBADF ∧ ¬ usable (b_ctx s) d fd) ∨
     (b_errno s' = EBUSY ∧ ∃ k c', wt_fds (b_rt s) !! c' = Some (k, d, fd)))) ∨
  (rc = 0 ∧ b_errno s' = b_errno s ∧ usable (b_ctx s) d fd ∧ (∀ k c', wt_fds (b_rt s) !! c' ≠ Some (k, d, fd)) ∧
    wt_ready (b_rt s') = wt_ready (b_rt s) ∧ ∃ k, wt_fds (b_rt s') = <[c := (k, d, fd)]> (wt_fds (b_rt s))).

(** A descriptor used for the first time *)
Definition cached_info (d : dir) : dill_fdinfo := mk_fdinfo None None (ev_set d true (false, false)) (false, false) 0 true.

Lemma ok_cache d fd l p : kq_ok l [] p → f_cached (info_at fd p) = false → pollable fd → 0 ≤ fd < nfdinfos p →
  kq_ok_but pollable (Some fd) l [] (upd_info fd (λ _, cached_info d) (set_kernel (kernel_changes (kernel p) [mk_change fd d true]) p)).
Proof.
  intros H Hca Hp Hr. destruct (kq_uncached _ _ _ _ _ H fd Hca) as (U1 & U2 & U3). set (p' := upd_info _ _ _).
  assert (HA : ∀ fd', info_at fd' p' = if decide (fd = fd') then cached_info d else info_at fd' p)
    by apply (info_at_upd fd (λ _, cached_info d) (set_kernel _ p)).
  assert (Hno : fd ∉ l) by (rewrite <- (kq_next _ _ _ _ _ H fd); tauto).
  constructor; [apply H| |apply H|intros fd'; rewrite ?HA..|done| |].
  - apply kq_chain_frame with p; [done| |apply H]. intros fd' Hfd'. rewrite HA, decide_False; [done|]. by intros ->.
  - destruct (decide (fd = fd')) as [<-|]; [cbn; tauto|apply H].
  - intros d' Hz Hne. rewrite decide_False in Hz |- * by congruence. by apply (kq_synced _ _ _ _ _ H).
  - intros d'. pose proof (kq_kernel _ _ _ _ _ H fd' d') as Hk. cbn in Hk |- *. unfold kernel_change. cbn.
    rewrite elem_of_union, elem_of_singleton, Hk. destruct (decide (fd = fd')) as [<-|]; [|naive_solver].
    rewrite U1. destruct d, d'; cbn; naive_solver.
  - intros fd'. rewrite HA. destruct (decide (fd = fd')) as [<-|]; [done|apply H].
  - intros fd'. rewrite HA. destruct (decide (fd = fd')) as [<-|]; [done|apply H].
Qed.

Lemma cache_fd_ok d fd s : pollset_ok s → 0 ≤ fd < nfdinfos (b_ctx s) → ¬ refused (b_ctx s) d fd →
  (cache_fd kevent d fd (info_at fd (b_ctx s)) s = Some (-1, mk_bst (b_rt s) (b_ctx s) EBADF) ∧ ¬ usable (b_ctx s) d fd) ∨
  (∃ l p', cache_fd kevent d fd (info_at fd (b_ctx s)) s = Some (0, with_ctx s p') ∧ usable (b_ctx s) d fd ∧
    kq_ok_but pollable (Some fd) l [] p' ∧ nfdinfos p' = nfdinfos (b_ctx s) ∧ quiet p' ∧ f_cached (info_at fd p') = true ∧
    (p' = b_ctx s ∨ f_get d (info_at fd p') = None) ∧
    (∀ fd' d', f_get d' (info_at fd' p') = f_get d' (info_at fd' (b_ctx s)))).
Proof.
  intros [Hs Hq [l H]] Hr Href. unfold cache_fd. destruct (f_cached (info_at fd (b_ctx s))) eqn:Hca.
  { right. exists l, (b_ctx s). split; [by destruct s|]. split; [split; [done|by left]|]. split; [|by repeat (split; [done|]); auto].
    destruct H as [K1 K2 K3 K4 K5 K6 K7 K8 K9]. constructor; try done. intros fd' d' Hz _. by apply K5. }
  pose proof (do_changes_eq [mk_change fd d true] s) as E.
  destruct (kevent (kernel (b_ctx s)) [mk_change fd d true]) as [e|] eqn:Ek; brun E.
  - left. assert (e = EBADF) as -> by (destruct (decide (e = EBADF)); [done|]; destruct Href; by split; [|split; [|exists e]]).
    split; [done|]. intros [_ [Hu|Hu]]; congruence.
  - right. pose proof (ok_cache d fd l _ H Hca (law_pollable _ _ laws _ _ _ Ek) Hr) as H1.
    eexists l, _. split; [done|]. split; [split; [done|by right]|]. split; [exact H1|]. split; [done|].
    set (k := kernel_changes _ _). set (p1 := set_kernel k (b_ctx s)).
    assert (HA : ∀ fd', info_at fd' (upd_info fd (λ _, cached_info d) p1) =
      if decide (fd = fd') then cached_info d else info_at fd' (b_ctx s))
      by apply (info_at_upd fd (λ _, cached_info d) p1).
    change (mk_fdinfo None None _ _ 0 true) with (cached_info d) in *.
    split; [intros fd'; rewrite HA; by destruct (decide (fd = fd'))|].
    split; [by rewrite HA, decide_True|]. split; [right; rewrite HA, decide_True by done; by destruct d|].
    intros fd' d'. rewrite HA. destruct (decide (fd = fd')) as [<-|]; [|done].
    destruct (kq_uncached _ _ _ _ _ H fd Hca) as (_ & -> & _). by destruct d'.
Qed.

(** The clause is added to the bookkeeping, *)
Lemma kq_claim_ok l d fd c p : kq_ok_but pollable (Some fd) l [] p → f_cached (info_at fd p) = true →
  ∃ l', kq_ok l' [] (upd_info fd (f_set d (Some c)) (add_change fd p)).
Proof.
  intros H Hca. pose proof (kq_ok_add_change _ (Some fd) _ _ _ fd H ltac:(by right) Hca) as H1.
  set (l1 := if _ =? 0 then _ else _) in H1. exists l1. apply (ok_in_list _ _ _ _ fd).
  - apply ok_set; [done|]. by destruct (add_change_same fd p) as [_ Hw], (Hw fd) as [-> _].
  - unfold l1. destruct (Z.eqb_spec (f_next (info_at fd p)) 0); [left|]. by apply (kq_next _ _ _ _ _ H).
Qed.

(** and to the runtime. *)
Lemma claim_linked s p d fd c k r' : linked s → same_waits (b_ctx s) p → f_get d (info_at fd (b_ctx s)) = None →
  wt_ok r' → wt_fds (b_rt s) !! c = None → wt_fds r' = <[c := (k, d, fd)]> (wt_fds (b_rt s)) →
  linked (mk_bst r' (upd_info fd (f_set d (Some c)) p) (b_errno s)).
Proof.
  intros Hs [_ Hw] Hno Hr Hnone Hfds. constructor; cbn; [done|]. intros c' d' fd'. rewrite Hfds.
  setoid_rewrite lookup_insert_Some.
  assert (Hg : f_get d' (info_at fd' (upd_info fd (f_set d (Some c)) p)) = Some c' ↔
    (fd' = fd ∧ d' = d ∧ c' = c) ∨ f_get d' (info_at fd' (b_ctx s)) = Some c').
  { rewrite info_at_upd. destruct (decide (fd = fd')) as [<-|Hn]; [|destruct (Hw fd') as [_ Hw']; rewrite (Hw' d'); naive_solver].
    destruct (Hw fd) as [_ Hw']. specialize (Hw' d'). destruct d, d'; cbn in Hw', Hno |- *; rewrite ?Hno; try rewrite Hw'; naive_solver. }
  rewrite Hg, <- (lk_agree s Hs). split.
  - intros (k' & [[<- [= <- <- <-]]|[_ Hk']]); [by left|right; by exists k'].
  - intros [(-> & -> & ->)|[k' Hk']]; [exists k; by left|]. exists k'. right. split; [congruence|done].
Qed.

Lemma same_infos_waits p p' : nfdinfos p' = nfdinfos p → (∀ fd d, f_get d (info_at fd p') = f_get d (info_at fd p)) →
  ∀ s, b_ctx s = p → linked s → linked (with_ctx s p').
Proof. intros _ Hg s <- Hs. constructor; [apply Hs|]. intros c d fd. cbn. rewrite Hg. apply Hs. Qed.

(** The kernel's refusal is a failed assertion. *)
Lemma kq_pollset_wait_refused d c id fd s : refused (b_ctx s) d fd → pollset_wait kevent d c id fd s = None.
Proof.
  intros (Hr & Hca & e & Ek & He). unfold pollset_wait. rewrite (b_run b_get _ s (b_ctx s) s eq_refl).
  assert (((fd <? 0) || (nfdinfos (b_ctx s) <=? fd)) = false) as -> by lia.
  brun (kq_get_info_run fd s Hr). cbv beta. unfold cache_fd. rewrite Hca.
  pose proof (do_changes_eq [mk_change fd d true] s) as E. rewrite Ek in E.
  unfold mbind at 1, BM_bind at 1. unfold mbind at 1, BM_bind at 1. rewrite E.
  unfold b_assert. by rewrite bool_decide_false.
Qed.

Lemma kq_pollset_wait_ok d c id fd s : pollset_ok s → wt_running (b_rt s) → wt_fresh c (b_rt s) →
  ¬ refused (b_ctx s) d fd →
  ∃ rc s', pollset_wait kevent d c id fd s = Some (rc, s') ∧ pollset_ok s' ∧ wt_running (b_rt s') ∧
    wait_outcome d c fd s rc s'.
Proof.
  intros Hs Hrun Hfr Href. pose proof (pk_linked s Hs) as Hl. unfold pollset_wait, wait_outcome. rewrite (b_run b_get _ s (b_ctx s) s eq_refl).
  assert (Hbad : ∀ e, pollset_ok (mk_bst (b_rt s) (b_ctx s) e)) by (intros e; destruct Hs as [[] ? ?]; by constructor).
  destruct ((fd <? 0) || (nfdinfos (b_ctx s) <=? fd)) eqn:Hr.
  { exists (-1), (mk_bst (b_rt s) (b_ctx s) EBADF). split; [done|]. split; [done|]. split; [done|]. left.
    split; [done|]. split; [done|]. left. split; [done|]. unfold usable. lia. }
  brun (kq_get_info_run fd s ltac:(lia)). cbv beta.
  destruct (cache_fd_ok d fd s Hs) as [[E Hu]|(l & p & E & Hu & H & Hn & Hq & Hca & Hor & Hg)]; [lia|done| |]; brun E; cbn [Z.ltb Z.compare].
  { exists (-1), (mk_bst (b_rt s) (b_ctx s) EBADF). split; [done|]. split; [done|]. split; [done|]. left.
    split; [done|]. split; [done|]. by left. }
  erewrite b_run by (apply kq_get_info_run; cbn; lia). cbn [with_ctx b_ctx].
  destruct (f_get d (info_at fd p)) as [c'|] eqn:Hgf.
  { destruct Hor as [->|]; [|done]. exists (-1), (mk_bst (b_rt s) (b_ctx s) EBUSY). split; [done|]. split; [done|]. split; [done|].
    left. split; [done|]. split; [done|]. right. split; [done|]. apply (lk_agree s Hl) in Hgf as [k Hk]. by exists k, c'. }
  destruct (waitfor_law c id d fd (b_rt s) (lk_rt s Hl) Hrun Hfr) as (Hnone & k & r' & W & Hok & Hrun' & Hw & Hrd).
  destruct (kq_claim_ok l d fd c p H Hca) as [l' H2]. set (p1 := add_change fd p) in *. set (p2 := upd_info fd (f_set d (Some c)) p1) in *.
  pose proof (same_infos_waits _ p Hn Hg s eq_refl Hl) as Hl1.
  exists 0, (mk_bst r' p2 (b_errno s)). split.
  { brun (b_mod_run (add_change fd) (with_ctx s p)). brun (b_mod_run (upd_info fd (f_set d (Some c))) (with_ctx s p1)).
    rewrite (b_run _ _ _ tt (mk_bst r' p2 (b_errno s))); [done|]. unfold b_waitfor. cbn. by rewrite W. }
  split; [|split; [done|right]].
  - constructor; [|intros fd'; unfold p2|by exists l'].
    + apply (claim_linked (with_ctx s p) p1 d fd c k r' Hl1); try done. apply add_change_same.
    + apply quiet_upd; [intros fd2; unfold p1; by rewrite add_change_firing|].
      assert (Hq1 : f_firing (info_at fd p1) = (false, false)) by (unfold p1; by rewrite add_change_firing). by destruct d.
  - split; [done|]. split; [done|]. split; [done|]. split; [|split; [done|by exists k]].
    intros k' c' Hk'. pose proof (proj1 (lk_agree s Hl c' d fd) ltac:(by exists k')) as Hgs. rewrite <- Hg in Hgs. congruence.
Qed.

(** ** Cleaning *)

(** [*pidx = fdi->next] *)
Definition unlink_fd (pidx : option Z) (fd : Z) (p : dill_ctx_pollset) : dill_ctx_pollset :=
  let nx := f_next (info_at fd p) in
  match pidx with None => set_changelist nx p | Some q => upd_info q (set_next nx) p end.

Lemma changelist_remove_run fd l2 p : 0 ≤ nfdinfos p < 2 ^ 31 → ∀ l1 fuel q,
  chain p (match q with None => changelist p | Some q => f_next (info_at q p) end) (l1 ++ fd :: l2) →
  fd ∉ l1 → (length l1 < fuel)%nat →
  changelist_remove fuel q fd p = Some (unlink_fd (match last l1 with Some x => Some x | None => q end) fd p).
Proof.
  intros Hsz l1. induction l1 as [|x l1 IH]; intros [|fuel] q Hch Hno Hf; cbn in Hf; try lia; cbn [changelist_remove].
  - cbn in Hch. destruct Hch as (-> & Hr & _). unfold DILL_ENDLIST.
    destruct (Z.eqb_spec (fd + 1) 0); [lia|]. destruct (Z.eqb_spec (fd + 1) 0xffffffff); [lia|]. cbn [orb].
    destruct (Z.eqb_spec (fd + 1 - 1) fd); [|lia]. by destruct q.
  - destruct Hch as (-> & Hr & _ & Hch). unfold DILL_ENDLIST. apply not_elem_of_cons in Hno as [Hne Hno].
    destruct (Z.eqb_spec (x + 1) 0); [lia|]. destruct (Z.eqb_spec (x + 1) 0xffffffff); [lia|]. cbn [orb].
    destruct (Z.eqb_spec (x + 1 - 1) fd); [lia|]. replace (x + 1 - 1) with x by lia.
    rewrite (IH fuel (Some x)) by (done || lia). rewrite last_cons. by destruct (last l1).
Qed.

Lemma chain_unlink fd l2 p : f_next (info_at fd p) ≠ 0 → ∀ l1 idx, chain p idx (l1 ++ fd :: l2) → NoDup (l1 ++ fd :: l2) →
  match last l1 with
  | None => chain p (f_next (info_at fd p)) l2
  | Some x => chain (upd_info x (set_next (f_next (info_at fd p))) p) idx (l1 ++ l2)
  end.
Proof.
  intros Hz l1. induction l1 as [|x l1 IH]; intros idx Hch Hnd; [by destruct Hch as (_ & _ & _ & Hch)|].
  cbn [app] in Hnd. apply NoDup_cons in Hnd as [Hx Hnd]. destruct Hch as (-> & Hr & Hn & Hch).
  specialize (IH _ Hch Hnd). rewrite last_cons. destruct (last l1) as [y|] eqn:El.
  - assert (Hy : y ∈ l1) by (by apply last_Some_elem_of).
    cbn [app chain]. rewrite info_at_upd, decide_False; [done|]. intros ->. apply Hx, elem_of_app. by left.
  - apply last_None in El as ->. cbn [app chain]. rewrite info_at_upd, decide_True by done. cbn [f_next set_next].
    split; [done|]. split; [done|]. split; [done|]. apply (kq_chain_frame p); [done| |exact IH]. intros fd' Hfd'.
    rewrite info_at_upd, decide_False; [done|]. intros ->. apply Hx. cbn. by right.
Qed.

Lemma ok_removed fd l l' p p' : kq_ok l [] p → 0 ≤ nfdinfos p' → nfdinfos p' = nfdinfos p →
  chain p' (changelist p') l' → NoDup l' → (∀ fd', fd' ∈ l' ↔ fd' ∈ l ∧ fd' ≠ fd) →
  (∀ fd' d, (fd', d) ∈ kernel p' ↔ (fd', d) ∈ kernel p ∧ fd' ≠ fd) →
  (f_currevs (info_at fd p') = (false, false) ∧ (∀ d, f_get d (info_at fd p') = None) ∧ f_next (info_at fd p') = 0 ∧
    f_cached (info_at fd p') = false) →
  (∀ fd', fd' ≠ fd → ∃ n, info_at fd' p' = set_next n (info_at fd' p) ∧ (n ≠ 0 ↔ f_next (info_at fd' p) ≠ 0)) →
  kq_ok l' [] p'.
Proof.
  intros H Hn0 Hn Hch Hnd Hl Hk (C1 & C2 & C3 & C4) Ho.
  assert (Hex : ∀ fd', fd' = fd ∨ fd' ≠ fd) by (intros fd'; lia).
  constructor; try done; [rewrite Hn; apply H|..].
  - intros fd'. rewrite Hl. destruct (Hex fd') as [->|Hne]; [naive_solver|].
    destruct (Ho fd' Hne) as (n & -> & Hz). cbn. rewrite Hz, (kq_next _ _ _ _ _ H). tauto.
  - intros fd' d. destruct (Hex fd') as [->|Hne].
    + intros _ _. rewrite C1. unfold waits. rewrite C2. by destruct d.
    + destruct (Ho fd' Hne) as (n & -> & Hz). cbn. intros -> _. apply (kq_synced _ _ _ _ _ H); [|done].
      destruct (decide (f_next (info_at fd' p) = 0)); [done|]. by destruct (proj2 Hz).
  - intros fd' d. cbn. rewrite Hk. pose proof (kq_kernel _ _ _ _ _ H fd' d) as Hkk. cbn in Hkk. rewrite Hkk.
    destruct (Hex fd') as [->|Hne].
    + rewrite C1. destruct d; cbn; naive_solver.
    + destruct (Ho fd' Hne) as (n & -> & _). cbn. tauto.
  - intros fd'. destruct (Hex fd') as [->|Hne]; [done|]. destruct (Ho fd' Hne) as (n & -> & Hz). cbn.
    intros Hu. destruct (kq_uncached _ _ _ _ _ H fd' Hu) as (U1 & U2 & U3). split; [done|]. split; [by intros []; [apply (U2 DIn)|apply (U2 DOut)]|].
    destruct (decide (n = 0)); [done|]. by destruct (proj1 Hz).
  - intros fd'. destruct (Hex fd') as [->|Hne]; [congruence|]. destruct (Ho fd' Hne) as (n & -> & _). cbn. rewrite Hn. apply H.
Qed.

Lemma deletions_ok fd l p : kq_ok l [] p →
  valid_changes pollable (kernel p) (deletions fd (f_currevs (info_at fd p))) ∧
  ∀ fd' d, (fd', d) ∈ kernel_changes (kernel p) (deletions fd (f_currevs (info_at fd p))) ↔ (fd', d) ∈ kernel p ∧ fd' ≠ fd.
Proof.
  intros H. pose proof (kq_kernel _ _ _ _ _ H fd DIn) as K1. pose proof (kq_kernel _ _ _ _ _ H fd DOut) as K2. cbn in K1, K2.
  unfold deletions. destruct (f_currevs (info_at fd p)) as [[] []]; cbn in *; unfold kernel_change; cbn.
  - split; [rewrite elem_of_difference, elem_of_singleton; naive_solver|].
    intros fd' d. rewrite !elem_of_difference, !elem_of_singleton. destruct d; naive_solver.
  - split; [naive_solver|]. intros fd' d. rewrite elem_of_difference, elem_of_singleton. destruct d; naive_solver.
  - split; [naive_solver|]. intros fd' d. rewrite elem_of_difference, elem_of_singleton. destruct d; naive_solver.
  - split; [done|]. intros fd' d. destruct d; naive_solver.
Qed.

Lemma delete_filters_ok fd l s : kq_ok l [] (b_ctx s) →
  delete_filters kevent fd (info_at fd (b_ctx s)) s = Some (tt, with_ctx s
    (set_kernel (kernel_changes (kernel (b_ctx s)) (deletions fd (f_currevs (info_at fd (b_ctx s))))) (b_ctx s))).
Proof.
  intros H. destruct (deletions_ok fd l _ H) as [Hv _]. unfold delete_filters.
  pose proof (do_changes_eq (deletions fd (f_currevs (info_at fd (b_ctx s)))) s) as E. rewrite (law_valid _ _ laws _ _ Hv) in E.
  destruct (_ || _) eqn:Hb; [by brun E|]. unfold deletions. apply orb_false_iff in Hb as [-> ->]. cbn.
  by destruct s as [r [] e].
Qed.

(** [p'] is [p] without descriptor [fd]; its place in the changelist is taken by the next. *)
Definition removed_info (fd : Z) (p p' : dill_ctx_pollset) : Prop :=
  nfdinfos p' = nfdinfos p ∧ kernel p' = kernel p ∧
  info_at fd p' = set_next 0 (info_at fd p) ∧
  ∀ fd', fd' ≠ fd → ∃ n, info_at fd' p' = set_next n (info_at fd' p) ∧ (n ≠ 0 ↔ f_next (info_at fd' p) ≠ 0).

Lemma set_next_same fd p : set_next (f_next (info_at fd p)) (info_at fd p) = info_at fd p.
Proof. by destruct (info_at fd p). Qed.

Lemma chain_next_pos p idx l : chain p idx l → 0 ≤ nfdinfos p → idx ≠ 0.
Proof. destruct l; [by intros -> |]. intros (-> & ? & _). lia. Qed.

Lemma leave_changelist_ok fd l f s : 0 ≤ nfdinfos (b_ctx s) < 2 ^ 31 → chain (b_ctx s) (changelist (b_ctx s)) l → NoDup l →
  (∀ fd', f_next (info_at fd' (b_ctx s)) ≠ 0 ↔ fd' ∈ l) → f_next f = f_next (info_at fd (b_ctx s)) →
  ∃ l' p', leave_changelist fd f s = Some (tt, with_ctx s p') ∧ removed_info fd (b_ctx s) p' ∧
    chain p' (changelist p') l' ∧ NoDup l' ∧ ∀ fd', fd' ∈ l' ↔ fd' ∈ l ∧ fd' ≠ fd.
Proof.
  intros Hsz Hch Hnd Hnx Hf. unfold leave_changelist. rewrite Hf. set (p := b_ctx s) in *.
  destruct (Z.eqb_spec (f_next (info_at fd p)) 0) as [Hz|Hz].
  { exists l, p. split; [by destruct s|]. split; [|split; [done|split; [done|]]].
    - split; [done|]. split; [done|]. split; [by rewrite <- (set_next_same fd p) at 1; rewrite Hz|].
      intros fd' _. exists (f_next (info_at fd' p)). by rewrite set_next_same.
    - intros fd'. split; [|tauto]. intros Hin. split; [done|]. intros ->. by apply Hnx in Hin. }
  apply Hnx in Hz as Hin. apply list_elem_of_split in Hin as (l1 & l2 & ->).
  assert (Hno : fd ∉ l1 ++ l2) by (apply NoDup_app in Hnd as (_ & Hd & [Hn2 _]%NoDup_cons);
    intros [Hi|Hi]%elem_of_app; [apply (Hd fd Hi); left|done]).
  assert (Hfuel : (length l1 < S (Z.to_nat (nfdinfos p)))%nat).
  { pose proof (chain_length p _ _ Hch Hnd) as Hl. rewrite length_app in Hl. lia. }
  pose proof (changelist_remove_run fd l2 p Hsz l1 _ None Hch ltac:(set_solver) Hfuel) as E.
  pose proof (chain_unlink fd l2 p Hz l1 _ Hch Hnd) as Hcu.
  brun (b_upd_run (λ p, changelist_remove (S (Z.to_nat (nfdinfos p))) None fd p) s _ E).
  set (p1 := unlink_fd _ fd p) in *. exists (l1 ++ l2), (upd_info fd (set_next 0) p1). split; [done|].
  assert (Hnz : f_next (info_at fd p) ≠ 0) by done.
  assert (HA : ∀ fd', info_at fd' p1 = if decide (last l1 = Some fd') then set_next (f_next (info_at fd p)) (info_at fd' p) else info_at fd' p).
  { intros fd'. unfold p1, unlink_fd. destruct (last l1) as [x|]; [|by rewrite decide_False]. rewrite info_at_upd.
    destruct (decide (x = fd')) as [<-|]; [by rewrite decide_True|by rewrite decide_False by congruence]. }
  assert (Hlast : last l1 ≠ Some fd) by (intros Hl%last_Some_elem_of; apply Hno, elem_of_app; by left).
  split; [split; [|split; [|split]]|split; [|split]].
  - unfold p1, unlink_fd. by destruct (last l1).
  - unfold p1, unlink_fd. by destruct (last l1).
  - rewrite info_at_upd, decide_True, HA, decide_False by done. done.
  - intros fd' Hne. rewrite info_at_upd, decide_False, HA by done. destruct (decide (last l1 = Some fd')) as [Hl|Hl].
    + eexists. split; [done|]. split; [|done]. intros _. apply Hnx, elem_of_app. left. by apply last_Some_elem_of.
    + exists (f_next (info_at fd' p)). by rewrite set_next_same.
  - assert (Hcl : chain p1 (changelist p1) (l1 ++ l2)).
    { unfold p1, unlink_fd. destruct (last l1) as [x|] eqn:El; [exact Hcu|]. apply last_None in El as ->. by apply (kq_chain_frame p). }
    apply (kq_chain_frame p1); [done| |exact Hcl]. intros fd' Hfd'. rewrite info_at_upd, decide_False; [done|]. by intros ->.
  - apply NoDup_app in Hnd as (N1 & Hd & [Hn2 N2]%NoDup_cons). apply NoDup_app. split; [done|]. split; [|done].
    intros x Hx Hx2. apply (Hd x Hx). by right.
  - intros fd'. rewrite !elem_of_app, elem_of_cons. set_solver.
Qed.

Lemma kq_pollset_clean_ok fd s : pollset_ok s → 0 ≤ fd < nfdinfos (b_ctx s) →
  ∃ rc s', dill_pollset_clean kevent fd s = Some (rc, s') ∧ pollset_ok s' ∧ b_rt s' = b_rt s ∧
    ((rc = -1 ∧ b_errno s' = EBUSY ∧ ∃ c k d, wt_fds (b_rt s) !! c = Some (k, d, fd)) ∨
     (rc = 0 ∧ b_errno s' = b_errno s ∧ f_cached (info_at fd (b_ctx s')) = false ∧ ∀ d, (fd, d) ∉ kernel (b_ctx s'))).
Proof.
  intros Hs Hr. pose proof Hs as [Hl Hq [l H]]. unfold dill_pollset_clean. brun (kq_get_info_run fd s Hr).
  set (p := b_ctx s) in *. set (f := info_at fd p). destruct (f_cached f) eqn:Hca; cbn [negb].
  2: { exists 0, s. split; [done|]. split; [done|]. split; [done|]. right. split; [done|]. split; [done|]. split; [done|].
    intros d. pose proof (kq_kernel _ _ _ _ _ H fd d) as Hk. cbn in Hk. fold p. rewrite Hk.
    destruct (kq_uncached _ _ _ _ _ H fd Hca) as (-> & _). by destruct d. }
  destruct (bool_decide (is_Some (f_in f)) || bool_decide (is_Some (f_out f))) eqn:Hb.
  { exists (-1), (mk_bst (b_rt s) p EBUSY). split; [done|].
    split; [destruct Hl; constructor; [by constructor|done|by exists l]|]. split; [done|].
    left. split; [done|]. split; [done|]. apply orb_true_iff in Hb as [[c Hg]%bool_decide_eq_true|[c Hg]%bool_decide_eq_true].
    - destruct (proj2 (lk_agree s Hl c DIn fd) Hg) as [k Hk]. by exists c, k, DIn.
    - destruct (proj2 (lk_agree s Hl c DOut fd) Hg) as [k Hk]. by exists c, k, DOut. }
  apply orb_false_iff in Hb as [Hbi%bool_decide_eq_false%eq_None_not_Some Hbo%bool_decide_eq_false%eq_None_not_Some].
  brun (delete_filters_ok fd l s H). fold p f. set (p1 := set_kernel _ p). destruct (deletions_ok fd l p H) as [_ Hdel]. fold f in Hdel.
  brun (b_mod_run (upd_info fd (set_currevs (false, false))) (with_ctx s p1)). cbn [with_ctx b_ctx b_rt b_errno].
  set (p2 := upd_info fd (set_currevs (false, false)) p1).
  assert (HA : ∀ fd', info_at fd' p2 = if decide (fd = fd') then set_currevs (false, false) f else info_at fd' p)
    by apply (info_at_upd fd _ p1).
  assert (HN : ∀ fd', f_next (info_at fd' p2) = f_next (info_at fd' p)) by (intros fd'; rewrite HA; by destruct (decide (fd = fd')) as [<-|]).
  destruct (leave_changelist_ok fd l f (with_ctx s p2)) as (l' & p3 & E3 & (N3 & K3 & I3 & O3) & Hch & Hnd & Hin); cbn.
  { apply H. } { apply (kq_chain_frame p); [done| |apply H]. auto. } { apply H. } { intros fd'. rewrite HN. apply H. } { by rewrite HN. }
  change (mk_bst (b_rt s) p2 (b_errno s)) with (with_ctx s p2). brun E3.
  change (with_ctx (with_ctx s p2) p3) with (with_ctx s p3). brun (b_mod_run (upd_info fd (set_cached false)) (with_ctx s p3)).
  cbn in K3, I3, O3, Hin. change (nfdinfos p3 = nfdinfos p) in N3. cbn [with_ctx b_ctx b_rt b_errno]. set (p4 := upd_info fd (set_cached false) p3).
  assert (HA4 : ∀ fd', info_at fd' p4 = if decide (fd = fd') then set_cached false (info_at fd p3) else info_at fd' p3)
    by apply info_at_upd.
  assert (I4 : info_at fd p4 = mk_fdinfo None None (false, false) (f_firing f) 0 false).
  { rewrite HA4, decide_True, I3, HA, decide_True by done. unfold set_cached, set_next, set_currevs. cbn. by rewrite Hbi, Hbo. }
  assert (O4 : ∀ fd', fd' ≠ fd → ∃ n, info_at fd' p4 = set_next n (info_at fd' p) ∧ (n ≠ 0 ↔ f_next (info_at fd' p) ≠ 0)).
  { intros fd' Hne. rewrite HA4, decide_False by done. destruct (O3 fd' Hne) as (n & -> & Hz). exists n.
    rewrite HN in Hz. by rewrite HA, decide_False. }
  assert (Hg4 : ∀ fd' d, f_get d (info_at fd' p4) = f_get d (info_at fd' p)).
  { intros fd' d. destruct (decide (fd' = fd)) as [->|Hne]; [rewrite I4; destruct d; cbn; [by rewrite <- Hbi|by rewrite <- Hbo]|].
    destruct (O4 fd' Hne) as (n & -> & _). by destruct d. }
  assert (Hk4 : ∀ fd' d, (fd', d) ∈ kernel p4 ↔ (fd', d) ∈ kernel p ∧ fd' ≠ fd).
  { intros fd' d. cbn. rewrite K3. apply Hdel. }
  exists 0, (with_ctx s p4). split; [done|]. split; [|split; [done|right; split; [done|split; [done|split]]]].
  - constructor; [|intros fd'|exists l']; cbn.
    + by eapply same_infos_waits.
    + destruct (decide (fd' = fd)) as [->|Hne]; [rewrite I4; apply (Hq fd)|]. destruct (O4 fd' Hne) as (n & -> & _). apply (Hq fd').
    + apply (ok_removed fd l l' p p4 H); try done; cbn; try lia.
      * apply (kq_chain_frame p3); [done| |exact Hch]. intros fd' Hfd'. rewrite HA4, decide_False; [done|]. intros ->. by apply Hin in Hfd' as [_ ?].
      * rewrite I4. repeat (split; [done|]). split; [|done]. by intros [].
  - cbn. by rewrite I4.
  - intros d. cbn. intros Hk%Hk4. tauto.
Qed.

(** ** Initialisation *)

Lemma kq_pollset_init_ok maxfds calloc kqueue p r e : 0 ≤ maxfds < 2 ^ 31 → wt_ok r → wt_fds r = ∅ →
  dill_ctx_pollset_init maxfds calloc kqueue = inr p → pollset_ok (mk_bst r p e).
Proof.
  intros Hm Hr Hw. unfold dill_ctx_pollset_init. destruct calloc; [|done]. destruct kqueue; [done|]. intros [= <-].
  assert (HA : ∀ fd, info_at fd (mk_pollset ∅ maxfds DILL_ENDLIST ∅) = zero_info).
  { intros fd. unfold info_at. cbn. by rewrite lookup_empty. }
  constructor; cbn; [constructor; cbn; [done|]|intros fd; by rewrite HA|].
  - intros c d fd. rewrite Hw, HA. setoid_rewrite lookup_empty. split; [naive_solver|]. by destruct d.
  - exists []. constructor; [done|done|constructor| | | |done| |]; intros fd; rewrite HA.
    + rewrite elem_of_nil. cbn. tauto.
    + intros d _ _. by destruct d.
    + intros d. cbn. split; [set_solver|]. by destruct d.
    + intros _. split; [done|]. split; [by intros []|done].
    + done.
Qed.

(** ** Every call does what [pollset.h] promises *)

Inductive call :=
  | CallIn (c id fd : Z)
  | CallOut (c id fd : Z)
  | CallClean (fd : Z)
  | CallPoll (res : kq_result).

Definition run_call (a : call) : BM R dill_ctx_pollset Z :=
  match a with
  | CallIn c id fd => dill_pollset_in kevent c id fd
  | CallOut c id fd => dill_pollset_out kevent c id fd
  | CallClean fd => dill_pollset_clean kevent fd
  | CallPoll res => dill_pollset_poll kevent res
  end.

Definition call_ok (s : state) (a : call) : Prop :=
  match a with
  | CallIn c _ _ | CallOut c _ _ => wt_running (b_rt s) ∧ wt_fresh c (b_rt s)
  | CallClean fd => 0 ≤ fd < nfdinfos (b_ctx s)
  | CallPoll res => result_ok s res
  end.

Definition call_outcome (a : call) (s : state) (rc : Z) (s' : state) : Prop :=
  match a with
  | CallIn c _ fd => wait_outcome DIn c fd s rc s'
  | CallOut c _ fd => wait_outcome DOut c fd s rc s'
  | CallClean fd => b_rt s' = b_rt s ∧
      ((rc = -1 ∧ b_errno s' = EBUSY ∧ ∃ c k d, wt_fds (b_rt s) !! c = Some (k, d, fd)) ∨
       (rc = 0 ∧ b_errno s' = b_errno s ∧ f_cached (info_at fd (b_ctx s')) = false ∧ ∀ d, (fd, d) ∉ kernel (b_ctx s')))
  | CallPoll res =>
      (** the kernel waits for what somebody waits for *)
      (∃ p, pollset_sync kevent s = Some (tt, with_ctx s p) ∧
        ∀ fd d, (fd, d) ∈ kernel p ↔ ∃ c k, wt_fds (b_rt s) !! c = Some (k, d, fd)) ∧
      match res with
      | KqEvents evs => fired (reports evs) (b_rt s) (b_rt s') ∧
          ((rc = 0 ∧ wt_ready (b_rt s') = wt_ready (b_rt s) ∧ wt_fds (b_rt s') = wt_fds (b_rt s)) ∨
           (rc = 1 ∧ ∃ k T, wt_ready (b_rt s') = wt_ready (b_rt s) ++ k :: T))
      | _ => rc = -1 ∧ b_rt s' = b_rt s
      end
  end.

(** A call for a new descriptor that the kernel refuses with another error than EBADF *)
Definition call_refused (a : call) (s : state) : Prop :=
  match a with
  | CallIn _ _ fd => refused (b_ctx s) DIn fd
  | CallOut _ _ fd => refused (b_ctx s) DOut fd
  | _ => False
  end.

(** The header's promise for the result of a poll. *)
Lemma kq_poll_result_ok evs s r' : linked s → result_ok s (KqEvents evs) → fired (reports evs) (b_rt s) r' →
  let rc := match evs with [] => 0 | _ => 1 end in
  (rc = 0 ∧ wt_ready r' = wt_ready (b_rt s) ∧ wt_fds r' = wt_fds (b_rt s)) ∨
  (rc = 1 ∧ ∃ k T, wt_ready r' = wt_ready (b_rt s) ++ k :: T).
Proof.
  intros Hs Hres (T & _ & HT & Hq & Hf). destruct evs as [|ev evs]; cbn zeta.
  - left. assert (T = []) as ->.
    { destruct T as [|k T]; [done|]. by destruct (proj1 (HT k)) as (c & d & fd & _ & Hr); [by left|]. }
    rewrite app_nil_r in Hq. split_and!; [done|done|]. rewrite Hf. apply map_filter_id. intros c x _. apply not_elem_of_nil.
  - right. split; [done|]. destruct (Hres ev) as [_ Hw]; [by left|].
    apply bool_decide_eq_true in Hw as [c Hc]. apply (lk_agree s Hs) in Hc as [k Hk].
    assert (k ∈ T) as Hin.
    { apply HT. exists c, (ev_filter ev), (ev_ident ev). split; [done|]. unfold reports. cbn [existsb].
      rewrite !bool_decide_true by done. by rewrite orb_true_r. }
    destruct T as [|k' T]; [by apply not_elem_of_nil in Hin|]. by exists k', T.
Qed.

(** C16. The pollset on kqueue: from any consistent state every call of the pollset returns, with
    one exception, (the array of 128 changes is never overrun, however many descriptors have
    changed), keeps the changelist, the filters of the kernel and the waiting clauses
    consistent, and does what the header promises: waiting adds the clause, or fails with EBADF
    or EBUSY and adds nothing; cleaning removes the filters of a descriptor nobody waits for; a
    poll asks the kernel for exactly what somebody waits for, resumes exactly the coroutines that
    wait for a reported event, once each, and returns 1 when it resumed one, 0 when nothing was
    reported and -1 when interrupted.  The exception: when kevent refuses a new descriptor with
    any other error than EBADF, the assertion in [dill_pollset_in] or [dill_pollset_out] fails
    and the call does not return.  Of the kernel it is assumed that it applies changes for
    descriptors it polls already, and reports only filters it was asked for. *)
Theorem kqueue_calls_correct a s : pollset_ok s → call_ok s a →
  (call_refused a s → run_call a s = None) ∧
  (¬ call_refused a s → ∃ rc s', run_call a s = Some (rc, s') ∧ pollset_ok s' ∧ call_outcome a s rc s').
Proof.
  intros Hs Ha. destruct a as [c id fd|c id fd|fd|res]; cbn in Ha.
  - split; [apply kq_pollset_wait_refused|]. intros Href. destruct Ha as (H1 & H2).
    destruct (kq_pollset_wait_ok DIn c id fd s Hs H1 H2 Href) as (rc & s' & E & Hs' & _ & Ho). by exists rc, s'.
  - split; [apply kq_pollset_wait_refused|]. intros Href. destruct Ha as (H1 & H2).
    destruct (kq_pollset_wait_ok DOut c id fd s Hs H1 H2 Href) as (rc & s' & E & Hs' & _ & Ho). by exists rc, s'.
  - split; [done|]. intros _. destruct (kq_pollset_clean_ok fd s Hs Ha) as (rc & s' & E & Hs' & Hrt & Ho). by exists rc, s'.
  - split; [done|]. intros _. destruct (kq_pollset_poll_ok res s Hs Ha) as (rc & s' & E & Hs' & _ & Ho). exists rc, s'.
    split; [done|]. split; [done|]. cbn. split.
    + destruct (sync_ok s Hs) as (p' & E1 & _ & _ & _ & Hk). exists p'. split; [done|].
      intros fd d. rewrite Hk. unfold waits. rewrite bool_decide_eq_true. pose proof (lk_agree s (pk_linked s Hs)) as Hag.
      split; [intros [c Hc]; apply Hag in Hc as [k Hc]; by exists c, k|]. intros (c & k & Hc). exists c. apply Hag. by exists k.
    + destruct res as [| |evs]; [done|done|]. destruct Ho as [Hf ->]. split; [done|].
      exact (kq_poll_result_ok evs s _ (pk_linked s Hs) Ha Hf).
Qed.
End Spec.

(** * Examples, on the runtime of [cr.c] *)

Definition idle_cr : dill_cr := mk_cr false 0 E0 [] NULL false false false false None.

(** Coroutines 1 and 5, coroutine 1 running; the pollset of epoll is not used. *)
Definition demo_world : world :=
  mk_world E0 dill_ctx_handle_init 1 [] [] 0 (<[1 := idle_cr]> {[5 := idle_cr]}) ∅ ∅ ∅ ∅
    (World.mk_pollset ∅ 0 0 ∅) ∅ 1000 10 0 [].

(** A kernel with 8 descriptors, the last of which is of a kind it cannot poll *)
Definition demo_pollable (fd : Z) : Prop := fd < 7.
Definition demo_kevent (k : gset (Z * dir)) (chs : list change) : option errno_t :=
  match chs with
  | [ch] => if ch_add ch && negb (ch_fd ch <? 7) then Some (if ch_fd ch =? 7 then EINVAL else EBADF) else None
  | _ => None
  end.

Lemma kq_demo_laws : kevent_laws demo_pollable demo_kevent.
Proof.
  unfold demo_pollable. constructor.
  - intros k [|ch [|]]; cbn; try done. intros [H _]. destruct (ch_add ch); [|done]. by apply Z.ltb_lt in H as ->.
  - intros k fd d. cbn. destruct (Z.ltb_spec fd 7); [done|]. discriminate.
Qed.

Definition demo_start : bst world dill_ctx_pollset := mk_bst demo_world (mk_pollset ∅ 8 DILL_ENDLIST ∅) E0.

(** Coroutine 1 waits to read from descriptor 2. *)
Definition demo_one : bst world dill_ctx_pollset :=
  match dill_pollset_in demo_kevent 101 7 2 demo_start with Some (_, s) => s | None => demo_start end.

Lemma kq_demo_start_ok : pollset_ok demo_pollable demo_start.
Proof.
  apply (kq_pollset_init_ok _ demo_kevent kq_demo_laws 8 true None); try done.
  intros i x. cbn. rewrite lookup_insert_Some, lookup_singleton_Some.
  intros [[<- <-]|[_ [<- <-]]] _; (split; [constructor|intros c []%not_elem_of_nil]).
Qed.

Lemma kq_demo_one_ok : pollset_ok demo_pollable demo_one.
Proof.
  destruct (kq_pollset_wait_ok _ _ kq_demo_laws DIn 101 7 2 demo_start kq_demo_start_ok) as (rc & s' & E & Hs & _).
  - by exists idle_cr.
  - done.
  - by intros (_ & _ & e & ? & _).
  - unfold demo_one, dill_pollset_in. by rewrite E.
Qed.

(** Descriptor 2 is readable. *)
Definition demo_events : list kevent_t := [mk_kevent 2 DIn false false].

Lemma kqueue_calls_correct_witness :
  (w_ready ∘ b_rt ∘ snd <$> dill_pollset_poll demo_kevent (KqEvents demo_events) demo_one = Some [1]) ∧
  (∃ rc s', run_call demo_kevent (CallPoll (KqEvents demo_events)) demo_one = Some (rc, s') ∧
    pollset_ok demo_pollable s' ∧ call_outcome demo_kevent (CallPoll (KqEvents demo_events)) demo_one rc s') ∧
  run_call demo_kevent (CallIn 101 7 7) demo_start = None.
Proof.
  split; [vm_compute; reflexivity|]. split.
  - apply (kqueue_calls_correct _ demo_kevent kq_demo_laws (CallPoll (KqEvents demo_events)) demo_one kq_demo_one_ok); [|by intros []].
    intros ev Hev. apply list_elem_of_singleton in Hev as ->. vm_compute. split; reflexivity.
  - apply (kqueue_calls_correct _ demo_kevent kq_demo_laws (CallIn 101 7 7) demo_start kq_demo_start_ok).
    + split; [by exists idle_cr|done].
    + split; [done|]. split; [done|]. by exists EINVAL.
Defined.
