(* ===== verification/Bundlespec.v ===== *)
(** Structured concurrency ([cr.c]): waiting for the coroutines of a bundle, the end of a
    coroutine, and its cancellation. *)

From S2P Require Import Prelude Handle World Cr Chan Chanspec Bundle Sched.
From Stdlib Require Import ZArith Lia.
From stdpp Require Import base gmap list.
Open Scope Z_scope.

(** Handle [h] designates the bundle at [b]. *)
Definition is_bundle (w : world) (h b : Z) : Prop :=
  ∃ t, represents obj_query (w_handles w) t ∧ live t !! h = Some (VBundle b) ∧ b ≠ NULL.

Lemma bundle_hquery w h b : running w → is_bundle w h b →
  ∃ c e, hquery h dill_bundle_type w = ODone b (set_errno e (set_handles c w)) ∧
    running (set_errno e (set_handles c w)).
Proof.
  intros H (t & R & Hl & Hb). destruct (hquery_keeps obj_close w t h dill_bundle_type R) as (c & e & E & Hc).
  exists c, e. rewrite Hl in E. split; [exact E|]. apply running_set_errno.
  by apply (st_running _ _ (step_handles c w Hc H)).
Qed.

(** The invariant of the runtime says nothing about bundles. *)
Lemma wf_set_bundles v w : wf w → wf (set_bundles v w).
Proof. intros H. destruct H. by constructor. Qed.

(** The fields of a coroutine that the invariant does not mention *)
Lemma wf_set_cr i x y w : wf w → w_crs w !! i = Some x → ready_linked y = ready_linked x → clauses y = clauses x →
  wf (set_crs (<[i := y]> (w_crs w)) w).
Proof.
  intros H Hx Hl Hc.
  assert (Hcr : ∀ j z, <[i := y]> (w_crs w) !! j = Some z → ∃ z', w_crs w !! j = Some z' ∧
    ready_linked z = ready_linked z' ∧ clauses z = clauses z').
  { intros j z [[<- <-]|[_ Hz]]%lookup_insert_Some; [by exists x|by exists z]. }
  assert (Hcr' : ∀ j z, w_crs w !! j = Some z → ∃ z', <[i := y]> (w_crs w) !! j = Some z' ∧
    ready_linked z' = ready_linked z ∧ clauses z' = clauses z).
  { intros j z Hz. destruct (decide (i = j)) as [<-|Hn]; [exists y; rewrite lookup_insert_eq; by simplify_eq|].
    exists z. by rewrite lookup_insert_ne. }
  pose proof (wf_registered _ H) as HR. pose proof (wf_ready _ H) as HQ. pose proof (wf_clauses _ H) as HC.
  pose proof (wf_clauses_nodup _ H) as HN.
  assert (Hreg : ∀ k c, registered k c (set_crs (<[i := y]> (w_crs w)) w) ↔ registered k c w) by by intros [].
  constructor; try apply H; cbn [set_crs w_crs w_ready w_cls].
  - intros c. rewrite HQ. split.
    + intros (z & Hz & Hr). destruct (Hcr' c z Hz) as (z' & Hz' & E & _). exists z'. split; [done|congruence].
    + intros (z & Hz & Hr). destruct (Hcr c z Hz) as (z' & Hz' & E & _). exists z'. split; [done|congruence].
  - intros k c Hk%Hreg. destruct (HR k c Hk) as (cl & z & H1 & H2 & H3 & H4 & H5).
    destruct (Hcr' _ z H3) as (z' & Hz' & E1 & E2). exists cl, z'. rewrite E1, E2. done.
  - intros j z c Hz Hzl Hin. destruct (Hcr j z Hz) as (z' & Hz' & E1 & E2). rewrite E1 in Hzl. rewrite E2 in Hin.
    destruct (HC j z' c Hz' Hzl Hin) as (cl & H1 & H2 & H3). exists cl. split; [done|]. split; [done|].
    destruct H3 as [H3|H3]; [by left|right]. by apply Hreg.
  - intros j z Hz. destruct (Hcr j z Hz) as (z' & Hz' & _ & E2). rewrite E2. by eapply HN.
Qed.

(** * Waiting for a bundle *)

(** The running coroutine of [w] has suspended in [w1] until the coroutines of bundle [b],
    which was [xb], have finished, or until the deadline. *)
Record joining (b : Z) (xb : World.dill_bundle) (deadline : Z) (w w1 : world) : Prop := {
  jo_wf : wf w1;
  jo_bundles : w_bundles w1 = <[b := mk_bundle (crs xb) (Some (w_next_id w)) (bundle_mem xb)]> (w_bundles w);
  jo_clause : w_cls w1 !! w_next_id w = Some (mk_clause (w_r w) 0 NoCancel);
  jo_timer : 0 ≤ deadline → w_cls w1 !! (w_next_id w + 1) = Some (mk_clause (w_r w) 1 TimerCancel);
  jo_timers : w_timers w1 = if deadline <? 0 then w_timers w
                            else timer_insert deadline (w_next_id w + 1) (w_timers w);
  jo_cr : ∃ x, w_crs w1 !! w_r w = Some x ∧ ready_linked x = false ∧
    clauses x = if deadline <? 0 then [w_next_id w] else [w_next_id w + 1; w_next_id w];
  jo_r : w_r w1 = w_r w;
  jo_ready : w_ready w1 = w_ready w;
}.

(** The result and [errno] of [dill_bundle_wait] when it is resumed *)
Definition join_result (id : Z) (err : errno_t) : Z * errno_t :=
  if id <? 0 then (-1, err) else if id =? 1 then (-1, ETIMEDOUT) else (0, err).

Definition joins (b : Z) (k : world → outcome Z) : Prop :=
  ∀ w x xb, w_crs w !! w_r w = Some x → w_bundles w !! b = Some xb → cr_id x ≤ 1 →
    ∃ w', k w = ODone (join_result (cr_id x) (cr_err x)).1 w' ∧
      w_errno w' = (join_result (cr_id x) (cr_err x)).2 ∧
      w_bundles w' = <[b := mk_bundle (crs xb) None (bundle_mem xb)]> (w_bundles w).

Lemma no_cancel_linked c w : wf w → linked_in NoCancel c w w.
Proof.
  intros H. constructor; try done; [|apply H|apply H|apply H].
  intros k' c'. split; [by left|]. intros [?|(? & _)]; done.
Qed.

Lemma join_suspends b xb deadline c e w : running (set_errno e (set_handles c w)) → w_bundles w !! b = Some xb →
  ∃ w1 k, (c ← fresh_addr;
        modify (put_bundle b (mk_bundle (crs xb) (Some c) (bundle_mem xb)));;
        lift (dill_waitfor c 0 NoCancel);;
        t ← fresh_addr;
        lift (dill_timer t 1 deadline);;
        id ← dill_wait;
        x ← get_bundle b;
        modify (put_bundle b (mk_bundle (crs x) None (bundle_mem x)));;
        if id <? 0 then mret (-1)
        else if id =? 1 then fail ETIMEDOUT
        else assert_ (id =? 0);; mret 0) (set_errno e (set_handles c w)) = OWait w1 k ∧
    joining b xb deadline w w1 ∧ joins b k.
Proof.
  intros [Hw (x & Hx & Hl & Hcs)] Hb. set (w0 := set_errno e (set_handles c w)) in *.
  destruct (wf_fresh_addr w0 Hw) as [Hw1 Hfr]. set (n := w_next_id w) in *. change (w_next_id w0) with n in *.
  set (w1 := put_bundle b (mk_bundle (crs xb) (Some n) (bundle_mem xb)) (set_next_id (n + 1) w0)).
  assert (Hwf1 : wf w1) by (by apply wf_set_bundles).
  destruct (waitfor_spec w1 w1 x n 0 NoCancel Hwf1 (no_cancel_linked n w1 Hwf1) Hfr ltac:(cbn; lia) Hx Hl) as [E Hw2].
  set (w2 := waited n 0 NoCancel x w1) in *.
  destruct (wf_fresh_addr w2 Hw2) as [Hw3 Hfr3]. change (w_next_id w2) with (n + 1) in *.
  set (w3 := set_next_id (n + 1 + 1) w2) in *.
  assert (Hx3 : w_crs w3 !! w_r w3 = Some (push_clause n x)) by (cbn; apply lookup_insert_eq).
  destruct (timer_run w3 (push_clause n x) (n + 1) 1 deadline Hw3 Hfr3 ltac:(cbn; lia) Hx3 Hl)
    as (w4 & E4 & Hw4 & Ew4).
  exists w4. eexists. split; [|split].
  - erewrite M_bind_done by done. erewrite M_bind_done by done.
    erewrite M_bind_done by (apply lift_done; exact E).
    erewrite M_bind_done by done. erewrite M_bind_done by (apply lift_done; exact E4). reflexivity.
  - rewrite Ew4 in *. clear Ew4 E4.
    destruct (deadline <? 0) eqn:Ed; constructor; rewrite ?Ed; try done; try lia.
    + cbn. apply lookup_insert_eq.
    + exists (push_clause n x). cbn. by rewrite lookup_insert_eq, Hcs.
    + cbn. rewrite lookup_insert_ne by lia. apply lookup_insert_eq.
    + intros _. cbn. apply lookup_insert_eq.
    + exists (push_clause (n + 1) (push_clause n x)). cbn. by rewrite lookup_insert_eq, Hcs.
  - intros w' y yb Hy Hyb Hid. unfold dill_resumed. rewrite Hy. cbn [obind_]. unfold join_result.
    set (w5 := set_errno _ _). erewrite M_bind_done by (unfold get_bundle; cbn; by rewrite Hyb).
    erewrite M_bind_done by done.
    destruct (Z.ltb_spec (cr_id y) 0); [by eexists|]. destruct (Z.eqb_spec (cr_id y) 1); [by eexists|].
    replace (cr_id y) with 0 by lia. by eexists.
Qed.

(** C11. Waiting for a bundle: when all its coroutines have finished, [dill_bundle_wait] returns 0
    at once, whatever the deadline; otherwise the caller is registered as the waiter of the
    bundle and suspends, with a timer unless the deadline is infinite and with nothing else
    changed, and when it is resumed it is no longer the waiter and returns 0, or -1 with
    ETIMEDOUT from the timer, or -1 with the error it was cancelled with. *)
Theorem bundle_wait_joins w h b xb deadline :
  running w → may_block w → is_bundle w h b → w_bundles w !! b = Some xb →
  if bool_decide (crs xb = []) then
    ∃ w', dill_bundle_wait h deadline w = ODone 0 w' ∧ running w' ∧ w_bundles w' = w_bundles w ∧ w_ready w' = w_ready w
  else ∃ w1 k, dill_bundle_wait h deadline w = OWait w1 k ∧ joining b xb deadline w w1 ∧ joins b k.
Proof.
  intros H Hmb Hd Hb. unfold dill_bundle_wait.
  erewrite M_bind_done by (by apply may_block_canblock). cbn [Z.ltb Z.compare].
  destruct (bundle_hquery w h b H Hd) as (cs & e & E & H1). erewrite M_bind_done by exact E.
  destruct Hd as (t & R & Hl & Hn). rewrite (proj2 (Z.eqb_neq _ _) Hn).
  erewrite M_bind_done by (unfold get_bundle; cbn; by rewrite Hb).
  destruct (bool_decide (crs xb = [])); [by eexists|]. by apply join_suspends.
Qed.

(** * Resuming a suspended coroutine *)

(** Coroutine [i] of [w] has been made ready in [w'] with [id] and [err]: it comes last in the
    queue, and none of its clauses is linked any more. *)
Definition made_ready (i id : Z) (err : errno_t) (w w' : world) : Prop :=
  ∃ x, w_crs w !! i = Some x ∧ w_crs w' !! i = Some (resumed id err x) ∧ w_ready w' = w_ready w ++ [i] ∧
    ∀ k c, registered k c w' ↔ registered k c w ∧ c ∉ clauses x.

Lemma docancel_ready w i x id err : wf w → w_crs w !! i = Some x → ready_linked x = false →
  ∃ w', dill_docancel i id err w = Some w' ∧ wf w' ∧ made_ready i id err w w' ∧
    (∀ j, j ≠ i → w_crs w' !! j = w_crs w !! j) ∧ w_bundles w' = w_bundles w ∧ w_r w' = w_r w.
Proof.
  intros H Hx Hl. destruct (docancel_spec w i x id err H Hx Hl) as (m & p & E & _ & Hp & Hw).
  eexists. split; [exact E|]. split; [done|]. split; [|split; [|done]].
  - exists x. split; [done|]. split; [cbn; apply lookup_insert_eq|]. split; [done|].
    intros k c. rewrite <- (registered_cancelled (clauses x) m p w Hp). by destruct k.
  - intros j Hj. cbn. by apply lookup_insert_ne.
Qed.

Lemma get_cr_done c x w : w_crs w !! c = Some x → get_cr c w = ODone x w.
Proof. intros E. unfold get_cr. by rewrite E. Qed.

Lemma get_bundle_done b x w : w_bundles w !! b = Some x → get_bundle b w = ODone x w.
Proof. intros E. unfold get_bundle. by rewrite E. Qed.

Lemma upd_cr_done c f x w : w_crs w !! c = Some x →
  lift (upd_cr c f) w = ODone tt (set_crs (<[c := f x]> (w_crs w)) w).
Proof. intros E. apply lift_done. unfold upd_cr. by rewrite E. Qed.

(** * The end of a coroutine *)

(** The running coroutine has ended and left its bundle, which was [xb]. *)
Definition left_bundle (b r : Z) (xb : World.dill_bundle) (w' : world) : Prop :=
  w_bundles w' !! b = Some (mk_bundle (filter (λ c, c ≠ r) (crs xb)) (waiter xb) (bundle_mem xb)).

(** A clause of a suspended coroutine *)
Definition suspended_clause (w : world) (c i id : Z) : Prop :=
  ∃ cl y, w_cls w !! c = Some cl ∧ cl_cr cl = i ∧ cl_id cl = id ∧ w_crs w !! i = Some y ∧
    ready_linked y = false ∧ c ∈ clauses y.

Lemma suspended_not_running w c i id : running w → suspended_clause w c i id → i ≠ w_r w.
Proof.
  intros (_ & x & Hx & _ & Hc) (cl & y & _ & _ & _ & Hy & _ & Hin) ->. simplify_eq. rewrite Hc in Hin. by apply elem_of_nil in Hin.
Qed.

Lemma trigger_suspended w c i id : wf w → suspended_clause w c i id →
  ∃ w', dill_trigger c E0 w = Some w' ∧ wf w' ∧ made_ready i id E0 w w' ∧
    (∀ j, j ≠ i → w_crs w' !! j = w_crs w !! j) ∧ w_bundles w' = w_bundles w ∧ w_r w' = w_r w.
Proof.
  intros H (cl & y & Hcl & <- & <- & Hy & Hl & _). unfold dill_trigger. rewrite Hcl. cbn [mbind option_bind].
  by apply (docancel_ready w _ y).
Qed.

Lemma made_ready_set i id err r y w w' : r ≠ i →
  made_ready i id err (set_crs (<[r := y]> (w_crs w)) w) w' → made_ready i id err w w'.
Proof.
  intros Hn (z & Hz & Hz' & Hq & Hr). exists z. cbn in Hz. rewrite lookup_insert_ne in Hz by done.
  split; [done|]. split; [done|]. split; [done|]. intros k c. rewrite Hr. by destruct k.
Qed.

Lemma made_ready_bundles i id err v w w' : made_ready i id err w w' → made_ready i id err w (set_bundles v w').
Proof. intros (z & ? & ? & ? & Hr). exists z. split; [done|]. split; [done|]. split; [done|]. intros k c. rewrite <- Hr. by destruct k. Qed.

(** C10. The end of a coroutine.  One that was not cancelled leaves its bundle; if it was the
    last one there, and a suspended coroutine waits for the bundle, the waiter becomes ready
    with the id of its clause and no error, and its other clauses (the timer) are cancelled;
    otherwise nobody is resumed.  One that was cancelled resumes the coroutine that closes it,
    with [errno] 0.  Either way the coroutine suspends for good. *)
Theorem coroutine_end w x :
  running w → w_crs w !! w_r w = Some x →
  (closer x = None → cr_no_blocking1 x = false → ∀ xb, w_bundles w !! cr_bundle x = Some xb →
    (∀ c, waiter xb = Some c → ∃ i id, suspended_clause w c i id) →
    ∃ w' k, dill_epilogue w = OWait w' k ∧ wf w' ∧ left_bundle (cr_bundle x) (w_r w) xb w' ∧
      w_crs w' !! w_r w = Some (set_done x) ∧
      match waiter xb with
      | Some c => if bool_decide (crs xb = [w_r w])
                  then ∀ i id, suspended_clause w c i id → made_ready i id E0 w w'
                  else w_ready w' = w_ready w
      | None => w_ready w' = w_ready w
      end) ∧
  (∀ c y, closer x = Some c → cr_no_blocking1 x = true → c ≠ w_r w → w_crs w !! c = Some y → ready_linked y = false →
    ∃ w' k, dill_epilogue w = OWait w' k ∧ wf w' ∧ w_crs w' !! w_r w = Some (set_done x) ∧
      made_ready c (-1) E0 w w').
Proof.
  intros H Hx. pose proof H as (Hw & x' & Hx' & Hl & Hcs). rewrite Hx in Hx'. symmetry in Hx'. simplify_eq.
  set (r := w_r w) in *. set (w1 := set_crs (<[r := set_done x]> (w_crs w)) w).
  assert (Hw1 : wf w1) by (by apply (wf_set_cr r x)).
  assert (Hx1 : w_crs w1 !! r = Some (set_done x)) by (cbn; apply lookup_insert_eq).
  split.
  - intros Hclo Hnb xb Hb Hwt. unfold dill_epilogue. erewrite M_bind_done by done. fold r.
    erewrite M_bind_done by (by apply upd_cr_done). fold w1. erewrite M_bind_done by (by apply get_cr_done).
    cbn [closer set_done]. rewrite Hclo. erewrite M_bind_done by done. cbn [cr_no_blocking1 set_done]. rewrite Hnb.
    assert (∃ w2, (if bool_decide (crs xb = [r]) then match waiter xb with Some c => lift (dill_trigger c E0) | None => mret tt end
        else mret tt) w1 = ODone tt w2 ∧ wf w2 ∧ w_crs w2 !! r = Some (set_done x) ∧ w_bundles w2 = w_bundles w ∧ w_r w2 = r ∧
      match waiter xb with
      | Some c => if bool_decide (crs xb = [r]) then ∀ i id, suspended_clause w c i id → made_ready i id E0 w w2
                  else w_ready w2 = w_ready w
      | None => w_ready w2 = w_ready w
      end) as (w2 & E2 & Hw2 & Hx2 & Hb2 & Hr2 & Hout).
    { destruct (bool_decide (crs xb = [r])) eqn:Hlast; [|exists w1; by destruct (waiter xb)].
      destruct (waiter xb) as [c|]; [|by exists w1]. destruct (Hwt c eq_refl) as (i & id & Hs).
      pose proof (suspended_not_running w c i id H Hs) as Hne.
      destruct (trigger_suspended w1 c i id Hw1) as (w2 & E2 & Hw2 & Hm & Hoth & Hb2 & Hr2).
      { destruct Hs as (cl & y & S1 & S2 & S3 & S4 & S5). exists cl, y. cbn. by rewrite lookup_insert_ne. }
      exists w2. split; [by apply lift_done|]. split; [done|]. split; [by rewrite Hoth|]. split; [done|]. split; [done|].
      intros i' id' (cl' & y' & S1 & S2 & S3 & _). destruct Hs as (cl & y & T1 & T2 & T3 & _). simplify_eq.
      by eapply made_ready_set. }
    set (w3 := put_bundle (cr_bundle x) (mk_bundle (filter (λ c, c ≠ r) (crs xb)) (waiter xb) (bundle_mem xb)) w2).
    assert (Hw3 : wf w3) by (by apply wf_set_bundles).
    erewrite (M_bind_done _ _ w1 tt w3).
    2: { erewrite M_bind_done by (by apply get_bundle_done). erewrite M_bind_done by exact E2.
      erewrite M_bind_done by done. unfold dill_cr_close. by erewrite M_bind_done by (by apply get_cr_done). }
    erewrite M_bind_done by (by apply get_cr_done). cbn [clauses set_done]. rewrite Hcs. erewrite M_bind_done by done.
    eexists w3, _. split; [reflexivity|]. split; [done|]. split; [|split; [done|]].
    + unfold left_bundle. cbn. apply lookup_insert_eq.
    + destruct (waiter xb); [|done]. destruct (bool_decide (crs xb = [r])); [|done].
      intros i id Hs. apply made_ready_bundles. by apply Hout.
  - intros c y Hclo Hnb Hne Hy Hyl. unfold dill_epilogue. erewrite M_bind_done by done. fold r.
    erewrite M_bind_done by (by apply upd_cr_done). fold w1. erewrite M_bind_done by (by apply get_cr_done).
    cbn [closer set_done]. rewrite Hclo.
    destruct (docancel_ready w1 c y (-1) E0 Hw1) as (w2 & E2 & Hw2 & Hm & Hoth & _ & Hr2); [cbn; by rewrite lookup_insert_ne|done|].
    erewrite M_bind_done by (apply lift_done; exact E2). cbn [cr_no_blocking1 set_done]. rewrite Hnb.
    erewrite M_bind_done by done. erewrite M_bind_done by (apply get_cr_done; by rewrite Hoth).
    cbn [clauses set_done]. rewrite Hcs. erewrite M_bind_done by done.
    eexists w2, _. split; [reflexivity|]. split; [done|]. split; [by rewrite Hoth|]. by eapply made_ready_set.
Qed.

(** * Cancelling a coroutine *)

(** The rest of [dill_cr_close]: it must be resumed by the end of the coroutine. *)
Definition awaits_end (k : world → outcome unit) : Prop :=
  ∀ w x, w_crs w !! w_r w = Some x →
    if (cr_id x =? -1) && bool_decide (cr_err x = E0) then ∃ w', k w = ODone tt w' ∧ w_crs w' !! w_r w = Some (clear_clauses x)
    else k w = OCrash.

(** C12. Cancelling a coroutine: closing one that has finished does nothing; closing one that is
    blocked makes it ready, with -1 and ECANCELED as the result of what it was blocked in and
    none of its clauses linked, marks it so that every blocking call it makes from now on fails
    with ECANCELED, and suspends the closer until the coroutine ends. *)
Theorem cr_close_cancels w c x :
  running w → c ≠ w_r w → w_crs w !! c = Some x →
  (done x = true → dill_cr_close c w = ODone tt w) ∧
  (done x = false → ready_linked x = false →
    ∃ w' k, dill_cr_close c w = OWait w' k ∧ wf w' ∧ w_r w' = w_r w ∧ w_ready w' = w_ready w ++ [c] ∧ awaits_end k ∧
      (∀ k' c', registered k' c' w' ↔ registered k' c' w ∧ c' ∉ clauses x) ∧
      (∃ y, w_crs w' !! c = Some y ∧ cr_id y = -1 ∧ cr_err y = ECANCELED ∧ closer y = Some (w_r w)) ∧
      dill_canblock (set_r c w') = ODone (-1) (set_errno ECANCELED (set_r c w'))).
Proof.
  intros [H Hrun] Hne Hx. unfold dill_cr_close. split.
  { intros Hd. erewrite M_bind_done by (by apply get_cr_done). by rewrite Hd. }
  intros Hd Hl. erewrite M_bind_done by (by apply get_cr_done). rewrite Hd.
  erewrite M_bind_done by (by apply upd_cr_done). set (x1 := set_no_blocking1 x). set (w1 := set_crs (<[c := x1]> (w_crs w)) w).
  assert (Hw1 : wf w1) by (by apply (wf_set_cr c x)).
  assert (Hx1 : w_crs w1 !! c = Some x1) by (cbn; apply lookup_insert_eq).
  erewrite M_bind_done by (by apply get_cr_done). change (ready_linked x1) with (ready_linked x). rewrite Hl.
  destruct (docancel_ready w1 c x1 (-1) ECANCELED Hw1 Hx1 Hl) as (w2 & E2 & Hw2 & Hm & Hoth & _ & Hr2).
  destruct Hm as (z & Hz & Hz2 & Hq & Hreg). rewrite Hx1 in Hz. injection Hz as <-.
  erewrite M_bind_done by (apply lift_done; exact E2). erewrite M_bind_done by done.
  erewrite M_bind_done by (by apply upd_cr_done).
  set (x3 := set_closer (w_r w2) (resumed (-1) ECANCELED x1)). set (w3 := set_crs (<[c := x3]> (w_crs w2)) w2).
  assert (Hw3 : wf w3) by (by apply (wf_set_cr c (resumed (-1) ECANCELED x1))).
  assert (Hx3 : w_crs w3 !! c = Some x3) by (cbn; apply lookup_insert_eq).
  eexists w3, _. split; [reflexivity|]. split; [done|]. split; [exact Hr2|]. split; [exact Hq|]. split; [|split; [|split]].
  - intros w' y Hy. unfold dill_resumed. rewrite Hy. cbn [obind_]. set (w5 := set_errno _ _).
    assert (Hc5 : w_crs w5 !! w_r w' = Some (clear_clauses y)) by (cbn; apply lookup_insert_eq).
    erewrite M_bind_done by done. cbn [w_errno set_errno w5].
    destruct (cr_id y =? -1); [|done]. destruct (decide (cr_err y = E0)) as [He|He].
    + rewrite He, bool_decide_true by done. cbn. eexists. split; [reflexivity|]. exact Hc5.
    + rewrite (bool_decide_false (cr_err y = E0)) by done. cbn [andb]. by destruct (negb _).
  - intros k' c'. assert (E3 : registered k' c' w3 ↔ registered k' c' w2) by (by destruct k').
    rewrite E3, Hreg. by destruct k'.
  - exists x3. split; [done|]. split; [done|]. split; [done|]. cbn. by rewrite Hr2.
  - rewrite (canblock_spec (set_r c w3) x3 Hx3). done.
Qed.

(** * A deadline that expires together with the last coroutine *)

(** The timer of [dill_bundle_wait] is cancelled by the end of the last coroutine, but the
    field [waiter] is reset only when the waiter runs.  If the timer makes the waiter ready
    first, the last coroutine triggers a clause of a coroutine that is ready, which fails the
    assertion of [dill_docancel]. *)
Definition race_prog (fn : list Z) : M unit := _ ← dill_msleep 50; mret tt.
Definition race_main : M unit :=
  h ← dill_go [1] None (-1);
  _ ← dill_bundle_wait h 50;
  mret tt.
Definition race (inputs : list poll_input) : status :=
  sys_run (λ _ _ _ _, None) race_prog 100 (mk_sys (race_main (initial_world 16 10 0 inputs ∅)) ∅).

(** The system wakes the process up late, at time 60; or in time. *)
Lemma bundle_wait_race : race [mk_poll_input false [] 60] = SFail.
Proof. vm_compute. reflexivity. Qed.

(** It is in time when the process wakes up before the deadline of the main coroutine. *)
Definition early_prog (fn : list Z) : M unit := _ ← dill_msleep 20; mret tt.
Lemma bundle_wait_in_time :
  match sys_run (λ _ _ _ _, None) early_prog 100
    (mk_sys (race_main (initial_world 16 10 0 [mk_poll_input false [] 20] ∅)) ∅) with SExit _ => True | _ => False end.
Proof. vm_compute. exact I. Qed.

(** * A coroutine that is closed while it closes another one *)

(** While coroutine 1 waits in [dill_cr_close] for coroutine 2 to stop, it is suspended
    without clauses; closing it then makes it ready, and the end of coroutine 2 fails the
    assertion of [dill_docancel] (in the other order, [dill_cr_close] fails its own). *)
Definition nested_prog (fn : list Z) : M unit :=
  if bool_decide (fn = [1]) then h ← dill_go [2] None (-1); _ ← hclose h; mret tt
  else _ ← dill_msleep (-1); mret tt.
Definition nested_main : M unit :=
  h ← dill_go [1] None (-1);
  _ ← dill_yield;
  _ ← hclose h;
  mret tt.
Lemma nested_close_crashes :
  sys_run (λ _ _ _ _, None) nested_prog 100 (mk_sys (nested_main (initial_world 16 10 0 [] ∅)) ∅) = SFail.
Proof. vm_compute. reflexivity. Qed.

(** * Concrete instances *)

Definition bundle_table : table vobj :=
  (t_ops (t_expand (λ _, true)) (λ _, true) obj_query false [Make (Some (VBundle 40))] (mk_table ∅ [] 0)).2.
Definition bundle_handles : dill_ctx_handle vobj :=
  match dill_ops (λ n, n <? 2 ^ 20) (λ _, true) obj_query (λ _, mret tt)
    [Make (Some (VBundle 40))] (mk_hst dill_ctx_handle_init false false E0) with
  | Some (_, s) => hctx s
  | None => dill_ctx_handle_init
  end.

Lemma bundle_handles_represent : represents obj_query bundle_handles bundle_table.
Proof.
  assert (Hleaf : ∀ (v : vobj) (s : hst vobj), ∃ e, (mret tt : HM vobj unit) s = Some (tt, set_err e s)).
  { intros v s. exists (herrno s). by destruct s. }
  assert (Hbound : ∀ n, (n <? 2 ^ 20) = true → n < 2 ^ 30 * SIZEOF_HANDLE).
  { unfold SIZEOF_HANDLE. intros n Hn. apply Z.ltb_lt in Hn. lia. }
  destruct (ops_refine (λ n, n <? 2 ^ 20) (λ _, true) obj_query (λ _, mret tt) Hleaf Hbound
    [Make (Some (VBundle 40))] (mk_hst dill_ctx_handle_init false false E0)
    (mk_table ∅ [] 0) (init_in_table _) ltac:(simpl; lia)) as (rs & s & E & _ & R & _).
  unfold bundle_handles. rewrite E. exact R.
Qed.

(** Coroutines 5, the main one, and 6, which is in bundle 40 of handle 0.  Coroutine [r]
    runs; the other one waits: 5 for the bundle, 6 for its timer. *)
Definition bundle_world (r : Z) : world :=
  mk_world E0 bundle_handles r [] [(50, 901)] 0
    (<[5 := mk_cr false 0 E0 (if r =? 5 then [] else [901; 900]) NULL false false false false None]>
      {[6 := mk_cr false 0 E0 (if r =? 6 then [] else [901]) 40 false false false false None]})
    (if r =? 5 then {[901 := mk_clause 6 1 TimerCancel]}
     else <[900 := mk_clause 5 0 NoCancel]> {[901 := mk_clause 5 1 TimerCancel]})
    {[40 := mk_bundle [6] (if r =? 5 then None else Some 900) false]}
    ∅ ∅ (mk_pollset ∅ 16 0xffffffff ∅) ∅ 1000 10 0 [].

Lemma bundle_world_running r : r = 5 ∨ r = 6 → running (bundle_world r).
Proof.
  intros Hr. split; [apply wf_b_sound; [by destruct Hr as [-> | ->]|]|destruct Hr as [-> | ->]; by eexists].
  exists bundle_table. split; [apply bundle_handles_represent|]. intros k h Hk. exfalso.
  assert (Hl : live bundle_table = {[0 := VBundle 40]}) by (vm_compute; reflexivity).
  rewrite Hl in Hk. by apply lookup_singleton_Some in Hk as [_ [=]].
Qed.

Lemma bundle_wait_joins_witness :
  ∃ w1 k, dill_bundle_wait 0 80 (bundle_world 5) = OWait w1 k ∧
    joining 40 (mk_bundle [6] None false) 80 (bundle_world 5) w1 ∧ joins 40 k.
Proof.
  apply (bundle_wait_joins (bundle_world 5) 0 40 (mk_bundle [6] None false) 80).
  - apply bundle_world_running. by left.
  - by eexists.
  - exists bundle_table. split; [apply bundle_handles_represent|]. split; [by vm_compute|done].
  - reflexivity.
Defined.

Lemma coroutine_end_witness :
  ∃ w' k, dill_epilogue (bundle_world 6) = OWait w' k ∧ wf w' ∧
    left_bundle 40 6 (mk_bundle [6] (Some 900) false) w' ∧ made_ready 5 0 E0 (bundle_world 6) w'.
Proof.
  assert (Hs : suspended_clause (bundle_world 6) 900 5 0).
  { eexists _, _. do 5 (split; [reflexivity|]). apply list_elem_of_In. simpl. auto. }
  destruct (proj1 (coroutine_end (bundle_world 6) (mk_cr false 0 E0 [] 40 false false false false None)
    (bundle_world_running 6 ltac:(by right)) eq_refl) eq_refl eq_refl (mk_bundle [6] (Some 900) false) eq_refl)
    as (w' & k & E & H & Hb & _ & Hm).
  - intros c [= <-]. by exists 5, 0.
  - exists w', k. split; [exact E|]. split; [exact H|]. split; [exact Hb|]. exact (Hm 5 0 Hs).
Defined.

Lemma cr_close_cancels_witness :
  ∃ w' k, dill_cr_close 6 (bundle_world 5) = OWait w' k ∧ w_ready w' = [6] ∧ ¬ registered TimerCancel 901 w'.
Proof.
  destruct (proj2 (cr_close_cancels (bundle_world 5) 6 (mk_cr false 0 E0 [901] 40 false false false false None)
    (bundle_world_running 5 ltac:(by left)) ltac:(done) eq_refl) eq_refl eq_refl)
    as (w' & k & E & _ & _ & Hq & _ & Hr & _).
  exists w', k. split; [exact E|]. split; [exact Hq|]. intros Hreg%Hr. destruct Hreg as [_ Hn].
  apply Hn. left.
Defined.
