(* ===== verification/Stack.v ===== *)
(** The stacks of the coroutines and their cache ([stack.c]), in the configuration with
    [posix_memalign] and [mprotect]. *)

From S2P Require Import Prelude Lists.
From Stdlib Require Import ZArith Lia.
From stdpp Require Import base gmap list.
Open Scope Z_scope.

Import Slist.

(** * What the system provides *)

(** The state [O] of the allocator and of the page tables: *)
Class StackOs (O : Type) := {
  (** [sysconf(_SC_PAGE_SIZE)] *)
  sysconf_page : Z;
  (** [posix_memalign] with alignment and size: the block, or an error *)
  posix_memalign : Z → Z → O → (Z + errno_t) * O;
  (** [mprotect] of the page at an address: [true] for [PROT_NONE] *)
  mprotect : Z → bool → O → option errno_t * O;
  (** [free]; no result when the address is not that of a block, or when the block has a page
      that cannot be accessed *)
  mfree : Z → O → option O;
  (** what a fresh block contains at an address *)
  garbage : Z → O → Z;
}.

(** Its documented behaviour, for the allocated blocks (address and size) and the pages
    without access *)
Class StackOsLaws (O : Type) {SO : StackOs O} := {
  os_ok : O → Prop;
  os_blocks : O → gmap Z Z;
  os_guards : O → gset Z;
  page_pos : 0 < sysconf_page < 2 ^ 32;
  blocks_apart o p q n m : os_ok o → os_blocks o !! p = Some n → os_blocks o !! q = Some m → p ≠ q →
    p + n ≤ q ∨ q + m ≤ p;
  guards_inside o p : os_ok o → p ∈ os_guards o → is_Some (os_blocks o !! p);
  memalign_law al sz o : os_ok o → 0 < al → 0 < sz → os_ok (posix_memalign al sz o).2 ∧
    os_guards (posix_memalign al sz o).2 = os_guards o ∧
    match (posix_memalign al sz o).1 with
    | inl p => 0 < p ∧ p mod al = 0 ∧ os_blocks o !! p = None ∧
      os_blocks (posix_memalign al sz o).2 = <[p := sz]> (os_blocks o)
    | inr e => os_blocks (posix_memalign al sz o).2 = os_blocks o
    end;
  mprotect_law p b o : os_ok o → is_Some (os_blocks o !! p) → os_ok (mprotect p b o).2 ∧
    os_blocks (mprotect p b o).2 = os_blocks o ∧
    os_guards (mprotect p b o).2 =
      match (mprotect p b o).1 with
      | None => if b then {[p]} ∪ os_guards o else os_guards o ∖ {[p]}
      | Some _ => os_guards o
      end;
  (** access to a page can always be given back *)
  unprotect_law p o : os_ok o → p ∈ os_guards o → (mprotect p false o).1 = None;
  mfree_law p o : os_ok o → is_Some (os_blocks o !! p) → p ∉ os_guards o →
    ∃ o', mfree p o = Some o' ∧ os_ok o' ∧ os_blocks o' = delete p (os_blocks o) ∧ os_guards o' = os_guards o;
}.

(** * The code *)

(** Stack size in bytes. *)
Definition dill_stack_size : Z := 256 * 1024.
(** Maximum number of unused cached stacks. *)
Definition dill_max_cached_stacks : Z := 64.
Definition SIZEOF_SLIST : Z := 8.

(** The smallest multiple of [unit] that is not less than [val] *)
Definition dill_align (val unit : Z) : Z :=
  if negb (val mod unit =? 0) then u64 (val + unit - val mod unit) else val.

(** [struct dill_ctx_stack]: [cache] is the address of the head of the list; its link and those
    of the items, which lie at the tops of the stacks, are the cells of [links].  [pgsz] is the
    static variable of [dill_page_size]. *)
Record dill_ctx_stack {O : Type} := mk_ctx_stack {
  count : Z;
  cache : ptr;
  links : gmap Z Z;
  pgsz : Z;
  st_errno : errno_t;
  st_os : O;
}.
Arguments dill_ctx_stack : clear implicits.

Section Stack.
Context {O : Type} {SO : StackOs O}.
Abbreviation st := (dill_ctx_stack O).
Implicit Type s : st.

Definition set_count (n : Z) s : st := mk_ctx_stack _ n (cache s) (links s) (pgsz s) (st_errno s) (st_os s).
Definition set_links (m : gmap Z Z) s : st := mk_ctx_stack _ (count s) (cache s) m (pgsz s) (st_errno s) (st_os s).
Definition set_pgsz (n : Z) s : st := mk_ctx_stack _ (count s) (cache s) (links s) n (st_errno s) (st_os s).
Definition set_st_errno (e : errno_t) s : st := mk_ctx_stack _ (count s) (cache s) (links s) (pgsz s) e (st_os s).
Definition set_os (o : O) s : st := mk_ctx_stack _ (count s) (cache s) (links s) (pgsz s) (st_errno s) o.

Definition dill_page_size (s : st) : option (Z * st) :=
  if negb (pgsz s =? 0) then Some (pgsz s, s)
  else if 0 <? sysconf_page then Some (sysconf_page, set_pgsz sysconf_page s)
  else None.

Definition dill_ctx_stack_init (s : st) : option st :=
  m ← dill_slist_init (cache s) (links s);
  Some (set_links m (set_count 0 s)).

(** Give the guard page of the stack with list item [it] its access back and free the stack. *)
Definition free_stack (it : ptr) (s : st) : option st :=
  '(pg, s) ← dill_page_size s;
  let p := it + SIZEOF_SLIST - dill_stack_size - pg in
  match mprotect p false (st_os s) with
  | (Some _, _) => None
  | (None, o) =>
    o ← mfree p o;
    Some (set_links (delete it (links s)) (set_os o s))
  end.

Fixpoint term_loop (fuel : nat) (s : st) : option st :=
  match fuel with
  | 0%nat => None
  | S fuel =>
    '(it, m) ← dill_slist_pop (cache s) (links s);
    let s := set_links m s in
    if it =? cache s then Some s
    else
      s ← free_stack it s;
      term_loop fuel s
  end.

(** One round for every cached stack, and the last one *)
Definition dill_ctx_stack_term (s : st) : option st := term_loop (S (Z.to_nat (count s))) s.

(** A stack that was allocated, or [NULL] *)
Definition dill_allocstack (s : st) : option (ptr * st) :=
  e ← dill_slist_empty (cache s) (links s);
  if negb e then
    let s := set_count (count s - 1) s in
    '(it, m) ← dill_slist_pop (cache s) (links s);
    Some (it + SIZEOF_SLIST, set_links m s)
  else
    '(pg, s) ← dill_page_size s;
    let sz := dill_align dill_stack_size pg + pg in
    match posix_memalign pg sz (st_os s) with
    | (inr rc, o) => Some (NULL, set_st_errno rc (set_os o s))
    | (inl p, o) =>
      match mprotect p true o with
      | (Some err, o) =>
        o ← mfree p o;
        Some (NULL, set_st_errno err (set_os o s))
      | (None, o) =>
        let top := p + pg + dill_stack_size in
        Some (top, set_links (<[top - SIZEOF_SLIST := garbage (top - SIZEOF_SLIST) o]> (links s)) (set_os o s))
      end
    end.

Definition dill_freestack (stack : ptr) (s : st) : option st :=
  let item := stack - SIZEOF_SLIST in
  s ← (if dill_max_cached_stacks <=? count s then
         '(old, m) ← dill_slist_pop (cache s) (links s);
         free_stack old (set_count (count s - 1) (set_links m s))
       else Some s);
  m ← dill_slist_push (cache s) item (links s);
  Some (set_count (count s + 1) (set_links m s)).

End Stack.

(** * Alignment *)

(** The result is the smallest multiple of [unit] from [val] on. *)
Lemma dill_align_spec val unit : 0 ≤ val → 0 < unit → val + unit < 2 ^ 64 →
  dill_align val unit mod unit = 0 ∧ val ≤ dill_align val unit < val + unit ∧
  ∀ n, n mod unit = 0 → val ≤ n → dill_align val unit ≤ n.
Proof.
  intros Hv Hu Ho. unfold dill_align. pose proof (Z.mod_pos_bound val unit Hu) as Hm.
  pose proof (Z.div_mod val unit ltac:(lia)) as Hd.
  destruct (Z.eqb_spec (val mod unit) 0) as [E|E]; cbn [negb].
  - split; [done|]. split; [lia|]. intros n Hn Hle. lia.
  - unfold u64. rewrite (Z.mod_small (val + unit - _)) by lia.
    assert (Hk : val + unit - val mod unit = (val / unit + 1) * unit) by lia. rewrite Hk.
    split; [apply Z.mod_mul; lia|]. split; [lia|].
    intros n Hn Hle. apply Z.div_exact in Hn; [|lia].
    destruct (Z.le_gt_cases (val / unit + 1) (n / unit)); nia.
Qed.

(** * The invariant *)

Section spec.
Context {O : Type} {SO : StackOs O} {LO : StackOsLaws O}.
Abbreviation st := (dill_ctx_stack O).
Implicit Type s : st.
Abbreviation PG := (sysconf_page (O := O)).

(** The block of the stack with top [t], its size, and the list item in the stack *)
Definition base (t : Z) : Z := t - dill_stack_size - PG.
Definition block_size : Z := dill_align dill_stack_size PG + PG.
Definition item (t : Z) : Z := t - SIZEOF_SLIST.

Lemma block_bounds : dill_stack_size + PG ≤ block_size < dill_stack_size + 2 * PG.
Proof.
  pose proof (page_pos (O := O)) as Hp.
  destruct (dill_align_spec dill_stack_size PG) as (_ & H & _); unfold block_size, dill_stack_size in *; lia.
Qed.

(** The blocks allocated since the system had [B0] are those of the stacks [ts], each with its
    guard page; the context of the thread lies in a block of [B0]. *)
Record mem_ok (B0 : gmap Z Z) (ts : list Z) (s : st) : Prop := {
  mo_nodup : NoDup ts;
  mo_pgsz : pgsz s = 0 ∨ pgsz s = PG;
  mo_os : os_ok (st_os s);
  mo_guard : ∀ t, t ∈ ts → base t ∈ os_guards (st_os s);
  mo_page : ∀ t, t ∈ ts → base t mod PG = 0 ∧ 0 < base t;
  mo_link : ∀ t, t ∈ ts → is_Some (links s !! item t);
  mo_blocks : ∀ p n, os_blocks (st_os s) !! p = Some n ↔ (∃ t, t ∈ ts ∧ p = base t ∧ n = block_size) ∨ B0 !! p = Some n;
  mo_new : ∀ t, t ∈ ts → B0 !! base t = None;
  mo_home : ∃ p n, B0 !! p = Some n ∧ p ≤ cache s ∧ cache s + SIZEOF_SLIST ≤ p + n;
}.

Lemma mo_block B0 ts s t : mem_ok B0 ts s → t ∈ ts → os_blocks (st_os s) !! base t = Some block_size.
Proof. intros H Ht. apply (mo_blocks _ _ _ H). left. by exists t. Qed.

(** Two stacks do not overlap. *)
Lemma stacks_apart B0 ts s t u : mem_ok B0 ts s → t ∈ ts → u ∈ ts → t ≠ u →
  base t + block_size ≤ base u ∨ base u + block_size ≤ base t.
Proof.
  intros H Ht Hu Hn. apply (blocks_apart (st_os s) (base t) (base u)); [apply H|by eapply mo_block..|].
  unfold base. lia.
Qed.

Lemma item_inside t : base t ≤ item t ∧ item t + SIZEOF_SLIST ≤ base t + block_size.
Proof. pose proof block_bounds. pose proof (page_pos (O := O)). unfold base, item, SIZEOF_SLIST, dill_stack_size in *. lia. Qed.

(** The head of the cache is not in a stack. *)
Lemma item_not_cache B0 ts s t : mem_ok B0 ts s → t ∈ ts → item t ≠ cache s.
Proof.
  intros H Ht E. destruct (mo_home _ _ _ H) as (p & n & Hp & H1 & H2).
  assert (Hn : p ≠ base t) by (intros ->; rewrite (mo_new _ _ _ H t Ht) in Hp; done).
  assert (Hp' : os_blocks (st_os s) !! p = Some n) by (apply (mo_blocks _ _ _ H); by right).
  pose proof (item_inside t) as Hi. unfold SIZEOF_SLIST in *.
  destruct (blocks_apart (st_os s) p (base t) n block_size (mo_os _ _ _ H) Hp' (mo_block _ _ _ _ H Ht) Hn); lia.
Qed.

Lemma mem_ok_perm B0 ts us s : ts ≡ₚ us → mem_ok B0 ts s → mem_ok B0 us s.
Proof.
  intros E H. destruct H. constructor; try done; try (intros t; rewrite <- E; auto); [by rewrite <- E|].
  intros p n. rewrite mo_blocks0. by setoid_rewrite E.
Qed.

Lemma mem_ok_links B0 ts s m n : (∀ t, t ∈ ts → is_Some (m !! item t)) → mem_ok B0 ts s →
  mem_ok B0 ts (set_links m (set_count n s)).
Proof. intros Hm H. destruct H. by constructor. Qed.

Lemma page_size_run s : pgsz s = 0 ∨ pgsz s = PG → dill_page_size s = Some (PG, set_pgsz PG s).
Proof.
  pose proof (page_pos (O := O)) as Hp. intros [E|E]; unfold dill_page_size; rewrite E.
  - cbn. destruct (Z.ltb_spec 0 PG); [done|lia].
  - destruct (Z.eqb_spec PG 0); [lia|]. cbn. f_equal. rewrite <- E. by destruct s.
Qed.

Lemma mem_ok_pgsz B0 ts s : mem_ok B0 ts s → mem_ok B0 ts (set_pgsz PG s).
Proof. intros H. destruct H. constructor; try done. by right. Qed.

(** * Freeing and allocating a stack *)

Lemma free_stack_run B0 t ts s : mem_ok B0 (t :: ts) s →
  ∃ s', free_stack (item t) s = Some s' ∧ mem_ok B0 ts s' ∧ links s' = delete (item t) (links s) ∧
    count s' = count s ∧ cache s' = cache s.
Proof.
  intros H. unfold free_stack. rewrite (page_size_run s) by apply H. cbn [mbind option_bind set_pgsz st_os links].
  replace (item t + SIZEOF_SLIST - dill_stack_size - PG) with (base t) by (unfold item, base; lia).
  pose proof (mo_block _ _ _ t H ltac:(left)) as Hb. pose proof (mo_guard _ _ _ H t ltac:(left)) as Hg.
  pose proof (mprotect_law (base t) false _ (mo_os _ _ _ H) (ex_intro _ _ Hb)) as (Ho & Eb & Eg).
  pose proof (unprotect_law _ _ (mo_os _ _ _ H) Hg) as Eu.
  destruct (mprotect (base t) false (st_os s)) as [r o]. cbn [fst snd] in *. subst r.
  destruct (mfree_law (base t) o) as (o' & E & Ho' & Eb' & Eg'); [done|by rewrite Eb, Hb|rewrite Eg; set_solver|].
  rewrite E. cbn. eexists. split; [reflexivity|]. split; [|done].
  pose proof (mo_nodup _ _ _ H) as [Hnt Hnd]%NoDup_cons.
  assert (Hne : ∀ u, u ∈ ts → u ≠ t) by (intros u Hu ->; done).
  constructor; cbn; try done; [by right| | | | | |apply H].
  - intros u Hu. rewrite Eg', Eg. apply elem_of_difference. split; [apply H; by right|].
    rewrite elem_of_singleton. pose proof (Hne u Hu). unfold base. lia.
  - intros u Hu. apply H. by right.
  - intros u Hu. rewrite lookup_delete_ne; [apply H; by right|]. pose proof (Hne u Hu). unfold item. lia.
  - intros p n. rewrite Eb', Eb, lookup_delete_Some, (mo_blocks _ _ _ H). split.
    + intros [Hp [(u & Hu & -> & ->)|HB]]; [|by right]. apply elem_of_cons in Hu as [->|Hu]; [done|left; by exists u].
    + intros [(u & Hu & -> & ->)|HB].
      * split; [pose proof (Hne u Hu); unfold base; lia|]. left. exists u. by rewrite elem_of_cons; auto.
      * split; [|by right]. intros <-. by rewrite (mo_new _ _ _ H t ltac:(left)) in HB.
  - intros u Hu. apply H. by right.
Qed.

(** A stack that is not in the cache comes from the system. *)
Lemma alloc_new B0 ts s : mem_ok B0 ts s →
  dill_slist_empty (cache s) (links s) = Some true →
  ∃ r s', dill_allocstack s = Some (r, s') ∧ count s' = count s ∧ cache s' = cache s ∧
    ((r = NULL ∧ mem_ok B0 ts s' ∧ links s' = links s) ∨
     (∃ v, r ≠ NULL ∧ r ∉ ts ∧ mem_ok B0 (r :: ts) s' ∧ links s' = <[item r := v]> (links s))).
Proof.
  intros H He. unfold dill_allocstack. rewrite He. cbn [mbind option_bind negb].
  rewrite (page_size_run s) by apply H. cbn [mbind option_bind].
  pose proof (page_pos (O := O)) as Hp. pose proof block_bounds as Hsz. fold block_size.
  apply mem_ok_pgsz in H. set (s1 := set_pgsz PG s) in *. 
  destruct (memalign_law PG block_size (st_os s1) (mo_os _ _ _ H)) as (Ho & Eg & Hr); [lia|unfold dill_stack_size in *; lia|].
  destruct (posix_memalign PG block_size (st_os s1)) as [[p|e] o]; cbn [fst snd] in *.
  2: { eexists _, _. split; [reflexivity|]. do 2 (split; [done|]). left. split; [done|]. split; [|done].
    destruct H; constructor; cbn; try done; [|intros q n; rewrite Hr; apply mo_blocks0]. intros t Ht. rewrite Eg. auto. }
  destruct Hr as (Hp0 & Hpm & Hnew & Eb).
  assert (Hb : os_blocks o !! p = Some block_size) by (rewrite Eb; apply lookup_insert_eq).
  pose proof (mprotect_law p true o Ho (ex_intro _ _ Hb)) as (Ho' & Eb' & Eg').
  assert (Hng : p ∉ os_guards (st_os s1)).
  { intros [n Hn]%guards_inside; [|apply H]. by rewrite Hnew in Hn. }
  destruct (mprotect p true o) as [[e|] o1]; cbn [fst snd] in *.
  - destruct (mfree_law p o1 Ho') as (o2 & E2 & Ho2 & Eb2 & Eg2); [by rewrite Eb', Hb|by rewrite Eg', Eg|].
    rewrite E2. eexists _, _. split; [reflexivity|]. do 2 (split; [done|]). left. split; [done|]. split; [|done].
    rewrite Eb', Eb, delete_insert_id in Eb2 by done.
    destruct H; constructor; cbn; try done; [|intros q n; rewrite Eb2; apply mo_blocks0].
    intros t Ht. rewrite Eg2, Eg', Eg. auto.
  - set (top := p + PG + dill_stack_size). assert (Etop : base top = p) by (unfold base, top; lia).
    eexists top, _. split; [reflexivity|]. do 2 (split; [done|]). right. eexists.
    assert (Hnt : top ∉ ts).
    { intros Ht. pose proof (mo_block _ _ _ _ H Ht) as Hbt. rewrite Etop in Hbt. by rewrite Hnew in Hbt. }
    split; [unfold top, NULL, dill_stack_size; lia|]. split; [done|]. split; [|reflexivity].
    constructor; cbn [set_links set_os st_os links cache pgsz].
    + apply NoDup_cons. split; [done|apply H].
    + apply H.
    + done.
    + intros t [->|Ht]%elem_of_cons; rewrite Eg', Eg, ?Etop; [set_solver|]. apply elem_of_union. right. by apply H.
    + intros t [->|Ht]%elem_of_cons; [by rewrite Etop|by apply H].
    + intros t [->|Ht]%elem_of_cons; [rewrite lookup_insert_eq; eauto|].
      rewrite lookup_insert_is_Some'. right. by apply H.
    + intros q n. rewrite Eb', Eb. destruct (decide (q = p)) as [->|Hq].
      * rewrite lookup_insert_eq. split; [intros [= <-]; left; exists top; rewrite elem_of_cons; auto|].
        intros [(t & _ & _ & ->)|HB]; [done|]. assert (HB' : os_blocks (st_os s1) !! p = Some n) by (apply (mo_blocks _ _ _ H); by right).
        by rewrite Hnew in HB'.
      * rewrite lookup_insert_ne by done. rewrite (mo_blocks _ _ _ H).
        split; (intros [(t & Ht & -> & ->)|HB]; [left|by right]).
        -- exists t. by rewrite elem_of_cons; auto.
        -- exists t. apply elem_of_cons in Ht as [->|Ht]; done.
    + intros t [->|Ht]%elem_of_cons; [|by apply H]. rewrite Etop. destruct (B0 !! p) as [n|] eqn:E; [|done].
      assert (HB' : os_blocks (st_os s1) !! p = Some n) by (apply (mo_blocks _ _ _ H); by right). by rewrite Hnew in HB'.
    + apply H.
Qed.

(** * The cache as a bounded stack *)

(** The stacks in use and those in the cache, most recent first *)
Record astate := mk_a { live : list Z; cached : list Z }.

(** A coroutine uses its stack up to the top. *)
Inductive sop := Alloc | Free (t : Z) | Scribble (t v : Z).

Definition sop_run (op : sop) (s : st) : option (Z * st) :=
  match op with
  | Alloc => dill_allocstack s
  | Free t => s ← dill_freestack t s; Some (0, s)
  | Scribble t v => m ← store (item t) v (links s); Some (0, set_links m s)
  end.

(** Operations concern stacks in use. *)
Definition sop_ok (op : sop) (a : astate) : Prop :=
  match op with Alloc => True | Free t | Scribble t _ => t ∈ live a end.

(** The stacks after an operation with result [r]: a cached stack is used before a new one is
    allocated, an error leaves everything as it was, and a stack that is freed goes to the
    cache, in the place of the one on its top when there are 64 already. *)
Definition sop_spec (op : sop) (r : Z) (a : astate) : astate :=
  match op with
  | Alloc =>
    match cached a with
    | t :: c => mk_a (t :: live a) c
    | [] => if r =? NULL then a else mk_a (r :: live a) []
    end
  | Free t =>
    mk_a (filter (λ u, u ≠ t) (live a))
      (t :: if dill_max_cached_stacks <=? Z.of_nat (length (cached a)) then tail (cached a) else cached a)
  | Scribble _ _ => a
  end.

(** What an operation returns: [Alloc] the most recent cached stack, or a stack not in use, or
    [NULL] *)
Definition sop_result (op : sop) (r : Z) (a : astate) : Prop :=
  match op with
  | Alloc => match cached a with t :: _ => r = t | [] => r ∉ live a end
  | _ => r = 0
  end.

Record stacks_ok (B0 : gmap Z Z) (a : astate) (s : st) : Prop := {
  so_mem : mem_ok B0 (live a ++ cached a) s;
  so_cache : slist (links s) (cache s) (item <$> cached a);
  so_count : count s = Z.of_nat (length (cached a));
  so_bound : count s ≤ dill_max_cached_stacks;
}.

Lemma item_inj (ts : list Z) t : item t ∈ item <$> ts → t ∈ ts.
Proof. intros (u & E & Hu)%list_elem_of_fmap. assert (t = u) as -> by (unfold item in E; lia). done. Qed.

Lemma slist_frame h h' self l : slist h self l → (∀ p, p ∈ self :: l → h' !! p = h !! p) → slist h' self l.
Proof. intros [Hn Hs] Hf. split; [done|]. by apply (sseg_frame h). Qed.

Lemma item_not_head B0 a s t : stacks_ok B0 a s → t ∈ live a → item t ∉ cache s :: (item <$> cached a).
Proof.
  intros H Ht [E|Hi%item_inj]%elem_of_cons.
  - by apply (item_not_cache B0 _ s t (so_mem _ _ _ H)); [apply elem_of_app; left|].
  - pose proof (mo_nodup _ _ _ (so_mem _ _ _ H)) as (_ & Hd & _)%NoDup_app. by apply (Hd t).
Qed.

Lemma alloc_run B0 a s : stacks_ok B0 a s →
  ∃ r s', dill_allocstack s = Some (r, s') ∧ sop_result Alloc r a ∧ stacks_ok B0 (sop_spec Alloc r a) s'.
Proof.
  intros H. pose proof (slist_empty_spec _ _ _ (so_cache _ _ _ H)) as He. destruct a as [l c].
  destruct c as [|t c]; cbn in He.
  - try rewrite bool_decide_true in He by done.
    destruct (alloc_new B0 _ s (so_mem _ _ _ H) He) as (r & s' & E & Hc & Hcache & [(-> & Hm & El)|(v & Hr & Hnr & Hm & El)]).
    + eexists _, s'. split; [exact E|]. split.
      { intros Hn. destruct (mo_page _ _ _ (so_mem _ _ _ H) NULL) as [_ Hp]; [apply elem_of_app; by left|].
        pose proof (page_pos (O := O)). unfold base, NULL, dill_stack_size in Hp. lia. }
      constructor; rewrite ?Hc, ?Hcache, ?El; try done; apply H.
    + cbn [live cached] in Hnr. rewrite app_nil_r in Hnr.
      eexists _, s'. split; [exact E|]. split; [done|]. cbn [sop_spec cached].
      rewrite (proj2 (Z.eqb_neq _ _) Hr).
      constructor; rewrite ?Hc, ?Hcache, ?El; try done; try apply H.
      apply (slist_frame (links s)); [apply H|]. intros p [->|Hp]%elem_of_cons; [|by apply elem_of_nil in Hp].
      apply lookup_insert_ne. rewrite <- Hcache. apply (item_not_cache B0 _ s' r Hm). left.
  - try rewrite bool_decide_false in He by done. unfold dill_allocstack. rewrite He. cbn [mbind option_bind negb].
    destruct (slist_pop_spec _ _ _ (so_cache _ _ _ H)) as (m & Em & Hs & Hf).
    cbn [cached fmap list_fmap hd tail] in Em, Hs.
    change (cache (set_count (count s - 1) s)) with (cache s). change (links (set_count (count s - 1) s)) with (links s).
    rewrite Em. cbn [mbind option_bind].
    exists (item t + SIZEOF_SLIST), (set_links m (set_count (count s - 1) s)).
    split; [reflexivity|]. replace (item t + SIZEOF_SLIST) with t by (unfold item; lia). split; [done|].
    pose proof (so_count _ _ _ H) as Hn. pose proof (so_bound _ _ _ H) as Hb. cbn [cached length] in Hn.
    constructor; cbn [sop_spec live cached set_links set_count links cache count]; [|done|lia|lia].
    apply (mem_ok_perm _ (l ++ t :: c)); [by rewrite <- Permutation_middle|].
    apply mem_ok_links; [|apply H]. intros u Hu. rewrite Hf; [by apply (mo_link _ _ _ (so_mem _ _ _ H))|].
    by apply (item_not_cache B0 _ s u (so_mem _ _ _ H)).
Qed.

(** Pushing the item of a stack on the cache *)
Lemma push_run B0 l1 t l2 c s : mem_ok B0 (l1 ++ t :: l2 ++ c) s → slist (links s) (cache s) (item <$> c) →
  count s = Z.of_nat (length c) → count s < dill_max_cached_stacks →
  ∃ m, dill_slist_push (cache s) (item t) (links s) = Some m ∧
    stacks_ok B0 (mk_a (l1 ++ l2) (t :: c)) (set_count (count s + 1) (set_links m s)).
Proof.
  intros Hm Hs Hc Hb. pose proof (mo_nodup _ _ _ Hm) as Hnd.
  assert (Hin : t ∈ l1 ++ t :: l2 ++ c) by (apply elem_of_app; right; left).
  destruct (slist_push_spec (links s) (cache s) (item <$> c) (item t) Hs) as (m & Em & Hs' & Hf).
  { by apply (mo_link _ _ _ Hm). }
  { intros [E|Hi%item_inj]%elem_of_cons; [by apply (item_not_cache B0 _ s t Hm)|].
    apply NoDup_app in Hnd as (_ & _ & [Hn _]%NoDup_cons). apply Hn, elem_of_app. by right. }
  exists m. split; [exact Em|]. constructor; cbn [live cached set_links set_count links cache count]; [|done|cbn; lia|lia].
  apply (mem_ok_perm _ (l1 ++ t :: l2 ++ c)); [rewrite <- !app_assoc; by rewrite <- (Permutation_middle l2 c t)|].
  apply (mem_ok_links B0 _ s m (count s + 1)); [|done]. intros u Hu.
  destruct (decide (u = t)) as [->|Hut]; [destruct Hs' as [_ Hs']; cbn in Hs'; destruct Hs' as [_ Hs']; rewrite (sseg_hd _ _ _ _ Hs'); eauto|].
  rewrite Hf; [by apply (mo_link _ _ _ Hm)|]. rewrite !elem_of_cons. intros [E|[E|E]]; [by eapply item_not_cache| |by apply elem_of_nil in E].
  unfold item in E. lia.
Qed.

Lemma free_run B0 a s t : stacks_ok B0 a s → t ∈ live a →
  ∃ s', dill_freestack t s = Some s' ∧ stacks_ok B0 (sop_spec (Free t) 0 a) s'.
Proof.
  intros H Ht. destruct a as [l c]. cbn in Ht. apply list_elem_of_split in Ht as (l1 & l2 & ->).
  cbn [sop_spec live cached]. rewrite Dlist.filter_erase.
  2: { pose proof (mo_nodup _ _ _ (so_mem _ _ _ H)) as (Hnd & _)%NoDup_app. done. }
  unfold dill_freestack. change (t - SIZEOF_SLIST) with (item t).
  pose proof (so_mem _ _ _ H) as Hm. pose proof (so_cache _ _ _ H) as Hs.
  pose proof (so_count _ _ _ H) as Hn. pose proof (so_bound _ _ _ H) as Hb. cbn [live cached] in *.
  rewrite <- app_assoc in Hm. cbn [app] in Hm.
  destruct (Z.leb_spec dill_max_cached_stacks (count s)) as [Hle|Hlt].
  - destruct c as [|e c]; [cbn in Hn; unfold dill_max_cached_stacks in *; lia|].
    destruct (slist_pop_spec _ _ _ Hs) as (m & Em & Hs1 & Hf). cbn [fmap list_fmap hd tail] in Em, Hs1.
    rewrite Em. cbn [mbind option_bind].
    set (s1 := set_count (count s - 1) (set_links m s)).
    assert (Hm1 : mem_ok B0 (e :: l1 ++ t :: l2 ++ c) s1).
    { apply (mem_ok_perm _ (l1 ++ t :: l2 ++ e :: c)).
      { rewrite !app_comm_cons, !app_assoc. by rewrite <- Permutation_middle. }
      apply (mem_ok_links B0 _ s m (count s - 1)); [|done]. intros u Hu.
      rewrite Hf; [by apply (mo_link _ _ _ Hm)|by eapply item_not_cache]. }
    destruct (free_stack_run B0 e _ s1 Hm1) as (s2 & E2 & Hm2 & El & Ec & Ecache). rewrite E2. cbn [mbind option_bind].
    cbn [s1 set_links set_count links cache count] in El, Ec, Ecache.
    destruct (push_run B0 l1 t l2 c s2 Hm2) as (m3 & E3 & H3).
    + rewrite El, Ecache. apply (slist_frame m); [exact Hs1|]. intros p Hp. apply lookup_delete_ne. intros <-.
      pose proof (mo_nodup _ _ _ Hm1) as [Hne _]%NoDup_cons. apply elem_of_cons in Hp as [E|Hp%item_inj].
      * apply (item_not_cache B0 _ s e Hm); [|done]. rewrite !elem_of_app, elem_of_cons, elem_of_app, elem_of_cons. auto.
      * apply Hne. rewrite elem_of_app, elem_of_cons, elem_of_app. auto.
    + cbn in Hn. lia.
    + lia.
    + rewrite E3. eexists. split; [reflexivity|]. cbn [tail].
      rewrite (proj2 (Z.leb_le _ _)) by lia. exact H3.
  - cbn [mbind option_bind]. destruct (push_run B0 l1 t l2 c s Hm Hs Hn Hlt) as (m & Em & H').
    rewrite Em. eexists. split; [reflexivity|]. rewrite (proj2 (Z.leb_gt _ _)) by lia. exact H'.
Qed.

Lemma scribble_run B0 a s t v : stacks_ok B0 a s → t ∈ live a →
  ∃ m, store (item t) v (links s) = Some m ∧ stacks_ok B0 a (set_links m s).
Proof.
  intros H Ht. assert (Hin : t ∈ live a ++ cached a) by (apply elem_of_app; by left).
  eexists. split; [apply store_spec; by apply (mo_link _ _ _ (so_mem _ _ _ H))|].
  constructor; cbn [set_links links cache count]; [| |apply H..].
  - apply (mem_ok_links B0 _ s _ (count s)); [|apply H]. intros u Hu.
    rewrite lookup_insert_is_Some'. right. by apply (mo_link _ _ _ (so_mem _ _ _ H)).
  - apply (slist_frame (links s)); [apply H|]. intros p Hp. apply lookup_insert_ne. intros <-.
    by apply (item_not_head B0 a s t).
Qed.

Lemma sop_correct B0 op a s : stacks_ok B0 a s → sop_ok op a →
  ∃ r s', sop_run op s = Some (r, s') ∧ sop_result op r a ∧ stacks_ok B0 (sop_spec op r a) s'.
Proof.
  intros H Hop. destruct op as [|t|t v]; cbn [sop_run sop_ok sop_result] in *.
  - destruct (alloc_run B0 a s H) as (r & s' & E & Hr & Hs'). by exists r, s'.
  - destruct (free_run B0 a s t H Hop) as (s' & E & Hs'). exists 0, s'. by rewrite E.
  - destruct (scribble_run B0 a s t v H Hop) as (m & E & Hs'). exists 0, (set_links m s). by rewrite E.
Qed.

(** The thread ends: the cached stacks are freed. *)
Lemma term_run B0 l c s fuel : mem_ok B0 (c ++ l) s → slist (links s) (cache s) (item <$> c) →
  (length c < fuel)%nat → ∃ s', term_loop fuel s = Some s' ∧ mem_ok B0 l s'.
Proof.
  revert c s. induction fuel as [|fuel IH]; intros c s Hm Hs Hf; [lia|]. cbn [term_loop].
  destruct (slist_pop_spec _ _ _ Hs) as (m & Em & Hs1 & Hfr). rewrite Em. cbn [mbind option_bind].
  assert (Hm1 : mem_ok B0 (c ++ l) (set_links m s)).
  { apply (mem_ok_links B0 _ s m (count s)); [|done]. intros u Hu.
    rewrite Hfr; [by apply (mo_link _ _ _ Hm)|by eapply item_not_cache]. }
  destruct c as [|t c]; cbn [fmap list_fmap hd tail app] in *; [rewrite Z.eqb_refl; by eexists|].
  rewrite (proj2 (Z.eqb_neq _ _)) by (apply (item_not_cache B0 _ s t Hm); left).
  destruct (free_stack_run B0 t _ _ Hm1) as (s2 & E2 & Hm2 & El & _ & Ec). rewrite E2. cbn [mbind option_bind].
  apply (IH c); [done| |cbn in Hf; lia]. rewrite El, Ec. cbn [set_links links cache].
  apply (slist_frame m); [exact Hs1|]. intros p Hp. apply lookup_delete_ne. intros <-.
  pose proof (mo_nodup _ _ _ Hm) as [Hne _]%NoDup_cons. apply elem_of_cons in Hp as [E|Hp%item_inj].
  - by apply (item_not_cache B0 _ s t Hm); [left|].
  - apply Hne, elem_of_app. by left.
Qed.

(** The system when the context of a thread is initialised: the context lies in a block. *)
Record fresh_ctx (s : st) : Prop := {
  fc_pgsz : pgsz s = 0 ∨ pgsz s = PG;
  fc_os : os_ok (st_os s);
  fc_head : is_Some (links s !! cache s);
  fc_home : ∃ p n, os_blocks (st_os s) !! p = Some n ∧ p ≤ cache s ∧ cache s + SIZEOF_SLIST ≤ p + n;
}.

(** What a thread can do with stacks *)
Inductive reach (s0 : st) : st → astate → Prop :=
  | reach_init s : dill_ctx_stack_init s0 = Some s → reach s0 s (mk_a [] [])
  | reach_step s a op r s' : reach s0 s a → sop_ok op a → sop_run op s = Some (r, s') →
      reach s0 s' (sop_spec op r a).

Lemma reach_ok s0 s a : fresh_ctx s0 → reach s0 s a → stacks_ok (os_blocks (st_os s0)) a s.
Proof.
  intros [Hp Ho Hh Hhome]. induction 1 as [s E|s a op r s' _ IH Hop E].
  - unfold dill_ctx_stack_init in E. destruct (slist_init_spec _ _ Hh) as (m & Em & Hs). rewrite Em in E.
    cbn in E. simplify_eq. constructor; cbn; [|done|done|done].
    constructor; cbn; try done; [apply NoDup_nil_2|by intros t Ht%elem_of_nil..| |by intros t Ht%elem_of_nil].
    intros p n. split; [by right|]. by intros [(t & Ht%elem_of_nil & _)|?].
  - destruct (sop_correct _ op a s IH Hop) as (r' & s2 & E' & _ & H'). rewrite E in E'. by simplify_eq.
Qed.

(** C17. The cache of stacks, whatever a thread does with it: no operation on a stack in use
    fails an assertion or touches memory that is not allocated, an allocation returns the most
    recently cached stack, a new one or [NULL], the cache holds at most 64 stacks, each of
    which is in use or cached but not both, no two stacks overlap, each has a guard page below
    it and nothing else of the system's memory has changed; and when the thread ends exactly
    the cached stacks are freed. *)
Theorem stack_cache_correct s0 s a : fresh_ctx s0 → reach s0 s a →
  stacks_ok (os_blocks (st_os s0)) a s ∧
  (∀ op, sop_ok op a → ∃ r s', sop_run op s = Some (r, s') ∧ sop_result op r a) ∧
  (∀ t u, t ∈ live a ++ cached a → u ∈ live a ++ cached a → t ≠ u →
    base t + block_size ≤ base u ∨ base u + block_size ≤ base t) ∧
  ∃ s', dill_ctx_stack_term s = Some s' ∧ mem_ok (os_blocks (st_os s0)) (live a) s'.
Proof.
  intros H0 Hr. pose proof (reach_ok s0 s a H0 Hr) as H. split; [done|]. split; [|split].
  - intros op Hop. destruct (sop_correct _ op a s H Hop) as (r & s' & E & Hres & _). by exists r, s'.
  - intros t u Ht Hu Hn. by apply (stacks_apart _ _ s t u (so_mem _ _ _ H)).
  - apply (term_run _ (live a) (cached a)); [|apply H|rewrite (so_count _ _ _ H); lia].
    apply (mem_ok_perm _ (live a ++ cached a)); [apply Permutation_app_comm|apply H].
Qed.

End spec.

(** * A concrete system *)

(** Blocks are allocated one after the other, in pages of 4096 bytes. *)
Record demo_os := mk_demo { d_next : Z; d_blocks : gmap Z Z; d_guards : gset Z }.

#[export] Instance demo_stack_os : StackOs demo_os := {
  sysconf_page := 4096;
  posix_memalign al sz o :=
    let p := (d_next o + al - 1) / al * al in
    if p + sz <? 2 ^ 40 then (inl p, mk_demo (p + sz) (<[p := sz]> (d_blocks o)) (d_guards o)) else (inr ENOMEM, o);
  mprotect p b o := (None, mk_demo (d_next o) (d_blocks o) (if b then {[p]} ∪ d_guards o else d_guards o ∖ {[p]}));
  mfree p o := if bool_decide (is_Some (d_blocks o !! p) ∧ p ∉ d_guards o)
               then Some (mk_demo (d_next o) (delete p (d_blocks o)) (d_guards o)) else None;
  garbage _ _ := 0xa0;
}.

Record demo_ok (o : demo_os) : Prop := {
  dk_next : 0 < d_next o;
  dk_below : ∀ p n, d_blocks o !! p = Some n → 0 < n ∧ p + n ≤ d_next o;
  dk_apart : ∀ p q n m, d_blocks o !! p = Some n → d_blocks o !! q = Some m → p ≠ q → p + n ≤ q ∨ q + m ≤ p;
  dk_guards : ∀ p, p ∈ d_guards o → is_Some (d_blocks o !! p);
}.

Lemma demo_memalign al sz (o : demo_os) : demo_ok o → 0 < al → 0 < sz →
  demo_ok (posix_memalign al sz o).2 ∧
  d_guards (posix_memalign al sz o).2 = d_guards o ∧
  match (posix_memalign al sz o).1 with
  | inl p => 0 < p ∧ p mod al = 0 ∧ d_blocks o !! p = None ∧ d_blocks (posix_memalign al sz o).2 = <[p := sz]> (d_blocks o)
  | inr e => d_blocks (posix_memalign al sz o).2 = d_blocks o
  end.
Proof.
  intros H Hal Hsz. cbn. pose proof (Z.mul_div_le (d_next o + al - 1) al Hal) as Hm.
  pose proof (Z.mul_succ_div_gt (d_next o + al - 1) al Hal) as Hm'.
  set (q := (d_next o + al - 1) / al) in *. pose proof (dk_next _ H) as Hn.
  assert (Hnew : ∀ p n, d_blocks o !! p = Some n → 0 < n ∧ p + n ≤ q * al) by (intros p n Hp%dk_below; [lia|done]).
  destruct (Z.ltb_spec (q * al + sz) (2 ^ 40)); cbn; [|done].
  assert (Hno : d_blocks o !! (q * al) = None).
  { destruct (d_blocks o !! (q * al)) as [n|] eqn:E; [|done]. apply Hnew in E. lia. }
  split; [|split; [done|]; split; [lia|]; split; [apply Z.mod_mul; lia|done]].
  constructor; cbn; [lia| | |].
  - intros p n [[<- <-]|[_ Hp%Hnew]]%lookup_insert_Some; lia.
  - intros p p' n n' [[<- <-]|[_ Hp]]%lookup_insert_Some [[<- <-]|[_ Hp']]%lookup_insert_Some Hne; [done| | |by eapply dk_apart].
    + apply Hnew in Hp'. lia.
    + apply Hnew in Hp. lia.
  - intros p Hp%dk_guards; [|done]. rewrite lookup_insert_is_Some'. by right.
Qed.

#[export] Program Instance demo_stack_laws : StackOsLaws demo_os :=
  { os_ok := demo_ok; os_blocks := d_blocks; os_guards := d_guards }.
Next Obligation. cbn. lia. Qed.
Next Obligation. intros o p q n m H. by apply dk_apart. Qed.
Next Obligation. intros o p H. by apply dk_guards. Qed.
Next Obligation. intros al sz o H Hal Hsz. by apply demo_memalign. Qed.
Next Obligation.
  intros p b o H Hp. cbn. split; [|by destruct b]. destruct H. constructor; cbn; [done..|].
  intros q. destruct b; [|intros [Hq _]%elem_of_difference; auto].
  intros [->%elem_of_singleton|Hq]%elem_of_union; auto.
Qed.
Next Obligation. done. Qed.
Next Obligation.
  intros p o H Hp Hg. cbn. rewrite bool_decide_true by done. eexists. split; [reflexivity|]. split; [|done].
  destruct H. constructor; cbn; [done| | |].
  - intros q n [_ Hq]%lookup_delete_Some. auto.
  - intros q q' n n' [_ Hq]%lookup_delete_Some [_ Hq']%lookup_delete_Some. by apply dk_apart0.
  - intros q Hq. destruct (decide (p = q)) as [->|]; [done|]. rewrite lookup_delete_ne by done. auto.
Qed.

(** A thread whose context is at address 16 allocates two stacks, frees the first, and gets it
    again. *)
Definition demo_stack0 : dill_ctx_stack demo_os :=
  mk_ctx_stack _ 7 16 {[16 := 99]} 0 E0 (mk_demo 1000 {[8 := 100]} ∅).
Definition demo_trace : list sop := [Alloc; Alloc; Scribble 270336 5; Free 270336; Alloc; Alloc; Free 536576].
Fixpoint demo_run (os : list sop) (s : dill_ctx_stack demo_os) : option (list Z * dill_ctx_stack demo_os) :=
  match os with
  | [] => Some ([], s)
  | op :: os => '(r, s) ← sop_run op s; '(rs, s) ← demo_run os s; Some (r :: rs, s)
  end.

Example demo_trace_runs :
  (s ← dill_ctx_stack_init demo_stack0; r ← demo_run demo_trace s; Some (r.1, count r.2)) =
  Some ([270336; 536576; 0; 0; 270336; 802816; 0], 1).
Proof. vm_compute. reflexivity. Qed.

Lemma demo_fresh : fresh_ctx demo_stack0.
Proof.
  constructor; cbn; [by left| |by eexists|by exists 8, 100].
  constructor; cbn; [done| | |done].
  - intros p n [<- <-]%lookup_singleton_Some. lia.
  - intros p q n m [<- <-]%lookup_singleton_Some [<- <-]%lookup_singleton_Some. done.
Qed.

Definition demo_stack1 : dill_ctx_stack demo_os := default demo_stack0 (dill_ctx_stack_init demo_stack0).
Definition demo_stack2 : dill_ctx_stack demo_os := (default (270336, demo_stack1) (sop_run Alloc demo_stack1)).2.

Lemma demo_reach : reach demo_stack0 demo_stack2 (mk_a [270336] []).
Proof.
  change (mk_a [270336] []) with (sop_spec Alloc 270336 (mk_a [] [])).
  apply (reach_step demo_stack0 demo_stack1); [apply reach_init; vm_compute; reflexivity|exact I|vm_compute; reflexivity].
Qed.

Lemma stack_cache_correct_witness :
  ∃ s', dill_ctx_stack_term demo_stack2 = Some s' ∧ mem_ok (d_blocks (st_os demo_stack0)) [270336] s'.
Proof. apply (stack_cache_correct demo_stack0 demo_stack2 (mk_a [270336] []) demo_fresh demo_reach). Defined.
