(* ===== verification/Now.v ===== *)
(** The clock ([now.c]): milliseconds, cached for as long as the counter of CPU cycles says that
    hardly any time has passed.  The counter and the clocks of the system are the class [Clock]. *)

From Stdlib Require Import ZArith Lia Sorted.
From stdpp Require Import base list.
From S2P Require Import Prelude.
Open Scope Z_scope.

(** Which of the implementations the preprocessor selects *)
Inductive timers := MachTimers | ClockGettime | GetTimeOfDay.

Class Clock (E : Type) := {
  (** numerator and denominator of [mach_timebase_info] *)
  mach_timebase_info : Z * Z;
  mach_absolute_time : E → Z * E;
  (** the result, the seconds, and the nanoseconds or microseconds *)
  clock_gettime : E → (Z * (Z * Z)) * E;
  gettimeofday : E → (Z * (Z * Z)) * E;
  rdtsc : E → Z * E;
}.

Record dill_ctx_now := mk_now { mtid : Z * Z; last_time : Z; last_tsc : Z }.

(** The system, the context of the thread, and the static variable of [dill_mnow] *)
Record now_st (E : Type) := mk_now_st { ns_env : E; ns_ctx : dill_ctx_now; ns_mtid : Z * Z }.
Arguments mk_now_st {E}.
Arguments ns_env {E}.
Arguments ns_ctx {E}.
Arguments ns_mtid {E}.

Definition TM (E A : Type) : Type := now_st E → option (A * now_st E).
#[export] Instance TM_ret E : MRet (TM E) := λ A a s, Some (a, s).
#[export] Instance TM_bind E : MBind (TM E) :=
  λ A B k m s, match m s with Some (a, s) => k a s | None => None end.

Section Now.
Context {E : Type} `{ClockE : Clock E} (src : timers) (x86 : bool).

Definition sys {A} (f : E → A * E) : TM E A := λ s,
  let '(a, e) := f (ns_env s) in Some (a, mk_now_st e (ns_ctx s) (ns_mtid s)).
Definition get_now : TM E dill_ctx_now := λ s, Some (ns_ctx s, s).
Definition put_now (c : dill_ctx_now) : TM E unit := λ s, Some (tt, mk_now_st (ns_env s) c (ns_mtid s)).
Definition tcrash {A} : TM E A := λ _, None.
Definition tassert (b : bool) : TM E unit := if b then mret tt else tcrash.

(** A result of [int64_t] arithmetic: an overflow is undefined behaviour. *)
Definition i64 (z : Z) : TM E Z := if (- 2 ^ 63 <=? z) && (z <? 2 ^ 63) then mret z else tcrash.

(** [(int64_t)(ticks * numer / denom / 1000000)], in unsigned arithmetic *)
Definition mach_ms (ticks : Z) (tb : Z * Z) : TM E Z :=
  if tb.2 =? 0 then tcrash else mret (s64 (u64 (ticks * tb.1) / tb.2 / 1000000)).

(** [((int64_t)sec) * 1000 + (((int64_t)sub) / unit)] *)
Definition to_ms (sec sub unit : Z) : TM E Z :=
  a ← i64 (sec * 1000);
  i64 (a + Z.quot sub unit).

Definition dill_mnow : TM E Z :=
  match src with
  | MachTimers =>
    (λ s, Some (tt, if (ns_mtid s).2 =? 0 then mk_now_st (ns_env s) (ns_ctx s) mach_timebase_info else s));;
    ticks ← sys mach_absolute_time;
    tb ← (λ s, Some (ns_mtid s, s));
    mach_ms ticks tb
  | ClockGettime =>
    ts ← sys clock_gettime;
    tassert (ts.1 =? 0);;
    to_ms ts.2.1 ts.2.2 1000000
  | GetTimeOfDay =>
    tv ← sys gettimeofday;
    tassert (tv.1 =? 0);;
    to_ms tv.2.1 tv.2.2 1000
  end.

Definition dill_now_ : TM E Z :=
  match src with
  | MachTimers =>
    ctx ← get_now;
    ticks ← sys mach_absolute_time;
    mach_ms ticks (mtid ctx)
  | _ => dill_mnow
  end.

Definition dill_now : TM E Z :=
  if x86 then
    tsc ← sys rdtsc;
    ctx ← get_now;
    let diff := s64 (u64 (tsc - last_tsc ctx)) in
    diff ← (if diff <? 0 then i64 (- diff) else mret diff);
    if diff <? 1000000 then mret (last_time ctx)
    else
      put_now (mk_now (mtid ctx) (last_time ctx) tsc);;
      t ← dill_now_;
      put_now (mk_now (mtid ctx) t tsc);;
      mret t
  else dill_now_.

Definition dill_ctx_now_init : TM E Z :=
  (match src with
   | MachTimers => ctx ← get_now; put_now (mk_now mach_timebase_info (last_time ctx) (last_tsc ctx))
   | _ => mret tt
   end);;
  (if x86 then
     t ← dill_mnow;
     ctx ← get_now;
     put_now (mk_now (mtid ctx) t (last_tsc ctx));;
     tsc ← sys rdtsc;
     ctx ← get_now;
     put_now (mk_now (mtid ctx) (last_time ctx) tsc)
   else mret tt);;
  mret 0.

Definition dill_ctx_now_term : TM E unit := mret tt.

(** [n] calls of [dill_now], with the state of the system when each returns *)
Fixpoint now_calls (n : nat) : TM E (list (Z * E)) :=
  match n with
  | O => mret []
  | S n =>
    t ← dill_now;
    e ← (λ s, Some (ns_env s, s));
    l ← now_calls n;
    mret ((t, e) :: l)
  end.
End Now.

(** * What the code relies on *)

(** The true time and the reading of the monotonic clock in nanoseconds, which is at most
    [granularity] behind; the cycles of the CPU, at least one each nanosecond. *)
Class ClockLaws (E : Type) `{Clock E} := {
  real : E → Z;
  clk : E → Z;
  cycles : E → Z;
  granularity : Z;
  clk_range e : 0 ≤ clk e < 2 ^ 62;
  clk_behind e : real e - granularity ≤ clk e ≤ real e;
  (** time goes on, and two readings are less than years apart *)
  later (e e' : E) := real e ≤ real e' ∧ clk e ≤ clk e' ∧ real e' - real e ≤ cycles e' - cycles e < 2 ^ 60;
  law_rdtsc e : ∃ e', rdtsc e = (u64 (cycles e'), e') ∧ later e e';
  law_clock e : ∃ e', clock_gettime e = ((0, (clk e' / 10 ^ 9, clk e' mod 10 ^ 9)), e') ∧ later e e';
}.

Section Laws.
Context {E : Type} `{LawsE : ClockLaws E}.

(** Time has passed, in any number of steps. *)
Definition passed (e e' : E) : Prop := real e ≤ real e' ∧ clk e ≤ clk e' ∧ real e' - real e ≤ cycles e' - cycles e.

Lemma passed_refl e : passed e e.
Proof. unfold passed. lia. Qed.
Lemma passed_trans e1 e2 e3 : passed e1 e2 → passed e2 e3 → passed e1 e3.
Proof. unfold passed. lia. Qed.
Lemma later_passed e e' : later e e' → passed e e'.
Proof. unfold later, passed. lia. Qed.

Lemma i64_done z (s : now_st E) : - 2 ^ 63 ≤ z < 2 ^ 63 → i64 z s = Some (z, s).
Proof. intros Hz. unfold i64. rewrite (proj2 (Z.leb_le _ _)), (proj2 (Z.ltb_lt _ _)) by lia. done. Qed.

Lemma TM_bind_done {A B} (m : TM E A) (k : A → TM E B) s a s' : m s = Some (a, s') → (m ≫= k) s = k a s'.
Proof. intros Hm. unfold mbind, TM_bind. by rewrite Hm. Qed.

(** Seconds and nanoseconds to milliseconds *)
Lemma ms_of_clock c : 0 ≤ c → c / 10 ^ 9 * 1000 + Z.quot (c mod 10 ^ 9) 1000000 = c / 10 ^ 6.
Proof.
  intros Hc. pose proof (Z.mod_pos_bound c (10 ^ 9)) as Hm. rewrite Z.quot_div_nonneg by lia.
  pose proof (Z.div_mod c (10 ^ 9)). rewrite <- Z.div_add_l by lia. f_equal. lia.
Qed.

Lemma mnow_clock s : ∃ e', dill_mnow ClockGettime s = Some (clk e' / 10 ^ 6, mk_now_st e' (ns_ctx s) (ns_mtid s)) ∧ later (ns_env s) e'.
Proof.
  destruct (law_clock (ns_env s)) as (e' & E1 & Hl). exists e'. split; [|done]. pose proof (clk_range e') as Hr.
  unfold dill_mnow. erewrite TM_bind_done by (unfold sys; rewrite E1; done).
  erewrite TM_bind_done by done. cbn [fst snd]. unfold to_ms.
  pose proof (ms_of_clock _ (proj1 Hr)) as Hms. cbn [fst snd].
  assert (H9 : 0 ≤ clk e' / 10 ^ 9 < 2 ^ 33) by (split; [apply Z.div_pos|apply Z.div_lt_upper_bound]; lia).
  assert (H6 : 0 ≤ clk e' / 10 ^ 6 < 2 ^ 62) by (split; [apply Z.div_pos|apply Z.div_lt_upper_bound]; lia).
  erewrite TM_bind_done by (apply i64_done; lia). rewrite i64_done by lia. by rewrite Hms.
Qed.

(** The difference of two readings of the counter *)
Lemma tsc_diff a b : 0 ≤ a - b < 2 ^ 63 → s64 (u64 (u64 a - u64 b)) = a - b.
Proof.
  intros Hab. unfold u64. rewrite <- Zminus_mod. rewrite (Z.mod_small (a - b)) by lia. unfold s64.
  rewrite Z.mod_small; lia.
Qed.

(** The cached values: the counter was [cycles e0] when the time was read, at [e1]; if it was read
    first, at most [slack] nanoseconds have passed in between. *)
Definition cached (slack : Z) (s : now_st E) : Prop := ∃ e0 e1,
  last_tsc (ns_ctx s) = u64 (cycles e0) ∧ last_time (ns_ctx s) = clk e1 / 10 ^ 6 ∧ real e0 - real e1 ≤ slack ∧
  passed e0 (ns_env s) ∧ passed e1 (ns_env s) ∧ cycles (ns_env s) - cycles e0 < 2 ^ 61.

(** [t] milliseconds are not later than the true time, and less than two milliseconds, the
    granularity of the clock and [slack] earlier. *)
Definition accurate (slack t : Z) (e : E) : Prop :=
  real e - (2 * 10 ^ 6 + granularity + slack) < t * 10 ^ 6 ≤ real e.

Lemma div_ms c : c / 10 ^ 6 * 10 ^ 6 ≤ c < c / 10 ^ 6 * 10 ^ 6 + 10 ^ 6.
Proof. pose proof (Z.div_mod c (10 ^ 6)). pose proof (Z.mod_pos_bound c (10 ^ 6)). lia. Qed.

Lemma mnow_accurate slack e : 0 ≤ slack → accurate slack (clk e / 10 ^ 6) e.
Proof. intros Hs. pose proof (div_ms (clk e)). pose proof (clk_behind e). unfold accurate. lia. Qed.

(** A call with the cache: the old time, or a new one that is not earlier and has no slack,
    because the counter is read before the clock *)
Lemma now_cached slack s : 0 ≤ slack → cached slack s →
  ∃ t s', dill_now ClockGettime true s = Some (t, s') ∧ last_time (ns_ctx s') = t ∧ last_time (ns_ctx s) ≤ t ∧
    ((t = last_time (ns_ctx s) ∧ cached slack s' ∧ accurate slack t (ns_env s')) ∨
     (cached 0 s' ∧ accurate 0 t (ns_env s'))).
Proof.
  intros Hs (e0 & e1 & Htsc & Htime & Hsl & H0 & H1 & Hc). destruct (law_rdtsc (ns_env s)) as (e & Er & Hl).
  pose proof (passed_trans _ _ _ H0 (later_passed _ _ Hl)) as P0. pose proof (passed_trans _ _ _ H1 (later_passed _ _ Hl)) as P1.
  unfold dill_now. erewrite TM_bind_done by (unfold sys; rewrite Er; done). erewrite TM_bind_done by done. cbn [ns_ctx].
  rewrite Htsc, tsc_diff by (unfold later, passed in *; lia).
  assert (Hpos : 0 ≤ cycles e - cycles e0) by (unfold later, passed in *; lia).
  rewrite (proj2 (Z.ltb_ge _ _) Hpos). erewrite TM_bind_done by done. destruct (Z.ltb_spec (cycles e - cycles e0) 1000000).
  - eexists _, _. split; [done|]. split; [done|]. split; [done|]. left. split; [done|]. split.
    + exists e0, e1. repeat (split; [done|]). cbn. lia.
    + cbn [ns_env]. rewrite Htime. pose proof (div_ms (clk e1)). pose proof (clk_behind e1). unfold accurate, passed in *. lia.
  - erewrite TM_bind_done by done. cbn [ns_ctx]. unfold dill_now_.
    destruct (mnow_clock (mk_now_st e (mk_now (mtid (ns_ctx s)) (last_time (ns_ctx s)) (u64 (cycles e))) (ns_mtid s)))
      as (e2 & Em & Hl2). cbn [ns_env ns_ctx ns_mtid] in Em, Hl2.
    erewrite TM_bind_done by exact Em. erewrite TM_bind_done by done. eexists _, _. split; [done|]. cbn.
    split; [done|]. split; [|right; split; [|by apply mnow_accurate]].
    + rewrite Htime. apply Z.div_le_mono; [done|]. unfold later, passed in *. lia.
    + exists e, e2. cbn. split; [done|]. split; [done|]. unfold later, passed in *. lia.
Qed.

(** What a call leaves for the next one, when it returned [t] and was not the first cached time *)
Definition told (x86 : bool) (t : Z) (s : now_st E) : Prop :=
  if x86 then cached 0 s ∧ t ≤ last_time (ns_ctx s) else t ≤ clk (ns_env s) / 10 ^ 6.

Lemma now_told x86 t0 s : told x86 t0 s →
  ∃ t s', dill_now ClockGettime x86 s = Some (t, s') ∧ told x86 t s' ∧ t0 ≤ t ∧ accurate 0 t (ns_env s').
Proof.
  destruct x86; cbn [told].
  - intros [Hc Ht]. destruct (now_cached 0 s (Z.le_refl 0) Hc) as (t & s' & Er & Hlast & Hle & Hor).
    exists t, s'. split; [done|]. destruct Hor as [(_ & Hc' & Hacc)|[Hc' Hacc]]; (split; [split; [done|lia]|]; split; [lia|done]).
  - intros Ht. destruct (mnow_clock s) as (e & Er & Hl). eexists _, _. split; [exact Er|]. cbn. split; [done|].
    split; [|by apply mnow_accurate]. etransitivity; [exact Ht|]. apply Z.div_le_mono; [done|]. unfold later in Hl. lia.
Qed.

Lemma now_calls_told x86 n : ∀ t0 s, told x86 t0 s →
  ∃ l s', now_calls ClockGettime x86 n s = Some (l, s') ∧ length l = n ∧ Sorted Z.le (t0 :: map fst l) ∧
    Forall (λ r, accurate 0 r.1 r.2) l.
Proof.
  induction n as [|n IH]; intros t0 s Ht; [by exists [], s; repeat constructor|].
  destruct (now_told x86 t0 s Ht) as (t & s1 & Er & Ht1 & Hle & Hacc).
  destruct (IH t s1 Ht1) as (l & s2 & El & Hlen & Hsort & Hall). exists ((t, ns_env s1) :: l), s2.
  split; [|split; [by f_equal/=|split; [|by constructor]]].
  - cbn [now_calls]. erewrite TM_bind_done by exact Er. erewrite TM_bind_done by done. by erewrite TM_bind_done by exact El.
  - cbn. repeat constructor; [by inversion Hsort..|done].
Qed.

(** The calls up to the first that reads the clock, and those from there on *)
Definition first_slack (slack t0 : Z) (l : list (Z * E)) : Prop := ∃ l1 l2, l = l1 ++ l2 ∧
  Forall (λ r, r.1 = t0 ∧ accurate slack r.1 r.2) l1 ∧ Forall (λ r, accurate 0 r.1 r.2) l2.

Lemma now_calls_first slack n : 0 ≤ slack → ∀ s, cached slack s →
  ∃ l s', now_calls ClockGettime true n s = Some (l, s') ∧ length l = n ∧
    Sorted Z.le (last_time (ns_ctx s) :: map fst l) ∧ first_slack slack (last_time (ns_ctx s)) l.
Proof.
  intros Hs. induction n as [|n IH]; intros s Hc.
  { exists [], s. split; [done|]. split; [done|]. split; [by repeat constructor|]. by exists [], []. }
  destruct (now_cached slack s Hs Hc) as (t & s1 & Er & Hlast & Hle & [(Ht & Hc1 & Hacc)|[Hc1 Hacc]]).
  - destruct (IH s1 Hc1) as (l & s2 & El & Hlen & Hsort & l1 & l2 & -> & H1 & H2). exists ((t, ns_env s1) :: l1 ++ l2), s2.
    rewrite Hlast in *. split; [|split; [by f_equal/=|split; [|exists ((t, ns_env s1) :: l1), l2]]].
    + cbn [now_calls]. erewrite TM_bind_done by exact Er. erewrite TM_bind_done by done. by erewrite TM_bind_done by exact El.
    + cbn. repeat constructor; [by inversion Hsort..|done].
    + rewrite <- Ht. split; [done|]. split; [by constructor|done].
  - destruct (now_calls_told true n t s1) as (l & s2 & El & Hlen & Hsort & Hall); [by split; [|lia]|].
    exists ((t, ns_env s1) :: l), s2. split; [|split; [by f_equal/=|split; [|exists [], ((t, ns_env s1) :: l)]]].
    + cbn [now_calls]. erewrite TM_bind_done by exact Er. erewrite TM_bind_done by done. by erewrite TM_bind_done by exact El.
    + cbn. repeat constructor; [by inversion Hsort..|done].
    + split; [done|]. split; [constructor|by constructor].
Qed.

(** C19. With the monotonic clock, on any machine, the clock never fails an assertion or
    overflows and never goes back: the times that successive calls of [dill_now] return do not
    decrease.  Each of them is not later than the true time.  From the first call that reads
    the clock on they are less than two milliseconds, and the granularity of the clock, earlier,
    on processors of at least 1 GHz.  The calls before that one, on processors with a counter,
    return the time that the initialisation cached, and those may be earlier by some more
    ([slack]): the time that passed between the reading of the clock and that of the counter in
    [dill_ctx_now_init], which is bounded by the duration of that call only. *)
Theorem now_accurate x86 n s :
  ∃ slack s0 l s', dill_ctx_now_init ClockGettime x86 s = Some (0, s0) ∧
    0 ≤ slack ≤ real (ns_env s0) - real (ns_env s) ∧
    now_calls ClockGettime x86 n s0 = Some (l, s') ∧ length l = n ∧ Sorted Z.le (map fst l) ∧
    (if x86 then first_slack slack (last_time (ns_ctx s0)) l else Forall (λ r, accurate 0 r.1 r.2) l).
Proof.
  unfold dill_ctx_now_init. destruct x86.
  - destruct (mnow_clock s) as (e1 & Em & Hl1). destruct (law_rdtsc e1) as (e0 & Er & Hl0).
    eexists (real e0 - real e1), _. assert (Hslack : 0 ≤ real e0 - real e1) by (unfold later in *; lia).
    edestruct (now_calls_first (real e0 - real e1) n Hslack) as (l & s' & El & Hlen & Hsort & Hall); [|exists l, s'].
    2: { split.
      { erewrite TM_bind_done by done. erewrite TM_bind_done; [done|]. erewrite TM_bind_done by exact Em. do 2 erewrite TM_bind_done by done.
        erewrite TM_bind_done by (unfold sys; cbn [ns_env]; rewrite Er; done). by erewrite TM_bind_done by done. }
      split; [cbn; unfold later in *; lia|]. split; [exact El|]. split; [done|]. split; [by inversion Hsort|exact Hall]. }
    exists e0, e1. cbn. split; [done|]. split; [done|]. unfold later, passed in *. lia.
  - destruct (now_calls_told false n (clk (ns_env s) / 10 ^ 6) s) as (l & s' & El & Hlen & Hsort & Hall); [cbn; lia|].
    exists 0, s, l, s'. split; [done|]. split; [lia|]. repeat (split; [done|]). split; [by inversion Hsort|done].
Qed.
End Laws.

(** * A machine for examples *)

(** Time in nanoseconds, which stops after 31 years; a reading of the counter comes 300
    microseconds after the call, the clock is updated each four milliseconds. *)
Definition stopped (e : Z) : Z := Z.min (Z.max 0 e) (10 ^ 18).
Definition coarse (e : Z) : Z := stopped e - stopped e mod 4000000.

#[export] Instance demo_clock : Clock Z := {|
  mach_timebase_info := (1, 1);
  mach_absolute_time := λ e, (stopped e, e);
  clock_gettime := λ e, let e := e + 50 in ((0, (coarse e / 10 ^ 9, coarse e mod 10 ^ 9)), e);
  gettimeofday := λ e, ((0, (stopped e / 10 ^ 9, stopped e mod 10 ^ 9 / 1000)), e);
  rdtsc := λ e, let e := e + 300000 in (u64 (stopped e), e);
|}.
#[export, refine] Instance demo_clock_laws : ClockLaws Z :=
  {| real := stopped; clk := coarse; cycles := stopped; granularity := 4000000 |}.
Proof.
  - intros e. unfold coarse, stopped. zdm.
  - intros e. unfold coarse, stopped. zdm.
  - intros e. exists (e + 300000). split; [done|]. unfold coarse, stopped. split; [lia|]. split; [zdm|lia].
  - intros e. exists (e + 50). split; [done|]. unfold coarse, stopped. split; [lia|]. split; [zdm|lia].
Defined.

(** Twenty calls, from one second on: the clock is read once in four calls. *)
Definition demo_now : now_st Z := mk_now_st (10 ^ 9) (mk_now (0, 0) 0 0) (0, 0).

Lemma now_accurate_witness :
  (map fst ∘ fst <$> (dill_ctx_now_init ClockGettime true;; now_calls ClockGettime true 20) demo_now =
    Some [1000; 1000; 1000; 1000; 1000; 1000; 1000; 1000; 1000; 1000; 1000; 1000; 1000; 1000; 1000; 1004; 1004; 1004; 1004; 1004]) ∧
  ∃ slack s0 l s', dill_ctx_now_init ClockGettime true demo_now = Some (0, s0) ∧
    0 ≤ slack ≤ real (ns_env s0) - real (ns_env demo_now) ∧
    now_calls ClockGettime true 20 s0 = Some (l, s') ∧ length l = 20%nat ∧ Sorted Z.le (map fst l) ∧
    first_slack slack (last_time (ns_ctx s0)) l.
Proof. split; [vm_compute; reflexivity|]. apply (now_accurate true 20 demo_now). Defined.
