(* ===== verification/Ctx.v ===== *)
(** The context of a thread ([ctx.c], [ctx.h]): when the parts of the library are initialised and
    terminated, in the three implementations: a global variable, a thread-local variable, and
    thread-specific data of POSIX. *)

From Stdlib Require Import ZArith Lia.
From stdpp Require Import base gmap list.
From S2P Require Import Prelude.
Open Scope Z_scope.

(** [DILL_THREADS] undefined; [__GNUC__] and no [DILL_THREAD_FALLBACK]; otherwise *)
Inductive threading := Global | ThreadLocal | ThreadSpecific.
#[export] Instance threading_eq_dec : EqDecision threading.
Proof. solve_decision. Defined.

(** The members of [struct dill_ctx] *)
Inductive part := PNow | PCr | PHandle | PStack | PPollset | PFd.
#[export] Instance part_eq_dec : EqDecision part.
Proof. solve_decision. Defined.

(** The functions [dill_ctx_*_init] and [dill_ctx_*_term] of the parts, on the context at an
    address.  An initialisation returns a code, and either may fail an assertion of its own. *)
Class CtxParts (W : Type) := {
  part_init : part → ptr → W → option (Z * W);
  part_term : part → ptr → W → option W;
}.

(** The process: the member [initialized] of the contexts by address; the values of
    [dill_key] that are not null, by thread; whether [dill_makekey] has run; [dill_main]; the
    number of registered handlers; how many calls of the system succeed; the next address *)
Record proc (W : Type) := mk_proc {
  pr_ctxs : gmap Z bool;
  pr_specific : gmap Z ptr;
  pr_once : bool;
  dill_main : ptr;
  pr_atexit : nat;
  pr_budget : nat;
  pr_next : Z;
  pr_parts : W;
}.
Arguments mk_proc {W}.
Arguments pr_ctxs {W}.
Arguments pr_specific {W}.
Arguments pr_once {W}.
Arguments dill_main {W}.
Arguments pr_atexit {W}.
Arguments pr_budget {W}.
Arguments pr_next {W}.
Arguments pr_parts {W}.

Definition PM (W A : Type) : Type := proc W → option (A * proc W).
#[export] Instance PM_ret W : MRet (PM W) := λ A a s, Some (a, s).
#[export] Instance PM_bind W : MBind (PM W) :=
  λ A B k m s, match m s with Some (a, s) => k a s | None => None end.

Section Ctx.
Context {W : Type} `{PartsW : CtxParts W} (impl : threading) (sockets : bool).



(** ** The system *)




(** ** The code *)














(** ** Threads *)





End Ctx.

(** * What the parts promise *)

(** The parts of the context at an address that are initialised, in that order.  A part is
    initialised after those before it in [order], and terminated before them; what happens out
    of that order is not said.  Neither has to succeed: [dill_ctx_pollset_init] fails when
    epoll_create or calloc do. *)
Definition order : list part := [PNow; PCr; PHandle; PStack; PPollset; PFd].

Class PartsLaws (W : Type) `{CtxParts W} := {
  parts_live : W → ptr → list part;
  law_init p c w pre suf w' : order = pre ++ p :: suf → parts_live w c = pre → part_init p c w = Some (0, w') →
    parts_live w' c = pre ++ [p] ∧ ∀ c', c' ≠ c → parts_live w' c' = parts_live w c';
  law_term p c w pre w' : parts_live w c = pre ++ [p] → part_term p c w = Some w' →
    parts_live w' c = pre ∧ ∀ c', c' ≠ c → parts_live w' c' = parts_live w c';
}.

(** An initialisation that is due does not return 0; a termination that is due fails. *)
Definition init_fails {W} `{PartsLaws W} : Prop := ∃ p c w pre suf,
  order = pre ++ p :: suf ∧ parts_live w c = pre ∧ ∀ w', part_init p c w ≠ Some (0, w').


(** * Schedules *)



Section Lifecycle.
Context {W : Type} `{LawsW : PartsLaws W} (impl : threading) (sockets : bool).




Lemma PM_bind_none {A B} (m : PM W A) (k : A → PM W B) s : m s = None → (m ≫= k) s = None.
Proof. intros Hm. unfold mbind, PM_bind. by rewrite Hm. Qed.


(** A call that fails makes the whole fail; otherwise it goes on. *)
Ltac fails_or H := destruct H as [H|[? ?]]; [|right; split; [by apply PM_bind_none|by auto]].




(** ** The calls of the system *)







(** ** The invariant *)















(** ** The end of threads and of the process *)








(** ** Sequences of events *)






End Lifecycle.

(** * An example *)

(** The parts are the lists of what is initialised, and crash out of order. *)
#[export] Instance demo_parts : CtxParts (gmap Z (list part)) := {|
  part_init p c w :=
    let pre := default [] (w !! c) in
    if bool_decide (take (length pre) order = pre) && bool_decide (order !! length pre = Some p)
    then Some (0, <[c := pre ++ [p]]> w) else None;
  part_term p c w :=
    let l := default [] (w !! c) in
    if bool_decide (last l = Some p) then Some (<[c := removelast l]> w) else None;
|}.
#[export, refine] Instance demo_parts_laws : PartsLaws (gmap Z (list part)) := {| parts_live w c := default [] (w !! c) |}.
Proof.
  - intros p c w pre suf w' Ho <-. cbn. rewrite Ho. rewrite take_app_length, !bool_decide_true by (done || by apply list_lookup_middle).
    intros [= <-]. split; [by rewrite lookup_insert_eq|]. intros c' Hne. by rewrite lookup_insert_ne.
  - intros p c w pre w' Hl. cbn. rewrite Hl. rewrite bool_decide_true by apply last_snoc. intros [= <-].
    split; [rewrite lookup_insert_eq; apply removelast_last|]. intros c' Hne. by rewrite lookup_insert_ne.
Defined.


(** None of these initialisations and terminations fails. *)
Lemma demo_no_init_fails : ¬ init_fails (W := gmap Z (list part)).
Proof.
  intros (p & c & w & pre & suf & Ho & Hl & Hf). cbn in Hl, Hf. rewrite Hl in Hf.
  rewrite Ho, take_app_length, !bool_decide_true in Hf by (done || by apply list_lookup_middle). by eapply Hf.
Qed.

