(* ===== verification/HappyEyeballs.v ===== *)
(** Happy Eyeballs ([happyeyeballs.c]): connecting to a host that has several addresses, after
    RFC 8305.  The code composes bundles, channels, name resolution and TCP; it is translated
    over the interface [HeEnv] of what it calls. *)

From S2P Require Import Prelude Handle World Cr Chan Bundle Sched.
From Stdlib Require Import ZArith Lia.
From stdpp Require Import base gmap list.
Open Scope Z_scope.

(** An address is the bytes of a [struct dill_ipaddr]. *)
Abbreviation addr := (list Z).
Definition SIZEOF_IPADDR : Z := 32.
Definition SIZEOF_INT : Z := 4.
Definition DILL_IPADDR_IPV4 : Z := 1.
Definition DILL_IPADDR_IPV6 : Z := 2.

(** The coroutines of the file, with their arguments *)
Inductive he_fn :=
  | Dnsquery (name port mode ch : Z)
  | Attempt (a : addr) (ch : Z)
  | Coordinator (name port ch : Z).
#[export] Instance he_fn_eq_dec : EqDecision he_fn.
Proof. solve_decision. Defined.

(** The functions of the library that the file calls, with the results that the C functions
    leave in memory next to the value they return *)
Class HeEnv (m : Type → Type) := {
  he_crash {A} : m A;
  he_errno : m errno_t;
  he_set_errno : errno_t → m unit;
  he_now : m Z;
  (** [dill_ipaddr_local(&addr, "0.0.0.0", 0, DILL_IPADDR_IPV4)] *)
  he_nulladdr : m (Z * addr)%type;
  (** [dill_ipaddr_remotes] for so many addresses, a name, a port and a mode *)
  he_remotes : Z → Z → Z → Z → m (Z * list addr)%type;
  (** [dill_ipaddr_equal], the port included *)
  he_equal : addr → addr → m bool;
  he_tcp_connect : addr → Z → m Z;
  (** channels: sending bytes, receiving so many, receiving from the first channel that is ready *)
  he_chmake : m (Z * Z * Z)%type;
  he_chsend : Z → list Z → Z → m Z;
  he_chrecv : Z → Z → Z → m (Z * list Z)%type;
  he_choose : list (Z * Z)%type → Z → m (Z * list Z)%type;
  he_msleep : Z → m Z;
  he_hclose : Z → m Z;
  he_bundle_mem : m Z;
  he_bundle_go : Z → he_fn → m Z;
  he_go : he_fn → m Z;
}.

(** The value of an [int] in four bytes *)
Definition int_bytes (z : Z) : list Z := (λ i, u8 (Z.shiftr z (8 * i))) <$> [0; 1; 2; 3].
Definition int_of (bs : list Z) : Z :=
  let n := foldr (λ b n, b + 256 * n) 0 bs in if n <? 2 ^ 31 then n else n - 2 ^ 32.

Lemma int_roundtrip z : - 2 ^ 31 ≤ z < 2 ^ 31 → int_of (int_bytes z) = z.
Proof.
  intros H. unfold int_of, int_bytes, u8. cbn [fmap list_fmap foldr Z.mul Pos.mul].
  rewrite !Z.shiftr_div_pow2 by lia. change (2 ^ 8) with 256.
  change (2 ^ 0) with 1. change (2 ^ 8) with 256. change (2 ^ 16) with 65536. change (2 ^ 24) with 16777216.
  match goal with |- (if ?n <? _ then _ else _) = _ => assert (Hn : n = z mod 2 ^ 32) by (clear H; zdm) end.
  rewrite Hn. destruct (Z.ltb_spec (z mod 2 ^ 32) (2 ^ 31)); zdm.
Qed.

Section HappyEyeballs.
Context {m : Type → Type} `{MRet m, MBind m, HeEnv m}.

Definition he_assert (b : bool) : m unit := if b then mret tt else he_crash.

(** [rc < 0 && errno == ECANCELED] *)
Definition canceled (rc : Z) : m bool :=
  if rc <? 0 then e ← he_errno; mret (bool_decide (e = ECANCELED)) else mret false.

(** The loop of [dill_happyeyeballs_dnsquery]: false when the coroutine is cancelled *)
Fixpoint send_addrs (ch : Z) (addrs : list addr) : m bool :=
  match addrs with
  | [] => mret true
  | a :: addrs =>
    rc ← he_chsend ch a (-1);
    c ← canceled rc;
    if (c : bool) then mret false
    else he_assert (rc =? 0);; send_addrs ch addrs
  end.

Definition dill_happyeyeballs_dnsquery (name port mode ch : Z) : m unit :=
  '(count, addrs) ← he_remotes 10 name port mode;
  ok ← (if 0 <? count then send_addrs ch (take (Z.to_nat count) addrs) else mret true);
  if negb ok then mret tt
  else
    (** "we'll send 0.0.0.0 address to mark the end of the results" *)
    '(rc, a) ← he_nulladdr;
    he_assert (rc =? 0);;
    rc ← he_chsend ch a (-1);
    if rc =? 0 then mret tt
    else e ← he_errno; he_assert (bool_decide (e = ECANCELED)).

Definition dill_happyeyeballs_attempt (a : addr) (ch : Z) : m unit :=
  conn ← he_tcp_connect a (-1);
  if conn <? 0 then mret tt
  else
    rc ← he_chsend ch (int_bytes conn) (-1);
    c ← canceled rc;
    if (c : bool) then rc ← he_hclose conn; he_assert (rc =? 0)
    else he_assert (rc =? 0).

Fixpoint close_all (hs : list Z) : m unit :=
  match hs with
  | [] => mret tt
  | h :: hs => rc ← he_hclose h; he_assert (rc =? 0);; close_all hs
  end.

(** From [use_address] to the end of the round: [go_on] is the next round, with the channels of
    the two clauses; [cancel] is the end of the function. *)
Definition use_address (bndl ch : Z) (nulladdr : addr) (cancel : m unit) (go_on : Z → Z → m unit)
    (cls0 cls1 idx nw : Z) (a : addr) : m unit :=
  (** Ignore 0.0.0.0 addresses. *)
  eq ← he_equal a nulladdr;
  if (eq : bool) then go_on cls0 cls1
  else
    (** Launch the connect attempt. *)
    rc ← he_bundle_go bndl (Attempt a ch);
    c ← canceled rc;
    if (c : bool) then cancel
    else
      he_assert (rc =? 0);;
      (** Alternate between IPv4 and IPv6 addresses. *)
      let '(cls0, cls1) := if idx =? 0 then (cls1, cls0) else (cls0, cls1) in
      (** Wait for 300ms before launching next connection attempt. *)
      rc ← he_msleep (nw + 300);
      c ← canceled rc;
      if (c : bool) then cancel
      else he_assert (rc =? 0);; go_on cls0 cls1.

(** The loop, with at most [fuel] rounds: it ends only when the coroutine is cancelled. *)
Fixpoint coordinator_loop (fuel : nat) (bndl ch : Z) (nulladdr : addr) (cancel : m unit) (cls0 cls1 : Z) : m unit :=
  match fuel with
  | O => he_crash
  | S fuel =>
    nw ← he_now;
    '(idx, a) ← he_choose [(cls0, SIZEOF_IPADDR); (cls1, SIZEOF_IPADDR)] (-1);
    c ← canceled idx;
    if (c : bool) then cancel
    else
      e ← he_errno;
      he_assert ((0 <=? idx) && bool_decide (e = E0));;
      use_address bndl ch nulladdr cancel (coordinator_loop fuel bndl ch nulladdr cancel) cls0 cls1 idx nw a
  end.

(** The coordinator once it has its channels and its bundle *)
Definition coordinator_run (fuel : nat) (name port ch : Z) (nulladdr : addr) (bndl v60 v61 v40 v41 : Z) : m unit :=
  let cancel := close_all [bndl; v40; v41; v60; v61] in
  rc ← he_bundle_go bndl (Dnsquery name port DILL_IPADDR_IPV6 v61);
  c ← canceled rc;
  if (c : bool) then cancel
  else
    he_assert (rc =? 0);;
    rc ← he_bundle_go bndl (Dnsquery name port DILL_IPADDR_IPV4 v41);
    c ← canceled rc;
    if (c : bool) then cancel
    else
      he_assert (rc =? 0);;
      (** RFC says to wait for 50ms for IPv6 result irrespective of whether IPv4 address
          arrives. *)
      now ← he_now;
      '(rc, a) ← he_chrecv v60 SIZEOF_IPADDR (now + 50);
      c ← canceled rc;
      if (c : bool) then cancel
      else if rc =? 0 then
        nw ← he_now;
        use_address bndl ch nulladdr cancel (coordinator_loop fuel bndl ch nulladdr cancel) v60 v40 0 nw a
      else
        e ← he_errno;
        he_assert (bool_decide (e = ETIMEDOUT));;
        coordinator_loop fuel bndl ch nulladdr cancel v60 v40.

Definition dill_happyeyeballs_coordinator (fuel : nat) (name port ch : Z) : m unit :=
  '(rc, nulladdr) ← he_nulladdr;
  he_assert (rc =? 0);;
  (** According to the RFC, IPv4 and IPv6 DNS queries should be done in parallel. *)
  '(rc, v60, v61) ← he_chmake;
  he_assert (rc =? 0);;
  '(rc, v40, v41) ← he_chmake;
  he_assert (rc =? 0);;
  bndl ← he_bundle_mem;
  he_assert (0 <=? bndl);;
  coordinator_run fuel name port ch nulladdr bndl v60 v61 v40 v41.

Definition dill_happyeyeballs_connect (name port deadline : Z) : m Z :=
  let exit1 (res : Z) err := he_set_errno err;; mret res in
  if (name =? NULL) || (port <=? 0) then exit1 (-1) EINVAL
  else
    '(rc, ch0, ch1) ← he_chmake;
    if rc <? 0 then err ← he_errno; exit1 (-1) err
    else
      let exit2 res err := close_all [ch0; ch1];; exit1 res err in
      coord ← he_go (Coordinator name port ch1);
      if coord <? 0 then err ← he_errno; exit2 (-1) err
      else
        '(rc, bs) ← he_chrecv ch0 SIZEOF_INT deadline;
        '(res, err) ← (if rc <? 0 then err ← he_errno; mret (-1, err) else mret (int_of bs, E0));
        close_all [coord];;
        exit2 res err.
End HappyEyeballs.

(** * The interface on the runtime *)

Section Runtime.
(** The addresses, their comparison, the resolver and TCP connections *)
Context (nulladdr : addr) (equal : addr → addr → bool) (remotes : Z → Z → Z → Z → M (Z * list addr))
  (tcp_connect : addr → Z → M Z).

(** A local variable of the coroutine *)
Definition local (bs : list Z) : M Z := λ w,
  let p := w_next_id w in
  ODone p (set_next_id (p + Z.of_nat (length bs))
    (set_mem (list_to_map (zip (seqZ p (Z.of_nat (length bs))) bs) ∪ w_mem w) w)).
Definition read_local (p n : Z) : M (list Z) := λ w, ODone ((λ i, default 0 (w_mem w !! i)) <$> seqZ p n) w.

(** The call [fn(args)] of [go] as numbers *)
Definition encode (fn : he_fn) : list Z :=
  match fn with
  | Dnsquery name port mode ch => [1; name; port; mode; ch]
  | Attempt a ch => 2 :: ch :: a
  | Coordinator name port ch => [3; name; port; ch]
  end.

#[local] Instance M_env : HeEnv M := {
  he_crash A := crash;
  he_errno := gets w_errno;
  he_set_errno e := modify (set_errno e);
  he_now := gets w_now;
  he_nulladdr := mret (0, nulladdr);
  he_remotes := remotes;
  he_equal a b := mret (equal a b);
  he_tcp_connect := tcp_connect;
  he_chmake := ch ← fresh_addr; _ ← fresh_addr; dill_chmake_mem obj_close (Some ch);
  he_chsend ch bs d := p ← local bs; dill_chsend obj_close ch p (Z.of_nat (length bs)) d;
  he_chrecv ch n d :=
    p ← local (repeat 0 (Z.to_nat n)); rc ← dill_chrecv obj_close ch p n d; bs ← read_local p n; mret (rc, bs);
  he_choose cls d :=
    let n := foldr Z.max 0 (snd <$> cls) in
    p ← local (repeat 0 (Z.to_nat n));
    rc ← dill_choose obj_close (Some ((λ c, mk_chclause DILL_CHRECV c.1 p c.2) <$> cls)) (Z.of_nat (length cls)) d;
    bs ← read_local p n; mret (rc, bs);
  he_msleep := dill_msleep;
  he_hclose := hclose;
  he_bundle_mem := b ← fresh_addr; dill_bundle_mem (Some b);
  he_bundle_go b fn := dill_go (encode fn) None b;
  he_go fn := dill_go (encode fn) None (-1);
}.

(** The coroutines that the runtime starts *)
Definition happy_prog (fuel : nat) (fn : list Z) : M unit :=
  match fn with
  | [1; name; port; mode; ch] => dill_happyeyeballs_dnsquery name port mode ch
  | 2 :: ch :: a => dill_happyeyeballs_attempt a ch
  | [3; name; port; ch] => dill_happyeyeballs_coordinator fuel name port ch
  | _ => crash
  end.
Definition happy_run (fuel : nat) (main : M unit) (polls : list poll_input) : status :=
  sys_run (λ _ _ _ _, None) (happy_prog fuel) 1000 (mk_sys (main (initial_world 16 100 0 polls ∅)) ∅).
End Runtime.

(** ** Runs *)

Definition demo_null : addr := [2; 0] ++ repeat 0 30.
Definition demo_addr (i : Z) : addr := i :: repeat 0 31.

(** The resolver finds the addresses [v6] and [v4] after [d6] and [d4]; nobody listens at address
    6, and at the others somebody does, 5 ms away. *)
Definition demo_remotes (v6 v4 : list Z) (d6 d4 : Z) (n name port mode : Z) : M (Z * list addr) :=
  let l := if mode =? DILL_IPADDR_IPV6 then v6 else v4 in
  rc ← dill_msleep (if mode =? DILL_IPADDR_IPV6 then d6 else d4);
  mret (if rc <? 0 then (-1, []) else (Z.of_nat (length l), demo_addr <$> l)).
Definition demo_connect (a : addr) (d : Z) : M Z :=
  now ← gets w_now;
  rc ← dill_msleep (if bool_decide (a = demo_addr 6) then -1 else now + 5);
  if rc <? 0 then mret (-1) else hmake (VUser 77).
Definition demo_main : M unit :=
  h ← @dill_happyeyeballs_connect M _ _
    (M_env demo_null (λ a b, bool_decide (a = b)) (demo_remotes [] [] 0 0) demo_connect) 1 80 1000;
  modify (set_errno (EOTHER h));;
  mret tt.

(** The connection that is returned, and the time when it is *)
Definition demo_happy (remotes : Z → Z → Z → Z → M (Z * list addr)) (ts : list Z) : option (errno_t * Z) :=
  match happy_run demo_null (λ a b, bool_decide (a = b)) remotes demo_connect 20 demo_main
    ((λ t, mk_poll_input false [] t) <$> ts) with
  | SExit w => Some (w_errno w, w_now w)
  | _ => None
  end.

(** IPv6 comes first, and IPv4 300 ms later. *)
Example happy_run_ipv4 : demo_happy (demo_remotes [6] [4] 20 10) [10; 20; 320; 325] = Some (EOTHER 8, 325).
Proof. vm_compute. reflexivity. Qed.

(** The pause of 300 ms starts before the coordinator waits for an address, not with the
    attempt: after the addresses have arrived late, two attempts are made at once, although the
    first one has only started. *)
Lemma attempts_back_to_back : demo_happy (demo_remotes [] [6; 4] 20 500) [20; 500; 500; 500; 505; 505; 505] = Some (EOTHER 8, 505).
Proof. vm_compute. reflexivity. Qed.
