(* ===== verification/Happyspec.v ===== *)
(** The behaviour of Happy Eyeballs in an arbitrary environment: the calls that its coroutines
    make, given what is answered. *)

From S2P Require Import Prelude Handle World Cr Chan Bundle Sched HappyEyeballs.
From Stdlib Require Import ZArith Lia.
From stdpp Require Import base gmap list.
Open Scope Z_scope.

(** The calls that a coroutine makes, and what they return: the result, the second result
    of [dill_chmake], [errno], and what is stored in memory. *)
Inductive he_op :=
  | OpNow | OpNulladdr
  | OpRemotes (n name port mode : Z)
  | OpConnect (a : addr) (deadline : Z)
  | OpChmake
  | OpSend (ch : Z) (bs : list Z) (deadline : Z)
  | OpRecv (ch len deadline : Z)
  | OpChoose (cls : list (Z * Z)) (deadline : Z)
  | OpMsleep (deadline : Z)
  | OpHclose (h : Z)
  | OpBundleMem
  | OpBundleGo (bndl : Z) (fn : he_fn)
  | OpGo (fn : he_fn).

Record he_ans := mk_ans {
  a_rc : Z; a_h0 : Z; a_h1 : Z; a_errno : errno_t; a_bytes : list Z; a_addrs : list addr }.

Abbreviation event := (he_op * he_ans)%type.

(** The handles that the coroutine owns after the calls [tr] *)
Definition opened (e : event) : list Z :=
  match e.1 with
  | OpChmake => if a_rc e.2 =? 0 then [a_h0 e.2; a_h1 e.2] else []
  | OpBundleMem | OpGo _ | OpConnect _ _ => if 0 <=? a_rc e.2 then [a_rc e.2] else []
  | _ => []
  end.
Definition owned_step (hs : list Z) (e : event) : list Z :=
  match e.1 with
  | OpHclose h => filter (λ h', h' ≠ h) hs
  | _ => hs ++ opened e
  end.
Definition owned (tr : list event) : list Z := fold_left owned_step tr [].

(** The environment: the answer to a call after the calls [tr], if there ever is one *)
Definition env_t : Type := list event → he_op → option he_ans.

(** A run: [errno] and the calls so far.  It is done, has failed an assertion, or waits for an
    answer that never comes. *)
Record trun := mk_trun { t_errno : errno_t; t_trace : list event }.
Inductive tres (A : Type) := TDone (a : A) (t : trun) | TCrash | TStop (tr : list event).
Arguments TDone {A}. Arguments TCrash {A}. Arguments TStop {A}.
Definition T (A : Type) : Type := trun → tres A.

#[export] Instance T_ret : MRet T := λ A a t, TDone a t.
#[export] Instance T_bind : MBind T := λ A B k c t,
  match c t with TDone a t => k a t | TCrash => TCrash | TStop tr => TStop tr end.

(** [equal] is [dill_ipaddr_equal]. *)
Record T_context := mk_T_context { tc_env : env_t; tc_equal : addr → addr → bool }.

Section Trace.
Context (E : T_context).

Definition call (op : he_op) : T he_ans := λ t,
  match tc_env E (t_trace t) op with
  | None => TStop (t_trace t)
  | Some a => TDone a (mk_trun (a_errno a) (t_trace t ++ [(op, a)]))
  end.

#[local] Instance T_env : HeEnv T := {
  he_crash A t := TCrash;
  he_errno t := TDone (t_errno t) t;
  he_set_errno e t := TDone tt (mk_trun e (t_trace t));
  he_now := a ← call OpNow; mret (a_rc a);
  he_nulladdr := a ← call OpNulladdr; mret (a_rc a, a_bytes a);
  he_remotes n name port mode := a ← call (OpRemotes n name port mode); mret (a_rc a, a_addrs a);
  he_equal a b := mret (tc_equal E a b);
  he_tcp_connect a d := a ← call (OpConnect a d); mret (a_rc a);
  he_chmake := a ← call OpChmake; mret (a_rc a, a_h0 a, a_h1 a);
  he_chsend ch bs d := a ← call (OpSend ch bs d); mret (a_rc a);
  he_chrecv ch n d := a ← call (OpRecv ch n d); mret (a_rc a, a_bytes a);
  he_choose cls d := a ← call (OpChoose cls d); mret (a_rc a, a_bytes a);
  he_msleep d := a ← call (OpMsleep d); mret (a_rc a);
  he_hclose h := a ← call (OpHclose h); mret (a_rc a);
  he_bundle_mem := a ← call OpBundleMem; mret (a_rc a);
  he_bundle_go b fn := a ← call (OpBundleGo b fn); mret (a_rc a);
  he_go fn := a ← call (OpGo fn); mret (a_rc a);
}.

(** ** What the environment promises *)

(** A blocking call succeeds, or the coroutine is being cancelled. *)
Definition or_canceled (a : he_ans) : Prop := a_rc a = 0 ∨ (a_rc a = -1 ∧ a_errno a = ECANCELED).

(** A new handle is not one that the coroutine owns; closing a handle that it owns succeeds;
    nobody ends a channel.  [plenty]: there is memory for channels, bundles and coroutines.
    [null] is the address 0.0.0.0. *)
Definition lawful (plenty : bool) (null : addr) (tr : list event) (op : he_op) (a : he_ans) : Prop :=
  match op with
  | OpNow => True
  | OpNulladdr => a_rc a = 0 ∧ a_bytes a = null
  | OpRemotes n _ _ _ => a_rc a ≤ n ∧ (0 < a_rc a → Z.of_nat (length (a_addrs a)) = a_rc a)
  | OpConnect _ _ => (0 ≤ a_rc a < 2 ^ 31 ∧ a_rc a ∉ owned tr) ∨ a_rc a = -1
  | OpSend _ _ _ | OpMsleep _ => or_canceled a
  | OpRecv _ n d =>
      (a_rc a = 0 ∧ Z.of_nat (length (a_bytes a)) = n) ∨
      (a_rc a = -1 ∧ (a_errno a = ECANCELED ∨ (0 ≤ d ∧ a_errno a = ETIMEDOUT)))
  | OpChoose cls _ =>
      (0 ≤ a_rc a < Z.of_nat (length cls) ∧ a_errno a = E0) ∨ (a_rc a = -1 ∧ a_errno a = ECANCELED)
  | OpHclose h => h ∈ owned tr → a_rc a = 0
  | OpChmake =>
      (a_rc a = 0 ∧ NoDup [a_h0 a; a_h1 a] ∧ a_h0 a ∉ owned tr ∧ a_h1 a ∉ owned tr) ∨ (plenty = false ∧ a_rc a = -1)
  | OpBundleMem => (0 ≤ a_rc a ∧ a_rc a ∉ owned tr) ∨ (plenty = false ∧ a_rc a = -1)
  | OpBundleGo _ _ => or_canceled a ∨ (plenty = false ∧ a_rc a = -1)
  | OpGo _ => (0 ≤ a_rc a ∧ a_rc a ∉ owned tr) ∨ a_rc a = -1
  end.

(** A lawful environment that answers at most [n] calls *)
Record lawful_env (plenty : bool) (null : addr) (n : nat) : Prop := {
  le_lawful : ∀ tr op a, tc_env E tr op = Some a → lawful plenty null tr op a;
  le_finite : ∀ tr op a, tc_env E tr op = Some a → (length tr < n)%nat;
}.

(** ** Reasoning about runs *)

(** [c] does not fail an assertion; [Q] holds when it is done, and [I] of the calls when it
    waits for ever. *)
Definition wp {A} (c : T A) (Q : A → trun → Prop) (I : list event → Prop) (t : trun) : Prop :=
  match c t with TDone a t => Q a t | TCrash => False | TStop tr => I tr end.

Lemma run_bind {A B} (c : T A) (k : A → T B) Q I t :
  wp c (λ a, wp (k a) Q I) I t → wp (mbind k c) Q I t.
Proof. unfold wp, mbind, T_bind. by destruct (c t). Qed.

Lemma run_mono {A} (c : T A) (Q Q' : A → trun → Prop) I t : wp c Q I t → (∀ a t, Q a t → Q' a t) → wp c Q' I t.
Proof. unfold wp. destruct (c t); auto. Qed.

Context (plenty : bool) (null : addr) (n : nat) (LE : lawful_env plenty null n).

Lemma run_call op (Q : he_ans → trun → Prop) (I : list event → Prop) t : I (t_trace t) →
  (∀ a, lawful plenty null (t_trace t) op a → (length (t_trace t) < n)%nat →
    Q a (mk_trun (a_errno a) (t_trace t ++ [(op, a)]))) → wp (call op) Q I t.
Proof.
  intros HI HQ. unfold wp, call. destruct (tc_env E (t_trace t) op) as [a|] eqn:Ea; [|done].
  apply HQ; [by eapply le_lawful|by eapply le_finite].
Qed.

(** ** Handles *)

Lemma owned_snoc tr e : owned (tr ++ [e]) = owned_step (owned tr) e.
Proof. unfold owned. by rewrite fold_left_app. Qed.

(** Closing the handles one owns *)
Lemma close_all_wp (P : list event → Prop) hs t (Q : unit → trun → Prop) (I : list event → Prop) :
  owned (t_trace t) ≡ₚ hs → NoDup hs → P (t_trace t) →
  (∀ tr h a, P tr → P (tr ++ [(OpHclose h, a)])) → (∀ tr, P tr → I tr) →
  (∀ t, owned (t_trace t) = [] → P (t_trace t) → Q tt t) →
  wp (close_all hs) Q I t.
Proof using LE.
  intros Ho Hnd HP Hstep HI HQ. revert t Ho HP. induction hs as [|h hs IH]; intros t Ho HP.
  { apply HQ; [by apply Permutation_nil_r|done]. }
  cbn [close_all]. apply run_bind. cbn [he_hclose T_env]. apply run_bind, run_call; [by apply HI|].
  intros a Ha _. cbn [lawful] in Ha. rewrite Ha by (rewrite Ho; left). cbn.
  apply NoDup_cons in Hnd as [Hh Hnd]. apply IH; [done| |by apply Hstep].
  cbn [t_trace]. rewrite owned_snoc. cbn [owned_step fst]. rewrite Ho, filter_cons_False by auto.
  clear - Hh. apply reflexive_eq. induction hs as [|x hs IH]; [done|]. apply not_elem_of_cons in Hh as [Hx Hh].
  rewrite filter_cons_True by auto. by rewrite IH.
Qed.

(** ** The addresses and the attempts of a run *)

Definition received_by (e : event) : list addr :=
  match e.1 with
  | OpRecv _ _ _ => if a_rc e.2 =? 0 then [a_bytes e.2] else []
  | OpChoose _ _ => if 0 <=? a_rc e.2 then [a_bytes e.2] else []
  | _ => []
  end.
Definition attempted_by (e : event) : list addr :=
  match e.1 with OpBundleGo _ (Attempt a _) => [a] | _ => [] end.

(** The addresses received, without the marks of the end; those that an attempt was made for *)
Definition wanted (tr : list event) : list addr :=
  filter (λ a, tc_equal E a null = false) (tr ≫= received_by).
Definition attempted (tr : list event) : list addr := tr ≫= attempted_by.

(** The last time that was read *)
Definition last_now (tr : list event) : Z :=
  fold_left (λ t e, match e.1 with OpNow => a_rc e.2 | _ => t end) tr 0.

Definition is_launch (e : event) : bool :=
  match e.1 with OpBundleGo _ (Attempt _ _) => a_rc e.2 =? 0 | _ => false end.
Definition launch_last (tr : list event) : bool := match last tr with Some e => is_launch e | None => false end.

(** After an attempt is launched the coroutine sleeps until 300 ms after the time last read. *)
Definition paced (tr : list event) : Prop :=
  ∀ pre e op a post, tr = pre ++ e :: (op, a) :: post → is_launch e = true → op = OpMsleep (last_now pre + 300).

(** The clauses that the next [dill_choose] should have, once there has been one, and whether
    its first channel has just delivered an address: after an attempt for that address the
    other channel comes first. *)
Definition expect_step (s : option (list (Z * Z)) * bool) (e : event) : option (list (Z * Z)) * bool :=
  match e.1 with
  | OpChoose cls _ => (Some cls, a_rc e.2 =? 0)
  | OpBundleGo _ (Attempt _ _) => (if s.2 then reverse <$> s.1 else s.1, false)
  | _ => s
  end.
Definition expect (tr : list event) : option (list (Z * Z)) * bool := fold_left expect_step tr (None, false).
Definition alternating (tr : list event) : Prop :=
  ∀ pre cls d a post cls', tr = pre ++ (OpChoose cls d, a) :: post → (expect pre).1 = Some cls' → cls = cls'.

Lemma expect_snoc tr e : expect (tr ++ [e]) = expect_step (expect tr) e.
Proof. unfold expect. by rewrite fold_left_app. Qed.
Lemma alternating_snoc tr op a : alternating tr →
  match op with OpChoose cls _ => ∀ cls', (expect tr).1 = Some cls' → cls = cls' | _ => True end →
  alternating (tr ++ [(op, a)]).
Proof.
  intros Ha Hop pre cls d a' post cls' Htr. destruct post as [|x post _] using rev_ind.
  - apply app_inj_tail in Htr as [-> [= -> ->]]. apply Hop.
  - rewrite !app_comm_cons, app_assoc in Htr. apply app_inj_tail in Htr as [-> _]. by eapply Ha.
Qed.

Lemma wanted_snoc tr e : wanted (tr ++ [e]) = wanted tr ++ filter (λ a, tc_equal E a null = false) (received_by e).
Proof. unfold wanted. rewrite bind_app, filter_app. cbn. by rewrite app_nil_r. Qed.
Lemma attempted_snoc tr e : attempted (tr ++ [e]) = attempted tr ++ attempted_by e.
Proof. unfold attempted. rewrite bind_app. cbn. by rewrite app_nil_r. Qed.
Lemma last_now_snoc tr e : last_now (tr ++ [e]) = match e.1 with OpNow => a_rc e.2 | _ => last_now tr end.
Proof. unfold last_now. by rewrite fold_left_app. Qed.
Lemma launch_last_snoc tr e : launch_last (tr ++ [e]) = is_launch e.
Proof. unfold launch_last. by rewrite last_snoc. Qed.

Lemma paced_snoc tr op a : paced tr → launch_last tr = false → paced (tr ++ [(op, a)]).
Proof.
  intros Hp Hl pre e op' a' post Htr He. destruct post as [|x post _] using rev_ind.
  - replace (pre ++ [e; (op', a')]) with ((pre ++ [e]) ++ [(op', a')]) in Htr by (by rewrite <- app_assoc).
    apply app_inj_tail in Htr as [-> _]. by rewrite launch_last_snoc, He in Hl.
  - rewrite !app_comm_cons, app_assoc in Htr. apply app_inj_tail in Htr as [-> _]. by eapply Hp.
Qed.

Lemma paced_sleep tr a0 a : paced tr → is_launch a0 = true →
  paced (tr ++ [a0]) → paced ((tr ++ [a0]) ++ [(OpMsleep (last_now tr + 300), a)]).
Proof.
  intros _ _ Hp pre e op' a' post Htr He. destruct post as [|x post _] using rev_ind.
  - replace (pre ++ [e; (op', a')]) with ((pre ++ [e]) ++ [(op', a')]) in Htr by (by rewrite <- app_assoc).
    apply app_inj_tail in Htr as [Htr [= <- <-]]. by apply app_inj_tail in Htr as [-> _].
  - rewrite !app_comm_cons, app_assoc in Htr. apply app_inj_tail in Htr as [Htr _]. by eapply Hp.
Qed.

(** An attempt is made for every address received, except for the last one if the run stops. *)
Definition orderly (tr : list event) : Prop :=
  paced tr ∧ alternating tr ∧ ∃ l, wanted tr = attempted tr ++ l ∧ (length l ≤ 1)%nat.

(** Between two rounds: the next [dill_choose] has the channels [c0] and [c1]. *)
Record at_head (hs : list Z) (c0 c1 : Z) (tr : list event) : Prop := {
  ah_paced : paced tr;
  ah_alternating : alternating tr;
  ah_expect : ∀ cls, (expect tr).1 = Some cls → cls = [(c0, SIZEOF_IPADDR); (c1, SIZEOF_IPADDR)];
  ah_launch : launch_last tr = false;
  ah_addrs : wanted tr = attempted tr;
  ah_owned : owned tr ≡ₚ hs;
  ah_length : (length tr ≤ n)%nat;
}.

(** A call that has nothing to do with addresses and attempts *)
Definition neutral (e : event) : Prop :=
  received_by e = [] ∧ attempted_by e = [] ∧ (∀ s, expect_step s e = s) ∧
  match e.1 with OpChoose _ _ | OpHclose _ => False | _ => True end.

Lemma at_head_snoc hs c0 c1 tr op a : at_head hs c0 c1 tr → neutral (op, a) → (length tr < n)%nat →
  at_head (hs ++ opened (op, a)) c0 c1 (tr ++ [(op, a)]).
Proof.
  intros [H1 Ha He H2 H3 H4 H5] (R & A & X & C) Hn. constructor.
  - by apply paced_snoc.
  - apply alternating_snoc; [done|]. by destruct op.
  - by rewrite expect_snoc, X.
  - rewrite launch_last_snoc. revert A. unfold attempted_by, is_launch. cbn. destruct op as [| | | | | | | | | | |? []|]; intros; congruence.
  - rewrite wanted_snoc, attempted_snoc, R, A, H3. by rewrite filter_nil.
  - rewrite owned_snoc. unfold owned_step. cbn [fst] in *. destruct op; try done; by rewrite H4.
  - rewrite length_app. cbn. lia.
Qed.

Lemma canceled_run rc t : canceled rc t = TDone ((rc <? 0) && bool_decide (t_errno t = ECANCELED)) t.
Proof. unfold canceled. by destruct (rc <? 0). Qed.

Lemma canceled_wp rc Q I t : Q ((rc <? 0) && bool_decide (t_errno t = ECANCELED)) t → wp (canceled rc) Q I t.
Proof. unfold wp. by rewrite canceled_run. Qed.

Lemma at_head_orderly hs c0 c1 tr : at_head hs c0 c1 tr → orderly tr.
Proof. intros [H1 Ha _ _ H3 _ _]. split; [done|]. split; [done|]. exists []. rewrite app_nil_r. split; [done|cbn; lia]. Qed.

(** The end of the coordinator *)
Definition ended (_ : unit) (t : trun) : Prop := owned (t_trace t) = [] ∧ orderly (t_trace t).

(** Closing everything leaves the order of the attempts. *)
Lemma orderly_close tr h a : launch_last tr = false ∧ orderly tr → launch_last (tr ++ [(OpHclose h, a)]) = false ∧ orderly (tr ++ [(OpHclose h, a)]).
Proof.
  intros (Hl & Hp & Ha & l & El & Hlen). split; [by rewrite launch_last_snoc|].
  split; [by apply paced_snoc|]. split; [by apply alternating_snoc|].
  exists l. rewrite wanted_snoc, attempted_snoc. cbn. by rewrite !app_nil_r.
Qed.

Lemma cancel_wp hs t : owned (t_trace t) ≡ₚ hs → NoDup hs → launch_last (t_trace t) = false → orderly (t_trace t) →
  wp (close_all hs) ended orderly t.
Proof using LE.
  intros Ho Hnd Hl Hor. apply (close_all_wp (λ tr, launch_last tr = false ∧ orderly tr) hs t); [done..| | |].
  - intros. by apply orderly_close.
  - by intros tr [].
  - intros t' Ho' [_ H']. done.
Qed.

(** From [use_address] to the next round *)
Lemma use_address_wp hs bndl ch go_on c0 c1 idx nw a t : NoDup hs →
  paced (t_trace t) → alternating (t_trace t) →
  (∀ cls, (expect (t_trace t)).1 = Some cls →
    cls = [(c0, SIZEOF_IPADDR); (c1, SIZEOF_IPADDR)] ∧ (expect (t_trace t)).2 = (idx =? 0)) →
  launch_last (t_trace t) = false → owned (t_trace t) ≡ₚ hs → (length (t_trace t) ≤ n)%nat →
  wanted (t_trace t) = attempted (t_trace t) ++ (if tc_equal E a null then [] else [a]) →
  last_now (t_trace t) = nw → plenty = true →
  (∀ c0 c1 t', at_head hs c0 c1 (t_trace t') → (length (t_trace t) ≤ length (t_trace t'))%nat →
    wp (go_on c0 c1) ended orderly t') →
  wp (use_address bndl ch null (close_all hs) go_on c0 c1 idx nw a) ended orderly t.
Proof using LE.
  intros Hnd Hp Ha Hex Hl Ho Hn Hw Hnow Hpl Hgo. unfold use_address. apply run_bind. cbn [he_equal T_env wp mret T_ret].
  destruct (tc_equal E a null) eqn:Hq.
  { apply Hgo; [|done]. rewrite app_nil_r in Hw. constructor; try done. by intros cls [? _]%Hex. }
  apply run_bind. cbn [he_bundle_go T_env]. apply run_bind, run_call.
  { split; [done|]. split; [done|]. exists [a]. split; [done|cbn; lia]. }
  intros r Hr Hn1. set (tr1 := t_trace t ++ _). cbn. apply run_bind, canceled_wp. cbn [t_errno].
  assert (Hp1 : paced tr1) by (by apply paced_snoc).
  assert (Ha1 : alternating tr1) by (by apply alternating_snoc).
  assert (Hw1 : wanted tr1 = attempted tr1).
  { unfold tr1. rewrite wanted_snoc, attempted_snoc, Hw. cbn. by rewrite app_nil_r. }
  assert (Ho1 : owned tr1 ≡ₚ hs) by (unfold tr1; rewrite owned_snoc; cbn; by rewrite app_nil_r).
  assert (Hor1 : orderly tr1) by (split; [done|split; [done|exists []; rewrite app_nil_r; split; [done|cbn; lia]]]).
  destruct Hr as [[Hr|[Hr He]]|[Hr _]]; [| |by rewrite Hr in Hpl].
  2: { rewrite Hr, He. cbn. apply cancel_wp; try done. cbn. unfold tr1. rewrite launch_last_snoc. cbn. by rewrite Hr. }
  rewrite Hr. cbn [Z.ltb Z.compare andb Z.eqb he_assert]. apply run_bind. cbn [wp mret T_ret].
  destruct (if idx =? 0 then (c1, c0) else (c0, c1)) as [c0' c1'] eqn:Ecs.
  assert (Hex1 : ∀ cls, (expect tr1).1 = Some cls → cls = [(c0', SIZEOF_IPADDR); (c1', SIZEOF_IPADDR)]).
  { intros cls. unfold tr1. rewrite expect_snoc. unfold expect_step. cbn [fst snd].
    destruct (expect (t_trace t)) as [[cls1|] b]; [|by destruct b]. destruct (Hex _ eq_refl) as [-> Hb]. cbn [fst snd] in *.
    rewrite Hb. destruct (idx =? 0); simplify_eq; by intros [= <-]. }
  apply run_bind. cbn [he_msleep T_env]. apply run_bind, run_call; [done|]. intros s Hs Hn2. cbn [t_trace] in *.
  set (tr2 := tr1 ++ _). cbn. apply run_bind, canceled_wp. cbn [t_errno].
  assert (Hh2 : at_head hs c0' c1' tr2).
  { constructor.
    - unfold tr2, tr1. rewrite <- Hnow. apply paced_sleep; [done| |done]. cbn. by rewrite Hr.
    - by apply alternating_snoc.
    - unfold tr2. by rewrite expect_snoc.
    - unfold tr2. by rewrite launch_last_snoc.
    - unfold tr2. rewrite wanted_snoc, attempted_snoc, Hw1. done.
    - unfold tr2. rewrite owned_snoc. cbn. by rewrite app_nil_r.
    - unfold tr2. rewrite length_app. cbn. lia. }
  destruct Hs as [Hs|[Hs He]]; rewrite Hs; [|rewrite He]; cbn.
  - apply run_bind. cbn. apply Hgo; [done|]. cbn. unfold tr2, tr1. rewrite !length_app. cbn. lia.
  - apply cancel_wp; [apply Hh2|done|apply Hh2|by eapply at_head_orderly].
Qed.

(** The rounds: every one makes at least one call. *)
Lemma coordinator_loop_wp hs bndl ch : NoDup hs → plenty = true → ∀ fuel c0 c1 t, at_head hs c0 c1 (t_trace t) →
  (n < fuel + length (t_trace t))%nat →
  wp (coordinator_loop fuel bndl ch null (close_all hs) c0 c1) ended orderly t.
Proof using LE.
  intros Hnd Hpl. induction fuel as [|fuel IH]; intros c0 c1 t Hh Hf.
  { pose proof (ah_length _ _ _ _ Hh). lia. }
  pose proof (at_head_orderly _ _ _ _ Hh) as Hor. cbn [coordinator_loop].
  apply run_bind. cbn [he_now T_env]. apply run_bind, run_call; [done|]. intros nw _ Hn1. cbn.
  assert (Hh1 : at_head hs c0 c1 (t_trace t ++ [(OpNow, nw)])).
  { rewrite <- (app_nil_r hs). by apply (at_head_snoc hs _ _ _ OpNow). }
  set (tr1 := t_trace t ++ [(OpNow, nw)]) in *. apply run_bind. cbn [he_choose T_env].
  apply run_bind, run_call; [by eapply at_head_orderly|]. intros r Hr Hn2. cbn [t_trace] in *. set (tr2 := tr1 ++ _). cbn.
  apply run_bind, canceled_wp. cbn [t_errno].
  assert (Hlen1 : length tr1 = S (length (t_trace t))) by (unfold tr1; rewrite length_app; cbn; lia).
  assert (Hlen : length tr2 = S (length tr1)) by (unfold tr2; rewrite length_app; cbn; lia).
  assert (Hp2 : paced tr2) by (apply paced_snoc; apply Hh1).
  assert (Ha2 : alternating tr2).
  { apply alternating_snoc; [apply Hh1|]. intros cls' Hc. by rewrite (ah_expect _ _ _ _ Hh1 cls' Hc). }
  assert (Hl2 : launch_last tr2 = false) by (unfold tr2; by rewrite launch_last_snoc).
  assert (Ho2 : owned tr2 ≡ₚ hs) by (unfold tr2; rewrite owned_snoc; cbn; rewrite app_nil_r; apply Hh1).
  destruct Hr as [[[Hr1 Hr2] He]|[Hr He]].
  - destruct (Z.ltb_spec (a_rc r) 0); [lia|]. cbn. apply run_bind. cbn. apply run_bind.
    rewrite He. rewrite (proj2 (Z.leb_le 0 (a_rc r))) by lia. cbn.
    apply use_address_wp; cbn [t_trace]; try done; [|lia| | |].
    + intros cls Hc. unfold tr2 in *. rewrite expect_snoc in Hc |- *. cbn in Hc |- *. by simplify_eq.
    + unfold tr2. rewrite wanted_snoc, attempted_snoc, (ah_addrs _ _ _ _ Hh1). cbn [received_by attempted_by fst snd].
      rewrite (proj2 (Z.leb_le 0 (a_rc r))) by lia. rewrite app_nil_r. f_equal.
      destruct (tc_equal E (a_bytes r) null) eqn:Hq; [by rewrite filter_cons_False by (by rewrite Hq)|by rewrite filter_cons_True].
    + unfold tr2, tr1. by rewrite !last_now_snoc.
    + intros c0' c1' t' Ht' Hl'. apply IH; [done|]. cbn [t_trace] in Hl'. lia.
  - rewrite Hr, He. cbn. apply cancel_wp; try done. cbn. split; [done|]. split; [done|]. exists [].
    unfold tr2. rewrite wanted_snoc, attempted_snoc, (ah_addrs _ _ _ _ Hh1). cbn. rewrite Hr. cbn. rewrite !app_nil_r. split; [done|cbn; lia].
Qed.

(** ** The coordinator *)

(** Before the first [dill_choose] nothing is expected of its clauses. *)
Definition starting (hs : list Z) (t : trun) : Prop := ∀ c0 c1, at_head hs c0 c1 (t_trace t).

Lemma starting_call {A} op (k : he_ans → T A) Q hs t : starting hs t → (∀ a, neutral (op, a)) →
  (∀ a, lawful plenty null (t_trace t) op a → starting (hs ++ opened (op, a)) (mk_trun (a_errno a) (t_trace t ++ [(op, a)])) →
    wp (k a) Q orderly (mk_trun (a_errno a) (t_trace t ++ [(op, a)]))) →
  wp (call op ≫= k) Q orderly t.
Proof using LE.
  intros Hs Hn Hk. apply run_bind, run_call; [by apply (at_head_orderly hs 0 0)|].
  intros a Ha Hlen. apply Hk; [done|]. intros c0 c1. by apply at_head_snoc.
Qed.

Lemma starting_cancel hs hs' t : starting hs t → hs ≡ₚ hs' → NoDup hs → wp (close_all hs') ended orderly t.
Proof using LE.
  intros Hs Hp Hnd. pose proof (Hs 0 0) as H. apply cancel_wp; [by rewrite <- Hp; apply H|by rewrite <- Hp|apply H|].
  by eapply at_head_orderly.
Qed.

Lemma starting_owned hs t : starting hs t → owned (t_trace t) ≡ₚ hs.
Proof. intros H. apply (H 0 0). Qed.

Lemma run_ret {A} (a : A) Q I t : Q a t → wp (mret a) Q I t.
Proof. done. Qed.
Lemma run_assert b Q I t : b = true → Q tt t → wp (he_assert b) Q I t.
Proof. by intros ->. Qed.

(** A blocking call of the coordinator after which it may be cancelled *)
Lemma starting_go {A} bndl name port mode ch (k : Z → T A) Q hs t : starting hs t → plenty = true →
  (∀ a, or_canceled a → starting hs (mk_trun (a_errno a) (t_trace t ++ [(OpBundleGo bndl (Dnsquery name port mode ch), a)])) →
    wp (k (a_rc a)) Q orderly (mk_trun (a_errno a) (t_trace t ++ [(OpBundleGo bndl (Dnsquery name port mode ch), a)]))) →
  wp (he_bundle_go bndl (Dnsquery name port mode ch) ≫= k) Q orderly t.
Proof using LE.
  intros Hs Hpl Hk. apply run_bind. eapply starting_call; [exact Hs|done|].
  intros a [Ha|[? _]] H1; [|congruence]. cbn in H1. rewrite app_nil_r in H1. by apply run_ret, Hk.
Qed.

Lemma or_canceled_cases a (P : Prop) : or_canceled a →
  (a_rc a = 0 → P) → (a_rc a = -1 → a_errno a = ECANCELED → P) → P.
Proof. intros [H|[H1 H2]]; auto. Qed.

Lemma starting_expect hs t : starting hs t → (expect (t_trace t)).1 = None.
Proof.
  intros H. destruct ((expect (t_trace t)).1) as [cls|] eqn:Hc; [|done].
  pose proof (ah_expect _ _ _ _ (H 0 0) cls Hc) as E1. pose proof (ah_expect _ _ _ _ (H 1 0) cls Hc) as E2. congruence.
Qed.

(** The first address, if it comes in time *)
Lemma first_address_wp fuel ch bndl v60 v40 hs hs' d t : (n < fuel)%nat → plenty = true →
  starting hs t → hs ≡ₚ hs' → NoDup hs → 
  wp ('(rc, a) ← he_chrecv v60 SIZEOF_IPADDR d;
      c ← canceled rc;
      if (c : bool) then close_all hs'
      else if rc =? 0 then
        nw ← he_now;
        use_address bndl ch null (close_all hs') (coordinator_loop fuel bndl ch null (close_all hs')) v60 v40 0 nw a
      else
        e ← he_errno;
        he_assert (bool_decide (e = ETIMEDOUT));;
        coordinator_loop fuel bndl ch null (close_all hs') v60 v40) ended orderly t.
Proof using LE.
  intros Hf Hpl H0 Hperm Hnd. pose proof (starting_expect _ _ H0) as Hex. pose proof (H0 v60 v40) as H.
  assert (Hnd' : NoDup hs') by (by rewrite <- Hperm).
  apply run_bind. cbn [he_chrecv T_env]. apply run_bind, run_call; [by eapply at_head_orderly|].
  intros a Ha Hlen. apply run_ret. set (tr := t_trace t ++ _). apply run_bind, canceled_wp.
  destruct Ha as [[R _]|[R He]].
  - rewrite R. cbn [Z.ltb Z.compare andb Z.eqb].
    assert (Hp : paced tr) by (apply paced_snoc; apply H).
    assert (Ha : alternating tr) by (apply alternating_snoc; [apply H|done]).
    assert (Hw : wanted tr = attempted tr ++ (if tc_equal E (a_bytes a) null then [] else [a_bytes a])).
    { unfold tr. rewrite wanted_snoc, attempted_snoc, (ah_addrs _ _ _ _ H). cbn [received_by attempted_by fst snd].
      rewrite R. cbn [Z.eqb]. rewrite app_nil_r. f_equal.
      destruct (tc_equal E (a_bytes a) null) eqn:Hq; [by rewrite filter_cons_False by (by rewrite Hq)|by rewrite filter_cons_True]. }
    assert (Ho : owned tr ≡ₚ hs') by (unfold tr; rewrite owned_snoc; cbn; rewrite app_nil_r, <- Hperm; apply H).
    apply run_bind. cbn [he_now T_env]. apply run_bind, run_call.
    { split; [done|]. split; [done|]. eexists. split; [exact Hw|]. by destruct (tc_equal E (a_bytes a) null); cbn; lia. }
    intros nw _ Hn2. apply run_ret. apply use_address_wp; cbn [t_trace]; try done.
    + apply paced_snoc; [done|]. unfold tr. by rewrite launch_last_snoc.
    + by apply alternating_snoc.
    + intros cls. unfold tr. rewrite !expect_snoc. cbn. by rewrite Hex.
    + by rewrite launch_last_snoc.
    + rewrite owned_snoc. cbn. by rewrite app_nil_r.
    + rewrite length_app. cbn in *. lia.
    + rewrite wanted_snoc, attempted_snoc, Hw. cbn. by rewrite !app_nil_r.
    + by rewrite last_now_snoc.
    + intros c0' c1' t' Ht' Hl'. by apply coordinator_loop_wp; [..|lia].
  - assert (Hs : at_head (hs ++ []) v60 v40 tr).
    { apply (at_head_snoc _ _ _ _ (OpRecv v60 SIZEOF_IPADDR d) a); [done| |done]. unfold neutral. cbn. by rewrite R. }
    rewrite app_nil_r in Hs. rewrite R. cbn [Z.ltb Z.compare t_errno andb Z.eqb].
    destruct He as [He|[_ He]]; rewrite He.
    + rewrite bool_decide_true by done. apply cancel_wp; [by rewrite <- Hperm; apply Hs|done|apply Hs|by eapply at_head_orderly].
    + rewrite bool_decide_false by done. apply run_bind. change (wp (he_errno)) with (wp (A := errno_t) he_errno).
      cbn [he_errno T_env wp]. apply run_bind, run_assert; [by apply bool_decide_true|].
      apply coordinator_loop_wp; [done|done| |cbn; lia]. destruct Hs. constructor; try done. by rewrite <- Hperm.
Qed.

Lemma coordinator_run_wp fuel name port ch bndl v60 v61 v40 v41 hs t : (n < fuel)%nat → plenty = true →
  starting hs t → hs ≡ₚ [bndl; v40; v41; v60; v61] → NoDup hs →
  wp (coordinator_run fuel name port ch null bndl v60 v61 v40 v41) ended orderly t.
Proof using LE.
  intros Hf Hpl H0 Hperm Hnd. unfold coordinator_run. set (cancel := close_all _).
  eapply starting_go; [exact H0|done|]. intros a1 Ha1 H1. apply run_bind, canceled_wp.
  apply (or_canceled_cases _ _ Ha1); intros R1; rewrite R1; [|intros E1; rewrite E1; by eapply starting_cancel].
  apply run_bind, run_assert; [done|].
  eapply starting_go; [exact H1|done|]. intros a2 Ha2 H2. apply run_bind, canceled_wp.
  apply (or_canceled_cases _ _ Ha2); intros R2; rewrite R2; [|intros E2; rewrite E2; by eapply starting_cancel].
  apply run_bind, run_assert; [done|].
  apply run_bind. eapply starting_call; [exact H2|done|]. intros a3 _ H3. cbn in H3. rewrite app_nil_r in H3. apply run_ret.
  by eapply first_address_wp.
Qed.

Lemma coordinator_wp fuel name port ch t : (n < fuel)%nat → plenty = true → starting [] t →
  wp (dill_happyeyeballs_coordinator fuel name port ch) ended orderly t.
Proof using LE.
  intros Hf Hpl H0. unfold dill_happyeyeballs_coordinator.
  apply run_bind. eapply starting_call; [exact H0|done|]. intros a0 [E0 E1] H1. apply run_ret.
  rewrite E0, E1. apply run_bind, run_assert; [done|].
  apply run_bind. eapply starting_call; [exact H1|done|]. intros a1 [(R1 & ND1 & F1 & F1')|[? _]] H2; [|congruence].
  apply run_ret. apply run_bind, run_assert; [by rewrite R1|].
  apply run_bind. eapply starting_call; [exact H2|done|]. intros a2 [(R2 & ND2 & F2 & F2')|[? _]] H3; [|congruence].
  rewrite (starting_owned _ _ H2) in F2, F2'. apply run_ret. apply run_bind, run_assert; [by rewrite R2|].
  apply run_bind. eapply starting_call; [exact H3|done|]. intros a3 [[R3 F3]|[? _]] H4; [|congruence].
  rewrite (starting_owned _ _ H3) in F3. apply run_ret. apply run_bind, run_assert; [by apply Z.leb_le|].
  unfold opened in *. cbn [fst snd] in *. rewrite R1, R2 in *. rewrite (proj2 (Z.leb_le _ _) R3) in H4.
  cbn [Z.eqb app] in *. eapply coordinator_run_wp; [done|done|exact H4| |].
  - etransitivity; [apply (Permutation_app_comm [a_h0 a1; a_h1 a1; a_h0 a2; a_h1 a2] [a_rc a3])|].
    apply (Permutation_skip (a_rc a3)), (Permutation_app_comm [a_h0 a1; a_h1 a1] [a_h0 a2; a_h1 a2]).
  - clear - ND1 ND2 F2 F2' F3. rewrite !NoDup_cons, !not_elem_of_cons in *. destruct_and?.
    repeat split; try (apply not_elem_of_nil || apply NoDup_nil_2); congruence.
Qed.

(** ** The queries *)

Definition sent_by (e : event) : list addr :=
  match e.1 with OpSend _ bs _ => if a_rc e.2 =? 0 then [bs] else [] | _ => [] end.
Definition sent (tr : list event) : list addr := tr ≫= sent_by.

(** The addresses that the resolver found *)
Definition resolved_by (e : event) : list addr :=
  match e.1 with OpRemotes _ _ _ _ => if 0 <? a_rc e.2 then a_addrs e.2 else [] | _ => [] end.
Definition resolved (tr : list event) : list addr := tr ≫= resolved_by.

Lemma sent_snoc tr e : sent (tr ++ [e]) = sent tr ++ sent_by e.
Proof. unfold sent. rewrite bind_app. cbn. by rewrite app_nil_r. Qed.
Lemma resolved_snoc tr e : resolved (tr ++ [e]) = resolved tr ++ resolved_by e.
Proof. unfold resolved. rewrite bind_app. cbn. by rewrite app_nil_r. Qed.

(** The last call was cancelled. *)
Definition cancelled_last (tr : list event) : Prop :=
  ∃ op a, last tr = Some (op, a) ∧ a_rc a = -1 ∧ a_errno a = ECANCELED.

(** What has been sent is a part of the addresses followed by the mark of the end. *)
Definition sending (tr : list event) : Prop := sent tr `prefix_of` resolved tr ++ [null].
Definition query_done (_ : unit) (t : trun) : Prop :=
  sent (t_trace t) = resolved (t_trace t) ++ [null] ∨ (sending (t_trace t) ∧ cancelled_last (t_trace t)).

(** Sending one more address *)
Lemma send_wp ch a l (Q : Z → trun → Prop) t : sent (t_trace t) ++ a :: l = resolved (t_trace t) ++ [null] →
  (∀ t', sent (t_trace t') ++ l = resolved (t_trace t') ++ [null] → Q 0 t') →
  (∀ t', t_errno t' = ECANCELED → sending (t_trace t') ∧ cancelled_last (t_trace t') → Q (-1) t') →
  wp (he_chsend ch a (-1)) Q sending t.
Proof using LE.
  intros Hs H0 H1. cbn [he_chsend T_env]. apply run_bind, run_call; [by exists (a :: l)|]. intros r Hr _. apply run_ret.
  assert (Hres : resolved (t_trace t ++ [(OpSend ch a (-1), r)]) = resolved (t_trace t)) by (rewrite resolved_snoc; apply app_nil_r).
  apply (or_canceled_cases _ _ Hr); intros R; rewrite R; [|intros He].
  - apply H0. cbn [t_trace]. rewrite Hres, sent_snoc. cbn. rewrite R. cbn. by rewrite <- app_assoc.
  - apply H1; [done|]. split.
    + unfold sending. cbn [t_trace]. rewrite Hres, sent_snoc. cbn. rewrite R. cbn. rewrite app_nil_r. by exists (a :: l).
    + exists (OpSend ch a (-1)), r. cbn [t_trace]. by rewrite last_snoc.
Qed.

Lemma send_addrs_wp ch l t : sent (t_trace t) ++ l ++ [null] = resolved (t_trace t) ++ [null] →
  wp (send_addrs ch l) (λ ok t, if ok then sent (t_trace t) ++ [null] = resolved (t_trace t) ++ [null]
                                else sending (t_trace t) ∧ cancelled_last (t_trace t)) sending t.
Proof using LE.
  revert t. induction l as [|a l IH]; intros t Hs; [done|]. cbn [send_addrs].
  apply run_bind. eapply send_wp; [exact Hs| |].
  - intros t' Hs'. apply run_bind, canceled_wp. apply run_bind, run_assert; [done|]. by apply IH.
  - intros t' He Hc. apply run_bind, canceled_wp. by rewrite He.
Qed.

Lemma dnsquery_wp name port mode ch t : t_trace t = [] →
  wp (dill_happyeyeballs_dnsquery name port mode ch) query_done sending t.
Proof using LE.
  intros H0. unfold dill_happyeyeballs_dnsquery. apply run_bind. cbn [he_remotes T_env].
  apply run_bind, run_call; [by rewrite H0; exists [null]|]. intros r [_ Hr] _. apply run_ret. rewrite H0 in *. cbn [app].
  set (t1 := mk_trun _ _). apply run_bind.
  assert (Hres : resolved (t_trace t1) = if 0 <? a_rc r then a_addrs r else []) by (cbn; apply app_nil_r).
  apply (run_mono (A := bool) _ (λ ok t, if ok then sent (t_trace t) ++ [null] = resolved (t_trace t) ++ [null]
                                 else sending (t_trace t) ∧ cancelled_last (t_trace t))).
  { revert Hres. destruct (Z.ltb_spec 0 (a_rc r)) as [Hp|Hp]; intros Hres; [|apply run_ret; by rewrite Hres].
    apply send_addrs_wp. rewrite Hres, take_ge by (rewrite <- (Hr Hp); lia). done. }
  intros ok t2 H2. destruct ok; [|by right]. cbn [negb]. apply run_bind. cbn [he_nulladdr T_env].
  apply run_bind, run_call; [by exists [null]|]. intros a [Ra ->] _. apply run_ret. apply run_bind, run_assert; [by rewrite Ra|].
  apply run_bind. apply (send_wp _ _ []).
  - cbn [t_trace]. rewrite sent_snoc, resolved_snoc. cbn. by rewrite !app_nil_r.
  - intros t' Hs'. rewrite app_nil_r in Hs'. by left.
  - intros t' He Hc. cbn [Z.eqb]. apply run_bind. cbn [he_errno T_env wp]. apply run_assert; [by apply bool_decide_true|by right].
Qed.

(** ** Attempts and connecting *)

(** A connection is handed over to the caller of [dill_happyeyeballs_connect], or closed. *)
Definition attempt_done (ch : Z) (_ : unit) (t : trun) : Prop :=
  owned (t_trace t) = [] ∨
  ∃ conn s, owned (t_trace t) = [conn] ∧ last (t_trace t) = Some (OpSend ch (int_bytes conn) (-1), s) ∧ a_rc s = 0.

Lemma attempt_wp a ch t : t_trace t = [] → wp (dill_happyeyeballs_attempt a ch) (attempt_done ch) (λ _, True) t.
Proof using LE.
  intros H0. unfold dill_happyeyeballs_attempt. apply run_bind. cbn [he_tcp_connect T_env].
  apply run_bind, run_call; [done|]. intros r Hr _. apply run_ret. rewrite H0 in *. cbn [app].
  destruct (Z.ltb_spec (a_rc r) 0) as [Hn|Hn].
  { apply run_ret. left. cbn. unfold opened. cbn [fst snd]. by rewrite (proj2 (Z.leb_gt 0 (a_rc r))) by lia. }
  assert (Ho : owned [(OpConnect a (-1), r)] = [a_rc r]).
  { cbn. unfold opened. cbn [fst snd]. by rewrite (proj2 (Z.leb_le 0 (a_rc r))) by lia. }
  apply run_bind. cbn [he_chsend T_env]. apply run_bind, run_call; [done|]. intros s Hs _. apply run_ret. cbn [t_trace].
  set (tr := _ ++ _). assert (Ho' : owned tr = [a_rc r]) by (unfold tr; by rewrite owned_snoc, Ho).
  apply run_bind, canceled_wp. apply (or_canceled_cases _ _ Hs); intros R; rewrite R; [|intros He; rewrite He].
  - apply run_assert; [done|]. right. exists (a_rc r), s. done.
  - apply run_bind. cbn [he_hclose T_env]. apply run_bind, run_call; [done|]. intros c Hc _. apply run_ret.
    cbn [lawful t_trace] in Hc. rewrite Hc by (rewrite Ho'; left). apply run_assert; [done|]. left. cbn [t_trace].
    rewrite owned_snoc, Ho'. cbn [owned_step fst]. by rewrite filter_cons_False by auto.
Qed.

(** The call that failed, or the connection that was received *)
Definition connect_done (name port deadline res : Z) (t : trun) : Prop :=
  owned (t_trace t) = [] ∧
  (((name = NULL ∨ port ≤ 0) ∧ res = -1 ∧ t_errno t = EINVAL ∧ t_trace t = []) ∨
   (∃ op a, (op, a) ∈ t_trace t ∧ a_rc a = -1 ∧ res = -1 ∧ t_errno t = a_errno a) ∨
   (∃ ch0 a, (OpRecv ch0 SIZEOF_INT deadline, a) ∈ t_trace t ∧ a_rc a = 0 ∧ res = int_of (a_bytes a) ∧ t_errno t = E0)).

(** The last steps: closing what is open, and setting [errno] *)
Lemma exit_wp hs res err tr (Q : Z → trun → Prop) t : owned (t_trace t) ≡ₚ hs → NoDup hs → tr `prefix_of` t_trace t →
  (∀ t', owned (t_trace t') = [] → tr `prefix_of` t_trace t' → t_errno t' = err → Q res t') →
  wp (close_all hs;; he_set_errno err;; mret res) Q (λ _, True) t.
Proof using LE.
  intros Ho Hnd Hp HQ. apply run_bind. apply (close_all_wp (λ tr', tr `prefix_of` tr') hs); [done..| |done|].
  - intros tr' h a Hp'. by apply prefix_app_r.
  - intros t' Ho' Hp'. by apply HQ.
Qed.

Lemma close_one {A} h hs (k : T A) Q I t : wp (close_all (h :: hs);; k) Q I t → wp (close_all [h];; close_all hs;; k) Q I t.
Proof.
  unfold wp. cbn [close_all he_hclose T_env]. unfold mbind, T_bind, he_assert, mret, T_ret.
  destruct (call (OpHclose h) t) as [a t'| |tr]; [|done..]. by destruct (a_rc a =? 0).
Qed.

(** Receiving the connection *)
Lemma connect_recv_wp name port deadline ch0 ch1 coord t : owned (t_trace t) ≡ₚ [coord; ch0; ch1] → NoDup [coord; ch0; ch1] →
  wp ('(rc, bs) ← he_chrecv ch0 SIZEOF_INT deadline;
      '(res, err) ← (if rc <? 0 then err ← he_errno; mret (-1, err) else mret (int_of bs, E0));
      close_all [coord];; close_all [ch0; ch1];; he_set_errno err;; mret res)
    (connect_done name port deadline) (λ _, True) t.
Proof using LE.
  intros Ho Hnd. apply run_bind. cbn [he_chrecv T_env]. apply run_bind, run_call; [done|]. intros a Ha _. apply run_ret.
  set (tr := t_trace t ++ _). assert (Ho' : owned tr ≡ₚ [coord; ch0; ch1]) by (unfold tr; rewrite owned_snoc; cbn; by rewrite app_nil_r).
  assert (Hin : (OpRecv ch0 SIZEOF_INT deadline, a) ∈ tr) by (apply elem_of_app; right; left).
  assert (Hsub : ∀ tr', tr `prefix_of` tr' → (OpRecv ch0 SIZEOF_INT deadline, a) ∈ tr').
  { intros tr' [k ->]. apply elem_of_app. by left. }
  assert (Hclose : ∀ res err t', t_trace t' = tr →
    (∀ t', owned (t_trace t') = [] → tr `prefix_of` t_trace t' → t_errno t' = err → connect_done name port deadline res t') →
    wp (close_all [coord];; close_all [ch0; ch1];; he_set_errno err;; mret res) (connect_done name port deadline) (λ _, True) t').
  { intros res err t' Et HQ. apply close_one.
    apply (exit_wp [coord; ch0; ch1] res err tr); rewrite ?Et; done. }
  apply run_bind. destruct Ha as [[R _]|[R _]]; rewrite R; cbn [Z.ltb Z.compare].
  - apply run_ret. apply Hclose; [done|]. intros t' H1 H2 H3. split; [done|]. right. right. exists ch0, a. auto.
  - apply run_bind. cbn [he_errno T_env wp]. apply run_ret. apply Hclose; [done|].
    intros t' H1 H2 H3. split; [done|]. right. left. eexists _, a. split; [by apply Hsub|]. done.
Qed.

Lemma connect_wp name port deadline t : t_trace t = [] →
  wp (dill_happyeyeballs_connect name port deadline) (connect_done name port deadline) (λ _, True) t.
Proof using LE.
  intros H0. unfold dill_happyeyeballs_connect.
  destruct ((name =? NULL) || (port <=? 0)) eqn:Ha.
  { cbn. split; [by rewrite H0|]. left. split; [|by rewrite H0]. unfold NULL in *. lia. }
  apply run_bind. cbn [he_chmake T_env]. apply run_bind, run_call; [done|]. intros r Hr _. apply run_ret. rewrite H0 in *. cbn [app].
  destruct Hr as [(R & ND & _ & _)|[_ R]]; rewrite R.
  2: { cbn. split; [by unfold opened; cbn; rewrite R|]. right. left. exists OpChmake, r. split; [left|done]. }
  cbn [Z.ltb Z.compare]. apply run_bind. cbn [he_go T_env]. apply run_bind, run_call; [done|]. intros g Hg _. apply run_ret.
  cbn [t_trace]. set (tr1 := [(OpChmake, r)]) in *. set (tr2 := tr1 ++ _).
  assert (Ho1 : owned tr1 = [a_h0 r; a_h1 r]) by (cbn; unfold opened; cbn; by rewrite R).
  destruct Hg as [[Rg Fg]|Rg]; [rewrite (proj2 (Z.ltb_ge (a_rc g) 0)) by lia|rewrite Rg; cbn [Z.ltb Z.compare]].
  - cbn [t_trace] in Fg. rewrite Ho1 in Fg.
    assert (Ho2 : owned tr2 = [a_h0 r; a_h1 r; a_rc g]).
    { unfold tr2. rewrite owned_snoc, Ho1. cbn. unfold opened. cbn [fst snd]. by rewrite (proj2 (Z.leb_le 0 (a_rc g))) by lia. }
    apply connect_recv_wp; cbn [t_trace]; [rewrite Ho2; apply (Permutation_app_comm [_; _] [_])|]. by apply NoDup_cons.
  - assert (Ho2 : owned tr2 = [a_h0 r; a_h1 r]) by (unfold tr2; rewrite owned_snoc, Ho1; cbn; unfold opened; cbn; by rewrite Rg).
    apply run_bind. cbn [he_errno T_env wp]. apply (exit_wp [a_h0 r; a_h1 r] _ _ tr2); cbn [t_trace t_errno]; [by rewrite Ho2|done|done|].
    intros t' H1 [k H2] H3. split; [done|]. right. left. eexists _, g. split; [rewrite H2, elem_of_app; left; apply elem_of_app; right; left|done].
Qed.

End Trace.

(** C20. The coordinator, in any environment that answers its calls as promised and has memory
    for the coroutines it launches: no assertion fails; it makes an attempt for exactly the
    addresses it receives, in their order, the marks of the end left out; after an attempt for
    an address of the preferred channel it prefers the other channel; and when it is cancelled,
    wherever that happens, it ends and has closed every handle that it opened.  After each
    attempt it calls [dill_msleep] with the time it last read plus 300 ms.  That is not a pause
    of 300 ms: the time is read before [dill_choose] waits for the address, so that after a
    longer wait the next attempt follows at once ([HappyEyeballs.attempts_back_to_back]), where
    happyeyeballs_connect(3) lets 300 ms pass between attempts. *)
Theorem coordinator_attempts E null n fuel name port ch e : lawful_env E true null n → (n < fuel)%nat →
  match @dill_happyeyeballs_coordinator T _ _ (T_env E) fuel name port ch (mk_trun e []) with
  | TDone _ t => owned (t_trace t) = [] ∧ orderly E null (t_trace t)
  | TCrash => False
  | TStop tr => orderly E null tr
  end.
Proof.
  intros LE Hf. apply (coordinator_wp E true null n LE); [done|done|].
  intros c0 c1. constructor; [by intros []|by intros []|done..|cbn; lia].
Qed.

(** C21. The other functions of the file, in any environment that answers their calls as promised,
    memory exhausted or not: a query sends exactly the addresses that the resolver found and
    then 0.0.0.0, up to where it is cancelled; an attempt closes its connection unless the
    connection has been handed over; [dill_happyeyeballs_connect] closes every handle that it
    opened, and returns the connection that it received, or -1 with the [errno] of the call
    that failed. *)
Theorem happyeyeballs_hands_over E plenty null n e : lawful_env E plenty null n →
  (∀ name port mode ch, wp (@dill_happyeyeballs_dnsquery T _ _ (T_env E) name port mode ch)
    (query_done null) (sending null) (mk_trun e [])) ∧
  (∀ a ch, wp (@dill_happyeyeballs_attempt T _ _ (T_env E) a ch) (attempt_done ch) (λ _, True) (mk_trun e [])) ∧
  (∀ name port deadline, wp (@dill_happyeyeballs_connect T _ _ (T_env E) name port deadline)
    (connect_done name port deadline) (λ _, True) (mk_trun e [])).
Proof.
  intros LE. split; [|split]; intros; [by eapply dnsquery_wp|by eapply attempt_wp|by eapply connect_wp].
Qed.

(** * A concrete environment *)

(** Handles are numbered upwards; the time advances with the calls, and the coroutine is
    cancelled after [n - 10] of them. *)
Definition fresh_handle (tr : list event) : Z := 1 + foldr Z.max 0 (owned tr).
Definition demo_env (n : nat) : env_t := λ tr op,
  let ans rc bs := mk_ans rc (fresh_handle tr) (1 + fresh_handle tr) E0 bs [] in
  let cancelled := mk_ans (-1) (-1) (-1) ECANCELED [] [] in
  if (n <=? length tr)%nat then None
  else Some (
    match op with
    | OpNow => ans (100 * Z.of_nat (length tr)) []
    | OpNulladdr => ans 0 demo_null
    | OpRemotes k _ _ _ => ans (Z.min 0 k) []
    | OpChmake | OpHclose _ => ans 0 []
    | OpConnect _ _ => mk_ans (-1) 0 0 (EOTHER 111) [] []
    | OpBundleMem | OpGo _ => ans (fresh_handle tr) []
    | OpRecv _ len _ => if 0 <=? len then ans 0 (repeat 9 (Z.to_nat len)) else cancelled
    | OpChoose cls _ =>
      if (n - 10 <=? length tr)%nat then cancelled
      else if (length cls <=? 1)%nat then cancelled else ans (Z.of_nat (length tr mod 2)) (demo_addr (Z.of_nat (length tr)))
    | OpSend _ _ _ | OpMsleep _ | OpBundleGo _ _ => if (n - 10 <=? length tr)%nat then cancelled else ans 0 []
    end).

Definition demo_T (n : nat) : T_context := mk_T_context (demo_env n) (λ a b, bool_decide (a = b)).

Lemma fresh_handle_new tr k : 0 ≤ k → k + fresh_handle tr ∉ owned tr.
Proof.
  intros Hk Hin. assert (Hle : ∀ l h, h ∈ l → h ≤ foldr Z.max 0 l).
  { intros l h. induction l as [|x l IH]; [by intros ?%elem_of_nil|].
    intros [->|H]%elem_of_cons; cbn; [lia|]. specialize (IH H). lia. }
  apply Hle in Hin. unfold fresh_handle in Hin. lia.
Qed.

Lemma fresh_handle_pos tr : 0 ≤ fresh_handle tr.
Proof. unfold fresh_handle. induction (owned tr); cbn in *; lia. Qed.

Lemma demo_lawful n : lawful_env (demo_T n) true demo_null n.
Proof.
  constructor; intros tr op a; cbn [demo_T tc_env]; unfold demo_env.
  2: { destruct (Nat.leb_spec n (length tr)); [done|]. by intros _. }
  destruct (n <=? length tr)%nat; [done|]. intros [= <-].
  pose proof (fresh_handle_pos tr) as Hp. pose proof (fresh_handle_new tr 0 ltac:(lia)) as H0.
  pose proof (fresh_handle_new tr 1 ltac:(lia)) as H1. rewrite Z.add_0_l in H0.
  destruct op; cbn [lawful]; try done.
  - cbn. split; lia.
  - by right.
  - left. split; [done|]. split; [|by split]. cbn. apply NoDup_cons. split; [|apply NoDup_singleton].
    intros H%list_elem_of_singleton. lia.
  - destruct (n - 10 <=? length tr)%nat; [by right|by left].
  - destruct (Z.leb_spec 0 len); cbn; [left|right; split; [done|by left]]. split; [done|]. rewrite List.repeat_length. lia.
  - destruct (n - 10 <=? length tr)%nat; [by right|]. destruct (Nat.leb_spec (length cls) 1); [by right|].
    left. cbn. split; [|done]. pose proof (Nat.mod_upper_bound (length tr) 2). lia.
  - destruct (n - 10 <=? length tr)%nat; [by right|by left].
  - by left.
  - left. destruct (n - 10 <=? length tr)%nat; [by right|by left].
  - by left.
Qed.

Lemma coordinator_attempts_witness :
  match @dill_happyeyeballs_coordinator T _ _ (T_env (demo_T 40)) 41 1 80 7 (mk_trun E0 []) with
  | TDone _ t => owned (t_trace t) = [] ∧ orderly (demo_T 40) demo_null (t_trace t)
  | TCrash => False
  | TStop tr => orderly (demo_T 40) demo_null tr
  end.
Proof. apply (coordinator_attempts (demo_T 40) demo_null 40 41 1 80 7 E0 (demo_lawful 40)). lia. Defined.

(** It makes six attempts before it is cancelled. *)
Example coordinator_demo :
  match @dill_happyeyeballs_coordinator T _ _ (T_env (demo_T 40)) 41 1 80 7 (mk_trun E0 []) with
  | TDone _ t => length (attempted (t_trace t)) = 6%nat
  | _ => False
  end.
Proof. vm_compute. reflexivity. Qed.

Lemma happyeyeballs_hands_over_witness :
  wp (@dill_happyeyeballs_connect T _ _ (T_env (demo_T 40)) 1 80 500) (connect_done 1 80 500) (λ _, True) (mk_trun E0 []).
Proof. apply (happyeyeballs_hands_over (demo_T 40) true demo_null 40 E0 (demo_lawful 40)). Defined.
