(* ===== verification/Sock.v ===== *)
(** Sockets: the interface of bytestream and message sockets ([bsock.c], [msock.c]),
    the objects of the protocols, and the memory their functions run in.

    A function of a protocol is a computation in the state monad [IO]: from a state
    it has a result, or none (undefined behaviour, or a failed [dill_assert]).  The
    sockets of the operating system and their data are the parameter [N], accessed
    through the class [Net]. *)

From Stdlib Require Import ZArith Lia.
From stdpp Require Import base gmap list.
From S2P Require Import Prelude Handle Iol.
Open Scope Z_scope.

(** * The objects of the protocols, by address *)

Record dill_prefix_sock := mk_prefix {
  px_u : Z;
  hdrlen : Z;
  bigendian : bool;
  px_inerr : bool;
  px_outerr : bool;
  px_mem : bool;
}.

(** [buf] and [suffix] are arrays of 32 bytes inside the object. *)
Record dill_suffix_sock := mk_suffix {
  sx_u : Z;
  sx_uvfs : ptr;
  suffixlen : Z;
  sx_inerr : bool;
  sx_outerr : bool;
  sx_mem : bool;
}.
Definition sx_buf (p : ptr) : ptr := p + 40.
Definition sx_suffix (p : ptr) : ptr := p + 72.

Record dill_term_sock := mk_term {
  tm_u : Z;
  tm_len : Z;
  tm_indone : bool;
  tm_outdone : bool;
  tm_mem : bool;
}.
Definition tm_buf (p : ptr) : ptr := p + 48.

(** The storage of the SUFFIX and TERM sockets, and [rxbuf], are inside the object. *)
Record dill_http_sock := mk_http { ht_u : Z; ht_mem : bool }.
Definition ht_suffix_mem (p : ptr) : ptr := p + 24.
Definition ht_term_mem (p : ptr) : ptr := p + 152.
Definition ht_rxbuf (p : ptr) : ptr := p + 240.
Definition RXBUF : Z := 1024.

(** [status] is kept in the memory of the object, as [msg]: frames are received
    into both. *)
Record dill_ws_sock := mk_ws {
  ws_u : Z;
  ws_flags : Z;
  ws_indone : bool;
  ws_outdone : bool;
  ws_server : bool;
  ws_mem : bool;
  ws_msglen : Z;
}.
Definition ws_status (p : ptr) : ptr := p + 44.
Definition ws_msg (p : ptr) : ptr := p + 47.

(** What a handle refers to: a socket of the operating system, or a protocol. *)
Inductive sobj := ONet (n : Z) | OPrefix (p : ptr) | OSuffix (p : ptr) | OTerm (p : ptr) | OHttp (p : ptr)
  | OWs (p : ptr).

(** * The state *)

(** [errno]; the iolists and the bytes of memory; the next fresh address and the
    number of allocations that still succeed; the handles and the blocking flags of
    the coroutine; the protocol objects; the sockets of the system. *)
Record io (N : Type) := mk_io {
  io_errno : errno_t;
  io_nodes : gmap Z iolist;
  io_mem : gmap Z Z;
  io_next : Z;
  io_budget : nat;
  io_handles : dill_ctx_handle sobj;
  io_nb1 : bool;
  io_nb2 : bool;
  io_prefixes : gmap Z dill_prefix_sock;
  io_suffixes : gmap Z dill_suffix_sock;
  io_terms : gmap Z dill_term_sock;
  io_https : gmap Z dill_http_sock;
  io_wss : gmap Z dill_ws_sock;
  io_net : N;
}.
Arguments io_errno {N}.
Arguments io_nodes {N}.
Arguments io_mem {N}.
Arguments io_next {N}.
Arguments io_budget {N}.
Arguments io_handles {N}.
Arguments io_nb1 {N}.
Arguments io_nb2 {N}.
Arguments io_prefixes {N}.
Arguments io_suffixes {N}.
Arguments io_terms {N}.
Arguments io_https {N}.
Arguments io_wss {N}.
Arguments io_net {N}.
Arguments mk_io {N}.

Definition set_io_errno {N} (v : errno_t) (s : io N) : io N :=
  mk_io v (io_nodes s) (io_mem s) (io_next s) (io_budget s) (io_handles s) (io_nb1 s) (io_nb2 s)
    (io_prefixes s) (io_suffixes s) (io_terms s) (io_https s) (io_wss s) (io_net s).
Definition set_io_nodes {N} (v : gmap Z iolist) (s : io N) : io N :=
  mk_io (io_errno s) v (io_mem s) (io_next s) (io_budget s) (io_handles s) (io_nb1 s) (io_nb2 s)
    (io_prefixes s) (io_suffixes s) (io_terms s) (io_https s) (io_wss s) (io_net s).
Definition set_io_mem {N} (v : gmap Z Z) (s : io N) : io N :=
  mk_io (io_errno s) (io_nodes s) v (io_next s) (io_budget s) (io_handles s) (io_nb1 s) (io_nb2 s)
    (io_prefixes s) (io_suffixes s) (io_terms s) (io_https s) (io_wss s) (io_net s).
Definition set_io_next {N} (v : Z) (s : io N) : io N :=
  mk_io (io_errno s) (io_nodes s) (io_mem s) v (io_budget s) (io_handles s) (io_nb1 s) (io_nb2 s)
    (io_prefixes s) (io_suffixes s) (io_terms s) (io_https s) (io_wss s) (io_net s).
Definition set_io_budget {N} (v : nat) (s : io N) : io N :=
  mk_io (io_errno s) (io_nodes s) (io_mem s) (io_next s) v (io_handles s) (io_nb1 s) (io_nb2 s)
    (io_prefixes s) (io_suffixes s) (io_terms s) (io_https s) (io_wss s) (io_net s).
Definition set_io_handles {N} (v : dill_ctx_handle sobj) (s : io N) : io N :=
  mk_io (io_errno s) (io_nodes s) (io_mem s) (io_next s) (io_budget s) v (io_nb1 s) (io_nb2 s)
    (io_prefixes s) (io_suffixes s) (io_terms s) (io_https s) (io_wss s) (io_net s).
Definition set_io_nb1 {N} (v : bool) (s : io N) : io N :=
  mk_io (io_errno s) (io_nodes s) (io_mem s) (io_next s) (io_budget s) (io_handles s) v (io_nb2 s)
    (io_prefixes s) (io_suffixes s) (io_terms s) (io_https s) (io_wss s) (io_net s).
Definition set_io_nb2 {N} (v : bool) (s : io N) : io N :=
  mk_io (io_errno s) (io_nodes s) (io_mem s) (io_next s) (io_budget s) (io_handles s) (io_nb1 s) v
    (io_prefixes s) (io_suffixes s) (io_terms s) (io_https s) (io_wss s) (io_net s).
Definition set_io_prefixes {N} (v : gmap Z dill_prefix_sock) (s : io N) : io N :=
  mk_io (io_errno s) (io_nodes s) (io_mem s) (io_next s) (io_budget s) (io_handles s) (io_nb1 s)
    (io_nb2 s) v (io_suffixes s) (io_terms s) (io_https s) (io_wss s) (io_net s).
Definition set_io_suffixes {N} (v : gmap Z dill_suffix_sock) (s : io N) : io N :=
  mk_io (io_errno s) (io_nodes s) (io_mem s) (io_next s) (io_budget s) (io_handles s) (io_nb1 s)
    (io_nb2 s) (io_prefixes s) v (io_terms s) (io_https s) (io_wss s) (io_net s).
Definition set_io_terms {N} (v : gmap Z dill_term_sock) (s : io N) : io N :=
  mk_io (io_errno s) (io_nodes s) (io_mem s) (io_next s) (io_budget s) (io_handles s) (io_nb1 s)
    (io_nb2 s) (io_prefixes s) (io_suffixes s) v (io_https s) (io_wss s) (io_net s).
Definition set_io_https {N} (v : gmap Z dill_http_sock) (s : io N) : io N :=
  mk_io (io_errno s) (io_nodes s) (io_mem s) (io_next s) (io_budget s) (io_handles s) (io_nb1 s)
    (io_nb2 s) (io_prefixes s) (io_suffixes s) (io_terms s) v (io_wss s) (io_net s).
Definition set_io_wss {N} (v : gmap Z dill_ws_sock) (s : io N) : io N :=
  mk_io (io_errno s) (io_nodes s) (io_mem s) (io_next s) (io_budget s) (io_handles s) (io_nb1 s)
    (io_nb2 s) (io_prefixes s) (io_suffixes s) (io_terms s) (io_https s) v (io_net s).
Definition set_io_net {N} (v : N) (s : io N) : io N :=
  mk_io (io_errno s) (io_nodes s) (io_mem s) (io_next s) (io_budget s) (io_handles s) (io_nb1 s)
    (io_nb2 s) (io_prefixes s) (io_suffixes s) (io_terms s) (io_https s) (io_wss s) v.

Definition IO (N A : Type) : Type := io N → option (A * io N).
#[export] Instance IO_ret N : MRet (IO N) := λ A a s, Some (a, s).
#[export] Instance IO_bind N : MBind (IO N) :=
  λ A B k m s, match m s with Some (a, s) => k a s | None => None end.

Lemma IO_bind_done {N A B} (m : IO N A) (k : A → IO N B) s a s' :
  m s = Some (a, s') → (m ≫= k) s = k a s'.
Proof. intros E. unfold mbind, IO_bind. by rewrite E. Qed.

Section Basic.
Context {N : Type}.

Definition crash {A} : IO N A := λ _, None.
Definition gets {A} (f : io N → A) : IO N A := λ s, Some (f s, s).
Definition modify (f : io N → io N) : IO N unit := λ s, Some (tt, f s).
Definition assert_ (b : bool) : IO N unit := if b then mret tt else crash.
Definition set_errno (e : errno_t) : IO N unit := modify (set_io_errno e).
Definition fail (e : errno_t) : IO N Z := set_errno e;; mret (-1).
Definition get_errno : IO N errno_t := gets io_errno.

(** A partial function of the nodes; an operation on the bytes. *)
Definition read_nodes {A} (f : gmap Z iolist → option A) : IO N A := λ s,
  match f (io_nodes s) with Some a => Some (a, s) | None => None end.
Definition on_mem {A} (f : gmap Z iolist → gmap Z Z → option (A * gmap Z Z)) : IO N A := λ s,
  match f (io_nodes s) (io_mem s) with Some (a, m) => Some (a, set_io_mem m s) | None => None end.
Definition get_node (p : ptr) : IO N iolist := λ s, n ← io_nodes s !! p; Some (n, s).
Definition put_node (p : ptr) (n : iolist) : IO N unit := modify (λ s, set_io_nodes (<[p := n]> (io_nodes s)) s).

Definition load (p : ptr) (n : Z) : IO N (list Z) := λ s,
  bs ← load_bytes p (Z.to_nat n) (io_mem s); Some (bs, s).
Definition store (p : ptr) (bs : list Z) : IO N unit := λ s,
  m ← store_bytes p bs (io_mem s); Some (tt, set_io_mem m s).

(** ** Storage *)

Definition zeros (a n : Z) : gmap Z Z := list_to_map ((λ i, (i, 0)) <$> seqZ a n).

(** A local array of [n] bytes, during [k]: its contents are unspecified at first. *)
Definition with_buf {A} (n : Z) (k : ptr → IO N A) : IO N A := λ s,
  let a := io_next s in
  '(r, s) ← k a (set_io_mem (zeros a n ∪ io_mem s) (set_io_next (a + Z.max n 1) s));
  Some (r, set_io_mem (filter (λ p, ¬ (a ≤ p.1 < a + n)) (io_mem s)) s).

(** A local [struct iolist], during [k]. *)
Definition with_iol {A} (n : iolist) (k : ptr → IO N A) : IO N A := λ s,
  let a := io_next s in
  '(r, s) ← k a (set_io_nodes (<[a := n]> (io_nodes s)) (set_io_next (a + 1) s));
  Some (r, set_io_nodes (delete a (io_nodes s)) s).

(** [malloc(n)]; [free] *)
Definition malloc (n : Z) : IO N (option ptr) := λ s,
  match io_budget s with
  | O => Some (None, s)
  | S b => let a := io_next s in
    Some (Some a, set_io_budget b (set_io_mem (zeros a n ∪ io_mem s) (set_io_next (a + Z.max n 1) s)))
  end.
Definition free (a n : Z) : IO N unit :=
  modify (λ s, set_io_mem (filter (λ p, ¬ (a ≤ p.1 < a + n)) (io_mem s)) s).
End Basic.

(** * The sockets of the operating system *)

(** A socket object [n] is a bytestream or a message socket; its operations take
    lists of buffers. *)
Class Net (N : Type) := {
  net_bytestream : Z → bool;
  net_sendl : Z → ptr → ptr → Z → IO N Z;
  net_recvl : Z → ptr → ptr → Z → IO N Z;
  net_close : Z → IO N unit;
  (** [dill_random]: that many random bytes, or -1 *)
  net_random : Z → IO N (option (list Z));
}.

(** The type tags. *)
Definition dill_bsock_type : ptr := 11.
Definition dill_msock_type : ptr := 12.
Definition dill_prefix_type : ptr := 13.
Definition dill_suffix_type : ptr := 14.
Definition dill_term_type : ptr := 15.
Definition dill_http_type : ptr := 16.
Definition dill_ws_type : ptr := 17.

Section Sockets.
Context {N : Type} `{NetN : Net N}.

(** The query functions; [dill_cont] recovers the object from its inner table, so
    both are the address of the object here.  [NULL] comes with [ENOTSUP]. *)
Definition dill_prefix_hquery (p ty : ptr) : ptr :=
  if ty =? dill_msock_type then p else if ty =? dill_prefix_type then p else NULL.
Definition dill_suffix_hquery (p ty : ptr) : ptr :=
  if ty =? dill_msock_type then p else if ty =? dill_suffix_type then p else NULL.
Definition dill_term_hquery (p ty : ptr) : ptr :=
  if ty =? dill_msock_type then p else if ty =? dill_term_type then p else NULL.
Definition dill_http_hquery (p ty : ptr) : ptr :=
  if ty =? dill_http_type then p else NULL.
Definition dill_ws_hquery (p ty : ptr) : ptr :=
  if ty =? dill_msock_type then p else if ty =? dill_ws_type then p else NULL.

Definition sobj_query (v : sobj) (ty : ptr) : ptr :=
  match v with
  | ONet n => if ty =? (if net_bytestream n then dill_bsock_type else dill_msock_type) then n else NULL
  | OPrefix p => dill_prefix_hquery p ty
  | OSuffix p => dill_suffix_hquery p ty
  | OTerm p => dill_term_hquery p ty
  | OHttp p => dill_http_hquery p ty
  | OWs p => dill_ws_hquery p ty
  end.

#[export] Instance io_env (close : sobj → IO N unit) : HandleEnv sobj (IO N) := {|
  h_get := gets io_handles;
  h_put := λ c, modify (set_io_handles c);
  h_errno := λ e, modify (set_io_errno e);
  h_canblock := λ s, if io_nb1 s || io_nb2 s then Some (-1, set_io_errno ECANCELED s) else Some (0, s);
  h_no_blocking := λ b s, Some (io_nb2 s, set_io_nb2 b s);
  h_realloc := λ _ s, match io_budget s with
    | O => Some (false, s)
    | S n => Some (true, set_io_budget n s)
    end;
  h_has_methods := λ _, true;
  h_query := λ v ty,
    if sobj_query v ty =? NULL then modify (set_io_errno ENOTSUP);; mret NULL else mret (sobj_query v ty);
  h_close := close;
  h_crash := λ A, crash;
|}.

(** The operations on a table pointer of a message socket: the protocols', through
    [proto], or the system's. *)
Record msock_vfs := mk_msock {
  m_sendl : ptr → ptr → ptr → Z → IO N Z;
  m_recvl : ptr → ptr → ptr → Z → IO N Z;
}.

Context (close : sobj → IO N unit) (proto : msock_vfs).
Local Instance env_ : HandleEnv sobj (IO N) := io_env close.

Definition hquery (h : Z) (ty : ptr) : IO N ptr := dill_hquery h ty.

(** ** [bsock.c]; only the system's sockets are bytestreams here *)

Definition dill_bsend (s : Z) (buf : ptr) (len : Z) (deadline : Z) : IO N Z :=
  b ← hquery s dill_bsock_type;
  if b =? NULL then mret (-1)
  else with_iol (mk_iolist buf len NULL 0) (λ iol, net_sendl b iol iol deadline).

Definition dill_brecv (s : Z) (buf : ptr) (len : Z) (deadline : Z) : IO N Z :=
  b ← hquery s dill_bsock_type;
  if b =? NULL then mret (-1)
  else with_iol (mk_iolist buf len NULL 0) (λ iol, net_recvl b iol iol deadline).

Definition dill_bsendl (s : Z) (first last : ptr) (deadline : Z) : IO N Z :=
  b ← hquery s dill_bsock_type;
  if b =? NULL then mret (-1)
  else if (first =? NULL) || (last =? NULL) then fail EINVAL
  else
    l ← get_node last;
    if negb (iol_next l =? NULL) then fail EINVAL
    else net_sendl b first last deadline.

(** With two null pointers the check reads [last->iol_next] all the same. *)
Definition dill_brecvl (s : Z) (first last : ptr) (deadline : Z) : IO N Z :=
  b ← hquery s dill_bsock_type;
  if b =? NULL then mret (-1)
  else if (negb (first =? NULL) && (last =? NULL)) || ((first =? NULL) && negb (last =? NULL)) then fail EINVAL
  else
    l ← get_node last;
    if negb (iol_next l =? NULL) then fail EINVAL
    else net_recvl b first last deadline.

(** ** [msock.c] *)

Definition dill_msend (s : Z) (buf : ptr) (len : Z) (deadline : Z) : IO N Z :=
  m ← hquery s dill_msock_type;
  if m =? NULL then mret (-1)
  else with_iol (mk_iolist buf len NULL 0) (λ iol, m_sendl proto m iol iol deadline).

Definition dill_mrecv (s : Z) (buf : ptr) (len : Z) (deadline : Z) : IO N Z :=
  m ← hquery s dill_msock_type;
  if m =? NULL then mret (-1)
  else with_iol (mk_iolist buf len NULL 0) (λ iol, m_recvl proto m iol iol deadline).

Definition dill_msendl (s : Z) (first last : ptr) (deadline : Z) : IO N Z :=
  m ← hquery s dill_msock_type;
  if m =? NULL then mret (-1)
  else if (first =? NULL) || (last =? NULL) then fail EINVAL
  else
    l ← get_node last;
    if negb (iol_next l =? NULL) then fail EINVAL
    else m_sendl proto m first last deadline.

Definition dill_mrecvl (s : Z) (first last : ptr) (deadline : Z) : IO N Z :=
  m ← hquery s dill_msock_type;
  if m =? NULL then mret (-1)
  else
    bad ← (if last =? NULL then mret (negb (first =? NULL))
           else l ← get_node last; mret (negb (iol_next l =? NULL) || (first =? NULL)));
    if bad : bool then fail EINVAL
    else m_recvl proto m first last deadline.

(** ** What the protocols share *)

Definition hclose (h : Z) : IO N Z := dill_hclose h.
Definition hown (h : Z) : IO N Z := dill_hown h.
Definition hmake (v : sobj) : IO N Z := dill_hmake (Some v).

(** The label [error] of the attach functions: [s] is closed if it is a handle. *)
Definition attach_error (s : Z) (err : errno_t) : IO N Z :=
  (if 0 <=? s then _ ← hclose s; mret tt else mret tt);;
  set_errno err;;
  mret (-1).

(** [err = errno; goto error] *)
Definition attach_errno (s : Z) : IO N Z := err ← get_errno; attach_error s err.

(** The close functions: close the socket below, which must succeed. *)
Definition close_under (u : Z) : IO N unit :=
  if 0 <=? u then rc ← hclose u; assert_ (rc =? 0) else mret tt.
End Sockets.
Arguments msock_vfs : clear implicits.

(** * Total correctness *)

(** From [s] the computation has a result, which satisfies [Q]. *)
Definition wp {N A} (m : IO N A) (Q : A → io N → Prop) (s : io N) : Prop :=
  match m s with Some (a, s') => Q a s' | None => False end.

Section Wp.
Context {N : Type}.

Lemma wp_bind {A B} (m : IO N A) (k : A → IO N B) Q s : wp m (λ a, wp (k a) Q) s → wp (m ≫= k) Q s.
Proof. unfold wp. cbv [mbind IO_bind]. by destruct (m s) as [[]|]. Qed.

Lemma wp_ret {A} (a : A) (Q : A → io N → Prop) s : Q a s → wp (mret a) Q s.
Proof. done. Qed.

Lemma wp_gets {A} (f : io N → A) Q s : Q (f s) s → wp (gets f) Q s.
Proof. done. Qed.

Lemma wp_modify f (Q : unit → io N → Prop) s : Q tt (f s) → wp (modify f) Q s.
Proof. done. Qed.

Lemma wp_assert b (Q : unit → io N → Prop) s : b = true → Q tt s → wp (assert_ b) Q s.
Proof. by intros ->. Qed.

Lemma wp_fail e (Q : Z → io N → Prop) s : Q (-1) (set_io_errno e s) → wp (fail e) Q s.
Proof. done. Qed.

Lemma wp_mono {A} (m : IO N A) (Q Q' : A → io N → Prop) s :
  wp m Q s → (∀ a s', Q a s' → Q' a s') → wp m Q' s.
Proof. unfold wp. destruct (m s) as [[]|]; eauto. Qed.

Lemma wp_get_node p n (Q : iolist → io N → Prop) s : io_nodes s !! p = Some n → Q n s → wp (get_node p) Q s.
Proof. intros H. unfold wp, get_node. by rewrite H. Qed.

Lemma wp_load p n bs (Q : list Z → io N → Prop) s :
  load_bytes p (Z.to_nat n) (io_mem s) = Some bs → Q bs s → wp (load p n) Q s.
Proof. intros H. unfold wp, load. by rewrite H. Qed.

Lemma wp_store p bs m (Q : unit → io N → Prop) s :
  store_bytes p bs (io_mem s) = Some m → Q tt (set_io_mem m s) → wp (store p bs) Q s.
Proof. intros H. unfold wp, store. by rewrite H. Qed.

(** An array of [n] bytes at [a]. *)
Definition arr (a n : Z) : list (option ptr) := slots (mk_iolist a n NULL 0).

Lemma arr_eq a n : a ≠ NULL → arr a n = map (λ i, Some (a + i)) (seqZ 0 n).
Proof. intros H. unfold arr, slots. cbn. apply Z.eqb_neq in H. unfold NULL in *. by rewrite H. Qed.

Lemma elem_of_arr a n x : a ≠ NULL → Some x ∈ arr a n ↔ a ≤ x < a + n.
Proof.
  intros H. rewrite arr_eq by done. rewrite list_elem_of_fmap. split.
  - intros (i & [= ->] & Hi). apply elem_of_seqZ in Hi. lia.
  - intros Hx. exists (x - a). split; [f_equal; lia|]. apply elem_of_seqZ. lia.
Qed.

Lemma arr_nodup a n : a ≠ NULL → NoDup (arr a n) ∧ None ∉ arr a n.
Proof.
  intros H. rewrite arr_eq by done. split.
  - apply (NoDup_fmap_2_strong _ (seqZ 0 n)); [|apply NoDup_seqZ]. intros x y _ _ [= E]. lia.
  - rewrite list_elem_of_fmap. by intros (i & ? & _).
Qed.

Lemma length_arr a n : 0 ≤ n → Z.of_nat (length (arr a n)) = n.
Proof. intros H. by apply (length_slots (mk_iolist a n NULL 0)). Qed.

Lemma load_arr a n (m : gmap Z Z) : a ≠ NULL → 0 ≤ n → load_bytes a (Z.to_nat n) m = gather m (arr a n).
Proof. intros Ha Hn. rewrite load_bytes_gather, Z2Nat.id, arr_eq by done. done. Qed.

Lemma store_arr a n bs (m : gmap Z Z) : a ≠ NULL → allocated m (arr a n) → Z.of_nat (length bs) = n →
  store_bytes a bs m = Some (scatter (arr a n) bs m).
Proof.
  intros Ha Hal <-. rewrite arr_eq in * by done. by apply store_bytes_scatter.
Qed.

Lemma arr_app a n k : 0 < a → 0 ≤ n → 0 ≤ k → arr a (n + k) = arr a n ++ arr (a + n) k.
Proof.
  intros Ha Hn Hk. rewrite !arr_eq by (unfold NULL; lia). rewrite seqZ_app by lia. rewrite map_app. f_equal.
  rewrite Z.add_0_l. replace n with (n + 0) at 1 by lia. rewrite <- fmap_add_seqZ.
  change (map ?f ?l) with (f <$> l). rewrite <- list_fmap_compose. apply list_fmap_ext. intros i x _. cbn. f_equal. lia.
Qed.

Lemma arr_1 a : a ≠ NULL → arr a 1 = [Some a].
Proof. intros Ha. rewrite arr_eq by done. change (seqZ 0 1) with [0]. cbn [map]. by rewrite Z.add_0_r. Qed.

Lemma arr_cons a n : 0 < a → 0 < n → arr a n = Some a :: arr (a + 1) (n - 1).
Proof.
  intros Ha Hn. replace n with (1 + (n - 1)) at 1 by lia. rewrite arr_app by lia.
  rewrite arr_1 by (unfold NULL; lia). done.
Qed.

Lemma arr_snoc a n : 0 < a → 0 < n → arr a n = arr a (n - 1) ++ [Some (a + n - 1)].
Proof.
  intros Ha Hn. replace n with ((n - 1) + 1) at 1 by lia. rewrite arr_app by lia.
  rewrite (arr_1 (a + (n - 1))) by (unfold NULL; lia). do 3 f_equal. lia.
Qed.

(** Within an array, of a fresh local array in particular, all is allocated. *)
Lemma zeros_lookup a n x : zeros a n !! x = if decide (a ≤ x < a + n) then Some 0 else None.
Proof.
  unfold zeros. destruct (decide _) as [H|H].
  - apply elem_of_list_to_map_1.
    + rewrite <- list_fmap_compose. change (fst ∘ λ i, (i, 0)) with (@id Z). rewrite list_fmap_id. apply NoDup_seqZ.
    + apply list_elem_of_fmap. exists x. split; [done|]. apply elem_of_seqZ. lia.
  - apply not_elem_of_list_to_map_1. rewrite <- list_fmap_compose. change (fst ∘ λ i, (i, 0)) with (@id Z).
    rewrite list_fmap_id, elem_of_seqZ. lia.
Qed.

Lemma zeros_alloc a n (m : gmap Z Z) : a ≠ NULL → allocated (zeros a n ∪ m) (arr a n).
Proof.
  intros Ha x Hx. apply elem_of_arr in Hx; [|done]. exists 0.
  apply lookup_union_Some_l. rewrite zeros_lookup. by rewrite decide_True.
Qed.

Lemma zeros_other a n (m : gmap Z Z) x : ¬ a ≤ x < a + n → (zeros a n ∪ m) !! x = m !! x.
Proof. intros H. apply lookup_union_r. rewrite zeros_lookup. by rewrite decide_False. Qed.

(** A local array is gone at the end of its block. *)
Lemma drop_buf a n (m0 m : gmap Z Z) :
  (∀ x, is_Some (m0 !! x) → x < a) → (∀ x, ¬ a ≤ x < a + n → m !! x = m0 !! x) →
  filter (λ p, ¬ (a ≤ p.1 < a + n)) m = m0.
Proof.
  intros H0 H. apply map_eq. intros x. destruct (decide (a ≤ x < a + n)) as [Hx|Hx].
  - destruct (m0 !! x) eqn:E.
    + specialize (H0 x ltac:(by eexists)). lia.
    + apply map_lookup_filter_None_2. right. intros y _. naive_solver.
  - rewrite <- H by done. destruct (m !! x) eqn:E.
    + by apply map_lookup_filter_Some_2.
    + apply map_lookup_filter_None_2. by left.
Qed.

Lemma drop_buf_dom a n (m0 m : gmap Z Z) :
  (∀ x, is_Some (m0 !! x) → x < a) → dom m = dom (zeros a n ∪ m0) →
  dom (filter (λ p, ¬ (a ≤ p.1 < a + n)) m) = dom m0.
Proof.
  intros H0 H. apply set_eq. intros x.
  assert (E : x ∈ dom m ↔ (a ≤ x < a + n ∨ x ∈ dom m0)).
  { rewrite H, dom_union, elem_of_union, elem_of_dom, zeros_lookup. destruct (decide _); [|naive_solver].
    naive_solver. }
  rewrite elem_of_dom in E. rewrite elem_of_dom. split.
  - intros [v Hv]. apply map_lookup_filter_Some in Hv as [Hv Hn]. destruct E as [E _].
    destruct (E ltac:(by eexists)); [cbn in Hn; lia|done].
  - intros Hx. pose proof (H0 x (proj1 (elem_of_dom _ _) Hx)) as Hlt. destruct (proj2 E (or_intror Hx)) as [v Hv].
    exists v. apply map_lookup_filter_Some_2; [done|cbn; lia].
Qed.

(** The state at the start of the block of a local array. *)
Definition enter (n : Z) (s : io N) : io N :=
  set_io_mem (zeros (io_next s) n ∪ io_mem s) (set_io_next (io_next s + Z.max n 1) s).

Lemma wp_with_buf {A} n (k : ptr → IO N A) Q s :
  wp (k (io_next s)) (λ r s', Q r (set_io_mem (filter (λ p, ¬ (io_next s ≤ p.1 < io_next s + n)) (io_mem s')) s'))
    (enter n s) → wp (with_buf n k) Q s.
Proof. unfold wp, with_buf. fold (enter n s). by destruct (k (io_next s) (enter n s)) as [[]|]. Qed.

Lemma wp_with_iol {A} n (k : ptr → IO N A) Q s :
  wp (k (io_next s)) (λ r s', Q r (set_io_nodes (delete (io_next s) (io_nodes s')) s'))
    (set_io_nodes (<[io_next s := n]> (io_nodes s)) (set_io_next (io_next s + 1) s)) → wp (with_iol n k) Q s.
Proof. unfold wp, with_iol. by destruct (k (io_next s) _) as [[]|]. Qed.

(** Data of the memory outside a local array, and scattered data, do not depend on it. *)
Lemma scatter_ext sl : ∀ src (m m' : gmap Z Z) x, m !! x = m' !! x → scatter sl src m !! x = scatter sl src m' !! x.
Proof.
  induction sl as [|[a|] sl IH]; intros [|b src] m m' x H; try done; cbn [scatter]; apply IH; [|done].
  destruct (decide (a = x)) as [->|]; [by rewrite !lookup_insert_eq|by rewrite !lookup_insert_ne].
Qed.

Lemma gather_ext (m m' : gmap Z Z) sl : (∀ x, Some x ∈ sl → m !! x = m' !! x) → gather m sl = gather m' sl.
Proof.
  unfold gather. induction sl as [|o sl IH]; intros H; [done|]. cbn [mapM].
  assert (E : (o ≫= λ a, m !! a) = (o ≫= λ a, m' !! a)).
  { destruct o as [a|]; [|done]. cbn. apply H. by left. }
  rewrite E. destruct (o ≫= λ a, m' !! a); [|done]. cbn. rewrite IH; [done|]. intros x Hx. apply H. by right.
Qed.

Lemma gather_some (m : gmap Z Z) sl bs : gather m sl = Some bs → allocated m sl ∧ length bs = length sl ∧ None ∉ sl.
Proof.
  unfold gather. revert bs. induction sl as [|o sl IH]; intros bs H.
  - injection H as <-. split; [intros x Hx; by apply elem_of_nil in Hx|]. split; [done|]. apply not_elem_of_nil.
  - cbn [mapM] in H. destruct o as [a|]; [|done]. cbn in H. destruct (m !! a) as [v|] eqn:Ev; [|done]. cbn in H.
    destruct (mapM _ sl) as [r|] eqn:Er; [|done]. injection H as <-. destruct (IH r eq_refl) as (Ha & Hl & Hn).
    split; [|split; [cbn; by f_equal|rewrite not_elem_of_cons; done]]. intros x Hx.
    apply elem_of_cons in Hx as [[= ->]|Hx]; [by exists v|by apply Ha].
Qed.
Lemma gather_alloc (m : gmap Z Z) sl : allocated m sl → None ∉ sl → ∃ bs, gather m sl = Some bs.
Proof.
  unfold gather. induction sl as [|[a|] sl IH]; intros Ha Hn.
  - by exists [].
  - apply not_elem_of_cons in Hn as [_ Hn]. destruct (Ha a ltac:(left)) as [v Hv].
    destruct IH as [bs E]; [intros y Hy; apply Ha; by right|done|]. exists (v :: bs). cbn. by rewrite Hv, E.
  - exfalso. apply Hn. left.
Qed.
End Wp.

(** * Runs *)

(** The state after operations that touch only the handles' cache, fresh addresses,
    bytes, the sockets and [errno]. *)
Definition after {N} (c : dill_ctx_handle sobj) (nx : Z) (m : gmap Z Z) (nt : N) (e : errno_t) (s : io N) : io N :=
  set_io_handles c (set_io_next nx (set_io_mem m (set_io_net nt (set_io_errno e s)))).

(** Nodes and bytes are below the next fresh address; the members of the nodes are values of
    their C types. *)
Record wf_io {N} (s : io N) : Prop := {
  wi_next : 0 < io_next s;
  wi_nodes : ∀ p, is_Some (io_nodes s !! p) → 0 < p < io_next s;
  wi_mem : ∀ a, is_Some (io_mem s !! a) → 0 < a < io_next s;
  wi_types : ∀ p nd, io_nodes s !! p = Some nd → 0 ≤ iol_base nd ∧ 0 ≤ iol_len nd < 2 ^ 64;
}.

Lemma wf_same {N} (s s' : io N) :
  wf_io s → io_nodes s' = io_nodes s → dom (io_mem s') = dom (io_mem s) → io_next s ≤ io_next s' → wf_io s'.
Proof.
  intros [H1 H2 H3 H4] Hn Hd Hx. split.
  - lia.
  - intros p Hp. rewrite Hn in Hp. specialize (H2 p Hp). lia.
  - intros x Hm. apply elem_of_dom in Hm. rewrite Hd in Hm. apply elem_of_dom in Hm. specialize (H3 x Hm). lia.
  - by rewrite Hn.
Qed.

Lemma wf_sized {N} (s : io N) l first lst : wf_io s → valid (io_nodes s) first lst l → sized (io_nodes s) l.
Proof.
  intros Hwf (Hp & _) x Hx. destruct (seg_alloc _ _ _ _ _ Hp Hx) as [nd Hnd]. rewrite (node_lookup _ _ _ Hnd).
  by apply (wi_types _ Hwf x).
Qed.

(** A local buffer, described by a node *)
Lemma wf_with_node {N} a nd (s : io N) : wf_io s → io_next s ≤ a → 0 ≤ iol_base nd → 0 ≤ iol_len nd < 2 ^ 64 →
  wf_io (set_io_nodes (<[a := nd]> (io_nodes s)) (set_io_next (a + 1) s)).
Proof.
  intros [H1 H2 H3 H4] Ha Hb Hl. split; cbn.
  - lia.
  - intros p [v Hv]. apply lookup_insert_Some in Hv as [[-> _]|[_ Hv]]; [lia|]. specialize (H2 p ltac:(by eexists)). lia.
  - intros x Hx. specialize (H3 x Hx). lia.
  - intros p v Hv. apply lookup_insert_Some in Hv as [[_ <-]|[_ Hv]]; [done|]. by apply (H4 p).
Qed.

(** A node replaced by one for another buffer *)
Lemma wf_renode {N} p f nd (s : io N) : wf_io s → io_nodes s !! p = Some f → 0 ≤ iol_base nd → 0 ≤ iol_len nd < 2 ^ 64 →
  wf_io (set_io_nodes (<[p := nd]> (io_nodes s)) s).
Proof.
  intros [H1 H2 H3 H4] Hp Hb Hl. split; cbn; [done| |done|].
  - intros q [v Hv]. apply H2. apply lookup_insert_Some in Hv as [[<- _]|[_ Hv]]; by eexists.
  - intros q v Hv. apply lookup_insert_Some in Hv as [[_ <-]|[_ Hv]]; [done|by apply (H4 q)].
Qed.

(** A node whose length is reduced *)
Lemma wf_relen {N} p f k nx r (s : io N) : wf_io s → io_nodes s !! p = Some f → 0 ≤ k ≤ iol_len f →
  wf_io (set_io_nodes (<[p := mk_iolist (iol_base f) k nx r]> (io_nodes s)) s).
Proof. intros Hwf Hp Hk. destruct (wi_types _ Hwf _ _ Hp). apply (wf_renode p f); cbn; [done|done|done|lia]. Qed.

(** A node with another link *)
Lemma wf_relink {N} p f nx r (s : io N) : wf_io s → io_nodes s !! p = Some f →
  wf_io (set_io_nodes (<[p := mk_iolist (iol_base f) (iol_len f) nx r]> (io_nodes s)) s).
Proof. intros Hwf Hp. apply (wf_relen p f); [done|done|]. pose proof (wi_types _ Hwf _ _ Hp). lia. Qed.

(** A buffer of some bytes is at an address. *)
Lemma gather_based {N} (s : io N) buf k bs : wf_io s → gather (io_mem s) (arr buf k) = Some bs → 0 < k → 0 < buf.
Proof.
  intros Hwf Hg Hk. apply gather_some in Hg as (Ha & _ & Hn). destruct (decide (buf = NULL)) as [->|Hb].
  - destruct Hn. unfold arr, slots. cbn. destruct (Z.to_nat k) eqn:E; [lia|left].
  - apply (wi_mem _ Hwf), Ha, elem_of_arr; [done|lia].
Qed.

(** The buffers have addresses, or there is not much to receive. *)
Definition fillable (skip : Z) (h : nodes) (l : list ptr) : Prop :=
  (∀ x, x ∈ l → 0 < iol_base (node h x)) ∨ total h l ≤ skip.

(** The data that has gone out of, and is yet to come into, a bytestream. *)
Class NetLaws (N : Type) `{Net N} := {
  net_out : N → Z → list Z;
  net_in : N → Z → list Z;
  (** whether receiving, or sending, has failed: the data have ended, there was an error or
      a deadline has expired *)
  net_infail : N → Z → Prop;
  net_outfail : N → Z → Prop;
  (** how many bytes can be skipped at once, by buffers without an address *)
  net_skip : Z;
  law_skip : 0 ≤ net_skip;
  (** sending a well-formed list of buffers sends its bytes, or fails *)
  law_send : ∀ n first last d (s : io N) l bs,
    net_bytestream n = true → wf_io s → valid (io_nodes s) first last l → l ≠ [] →
    gather (io_mem s) (flat (io_nodes s) l) = Some bs →
    ∃ rc nt e, net_sendl n first last d s = Some (rc, set_io_net nt (set_io_errno e s)) ∧
      net_in nt n = net_in (io_net s) n ∧
      ((rc = 0 ∧ net_out nt n = net_out (io_net s) n ++ bs) ∨ (rc = -1 ∧ net_outfail nt n));
  (** receiving fills a well-formed list of buffers, or fails *)
  law_recv : ∀ n first last d (s : io N) l,
    net_bytestream n = true → wf_io s → valid (io_nodes s) first last l → l ≠ [] → fillable net_skip (io_nodes s) l →
    allocated (io_mem s) (flat (io_nodes s) l) →
    ∃ rc nt e m, net_recvl n first last d s = Some (rc, set_io_mem m (set_io_net nt (set_io_errno e s))) ∧
      net_out nt n = net_out (io_net s) n ∧
      dom m = dom (io_mem s) ∧ (∀ a, Some a ∉ flat (io_nodes s) l → m !! a = io_mem s !! a) ∧
      ((rc = 0 ∧ ∃ bs, length bs = length (flat (io_nodes s) l) ∧ net_in (io_net s) n = bs ++ net_in nt n ∧
          m = scatter (flat (io_nodes s) l) bs (io_mem s)) ∨ (rc = -1 ∧ net_infail nt n));
}.

(** A fresh node in front of a list. *)
Lemma valid_cons (h : nodes) a buf len first lst l :
  h !! a = None → a ≠ NULL → valid h first lst l → l ≠ [] →
  valid (<[a := mk_iolist buf len first 0]> h) a lst (a :: l).
Proof.
  intros Ha Hn (Hp & Hl & Hu) Hne.
  assert (Hseg : ∀ l x, seg h x l NULL → seg (<[a := mk_iolist buf len first 0]> h) x l NULL).
  { clear -Ha. induction l as [|y l IH]; intros x; [done|]. intros (-> & Hy & f & Hf & Hs).
    repeat (split; [done|]). exists f. split; [|by apply IH]. rewrite lookup_insert_ne; [done|]. by intros ->; simplify_eq. }
  split; [|split].
  - split; [done|]. split; [done|]. exists (mk_iolist buf len first 0). rewrite lookup_insert_eq. split; [done|]. by apply Hseg.
  - destruct l; [done|]. done.
  - intros x Hx. unfold node. destruct (decide (a = x)) as [->|Hax]; [by rewrite lookup_insert_eq|].
    rewrite lookup_insert_ne by done. apply elem_of_cons in Hx as [->|Hx]; [done|]. by apply Hu.
Qed.

Lemma flat_fresh (h : nodes) a f l : a ∉ l → flat (<[a := f]> h) l = flat h l.
Proof.
  intros Ha. induction l as [|x l IH]; [done|]. apply not_elem_of_cons in Ha as [Hx Ha]. cbn.
  fold (flat (<[a := f]> h) l). fold (flat h l). rewrite IH by done. unfold node. by rewrite lookup_insert_ne.
Qed.

Lemma flat_cons (h : nodes) a buf len first l :
  a ∉ l → flat (<[a := mk_iolist buf len first 0]> h) (a :: l) = arr buf len ++ flat h l.
Proof.
  intros Ha. rewrite <- (flat_fresh h a (mk_iolist buf len first 0) l) by done.
  unfold flat at 1. cbn. unfold node at 1. by rewrite lookup_insert_eq.
Qed.

(** Changing the buffer of an element keeps the links. *)
Lemma seg_relen (h : nodes) p f b' len' : h !! p = Some f → ∀ l a b,
  seg h a l b → seg (<[p := mk_iolist b' len' (iol_next f) (iol_rsvd f)]> h) a l b.
Proof.
  intros Hp. induction l as [|y l IH]; intros a b; [done|]. intros (-> & Hy & g & Hg & Hs).
  repeat (split; [done|]). destruct (decide (p = y)) as [->|Hne].
  - rewrite lookup_insert_eq. eexists. split; [done|]. simplify_eq. by apply IH.
  - rewrite lookup_insert_ne by done. exists g. split; [done|]. by apply IH.
Qed.

Lemma valid_relen (h : nodes) p f b' len' first lst l :
  h !! p = Some f → valid h first lst l → valid (<[p := mk_iolist b' len' (iol_next f) (iol_rsvd f)]> h) first lst l.
Proof.
  intros Hp (Hs & Hl & Hu). split; [by apply seg_relen|]. split; [done|]. intros x Hx. specialize (Hu x Hx).
  unfold node in *. destruct (decide (p = x)) as [->|Hne]; [by rewrite lookup_insert_eq; rewrite Hp in Hu|].
  by rewrite lookup_insert_ne.
Qed.

Lemma sized_relen (h : nodes) p f b' len' l :
  h !! p = Some f → 0 ≤ len' ≤ iol_len f → sized h l →
  sized (<[p := mk_iolist b' len' (iol_next f) (iol_rsvd f)]> h) l.
Proof.
  intros Hp Hle Hs x Hx. specialize (Hs x Hx). unfold node in *. destruct (decide (p = x)) as [->|Hne].
  - rewrite lookup_insert_eq. rewrite Hp in Hs. cbn in *. lia.
  - by rewrite lookup_insert_ne.
Qed.

Lemma allocated_take m k sl : allocated m sl → allocated m (take k sl).
Proof. intros H x Hx. apply H. by apply (subseteq_take k sl). Qed.

Lemma allocated_mono (m m' : gmap Z Z) sl : (∀ x, is_Some (m !! x) → is_Some (m' !! x)) → allocated m sl → allocated m' sl.
Proof. intros Hm H x Hx. by apply Hm, H. Qed.

Lemma flat_app (h : nodes) l k : flat h (l ++ k) = flat h l ++ flat h k.
Proof. apply bind_app. Qed.

(** Appending a fresh node to a list. *)
Lemma valid_snoc (h : nodes) first lst f a g l :
  h !! a = None → a ≠ NULL → iol_next g = NULL → iol_rsvd g = 0 → h !! lst = Some f → valid h first lst l →
  valid (<[lst := mk_iolist (iol_base f) (iol_len f) a (iol_rsvd f)]> (<[a := g]> h)) first a (l ++ [a]).
Proof.
  intros Ha Hn Hg Hg' Hf (Hp & Hl & Hu). pose proof (path_nodup _ _ _ Hp) as Hnd.
  apply last_Some in Hl as [l' ->]. apply NoDup_app in Hnd as (_ & Hll & _).
  assert (Hla : lst ≠ a) by congruence.
  assert (Hseg : ∀ l' x b, lst ∉ l' → seg h x l' b →
    seg (<[lst := mk_iolist (iol_base f) (iol_len f) a (iol_rsvd f)]> (<[a := g]> h)) x l' b).
  { clear -Ha. induction l' as [|y l' IH]; intros x b Hni; [done|]. intros (-> & Hy & q & Hq & Hs).
    apply not_elem_of_cons in Hni as [Hny Hni]. repeat (split; [done|]). exists q.
    rewrite !lookup_insert_ne by congruence. split; [done|]. by apply IH. }
  unfold path in Hp. apply iseg_app in Hp as (c & Hs & Hc). destruct Hc as (-> & Hl0 & q & Hq & _).
  split; [|split].
  - unfold path. rewrite <- app_assoc. apply iseg_app. exists lst. split.
    + apply Hseg; [|done]. intros Hi. apply (Hll _ Hi). by left.
    + split; [done|]. split; [done|]. eexists. rewrite lookup_insert_eq. split; [done|]. split; [done|]. split; [done|].
      exists g. rewrite lookup_insert_ne by done. by rewrite lookup_insert_eq.
  - by rewrite last_snoc.
  - intros x Hx. unfold node. destruct (decide (lst = x)) as [->|Hcx].
    + rewrite lookup_insert_eq. specialize (Hu x). unfold node in Hu. rewrite Hf in Hu. apply Hu.
      apply elem_of_app. right. by left.
    + rewrite lookup_insert_ne by done. destruct (decide (a = x)) as [->|Hax]; [by rewrite lookup_insert_eq|].
      rewrite lookup_insert_ne by done. apply Hu. apply elem_of_app in Hx as [Hx|Hx]; [done|].
      by apply list_elem_of_singleton in Hx.
Qed.

Lemma flat_snoc (h : nodes) lst f a g l :
  h !! a = None → h !! lst = Some f → a ∉ l →
  flat (<[lst := mk_iolist (iol_base f) (iol_len f) a (iol_rsvd f)]> (<[a := g]> h)) (l ++ [a]) = flat h l ++ slots g.
Proof.
  intros Ha Hf Hl. assert (Hla : lst ≠ a) by congruence. rewrite flat_app. f_equal.
  - clear -Hl Hf Hla. induction l as [|x l IH]; [done|]. apply not_elem_of_cons in Hl as [Hx Hl]. cbn.
    unfold flat in IH. rewrite IH by done. f_equal. unfold node.
    destruct (decide (lst = x)) as [->|]; [by rewrite lookup_insert_eq, Hf|]. by rewrite !lookup_insert_ne by done.
  - unfold flat. cbn. unfold node. rewrite lookup_insert_ne, lookup_insert_eq by done. cbn. by rewrite app_nil_r.
Qed.

Lemma slots_take f rmn : 0 ≤ rmn ≤ iol_len f → slots (mk_iolist (iol_base f) rmn (iol_next f) (iol_rsvd f)) = take (Z.to_nat rmn) (slots f).
Proof.
  intros H. unfold slots. cbn. destruct (_ =? _).
  - rewrite take_replicate. f_equal. lia.
  - rewrite <- fmap_take. f_equal. unfold seqZ. rewrite <- fmap_take. f_equal. rewrite take_seq. f_equal. lia.
Qed.

(** The list cut to [sz] bytes, which end in the last element. *)
Lemma flat_cut (h : nodes) l lst f sz :
  h !! lst = Some f → lst ∉ l → sized h l → 0 ≤ sz - total h l ≤ iol_len f →
  flat (<[lst := mk_iolist (iol_base f) (sz - total h l) (iol_next f) (iol_rsvd f)]> h) (l ++ [lst]) =
    take (Z.to_nat sz) (flat h (l ++ [lst])).
Proof.
  intros Hf Hl Hsz Hr. rewrite !flat_app, flat_fresh by done. pose proof (length_flat h l Hsz) as Hlen.
  rewrite take_app_ge by lia. f_equal.
  replace (Z.to_nat sz - length (flat h l))%nat with (Z.to_nat (sz - total h l)) by lia.
  unfold flat. cbn. unfold node. rewrite lookup_insert_eq, Hf. cbn. by rewrite !app_nil_r, slots_take.
Qed.

Section Runs.
Context {N : Type} `{LawsN : NetLaws N}.
Context (close : sobj → IO N unit).
Local Instance env_runs : HandleEnv sobj (IO N) := io_env close.

#[export, refine] Instance IO_run : HandleRun (M := IO N) sobj_query (io N) := {|
  hrun := λ A m s a s', m s = Some (a, s');
  hr_ctx := io_handles;
  hr_set := set_io_handles;
  hr_err := set_io_errno;
|}.
Proof.
  - done.
  - intros A B m k s a s1 b s2 E1 E2. cbv [mbind IO_bind]. cbn in E1, E2 |- *. by rewrite E1.
  - done.
  - done.
  - done.
  - intros v ty s. cbv [h_query env_runs io_env].
    destruct (Z.eqb_spec (sobj_query v ty) NULL) as [E|E]; [by rewrite E|done].
  - done.
  - done.
Defined.

(** Handle [h] is open and its object answers the type [ty] with [p]. *)
Definition answers (h : Z) (ty p : ptr) (s : io N) : Prop :=
  ∃ t v, represents sobj_query (io_handles s) t ∧ live t !! h = Some v ∧ sobj_query v ty = p ∧ p ≠ NULL.

Lemma answers_after h ty p c nx m nt e s t :
  represents sobj_query c t → (∃ v, live t !! h = Some v ∧ sobj_query v ty = p) → p ≠ NULL →
  answers h ty p (after c nx m nt e s).
Proof. intros R (v & Hv & Hq) Hp. by exists t, v. Qed.

Lemma hquery_answers h ty p s :
  answers h ty p s →
  ∃ c, hquery close h ty s = Some (p, set_io_handles c s) ∧
    ∀ h' ty' p', answers h' ty' p' s → answers h' ty' p' (set_io_handles c s).
Proof.
  intros (t & v & R & Hv & Hq & Hp). pose proof (run_hquery (HR := IO_run) s t h ty R) as Hq0.
  cbn [hrun hr_ctx hr_set IO_run] in Hq0. rewrite Hv, Hq in Hq0. apply Z.eqb_neq in Hp as Hp'. rewrite Hp' in Hq0.
  assert (Hans : ∀ c, represents sobj_query c t → ∀ h' ty' p', answers h' ty' p' s → answers h' ty' p' (set_io_handles c s)).
  { intros c R' h' ty' p' (t' & v' & R2 & Hv' & Hq' & Hn). exists t, v'. split; [done|]. split; [|done].
    by rewrite (rep_live _ _ _ R), <- (rep_live _ _ _ R2). }
  destruct Hq0 as (c & [Hq0|Hq0] & R').
  - exists (io_handles s). split; [etrans; [exact Hq0|]; by destruct s|]. by apply Hans.
  - exists c. split; [exact Hq0|]. by apply Hans.
Qed.

(** What a receive of the slots [sl] did to the state. *)
Definition recv_outcome (n : Z) (sl : list (option ptr)) (s : io N) (rc : Z) (nt : N) (m : gmap Z Z) : Prop :=
  net_out nt n = net_out (io_net s) n ∧ dom m = dom (io_mem s) ∧
  (∀ a, Some a ∉ sl → m !! a = io_mem s !! a) ∧
  ((rc = 0 ∧ ∃ bs, length bs = length sl ∧ net_in (io_net s) n = bs ++ net_in nt n ∧
      m = scatter sl bs (io_mem s)) ∨ (rc = -1 ∧ net_infail nt n)).

Definition send_outcome (n : Z) (bs : list Z) (s : io N) (rc : Z) (nt : N) : Prop :=
  net_in nt n = net_in (io_net s) n ∧
  ((rc = 0 ∧ net_out nt n = net_out (io_net s) n ++ bs) ∨ (rc = -1 ∧ net_outfail nt n)).

(** The answers are kept. *)
Definition keeps (s s' : io N) : Prop := ∀ h ty p, answers h ty p s → answers h ty p s'.

Lemma keeps_after s c nx m nt e :
  (∀ h ty p, answers h ty p s → answers h ty p (set_io_handles c s)) → keeps s (after c nx m nt e s).
Proof. intros Hk h ty p Ha. destruct (Hk h ty p Ha) as (t & v & R & ?). by exists t, v. Qed.

(** A list of one element. *)
Lemma single_valid (h : gmap Z iolist) a buf len :
  a ≠ NULL → valid (<[a := mk_iolist buf len NULL 0]> h) a a [a].
Proof.
  intros Ha. split; [|split; [done|]].
  - cbn. split; [done|]. split; [done|]. eexists. by rewrite lookup_insert_eq.
  - intros x Hx. apply list_elem_of_singleton in Hx as ->. unfold node. by rewrite lookup_insert_eq.
Qed.

Lemma single_flat (h : gmap Z iolist) a buf len :
  flat (<[a := mk_iolist buf len NULL 0]> h) [a] = slots (mk_iolist buf len NULL 0).
Proof. unfold flat. cbn. unfold node. rewrite lookup_insert_eq. cbn. by rewrite app_nil_r. Qed.

Lemma fillable_relen skip (h : gmap Z iolist) l p f k nx r : p ∉ l → h !! p = Some f → k ≤ iol_len f →
  fillable skip h (l ++ [p]) → fillable skip (<[p := mk_iolist (iol_base f) k nx r]> h) (l ++ [p]).
Proof.
  intros Hp Hf Hk Hfl. assert (Hn : ∀ x, node (<[p := mk_iolist (iol_base f) k nx r]> h) x =
    if decide (x = p) then mk_iolist (iol_base f) k nx r else node h x).
  { intros x. unfold node. destruct (decide _) as [->|]; [by rewrite lookup_insert_eq|by rewrite lookup_insert_ne]. }
  destruct Hfl as [Hb|Ht]; [left|right].
  - intros x Hx. specialize (Hb x Hx). rewrite Hn. destruct (decide (x = p)) as [->|]; [|done].
    by rewrite (node_lookup _ _ _ Hf) in Hb.
  - assert (E : total (<[p := mk_iolist (iol_base f) k nx r]> h) l = total h l).
    { clear -Hp Hn. unfold total. induction l as [|y l IH]; [done|]. apply not_elem_of_cons in Hp as [Hy Hp]. cbn [foldr].
      rewrite IH, Hn by done. by rewrite decide_False. }
    rewrite total_app in Ht |- *. rewrite E. cbn in Ht |- *. rewrite Hn, decide_True by done.
    rewrite (node_lookup _ _ _ Hf) in Ht. cbn. lia.
Qed.

Lemma single_fillable k (h : gmap Z iolist) a buf len : 0 < buf ∨ buf = NULL ∧ len ≤ k →
  fillable k (<[a := mk_iolist buf len NULL 0]> h) [a].
Proof.
  intros [Hb|[_ Hl]]; [left|right].
  - intros x Hx. apply list_elem_of_singleton in Hx as ->. unfold node. by rewrite lookup_insert_eq.
  - unfold total. cbn. unfold node. rewrite lookup_insert_eq. cbn. lia.
Qed.

(** [dill_brecv] *)
Lemma brecv_spec u n buf len d s :
  wf_io s → answers u dill_bsock_type n s → net_bytestream n = true → 0 ≤ len < 2 ^ 64 → 0 < buf ∨ buf = NULL ∧ len ≤ net_skip →
  allocated (io_mem s) (slots (mk_iolist buf len NULL 0)) →
  ∃ rc c nt e m, dill_brecv close u buf len d s = Some (rc, after c (io_next s + 1) m nt e s) ∧
    keeps s (after c (io_next s + 1) m nt e s) ∧ recv_outcome n (slots (mk_iolist buf len NULL 0)) s rc nt m.
Proof.
  intros Hwf Ha Hn Hlen Hbuf Hal. destruct (hquery_answers u dill_bsock_type n s Ha) as (c & E & Hk).
  unfold dill_brecv. erewrite IO_bind_done by exact E.
  destruct Ha as (_ & _ & _ & _ & _ & Hp). rewrite (proj2 (Z.eqb_neq _ _) Hp).
  unfold with_iol. cbn [io_next set_io_handles]. set (a := io_next s). pose proof (wi_next _ Hwf) as Hnx.
  set (s1 := set_io_nodes _ _). assert (Ha0 : a ≠ NULL) by (unfold a, NULL; lia).
  destruct (law_recv n a a d s1 [a] Hn) as (rc & nt & e & m & Er & Hout & Hdom & Hoth & Hrc).
  - apply (wf_with_node a (mk_iolist buf len NULL 0) (set_io_handles c s)); [by apply (wf_same s); cbn|cbn; lia|cbn; unfold NULL in *; lia|done].
  - by apply single_valid.
  - done.
  - by apply single_fillable.
  - cbn [io_nodes s1 set_io_nodes]. by rewrite single_flat.
  - cbn [io_nodes s1 set_io_nodes] in *. rewrite single_flat in *. rewrite Er. cbn [mbind option_bind].
    exists rc, c, nt, e, m. split; [|split; [by apply keeps_after|by repeat split]].
    do 2 f_equal. cbn [io_nodes set_io_mem set_io_net set_io_errno].
    assert (Hd : delete a (<[a := mk_iolist buf len NULL 0]> (io_nodes s)) = io_nodes s).
    { apply delete_insert_id. destruct (io_nodes s !! a) eqn:Es; [|done].
      pose proof (wi_nodes _ Hwf a ltac:(by eexists)). unfold a in *. lia. }
    change (io_nodes s1) with (<[a := mk_iolist buf len NULL 0]> (io_nodes s)). rewrite Hd. by destruct s.
Qed.

(** [dill_bsendl] and [dill_brecvl] of a well-formed list *)
Lemma valid_last (h : gmap Z iolist) first lst l : valid h first lst l → l ≠ [] →
  first ≠ NULL ∧ lst ≠ NULL ∧ ∃ x, h !! lst = Some x ∧ iol_next x = NULL.
Proof.
  intros (Hp & Hl & _) Hne. apply last_Some in Hl as [l' ->].
  apply iseg_app in Hp as (c & Hs & Hp). cbn in Hp. destruct Hp as (-> & Hn & x & Hx & Hnx).
  split; [|split; [done|by exists x]]. destruct l' as [|y l']; cbn in Hs; [by subst|]. by destruct Hs as (-> & ? & _).
Qed.

Lemma bsendl_spec u n first lst d s l bs :
  wf_io s → answers u dill_bsock_type n s → net_bytestream n = true →
  valid (io_nodes s) first lst l → l ≠ [] → gather (io_mem s) (flat (io_nodes s) l) = Some bs →
  ∃ rc c nt e, dill_bsendl close u first lst d s = Some (rc, after c (io_next s) (io_mem s) nt e s) ∧
    keeps s (after c (io_next s) (io_mem s) nt e s) ∧ send_outcome n bs s rc nt.
Proof.
  intros Hwf Ha Hn Hv Hne Hg. destruct (hquery_answers u dill_bsock_type n s Ha) as (c & E & Hk).
  unfold dill_bsendl. erewrite IO_bind_done by exact E.
  destruct Ha as (_ & _ & _ & _ & _ & Hp). rewrite (proj2 (Z.eqb_neq _ _) Hp).
  destruct (valid_last _ _ _ _ Hv Hne) as (Hf & Hl & x & Hx & Hxn).
  rewrite (proj2 (Z.eqb_neq _ _) Hf), (proj2 (Z.eqb_neq _ _) Hl). cbn [orb].
  assert (Eg : get_node lst (set_io_handles c s) = Some (x, set_io_handles c s)).
  { unfold get_node. cbn [io_nodes set_io_handles]. by rewrite Hx. }
  erewrite IO_bind_done by exact Eg. rewrite Hxn. cbn [Z.eqb negb].
  destruct (law_send n first lst d (set_io_handles c s) l bs Hn ltac:(by apply (wf_same s)) Hv Hne Hg) as (rc & nt & e & Es & Hin & Hrc).
  exists rc, c, nt, e. split; [|split; [by apply keeps_after|by split]].
  exact Es.
Qed.

Lemma brecvl_spec u n first lst d s l :
  wf_io s → answers u dill_bsock_type n s → net_bytestream n = true →
  valid (io_nodes s) first lst l → l ≠ [] → fillable net_skip (io_nodes s) l → allocated (io_mem s) (flat (io_nodes s) l) →
  ∃ rc c nt e m, dill_brecvl close u first lst d s = Some (rc, after c (io_next s) m nt e s) ∧
    keeps s (after c (io_next s) m nt e s) ∧ recv_outcome n (flat (io_nodes s) l) s rc nt m.
Proof.
  intros Hwf Ha Hn Hv Hne Hfl Hal. destruct (hquery_answers u dill_bsock_type n s Ha) as (c & E & Hk).
  unfold dill_brecvl. erewrite IO_bind_done by exact E.
  destruct Ha as (_ & _ & _ & _ & _ & Hp). rewrite (proj2 (Z.eqb_neq _ _) Hp).
  destruct (valid_last _ _ _ _ Hv Hne) as (Hf & Hl & x & Hx & Hxn).
  rewrite (proj2 (Z.eqb_neq _ _) Hf), (proj2 (Z.eqb_neq _ _) Hl). cbn [orb andb negb].
  assert (Eg : get_node lst (set_io_handles c s) = Some (x, set_io_handles c s)).
  { unfold get_node. cbn [io_nodes set_io_handles]. by rewrite Hx. }
  erewrite IO_bind_done by exact Eg. rewrite Hxn.
  destruct (law_recv n first lst d (set_io_handles c s) l Hn ltac:(by apply (wf_same s)) Hv Hne Hfl Hal) as (rc & nt & e & m & Es & Ho & Hd & Hoth & Hrc).
  exists rc, c, nt, e, m. split; [|split; [by apply keeps_after|by repeat split]].
  exact Es.
Qed.
(** The operations of the system's sockets. *)
Lemma wp_net_recv n first lst d s l (Q : Z → io N → Prop) :
  net_bytestream n = true → wf_io s → valid (io_nodes s) first lst l → l ≠ [] → fillable net_skip (io_nodes s) l →
  allocated (io_mem s) (flat (io_nodes s) l) →
  (∀ rc nt e m, recv_outcome n (flat (io_nodes s) l) s rc nt m → Q rc (set_io_mem m (set_io_net nt (set_io_errno e s)))) →
  wp (net_recvl n first lst d) Q s.
Proof.
  intros Hn Hwf Hv Hne Hs Ha HQ. destruct (law_recv n first lst d s l Hn Hwf Hv Hne Hs Ha) as (rc & nt & e & m & E & Ho).
  unfold wp. rewrite E. by apply HQ.
Qed.

Lemma wp_net_recv1 n a buf len d s (Q : Z → io N → Prop) :
  net_bytestream n = true → wf_io s → a ≠ NULL → io_nodes s !! a = Some (mk_iolist buf len NULL 0) → 0 < buf ∨ buf = NULL ∧ len ≤ net_skip →
  allocated (io_mem s) (arr buf len) →
  (∀ rc nt e m, recv_outcome n (arr buf len) s rc nt m → Q rc (set_io_mem m (set_io_net nt (set_io_errno e s)))) →
  wp (net_recvl n a a d) Q s.
Proof.
  intros Hn Hwf Ha E Hlen Hal HQ.
  assert (Hf : flat (io_nodes s) [a] = arr buf len).
  { rewrite <- (insert_id _ _ _ E). apply single_flat. }
  apply (wp_net_recv _ _ _ _ _ [a]); [done|done| |done| | |].
  - rewrite <- (insert_id _ _ _ E). by apply single_valid.
  - rewrite <- (insert_id _ _ _ E). by apply single_fillable.
  - by rewrite Hf.
  - by rewrite Hf.
Qed.

Lemma wp_net_send n first lst d s l bs (Q : Z → io N → Prop) :
  net_bytestream n = true → wf_io s → valid (io_nodes s) first lst l → l ≠ [] → gather (io_mem s) (flat (io_nodes s) l) = Some bs →
  (∀ rc nt e, send_outcome n bs s rc nt → Q rc (set_io_net nt (set_io_errno e s))) →
  wp (net_sendl n first lst d) Q s.
Proof.
  intros Hn Hwf Hv Hne Hg HQ. destruct (law_send n first lst d s l bs Hn Hwf Hv Hne Hg) as (rc & nt & e & E & Ho).
  unfold wp. rewrite E. by apply HQ.
Qed.

(** The same, for total correctness. *)
Lemma wp_brecv u n buf len d s (Q : Z → io N → Prop) :
  wf_io s → answers u dill_bsock_type n s → net_bytestream n = true → 0 ≤ len < 2 ^ 64 → 0 < buf ∨ buf = NULL ∧ len ≤ net_skip →
  allocated (io_mem s) (arr buf len) →
  (∀ rc c nt e m, keeps s (after c (io_next s + 1) m nt e s) → recv_outcome n (arr buf len) s rc nt m →
     Q rc (after c (io_next s + 1) m nt e s)) →
  wp (dill_brecv close u buf len d) Q s.
Proof.
  intros Hwf Ha Hn Hl Hbuf Hal HQ. destruct (brecv_spec u n buf len d s) as (rc & c & nt & e & m & E & Hk & Ho); try done.
  unfold wp. rewrite E. by apply HQ.
Qed.

Lemma wp_bsendl u n first lst d s l bs (Q : Z → io N → Prop) :
  wf_io s → answers u dill_bsock_type n s → net_bytestream n = true →
  valid (io_nodes s) first lst l → l ≠ [] → gather (io_mem s) (flat (io_nodes s) l) = Some bs →
  (∀ rc c nt e, keeps s (after c (io_next s) (io_mem s) nt e s) → send_outcome n bs s rc nt →
     Q rc (after c (io_next s) (io_mem s) nt e s)) →
  wp (dill_bsendl close u first lst d) Q s.
Proof.
  intros Hwf Ha Hn Hv Hne Hg HQ. destruct (bsendl_spec u n first lst d s l bs) as (rc & c & nt & e & E & Hk & Ho); try done.
  unfold wp. rewrite E. by apply HQ.
Qed.

Lemma wp_brecvl u n first lst d s l (Q : Z → io N → Prop) :
  wf_io s → answers u dill_bsock_type n s → net_bytestream n = true →
  valid (io_nodes s) first lst l → l ≠ [] → fillable net_skip (io_nodes s) l → allocated (io_mem s) (flat (io_nodes s) l) →
  (∀ rc c nt e m, keeps s (after c (io_next s) m nt e s) → recv_outcome n (flat (io_nodes s) l) s rc nt m →
     Q rc (after c (io_next s) m nt e s)) →
  wp (dill_brecvl close u first lst d) Q s.
Proof.
  intros Hwf Ha Hn Hv Hne Hfl Hal HQ.
  destruct (brecvl_spec u n first lst d s l) as (rc & c & nt & e & m & E & Hk & Ho); try done.
  unfold wp. rewrite E. by apply HQ.
Qed.

Lemma wf_enter n (s : io N) : wf_io s → wf_io (enter n s).
Proof.
  intros [H1 H2 H3 H4]. split; cbn; [| | |done].
  - lia.
  - intros p Hp. specialize (H2 p Hp). lia.
  - intros x [v Hv]. apply lookup_union_Some_raw in Hv as [Hv|[_ Hv]].
    + rewrite zeros_lookup in Hv. destruct (decide _); [lia|done].
    + specialize (H3 x ltac:(by eexists)). lia.
Qed.

Lemma wf_after (s : io N) c nx m nt e : wf_io s → io_next s ≤ nx → dom m = dom (io_mem s) → wf_io (after c nx m nt e s).
Proof.
  intros [H1 H2 H3 H4] Hnx Hd. split; cbn; [| | |done].
  - lia.
  - intros p Hp. specialize (H2 p Hp). lia.
  - intros x Hx. apply elem_of_dom in Hx. rewrite Hd in Hx. apply elem_of_dom in Hx. specialize (H3 x Hx). lia.
Qed.
End Runs.
