(* ===== verification/Loop.v ===== *)
(** A network for examples: sockets whose output is recorded and whose input is given.
    It satisfies the laws [NetLaws], and the witnesses run the protocols over it. *)

From Stdlib Require Import ZArith Lia.
From stdpp Require Import base gmap list.
From S2P Require Import Prelude Handle Iol Sock.
Open Scope Z_scope.

Record loop := mk_loop { lo_out : gmap Z (list Z); lo_in : gmap Z (list Z) }.
Definition out_of (nt : loop) (n : Z) : list Z := default [] (lo_out nt !! n).
Definition in_of (nt : loop) (n : Z) : list Z := default [] (lo_in nt !! n).

(** The nodes of a list. *)
Fixpoint walk (fuel : nat) (h : gmap Z iolist) (it : ptr) : option (list ptr) :=
  if it =? NULL then Some []
  else match fuel with
  | O => None
  | S fuel => n ← h !! it; l ← walk fuel h (iol_next n); Some (it :: l)
  end.

Lemma walk_path h l : ∀ it fuel, path h it l → (length l ≤ fuel)%nat → walk fuel h it = Some l.
Proof.
  induction l as [|x l IH]; intros it fuel Hp Hf.
  - cbv [path seg] in Hp. subst. by destruct fuel.
  - destruct Hp as (-> & Hx & n & Hn & Hp). destruct fuel as [|fuel]; [simpl in Hf; lia|].
    cbn [walk]. rewrite (proj2 (Z.eqb_neq _ _) Hx), Hn. cbn [mbind option_bind].
    rewrite (IH _ _ Hp) by (simpl in Hf; lia). done.
Qed.

Definition loop_sendl (n : Z) (first last : ptr) (d : Z) : IO loop Z := λ s,
  l ← walk (size (io_nodes s)) (io_nodes s) first;
  bs ← gather (io_mem s) (flat (io_nodes s) l);
  let nt := io_net s in
  Some (0, set_io_net (mk_loop (<[n := out_of nt n ++ bs]> (lo_out nt)) (lo_in nt)) s).

(** It fails when there is too little input, which is lost. *)
Definition loop_recvl (n : Z) (first last : ptr) (d : Z) : IO loop Z := λ s,
  l ← walk (size (io_nodes s)) (io_nodes s) first;
  let nt := io_net s in
  let sl := flat (io_nodes s) l in
  let k := length sl in
  if (length (in_of nt n) <? k)%nat then Some (-1, set_io_errno EPIPE (set_io_net (mk_loop (lo_out nt) (<[n := []]> (lo_in nt))) s))
  else Some (0, set_io_mem (scatter sl (take k (in_of nt n)) (io_mem s))
    (set_io_net (mk_loop (lo_out nt) (<[n := drop k (in_of nt n)]> (lo_in nt))) s)).

#[export] Instance loop_net : Net loop := {|
  net_bytestream := λ n, n <? 1000;
  net_sendl := loop_sendl;
  net_recvl := loop_recvl;
  net_close := λ _, mret tt;
  net_random := λ n, mret (Some (repeat 7 (Z.to_nat n)));
|}.

Lemma walk_valid h first lst l : valid h first lst l → walk (size h) h first = Some l.
Proof.
  intros (Hp & _). apply walk_path; [done|]. eapply seg_length; [exact Hp|]. by eapply path_nodup.
Qed.

#[export, refine] Instance loop_laws : NetLaws loop := {| net_out := out_of; net_in := in_of; net_infail := λ nt n, in_of nt n = []; net_outfail := λ _ _, False; net_skip := 2 ^ 64 |}.
Proof.
  - done.
  - intros n first last d s l bs _ _ Hv _ Hg. exists 0, (mk_loop (<[n := out_of (io_net s) n ++ bs]> (lo_out (io_net s))) (lo_in (io_net s))), (io_errno s).
    split; [|split; [done|left]].
    + unfold net_sendl, loop_net, loop_sendl. rewrite (walk_valid _ _ _ _ Hv). cbn [mbind option_bind].
      rewrite Hg. cbn [mbind option_bind]. by destruct s.
    + split; [done|]. unfold out_of. cbn [lo_out]. rewrite lookup_insert_eq. reflexivity.
  - intros n first last d s l _ _ Hv _ _ Hal. unfold net_recvl, loop_net, loop_recvl.
    rewrite (walk_valid _ _ _ _ Hv). cbn [mbind option_bind]. set (k := length (flat (io_nodes s) l)).
    destruct (Nat.ltb_spec (length (in_of (io_net s) n)) k).
    + eexists (-1), _, EPIPE, (io_mem s). split; [clear; by destruct s|]. split; [done|]. split; [done|]. split; [done|]. right.
      split; [done|]. unfold in_of. cbn [lo_in]. by rewrite lookup_insert_eq.
    + eexists 0, _, (io_errno s), _. split; [clear; by destruct s|]. split; [done|]. split; [by apply scatter_dom|].
      split; [intros a; apply scatter_ne|]. left. split; [done|].
      exists (take k (in_of (io_net s) n)). split; [rewrite length_take; lia|]. split; [|done].
      transitivity (take k (in_of (io_net s) n) ++ drop k (in_of (io_net s) n)); [by rewrite take_drop|].
      unfold in_of at 4. cbn [lo_in]. rewrite lookup_insert_eq. reflexivity.
Defined.

(** * Example states *)

Definition handles_of {N} `{NetN : Net N} (objs : list sobj) : dill_ctx_handle sobj :=
  match dill_ops (λ n, n <? 2 ^ 20) (λ _, true) sobj_query (λ _, mret tt) (map (λ v, Make (Some v)) objs)
    (mk_hst dill_ctx_handle_init false false E0) with
  | Some (_, s) => hctx s
  | None => dill_ctx_handle_init
  end.

Lemma handles_of_represent {N} `{NetN : Net N} objs :
  represents sobj_query (handles_of objs)
    (t_ops (t_expand (λ n, n <? 2 ^ 20)) (λ _, true) sobj_query false (map (λ v, Make (Some v)) objs) (mk_table ∅ [] 0)).2.
Proof.
  assert (Hleaf : ∀ (v : sobj) (s : hst sobj), ∃ e, (mret tt : HM sobj unit) s = Some (tt, set_err e s)).
  { intros v s. exists (herrno s). by destruct s. }
  assert (Hbound : ∀ n, (n <? 2 ^ 20) = true → n < 2 ^ 30 * SIZEOF_HANDLE).
  { unfold SIZEOF_HANDLE. intros n Hn. apply Z.ltb_lt in Hn. lia. }
  destruct (ops_refine (λ n, n <? 2 ^ 20) (λ _, true) sobj_query (λ _, mret tt) Hleaf Hbound
    (map (λ v, Make (Some v)) objs) (mk_hst dill_ctx_handle_init false false E0)
    (mk_table ∅ [] 0) (init_in_table _) ltac:(simpl; lia)) as (rs & s & E & _ & R & _).
  unfold handles_of. rewrite E. exact R.
Qed.

(** Coroutine state with objects [objs] at handles 0, 1, …, the lists [nodes], zeroed
    bytes from 1000 to 2000, and the input [ins] on sockets. *)
Definition demo_io (objs : list sobj) (nodes : list (Z * iolist)) (ins : list (Z * list Z)) : io loop :=
  mk_io E0 (list_to_map nodes) (zeros 1000 1000) 2000 5 (handles_of objs) false false ∅ ∅ ∅ ∅ ∅
    (mk_loop ∅ (list_to_map ins)).

Lemma demo_answers {N} `{NetN : Net N} objs (s : io N) h ty p :
  io_handles s = handles_of objs →
  (v ← live (t_ops (t_expand (λ n, n <? 2 ^ 20)) (λ _, true) sobj_query false (map (λ v, Make (Some v)) objs) (mk_table ∅ [] 0)).2 !! h;
   Some (sobj_query v ty)) = Some p → p ≠ NULL → answers h ty p s.
Proof.
  intros Hs Hl Hp. apply bind_Some in Hl as (v & Hv & [= Hq]). eexists _, v. rewrite Hs.
  split; [apply handles_of_represent|done].
Qed.

(** Decides [wf_io]. *)
Definition wf_io_b {N} (s : io N) : bool :=
  (0 <? io_next s) &&
  forallb (λ p, (0 <? p.1) && (p.1 <? io_next s) && ((0 <=? iol_base p.2) && (0 <=? iol_len p.2) && (iol_len p.2 <? 2 ^ 64)))
    (map_to_list (io_nodes s)) &&
  forallb (λ p, (0 <? p.1) && (p.1 <? io_next s)) (map_to_list (io_mem s)).

Lemma wf_io_b_sound {N} (s : io N) : wf_io_b s = true → wf_io s.
Proof.
  unfold wf_io_b. rewrite !andb_true_iff, !forallb_forall. intros [[H1 H2] H3]. apply Z.ltb_lt in H1.
  assert (Hn : ∀ p nd, io_nodes s !! p = Some nd → 0 < p < io_next s ∧ 0 ≤ iol_base nd ∧ 0 ≤ iol_len nd < 2 ^ 64).
  { intros p nd Hv. specialize (H2 (p, nd)). rewrite <- list_elem_of_In, elem_of_map_to_list in H2.
    specialize (H2 Hv). cbn in H2. lia. }
  split; [done| | |].
  - intros p [v Hv]. by apply (Hn p v).
  - intros p [v Hv]. specialize (H3 (p, v)). rewrite <- list_elem_of_In, elem_of_map_to_list in H3.
    specialize (H3 Hv). cbn in H3. lia.
  - intros p v Hv. by apply (Hn p v).
Qed.
