(* ===== verification/Prefix.v ===== *)
(** The PREFIX protocol ([prefix.c]): each message is preceded by its size. *)

From Stdlib Require Import ZArith Lia.
From stdpp Require Import base gmap list.
From S2P Require Import Prelude Bytes Handle Iol Sock Loop.
Open Scope Z_scope.

Definition DILL_PREFIX_LITTLE_ENDIAN : Z := 1.

(** The loop that writes the header: [szbuf] from index [i] on. *)
Fixpoint write_header (big : bool) (len i fuel : nat) (sz : Z) (szbuf : list Z) : list Z :=
  match fuel with
  | O => szbuf
  | S fuel =>
    write_header big len (S i) fuel (Z.shiftr sz 8)
      (<[(if big then len - i - 1 else i)%nat := Z.land sz 0xff]> szbuf)
  end.

(** The loop that reads it. *)
Fixpoint read_header (big : bool) (len i fuel : nat) (szbuf : list Z) (sz : Z) : Z :=
  match fuel with
  | O => sz
  | S fuel =>
    let c := nth (if big then i else len - i - 1)%nat szbuf 0 in
    read_header big len (S i) fuel szbuf (Z.lor (u64 (Z.shiftl sz 8)) c)
  end.

(** Trim the list to [rmn] bytes: the element where it ends, and what remains for
    it; [None] when the list is too short. *)
Fixpoint trim_loop (fuel : nat) (it : ptr) (rmn : Z) (h : gmap Z iolist) : option (option (ptr * Z)) :=
  match fuel with
  | O => None
  | S fuel =>
    n ← h !! it;
    if rmn <=? iol_len n then Some (Some (it, rmn))
    else if iol_next n =? NULL then Some None
    else trim_loop fuel (iol_next n) (rmn - iol_len n) h
  end.

Section Prefix.
Context {N : Type} `{NetN : Net N}.
Context (close : sobj → IO N unit).
Local Instance env : HandleEnv sobj (IO N) := io_env close.

Definition get_prefix (p : ptr) : IO N dill_prefix_sock := λ s, x ← io_prefixes s !! p; Some (x, s).
Definition put_prefix (p : ptr) (x : dill_prefix_sock) : IO N unit :=
  modify (λ s, set_io_prefixes (<[p := x]> (io_prefixes s)) s).
Definition set_px_inerr (p : ptr) : IO N unit :=
  x ← get_prefix p;
  put_prefix p (mk_prefix (px_u x) (hdrlen x) (bigendian x) true (px_outerr x) (px_mem x)).
Definition set_px_outerr (p : ptr) : IO N unit :=
  x ← get_prefix p;
  put_prefix p (mk_prefix (px_u x) (hdrlen x) (bigendian x) (px_inerr x) true (px_mem x)).

Definition dill_prefix_attach_mem (s : Z) (hdrlen flags : Z) (mem : option ptr) : IO N Z :=
  match mem with
  | None => attach_error close s EINVAL
  | Some self =>
    if hdrlen =? 0 then attach_error close s EINVAL
    else
      s ← hown close s;
      if s <? 0 then attach_errno close s
      else
        q ← hquery close s dill_bsock_type;
        err ← get_errno;
        if (q =? NULL) && bool_decide (err = ENOTSUP) then attach_error close s EPROTO
        else if q =? NULL then attach_error close s err
        else
          put_prefix self (mk_prefix s hdrlen (Z.land flags DILL_PREFIX_LITTLE_ENDIAN =? 0) false false true);;
          h ← hmake close (OPrefix self);
          if h <? 0 then attach_errno close s else mret h
  end.

Definition SIZEOF_PREFIX : Z := 56.

Definition dill_prefix_attach (s : Z) (hdrlen flags : Z) : IO N Z :=
  o ← malloc SIZEOF_PREFIX;
  match o with
  | None => attach_error close s ENOMEM
  | Some obj =>
    s ← dill_prefix_attach_mem s hdrlen flags (Some obj);
    if s <? 0 then
      err ← get_errno;
      modify (λ s, set_io_prefixes (delete obj (io_prefixes s)) s);;
      free obj SIZEOF_PREFIX;;
      attach_error close s err
    else
      x ← get_prefix obj;
      put_prefix obj (mk_prefix (px_u x) (Sock.hdrlen x) (bigendian x) (px_inerr x) (px_outerr x) false);;
      mret s
  end.

(** [free(self)] *)
Definition free_prefix (self : ptr) : IO N unit :=
  modify (λ s, set_io_prefixes (delete self (io_prefixes s)) s);;
  free self SIZEOF_PREFIX.

Definition dill_prefix_detach (s : Z) : IO N Z :=
  self ← hquery close s dill_prefix_type;
  if self =? NULL then attach_errno close s
  else
    x ← get_prefix self;
    if px_inerr x || px_outerr x then attach_error close s ECONNRESET
    else
      (if px_mem x then mret tt else free_prefix self);;
      mret (px_u x).

Definition dill_prefix_msendl (self first last : ptr) (deadline : Z) : IO N Z :=
  x ← get_prefix self;
  if px_outerr x then fail ECONNRESET
  else
    let len := Z.to_nat (hdrlen x) in
    with_buf (hdrlen x) (λ szbuf,
      sz ← read_nodes (λ h, sum_len (S (size h)) first 0 h);
      bytes ← load szbuf (hdrlen x);
      store szbuf (write_header (bigendian x) len 0 len sz bytes);;
      with_iol (mk_iolist szbuf (hdrlen x) first 0) (λ hdr,
        rc ← dill_bsendl close (px_u x) hdr last deadline;
        if rc <? 0 then set_px_outerr self;; mret (-1) else mret 0)).

Definition dill_prefix_mrecvl (self first last : ptr) (deadline : Z) : IO N Z :=
  x ← get_prefix self;
  if px_inerr x then fail ECONNRESET
  else
    let len := Z.to_nat (hdrlen x) in
    with_buf (hdrlen x) (λ szbuf,
      rc ← dill_brecv close (px_u x) szbuf (hdrlen x) deadline;
      if rc <? 0 then set_px_inerr self;; mret (-1)
      else
        bytes ← load szbuf (hdrlen x);
        let sz := read_header (bigendian x) len 0 len bytes 0 in
        if first =? NULL then
          rc ← dill_brecv close (px_u x) NULL sz deadline;
          if rc <? 0 then set_px_inerr self;; mret (-1) else mret (s64 sz)
        else
          t ← read_nodes (λ h, trim_loop (S (size h)) first sz h);
          match t with
          | None => set_px_inerr self;; fail EMSGSIZE
          | Some (it, rmn) =>
            n ← get_node it;
            put_node it (mk_iolist (iol_base n) rmn NULL (iol_rsvd n));;
            (** [last] is passed even when [it] comes before it *)
            rc ← dill_brecvl close (px_u x) first last deadline;
            n' ← get_node it;
            put_node it (mk_iolist (iol_base n') (iol_len n) (iol_next n) (iol_rsvd n'));;
            if rc <? 0 then set_px_inerr self;; mret (-1) else mret (s64 sz)
          end).

Definition dill_prefix_hclose (self : ptr) : IO N unit :=
  x ← get_prefix self;
  close_under close (px_u x);;
  if px_mem x then mret tt else free_prefix self.
End Prefix.

(** * The header *)

(** The [k] low bytes of [z], the least significant first. *)
Fixpoint le_bytes (k : nat) (z : Z) : list Z :=
  match k with O => [] | S k => z mod 256 :: le_bytes k (z / 256) end.

Definition header (big : bool) (k : nat) (z : Z) : list Z :=
  if big then rev (le_bytes k z) else le_bytes k z.

Lemma length_le_bytes k : ∀ z, length (le_bytes k z) = k.
Proof. induction k as [|k IH]; intros z; cbn; [done|]. by rewrite IH. Qed.

Lemma length_header big k z : length (header big k z) = k.
Proof. destruct big; cbn; rewrite ?length_rev; apply length_le_bytes. Qed.

Lemma header_bytes big k z : Forall is_byte (header big k z).
Proof.
  assert (H : ∀ z, Forall is_byte (le_bytes k z)).
  { clear z. induction k as [|k IH]; intros z; cbn; [done|]. constructor; [|apply IH].
    unfold is_byte. apply Z.mod_pos_bound. lia. }
  destruct big; cbn; [|apply H]. apply Forall_rev, H.
Qed.

Lemma write_header_spec big len fuel : ∀ i sz buf,
  (i + fuel = len)%nat → length buf = len →
  write_header big len i fuel sz buf =
    if big then rev (le_bytes fuel sz) ++ drop fuel buf else take i buf ++ le_bytes fuel sz.
Proof.
  induction fuel as [|fuel IH]; intros i sz buf Hi Hb.
  - destruct big; cbn; [done|]. rewrite app_nil_r, take_ge by lia. done.
  - cbn [write_header le_bytes rev]. rewrite IH; [|lia|rewrite length_insert; lia].
    change 0xff with 255. rewrite land_255, shiftr_div by lia. change (2 ^ 8) with 256. destruct big.
    + rewrite <- app_assoc. f_equal. cbn [app].
      replace (len - i - 1)%nat with fuel by lia.
      rewrite (drop_S _ (sz mod 256)) by (apply list_lookup_insert_eq; lia).
      by rewrite drop_insert_lt by lia.
    + rewrite (take_S_r _ _ (sz mod 256)) by (apply list_lookup_insert_eq; lia).
      rewrite take_insert_ge by lia. by rewrite <- app_assoc.
Qed.

Lemma write_header_eq big k sz buf :
  length buf = k → write_header big k 0 k sz buf = header big k sz.
Proof.
  intros H. rewrite write_header_spec by lia. destruct big; cbn; [|done].
  by rewrite drop_ge, app_nil_r by lia.
Qed.

(** What reading does with one byte after the other. *)
Definition shift_in (acc c : Z) : Z := Z.lor (u64 (Z.shiftl acc 8)) c.

Lemma read_header_spec big len fuel : ∀ i buf acc,
  (i + fuel = len)%nat → length buf = len →
  read_header big len i fuel buf acc =
    fold_left shift_in (if big then drop i buf else rev (take fuel buf)) acc.
Proof.
  induction fuel as [|fuel IH]; intros i buf acc Hi Hb.
  - destruct big; cbn; [by rewrite drop_ge by lia|done].
  - cbn [read_header]. rewrite IH by lia. unfold shift_in at 2. fold shift_in. destruct big.
    + destruct (lookup_lt_is_Some_2 buf i ltac:(lia)) as [c Hc].
      rewrite (drop_S _ c i Hc). cbn [fold_left]. by rewrite (nth_lookup_Some _ _ _ _ Hc).
    + destruct (lookup_lt_is_Some_2 buf fuel ltac:(lia)) as [c Hc].
      rewrite (take_S_r _ _ c Hc), rev_app_distr. cbn [rev app fold_left].
      replace (len - i - 1)%nat with fuel by lia. by rewrite (nth_lookup_Some _ _ _ _ Hc).
Qed.

Lemma shift_in_eq acc c : is_byte c → shift_in acc c = u64 (acc * 256 + c).
Proof.
  unfold is_byte, shift_in, u64. intros Hc. rewrite Z.shiftl_mul_pow2 by lia.
  change (2 ^ 64) with (2 ^ 56 * 2 ^ 8) at 1. rewrite Z.mul_mod_distr_r by lia.
  rewrite (lor_mul_add _ c 8) by lia.
  pose proof (Z.mod_pos_bound acc (2 ^ 56) ltac:(lia)). pose proof (Z.div_mod acc (2 ^ 56) ltac:(lia)).
  apply (Z.mod_unique_pos _ _ (acc / 2 ^ 56)); lia.
Qed.

Lemma shift_in_fold bs : Forall is_byte bs → ∀ acc,
  fold_left shift_in bs (u64 acc) = u64 (fold_left (λ acc b, acc * 256 + b) bs acc).
Proof.
  induction 1 as [|b bs Hb _ IH]; intros acc; [done|]. cbn [fold_left].
  rewrite shift_in_eq by done. rewrite <- IH. f_equal. unfold u64.
  rewrite <- Z.add_mod_idemp_l, Z.mul_mod_idemp_l, Z.add_mod_idemp_l by lia. done.
Qed.

Lemma be_le_bytes k : ∀ z, be (rev (le_bytes k z)) = z mod 256 ^ Z.of_nat k.
Proof.
  unfold be. induction k as [|k IH]; intros z; [cbn; by rewrite Z.mod_1_r|].
  cbn [le_bytes rev]. rewrite fold_left_app, IH. cbn [fold_left].
  rewrite Nat2Z.inj_succ, Z.pow_succ_r by lia. rewrite Z.rem_mul_r by lia. lia.
Qed.

(** What comes out of a header of [k] bytes written for size [z]. *)
Lemma read_header_header big k z :
  read_header big k 0 k (header big k z) 0 = u64 (z mod 256 ^ Z.of_nat k).
Proof.
  rewrite read_header_spec; [|lia|apply length_header]. change 0 with (u64 0).
  assert (E : (if big then drop 0 (header big k z) else rev (take k (header big k z))) = rev (le_bytes k z)).
  { destruct big; cbn; [done|]. by rewrite take_ge by (by rewrite length_le_bytes). }
  rewrite E, shift_in_fold; [by rewrite <- be_le_bytes|]. apply Forall_rev, (header_bytes false).
Qed.

(** The header of a PREFIX message: whatever was in the array, the loop of
    [dill_prefix_msendl] fills all [k] bytes of it, in either byte order, and the loop
    of [dill_prefix_mrecvl] reads from them the size modulo [256 ^ k] (and modulo
    [2 ^ 64]): a size that fits is read back, a larger one is silently truncated. *)
Lemma prefix_header_codec big k z buf :
  length buf = k →
  length (write_header big k 0 k z buf) = k ∧ Forall is_byte (write_header big k 0 k z buf) ∧
  read_header big k 0 k (write_header big k 0 k z buf) 0 = u64 (z mod 256 ^ Z.of_nat k).
Proof.
  intros H. rewrite write_header_eq by done.
  split_and!; [apply length_header|apply header_bytes|apply read_header_header].
Qed.

Lemma prefix_header_codec_witness :
  length (write_header false 2 0 2 70000 [1; 2]) = 2%nat ∧ Forall is_byte (write_header false 2 0 2 70000 [1; 2]) ∧
  read_header false 2 0 2 (write_header false 2 0 2 70000 [1; 2]) 0 = u64 (70000 mod 256 ^ 2).
Proof. exact (prefix_header_codec false 2 70000 [1; 2] eq_refl). Defined.

(** * Messages *)

(** The element of a list where a message of [rmn] bytes ends, if it does. *)
Lemma trim_loop_spec h l : ∀ it lst rmn fuel,
  path h it (l ++ [lst]) → sized h (l ++ [lst]) → (length l < fuel)%nat →
  (l = [] ∨ total h l < rmn) →
  trim_loop fuel it rmn h =
    Some (if rmn - total h l <=? iol_len (node h lst) then Some (lst, rmn - total h l) else None).
Proof.
  induction l as [|x l IH]; intros it lst rmn fuel Hp Hs Hf Hr.
  - destruct Hp as (-> & Hx & f & Hfx & Hp). destruct fuel as [|fuel]; [lia|].
    cbn [trim_loop total foldr]. rewrite Hfx, (node_lookup _ _ _ Hfx), Z.sub_0_r. cbn [mbind option_bind].
    destruct (rmn <=? iol_len f); [done|]. cbn in Hp. by rewrite Hp.
  - destruct Hp as (-> & Hx & f & Hfx & Hp). destruct fuel as [|fuel]; [simpl in Hf; lia|].
    destruct Hr as [?|Hr]; [done|]. cbn [total foldr] in *. fold (total h l) in *.
    rewrite (node_lookup _ _ _ Hfx) in *.
    assert (Hsl : sized h l). { intros y Hy. apply Hs. apply elem_of_app. left. by right. }
    pose proof (length_flat h l Hsl). pose proof (Hs x ltac:(left)) as Hsx. rewrite (node_lookup _ _ _ Hfx) in Hsx.
    cbn [trim_loop]. rewrite Hfx. cbn [mbind option_bind]. destruct (Z.leb_spec rmn (iol_len f)); [lia|].
    assert (Hnn : iol_next f ≠ NULL).
    { destruct l; [by destruct Hp as (-> & ? & _)|]. by destruct Hp as (-> & ? & _). }
    rewrite (proj2 (Z.eqb_neq _ _) Hnn). rewrite (IH _ lst); [|done| |simpl in Hf; lia|right; lia].
    + by replace (rmn - iol_len f - total h l) with (rmn - (iol_len f + total h l)) by lia.
    + intros y Hy. apply Hs. by right.
Qed.

Section Spec.
Context {N : Type} `{LawsN : NetLaws N}.
Context (close : sobj → IO N unit).

Lemma wp_get_prefix self x (Q : dill_prefix_sock → io N → Prop) s :
  io_prefixes s !! self = Some x → Q x s → wp (get_prefix self) Q s.
Proof. intros H0 HQ. unfold wp, get_prefix. by rewrite H0. Qed.

Definition out_failed (x : dill_prefix_sock) : dill_prefix_sock :=
  mk_prefix (px_u x) (hdrlen x) (bigendian x) (px_inerr x) true (px_mem x).
Definition in_failed (x : dill_prefix_sock) : dill_prefix_sock :=
  mk_prefix (px_u x) (hdrlen x) (bigendian x) true (px_outerr x) (px_mem x).

(** What sending the message [bs] over the bytestream [n] did. *)
Definition prefix_sent (self : ptr) (x : dill_prefix_sock) (n : Z) (bs : list Z) (s : io N) (rc : Z) (s' : io N) : Prop :=
  io_nodes s' = io_nodes s ∧ io_mem s' = io_mem s ∧ wf_io s' ∧ keeps s s' ∧
  net_in (io_net s') n = net_in (io_net s) n ∧
  ((rc = 0 ∧ io_prefixes s' = io_prefixes s ∧
    net_out (io_net s') n = net_out (io_net s) n ++
      header (bigendian x) (Z.to_nat (hdrlen x)) (u64 (Z.of_nat (length bs))) ++ bs) ∨
   (rc = -1 ∧ net_outfail (io_net s') n ∧ io_prefixes s' = <[self := out_failed x]> (io_prefixes s))).

(** What receiving the message [bs], followed by [rest], into the slots [sl] did. *)
Definition prefix_received (self : ptr) (x : dill_prefix_sock) (n : Z) (sl : list (option ptr)) (bs rest : list Z)
    (s : io N) (rc : Z) (s' : io N) : Prop :=
  io_nodes s' = io_nodes s ∧ dom (io_mem s') = dom (io_mem s) ∧ wf_io s' ∧ keeps s s' ∧
  net_out (io_net s') n = net_out (io_net s) n ∧
  ((rc = Z.of_nat (length bs) ∧ io_prefixes s' = io_prefixes s ∧ net_in (io_net s') n = rest ∧
    io_mem s' = scatter (take (length bs) sl) bs (io_mem s)) ∨
   (rc = -1 ∧ net_infail (io_net s') n ∧ io_prefixes s' = <[self := in_failed x]> (io_prefixes s))).

(** The list of buffers with a node for the header [hd] in front, in a local array *)
Lemma header_listed first lst l bs hd k (s : io N) :
  let s1 := enter k s in let a := io_next s in let b := io_next s1 in
  let s2 := set_io_nodes (<[b := mk_iolist a k first 0]> (io_nodes s))
    (set_io_next (b + 1) (set_io_mem (scatter (arr a k) hd (io_mem s1)) s1)) in
  wf_io s → 0 < k < 2 ^ 64 → Z.of_nat (length hd) = k → valid (io_nodes s) first lst l → l ≠ [] →
  gather (io_mem s) (flat (io_nodes s) l) = Some bs →
  wf_io s2 ∧ valid (io_nodes s2) b lst (b :: l) ∧ gather (io_mem s2) (flat (io_nodes s2) (b :: l)) = Some (hd ++ bs) ∧
  delete b (io_nodes s2) = io_nodes s ∧ filter (λ p, ¬ (a ≤ p.1 < a + k)) (io_mem s2) = io_mem s ∧ io_next s ≤ b + 1.
Proof.
  intros s1 a b s2 Hwf Hk Hhd Hv Hne Hg. destruct (gather_some _ _ _ Hg) as (Hal & _ & _). pose proof (wi_next _ Hwf) as Hnx.
  assert (Hwf1 : wf_io s1) by by apply wf_enter. assert (Ha0 : a ≠ NULL) by (unfold a, NULL; lia).
  assert (Hb : io_nodes s !! b = None).
  { destruct (io_nodes s !! b) eqn:E; [|done]. pose proof (wi_nodes _ Hwf1 b ltac:(by eexists)). unfold b in *. lia. }
  assert (Hb0 : b ≠ NULL) by (pose proof (wi_next _ Hwf1); unfold b, NULL; lia).
  assert (Hbl : b ∉ l).
  { intros Hin. destruct Hv as (Hp & _). pose proof (seg_alloc _ _ _ _ _ Hp Hin) as [v Hv']. by simplify_eq. }
  assert (Hlow : ∀ y, is_Some (io_mem s !! y) → y < a) by (intros y Hy; by apply (wi_mem _ Hwf)).
  assert (Hoth : ∀ y, ¬ a ≤ y < a + k → io_mem s2 !! y = io_mem s !! y).
  { intros y Hy. cbn [io_mem s2 set_io_nodes set_io_next set_io_mem]. rewrite scatter_ne by (by rewrite elem_of_arr).
    by apply zeros_other. }
  split_and!.
  - eapply (wf_with_node b (mk_iolist a k first 0) (set_io_mem (scatter (arr a k) hd (io_mem s1)) s1)); cbn; [|lia|unfold a; lia|lia].
    apply (wf_same s1); [done|done|by apply scatter_dom; apply zeros_alloc|cbn; lia].
  - by apply valid_cons.
  - cbn [io_nodes s2 set_io_nodes]. rewrite flat_cons by done. rewrite gather_app. destruct (arr_nodup a k Ha0).
    pose proof (length_arr a k ltac:(lia)).
    assert (Eh : gather (io_mem s2) (arr a k) = Some hd) by (apply (gather_scatter (arr a k) hd); [done|done|lia]).
    rewrite Eh. cbn [mbind option_bind].
    rewrite (gather_ext _ (io_mem s)); [by rewrite Hg|]. intros y Hy. apply Hoth. specialize (Hlow y (Hal y Hy)). lia.
  - by apply delete_insert_id.
  - by apply drop_buf.
  - unfold b. cbn. lia.
Qed.

(** Sending a message: [dill_prefix_msendl] of a list of buffers sends the size of
    the message in [hdrlen] bytes, in the byte order of the socket, and then its
    bytes, and returns 0; or the underlying socket failed, the result is -1 and the
    output direction is broken.  Memory and lists are as before. *)
Lemma prefix_msendl_frames self first lst d s x l bs n :
  wf_io s → io_prefixes s !! self = Some x → px_outerr x = false → 0 < hdrlen x < 2 ^ 64 →
  answers (px_u x) dill_bsock_type n s → net_bytestream n = true →
  valid (io_nodes s) first lst l → l ≠ [] → sized (io_nodes s) l → gather (io_mem s) (flat (io_nodes s) l) = Some bs →
  wp (dill_prefix_msendl close self first lst d) (prefix_sent self x n bs s) s.
Proof.
  intros Hwf Hx Hoe Hh Ha Hn Hv Hne Hsz Hg. destruct (gather_some _ _ _ Hg) as (_ & Hlen & _).
  unfold dill_prefix_msendl. apply wp_bind, (wp_get_prefix _ _ _ _ Hx). rewrite Hoe.
  apply wp_with_buf. set (s1 := enter _ s). set (a := io_next s).
  assert (Ha0 : a ≠ NULL) by (pose proof (wi_next _ Hwf); unfold a, NULL; lia).
  apply wp_bind. pose proof Hv as (Hp & _ & _). pose proof (path_nodup _ _ _ Hp) as Hnd.
  assert (Hsum : sum_len (S (size (io_nodes s1))) first 0 (io_nodes s1) = Some (u64 (Z.of_nat (length bs)))).
  { change 0 with (u64 0) at 1. rewrite (sum_len_spec _ l); [by rewrite Hlen, length_flat|done|done|].
    pose proof (seg_length _ _ _ _ Hp Hnd). cbn. lia. }
  unfold wp at 1, read_nodes. rewrite Hsum. apply wp_bind.
  destruct (gather_alloc (io_mem s1) (arr a (hdrlen x))) as [bs0 Hbs0];
    [by apply zeros_alloc|by apply arr_nodup|]. pose proof (gather_some _ _ _ Hbs0) as (_ & Hl0 & _).
  pose proof (length_arr a (hdrlen x) ltac:(lia)) as Hla.
  apply (wp_load _ _ bs0); [by rewrite load_arr by lia|].
  set (hd := header (bigendian x) (Z.to_nat (hdrlen x)) (u64 (Z.of_nat (length bs)))).
  assert (Hhd : Z.of_nat (length hd) = hdrlen x) by (unfold hd; rewrite length_header; lia).
  apply wp_bind. apply (wp_store _ _ (scatter (arr a (hdrlen x)) hd (io_mem s1))).
  { rewrite write_header_eq by lia. apply store_arr; [done|by apply zeros_alloc|done]. }
  destruct (header_listed first lst l bs hd (hdrlen x) s Hwf Hh Hhd Hv Hne Hg) as (Hwf2 & Hv2 & Hg2 & Hnodes & Hmem & Hnx).
  apply wp_with_iol. apply wp_bind.
  eapply (wp_bsendl _ _ n _ _ _ _ (io_next s1 :: l) (hd ++ bs)); [exact Hwf2|exact Ha|done|exact Hv2|done|exact Hg2|].
  intros rc c nt e Hk (Hin & Hrc).
  destruct Hrc as [[-> Hout]|[-> F]].
  - apply wp_ret. split_and!; [exact Hnodes|exact Hmem| |exact Hk|exact Hin|].
    + apply (wf_same s); [done|exact Hnodes|exact (f_equal dom Hmem)|exact Hnx].
    + left. split_and!; [done|done|exact Hout].
  - apply wp_bind, wp_bind, (wp_get_prefix _ x); [exact Hx|]. apply wp_modify, wp_ret.
    split_and!; [exact Hnodes|exact Hmem| |exact Hk|exact Hin|].
    + apply (wf_same s); [done|exact Hnodes|exact (f_equal dom Hmem)|exact Hnx].
    + by right.
Qed.

Lemma header_value big k z : 0 ≤ z < 2 ^ 63 → z < 256 ^ Z.of_nat k → read_header big k 0 k (header big k z) 0 = z.
Proof. intros H0 H1. rewrite read_header_header, Z.mod_small by lia. unfold u64. rewrite Z.mod_small; lia. Qed.

(** Receiving the header into the local array. *)
Lemma wp_recv_header x n d s sz tl (Q : Z → io N → Prop) :
  wf_io s → 0 < hdrlen x < 2 ^ 64 → answers (px_u x) dill_bsock_type n s → net_bytestream n = true →
  net_in (io_net s) n = header (bigendian x) (Z.to_nat (hdrlen x)) sz ++ tl →
  (∀ rc c nt e m, let s2 := after c (io_next (enter (hdrlen x) s) + 1) m nt e (enter (hdrlen x) s) in
    dill_brecv close (px_u x) (io_next s) (hdrlen x) d (enter (hdrlen x) s) = Some (rc, s2) →
    keeps s s2 → net_out nt n = net_out (io_net s) n →
    dom m = dom (zeros (io_next s) (hdrlen x) ∪ io_mem s) →
    (∀ y, ¬ io_next s ≤ y < io_next s + hdrlen x → m !! y = io_mem s !! y) →
    (rc = 0 ∧ net_in nt n = tl ∧
      load_bytes (io_next s) (Z.to_nat (hdrlen x)) m = Some (header (bigendian x) (Z.to_nat (hdrlen x)) sz)) ∨ (rc = -1 ∧ net_infail nt n) →
    Q rc s2) →
  wp (dill_brecv close (px_u x) (io_next s) (hdrlen x) d) Q (enter (hdrlen x) s).
Proof.
  intros Hwf Hh Ha Hn Hin HQ. set (a := io_next s) in *. set (k := hdrlen x) in *.
  assert (Ha0 : a ≠ NULL) by (pose proof (wi_next _ Hwf); unfold a, NULL; lia).
  assert (Hwf1 : wf_io (enter k s)) by by apply wf_enter.
  destruct (brecv_spec close (px_u x) n a k d (enter k s)) as (rc & c & nt & e & m & E & Hk & Hout & Hdom & Hoth & Hrc);
    [done|exact Ha|done|lia|left; pose proof (wi_next _ Hwf); unfold a; lia|by apply zeros_alloc|].
  unfold wp. rewrite E. apply HQ; [exact E|exact Hk|exact Hout|exact Hdom| |].
  - intros y Hy. rewrite Hoth; [by apply zeros_other|]. by rewrite (elem_of_arr a k y Ha0).
  - destruct Hrc as [[-> (hd & Hhl & Hnet & Hm)]|[-> F]]; [left|by right].
    destruct (arr_nodup a k Ha0) as [Hand Hann]. pose proof (length_arr a k ltac:(lia)) as Hla.
    assert (hd = header (bigendian x) (Z.to_nat k) sz ∧ net_in nt n = tl) as [-> Hnt].
    { apply app_inj_1; [rewrite length_header; change (slots (mk_iolist a k NULL 0)) with (arr a k) in Hhl; lia|].
      rewrite <- Hin. symmetry. exact Hnet. }
    split_and!; [done|done|]. rewrite load_arr by lia. rewrite Hm. by apply gather_scatter.
Qed.

(** The list cut at its last element, the receiving, and the element as it was. *)
Lemma wp_cut_recv u n first lst d l f sz s (K : Z → IO N Z) (Q : Z → io N → Prop) :
  let rmn := sz - total (io_nodes s) l in
  wf_io s → answers u dill_bsock_type n s → net_bytestream n = true →
  valid (io_nodes s) first lst (l ++ [lst]) → sized (io_nodes s) (l ++ [lst]) → lst ∉ l →
  io_nodes s !! lst = Some f → iol_next f = NULL → 0 ≤ rmn ≤ iol_len f →
  allocated (io_mem s) (flat (io_nodes s) (l ++ [lst])) → fillable net_skip (io_nodes s) (l ++ [lst]) →
  (∀ rc c nt e m, keeps s (after c (io_next s) m nt e s) →
     recv_outcome n (take (Z.to_nat sz) (flat (io_nodes s) (l ++ [lst]))) s rc nt m →
     wp (K rc) Q (after c (io_next s) m nt e s)) →
  wp (f ← get_node lst; put_node lst (mk_iolist (iol_base f) rmn NULL (iol_rsvd f));;
      rc ← dill_brecvl close u first lst d; f' ← get_node lst;
      put_node lst (mk_iolist (iol_base f') (iol_len f) (iol_next f) (iol_rsvd f'));; K rc) Q s.
Proof.
  intros rmn Hwf Ha Hn Hv Hsz Hll Hf Hfn Hrm Hal Hfl HQ.
  apply wp_bind, (wp_get_node _ f); [exact Hf|]. apply wp_bind, wp_modify. apply wp_bind.
  set (h' := <[lst := _]> _).
  assert (Eh : h' = <[lst := mk_iolist (iol_base f) rmn (iol_next f) (iol_rsvd f)]> (io_nodes s)) by (unfold h'; by rewrite Hfn).
  assert (Hszl : sized (io_nodes s) l) by (intros y Hy; apply Hsz; apply elem_of_app; by left).
  assert (Hcut : flat h' (l ++ [lst]) = take (Z.to_nat sz) (flat (io_nodes s) (l ++ [lst])))
    by (rewrite Eh; by apply flat_cut).
  eapply (wp_brecvl _ _ n _ _ _ _ (l ++ [lst])).
  { unfold h'. by apply wf_relen. }
  { exact Ha. }
  { done. }
  { cbn [io_nodes set_io_nodes]. rewrite Eh. by apply valid_relen. }
  { by destruct l. }
  { cbn [io_nodes set_io_nodes]. rewrite Eh. apply fillable_relen; [done|done|lia|done]. }
  { cbn [io_nodes io_mem set_io_nodes]. rewrite Hcut. by apply allocated_take. }
  cbn [io_nodes set_io_nodes]. rewrite Hcut. intros rc c nt e m Hk Ho.
  apply wp_bind, (wp_get_node _ (mk_iolist (iol_base f) rmn (iol_next f) (iol_rsvd f))).
  { cbn [io_nodes after set_io_nodes set_io_handles set_io_next set_io_mem set_io_net set_io_errno].
    rewrite Eh. apply lookup_insert_eq. }
  apply wp_bind, wp_modify. cbn [iol_base iol_rsvd].
  assert (Hnodes : <[lst := mk_iolist (iol_base f) (iol_len f) (iol_next f) (iol_rsvd f)]> h' = io_nodes s).
  { rewrite Eh, insert_insert_eq. apply insert_id. rewrite Hf. by destruct f. }
  cbn [io_nodes after set_io_nodes set_io_handles set_io_next set_io_mem set_io_net set_io_errno]. rewrite Hnodes.
  apply (HQ rc c nt e m); [|done]. intros ty h p Hans. by apply Hk.
Qed.

(** The last element of a list, which the message ends in *)
Lemma trim_last first lst l sz (s : io N) :
  valid (io_nodes s) first lst (l ++ [lst]) → sized (io_nodes s) (l ++ [lst]) →
  l = [] ∨ total (io_nodes s) l < sz → 0 ≤ sz ≤ total (io_nodes s) (l ++ [lst]) →
  ∃ f, io_nodes s !! lst = Some f ∧ iol_next f = NULL ∧ lst ∉ l ∧ 0 ≤ sz - total (io_nodes s) l ≤ iol_len f ∧
    trim_loop (S (size (io_nodes s))) first sz (io_nodes s) = Some (Some (lst, sz - total (io_nodes s) l)).
Proof.
  intros Hv Hsz Hend Hfit. pose proof (valid_last _ _ _ _ Hv ltac:(by destruct l)) as (_ & _ & f & Hf & Hfn).
  pose proof Hv as (Hp & _ & _). pose proof (path_nodup _ _ _ Hp) as Hnd. pose proof (seg_length _ _ _ _ Hp Hnd) as Hlen.
  rewrite length_app in Hlen. cbn in Hlen. apply NoDup_app in Hnd as (_ & Hll & _).
  assert (Hszl : sized (io_nodes s) l) by (intros y Hy; apply Hsz; apply elem_of_app; by left).
  rewrite total_app in Hfit. cbn [total foldr] in Hfit. fold (total (io_nodes s) l) in Hfit.
  rewrite (node_lookup _ _ _ Hf) in Hfit. pose proof (length_flat _ l Hszl) as Htl.
  assert (Hrm : 0 ≤ sz - total (io_nodes s) l ≤ iol_len f) by (destruct Hend as [->|]; cbn in *; lia).
  exists f. split_and!; [done|done| |lia|lia|].
  { intros Hi. apply (Hll lst Hi). by left. }
  rewrite (trim_loop_spec _ l _ lst); [|done|done|lia|done].
  rewrite (node_lookup _ _ _ Hf). destruct (Z.leb_spec (sz - total (io_nodes s) l) (iol_len f)); [done|lia].
Qed.

(** The end of a failed call: the socket is marked, and the local array is gone. *)
Lemma wp_recv_failed self x n sl bs rest s c nt e m : let k := hdrlen x in let a := io_next s in
  wf_io s → io_prefixes s !! self = Some x → dom m = dom (zeros a k ∪ io_mem s) → net_out nt n = net_out (io_net s) n →
  net_infail nt n → keeps s (after c (io_next (enter k s) + 1) m nt e (enter k s)) →
  wp (set_px_inerr self;; mret (-1)) (λ rc s', prefix_received self x n sl bs rest s rc
    (set_io_mem (filter (λ p, ¬ (a ≤ p.1 < a + k)) (io_mem s')) s'))
    (after c (io_next (enter k s) + 1) m nt e (enter k s)).
Proof.
  intros k a Hwf Hx Hd Ho F Hk. apply wp_bind, wp_bind, (wp_get_prefix _ x); [exact Hx|]. apply wp_modify, wp_ret.
  assert (Hdf : dom (filter (λ p, ¬ (a ≤ p.1 < a + k)) m) = dom (io_mem s)).
  { apply drop_buf_dom; [|done]. intros y Hy. by apply (wi_mem _ Hwf). }
  split_and!; [done|exact Hdf| |exact Hk|exact Ho|by right].
  apply (wf_same s); [done|done|exact Hdf|cbn; lia].
Qed.

(** Receiving a message *)
Lemma wp_prefix_mrecvl self first lst d s x l bs rest n (Q : Z → io N → Prop) :
  wf_io s → io_prefixes s !! self = Some x → px_inerr x = false → 0 < hdrlen x < 2 ^ 64 →
  answers (px_u x) dill_bsock_type n s → net_bytestream n = true →
  valid (io_nodes s) first lst (l ++ [lst]) → sized (io_nodes s) (l ++ [lst]) →
  allocated (io_mem s) (flat (io_nodes s) (l ++ [lst])) → fillable net_skip (io_nodes s) (l ++ [lst]) →
  Z.of_nat (length bs) < 2 ^ 63 → Z.of_nat (length bs) < 256 ^ hdrlen x →
  l = [] ∨ total (io_nodes s) l < Z.of_nat (length bs) →
  Z.of_nat (length bs) ≤ total (io_nodes s) (l ++ [lst]) →
  net_in (io_net s) n = header (bigendian x) (Z.to_nat (hdrlen x)) (Z.of_nat (length bs)) ++ bs ++ rest →
  (∀ rc s', prefix_received self x n (flat (io_nodes s) (l ++ [lst])) bs rest s rc s' → Q rc s') →
  wp (dill_prefix_mrecvl close self first lst d) Q s.
Proof.
  intros Hwf Hx Hie Hh Ha Hn Hv Hsz Hal Hfl Hb63 Hbk Hend Hfit Hin HQ. eapply wp_mono; [|exact HQ]. clear HQ Q.
  unfold dill_prefix_mrecvl. apply wp_bind, (wp_get_prefix _ _ _ _ Hx). rewrite Hie.
  apply wp_with_buf. set (s1 := enter _ s). set (a := io_next s). set (k := hdrlen x) in *.
  assert (Hwf1 : wf_io s1) by by apply wf_enter. assert (Ha0 : a ≠ NULL) by (pose proof (wi_next _ Hwf); unfold a, NULL; lia).
  assert (Hlow : ∀ y, is_Some (io_mem s !! y) → y < a) by (intros y Hy; by apply (wi_mem _ Hwf)).
  apply wp_bind. eapply wp_recv_header; [done|done|exact Ha|done|exact Hin|].
  intros rc c nt e m s2 _ Hk Hout Hdom Hoth Hrc.
  destruct Hrc as [(-> & Hnt & Hload)|[-> F]].
  2:{ by apply wp_recv_failed. }
  set (big := bigendian x) in *. set (sz := Z.of_nat (length bs)) in *.
  apply wp_bind, (wp_load _ _ (header big (Z.to_nat k) sz)); [exact Hload|].
  rewrite header_value; [|lia|by rewrite Z2Nat.id by lia].
  pose proof (valid_last _ _ _ _ Hv ltac:(by destruct l)) as (Hf0 & _).
  rewrite (proj2 (Z.eqb_neq _ _) Hf0). apply wp_bind.
  destruct (trim_last first lst l sz s Hv Hsz Hend ltac:(lia)) as (f & Hf & Hfn & Hll & Hrm & Et).
  unfold wp at 1, read_nodes. change (io_nodes s2) with (io_nodes s). rewrite Et.
  assert (Halm : allocated m (flat (io_nodes s) (l ++ [lst]))).
  { eapply allocated_mono; [|exact Hal]. intros y Hy. apply elem_of_dom. rewrite Hdom.
    apply elem_of_dom in Hy. cbn. rewrite dom_union. by apply elem_of_union_r. }
  eapply (wp_cut_recv _ n first lst d l f sz s2); [|exact (Hk _ _ _ Ha)|done..|exact Halm|done|].
  { by apply wf_after; [done|cbn; lia|]. }
  change (io_nodes s2) with (io_nodes s). replace (Z.to_nat sz) with (length bs) by lia.
  intros rc c2 nt2 e2 m2 Hk2 (Hout2 & Hdom2 & _ & Hrc).
  assert (Hk' : keeps s (after c2 (io_next s2) m2 nt2 e2 s2)).
  { intros ??? Hans. apply Hk2, Hk, Hans. }
  assert (Hd2 : dom m2 = dom (zeros a k ∪ io_mem s)) by (rewrite Hdom2; exact Hdom).
  assert (Hdf : dom (filter (λ p, ¬ (a ≤ p.1 < a + k)) m2) = dom (io_mem s)) by by apply drop_buf_dom.
  assert (Ho : net_out nt2 n = net_out (io_net s) n) by (rewrite Hout2; exact Hout).
  destruct Hrc as [[-> (bs2 & Hl2 & Hnet2 & Hm2)]|[-> F]].
  - apply wp_ret. split_and!; [done|exact Hdf| |exact Hk'|exact Ho|left].
    + apply (wf_same s); [done|done|exact Hdf|cbn; lia].
    + assert (bs2 = bs ∧ net_in nt2 n = rest) as [-> Hr2].
      { apply app_inj_1; [|rewrite <- Hnt; exact (eq_sym Hnet2)]. rewrite Hl2, length_take.
        pose proof (length_flat _ _ Hsz). lia. }
      split_and!; [by apply s64_small; lia|done|done|]. cbn. apply drop_buf.
      * intros y Hy. apply Hlow, elem_of_dom. apply elem_of_dom in Hy. rewrite scatter_dom in Hy; [done|by apply allocated_take].
      * intros y Hy. rewrite Hm2. apply scatter_ext. by apply Hoth.
  - by apply (wp_recv_failed self x n _ _ _ s c2 nt2 e2 m2).
Qed.

(** C33. Receiving a message: when the input of the underlying socket starts with a
    frame, and the message ends in the last buffer of the list, then
    [dill_prefix_mrecvl] puts its bytes into the buffers, returns its size and leaves
    what follows the frame on the underlying socket.  Unless receiving from the underlying
    socket failed (its data ended, an error, a deadline): only then the result is -1 and
    the input direction is broken.  The list has its original shape at the end, even though
    the function cut it down.  A message that ends before the last buffer is not covered:
    the function passes the cut list with its old last element ([prefix.c], line 183). *)
Theorem prefix_mrecvl_receives self first lst d s x l bs rest n :
  wf_io s → io_prefixes s !! self = Some x → px_inerr x = false → 0 < hdrlen x < 2 ^ 64 →
  answers (px_u x) dill_bsock_type n s → net_bytestream n = true →
  valid (io_nodes s) first lst (l ++ [lst]) → sized (io_nodes s) (l ++ [lst]) →
  allocated (io_mem s) (flat (io_nodes s) (l ++ [lst])) → fillable net_skip (io_nodes s) (l ++ [lst]) →
  Z.of_nat (length bs) < 2 ^ 63 → Z.of_nat (length bs) < 256 ^ hdrlen x →
  l = [] ∨ total (io_nodes s) l < Z.of_nat (length bs) →
  Z.of_nat (length bs) ≤ total (io_nodes s) (l ++ [lst]) →
  net_in (io_net s) n = header (bigendian x) (Z.to_nat (hdrlen x)) (Z.of_nat (length bs)) ++ bs ++ rest →
  wp (dill_prefix_mrecvl close self first lst d)
    (prefix_received self x n (flat (io_nodes s) (l ++ [lst])) bs rest s) s.
Proof. intros. by eapply wp_prefix_mrecvl. Qed.

(** A broken direction of a PREFIX socket stays broken and touches nothing: the
    result is -1 with [ECONNRESET].  A message longer than the list of buffers
    breaks the input direction: the result is -1, with [EMSGSIZE] and the header
    consumed unless it is the header that could not be received. *)
Lemma prefix_refusals self first lst l d s x :
  io_prefixes s !! self = Some x →
  (px_outerr x = true → dill_prefix_msendl close self first lst d s = Some (-1, set_io_errno ECONNRESET s)) ∧
  (px_inerr x = true → dill_prefix_mrecvl close self first lst d s = Some (-1, set_io_errno ECONNRESET s)) ∧
  (∀ n sz rest, wf_io s → px_inerr x = false → 0 < hdrlen x < 2 ^ 64 →
    answers (px_u x) dill_bsock_type n s → net_bytestream n = true →
    valid (io_nodes s) first lst (l ++ [lst]) → sized (io_nodes s) (l ++ [lst]) →
    total (io_nodes s) (l ++ [lst]) < sz < 2 ^ 63 → sz < 256 ^ hdrlen x →
    net_in (io_net s) n = header (bigendian x) (Z.to_nat (hdrlen x)) sz ++ rest →
    wp (dill_prefix_mrecvl close self first lst d) (λ rc s',
      rc = -1 ∧ io_prefixes s' = <[self := in_failed x]> (io_prefixes s) ∧ io_nodes s' = io_nodes s ∧
      io_mem s' = io_mem s ∧
      ((io_errno s' = EMSGSIZE ∧ net_in (io_net s') n = rest) ∨
       ∃ s2, dill_brecv close (px_u x) (io_next s) (hdrlen x) d (enter (hdrlen x) s) = Some (-1, s2))) s).
Proof.
  intros Hx. split; [|split].
  - intros Ho. unfold dill_prefix_msendl, get_prefix. cbv [mbind IO_bind]. rewrite Hx. cbn [mbind option_bind].
    by rewrite Ho.
  - intros Hi. unfold dill_prefix_mrecvl, get_prefix. cbv [mbind IO_bind]. rewrite Hx. cbn [mbind option_bind].
    by rewrite Hi.
  - intros n sz rest Hwf Hie Hh Ha Hn Hv Hsz Hbig Hbk Hin.
    unfold dill_prefix_mrecvl. apply wp_bind, (wp_get_prefix _ _ _ _ Hx). rewrite Hie.
    apply wp_with_buf. apply wp_bind. eapply wp_recv_header; [done|done|exact Ha|done|exact Hin|].
    intros rc c nt e m s2 E Hk Hout Hdom Hoth Hrc. set (k := hdrlen x) in *. set (a := io_next s) in *.
    assert (Em : filter (λ p, ¬ (a ≤ p.1 < a + k)) m = io_mem s).
    { apply drop_buf; [|done]. intros y Hy. by apply (wi_mem _ Hwf). }
    destruct Hrc as [(-> & Hnt & Hload)|[-> F]].
    2:{ apply wp_bind, wp_bind, (wp_get_prefix _ x); [exact Hx|]. apply wp_modify, wp_ret.
      split_and!; [done|done|done|exact Em|right; by eexists]. }
    apply wp_bind, (wp_load _ _ (header (bigendian x) (Z.to_nat k) sz)); [exact Hload|].
    assert (Hszl : sized (io_nodes s) l) by (intros y Hy; apply Hsz; apply elem_of_app; by left).
    pose proof (length_flat _ l Hszl) as Htl. pose proof (length_flat _ _ Hsz) as Htl'.
    rewrite header_value; [|lia|by rewrite Z2Nat.id by lia].
    pose proof (valid_last _ _ _ _ Hv ltac:(by destruct l)) as (Hf0 & _ & f & Hf & Hfn).
    rewrite (proj2 (Z.eqb_neq _ _) Hf0). apply wp_bind.
    pose proof Hv as (Hp & _ & _). pose proof (path_nodup _ _ _ Hp) as Hnd. pose proof (seg_length _ _ _ _ Hp Hnd) as Hlen.
    rewrite length_app in Hlen. cbn in Hlen. rewrite total_app in Hbig. cbn [total foldr] in Hbig.
    fold (total (io_nodes s) l) in Hbig.
    assert (Hlst : 0 ≤ iol_len (node (io_nodes s) lst)) by (apply Hsz; apply elem_of_app; right; by left).
    assert (Et : trim_loop (S (size (io_nodes s2))) first sz (io_nodes s2) = Some None).
    { change (io_nodes s2) with (io_nodes s). rewrite (trim_loop_spec _ l _ lst); [|done|done|lia|right; lia].
      destruct (Z.leb_spec (sz - total (io_nodes s) l) (iol_len (node (io_nodes s) lst))); [lia|done]. }
    unfold wp at 1, read_nodes. rewrite Et.
    apply wp_bind, wp_bind, (wp_get_prefix _ x); [exact Hx|]. apply wp_modify, wp_fail.
    split_and!; [done|done|done|exact Em|by left].
Qed.
End Spec.

(** * Examples *)

Definition demo_prefix : dill_prefix_sock := mk_prefix 0 2 true false false true.
Definition prefix_nodes : list (Z * iolist) := [(10, mk_iolist 1000 2 11 0); (11, mk_iolist 1010 3 NULL 0)].

Definition demo_prefix_io (ins : list Z) : io loop :=
  set_io_prefixes {[50 := demo_prefix]} (demo_io [ONet 5; OPrefix 50] prefix_nodes [(5, ins)]).

Lemma demo_list : valid (list_to_map prefix_nodes) 10 11 ([10] ++ [11]).
Proof.
  split; [|split; [done|]].
  - split; [done|]. split; [done|]. eexists. split; [reflexivity|]. split; [done|]. split; [done|]. by eexists.
  - intros x Hx. apply elem_of_cons in Hx as [->|Hx]; [done|]. by apply list_elem_of_singleton in Hx as ->.
Qed.

Lemma demo_list_sized : sized (list_to_map prefix_nodes) ([10] ++ [11]).
Proof.
  intros x Hx. apply elem_of_cons in Hx as [->|Hx]; [by vm_compute|]. apply list_elem_of_singleton in Hx as ->.
  by vm_compute.
Qed.

Lemma demo_list_bytes ins :
  gather (io_mem (demo_prefix_io ins)) (flat (io_nodes (demo_prefix_io ins)) ([10] ++ [11])) = Some [0; 0; 0; 0; 0].
Proof. vm_compute. reflexivity. Qed.

Definition demo_close_io (v : sobj) : IO loop unit := mret tt.

Lemma prefix_msendl_frames_witness :
  wp (dill_prefix_msendl demo_close_io 50 10 11 (-1))
    (prefix_sent 50 demo_prefix 5 [0; 0; 0; 0; 0] (demo_prefix_io [])) (demo_prefix_io []).
Proof.
  apply (prefix_msendl_frames demo_close_io 50 10 11 (-1) (demo_prefix_io []) demo_prefix ([10] ++ [11]) [0;0;0;0;0] 5).
  - apply wf_io_b_sound. vm_compute. reflexivity.
  - reflexivity.
  - reflexivity.
  - by vm_compute.
  - apply (demo_answers [ONet 5; OPrefix 50]); [reflexivity| |done]. vm_compute. reflexivity.
  - reflexivity.
  - apply demo_list.
  - done.
  - apply demo_list_sized.
  - apply demo_list_bytes.
Defined.

Lemma prefix_mrecvl_receives_witness :
  wp (dill_prefix_mrecvl demo_close_io 50 10 11 (-1))
    (prefix_received 50 demo_prefix 5 (flat (list_to_map prefix_nodes) ([10] ++ [11])) [1; 2; 3; 4] [9]
      (demo_prefix_io [0; 4; 1; 2; 3; 4; 9])) (demo_prefix_io [0; 4; 1; 2; 3; 4; 9]).
Proof.
  apply (prefix_mrecvl_receives demo_close_io 50 10 11 (-1) (demo_prefix_io [0; 4; 1; 2; 3; 4; 9]) demo_prefix [10]
    [1; 2; 3; 4] [9] 5).
  - apply wf_io_b_sound. vm_compute. reflexivity.
  - reflexivity.
  - reflexivity.
  - by vm_compute.
  - apply (demo_answers [ONet 5; OPrefix 50]); [reflexivity| |done]. vm_compute. reflexivity.
  - reflexivity.
  - apply demo_list.
  - apply demo_list_sized.
  - exact (proj1 (gather_some _ _ _ (demo_list_bytes [0; 4; 1; 2; 3; 4; 9]))).
  - right. by vm_compute.
  - by vm_compute.
  - by vm_compute.
  - right. by vm_compute.
  - by vm_compute.
  - vm_compute. reflexivity.
Defined.

Lemma prefix_refusals_witness :
  wp (dill_prefix_mrecvl demo_close_io 50 10 11 (-1)) (λ rc s',
    rc = -1 ∧ io_prefixes s' = <[50 := in_failed demo_prefix]> (io_prefixes (demo_prefix_io [0; 6; 9])) ∧
    io_nodes s' = io_nodes (demo_prefix_io [0; 6; 9]) ∧ io_mem s' = io_mem (demo_prefix_io [0; 6; 9]) ∧
    ((io_errno s' = EMSGSIZE ∧ net_in (io_net s') 5 = [9]) ∨
     ∃ s2, dill_brecv demo_close_io 0 (io_next (demo_prefix_io [0; 6; 9])) 2 (-1) (enter 2 (demo_prefix_io [0; 6; 9])) =
       Some (-1, s2))) (demo_prefix_io [0; 6; 9]).
Proof.
  apply (proj2 (proj2 (prefix_refusals demo_close_io 50 10 11 [10] (-1) (demo_prefix_io [0; 6; 9]) demo_prefix eq_refl))
    5 6 [9]).
  - apply wf_io_b_sound. vm_compute. reflexivity.
  - reflexivity.
  - by vm_compute.
  - apply (demo_answers [ONet 5; OPrefix 50]); [reflexivity| |done]. vm_compute. reflexivity.
  - reflexivity.
  - apply demo_list.
  - apply demo_list_sized.
  - by vm_compute.
  - by vm_compute.
  - vm_compute. reflexivity.
Defined.
