(* ===== verification/Suffix.v ===== *)
(** The SUFFIX protocol ([suffix.c]): each message is followed by a fixed string. *)

From Stdlib Require Import ZArith Lia.
From stdpp Require Import base gmap list.
From S2P Require Import Prelude Handle Iol Sock Loop Prefix.
Open Scope Z_scope.

Definition SIZEOF_SUFFIX : Z := 120.

Section Suffix.
Context {N : Type} `{NetN : Net N}.
Context (close : sobj → IO N unit).

Definition get_suffix (p : ptr) : IO N dill_suffix_sock := λ s, x ← io_suffixes s !! p; Some (x, s).
Definition put_suffix (p : ptr) (x : dill_suffix_sock) : IO N unit :=
  modify (λ s, set_io_suffixes (<[p := x]> (io_suffixes s)) s).
Definition set_sx_inerr (p : ptr) : IO N unit :=
  x ← get_suffix p;
  put_suffix p (mk_suffix (sx_u x) (sx_uvfs x) (suffixlen x) true (sx_outerr x) (sx_mem x)).
Definition set_sx_outerr (p : ptr) : IO N unit :=
  x ← get_suffix p;
  put_suffix p (mk_suffix (sx_u x) (sx_uvfs x) (suffixlen x) (sx_inerr x) true (sx_mem x)).

Definition dill_suffix_attach_mem (s : Z) (suffix : ptr) (suffixlen : Z) (mem : option ptr) : IO N Z :=
  match mem with
  | None => attach_error close s EINVAL
  | Some self =>
    if (suffix =? NULL) || (suffixlen =? 0) || (32 <? suffixlen) then attach_error close s EINVAL
    else
      s ← hown close s;
      if s <? 0 then attach_errno close s
      else
        uvfs ← hquery close s dill_bsock_type;
        err ← get_errno;
        if (uvfs =? NULL) && bool_decide (err = ENOTSUP) then attach_error close s EPROTO
        else if uvfs =? NULL then attach_error close s err
        else
          bs ← load suffix suffixlen;
          store (sx_suffix self) bs;;
          put_suffix self (mk_suffix s uvfs suffixlen false false true);;
          h ← hmake close (OSuffix self);
          if h <? 0 then attach_errno close s else mret h
  end.

(** [free(self)] *)
Definition free_suffix (self : ptr) : IO N unit :=
  modify (λ s, set_io_suffixes (delete self (io_suffixes s)) s);;
  free self SIZEOF_SUFFIX.

Definition dill_suffix_attach (s : Z) (suffix : ptr) (suffixlen : Z) : IO N Z :=
  o ← malloc SIZEOF_SUFFIX;
  match o with
  | None => attach_error close s ENOMEM
  | Some obj =>
    s ← dill_suffix_attach_mem s suffix suffixlen (Some obj);
    if s <? 0 then
      err ← get_errno;
      free_suffix obj;;
      attach_error close s err
    else
      x ← get_suffix obj;
      put_suffix obj (mk_suffix (sx_u x) (sx_uvfs x) (Sock.suffixlen x) (sx_inerr x) (sx_outerr x) false);;
      mret s
  end.

Definition dill_suffix_detach (s : Z) (deadline : Z) : IO N Z :=
  self ← hquery close s dill_suffix_type;
  if self =? NULL then attach_errno close s
  else
    x ← get_suffix self;
    if sx_inerr x || sx_outerr x then attach_error close s ECONNRESET
    else
      (if sx_mem x then mret tt else free_suffix self);;
      mret (sx_u x).

Definition set_next (p q : ptr) : IO N unit :=
  n ← get_node p; put_node p (mk_iolist (iol_base n) (iol_len n) q (iol_rsvd n)).

Definition dill_suffix_msendl (self first last : ptr) (deadline : Z) : IO N Z :=
  x ← get_suffix self;
  if sx_outerr x then fail ECONNRESET
  else
    with_iol (mk_iolist (sx_suffix self) (suffixlen x) NULL 0) (λ iol,
      set_next last iol;;
      rc ← net_sendl (sx_uvfs x) first iol deadline;
      set_next last NULL;;
      if rc <? 0 then set_sx_outerr self;; mret (-1) else mret 0).

(** [while(first->iol_len == 0)]: the element [it] moves to, or [None] at the end of
    the list.  It is [first] that is checked, each time. *)
Fixpoint skip_empty (fuel : nat) (first : ptr) (it : iolist) : IO N (option iolist) :=
  match fuel with
  | O => crash
  | S fuel =>
    f ← get_node first;
    if negb (iol_len f =? 0) then mret (Some it)
    else if iol_next it =? NULL then mret None
    else
      it ← get_node (iol_next it);
      skip_empty fuel first it
  end.

(** The receiving loop, at most [fuel] times around; [it] is the local copy of the
    element being filled in, [iol] designates the last byte of the window. *)
Fixpoint recv_loop (fuel : nat) (self first iol : ptr) (it : iolist) (sz deadline : Z) : IO N Z :=
  match fuel with
  | O => crash
  | S fuel =>
    x ← get_suffix self;
    buf ← load (sx_buf self) (suffixlen x);
    suffix ← load (sx_suffix self) (suffixlen x);
    if bool_decide (buf = suffix) then mret (s64 sz)
    else
      n ← gets (λ s, size (io_nodes s));
      o ← skip_empty (S n) first it;
      match o with
      | None => set_sx_inerr self;; fail EMSGSIZE
      | Some it =>
        it ← (if negb (iol_base it =? NULL) && (0 <? iol_len it) then
                c ← load (sx_buf self) 1;
                store (iol_base it) c;;
                mret (mk_iolist (iol_base it + 1) (iol_len it - 1) (iol_next it) (iol_rsvd it))
              else mret it);
        rest ← load (sx_buf self + 1) (suffixlen x - 1);
        store (sx_buf self) rest;;
        rc ← net_recvl (sx_uvfs x) iol iol deadline;
        if rc <? 0 then set_sx_inerr self;; mret (-1)
        else recv_loop fuel self first iol it (u64 (sz + 1)) deadline
      end
  end.

Definition dill_suffix_mrecvl (fuel : nat) (self first last : ptr) (deadline : Z) : IO N Z :=
  x ← get_suffix self;
  if sx_inerr x then fail ECONNRESET
  else
    with_iol (mk_iolist (sx_buf self) (suffixlen x) NULL 0) (λ iol,
      rc ← net_recvl (sx_uvfs x) iol iol deadline;
      if rc <? 0 then set_sx_inerr self;; mret (-1)
      else
        n ← get_node iol;
        put_node iol (mk_iolist (sx_buf self + suffixlen x - 1) 1 (iol_next n) (iol_rsvd n));;
        it ← get_node first;
        recv_loop fuel self first iol it 0 deadline).

Definition dill_suffix_hclose (self : ptr) : IO N unit :=
  x ← get_suffix self;
  close_under close (sx_u x);;
  if sx_mem x then mret tt else free_suffix self.
End Suffix.

Section Spec.
Context {N : Type} `{LawsN : NetLaws N}.
Context (close : sobj → IO N unit).

Lemma wp_get_suffix self x (Q : dill_suffix_sock → io N → Prop) s :
  io_suffixes s !! self = Some x → Q x s → wp (get_suffix self) Q s.
Proof. intros H0 HQ. unfold wp, get_suffix. by rewrite H0. Qed.

Definition sx_in_failed (x : dill_suffix_sock) : dill_suffix_sock :=
  mk_suffix (sx_u x) (sx_uvfs x) (suffixlen x) true (sx_outerr x) (sx_mem x).
Definition sx_out_failed (x : dill_suffix_sock) : dill_suffix_sock :=
  mk_suffix (sx_u x) (sx_uvfs x) (suffixlen x) (sx_inerr x) true (sx_mem x).

(** Moving one byte to the user's buffer, if there is room. *)
Lemma scatter_byte it c m (mem : gmap Z Z) :
  0 ≤ iol_base it → iol_base it ≠ NULL → 0 < iol_len it →
  scatter (slots it) (c :: m) mem =
    scatter (slots (mk_iolist (iol_base it + 1) (iol_len it - 1) (iol_next it) (iol_rsvd it))) m (<[iol_base it := c]> mem).
Proof.
  intros Hb Hn Hl. change (slots it) with (arr (iol_base it) (iol_len it)).
  rewrite arr_cons by (unfold NULL in *; lia). done.
Qed.

Lemma scatter_full it m (mem : gmap Z Z) : iol_base it = NULL ∨ iol_len it ≤ 0 → scatter (slots it) m mem = mem.
Proof.
  intros [H0|H0]; unfold slots.
  - rewrite H0. apply scatter_none.
  - destruct (_ =? _).
    + rewrite Z2Nat.nonpos by done. by destruct m.
    + unfold seqZ. rewrite Z2Nat.nonpos by done. by destruct m.
Qed.

(** The window and the suffix are apart from the user's buffer. *)
Definition apart (self : ptr) (sl : list (option ptr)) : Prop :=
  ∀ y, Some y ∈ sl → ¬ sx_buf self ≤ y < sx_buf self + 64.

(** How a run of the receiving loop over the message [m], with [rest] behind it, ends. *)
Definition loop_done self x n sl m rest sz (s : io N) (rc : Z) (s' : io N) : Prop :=
  io_nodes s' = io_nodes s ∧ io_handles s' = io_handles s ∧ io_next s' = io_next s ∧ dom (io_mem s') = dom (io_mem s) ∧
  net_out (io_net s') n = net_out (io_net s) n ∧
  ((rc = sz + Z.of_nat (length m) ∧ io_suffixes s' = io_suffixes s ∧ net_in (io_net s') n = rest ∧
    ∀ y, ¬ sx_buf self ≤ y < sx_buf self + suffixlen x → io_mem s' !! y = scatter sl m (io_mem s) !! y) ∨
   (rc = -1 ∧ net_infail (io_net s') n ∧ io_suffixes s' = <[self := sx_in_failed x]> (io_suffixes s))).

Lemma skip_empty_nonempty fuel first it f (Q : option iolist → io N → Prop) s :
  io_nodes s !! first = Some f → 0 < iol_len f → Q (Some it) s → wp (skip_empty (S fuel) first it) Q s.
Proof.
  intros Hf Hl HQ. cbn [skip_empty]. apply wp_bind, (wp_get_node _ _ _ _ Hf).
  rewrite (proj2 (Z.eqb_neq _ _)) by lia. by apply wp_ret.
Qed.

Lemma io_mem_id (s : io N) : set_io_mem (io_mem s) s = s.
Proof. by destruct s. Qed.

Lemma window_step (c : Z) m sfx rest w r k :
  length w = k → (0 < k)%nat → length sfx = k → w ++ r = (c :: m) ++ sfx ++ rest →
  (∀ i, (i < length (c :: m))%nat → take k (drop i ((c :: m) ++ sfx)) ≠ sfx) →
  w ≠ sfx ∧ ∃ w', w = c :: w' ∧ w' ++ r = m ++ sfx ++ rest ∧
    ∀ i, (i < length m)%nat → take k (drop i (m ++ sfx)) ≠ sfx.
Proof.
  intros Hw Hk Hs E Hno. split.
  - intros ->. apply (Hno 0%nat); [cbn; lia|]. rewrite drop_0.
    rewrite <- Hw. apply (f_equal (take (length sfx))) in E. rewrite take_app_length in E.
    rewrite app_assoc, take_app_le in E; [done|]. rewrite length_app. lia.
  - destruct w as [|c' w']; [cbn in Hw; lia|]. injection E as -> E. exists w'. split; [done|]. split; [done|].
    intros i Hi. apply (Hno (S i)). cbn. lia.
Qed.

(** The first byte of the window is copied to the element [it], if there is room. *)
Lemma wp_copy_first self it c w' m k (Q : iolist → io N → Prop) s :
  0 < self → 0 < k → gather (io_mem s) (arr (sx_buf self) k) = Some (c :: w') →
  allocated (io_mem s) (slots it) → 0 ≤ iol_base it → apart self (slots it) →
  (∀ it' mem, dom mem = dom (io_mem s) → (∀ y, sx_buf self ≤ y < sx_buf self + 64 → mem !! y = io_mem s !! y) →
     (∀ y, Some y ∈ slots it' → Some y ∈ slots it) → 0 ≤ iol_base it' →
     scatter (slots it) (c :: m) (io_mem s) = scatter (slots it') m mem → Q it' (set_io_mem mem s)) →
  wp (if negb (iol_base it =? NULL) && (0 <? iol_len it) then
        c ← load (sx_buf self) 1;
        store (iol_base it) c;;
        mret (mk_iolist (iol_base it + 1) (iol_len it - 1) (iol_next it) (iol_rsvd it))
      else mret it) Q s.
Proof.
  intros Hself Hk Hw Hal Hbase Hap HQ. assert (Hb : 0 < sx_buf self) by (unfold sx_buf; lia).
  assert (Hfull : iol_base it = NULL ∨ iol_len it ≤ 0 → Q it s).
  { intros Hf. specialize (HQ it (io_mem s)). rewrite io_mem_id in HQ. apply HQ; try done. by rewrite !scatter_full. }
  destruct (Z.eqb_spec (iol_base it) NULL) as [Hnull|Hnull]; [by apply wp_ret, Hfull; left|].
  destruct (Z.ltb_spec 0 (iol_len it)) as [Hpos|Hpos]; cbn [negb andb]; [|by apply wp_ret, Hfull; right].
  rewrite arr_cons in Hw by lia. unfold gather in Hw. cbn in Hw.
  destruct (io_mem s !! sx_buf self) as [c'|] eqn:Ec; [|done]. cbn in Hw. destruct (mapM _ _); [|done]. injection Hw as -> _.
  assert (Hin : Some (iol_base it) ∈ slots it).
  { change (slots it) with (arr (iol_base it) (iol_len it)). apply elem_of_arr; [done|lia]. }
  destruct (Hal _ Hin) as [v Hv].
  apply wp_bind, (wp_load _ _ [c]); [change (Z.to_nat 1) with 1%nat; cbn [load_bytes]; by rewrite Ec|].
  apply wp_bind, (wp_store _ _ (<[iol_base it := c]> (io_mem s))); [cbn [store_bytes]; by rewrite Hv|].
  apply wp_ret, HQ.
  - apply dom_insert_lookup_L. by eexists.
  - intros y Hy. apply lookup_insert_ne. intros <-. by apply (Hap _ Hin).
  - intros y Hy. change (slots it) with (arr (iol_base it) (iol_len it)). rewrite arr_cons by (unfold NULL in *; lia). by right.
  - cbn. lia.
  - by apply scatter_byte.
Qed.

(** The window moves on by one byte, which is received; [K] follows. *)
Lemma wp_slide self iol x n d c w' (K : IO N Z) (Q : Z → io N → Prop) s :
  0 < self → 0 < suffixlen x ≤ 32 → net_bytestream n = true → sx_uvfs x = n → iol ≠ NULL → wf_io s →
  io_suffixes s !! self = Some x →
  io_nodes s !! iol = Some (mk_iolist (sx_buf self + suffixlen x - 1) 1 NULL 0) →
  gather (io_mem s) (arr (sx_buf self) (suffixlen x)) = Some (c :: w') →
  (∀ nt e m, dom m = dom (io_mem s) → net_out nt n = net_out (io_net s) n → net_infail nt n →
     Q (-1) (set_io_suffixes (<[self := sx_in_failed x]> (io_suffixes s)) (set_io_mem m (set_io_net nt (set_io_errno e s))))) →
  (∀ y nt e m, dom m = dom (io_mem s) → net_out nt n = net_out (io_net s) n → net_in (io_net s) n = y :: net_in nt n →
     gather m (arr (sx_buf self) (suffixlen x)) = Some (w' ++ [y]) →
     (∀ q, ¬ sx_buf self ≤ q < sx_buf self + suffixlen x → m !! q = io_mem s !! q) →
     wp K Q (set_io_mem m (set_io_net nt (set_io_errno e s)))) →
  wp (rest ← load (sx_buf self + 1) (suffixlen x - 1); store (sx_buf self) rest;; rc ← net_recvl (sx_uvfs x) iol iol d;
      if rc <? 0 then set_sx_inerr self;; mret (-1) else K) Q s.
Proof.
  intros Hself Hk Hn Hu Hiol Hwf Hx Hi Hw Hfail Hok. set (k := suffixlen x) in *. set (b := sx_buf self) in *.
  assert (Hb : 0 < b) by (unfold b, sx_buf; lia). assert (Hb' : b ≠ NULL) by (unfold NULL; lia).
  pose proof (gather_some _ _ _ Hw) as (Hal & Hwl & _). pose proof (length_arr b k ltac:(lia)) as Hla. cbn [length] in Hwl.
  assert (Hw' : gather (io_mem s) (arr (b + 1) (k - 1)) = Some w').
  { rewrite arr_cons in Hw by lia. unfold gather in *. cbn in Hw.
    destruct (io_mem s !! b); [|done]. cbn in Hw. destruct (mapM _ (arr (b + 1) (k - 1))); [|done]. by injection Hw as _ ->. }
  apply wp_bind, (wp_load _ _ w'); [by rewrite load_arr by (unfold NULL; lia)|].
  rewrite (arr_snoc b k) in Hal by lia.
  assert (Hal2 : allocated (io_mem s) (arr b (k - 1))) by (intros y Hy; apply Hal; apply elem_of_app; by left).
  pose proof (length_arr b (k - 1) ltac:(lia)) as Hla1.
  apply wp_bind, (wp_store _ _ (scatter (arr b (k - 1)) w' (io_mem s))); [apply store_arr; [done|done|lia]|].
  set (mem2 := scatter (arr b (k - 1)) w' (io_mem s)). assert (Hd2 : dom mem2 = dom (io_mem s)) by by apply scatter_dom.
  assert (Hg2 : gather mem2 (arr b (k - 1)) = Some w').
  { destruct (arr_nodup b (k - 1) Hb'). apply gather_scatter; [done|done|lia]. }
  set (z := b + k - 1) in *. assert (Hz : z ≠ NULL) by (unfold NULL; lia).
  apply wp_bind. rewrite Hu. apply (wp_net_recv1 n iol z 1); [done|by apply (wf_same s)|done|exact Hi|left; lia| |].
  { rewrite arr_1 by done. intros y Hy. apply elem_of_dom. cbn. rewrite Hd2. apply elem_of_dom, Hal, elem_of_app. by right. }
  rewrite arr_1 by done. intros rc nt e m3 (Hout & Hd3 & Hoth & Hrc). cbn in Hd3. rewrite Hd2 in Hd3.
  destruct Hrc as [[-> (ys & Hys & Hin & ->)]|[-> F]].
  2:{ apply wp_bind, wp_bind, (wp_get_suffix _ x); [exact Hx|]. apply wp_modify, wp_ret. by apply Hfail. }
  destruct ys as [|y [|]]; try done. change (0 <? 0) with false. cbv iota.
  assert (Hm3 : ∀ q, q ≠ z → scatter [Some z] [y] mem2 !! q = mem2 !! q) by (intros q Hq; apply scatter_ne; set_solver).
  apply (Hok y); [done|done|exact Hin| |].
  - rewrite (arr_snoc b k), gather_app by lia. rewrite (gather_ext _ mem2 (arr b (k - 1))).
    + rewrite Hg2. cbn. by rewrite lookup_insert_eq.
    + intros q Hq. apply Hm3. apply elem_of_arr in Hq; [unfold z; lia|done].
  - intros q Hq. cbn [io_mem set_io_mem]. rewrite Hm3 by (unfold z; lia). apply scatter_ne. rewrite elem_of_arr by done. lia.
Qed.

Lemma recv_loop_spec self first iol x f sfx rest n d :
  0 < self → 0 < suffixlen x ≤ 32 → net_bytestream n = true → sx_uvfs x = n → iol ≠ NULL → 0 < iol_len f →
  length sfx = Z.to_nat (suffixlen x) →
  ∀ m fuel it sz s w r, (length m < fuel)%nat → wf_io s →
  io_suffixes s !! self = Some x → io_nodes s !! first = Some f →
  io_nodes s !! iol = Some (mk_iolist (sx_buf self + suffixlen x - 1) 1 NULL 0) →
  gather (io_mem s) (arr (sx_buf self) (suffixlen x)) = Some w →
  gather (io_mem s) (arr (sx_suffix self) (suffixlen x)) = Some sfx →
  allocated (io_mem s) (slots it) → 0 ≤ iol_base it → apart self (slots it) →
  net_in (io_net s) n = r → w ++ r = m ++ sfx ++ rest →
  (∀ i, (i < length m)%nat → take (length sfx) (drop i (m ++ sfx)) ≠ sfx) →
  0 ≤ sz → sz + Z.of_nat (length m) < 2 ^ 63 →
  wp (recv_loop fuel self first iol it sz d) (loop_done self x n (slots it) m rest sz s) s.
Proof.
  intros Hself Hk Hn Hu Hiol Hf0 Hsl. assert (Hb : 0 < sx_buf self) by (unfold sx_buf; lia).
  assert (Hsb : sx_suffix self = sx_buf self + 32) by (unfold sx_buf, sx_suffix; lia).
  induction m as [|c m IH]; intros fuel it sz s w r Hfu Hwf Hx Hf Hi Hw Hsfx Hal Hbase Hap Hnet E Hno Hsz Hsz';
    (destruct fuel as [|fuel]; [lia|]); cbn [recv_loop];
    apply wp_bind, (wp_get_suffix _ _ _ _ Hx);
    (apply wp_bind, (wp_load _ _ w); [by rewrite load_arr by (unfold NULL; lia)|]);
    (apply wp_bind, (wp_load _ _ sfx); [by rewrite load_arr by (unfold NULL; lia)|]);
    pose proof (gather_some _ _ _ Hw) as (_ & Hwl & _); pose proof (length_arr (sx_buf self) (suffixlen x) ltac:(lia)) as Hla.
  - cbn [app] in E. apply app_inj_1 in E as [-> ->]; [|lia]. rewrite bool_decide_eq_true_2 by done. apply wp_ret.
    cbn [length] in *. split_and!; try done. left. rewrite s64_small by lia. cbn [length].
    split_and!; [lia|done|done|]. intros y _. by destruct (slots it) as [|[]].
  - destruct (window_step c m sfx rest w r (length sfx)) as (Hne & w' & -> & E' & Hno'); [lia|lia|done|done|done|].
    rewrite bool_decide_eq_false_2 by done.
    apply wp_bind, wp_gets, wp_bind. eapply skip_empty_nonempty; [exact Hf|done|].
    apply wp_bind. eapply (wp_copy_first _ _ _ _ m); [done| |exact Hw|done|done|done|]; [lia|].
    intros it' mem1 Hd1 Hm1 Hsub Hbase' Hsc. eapply wp_slide; [done|done|exact Hn|done|done|by apply (wf_same s)|exact Hx|exact Hi| | |].
    + cbn. rewrite (gather_ext _ (io_mem s)); [exact Hw|]. intros y Hy. apply Hm1. apply elem_of_arr in Hy; [lia|unfold NULL; lia].
    + intros nt e m3 Hd3 Hout F. split_and!; [done|done|done|by rewrite <- Hd1|exact Hout|by right].
    + intros y nt e m3 Hd3 Hout Hin Hg3 Hm3. cbn in Hd3, Hout, Hin, Hm3. rewrite Hnet in Hin.
      assert (Hu1 : u64 (sz + 1) = sz + 1) by (unfold u64; apply Z.mod_small; cbn [length] in Hsz'; lia). rewrite Hu1.
      eapply wp_mono; [apply (IH fuel it' (sz + 1) _ (w' ++ [y]) (net_in nt n));
        [cbn in Hfu; lia|apply (wf_same s); [done|done|cbn; congruence|cbn; lia]|exact Hx|exact Hf|exact Hi|exact Hg3| | |done| |done| |done|lia|cbn in Hsz'; lia]|].
      * rewrite (gather_ext _ (io_mem s)); [exact Hsfx|]. intros q Hq. apply elem_of_arr in Hq; [|unfold NULL; lia].
        cbn. rewrite Hm3 by lia. apply Hm1. lia.
      * intros q Hq. apply elem_of_dom. cbn. rewrite Hd3, Hd1. by apply elem_of_dom, Hal, Hsub.
      * intros q Hq. by apply Hap, Hsub.
      * rewrite <- E', Hin. by rewrite <- app_assoc.
      * intros rc s' (H1 & H2 & H3 & H4 & H5 & Hr). cbn in H4, H5, Hr.
        split_and!; [exact H1|exact H2|exact H3|congruence|congruence|].
        destruct Hr as [(-> & Hr1 & Hr2 & Hr3)|(-> & Hr)]; [left|by right].
        split_and!; [cbn; lia|exact Hr1|exact Hr2|]. intros q Hq. rewrite Hr3 by done. rewrite Hsc. apply scatter_ext. by apply Hm3.
Qed.
(** * Sending *)

(** What sending the message [bs] did. *)
Definition suffix_sent (self : ptr) x n (bs sfx : list Z) (s : io N) (rc : Z) (s' : io N) : Prop :=
  io_nodes s' = io_nodes s ∧ io_mem s' = io_mem s ∧ io_handles s' = io_handles s ∧
  net_in (io_net s') n = net_in (io_net s) n ∧
  ((rc = 0 ∧ io_suffixes s' = io_suffixes s ∧ net_out (io_net s') n = net_out (io_net s) n ++ bs ++ sfx) ∨
   (rc = -1 ∧ net_outfail (io_net s') n ∧ io_suffixes s' = <[self := sx_out_failed x]> (io_suffixes s))).

(** Sending a message over a SUFFIX socket: the bytes of the list and then the suffix
    go out, and the result is 0; or the underlying socket failed, the result is -1 and
    the output direction is broken.  The element that links the suffix to the caller's
    list is gone at the end, and the list as it was. *)
Lemma suffix_msendl_frames self first lst d s x l bs sfx n :
  wf_io s → 0 < self → 0 < suffixlen x ≤ 32 → io_suffixes s !! self = Some x → sx_outerr x = false → sx_uvfs x = n → net_bytestream n = true →
  valid (io_nodes s) first lst l → l ≠ [] → gather (io_mem s) (flat (io_nodes s) l) = Some bs →
  gather (io_mem s) (arr (sx_suffix self) (suffixlen x)) = Some sfx →
  wp (dill_suffix_msendl self first lst d) (suffix_sent self x n bs sfx s) s.
Proof.
  intros Hwf Hself Hk Hx Hoe Hu Hn Hv Hne Hg Hsfx. unfold dill_suffix_msendl.
  apply wp_bind, (wp_get_suffix _ _ _ _ Hx). rewrite Hoe. apply wp_with_iol. set (a := io_next s).
  assert (Ha0 : a ≠ NULL) by (pose proof (wi_next _ Hwf); unfold a, NULL; lia).
  assert (Ha : io_nodes s !! a = None).
  { destruct (io_nodes s !! a) eqn:E; [|done]. pose proof (wi_nodes _ Hwf a ltac:(by eexists)). unfold a in *. lia. }
  destruct (valid_last _ _ _ _ Hv Hne) as (_ & Hl0 & f & Hf & Hfn).
  assert (Hla : lst ≠ a) by congruence.
  assert (Hal : a ∉ l). { intros Hin. destruct Hv as (Hp & _). pose proof (seg_alloc _ _ _ _ _ Hp Hin) as [v Hv']. by simplify_eq. }
  set (g := mk_iolist (sx_suffix self) (suffixlen x) NULL 0). set (s1 := set_io_nodes _ _).
  assert (Hf1 : io_nodes s1 !! lst = Some f) by (cbn; by rewrite lookup_insert_ne).
  apply wp_bind. unfold set_next at 1. apply wp_bind, (wp_get_node _ _ _ _ Hf1), wp_modify.
  apply wp_bind. rewrite Hu. eapply (wp_net_send n _ _ _ _ (l ++ [a]) (bs ++ sfx)); [done| |by apply valid_snoc|by destruct l| |].
  { apply (wf_relink lst f a _ _ (wf_with_node a g s Hwf ltac:(lia) ltac:(cbn; unfold sx_suffix; lia) ltac:(cbn; lia)) Hf1). }
  { cbn [io_mem io_nodes set_io_nodes s1]. rewrite flat_snoc by done. rewrite gather_app.
    cbn [io_mem set_io_next]. rewrite Hg. cbn [mbind option_bind].
    change (slots g) with (arr (sx_suffix self) (suffixlen x)). by rewrite Hsfx. }
  intros rc nt e (Hin & Hrc). apply wp_bind. unfold set_next.
  apply wp_bind, (wp_get_node _ (mk_iolist (iol_base f) (iol_len f) a (iol_rsvd f)));
    [cbn; apply lookup_insert_eq|]. apply wp_modify.
  assert (Hnodes : delete a (<[lst := mk_iolist (iol_base f) (iol_len f) NULL (iol_rsvd f)]>
      (<[lst := mk_iolist (iol_base f) (iol_len f) a (iol_rsvd f)]> (<[a := g]> (io_nodes s)))) = io_nodes s).
  { rewrite insert_insert_eq, delete_insert_ne, delete_insert_id by congruence. apply insert_id. rewrite Hf. destruct f; cbn in *; congruence. }
  destruct Hrc as [[-> Hout]|[-> F]].
  - apply wp_ret. split_and!; [exact Hnodes|done|done|exact Hin|]. left. by split_and!.
  - apply wp_bind, wp_bind, (wp_get_suffix _ x); [exact Hx|]. apply wp_modify, wp_ret.
    split_and!; [exact Hnodes|done|done|exact Hin|]. by right.
Qed.
(** What receiving the message [m], with [rest] behind its suffix, did. *)
Definition suffix_received (self : ptr) x n sl (m rest : list Z) (s : io N) (rc : Z) (s' : io N) : Prop :=
  io_nodes s' = io_nodes s ∧ io_handles s' = io_handles s ∧ dom (io_mem s') = dom (io_mem s) ∧
  net_out (io_net s') n = net_out (io_net s) n ∧
  ((rc = Z.of_nat (length m) ∧ io_suffixes s' = io_suffixes s ∧ net_in (io_net s') n = rest ∧
    ∀ y, ¬ sx_buf self ≤ y < sx_buf self + suffixlen x → io_mem s' !! y = scatter sl m (io_mem s) !! y) ∨
   (rc = -1 ∧ net_infail (io_net s') n ∧ io_suffixes s' = <[self := sx_in_failed x]> (io_suffixes s))).

(** Whatever its size, the bytes of the message that fit into the first buffer go there. *)
Lemma wp_suffix_mrecvl self first lst d s x f sfx m rest n fuel :
  wf_io s → 0 < self → io_suffixes s !! self = Some x → sx_inerr x = false → sx_uvfs x = n → net_bytestream n = true →
  0 < suffixlen x ≤ 32 → allocated (io_mem s) (arr (sx_buf self) (suffixlen x)) →
  gather (io_mem s) (arr (sx_suffix self) (suffixlen x)) = Some sfx →
  io_nodes s !! first = Some f → 0 < iol_len f → 0 ≤ iol_base f → allocated (io_mem s) (slots f) → apart self (slots f) →
  net_in (io_net s) n = m ++ sfx ++ rest →
  (∀ i, (i < length m)%nat → take (length sfx) (drop i (m ++ sfx)) ≠ sfx) →
  Z.of_nat (length m) < 2 ^ 63 → (length m < fuel)%nat →
  wp (dill_suffix_mrecvl fuel self first lst d) (suffix_received self x n (slots f) m rest s) s.
Proof.
  intros Hwf Hself Hx Hie Hu Hn Hk Hbal Hsfx Hf Hfl Hfb Hal Hap Hin Hno Hm Hfu.
  unfold dill_suffix_mrecvl. apply wp_bind, (wp_get_suffix _ _ _ _ Hx). rewrite Hie.
  set (k := suffixlen x) in *. set (b := sx_buf self) in *.
  assert (Hb : 0 < b) by (unfold b, sx_buf; lia). assert (Hb' : b ≠ NULL) by (unfold NULL; lia).
  assert (Hsb : sx_suffix self = b + 32) by (unfold b, sx_buf, sx_suffix; lia).
  assert (Hbs : b + 32 ≠ NULL) by (unfold NULL; lia).
  apply wp_with_iol. set (a := io_next s).
  assert (Ha0 : a ≠ NULL) by (pose proof (wi_next _ Hwf); unfold a, NULL; lia).
  assert (Ha : io_nodes s !! a = None).
  { destruct (io_nodes s !! a) eqn:E; [|done]. pose proof (wi_nodes _ Hwf a ltac:(by eexists)). unfold a in *. lia. }
  assert (Hfa : first ≠ a) by congruence.
  set (s1 := set_io_nodes _ _). destruct (gather_some _ _ _ Hsfx) as (_ & Hsl & _).
  pose proof (length_arr (sx_suffix self) k ltac:(lia)) as Hla'. pose proof (length_arr b k ltac:(lia)) as Hla.
  assert (Hfin : ∀ nf, delete a (<[a := nf]> (io_nodes s)) = io_nodes s) by (intros nf; by apply delete_insert_id).
  apply wp_bind. rewrite Hu.
  assert (Hwf1 : wf_io s1) by (apply wf_with_node; cbn; [done|lia|lia|lia]).
  apply (wp_net_recv1 n a b k); [done|done|done|apply lookup_insert_eq|by left|done|].
  intros rc nt e m2 (Hout & Hd & Hoth & Hrc). cbn in Hd.
  destruct Hrc as [[-> (w & Hwl & Hnw & Hm2)]|[-> F]].
  2:{ apply wp_bind, wp_bind, (wp_get_suffix _ x); [exact Hx|]. apply wp_modify, wp_ret.
    split_and!; [apply Hfin|done|exact Hd|exact Hout|by right]. }
  change (0 <? 0) with false. cbv iota.
  apply wp_bind, (wp_get_node _ (mk_iolist b k NULL 0)); [cbn; apply lookup_insert_eq|]. apply wp_bind, wp_modify.
  apply wp_bind, (wp_get_node _ f); [cbn; by rewrite !lookup_insert_ne by done|]. cbn [iol_next iol_rsvd].
  assert (Hoth' : ∀ y, ¬ b ≤ y < b + k → m2 !! y = io_mem s !! y).
  { intros y Hy. apply Hoth. change (slots (mk_iolist b k NULL 0)) with (arr b k). by rewrite elem_of_arr. }
  destruct (arr_nodup b k Hb') as [Hnd Hnn].
  eapply wp_mono.
  - apply (recv_loop_spec self first a x f sfx rest n d Hself Hk Hn Hu Ha0 Hfl ltac:(lia) m fuel f 0 _ w (net_in nt n));
      [done|eapply wf_renode; [by apply (wf_same s1)|apply lookup_insert_eq|cbn; lia|cbn; lia]|exact Hx|cbn; by rewrite !lookup_insert_ne by done|cbn; by rewrite lookup_insert_eq| | | |done|done|done| |done|lia|lia].
    + cbn [io_mem set_io_nodes set_io_mem]. rewrite Hm2. by apply gather_scatter.
    + rewrite <- Hsfx. apply gather_ext. intros y Hy. fold k in Hy. rewrite Hsb in Hy. apply elem_of_arr in Hy; [|done].
      apply Hoth'. lia.
    + eapply allocated_mono; [|exact Hal]. intros y Hy. apply elem_of_dom. cbn. rewrite Hd. by apply elem_of_dom.
    + rewrite <- Hin. symmetry. exact Hnw.
  - intros rc s' (H1 & H2 & H3 & H4 & H5 & Hr). split_and!.
    + cbn. rewrite H1. cbn. rewrite insert_insert_eq. apply Hfin.
    + exact H2.
    + cbn. rewrite H4. exact Hd.
    + cbn. rewrite H5. exact Hout.
    + destruct Hr as [(-> & Hr1 & Hr2 & Hr3)|(-> & Hr)]; [left|right; split; [done|exact Hr]].
      split_and!; [lia|exact Hr1|exact Hr2|]. intros y Hy. cbn. rewrite Hr3 by done. apply scatter_ext. cbn. by apply Hoth'.
Qed.

(** C34. Receiving a message over a SUFFIX socket that fits the first buffer: when the input is a
    message [m], the suffix, and [rest], and the suffix does not occur before the end of [m]
    and itself, the loop ends after [length m] rounds; the result is the size of [m], its
    bytes are at the start of the buffer and [rest] remains.  Unless receiving from the
    underlying socket failed (its data ended, an error, a deadline): only then the result
    is -1 and the input direction is broken.  The lists are as they were, and no other memory
    but the window inside the socket is changed.  A message that does not fit is not covered:
    the code does not refuse it ([suffix_truncates]). *)
Theorem suffix_mrecvl_receives self first lst d s x f sfx m rest n fuel :
  wf_io s → 0 < self → io_suffixes s !! self = Some x → sx_inerr x = false → sx_uvfs x = n → net_bytestream n = true →
  0 < suffixlen x ≤ 32 → allocated (io_mem s) (arr (sx_buf self) (suffixlen x)) →
  gather (io_mem s) (arr (sx_suffix self) (suffixlen x)) = Some sfx →
  io_nodes s !! first = Some f → 0 < iol_len f → 0 < iol_base f → allocated (io_mem s) (slots f) → apart self (slots f) →
  net_in (io_net s) n = m ++ sfx ++ rest → Z.of_nat (length m) ≤ iol_len f < 2 ^ 63 →
  (∀ i, (i < length m)%nat → take (length sfx) (drop i (m ++ sfx)) ≠ sfx) → (length m < fuel)%nat →
  wp (dill_suffix_mrecvl fuel self first lst d) (λ rc s',
    io_nodes s' = io_nodes s ∧ io_handles s' = io_handles s ∧ dom (io_mem s') = dom (io_mem s) ∧
    net_out (io_net s') n = net_out (io_net s) n ∧
    ((rc = Z.of_nat (length m) ∧ io_suffixes s' = io_suffixes s ∧ net_in (io_net s') n = rest ∧
      gather (io_mem s') (arr (iol_base f) (Z.of_nat (length m))) = Some m ∧
      ∀ y, ¬ sx_buf self ≤ y < sx_buf self + suffixlen x → Some y ∉ arr (iol_base f) (Z.of_nat (length m)) →
        io_mem s' !! y = io_mem s !! y) ∨
     (rc = -1 ∧ net_infail (io_net s') n ∧ io_suffixes s' = <[self := sx_in_failed x]> (io_suffixes s)))) s.
Proof.
  intros Hwf Hself Hx Hie Hu Hn Hk Hbal Hsfx Hf Hfl Hfb Hal Hap Hin Hfit Hno Hfu.
  eapply wp_mono; [apply (wp_suffix_mrecvl self first lst d s x f sfx m rest n fuel); try done; lia|].
  intros rc s' (H1 & H2 & H3 & H4 & Hr). split_and!; try done. destruct Hr as [(-> & Hr1 & Hr2 & Hr3)|Hr]; [left|by right].
  set (k := Z.of_nat (length m)) in *. assert (Hb : iol_base f ≠ NULL) by (unfold NULL; lia).
  assert (Es : slots f = arr (iol_base f) k ++ arr (iol_base f + k) (iol_len f - k)).
  { rewrite <- arr_app by lia. by replace (k + (iol_len f - k)) with (iol_len f) by lia. }
  pose proof (length_arr (iol_base f) k ltac:(lia)) as Hla.
  assert (Esc : ∀ mem : gmap Z Z, scatter (slots f) m mem = scatter (arr (iol_base f) k) m mem).
  { intros mem. rewrite Es, scatter_app, drop_ge, take_ge by lia. by destruct (arr (iol_base f + k) _) as [|[]]. }
  split_and!; try done.
  - rewrite (gather_ext _ (scatter (arr (iol_base f) k) m (io_mem s))).
    + destruct (arr_nodup (iol_base f) k Hb). apply gather_scatter; [done|done|lia].
    + intros y Hy. rewrite Hr3, Esc; [done|]. intros Hyb. apply (Hap y); [rewrite Es; apply elem_of_app; by left|lia].
  - intros y Hy1 Hy2. rewrite Hr3, Esc by done. by apply scatter_ne.
Qed.
End Spec.

(** * Examples *)

Definition demo_suffix : dill_suffix_sock := mk_suffix 0 5 2 false false true.

Definition demo_suffix_io (ins : list Z) : io loop :=
  let s := demo_io [ONet 5; OSuffix 1100] prefix_nodes [(5, ins)] in
  set_io_suffixes {[1100 := demo_suffix]} (set_io_mem (<[1172 := 13]> (<[1173 := 10]> (io_mem s))) s).

Lemma suffix_msendl_frames_witness :
  wp (dill_suffix_msendl 1100 10 11 (-1))
    (suffix_sent 1100 demo_suffix 5 [0; 0; 0; 0; 0] [13; 10] (demo_suffix_io [])) (demo_suffix_io []).
Proof.
  apply (suffix_msendl_frames 1100 10 11 (-1) (demo_suffix_io []) demo_suffix ([10] ++ [11])).
  - apply wf_io_b_sound. vm_compute. reflexivity.
  - done.
  - by vm_compute.
  - reflexivity.
  - reflexivity.
  - reflexivity.
  - reflexivity.
  - apply demo_list.
  - done.
  - vm_compute. reflexivity.
  - vm_compute. reflexivity.
Defined.

(** A message of four bytes received into buffers of two and three: the result is 4, but the
    second buffer is untouched and the last two bytes are lost. *)
Lemma suffix_truncates :
  (λ r, (r.1, gather (io_mem r.2) (arr 1000 2), gather (io_mem r.2) (arr 1010 3), net_in (io_net r.2) 5)) <$>
    dill_suffix_mrecvl 6 1100 10 11 (-1) (demo_suffix_io [1; 2; 3; 4; 13; 10; 9]) =
  Some (4, Some [1; 2], Some [0; 0; 0], [9]).
Proof. vm_compute. reflexivity. Qed.

Lemma suffix_mrecvl_receives_witness :
  (λ r, (r.1, gather (io_mem r.2) (arr 1000 2), net_in (io_net r.2) 5)) <$>
    dill_suffix_mrecvl 5 1100 10 11 (-1) (demo_suffix_io [1; 13; 13; 10; 9]) = Some (2, Some [1; 13], [9]) ∧
  wp (dill_suffix_mrecvl 5 1100 10 11 (-1)) (λ rc s',
    io_nodes s' = io_nodes (demo_suffix_io [1; 13; 13; 10; 9]) ∧ io_handles s' = io_handles (demo_suffix_io [1; 13; 13; 10; 9]) ∧
    dom (io_mem s') = dom (io_mem (demo_suffix_io [1; 13; 13; 10; 9])) ∧
    net_out (io_net s') 5 = net_out (io_net (demo_suffix_io [1; 13; 13; 10; 9])) 5 ∧
    ((rc = 2 ∧ io_suffixes s' = io_suffixes (demo_suffix_io [1; 13; 13; 10; 9]) ∧ net_in (io_net s') 5 = [9] ∧
      gather (io_mem s') (arr 1000 2) = Some [1; 13] ∧
      ∀ y, ¬ sx_buf 1100 ≤ y < sx_buf 1100 + 2 → Some y ∉ arr 1000 2 →
        io_mem s' !! y = io_mem (demo_suffix_io [1; 13; 13; 10; 9]) !! y) ∨
     (rc = -1 ∧ net_infail (io_net s') 5 ∧
      io_suffixes s' = <[1100 := sx_in_failed demo_suffix]> (io_suffixes (demo_suffix_io [1; 13; 13; 10; 9])))))
    (demo_suffix_io [1; 13; 13; 10; 9]).
Proof.
  split; [vm_compute; reflexivity|].
  apply (suffix_mrecvl_receives 1100 10 11 (-1) (demo_suffix_io [1; 13; 13; 10; 9]) demo_suffix
    (mk_iolist 1000 2 11 0) [13; 10] [1; 13]).
  - apply wf_io_b_sound. vm_compute. reflexivity.
  - done.
  - reflexivity.
  - reflexivity.
  - reflexivity.
  - reflexivity.
  - by vm_compute.
  - refine (proj1 (gather_some _ _ [0; 0] _)). vm_compute. reflexivity.
  - vm_compute. reflexivity.
  - reflexivity.
  - done.
  - done.
  - refine (proj1 (gather_some _ _ [0; 0] _)). vm_compute. reflexivity.
  - intros y Hy. change (slots _) with (arr 1000 2) in Hy. apply elem_of_arr in Hy; [|done]. unfold sx_buf. lia.
  - vm_compute. reflexivity.
  - by vm_compute.
  - intros i Hi. do 2 (destruct i as [|i]; [done|]). cbn in Hi. lia.
  - cbn. lia.
Defined.
