(* ===== verification/Term.v ===== *)
(** The TERM protocol ([term.c]): a fixed message ends each direction of a message
    socket. *)

From Stdlib Require Import ZArith Lia.
From stdpp Require Import base gmap list.
From S2P Require Import Prelude Handle Iol Sock Loop Prefix.
Open Scope Z_scope.

Definition DILL_MAX_TERMINATOR_LENGTH : Z := 32.
Definition SIZEOF_TERM : Z := 88.
Definition SIZE_MAX : Z := 2 ^ 64 - 1.

Section Term.
Context {N : Type} `{NetN : Net N}.
Context (close : sobj → IO N unit) (proto : msock_vfs N).

Definition get_term (p : ptr) : IO N dill_term_sock := λ s, x ← io_terms s !! p; Some (x, s).
Definition put_term (p : ptr) (x : dill_term_sock) : IO N unit :=
  modify (λ s, set_io_terms (<[p := x]> (io_terms s)) s).
Definition set_tm_indone (p : ptr) : IO N unit :=
  x ← get_term p;
  put_term p (mk_term (tm_u x) (tm_len x) true (tm_outdone x) (tm_mem x)).
Definition set_tm_outdone (p : ptr) : IO N unit :=
  x ← get_term p;
  put_term p (mk_term (tm_u x) (tm_len x) (tm_indone x) true (tm_mem x)).

(** The length is checked only when there is no [mem]: a terminator longer than the
    array of the object, and a null [mem], are undefined behaviour. *)
Definition dill_term_attach_mem (s : Z) (buf : ptr) (len : Z) (mem : option ptr) : IO N Z :=
  if bool_decide (mem = None) && (DILL_MAX_TERMINATOR_LENGTH <? len) then attach_error close s EINVAL
  else if (0 <? len) && (buf =? NULL) then attach_error close s EINVAL
  else
    s ← hown close s;
    if s <? 0 then attach_errno close s
    else
      q ← hquery close s dill_msock_type;
      err ← get_errno;
      if (q =? NULL) && bool_decide (err = ENOTSUP) then attach_error close s EPROTO
      else if q =? NULL then attach_error close s err
      else match mem with
      | None => crash
      | Some self =>
        assert_ (len <=? DILL_MAX_TERMINATOR_LENGTH);;
        bs ← load buf len;
        store (tm_buf self) bs;;
        put_term self (mk_term s len false false true);;
        h ← hmake close (OTerm self);
        if h <? 0 then attach_errno close s else mret h
      end.

(** [free(self)] *)
Definition free_term (self : ptr) : IO N unit :=
  modify (λ s, set_io_terms (delete self (io_terms s)) s);;
  free self SIZEOF_TERM.

Definition dill_term_attach (s : Z) (buf : ptr) (len : Z) : IO N Z :=
  o ← malloc SIZEOF_TERM;
  match o with
  | None => attach_error close s ENOMEM
  | Some obj =>
    s ← dill_term_attach_mem s buf len (Some obj);
    if s <? 0 then
      err ← get_errno;
      free_term obj;;
      attach_error close s err
    else
      x ← get_term obj;
      put_term obj (mk_term (tm_u x) (tm_len x) (tm_indone x) (tm_outdone x) false);;
      mret s
  end.

Definition dill_term_done (s : Z) (deadline : Z) : IO N Z :=
  self ← hquery close s dill_term_type;
  if self =? NULL then mret (-1)
  else
    x ← get_term self;
    if tm_outdone x then fail EPIPE
    else
      rc ← dill_msend close proto (tm_u x) (tm_buf self) (tm_len x) deadline;
      if rc <? 0 then mret (-1)
      else set_tm_outdone self;; mret 0.

Definition dill_term_msendl (self first last : ptr) (deadline : Z) : IO N Z :=
  x ← get_term self;
  dill_msendl close proto (tm_u x) first last deadline.

Definition dill_term_mrecvl (self first last : ptr) (deadline : Z) : IO N Z :=
  x ← get_term self;
  if tm_len x =? 0 then
    sz ← dill_mrecvl close proto (tm_u x) first last deadline;
    if sz <? 0 then mret (-1)
    else if sz =? 0 then set_tm_indone self;; fail EPIPE
    else mret sz
  else
    rc ← read_nodes (λ h, dill_ioltrim (S (size h)) first (tm_len x) h);
    let ok := match rc with inl _ => true | inr _ => false end in
    with_iol (match rc with inl t => t | inr _ => mk_iolist NULL 0 NULL 0 end) (λ trimmed,
    with_buf (tm_len x) (λ buf,
    with_iol (mk_iolist buf (tm_len x) (if ok then trimmed else NULL) 0) (λ iol,
      sz ← dill_mrecvl close proto (tm_u x) iol (if ok then last else iol) deadline;
      if sz <? 0 then mret (-1)
      else
        ended ← (if sz =? tm_len x then
                   a ← load (tm_buf self) (tm_len x);
                   b ← load buf (tm_len x);
                   mret (bool_decide (a = b))
                 else mret false);
        if ended : bool then set_tm_indone self;; fail EPIPE
        else
          bs ← load buf (tm_len x);
          _ ← on_mem (λ h m, dill_iolto (S (size h)) bs first h m);
          mret sz))).

(** The loop of [dill_term_detach] that reads up to the terminator, at most [fuel]
    times around. *)
Fixpoint skip_loop (fuel : nat) (self : ptr) (deadline : Z) : IO N (option errno_t) :=
  match fuel with
  | O => crash
  | S fuel =>
    sz ← with_iol (mk_iolist NULL SIZE_MAX NULL 0) (λ iol, dill_term_mrecvl self iol iol deadline);
    if sz <? 0 then
      err ← get_errno;
      mret (if bool_decide (err = EPIPE) then None else Some err)
    else skip_loop fuel self deadline
  end.

Definition dill_term_detach (fuel : nat) (s : Z) (deadline : Z) : IO N Z :=
  let error err := rc ← hclose close s; assert_ (rc =? 0);; set_errno err;; mret (-1) in
  self ← hquery close s dill_term_type;
  if self =? NULL then mret (-1)
  else
    x ← get_term self;
    r1 ← (if tm_outdone x then mret None
          else
            rc ← dill_term_done s deadline;
            if rc <? 0 then err ← get_errno; mret (Some err) else mret None);
    match r1 with
    | Some err => error err
    | None =>
      x ← get_term self;
      r2 ← (if tm_indone x then mret None else skip_loop fuel self deadline);
      match r2 with
      | Some err => error err
      | None =>
        x ← get_term self;
        (if tm_mem x then mret tt else free_term self);;
        mret (tm_u x)
      end
    end.

Definition dill_term_hclose (self : ptr) : IO N unit :=
  x ← get_term self;
  close_under close (tm_u x);;
  if tm_mem x then mret tt else free_term self.
End Term.
