(* ===== verification/Http.v ===== *)
(** The HTTP protocol ([http.c]): start lines and fields, as messages of a SUFFIX
    socket with the suffix CRLF under a TERM socket. *)

From Stdlib Require Import ZArith Lia.
From stdpp Require Import base gmap list.
From S2P Require Import Prelude Bytes Handle Iol Sock Loop Prefix Suffix Term.
Open Scope Z_scope.

(** * Characters and strings *)

Definition SP : Z := 32.
Definition CRLF : list Z := [13; 10].
(** [" HTTP/1.1"], ["HTTP/1.1 "], [": "] *)
Definition HTTP11 : list Z := [72; 84; 84; 80; 47; 49; 46; 49].
(** [" \t\n"], and what a field name must not contain *)
Definition BLANKS : list Z := [32; 9; 10].
Definition SEPARATORS : list Z :=
  [40; 41; 44; 47; 58; 59; 60; 61; 62; 63; 64; 91; 92; 93; 123; 125; 34; 32; 9; 10].

(** [strpbrk(s, accept) != NULL] *)
Definition strpbrk (s accept : list Z) : bool := existsb (λ c, existsb (Z.eqb c) accept) s.

(** [while(p(rx[pos])) ++pos], within the array *)
Fixpoint skip_while (p : Z → bool) (fuel : nat) (rx : list Z) (pos : nat) : option nat :=
  match fuel with
  | O => None
  | S fuel => c ← rx !! pos; if p c then skip_while p fuel rx (S pos) else Some pos
  end.

Definition scan (p : Z → bool) (rx : list Z) (pos : nat) : option nat := skip_while p (S (length rx)) rx pos.
Definition is_sp (c : Z) : bool := c =? SP.
Definition in_word (c : Z) : bool := negb (c =? 0) && negb (c =? SP).
Definition in_name (c : Z) : bool := negb (c =? 0) && negb (c =? SP) && negb (c =? 58).

(** The bytes from [i] up to [j]. *)
Definition slice (rx : list Z) (i j : nat) : list Z := take (j - i) (drop i rx).

(** The string that starts at [i]. *)
Fixpoint string_of (s : list Z) : list Z :=
  match s with [] => [] | c :: s => if c =? 0 then [] else c :: string_of s end.

(** [sz - pos > len - 1], in [size_t] *)
Definition too_long (n len : Z) : bool := u64 (len - 1) <? u64 n.

Definition isdig (c : Z) : bool := (48 <=? c) && (c <=? 57).

Section Http.
Context {N : Type} `{NetN : Net N}.
Context (close : sobj → IO N unit) (proto : msock_vfs N).

Definition lift {A} (o : option A) : IO N A := match o with Some a => mret a | None => crash end.

(** The contents of the string at [p]; [strlen] is its length. *)
Fixpoint load_string (fuel : nat) (p : ptr) (m : gmap Z Z) : option (list Z) :=
  match fuel with
  | O => None
  | S fuel => c ← m !! p; if c =? 0 then Some [] else s ← load_string fuel (p + 1) m; Some (c :: s)
  end.
Definition cstring (p : ptr) : IO N (list Z) := λ s,
  match load_string (S (size (io_mem s))) p (io_mem s) with Some bs => Some (bs, s) | None => None end.

(** Bytes of the function, a string literal or a local array, during [k]. *)
Definition with_bytes {A} (bs : list Z) (k : ptr → IO N A) : IO N A :=
  with_buf (Z.of_nat (length bs)) (λ p, store p bs;; k p).

Definition get_http (p : ptr) : IO N dill_http_sock := λ s, x ← io_https s !! p; Some (x, s).
Definition put_http (p : ptr) (x : dill_http_sock) : IO N unit :=
  modify (λ s, set_io_https (<[p := x]> (io_https s)) s).

Definition dill_http_attach_mem (s : Z) (mem : option ptr) : IO N Z :=
  match mem with
  | None => attach_error close s EINVAL
  | Some obj =>
    q ← hquery close s dill_bsock_type;
    if q =? NULL then attach_errno close s
    else
      s ← hown close s;
      if s <? 0 then attach_errno close s
      else
        s ← with_bytes CRLF (λ p, dill_suffix_attach_mem close s p 2 (Some (ht_suffix_mem obj)));
        if s <? 0 then attach_errno close s
        else
          s ← dill_term_attach_mem close s NULL 0 (Some (ht_term_mem obj));
          if s <? 0 then attach_errno close s
          else
            put_http obj (mk_http s true);;
            h ← hmake close (OHttp obj);
            if h <? 0 then attach_errno close s else mret h
  end.

Definition SIZEOF_HTTP : Z := 1264.

Definition free_http (self : ptr) : IO N unit :=
  modify (λ s, set_io_https (delete self (io_https s)) s);;
  free self SIZEOF_HTTP.

Definition dill_http_attach (s : Z) : IO N Z :=
  o ← malloc SIZEOF_HTTP;
  match o with
  | None => attach_error close s ENOMEM
  | Some obj =>
    s ← dill_http_attach_mem s (Some obj);
    if s <? 0 then
      err ← get_errno;
      free_http obj;;
      attach_error close s err
    else
      x ← get_http obj;
      put_http obj (mk_http (ht_u x) false);;
      mret s
  end.

Definition dill_http_done (s : Z) (deadline : Z) : IO N Z :=
  obj ← hquery close s dill_http_type;
  if obj =? NULL then mret (-1)
  else
    x ← get_http obj;
    dill_term_done close proto (ht_u x) deadline.

(** [err] is 0 on success. *)
Definition dill_http_detach (fuel : nat) (s : Z) (deadline : Z) : IO N Z :=
  obj ← hquery close s dill_http_type;
  if obj =? NULL then mret (-1)
  else
    x ← get_http obj;
    let finish u err :=
      (if ht_mem x then mret tt else free_http obj);;
      set_errno err;;
      mret u in
    u ← dill_term_detach close proto fuel (ht_u x) deadline;
    if u <? 0 then err ← get_errno; finish u err
    else
      u ← dill_suffix_detach close u deadline;
      if u <? 0 then err ← get_errno; finish u err else finish u E0.

(** The array [iol] of a function, linked in order: the first and the last element. *)
Fixpoint with_iols {A} (bufs : list (ptr * Z)) (k : ptr → ptr → IO N A) : IO N A :=
  match bufs with
  | [] => crash
  | [b] => with_iol (mk_iolist b.1 b.2 NULL 0) (λ p, k p p)
  | b :: bufs => with_iols bufs (λ first last, with_iol (mk_iolist b.1 b.2 first 0) (λ p, k p last))
  end.

Definition len (s : list Z) : Z := Z.of_nat (length s).

Definition dill_http_sendrequest (s : Z) (command resource : ptr) (deadline : Z) : IO N Z :=
  obj ← hquery close s dill_http_type;
  if obj =? NULL then mret (-1)
  else
    x ← get_http obj;
    c ← cstring command;
    if strpbrk c BLANKS then fail EINVAL
    else
      r ← cstring resource;
      if strpbrk r BLANKS then fail EINVAL
      else
        with_bytes [SP] (λ sp, with_bytes (SP :: HTTP11) (λ v,
          with_iols [(command, len c); (sp, 1); (resource, len r); (v, 9)] (λ first last,
            dill_msendl close proto (ht_u x) first last deadline))).

(** A message into [rxbuf], terminated: [sz], and the contents of the array. *)
Definition recv_line (obj : ptr) (x : dill_http_sock) (deadline : Z) : IO N (Z * list Z) :=
  sz ← dill_mrecv close proto (ht_u x) (ht_rxbuf obj) (RXBUF - 1) deadline;
  if sz <? 0 then mret (-1, [])
  else
    (** a longer message, which SUFFIX cuts but whose size it returns, would put the
        terminator outside the array *)
    assert_ (sz <? RXBUF);;
    store (ht_rxbuf obj + sz) [0];;
    rx ← load (ht_rxbuf obj) RXBUF;
    mret (sz, rx).

(** The parsers are what the functions do with the line that was received. *)

(** [memcpy(dst, rxbuf + i, j - i); dst[j - i] = 0] *)
Definition put_text (dst : ptr) (rx : list Z) (i j : nat) : IO N unit :=
  store dst (slice rx i j);;
  store (dst + Z.of_nat (j - i)) [0].

Definition parse_request (rx : list Z) (command : ptr) (commandlen : Z) (resource : ptr) (resourcelen : Z) : IO N Z :=
  start ← lift (scan is_sp rx 0);
  pos ← lift (scan in_word rx start);
  c ← lift (rx !! pos);
  if c =? 0 then fail EPROTO
  else if too_long (Z.of_nat (pos - start)) commandlen then fail EMSGSIZE
  else
    put_text command rx start pos;;
    start ← lift (scan is_sp rx pos);
    pos ← lift (scan in_word rx start);
    c ← lift (rx !! pos);
    if c =? 0 then fail EPROTO
    else if too_long (Z.of_nat (pos - start)) resourcelen then fail EMSGSIZE
    else
      put_text resource rx start pos;;
      start ← lift (scan is_sp rx pos);
      pos ← lift (scan in_word rx start);
      (** both must differ for the line to be refused *)
      if negb (pos - start =? 8)%nat && negb (bool_decide (slice rx start (start + 8) = HTTP11))
      then fail EPROTO
      else
        pos ← lift (scan is_sp rx pos);
        c ← lift (rx !! pos);
        if negb (c =? 0) then fail EPROTO else mret 0.

Definition dill_http_recvrequest (s : Z) (command : ptr) (commandlen : Z) (resource : ptr) (resourcelen : Z)
    (deadline : Z) : IO N Z :=
  obj ← hquery close s dill_http_type;
  if obj =? NULL then mret (-1)
  else
    x ← get_http obj;
    '(sz, rx) ← recv_line obj x deadline;
    if sz <? 0 then mret (-1)
    else
      parse_request rx command commandlen resource resourcelen.

Definition dill_http_sendstatus (s : Z) (status : Z) (reason : ptr) (deadline : Z) : IO N Z :=
  obj ← hquery close s dill_http_type;
  if obj =? NULL then mret (-1)
  else
    x ← get_http obj;
    if (status <? 100) || (599 <? status) then fail EINVAL
    else
      let buf := [status / 100 + 48; status mod 100 / 10 + 48; status mod 100 mod 10 + 48; SP] in
      with_bytes buf (λ b, with_bytes (HTTP11 ++ [SP]) (λ v,
        r ← cstring reason;
        with_iols [(v, 9); (b, 4); (reason, len r)] (λ first last,
          dill_msendl close proto (ht_u x) first last deadline))).

Definition parse_status (sz : Z) (rx : list Z) (reason : ptr) (reasonlen : Z) : IO N Z :=
  start ← lift (scan is_sp rx 0);
  pos ← lift (scan in_word rx start);
  c ← lift (rx !! pos);
  if c =? 0 then fail EPROTO
  else if negb (pos - start =? 8)%nat && negb (bool_decide (slice rx start (start + 8) = HTTP11))
  then fail EPROTO
  else
    start ← lift (scan is_sp rx pos);
    pos ← lift (scan in_word rx start);
    c ← lift (rx !! pos);
    if c =? 0 then fail EPROTO
    else if negb (pos - start =? 3)%nat then fail EPROTO
    else
      c0 ← lift (rx !! start);
      c1 ← lift (rx !! (start + 1)%nat);
      c2 ← lift (rx !! (start + 2)%nat);
      if negb (isdig c0 && isdig c1 && isdig c2) then fail EPROTO
      else
        let status := (c0 - 48) * 100 + (c1 - 48) * 10 + (c2 - 48) in
        pos ← lift (scan is_sp rx pos);
        if too_long (sz - Z.of_nat pos) reasonlen then fail EMSGSIZE
        else
          put_text reason rx pos (Z.to_nat sz);;
          mret status.

Definition dill_http_recvstatus (s : Z) (reason : ptr) (reasonlen : Z) (deadline : Z) : IO N Z :=
  obj ← hquery close s dill_http_type;
  if obj =? NULL then mret (-1)
  else
    x ← get_http obj;
    '(sz, rx) ← recv_line obj x deadline;
    if sz <? 0 then mret (-1)
    else
      parse_status sz rx reason reasonlen.

Definition dill_http_sendfield (s : Z) (name value : ptr) (deadline : Z) : IO N Z :=
  obj ← hquery close s dill_http_type;
  if obj =? NULL then mret (-1)
  else
    x ← get_http obj;
    n ← cstring name;
    if strpbrk n SEPARATORS then fail EINVAL
    else
      v ← cstring value;
      if len v =? 0 then fail EPROTO
      else
        with_bytes [58; SP] (λ sep,
          let start := dill_lstrip v SP in
          let stop := dill_rstrip start SP in
          assert_ (0 <? stop)%nat;;
          with_iols [(name, len n); (sep, 2); (value + (len v - len start), Z.of_nat stop)] (λ first last,
            dill_msendl close proto (ht_u x) first last deadline)).

Definition parse_field (sz : Z) (rx : list Z) (name : ptr) (namelen : Z) (value : ptr) (valuelen : Z) : IO N Z :=
  start ← lift (scan is_sp rx 0);
  pos ← lift (scan in_name rx start);
  c ← lift (rx !! pos);
  if c =? 0 then fail EPROTO
  else if too_long (Z.of_nat (pos - start)) namelen then fail EMSGSIZE
  else
    put_text name rx start pos;;
    pos ← lift (scan is_sp rx pos);
    c ← lift (rx !! pos);
    if negb (c =? 58) then fail EPROTO
    else
      start ← lift (scan is_sp rx (S pos));
      (** [dill_rstrip] is given the end of the line, an empty string *)
      let pos := (Z.to_nat sz + dill_rstrip (string_of (drop (Z.to_nat sz) rx)) SP)%nat in
      if too_long (Z.of_nat pos - Z.of_nat start) valuelen then fail EMSGSIZE
      else
        put_text value rx start pos;;
        pos ← lift (scan is_sp rx pos);
        c ← lift (rx !! pos);
        if negb (c =? 0) then fail EPROTO else mret 0.

Definition dill_http_recvfield (s : Z) (name : ptr) (namelen : Z) (value : ptr) (valuelen : Z) (deadline : Z) : IO N Z :=
  obj ← hquery close s dill_http_type;
  if obj =? NULL then mret (-1)
  else
    x ← get_http obj;
    '(sz, rx) ← recv_line obj x deadline;
    if sz <? 0 then mret (-1)
    else
      parse_field sz rx name namelen value valuelen.

Definition dill_http_hclose (obj : ptr) : IO N unit :=
  x ← get_http obj;
  close_under close (ht_u x);;
  if ht_mem x then mret tt else free_http obj.
End Http.
