(* ===== verification/Httpspec.v ===== *)
(** Theorems about the HTTP protocol: the lines that are sent, and what the parsers
    make of them. *)

From Stdlib Require Import ZArith Lia.
From stdpp Require Import base gmap list.
From S2P Require Import Prelude Bytes Handle Iol Sock Loop Prefix Suffix Term Http.
Open Scope Z_scope.

(** * The lines *)

Definition request_line (c r : list Z) : list Z := c ++ SP :: r ++ SP :: HTTP11.
Definition digits (status : Z) : list Z := [status / 100 + 48; status mod 100 / 10 + 48; status mod 100 mod 10 + 48].
Definition status_line (status : Z) (reason : list Z) : list Z := (HTTP11 ++ [SP]) ++ (digits status ++ [SP]) ++ reason.
Definition field_line (n v : list Z) : list Z := n ++ [58; SP] ++ v.

(** * Scanning *)

Lemma skip_while_run p a b c t fuel :
  Forall (λ x, p x = true) b → p c = false → (length b < fuel)%nat →
  skip_while p fuel (a ++ b ++ c :: t) (length a) = Some (length a + length b)%nat.
Proof.
  revert a fuel. induction b as [|x b IH]; intros a fuel Hb Hc Hf; (destruct fuel as [|fuel]; [cbn in Hf; lia|]); cbn [skip_while app].
  - rewrite list_lookup_middle by done. cbn. rewrite Hc. f_equal. cbn [length]. lia.
  - rewrite list_lookup_middle by done. apply Forall_cons in Hb as [Hx Hb]. cbn [mbind option_bind]. rewrite Hx.
    pose proof (IH (a ++ [x]) fuel Hb Hc ltac:(cbn in Hf; lia)) as H. rewrite <- app_assoc, length_app in H.
    cbn [app length] in H. replace (length a + 1)%nat with (S (length a)) in H by lia. rewrite H. f_equal. cbn. lia.
Qed.

Lemma scan_run p rx a b c t i :
  rx = a ++ b ++ c :: t → i = length a → Forall (λ x, p x = true) b → p c = false →
  scan p rx i = Some (i + length b)%nat.
Proof.
  intros -> -> Hb Hc. apply skip_while_run; [done|done|]. rewrite !length_app. cbn. lia.
Qed.

Lemma slice_mid (rx a b t : list Z) i j : rx = a ++ b ++ t → i = length a → j = (i + length b)%nat → slice rx i j = b.
Proof.
  intros -> -> ->. unfold slice. rewrite drop_app_length. replace (length a + length b - length a)%nat with (length b) by lia.
  by rewrite take_app_length.
Qed.

Lemma in_word_sp : in_word SP = false.
Proof. done. Qed.

Lemma not_too_long n len : 0 ≤ n < len → len < 2 ^ 64 → too_long n len = false.
Proof. intros H1 H2. unfold too_long, u64. rewrite !Z.mod_small by lia. apply Z.ltb_ge. lia. Qed.

(** Where a word starts, the blanks are over. *)
Lemma scan_stop p rx a w t i :
  rx = a ++ w ++ t → i = length a → Forall (λ x, p x = false) w → w ≠ [] → scan p rx i = Some i.
Proof.
  intros Hrx Hi Hw Hn. destruct w as [|x w]; [done|]. apply Forall_cons in Hw as [Hx _].
  rewrite (scan_run p rx a [] x (w ++ t) i Hrx Hi (Forall_nil_2 _) Hx). f_equal. cbn. lia.
Qed.

Lemma word_not_sp w : Forall (λ x, in_word x = true) w → Forall (λ x, is_sp x = false) w.
Proof.
  intros H. eapply Forall_impl; [exact H|]. intros x Hx. unfold in_word, is_sp in *. by destruct (x =? 0), (x =? SP).
Qed.

Lemma scan_sp1 rx a w t i :
  rx = a ++ [SP] ++ w ++ t → i = length a → Forall (λ x, is_sp x = false) w → w ≠ [] → scan is_sp rx i = Some (i + 1)%nat.
Proof.
  intros Hrx Hi Hw Hn. destruct w as [|x w]; [done|]. apply Forall_cons in Hw as [Hx _].
  apply (scan_run is_sp rx a [SP] x (w ++ t) i); [done|done|by repeat constructor|done].
Qed.

Lemma lookup_at (rx a : list Z) x t i : rx = a ++ x :: t → i = length a → rx !! i = Some x.
Proof. intros -> ->. by apply list_lookup_middle. Qed.

Section Spec.
Context {N : Type} `{NetN : Net N}.
Context (close : sobj → IO N unit) (proto : msock_vfs N).

Lemma wp_lift {A} (o : option A) a (Q : A → io N → Prop) s : o = Some a → Q a s → wp (lift o) Q s.
Proof. by intros ->. Qed.

(** The text [b] with its terminator at [dst]. *)
Definition put (dst : ptr) (b : list Z) (m : gmap Z Z) : gmap Z Z :=
  scatter (arr dst (len b + 1)) (b ++ [0]) m.

Lemma wp_put_text dst rx i j b (Q : unit → io N → Prop) s :
  0 < dst → slice rx i j = b → (j - i)%nat = length b → allocated (io_mem s) (arr dst (len b + 1)) →
  Q tt (set_io_mem (put dst b (io_mem s)) s) → wp (put_text dst rx i j) Q s.
Proof.
  intros Hd <- Hl Ha HQ. set (b := slice rx i j) in *. unfold put_text. fold b. unfold len in *. rewrite Hl.
  assert (Hd' : dst ≠ NULL) by (unfold NULL; lia). assert (Hd2 : dst + Z.of_nat (length b) ≠ NULL) by (unfold NULL; lia).
  rewrite arr_app in Ha by lia.
  assert (Ha1 : allocated (io_mem s) (arr dst (Z.of_nat (length b)))) by (intros y Hy; apply Ha, elem_of_app; by left).
  apply wp_bind, (wp_store _ _ (scatter (arr dst (Z.of_nat (length b))) b (io_mem s))); [by apply store_arr|].
  apply (wp_store _ _ (put dst b (io_mem s))); [|by destruct s].
  unfold put, len. rewrite arr_app, scatter_app by lia. pose proof (length_arr dst (Z.of_nat (length b)) ltac:(lia)) as Hla.
  rewrite take_app_le, take_ge, drop_app_ge by lia. replace (length (arr _ _) - length b)%nat with 0%nat by lia.
  apply store_arr; [done| |done]. apply allocated_scatter; [done|].
  intros y Hy. apply Ha, elem_of_app. by right.
Qed.

Lemma put_alloc dst b m sl : 0 < dst → allocated m (arr dst (len b + 1)) → allocated m sl → allocated (put dst b m) sl.
Proof. intros Hd Ha Hs. by apply allocated_scatter. Qed.
(** * Parsing *)

(** What a request, a status or a field leaves in the caller's buffers. *)
Definition request_read (command resource : ptr) (c r : list Z) (s : io N) (rc : Z) (s' : io N) : Prop :=
  rc = 0 ∧ s' = set_io_mem (put resource r (put command c (io_mem s))) s.
Definition status_read (status : Z) (reason : ptr) (r : list Z) (s : io N) (rc : Z) (s' : io N) : Prop :=
  rc = status ∧ s' = set_io_mem (put reason r (io_mem s)) s.

(** The list [rx] as in [H], up to associativity. *)
Ltac split_line H := rewrite H; repeat (rewrite <- app_assoc || cbn [app]); reflexivity.

(** C35. A request line is parsed back: from the line that [dill_http_sendrequest] sends
    for a command and a resource, words that are not empty and fit the buffers,
    [dill_http_recvrequest] copies out the command and the resource, each with its
    terminator, and returns 0; nothing else is written. *)
Theorem request_parse rx c r junk command commandlen resource resourcelen s :
  rx = request_line c r ++ 0 :: junk →
  Forall (λ x, in_word x = true) c → Forall (λ x, in_word x = true) r → c ≠ [] → r ≠ [] →
  len c < commandlen < 2 ^ 64 → len r < resourcelen < 2 ^ 64 → 0 < command → 0 < resource →
  allocated (io_mem s) (arr command (len c + 1)) → allocated (io_mem s) (arr resource (len r + 1)) →
  wp (parse_request rx command commandlen resource resourcelen) (request_read command resource c r s) s.
Proof.
  intros Hrx Hc Hr Hcn Hrn Hcl Hrl Hc0 Hr0 Hca Hra. unfold request_line in Hrx.
  pose proof (word_not_sp _ Hc) as Hcs. pose proof (word_not_sp _ Hr) as Hrs.
  assert (Hv : Forall (λ x, in_word x = true) HTTP11) by (repeat constructor).
  unfold len in *. unfold parse_request.
  set (n1 := length c). set (n2 := (n1 + 1 + length r)%nat).
  apply wp_bind, (wp_lift _ 0%nat); [by apply (scan_stop _ _ [] c (SP :: r ++ SP :: HTTP11 ++ 0 :: junk)); first split_line Hrx|].
  apply wp_bind, (wp_lift _ n1); [by apply (scan_run _ _ [] c SP (r ++ SP :: HTTP11 ++ 0 :: junk)); first split_line Hrx|].
  apply wp_bind, (wp_lift _ SP); [by apply (lookup_at _ c _ (r ++ SP :: HTTP11 ++ 0 :: junk)); first split_line Hrx|].
  change (SP =? 0) with false. cbv iota. rewrite Nat.sub_0_r, not_too_long by lia.
  apply wp_bind, (wp_put_text _ _ _ _ c); [done|by apply (slice_mid _ [] c (SP :: r ++ SP :: HTTP11 ++ 0 :: junk)); first split_line Hrx|lia|done|].
  apply wp_bind, (wp_lift _ (n1 + 1)%nat); [by apply (scan_sp1 _ c r (SP :: HTTP11 ++ 0 :: junk)); first split_line Hrx|].
  apply wp_bind, (wp_lift _ n2).
  { apply (scan_run _ _ (c ++ [SP]) r SP (HTTP11 ++ 0 :: junk)); [split_line Hrx|by rewrite length_app|done|done]. }
  apply wp_bind, (wp_lift _ SP).
  { apply (lookup_at _ (c ++ SP :: r) _ (HTTP11 ++ 0 :: junk)); [split_line Hrx|]. rewrite length_app. cbn. lia. }
  change (SP =? 0) with false. cbv iota. replace (n2 - (n1 + 1))%nat with (length r) by lia. rewrite not_too_long by lia.
  apply wp_bind, (wp_put_text _ _ _ _ r); [done| |lia| |].
  { apply (slice_mid _ (c ++ [SP]) r (SP :: HTTP11 ++ 0 :: junk)); [split_line Hrx|by rewrite length_app|lia]. }
  { by apply put_alloc. }
  apply wp_bind, (wp_lift _ (n2 + 1)%nat).
  { apply (scan_sp1 _ (c ++ SP :: r) HTTP11 (0 :: junk)); [split_line Hrx| |by apply word_not_sp|done].
    rewrite length_app. cbn. lia. }
  apply wp_bind, (wp_lift _ (n2 + 9)%nat).
  { replace (n2 + 9)%nat with (n2 + 1 + length HTTP11)%nat by (cbn; lia).
    apply (scan_run _ _ (c ++ SP :: r ++ [SP]) HTTP11 0 junk); [split_line Hrx| |done|done].
    rewrite !length_app. cbn. rewrite length_app. cbn. lia. }
  replace (n2 + 9 - (n2 + 1))%nat with 8%nat by lia. cbn [Nat.eqb negb andb].
  assert (Hl : (n2 + 9)%nat = length (c ++ SP :: r ++ SP :: HTTP11)).
  { rewrite !length_app. cbn. rewrite length_app. cbn. lia. }
  apply wp_bind, (wp_lift _ (n2 + 9)%nat).
  { rewrite (scan_run is_sp rx (c ++ SP :: r ++ SP :: HTTP11) [] 0 junk _ Hrx Hl (Forall_nil_2 _)) by done. f_equal. cbn. lia. }
  apply wp_bind, (wp_lift _ 0); [by apply (lookup_at _ _ _ _ _ Hrx)|].
  apply wp_ret. split; [done|]. by destruct s.
Qed.
(** A status line is parsed back: from the line that [dill_http_sendstatus] sends for
    a status from 100 to 599 and a reason that does not start with a blank,
    [dill_http_recvstatus] copies out the reason and returns the status. *)
Lemma status_parse rx status r junk reason reasonlen s :
  rx = status_line status r ++ 0 :: junk →
  100 ≤ status ≤ 599 → hd 0 r ≠ SP →
  len r < reasonlen < 2 ^ 64 → 0 < reason → allocated (io_mem s) (arr reason (len r + 1)) →
  wp (parse_status (len (status_line status r)) rx reason reasonlen) (status_read status reason r s) s.
Proof.
  intros Hrx Hst Hr Hrl Hr0 Hra. set (ds := digits status).
  assert (Hrx' : rx = HTTP11 ++ SP :: ds ++ SP :: r ++ 0 :: junk).
  { rewrite Hrx. unfold status_line. fold ds. by rewrite <- !app_assoc. }
  assert (Hlen : length (status_line status r) = (13 + length r)%nat) by (unfold status_line; rewrite !length_app; done).
  assert (Hd : Forall (λ x, isdig x = true) ds).
  { unfold ds, digits, isdig. repeat apply Forall_cons_2; [..|done]; apply andb_true_iff; rewrite !Z.leb_le; zdm. }
  assert (Hdw : Forall (λ x, in_word x = true) ds).
  { eapply Forall_impl; [exact Hd|]. intros x Hx. unfold isdig, in_word, SP in *.
    apply andb_true_iff in Hx as [?%Z.leb_le ?%Z.leb_le]. by rewrite !(proj2 (Z.eqb_neq _ _)) by lia. }
  assert (Hv : Forall (λ x, in_word x = true) HTTP11) by (repeat constructor).
  unfold parse_status.
  apply wp_bind, (wp_lift _ 0%nat).
  { apply (scan_stop _ _ [] HTTP11 (SP :: ds ++ SP :: r ++ 0 :: junk)); [split_line Hrx'|done|by apply word_not_sp|done]. }
  apply wp_bind, (wp_lift _ 8%nat).
  { apply (scan_run _ _ [] HTTP11 SP (ds ++ SP :: r ++ 0 :: junk)); [split_line Hrx'|done|done|done]. }
  apply wp_bind, (wp_lift _ SP).
  { apply (lookup_at _ HTTP11 _ (ds ++ SP :: r ++ 0 :: junk)); [split_line Hrx'|done]. }
  change (SP =? 0) with false. cbn [Nat.eqb Nat.sub negb andb].
  apply wp_bind, (wp_lift _ 9%nat).
  { apply (scan_sp1 _ HTTP11 ds (SP :: r ++ 0 :: junk)); [split_line Hrx'|done|by apply word_not_sp|done]. }
  apply wp_bind, (wp_lift _ 12%nat).
  { apply (scan_run _ _ (HTTP11 ++ [SP]) ds SP (r ++ 0 :: junk)); [split_line Hrx'|done|done|done]. }
  apply wp_bind, (wp_lift _ SP).
  { apply (lookup_at _ (HTTP11 ++ SP :: ds) _ (r ++ 0 :: junk)); [split_line Hrx'|done]. }
  change (SP =? 0) with false. cbn [Nat.eqb Nat.sub negb].
  apply wp_bind, (wp_lift _ (status / 100 + 48)); [by rewrite Hrx'|].
  apply wp_bind, (wp_lift _ (status mod 100 / 10 + 48)); [by rewrite Hrx'|].
  apply wp_bind, (wp_lift _ (status mod 100 mod 10 + 48)); [by rewrite Hrx'|].
  unfold ds, digits in Hd. rewrite !Forall_cons in Hd. destruct Hd as (-> & -> & -> & _). cbn [andb negb].
  apply wp_bind, (wp_lift _ 13%nat).
  { destruct r as [|r0 r'].
    - apply (scan_run is_sp rx (HTTP11 ++ SP :: ds) [SP] 0 junk); [split_line Hrx'|done|by repeat constructor|done].
    - apply (scan_run is_sp rx (HTTP11 ++ SP :: ds) [SP] r0 (r' ++ 0 :: junk)); [split_line Hrx'|done|by repeat constructor|].
      cbn in Hr. unfold is_sp. by apply Z.eqb_neq. }
  unfold len in *. rewrite Hlen. replace (Z.of_nat (13 + length r) - Z.of_nat 13) with (Z.of_nat (length r)) by lia.
  rewrite not_too_long by lia. rewrite Nat2Z.id.
  apply wp_bind, (wp_put_text _ _ _ _ r); [done| |lia|done|].
  { apply (slice_mid _ (HTTP11 ++ SP :: ds ++ [SP]) r (0 :: junk)); [split_line Hrx'|done|lia]. }
  apply wp_ret. split; [|done]. zdm.
Qed.

(** A field is parsed back: from the line that [dill_http_sendfield] sends for a name
    without separators and a value without blanks at its ends, [dill_http_recvfield]
    copies out the name and the value, and returns 0. *)
Lemma field_parse rx n v junk name namelen value valuelen s :
  rx = field_line n v ++ 0 :: junk →
  Forall (λ x, in_name x = true) n → n ≠ [] → hd 0 v ≠ SP →
  len n < namelen < 2 ^ 64 → len v < valuelen < 2 ^ 64 → 0 < name → 0 < value →
  allocated (io_mem s) (arr name (len n + 1)) → allocated (io_mem s) (arr value (len v + 1)) →
  wp (parse_field (len (field_line n v)) rx name namelen value valuelen) (request_read name value n v s) s.
Proof.
  intros Hrx Hn Hnn Hv Hnl Hvl Hn0 Hv0 Hna Hva. set (n1 := length n).
  assert (Hrx' : rx = n ++ 58 :: SP :: v ++ 0 :: junk) by (rewrite Hrx; unfold field_line; by rewrite <- !app_assoc).
  assert (Hlen : length (field_line n v) = (n1 + 2 + length v)%nat) by (unfold field_line; rewrite !length_app; cbn; lia).
  assert (Hns : Forall (λ x, is_sp x = false) n).
  { eapply Forall_impl; [exact Hn|]. intros x Hx. unfold in_name, is_sp in *. by destruct (x =? 0), (x =? SP). }
  unfold parse_field, len in *. rewrite Hlen.
  apply wp_bind, (wp_lift _ 0%nat); [by apply (scan_stop _ _ [] n (58 :: SP :: v ++ 0 :: junk)); first split_line Hrx'|].
  apply wp_bind, (wp_lift _ n1); [by apply (scan_run _ _ [] n 58 (SP :: v ++ 0 :: junk)); first split_line Hrx'|].
  apply wp_bind, (wp_lift _ 58); [by apply (lookup_at _ n _ (SP :: v ++ 0 :: junk)); first split_line Hrx'|].
  change (58 =? 0) with false. cbv iota. rewrite Nat.sub_0_r, not_too_long by lia.
  apply wp_bind, (wp_put_text _ _ _ _ n); [done|by apply (slice_mid _ [] n (58 :: SP :: v ++ 0 :: junk)); first split_line Hrx'|lia|done|].
  apply wp_bind, (wp_lift _ n1).
  { apply (scan_stop _ _ n [58] (SP :: v ++ 0 :: junk)); [split_line Hrx'|done|by repeat constructor|done]. }
  apply wp_bind, (wp_lift _ 58); [by apply (lookup_at _ n _ (SP :: v ++ 0 :: junk)); first split_line Hrx'|].
  cbn [Z.eqb negb]. change (58 =? 58) with true. cbn [negb].
  apply wp_bind, (wp_lift _ (S n1 + 1)%nat).
  { destruct v as [|v0 v'].
    - apply (scan_run is_sp rx (n ++ [58]) [SP] 0 junk); [split_line Hrx'|rewrite length_app; cbn; lia|by repeat constructor|done].
    - apply (scan_run is_sp rx (n ++ [58]) [SP] v0 (v' ++ 0 :: junk)); [split_line Hrx'|rewrite length_app; cbn; lia|by repeat constructor|].
      cbn in Hv. unfold is_sp. by apply Z.eqb_neq. }
  assert (Hdrop : drop (n1 + 2 + length v) rx = 0 :: junk).
  { rewrite Hrx. rewrite <- Hlen. apply drop_app_length. }
  rewrite Nat2Z.id, Hdrop. cbn [string_of Z.eqb]. change (0 =? 0) with true. cbv iota.
  change (dill_rstrip [] SP) with 0%nat. rewrite Nat.add_0_r.
  replace (Z.of_nat (n1 + 2 + length v) - Z.of_nat (S n1 + 1)) with (Z.of_nat (length v)) by lia.
  rewrite not_too_long by lia.
  apply wp_bind, (wp_put_text _ _ _ _ v); [done| |lia|by apply put_alloc|].
  { apply (slice_mid _ (n ++ [58; SP]) v (0 :: junk)); [split_line Hrx'|rewrite length_app; cbn; lia|lia]. }
  apply wp_bind, (wp_lift _ (n1 + 2 + length v)%nat).
  { rewrite (scan_run is_sp rx (field_line n v) [] 0 junk _ Hrx (eq_sym Hlen) (Forall_nil_2 _)) by done.
    f_equal. cbn. lia. }
  apply wp_bind, (wp_lift _ 0); [by apply (lookup_at _ _ _ _ _ Hrx)|].
  apply wp_ret. split; [done|]. by destruct s.
Qed.
End Spec.

(** * Examples *)

Definition demo_http_io : io loop := demo_io [] [] [].

(** ["GET"], ["/x"]; ["OK"]; ["Host"], ["a:b "] *)
Definition demo_get : list Z := [71; 69; 84].
Definition demo_path : list Z := [47; 120].

Lemma demo_room a n : 1000 ≤ a → 0 ≤ n → a + n ≤ 2000 → allocated (io_mem demo_http_io) (arr a n).
Proof.
  intros Ha Hn Hm y Hy. apply elem_of_arr in Hy; [|unfold NULL; lia]. exists 0.
  change (io_mem demo_http_io) with (zeros 1000 1000). rewrite zeros_lookup. rewrite decide_True by lia. done.
Qed.

Lemma request_parse_witness :
  wp (parse_request (request_line demo_get demo_path ++ 0 :: repeat 0 1000) 1000 32 1100 3)
    (request_read 1000 1100 demo_get demo_path demo_http_io) demo_http_io.
Proof.
  apply (request_parse _ _ _ (repeat 0 1000)); try done.
  - by repeat constructor.
  - by repeat constructor.
  - by apply demo_room.
  - by apply demo_room.
Defined.

Lemma status_parse_witness :
  wp (parse_status (len (status_line 204 [])) (status_line 204 [] ++ 0 :: repeat 0 900) 1000 1)
    (status_read 204 1000 [] demo_http_io) demo_http_io.
Proof.
  apply (status_parse _ _ _ (repeat 0 900)); try done.
  by apply demo_room.
Defined.

Lemma field_parse_witness :
  wp (parse_field (len (field_line [72; 111] [97; 58; 32; 98])) (field_line [72; 111] [97; 58; 32; 98] ++ 0 :: repeat 0 900)
      1000 8 1100 8)
    (request_read 1000 1100 [72; 111] [97; 58; 32; 98] demo_http_io) demo_http_io.
Proof.
  apply (field_parse _ _ _ (repeat 0 900)); try done.
  - by repeat constructor.
  - by apply demo_room.
  - by apply demo_room.
Defined.
