(* ===== verification/Stream.v ===== *)
(** Exchanging data with a bytestream through local arrays: the rules by which the
    protocols above are verified.  A function has a local array, fills it from the front
    by receiving or storing, reads it back and sends it. *)

From Stdlib Require Import ZArith Lia.
From stdpp Require Import base gmap list.
From S2P Require Import Prelude Bytes Handle Iol Sock Loop Prefix Suffix Term Http.
Open Scope Z_scope.

(** Only [errno], bytes, fresh addresses, the sockets and the cache of the handles differ. *)
Definition calm {N} (s s' : io N) : Prop := ∃ c nx m nt e, s' = after c nx m nt e s ∧ io_next s ≤ nx.

Lemma calm_refl {N} (s : io N) : calm s s.
Proof. exists (io_handles s), (io_next s), (io_mem s), (io_net s), (io_errno s). split; [by destruct s|lia]. Qed.

Lemma calm_after {N} c nx m nt e (s s' : io N) : calm s s' → io_next s' ≤ nx → calm s (after c nx m nt e s').
Proof. intros (c' & nx' & m' & nt' & e' & -> & H) Hn. cbn in Hn. exists c, nx, m, nt, e. split; [done|lia]. Qed.

Lemma calm_trans {N} (s1 s2 s3 : io N) : calm s1 s2 → calm s2 s3 → calm s1 s3.
Proof. intros H (c & nx & m & nt & e & -> & Hn). by apply calm_after. Qed.

Lemma calm_nodes {N} (s s' : io N) : calm s s' → io_nodes s' = io_nodes s.
Proof. by intros (c & nx & m & nt & e & -> & _). Qed.

Lemma wp_cstring {N} p key (Q : list Z → io N → Prop) s :
  load_string (S (size (io_mem s))) p (io_mem s) = Some key → Q key s → wp (cstring p) Q s.
Proof. intros E HQ. unfold wp, cstring. by rewrite E. Qed.

(** The end of the block of a local array. *)
Definition leave {N} (a sz : Z) (s : io N) : io N :=
  set_io_mem (filter (λ p, ¬ (a ≤ p.1 < a + sz)) (io_mem s)) s.

Section Stream.
Context {N : Type} `{LawsN : NetLaws N}.
Context (close : sobj → IO N unit).
(** The handle of the bytestream, and its socket. *)
Context (u n : Z) (Hbs : net_bytestream n = true).

Lemma wp_bsend buf k d bs s (Q : Z → io N → Prop) :
  wf_io s → answers u dill_bsock_type n s → 0 ≤ buf → 0 ≤ k < 2 ^ 64 → gather (io_mem s) (arr buf k) = Some bs →
  (∀ rc c nt e, keeps s (after c (io_next s + 1) (io_mem s) nt e s) → send_outcome n bs s rc nt →
     Q rc (after c (io_next s + 1) (io_mem s) nt e s)) →
  wp (dill_bsend close u buf k d) Q s.
Proof.
  intros Hwf Ha Hb0 Hk0 Hg HQ. destruct (hquery_answers close u dill_bsock_type n s Ha) as (c & E & Hk).
  unfold wp, dill_bsend. erewrite IO_bind_done by exact E.
  destruct Ha as (_ & _ & _ & _ & _ & Hp). rewrite (proj2 (Z.eqb_neq _ _) Hp).
  unfold with_iol. cbn [io_next set_io_handles]. set (a := io_next s). pose proof (wi_next _ Hwf) as Hnx.
  set (s1 := set_io_nodes _ _). assert (Ha0 : a ≠ NULL) by (unfold a, NULL; lia).
  destruct (law_send n a a d s1 [a] bs Hbs) as (rc & nt & e & Es & Hin & Hrc).
  - apply (wf_with_node a (mk_iolist buf k NULL 0) (set_io_handles c s)); [by apply (wf_same s); cbn|cbn; lia|done|done].
  - by apply single_valid.
  - done.
  - cbn [io_nodes s1 set_io_nodes]. by rewrite single_flat.
  - rewrite Es. cbn [mbind option_bind].
    assert (Hd : set_io_nodes (delete a (io_nodes s1)) (set_io_net nt (set_io_errno e s1)) =
      after c (a + 1) (io_mem s) nt e s).
    { cbn [io_nodes s1 set_io_nodes]. unfold s1. rewrite delete_insert_id; [by destruct s|].
      cbn. destruct (io_nodes s !! a) eqn:En; [|done]. pose proof (wi_nodes _ Hwf a ltac:(by eexists)). unfold a in *. lia. }
    cbn [io_nodes set_io_net set_io_errno]. rewrite Hd. apply HQ; [by apply keeps_after|by split].
Qed.

(** ** Steps *)

(** From [s] to [s'] with the memory unchanged; afterwards [inp] is the input that is
    left and [out] the output so far. *)
Record stepped (inp out : list Z) (s s' : io N) : Prop := {
  st_wf : wf_io s';
  st_keeps : keeps s s';
  st_calm : calm s s';
  st_mem : io_mem s' = io_mem s;
  st_in : net_in (io_net s') n = inp;
  st_out : net_out (io_net s') n = out;
}.

(** Since [s0] the array [a] of [sz] bytes has been entered, and starts with [pre]. *)
Record inside (a sz : Z) (s0 : io N) (pre inp out : list Z) (s : io N) : Prop := {
  in_wf : wf_io s;
  in_keeps : keeps s0 s;
  in_calm : calm s0 s;
  in_base : 0 < a ∧ 0 ≤ sz ∧ (∀ x, is_Some (io_mem s0 !! x) → x < a);
  in_dom : dom (io_mem s) = dom (zeros a sz ∪ io_mem s0);
  in_mem : ∀ x, ¬ a ≤ x < a + sz → io_mem s !! x = io_mem s0 !! x;
  in_has : gather (io_mem s) (arr a (len pre)) = Some pre;
  in_fits : len pre ≤ sz;
  in_in : net_in (io_net s) n = inp;
  in_out : net_out (io_net s) n = out;
}.

Lemma stepped_refl inp out s :
  wf_io s → net_in (io_net s) n = inp → net_out (io_net s) n = out → stepped inp out s s.
Proof. intros. split; try done; [by intros h ty p|apply calm_refl]. Qed.

Lemma stepped_trans i1 o1 i2 o2 s1 s2 s3 : stepped i1 o1 s1 s2 → stepped i2 o2 s2 s3 → stepped i2 o2 s1 s3.
Proof.
  intros [] []. split; try done; [|by eapply calm_trans|by etrans].
  intros h ty p Ha. auto.
Qed.

Lemma stepped_errno e inp out s s' : stepped inp out s s' → stepped inp out s (set_io_errno e s').
Proof.
  intros [W K C M I O]. split; [|intros h|..]; try done.
  - destruct W as [W1 W2 W3]. by split.
  - intros ty p Ha. destruct (K h ty p Ha) as (t & v & R & ?). by exists t, v.
  - eapply calm_trans; [exact C|]. exists (io_handles s'), (io_next s'), (io_mem s'), (io_net s'), e. split; [by destruct s'|lia].
Qed.

Lemma inside_enter sz s0 :
  wf_io s0 → 0 ≤ sz → inside (io_next s0) sz s0 [] (net_in (io_net s0) n) (net_out (io_net s0) n) (enter sz s0).
Proof.
  intros Hwf Hsz. pose proof (wi_next _ Hwf) as Hn.
  split; try done.
  - by apply wf_enter.
  - intros h ty p (t & v & R & ?). by exists t, v.
  - exists (io_handles s0), (io_next s0 + Z.max sz 1), (zeros (io_next s0) sz ∪ io_mem s0), (io_net s0), (io_errno s0).
    split; [by destruct s0|lia].
  - split; [done|]. split; [done|]. intros x Hx. apply (wi_mem _ Hwf x Hx).
  - intros x Hx. cbn. by apply zeros_other.
  - rewrite arr_eq by (unfold NULL; lia). done.
Qed.

Lemma inside_pos a sz s0 pre inp out s : inside a sz s0 pre inp out s → 0 < a.
Proof. intros Hin. exact (proj1 (in_base _ _ _ _ _ _ _ Hin)). Qed.

Lemma inside_leave a sz s0 pre inp out s :
  inside a sz s0 pre inp out s → stepped inp out s0 (leave a sz s).
Proof.
  intros [W K C (Ha & Hsz & B) D M _ _ I O]. assert (E : io_mem (leave a sz s) = io_mem s0) by (by apply drop_buf).
  split; try done.
  - destruct W as [W1 W2 W3 W4]. split; [done|done| |done]. intros x Hx. rewrite E in Hx.
    destruct C as (c & nx & m & nt & e & -> & Hnx). apply W3. cbn in *.
    destruct (decide (a ≤ x < a + sz)) as [Hi|Hi]; [specialize (B x Hx); lia|]. by rewrite M.
  - eapply calm_trans; [exact C|]. exists (io_handles s), (io_next s), (io_mem (leave a sz s)), (io_net s), (io_errno s).
    split; [by destruct s|lia].
Qed.

Lemma inside_step a sz s0 pre i o s inp out s' :
  inside a sz s0 pre i o s → stepped inp out s s' → inside a sz s0 pre inp out s'.
Proof.
  intros [W K C B D M G F I O] [W' K' C' M' I' O']. split; try done.
  - intros h ty p Hh. auto.
  - by eapply calm_trans.
  - by rewrite M'.
  - intros x Hx. rewrite M'. auto.
  - by rewrite M'.
Qed.

(** The array, at the end of its block. *)
Lemma wp_local_net {A} sz (k : ptr → IO N A) (Q : A → io N → Prop) s :
  wf_io s → 0 ≤ sz →
  (∀ s', inside (io_next s) sz s [] (net_in (io_net s) n) (net_out (io_net s) n) s' → io_net s' = io_net s →
     wp (k (io_next s)) (λ r s', Q r (leave (io_next s) sz s')) s') →
  wp (with_buf sz k) Q s.
Proof. intros Hwf Hsz HQ. apply wp_with_buf. by apply HQ; [apply inside_enter|]. Qed.

Lemma wp_local {A} sz (k : ptr → IO N A) (Q : A → io N → Prop) s :
  wf_io s → 0 ≤ sz →
  (∀ s', inside (io_next s) sz s [] (net_in (io_net s) n) (net_out (io_net s) n) s' →
     wp (k (io_next s)) (λ r s', Q r (leave (io_next s) sz s')) s') →
  wp (with_buf sz k) Q s.
Proof. intros Hwf Hsz HQ. apply wp_local_net; auto. Qed.

Lemma inside_alloc a sz s0 pre inp out s k : inside a sz s0 pre inp out s → 0 ≤ k → len pre + k ≤ sz →
  allocated (io_mem s) (arr (a + len pre) k).
Proof.
  intros Hin Hk Hle. destruct (in_base _ _ _ _ _ _ _ Hin) as (Ha & _).
  intros x Hx. apply elem_of_arr in Hx; [|unfold NULL, len; lia]. apply elem_of_dom.
  rewrite (in_dom _ _ _ _ _ _ _ Hin). apply elem_of_dom. unfold len in *.
  apply (zeros_alloc a sz (io_mem s0)); [unfold NULL; lia|]. apply elem_of_arr; [unfold NULL; lia|lia].
Qed.

(** The array after [bs] was put behind [pre]. *)
Lemma gather_append a pre bs (m : gmap Z Z) :
  0 < a → gather m (arr a (len pre)) = Some pre →
  gather (scatter (arr (a + len pre) (len bs)) bs m) (arr a (len (pre ++ bs))) = Some (pre ++ bs).
Proof.
  intros Ha Hg. unfold len in *. rewrite length_app, Nat2Z.inj_add, arr_app, gather_app by lia.
  rewrite (gather_ext _ m (arr a _)).
  - rewrite Hg. cbn [mbind option_bind]. rewrite gather_scatter; [done|..].
    + apply arr_nodup. unfold NULL. lia.
    + apply arr_nodup. unfold NULL. lia.
    + pose proof (length_arr (a + Z.of_nat (length pre)) (Z.of_nat (length bs))). lia.
  - intros x Hx. apply scatter_ne. intros Hx'. apply elem_of_arr in Hx, Hx'; unfold NULL; lia.
Qed.

(** Storing behind what is there. *)
Lemma inside_append a sz s0 pre inp out s bs c nx nt e :
  inside a sz s0 pre inp out s → len pre + len bs ≤ sz → io_next s ≤ nx →
  keeps s (after c nx (io_mem s) nt e s) →
  inside a sz s0 (pre ++ bs) (net_in nt n) (net_out nt n)
    (after c nx (scatter (arr (a + len pre) (len bs)) bs (io_mem s)) nt e s).
Proof.
  intros Hin Hle Hnx Hk. pose proof (inside_alloc _ _ _ _ _ _ _ (len bs) Hin ltac:(unfold len; lia) Hle) as Hal.
  destruct Hin as [W K C (Ha & Hsz & B) D M G F I O].
  assert (Hd : dom (scatter (arr (a + len pre) (len bs)) bs (io_mem s)) = dom (io_mem s)) by (apply scatter_dom, Hal).
  split; try done.
  - by apply wf_after.
  - intros h ty p Hh. specialize (Hk h ty p (K h ty p Hh)). destruct Hk as (t & v & R & ?). by exists t, v.
  - by apply calm_after.
  - cbn. by rewrite Hd.
  - intros x Hx. cbn. rewrite scatter_ne; [by apply M|]. intros Hx'. unfold len in *.
    apply elem_of_arr in Hx'; [lia|unfold NULL; lia].
  - cbn. by apply gather_append.
  - unfold len in *. rewrite length_app. lia.
Qed.

Lemma wp_recv_inside a sz s0 pre inp out p k d s (Q : Z → io N → Prop) :
  answers u dill_bsock_type n s0 → inside a sz s0 pre inp out s → p = a + len pre →
  0 ≤ k < 2 ^ 64 → len pre + k ≤ sz →
  (∀ bs rest s', inp = bs ++ rest → len bs = k → inside a sz s0 (pre ++ bs) rest out s' → Q 0 s') →
  (∀ inp' s', inside a sz s0 pre inp' out s' → net_infail (io_net s') n → Q (-1) s') →
  wp (dill_brecv close u p k d) Q s.
Proof.
  intros Hans Hin -> Hk Hle H1 H2. pose proof (inside_alloc _ _ _ _ _ _ _ k Hin ltac:(lia) Hle) as Hal.
  pose proof (inside_pos _ _ _ _ _ _ _ Hin) as Hb.
  apply (wp_brecv close u n); [apply Hin|by apply (in_keeps _ _ _ _ _ _ _ Hin)|done|done|left; unfold len; lia|done|].
  intros rc c nt e m Hkp (Ho & Hd & Hoth & [(-> & bs & Hl & Hi & ->)|[-> F0]]).
  - assert (Hlen : len bs = k).
    { unfold len. rewrite Hl. apply length_arr. lia. }
    apply (H1 bs (net_in nt n)); [by rewrite <- (in_in _ _ _ _ _ _ _ Hin)|done|].
    rewrite <- (in_out _ _ _ _ _ _ _ Hin), <- Ho, <- Hlen.
    apply (inside_append a sz s0 pre inp out); [done|lia|lia|].
    by intros h ty p Hh; destruct (Hkp h ty p Hh) as (t & v & ? & ?); exists t, v.
  - apply (H2 (net_in nt n)); [|exact F0]. destruct Hin as [W K C (Ha & Hsz & B) D M G F I O]. split; try done.
    + apply wf_after; [done|lia|done].
    + intros h ty p Hh. apply Hkp, K, Hh.
    + apply calm_after; [done|lia].
    + cbn. by rewrite Hd.
    + intros x Hx. cbn. rewrite Hoth; [by apply M|]. intros Hx'. unfold len in *.
      apply elem_of_arr in Hx'; [lia|unfold NULL; lia].
    + cbn. rewrite <- G. apply gather_ext. intros x Hx. apply Hoth. intros Hx'. unfold len in *.
      apply elem_of_arr in Hx, Hx'; unfold NULL; lia.
    + cbn. by rewrite Ho.
Qed.

Lemma wp_store_inside a sz s0 pre inp out p bs s (Q : unit → io N → Prop) :
  inside a sz s0 pre inp out s → p = a + len pre → len pre + len bs ≤ sz →
  (∀ s', inside a sz s0 (pre ++ bs) inp out s' → Q tt s') →
  wp (store p bs) Q s.
Proof.
  intros Hin -> Hle HQ. pose proof (inside_alloc _ _ _ _ _ _ _ (len bs) Hin ltac:(unfold len; lia) Hle) as Hal.
  pose proof (inside_pos _ _ _ _ _ _ _ Hin) as Hb.
  eapply wp_store; [apply store_arr; [unfold NULL, len; lia|exact Hal|done]|]. apply HQ.
  pose proof (inside_append a sz s0 pre inp out s bs (io_handles s) (io_next s) (io_net s) (io_errno s) Hin Hle ltac:(lia)) as Hi.
  rewrite (in_in _ _ _ _ _ _ _ Hin), (in_out _ _ _ _ _ _ _ Hin) in Hi.
  assert (E : ∀ m, after (io_handles s) (io_next s) m (io_net s) (io_errno s) s = set_io_mem m s) by (by destruct s).
  rewrite !E in Hi. apply Hi. intros h ty p (t & v & ? & ?). by exists t, v.
Qed.

Lemma wp_send_inside a sz s0 pre inp out k d s (Q : Z → io N → Prop) :
  answers u dill_bsock_type n s0 → inside a sz s0 pre inp out s → k = len pre → k < 2 ^ 64 →
  (∀ s', inside a sz s0 pre inp (out ++ pre) s' → Q 0 s') →
  (∀ out' s', inside a sz s0 pre inp out' s' → net_outfail (io_net s') n → Q (-1) s') →
  wp (dill_bsend close u a k d) Q s.
Proof.
  intros Hans Hin -> Hk H1 H2. pose proof (inside_pos _ _ _ _ _ _ _ Hin) as Hb.
  apply (wp_bsend a (len pre) d pre); [apply Hin|by apply (in_keeps _ _ _ _ _ _ _ Hin)|lia|unfold len in *; lia|apply Hin|].
  intros rc c nt e Hkp (Hi & Hrc).
  assert (Hgo : inside a sz s0 pre inp (net_out nt n) (after c (io_next s + 1) (io_mem s) nt e s)).
  { destruct Hin as [W K C B D M G F I O]. split; try done.
    - apply wf_after; [done|lia|done].
    - intros h ty p Hh. apply Hkp, K, Hh.
    - apply calm_after; [done|lia].
    - cbn. by rewrite Hi. }
  destruct Hrc as [(-> & Ho)|[-> F]].
  - apply H1. by rewrite <- (in_out _ _ _ _ _ _ _ Hin), <- Ho.
  - by eapply H2; [|exact F].
Qed.

Lemma wp_load_inside a sz s0 pre inp out p i k s (Q : list Z → io N → Prop) :
  inside a sz s0 pre inp out s → p = a + i → 0 ≤ i → 0 ≤ k → i + k ≤ len pre →
  Q (take (Z.to_nat k) (drop (Z.to_nat i) pre)) s →
  wp (load p k) Q s.
Proof.
  intros Hin -> Hi Hk Hle HQ. pose proof (inside_pos _ _ _ _ _ _ _ Hin) as Hb. pose proof (in_has _ _ _ _ _ _ _ Hin) as G.
  eapply wp_load; [|exact HQ]. rewrite load_arr by (unfold NULL; lia).
  unfold len in *. replace (Z.of_nat (length pre)) with (i + (k + (Z.of_nat (length pre) - i - k))) in G by lia.
  rewrite arr_app, (arr_app (a + i)), !gather_app in G by lia.
  destruct (gather _ (arr a i)) as [x|] eqn:E1; [|done]. destruct (gather _ (arr (a + i) k)) as [y|] eqn:E2; [|done].
  apply gather_some in E1 as (_ & L1 & _). apply gather_some in E2 as (_ & L2 & _). cbn [mbind option_bind] in G.
  destruct (gather _ (arr (a + i + k) _)) as [z|]; [|done]. injection G as <-.
  pose proof (length_arr a i Hi). pose proof (length_arr (a + i) k Hk).
  rewrite drop_app_length' by lia. by rewrite take_app_length' by lia.
Qed.

(** Storing into an array of the caller. *)
Lemma wp_store_outside a sz s0 pre inp out p bs s (Q : unit → io N → Prop) :
  inside a sz s0 pre inp out s → p ≠ NULL → allocated (io_mem s0) (arr p (len bs)) →
  (∀ s', inside a sz (set_io_mem (scatter (arr p (len bs)) bs (io_mem s0)) s0) pre inp out s' → Q tt s') →
  wp (store p bs) Q s.
Proof.
  intros [W K C (Ha & Hsz & B) D M G F I O] Hp Hal HQ.
  assert (Hout : ∀ x, Some x ∈ arr p (len bs) → x < a) by (intros x Hx; by apply B, Hal).
  assert (Hal' : allocated (io_mem s) (arr p (len bs))).
  { intros x Hx. rewrite M; [by apply Hal|]. specialize (Hout x Hx). lia. }
  eapply wp_store; [by apply store_arr|]. apply HQ.
  assert (Hd : dom (scatter (arr p (len bs)) bs (io_mem s)) = dom (io_mem s)) by (by apply scatter_dom).
  assert (Hd0 : dom (scatter (arr p (len bs)) bs (io_mem s0)) = dom (io_mem s0)) by (by apply scatter_dom).
  split; try done.
  - by apply (wf_same s).
  - destruct C as (c & nx & m & nt & e & -> & Hn). eexists c, nx, _, nt, e. split; [by cbn|done].
  - split; [done|]. split; [done|]. intros x Hx. apply elem_of_dom in Hx. cbn in Hx. rewrite Hd0 in Hx.
    by apply B, elem_of_dom.
  - cbn. rewrite Hd, D, !dom_union_L, Hd0. done.
  - intros x Hx. cbn. by apply scatter_ext, M.
  - cbn. rewrite <- G. apply gather_ext. intros x Hx. apply scatter_ne. intros Hx'. specialize (Hout x Hx').
    apply elem_of_arr in Hx; [lia|unfold NULL; lia].
Qed.

(** Overwriting a byte of what is there. *)
Lemma wp_overwrite_inside a sz s0 x c y inp out p b s (Q : unit → io N → Prop) :
  inside a sz s0 (x ++ [c] ++ y) inp out s → p = a + len x →
  (∀ s', inside a sz s0 (x ++ [b] ++ y) inp out s' → Q tt s') → wp (store p [b]) Q s.
Proof.
  intros [W K C (Ha & Hsz & B) D M G F I O] -> HQ.
  assert (Hal : allocated (io_mem s) (arr (a + len x) 1)).
  { intros z Hz. apply elem_of_arr in Hz; [|unfold NULL, len; lia]. apply elem_of_dom. rewrite D. apply elem_of_dom.
    apply (zeros_alloc a sz (io_mem s0)); [unfold NULL; lia|]. apply elem_of_arr; [unfold NULL; lia|].
    unfold len in *. rewrite !length_app in F. cbn in F. lia. }
  assert (Hp : 0 ≤ len x) by (unfold len; lia).
  eapply wp_store; [apply (store_arr _ 1 [b]); [unfold NULL; lia|exact Hal|done]|]. apply HQ.
  assert (Hd : dom (scatter (arr (a + len x) 1) [b] (io_mem s)) = dom (io_mem s)) by (by apply scatter_dom).
  split; try done.
  - by apply (wf_same s).
  - destruct C as (e1 & nx & m & nt & e & -> & Hn). by eexists e1, nx, _, nt, e.
  - cbn. by rewrite Hd.
  - intros z Hz. cbn. rewrite scatter_ne; [by apply M|]. intros Hz'. apply elem_of_arr in Hz'; [|unfold NULL; lia].
    unfold len in *. rewrite !length_app in F. cbn in F. lia.
  - cbn [io_mem set_io_mem]. rewrite arr_1 by (unfold NULL; lia). cbn [scatter].
    unfold len in *. rewrite !length_app, !Nat2Z.inj_add in *. cbn [length] in *.
    rewrite !arr_app, !gather_app in * by lia. rewrite arr_1 in * by (unfold NULL; lia).
    destruct (gather _ (arr a _)) as [x'|] eqn:Ex; [|done]. cbn [mbind option_bind] in G.
    destruct (gather _ [_]) as [c'|] eqn:Ec; [|done]. cbn [mbind option_bind] in G.
    destruct (gather _ (arr (a + _ + _) _)) as [y'|] eqn:Ey; [|done]. injection G as G.
    pose proof (gather_some _ _ _ Ex) as (_ & Lx & _). pose proof (length_arr a (Z.of_nat (length x)) ltac:(lia)).
    apply app_inj_1 in G as [-> G]; [|lia].
    pose proof (gather_some _ _ _ Ec) as (_ & Lc & _). change (c :: y) with ([c] ++ y) in G. apply app_inj_1 in G as [-> ->]; [|done].
    rewrite (gather_ext _ (io_mem s) (arr a _)), Ex by (intros z Hz; apply lookup_insert_ne; apply elem_of_arr in Hz; [lia|unfold NULL; lia]).
    rewrite (gather_ext _ (io_mem s) (arr (a + _ + _) _)), Ey by (intros z Hz; apply lookup_insert_ne; apply elem_of_arr in Hz; [lia|unfold NULL; lia]).
    unfold gather. cbn. by rewrite lookup_insert_eq.
  - unfold len in *. rewrite !length_app in *. cbn in *. lia.
Qed.

(** A string in the array. *)
Lemma load_string_exact m : ∀ h fuel p,
  0 < p → Forall (λ c, c ≠ 0) h → (length h < fuel)%nat → gather m (arr p (len (h ++ [0]))) = Some (h ++ [0]) →
  load_string fuel p m = Some h.
Proof.
  induction h as [|c h IH]; intros [|fuel] p Hp Hz Hf G; cbn in Hf; try lia; cbn [load_string app] in *.
  - change (len [0]) with 1 in G. rewrite (arr_1 p) in G by (unfold NULL; lia). unfold gather in G. cbn in G. destruct (m !! p); [|done]. by injection G as ->.
  - apply Forall_cons in Hz as [Hc Hz].
    replace (len (c :: h ++ [0])) with (1 + len (h ++ [0])) in G by (unfold len; cbn; lia).
    rewrite arr_app, gather_app, arr_1 in G by (unfold NULL, len; lia).
    destruct (gather m [Some p]) as [v|] eqn:Ev; [|done]. cbn [mbind option_bind] in G.
    destruct (gather m (arr (p + 1) _)) as [r|] eqn:Er; [|done]. injection G as G.
    unfold gather in Ev. cbn in Ev. destruct (m !! p) as [w|]; [|done]. injection Ev as <-. injection G as -> ->.
    cbn [mbind option_bind]. rewrite (proj2 (Z.eqb_neq c 0)) by done.
    rewrite (IH fuel (p + 1)); [done|lia|done|lia|exact Er].
Qed.

Lemma load_string_held (m : gmap Z Z) h p :
  0 < p → Forall (λ c, c ≠ 0) h → gather m (arr p (len (h ++ [0]))) = Some (h ++ [0]) →
  load_string (S (size m)) p m = Some h.
Proof.
  intros Hp Hz G. apply load_string_exact; [done|done| |done].
  apply gather_some in G as (Hal & _ & _).
  assert (Hsub : (list_to_set (seqZ p (len (h ++ [0]))) : gset Z) ⊆ dom m).
  { intros x Hx. apply elem_of_list_to_set, elem_of_seqZ in Hx. apply elem_of_dom, Hal, elem_of_arr; [unfold NULL; lia|done]. }
  apply subseteq_size in Hsub. rewrite size_list_to_set, size_dom in Hsub by apply NoDup_seqZ.
  rewrite length_seqZ in Hsub. unfold len in Hsub. rewrite length_app in Hsub. cbn in Hsub. lia.
Qed.

(** Only the front of what is there. *)
Lemma inside_front a sz s0 x y inp out s : inside a sz s0 (x ++ y) inp out s → inside a sz s0 x inp out s.
Proof.
  intros [W K C (Ha & Hsz & B) D M G F I O]. split; try done; unfold len in *; rewrite length_app, Nat2Z.inj_add in *; [|lia].
  rewrite arr_app, gather_app in G by lia. destruct (gather _ (arr a _)) as [x'|] eqn:Ex; [|done]. cbn [mbind option_bind] in G.
  destruct (gather _ (arr (a + _) _)) as [y'|]; [|done]. injection G as G. apply app_inj_1 in G as [-> _]; [done|].
  pose proof (gather_some _ _ _ Ex) as (_ & Lx & _). pose proof (length_arr a (Z.of_nat (length x)) ltac:(lia)). lia.
Qed.

(** The string at [p]. *)
Definition has_string (p : ptr) (h : list Z) (s : io N) : Prop := load_string (S (size (io_mem s))) p (io_mem s) = Some h.

Lemma load_string_weaken (m m' : gmap Z Z) : m ⊆ m' → ∀ fuel fuel' p h,
  (fuel ≤ fuel')%nat → load_string fuel p m = Some h → load_string fuel' p m' = Some h.
Proof.
  intros Hm. induction fuel as [|fuel IH]; intros [|fuel'] p h Hf E; cbn [load_string] in *; try done; [lia|].
  destruct (m !! p) as [c|] eqn:Ec; [|done]. rewrite (lookup_weaken _ _ _ _ Ec Hm). cbn [mbind option_bind] in *.
  destruct (c =? 0); [done|]. destruct (load_string fuel _ m) as [h'|] eqn:Eh; [|done]. injection E as <-.
  rewrite (IH fuel' _ h'); [done|lia|done].
Qed.

Lemma inside_string a sz s0 pre inp out s p h : inside a sz s0 pre inp out s → has_string p h s0 → has_string p h s.
Proof.
  intros [W K C (Ha & Hsz & B) D M G F I O] E.
  assert (Hm : io_mem s0 ⊆ io_mem s).
  { apply map_subseteq_spec. intros x v Hx. rewrite M; [done|]. specialize (B x ltac:(by eexists)). lia. }
  eapply load_string_weaken; [exact Hm| |exact E]. apply map_subseteq_size in Hm. lia.
Qed.

Lemma stepped_string inp out s s' p h : stepped inp out s s' → has_string p h s → has_string p h s'.
Proof. intros S. unfold has_string. by rewrite (st_mem _ _ _ _ S). Qed.

Lemma load_string_nonzero (m : gmap Z Z) : ∀ fuel p h, load_string fuel p m = Some h → Forall (λ c, c ≠ 0) h.
Proof.
  induction fuel as [|fuel IH]; intros p h E; cbn [load_string] in E; [done|].
  destruct (m !! p) as [c|]; [|done]. cbn [mbind option_bind] in E. destruct (Z.eqb_spec c 0) as [Hc|Hc]; [by injection E as <-|].
  destruct (load_string fuel _ m) as [h'|] eqn:Eh; [|done]. injection E as <-. constructor; [done|by eapply IH].
Qed.

(** A string within the array. *)
Lemma inside_holds_string a sz s0 x h y inp out s p :
  inside a sz s0 (x ++ (h ++ [0]) ++ y) inp out s → p = a + len x → Forall (λ c, c ≠ 0) h → has_string p h s.
Proof.
  intros Hin -> Hz. pose proof (inside_pos _ _ _ _ _ _ _ Hin) as Ha. pose proof (in_has _ _ _ _ _ _ _ Hin) as G.
  apply load_string_held; [unfold len; lia|done|]. unfold len in *. rewrite !(length_app x), length_app, !Nat2Z.inj_add in G.
  rewrite !arr_app, !gather_app in G by lia.
  destruct (gather _ (arr a _)) as [x'|] eqn:Ex; [|done]. cbn [mbind option_bind] in G.
  destruct (gather _ (arr (a + _) _)) as [h'|] eqn:Eh; [|done]. cbn [mbind option_bind] in G.
  destruct (gather _ (arr (a + _ + _) _)) as [y'|]; [|done]. injection G as G.
  pose proof (gather_some _ _ _ Ex) as (_ & Lx & _). pose proof (length_arr a (Z.of_nat (length x)) ltac:(lia)).
  apply app_inj_1 in G as [-> G]; [|lia].
  pose proof (gather_some _ _ _ Eh) as (_ & Lh & _). pose proof (length_arr (a + Z.of_nat (length x)) (Z.of_nat (length (h ++ [0]))) ltac:(lia)).
  apply app_inj_1 in G as [-> _]; [|lia]. done.
Qed.
End Stream.
