(* ===== verification/Ws.v ===== *)
(** The WebSocket protocol ([ws.c]): the opening handshake, frames, and the closing
    handshake. *)

From Stdlib Require Import ZArith Lia Ascii String.
From stdpp Require Import base gmap list.
From S2P Require Import Prelude Bytes Sha1 Handle Iol Sock Loop Prefix Suffix Term Http.
Open Scope Z_scope.

(** The characters of a string literal. *)
Definition lit (s : string) : list Z := map (λ c, Z.of_N (N_of_ascii c)) (list_ascii_of_string s).

Definition DILL_WS_TEXT : Z := 1.
Definition DILL_WS_NOHTTP : Z := 2.
Definition WS_KEY_SIZE : Z := 32.
Definition EAGAIN : errno_t := EOTHER 11.
Definition EFAULT : errno_t := EOTHER 14.
Definition SIZEOF_WS : Z := 176.
(** [sizeof(self->msg)] *)
Definition MSG_SIZE : Z := 128.

(** * Frames *)

(** The first [sz] bytes of [buf], before the mask. *)
Definition frame_header (type len : Z) : list Z :=
  Z.lor 0x80 type ::
  (if 0xffff <? len then 127 :: dill_putll len
   else if 125 <? len then 126 :: dill_puts len
   else [u8 len]).

(** [buf[1] |= 0x80], then the mask *)
Definition masked_header (hdr mask : list Z) : list Z :=
  <[1%nat := Z.lor (nth 1 hdr 0) 0x80]> hdr ++ mask.

(** Byte [b] at position [pos] of a masked payload. *)
Definition mask_byte (mask : list Z) (pos : nat) (b : Z) : Z := Z.lxor b (nth (pos mod 4) mask 0).

Definition apply_mask (mask : list Z) (bs : list Z) : list Z := imap (mask_byte mask) bs.

(** * Keys *)

Definition UUID : list Z := lit "258EAFA5-E914-47DA-95CA-C5AB0DC85B11".

(** The [char]s of a string, which are signed. *)
Definition chars (s : list Z) : list Z := map (λ c, if 127 <? c then c - 256 else c) s.

(** The uninitialised [struct dill_sha1] of [dill_ws_response_key]. *)
Definition any_sha1 : dill_sha1 := mk_sha1 (repeat 0 16) (repeat 0 5) 0 0 false.

Section Ws.
Context {N : Type} `{NetN : Net N}.
Context (close : sobj → IO N unit) (proto : msock_vfs N).
(** The endianness of the machine. *)
Context (le : bool).

Definition get_ws (p : ptr) : IO N dill_ws_sock := λ s, x ← io_wss s !! p; Some (x, s).
Definition put_ws (p : ptr) (x : dill_ws_sock) : IO N unit :=
  modify (λ s, set_io_wss (<[p := x]> (io_wss s)) s).
Definition upd_ws (p : ptr) (f : dill_ws_sock → dill_ws_sock) : IO N unit := x ← get_ws p; put_ws p (f x).
Definition with_indone (x : dill_ws_sock) : dill_ws_sock :=
  mk_ws (ws_u x) (ws_flags x) true (ws_outdone x) (ws_server x) (ws_mem x) (ws_msglen x).
Definition with_outdone (x : dill_ws_sock) : dill_ws_sock :=
  mk_ws (ws_u x) (ws_flags x) (ws_indone x) true (ws_server x) (ws_mem x) (ws_msglen x).
Definition with_msglen (n : Z) (x : dill_ws_sock) : dill_ws_sock :=
  mk_ws (ws_u x) (ws_flags x) (ws_indone x) (ws_outdone x) (ws_server x) (ws_mem x) n.
Definition with_u (u : Z) (x : dill_ws_sock) : dill_ws_sock :=
  mk_ws u (ws_flags x) (ws_indone x) (ws_outdone x) (ws_server x) (ws_mem x) (ws_msglen x).

(** [self->status], a [uint16_t] in the memory of the object *)
Definition store_status (self : ptr) (v : Z) : IO N unit :=
  let v := u16 v in
  store (ws_status self) (if le then [v mod 256; v / 256] else [v / 256; v mod 256]).
Definition load_status (self : ptr) : IO N Z :=
  bs ← load (ws_status self) 2;
  match bs with
  | [a; b] => mret (if le then b * 256 + a else a * 256 + b)
  | _ => crash
  end.

(** [dill_iolcheck], on the lists of the state. *)
Definition iolcheck (first last : ptr) : IO N (Z * Z + errno_t) := λ s,
  match dill_iolcheck (S (2 * size (io_nodes s))) first last (io_nodes s) with
  | Some (r, h) => Some (r, set_io_nodes h s)
  | None => None
  end.

(** ** Keys *)

Definition dill_ws_request_key (request_key : ptr) : IO N Z :=
  if request_key =? NULL then fail EINVAL
  else
    o ← net_random 16;
    match o with
    | None => mret (-1)
    | Some nonce =>
      match dill_base64_encode nonce WS_KEY_SIZE with
      | B64Done _ out => store request_key out;; mret 0
      | B64Fail => fail EFAULT
      | _ => crash
      end
    end.

Definition dill_ws_response_key (request_key response_key : ptr) : IO N Z :=
  if request_key =? NULL then fail EINVAL
  else if response_key =? NULL then fail EINVAL
  else
    key ← cstring request_key;
    match dill_base64_decode (chars key) 16 with
    | B64Undefined | B64Unfinished => crash
    | B64Fail => fail EPROTO
    | B64Done n _ =>
      if negb (n =? 16) then fail EPROTO
      else
        let sha1 := fold_left dill_sha1_hashbyte key (dill_sha1_init le any_sha1) in
        let sha1 := fold_left dill_sha1_hashbyte UUID sha1 in
        hash ← lift (dill_sha1_result 64 sha1);
        match dill_base64_encode hash WS_KEY_SIZE with
        | B64Done _ out => store response_key out;; mret 0
        | B64Fail => fail EFAULT
        | _ => crash
        end
    end.

(** ** Sending *)

(** [for(i = 0; i != first->iol_len; ++i)]: [None] when done, or -1 *)
Fixpoint send_masked (n : nat) (u : Z) (mask : list Z) (base : ptr) (i : Z) (pos : nat) (deadline : Z) : IO N Z :=
  match n with
  | O => mret 0
  | S n =>
    bs ← load (base + i) 1;
    rc ← with_bytes (map (mask_byte mask pos) bs) (λ b, dill_bsend close u b 1 deadline);
    if rc <? 0 then mret (-1) else send_masked n u mask base (i + 1) (S pos) deadline
  end.

Fixpoint send_list (fuel : nat) (u : Z) (mask : list Z) (first : ptr) (pos : nat) (deadline : Z) : IO N Z :=
  if first =? NULL then mret 0
  else match fuel with
  | O => crash
  | S fuel =>
    f ← get_node first;
    rc ← send_masked (Z.to_nat (iol_len f)) u mask (iol_base f) 0 pos deadline;
    if rc <? 0 then mret (-1)
    else send_list fuel u mask (iol_next f) (pos + Z.to_nat (iol_len f)) deadline
  end.

(** The array [buf] has 12 bytes: a masked frame of more than 65535 bytes writes past
    its end. *)
Definition dill_ws_sendl_base (self : ptr) (type : Z) (first last : ptr) (deadline : Z) : IO N Z :=
  x ← get_ws self;
  if ws_outdone x then fail EPIPE
  else
    r ← iolcheck first last;
    match r with
    | inr e => fail e
    | inl (_, len) =>
      with_buf 12 (λ buf,
        let hdr := frame_header type len in
        o ← (if ws_server x then mret (Some [])
             else net_random 4);
        match o with
        | None => mret (-1)
        | Some mask =>
          let hdr := if ws_server x then hdr else masked_header hdr mask in
          assert_ (length hdr <=? 12)%nat;;
          store buf hdr;;
          rc ← dill_bsend close (ws_u x) buf (Z.of_nat (length hdr)) deadline;
          if rc <? 0 then mret (-1)
          else if ws_server x then
            rc ← dill_bsendl close (ws_u x) first last deadline;
            if rc <? 0 then mret (-1) else mret 0
          else
            n ← gets (λ s, size (io_nodes s));
            send_list (S n) (ws_u x) mask first 0 deadline
        end)
    end.

(** ** Receiving *)

(** Unmask [n] bytes in place; the mask starts anew at each buffer. *)
Definition unmask (mask : list Z) (base : ptr) (n : Z) : IO N unit :=
  bs ← load base n;
  store base (apply_mask mask bs).

(** The payload of a frame, [sz] bytes, into the list of which [it] is (a copy of) the
    current element: the element reached, or [None] for -1. *)
Fixpoint frame_loop (fuel : nat) (u : Z) (mask : option (list Z)) (it : iolist) (sz deadline : Z)
    : IO N (option iolist) :=
  match fuel with
  | O => crash
  | S fuel =>
    let toread := Z.min sz (iol_len it) in
    ok ← (if 0 <? toread then
            rc ← dill_brecv close u (iol_base it) toread deadline;
            if rc <? 0 then mret false
            else
              match mask with Some mask => unmask mask (iol_base it) toread | None => mret tt end;;
              mret true
          else mret true);
    if negb ok then mret None
    else
      let sz := sz - toread in
      if sz =? 0 then mret (Some it)
      else if iol_next it =? NULL then set_errno EMSGSIZE;; mret None
      else
        it ← get_node (iol_next it);
        frame_loop fuel u mask it sz deadline
  end.

(** The length of a frame of which [b] is the second byte, or [None] for -1. *)
Definition frame_length (u b deadline : Z) : IO N (option Z) :=
  let sz := Z.land b 0x7f in
  if sz =? 126 then
    with_buf 2 (λ hdr2,
      rc ← dill_brecv close u hdr2 2 deadline;
      if rc <? 0 then mret None else bs ← load hdr2 2; mret (Some (dill_gets bs)))
  else if sz =? 127 then
    with_buf 8 (λ hdr2,
      rc ← dill_brecv close u hdr2 8 deadline;
      if rc <? 0 then mret None else bs ← load hdr2 8; mret (Some (dill_getll bs)))
  else mret (Some sz).

(** The mask of a frame received by a server, or [None] for -1. *)
Definition frame_mask (u : Z) (server : bool) (deadline : Z) : IO N (option (option (list Z))) :=
  if server then
    with_buf 4 (λ mask,
      rc ← dill_brecv close u mask 4 deadline;
      if rc <? 0 then mret None else bs ← load mask 4; mret (Some (Some bs)))
  else mret (Some None).

(** What the opcode of a frame means: the new [flags] and [it], or [None] for an
    opcode that is refused.  The closing frame goes to the object, through the local
    [iol_msg]. *)
Definition frame_opcode (self iol_msg : ptr) (opcode : Z) (flags : option Z) (it : option iolist)
    : IO N (option (option Z * option iolist)) :=
  if opcode =? 0 then mret (Some (flags, it))
  else if opcode =? 1 then mret (Some (Some DILL_WS_TEXT, it))
  else if opcode =? 2 then mret (Some (Some 0, it))
  else if opcode =? 8 then
    put_node iol_msg (mk_iolist (ws_msg self) MSG_SIZE NULL 0);;
    upd_ws self with_indone;;
    mret (Some (flags, Some (mk_iolist (ws_status self) 2 iol_msg 0)))
  else mret None.

(** One frame: [None] for -1; else [flags], [it], [res] and whether it is the last.
    [it] is uninitialised when the list is empty. *)
Definition recv_frame (self : ptr) (flags : option Z) (it : option iolist) (res deadline : Z)
    : IO N (option (option Z * option iolist * Z * bool)) :=
  let proto_error := set_errno EPROTO;; mret None in
  x ← get_ws self;
  let u := ws_u x in
  with_iol (mk_iolist NULL 0 NULL 0) (λ iol_msg, with_buf 2 (λ hdr1,
    rc ← dill_brecv close u hdr1 2 deadline;
    if rc <? 0 then mret None
    else
      h ← load hdr1 2;
      let h0 := nth 0 h 0 in
      let h1 := nth 1 h 0 in
      if negb (Z.land h0 0x70 =? 0) then proto_error
      else
        let opcode := Z.land h0 0x0f in
        o ← frame_opcode self iol_msg opcode flags it;
        match o with
        | None => proto_error
        | Some (flags, it) =>
          if xorb (negb (ws_server x)) (Z.land h1 0x80 =? 0) then proto_error
          else
            o ← frame_length u h1 deadline;
            match o with
            | None => mret None
            | Some sz =>
              let res := u64 (res + sz) in
              if (8 <=? opcode) && ((125 <? sz) || (Z.land h0 0x80 =? 0)) then proto_error
              else
                o ← frame_mask u (ws_server x) deadline;
                match o with
                | None => mret None
                | Some mask =>
                  it ← lift it;
                  n ← gets (λ s, size (io_nodes s));
                  o ← frame_loop (S (S n)) u mask it sz deadline;
                  match o with
                  | None => mret None
                  | Some it => mret (Some (flags, Some it, res, negb (Z.land h0 0x80 =? 0)))
                  end
                end
            end
        end)).

(** The frames of a message, at most [fuel] of them. *)
Fixpoint recv_frames (fuel : nat) (self : ptr) (flags : option Z) (it : option iolist) (res deadline : Z)
    : IO N (option (option Z * Z)) :=
  match fuel with
  | O => crash
  | S fuel =>
    o ← recv_frame self flags it res deadline;
    match o with
    | None => mret None
    | Some (flags, it, res, fin) =>
      if fin : bool then mret (Some (flags, res)) else recv_frames fuel self flags it res deadline
    end
  end.

(** The result, and the value of [*flags] if it was set.  (What is written to [*flags]
    by a call that fails is left out.) *)
Definition dill_ws_recvl_base (fuel : nat) (self first last : ptr) (deadline : Z) : IO N (Z * option Z) :=
  let failed m := rc ← m; mret (rc, None) in
  x ← get_ws self;
  if ws_indone x then failed (fail EPIPE)
  else
    r ← iolcheck first last;
    match r with
    | inr e => failed (fail e)
    | inl _ =>
      it ← (if first =? NULL then mret None else f ← get_node first; mret (Some f));
      o ← recv_frames fuel self None it 0 deadline;
      match o with
      | None => mret (-1, None)
      | Some (flags, res) =>
        x ← get_ws self;
        if ws_indone x then
          if res =? 1 then failed (fail EPROTO)
          else if 2 <=? res then
            bs ← load (ws_status self) 2;
            store_status self (dill_gets bs);;
            status ← load_status self;
            if (status <? 1000) || (4999 <? status) then failed (fail EPROTO)
            else
              upd_ws self (with_msglen (u8 (u8 res - 2)));;
              failed (fail EPIPE)
          else
            upd_ws self (with_msglen 0);;
            failed (fail EPIPE)
        else mret (s64 res, flags)
      end
    end.

(** ** The functions of the socket *)

Definition opcode_of (flags : Z) : Z := if Z.land flags DILL_WS_TEXT =? 0 then 2 else 1.

Definition dill_ws_send (s flags : Z) (buf : ptr) (len deadline : Z) : IO N Z :=
  self ← hquery close s dill_ws_type;
  if self =? NULL then mret (-1)
  else with_iol (mk_iolist buf len NULL 0) (λ iol, dill_ws_sendl_base self (opcode_of flags) iol iol deadline).

Definition dill_ws_recv (fuel : nat) (s : Z) (buf : ptr) (len deadline : Z) : IO N (Z * option Z) :=
  self ← hquery close s dill_ws_type;
  if self =? NULL then mret (-1, None)
  else with_iol (mk_iolist buf len NULL 0) (λ iol, dill_ws_recvl_base fuel self iol iol deadline).

Definition dill_ws_sendl (s flags : Z) (first last : ptr) (deadline : Z) : IO N Z :=
  self ← hquery close s dill_ws_type;
  if self =? NULL then mret (-1)
  else dill_ws_sendl_base self (opcode_of flags) first last deadline.

Definition dill_ws_recvl (fuel : nat) (s : Z) (first last : ptr) (deadline : Z) : IO N (Z * option Z) :=
  self ← hquery close s dill_ws_type;
  if self =? NULL then mret (-1, None)
  else dill_ws_recvl_base fuel self first last deadline.

Definition dill_ws_msendl (self first last : ptr) (deadline : Z) : IO N Z :=
  x ← get_ws self;
  dill_ws_sendl_base self (opcode_of (ws_flags x)) first last deadline.

(** The local [flags] is uninitialised when no frame set it. *)
Definition dill_ws_mrecvl (fuel : nat) (self first last : ptr) (deadline : Z) : IO N Z :=
  '(sz, flags) ← dill_ws_recvl_base fuel self first last deadline;
  if sz <? 0 then mret (-1)
  else
    flags ← lift flags;
    x ← get_ws self;
    if negb (Z.land flags DILL_WS_TEXT =? Z.land (ws_flags x) DILL_WS_TEXT) then fail EPROTO
    else mret sz.

Definition dill_ws_done (s status : Z) (buf : ptr) (len deadline : Z) : IO N Z :=
  if (negb (status =? 0) && ((status <? 1000) || (4999 <? status))) || ((buf =? NULL) && (0 <? len))
  then fail EINVAL
  else
    self ← hquery close s dill_ws_type;
    if self =? NULL then mret (-1)
    else
      x ← get_ws self;
      if ws_outdone x then fail EPIPE
      else
        rc ← with_iol (mk_iolist buf len NULL 0) (λ iol2, with_bytes (dill_puts status) (λ sbuf,
          with_iol (mk_iolist (if status =? 0 then NULL else sbuf) (if status =? 0 then 0 else 2) iol2 0) (λ iol1,
            dill_ws_sendl_base self 8 iol1 iol2 deadline)));
        if rc <? 0 then mret (-1)
        else upd_ws self with_outdone;; mret 0.

Definition free_ws (self : ptr) : IO N unit :=
  modify (λ s, set_io_wss (delete self (io_wss s)) s);;
  free self SIZEOF_WS.

(** The loop of [dill_ws_detach]; whether the closing frame came. *)
Fixpoint detach_loop (fuel : nat) (frames : nat) (self : ptr) (deadline : Z) : IO N bool :=
  match fuel with
  | O => crash
  | S fuel =>
    '(sz, _) ← with_iol (mk_iolist NULL SIZE_MAX NULL 0) (λ iol, dill_ws_recvl_base frames self iol iol deadline);
    if sz <? 0 then err ← get_errno; mret (bool_decide (err = EPIPE))
    else detach_loop fuel frames self deadline
  end.

Definition dill_ws_detach (fuel frames : nat) (s status : Z) (buf : ptr) (len deadline : Z) : IO N Z :=
  self ← hquery close s dill_ws_type;
  if self =? NULL then mret (-1)
  else
    x ← get_ws self;
    rc ← (if ws_outdone x then mret 0 else dill_ws_done s status buf len deadline);
    if rc <? 0 then mret (-1)
    else
      ok ← detach_loop fuel frames self deadline;
      if negb ok then mret (-1)
      else
        x ← get_ws self;
        (if ws_mem x then mret tt else free_ws self);;
        mret (ws_u x).

Definition dill_ws_hclose (self : ptr) : IO N unit :=
  x ← get_ws self;
  rc ← hclose close (ws_u x);
  assert_ (rc =? 0);;
  if ws_mem x then mret tt else free_ws self.

(** The result, and the value of [*status] if it was set. *)
Definition dill_ws_status (s : Z) (buf : ptr) (len : Z) : IO N (Z * option Z) :=
  let failed m := rc ← m; mret (rc, None) in
  if (buf =? NULL) && negb (len =? 0) then failed (fail EINVAL)
  else
    self ← hquery close s dill_ws_type;
    if self =? NULL then mret (-1, None)
    else
      x ← get_ws self;
      if negb (ws_indone x) then failed (fail EAGAIN)
      else
        status ← load_status self;
        if buf =? NULL then mret (ws_msglen x, Some status)
        else if len <? ws_msglen x then rc ← fail EMSGSIZE; mret (rc, Some status)
        else
          bs ← load (ws_msg self) (ws_msglen x);
          store buf bs;;
          mret (ws_msglen x, Some status).
End Ws.
