(* ===== verification/Wsspec.v ===== *)
(** Theorems about the WebSocket protocol: the keys of the opening handshake. *)

From Stdlib Require Import ZArith Lia Ascii String.
From stdpp Require Import base gmap list.
From S2P Require Import Prelude Bytes Sha1 Handle Iol Sock Loop Prefix Suffix Term Http Httpspec Ws.
Open Scope Z_scope.

(** * Keys *)

(** The answer RFC 6455 (section 4.2.2) asks for: the base64 text of the SHA-1 of the key
    followed by this text. *)
Definition rfc_uuid : list Z := lit "258EAFA5-E914-47DA-95CA-C5AB0DC85B11".
Definition accept_value (key : list Z) : list Z := b64_spec (sha1_spec (key ++ rfc_uuid)).

Lemma length_flat_map_be ws : length (flat_map (be_bytes 4) ws) = (4 * length ws)%nat.
Proof. induction ws as [|w ws IH]; [done|]. cbn [flat_map length]. rewrite length_app, IH. cbn. lia. Qed.

Lemma length_sha1 msg : length (sha1_spec msg) = 20%nat.
Proof.
  unfold sha1_spec. set (ws := to_words (padded msg)). generalize (blocks (length ws) ws). intros bl.
  rewrite length_flat_map_be. enough (length (fold_left compress bl H0) = 5%nat) as -> by done.
  apply (fold_left_inv (λ l, length l = 5%nat)); [|done]. intros H b _. apply compress_w32.
Qed.

Lemma sha1_bytes msg : Forall is_byte (sha1_spec msg).
Proof.
  unfold sha1_spec. generalize (fold_left compress (blocks (length (to_words (padded msg))) (to_words (padded msg))) H0).
  intros H. induction H as [|w H IH]; [done|]. cbn [flat_map]. apply Forall_app. split; [|done].
  unfold be_bytes. apply Forall_rev, Forall_fmap, Forall_forall. intros x _. cbn. apply Z.mod_pos_bound. lia.
Qed.

Lemma chars_ascii s : Forall (λ c, 0 ≤ c ≤ 127) s → chars s = s.
Proof.
  induction 1 as [|c s Hc _ IH]; [done|]. unfold chars in *. cbn [map]. rewrite IH.
  destruct (Z.ltb_spec 127 c); [lia|done].
Qed.

Lemma length_accept key : length (accept_value key) = 28%nat.
Proof.
  unfold accept_value. pose proof (b64_spec_len 20 (sha1_spec (key ++ rfc_uuid))) as E. rewrite length_sha1 in E.
  specialize (E ltac:(lia)). change ((Z.of_nat 20 + 2) / 3 * 4) with 28 in E. lia.
Qed.

(** The characters of a string above 127 are negative [char]s; no others change. *)
Lemma b64_text_chars s :
  Forall is_byte s →
  (b64_text (chars s)).1 = (b64_text s).1 ∧
  head (b64_text (chars s)).2 = (λ c, if 127 <? c then c - 256 else c) <$> head (b64_text s).2.
Proof.
  induction 1 as [|c s H256 _ [IH1 IH2]]; [done|]. unfold chars in *. unfold is_byte in H256.
  cbn [map b64_text]. destruct (Z.ltb_spec 127 c) as [Hc|Hc].
  - assert (isspace (c - 256) = false ∧ isspace c = false ∧ in_alphabet (c - 256) = false ∧ in_alphabet c = false)
      as (-> & -> & -> & ->) by (unfold isspace, in_alphabet; split_and!; lia).
    cbn. by rewrite (proj2 (Z.ltb_lt _ _)).
  - destruct (isspace c); [done|]. destruct (in_alphabet c); cbn [fst snd]; [by rewrite IH1|].
    cbn. by rewrite (proj2 (Z.ltb_ge _ _)).
Qed.

Lemma b64_text_in s c : head (b64_text s).2 = Some c → c ∈ s.
Proof.
  induction s as [|a s IH]; [done|]. cbn [b64_text].
  destruct (isspace a); [intros H; by right; apply IH|]. destruct (in_alphabet a); cbn [snd].
  - intros H. right. by apply IH.
  - intros [= <-]. by left.
Qed.

(** What decoding a key gives: the number of characters of the base64 alphabet before the
    first character that is neither one nor white space decides, and that character. *)
Lemma decode_key key :
  Forall is_byte key → Z.of_nat (length key) + 1 < 2 ^ 31 →
  let K := Z.of_nat (length (b64_text key).1) in
  match dill_base64_decode (chars key) 16 with
  | B64Done n _ => K ≤ 22 ∧ n = 6 * K / 8 ∧ ∀ c, head (b64_text key).2 = Some c → c ≤ 127
  | B64Fail => 22 < K
  | B64Undefined => K ≤ 22 ∧ ∃ c, head (b64_text key).2 = Some c ∧ 127 < c
  | B64Unfinished => False
  end.
Proof.
  intros Hb Hl. rewrite dill_base64_decode_eq by (unfold chars; by rewrite length_map).
  assert (Hc : Forall (λ c, c ≤ 127) (chars key)).
  { unfold chars. apply Forall_fmap. eapply Forall_impl; [exact Hb|]. unfold is_byte, compose. intros c Hc.
    destruct (Z.ltb_spec 127 c); lia. }
  pose proof (u_decode_text (chars key) 16 Hc ltac:(lia)) as H.
  destruct (b64_text_chars key Hb) as [E1 E2]. rewrite E1, E2 in H. cbn zeta in *.
  destruct (u_decode (chars key) 16) as [|rc o| |]; [lia| | |done].
  - destruct H as (H1 & H2 & ->). split_and!; [lia|done|]. intros c Hh. rewrite Hh in H2.
    specialize (H2 _ eq_refl). destruct (Z.ltb_spec 127 c); [|done].
    assert (is_byte c); [|unfold is_byte in *; lia]. rewrite Forall_forall in Hb. apply Hb. by apply b64_text_in.
  - destruct H as (H1 & c & Hh & Hn). split; [lia|].
    destruct (head (b64_text key).2) as [c'|] eqn:E; [|done]. injection Hh as <-. exists c'. split; [done|].
    destruct (Z.ltb_spec 127 c'); [done|].
    assert (is_byte c'); [|unfold is_byte in *; lia]. rewrite Forall_forall in Hb. apply Hb. by apply b64_text_in.
Qed.

Section Keys.
Context {N : Type} `{NetN : Net N}.

Lemma response_key_accept le response_key key out (s : io N) :
  0 < response_key → Forall is_byte key → Z.of_nat (length key) + 36 < 2 ^ 31 →
  allocated (io_mem s) (arr response_key 29) → dill_base64_decode (chars key) 16 = B64Done 16 out →
  (hash ← lift (dill_sha1_result 64 (fold_left dill_sha1_hashbyte UUID (fold_left dill_sha1_hashbyte key (dill_sha1_init le any_sha1))));
   match dill_base64_encode hash WS_KEY_SIZE with
   | B64Done _ out => store response_key out;; mret 0
   | B64Fail => fail EFAULT
   | _ => crash
   end) s = Some (0, set_io_mem (put response_key (accept_value key) (io_mem s)) s).
Proof.
  intros Hp Hb Hlen Ha Hout.
  assert (E : dill_sha1_result 64 (fold_left dill_sha1_hashbyte UUID (fold_left dill_sha1_hashbyte key (dill_sha1_init le any_sha1)))
    = Some (sha1_spec (key ++ rfc_uuid))).
  { rewrite <- fold_left_app. apply (sha1_of_correct le any_sha1 (key ++ rfc_uuid)); [done|by repeat constructor| |].
    - apply Forall_app. split; [done|]. apply (bool_decide_unpack _). by vm_compute.
    - rewrite length_app, Nat2Z.inj_add. change (Z.of_nat (length rfc_uuid)) with 36. lia. }
  rewrite E. erewrite IO_bind_done by reflexivity.
  rewrite dill_base64_encode_eq by (apply sha1_bytes || by rewrite length_sha1).
  rewrite length_sha1. change (_ <=? WS_KEY_SIZE) with true. cbv iota.
  assert (Es : store response_key (b64_spec (sha1_spec (key ++ rfc_uuid)) ++ [0]) s =
    Some (tt, set_io_mem (put response_key (accept_value key) (io_mem s)) s)).
  { unfold store. fold (accept_value key). erewrite (store_arr response_key 29); [|unfold NULL; lia|done|].
    - unfold put, len. by rewrite length_accept.
    - rewrite length_app, length_accept. done. }
  by erewrite IO_bind_done by exact Es.
Qed.

(** C37. The answer to the key of a WebSocket client, on machines of either endianness and for
    keys shorter than [2 ^ 31 - 36] characters.  The key is read up to the first character that
    is neither of the base64 alphabet nor white space, and what counts is how many characters of
    the alphabet it has up to there, whatever follows.  With 22 of them, a 16-byte nonce,
    [dill_ws_response_key] returns 0 and writes the base64 text of the SHA-1 of the whole key and
    the UUID of RFC 6455 (28 characters and the terminator, which fit [WS_KEY_SIZE]); with any
    other number it fails with [EPROTO] and writes nothing.  But when there are at most 22 and
    the character that ends them is above 127, the decoder indexes its table with a negative
    number.  Every key that [dill_ws_request_key] makes, the base64 text of a 16-byte nonce, is
    of the first kind, so both sides compute the same answer. *)
Theorem ws_response_key_correct le request_key response_key key (s : io N) :
  request_key ≠ NULL → 0 < response_key →
  load_string (S (size (io_mem s))) request_key (io_mem s) = Some key →
  Forall is_byte key → Z.of_nat (length key) + 36 < 2 ^ 31 →
  allocated (io_mem s) (arr response_key 29) →
  let digits := length (b64_text key).1 in
  let ascii_end := ∀ c, head (b64_text key).2 = Some c → c ≤ 127 in
  (digits = 22%nat → ascii_end →
    dill_ws_response_key le request_key response_key s =
      Some (0, set_io_mem (put response_key (accept_value key) (io_mem s)) s)) ∧
  ((22 < digits)%nat ∨ (digits < 22)%nat ∧ ascii_end →
    dill_ws_response_key le request_key response_key s = Some (-1, set_io_errno EPROTO s)) ∧
  ((digits ≤ 22)%nat → ¬ ascii_end → dill_ws_response_key le request_key response_key s = None) ∧
  (∀ nonce, Forall is_byte nonce → length nonce = 16%nat → key = b64_spec nonce → digits = 22%nat ∧ ascii_end).
Proof.
  intros Hq Hp Hkey Hb Hlen Ha digits ascii_end. apply Z.eqb_neq in Hq.
  assert (Hp' : (response_key =? NULL) = false) by (apply Z.eqb_neq; unfold NULL; lia).
  assert (Hc : cstring request_key s = Some (key, s)) by (unfold cstring; by rewrite Hkey).
  pose proof (decode_key key Hb ltac:(lia)) as Hd. cbn zeta in Hd. fold digits in Hd.
  unfold dill_ws_response_key. rewrite Hq, Hp'. erewrite IO_bind_done by exact Hc.
  pose proof (response_key_accept le response_key key) as Hacc.
  assert (Hnonce : ∀ nonce, Forall is_byte nonce → length nonce = 16%nat → key = b64_spec nonce →
    dill_base64_decode (chars key) 16 = B64Done 16 nonce).
  { intros nonce Hn Hl ->. rewrite chars_ascii by (by apply (b64_spec_ascii 16); lia).
    rewrite base64_decode_spec; [by rewrite Hl|done|by rewrite Hl|lia]. }
  destruct (dill_base64_decode (chars key) 16) as [|n out| |] eqn:E; [| | |done].
  - split_and!; [lia|done|lia|]. intros nonce Hn Hl Hk. by specialize (Hnonce nonce Hn Hl Hk).
  - destruct Hd as (Hd & -> & He). split_and!.
    + intros H22 _. assert (Ed : 6 * Z.of_nat digits / 8 = 16) by (rewrite H22; done). rewrite Ed in *.
      change (16 =? 16) with true. cbn [negb]. cbv zeta. by eapply Hacc.
    + intros Hbad. rewrite (proj2 (Z.eqb_neq _ 16)) by zdm. done.
    + intros _ Hna. by destruct Hna.
    + intros nonce Hn Hl Hk. specialize (Hnonce nonce Hn Hl Hk) as [= H _]. split; [|exact He]. revert H. zdm.
  - destruct Hd as (Hd & c & Hh & Hc'). split_and!; [|intros [?|[_ Ho]]; [lia|specialize (Ho c Hh); lia]|done|].
    + intros _ Ho. specialize (Ho c Hh). lia.
    + intros nonce Hn Hl Hk. by specialize (Hnonce nonce Hn Hl Hk).
Qed.
End Keys.

(** The example of RFC 6455: the nonce "the sample nonce", at 1000. *)
Definition demo_key : list Z := lit "dGhlIHNhbXBsZSBub25jZQ==".
Definition demo_key_io : io loop := set_io_mem (put 1000 demo_key (io_mem demo_http_io)) demo_http_io.

Lemma demo_key_accept : accept_value demo_key = lit "s3pPLMBiTxaQ9kYGzzhZRbK+xOo=".
Proof. vm_compute. reflexivity. Qed.

Lemma ws_response_key_correct_witness :
  dill_ws_response_key true 1000 1500 demo_key_io =
    Some (0, set_io_mem (put 1500 (lit "s3pPLMBiTxaQ9kYGzzhZRbK+xOo=") (io_mem demo_key_io)) demo_key_io).
Proof.
  rewrite <- demo_key_accept.
  apply (λ H1 H2 H3 H4 H5 H6, proj1 (ws_response_key_correct true 1000 1500 demo_key demo_key_io H1 H2 H3 H4 H5 H6)).
  - done.
  - done.
  - vm_compute. reflexivity.
  - apply (bool_decide_unpack _). vm_compute. exact I.
  - vm_compute. reflexivity.
  - apply allocated_scatter; by apply demo_room.
  - vm_compute. reflexivity.
  - vm_compute. intros c [= <-]. done.
Defined.
