(* ===== verification/Wsframe.v ===== *)
(** Theorems about WebSocket frames: what is sent. *)

From Stdlib Require Import ZArith Lia.
From stdpp Require Import base gmap list.
From S2P Require Import Prelude Bytes Sha1 Handle Iol Sock Loop Prefix Suffix Term Http Httpspec Stream Ws.
Open Scope Z_scope.

(** * Masks *)

(** [bs] masked from position [pos] of the payload. *)
Definition mask_from (mask : list Z) (pos : nat) (bs : list Z) : list Z := imap (λ i, mask_byte mask (pos + i)) bs.

Lemma mask_from_cons mask pos b bs :
  mask_from mask pos (b :: bs) = mask_byte mask pos b :: mask_from mask (S pos) bs.
Proof.
  unfold mask_from. rewrite imap_cons, Nat.add_0_r. f_equal. apply imap_ext. intros i x _. cbn. f_equal. lia.
Qed.

Lemma mask_from_app mask x y : ∀ pos, mask_from mask pos (x ++ y) = mask_from mask pos x ++ mask_from mask (pos + length x) y.
Proof.
  induction x as [|b x IH]; intros pos; cbn [app length].
  - by rewrite Nat.add_0_r.
  - rewrite !mask_from_cons, IH. cbn. do 3 f_equal. lia.
Qed.

Lemma length_mask mask pos bs : length (mask_from mask pos bs) = length bs.
Proof. apply length_imap. Qed.

(** Masking twice gives back the payload. *)
Lemma mask_twice mask bs : ∀ pos, mask_from mask pos (mask_from mask pos bs) = bs.
Proof.
  induction bs as [|b bs IH]; intros pos; [done|]. rewrite !mask_from_cons, IH. f_equal.
  unfold mask_byte. by rewrite Z.lxor_assoc, Z.lxor_nilpotent, Z.lxor_0_r.
Qed.

Lemma apply_mask_from mask bs : apply_mask mask bs = mask_from mask 0 bs.
Proof. unfold apply_mask, mask_from. by apply imap_ext. Qed.

(** A frame with the payload [bs], as the server sends it, or as the client does. *)
Definition frame (server : bool) (mask : list Z) (type : Z) (bs : list Z) : list Z :=
  if server then frame_header type (len bs) ++ bs
  else masked_header (frame_header type (len bs)) mask ++ apply_mask mask bs.

(** * Sending *)

Section Send.
Context {N : Type} `{LawsN : NetLaws N}.
Context (close : sobj → IO N unit) (u n : Z) (Hbs : net_bytestream n = true).

Lemma wp_send_bytes bs k d s (Q : Z → io N → Prop) :
  wf_io s → answers u dill_bsock_type n s → k = len bs → k < 2 ^ 64 →
  (∀ s', stepped n (net_in (io_net s) n) (net_out (io_net s) n ++ bs) s s' → Q 0 s') →
  (∀ o s', stepped n (net_in (io_net s) n) o s s' → net_outfail (io_net s') n → Q (-1) s') →
  wp (with_bytes bs (λ p, dill_bsend close u p k d)) Q s.
Proof.
  intros Hwf Ha Hk Hk64 H1 H2. assert (Hl : Z.of_nat (length bs) = len bs) by done. apply (wp_local n); [done|lia|]. intros s1 I1.
  apply wp_bind. eapply (wp_store_inside n); [exact I1|unfold len; cbn; lia|unfold len; cbn; lia|]. intros s2 I2. rewrite app_nil_l in I2.
  eapply (wp_send_inside close u n Hbs); [exact Ha|exact I2|done|done| |].
  - intros s3 I3. apply H1. by eapply inside_leave.
  - intros o s3 I3 F. eapply H2; [by eapply inside_leave|exact F].
Qed.

(** What was sent, or a failure of the network. *)
Definition sent (bs : list Z) (s : io N) (rc : Z) (s' : io N) : Prop :=
  (rc = 0 ∧ stepped n (net_in (io_net s) n) (net_out (io_net s) n ++ bs) s s') ∨
  (rc = -1 ∧ net_outfail (io_net s') n ∧ ∃ o, stepped n (net_in (io_net s) n) o s s').

Lemma sent_step x y s1 s2 rc s3 :
  stepped n (net_in (io_net s1) n) (net_out (io_net s1) n ++ x) s1 s2 → sent y s2 rc s3 → sent (x ++ y) s1 rc s3.
Proof.
  intros S1 J. unfold sent in J. rewrite (st_in _ _ _ _ _ S1), (st_out _ _ _ _ _ S1) in J. rewrite <- app_assoc in J.
  destruct J as [[-> S2]|(-> & F & o & S2)]; [left|right; split; [done|split; [done|exists o]]]; [split; [done|]|];
    by eapply stepped_trans.
Qed.

Lemma sent_nil s : wf_io s → sent [] s 0 s.
Proof. intros Hwf. left. split; [done|]. rewrite app_nil_r. by apply stepped_refl. Qed.

(** The payload of one buffer. *)
Lemma wp_send_masked mask base d k : ∀ i pos bs s,
  wf_io s → answers u dill_bsock_type n s → 0 < base → 0 ≤ i → length bs = k →
  gather (io_mem s) (arr (base + i) (len bs)) = Some bs →
  wp (send_masked close k u mask base i pos d) (sent (mask_from mask pos bs) s) s.
Proof.
  induction k as [|k IH]; intros i pos bs s Hwf Ha Hb Hi Hl Hg.
  { destruct bs; [|done]. apply wp_ret. by apply sent_nil. }
  destruct bs as [|b bs]; [done|]. cbn in Hl. injection Hl as Hl. cbn [send_masked].
  assert (Hlen : len (b :: bs) = 1 + len bs) by (unfold len; cbn; lia). rewrite Hlen in Hg.
  assert (0 ≤ len bs) by (unfold len; lia). rewrite arr_app, gather_app in Hg by lia.
  destruct (gather _ (arr (base + i) 1)) as [b1|] eqn:E1; [|done]. destruct (gather _ (arr (base + i + 1) _)) as [bs1|] eqn:E2; [|done].
  injection Hg as Hg. pose proof (gather_some _ _ _ E1) as (_ & L1 & _). pose proof (length_arr (base + i) 1 ltac:(lia)).
  destruct b1 as [|b1 [|]]; cbn in L1; try lia. injection Hg as -> ->.
  apply wp_bind, (wp_load _ _ [b]); [rewrite load_arr by (unfold NULL; lia); exact E1|]. cbn [map].
  rewrite mask_from_cons. apply wp_bind, wp_send_bytes; [done|done|done|done| |].
  - intros s1 S1. change (0 <? 0) with false. cbv iota. eapply wp_mono.
    { apply (IH (i + 1) (S pos) bs s1); [apply S1|by apply S1|done|lia|done|]. rewrite (st_mem _ _ _ _ _ S1). by rewrite Z.add_assoc. }
    intros rc s2 J. change (mask_byte mask pos b :: mask_from mask (S pos) bs) with ([mask_byte mask pos b] ++ mask_from mask (S pos) bs).
    by eapply sent_step.
  - intros o s1 S1 F. change (-1 <? 0) with true. cbv iota. apply wp_ret. right. split; [done|]. split; [done|by exists o].
Qed.

(** The payload of a list of buffers. *)
Lemma wp_send_list mask d l : ∀ fuel first pos bs s,
  wf_io s → answers u dill_bsock_type n s → path (io_nodes s) first l → sized (io_nodes s) l → (length l < fuel)%nat →
  gather (io_mem s) (flat (io_nodes s) l) = Some bs →
  wp (send_list close fuel u mask first pos d) (sent (mask_from mask pos bs) s) s.
Proof.
  induction l as [|x l IH]; intros [|fuel] first pos bs s Hwf Ha Hp Hsz Hf Hg; cbn [length] in Hf; try lia.
  { cbn in Hp. subst first. injection Hg as <-. cbn. apply wp_ret. by apply sent_nil. }
  destruct Hp as (-> & Hx & f & Hfx & Hp). cbn [send_list]. rewrite (proj2 (Z.eqb_neq _ _) Hx).
  apply wp_bind, (wp_get_node _ f); [done|]. assert (En : node (io_nodes s) x = f) by (unfold node; by rewrite Hfx).
  pose proof (Hsz x ltac:(by left)) as Hfl. rewrite En in Hfl.
  assert (Efl : flat (io_nodes s) (x :: l) = slots f ++ flat (io_nodes s) l) by (by rewrite <- En).
  rewrite Efl, gather_app in Hg.
  destruct (gather _ (slots f)) as [b1|] eqn:E1; [|done]. destruct (gather _ (flat _ l)) as [b2|] eqn:E2; [|done].
  injection Hg as <-. pose proof (gather_some _ _ _ E1) as (Hal1 & L1 & Hn1). pose proof (length_slots f ltac:(lia)) as Ls.
  assert (Hrec : ∀ s1, stepped n (net_in (io_net s) n) (net_out (io_net s) n ++ mask_from mask pos b1) s s1 →
    wp (send_list close fuel u mask (iol_next f) (pos + Z.to_nat (iol_len f)) d) (sent (mask_from mask pos (b1 ++ b2)) s) s1).
  { intros s1 S1. pose proof (calm_nodes _ _ (st_calm _ _ _ _ _ S1)) as Hnd. eapply wp_mono.
    - apply (IH fuel (iol_next f) (pos + Z.to_nat (iol_len f))%nat b2 s1); [apply S1|by apply S1| | |lia|]; rewrite ?Hnd.
      + done.
      + intros y Hy. apply Hsz. by right.
      + by rewrite (st_mem _ _ _ _ _ S1).
    - intros rc s2 J. rewrite mask_from_app. replace (length b1) with (Z.to_nat (iol_len f)) by lia. by eapply sent_step. }
  apply wp_bind. destruct (decide (iol_len f = 0)) as [H0|H0].
  { rewrite H0 in *. destruct b1; [|cbn in L1; lia]. cbn. apply wp_ret. apply Hrec. rewrite app_nil_r. by apply stepped_refl. }
  assert (Hb0 : iol_base f ≠ NULL).
  { intros E. unfold slots in Hn1. rewrite E in Hn1. change (NULL =? NULL) with true in Hn1. cbv iota in Hn1.
    apply Hn1. apply elem_of_replicate. split; [done|lia]. }
  assert (Hbp : 0 < iol_base f).
  { apply (wi_mem _ Hwf), Hal1. apply (elem_of_arr (iol_base f) (iol_len f)); [done|lia]. }
  eapply wp_mono.
  - apply (wp_send_masked mask (iol_base f) d (Z.to_nat (iol_len f)) 0 pos b1 s Hwf Ha); [done|lia|lia|].
    rewrite Z.add_0_r. replace (len b1) with (iol_len f) by (unfold len; lia). exact E1.
  - intros rc s1 [[-> S1]|(-> & F & o & S1)].
    + change (0 <? 0) with false. cbv iota. by apply Hrec.
    + change (-1 <? 0) with true. cbv iota. apply wp_ret. right. split; [done|]. split; [done|by exists o].
Qed.

Lemma wp_bsendl_sent first lst d l bs s :
  wf_io s → answers u dill_bsock_type n s → valid (io_nodes s) first lst l → l ≠ [] →
  gather (io_mem s) (flat (io_nodes s) l) = Some bs →
  wp (dill_bsendl close u first lst d) (sent bs s) s.
Proof.
  intros Hwf Ha Hv Hne Hg. eapply (wp_bsendl close u n); [exact Hwf|exact Ha|done|exact Hv|done|exact Hg|].
  intros rc c nt e Hk (Hi & Hrc).
  assert (Hgo : stepped n (net_in (io_net s) n) (net_out nt n) s (after c (io_next s) (io_mem s) nt e s)).
  { split; try done; [by apply wf_after|apply calm_after; [apply calm_refl|done]]. }
  destruct Hrc as [[-> Ho]|[-> F]]; [left; split; [done|by rewrite <- Ho]|right; split; [done|split; [exact F|by eexists]]].
Qed.

(** [dill_random] changes nothing but [errno] and the state of the system, and on success
    gives that many bytes. *)
Definition random_ok : Prop := ∀ k (s : io N), 0 ≤ k → ∃ o nt e,
  net_random k s = Some (o, set_io_net nt (set_io_errno e s)) ∧
  (∀ m, net_in nt m = net_in (io_net s) m ∧ net_out nt m = net_out (io_net s) m) ∧
  (∀ bs, o = Some bs → len bs = k).

Lemma stepped_random nt e s : wf_io s →
  net_in nt n = net_in (io_net s) n → net_out nt n = net_out (io_net s) n →
  stepped n (net_in (io_net s) n) (net_out (io_net s) n) s (set_io_net nt (set_io_errno e s)).
Proof.
  intros Hwf Hi Ho. split; try done.
  - destruct Hwf. by split.
  - intros h ty p (t & v & R & ?). by exists t, v.
  - exists (io_handles s), (io_next s), (io_mem s), nt, e. split; [by destruct s|lia].
Qed.
End Send.

(** The outcome of sending a frame: it fails only when sending to the underlying socket
    failed, or when there were no random bytes for the mask. *)
Definition ws_sent {N} `{LawsN : NetLaws N} (n : Z) (server : bool) (type : Z) (bs : list Z) (s : io N) (rc : Z) (s' : io N) : Prop :=
  (rc = 0 ∧ ∃ mask, (server = false → len mask = 4) ∧
     stepped n (net_in (io_net s) n) (net_out (io_net s) n ++ frame server mask type bs) s s') ∨
  (rc = -1 ∧ (net_outfail (io_net s') n ∨
     server = false ∧ ∃ s1 s2 : io N, io_net s1 = io_net s ∧ net_random 4 s1 = Some (None, s2)) ∧
   ∃ o, stepped n (net_in (io_net s) n) o s s').

Lemma length_frame_header type k : len (frame_header type k) = if 0xffff <? k then 10 else if 125 <? k then 4 else 2.
Proof. unfold frame_header. by destruct (0xffff <? k), (125 <? k). Qed.

Lemma length_masked_header hdr mask : len (masked_header hdr mask) = len hdr + len mask.
Proof. unfold masked_header, len. rewrite length_app, length_insert. lia. Qed.

Section Sendl.
Context {N : Type} `{LawsN : NetLaws N}.
Context (close : sobj → IO N unit).

Lemma wp_iolcheck first lst l s (Q : Z * Z + errno_t → io N → Prop) :
  closed (io_nodes s) → valid (io_nodes s) first lst l → l ≠ [] →
  Q (inl (u64 (Z.of_nat (length l)), u64 (total (io_nodes s) l))) s → wp (iolcheck first lst) Q s.
Proof.
  intros Hc Hv Hne HQ. destruct (valid_last _ _ _ _ Hv Hne) as (Hf & Hl & x & Hx & _).
  unfold wp, iolcheck. destruct Hv as (Hp & Hlst & Hu).
  assert (Hfirst : is_Some (io_nodes s !! first)).
  { destruct l as [|y l]; [done|]. destruct Hp as (-> & _ & f & Hfy & _). by exists f. }
  destruct (iolcheck_total (io_nodes s) first lst (S (2 * size (io_nodes s))) Hc) as [(l' & (Hp' & _) & ->)|(Hno & _)].
  - by right.
  - right. by exists x.
  - done.
  - lia.
  - rewrite (path_det _ _ _ _ Hp' Hp). by destruct s.
  - by destruct (Hno l).
Qed.

(** The payload in the memory of the block of the header. *)
Lemma inside_gather n a sz s0 pre i o s sl bs :
  inside n a sz s0 pre i o s → gather (io_mem s0) sl = Some bs → gather (io_mem s) sl = Some bs.
Proof.
  intros Hin Hg. rewrite <- Hg. apply gather_ext. intros y Hy. apply (in_mem _ _ _ _ _ _ _ _ Hin).
  pose proof (gather_some _ _ _ Hg) as (Hal & _). destruct (in_base _ _ _ _ _ _ _ _ Hin) as (_ & _ & B).
  specialize (B y (Hal y Hy)). lia.
Qed.

(** Header and payload, once the header with its mask is known. *)
Lemma wp_send_payload u n server mask hdr first lst d l bs s0 s :
  net_bytestream n = true → answers u dill_bsock_type n s0 → wf_io s0 →
  valid (io_nodes s0) first lst l → l ≠ [] → sized (io_nodes s0) l → gather (io_mem s0) (flat (io_nodes s0) l) = Some bs →
  len hdr ≤ 12 → inside n (io_next s0) 12 s0 [] (net_in (io_net s0) n) (net_out (io_net s0) n) s →
  wp (assert_ (length hdr <=? 12)%nat;;
      store (io_next s0) hdr;;
      rc ← dill_bsend close u (io_next s0) (Z.of_nat (length hdr)) d;
      if rc <? 0 then mret (-1)
      else if server : bool then rc ← dill_bsendl close u first lst d; if rc <? 0 then mret (-1) else mret 0
      else n ← gets (λ s, size (io_nodes s)); send_list close (S n) u mask first 0 d)
    (λ rc s', sent n (hdr ++ if server then bs else apply_mask mask bs) s0 rc (leave (io_next s0) 12 s')) s.
Proof.
  intros Hn Ha Hwf Hv Hne Hsz Hg Hl I1. unfold len in Hl.
  rewrite (proj2 (Nat.leb_le _ _)) by lia. apply wp_bind, wp_ret, wp_bind.
  eapply (wp_store_inside n); [exact I1|unfold len; cbn; lia|unfold len; cbn; lia|]. intros s2 I2. rewrite app_nil_l in I2.
  apply wp_bind. eapply (wp_send_inside close u n Hn); [exact Ha|exact I2|done|lia| |].
  2: { intros o s3 I3 F. apply wp_ret. right. split; [done|]. split; [exact F|]. eexists. by eapply inside_leave. }
  intros s3 I3. change (0 <? 0) with false. cbv iota.
  pose proof (inside_gather _ _ _ _ _ _ _ _ _ _ I3 Hg) as Hg3. pose proof (in_keeps _ _ _ _ _ _ _ _ I3 _ _ _ Ha) as Ha3.
  pose proof (calm_nodes _ _ (in_calm _ _ _ _ _ _ _ _ I3)) as Hnd. rewrite <- Hnd in Hg3, Hv, Hsz.
  assert (Hend : ∀ x rc s4, sent n x s3 rc s4 → sent n (hdr ++ x) s0 rc (leave (io_next s0) 12 s4)).
  { intros x rc s4 J. unfold sent in J. rewrite (in_in _ _ _ _ _ _ _ _ I3), (in_out _ _ _ _ _ _ _ _ I3), <- app_assoc in J.
    destruct J as [[-> S4]|(-> & F & o & S4)]; [left|right; split; [done|split; [exact F|exists o]]]; [split; [done|]|];
      by eapply inside_leave, inside_step. }
  destruct server.
  - apply wp_bind. eapply wp_mono; [by apply (wp_bsendl_sent close u n Hn first lst d l bs s3); [apply I3|..]|].
    intros rc s4 J. destruct (Hend bs rc s4 J) as [[-> J']|[-> J']]; apply wp_ret; [left|right]; done.
  - apply wp_bind, wp_gets. destruct Hv as (Hp & _).
    eapply wp_mono; [apply (wp_send_list close u n Hn mask d l _ first 0 bs s3); [apply I3|done|done|done| |done]|].
    + pose proof (seg_length _ _ _ _ Hp (path_nodup _ _ _ Hp)). lia.
    + intros rc s4 J. rewrite apply_mask_from. by apply Hend.
Qed.

(** A frame is sent as RFC 6455 lays it out: on a connection that is not done,
    [dill_ws_sendl_base] writes the header with the shortest length field for the
    payload, on the server followed by the payload as it is, on the client by a random
    mask of four bytes and the masked payload, gathered from all buffers of the list;
    then it returns 0.  Memory and lists are as before, and the array of 12 bytes is
    enough on the server, and on the client for payloads up to 65535 bytes.  The only
    other outcome is -1, when sending to the underlying socket failed or there were no random
    bytes. *)
Lemma ws_sends_frame self type first lst d s x l bs n :
  wf_io s → io_wss s !! self = Some x → ws_outdone x = false →
  answers (ws_u x) dill_bsock_type n s → net_bytestream n = true → random_ok →
  closed (io_nodes s) → valid (io_nodes s) first lst l → l ≠ [] → sized (io_nodes s) l →
  gather (io_mem s) (flat (io_nodes s) l) = Some bs → len bs < 2 ^ 64 → ws_server x = true ∨ len bs ≤ 65535 →
  wp (dill_ws_sendl_base close self type first lst d) (ws_sent n (ws_server x) type bs s) s.
Proof.
  intros Hwf Hx Hod Ha Hn Hr Hc Hv Hne Hsz Hg Hlen Hfit. unfold dill_ws_sendl_base.
  apply wp_bind. unfold wp at 1, get_ws. rewrite Hx. cbn [mbind option_bind]. rewrite Hod.
  apply wp_bind, (wp_iolcheck first lst l); [done|done|done|].
  assert (Ht : u64 (total (io_nodes s) l) = len bs).
  { pose proof (gather_some _ _ _ Hg) as (_ & L & _). pose proof (length_flat _ _ Hsz).
    unfold u64. rewrite Z.mod_small; unfold len in *; lia. }
  rewrite Ht. apply (wp_local_net n); [done|lia|]. intros s1 I1 En. pose proof (length_frame_header type (len bs)) as Lh.
  assert (Hrest : ∀ mask hdr s2, hdr = (if ws_server x then frame_header type (len bs) else masked_header (frame_header type (len bs)) mask) →
    len hdr ≤ 12 → (ws_server x = false → len mask = 4) →
    inside n (io_next s) 12 s [] (net_in (io_net s) n) (net_out (io_net s) n) s2 → ∀ K,
    wp K (λ rc s', sent n (hdr ++ if ws_server x then bs else apply_mask mask bs) s rc (leave (io_next s) 12 s')) s2 →
    wp K (λ rc s', ws_sent n (ws_server x) type bs s rc (leave (io_next s) 12 s')) s2).
  { intros mask hdr s2 -> Hl Hm I2 K HK. eapply wp_mono; [exact HK|]. intros rc s3 [[-> J]|(-> & F & J)]; [left|right; split; [done|]; split; [by left|done]].
    split; [done|]. exists mask. split; [done|]. unfold frame. by destruct (ws_server x). }
  destruct (ws_server x) eqn:Es.
  - apply wp_bind, wp_ret. eapply (Hrest [] (frame_header type (len bs))); [done| |done|exact I1|].
    + rewrite Lh. destruct (0xffff <? len bs), (125 <? len bs); lia.
    + eapply (wp_send_payload (ws_u x) n true [] (frame_header type (len bs))); try done.
      rewrite Lh. destruct (0xffff <? len bs), (125 <? len bs); lia.
  - destruct Hfit as [|Hfit]; [done|]. destruct (Hr 4 s1 ltac:(lia)) as (o & nt & e & Er & Hio & Ho).
    apply wp_bind. unfold wp at 1. rewrite Er.
    assert (S1 := stepped_random n nt e s1 (in_wf _ _ _ _ _ _ _ _ I1) (proj1 (Hio n)) (proj2 (Hio n))).
    rewrite (in_in _ _ _ _ _ _ _ _ I1), (in_out _ _ _ _ _ _ _ _ I1) in S1.
    pose proof (inside_step _ _ _ _ _ _ _ _ _ _ _ I1 S1) as I2.
    destruct o as [mask|]; [|apply wp_ret; right; split; [done|]; split; [right; split; [done|]; by eexists s1, _|eexists; by eapply inside_leave]].
    specialize (Ho mask eq_refl).
    assert (Hl : len (masked_header (frame_header type (len bs)) mask) ≤ 12).
    { rewrite length_masked_header, Lh, Ho, (proj2 (Z.ltb_ge 0xffff (len bs))) by lia. destruct (125 <? len bs); lia. }
    eapply (Hrest mask (masked_header (frame_header type (len bs)) mask)); [done|done|done|exact I2|].
    by apply (wp_send_payload (ws_u x) n false mask (masked_header (frame_header type (len bs)) mask) first lst d l bs s).
Qed.
End Sendl.
