(* ===== verification/Wsrecv.v ===== *)
(** Theorems about WebSocket frames: receiving what was sent. *)

From Stdlib Require Import ZArith Lia.
From stdpp Require Import base gmap list.
From S2P Require Import Prelude Bytes Sha1 Handle Iol Sock Loop Prefix Suffix Term Http Httpspec Stream Ws Wsframe.
Open Scope Z_scope.

(** * Receiving into a buffer of the caller *)

(** The state of a local [struct iolist]. *)
Definition enter_iol {N} (f : iolist) (s : io N) : io N :=
  set_io_nodes (<[io_next s := f]> (io_nodes s)) (set_io_next (io_next s + 1) s).
Definition leave_iol {N} (a : ptr) (s : io N) : io N := set_io_nodes (delete a (io_nodes s)) s.

Section Recvd.
Context {N : Type} `{LawsN : NetLaws N}.
Context (close : sobj → IO N unit) (u n : Z) (Hbs : net_bytestream n = true).

(** From [s] to [s'] only the [k] bytes at [p] of the memory have changed. *)
Record recvd (p k : Z) (inp out : list Z) (s s' : io N) : Prop := {
  rv_wf : wf_io s';
  rv_keeps : keeps s s';
  rv_calm : calm s s';
  rv_dom : dom (io_mem s') = dom (io_mem s);
  rv_mem : ∀ x, ¬ p ≤ x < p + k → io_mem s' !! x = io_mem s !! x;
  rv_in : net_in (io_net s') n = inp;
  rv_out : net_out (io_net s') n = out;
}.

Lemma recvd_step p k i1 o1 inp out s1 s2 s3 :
  stepped n i1 o1 s1 s2 → recvd p k inp out s2 s3 → recvd p k inp out s1 s3.
Proof.
  intros S1 [W K C D M I O]. split; try done.
  - intros h ty q Hh. by apply K, (st_keeps _ _ _ _ _ S1).
  - eapply calm_trans; [apply S1|done].
  - by rewrite D, (st_mem _ _ _ _ _ S1).
  - intros x Hx. by rewrite M, (st_mem _ _ _ _ _ S1).
Qed.

Lemma recvd_stepped p k inp out s s' : stepped n inp out s s' → recvd p k inp out s s'.
Proof. intros [W K C M I O]. split; try done; [by rewrite M|]. intros x _. by rewrite M. Qed.

Lemma recvd_leave p k a sz s0 pre i o inp out s s' :
  inside n a sz s0 pre i o s → recvd p k inp out s s' → recvd p k inp out s0 (leave a sz s').
Proof.
  intros Hin [W K C D M I O]. pose proof Hin as [W0 K0 C0 (Ha & Hsz & B) D0 M0 _ _ _ _].
  assert (Hd : dom (io_mem (leave a sz s')) = dom (io_mem s0)) by (apply drop_buf_dom; [done|by rewrite D]).
  split; try done.
  - destruct W as [W1 W2 W3 W4]. split; [done|done| |done]. intros x Hx. apply elem_of_dom in Hx. cbn [io_mem leave set_io_mem] in Hx.
    apply W3. apply elem_of_dom in Hx as [v Hv]. apply map_lookup_filter_Some in Hv as [Hv _]. by exists v.
  - intros h ty q Hh. destruct (K h ty q (K0 h ty q Hh)) as (t & v & R & ?). by exists t, v.
  - eapply calm_trans; [exact C0|]. destruct C as (c & nx & m & nt & e & -> & Hn).
    exists c, nx, (io_mem (leave a sz (after c nx m nt e s))), nt, e. split; [by destruct s|done].
  - intros x Hx. destruct (decide (a ≤ x < a + sz)) as [Hi|Hi].
    + assert (E : io_mem s0 !! x = None).
      { destruct (io_mem s0 !! x) eqn:Ex; [|done]. specialize (B x ltac:(by eexists)). lia. }
      rewrite E. apply not_elem_of_dom. rewrite Hd. by apply not_elem_of_dom.
    + rewrite <- M0, <- M by done. cbn. destruct (io_mem s' !! x) eqn:Ex.
      * by apply map_lookup_filter_Some_2.
      * apply map_lookup_filter_None_2. by left.
Qed.

(** The bytes received are still there after the block. *)
Lemma leave_gather a sz (s : io N) sl bs :
  gather (io_mem s) sl = Some bs → (∀ x, Some x ∈ sl → x < a) → gather (io_mem (leave a sz s)) sl = Some bs.
Proof.
  intros Hg Hx. rewrite <- Hg. apply gather_ext. intros x Hin. specialize (Hx x Hin). cbn. destruct (io_mem s !! x) eqn:Ex.
  - apply map_lookup_filter_Some_2; [done|cbn; lia].
  - apply map_lookup_filter_None_2. by left.
Qed.

Lemma wf_enter_iol f (s : io N) : wf_io s → 0 ≤ iol_base f → 0 ≤ iol_len f < 2 ^ 64 → wf_io (enter_iol f s).
Proof. intros. by apply wf_with_node. Qed.

Lemma fresh_node (s : io N) : wf_io s → io_nodes s !! io_next s = None.
Proof.
  intros Hwf. destruct (io_nodes s !! io_next s) eqn:E; [|done]. pose proof (wi_nodes _ Hwf (io_next s) ltac:(by eexists)). lia.
Qed.

Lemma recvd_iol p k inp out f s s' :
  wf_io s → recvd p k inp out (enter_iol f s) s' → recvd p k inp out s (leave_iol (io_next s) s').
Proof.
  intros Hwf [W K C D M I O]. pose proof (fresh_node s Hwf) as Hf. destruct C as (c & nx & m & nt & e & E & Hn).
  assert (El : leave_iol (io_next s) s' = after c nx m nt e s).
  { rewrite E. unfold leave_iol. cbn [io_nodes after enter_iol set_io_nodes set_io_handles set_io_next set_io_mem set_io_net set_io_errno].
    rewrite delete_insert_id by done. by destruct s. }
  rewrite El. cbn in Hn. subst s'. split; try done.
  - apply wf_after; [done|lia|done].
  - apply calm_after; [apply calm_refl|lia].
Qed.

(** Receiving all of the buffer. *)
Lemma wp_recv_buffer p k d bs rest s (Q : Z → io N → Prop) :
  wf_io s → answers u dill_bsock_type n s → 0 < p → k = len bs → len bs < 2 ^ 64 → allocated (io_mem s) (arr p (len bs)) →
  net_in (io_net s) n = bs ++ rest →
  (∀ s', recvd p (len bs) rest (net_out (io_net s) n) s s' → gather (io_mem s') (arr p (len bs)) = Some bs → Q 0 s') →
  (∀ i s', recvd p (len bs) i (net_out (io_net s) n) s s' → net_infail (io_net s') n → Q (-1) s') →
  wp (dill_brecv close u p k d) Q s.
Proof.
  intros Hwf Ha Hp -> Hl Hal Hi H1 H2. assert (0 ≤ len bs) by (unfold len; lia).
  apply (wp_brecv close u n); [done|done|done|lia|left; lia|done|].
  intros rc c nt e m Hk (Ho & Hd & Hoth & Hrc).
  assert (Hgo : recvd p (len bs) (net_in nt n) (net_out (io_net s) n) s (after c (io_next s + 1) m nt e s)).
  { split; try done.
    - apply wf_after; [done|lia|done].
    - apply calm_after; [apply calm_refl|lia].
    - intros x Hx. apply Hoth. intros Hx'. apply elem_of_arr in Hx'; [done|unfold NULL; lia]. }
  destruct Hrc as [(-> & bs' & Hl' & Hi' & ->)|[-> F]]; [|by eapply H2; [|exact F]].
  pose proof (length_arr p (len bs) ltac:(lia)) as La. rewrite Hi in Hi'.
  symmetry in Hi'. apply app_inj_1 in Hi' as [-> Hr]; [|unfold len in *; lia]. rewrite Hr in Hgo. apply H1; [done|].
  cbn [io_mem after set_io_handles set_io_next set_io_mem set_io_net set_io_errno].
  apply gather_scatter; [apply arr_nodup; unfold NULL; lia|apply arr_nodup; unfold NULL; lia|unfold len in *; lia].
Qed.
End Recvd.

(** * Headers *)

(** The length field after the second byte. *)
Definition length_ext (k : Z) : list Z :=
  if 0xffff <? k then dill_putll k else if 125 <? k then dill_puts k else [].
(** The low bits of the second byte. *)
Definition length_code (k : Z) : Z := if 0xffff <? k then 127 else if 125 <? k then 126 else k.
Definition second_byte (masked : bool) (k : Z) : Z := if masked then Z.lor (length_code k) 0x80 else length_code k.

Lemma frame_split server mask type bs : 0 ≤ len bs →
  frame server mask type bs =
    [Z.lor 0x80 type; second_byte (negb server) (len bs)] ++ length_ext (len bs) ++
    (if server then bs else mask ++ apply_mask mask bs).
Proof.
  intros H. unfold frame, masked_header, frame_header, second_byte, length_ext, length_code.
  destruct (Z.ltb_spec 0xffff (len bs)); [by destruct server|]. destruct (Z.ltb_spec 125 (len bs)); [by destruct server|].
  assert (E : u8 (len bs) = len bs) by (apply Z.mod_small; lia). rewrite E. by destruct server.
Qed.

Lemma code_bits k : 0 ≤ k < 2 ^ 64 → ∀ masked,
  Z.land (second_byte masked k) 0x7f = length_code k ∧ (Z.land (second_byte masked k) 0x80 =? 0) = negb masked.
Proof.
  intros Hk masked. assert (Hc : 0 ≤ length_code k < 128).
  { unfold length_code. destruct (Z.ltb_spec 0xffff k); [lia|]. destruct (Z.ltb_spec 125 k); lia. }
  unfold second_byte. revert Hc. generalize (length_code k). intros c Hc.
  assert (Hall : forallb (λ c, (Z.land (Z.lor c 0x80) 0x7f =? c) && negb (Z.land (Z.lor c 0x80) 0x80 =? 0) &&
    (Z.land c 0x7f =? c) && (Z.land c 0x80 =? 0)) (seqZ 0 128) = true) by (vm_compute; reflexivity).
  rewrite forallb_forall in Hall. specialize (Hall c ltac:(apply list_elem_of_In, elem_of_seqZ; lia)).
  rewrite !andb_true_iff, !Z.eqb_eq, negb_true_iff in Hall. destruct Hall as (((H1 & H2) & H3) & H4).
  destruct masked; cbn [negb]; [by rewrite H2|]. split; [done|]. by rewrite H4.
Qed.

Section Headers.
Context {N : Type} `{LawsN : NetLaws N}.
Context (close : sobj → IO N unit) (u n : Z) (Hbs : net_bytestream n = true).

(** Receiving exactly [bs] into an array of its own. *)
Lemma wp_recv_array {A} bs rest k d s (K : list Z → A) (fb : A) (Q : A → io N → Prop) :
  wf_io s → answers u dill_bsock_type n s → k = len bs → len bs < 2 ^ 64 → net_in (io_net s) n = bs ++ rest →
  (∀ s', stepped n rest (net_out (io_net s) n) s s' → Q (K bs) s') →
  (∀ i s', stepped n i (net_out (io_net s) n) s s' → net_infail (io_net s') n → Q fb s') →
  wp (with_buf k (λ p, rc ← dill_brecv close u p k d; if rc <? 0 then mret fb else x ← load p k; mret (K x))) Q s.
Proof.
  intros Hwf Ha -> Hl Hi H1 H2. assert (0 ≤ len bs) by (unfold len; lia).
  apply (wp_local n); [done|lia|]. rewrite Hi. intros s1 I1.
  apply wp_bind. eapply (wp_recv_inside close u n Hbs); [exact Ha|exact I1|unfold len; cbn; lia|lia|unfold len; cbn; lia| |].
  - intros b r s2 E L I2. symmetry in E. apply app_inj_1 in E as [-> ->]; [|unfold len in *; lia].
    change (0 <? 0) with false. cbv iota. rewrite app_nil_l in I2.
    apply wp_bind. eapply (wp_load_inside n _ _ _ _ _ _ _ 0); [exact I2|lia|lia|lia|lia|]. apply wp_ret.
    change (drop (Z.to_nat 0) bs) with bs. rewrite take_ge by (unfold len; lia). apply H1. by eapply inside_leave.
  - intros i s2 I2 F. change (-1 <? 0) with true. cbv iota. apply wp_ret. eapply H2; [by eapply inside_leave|exact F].
Qed.

Lemma wp_frame_length k masked rest d s (Q : option Z → io N → Prop) :
  wf_io s → answers u dill_bsock_type n s → 0 ≤ k < 2 ^ 64 → net_in (io_net s) n = length_ext k ++ rest →
  (∀ s', stepped n rest (net_out (io_net s) n) s s' → Q (Some k) s') →
  (∀ i s', stepped n i (net_out (io_net s) n) s s' → net_infail (io_net s') n → Q None s') →
  wp (frame_length close u (second_byte masked k) d) Q s.
Proof.
  intros Hwf Ha Hk Hi H1 H2. unfold frame_length. rewrite (proj1 (code_bits k Hk masked)).
  unfold length_code, length_ext in *. destruct (Z.ltb_spec 0xffff k).
  - change (127 =? 126) with false. change (127 =? 127) with true. cbv iota.
    apply (wp_recv_array (dill_putll k) rest 8 d s (λ bs, Some (dill_getll bs)) None); try done.
    assert (E : dill_getll (dill_putll k) = k).
    { rewrite <- (app_nil_r (dill_putll k)), dill_getll_putll. by apply Z.mod_small. }
    by rewrite E.
  - destruct (Z.ltb_spec 125 k).
    + change (126 =? 126) with true. cbv iota.
      apply (wp_recv_array (dill_puts k) rest 2 d s (λ bs, Some (dill_gets bs)) None); try done.
      assert (E : dill_gets (dill_puts k) = k).
      { rewrite <- (app_nil_r (dill_puts k)), dill_gets_puts. apply Z.mod_small. lia. }
      by rewrite E.
    + rewrite (proj2 (Z.eqb_neq k 126)), (proj2 (Z.eqb_neq k 127)) by lia. apply wp_ret, H1. by apply stepped_refl.
Qed.

Lemma wp_frame_mask (server : bool) mask rest d s (Q : option (option (list Z)) → io N → Prop) :
  wf_io s → answers u dill_bsock_type n s → len mask = 4 →
  net_in (io_net s) n = (if server then mask else []) ++ rest →
  (∀ s', stepped n rest (net_out (io_net s) n) s s' → Q (Some (if server then Some mask else None)) s') →
  (∀ i s', stepped n i (net_out (io_net s) n) s s' → net_infail (io_net s') n → Q None s') →
  wp (frame_mask close u server d) Q s.
Proof.
  intros Hwf Ha Hm Hi H1 H2. unfold frame_mask. destruct server.
  - apply (wp_recv_array mask rest 4 d s (λ bs, Some (Some bs)) None); try done. rewrite Hm. lia.
  - apply wp_ret, H1. by apply stepped_refl.
Qed.
End Headers.

(** * Frames *)

(** The payload a receiver makes of the bytes on the wire. *)
Definition unmasked (mask : option (list Z)) (pl : list Z) : list Z :=
  match mask with Some m => apply_mask m pl | None => pl end.

Lemma length_unmasked mask pl : len (unmasked mask pl) = len pl.
Proof. destruct mask; [|done]. cbn. unfold len. by rewrite apply_mask_from, length_mask. Qed.

Section Frames.
Context {N : Type} `{LawsN : NetLaws N}.
Context (close : sobj → IO N unit) (n : Z) (Hbs : net_bytestream n = true).

Lemma recvd_store p k inp out bs s s1 : 0 < p → len bs = k → allocated (io_mem s) (arr p k) →
  recvd n p k inp out s s1 → recvd n p k inp out s (set_io_mem (scatter (arr p k) bs (io_mem s1)) s1).
Proof.
  intros Hp Hl Hal [W K C D M I O]. assert (Hal1 : allocated (io_mem s1) (arr p k)).
  { intros x Hx. apply elem_of_dom. rewrite D. by apply elem_of_dom, Hal. }
  assert (Hd : dom (scatter (arr p k) bs (io_mem s1)) = dom (io_mem s1)) by (by apply scatter_dom).
  split; try done.
  - by apply (wf_same s1).
  - destruct C as (c & nx & m & nt & e & -> & Hn). by eexists c, nx, _, nt, e.
  - cbn. by rewrite Hd.
  - intros x Hx. cbn. rewrite <- M by done. apply scatter_ne. intros Hx'. apply elem_of_arr in Hx'; [done|unfold NULL; lia].
Qed.

(** The loop over the buffers, when the payload fits the first. *)
Lemma wp_frame_loop fuel u mask it pl rest d s (Q : option iolist → io N → Prop) :
  wf_io s → answers u dill_bsock_type n s → 0 < iol_base it → len pl ≤ iol_len it → len pl < 2 ^ 63 →
  allocated (io_mem s) (arr (iol_base it) (len pl)) → net_in (io_net s) n = pl ++ rest →
  (∀ s', recvd n (iol_base it) (len pl) rest (net_out (io_net s) n) s s' →
     gather (io_mem s') (arr (iol_base it) (len pl)) = Some (unmasked mask pl) → Q (Some it) s') →
  (∀ i s', recvd n (iol_base it) (len pl) i (net_out (io_net s) n) s s' → net_infail (io_net s') n → Q None s') →
  wp (frame_loop close (S fuel) u mask it (len pl) d) Q s.
Proof.
  intros Hwf Ha Hb Hl Hl2 Hal Hi H1 H2. assert (H0 : 0 ≤ len pl) by (unfold len; lia). cbn [frame_loop].
  rewrite Z.min_l by lia. assert (Hb0 : iol_base it ≠ NULL) by (unfold NULL; lia).
  destruct (Z.ltb_spec 0 (len pl)) as [Hpos|Hz].
  - apply wp_bind, wp_bind. apply (wp_recv_buffer close u n Hbs (iol_base it) (len pl) d pl rest); try done; try lia.
    intros s1 R1 G1. change (0 <? 0) with false. cbv iota.
    assert (Hend : ∀ s2, recvd n (iol_base it) (len pl) rest (net_out (io_net s) n) s s2 →
      gather (io_mem s2) (arr (iol_base it) (len pl)) = Some (unmasked mask pl) →
      wp (if negb true then mret None
          else if len pl - len pl =? 0 then mret (Some it)
          else if iol_next it =? NULL then set_errno EMSGSIZE;; mret None
          else it0 ← get_node (iol_next it); frame_loop close fuel u mask it0 (len pl - len pl) d) Q s2).
    { intros s2 R2 G2. cbn [negb]. rewrite Z.sub_diag. change (0 =? 0) with true. cbv iota. apply wp_ret. by apply H1. }
    destruct mask as [m|]; cbn [unmasked] in Hend.
    + apply wp_bind. unfold unmask. apply wp_bind, (wp_load _ _ pl); [rewrite load_arr by (done || lia); exact G1|].
      assert (Hlm : len (apply_mask m pl) = len pl) by (apply (length_unmasked (Some m))).
      eapply wp_store.
      { apply store_arr; [done| |exact Hlm]. intros x Hx. apply elem_of_dom. rewrite (rv_dom _ _ _ _ _ _ _ R1).
        by apply elem_of_dom, Hal. }
      apply wp_ret, Hend; [by apply recvd_store|].
      cbn [io_mem set_io_mem]. pose proof (length_arr (iol_base it) (len pl) H0).
      apply gather_scatter; [by apply arr_nodup|by apply arr_nodup|unfold len in *; lia].
    + apply wp_bind, wp_ret, wp_ret. by apply Hend.
  - assert (E : pl = []) by (destruct pl; [done|unfold len in Hz; cbn in Hz; lia]). subst pl.
    apply wp_bind, wp_ret. cbn [negb]. change (len [] - 0 =? 0) with true. cbv iota. apply wp_ret, H1.
    + apply recvd_stepped. by apply stepped_refl.
    + change (len []) with 0. rewrite arr_eq by done. by destruct mask.
Qed.

(** The header bits of a final text or binary frame. *)
Lemma first_byte type : type = 1 ∨ type = 2 →
  (Z.land (Z.lor 0x80 type) 0x70 =? 0) = true ∧ Z.land (Z.lor 0x80 type) 0x0f = type ∧ (Z.land (Z.lor 0x80 type) 0x80 =? 0) = false.
Proof. intros [-> | ->]; done. Qed.

Definition flags_of (type : Z) : Z := if type =? 1 then DILL_WS_TEXT else 0.

Lemma frame_opcode_data self im type flags it : type = 1 ∨ type = 2 →
  frame_opcode self im type flags (Some it) = (mret (Some (Some (flags_of type), Some it)) : IO N _).
Proof. intros [-> | ->]; done. Qed.

Lemma inside_outer_alloc a sz s0 pre i o s sl :
  inside n a sz s0 pre i o s → allocated (io_mem s0) sl → allocated (io_mem s) sl.
Proof.
  intros Hin Hal x Hx. pose proof (Hal x Hx) as Hsx. destruct (in_base _ _ _ _ _ _ _ _ Hin) as (_ & _ & B).
  rewrite (in_mem _ _ _ _ _ _ _ _ Hin); [done|]. specialize (B x Hsx). lia.
Qed.

(** What a frame leaves: the payload in the buffer, or a failure of the network. *)
Lemma wp_recv_frame self x it type mask bs rest d s (Q : option (option Z * option iolist * Z * bool) → io N → Prop) :
  wf_io s → io_wss s !! self = Some x → answers (ws_u x) dill_bsock_type n s → type = 1 ∨ type = 2 → len mask = 4 →
  0 < iol_base it → len bs ≤ iol_len it → len bs < 2 ^ 63 → allocated (io_mem s) (arr (iol_base it) (len bs)) →
  net_in (io_net s) n = frame (negb (ws_server x)) mask type bs ++ rest →
  (∀ s', recvd n (iol_base it) (len bs) rest (net_out (io_net s) n) s s' →
     gather (io_mem s') (arr (iol_base it) (len bs)) = Some bs → Q (Some (Some (flags_of type), Some it, len bs, true)) s') →
  (∀ i s', recvd n (iol_base it) (len bs) i (net_out (io_net s) n) s s' → net_infail (io_net s') n → Q None s') →
  wp (recv_frame close self None (Some it) 0 d) Q s.
Proof.
  intros Hwf Hx Ha Hty Hm Hb Hl Hl2 Hal Hi H1 H2. assert (H0 : 0 ≤ len bs) by (unfold len; lia).
  destruct (first_byte type Hty) as (B1 & B2 & B3). destruct (code_bits (len bs) ltac:(lia) (ws_server x)) as [_ B4].
  rewrite frame_split, negb_involutive, <- !app_assoc in Hi by done.
  unfold recv_frame. apply wp_bind. unfold wp at 1, get_ws. rewrite Hx. cbn [mbind option_bind].
  apply wp_with_iol. fold (enter_iol (mk_iolist NULL 0 NULL 0) s). set (s0 := enter_iol _ s). set (im := io_next s).
  assert (Hwf0 : wf_io s0) by (apply wf_enter_iol; [done|cbn; unfold NULL; lia|cbn; lia]).
  assert (Hend1 : ∀ i s', recvd n (iol_base it) (len bs) i (net_out (io_net s) n) s0 s' → net_infail (io_net s') n → Q None (leave_iol im s')).
  { intros i s' R F. eapply H2; [|exact F]. by apply (recvd_iol n _ _ _ _ (mk_iolist NULL 0 NULL 0)). }
  assert (Hbuf : ∀ y, iol_base it ≤ y < iol_base it + len bs → y < io_next s).
  { intros y Hy. apply (wi_mem _ Hwf), Hal, elem_of_arr; [unfold NULL; lia|done]. }
  assert (Ha0 : answers (ws_u x) dill_bsock_type n s0) by exact Ha.
  set (pl := if ws_server x then apply_mask mask bs else bs).
  assert (Ei : (if negb (ws_server x) then bs else mask ++ apply_mask mask bs) ++ rest =
    (if ws_server x then mask else []) ++ pl ++ rest) by (unfold pl; destruct (ws_server x); cbn [negb]; by rewrite <- ?app_assoc).
  assert (Hpl : len pl = len bs ∧ unmasked (if ws_server x then Some mask else None) pl = bs).
  { unfold pl. destruct (ws_server x); [|done]. cbn [unmasked]. rewrite !apply_mask_from, mask_twice. unfold len. by rewrite length_mask. }
  destruct Hpl as [Lpl Upl]. rewrite Ei in Hi.
  apply (wp_local n); [done|lia|]. change (io_next s0) with (im + 1). change (io_net s0) with (io_net s). rewrite Hi. intros s1 I1.
  apply wp_bind. eapply (wp_recv_inside close (ws_u x) n Hbs); [exact Ha0|exact I1|unfold len; cbn; lia|lia|unfold len; cbn; lia| |].
  2: { intros i s2 I2 F. change (-1 <? 0) with true. cbv iota. apply wp_ret. eapply Hend1; [|exact F]. eapply recvd_stepped. by eapply inside_leave. }
  intros h r s2 E L I2. apply app_inj_1 in E as [<- <-]; [|unfold len in L; cbn in *; lia].
  change (0 <? 0) with false. cbv iota.
  apply wp_bind. eapply (wp_load_inside n _ _ _ _ _ _ _ 0); [exact I2|lia|lia|lia|unfold len; cbn; lia|]. cbn [nth].
  change (take (Z.to_nat 2) (drop (Z.to_nat 0) _)) with [Z.lor 0x80 type; second_byte (ws_server x) (len bs)].
  cbn [nth]. rewrite B1, B2, B3. cbn [negb].
  apply wp_bind. rewrite frame_opcode_data by done. apply wp_ret. rewrite B4, xorb_nilpotent.
  pose proof (in_keeps _ _ _ _ _ _ _ _ I2 _ _ _ Ha0) as Ha2.
  apply wp_bind. eapply (wp_frame_length close (ws_u x) n Hbs (len bs) (ws_server x)); [apply I2|exact Ha2|lia|apply I2| |];
    rewrite (in_out _ _ _ _ _ _ _ _ I2).
  2: { intros i s3 S3 F. apply wp_ret. eapply Hend1; [|exact F]. eapply recvd_stepped. eapply inside_leave, inside_step; [exact I2|exact S3]. }
  intros s3 S3. rewrite Z.add_0_l. assert (H8 : (8 <=? type) = false) by (destruct Hty as [-> | ->]; done). rewrite H8. cbn [andb].
  pose proof (inside_step _ _ _ _ _ _ _ _ _ _ _ I2 S3) as I3. pose proof (in_keeps _ _ _ _ _ _ _ _ I3 _ _ _ Ha0) as Ha3.
  apply wp_bind. eapply (wp_frame_mask close (ws_u x) n Hbs (ws_server x) mask); [apply I3|exact Ha3|done|apply I3| |];
    rewrite (in_out _ _ _ _ _ _ _ _ I3).
  2: { intros i s4 S4 F. apply wp_ret. eapply Hend1; [|exact F]. eapply recvd_stepped. eapply inside_leave, inside_step; [exact I3|exact S4]. }
  intros s4 S4. pose proof (inside_step _ _ _ _ _ _ _ _ _ _ _ I3 S4) as I4. pose proof (in_keeps _ _ _ _ _ _ _ _ I4 _ _ _ Ha0) as Ha4.
  apply wp_bind, wp_ret, wp_bind, wp_gets. apply wp_bind. rewrite <- Lpl.
  eapply wp_frame_loop; [apply I4|exact Ha4|done|lia|lia| |apply I4| |]; rewrite ?Lpl, ?Upl, ?(in_out _ _ _ _ _ _ _ _ I4).
  - eapply inside_outer_alloc; [exact I4|done].
  - intros s5 R5 G5. apply wp_ret.
    assert (Hu : u64 (len bs) = len bs) by (apply Z.mod_small; lia). rewrite Hu. apply H1.
    + apply (recvd_iol n _ _ _ _ (mk_iolist NULL 0 NULL 0)); [done|]. eapply recvd_leave; [exact I4|exact R5].
    + change (io_mem (leave_iol im (leave (im + 1) 2 s5))) with (io_mem (leave (im + 1) 2 s5)).
      apply leave_gather; [done|]. intros y Hy. apply elem_of_arr in Hy; [|unfold NULL; lia]. specialize (Hbuf y Hy).
      unfold im. lia.
  - intros i s5 R5 F. apply wp_ret. eapply Hend1; [|exact F]. eapply recvd_leave; [exact I4|exact R5].
Qed.
End Frames.

(** The outcome of receiving: the payload, its size and its kind; or receiving from the
    underlying socket failed, after which only the buffer may have changed. *)
Definition ws_received {N} `{LawsN : NetLaws N} (n buf type : Z) (bs rest : list Z) (s : io N) (r : Z * option Z) (s' : io N) : Prop :=
  let out := net_out (io_net s) n in
  (r = (len bs, Some (flags_of type)) ∧ recvd n buf (len bs) rest out s s' ∧
   gather (io_mem s') (arr buf (len bs)) = Some bs) ∨
  (r = (-1, None) ∧ net_infail (io_net s') n ∧ ∃ i, recvd n buf (len bs) i out s s').

Section Receive.
Context {N : Type} `{LawsN : NetLaws N}.
Context (close : sobj → IO N unit) (le : bool).

(** Receiving a frame into one buffer *)
Lemma wp_ws_recv fuel self p buf blen type mask bs rest d s x n (Q : Z * option Z → io N → Prop) :
  wf_io s → closed (io_nodes s) → io_wss s !! self = Some x → ws_indone x = false →
  answers (ws_u x) dill_bsock_type n s → net_bytestream n = true →
  p ≠ NULL → io_nodes s !! p = Some (mk_iolist buf blen NULL 0) →
  0 < buf → len bs ≤ blen < 2 ^ 64 → len bs < 2 ^ 63 → allocated (io_mem s) (arr buf (len bs)) →
  type = 1 ∨ type = 2 → len mask = 4 →
  net_in (io_net s) n = frame (negb (ws_server x)) mask type bs ++ rest →
  (∀ r s', ws_received n buf type bs rest s r s' → Q r s') →
  wp (dill_ws_recvl_base close le (S fuel) self p p d) Q s.
Proof.
  intros Hwf Hc Hx Hid Ha Hn Hp Hnode Hb Hl Hl2 Hal Hty Hm Hi HQ. unfold dill_ws_recvl_base.
  apply wp_bind. unfold wp at 1, get_ws at 1. rewrite Hx. cbn [mbind option_bind]. rewrite Hid.
  assert (Hv : valid (io_nodes s) p p [p]) by (rewrite <- (insert_id _ _ _ Hnode); by apply single_valid).
  apply wp_bind, (wp_iolcheck p p [p]); [done|done|done|]. rewrite (proj2 (Z.eqb_neq _ _) Hp).
  apply wp_bind, wp_bind, (wp_get_node _ _ _ _ Hnode), wp_ret. apply wp_bind. cbn [recv_frames]. apply wp_bind.
  apply (wp_recv_frame close n Hn self x (mk_iolist buf blen NULL 0) type mask bs rest d s); try done; [cbn; lia| |].
  - intros s1 R1 G1. apply wp_ret.
    assert (Hx1 : io_wss s1 !! self = Some x).
    { destruct (rv_calm _ _ _ _ _ _ _ R1) as (c & nx & m & nt & e & -> & _). exact Hx. }
    apply wp_bind. unfold wp at 1, get_ws. rewrite Hx1. cbn [mbind option_bind]. rewrite Hid.
    apply wp_ret, HQ. left. rewrite s64_small by (unfold len in *; lia). done.
  - intros i s1 R1 F. apply wp_ret, wp_ret, HQ. right. split; [done|]. split; [done|by exists i].
Qed.
(** C36. What one side sends the other receives: from input that starts with a frame as
    [ws_sends_frame] describes it, a text or binary frame of the other side, a client or
    server whose input is not done and whose buffer has room for the payload gets
    exactly the payload, unmasked on the server, its size and its kind; the rest of the
    input stays.  Unless receiving from the underlying socket failed (its data ended, an
    error, a deadline): only then the result is -1.  Nothing but the first bytes of the buffer
    changes, and the lengths are read back for all three forms of the length field.  The
    list has one buffer, and the frame is not a fragment. *)
Theorem ws_receives_frame fuel self p buf blen type mask bs rest d s x n :
  wf_io s → closed (io_nodes s) → io_wss s !! self = Some x → ws_indone x = false →
  answers (ws_u x) dill_bsock_type n s → net_bytestream n = true →
  p ≠ NULL → io_nodes s !! p = Some (mk_iolist buf blen NULL 0) →
  0 < buf → len bs ≤ blen < 2 ^ 64 → len bs < 2 ^ 63 → allocated (io_mem s) (arr buf (len bs)) →
  type = 1 ∨ type = 2 → len mask = 4 →
  net_in (io_net s) n = frame (negb (ws_server x)) mask type bs ++ rest →
  wp (dill_ws_recvl_base close le (S fuel) self p p d) (ws_received n buf type bs rest s) s.
Proof. intros. by eapply wp_ws_recv. Qed.
End Receive.

(** * Examples *)

Definition demo_ws (server : bool) : dill_ws_sock := mk_ws 0 DILL_WS_TEXT false false server true 0.
Definition ws_nodes : list (Z * iolist) := [(10, mk_iolist 1000 2 11 0); (11, mk_iolist 1010 3 NULL 0)].

Definition demo_ws_io (server : bool) (nodes : list (Z * iolist)) (ins : list Z) : io loop :=
  set_io_wss {[60 := demo_ws server]} (demo_io [ONet 5; OWs 60] nodes [(5, ins)]).

Lemma demo_ws_answers server nodes ins : answers 0 dill_bsock_type 5 (demo_ws_io server nodes ins).
Proof. apply (demo_answers [ONet 5; OWs 60]); [reflexivity| |done]. vm_compute. reflexivity. Qed.

Lemma demo_random : random_ok (N := loop).
Proof.
  intros k s Hk. exists (Some (repeat 7 (Z.to_nat k))), (io_net s), (io_errno s). split; [by destruct s|]. split; [done|].
  intros bs [= <-]. unfold len. rewrite repeat_length. lia.
Qed.

Lemma demo_ws_wf server ins : wf_io (demo_ws_io server ws_nodes ins).
Proof. apply wf_io_b_sound. vm_compute. reflexivity. Qed.

Lemma demo_ws_closed : closed (list_to_map ws_nodes).
Proof.
  split; [done|]. intros p f Hf. apply elem_of_list_to_map_2 in Hf. apply elem_of_cons in Hf as [[= -> ->]|Hf].
  - right. by eexists.
  - apply list_elem_of_singleton in Hf as [= -> ->]. by left.
Qed.

(** A client sends five zeros from two buffers. *)
Lemma ws_sends_frame_witness :
  wp (dill_ws_sendl_base demo_close_io 60 1 10 11 (-1)) (ws_sent 5 false 1 [0; 0; 0; 0; 0] (demo_ws_io false ws_nodes []))
    (demo_ws_io false ws_nodes []) ∧
  (λ r, out_of (io_net r.2) 5) <$> dill_ws_sendl_base demo_close_io 60 1 10 11 (-1) (demo_ws_io false ws_nodes []) =
    Some [129; 133; 7; 7; 7; 7; 7; 7; 7; 7; 7].
Proof.
  split; [|vm_compute; reflexivity].
  apply (ws_sends_frame demo_close_io 60 1 10 11 (-1) (demo_ws_io false ws_nodes []) (demo_ws false) [10; 11] [0; 0; 0; 0; 0] 5).
  - apply demo_ws_wf.
  - reflexivity.
  - reflexivity.
  - apply demo_ws_answers.
  - reflexivity.
  - apply demo_random.
  - apply demo_ws_closed.
  - apply demo_list.
  - done.
  - apply demo_list_sized.
  - vm_compute. reflexivity.
  - by vm_compute.
  - right. by vm_compute.
Defined.

(** A server receives the masked text ["hi"]. *)
Definition demo_frame : list Z := frame false [1; 2; 3; 4] 1 [104; 105] ++ [9].
Definition demo_buffer : list (Z * iolist) := [(10, mk_iolist 1000 16 NULL 0)].

Lemma ws_receives_frame_witness :
  wp (dill_ws_recvl_base demo_close_io true 1 60 10 10 (-1))
    (ws_received 5 1000 1 [104; 105] [9] (demo_ws_io true demo_buffer demo_frame)) (demo_ws_io true demo_buffer demo_frame) ∧
  fst <$> dill_ws_recvl_base demo_close_io true 1 60 10 10 (-1) (demo_ws_io true demo_buffer demo_frame) = Some (2, Some 1).
Proof.
  split; [|vm_compute; reflexivity].
  apply (ws_receives_frame demo_close_io true 0 60 10 1000 16 1 [1; 2; 3; 4] [104; 105] [9] (-1)
    (demo_ws_io true demo_buffer demo_frame) (demo_ws true) 5).
  - apply wf_io_b_sound. vm_compute. reflexivity.
  - split; [done|]. intros p f Hf. apply elem_of_list_to_map_2, list_elem_of_singleton in Hf as [= -> ->]. by left.
  - reflexivity.
  - reflexivity.
  - apply demo_ws_answers.
  - reflexivity.
  - done.
  - reflexivity.
  - done.
  - by vm_compute.
  - by vm_compute.
  - by apply demo_room.
  - by left.
  - reflexivity.
  - vm_compute. reflexivity.
Defined.

(** The mask starts anew at each buffer: a server with the same text in two buffers of
    one byte gets its second byte wrong. *)
Lemma ws_mask_restarts :
  let s := demo_ws_io true [(10, mk_iolist 1000 1 11 0); (11, mk_iolist 1010 1 NULL 0)] demo_frame in
  (λ r, (r.1, io_mem r.2 !! 1000, io_mem r.2 !! 1010)) <$> dill_ws_recvl_base demo_close_io true 1 60 10 11 (-1) s =
    Some ((2, Some 1), Some 104, Some (Z.lxor (Z.lxor 105 2) 1)).
Proof. vm_compute. reflexivity. Qed.

(** The header of a client with a longer payload does not fit the array of 12 bytes. *)
Lemma ws_header_overflow type k mask : 65535 < k → len mask = 4 → len (masked_header (frame_header type k) mask) = 14.
Proof. intros Hk Hm. rewrite length_masked_header, length_frame_header, (proj2 (Z.ltb_lt 0xffff k)), Hm by lia. done. Qed.
