(* ===== verification/Wsattach.v ===== *)
(** The opening handshake of WebSocket ([ws.c]): the functions that attach a client or a
    server to a bytestream, over HTTP unless [DILL_WS_NOHTTP] is given. *)

From Stdlib Require Import ZArith Lia Ascii String.
From stdpp Require Import base gmap list.
From S2P Require Import Prelude Bytes Sha1 Handle Iol Sock Loop Prefix Suffix Term Http Ws.
Open Scope Z_scope.

(** [strcasecmp(a, b) == 0] *)
Definition tolower (c : Z) : Z := if (65 <=? c) && (c <=? 90) then c + 32 else c.
Definition strcaseeq (a b : list Z) : bool := bool_decide (map tolower a = map tolower b).

(** The flags [has_...]; the client uses the first three. *)
Record seen := mk_seen {
  has_upgrade : bool;
  has_connection : bool;
  has_key : bool;
  has_version : bool;
  has_host : bool;
}.
Definition none_seen : seen := mk_seen false false false false false.

Section Attach.
Context {N : Type} `{NetN : Net N}.
Context (close : sobj → IO N unit) (proto : msock_vfs N) (le : bool).

(** [rc = m; if(rc < 0) {err = errno; goto error;}] *)
Definition tried (s : Z) (m : IO N Z) (k : Z → IO N Z) : IO N Z :=
  rc ← m;
  if rc <? 0 then attach_errno close s else k rc.

(** A string literal as an argument. *)
Definition with_lit {A} (l : string) (k : ptr → IO N A) : IO N A := with_bytes (lit l ++ [0]) k.

Definition send_field (s : Z) (name value : string) (deadline : Z) : IO N Z :=
  with_lit name (λ n, with_lit value (λ v, dill_http_sendfield close proto s n v deadline)).

(** What the client does with the field [name], whose value is the string at [value]. *)
Definition client_field (request_key value : ptr) (name v : list Z) (f : seen) : IO N (seen + errno_t) :=
  if strcaseeq name (lit "Upgrade") then
    if has_upgrade f || negb (strcaseeq v (lit "websocket")) then mret (inr EPROTO)
    else mret (inl (mk_seen true (has_connection f) (has_key f) (has_version f) (has_host f)))
  else if strcaseeq name (lit "Connection") then
    if has_connection f || negb (strcaseeq v (lit "Upgrade")) then mret (inr EPROTO)
    else mret (inl (mk_seen (has_upgrade f) true (has_key f) (has_version f) (has_host f)))
  else if strcaseeq name (lit "Sec-WebSocket-Accept") then
    if has_key f then mret (inr EPROTO)
    else
      with_buf WS_KEY_SIZE (λ response_key,
        rc ← dill_ws_response_key le request_key response_key;
        if rc <? 0 then err ← get_errno; mret (inr err)
        else
          r ← cstring response_key;
          if negb (bool_decide (v = r)) then mret (inr EPROTO)
          else mret (inl (mk_seen (has_upgrade f) (has_connection f) true (has_version f) (has_host f))))
  else mret (inl f).

(** And the server. *)
Definition server_field (response_key host : ptr) (hostlen : Z) (value : ptr) (name v : list Z) (f : seen)
    : IO N (seen + errno_t) :=
  if strcaseeq name (lit "Host") then
    if has_host f then mret (inr EPROTO)
    else if hostlen <=? len v then mret (inr EMSGSIZE)
    else
      store host (v ++ [0]);;
      mret (inl (mk_seen (has_upgrade f) (has_connection f) (has_key f) (has_version f) true))
  else if strcaseeq name (lit "Upgrade") then
    if has_upgrade f || negb (strcaseeq v (lit "websocket")) then mret (inr EPROTO)
    else mret (inl (mk_seen true (has_connection f) (has_key f) (has_version f) (has_host f)))
  else if strcaseeq name (lit "Connection") then
    if has_connection f || negb (strcaseeq v (lit "Upgrade")) then mret (inr EPROTO)
    else mret (inl (mk_seen (has_upgrade f) true (has_key f) (has_version f) (has_host f)))
  else if strcaseeq name (lit "Sec-WebSocket-Key") then
    if has_key f then mret (inr EPROTO)
    else
      rc ← dill_ws_response_key le value response_key;
      if rc <? 0 then err ← get_errno; mret (inr err)
      else mret (inl (mk_seen (has_upgrade f) (has_connection f) true (has_version f) (has_host f)))
  else if strcaseeq name (lit "Sec-WebSocket-Version") then
    if has_version f || negb (strcaseeq v (lit "13")) then mret (inr EPROTO)
    else mret (inl (mk_seen (has_upgrade f) (has_connection f) (has_key f) true (has_host f)))
  else mret (inl f).

(** [while(1)] over the fields, up to [fuel] of them: what was seen at the end of the
    header, or the error. *)
Fixpoint recv_fields (fuel : nat) (on_field : ptr → list Z → list Z → seen → IO N (seen + errno_t))
    (s : Z) (f : seen) (deadline : Z) : IO N (seen + errno_t) :=
  match fuel with
  | O => crash
  | S fuel =>
    r ← with_buf 256 (λ name, with_buf 256 (λ value,
      rc ← dill_http_recvfield close proto s name 256 value 256 deadline;
      if rc <? 0 then
        err ← get_errno;
        mret (if bool_decide (err = EPIPE) then inl (true, f) else inr err)
      else
        n ← cstring name;
        v ← cstring value;
        r ← on_field value n v f;
        mret (match r with inl f => inl (false, f) | inr e => inr e end)));
    match r with
    | inr e => mret (inr e)
    | inl (true, f) => mret (inl f)
    | inl (false, f) => recv_fields fuel on_field s f deadline
    end
  end.

(** The end of both functions: back to the bytestream, under the new object. *)
Definition finish (fuel : nat) (self : ptr) (s : Z) (error : Z → errno_t → IO N Z) (deadline : Z) : IO N Z :=
  s ← dill_http_detach close proto fuel s deadline;
  if s <? 0 then err ← get_errno; error s err
  else
    upd_ws self (with_u s);;
    h ← hmake close (OWs self);
    if h <? 0 then err ← get_errno; error s err else mret h.

Definition dill_ws_attach_client_mem (fuel : nat) (s flags : Z) (resource host : ptr) (mem : option ptr)
    (deadline : Z) : IO N Z :=
  match mem with
  | None => attach_error close s EINVAL
  | Some self =>
    q ← hquery close s dill_bsock_type;
    if q =? NULL then attach_errno close s
    else
      s ← hown close s;
      if s <? 0 then attach_errno close s
      else
        put_ws self (mk_ws s flags false false false true 0);;
        store_status le self 0;;
        if negb (Z.land flags DILL_WS_NOHTTP =? 0) then
          h ← hmake close (OWs self);
          if h <? 0 then attach_errno close s else mret h
        else if (resource =? NULL) || (host =? NULL) then attach_error close s EINVAL
        else
          with_buf SIZEOF_HTTP (λ http_mem,
          s ← dill_http_attach_mem close s (Some http_mem);
          if s <? 0 then attach_errno close s
          else
            tried s (with_lit "GET" (λ get, dill_http_sendrequest close proto s get resource deadline)) (λ _,
            tried s (with_lit "Host" (λ n, dill_http_sendfield close proto s n host deadline)) (λ _,
            tried s (send_field s "Upgrade" "websocket" deadline) (λ _,
            tried s (send_field s "Connection" "Upgrade" deadline) (λ _,
            with_buf WS_KEY_SIZE (λ request_key,
            tried s (dill_ws_request_key request_key) (λ _,
            tried s (with_lit "Sec-WebSocket-Key" (λ n, dill_http_sendfield close proto s n request_key deadline)) (λ _,
            tried s (send_field s "Sec-WebSocket-Version" "13" deadline) (λ _,
            tried s (dill_http_done close proto s deadline) (λ _,
            with_buf 256 (λ reason,
            tried s (dill_http_recvstatus close proto s reason 256 deadline) (λ rc,
            (** here the handle is not closed *)
            if negb (rc =? 101) then fail EPROTO
            else
              r ← recv_fields fuel (client_field request_key) s none_seen deadline;
              match r with
              | inr err => attach_error close s err
              | inl f =>
                if negb (has_upgrade f) || negb (has_connection f) || negb (has_key f)
                then attach_error close s EPROTO
                else finish fuel self s (attach_error close) deadline
              end)))))))))))
          )
  end.

Definition dill_ws_attach_client (fuel : nat) (s flags : Z) (resource host : ptr) (deadline : Z) : IO N Z :=
  o ← malloc SIZEOF_WS;
  match o with
  | None => attach_error close s ENOMEM
  | Some obj =>
    s ← dill_ws_attach_client_mem fuel s flags resource host (Some obj) deadline;
    if s <? 0 then
      err ← get_errno;
      free_ws obj;;
      attach_error close s err
    else
      upd_ws obj (λ x, mk_ws (ws_u x) (ws_flags x) (ws_indone x) (ws_outdone x) (ws_server x) false (ws_msglen x));;
      mret s
  end.

(** The label [error] of the server: the close must succeed. *)
Definition server_error (s : Z) (err : errno_t) : IO N Z :=
  (if 0 <=? s then rc ← hclose close s; assert_ (rc =? 0) else mret tt);;
  set_errno err;;
  mret (-1).
Definition server_tried (s : Z) (m : IO N Z) (k : Z → IO N Z) : IO N Z :=
  rc ← m;
  if rc <? 0 then err ← get_errno; server_error s err else k rc.

Definition dill_ws_attach_server_mem (fuel : nat) (s flags : Z) (resource : ptr) (resourcelen : Z)
    (host : ptr) (hostlen : Z) (mem : option ptr) (deadline : Z) : IO N Z :=
  match mem with
  | None => server_error s EINVAL
  | Some self =>
    q ← hquery close s dill_bsock_type;
    if q =? NULL then err ← get_errno; server_error s err
    else
      s ← hown close s;
      if s <? 0 then err ← get_errno; server_error s err
      else
        put_ws self (mk_ws s flags false false true true 0);;
        store_status le self 0;;
        if negb (Z.land flags DILL_WS_NOHTTP =? 0) then
          server_tried s (hmake close (OWs self)) (λ h, mret h)
        else
          with_buf SIZEOF_HTTP (λ http_mem,
          s ← dill_http_attach_mem close s (Some http_mem);
          if s <? 0 then err ← get_errno; server_error s err
          else
            with_buf 32 (λ command,
            server_tried s (dill_http_recvrequest close proto s command 32 resource resourcelen deadline) (λ _,
            c ← cstring command;
            if negb (bool_decide (c = lit "GET")) then server_error s EPROTO
            else
              with_buf WS_KEY_SIZE (λ response_key,
              r ← recv_fields fuel (server_field response_key host hostlen) s none_seen deadline;
              match r with
              | inr err => server_error s err
              | inl f =>
                if negb (has_upgrade f) || negb (has_connection f) || negb (has_key f) || negb (has_version f)
                then server_error s EPROTO
                else
                  server_tried s (with_lit "Switching Protocols" (λ r, dill_http_sendstatus close proto s 101 r deadline)) (λ _,
                  server_tried s (send_field s "Upgrade" "websocket" deadline) (λ _,
                  server_tried s (send_field s "Connection" "Upgrade" deadline) (λ _,
                  server_tried s (with_lit "Sec-WebSocket-Accept"
                    (λ n, dill_http_sendfield close proto s n response_key deadline)) (λ _,
                  finish fuel self s server_error deadline))))
              end))))
  end.

Definition dill_ws_attach_server (fuel : nat) (s flags : Z) (resource : ptr) (resourcelen : Z)
    (host : ptr) (hostlen : Z) (deadline : Z) : IO N Z :=
  o ← malloc SIZEOF_WS;
  match o with
  | None => attach_error close s ENOMEM
  | Some obj =>
    s ← dill_ws_attach_server_mem fuel s flags resource resourcelen host hostlen (Some obj) deadline;
    if s <? 0 then
      err ← get_errno;
      free_ws obj;;
      attach_error close s err
    else
      upd_ws obj (λ x, mk_ws (ws_u x) (ws_flags x) (ws_indone x) (ws_outdone x) (ws_server x) false (ws_msglen x));;
      mret s
  end.
End Attach.
