(* ===== verification/Ipaddr.v ===== *)
(** IP addresses ([ipaddr.c]): an address is 32 bytes of memory that hold a
    [struct sockaddr_in] or [struct sockaddr_in6] in the layout of Linux. *)

From Stdlib Require Import ZArith Lia.
From stdpp Require Import base gmap list.
From S2P Require Import Prelude Bytes Handle Iol Sock Loop Prefix Suffix Term Http.
Open Scope Z_scope.

Definition AF_INET : Z := 2.
Definition AF_INET6 : Z := 10.
Definition DILL_IPADDR_IPV4 : Z := 1.
Definition DILL_IPADDR_IPV6 : Z := 2.
Definition DILL_IPADDR_PREF_IPV4 : Z := 3.
Definition DILL_IPADDR_PREF_IPV6 : Z := 4.
Definition SIZEOF_IPADDR : Z := 32.
Definition ENODEV : errno_t := EOTHER 19.
Definition ENOENT : errno_t := EOTHER 2.
Definition ENFILE : errno_t := EOTHER 23.
Definition EMFILE : errno_t := EOTHER 24.
Definition ENOSPC : errno_t := EOTHER 28.

(** [sin_port] and [sin6_port], [sin_addr], [sin6_addr] *)
Definition sa_port (p : ptr) : ptr := p + 2.
Definition sin_addr (p : ptr) : ptr := p + 4.
Definition sin6_addr (p : ptr) : ptr := p + 8.
Definition SIZEOF_SIN : Z := 16.
Definition SIZEOF_SIN6 : Z := 28.

(** A network interface of [getifaddrs]: its name and, if it has one, the family and
    the bytes of its address. *)
Record iface := mk_iface { ifa_name : list Z; ifa_addr : option (Z * list Z) }.

(** What [dns_ai_nextent] returns: [EAGAIN]; an entry, with its family and address; the
    end of the results, [ENOENT] or an error of the resolver ([DNS_EBASE] to [DNS_ELAST]);
    another error, with a null entry, which the caller uses all the same if it has room for
    more addresses. *)
Inductive ai_event := AiAgain | AiEntry (fam : Z) (addr : list Z) | AiEnd | AiError.

(** libc and the resolver: [inet_pton] for a text that is an address, [inet_ntop]
    without the bound of the buffer; the interfaces; the block that loads the
    configuration of the resolver unless it has been loaded, false for [ENOENT] and a crash
    when one of its assertions fails; [dns_res_open]; the queries ([dns_ai_open], [dns_ai_nextent]); waiting for the
    resolver's file descriptor. *)
Class Resolver (N : Type) := {
  inet_pton : Z → list Z → option (list Z);
  inet_ntop : Z → list Z → list Z;
  getifaddrs : IO N (list iface);
  dns_config : IO N bool;
  dns_res_open : IO N bool;
  dns_ai_open : list Z → Z → bool → IO N unit;
  dns_ai_nextent : IO N ai_event;
  dns_ai_wait : Z → IO N Z;
}.

Section Ipaddr.
Context {N : Type} `{ResolverN : Resolver N}.
(** The endianness of the machine. *)
Context (le : bool).

(** [sa_family], a [uint16_t] *)
Definition family_bytes (f : Z) : list Z := if le then rev (dill_puts f) else dill_puts f.
Definition family_of (bs : list Z) : Z := dill_gets (if le then rev bs else bs).

Definition dill_ipaddr_family (addr : ptr) : IO N Z := bs ← load addr 2; mret (family_of bs).

Definition dill_ipaddr_len (addr : ptr) : IO N Z :=
  f ← dill_ipaddr_family addr; mret (if f =? AF_INET then SIZEOF_SIN else SIZEOF_SIN6).

(** The port is at the same place in both kinds of address. *)
Definition dill_ipaddr_port (addr : ptr) : IO N Z := bs ← load (sa_port addr) 2; mret (dill_gets bs).

Definition dill_ipaddr_setport (addr : ptr) (port : Z) : IO N unit :=
  f ← dill_ipaddr_family addr; store (sa_port addr) (dill_puts (u16 port)).

(** [inet_ntop] into a buffer of [size] bytes: [dst], or [NULL] when it does not fit. *)
Definition ntop (fam : Z) (src : list Z) (dst : ptr) (size : Z) : IO N ptr :=
  let s := inet_ntop fam src in
  if size <=? len s then set_errno ENOSPC;; mret NULL
  else store dst (s ++ [0]);; mret dst.

Definition dill_ipaddr_str (addr ipstr : ptr) : IO N ptr :=
  f ← dill_ipaddr_family addr;
  if f =? AF_INET then bs ← load (sin_addr addr) 4; ntop AF_INET bs ipstr 16
  else bs ← load (sin6_addr addr) 16; ntop AF_INET6 bs ipstr 46.

Definition dill_ipaddr_ipany (addr : ptr) (port mode : Z) : IO N Z :=
  if (port <? 0) || (0xffff <? port) then fail EINVAL
  else if (mode =? 0) || (mode =? DILL_IPADDR_IPV4) || (mode =? DILL_IPADDR_PREF_IPV4) then
    store addr (family_bytes AF_INET);;
    store (sin_addr addr) (repeat 0 4);;
    store (sa_port addr) (dill_puts (u16 port));;
    mret 0
  else
    store addr (family_bytes AF_INET6);;
    store (sin6_addr addr) (repeat 0 16);;
    store (sa_port addr) (dill_puts (u16 port));;
    mret 0.

Definition dill_ipaddr_ipv4_literal (addr name : ptr) (port : Z) : IO N Z :=
  s ← cstring name;
  match inet_pton AF_INET s with
  | None => fail EINVAL
  | Some bs =>
    store (sin_addr addr) bs;;
    store addr (family_bytes AF_INET);;
    store (sa_port addr) (dill_puts (u16 port));;
    mret 0
  end.

Definition dill_ipaddr_ipv6_literal (addr name : ptr) (port : Z) : IO N Z :=
  s ← cstring name;
  match inet_pton AF_INET6 s with
  | None => fail EINVAL
  | Some bs =>
    store (sin6_addr addr) bs;;
    store addr (family_bytes AF_INET6);;
    store (sa_port addr) (dill_puts (u16 port));;
    mret 0
  end.

Definition dill_ipaddr_literal (addr name : ptr) (port mode : Z) : IO N Z :=
  if (addr =? NULL) || (port <? 0) || (0xffff <? port) then fail EINVAL
  else if mode =? DILL_IPADDR_IPV4 then dill_ipaddr_ipv4_literal addr name port
  else if mode =? DILL_IPADDR_IPV6 then dill_ipaddr_ipv6_literal addr name port
  else if (mode =? 0) || (mode =? DILL_IPADDR_PREF_IPV4) then
    rc ← dill_ipaddr_ipv4_literal addr name port;
    if rc =? 0 then mret 0 else dill_ipaddr_ipv6_literal addr name port
  else if mode =? DILL_IPADDR_PREF_IPV6 then
    rc ← dill_ipaddr_ipv6_literal addr name port;
    if rc =? 0 then mret 0 else dill_ipaddr_ipv4_literal addr name port
  else crash.

(** The first IPv4 and the first IPv6 address of the interface; [None] for an interface
    with two of a family before one of the other, which fails an assertion. *)
Fixpoint find_iface (name : list Z) (ipv4 ipv6 : option (list Z)) (l : list iface)
    : option (option (list Z) * option (list Z)) :=
  match l with
  | [] => Some (ipv4, ipv6)
  | it :: l =>
    match ifa_addr it with
    | None => find_iface name ipv4 ipv6 l
    | Some (fam, a) =>
      if negb (bool_decide (ifa_name it = name)) then find_iface name ipv4 ipv6 l
      else
        r ← (if fam =? AF_INET then
               match ipv4 with Some _ => None | None => Some (Some a, ipv6) end
             else if fam =? AF_INET6 then
               match ipv6 with Some _ => None | None => Some (ipv4, Some a) end
             else Some (ipv4, ipv6));
        match r with
        | (Some _, Some _) => Some r
        | (ipv4, ipv6) => find_iface name ipv4 ipv6 l
        end
    end
  end.

(** [switch(mode)] of [dill_ipaddr_local] *)
Definition choose_family (mode : Z) (ipv4 ipv6 : option (list Z)) : option (option (list Z) * option (list Z)) :=
  if mode =? DILL_IPADDR_IPV4 then Some (ipv4, None)
  else if mode =? DILL_IPADDR_IPV6 then Some (None, ipv6)
  else if (mode =? 0) || (mode =? DILL_IPADDR_PREF_IPV4) then
    Some (ipv4, match ipv4 with Some _ => None | None => ipv6 end)
  else if mode =? DILL_IPADDR_PREF_IPV6 then
    Some (match ipv6 with Some _ => None | None => ipv4 end, ipv6)
  else None.

Definition dill_ipaddr_local (addr name : ptr) (port mode : Z) : IO N Z :=
  let mode := if mode =? 0 then DILL_IPADDR_PREF_IPV4 else mode in
  store addr (repeat 0 32);;
  if name =? NULL then dill_ipaddr_ipany addr port mode
  else
    rc ← dill_ipaddr_literal addr name port mode;
    if rc =? 0 then mret 0
    else
      ifaces ← getifaddrs;
      assert_ (negb (bool_decide (ifaces = [])));;
      s ← cstring name;
      '(ipv4, ipv6) ← lift (find_iface s None None ifaces);
      '(ipv4, ipv6) ← lift (choose_family mode ipv4 ipv6);
      match ipv4, ipv6 with
      | Some a, _ => store addr (take 16 a);; store (sa_port addr) (dill_puts (u16 port));; mret 0
      | None, Some a => store addr (take 28 a);; store (sa_port addr) (dill_puts (u16 port));; mret 0
      | None, None => fail ENODEV
      end.

(** The loop over the results of a query, with at most [fuel] calls of the resolver;
    the number of addresses stored, or -1. *)
Fixpoint results_loop (fuel : nat) (addrs : ptr) (naddrs port mode deadline nresults : Z) : IO N Z :=
  match fuel with
  | O => crash
  | S fuel =>
    ev ← dns_ai_nextent;
    match ev with
    | AiAgain =>
      rc ← dns_ai_wait deadline;
      if rc <? 0 then mret (-1) else results_loop fuel addrs naddrs port mode deadline nresults
    | AiEnd => mret nresults
    | AiError =>
      if naddrs =? 0 then results_loop fuel addrs naddrs port mode deadline nresults else crash
    | AiEntry fam a =>
      '(addrs, naddrs, nresults) ←
        (if negb (naddrs =? 0) && (mode =? DILL_IPADDR_IPV4) && (fam =? AF_INET) then
           store addrs (take 16 a);; store (sa_port addrs) (dill_puts (u16 port));;
           mret (addrs + SIZEOF_IPADDR, naddrs - 1, nresults + 1)
         else mret (addrs, naddrs, nresults));
      '(addrs, naddrs, nresults) ←
        (if negb (naddrs =? 0) && (mode =? DILL_IPADDR_IPV6) && (fam =? AF_INET6) then
           store addrs (take 28 a);; store (sa_port addrs) (dill_puts (u16 port));;
           mret (addrs + SIZEOF_IPADDR, naddrs - 1, nresults + 1)
         else mret (addrs, naddrs, nresults));
      results_loop fuel addrs naddrs port mode deadline nresults
    end
  end.

(** The query: [mode] is one of the two plain modes. *)
Definition dns_query (fuel : nat) (addrs : ptr) (naddrs : Z) (name : ptr) (port mode deadline : Z) : IO N Z :=
  ok ← dns_config;
  if negb ok then fail ENOENT
  else
    ok ← dns_res_open;
    if negb ok then
      err ← get_errno;
      assert_ (bool_decide (err = ENFILE) || bool_decide (err = EMFILE));;
      mret (-1)
    else
      assert_ ((0 <=? port) && (port <=? 0xffff));;
      s ← cstring name;
      dns_ai_open s port (mode =? DILL_IPADDR_IPV4);;
      results_loop fuel addrs naddrs port mode deadline 0.

(** The recursion: a preference is two calls with plain modes, so that its depth is 2. *)
Fixpoint remotes (depth fuel : nat) (addrs : ptr) (naddrs : Z) (name : ptr) (port mode deadline : Z) : IO N Z :=
  match depth with
  | O => crash
  | S depth =>
    if (addrs =? NULL) || (naddrs <=? 0) || (name =? NULL) then fail EINVAL
    else if negb ((0 <=? mode) && (mode <=? 4)) then fail EINVAL
    else
      let mode := if mode =? 0 then DILL_IPADDR_PREF_IPV4 else mode in
      store addrs (repeat 0 32);;
      rc ← dill_ipaddr_literal addrs name port mode;
      if rc =? 0 then
        f ← dill_ipaddr_family addrs;
        mret (if (mode =? DILL_IPADDR_IPV6) && (f =? AF_INET) then 0
              else if (mode =? DILL_IPADDR_IPV4) && (f =? AF_INET6) then 0 else 1)
      else
        let both m1 m2 :=
          rc1 ← remotes depth fuel addrs naddrs name port m1 deadline;
          if rc1 <? 0 then mret (-1)
          else
            rc2 ← (if 0 <? naddrs - rc1 then
                     remotes depth fuel (addrs + rc1 * SIZEOF_IPADDR) (naddrs - rc1) name port m2 deadline
                   else mret 0);
            if rc2 <? 0 then mret (-1) else mret (rc1 + rc2) in
        if mode =? DILL_IPADDR_PREF_IPV4 then both DILL_IPADDR_IPV4 DILL_IPADDR_IPV6
        else if mode =? DILL_IPADDR_PREF_IPV6 then both DILL_IPADDR_IPV6 DILL_IPADDR_IPV4
        else dns_query fuel addrs naddrs name port mode deadline
  end.

Definition dill_ipaddr_remotes (fuel : nat) (addrs : ptr) (naddrs : Z) (name : ptr) (port mode deadline : Z) : IO N Z :=
  remotes 2 fuel addrs naddrs name port mode deadline.

Definition dill_ipaddr_remote (fuel : nat) (addr name : ptr) (port mode deadline : Z) : IO N Z :=
  rc ← dill_ipaddr_remotes fuel addr 1 name port mode deadline;
  if rc <? 0 then mret (-1)
  else if rc =? 0 then fail EADDRNOTAVAIL
  else mret 0.

Definition dill_ipaddr_equal (addr1 addr2 : ptr) (ignore_port : bool) : IO N Z :=
  f1 ← dill_ipaddr_family addr1;
  f2 ← dill_ipaddr_family addr2;
  if negb (f1 =? f2) then mret 0
  else
    let same off n :=
      a ← load (off addr1) n;
      b ← load (off addr2) n;
      if negb (bool_decide (a = b)) then mret 0
      else if ignore_port then mret 1
      else
        p ← load (sa_port addr1) 2;
        q ← load (sa_port addr2) 2;
        mret (if bool_decide (p = q) then 1 else 0) in
    if f1 =? AF_INET then same sin_addr 4
    else if f1 =? AF_INET6 then same sin6_addr 16
    else crash.
End Ipaddr.
