(* ===== verification/Ipaddrspec.v ===== *)
(** Theorems about addresses: what the resolution of a name stores. *)

From Stdlib Require Import ZArith Lia.
From stdpp Require Import base gmap list.
From S2P Require Import Prelude Bytes Handle Iol Sock Loop Prefix Suffix Term Http Httpspec Stream Ipaddr.
Open Scope Z_scope.

(** * Bytes in memory *)

(** [bs] is at [p]. *)
Definition holds (m : gmap Z Z) (p : ptr) (bs : list Z) : Prop := gather m (arr p (len bs)) = Some bs.
Definition put_bytes (p : ptr) (bs : list Z) (m : gmap Z Z) : gmap Z Z := scatter (arr p (len bs)) bs m.

Lemma holds_put m p bs : 0 < p → holds (put_bytes p bs m) p bs.
Proof.
  intros Hp. unfold holds, put_bytes, len. destruct (arr_nodup p (Z.of_nat (length bs))) as [Hd Hn]; [unfold NULL; lia|].
  apply gather_scatter; [done|done|]. pose proof (length_arr p (Z.of_nat (length bs))). lia.
Qed.

Lemma holds_ext m m' q b : 0 < q → holds m q b → (∀ x, q ≤ x < q + len b → m' !! x = m !! x) → holds m' q b.
Proof.
  intros Hq Hh E. unfold holds in *. rewrite <- Hh. apply gather_ext. intros x Hx.
  apply elem_of_arr in Hx; [by apply E|unfold NULL; lia].
Qed.

Lemma put_other p bs m x : 0 < p → ¬ p ≤ x < p + len bs → put_bytes p bs m !! x = m !! x.
Proof. intros Hp Hx. apply scatter_ne. intros Hx'. apply elem_of_arr in Hx'; [done|unfold NULL; lia]. Qed.

Lemma holds_put_other m p bs q b :
  0 < p → 0 < q → p + len bs ≤ q ∨ q + len b ≤ p → holds m q b → holds (put_bytes p bs m) q b.
Proof. intros Hp Hq Hd Hh. eapply holds_ext; [done|done|]. intros x Hx. apply put_other; [done|lia]. Qed.

Lemma holds_app m p x y : 0 < p → holds m p (x ++ y) ↔ holds m p x ∧ holds m (p + len x) y.
Proof.
  intros Hp. unfold holds, len. rewrite length_app, Nat2Z.inj_add, arr_app, gather_app by lia. split.
  - destruct (gather m (arr p _)) as [a|] eqn:E1; [|done]. destruct (gather m (arr (p + _) _)) as [b|] eqn:E2; [|done].
    cbn. intros [= E]. apply gather_some in E1 as (_ & L1 & _). pose proof (length_arr p (Z.of_nat (length x))).
    apply app_inj_1 in E as [-> ->]; [done|lia].
  - intros [-> ->]. done.
Qed.

Lemma holds_load m p bs : 0 < p → holds m p bs → load_bytes p (length bs) m = Some bs.
Proof.
  intros Hp Hh. rewrite <- Hh. unfold len. rewrite <- (Nat2Z.id (length bs)) at 1.
  apply load_arr; [unfold NULL; lia|lia].
Qed.

(** From [s] to [s'] only [errno], the sockets, and the [L] bytes from [A] have changed. *)
Record touched {N} (A L : Z) (s s' : io N) : Prop := {
  to_pos : 0 < A;
  to_alloc : allocated (io_mem s) (arr A L);
  to_rest : ∃ m nt e, s' = set_io_mem m (set_io_net nt (set_io_errno e s));
  to_dom : dom (io_mem s') = dom (io_mem s);
  to_mem : ∀ x, ¬ A ≤ x < A + L → io_mem s' !! x = io_mem s !! x;
}.

Lemma touched_refl {N} A L (s : io N) : 0 < A → allocated (io_mem s) (arr A L) → touched A L s s.
Proof. intros. split; try done. exists (io_mem s), (io_net s), (io_errno s). by destruct s. Qed.

Lemma touched_trans {N} A L (s1 s2 s3 : io N) : touched A L s1 s2 → touched A L s2 s3 → touched A L s1 s3.
Proof.
  intros [P1 A1 (m1 & n1 & e1 & ->) D1 M1] [P2 A2 (m2 & n2 & e2 & ->) D2 M2]. split; [done|done|by eexists _, _, _| |].
  - by etrans.
  - intros x Hx. by rewrite M2, M1.
Qed.

Lemma touched_sub {N} A L A' L' (s s' : io N) :
  touched A' L' s s' → allocated (io_mem s) (arr A L) → 0 < A → A ≤ A' → A' + L' ≤ A + L → touched A L s s'.
Proof. intros [P1 A1 R1 D1 M1] Hal HA H1 H2. split; try done. intros x Hx. apply M1. lia. Qed.

Lemma touched_alloc {N} A L (s s' : io N) sl : touched A L s s' → allocated (io_mem s) sl → allocated (io_mem s') sl.
Proof.
  intros Ht. apply allocated_mono. intros x Hx. apply elem_of_dom. rewrite (to_dom _ _ _ _ Ht). by apply elem_of_dom.
Qed.

Lemma touched_errno {N} A L e (s s' : io N) : touched A L s s' → touched A L s (set_io_errno e s').
Proof. intros [P1 A1 (m1 & n1 & e1 & ->) D1 M1]. split; try done. by exists m1, n1, e. Qed.

Lemma touched_net {N} A L nt e (s s' : io N) : touched A L s s' → touched A L s (set_io_net nt (set_io_errno e s')).
Proof. intros [P1 A1 (m1 & n1 & e1 & ->) D1 M1]. split; try done. by exists m1, nt, e. Qed.

Lemma arr_sub A L p k x : 0 < A → A ≤ p → p + k ≤ A + L → Some x ∈ arr p k → Some x ∈ arr A L.
Proof. intros HA H1 H2 Hx. apply elem_of_arr in Hx; [|unfold NULL; lia]. apply elem_of_arr; [unfold NULL; lia|lia]. Qed.

(** Storing within the range. *)
Lemma wp_store_touched {N} A L p bs (s0 s : io N) (Q : unit → io N → Prop) :
  touched A L s0 s → A ≤ p → p + len bs ≤ A + L →
  (∀ s', io_mem s' = put_bytes p bs (io_mem s) → io_net s' = io_net s → touched A L s0 s' → Q tt s') →
  wp (store p bs) Q s.
Proof.
  intros Ht H1 H2 HQ. pose proof (to_pos _ _ _ _ Ht) as HA.
  assert (Hal : allocated (io_mem s) (arr p (len bs))).
  { eapply touched_alloc; [exact Ht|]. intros x Hx. apply (to_alloc _ _ _ _ Ht). by eapply arr_sub. }
  eapply wp_store; [apply store_arr; [unfold NULL; lia|exact Hal|done]|]. apply HQ; [done|done|].
  destruct Ht as [P A1 (m1 & n1 & e1 & ->) D1 M1]. split; [done|done|by eexists _, n1, e1| |].
  - cbn. rewrite scatter_dom; [done|exact Hal].
  - intros x Hx. cbn. rewrite <- M1 by done. apply put_other; lia.
Qed.

(** * Resolution *)

(** What the code is prepared for: entries that carry an address of their family, and no error
    but those that end the results. *)
Definition entry_ok (le : bool) (ev : ai_event) : Prop :=
  match ev with
  | AiAgain => True
  | AiEntry fam a => take 2 a = family_bytes le fam ∧ (fam = AF_INET → 16 ≤ len a) ∧ (fam = AF_INET6 → 28 ≤ len a)
  | AiEnd | AiError => False
  end.

(** The resolver may fail: the errors that [dns_res_open] and [dns_ai_nextent] report in
    [dns.c] (for memory, for the network) are not limited to those the code is prepared for, and
    the configuration or a query may not be created at all.  [resolver_fails] tells that one of
    these happens from some state on; nothing is said of such calls. *)
Class ResolverLaws (N : Type) `{Resolver N} (le : bool) := {
  resolver_fails : N → Prop;
  (** the events to come, and a bound of their number in a query *)
  pending : N → list ai_event;
  query_bound : nat;
  law_config : ∀ s, ¬ resolver_fails (io_net s) →
    ∃ b nt e, dns_config s = Some (b, set_io_net nt (set_io_errno e s)) ∧ ¬ resolver_fails nt;
  law_open : ∀ s, ¬ resolver_fails (io_net s) →
    ∃ b nt e, dns_res_open s = Some (b, set_io_net nt (set_io_errno e s)) ∧ ¬ resolver_fails nt ∧
      (b = false → e = ENFILE ∨ e = EMFILE);
  law_query : ∀ h port v4 s, ¬ resolver_fails (io_net s) →
    ∃ nt e, dns_ai_open h port v4 s = Some (tt, set_io_net nt (set_io_errno e s)) ∧ ¬ resolver_fails nt ∧
      ∃ es, pending nt = es ++ [AiEnd] ∧ Forall (entry_ok le) es ∧ (length es < query_bound)%nat;
  law_next : ∀ ev evs s, pending (io_net s) = ev :: evs → ¬ resolver_fails (io_net s) →
    ∃ nt e, dns_ai_nextent s = Some (ev, set_io_net nt (set_io_errno e s)) ∧ ¬ resolver_fails nt ∧ pending nt = evs;
  law_wait : ∀ d s, ¬ resolver_fails (io_net s) →
    ∃ rc nt e, dns_ai_wait d s = Some (rc, set_io_net nt (set_io_errno e s)) ∧ ¬ resolver_fails nt ∧
      pending nt = pending (io_net s);
  law_pton4 : ∀ h a, inet_pton AF_INET h = Some a → len a = 4;
  law_pton6 : ∀ h a, inet_pton AF_INET6 h = Some a → len a = 16;
}.

(** An address of the family, with the port. *)
Definition addr_at (le : bool) (m : gmap Z Z) (p : ptr) (fam port : Z) : Prop :=
  holds m p (family_bytes le fam) ∧ holds m (sa_port p) (dill_puts (u16 port)).

Definition filled (le : bool) (m : gmap Z Z) (A fam port k : Z) : Prop :=
  ∀ i, 0 ≤ i < k → addr_at le m (A + SIZEOF_IPADDR * i) fam port.

Lemma len_family le f : len (family_bytes le f) = 2.
Proof. by destruct le. Qed.

Lemma addr_at_ext le m m' p fam port : 0 < p → addr_at le m p fam port →
  (∀ x, p ≤ x < p + 4 → m' !! x = m !! x) → addr_at le m' p fam port.
Proof.
  intros Hp [H1 H2] E. unfold addr_at, sa_port in *. split; (eapply holds_ext; [lia|done|]; intros x Hx; apply E).
  - rewrite len_family in Hx. lia.
  - change (len (dill_puts (u16 port))) with 2 in Hx. lia.
Qed.

(** What a query with the preferred family [f1] does for [naddrs] addresses at [A]: the
    first [rc] of them are filled, those of family [f1] first. *)
Definition resolved (le : bool) {N} (A naddrs f1 f2 port : Z) (s : io N) (rc : Z) (s' : io N) : Prop :=
  touched A (SIZEOF_IPADDR * naddrs) s s' ∧
  (rc = -1 ∨ ∃ k, 0 ≤ k ≤ rc ∧ rc ≤ naddrs ∧ filled le (io_mem s') A f1 port k ∧
    filled le (io_mem s') (A + SIZEOF_IPADDR * k) f2 port (rc - k)).

(** The string [host] is at [name], outside the [L] bytes from [A]. *)
Definition named {N} (name : ptr) (host : list Z) (A L : Z) (s : io N) : Prop :=
  load_string (S (size (io_mem s))) name (io_mem s) = Some host ∧ (name + len host < A ∨ A + L ≤ name).

Lemma load_string_ext m m' : ∀ fuel p h,
  load_string fuel p m = Some h → (∀ x, p ≤ x ≤ p + len h → m' !! x = m !! x) → load_string fuel p m' = Some h.
Proof.
  induction fuel as [|fuel IH]; intros p h Hl E; [done|]. cbn [load_string] in *.
  pose proof (E p) as Ep. destruct (m !! p) as [c|] eqn:Em; [|done]. cbn [mbind option_bind] in *.
  rewrite Ep by (unfold len; lia). cbn [mbind option_bind]. destruct (c =? 0); [done|].
  destruct (load_string fuel (p + 1) m) as [h'|] eqn:El; [|done]. injection Hl as <-.
  rewrite (IH _ h'); [done|done|]. intros x Hx. apply E. unfold len in *. cbn. lia.
Qed.

Lemma named_touched {N} name host A L (s s' : io N) : touched A L s s' → named name host A L s → named name host A L s'.
Proof.
  intros T [Hs Hd]. split; [|done].
  assert (E : size (io_mem s') = size (io_mem s)) by (rewrite <- !size_dom; by rewrite (to_dom _ _ _ _ T)).
  rewrite E. eapply load_string_ext; [exact Hs|]. intros x Hx. apply (to_mem _ _ _ _ T). lia.
Qed.

Section Resolve.
Context {N : Type} (le : bool) `{LawsN : ResolverLaws N le}.
Notation calm s := (¬ resolver_fails (io_net s)).

(** The same for one family, after [nres] results. *)
Definition found (A naddrs nres fam port : Z) (s : io N) (rc : Z) (s' : io N) : Prop :=
  touched A (SIZEOF_IPADDR * naddrs) s s' ∧ calm s' ∧
  (rc = -1 ∨ ∃ k, rc = nres + k ∧ 0 ≤ k ≤ naddrs ∧ filled le (io_mem s') A fam port k).

(** Storing one address of a result. *)
Lemma wp_store_addr (A L p k fam port : Z) a s0 s (K : IO N (Z * Z * Z)) (Q : Z * Z * Z → io N → Prop) :
  touched A L s0 s → A ≤ p → p + 28 ≤ A + L → 4 ≤ k ≤ 28 → k ≤ len a → take 2 a = family_bytes le fam →
  (∀ s', touched A L s0 s' → io_net s' = io_net s → addr_at le (io_mem s') p fam port →
     (∀ x, ¬ p ≤ x < p + 28 → io_mem s' !! x = io_mem s !! x) → wp K Q s') →
  wp (store p (take (Z.to_nat k) a);; store (sa_port p) (dill_puts (u16 port));; K) Q s.
Proof.
  intros Ht H1 H2 Hk Ha Hf HQ. pose proof (to_pos _ _ _ _ Ht) as HA.
  assert (Hl : len (take (Z.to_nat k) a) = k) by (unfold len in *; rewrite length_take; lia).
  apply wp_bind. eapply wp_store_touched; [exact Ht|done|lia|]. intros s1 M1 N1 T1.
  apply wp_bind. eapply wp_store_touched; [exact T1|unfold sa_port; lia|unfold sa_port; change (len (dill_puts (u16 port))) with 2; lia|].
  intros s2 M2 N2 T2. apply HQ; [done|by rewrite N2| |].
  - rewrite M2. split; [|apply holds_put; unfold sa_port; lia].
    apply holds_put_other; [unfold sa_port; lia|lia|rewrite len_family; unfold sa_port; lia|].
    rewrite M1, <- Hf. apply (holds_app _ p (take 2 a) (drop 2 (take (Z.to_nat k) a))); [lia|].
    replace (take 2 a) with (take 2 (take (Z.to_nat k) a)) by (rewrite take_take; f_equal; lia).
    rewrite take_drop. apply holds_put. lia.
  - intros x Hx. rewrite M2, put_other, M1, put_other; [done|lia|lia|unfold sa_port; lia|].
    unfold sa_port. change (len (dill_puts (u16 port))) with 2. lia.
Qed.

Lemma found_step A naddrs nres fam port (s1 s2 : io N) rc s3 :
  touched A (SIZEOF_IPADDR * naddrs) s1 s2 → found A naddrs nres fam port s2 rc s3 →
  found A naddrs nres fam port s1 rc s3.
Proof. intros T [T' Hr]. split; [by eapply touched_trans|done]. Qed.

(** A failed result keeps the rest of what is promised. *)
Lemma found_failed A naddrs nres fam port (s s' : io N) :
  touched A (SIZEOF_IPADDR * naddrs) s s' → calm s' → found A naddrs nres fam port s (-1) s'.
Proof. intros T C. split; [done|]. split; [done|by left]. Qed.

(** An entry that is stored, and the rest of the loop. *)
Lemma wp_entry A naddrs nres fam port k a s0 s1 (K : Z * Z * Z → IO N Z) :
  touched A (SIZEOF_IPADDR * naddrs) s0 s1 → 0 < naddrs → 4 ≤ k ≤ 28 → k ≤ len a → take 2 a = family_bytes le fam →
  (∀ s2, io_net s2 = io_net s1 → allocated (io_mem s2) (arr (A + SIZEOF_IPADDR) (SIZEOF_IPADDR * (naddrs - 1))) →
    wp (K (A + SIZEOF_IPADDR, naddrs - 1, nres + 1)) (found (A + SIZEOF_IPADDR) (naddrs - 1) (nres + 1) fam port s2) s2) →
  wp (x ← (store A (take (Z.to_nat k) a);; store (sa_port A) (dill_puts (u16 port));;
           mret (A + SIZEOF_IPADDR, naddrs - 1, nres + 1)); K x) (found A naddrs nres fam port s0) s1.
Proof.
  intros T1 Hn Hk1 Hk2 Hfam HK. pose proof (to_pos _ _ _ _ T1) as HA. apply wp_bind. unfold SIZEOF_IPADDR in *.
  eapply (wp_store_addr _ _ _ k fam port); [exact T1|lia|lia|done|done|done|]. intros s2 T2 N2 Ha2 Hoth.
  assert (Hal2 : ∀ B L, A ≤ B → B + L ≤ A + 32 * naddrs → allocated (io_mem s2) (arr B L)).
  { intros B L H1 H2. eapply touched_alloc; [exact T2|]. intros x Hx. apply (to_alloc _ _ _ _ T1).
    by eapply (arr_sub A (32 * naddrs) B L). }
  apply wp_ret. eapply wp_mono; [apply HK; [done|unfold SIZEOF_IPADDR; apply Hal2; lia]|].
  intros rc s' (T3 & C3 & Hr). unfold found, SIZEOF_IPADDR in *. split; [eapply touched_trans; [exact T2|]; eapply touched_sub; [exact T3|apply Hal2; lia|lia..]|].
  split; [done|]. destruct Hr as [->|(k' & -> & Hk' & Hf')]; [by left|]. right. exists (k' + 1). split; [lia|]. split; [lia|].
  intros i Hi. destruct (decide (i = 0)) as [->|Hi0].
  - eapply addr_at_ext; [lia|rewrite Z.mul_0_r, Z.add_0_r; exact Ha2|].
    intros x Hx. apply (to_mem _ _ _ _ T3). lia.
  - specialize (Hf' (i - 1) ltac:(lia)). unfold SIZEOF_IPADDR in *.
    by replace (A + 32 * i) with (A + 32 + 32 * (i - 1)) by lia.
Qed.

Lemma results_loop_spec fam port mode d :
  (mode = DILL_IPADDR_IPV4 ∧ fam = AF_INET) ∨ (mode = DILL_IPADDR_IPV6 ∧ fam = AF_INET6) →
  ∀ es fuel addrs naddrs nres s,
  pending (io_net s) = es ++ [AiEnd] → Forall (entry_ok le) es → (length es < fuel)%nat →
  0 < addrs → 0 ≤ naddrs → allocated (io_mem s) (arr addrs (SIZEOF_IPADDR * naddrs)) → calm s →
  wp (results_loop fuel addrs naddrs port mode d nres) (found addrs naddrs nres fam port s) s.
Proof.
  intros Hm. induction es as [|ev es IH]; intros [|fuel] addrs naddrs nres s Hp Hok Hf Hpos Hna Hal Hcalm; cbn in Hf; try lia;
    (destruct (law_next _ _ s Hp Hcalm) as (nt & e & E & Hc1 & Hp'); cbn [results_loop]; apply wp_bind; unfold wp at 1; rewrite E).
  { apply wp_ret. split; [by apply touched_net, touched_refl|]. split; [done|]. right. exists 0. split; [lia|]. split; [lia|]. intros i Hi. lia. }
  set (s1 := set_io_net nt (set_io_errno e s)).
  assert (T1 : touched addrs (SIZEOF_IPADDR * naddrs) s s1) by (by apply touched_net, touched_refl).
  apply Forall_cons in Hok as [He Hok].
  assert (Hrec : ∀ s2 nres, touched addrs (SIZEOF_IPADDR * naddrs) s s2 → calm s2 → pending (io_net s2) = es ++ [AiEnd] →
    wp (results_loop fuel addrs naddrs port mode d nres) (found addrs naddrs nres fam port s) s2).
  { intros s2 nres2 T2 Hc2 Hp2. eapply wp_mono; [apply (IH fuel addrs naddrs nres2 s2); try done; [lia|by eapply touched_alloc]|].
    intros rc s'. by apply found_step. }
  assert (Hskip := Hrec s1 nres T1 Hc1 Hp').
  destruct ev as [|f a| |]; cbn in He; try done.
  { destruct (law_wait d s1 Hc1) as (rc & nt2 & e2 & E2 & Hc2 & Hp2). apply wp_bind. unfold wp at 1. rewrite E2.
    assert (T2 := touched_net _ _ nt2 e2 _ _ T1).
    destruct (rc <? 0); [apply wp_ret; by apply found_failed|]. apply Hrec; [done|done|]. etrans; [exact Hp2|exact Hp']. }
  destruct He as (Hfam & H4 & H6).
  assert (Hadd : f = fam → naddrs ≠ 0 → ∀ k, 4 ≤ k ≤ 28 → k ≤ len a →
    ∀ K : Z * Z * Z → IO N Z, (∀ x, K x = let '(A, m, r) := x in results_loop fuel A m port mode d r) →
    wp (x ← (store addrs (take (Z.to_nat k) a);; store (sa_port addrs) (dill_puts (u16 port));;
             mret (addrs + SIZEOF_IPADDR, naddrs - 1, nres + 1)); K x) (found addrs naddrs nres fam port s) s1).
  { intros <- Hna' k Hk1 Hk2 K HK. apply (wp_entry _ _ _ _ _ k); [done|lia|done|done|done|]. intros s2 N2 Hal2.
    rewrite HK. apply IH; try done; first [by rewrite N2|by rewrite N2|unfold SIZEOF_IPADDR; lia]. }
  destruct Hm as [[-> ->]|[-> ->]].
  - change (DILL_IPADDR_IPV4 =? DILL_IPADDR_IPV6) with false. change (DILL_IPADDR_IPV4 =? DILL_IPADDR_IPV4) with true.
    rewrite andb_true_r. destruct (Z.eqb_spec naddrs 0) as [->|Hn0]; cbn [negb andb]; [by apply wp_bind, wp_ret, wp_bind, wp_ret|].
    destruct (Z.eqb_spec f AF_INET) as [->|]; [|apply wp_bind, wp_ret; rewrite andb_false_r; by apply wp_bind, wp_ret].
    apply (Hadd eq_refl Hn0 16 ltac:(lia) (H4 eq_refl)). intros [[]]. by rewrite andb_false_r.
  - change (DILL_IPADDR_IPV6 =? DILL_IPADDR_IPV6) with true. change (DILL_IPADDR_IPV6 =? DILL_IPADDR_IPV4) with false.
    rewrite !andb_false_r. cbn [andb]. apply wp_bind, wp_ret. rewrite andb_true_r.
    destruct (Z.eqb_spec naddrs 0) as [->|Hn0]; cbn [negb andb]; [exact Hskip|].
    destruct (Z.eqb_spec f AF_INET6) as [->|]; [|exact Hskip].
    apply (Hadd eq_refl Hn0 28 ltac:(lia) (H6 eq_refl)). by intros [[]].
Qed.

(** An address literal: the stores after [inet_pton]. *)
Lemma wp_store_literal A L p off fam port bs s0 s (Q : Z → io N → Prop) :
  touched A L s0 s → A ≤ p → p + 32 ≤ A + L → 4 ≤ off → off + len bs ≤ 32 →
  (∀ s', touched A L s0 s' → io_net s' = io_net s → addr_at le (io_mem s') p fam port → Q 0 s') →
  wp (store (p + off) bs;; store p (family_bytes le fam);; store (sa_port p) (dill_puts (u16 port));; mret 0) Q s.
Proof.
  intros T H1 H2 H3 H4 HQ. pose proof (to_pos _ _ _ _ T) as HA. assert (0 ≤ len bs) by (unfold len; lia).
  assert (Hpl : len (dill_puts (u16 port)) = 2) by done. pose proof (len_family le fam) as Hfl.
  apply wp_bind. eapply wp_store_touched; [exact T|lia|lia|]. intros s1 M1 N1 T1.
  apply wp_bind. eapply wp_store_touched; [exact T1|lia|lia|]. intros s2 M2 N2 T2.
  apply wp_bind. eapply wp_store_touched; [exact T2|unfold sa_port; lia|unfold sa_port; lia|]. intros s3 M3 N3 T3.
  apply wp_ret, HQ; [done|congruence|]. rewrite M3. split; [|apply holds_put; unfold sa_port; lia].
  apply holds_put_other; [unfold sa_port; lia|lia|unfold sa_port; lia|]. rewrite M2. apply holds_put. lia.
Qed.

(** The outcome of a literal: an address, or [EINVAL]. *)
Lemma wp_literal4 A L p name host port s0 s (Q : Z → io N → Prop) :
  touched A L s0 s → A ≤ p → p + 32 ≤ A + L → named name host A L s →
  (∀ s', touched A L s0 s' → io_net s' = io_net s → addr_at le (io_mem s') p AF_INET port → Q 0 s') →
  Q (-1) (set_io_errno EINVAL s) →
  wp (dill_ipaddr_ipv4_literal le p name port) Q s.
Proof.
  intros T H1 H2 [Hs _] Hok Hbad. apply wp_bind, (wp_cstring _ host); [done|].
  destruct (inet_pton AF_INET host) as [bs|] eqn:E; [|by apply wp_fail].
  apply law_pton4 in E. unfold sin_addr. eapply wp_store_literal; [exact T|done|done|lia|lia|done].
Qed.

Lemma wp_literal6 A L p name host port s0 s (Q : Z → io N → Prop) :
  touched A L s0 s → A ≤ p → p + 32 ≤ A + L → named name host A L s →
  (∀ s', touched A L s0 s' → io_net s' = io_net s → addr_at le (io_mem s') p AF_INET6 port → Q 0 s') →
  Q (-1) (set_io_errno EINVAL s) →
  wp (dill_ipaddr_ipv6_literal le p name port) Q s.
Proof.
  intros T H1 H2 [Hs _] Hok Hbad. apply wp_bind, (wp_cstring _ host); [done|].
  destruct (inet_pton AF_INET6 host) as [bs|] eqn:E; [|by apply wp_fail].
  apply law_pton6 in E. unfold sin6_addr. eapply wp_store_literal; [exact T|done|done|lia|lia|done].
Qed.

Lemma family_of_bytes f : 0 ≤ f < 256 → family_of le (family_bytes le f) = f.
Proof.
  intros Hf. unfold family_of, family_bytes. replace (if le then rev _ else _) with (dill_puts f ++ []).
  - rewrite dill_gets_puts. apply Z.mod_small. lia.
  - destruct le; by rewrite ?rev_involutive, ?app_nil_r.
Qed.

Lemma wp_family p fam port s (Q : Z → io N → Prop) :
  0 < p → 0 ≤ fam < 256 → addr_at le (io_mem s) p fam port → Q fam s → wp (dill_ipaddr_family le p) Q s.
Proof.
  intros Hp Hf [Ha _] HQ. apply wp_bind. eapply wp_load.
  - pose proof (holds_load _ _ _ Hp Ha) as E. change (Z.to_nat 2) with 2%nat.
    by replace (length (family_bytes le fam)) with 2%nat in E by by destruct le.
  - apply wp_ret. by rewrite family_of_bytes.
Qed.

Lemma dns_query_spec fam port mode d fuel A naddrs name host s0 s :
  (mode = DILL_IPADDR_IPV4 ∧ fam = AF_INET) ∨ (mode = DILL_IPADDR_IPV6 ∧ fam = AF_INET6) →
  (query_bound (le := le) ≤ fuel)%nat → 0 ≤ port ≤ 65535 → 0 ≤ naddrs →
  touched A (SIZEOF_IPADDR * naddrs) s0 s → named name host A (SIZEOF_IPADDR * naddrs) s → calm s →
  wp (dns_query fuel A naddrs name port mode d) (found A naddrs 0 fam port s0) s.
Proof.
  intros Hm Hf Hp Hn T1 Hname Hc1. pose proof (to_pos _ _ _ _ T1) as HA.
  destruct (law_config s Hc1) as (b & nt & e & E & Hc2). apply wp_bind. unfold wp at 1. rewrite E.
  apply (touched_net _ _ nt e) in T1 as T2. set (s2 := set_io_net nt (set_io_errno e s)) in *.
  destruct b; cbn [negb]; [|apply wp_fail, found_failed; [by apply touched_errno|done]].
  destruct (law_open s2 Hc2) as (b & nt3 & e3 & E3 & Hc3 & He3). apply wp_bind. unfold wp at 1. rewrite E3.
  apply (touched_net _ _ nt3 e3) in T2 as T3. set (s3 := set_io_net nt3 (set_io_errno e3 s2)) in *.
  destruct b; cbn [negb].
  2: { apply wp_bind, wp_gets, wp_bind. destruct (He3 eq_refl) as [-> | ->]; by apply wp_ret, wp_ret, found_failed. }
  rewrite (proj2 (Z.leb_le 0 port)), (proj2 (Z.leb_le port 0xffff)) by lia. apply wp_bind, wp_ret.
  destruct Hname as [Hs Hd]. apply wp_bind, (wp_cstring _ host); [exact Hs|].
  destruct (law_query host port (mode =? DILL_IPADDR_IPV4) s3 Hc3) as (nt4 & e4 & E4 & Hc4 & es & Hes & Hok & Hl).
  apply wp_bind. unfold wp at 1. rewrite E4.
  apply (touched_net _ _ nt4 e4) in T3 as T4. set (s4 := set_io_net nt4 (set_io_errno e4 s3)) in *.
  eapply wp_mono; [apply (results_loop_spec fam port mode d Hm es fuel A naddrs 0 s4); try done; [lia|]|].
  - eapply touched_alloc; [exact T4|]. apply (to_alloc _ _ _ _ T1).
  - intros rc s'. by apply found_step.
Qed.

(** The call for one family. *)
Lemma remotes_plain fam port mode d depth fuel A naddrs name host s :
  (mode = DILL_IPADDR_IPV4 ∧ fam = AF_INET) ∨ (mode = DILL_IPADDR_IPV6 ∧ fam = AF_INET6) →
  (query_bound (le := le) ≤ fuel)%nat → 0 ≤ port ≤ 65535 → 0 < naddrs →
  0 < A → allocated (io_mem s) (arr A (SIZEOF_IPADDR * naddrs)) →
  name ≠ NULL → named name host A (SIZEOF_IPADDR * naddrs) s → calm s →
  wp (remotes le (S depth) fuel A naddrs name port mode d) (found A naddrs 0 fam port s) s.
Proof.
  intros Hm Hf Hp Hn HA Hal Hnn Hname Hcalm. cbn [remotes].
  rewrite (proj2 (Z.eqb_neq A NULL)), (proj2 (Z.leb_gt naddrs 0)), (proj2 (Z.eqb_neq name NULL)) by (unfold NULL; lia || done).
  cbn [orb]. assert (Hmode : negb ((0 <=? mode) && (mode <=? 4)) = false ∧ (mode =? 0) = false ∧
    (mode =? DILL_IPADDR_PREF_IPV4) = false ∧ (mode =? DILL_IPADDR_PREF_IPV6) = false) by (destruct Hm as [[-> _]|[-> _]]; done).
  destruct Hmode as (-> & -> & -> & ->).
  apply wp_bind. eapply wp_store_touched; [by apply touched_refl|lia|change (len (repeat 0 32)) with 32; unfold SIZEOF_IPADDR; lia|].
  intros s1 M1 N1 T1. assert (Hn1 := named_touched _ _ _ _ _ _ T1 Hname).
  assert (Hlit : ∀ Q, (∀ s', touched A (SIZEOF_IPADDR * naddrs) s s' → io_net s' = io_net s1 →
      addr_at le (io_mem s') A fam port → Q 0 s') →
    Q (-1) (set_io_errno EINVAL s1) → wp (dill_ipaddr_literal le A name port mode) Q s1).
  { intros Q H1 H2. unfold dill_ipaddr_literal.
    rewrite (proj2 (Z.eqb_neq A NULL)), (proj2 (Z.ltb_ge port 0)), (proj2 (Z.ltb_ge 0xffff port)) by (unfold NULL; lia). cbn [orb].
    unfold SIZEOF_IPADDR in *. destruct Hm as [[-> ->]|[-> ->]].
    - change (DILL_IPADDR_IPV4 =? DILL_IPADDR_IPV4) with true. cbv iota.
      eapply wp_literal4; [exact T1|lia|lia|exact Hn1|exact H1|exact H2].
    - change (DILL_IPADDR_IPV6 =? DILL_IPADDR_IPV4) with false. change (DILL_IPADDR_IPV6 =? DILL_IPADDR_IPV6) with true. cbv iota.
      eapply wp_literal6; [exact T1|lia|lia|exact Hn1|exact H1|exact H2]. }
  apply wp_bind, Hlit.
  - intros s2 T2 N2 Ha2. change (0 =? 0) with true. cbv iota.
    apply wp_bind, (wp_family A fam port); [done|destruct Hm as [[_ ->]|[_ ->]]; unfold AF_INET, AF_INET6; lia|done|].
    assert (Hr : (if (mode =? DILL_IPADDR_IPV6) && (fam =? AF_INET) then 0
      else if (mode =? DILL_IPADDR_IPV4) && (fam =? AF_INET6) then 0 else 1) = 1) by (by destruct Hm as [[-> ->]|[-> ->]]).
    rewrite Hr. apply wp_ret. split; [done|]. split; [by rewrite N2, N1|]. right. exists 1. split; [lia|]. split; [lia|]. intros i Hi.
    assert (i = 0) as -> by lia. by rewrite Z.mul_0_r, Z.add_0_r.
  - change (-1 =? 0) with false. cbv iota. apply (dns_query_spec _ _ _ _ _ _ _ _ host); [done|done|done|lia|by apply touched_errno|done|].
    cbn. by rewrite N1.
Qed.

(** The two calls of a preference. *)
Lemma both_families f1 f2 m1 m2 port d depth fuel A naddrs name host s0 s :
  (m1 = DILL_IPADDR_IPV4 ∧ f1 = AF_INET) ∨ (m1 = DILL_IPADDR_IPV6 ∧ f1 = AF_INET6) →
  (m2 = DILL_IPADDR_IPV4 ∧ f2 = AF_INET) ∨ (m2 = DILL_IPADDR_IPV6 ∧ f2 = AF_INET6) →
  (query_bound (le := le) ≤ fuel)%nat → 0 ≤ port ≤ 65535 → 0 < naddrs → name ≠ NULL →
  touched A (SIZEOF_IPADDR * naddrs) s0 s → named name host A (SIZEOF_IPADDR * naddrs) s → calm s →
  wp (rc1 ← remotes le (S depth) fuel A naddrs name port m1 d;
      if rc1 <? 0 then mret (-1)
      else
        rc2 ← (if 0 <? naddrs - rc1 then
                 remotes le (S depth) fuel (A + rc1 * SIZEOF_IPADDR) (naddrs - rc1) name port m2 d
               else mret 0);
        if rc2 <? 0 then mret (-1) else mret (rc1 + rc2))
    (resolved le A naddrs f1 f2 port s0) s.
Proof.
  intros Hm1 Hm2 Hf Hp Hn Hnn T Hname Hcalm. pose proof (to_pos _ _ _ _ T) as HA. pose proof (to_alloc _ _ _ _ T) as Hal.
  apply wp_bind. eapply wp_mono; [apply (remotes_plain f1 port m1 d depth fuel A naddrs name host s); try done; by eapply touched_alloc|].
  intros rc1 s1 (T1 & Hc1 & Hr1). pose proof (touched_trans _ _ _ _ _ T T1) as T01.
  destruct Hr1 as [->|(k & -> & Hk & Hfill)]; [apply wp_ret; split; [done|by left]|]. rewrite ?Z.add_0_l in *.
  rewrite (proj2 (Z.ltb_ge k 0)) by lia. pose proof (named_touched _ _ _ _ _ _ T1 Hname) as Hname1.
  assert (Hal1 : ∀ B L, A ≤ B → B + L ≤ A + SIZEOF_IPADDR * naddrs → allocated (io_mem s1) (arr B L)).
  { intros B L H1 H2. eapply touched_alloc; [exact T01|]. intros x Hx. apply Hal. by eapply (arr_sub A _ B L). }
  apply wp_bind. destruct (Z.ltb_spec 0 (naddrs - k)) as [Hlt|Hge].
  - unfold SIZEOF_IPADDR in *. eapply wp_mono.
    { apply (remotes_plain f2 port m2 d depth fuel (A + k * 32) (naddrs - k) name host s1); unfold SIZEOF_IPADDR; try done; try lia.
      - apply Hal1; lia.
      - destruct Hname1 as [Hs Hd]. split; [done|lia]. }
    intros rc2 s2 (T2 & _ & Hr2). unfold SIZEOF_IPADDR in *.
    assert (T02 : touched A (32 * naddrs) s0 s2).
    { eapply touched_trans; [exact T01|]. eapply touched_sub; [exact T2|apply Hal1; lia|lia..]. }
    destruct Hr2 as [->|(k2 & -> & Hk2 & Hfill2)]; [apply wp_ret; split; [done|by left]|]. rewrite ?Z.add_0_l in *.
    rewrite (proj2 (Z.ltb_ge k2 0)) by lia. apply wp_ret. split; [done|]. right. exists k. split; [lia|]. split; [lia|]. split.
    + intros i Hi. specialize (Hfill i Hi). eapply addr_at_ext; [|exact Hfill|]; [unfold SIZEOF_IPADDR; lia|].
      intros x Hx. apply (to_mem _ _ _ _ T2). unfold SIZEOF_IPADDR in *. lia.
    + replace (k + k2 - k) with k2 by lia. intros i Hi. specialize (Hfill2 i Hi). unfold SIZEOF_IPADDR in *.
      by replace (A + 32 * k + 32 * i) with (A + k * 32 + 32 * i) by lia.
  - apply wp_ret. change (0 <? 0) with false. cbv iota. apply wp_ret. split; [done|]. right. exists k.
    split; [lia|]. split; [lia|]. split; [done|]. intros i Hi. lia.
Qed.

(** Decide a result code. *)
Ltac rc0 := change (0 =? 0) with true; change (-1 =? 0) with false; cbv iota.

(** A call with a preference. *)
Lemma remotes_pref mode f1 f2 port d depth fuel A naddrs name host s : depth = 1%nat →
  ((mode = 0 ∨ mode = DILL_IPADDR_PREF_IPV4) ∧ f1 = AF_INET ∧ f2 = AF_INET6) ∨ (mode = DILL_IPADDR_PREF_IPV6 ∧ f1 = AF_INET6 ∧ f2 = AF_INET) →
  (query_bound (le := le) ≤ fuel)%nat → 0 ≤ port ≤ 65535 → 0 < naddrs →
  0 < A → allocated (io_mem s) (arr A (SIZEOF_IPADDR * naddrs)) →
  name ≠ NULL → named name host A (SIZEOF_IPADDR * naddrs) s → calm s →
  wp (remotes le (S depth) fuel A naddrs name port mode d) (resolved le A naddrs f1 f2 port s) s.
Proof.
  intros Hdep Hm Hf Hp Hn HA Hal Hnn Hname Hcalm. cbn [remotes].
  rewrite (proj2 (Z.eqb_neq A NULL)), (proj2 (Z.leb_gt naddrs 0)), (proj2 (Z.eqb_neq name NULL)) by (unfold NULL; lia || done).
  cbn [orb]. set (md := if mode =? 0 then DILL_IPADDR_PREF_IPV4 else mode).
  assert (Hmd : (md = DILL_IPADDR_PREF_IPV4 ∧ f1 = AF_INET ∧ f2 = AF_INET6) ∨ (md = DILL_IPADDR_PREF_IPV6 ∧ f1 = AF_INET6 ∧ f2 = AF_INET))
    by (unfold md; destruct Hm as [[[->| ->] Hm]|[-> Hm]]; [by left|by left|by right]).
  assert (Hb : negb ((0 <=? mode) && (mode <=? 4)) = false) by (by destruct Hm as [[[->| ->] _]|[-> _]]).
  rewrite Hb. clearbody md. clear Hm Hb.
  apply wp_bind. eapply wp_store_touched; [by apply touched_refl|lia|change (len (repeat 0 32)) with 32; unfold SIZEOF_IPADDR; lia|].
  intros s1 M1 N1 T1. assert (Hn1 := named_touched _ _ _ _ _ _ T1 Hname).
  assert (Hdone : ∀ fam s', fam = f1 ∨ fam = f2 → (md =? DILL_IPADDR_IPV6) = false → (md =? DILL_IPADDR_IPV4) = false →
    0 ≤ fam < 256 → touched A (SIZEOF_IPADDR * naddrs) s s' → addr_at le (io_mem s') A fam port →
    wp (f ← dill_ipaddr_family le A;
        mret (if (md =? DILL_IPADDR_IPV6) && (f =? AF_INET) then 0
              else if (md =? DILL_IPADDR_IPV4) && (f =? AF_INET6) then 0 else 1))
      (resolved le A naddrs f1 f2 port s) s').
  { intros fam s' Hfam E6 E4 Hfr T' Ha'. apply wp_bind, (wp_family A fam port); [done|done|done|]. rewrite E6, E4. cbn [andb].
    apply wp_ret. split; [done|]. right. destruct Hfam as [-> | ->].
    - exists 1. split; [lia|]. split; [lia|]. split; intros i Hi; [|lia]. assert (i = 0) as -> by lia. by rewrite Z.mul_0_r, Z.add_0_r.
    - exists 0. split; [lia|]. split; [lia|]. split; intros i Hi; [lia|]. assert (i = 0) as -> by lia. by rewrite !Z.mul_0_r, !Z.add_0_r. }
  assert (T2 : touched A (SIZEOF_IPADDR * naddrs) s (set_io_errno EINVAL s1)) by (by apply touched_errno).
  assert (T3 : touched A (SIZEOF_IPADDR * naddrs) s (set_io_errno EINVAL (set_io_errno EINVAL s1))) by (by apply touched_errno).
  apply wp_bind. unfold dill_ipaddr_literal.
  rewrite (proj2 (Z.eqb_neq A NULL)), (proj2 (Z.ltb_ge port 0)), (proj2 (Z.ltb_ge 0xffff port)) by (unfold NULL; lia). cbn [orb].
  unfold SIZEOF_IPADDR in Hn1, T1, T2, T3.
  destruct Hmd as [(-> & -> & ->)|(-> & -> & ->)].
  - change (DILL_IPADDR_PREF_IPV4 =? DILL_IPADDR_IPV4) with false. change (DILL_IPADDR_PREF_IPV4 =? DILL_IPADDR_IPV6) with false.
    change (DILL_IPADDR_PREF_IPV4 =? 0) with false. change (DILL_IPADDR_PREF_IPV4 =? DILL_IPADDR_PREF_IPV4) with true. cbn [orb]. cbv iota.
    apply wp_bind. eapply (wp_literal4 _ _ _ _ _ port); [exact T1|lia|lia|exact Hn1| |].
    { intros s2 T _ Ha. rc0. apply wp_ret. rc0. apply (Hdone AF_INET); try done. by left. }
    rc0. eapply (wp_literal6 _ _ _ _ _ port); [exact T2|lia|lia|exact Hn1| |].
    { intros s2 T _ Ha. rc0. apply (Hdone AF_INET6); try done. by right. }
    rc0. subst depth. apply (both_families AF_INET AF_INET6 _ _ _ _ 0 _ _ _ _ host); try done; [..|by cbn; rewrite N1]; [by left|by right].
  - change (DILL_IPADDR_PREF_IPV6 =? DILL_IPADDR_IPV4) with false. change (DILL_IPADDR_PREF_IPV6 =? DILL_IPADDR_IPV6) with false.
    change (DILL_IPADDR_PREF_IPV6 =? 0) with false. change (DILL_IPADDR_PREF_IPV6 =? DILL_IPADDR_PREF_IPV4) with false.
    change (DILL_IPADDR_PREF_IPV6 =? DILL_IPADDR_PREF_IPV6) with true. cbn [orb]. cbv iota.
    apply wp_bind. eapply (wp_literal6 _ _ _ _ _ port); [exact T1|lia|lia|exact Hn1| |].
    { intros s2 T _ Ha. rc0. apply wp_ret. rc0. apply (Hdone AF_INET6); try done. by left. }
    rc0. eapply (wp_literal4 _ _ _ _ _ port); [exact T2|lia|lia|exact Hn1| |].
    { intros s2 T _ Ha. rc0. apply (Hdone AF_INET); try done. by right. }
    rc0. subst depth. apply (both_families AF_INET6 AF_INET _ _ _ _ 0 _ _ _ _ host); try done; [..|by cbn; rewrite N1]; [by right|by left].
Qed.
End Resolve.

(** The preferred family of a mode and the other one. *)
Definition families (mode : Z) : Z * Z :=
  if mode =? DILL_IPADDR_IPV4 then (AF_INET, AF_INET)
  else if mode =? DILL_IPADDR_IPV6 then (AF_INET6, AF_INET6)
  else if mode =? DILL_IPADDR_PREF_IPV6 then (AF_INET6, AF_INET)
  else (AF_INET, AF_INET6).

(** C40. Resolution of a name, as long as the resolver reports no error that the code is not
    prepared for ([resolver_fails]): [dill_ipaddr_remotes] returns, within the recursion depth of 2
    and the number of events of the queries, writes only to the [naddrs] addresses of the
    caller, and fails or returns a number between 0 and [naddrs]; that many addresses from the
    start of the array have been filled with the port asked for, those of the preferred family
    first, and with a mode for one family only that family.  Such errors are: the configuration
    or a query cannot be created; [dns_res_open] fails with another [errno] than ENFILE and
    EMFILE; [dns_ai_nextent] returns another code than 0, EAGAIN, ENOENT and those of DNS.  They
    end in a failed assertion, the last in a null dereference ([resolver_error_crashes]). *)
Theorem ipaddr_remotes_bounds {N : Type} (le : bool) `{LawsN : ResolverLaws N le}
    fuel addrs naddrs name host port mode d (s : io N) :
  0 < addrs → 0 < naddrs → allocated (io_mem s) (arr addrs (SIZEOF_IPADDR * naddrs)) →
  name ≠ NULL → named name host addrs (SIZEOF_IPADDR * naddrs) s →
  0 ≤ mode ≤ 4 → 0 ≤ port ≤ 65535 → (query_bound (le := le) ≤ fuel)%nat → ¬ resolver_fails (io_net s) →
  wp (dill_ipaddr_remotes le fuel addrs naddrs name port mode d)
    (resolved le addrs naddrs (families mode).1 (families mode).2 port s) s.
Proof.
  intros HA Hn Hal Hnn Hname Hm Hp Hf Hcalm. unfold dill_ipaddr_remotes.
  assert (Hplain : ∀ fam, (mode = DILL_IPADDR_IPV4 ∧ fam = AF_INET) ∨ (mode = DILL_IPADDR_IPV6 ∧ fam = AF_INET6) →
    wp (remotes le 2 fuel addrs naddrs name port mode d) (resolved le addrs naddrs fam fam port s) s).
  { intros fam Hfam. eapply wp_mono; [by apply (remotes_plain le fam port mode d 1 fuel addrs naddrs name host s)|].
    intros rc s' (T & _ & [->|(k & -> & Hk & Hfill)]); (split; [done|]); [by left|]. right. exists k.
    split; [lia|]. split; [lia|]. split; [done|]. intros i Hi. lia. }
  assert (mode = 0 ∨ mode = 1 ∨ mode = 2 ∨ mode = 3 ∨ mode = 4) as [->|[->|[->|[->| ->]]]] by lia; cbn -[remotes].
  - apply (remotes_pref le 0 AF_INET AF_INET6 port d 1 fuel addrs naddrs name host s); try done. left. by split; [left|].
  - apply Hplain. by left.
  - apply Hplain. by right.
  - apply (remotes_pref le 3 AF_INET AF_INET6 port d 1 fuel addrs naddrs name host s); try done. left. by split; [right|].
  - apply (remotes_pref le 4 AF_INET6 AF_INET port d 1 fuel addrs naddrs name host s); try done. by right.
Qed.

(** * A resolver for examples *)

(** It knows the two loopback literals, and answers every query with two IPv4 addresses
    or one IPv6 address; its events are coded as input of socket -1.  Input of socket -2 is
    its trouble: it cannot be opened, or its queries fail. *)
Definition demo_event (c : Z) : ai_event :=
  if c =? 4 then AiEntry AF_INET (family_bytes true AF_INET ++ repeat 9 14)
  else if c =? 6 then AiEntry AF_INET6 (family_bytes true AF_INET6 ++ repeat 9 26)
  else if c =? 7 then AiError
  else if c =? 0 then AiAgain else AiEnd.

Definition LOOPBACK4 : list Z := [127; 0; 0; 1].
Definition LOOPBACK6 : list Z := repeat 0 15 ++ [1].
Definition TEXT4 : list Z := [49; 50; 55; 46; 48; 46; 48; 46; 49].
Definition TEXT6 : list Z := [58; 58; 49].

Definition demo_queue (l : list Z) (s : io loop) : io loop :=
  set_io_net (mk_loop (lo_out (io_net s)) (<[-1 := l]> (lo_in (io_net s)))) s.

#[export] Instance loop_resolver : Resolver loop := {|
  inet_pton := λ fam h,
    if (fam =? AF_INET) && bool_decide (h = TEXT4) then Some LOOPBACK4
    else if (fam =? AF_INET6) && bool_decide (h = TEXT6) then Some LOOPBACK6 else None;
  inet_ntop := λ fam a, if bool_decide (a = LOOPBACK4) then TEXT4 else TEXT6;
  getifaddrs := mret [];
  dns_config := mret true;
  dns_res_open := λ s, if bool_decide (in_of (io_net s) (-2) = [1]) then Some (false, set_io_errno ENOMEM s) else Some (true, s);
  dns_ai_open := λ _ _ v4 s, modify (demo_queue (if bool_decide (in_of (io_net s) (-2) = [2]) then [7; 1]
    else if v4 : bool then [0; 4; 4; 1] else [6; 1])) s;
  dns_ai_nextent := λ s,
    match in_of (io_net s) (-1) with
    | [] => Some (AiEnd, s)
    | c :: l => Some (demo_event c, demo_queue l s)
    end;
  dns_ai_wait := λ _, mret 0;
|}.

#[export, refine] Instance loop_resolver_laws : ResolverLaws loop true := {|
  resolver_fails := λ nt, in_of nt (-2) ≠ [];
  pending := λ nt, map demo_event (in_of nt (-1));
  query_bound := 4;
|}.
Proof.
  - intros s Hc. exists true, (io_net s), (io_errno s). split; [by destruct s|done].
  - intros s Hc. apply dec_stable in Hc. exists true, (io_net s), (io_errno s). cbn. rewrite Hc. split; [by destruct s|].
    split; [by intros []|done].
  - intros h port v4 s Hc. apply dec_stable in Hc. cbn. rewrite Hc. eexists _, (io_errno s). split; [by destruct s|].
    unfold in_of in *. cbn [lo_in]. rewrite lookup_insert_eq, lookup_insert_ne, Hc by done. split; [by intros []|].
    cbn [default]. destruct v4.
    + exists [AiAgain; demo_event 4; demo_event 4]. split; [done|]. split; [|cbn; lia]. repeat constructor; done.
    + exists [demo_event 6]. split; [done|]. split; [|cbn; lia]. repeat constructor; done.
  - intros ev evs s E Hc. cbn. destruct (in_of (io_net s) (-1)) as [|c l]; [done|]. injection E as <- <-.
    eexists _, (io_errno s). split; [by destruct s|]. unfold in_of in *. cbn [lo_in]. by rewrite lookup_insert_eq, lookup_insert_ne by done.
  - intros d s Hc. exists 0, (io_net s), (io_errno s). split; [by destruct s|done].
  - intros h a. cbn. destruct (bool_decide (h = TEXT4)); [by intros [= <-]|done].
  - intros h a. cbn. destruct (bool_decide (h = TEXT6)); [by intros [= <-]|done].
Defined.

(** The name ["x"] at 1900. *)
Definition demo_name_io : io loop := set_io_mem (put 1900 [120] (io_mem (demo_io [] [] []))) (demo_io [] [] []).

(** The same with a resolver that is in trouble *)
Definition demo_trouble_io (trouble : list Z) : io loop :=
  set_io_net (mk_loop (lo_out (io_net demo_name_io)) (<[-2 := trouble]> (lo_in (io_net demo_name_io)))) demo_name_io.

(** The code is not prepared for such errors: a resolver that cannot be opened for want of memory
    fails an assertion, and a query that fails makes it use a null entry. *)
Lemma resolver_error_crashes :
  dill_ipaddr_remotes true 4 1000 4 1900 80 DILL_IPADDR_IPV4 (-1) (demo_trouble_io [1]) = None ∧
  dill_ipaddr_remotes true 4 1000 4 1900 80 DILL_IPADDR_IPV4 (-1) (demo_trouble_io [2]) = None ∧
  fst <$> dill_ipaddr_remotes true 4 1000 4 1900 80 DILL_IPADDR_IPV4 (-1) (demo_trouble_io []) = Some 2.
Proof. split; [|split]; vm_compute; reflexivity. Qed.

Lemma ipaddr_remotes_bounds_witness :
  wp (dill_ipaddr_remotes true 4 1000 4 1900 80 DILL_IPADDR_PREF_IPV4 (-1))
    (resolved true 1000 4 AF_INET AF_INET6 80 demo_name_io) demo_name_io ∧
  fst <$> dill_ipaddr_remotes true 4 1000 4 1900 80 DILL_IPADDR_PREF_IPV4 (-1) demo_name_io = Some 3.
Proof.
  split; [|vm_compute; reflexivity].
  apply (ipaddr_remotes_bounds true 4 1000 4 1900 [120] 80 3 (-1) demo_name_io); try done.
  - apply (allocated_scatter (arr 1900 2)); by apply demo_room.
  - split; [vm_compute; reflexivity|right; done].
  - vm_compute. by intros [].
Defined.
