(* ===== verification/Fd.v ===== *)
(** Non-blocking file descriptors ([fd.c]): sending and receiving lists of buffers, with
    an input buffer, connecting, accepting and closing; and the objects over them.

    The system is the parameter [K], through the class [Os]; each socket has a stream
    of bytes.  The receive buffers are not part of the byte memory of [Sock]: only this
    component accesses them. *)

From Stdlib Require Import ZArith Lia.
From stdpp Require Import base gmap list.
From S2P Require Import Prelude Handle Iol Sock Ipaddr.
Open Scope Z_scope.

Definition DILL_FD_CACHESIZE : Z := 32.
Definition DILL_FD_BUFSIZE : Z := 1984.
(** [EAGAIN] and [EWOULDBLOCK]; [ENOTCONN], [ENOBUFS] *)
Definition EAGAIN : errno_t := EOTHER 11.
Definition ENOTCONN : errno_t := EOTHER 107.
Definition ENOBUFS : errno_t := EOTHER 105.

Definition EINPROGRESS : errno_t := EOTHER 115.
Definition ECONNABORTED : errno_t := EOTHER 103.
Definition ENOPROTOOPT : errno_t := EOTHER 92.
Definition ENAMETOOLONG : errno_t := EOTHER 36.
Definition O_NONBLOCK : Z := 2048.
Definition SOCK_STREAM : Z := 1.
Definition SOCK_DGRAM : Z := 2.

(** [len] and [pos] delimit the unread bytes of [buf]. *)
Record dill_fd_rxbuf := mk_rxbuf {
  rx_len : Z;
  rx_pos : Z;
  rx_buf : option (list Z);
}.

(** * The objects *)

Record dill_tcp_conn := mk_tcp {
  tc_fd : Z;
  tc_rxbuf : dill_fd_rxbuf;
  tc_rbusy : bool;
  tc_sbusy : bool;
  tc_indone : bool;
  tc_outdone : bool;
  tc_inerr : bool;
  tc_outerr : bool;
  tc_mem : bool;
}.

(** Storing to one of the fields. *)
Definition set_rxbuf (v : dill_fd_rxbuf) (x : dill_tcp_conn) : dill_tcp_conn :=
  mk_tcp (tc_fd x) v (tc_rbusy x) (tc_sbusy x) (tc_indone x) (tc_outdone x) (tc_inerr x) (tc_outerr x) (tc_mem x).
Definition set_rbusy (v : bool) (x : dill_tcp_conn) : dill_tcp_conn :=
  mk_tcp (tc_fd x) (tc_rxbuf x) v (tc_sbusy x) (tc_indone x) (tc_outdone x) (tc_inerr x) (tc_outerr x) (tc_mem x).
Definition set_sbusy (v : bool) (x : dill_tcp_conn) : dill_tcp_conn :=
  mk_tcp (tc_fd x) (tc_rxbuf x) (tc_rbusy x) v (tc_indone x) (tc_outdone x) (tc_inerr x) (tc_outerr x) (tc_mem x).
Definition set_indone (x : dill_tcp_conn) : dill_tcp_conn :=
  mk_tcp (tc_fd x) (tc_rxbuf x) (tc_rbusy x) (tc_sbusy x) true (tc_outdone x) (tc_inerr x) (tc_outerr x) (tc_mem x).
Definition set_outdone (x : dill_tcp_conn) : dill_tcp_conn :=
  mk_tcp (tc_fd x) (tc_rxbuf x) (tc_rbusy x) (tc_sbusy x) (tc_indone x) true (tc_inerr x) (tc_outerr x) (tc_mem x).
Definition set_inerr (x : dill_tcp_conn) : dill_tcp_conn :=
  mk_tcp (tc_fd x) (tc_rxbuf x) (tc_rbusy x) (tc_sbusy x) (tc_indone x) (tc_outdone x) true (tc_outerr x) (tc_mem x).
Definition set_outerr (x : dill_tcp_conn) : dill_tcp_conn :=
  mk_tcp (tc_fd x) (tc_rxbuf x) (tc_rbusy x) (tc_sbusy x) (tc_indone x) (tc_outdone x) (tc_inerr x) true (tc_mem x).
Definition set_unmem (x : dill_tcp_conn) : dill_tcp_conn :=
  mk_tcp (tc_fd x) (tc_rxbuf x) (tc_rbusy x) (tc_sbusy x) (tc_indone x) (tc_outdone x) (tc_inerr x) (tc_outerr x) false.

(** The address of a listener is never set. *)
Record dill_tcp_listener := mk_tcp_listener { tl_fd : Z; tl_mem : bool }.

(** A UNIX connection: the fields of [struct dill_ipc_conn] are those of
    [struct dill_tcp_conn] and [scm_rights]. *)
Record dill_ipc_conn := mk_ipc {
  ip_conn : dill_tcp_conn;
  scm_rights : bool;
}.
Record dill_ipc_listener := mk_ipc_listener { il_fd : Z; il_mem : bool }.

(** [remote] is in the memory of the object. *)
Record dill_udp_sock := mk_udp {
  ud_fd : Z;
  ud_busy : bool;
  ud_hasremote : bool;
  ud_mem : bool;
}.
Definition ud_remote (p : ptr) : ptr := p + 36.

Inductive fdobj :=
  | TcpConn (x : dill_tcp_conn)
  | TcpListener (x : dill_tcp_listener)
  | IpcConn (x : dill_ipc_conn)
  | IpcListener (x : dill_ipc_listener)
  | UdpSock (x : dill_udp_sock).

(** * The system *)

(** A control message of [recvmsg]: its level and type agree with [SOL_SOCKET] and
    [SCM_RIGHTS], and its first [int]. *)
Record cmsg := mk_cmsg { cm_rights : bool; cm_data : Z }.

(** The system calls, and [dill_fdin] and [dill_fdout], during which other coroutines
    run; addresses are the bytes of a [struct sockaddr]. *)
Class Os (K : Type) := {
  (** [sendmsg] of these bytes: how many were taken *)
  os_send : Z → list Z → K → (Z + errno_t) * K;
  (** [recvmsg] or [recv] of up to so many bytes; none at the end of the stream *)
  os_recv : Z → Z → K → (list Z + errno_t) * K;
  os_fdin : Z → Z → K → option errno_t * K;
  os_fdout : Z → Z → K → option errno_t * K;
  os_fdclean : Z → K → Z * K;
  os_shutdown : Z → K → option errno_t * K;
  os_close : Z → K → K;
  (** [fcntl]: [F_GETFL], -1 on failure, and [F_SETFL]; [setsockopt]: [SO_REUSEADDR] and
      [SO_LINGER] *)
  os_getfl : Z → K → Z * K;
  os_setfl : Z → Z → K → bool * K;
  os_reuseaddr : Z → K → bool * K;
  os_linger : Z → K → K;
  (** [getsockopt]: [SO_ERROR], the pending error if any; [SO_TYPE], [SO_ACCEPTCONN] *)
  os_so_error : Z → K → (option errno_t + errno_t) * K;
  os_so_type : Z → K → (Z + errno_t) * K;
  os_so_acceptconn : Z → K → (Z + errno_t) * K;
  os_getsockname : Z → K → (list Z + errno_t) * K;
  os_dup : Z → K → (Z + errno_t) * K;
  os_socket : Z → Z → K → (Z + errno_t) * K;
  os_socketpair : K → (Z * Z + errno_t) * K;
  os_connect : Z → list Z → K → option errno_t * K;
  os_bind : Z → list Z → K → option errno_t * K;
  os_listen : Z → Z → K → option errno_t * K;
  (** the new socket and the address of the peer *)
  os_accept : Z → K → (Z * list Z + errno_t) * K;
  (** [sendmsg] of one byte with a descriptor; [recvmsg] of one byte and control messages *)
  os_sendfd : Z → Z → K → (Z + errno_t) * K;
  os_recvfd : Z → K → (Z * list cmsg + errno_t) * K;
  (** [sendmsg] to an address; [recvmsg] with the address of the sender *)
  os_sendto : Z → list Z → list Z → K → (Z + errno_t) * K;
  os_recvfrom : Z → Z → K → (list Z * list Z + errno_t) * K;
}.

(** [fn_cache] buffers are in the cache of [struct dill_ctx_fd], [fn_count] is its
    [count]; [fn_budget] allocations of buffers still succeed; the objects by
    address. *)
Record fdnet (K : Type) := mk_fdnet {
  fn_os : K;
  fn_count : Z;
  fn_cache : nat;
  fn_budget : nat;
  fn_objs : gmap Z fdobj;
}.
Arguments mk_fdnet {K}.
Arguments fn_os {K}.
Arguments fn_count {K}.
Arguments fn_cache {K}.
Arguments fn_budget {K}.
Arguments fn_objs {K}.

Section Fd.
Context {K : Type} `{OsK : Os K}.
(** The endianness of the machine. *)
Context (le : bool).
Local Abbreviation FD := (IO (fdnet K)).

(** A system call. *)
Definition sys {A} (f : K → A * K) : FD A := λ s,
  let n := io_net s in
  let '(a, o) := f (fn_os n) in
  Some (a, set_io_net (mk_fdnet o (fn_count n) (fn_cache n) (fn_budget n) (fn_objs n)) s).

Definition with_cache (count : Z) (cache budget : nat) (s : io (fdnet K)) : io (fdnet K) :=
  let n := io_net s in set_io_net (mk_fdnet (fn_os n) count cache budget (fn_objs n)) s.

(** Whether there is a buffer: from the cache, or allocated. *)
Definition dill_fd_allocbuf : FD bool := λ s,
  let n := io_net s in
  match fn_cache n, fn_budget n with
  | S k, b => Some (true, with_cache (fn_count n - 1) k b s)
  | O, S b => Some (true, with_cache (fn_count n) O b s)
  | O, O => Some (false, set_io_errno ENOMEM s)
  end.

Definition dill_fd_freebuf : FD unit := λ s,
  let n := io_net s in
  if DILL_FD_CACHESIZE <=? fn_count n then Some (tt, s)
  else Some (tt, with_cache (fn_count n + 1) (S (fn_cache n)) (fn_budget n) s).

Definition dill_fd_initrxbuf : dill_fd_rxbuf := mk_rxbuf 0 0 None.

Definition dill_fd_termrxbuf (rx : dill_fd_rxbuf) : FD unit :=
  match rx_buf rx with Some _ => dill_fd_freebuf | None => mret tt end.

(** [iolcheck] on the lists of the state *)
Definition check_list (first last : ptr) : FD (Z * Z + errno_t) := λ s,
  match dill_iolcheck (S (size (io_nodes s))) first last (io_nodes s) with
  | Some (r, h) => Some (r, set_io_nodes h s)
  | None => None
  end.

(** The bytes of an [iovec], and storing into one; [NULL] must have length 0. *)
Fixpoint iov_load (iov : list (ptr * Z)) (m : gmap Z Z) : option (list Z) :=
  match iov with
  | [] => Some []
  | (b, n) :: iov => x ← load_bytes b (Z.to_nat n) m; y ← iov_load iov m; Some (x ++ y)
  end.

Fixpoint iov_store (iov : list (ptr * Z)) (bs : list Z) (m : gmap Z Z) : option (gmap Z Z) :=
  match iov with
  | [] => Some m
  | (b, n) :: iov =>
    m ← store_bytes b (take (Z.to_nat n) bs) m;
    iov_store iov (drop (Z.to_nat n) bs) m
  end.

Definition iov_len (iov : list (ptr * Z)) : Z := foldr (λ p a, p.2 + a) 0 iov.

(** [while(hdr.msg_iovlen && !hdr.msg_iov[0].iov_len)] *)
Fixpoint skip_zeros (iov : list (ptr * Z)) : list (ptr * Z) :=
  match iov with
  | (b, n) :: tl => if n =? 0 then skip_zeros tl else iov
  | [] => []
  end.

(** [while(sz)]: what is left of the array; nothing is [return 0]. *)
Fixpoint adjust (iov : list (ptr * Z)) (sz : Z) : list (ptr * Z) :=
  if sz =? 0 then iov
  else match iov with
  | [] => []
  | (b, n) :: tl => if sz <? n then (b + sz, n - sz) :: tl else adjust tl (sz - n)
  end.

(** The system's answer as a count, [EAGAIN] being 0; [None] is -1. *)
Definition would_block (e : errno_t) : FD bool :=
  if bool_decide (e = EAGAIN) then mret true
  else set_errno (if bool_decide (e = EPIPE) then ECONNRESET else e);; mret false.

Fixpoint send_loop (fuel : nat) (s : Z) (iov : list (ptr * Z)) (deadline : Z) : FD Z :=
  match fuel with
  | O => crash
  | S fuel =>
    let iov := skip_zeros iov in
    if bool_decide (iov = []) then mret 0
    else
      bs ← (λ s, match iov_load iov (io_mem s) with Some bs => Some (bs, s) | None => None end);
      r ← sys (os_send s bs);
      o ← match r with
          | inl sz => assert_ (negb (sz =? 0));; mret (Some sz)
          | inr e => b ← would_block e; mret (if b : bool then Some 0 else None)
          end;
      match o with
      | None => mret (-1)
      | Some sz =>
        let iov' := adjust iov sz in
        if negb (sz =? 0) && bool_decide (iov' = []) then mret 0
        else
          r ← sys (os_fdout s deadline);
          match r with
          | Some e => fail e
          | None => send_loop fuel s iov' deadline
          end
      end
  end.

Definition dill_fd_send (fuel : nat) (s : Z) (first last : ptr) (deadline : Z) : FD Z :=
  r ← check_list first last;
  match r with
  | inr e => fail e
  | inl _ =>
    iov ← read_nodes (λ h, dill_ioltoiov (S (size h)) first h);
    send_loop fuel s iov deadline
  end.

Fixpoint recv_loop_ (fuel : nat) (s : Z) (iov : list (ptr * Z)) (deadline : Z) : FD Z :=
  match fuel with
  | O => crash
  | S fuel =>
    r ← sys (os_recv s (iov_len iov));
    o ← match r with
        | inl [] => set_errno EPIPE;; mret None
        | inl bs =>
          (λ s, match iov_store iov bs (io_mem s) with Some m => Some (tt, set_io_mem m s) | None => None end);;
          mret (Some (Z.of_nat (length bs)))
        | inr e => b ← would_block e; mret (if b : bool then Some 0 else None)
        end;
    match o with
    | None => mret (-1)
    | Some sz =>
      let iov' := adjust iov sz in
      if negb (sz =? 0) && bool_decide (iov' = []) then mret 0
      else
        r ← sys (os_fdin s deadline);
        match r with
        | Some e => fail e
        | None => recv_loop_ fuel s iov' deadline
        end
    end
  end.

Definition dill_fd_recv_ (fuel : nat) (s : Z) (first last : ptr) (deadline : Z) : FD Z :=
  r ← check_list first last;
  match r with
  | inr e => fail e
  | inl _ =>
    iov ← read_nodes (λ h, dill_ioltoiov (S (size h)) first h);
    recv_loop_ fuel s iov deadline
  end.

(** [len] negative: until an error occurs, which [rounds] must be enough for. *)
Fixpoint skip_loop (rounds fuel : nat) (s : Z) (buf : ptr) (len deadline : Z) : FD Z :=
  if len =? 0 then mret 0
  else match rounds with
  | O => crash
  | S rounds =>
    let to_recv := if (len <? 0) || (512 <? len) then 512 else len in
    rc ← with_iol (mk_iolist buf to_recv NULL 0) (λ iol, dill_fd_recv_ fuel s iol iol deadline);
    if rc <? 0 then mret (-1)
    else skip_loop rounds fuel s buf (if 0 <=? len then len - to_recv else len) deadline
  end.

Definition dill_fd_skip (rounds fuel : nat) (s len deadline : Z) : FD Z :=
  with_buf 512 (λ buf, skip_loop rounds fuel s buf len deadline).

(** [memcpy] from the buffer, unless the bytes are to be skipped *)
Definition copy_out (rx : dill_fd_rxbuf) (base : ptr) (n : Z) : FD unit :=
  if base =? NULL then mret tt
  else match rx_buf rx with
  | None => crash
  | Some buf => store base (take (Z.to_nat n) (drop (Z.to_nat (rx_pos rx)) buf))
  end.

Definition dill_fd_copy (rx : dill_fd_rxbuf) (iol : iolist) : FD (Z * dill_fd_rxbuf) :=
  let rmn := u64 (rx_len rx - rx_pos rx) in
  if rmn =? 0 then mret (0, rx)
  else if rmn <? iol_len iol then
    copy_out rx (iol_base iol) rmn;;
    dill_fd_freebuf;;
    mret (rmn, mk_rxbuf 0 0 None)
  else
    copy_out rx (iol_base iol) (iol_len iol);;
    mret (iol_len iol, mk_rxbuf (rx_len rx) (rx_pos rx + iol_len iol) (rx_buf rx)).

(** Fill in data from the buffer: [None] when the list is full, or the element reached
    and the number of bytes copied to it. *)
Fixpoint fill_loop (fuel : nat) (rx : dill_fd_rxbuf) (first : ptr) : FD (dill_fd_rxbuf * option (ptr * Z)) :=
  match fuel with
  | O => crash
  | S fuel =>
    f ← get_node first;
    '(sz, rx) ← dill_fd_copy rx f;
    if sz <? iol_len f then mret (rx, Some (first, sz))
    else if iol_next f =? NULL then mret (rx, None)
    else fill_loop fuel rx (iol_next f)
  end.

(** What is left of an element after [sz] bytes. *)
Definition advance (f : iolist) (sz : Z) : iolist :=
  mk_iolist (if iol_base f =? NULL then NULL else iol_base f + sz) (iol_len f - sz) (iol_next f) 0.

Definition set_link (p q : ptr) : FD unit :=
  n ← get_node p; put_node p (mk_iolist (iol_base n) (iol_len n) q (iol_rsvd n)).

(** The loop that splits the list at the elements without a buffer.  The result of
    [dill_fd_skip] is not looked at. *)
Fixpoint split_loop (turns rounds fuel : nat) (s : Z) (begin it stop : ptr) (deadline : Z) : FD Z :=
  match turns with
  | O => crash
  | S turns =>
    n ← get_node it;
    let next (_ : unit) :=
      if it =? stop then mret 0
      else
        n ← get_node it;
        split_loop turns rounds fuel s (iol_next n) (iol_next n) stop deadline in
    if iol_len n =? 0 then assert_ (it =? begin);; next tt
    else if iol_base n =? NULL then
      assert_ (it =? begin);;
      _ ← dill_fd_skip rounds fuel s (s64 (iol_len n)) deadline;
      next tt
    else
      cut ← (if it =? stop then mret true
             else nx ← get_node (iol_next n); mret ((iol_base nx =? NULL) || (iol_len nx =? 0)));
      if cut : bool then
        set_link it NULL;;
        rc ← dill_fd_recv_ fuel s begin it deadline;
        set_link it (iol_next n);;
        if rc <? 0 then mret (-1) else next tt
      else split_loop turns rounds fuel s begin (iol_next n) stop deadline
  end.

(** Copy from the buffer to the elements from [curr] on. *)
Fixpoint copy_loop (fuel : nat) (rx : dill_fd_rxbuf) (curr : iolist) : FD (dill_fd_rxbuf * option iolist) :=
  match fuel with
  | O => crash
  | S fuel =>
    '(sz, rx) ← dill_fd_copy rx curr;
    if sz <? iol_len curr then
      mret (rx, Some (mk_iolist (if iol_base curr =? NULL then NULL else iol_base curr + sz) (iol_len curr - sz)
        (iol_next curr) (iol_rsvd curr)))
    else if iol_next curr =? NULL then mret (rx, None)
    else
      curr ← get_node (iol_next curr);
      copy_loop fuel rx curr
  end.

(** The loop that receives through the buffer. *)
Fixpoint buffered_loop (fuel : nat) (s : Z) (rx : dill_fd_rxbuf) (curr : iolist) (deadline : Z)
    : FD (Z * dill_fd_rxbuf) :=
  match fuel with
  | O => crash
  | S fuel =>
    ok ← match rx_buf rx with Some _ => mret true | None => dill_fd_allocbuf end;
    if negb ok then mret (-1, rx)
    else
      let rx := mk_rxbuf (rx_len rx) (rx_pos rx) (Some (default [] (rx_buf rx))) in
      r ← sys (os_recv s DILL_FD_BUFSIZE);
      o ← match r with
          | inl [] => set_errno EPIPE;; mret None
          | inl bs => mret (Some bs)
          | inr e => b ← would_block e; mret (if b : bool then Some [] else None)
          end;
      match o with
      | None => mret (-1, rx)
      | Some bs =>
        let rx := mk_rxbuf (Z.of_nat (length bs)) 0 (Some bs) in
        n ← gets (λ s, size (io_nodes s));
        '(rx, o) ← copy_loop (S n) rx curr;
        match o with
        | None => mret (0, rx)
        | Some curr =>
          r ← sys (os_fdin s deadline);
          match r with
          | Some e => set_errno e;; mret (-1, rx)
          | None => buffered_loop fuel s rx curr deadline
          end
        end
      end
  end.

(** [rx] is the buffer [rxbuf] points to, or [None]; it is returned as it is left. *)
Definition dill_fd_recv (rounds fuel : nat) (s : Z) (rx : option dill_fd_rxbuf) (first last : ptr) (deadline : Z)
    : FD (Z * option dill_fd_rxbuf) :=
  if (first =? NULL) && (last =? NULL) then
    rc ← dill_fd_skip rounds fuel s (-1) deadline;
    mret (rc, rx)
  else
    n ← gets (λ s, size (io_nodes s));
    '(rx, o) ← match rx with
               | None => mret (None, Some (first, 0))
               | Some rx => '(rx, o) ← fill_loop (S n) rx first; mret (Some rx, o)
               end;
    match o with
    | None => mret (0, rx)
    | Some (first, sz) =>
      f ← get_node first;
      with_iol (advance f sz) (λ curr,
        miss ← read_nodes (λ h, sum_len (S (size h)) curr 0 h);
        c ← get_node curr;
        match rx with
        | Some rx' =>
          if miss <=? DILL_FD_BUFSIZE then
            '(rc, rx') ← buffered_loop fuel s rx' c deadline;
            mret (rc, Some rx')
          else
            rc ← split_loop (S n + S n) rounds fuel s curr curr (if iol_next c =? NULL then curr else last) deadline;
            mret (rc, rx)
        | None =>
          rc ← split_loop (S n + S n) rounds fuel s curr curr (if iol_next c =? NULL then curr else last) deadline;
          mret (rc, rx)
        end)
    end.

(** * Connecting, accepting, closing *)

Definition dill_ctx_fd_init (s : io (fdnet K)) : io (fdnet K) := with_cache 0 O (fn_budget (io_net s)) s.

(** [free] of every buffer of the cache *)
Definition dill_ctx_fd_term (s : io (fdnet K)) : io (fdnet K) :=
  with_cache (fn_count (io_net s)) O (fn_budget (io_net s)) s.

Definition dill_fd_unblock (s : Z) : FD Z :=
  opt ← sys (os_getfl s);
  let opt := if opt =? -1 then 0 else opt in
  ok ← sys (os_setfl s (Z.lor opt O_NONBLOCK));
  assert_ ok;;
  ok ← sys (os_reuseaddr s);
  assert_ ok;;
  mret 0.

Definition dill_fd_connect (s : Z) (addr : list Z) (deadline : Z) : FD Z :=
  r ← sys (os_connect s addr);
  match r with
  | None => mret 0
  | Some e =>
    if negb (bool_decide (e = EINPROGRESS)) then fail e
    else
      r ← sys (os_fdout s deadline);
      match r with
      | Some e => fail e
      | None =>
        r ← sys (os_so_error s);
        match r with
        | inr e => fail e
        | inl (Some e) => fail e
        | inl None => mret 0
        end
      end
  end.

(** The loop of [dill_fd_accept]; the address of the peer goes to [addr] unless it is
    [NULL]. *)
Fixpoint accept_loop (fuel : nat) (s : Z) (addr : ptr) (addrlen deadline : Z) : FD (option Z) :=
  match fuel with
  | O => crash
  | S fuel =>
    r ← sys (os_accept s);
    match r with
    | inl (as_, peer) =>
      (if addr =? NULL then mret tt else store addr (take (Z.to_nat addrlen) peer));;
      mret (Some as_)
    | inr e =>
      if bool_decide (e = ECONNABORTED) then accept_loop fuel s addr addrlen deadline
      else if negb (bool_decide (e = EAGAIN)) then set_errno e;; mret None
      else
        r ← sys (os_fdin s deadline);
        match r with
        | Some e => set_errno e;; mret None
        | None => accept_loop fuel s addr addrlen deadline
        end
    end
  end.

Definition dill_fd_accept (fuel : nat) (s : Z) (addr : ptr) (addrlen deadline : Z) : FD Z :=
  o ← accept_loop fuel s addr addrlen deadline;
  match o with
  | None => mret (-1)
  | Some as_ => rc ← dill_fd_unblock as_; assert_ (rc =? 0);; mret as_
  end.

Definition dill_fd_close (s : Z) : FD unit :=
  rc ← sys (os_fdclean s);
  assert_ (rc =? 0);;
  sys (λ k, (tt, os_linger s k));;
  sys (λ k, (tt, os_close s k)).

Definition dill_fd_own (s : Z) : FD Z :=
  r ← sys (os_dup s);
  match r with
  | inr e => fail e
  | inl n => dill_fd_close s;; mret n
  end.

(** [family2] is -1 when there is one family only. *)
Definition dill_fd_check (s type family1 family2 listening : Z) : FD Z :=
  r ← sys (os_so_type s);
  match r with
  | inr e => fail e
  | inl val =>
    if negb (val =? type) then fail EINVAL
    else
      r ← sys (os_so_acceptconn s);
      bad ← match r with
            | inr e => mret (if bool_decide (e = ENOPROTOOPT) then None else Some e)
            | inl val => mret (if negb (val =? listening) then Some EINVAL else None)
            end;
      match bad with
      | Some e => fail e
      | None =>
        r ← sys (os_getsockname s);
        match r with
        | inr e => fail e
        | inl ss =>
          let family := family_of le (take 2 ss) in
          if negb (family =? family1) && negb (family =? family2) then fail EINVAL else mret 0
        end
      end
  end.

(** * Objects and handles *)

Definition get_obj (p : ptr) : FD fdobj := λ s, x ← fn_objs (io_net s) !! p; Some (x, s).
Definition put_obj (p : ptr) (x : fdobj) : FD unit := λ s,
  let n := io_net s in
  Some (tt, set_io_net (mk_fdnet (fn_os n) (fn_count n) (fn_cache n) (fn_budget n) (<[p := x]> (fn_objs n))) s).
(** [free(self)] *)
Definition free_obj (p n : Z) : FD unit :=
  (λ s, let n := io_net s in
    Some (tt, set_io_net (mk_fdnet (fn_os n) (fn_count n) (fn_cache n) (fn_budget n) (delete p (fn_objs n))) s));;
  free p n.

Definition dill_tcp_type : ptr := 21.
Definition dill_tcp_listener_type : ptr := 22.
Definition dill_ipc_type : ptr := 23.
Definition dill_ipc_listener_type : ptr := 24.
Definition dill_udp_type : ptr := 25.

(** The query functions; [NULL] comes with [ENOTSUP]. *)
Definition dill_tcp_hquery (p ty : ptr) : ptr :=
  if ty =? dill_bsock_type then p else if ty =? dill_tcp_type then p else NULL.
Definition dill_tcp_listener_hquery (p ty : ptr) : ptr := if ty =? dill_tcp_listener_type then p else NULL.
Definition dill_ipc_hquery (p ty : ptr) : ptr :=
  if ty =? dill_bsock_type then p else if ty =? dill_ipc_type then p else NULL.
Definition dill_ipc_listener_hquery (p ty : ptr) : ptr := if ty =? dill_ipc_listener_type then p else NULL.
Definition dill_udp_hquery (p ty : ptr) : ptr :=
  if ty =? dill_msock_type then p else if ty =? dill_udp_type then p else NULL.

Definition obj_query (o : fdobj) (p ty : ptr) : ptr :=
  match o with
  | TcpConn _ => dill_tcp_hquery p ty
  | TcpListener _ => dill_tcp_listener_hquery p ty
  | IpcConn _ => dill_ipc_hquery p ty
  | IpcListener _ => dill_ipc_listener_hquery p ty
  | UdpSock _ => dill_udp_hquery p ty
  end.

(** The virtual query of a handle: of an object of this component ([ONet]), or of a
    protocol. *)
Definition fd_query (v : sobj) (ty : ptr) : FD ptr :=
  q ← match v with
      | ONet p => o ← get_obj p; mret (obj_query o p ty)
      | OPrefix p => mret (dill_prefix_hquery p ty)
      | OSuffix p => mret (dill_suffix_hquery p ty)
      | OTerm p => mret (dill_term_hquery p ty)
      | OHttp p => mret (dill_http_hquery p ty)
      | OWs p => mret (dill_ws_hquery p ty)
      end;
  if q =? NULL then set_errno ENOTSUP;; mret NULL else mret q.

Definition fd_env (close : sobj → FD unit) : HandleEnv sobj FD := {|
  h_get := gets io_handles;
  h_put := λ c, modify (set_io_handles c);
  h_errno := λ e, modify (set_io_errno e);
  h_canblock := λ s, if io_nb1 s || io_nb2 s then Some (-1, set_io_errno ECANCELED s) else Some (0, s);
  h_no_blocking := λ b s, Some (io_nb2 s, set_io_nb2 b s);
  h_realloc := λ _ s, match io_budget s with
    | O => Some (false, s)
    | S n => Some (true, set_io_budget n s)
    end;
  h_has_methods := λ _, true;
  h_query := fd_query;
  h_close := close;
  h_crash := λ A, crash;
|}.

Definition fquery (close : sobj → FD unit) (h : Z) (ty : ptr) : FD ptr :=
  @dill_hquery sobj FD _ _ (fd_env close) h ty.
Definition fclose (close : sobj → FD unit) (h : Z) : FD Z := @dill_hclose sobj FD _ _ (fd_env close) h.
Definition fmake (close : sobj → FD unit) (p : ptr) : FD Z := @dill_hmake sobj FD _ _ (fd_env close) (Some (ONet p)).

(** The label [error1] of the functions that open a socket, and [err = errno; goto error1]. *)
Definition open_error (err : errno_t) : FD Z := set_errno err;; mret (-1).
Definition open_errno : FD Z := err ← get_errno; open_error err.
(** The label [error2], with [dill_fd_close] or with [close] *)
Definition open_close (s : Z) : FD Z := err ← get_errno; dill_fd_close s;; open_error err.
Definition open_rawclose (s : Z) : FD Z := err ← get_errno; sys (λ k, (tt, os_close s k));; open_error err.

(** The functions that allocate an object of [size] bytes, open a socket in it and mark
    the object as theirs. *)
Definition with_object (size : Z) (open : ptr → FD Z) (own : fdobj → fdobj) : FD Z :=
  o ← malloc size;
  match o with
  | None => open_error ENOMEM
  | Some obj =>
    s ← open obj;
    if s <? 0 then
      err ← get_errno;
      free_obj obj size;;
      open_error err
    else
      x ← get_obj obj;
      put_obj obj (own x);;
      mret s
  end.

(** The functions that make a socket of a file descriptor; [make] creates the object and
    its handle. *)
Definition fromfd (family1 family2 listening : Z) (make : Z → ptr → FD Z) (fd : Z) (mem : ptr) : FD Z :=
  if (mem =? NULL) || (fd <? 0) then open_error EINVAL
  else
    rc ← dill_fd_check fd SOCK_STREAM family1 family2 listening;
    if rc <? 0 then open_errno
    else
      fd ← dill_fd_own fd;
      if fd <? 0 then open_errno
      else
        rc ← dill_fd_unblock fd;
        if rc <? 0 then open_errno
        else
          h ← make fd mem;
          if h <? 0 then open_errno else mret h.

(** The functions that connect: [fam] is the family of the new socket, [addr] the
    address. *)
Definition connect_to (fam : Z) (addr : list Z) (make : Z → ptr → FD Z) (mem : ptr) (deadline : Z) : FD Z :=
  r ← sys (os_socket fam SOCK_STREAM);
  match r with
  | inr e => open_error e
  | inl s =>
    rc ← dill_fd_unblock s;
    if rc <? 0 then open_close s
    else
      rc ← dill_fd_connect s addr deadline;
      if rc <? 0 then open_close s
      else
        h ← make s mem;
        if h <? 0 then open_close s else mret h
  end.

(** The functions that listen; [after] is what is done before the handle is made. *)
Definition listen_on (fam : Z) (addr : list Z) (backlog : Z) (after : Z → FD Z) (make : Z → ptr → FD Z)
    (mem : ptr) : FD Z :=
  r ← sys (os_socket fam SOCK_STREAM);
  match r with
  | inr e => open_error e
  | inl s =>
    rc ← dill_fd_unblock s;
    if rc <? 0 then open_rawclose s
    else
      r ← sys (os_bind s addr);
      match r with
      | Some e => set_errno e;; open_rawclose s
      | None =>
        r ← sys (os_listen s backlog);
        match r with
        | Some e => set_errno e;; open_rawclose s
        | None =>
          rc ← after s;
          if rc <? 0 then open_rawclose s
          else
            h ← make s mem;
            if h <? 0 then open_rawclose s else mret h
        end
      end
  end.

(** The functions that accept, [lfd] being the file descriptor of the listener. *)
Definition accept_on (fuel : nat) (lfd : Z) (addr : ptr) (make : Z → ptr → FD Z) (mem : ptr) (deadline : Z) : FD Z :=
  as_ ← dill_fd_accept fuel lfd addr SIZEOF_IPADDR deadline;
  if as_ <? 0 then open_errno
  else
    rc ← dill_fd_unblock as_;
    if rc <? 0 then open_close as_
    else
      h ← make as_ mem;
      if h <? 0 then open_close as_ else mret h.

(** [getsockname] of a socket bound to port 0, and the port stored in [addr]: -1 with
    [errno] on failure. *)
Definition ephemeral_port (s : Z) (addr : ptr) : FD Z :=
  port ← dill_ipaddr_port addr;
  if negb (port =? 0) then mret 0
  else
    with_buf SIZEOF_IPADDR (λ baddr,
      r ← sys (os_getsockname s);
      match r with
      | inr e => fail e
      | inl name =>
        store baddr (take (Z.to_nat SIZEOF_IPADDR) name);;
        port ← dill_ipaddr_port baddr;
        dill_ipaddr_setport le addr port;;
        mret 0
      end).

(** [shutdown(fd, SHUT_WR)]: 0, or -1 with [errno]; other errors than the two fail an
    assertion.  [broken] is done first for either of them. *)
Definition shutdown (fd : Z) (broken : FD unit) : FD Z :=
  r ← sys (os_shutdown fd);
  match r with
  | Some e =>
    if bool_decide (e = ENOTCONN) then broken;; fail ECONNRESET
    else if bool_decide (e = ENOBUFS) then broken;; fail ENOMEM
    else crash
  | None => mret 0
  end.

(** ** Connections

    A TCP and a UNIX connection have the same fields and the same code; [get] and [put]
    reach those of the object. *)

Definition send_conn (fuel : nat) (get : FD dill_tcp_conn) (put : dill_tcp_conn → FD unit) (first last : ptr)
    (deadline : Z) : FD Z :=
  x ← get;
  if tc_sbusy x then fail EBUSY
  else if tc_outdone x then fail EPIPE
  else if tc_outerr x then fail ECONNRESET
  else
    put (set_sbusy true x);;
    sz ← dill_fd_send fuel (tc_fd x) first last deadline;
    x ← get;
    put (set_sbusy false x);;
    if 0 <=? sz then mret sz
    else
      x ← get;
      put (set_outerr x);;
      mret (-1).

(** [buffered]: whether the receive buffer is used. *)
Definition recv_conn (rounds fuel : nat) (get : FD dill_tcp_conn) (put : dill_tcp_conn → FD unit) (buffered : bool)
    (first last : ptr) (deadline : Z) : FD Z :=
  x ← get;
  if tc_rbusy x then fail EBUSY
  else if tc_indone x then fail EPIPE
  else if tc_inerr x then fail ECONNRESET
  else
    put (set_rbusy true x);;
    '(rc, rx) ← dill_fd_recv rounds fuel (tc_fd x) (if buffered then Some (tc_rxbuf x) else None) first last deadline;
    x ← get;
    put (set_rbusy false (set_rxbuf (default (tc_rxbuf x) rx) x));;
    if rc =? 0 then mret 0
    else
      err ← get_errno;
      x ← get;
      put (if bool_decide (err = EPIPE) then set_indone x else set_inerr x);;
      mret (-1).

Definition done_conn (get : FD dill_tcp_conn) (put : dill_tcp_conn → FD unit) : FD Z :=
  x ← get;
  if tc_outdone x then fail EPIPE
  else if tc_outerr x then fail ECONNRESET
  else
    rc ← shutdown (tc_fd x) (put (set_outerr x));
    if rc <? 0 then mret (-1) else put (set_outdone x);; mret 0.

(** The part of closing that follows the queries: [done], [recv] with null lists and
    [hclose] are those of the connection. *)
Definition close_conn (get : FD dill_tcp_conn) (done recv : FD Z) (hclose : FD unit) : FD Z :=
  let error (err : errno_t) : FD Z := hclose;; set_errno err;; mret (-1) in
  x ← get;
  if tc_inerr x || tc_outerr x then error ECONNRESET
  else
    rc ← (if tc_outdone x then mret 0 else done);
    if rc <? 0 then err ← get_errno; error err
    else
      rc ← recv;
      assert_ (rc <? 0);;
      err ← get_errno;
      if negb (bool_decide (err = EPIPE)) then error err
      else
        hclose;;
        mret 0.
End Fd.
