(* ===== verification/Tcp.v ===== *)
(** TCP connections and listeners ([tcp.c]). *)

From Stdlib Require Import ZArith Lia.
From stdpp Require Import base gmap list.
From S2P Require Import Prelude Handle Iol Sock Ipaddr Fd.
Open Scope Z_scope.

Definition SIZEOF_TCP_CONN : Z := 72.
Definition SIZEOF_TCP_LISTENER : Z := 56.

Section Tcp.
Context {K : Type} `{OsK : Os K}.
(** The endianness of the machine; the [close] method of the objects of handles. *)
Context (le : bool) (close : sobj → IO (fdnet K) unit).
Local Abbreviation FD := (IO (fdnet K)).

(** ** Connections *)

Definition get_tcp (p : ptr) : FD dill_tcp_conn :=
  o ← get_obj p; match o with TcpConn x => mret x | _ => crash end.
Definition put_tcp (p : ptr) (x : dill_tcp_conn) : FD unit := put_obj p (TcpConn x).
(** [obj->mem = 0] *)
Definition own_tcp (o : fdobj) : fdobj := match o with TcpConn x => TcpConn (set_unmem x) | _ => o end.

Definition dill_tcp_makeconn (fd : Z) (mem : ptr) : FD Z :=
  put_tcp mem (mk_tcp fd dill_fd_initrxbuf false false false false false false true);;
  fmake close mem.

Definition dill_tcp_fromfd_mem (fd : Z) (mem : ptr) : FD Z := fromfd le AF_INET AF_INET6 0 dill_tcp_makeconn fd mem.

Definition dill_tcp_fromfd (fd : Z) : FD Z := with_object SIZEOF_TCP_CONN (dill_tcp_fromfd_mem fd) own_tcp.

Definition dill_tcp_connect_mem (addr mem : ptr) (deadline : Z) : FD Z :=
  if mem =? NULL then open_error EINVAL
  else
    fam ← dill_ipaddr_family le addr;
    n ← dill_ipaddr_len le addr;
    sa ← load addr n;
    connect_to fam sa dill_tcp_makeconn mem deadline.

Definition dill_tcp_connect (addr : ptr) (deadline : Z) : FD Z :=
  with_object SIZEOF_TCP_CONN (λ obj, dill_tcp_connect_mem addr obj deadline) own_tcp.

Definition dill_tcp_bsendl (fuel : nat) (self first last : ptr) (deadline : Z) : FD Z :=
  send_conn fuel (get_tcp self) (put_tcp self) first last deadline.

Definition dill_tcp_brecvl (rounds fuel : nat) (self first last : ptr) (deadline : Z) : FD Z :=
  recv_conn rounds fuel (get_tcp self) (put_tcp self) true first last deadline.

Definition dill_tcp_done (s deadline : Z) : FD Z :=
  self ← fquery close s dill_tcp_type;
  if self =? NULL then mret (-1)
  else done_conn (get_tcp self) (put_tcp self).

Definition dill_tcp_hclose (self : ptr) : FD unit :=
  x ← get_tcp self;
  dill_fd_close (tc_fd x);;
  dill_fd_termrxbuf (tc_rxbuf x);;
  if tc_mem x then mret tt else free_obj self SIZEOF_TCP_CONN.

Definition dill_tcp_close (rounds fuel : nat) (s deadline : Z) : FD Z :=
  l ← fquery close s dill_tcp_listener_type;
  if negb (l =? NULL) then fclose close s
  else
    self ← fquery close s dill_tcp_type;
    if self =? NULL then mret (-1)
    else
      close_conn (get_tcp self) (dill_tcp_done s deadline) (dill_tcp_brecvl rounds fuel self NULL NULL deadline)
        (dill_tcp_hclose self).

(** ** Listeners *)

Definition get_tcp_listener (p : ptr) : FD dill_tcp_listener :=
  o ← get_obj p; match o with TcpListener x => mret x | _ => crash end.
Definition own_tcp_listener (o : fdobj) : fdobj :=
  match o with TcpListener x => TcpListener (mk_tcp_listener (tl_fd x) false) | _ => o end.

Definition dill_tcp_makelistener (fd : Z) (mem : ptr) : FD Z :=
  put_obj mem (TcpListener (mk_tcp_listener fd true));;
  fmake close mem.

Definition dill_tcp_listener_fromfd_mem (fd : Z) (mem : ptr) : FD Z :=
  fromfd le AF_INET AF_INET6 1 dill_tcp_makelistener fd mem.

Definition dill_tcp_listener_fromfd (fd : Z) : FD Z :=
  with_object SIZEOF_TCP_LISTENER (dill_tcp_listener_fromfd_mem fd) own_tcp_listener.

Definition dill_tcp_listen_mem (addr : ptr) (backlog : Z) (mem : ptr) : FD Z :=
  if mem =? NULL then open_error EINVAL
  else
    fam ← dill_ipaddr_family le addr;
    n ← dill_ipaddr_len le addr;
    sa ← load addr n;
    listen_on fam sa backlog (λ s, ephemeral_port le s addr) dill_tcp_makelistener mem.

Definition dill_tcp_listen (addr : ptr) (backlog : Z) : FD Z :=
  with_object SIZEOF_TCP_LISTENER (dill_tcp_listen_mem addr backlog) own_tcp_listener.

Definition dill_tcp_accept_mem (fuel : nat) (s : Z) (addr mem : ptr) (deadline : Z) : FD Z :=
  if mem =? NULL then open_error EINVAL
  else
    lst ← fquery close s dill_tcp_listener_type;
    if lst =? NULL then open_errno
    else
      l ← get_tcp_listener lst;
      accept_on fuel (tl_fd l) addr dill_tcp_makeconn mem deadline.

Definition dill_tcp_accept (fuel : nat) (s : Z) (addr : ptr) (deadline : Z) : FD Z :=
  with_object SIZEOF_TCP_CONN (λ obj, dill_tcp_accept_mem fuel s addr obj deadline) own_tcp.

Definition dill_tcp_listener_hclose (self : ptr) : FD unit :=
  l ← get_tcp_listener self;
  dill_fd_close (tl_fd l);;
  if tl_mem l then mret tt else free_obj self SIZEOF_TCP_LISTENER.
End Tcp.
