(* ===== verification/Ipc.v ===== *)
(** UNIX connections, listeners and pairs ([ipc.c]). *)

From Stdlib Require Import ZArith Lia.
From stdpp Require Import base gmap list.
From S2P Require Import Prelude Handle Iol Sock Http Ipaddr Fd.
Open Scope Z_scope.

Definition AF_UNIX : Z := 1.
(** [sizeof(su->sun_path)] *)
Definition SUN_PATH : Z := 108.
Definition SIZEOF_IPC_CONN : Z := 72.
Definition SIZEOF_IPC_LISTENER : Z := 24.

Section Ipc.
Context {K : Type} `{OsK : Os K}.
Context (le : bool) (close : sobj → IO (fdnet K) unit).
Local Abbreviation FD := (IO (fdnet K)).

(** ** Helpers *)

(** The bytes of the [struct sockaddr_un]: [strncpy] pads the path with zeros. *)
Definition dill_ipc_resolve (addr : ptr) : FD (option (list Z)) :=
  path ← cstring addr;
  if SUN_PATH <=? len path then set_errno ENAMETOOLONG;; mret None
  else mret (Some (family_bytes le AF_UNIX ++ path ++ repeat 0 (Z.to_nat (SUN_PATH - len path)))).

(** ** Connections *)

Definition get_ipc (p : ptr) : FD dill_ipc_conn :=
  o ← get_obj p; match o with IpcConn x => mret x | _ => crash end.
Definition put_ipc (p : ptr) (x : dill_ipc_conn) : FD unit := put_obj p (IpcConn x).
(** The fields but [scm_rights] *)
Definition get_ipc_conn (p : ptr) : FD dill_tcp_conn := x ← get_ipc p; mret (ip_conn x).
Definition put_ipc_conn (p : ptr) (c : dill_tcp_conn) : FD unit :=
  x ← get_ipc p; put_ipc p (mk_ipc c (scm_rights x)).
Definition own_ipc (o : fdobj) : fdobj :=
  match o with IpcConn x => IpcConn (mk_ipc (set_unmem (ip_conn x)) (scm_rights x)) | _ => o end.

Definition dill_ipc_makeconn (fd : Z) (mem : ptr) : FD Z :=
  put_ipc mem (mk_ipc (mk_tcp fd dill_fd_initrxbuf false false false false false false true) true);;
  fmake close mem.

Definition dill_ipc_fromfd_mem (fd : Z) (mem : ptr) : FD Z := fromfd le AF_UNIX (-1) 0 dill_ipc_makeconn fd mem.

Definition dill_ipc_fromfd (fd : Z) : FD Z := with_object SIZEOF_IPC_CONN (dill_ipc_fromfd_mem fd) own_ipc.

Definition dill_ipc_connect_mem (addr mem : ptr) (deadline : Z) : FD Z :=
  if mem =? NULL then open_error EINVAL
  else
    su ← dill_ipc_resolve addr;
    match su with
    | None => open_errno
    | Some su => connect_to AF_UNIX su dill_ipc_makeconn mem deadline
    end.

Definition dill_ipc_connect (addr : ptr) (deadline : Z) : FD Z :=
  with_object SIZEOF_IPC_CONN (λ obj, dill_ipc_connect_mem addr obj deadline) own_ipc.

Definition dill_ipc_bsendl (fuel : nat) (self first last : ptr) (deadline : Z) : FD Z :=
  send_conn fuel (get_ipc_conn self) (put_ipc_conn self) first last deadline.

Definition dill_ipc_brecvl (rounds fuel : nat) (self first last : ptr) (deadline : Z) : FD Z :=
  x ← get_ipc self;
  recv_conn rounds fuel (get_ipc_conn self) (put_ipc_conn self) (negb (scm_rights x)) first last deadline.

Definition dill_ipc_sendfd (s fd deadline : Z) : FD Z :=
  self ← fquery close s dill_ipc_type;
  if self =? NULL then mret (-1)
  else
    x ← get_ipc self;
    if negb (scm_rights x) then fail ENOTSUP
    else if fd <? 0 then fail EINVAL
    else if tc_sbusy (ip_conn x) then fail EBUSY
    else if tc_outdone (ip_conn x) then fail EPIPE
    else if tc_outerr (ip_conn x) then fail ECONNRESET
    else
      r ← sys (os_fdout (tc_fd (ip_conn x)) deadline);
      match r with
      | Some e => fail e
      | None =>
        r ← sys (os_sendfd (tc_fd (ip_conn x)) fd);
        c ← get_ipc_conn self;
        match r with
        | inl sz => if sz =? 0 then put_ipc_conn self (set_outdone c);; fail EPIPE else mret 0
        | inr e =>
          if bool_decide (e = ECONNRESET) then put_ipc_conn self (set_outerr c);; fail e
          else crash
        end
      end.

(** The loop over the control messages: the file descriptor, or -1. *)
Fixpoint find_rights (l : list cmsg) : Z :=
  match l with
  | [] => -1
  | m :: l => if cm_rights m then cm_data m else find_rights l
  end.

(** The error of [recvmsg] is recorded in [outerr]. *)
Definition dill_ipc_recvfd (s deadline : Z) : FD Z :=
  self ← fquery close s dill_ipc_type;
  if self =? NULL then mret (-1)
  else
    x ← get_ipc self;
    if negb (scm_rights x) then fail ENOTSUP
    else if tc_rbusy (ip_conn x) then fail EBUSY
    else if tc_indone (ip_conn x) then fail EPIPE
    else if tc_inerr (ip_conn x) then fail ECONNRESET
    else
      r ← sys (os_fdin (tc_fd (ip_conn x)) deadline);
      match r with
      | Some e => fail e
      | None =>
        r ← sys (os_recvfd (tc_fd (ip_conn x)));
        c ← get_ipc_conn self;
        match r with
        | inl (sz, msgs) =>
          if sz =? 0 then put_ipc_conn self (set_indone c);; fail EPIPE
          else
            let fd := find_rights msgs in
            if fd <? 0 then put_ipc_conn self (set_inerr c);; fail EPROTO
            else mret fd
        | inr e =>
          if bool_decide (e = ECONNRESET) then put_ipc_conn self (set_outerr c);; fail e
          else crash
        end
      end.

Definition dill_ipc_done (s deadline : Z) : FD Z :=
  self ← fquery close s dill_ipc_type;
  if self =? NULL then mret (-1)
  else done_conn (get_ipc_conn self) (put_ipc_conn self).

Definition dill_ipc_hclose (self : ptr) : FD unit :=
  x ← get_ipc_conn self;
  dill_fd_close (tc_fd x);;
  dill_fd_termrxbuf (tc_rxbuf x);;
  if tc_mem x then mret tt else free_obj self SIZEOF_IPC_CONN.

Definition dill_ipc_close (rounds fuel : nat) (s deadline : Z) : FD Z :=
  l ← fquery close s dill_ipc_listener_type;
  if negb (l =? NULL) then fclose close s
  else
    self ← fquery close s dill_ipc_type;
    if self =? NULL then mret (-1)
    else
      close_conn (get_ipc_conn self) (dill_ipc_done s deadline) (dill_ipc_brecvl rounds fuel self NULL NULL deadline)
        (dill_ipc_hclose self).

(** ** Listeners *)

Definition get_ipc_listener (p : ptr) : FD dill_ipc_listener :=
  o ← get_obj p; match o with IpcListener x => mret x | _ => crash end.
Definition own_ipc_listener (o : fdobj) : fdobj :=
  match o with IpcListener x => IpcListener (mk_ipc_listener (il_fd x) false) | _ => o end.

(** Storing to a null [mem] is not caught before this. *)
Definition dill_ipc_makelistener (fd : Z) (mem : ptr) : FD Z :=
  assert_ (negb (mem =? NULL));;
  put_obj mem (IpcListener (mk_ipc_listener fd true));;
  fmake close mem.

Definition dill_ipc_listener_fromfd_mem (fd : Z) (mem : ptr) : FD Z :=
  fromfd le AF_UNIX (-1) 1 dill_ipc_makelistener fd mem.

Definition dill_ipc_listener_fromfd (fd : Z) : FD Z :=
  with_object SIZEOF_IPC_LISTENER (dill_ipc_listener_fromfd_mem fd) own_ipc_listener.

Definition dill_ipc_listen_mem (addr : ptr) (backlog : Z) (mem : ptr) : FD Z :=
  su ← dill_ipc_resolve addr;
  match su with
  | None => open_errno
  | Some su => listen_on AF_UNIX su backlog (λ _, mret 0) dill_ipc_makelistener mem
  end.

Definition dill_ipc_listen (addr : ptr) (backlog : Z) : FD Z :=
  with_object SIZEOF_IPC_LISTENER (dill_ipc_listen_mem addr backlog) own_ipc_listener.

Definition dill_ipc_accept_mem (fuel : nat) (s : Z) (mem : ptr) (deadline : Z) : FD Z :=
  if mem =? NULL then open_error EINVAL
  else
    lst ← fquery close s dill_ipc_listener_type;
    if lst =? NULL then open_errno
    else
      l ← get_ipc_listener lst;
      accept_on fuel (il_fd l) NULL dill_ipc_makeconn mem deadline.

Definition dill_ipc_accept (fuel : nat) (s : Z) (deadline : Z) : FD Z :=
  with_object SIZEOF_IPC_CONN (λ obj, dill_ipc_accept_mem fuel s obj deadline) own_ipc.

Definition dill_ipc_listener_hclose (self : ptr) : FD unit :=
  l ← get_ipc_listener self;
  dill_fd_close (il_fd l);;
  if il_mem l then mret tt else free_obj self SIZEOF_IPC_LISTENER.

(** ** Pairs *)

(** The result and the values stored to [s[0]] and [s[1]]. *)
Definition pair_result : Type := Z * (option Z * option Z).

(** The labels of [dill_ipc_pair_mem] and [dill_ipc_pair]: [error3] closes both sockets,
    [error2] the second one; [err] is [errno] at the jump. *)
Definition pair_error2 (fd1 : Z) (err : errno_t) (s0 s1 : option Z) : FD pair_result :=
  dill_fd_close fd1;; rc ← open_error err; mret (rc, (s0, s1)).
Definition pair_error3 (fd0 fd1 : Z) (err : errno_t) (s0 : option Z) : FD pair_result :=
  dill_fd_close fd0;; pair_error2 fd1 err s0 None.

(** The pair of sockets in non-blocking mode. *)
Definition open_pair (k : Z → Z → FD pair_result) : FD pair_result :=
  r ← sys os_socketpair;
  match r with
  | inr e => rc ← open_error e; mret (rc, (None, None))
  | inl (fd0, fd1) =>
    rc ← dill_fd_unblock fd0;
    if rc <? 0 then err ← get_errno; pair_error3 fd0 fd1 err None
    else
      rc ← dill_fd_unblock fd1;
      if rc <? 0 then err ← get_errno; pair_error3 fd0 fd1 err None
      else k fd0 fd1
  end.

Definition dill_ipc_pair_mem (mem : ptr) : FD pair_result :=
  if mem =? NULL then rc ← open_error EINVAL; mret (rc, (None, None))
  else
    open_pair (λ fd0 fd1,
      s0 ← dill_ipc_makeconn fd0 mem;
      if s0 <? 0 then err ← get_errno; pair_error3 fd0 fd1 err (Some s0)
      else
        s1 ← dill_ipc_makeconn fd1 (mem + SIZEOF_IPC_CONN);
        if s1 <? 0 then
          err ← get_errno;
          _ ← fclose close s0;
          pair_error2 fd1 err (Some s0) (Some s1)
        else mret (0, (Some s0, Some s1))).

(** [conn1] is not freed when its handle cannot be made. *)
Definition dill_ipc_pair : FD pair_result :=
  open_pair (λ fd0 fd1,
    conn0 ← malloc SIZEOF_IPC_CONN;
    match conn0 with
    | None => pair_error3 fd0 fd1 ENOMEM None
    | Some conn0 =>
      conn1 ← malloc SIZEOF_IPC_CONN;
      match conn1 with
      | None => free_obj conn0 SIZEOF_IPC_CONN;; pair_error3 fd0 fd1 ENOMEM None
      | Some conn1 =>
        s0 ← dill_ipc_makeconn fd0 conn0;
        if s0 <? 0 then
          err ← get_errno;
          free_obj conn1 SIZEOF_IPC_CONN;;
          free_obj conn0 SIZEOF_IPC_CONN;;
          pair_error3 fd0 fd1 err (Some s0)
        else
          x ← get_obj conn0;
          put_obj conn0 (own_ipc x);;
          s1 ← dill_ipc_makeconn fd1 conn1;
          if s1 <? 0 then
            err ← get_errno;
            _ ← fclose close s0;
            pair_error2 fd1 err (Some s0) (Some s1)
          else
            x ← get_obj conn1;
            put_obj conn1 (own_ipc x);;
            mret (0, (Some s0, Some s1))
      end
    end).
End Ipc.
