(* ===== verification/Udp.v ===== *)
(** UDP sockets ([udp.c]), and the dispatch of [close] over the objects of [fd.c]. *)

From Stdlib Require Import ZArith Lia.
From stdpp Require Import base gmap list.
From S2P Require Import Prelude Handle Iol Sock Ipaddr Fd Tcp Ipc.
Open Scope Z_scope.

Definition SIZEOF_UDP_SOCK : Z := 72.

Section Udp.
Context {K : Type} `{OsK : Os K}.
Context (le : bool) (close : sobj → IO (fdnet K) unit).
Local Abbreviation FD := (IO (fdnet K)).

Definition get_udp (p : ptr) : FD dill_udp_sock :=
  o ← get_obj p; match o with UdpSock x => mret x | _ => crash end.
Definition own_udp (o : fdobj) : fdobj :=
  match o with UdpSock x => UdpSock (mk_udp (ud_fd x) (ud_busy x) (ud_hasremote x) false) | _ => o end.

(** The family of an address that may be missing. *)
Definition family_or (addr : ptr) (d : Z) : FD Z := if addr =? NULL then mret d else dill_ipaddr_family le addr.

(** The part of [dill_udp_open_mem] within [if(local)]: after [bind] it is [s], and not
    the result, that is looked at. *)
Definition bind_local (s : Z) (local : ptr) : FD Z :=
  n ← dill_ipaddr_len le local;
  sa ← load local n;
  r ← sys (os_bind s sa);
  (match r with Some e => set_errno e | None => mret tt end);;
  if s <? 0 then mret (-1)
  else ephemeral_port le s local.

Definition dill_udp_open_mem (local remote mem : ptr) : FD Z :=
  if mem =? NULL then open_error EINVAL
  else
    fl ← family_or local 0;
    fr ← family_or remote 0;
    if negb (local =? NULL) && negb (remote =? NULL) && negb (fl =? fr) then open_error EINVAL
    else
      family ← family_or local AF_INET;
      family ← family_or remote family;
      r ← sys (os_socket family SOCK_DGRAM);
      match r with
      | inr e => open_error e
      | inl s =>
        rc ← dill_fd_unblock s;
        if rc <? 0 then open_close s
        else
          rc ← (if local =? NULL then mret 0 else bind_local s local);
          if rc <? 0 then open_close s
          else
            put_obj mem (UdpSock (mk_udp s false (negb (remote =? NULL)) true));;
            (if remote =? NULL then mret tt
             else bs ← load remote SIZEOF_IPADDR; store (ud_remote mem) bs);;
            h ← fmake close mem;
            if h <? 0 then open_close s else mret h
      end.

Definition dill_udp_open (local remote : ptr) : FD Z :=
  with_object SIZEOF_UDP_SOCK (dill_udp_open_mem local remote) own_udp.

Definition dill_udp_sendl_ (obj addr first last : ptr) : FD Z :=
  x ← get_udp obj;
  if ud_busy x then fail EBUSY
  else if (addr =? NULL) && negb (ud_hasremote x) then fail EINVAL
  else
    let dstaddr := if addr =? NULL then ud_remote obj else addr in
    n ← dill_ipaddr_len le dstaddr;
    sa ← load dstaddr n;
    r ← check_list first last;
    match r with
    | inr e => fail e
    | inl _ =>
      iov ← read_nodes (λ h, dill_ioltoiov (S (size h)) first h);
      bs ← (λ s, match iov_load iov (io_mem s) with Some bs => Some (bs, s) | None => None end);
      r ← sys (os_sendto (ud_fd x) sa bs);
      match r with
      | inl _ => mret 0
      | inr e => if bool_decide (e = EAGAIN) then set_errno e;; mret 0 else fail e
      end
    end.

(** Storing the bytes of a datagram; the rest of a longer one is dropped by the system. *)
Definition spread (iov : list (ptr * Z)) (bs : list Z) : FD unit := λ s,
  match iov_store iov bs (io_mem s) with Some m => Some (tt, set_io_mem m s) | None => None end.

(** The loop of [dill_udp_recvl_]; [raddr] is the local address. *)
Fixpoint recvl_loop (fuel : nat) (obj addr raddr : ptr) (iov : list (ptr * Z)) (deadline : Z) : FD Z :=
  match fuel with
  | O => crash
  | S fuel =>
    x ← get_udp obj;
    r ← sys (os_recvfrom (ud_fd x) (iov_len iov));
    match r with
    | inl (bs, from) =>
      store raddr (take (Z.to_nat SIZEOF_IPADDR) from);;
      spread iov bs;;
      same ← (if ud_hasremote x then dill_ipaddr_equal le raddr (ud_remote obj) false else mret 1);
      if same =? 0 then recvl_loop fuel obj addr raddr iov deadline
      else
        (if addr =? NULL then mret tt else a ← load raddr SIZEOF_IPADDR; store addr a);;
        mret (Z.of_nat (length bs))
    | inr e =>
      if negb (bool_decide (e = EAGAIN)) then fail e
      else
        put_obj obj (UdpSock (mk_udp (ud_fd x) true (ud_hasremote x) (ud_mem x)));;
        r ← sys (os_fdin (ud_fd x) deadline);
        x ← get_udp obj;
        put_obj obj (UdpSock (mk_udp (ud_fd x) false (ud_hasremote x) (ud_mem x)));;
        match r with
        | Some e => fail e
        | None => recvl_loop fuel obj addr raddr iov deadline
        end
    end
  end.

Definition dill_udp_recvl_ (fuel : nat) (obj addr first last : ptr) (deadline : Z) : FD Z :=
  x ← get_udp obj;
  if ud_busy x then fail EBUSY
  else
    with_buf SIZEOF_IPADDR (λ raddr,
      r ← check_list first last;
      match r with
      | inr e => fail e
      | inl _ =>
        iov ← read_nodes (λ h, dill_ioltoiov (S (size h)) first h);
        recvl_loop fuel obj addr raddr iov deadline
      end).

(** [dill_hquery(s, dill_msock_type)]: the object of a UDP socket; the queried table of
    another message socket is taken for one, with undefined behaviour. *)
Definition query_msock (s : Z) (k : ptr → FD Z) : FD Z :=
  m ← fquery close s dill_msock_type;
  if m =? NULL then mret (-1) else k m.

Definition dill_udp_send (s : Z) (addr buf : ptr) (len : Z) : FD Z :=
  query_msock s (λ m, with_iol (mk_iolist buf len NULL 0) (λ iol, dill_udp_sendl_ m addr iol iol)).

Definition dill_udp_recv (fuel : nat) (s : Z) (addr buf : ptr) (len deadline : Z) : FD Z :=
  query_msock s (λ m, with_iol (mk_iolist buf len NULL 0) (λ iol, dill_udp_recvl_ fuel m addr iol iol deadline)).

Definition dill_udp_sendl (s : Z) (addr first last : ptr) : FD Z :=
  query_msock s (λ m, dill_udp_sendl_ m addr first last).

Definition dill_udp_recvl (fuel : nat) (s : Z) (addr first last : ptr) (deadline : Z) : FD Z :=
  query_msock s (λ m, dill_udp_recvl_ fuel m addr first last deadline).

Definition dill_udp_msendl (m first last : ptr) (deadline : Z) : FD Z := dill_udp_sendl_ m NULL first last.
Definition dill_udp_mrecvl (fuel : nat) (m first last : ptr) (deadline : Z) : FD Z :=
  dill_udp_recvl_ fuel m NULL first last deadline.

Definition dill_udp_hclose (obj : ptr) : FD unit :=
  x ← get_udp obj;
  dill_fd_close (ud_fd x);;
  if ud_mem x then mret tt else free_obj obj SIZEOF_UDP_SOCK.
End Udp.

(** The [close] method of the objects of this component; [other] is that of the
    protocols. *)
Definition obj_close {K} `{Os K} (other : sobj → IO (fdnet K) unit) (v : sobj) : IO (fdnet K) unit :=
  match v with
  | ONet p =>
    o ← get_obj p;
    match o with
    | TcpConn _ => dill_tcp_hclose p
    | TcpListener _ => dill_tcp_listener_hclose p
    | IpcConn _ => dill_ipc_hclose p
    | IpcListener _ => dill_ipc_listener_hclose p
    | UdpSock _ => dill_udp_hclose p
    end
  | _ => other v
  end.
