(* ===== verification/Fdspec.v ===== *)
(** What the sending and receiving functions of [fd.c] do to the bytes: what is sent is a
    prefix of the data, all of it on success, and data received directly are the next on
    the way and go to the buffers of the caller in order. *)

From Stdlib Require Import ZArith Lia.
From stdpp Require Import base gmap list.
From S2P Require Import Prelude Handle Iol Sock Ipaddr Fd.
Open Scope Z_scope.

(** The bytes on the way to, and from, a socket; how often one can still wait for it: the
    data of a finite stream arrives, or a deadline expires, in finitely many steps. *)
Class OsLaws (K : Type) `{Os K} := {
  os_in : Z → K → list Z;
  os_out : Z → K → list Z;
  os_waits : Z → K → nat;
  (** whether the system has reported the end of the input, an error or an expired deadline *)
  os_infail : Z → K → bool;
  os_outfail : Z → K → bool;
  (** receiving takes the first bytes on the way, at most as many as asked for *)
  os_law_recv : ∀ fd n k r k', 0 ≤ n → os_recv fd n k = (r, k') →
    os_out fd k' = os_out fd k ∧ (os_waits fd k' ≤ os_waits fd k)%nat ∧
    match r with
    | inl bs => Z.of_nat (length bs) ≤ n ∧ os_in fd k = bs ++ os_in fd k' ∧ (bs = [] → 0 < n → os_infail fd k' = true)
    | inr e => os_in fd k' = os_in fd k ∧ (e ≠ EAGAIN → os_infail fd k' = true)
    end;
  (** sending takes some of the bytes *)
  os_law_send : ∀ fd bs k r k', bs ≠ [] → os_send fd bs k = (r, k') →
    os_in fd k' = os_in fd k ∧ (os_waits fd k' ≤ os_waits fd k)%nat ∧
    match r with
    | inl n => 0 < n ≤ Z.of_nat (length bs) ∧ os_out fd k' = os_out fd k ++ take (Z.to_nat n) bs
    | inr e => os_out fd k' = os_out fd k ∧ (e ≠ EAGAIN → os_outfail fd k' = true)
    end;
  os_law_fdin : ∀ fd d k r k', os_fdin fd d k = (r, k') →
    os_in fd k' = os_in fd k ∧ os_out fd k' = os_out fd k ∧ (os_waits fd k' ≤ os_waits fd k)%nat ∧
    match r with None => (os_waits fd k' < os_waits fd k)%nat | Some _ => os_infail fd k' = true end;
  os_law_fdout : ∀ fd d k r k', os_fdout fd d k = (r, k') →
    os_in fd k' = os_in fd k ∧ os_out fd k' = os_out fd k ∧ (os_waits fd k' ≤ os_waits fd k)%nat ∧
    match r with None => (os_waits fd k' < os_waits fd k)%nat | Some _ => os_outfail fd k' = true end;
  (** what has been reported remains so *)
  os_law_lasting : ∀ fd k k', (∃ n r, os_recv fd n k = (r, k')) ∨ (∃ bs r, os_send fd bs k = (r, k')) ∨
    (∃ d r, os_fdin fd d k = (r, k')) ∨ (∃ d r, os_fdout fd d k = (r, k')) →
    ∀ fd', (os_infail fd' k = true → os_infail fd' k' = true) ∧ (os_outfail fd' k = true → os_outfail fd' k' = true);
}.

(** * Lists *)

Lemma scatter_nil sl (m : gmap Z Z) : scatter sl [] m = m.
Proof. by destruct sl as [|[]]. Qed.

Lemma scatter_take sl bs (m : gmap Z Z) : (length bs ≤ length sl)%nat →
  scatter (take (length bs) sl) bs m = scatter sl bs m.
Proof.
  intros Hl. rewrite <- (take_drop (length bs) sl) at 2. rewrite scatter_app.
  rewrite length_take_le by done. by rewrite drop_all, (take_ge bs), scatter_nil by lia.
Qed.

Lemma scatter_other sl : ∀ bs (m : gmap Z Z) a, Some a ∉ sl → scatter sl bs m !! a = m !! a.
Proof.
  induction sl as [|[b|] sl IH]; intros [|c bs] m a Ha; try done; cbn [scatter];
    apply not_elem_of_cons in Ha as [Hb Ha]; rewrite IH by done; [|done].
  apply lookup_insert_ne. congruence.
Qed.

Lemma valid_node h first lst l x : valid h first lst l → x ∈ l → is_Some (h !! x).
Proof. intros (Hp & _) Hx. by eapply seg_alloc. Qed.

Lemma flat_one (h : nodes) x n : h !! x = Some n → flat h [x] = slots n.
Proof. intros H. unfold flat. cbn. by rewrite (node_lookup _ _ _ H), app_nil_r. Qed.

Lemma flat_head (h : nodes) x n l : h !! x = Some n → flat h (x :: l) = slots n ++ flat h l.
Proof. intros H. unfold flat. cbn. by rewrite (node_lookup _ _ _ H). Qed.

Lemma mark_loop_path h lst l : ∀ vis it fuel,
  path h it l → (l ≠ [] → last l = Some lst) → unmarked h l → NoDup (vis ++ l) → (length l ≤ fuel)%nat →
  ∃ r, mark_loop fuel it lst (u64 (Z.of_nat (length vis))) (u64 (total h vis)) (mark_all 1 (rev vis) h) =
    Some (inl r, mark_all 1 (rev (vis ++ l)) h).
Proof.
  induction l as [|x l IH]; intros vis it fuel Hp Hl Hu Hnd Hf.
  - cbv [path seg] in Hp. subst. rewrite app_nil_r. eexists. by destruct fuel.
  - pose proof Hp as (-> & Hx & n & Hn & Hs). destruct fuel as [|fuel]; [cbn in Hf; lia|]. cbn [mark_loop].
    apply Z.eqb_neq in Hx as Hx'. rewrite Hx'.
    assert (Hnv : x ∉ rev vis).
    { apply NoDup_app in Hnd as (_ & Hd & _). intros Hi. apply list_elem_of_In, in_rev, list_elem_of_In in Hi.
      apply (Hd _ Hi). by left. }
    assert (Em : mark_all 1 (rev vis) h !! x = Some n) by (rewrite lookup_mark_all, decide_False by done; done).
    rewrite Em. cbn [mbind option_bind]. pose proof (Hu x ltac:(left)) as Hr. rewrite (node_lookup _ _ _ Hn) in Hr.
    rewrite Hr. cbn [negb Z.eqb orb].
    assert (Hc : (iol_next n =? NULL) && negb (x =? lst) = false).
    { destruct (Z.eqb_spec (iol_next n) NULL) as [E|]; [|done]. destruct l as [|y l].
      - specialize (Hl ltac:(done)). injection Hl as ->. by rewrite Z.eqb_refl.
      - destruct Hs as (? & ? & _). congruence. }
    rewrite Hc. rewrite (set_rsvd_alter _ _ _ _ Em). cbn [mbind option_bind].
    rewrite (u64_add (Z.of_nat (length vis))), (u64_add (total h vis)).
    replace (Z.of_nat (length vis) + 1) with (Z.of_nat (length (vis ++ [x]))) by (rewrite length_app; cbn; lia).
    replace (total h vis + iol_len n) with (total h (vis ++ [x]))
      by (rewrite total_app; cbn; rewrite (node_lookup _ _ _ Hn); lia).
    replace (alter (with_rsvd 1) x (mark_all 1 (rev vis) h)) with (mark_all 1 (rev (vis ++ [x])) h)
      by (by rewrite rev_app_distr).
    replace (vis ++ x :: l) with ((vis ++ [x]) ++ l) in * by (by rewrite <- app_assoc).
    apply IH; [done| | |done|cbn in Hf; lia].
    + intros Hne. destruct l as [|y l]; [done|]. by apply Hl.
    + intros y Hy. apply Hu. by right.
Qed.

(** [dill_iolcheck] accepts a well-formed list and leaves it as it is. *)
Lemma iolcheck_valid h first lst l fuel :
  valid h first lst l → (size h < fuel)%nat → ∃ r, dill_iolcheck fuel first lst h = Some (inl r, h).
Proof.
  intros (Hp & Hl & Hu) Hf. pose proof (path_nodup _ _ _ Hp) as Hnd. pose proof (seg_length _ _ _ _ Hp Hnd) as Hsz.
  destruct l as [|x l]; [done|]. pose proof Hp as (-> & Hx & n & Hn & _).
  assert (Hlx : lst ≠ NULL ∧ is_Some (h !! lst)).
  { apply last_Some in Hl as [l' E]. rewrite E in Hp. apply iseg_app in Hp as (c & _ & -> & Hc & m & Hm & _). by split. }
  destruct Hlx as [Hln [nl Hnl]]. unfold dill_iolcheck. apply Z.eqb_neq in Hx as Ex, Hln as El. rewrite Ex, El. cbn [andb orb].
  rewrite Hnl. cbn [mbind option_bind]. rewrite (last_path h x (x :: l) lst nl Hp Hl Hnl). cbn [negb Z.eqb NULL].
  destruct (mark_loop_path h lst (x :: l) [] x fuel Hp ltac:(done) Hu Hnd ltac:(lia)) as [r E].
  cbn [length total foldr rev mark_all app] in E. change (u64 (Z.of_nat 0)) with 0 in E. change (u64 0) with 0 in E.
  rewrite E. cbn [mbind option_bind]. destruct r as [nbf nbt].
  assert (Hp' : path (mark_all 1 (rev (x :: l)) h) x (x :: l)) by (by apply seg_mark).
  change (rev l ++ [x]) with (rev (x :: l)).
  rewrite (clear_loop_spec _ _ _ _ Hp') by lia. cbn [mbind option_bind]. eexists. do 2 f_equal.
  apply map_eq. intros p. rewrite !lookup_mark_all.
  assert (Hr : ∀ q : ptr, q ∈ rev (x :: l) ↔ q ∈ x :: l) by (intros q; by rewrite !list_elem_of_In, <- in_rev).
  destruct (decide (p ∈ rev (x :: l))) as [Hi|]; [|done].
  specialize (Hu p (proj1 (Hr p) Hi)). unfold node in Hu. destruct (h !! p) as [f|]; [|done]. cbn in *.
  destruct f. unfold with_rsvd. cbn in *. by subst.
Qed.

(** * Arrays of buffers *)

Definition iov_slots (iov : list (ptr * Z)) : list (option ptr) := iov ≫= λ p, arr p.1 p.2.

(** Real, non-empty buffers. *)
Definition buffers (iov : list (ptr * Z)) : Prop := Forall (λ p, 0 < p.1 ∧ 0 < p.2) iov.

Lemma iov_len_slots iov : buffers iov → iov_len iov = Z.of_nat (length (iov_slots iov)).
Proof.
  induction 1 as [|[b n] iov [Hb Hn] _ IH]; [done|]. cbn in Hb, Hn.
  change (iov_len ((b, n) :: iov)) with (n + iov_len iov).
  change (iov_slots ((b, n) :: iov)) with (arr b n ++ iov_slots iov). rewrite length_app, IH.
  pose proof (length_arr b n ltac:(lia)). lia.
Qed.

Lemma ioltoiov_path h l : ∀ first fuel, path h first l → (length l ≤ fuel)%nat →
  dill_ioltoiov fuel first h = Some (map (λ x, (iol_base (node h x), iol_len (node h x))) l).
Proof.
  induction l as [|x l IH]; intros first fuel Hp Hf.
  - cbv [path seg] in Hp. subst. by destruct fuel.
  - destruct Hp as (-> & Hx & n & Hn & Hp). destruct fuel as [|fuel]; [cbn in Hf; lia|]. cbn [dill_ioltoiov].
    apply Z.eqb_neq in Hx. rewrite Hx, Hn. cbn [mbind option_bind]. rewrite (IH (iol_next n) fuel Hp) by (cbn in Hf; lia).
    cbn. by rewrite (node_lookup _ _ _ Hn).
Qed.

Lemma iov_slots_list h l : iov_slots (map (λ x, (iol_base (node h x), iol_len (node h x))) l) = flat h l.
Proof. unfold iov_slots, flat. induction l as [|x l IH]; [done|]. cbn in *. by rewrite IH. Qed.

(** Buffers some of which may be empty. *)
Definition bufs (iov : list (ptr * Z)) : Prop := Forall (λ p, 0 ≤ p.2 ∧ (0 < p.1 ∨ p.2 = 0)) iov.

Lemma arr_0 b : arr b 0 = [].
Proof. unfold arr, slots. cbn. by destruct (_ =? _). Qed.

(** The loop that drops what was transferred. *)
Lemma adjust_slots iov : ∀ k, bufs iov → 0 ≤ k ≤ Z.of_nat (length (iov_slots iov)) →
  bufs (adjust iov k) ∧ iov_slots (adjust iov k) = drop (Z.to_nat k) (iov_slots iov).
Proof.
  induction iov as [|[b n] iov IH]; intros k Hb Hk.
  - cbn in Hk. assert (k = 0) as -> by lia. done.
  - apply Forall_cons in Hb as [[Hn Hb0] Hb]. cbn in Hb0, Hn. cbn [adjust].
    pose proof (length_arr b n ltac:(lia)) as Hla.
    change (iov_slots ((b, n) :: iov)) with (arr b n ++ iov_slots iov) in *. rewrite length_app in Hk.
    destruct (Z.eqb_spec k 0) as [->|Hk0]; [split; [by constructor|done]|].
    destruct (Z.ltb_spec k n) as [Hlt|Hge].
    + split; [constructor; [cbn; lia|done]|].
      change (iov_slots ((b + k, n - k) :: iov)) with (arr (b + k) (n - k) ++ iov_slots iov).
      replace n with (k + (n - k)) at 2 by lia. rewrite arr_app by lia. rewrite <- app_assoc.
      rewrite drop_app_length'; [done|]. pose proof (length_arr b k ltac:(lia)). lia.
    + destruct (IH (k - n) Hb ltac:(lia)) as [H1 H2]. split; [done|]. rewrite H2, drop_app_ge by lia.
      f_equal. lia.
Qed.

Lemma buffers_bufs iov : buffers iov → bufs iov.
Proof. intros H. eapply Forall_impl; [exact H|]. intros [b n]. cbn. lia. Qed.

Lemma adjust_spec iov k : buffers iov → 0 ≤ k ≤ Z.of_nat (length (iov_slots iov)) →
  buffers (adjust iov k) ∧ iov_slots (adjust iov k) = drop (Z.to_nat k) (iov_slots iov).
Proof.
  intros Hb Hk. split; [|by apply adjust_slots; [apply buffers_bufs|]]. destruct Hk as [Hk _]. revert k Hk.
  induction Hb as [|[b n] iov [Hb0 Hn] Hb IH]; intros k Hk; cbn [adjust fst snd] in *.
  - destruct (_ =? _); constructor.
  - destruct (_ =? _); [by constructor|]. destruct (Z.ltb_spec k n); [constructor; [cbn; lia|done]|apply IH; lia].
Qed.

Lemma adjust_empty iov k : buffers iov → 0 ≤ k ≤ Z.of_nat (length (iov_slots iov)) →
  adjust iov k = [] ↔ k = Z.of_nat (length (iov_slots iov)).
Proof.
  intros Hb Hk. destruct (adjust_spec iov k Hb Hk) as [Hb' E]. apply (f_equal length) in E. rewrite length_drop in E.
  split.
  - intros E0. rewrite E0 in E. cbn in E. lia.
  - intros ->. destruct (adjust iov _) as [|[b n] r]; [done|]. apply Forall_cons in Hb' as [[Hb1 Hn] _]. cbn in Hb1, Hn.
    cbn in E. rewrite length_app in E. pose proof (length_arr b n ltac:(lia)). lia.
Qed.

Lemma iov_store_scatter iov : ∀ bs m, buffers iov → allocated m (iov_slots iov) →
  (length bs ≤ length (iov_slots iov))%nat → iov_store iov bs m = Some (scatter (iov_slots iov) bs m).
Proof.
  induction iov as [|[b n] iov IH]; intros bs m Hb Ha Hl.
  - cbn in Hl. by destruct bs; [|cbn in Hl; lia].
  - apply Forall_cons in Hb as [[Hb0 Hn] Hb]. cbn in Hb0, Hn. cbn [iov_store].
    pose proof (length_arr b n ltac:(lia)) as Hla.
    change (iov_slots ((b, n) :: iov)) with (arr b n ++ iov_slots iov) in *. rewrite length_app in Hl.
    assert (H1 : allocated m (arr b n)) by (intros x Hx; apply Ha, elem_of_app; by left).
    assert (H2 : allocated m (iov_slots iov)) by (intros x Hx; apply Ha, elem_of_app; by right).
    assert (Es : store_bytes b (take (Z.to_nat n) bs) m = Some (scatter (arr b n) (take (Z.to_nat n) bs) m)).
    { unfold arr in *. rewrite <- (node_copy (mk_iolist b n NULL 0)); cbn [iol_base iol_len]; [|lia|done|rewrite length_take; lia].
      by rewrite (proj2 (Z.eqb_neq b NULL)) by (unfold NULL; lia). }
    rewrite Es. cbn [mbind option_bind].
    rewrite IH; [|done|by apply allocated_scatter|rewrite length_drop; lia].
    rewrite scatter_app. by replace (length (arr b n)) with (Z.to_nat n) by lia.
Qed.

(** * Receiving *)

Section Receive.
Context {K : Type} `{OsK : Os K} `{LawsK : !OsLaws K}.
Local Abbreviation FD := (IO (fdnet K)).

Definition coming (fd : Z) (s : io (fdnet K)) : list Z := os_in fd (fn_os (io_net s)).
Definition waits (fd : Z) (s : io (fdnet K)) : nat := os_waits fd (fn_os (io_net s)).

(** Receiving has failed: the system says so, or there is no memory for the buffer; sending
    has failed.  That lasts. *)
Definition in_failed (fd : Z) (s : io (fdnet K)) : Prop := os_infail fd (fn_os (io_net s)) = true ∨ fn_budget (io_net s) = 0%nat.
Definition out_failed (fd : Z) (s : io (fdnet K)) : Prop := os_outfail fd (fn_os (io_net s)) = true.
Definition lasting (s s' : io (fdnet K)) : Prop :=
  ∀ fd, (in_failed fd s → in_failed fd s') ∧ (out_failed fd s → out_failed fd s').

Lemma lasting_refl s : lasting s s.
Proof. done. Qed.
Lemma lasting_trans s1 s2 s3 : lasting s1 s2 → lasting s2 s3 → lasting s1 s3.
Proof. intros H1 H2 fd. destruct (H1 fd), (H2 fd). split; auto. Qed.

(** Only bytes, [errno], the system, the buffers and fresh addresses differ, and the bytes only
    at the slots [sl]. *)
Record touched (fd : Z) (sl : list (option ptr)) (s s' : io (fdnet K)) : Prop := {
  to_rest : s' = after (io_handles s) (io_next s') (io_mem s') (io_net s') (io_errno s') s;
  to_next : io_next s ≤ io_next s';
  to_objs : fn_objs (io_net s') = fn_objs (io_net s);
  to_out : os_out fd (fn_os (io_net s')) = os_out fd (fn_os (io_net s));
  to_waits : (waits fd s' ≤ waits fd s)%nat;
  to_dom : dom (io_mem s') = dom (io_mem s);
  to_other : ∀ a, Some a ∉ sl → io_mem s' !! a = io_mem s !! a;
  to_lasting : lasting s s';
}.

(** Receiving into the slots [sl], with [p] unread at first and [p'] in the end. *)
Definition recvd (fd : Z) (sl : list (option ptr)) (p : list Z) (s : io (fdnet K)) (rc : Z) (p' : list Z)
    (s' : io (fdnet K)) : Prop :=
  touched fd sl s s' ∧
  ((rc = 0 ∧ ∃ bs, length bs = length sl ∧ p = bs ++ p' ∧ io_mem s' = scatter sl bs (io_mem s)) ∨
   (rc = -1 ∧ (∃ bs, p = bs ++ p') ∧ in_failed fd s')).

Lemma after_same c nx m nt e (s : io (fdnet K)) :
  after c nx m nt e s = after (io_handles (after c nx m nt e s)) nx m nt e s.
Proof. done. Qed.

Lemma fd_touched_refl fd sl s : touched fd sl s s.
Proof. by split; [destruct s|..]. Qed.

Lemma fd_touched_trans fd sl1 sl2 sl s1 s2 s3 :
  (∀ a, Some a ∉ sl → Some a ∉ sl1 ∧ Some a ∉ sl2) →
  touched fd sl1 s1 s2 → touched fd sl2 s2 s3 → touched fd sl s1 s3.
Proof.
  intros Hi [A1 A2 A3 A4 A5 A6 A7 A8] [B1 B2 B3 B4 B5 B6 B7 B8]. split.
  - rewrite B1, A1. done.
  - lia.
  - congruence.
  - congruence.
  - lia.
  - congruence.
  - intros a Ha. destruct (Hi a Ha). by rewrite B7, A7.
  - by eapply lasting_trans.
Qed.

Lemma touched_weaken fd sl1 sl s s' : (∀ a, Some a ∉ sl → Some a ∉ sl1) → touched fd sl1 s s' → touched fd sl s s'.
Proof. intros Hi [A1 A2 A3 A4 A5 A6 A7 A8]. split; try done. intros a Ha. by apply A7, Hi. Qed.

Lemma touched_nodes fd sl s s' : touched fd sl s s' → io_nodes s' = io_nodes s.
Proof. intros H. by rewrite (to_rest _ _ _ _ H). Qed.

Lemma fd_touched_alloc fd sl s s' sl' : touched fd sl s s' → allocated (io_mem s) sl' → allocated (io_mem s') sl'.
Proof. intros H Ha x Hx. apply elem_of_dom. rewrite (to_dom _ _ _ _ H). by apply elem_of_dom, Ha. Qed.

(** Changes of the nodes commute with the rest. *)
Lemma touched_set_nodes fd sl s s' h : touched fd sl s s' → touched fd sl (set_io_nodes h s) (set_io_nodes h s').
Proof. intros [A1 A2 A3 A4 A5 A6 A7 A8]. split; try done. cbn. by rewrite A1. Qed.

Lemma recvd_done fd sl p s s' bs p' :
  touched fd sl s s' → length bs = length sl → p = bs ++ p' → io_mem s' = scatter sl bs (io_mem s) →
  recvd fd sl p s 0 p' s'.
Proof. intros. split; [done|]. left. split; [done|]. by exists bs. Qed.

Lemma recvd_failed fd sl p s s' bs p' : touched fd sl s s' → in_failed fd s' → p = bs ++ p' → recvd fd sl p s (-1) p' s'.
Proof. intros. split; [done|]. right. split; [done|]. split; [by exists bs|done]. Qed.

Lemma notin_app (sl1 sl2 : list (option ptr)) a : Some a ∉ sl1 ++ sl2 → Some a ∉ sl1 ∧ Some a ∉ sl2.
Proof. rewrite elem_of_app. intuition. Qed.

(** Receiving twice in a row. *)
Lemma recvd_app fd sl1 sl2 p p1 p2 s s1 s2 rc :
  recvd fd sl1 p s 0 p1 s1 → recvd fd sl2 p1 s1 rc p2 s2 → recvd fd (sl1 ++ sl2) p s rc p2 s2.
Proof.
  intros [T1 [(_ & b1 & L1 & -> & M1)|(? & _)]] [T2 H2]; [|done].
  split; [eapply fd_touched_trans; [apply notin_app|done|done]|].
  destruct H2 as [(-> & b2 & L2 & -> & M2)|(-> & (b2 & ->) & F)].
  - left. split; [done|]. exists (b1 ++ b2). rewrite !length_app, L1, L2. split; [done|].
    split; [by rewrite app_assoc|]. by rewrite M2, M1, scatter_app, <- L1, take_app_length, drop_app_length.
  - right. split; [done|]. split; [|done]. exists (b1 ++ b2). by rewrite app_assoc.
Qed.

Lemma recvd_fail_more fd sl1 sl2 p p1 s s1 : recvd fd sl1 p s (-1) p1 s1 → recvd fd (sl1 ++ sl2) p s (-1) p1 s1.
Proof.
  intros [T [(? & _)|(_ & (bs & ->) & F)]]; [done|]. eapply recvd_failed; [|done|done].
  eapply touched_weaken; [|done]. intros a Ha. by apply notin_app in Ha as [].
Qed.

Lemma recvd_nodes fd sl p s rc p' s' : recvd fd sl p s rc p' s' → io_nodes s' = io_nodes s.
Proof. intros [T _]. by eapply touched_nodes. Qed.

(** Steps that deliver nothing. *)
Lemma fd_recvd_step fd sl p p' s s1 s2 rc :
  touched fd [] s s1 → io_mem s1 = io_mem s → recvd fd sl p s1 rc p' s2 → recvd fd sl p s rc p' s2.
Proof.
  intros T Em [T2 R]. split; [|by rewrite <- Em].
  eapply fd_touched_trans; [|exact T|exact T2]. intros a Ha. split; [apply not_elem_of_nil|done].
Qed.

Lemma recvd_nothing fd sl p s s' bs p' : touched fd [] s s' → in_failed fd s' → p = bs ++ p' → recvd fd sl p s (-1) p' s'.
Proof.
  intros T F E. eapply recvd_failed; [|exact F|exact E]. eapply touched_weaken; [|exact T]. intros a _. apply not_elem_of_nil.
Qed.

Lemma fd_touched_errno fd e s s' : touched fd [] s s' → touched fd [] s (set_io_errno e s').
Proof. intros [A1 A2 A3 A4 A5 A6 A7 A8]. split; try done. by rewrite A1. Qed.

(** ** System calls *)

Definition with_os (k : K) (s : io (fdnet K)) : io (fdnet K) :=
  set_io_net (mk_fdnet k (fn_count (io_net s)) (fn_cache (io_net s)) (fn_budget (io_net s)) (fn_objs (io_net s))) s.

Lemma wp_sys {A} (f : K → A * K) (Q : A → io (fdnet K) → Prop) s :
  (∀ a k, f (fn_os (io_net s)) = (a, k) → Q a (with_os k s)) → wp (sys f) Q s.
Proof. unfold wp, sys. destruct (f _) as [a k]. intros H. by apply H. Qed.

(** What the system reported before [k] it reports in [k]. *)
Definition kept (k : K) (s : io (fdnet K)) : Prop := ∀ fd,
  (os_infail fd (fn_os (io_net s)) = true → os_infail fd k = true) ∧ (os_outfail fd (fn_os (io_net s)) = true → os_outfail fd k = true).

Lemma lasting_os k s s' : kept k s → fn_os (io_net s') = k → fn_budget (io_net s') = fn_budget (io_net s) → lasting s s'.
Proof.
  intros Hk Eo Eb fd. unfold in_failed, out_failed. rewrite Eo, Eb. destruct (Hk fd). split; [intros [?|?]; [left|right]; auto|auto].
Qed.

Lemma touched_os fd sl k m e s :
  kept k s → os_out fd k = os_out fd (fn_os (io_net s)) → (os_waits fd k ≤ waits fd s)%nat →
  dom m = dom (io_mem s) → (∀ a, Some a ∉ sl → m !! a = io_mem s !! a) →
  touched fd sl s (set_io_mem m (set_io_errno e (with_os k s))).
Proof. intros Hk. split; try done; try (by destruct s). by eapply lasting_os. Qed.

Lemma touched_sys fd k e s :
  kept k s → os_out fd k = os_out fd (fn_os (io_net s)) → (os_waits fd k ≤ waits fd s)%nat →
  touched fd [] s (set_io_errno e (with_os k s)).
Proof. intros Hk. split; try done; try (by destruct s). by eapply lasting_os. Qed.

Lemma wp_would_block e (Q : bool → io (fdnet K) → Prop) s :
  (e = EAGAIN → Q true s) → (∀ e', e ≠ EAGAIN → Q false (set_io_errno e' s)) → wp (would_block e) Q s.
Proof.
  intros H1 H2. unfold would_block. case_bool_decide as E; [by apply wp_ret, H1|].
  by apply wp_bind, wp_modify, wp_ret, H2.
Qed.

Lemma wp_fdin fd d (Q : option errno_t → io (fdnet K) → Prop) s :
  (∀ r k, kept k s → os_in fd k = coming fd s → os_out fd k = os_out fd (fn_os (io_net s)) → (os_waits fd k ≤ waits fd s)%nat →
     match r with None => (os_waits fd k < waits fd s)%nat | Some _ => os_infail fd k = true end → Q r (with_os k s)) →
  wp (sys (os_fdin fd d)) Q s.
Proof.
  intros H. apply wp_sys. intros a k E. assert (Hk : kept k s) by (intros fd'; apply (os_law_lasting fd); right; right; left; by exists d, a).
  apply os_law_fdin in E as (? & ? & ? & ?). by apply H.
Qed.

(** Waiting for more data between two rounds. *)
Lemma wp_wait_more {A} fd d (k : FD A) (err : errno_t → FD A) (Q : A → io (fdnet K) → Prop) s :
  (∀ e s1, touched fd [] s s1 → io_mem s1 = io_mem s → coming fd s1 = coming fd s → in_failed fd s1 → wp (err e) Q s1) →
  (∀ s1, touched fd [] s s1 → io_mem s1 = io_mem s → coming fd s1 = coming fd s → (waits fd s1 < waits fd s)%nat →
     wp k Q s1) →
  wp (r ← sys (os_fdin fd d); match r with Some e => err e | None => k end) Q s.
Proof.
  intros He Hk. apply wp_bind, wp_fdin. intros r k' Hkept Hin Ho Hw Hws.
  pose proof (touched_os fd [] k' (io_mem s) (io_errno s) s Hkept Ho Hw eq_refl (λ _ _, eq_refl)) as T.
  destruct r as [e|]; [apply He; try done; by left|]. by apply Hk.
Qed.

(** A round of the loop that received [bs]; [k] is the next one. *)
Lemma recv_round fd d (k : list (ptr * Z) → FD Z) iov bs s s1 :
  buffers iov → iov ≠ [] → allocated (io_mem s) (iov_slots iov) → Z.of_nat (length bs) ≤ iov_len iov →
  touched fd (take (length bs) (iov_slots iov)) s s1 → coming fd s = bs ++ coming fd s1 →
  io_mem s1 = scatter (iov_slots iov) bs (io_mem s) →
  (∀ iov' s', buffers iov' → iov' ≠ [] → allocated (io_mem s') (iov_slots iov') → (waits fd s' < waits fd s)%nat →
     wp (k iov') (λ rc s'', recvd fd (iov_slots iov') (coming fd s') s' rc (coming fd s'') s'') s') →
  wp (let iov' := adjust iov (Z.of_nat (length bs)) in
      if negb (Z.of_nat (length bs) =? 0) && bool_decide (iov' = []) then mret 0
      else r ← sys (os_fdin fd d); match r with Some e => fail e | None => k iov' end)
    (λ rc s', recvd fd (iov_slots iov) (coming fd s) s rc (coming fd s') s') s1.
Proof.
  intros Hb Hne Ha Hbl T Hin Em Hk. cbn zeta. pose proof (iov_len_slots iov Hb) as Hlen.
  destruct (adjust_spec iov (Z.of_nat (length bs)) Hb ltac:(lia)) as [Hb' Es].
  pose proof (adjust_empty iov (Z.of_nat (length bs)) Hb ltac:(lia)) as Hemp. rewrite Nat2Z.id in Es.
  assert (Rv : recvd fd (take (length bs) (iov_slots iov)) (coming fd s) s 0 (coming fd s1) s1).
  { apply (recvd_done _ _ _ _ _ bs); [done|by rewrite length_take_le by lia|done|]. by rewrite scatter_take by lia. }
  case_bool_decide as Eiov.
  - assert (En : Z.of_nat (length bs) = Z.of_nat (length (iov_slots iov))) by (by apply Hemp).
    rewrite (proj2 (Z.eqb_neq (Z.of_nat (length bs)) 0)); [apply wp_ret; by rewrite take_ge in Rv by lia|].
    destruct iov as [|[b n] iov]; [done|]. apply Forall_cons in Hb as [[Hb0 Hn] _]. cbn in Hb0, Hn.
    change (iov_slots ((b, n) :: iov)) with (arr b n ++ iov_slots iov) in En. rewrite length_app in En.
    pose proof (length_arr b n ltac:(lia)). lia.
  - rewrite andb_false_r, <- (take_drop (length bs) (iov_slots iov)). pose proof (to_waits _ _ _ _ T) as Hw.
    apply wp_wait_more; intros ?; [intros s2 T2 Em2 Ec2 F2|intros T2 Em2 Ec2 Hw2].
    + apply wp_fail. rewrite <- Ec2 in Rv. destruct Rv as [_ [(_ & b & _ & Hp & _)|(? & _)]]; [|done].
      apply recvd_fail_more, (recvd_failed _ _ _ _ _ b); [|exact F2|exact Hp].
      eapply (fd_touched_trans fd _ []); [|exact T|by apply (fd_touched_errno fd)].
      intros a Hna. split; [done|apply not_elem_of_nil].
    + eapply wp_mono; [apply Hk; [done|done| |lia]|].
      * rewrite Es, Em2. intros a Hai. apply (fd_touched_alloc _ _ _ _ _ T Ha). rewrite <- (take_drop (length bs)).
        apply elem_of_app. by right.
      * cbn beta. intros rc s' R. rewrite Es, Ec2 in R. eapply recvd_app; [exact Rv|]. by eapply fd_recvd_step.
Qed.

Lemma fd_recv_loop_spec fd d fuel : ∀ iov s,
  buffers iov → iov ≠ [] → allocated (io_mem s) (iov_slots iov) → (waits fd s < fuel)%nat →
  wp (recv_loop_ fuel fd iov d) (λ rc s', recvd fd (iov_slots iov) (coming fd s) s rc (coming fd s') s') s.
Proof.
  induction fuel as [|fuel IH]; intros iov s Hb Hne Ha Hf; [lia|]. cbn [recv_loop_].
  pose proof (iov_len_slots iov Hb) as Hlen. apply wp_bind, wp_sys. intros r k E.
  assert (Hkept : kept k s) by (intros fd'; apply (os_law_lasting fd); left; by exists (iov_len iov), r).
  apply os_law_recv in E as (Ho & Hw & Hr); [|lia].
  assert (Hround : ∀ bs s1 e, Z.of_nat (length bs) ≤ iov_len iov → coming fd s = bs ++ os_in fd k →
    s1 = set_io_mem (scatter (iov_slots iov) bs (io_mem s)) (set_io_errno e (with_os k s)) →
    wp (let iov' := adjust iov (Z.of_nat (length bs)) in
        if negb (Z.of_nat (length bs) =? 0) && bool_decide (iov' = []) then mret 0
        else r ← sys (os_fdin fd d); match r with Some e => fail e | None => recv_loop_ fuel fd iov' d end)
      (λ rc s', recvd fd (iov_slots iov) (coming fd s) s rc (coming fd s') s') s1).
  { intros bs s1 e Hbl Hin ->. apply (recv_round fd d (λ iov, recv_loop_ fuel fd iov d)); try done.
    - apply touched_os; [done|done|done|by apply scatter_dom|]. intros a Hna. rewrite <- scatter_take by lia.
      by apply scatter_other.
    - intros iov' s' ? ? ? ?. apply IH; [done|done|done|lia]. }
  assert (Hfail : ∀ e, os_infail fd k = true → (∃ bs, coming fd s = bs ++ os_in fd k) →
    recvd fd (iov_slots iov) (coming fd s) s (-1) (coming fd (set_io_errno e (with_os k s))) (set_io_errno e (with_os k s))).
  { intros e F [bs Hc]. apply (recvd_nothing _ _ _ _ _ bs); [by apply touched_sys|by left|exact Hc]. }
  apply wp_bind. destruct r as [[|b bs]|e].
  - destruct Hr as (_ & Hr & F). apply wp_bind, wp_modify, wp_ret, wp_ret, Hfail; [|by exists []]. apply F; [done|].
    destruct iov as [|[b n] iov]; [done|]. apply Forall_cons in Hb as [[Hb0 Hn] _]. cbn in Hb0, Hn.
    rewrite Hlen. change (iov_slots ((b, n) :: iov)) with (arr b n ++ iov_slots iov). rewrite length_app.
    pose proof (length_arr b n ltac:(lia)). lia.
  - destruct Hr as (Hl & Hr & _). set (l := b :: bs) in *. apply wp_bind. unfold wp at 1.
    assert (Hl0 : (length l ≤ length (iov_slots iov))%nat) by lia.
    rewrite (iov_store_scatter iov l) by done. cbv zeta. apply wp_ret.
    eapply (Hround l _ (io_errno s)); [done|done|]. by destruct s.
  - apply wp_bind, wp_would_block.
    + intros ->. destruct Hr as [Hr _]. apply wp_ret. eapply (Hround [] _ (io_errno s)); [rewrite Hlen; cbn [length]; lia|done|].
      rewrite scatter_nil. by destruct s.
    + intros e' He. destruct Hr as [Hr F]. apply wp_ret, wp_ret, Hfail; [by apply F|by exists []].
Qed.

Lemma wp_check_list first lst l (Q : Z * Z + errno_t → io (fdnet K) → Prop) s :
  valid (io_nodes s) first lst l → (∀ r, Q (inl r) s) → wp (check_list first lst) Q s.
Proof.
  intros Hv HQ. destruct (iolcheck_valid _ _ _ _ (S (size (io_nodes s))) Hv ltac:(lia)) as [r E].
  unfold wp, check_list. rewrite E. replace (set_io_nodes (io_nodes s) s) with s by (by destruct s). apply HQ.
Qed.

Lemma wp_ioltoiov first l (Q : list (ptr * Z) → io (fdnet K) → Prop) s :
  path (io_nodes s) first l →
  Q (map (λ x, (iol_base (node (io_nodes s) x), iol_len (node (io_nodes s) x))) l) s →
  wp (read_nodes (λ h, dill_ioltoiov (S (size h)) first h)) Q s.
Proof.
  intros Hp HQ. pose proof (seg_length _ _ _ _ Hp (path_nodup _ _ _ Hp)) as Hl. unfold wp, read_nodes.
  by rewrite (ioltoiov_path _ l) by (done || lia).
Qed.

(** The buffer of a node is real, and not empty. *)
Definition real (h : nodes) (x : ptr) : Prop := 0 < iol_base (node h x).
Definition nonempty (h : nodes) (x : ptr) : Prop := 0 < iol_len (node h x).

Lemma fd_recv__spec fd d fuel first lst l s :
  valid (io_nodes s) first lst l → Forall (real (io_nodes s)) l → Forall (nonempty (io_nodes s)) l →
  allocated (io_mem s) (flat (io_nodes s) l) → (waits fd s < fuel)%nat →
  wp (dill_fd_recv_ fuel fd first lst d)
    (λ rc s', recvd fd (flat (io_nodes s) l) (coming fd s) s rc (coming fd s') s') s.
Proof.
  intros Hv Hr Hn Ha Hf. pose proof Hv as (Hp & Hl & _).
  apply wp_bind, (wp_check_list _ _ l); [done|]. intros r. apply wp_bind, (wp_ioltoiov _ l); [done|].
  rewrite <- iov_slots_list in *. apply fd_recv_loop_spec; [| |done|done].
  - apply Forall_map, Forall_forall. intros x Hx. rewrite Forall_forall in Hr, Hn. split; [by apply Hr|by apply Hn].
  - by destruct l.
Qed.

(** Cutting the list after a node. *)
Definition cut (h : nodes) (x : ptr) : nodes :=
  let n := node h x in <[x := mk_iolist (iol_base n) (iol_len n) NULL (iol_rsvd n)]> h.

Lemma node_cut h x y : is_Some (h !! x) →
  iol_base (node (cut h x) y) = iol_base (node h y) ∧ iol_len (node (cut h x) y) = iol_len (node h y) ∧
  iol_rsvd (node (cut h x) y) = iol_rsvd (node h y).
Proof.
  intros [n Hn]. set (f := node h x). assert (E : cut h x = <[x := mk_iolist (iol_base f) (iol_len f) NULL (iol_rsvd f)]> h) by done.
  rewrite E. destruct (decide (x = y)) as [->|Hne].
  - erewrite (node_lookup (<[y := _]> h)) by apply lookup_insert_eq. done.
  - unfold node. by rewrite lookup_insert_ne by done.
Qed.

Lemma flat_same_buffers h h' l :
  (∀ x, x ∈ l → iol_base (node h' x) = iol_base (node h x) ∧ iol_len (node h' x) = iol_len (node h x)) →
  flat h' l = flat h l.
Proof.
  unfold flat. induction l as [|x l IH]; intros H; [done|]. cbn. rewrite IH by (intros y Hy; apply H; by right).
  f_equal. destruct (H x ltac:(left)) as [E1 E2]. unfold slots. by rewrite E1, E2.
Qed.

Lemma seg_cut h x : ∀ l a b, x ∉ l → seg h a l b → seg (cut h x) a l b.
Proof.
  induction l as [|y l IH]; intros a b Hx; [done|]. intros (-> & Hy & n & Hn & Hs).
  apply not_elem_of_cons in Hx as [Hxy Hx]. repeat (split; [done|]). exists n. unfold cut.
  rewrite lookup_insert_ne by done. split; [done|]. by apply IH.
Qed.

Lemma valid_cut h first pre x post :
  path h first (pre ++ x :: post) → unmarked h (pre ++ x :: post) → valid (cut h x) first x (pre ++ [x]).
Proof.
  intros Hp Hu. pose proof (path_nodup _ _ _ Hp) as Hnd. apply iseg_app in Hp as (c & Hs & -> & Hx & n & Hn & _).
  apply NoDup_app in Hnd as (_ & Hd & _). split; [|split].
  - apply iseg_app. exists x. split.
    + apply seg_cut; [|done]. intros Hi. apply (Hd _ Hi). by left.
    + split; [done|]. split; [done|]. unfold cut. rewrite lookup_insert_eq. eexists. split; [done|]. done.
  - by rewrite last_snoc.
  - intros y Hy. destruct (node_cut h x y ltac:(by exists n)) as (_ & _ & ->). apply Hu.
    apply elem_of_app in Hy as [Hy|Hy%list_elem_of_singleton]; apply elem_of_app; [by left|right; subst; by left].
Qed.

Lemma wp_set_link p q n (Q : unit → io (fdnet K) → Prop) s :
  io_nodes s !! p = Some n →
  Q tt (set_io_nodes (<[p := mk_iolist (iol_base n) (iol_len n) q (iol_rsvd n)]> (io_nodes s)) s) →
  wp (set_link p q) Q s.
Proof. intros Hp HQ. by apply wp_bind, (wp_get_node _ n), wp_modify. Qed.
Lemma fd_seg_next h a pre x post b n : seg h a (pre ++ x :: post) b → h !! x = Some n → seg h (iol_next n) post b.
Proof. intros (c & _ & -> & _ & m & Hm & Hs)%iseg_app Hn. by simplify_eq. Qed.

Lemma flat_real h l x : x ∈ l → 0 < iol_len (node h x) → 0 ≤ iol_base (node h x) →
  None ∉ flat h l → real h x.
Proof.
  intros Hx Hl Hb Hn. unfold real. destruct (decide (iol_base (node h x) = 0)) as [E|]; [|lia]. exfalso. apply Hn.
  apply list_elem_of_bind. exists x. split; [|done]. unfold slots. rewrite E. cbn.
  replace (Z.to_nat (iol_len (node h x))) with (S (pred (Z.to_nat (iol_len (node h x))))) by lia. left.
Qed.

(** A well-formed list of buffers. *)
Definition list_at (h : nodes) (first : ptr) (l : list ptr) : Prop :=
  path h first l ∧ unmarked h l ∧ sized h l ∧ ∀ x, x ∈ l → 0 ≤ iol_base (node h x).

Lemma list_at_after h first l1 x l2 n : list_at h first (l1 ++ x :: l2) → h !! x = Some n →
  list_at h (iol_next n) l2 ∧ 0 ≤ iol_len n < 2 ^ 64 ∧ 0 ≤ iol_base n.
Proof.
  intros (Hp & Hu & Hs & Hb) Hn. assert (Hx : x ∈ l1 ++ x :: l2) by (apply elem_of_app; right; by left).
  assert (Hi : ∀ y, y ∈ l2 → y ∈ l1 ++ x :: l2) by (intros y Hy; apply elem_of_app; right; by right).
  pose proof (Hs x Hx) as H1. pose proof (Hb x Hx) as H2. rewrite (node_lookup _ _ _ Hn) in H1, H2.
  split; [|done]. split; [by eapply fd_seg_next|]. split; [|split]; intros y Hy; eauto.
Qed.

Lemma list_at_fresh h a f l : h !! a = None → a ≠ NULL → list_at h (iol_next f) l →
  iol_rsvd f = 0 → 0 ≤ iol_len f < 2 ^ 64 → 0 ≤ iol_base f →
  list_at (<[a := f]> h) a (a :: l) ∧ flat (<[a := f]> h) l = flat h l ∧
  (∀ x, x ∈ l → node (<[a := f]> h) x = node h x).
Proof.
  intros Ha Hn (Hp & Hu & Hs & Hb) Hf Hl Hbf.
  assert (Hal : a ∉ l) by (intros Hi; destruct (seg_alloc _ _ _ _ _ Hp Hi); congruence).
  assert (Hnode : ∀ x, x ∈ l → node (<[a := f]> h) x = node h x).
  { intros x Hx. unfold node. rewrite lookup_insert_ne; [done|]. by intros ->. }
  assert (Hfa : <[a := f]> h !! a = Some f) by apply lookup_insert_eq.
  split; [|split; [by apply flat_fresh|done]].
  assert (Hseg : ∀ l x, a ∉ l → seg h x l NULL → seg (<[a := f]> h) x l NULL).
  { clear. induction l as [|y l IH]; intros x Hal; [done|]. intros (-> & Hy & g & Hg & Hs).
    apply not_elem_of_cons in Hal as [Hay Hal]. repeat (split; [done|]). exists g. rewrite lookup_insert_ne by done.
    split; [done|]. by apply IH. }
  split; [|split; [|split]].
  - split; [done|]. split; [done|]. exists f. split; [done|]. by apply Hseg.
  - intros x [->|Hx]%elem_of_cons; [by rewrite (node_lookup _ _ _ Hfa)|]. rewrite Hnode by done. by apply Hu.
  - intros x [->|Hx]%elem_of_cons; [by rewrite (node_lookup _ _ _ Hfa)|]. rewrite Hnode by done. by apply Hs.
  - intros x [->|Hx]%elem_of_cons; [by rewrite (node_lookup _ _ _ Hfa)|]. rewrite Hnode by done. by apply Hb.
Qed.

(** Receiving into the part of the list that was accumulated. *)
Lemma split_recv fd d fuel pre x post first n s (Q : Z → io (fdnet K) → Prop) :
  let h := io_nodes s in
  path h first (pre ++ x :: post) → unmarked h (pre ++ x :: post) → h !! x = Some n →
  Forall (real h) (pre ++ [x]) → Forall (nonempty h) (pre ++ [x]) →
  allocated (io_mem s) (flat h (pre ++ [x])) → (waits fd s < fuel)%nat →
  (∀ rc s', recvd fd (flat h (pre ++ [x])) (coming fd s) s rc (coming fd s') s' → Q rc s') →
  wp (set_link x NULL;; rc ← dill_fd_recv_ fuel fd first x d; set_link x (iol_next n);; mret rc) Q s.
Proof.
  cbn zeta. intros Hp Hu Hn Hr Hne Ha Hf HQ. apply wp_bind, (wp_set_link _ _ n); [done|].
  assert (Ec : <[x := mk_iolist (iol_base n) (iol_len n) NULL (iol_rsvd n)]> (io_nodes s) = cut (io_nodes s) x).
  { unfold cut. by rewrite (node_lookup _ _ _ Hn). }
  rewrite Ec. set (s1 := set_io_nodes _ s). assert (Hx : is_Some (io_nodes s !! x)) by (by exists n).
  assert (Ef : flat (io_nodes s1) (pre ++ [x]) = flat (io_nodes s) (pre ++ [x])).
  { apply flat_same_buffers. intros y _. destruct (node_cut (io_nodes s) x y Hx) as (? & ? & _). done. }
  apply wp_bind. eapply wp_mono; [apply (fd_recv__spec fd d fuel first x (pre ++ [x]) s1)|].
  - by eapply valid_cut.
  - eapply Forall_impl; [exact Hr|]. intros y Hy. unfold real in *.
    destruct (node_cut (io_nodes s) x y Hx) as (E & _). change (io_nodes s1) with (cut (io_nodes s) x). by rewrite E.
  - eapply Forall_impl; [exact Hne|]. intros y Hy. unfold nonempty in *.
    destruct (node_cut (io_nodes s) x y Hx) as (_ & E & _). change (io_nodes s1) with (cut (io_nodes s) x). by rewrite E.
  - by rewrite Ef.
  - done.
  - cbn beta. rewrite Ef. intros rc s2 R. pose proof (recvd_nodes _ _ _ _ _ _ _ R) as En.
    apply wp_bind, (wp_set_link _ _ (mk_iolist (iol_base n) (iol_len n) NULL (iol_rsvd n))).
    { rewrite En. cbn. rewrite <- Ec. apply lookup_insert_eq. }
    rewrite En. cbn [io_nodes s1 set_io_nodes]. rewrite <- Ec, insert_insert_eq. cbn [iol_base iol_len iol_rsvd].
    rewrite insert_id by (by destruct n). apply wp_ret, HQ. destruct R as [T R].
    apply (touched_set_nodes _ _ _ _ (io_nodes s)) in T.
    replace (set_io_nodes (io_nodes s) s1) with s in T by (by destruct s). by split.
Qed.

(** The label [next]; [k] is the next turn. *)
Lemma split_next fd (k : ptr → FD Z) stop pre x post first n s s1 :
  let h := io_nodes s in
  list_at h first (pre ++ x :: post) → h !! x = Some n → (x = stop ↔ post = []) →
  allocated (io_mem s) (flat h (pre ++ x :: post)) →
  recvd fd (flat h (pre ++ [x])) (coming fd s) s 0 (coming fd s1) s1 →
  (∀ y post', post = y :: post' → list_at (io_nodes s1) y post → io_nodes s1 = h → allocated (io_mem s1) (flat h post) →
     (waits fd s1 ≤ waits fd s)%nat →
     wp (k y) (λ rc s', recvd fd (flat h post) (coming fd s1) s1 rc (coming fd s') s') s1) →
  wp (if x =? stop then mret 0 else n ← get_node x; k (iol_next n))
    (λ rc s', recvd fd (flat h (pre ++ x :: post)) (coming fd s) s rc (coming fd s') s') s1.
Proof.
  intros h Hl Hn Hstop Ha R Hk. pose proof (recvd_nodes _ _ _ _ _ _ _ R) as En. pose proof R as [T _].
  assert (El : flat h (pre ++ x :: post) = flat h (pre ++ [x]) ++ flat h post) by (by rewrite <- flat_app, <- app_assoc).
  rewrite El in *. destruct (Z.eqb_spec x stop) as [E|E].
  - apply wp_ret. rewrite (proj1 Hstop E), app_nil_r. exact R.
  - apply wp_bind, (wp_get_node _ n); [by rewrite En|].
    destruct (list_at_after _ _ _ _ _ _ Hl Hn) as (Hpost & _). destruct post as [|y post]; [exfalso; by apply E, Hstop|].
    pose proof Hpost as ((Ey & _) & _). rewrite Ey in *. eapply wp_mono; [apply (Hk y post); try done|].
    + by rewrite En.
    + apply (fd_touched_alloc _ _ _ _ _ T). intros z Hz. apply Ha, elem_of_app. by right.
    + by apply (to_waits _ _ _ _ T).
    + cbn beta. intros rc s' R'. by eapply recvd_app.
Qed.

(** Receiving what was accumulated, and going on. *)
Lemma split_cut fd d fuel (k : FD Z) pre x post first n s :
  let h := io_nodes s in
  list_at h first (pre ++ x :: post) → h !! x = Some n →
  Forall (real h) (pre ++ x :: post) → Forall (nonempty h) (pre ++ [x]) →
  allocated (io_mem s) (flat h (pre ++ x :: post)) → (waits fd s < fuel)%nat →
  (∀ s1, recvd fd (flat h (pre ++ [x])) (coming fd s) s 0 (coming fd s1) s1 →
     wp k (λ rc s', recvd fd (flat h (pre ++ x :: post)) (coming fd s) s rc (coming fd s') s') s1) →
  wp (set_link x NULL;; rc ← dill_fd_recv_ fuel fd first x d; set_link x (iol_next n);;
      if rc <? 0 then mret (-1) else k)
    (λ rc s', recvd fd (flat h (pre ++ x :: post)) (coming fd s) s rc (coming fd s') s') s.
Proof.
  intros h (Hp & Hu & _) Hn Hr Hne Ha Hf Hk.
  assert (El : pre ++ x :: post = (pre ++ [x]) ++ post) by (by rewrite <- app_assoc).
  assert (Hw : wp (set_link x NULL;; rc ← dill_fd_recv_ fuel fd first x d; set_link x (iol_next n);; mret rc) (λ rc s1,
    wp (if rc <? 0 then mret (-1) else k)
      (λ rc s', recvd fd (flat h (pre ++ x :: post)) (coming fd s) s rc (coming fd s') s') s1) s).
  { apply (split_recv fd d fuel pre x post); try done.
    - rewrite El in Hr. by apply Forall_app in Hr as [Hr _].
    - intros z Hz. apply Ha. fold h. rewrite El, flat_app. apply elem_of_app. by left.
    - intros rc s' R. pose proof R as [_ [(-> & _)|(-> & _)]]; [by apply Hk|].
      apply wp_ret. rewrite El, flat_app. by apply recvd_fail_more. }
  clear -Hw. unfold wp in *. cbv [mbind IO_bind mret IO_ret] in *.
  destruct (set_link x NULL s) as [[[] s1]|]; [|done]. destruct (dill_fd_recv_ _ _ _ _ _ s1) as [[rc s2]|]; [|done].
  by destruct (set_link x (iol_next n) s2) as [[[] s3]|].
Qed.

Lemma last_is (l : list ptr) x post stop : NoDup (l ++ x :: post) → last (l ++ x :: post) = Some stop → x = stop ↔ post = [].
Proof.
  intros Hnd Hl. rewrite last_app_cons in Hl. split.
  - intros ->. destruct post as [|y post]; [done|]. exfalso. cbn in Hl. apply last_Some in Hl as [k Ek].
    apply NoDup_app in Hnd as (_ & _ & Hnd). apply NoDup_cons in Hnd as [Hnd _]. apply Hnd. rewrite Ek.
    apply elem_of_app. right. by left.
  - intros ->. by injection Hl.
Qed.

Lemma split_loop_spec fd d rounds fuel stop turns : ∀ pre x post first s,
  let h := io_nodes s in let l := pre ++ x :: post in
  list_at h first l → last l = Some stop → Forall (real h) l → Forall (nonempty h) pre →
  pre = [] ∨ nonempty h x → allocated (io_mem s) (flat h l) → (waits fd s < fuel)%nat → (length post < turns)%nat →
  wp (split_loop turns rounds fuel fd first x stop d)
    (λ rc s', recvd fd (flat h l) (coming fd s) s rc (coming fd s') s') s.
Proof.
  induction turns as [|turns IH]; intros pre x post first s h l Hl Hlast Hr Hpre Hx Ha Hf Ht; [lia|].
  pose proof Hl as (Hp & _). assert (Hin : x ∈ l) by (apply elem_of_app; right; by left).
  destruct (seg_alloc _ _ _ _ _ Hp Hin) as [n Hn]. fold h in Hn. destruct (list_at_after _ _ _ _ _ _ Hl Hn) as (Hpost & Hln & _).
  pose proof (last_is _ _ _ _ (path_nodup _ _ _ Hp) Hlast) as Hstop.
  assert (Hrp : Forall (real h) (x :: post)) by (by apply Forall_app in Hr as [_ Hr]).
  assert (Hnext : ∀ s1, recvd fd (flat h (pre ++ [x])) (coming fd s) s 0 (coming fd s1) s1 →
    wp (if x =? stop then mret 0
        else n ← get_node x; split_loop turns rounds fuel fd (iol_next n) (iol_next n) stop d)
      (λ rc s', recvd fd (flat h l) (coming fd s) s rc (coming fd s') s') s1).
  { intros s1 R. apply (split_next fd (λ y, split_loop turns rounds fuel fd y y stop d) stop pre x post first n); try done.
    intros y post' -> Hl1 En Ha1 Hw. pose proof (IH [] y post' y s1) as Hy. rewrite En in *. apply Hy; try done.
    - unfold l in Hlast. by rewrite last_app_cons in Hlast.
    - by apply Forall_cons in Hrp as [_ Hrp].
    - by left.
    - lia.
    - cbn in Ht. lia. }
  cbn [split_loop]. apply wp_bind, (wp_get_node _ n); [done|]. cbn zeta.
  destruct (Z.eqb_spec (iol_len n) 0) as [E0|E0].
  - assert (pre = []) as ->.
    { destruct Hx as [|Hx]; [done|]. unfold nonempty in Hx. rewrite (node_lookup _ _ _ Hn) in Hx. lia. }
    destruct Hp as (-> & _). apply wp_bind, wp_assert; [by apply Z.eqb_eq|]. apply Hnext. cbn [app].
    rewrite (flat_one _ _ _ Hn). apply (recvd_done _ _ _ _ _ []); [apply fd_touched_refl| |done|by rewrite scatter_nil].
    pose proof (length_slots n ltac:(lia)). cbn [length]. lia.
  - assert (Hb : real h x) by (by apply Forall_cons in Hrp as [Hrp _]). unfold real in Hb. rewrite (node_lookup _ _ _ Hn) in Hb.
    rewrite (proj2 (Z.eqb_neq (iol_base n) NULL)) by (unfold NULL; lia).
    assert (Hne : Forall (nonempty h) (pre ++ [x])).
    { apply Forall_app. split; [done|]. constructor; [|done]. unfold nonempty. rewrite (node_lookup _ _ _ Hn). lia. }
    pose proof (split_cut fd d fuel _ pre x post first n s Hl Hn Hr Hne Ha Hf Hnext) as Hcut.
    apply wp_bind. destruct (Z.eqb_spec x stop) as [E|E]; [by apply wp_ret|].
    destruct post as [|y post]; [exfalso; by apply E, Hstop|]. pose proof Hpost as ((Ey & _ & ny & Hny & _) & _).
    rewrite Ey in *. apply wp_bind, (wp_get_node _ ny); [done|]. apply wp_ret.
    destruct ((iol_base ny =? NULL) || (iol_len ny =? 0)) eqn:Ec; [done|].
    apply orb_false_iff in Ec as [_ Ec]. apply Z.eqb_neq in Ec.
    destruct (list_at_after _ _ [] _ _ _ Hpost Hny) as (_ & Hlny & _).
    assert (El : l = (pre ++ [x]) ++ y :: post) by (unfold l; by rewrite <- app_assoc).
    clearbody l. subst l. apply IH; try done.
    + right. unfold nonempty. fold h. rewrite (node_lookup _ _ _ Hny). lia.
    + cbn in Ht. lia.
Qed.
End Receive.


(** * Sending *)

Lemma skip_zeros_spec iov : bufs iov →
  bufs (skip_zeros iov) ∧ iov_slots (skip_zeros iov) = iov_slots iov ∧ (skip_zeros iov = [] ∨ iov_slots iov ≠ []).
Proof.
  induction 1 as [|[b n] iov [Hn Hb] Hf IH]; [split; [constructor|by split; [|left]]|]. cbn [skip_zeros fst snd] in *.
  change (iov_slots ((b, n) :: iov)) with (arr b n ++ iov_slots iov). destruct (Z.eqb_spec n 0) as [->|Hn0].
  - by rewrite arr_0.
  - split; [by constructor|]. split; [done|]. right. pose proof (length_arr b n ltac:(lia)).
    destruct (arr b n); [cbn in *; lia|done].
Qed.

Lemma iov_load_gather iov m : bufs iov → iov_load iov m = gather m (iov_slots iov).
Proof.
  induction 1 as [|[b n] iov [Hn Hb] Hf IH]; [done|]. cbn [iov_load fst snd] in *.
  change (iov_slots ((b, n) :: iov)) with (arr b n ++ iov_slots iov). rewrite gather_app, IH.
  destruct (decide (n = 0)) as [->|Hn0]; [by rewrite arr_0|].
  by rewrite load_arr by (unfold NULL; lia).
Qed.

Lemma gather_drop m sl : ∀ k bs, gather m sl = Some bs → gather m (drop k sl) = Some (drop k bs).
Proof.
  unfold gather. induction sl as [|o sl IH]; intros [|k] bs H; try done.
  - by injection H as <-.
  - cbn [mapM] in H. destruct (o ≫= λ a, m !! a) as [v|]; [|done]. cbn in H.
    destruct (mapM _ sl) as [r|] eqn:E; [|done]. injection H as <-. cbn [drop]. by apply IH.
Qed.

Section Send.
Context {K : Type} `{OsK : Os K} `{LawsK : !OsLaws K}.
Local Abbreviation FD := (IO (fdnet K)).

Definition gone (fd : Z) (s : io (fdnet K)) : list Z := os_out fd (fn_os (io_net s)).

(** Sending the bytes [bs]: all of them, or the first of them and an error. *)
Definition sent (fd : Z) (bs : list Z) (s : io (fdnet K)) (rc : Z) (s' : io (fdnet K)) : Prop :=
  s' = set_io_net (io_net s') (set_io_errno (io_errno s') s) ∧
  fn_objs (io_net s') = fn_objs (io_net s) ∧ coming fd s' = coming fd s ∧ lasting s s' ∧
  ((rc = 0 ∧ gone fd s' = gone fd s ++ bs) ∨
   (rc = -1 ∧ (∃ k, gone fd s' = gone fd s ++ take k bs) ∧ out_failed fd s')).

Lemma sent_more fd bs n s s1 rc s2 :
  s1 = set_io_net (io_net s1) (set_io_errno (io_errno s1) s) → fn_objs (io_net s1) = fn_objs (io_net s) →
  coming fd s1 = coming fd s → lasting s s1 → gone fd s1 = gone fd s ++ take n bs →
  sent fd (drop n bs) s1 rc s2 → sent fd bs s rc s2.
Proof.
  intros E1 Eo Ec L Eg (E2 & Eo2 & Ec2 & L2 & H). split; [by rewrite E2, E1|]. split; [congruence|]. split; [congruence|].
  split; [by eapply lasting_trans|]. destruct H as [(-> & H)|(-> & (k & H) & F)]; rewrite H, Eg, <- app_assoc.
  - left. split; [done|]. by rewrite take_drop.
  - right. split; [done|]. split; [|done]. exists (n + k)%nat. by rewrite take_take_drop.
Qed.

Lemma sent_failed fd bs s s1 :
  s1 = set_io_net (io_net s1) (set_io_errno (io_errno s1) s) → fn_objs (io_net s1) = fn_objs (io_net s) →
  coming fd s1 = coming fd s → lasting s s1 → gone fd s1 = gone fd s → out_failed fd s1 → sent fd bs s (-1) s1.
Proof. intros E1 Eo Ec L Eg F. repeat (split; [done|]). right. split; [done|]. split; [|done]. exists 0%nat. by rewrite Eg, app_nil_r. Qed.

Lemma wp_fdout fd d (Q : option errno_t → io (fdnet K) → Prop) s :
  (∀ r k, kept k s → os_in fd k = coming fd s → os_out fd k = gone fd s → (os_waits fd k ≤ waits fd s)%nat →
     match r with None => (os_waits fd k < waits fd s)%nat | Some _ => os_outfail fd k = true end → Q r (with_os k s)) →
  wp (sys (os_fdout fd d)) Q s.
Proof.
  intros H. apply wp_sys. intros a k E. assert (Hk : kept k s) by (intros fd'; apply (os_law_lasting fd); do 3 right; by exists d, a).
  apply os_law_fdout in E as (? & ? & ? & ?). by apply H.
Qed.

Lemma send_loop_spec fd d fuel : ∀ iov bs s,
  bufs iov → gather (io_mem s) (iov_slots iov) = Some bs → (waits fd s < fuel)%nat →
  wp (send_loop fuel fd iov d) (λ rc s', sent fd bs s rc s') s.
Proof.
  induction fuel as [|fuel IH]; intros iov bs s Hb Hg Hf; [lia|]. cbn [send_loop]. cbv zeta.
  destruct (skip_zeros_spec iov Hb) as (Hb' & Es & Hz). set (iov' := skip_zeros iov) in *. rewrite <- Es in Hg, Hz.
  pose proof (gather_some _ _ _ Hg) as (_ & Hlen & _). case_bool_decide as Ei.
  { apply wp_ret. rewrite Ei in Hlen. destruct bs; [|done]. split; [by destruct s|]. repeat (split; [done|]).
    left. by rewrite app_nil_r. }
  destruct Hz as [|Hz]; [done|]. apply wp_bind. unfold wp at 1. rewrite iov_load_gather, Hg by done.
  apply wp_bind, wp_sys. intros r k E.
  assert (Hkept : ∀ e, lasting s (set_io_errno e (with_os k s))).
  { intros e. apply (lasting_os k); [|done|done]. intros fd'. apply (os_law_lasting fd). right; left. by exists bs, r. }
  apply os_law_send in E as (Hin & Hw & Hr); [|by intros ->; destruct (iov_slots iov')].
  (** waiting, with [n] bytes sent *)
  assert (Hwait : ∀ n e, 0 ≤ n ≤ Z.of_nat (length bs) → os_out fd k = gone fd s ++ take (Z.to_nat n) bs →
    wp (r ← sys (os_fdout fd d);
        match r with Some e => fail e | None => send_loop fuel fd (adjust iov' n) d end)
      (λ rc s', sent fd bs s rc s') (set_io_errno e (with_os k s))).
  { intros n e Hn Ho. destruct (adjust_slots iov' n Hb' ltac:(lia)) as [Hba Ea].
    apply wp_bind, wp_fdout. intros r' k' Hkept' Hin' Ho' Hw' Hws.
    set (s1 := with_os k' (set_io_errno e (with_os k s))).
    assert (Hmore : ∀ rc s2, sent fd (drop (Z.to_nat n) bs) s1 rc s2 → sent fd bs s rc s2).
    { intros rc s2. apply sent_more; [by destruct s|done| | |].
      - unfold coming, s1. cbn. rewrite Hin'. exact Hin.
      - eapply lasting_trans; [apply (Hkept e)|]. by apply (lasting_os k').
      - unfold gone, s1. cbn. rewrite Ho'. exact Ho. }
    destruct r' as [e'|].
    - apply wp_fail, Hmore. apply sent_failed; [by destruct s|done|done|done|done|done].
    - eapply wp_mono; [apply (IH _ (drop (Z.to_nat n) bs) s1); [done| |]|].
      + rewrite Ea. by apply gather_drop.
      + unfold waits, s1 in *. cbn in *. lia.
      + intros rc s2. apply Hmore. }
  apply wp_bind. destruct r as [n|e].
  - destruct Hr as [Hn Ho]. apply wp_bind, wp_assert; [apply negb_true_iff, Z.eqb_neq; lia|].
    apply wp_ret. destruct (adjust_slots iov' n Hb' ltac:(lia)) as [Hba Ea].
    rewrite (proj2 (Z.eqb_neq n 0)) by lia. cbn [negb andb]. case_bool_decide as Ee.
    + apply wp_ret. rewrite Ee in Ea. apply (f_equal length) in Ea. rewrite length_drop in Ea. cbn in Ea.
      split; [by destruct s|]. split; [done|]. split; [exact Hin|]. split; [apply (Hkept (io_errno s))|]. left. split; [done|].
      unfold gone at 1. cbn. rewrite Ho, take_ge by lia. done.
    + replace (with_os k s) with (set_io_errno (io_errno s) (with_os k s)) by (by destruct s). apply Hwait; [lia|done].
  - apply wp_bind, wp_would_block.
    + intros ->. apply wp_ret. cbn [Z.eqb negb andb].
      replace (with_os k s) with (set_io_errno (io_errno s) (with_os k s)) by (by destruct s).
      replace (adjust iov' 0) with iov' in Hwait by (by destruct iov').
      specialize (Hwait 0 (io_errno s) ltac:(lia)). replace (adjust iov' 0) with iov' in * by (by destruct iov').
      apply Hwait. cbn. rewrite app_nil_r. apply Hr.
    + intros e' He. destruct Hr as [Hr F]. apply wp_ret, wp_ret.
      apply sent_failed; [by destruct s|done|exact Hin|apply Hkept|exact Hr|by apply F].
Qed.

Lemma fd_send_spec fd d fuel first lst l bs s :
  list_at (io_nodes s) first l → last l = Some lst → gather (io_mem s) (flat (io_nodes s) l) = Some bs →
  (waits fd s < fuel)%nat → wp (dill_fd_send fuel fd first lst d) (λ rc s', sent fd bs s rc s') s.
Proof.
  intros (Hp & Hu & Hs & Hb) Hl Hg Hf. apply wp_bind, (wp_check_list _ _ l); [by split; [|split]|].
  intros r. apply wp_bind, (wp_ioltoiov _ l); [done|]. apply send_loop_spec; [|by rewrite iov_slots_list|done].
  apply Forall_map, Forall_forall. intros x Hx. cbn. pose proof (Hs x Hx) as Hsx. split; [lia|].
  destruct (decide (iol_len (node (io_nodes s) x) = 0)) as [|Hne]; [by right|left].
  apply (flat_real _ l); [done|lia|by apply Hb|]. by apply gather_some in Hg as (_ & _ & Hg).
Qed.
End Send.
