(* ===== verification/Fdrecv.v ===== *)
(** Receiving through the input buffer of a socket ([dill_fd_recv] of [fd.c]): the data
    received are the first of those in the buffer and then those on the way, and go to
    the buffers of the caller in order. *)

From Stdlib Require Import ZArith Lia.
From stdpp Require Import base gmap list.
From S2P Require Import Prelude Handle Iol Sock Ipaddr Fd Fdspec.
Open Scope Z_scope.

Section Buffer.
Context {K : Type} `{OsK : Os K} `{LawsK : !OsLaws K}.
Local Abbreviation FD := (IO (fdnet K)).

(** ** The receive buffer *)

Definition unread (rx : dill_fd_rxbuf) : list Z := drop (Z.to_nat (rx_pos rx)) (default [] (rx_buf rx)).

Definition rx_ok (rx : dill_fd_rxbuf) : Prop :=
  match rx_buf rx with
  | None => rx_len rx = 0 ∧ rx_pos rx = 0
  | Some buf => 0 ≤ rx_pos rx ≤ rx_len rx ∧ rx_len rx = Z.of_nat (length buf) ∧ rx_len rx ≤ DILL_FD_BUFSIZE
  end.

Lemma unread_length rx : rx_ok rx → Z.of_nat (length (unread rx)) = rx_len rx - rx_pos rx ∧ rx_len rx - rx_pos rx < 2 ^ 64.
Proof.
  unfold rx_ok, unread, DILL_FD_BUFSIZE. intros Hrx. rewrite length_drop.
  destruct (rx_buf rx) as [buf|]; cbn; lia.
Qed.

Lemma slots_advance f sz : 0 ≤ sz ≤ iol_len f → 0 ≤ iol_base f →
  slots (mk_iolist (if iol_base f =? NULL then NULL else iol_base f + sz) (iol_len f - sz) (iol_next f) (iol_rsvd f)) =
    drop (Z.to_nat sz) (slots f).
Proof.
  intros Hsz Hb. unfold slots. cbn [iol_base iol_len]. unfold NULL. destruct (Z.eqb_spec (iol_base f) 0) as [E|E].
  - cbn [Z.eqb]. rewrite drop_replicate. f_equal. lia.
  - rewrite (proj2 (Z.eqb_neq (iol_base f + sz) 0)) by lia.
    pose proof (arr_app (iol_base f) sz (iol_len f - sz) ltac:(lia) ltac:(lia) ltac:(lia)) as Ea.
    replace (sz + (iol_len f - sz)) with (iol_len f) in Ea by lia.
    rewrite !arr_eq in Ea by (unfold NULL; lia). rewrite Ea, drop_app_ge; rewrite length_map, length_seqZ; [|lia].
    by replace (Z.to_nat sz - Z.to_nat sz)%nat with 0%nat by lia.
Qed.

Lemma touched_mem fd sl m s :
  dom m = dom (io_mem s) → (∀ a, Some a ∉ sl → m !! a = io_mem s !! a) → touched fd sl s (set_io_mem m s).
Proof. intros. split; try done; by destruct s. Qed.

Lemma wp_freebuf fd (Q : unit → io (fdnet K) → Prop) s :
  (∀ s', touched fd [] s s' → io_mem s' = io_mem s → coming fd s' = coming fd s → Q tt s') → wp dill_fd_freebuf Q s.
Proof.
  intros H. unfold wp, dill_fd_freebuf. destruct (_ <=? _); apply H; try done; split; try done; by destruct s.
Qed.

Lemma wp_allocbuf fd (Q : bool → io (fdnet K) → Prop) s :
  (∀ b s', touched fd [] s s' → io_mem s' = io_mem s → coming fd s' = coming fd s → (b = false → in_failed fd s') → Q b s') →
  wp dill_fd_allocbuf Q s.
Proof.
  intros H. unfold wp, dill_fd_allocbuf.
  assert (Hl : ∀ c n b, (fn_budget (io_net s) = 0 → b = 0)%nat → lasting s (with_cache c n b s)).
  { intros c n b Hb fd'. unfold in_failed, out_failed. cbn. intuition. }
  destruct (fn_cache _) as [|c]; [destruct (fn_budget _) as [|b] eqn:E|]; apply H; try done; try (split; try done; try (by destruct s); by apply Hl).
  intros _. by right.
Qed.

Lemma wp_copy_out rx f n (Q : unit → io (fdnet K) → Prop) s :
  0 ≤ n ≤ iol_len f → rx_buf rx ≠ None → allocated (io_mem s) (slots f) →
  Q tt (set_io_mem (scatter (slots f) (take (Z.to_nat n) (unread rx)) (io_mem s)) s) → wp (copy_out rx (iol_base f) n) Q s.
Proof.
  intros Hn Hb Ha HQ. pose proof (node_copy f (take (Z.to_nat n) (unread rx)) (io_mem s) ltac:(lia) Ha
    ltac:(rewrite length_take; lia)) as E.
  unfold copy_out. destruct (iol_base f =? NULL).
  - apply wp_ret. injection E as E. rewrite <- E in HQ. by replace (set_io_mem (io_mem s) s) with s in HQ by (by destruct s).
  - unfold unread in E, HQ. destruct (rx_buf rx) as [buf|]; [|done]. by eapply wp_store.
Qed.

(** Copying takes as much as there is, or as fits. *)
Lemma copy_spec fd rx f s :
  rx_ok rx → 0 ≤ iol_len f → allocated (io_mem s) (slots f) →
  wp (dill_fd_copy rx f) (λ r s',
    rx_ok r.2 ∧ 0 ≤ r.1 ≤ iol_len f ∧ (r.1 < iol_len f → unread r.2 = []) ∧
    recvd fd (take (Z.to_nat r.1) (slots f)) (unread rx ++ coming fd s) s 0 (unread r.2 ++ coming fd s') s') s.
Proof.
  intros Hrx Hf Ha. destruct (unread_length rx Hrx) as [Hu Hu64]. unfold dill_fd_copy.
  assert (Hr0 : 0 ≤ rx_len rx - rx_pos rx) by lia.
  unfold u64. rewrite Z.mod_small by lia.
  set (rmn := rx_len rx - rx_pos rx) in *.
  pose proof (length_slots f Hf) as Hls.
  (** after [n] bytes were copied and the rest is in the buffer [rx'] *)
  assert (Hcopied : ∀ n s1 s' rx', 0 ≤ n ≤ iol_len f → n ≤ rmn →
    s1 = set_io_mem (scatter (slots f) (take (Z.to_nat n) (unread rx)) (io_mem s)) s →
    touched fd [] s1 s' → io_mem s' = io_mem s1 → coming fd s' = coming fd s →
    unread rx' = drop (Z.to_nat n) (unread rx) →
    recvd fd (take (Z.to_nat n) (slots f)) (unread rx ++ coming fd s) s 0 (unread rx' ++ coming fd s') s').
  { intros n s1 s' rx' Hn Hnr E1 T Em Ec Eu.
    assert (Hlt : length (take (Z.to_nat n) (unread rx)) = Z.to_nat n) by (rewrite length_take; lia).
    assert (Em1 : io_mem s1 = scatter (take (Z.to_nat n) (slots f)) (take (Z.to_nat n) (unread rx)) (io_mem s)).
    { rewrite E1. cbn. pose proof (scatter_take (slots f) (take (Z.to_nat n) (unread rx)) (io_mem s) ltac:(lia)) as Es.
      by rewrite Hlt in Es. }
    apply (recvd_done _ _ _ _ _ (take (Z.to_nat n) (unread rx))).
    - apply (fd_touched_trans fd (take (Z.to_nat n) (slots f)) [] _ s s1 s'); [|rewrite E1; apply touched_mem|exact T].
      + intros a Hna. split; [done|apply not_elem_of_nil].
      + by apply scatter_dom.
      + intros a Hna. rewrite E1 in Em1. cbn [io_mem set_io_mem] in Em1. rewrite Em1. by apply scatter_other.
    - rewrite Hlt, length_take_le; lia.
    - by rewrite Eu, Ec, app_assoc, take_drop.
    - by rewrite Em. }
  assert (Hbuf : rmn ≠ 0 → rx_buf rx ≠ None).
  { intros H0 E. unfold rx_ok in Hrx. rewrite E in Hrx. unfold rmn in H0. lia. }
  destruct (Z.eqb_spec rmn 0) as [E0|E0]; [|destruct (Z.ltb_spec rmn (iol_len f)) as [Hlt|Hge]].
  - apply wp_ret. cbn [fst snd]. assert (En : unread rx = []) by (apply nil_length_inv; lia).
    split; [done|]. split; [lia|]. split; [done|]. apply (Hcopied 0 s s); [lia|lia| |apply fd_touched_refl|done|done|done].
    cbn [Z.to_nat take]. rewrite scatter_nil. by destruct s.
  - apply wp_bind, wp_copy_out; [lia|by apply Hbuf|done|]. apply wp_bind, (wp_freebuf fd). intros s' T Em Ec.
    apply wp_ret. cbn [fst snd]. split; [done|]. split; [lia|]. split; [done|].
    eapply (Hcopied rmn); [lia|lia|done|exact T|exact Em|exact Ec|]. rewrite drop_ge by lia. done.
  - apply wp_bind, wp_copy_out; [lia|by apply Hbuf|done|]. apply wp_ret. cbn [fst snd].
    split; [|split; [lia|split; [lia|]]].
    + specialize (Hbuf E0). unfold rx_ok in *. cbn. destruct (rx_buf rx); [|done]. unfold rmn in *. lia.
    + eapply (Hcopied (iol_len f)); [lia|lia|done|apply fd_touched_refl|done|done|].
      unfold unread. cbn [rx_pos rx_buf]. rewrite drop_drop. f_equal. unfold rx_ok in Hrx. destruct (rx_buf rx); lia.
Qed.
(** Filling the list from the buffer: all of it, or up to [sz] bytes of a node. *)
Lemma fill_loop_spec fd fuel : ∀ l rx first s,
  let h := io_nodes s in
  path h first l → l ≠ [] → sized h l → rx_ok rx → allocated (io_mem s) (flat h l) → (length l ≤ fuel)%nat →
  wp (fill_loop fuel rx first) (λ r s', rx_ok r.1 ∧
    match r.2 with
    | None => recvd fd (flat h l) (unread rx ++ coming fd s) s 0 (unread r.1 ++ coming fd s') s'
    | Some (x, sz) => ∃ l1 l2 n, l = l1 ++ x :: l2 ∧ h !! x = Some n ∧ 0 ≤ sz < iol_len n ∧ unread r.1 = [] ∧
        recvd fd (flat h l1 ++ take (Z.to_nat sz) (slots n)) (unread rx ++ coming fd s) s 0 (coming fd s') s'
    end) s.
Proof.
  induction fuel as [|fuel IH]; intros l rx first s h Hp Hne Hsz Hrx Ha Hf.
  - destruct l; [done|cbn in Hf; lia].
  - destruct l as [|x l]; [done|]. destruct Hp as (-> & Hx & n & Hn & Hp). cbn [fill_loop].
    apply wp_bind, (wp_get_node _ n); [done|]. pose proof (Hsz x ltac:(left)) as Hszx. rewrite (node_lookup _ _ _ Hn) in Hszx.
    rewrite (flat_head _ _ _ _ Hn) in Ha.
    assert (Ha1 : allocated (io_mem s) (slots n)) by (intros y Hy; apply Ha, elem_of_app; by left).
    assert (Ha2 : allocated (io_mem s) (flat h l)) by (intros y Hy; apply Ha, elem_of_app; by right).
    pose proof (length_slots n ltac:(lia)) as Hls.
    apply wp_bind. eapply wp_mono; [apply (copy_spec fd); [done|lia|done]|]. cbn beta. intros [k rx'] s' (Hrx' & Hk & He & R). cbn [fst snd] in *.
    destruct (Z.ltb_spec k (iol_len n)) as [Hlt|Hge].
    + apply wp_ret. cbn [fst snd]. split; [done|]. exists [], l, n. rewrite (He Hlt) in *.
      repeat (split; [done || lia|]). exact R.
    + rewrite take_ge in R by lia. destruct (Z.eqb_spec (iol_next n) NULL) as [E|E].
      * apply wp_ret. cbn [fst snd]. split; [done|]. destruct l; [|by destruct Hp as (? & ? & _); congruence].
        by rewrite (flat_one _ _ _ Hn).
      * pose proof (recvd_nodes _ _ _ _ _ _ _ R) as En. pose proof R as [T _].
        eapply wp_mono; [apply (IH l); rewrite ?En|].
        -- exact Hp.
        -- intros ->. cbv [path seg] in Hp. done.
        -- intros y Hy. apply Hsz. by right.
        -- done.
        -- by eapply fd_touched_alloc.
        -- cbn in Hf. lia.
        -- cbn beta. rewrite En. intros [rx2 o] s2 (Hrx2 & R2). cbn [fst snd] in *. split; [done|].
           destruct o as [[y sz]|].
           ++ destruct R2 as (l1 & l2 & m & -> & Hm & Hsz' & Hu & R2). exists (x :: l1), l2, m.
              repeat (split; [done|]). rewrite (flat_head _ _ _ _ Hn), <- app_assoc. by eapply recvd_app.
           ++ rewrite (flat_head _ _ _ _ Hn). by eapply recvd_app.
Qed.

(** Filling a local copy of an element, and the elements after it. *)
Lemma copy_loop_spec fd fuel : ∀ l curr rx s,
  let h := io_nodes s in
  list_at h (iol_next curr) l → 0 ≤ iol_len curr < 2 ^ 64 → 0 ≤ iol_base curr → rx_ok rx →
  allocated (io_mem s) (slots curr ++ flat h l) → (length l < fuel)%nat →
  wp (copy_loop fuel rx curr) (λ r s', rx_ok r.1 ∧
    match r.2 with
    | None => recvd fd (slots curr ++ flat h l) (unread rx ++ coming fd s) s 0 (unread r.1 ++ coming fd s') s'
    | Some c => ∃ sl l2, slots curr ++ flat h l = sl ++ slots c ++ flat h l2 ∧
        list_at h (iol_next c) l2 ∧ 0 ≤ iol_len c < 2 ^ 64 ∧ 0 ≤ iol_base c ∧ unread r.1 = [] ∧
        recvd fd sl (unread rx ++ coming fd s) s 0 (coming fd s') s'
    end) s.
Proof.
  induction fuel as [|fuel IH]; intros l curr rx s h Hl Hc Hb Hrx Ha Hf; [lia|]. cbn [copy_loop].
  assert (Ha1 : allocated (io_mem s) (slots curr)) by (intros y Hy; apply Ha, elem_of_app; by left).
  pose proof (length_slots curr ltac:(lia)) as Hls. pose proof Hl as (Hp & _).
  apply wp_bind. eapply wp_mono; [apply (copy_spec fd); [done|lia|done]|]. cbn beta. intros [k rx'] s' (Hrx' & Hk & He & R). cbn [fst snd] in *.
  destruct (Z.ltb_spec k (iol_len curr)) as [Hlt|Hge].
  - apply wp_ret. cbn [fst snd]. split; [done|]. rewrite (He Hlt) in *. exists (take (Z.to_nat k) (slots curr)), l.
    rewrite slots_advance by lia. rewrite app_assoc, take_drop. repeat (split; [done|]). cbn [iol_base iol_len iol_next].
    split; [lia|]. split; [|by split]. unfold NULL. destruct (_ =? 0); lia.
  - rewrite take_ge in R by lia. destruct (Z.eqb_spec (iol_next curr) NULL) as [E|E].
    + apply wp_ret. cbn [fst snd]. split; [done|]. destruct l; [|by destruct Hp as (? & ? & _); congruence].
      change (flat h []) with (@nil (option ptr)). by rewrite app_nil_r.
    + destruct l as [|x l]; [by destruct E|]. pose proof Hp as (Ex & _ & n & Hn & _). rewrite Ex in *.
      pose proof (recvd_nodes _ _ _ _ _ _ _ R) as En. pose proof R as [T _].
      apply wp_bind, (wp_get_node _ n); [by rewrite En|].
      destruct (list_at_after _ _ [] _ _ _ Hl Hn) as (Hl' & Hln & Hbn). rewrite (flat_head _ _ _ _ Hn) in *.
      pose proof (IH l n rx' s') as Hn'. rewrite En in Hn'. eapply wp_mono; [apply Hn'; try done|].
      * apply (fd_touched_alloc _ _ _ _ _ T). intros y Hy. apply Ha, elem_of_app. by right.
      * cbn in Hf. lia.
      * cbn beta. intros [rx2 o] s2 (Hrx2 & R2). cbn [fst snd] in *. split; [done|]. destruct o as [c|].
        -- destruct R2 as (sl & l2 & Es & Hl2 & Hc2 & Hb2 & Hu & R2). exists (slots curr ++ sl), l2.
           split; [by unfold h in *; rewrite Es, app_assoc|]. repeat (split; [done|]). by eapply recvd_app.
        -- by eapply recvd_app.
Qed.

Lemma rx_ok_fresh bs : Z.of_nat (length bs) ≤ DILL_FD_BUFSIZE →
  rx_ok (mk_rxbuf (Z.of_nat (length bs)) 0 (Some bs)) ∧ unread (mk_rxbuf (Z.of_nat (length bs)) 0 (Some bs)) = bs.
Proof. intros H. split; [|done]. unfold rx_ok. cbn. lia. Qed.

Lemma rx_ok_buf rx : rx_ok rx → unread rx = [] →
  rx_ok (mk_rxbuf (rx_len rx) (rx_pos rx) (Some (default [] (rx_buf rx)))) ∧
  unread (mk_rxbuf (rx_len rx) (rx_pos rx) (Some (default [] (rx_buf rx)))) = [].
Proof.
  intros H Hu. split; [|done]. unfold rx_ok in *. cbn. destruct (rx_buf rx); cbn; [done|].
  unfold DILL_FD_BUFSIZE. lia.
Qed.

(** A round of the loop that received [bs]; [k] is the next one. *)
Lemma buffered_round fd d (k : dill_fd_rxbuf → iolist → FD (Z * dill_fd_rxbuf)) l curr bs s s1 :
  let h := io_nodes s in
  list_at h (iol_next curr) l → 0 ≤ iol_len curr < 2 ^ 64 → 0 ≤ iol_base curr →
  allocated (io_mem s) (slots curr ++ flat h l) → Z.of_nat (length bs) ≤ DILL_FD_BUFSIZE →
  touched fd [] s s1 → io_mem s1 = io_mem s → coming fd s = bs ++ coming fd s1 →
  (∀ l' c rx s', list_at h (iol_next c) l' → io_nodes s' = h → 0 ≤ iol_len c < 2 ^ 64 → 0 ≤ iol_base c → rx_ok rx →
     unread rx = [] → allocated (io_mem s') (slots c ++ flat h l') → (waits fd s' < waits fd s)%nat →
     wp (k rx c) (λ r s'', rx_ok r.2 ∧
       recvd fd (slots c ++ flat h l') (coming fd s') s' r.1 (unread r.2 ++ coming fd s'') s'') s') →
  wp (n ← gets (λ s, size (io_nodes s));
      '(rx, o) ← copy_loop (S n) (mk_rxbuf (Z.of_nat (length bs)) 0 (Some bs)) curr;
      match o with
      | None => mret (0, rx)
      | Some curr => r ← sys (os_fdin fd d); match r with Some e => set_errno e;; mret (-1, rx) | None => k rx curr end
      end) (λ r s', rx_ok r.2 ∧
        recvd fd (slots curr ++ flat h l) (coming fd s) s r.1 (unread r.2 ++ coming fd s') s') s1.
Proof.
  intros h Hl Hc Hb Ha Hlb T Em Hin Hk. destruct (rx_ok_fresh bs Hlb) as [Hrx2 Hu2]. apply wp_bind, wp_gets, wp_bind.
  pose proof (touched_nodes _ _ _ _ T) as En. pose proof Hl as (Hp & _).
  pose proof (copy_loop_spec fd (S (size h)) l curr (mk_rxbuf (Z.of_nat (length bs)) 0 (Some bs)) s1) as Hcopy.
  cbn beta. rewrite En in Hcopy |- *. eapply wp_mono; [apply Hcopy; try done|].
  - by eapply fd_touched_alloc.
  - pose proof (seg_length _ _ _ _ Hp (path_nodup _ _ _ Hp)). lia.
  - cbn beta. rewrite Hu2, <- Hin. intros [rx3 o] s3 (Hrx3 & R3). cbn [fst snd] in *.
    destruct o as [c|]; [|apply wp_ret; cbn [fst snd]; split; [done|by eapply fd_recvd_step]].
    destruct R3 as (sl & l2 & Es & Hl2 & Hc2 & Hb2 & Hu3 & R3). apply (fd_recvd_step _ _ _ _ _ _ _ _ T Em) in R3.
    pose proof R3 as [T3 _]. pose proof (to_waits _ _ _ _ T3) as Hw3. unfold h. rewrite Es. fold h.
    apply wp_wait_more; [intros e s4 T4 Em4 Ec4 F4|intros s4 T4 Em4 Ec4 Hw4].
    + apply wp_bind, wp_modify, wp_ret. cbn [fst snd]. split; [done|]. rewrite Hu3. eapply recvd_app; [exact R3|].
      apply (recvd_nothing _ _ _ _ _ []); [by apply fd_touched_errno|exact F4|]. symmetry. exact Ec4.
    + eapply wp_mono; [apply (Hk l2 c rx3 s4); try done|].
      * by rewrite (touched_nodes _ _ _ _ T4), (touched_nodes _ _ _ _ T3).
      * rewrite Em4. apply (fd_touched_alloc _ _ _ _ _ T3). intros y Hy. apply Ha. unfold h. rewrite Es.
        apply elem_of_app. by right.
      * lia.
      * cbn beta. intros [rc rx4] s5 (Hrx4 & R4). cbn [fst snd] in *. split; [done|]. eapply recvd_app; [exact R3|].
        rewrite Ec4 in R4. by eapply fd_recvd_step.
Qed.

Lemma buffered_loop_spec fd d fuel : ∀ l curr rx s,
  let h := io_nodes s in
  list_at h (iol_next curr) l → 0 ≤ iol_len curr < 2 ^ 64 → 0 ≤ iol_base curr → rx_ok rx → unread rx = [] →
  allocated (io_mem s) (slots curr ++ flat h l) → (waits fd s < fuel)%nat →
  wp (buffered_loop fuel fd rx curr d) (λ r s', rx_ok r.2 ∧
    recvd fd (slots curr ++ flat h l) (coming fd s) s r.1 (unread r.2 ++ coming fd s') s') s.
Proof.
  induction fuel as [|fuel IH]; intros l curr rx s h Hl Hc Hb Hrx Hu Ha Hf; [lia|]. cbn [buffered_loop].
  destruct (rx_ok_buf rx Hrx Hu) as [Hrx' Hu'].
  eapply wp_bind, wp_mono with (Q := λ (b : bool) s1, touched fd [] s s1 ∧ io_mem s1 = io_mem s ∧ coming fd s1 = coming fd s ∧
    (b = false → in_failed fd s1)).
  { destruct (rx_buf rx); [by apply wp_ret; split; [apply fd_touched_refl|]|]. by apply (wp_allocbuf fd). }
  cbn beta. intros ok s1 (T & Em & Ec & Fa). destruct ok; cbn [negb].
  2: { apply wp_ret. cbn [fst snd]. split; [done|]. rewrite Hu. by apply (recvd_nothing _ _ _ _ _ []); [|apply Fa|]. }
  cbv zeta. set (rx1 := mk_rxbuf (rx_len rx) _ _) in *. apply wp_bind, wp_sys. intros r k E.
  assert (Hkept : kept k s1) by (intros fd'; apply (os_law_lasting fd); left; by exists DILL_FD_BUFSIZE, r).
  apply os_law_recv in E as (Ho & Hw & Hr); [|by unfold DILL_FD_BUFSIZE].
  assert (T2 : ∀ e, touched fd [] s (set_io_errno e (with_os k s1))).
  { intros e. by eapply (fd_touched_trans fd [] []); [|exact T|by apply touched_sys]. }
  assert (Hfail : ∀ e, os_infail fd k = true → coming fd s = os_in fd k →
    rx_ok rx1 ∧ recvd fd (slots curr ++ flat h l) (coming fd s) s (-1) (unread rx1 ++ coming fd (set_io_errno e (with_os k s1)))
      (set_io_errno e (with_os k s1))).
  { intros e F Hin. split; [done|]. rewrite Hu'. apply (recvd_nothing _ _ _ _ _ []); [apply T2|by left|exact Hin]. }
  pose proof (to_waits _ _ _ _ T) as Hw1.
  pose proof (λ bs Hlb Hin, buffered_round fd d (λ rx c, buffered_loop fuel fd rx c d) l curr bs s (with_os k s1)
    Hl Hc Hb Ha Hlb (T2 (io_errno s1)) Em Hin) as Hround.
  assert (Hk : ∀ l' c rx s', list_at h (iol_next c) l' → io_nodes s' = h → 0 ≤ iol_len c < 2 ^ 64 → 0 ≤ iol_base c → rx_ok rx →
     unread rx = [] → allocated (io_mem s') (slots c ++ flat h l') → (waits fd s' < waits fd s)%nat →
     wp (buffered_loop fuel fd rx c d) (λ r s'', rx_ok r.2 ∧
       recvd fd (slots c ++ flat h l') (coming fd s') s' r.1 (unread r.2 ++ coming fd s'') s'') s').
  { intros l' c rx' s' Hl' En Hc' Hb' Hrx0 Hu0 Ha' Hw'. pose proof (IH l' c rx' s') as Hy. rewrite En in Hy.
    apply Hy; try done. lia. }
  fold (coming fd s1) in Hr. rewrite Ec in Hr. apply wp_bind. destruct r as [[|b bs]|e].
  - destruct Hr as (_ & Hr & F). by apply wp_bind, wp_modify, wp_ret, wp_ret, Hfail; [apply F|].
  - apply wp_ret. destruct Hr as (Hl' & Hr & _). by apply (Hround (b :: bs)).
  - destruct Hr as [Hr F]. apply wp_bind, wp_would_block.
    + intros ->. apply wp_ret. by apply (Hround []).
    + intros e' He. by apply wp_ret, wp_ret, Hfail; [apply F|].
Qed.

(** At the end of the block of a local [struct iolist]. *)
Lemma recvd_block fd sl p s f rc p' s3 :
  let a := io_next s in
  io_nodes s !! a = None →
  recvd fd sl p (set_io_nodes (<[a := f]> (io_nodes s)) (set_io_next (a + 1) s)) rc p' s3 →
  recvd fd sl p s rc p' (set_io_nodes (delete a (io_nodes s3)) s3).
Proof.
  intros a Ha [T R]. pose proof (touched_nodes _ _ _ _ T) as En. cbn in En.
  rewrite En, delete_insert_id by done. destruct T as [A1 A2 A3 A4 A5 A6 A7 A8]. split; [|exact R]. split; try done.
  - rewrite A1. by destruct s.
  - cbn in *. lia.
Qed.

(** What a call that works with the buffer [orx], if there is one, returns. *)
Definition delivered (fd : Z) (orx : option dill_fd_rxbuf) (sl : list (option ptr)) (p : list Z) (s : io (fdnet K))
    (r : Z * option dill_fd_rxbuf) (s' : io (fdnet K)) : Prop :=
  (r.2 = None ↔ orx = None) ∧ from_option rx_ok True r.2 ∧
  recvd fd sl p s r.1 (from_option unread [] r.2 ++ coming fd s') s'.

(** The direct way to the buffers of the caller. *)
Lemma direct_spec fd d rounds fuel turns orx lst a f l s :
  let h := io_nodes s in
  h !! a = Some f → list_at h a (a :: l) → (l ≠ [] → last l = Some lst) → Forall (real h) (a :: l) →
  from_option (λ rx, rx_ok rx ∧ unread rx = []) True orx →
  allocated (io_mem s) (slots f ++ flat h l) → (waits fd s < fuel)%nat → (length l < turns)%nat →
  wp (rc ← split_loop turns rounds fuel fd a a (if iol_next f =? NULL then a else lst) d; mret (rc, orx))
    (delivered fd orx (slots f ++ flat h l) (coming fd s) s) s.
Proof.
  intros h Hf Hl Hlast Hall Hrx Ha Hfuel Ht. destruct (list_at_after _ _ [] _ _ _ Hl Hf) as ((Hp & _) & _).
  rewrite <- (flat_head _ _ _ _ Hf) in *. apply wp_bind.
  eapply wp_mono; [apply (split_loop_spec fd d rounds fuel _ turns [] a l a s); try done|].
  - cbn [app]. destruct l as [|y l]; [cbv [path seg] in Hp; by rewrite Hp|]. destruct Hp as (E & Hy & _).
    rewrite E, (proj2 (Z.eqb_neq y NULL)) by done. by rewrite <- Hlast.
  - by left.
  - cbn beta. intros rc s' R. apply wp_ret. split; [done|]. cbn [fst snd app].
    destruct orx as [rx|]; [|by split]. destruct Hrx as [Hrx Hu]. cbn. by rewrite Hu.
Qed.

(** Receiving what is missing after the first [sz] bytes of element [x]. *)
Lemma recv_rest_spec fd d rounds fuel turns orx lst x sz n l2 s :
  let h := io_nodes s in
  h !! x = Some n → list_at h (iol_next n) l2 → (l2 ≠ [] → last l2 = Some lst) →
  0 ≤ iol_len n < 2 ^ 64 → 0 ≤ iol_base n → 0 ≤ sz ≤ iol_len n →
  (real h x ∧ Forall (real h) l2) ∨ (orx ≠ None ∧ iol_len n - sz + total h l2 ≤ DILL_FD_BUFSIZE) →
  from_option (λ rx, rx_ok rx ∧ unread rx = []) True orx →
  allocated (io_mem s) (drop (Z.to_nat sz) (slots n) ++ flat h l2) → (waits fd s < fuel)%nat →
  0 < io_next s → h !! io_next s = None → (length l2 < turns)%nat →
  wp (with_iol (advance n sz) (λ curr,
        miss ← read_nodes (λ h, sum_len (S (size h)) curr 0 h);
        c ← get_node curr;
        match orx with
        | Some rx' =>
          if miss <=? DILL_FD_BUFSIZE then
            '(rc, rx') ← buffered_loop fuel fd rx' c d;
            mret (rc, Some rx')
          else
            rc ← split_loop turns rounds fuel fd curr curr (if iol_next c =? NULL then curr else lst) d;
            mret (rc, orx)
        | None =>
          rc ← split_loop turns rounds fuel fd curr curr (if iol_next c =? NULL then curr else lst) d;
          mret (rc, orx)
        end))
    (delivered fd orx (drop (Z.to_nat sz) (slots n) ++ flat h l2) (coming fd s) s) s.
Proof.
  intros h Hn Hl2 Hlast Hln Hbn Hsz Hreal Hrx Ha Hf Hnx Hfresh Ht.
  apply wp_with_iol. set (a := io_next s) in *. set (f := advance n sz). set (s1 := set_io_nodes _ _).
  assert (Ha0 : a ≠ NULL) by (unfold NULL; lia).
  assert (Hbf : 0 ≤ iol_base f) by (unfold f, advance, NULL; cbn; destruct (_ =? 0); lia).
  destruct (list_at_fresh h a f l2 Hfresh Ha0 Hl2 eq_refl ltac:(cbn; lia) Hbf) as (Hlat & Ef & En).
  pose proof Hlat as (Hp & Hu & Hs & Hb).
  assert (Es : slots f = drop (Z.to_nat sz) (slots n)) by exact (slots_advance n sz Hsz Hbn).
  rewrite <- Es in *. assert (Hfa : <[a := f]> h !! a = Some f) by apply lookup_insert_eq.
  assert (Et : total (<[a := f]> h) (a :: l2) = iol_len n - sz + total h l2).
  { cbn [total foldr]. rewrite (node_lookup _ _ _ Hfa). f_equal. clear -En. induction l2 as [|x l IH]; [done|]. cbn.
    rewrite En by left. f_equal. apply IH. intros y Hy. apply En. by right. }
  assert (Hpos : 0 ≤ total h l2) by (destruct Hl2 as (_ & _ & Hs2 & _); rewrite <- (length_flat h l2 Hs2); lia).
  eapply wp_mono with (Q := delivered fd orx (slots f ++ flat h l2) (coming fd s1) s1).
  2: { intros r s3 (H1 & H2 & R). split; [done|]. split; [done|]. by eapply (recvd_block fd _ _ s f). }
  assert (Hdirect : Forall (real (<[a := f]> h)) (a :: l2) →
    wp (rc ← split_loop turns rounds fuel fd a a (if iol_next f =? NULL then a else lst) d; mret (rc, orx))
      (delivered fd orx (slots f ++ flat h l2) (coming fd s1) s1) s1).
  { intros Hall. pose proof (direct_spec fd d rounds fuel turns orx lst a f l2 s1) as Hd.
    cbn [io_nodes s1 set_io_nodes] in Hd. fold h in Hd. rewrite Ef in Hd. by apply Hd. }
  assert (Hall : real h x ∧ Forall (real h) l2 → Forall (real (<[a := f]> h)) (a :: l2)).
  { intros [H1 H2]. constructor.
    - unfold real in *. rewrite (node_lookup _ _ _ Hfa). rewrite (node_lookup _ _ _ Hn) in H1. cbn.
      rewrite (proj2 (Z.eqb_neq (iol_base n) NULL)) by (unfold NULL; lia). lia.
    - rewrite Forall_forall in *. intros y Hy. unfold real. rewrite En by done. by apply H2. }
  apply wp_bind. unfold wp at 1, read_nodes. cbn [io_nodes s1 set_io_nodes].
  pose proof (seg_length _ _ _ _ Hp (path_nodup _ _ _ Hp)) as Hlen.
  fold h. change 0 with (u64 0) at 1. rewrite (sum_len_spec _ (a :: l2)) by (done || lia).
  apply wp_bind, (wp_get_node _ f); [done|]. rewrite Et, Z.add_0_l.
  destruct orx as [rx|]; [|by apply Hdirect, Hall; destruct Hreal as [|[]]]. cbn [from_option] in Hrx.
  destruct Hrx as [Hrx Hun]. destruct (Z.leb_spec (u64 (iol_len n - sz + total h l2)) DILL_FD_BUFSIZE) as [Hm|Hm].
  - apply wp_bind. eapply wp_mono; [apply (buffered_loop_spec fd d fuel l2 f rx s1)|]; cbn [io_nodes s1 set_io_nodes].
    + by destruct (list_at_after _ _ [] _ _ _ Hlat Hfa).
    + cbn. lia.
    + done.
    + done.
    + done.
    + fold h. by rewrite Ef.
    + done.
    + cbn beta. fold h. rewrite Ef. intros [rc rx'] s3 (Hrx' & R). cbn [fst snd] in *. apply wp_ret. by split.
  - apply Hdirect, Hall. destruct Hreal as [|[_ Hsmall]]; [done|]. exfalso.
    unfold u64, DILL_FD_BUFSIZE in *. rewrite Z.mod_small in Hm; lia.
Qed.
Lemma recv_rest_wp {A} (k : iolist → FD A) f x Q s :
  io_nodes s !! x = Some f → wp (k f) Q s → wp (f ← get_node x; k f) Q s.
Proof. intros Hf HQ. apply wp_bind. by apply (wp_get_node _ f). Qed.

(** The part of [dill_fd_recv] that follows the buffer, from [sz] bytes into element [x] on *)
Lemma fd_recv_from fd d rounds fuel orx orx' first lst l l1 x l2 n sz s s1 :
  let h := io_nodes s in
  wf_io s → list_at h first l → last l = Some lst → allocated (io_mem s) (flat h l) →
  Forall (real h) l ∨ (orx ≠ None ∧ total h l ≤ DILL_FD_BUFSIZE) → (waits fd s < fuel)%nat →
  l = l1 ++ x :: l2 → h !! x = Some n → 0 ≤ sz ≤ iol_len n →
  (orx' = None ↔ orx = None) → from_option (λ rx, rx_ok rx ∧ unread rx = []) True orx' →
  recvd fd (flat h l1 ++ take (Z.to_nat sz) (slots n)) (from_option unread [] orx ++ coming fd s) s 0 (coming fd s1) s1 →
  wp (f ← get_node x; with_iol (advance f sz) (λ curr,
      miss ← read_nodes (λ h, sum_len (S (size h)) curr 0 h);
      c ← get_node curr;
      match orx' with
      | Some rx' =>
        if miss <=? DILL_FD_BUFSIZE then
          '(rc, rx') ← buffered_loop fuel fd rx' c d;
          mret (rc, Some rx')
        else
          rc ← split_loop (S (size h) + S (size h)) rounds fuel fd curr curr (if iol_next c =? NULL then curr else lst) d;
          mret (rc, orx')
      | None =>
        rc ← split_loop (S (size h) + S (size h)) rounds fuel fd curr curr (if iol_next c =? NULL then curr else lst) d;
        mret (rc, orx')
      end))
    (delivered fd orx (flat h l) (from_option unread [] orx ++ coming fd s) s) s1.
Proof.
  intros h Hwf Hl Hlast Ha Hreal Hf El Hn Hsz Ho Hok R. pose proof Hl as (Hp & Hu & Hs & Hb).
  pose proof (seg_length _ _ _ _ Hp (path_nodup _ _ _ Hp)) as Hlen.
  pose proof R as [T _]. pose proof (touched_nodes _ _ _ _ T) as En.
  rewrite El in Hl. destruct (list_at_after _ _ _ _ _ _ Hl Hn) as (Hl2 & Hln & Hbn).
  assert (Efl : flat h l = (flat h l1 ++ take (Z.to_nat sz) (slots n)) ++ drop (Z.to_nat sz) (slots n) ++ flat h l2).
  { rewrite El, flat_app, (flat_head _ _ _ _ Hn). rewrite <- (take_drop (Z.to_nat sz) (slots n)) at 1. by rewrite <- !app_assoc. }
  apply (recv_rest_wp _ n); [by rewrite En|].
  eapply wp_mono; [apply (recv_rest_spec fd d rounds fuel (S (size h) + S (size h)) orx' lst x sz n l2 s1); rewrite ?En; try done|].
  - rewrite El in Hlast. rewrite last_app_cons in Hlast. intros Hne2. destruct l2; [done|]. exact Hlast.
  - destruct Hreal as [Hr|[Hr1 Hr2]].
    + left. rewrite El in Hr. apply Forall_app in Hr as [_ Hr]. by apply Forall_cons in Hr.
    + right. split; [by rewrite Ho|]. rewrite El, total_app in Hr2. cbn [total foldr] in Hr2. rewrite (node_lookup _ _ _ Hn) in Hr2.
      assert (0 ≤ total h l1); [|unfold total in *; fold h; lia].
      assert (Hs1 : sized h l1) by (intros y Hy; apply Hs; rewrite El; apply elem_of_app; by left).
      rewrite <- (length_flat _ _ Hs1). lia.
  - apply (fd_touched_alloc _ _ _ _ _ T). fold h. intros y Hy. apply Ha. rewrite Efl. apply elem_of_app. by right.
  - pose proof (to_waits _ _ _ _ T). lia.
  - pose proof (to_next _ _ _ _ T). pose proof (wi_next _ Hwf). lia.
  - fold h. destruct (h !! io_next s1) eqn:E; [|done]. exfalso.
    pose proof (wi_nodes _ Hwf (io_next s1) ltac:(by eexists)). pose proof (to_next _ _ _ _ T). lia.
  - rewrite El in Hlen. rewrite length_app in Hlen. cbn [length] in Hlen. fold h in Hlen. lia.
  - cbn beta. rewrite En. fold h. intros [rc r] s2 (H1 & H2 & R2). cbn [fst snd] in *. split; [by rewrite H1|].
    split; [done|]. rewrite Efl. by eapply recvd_app.
Qed.

(** [dill_fd_recv] delivers the next bytes, of the buffer and of the socket. *)
Lemma fd_recv_spec fd d rounds fuel orx first lst l s :
  let h := io_nodes s in
  wf_io s → list_at h first l → last l = Some lst → allocated (io_mem s) (flat h l) →
  from_option rx_ok True orx → Forall (real h) l ∨ (orx ≠ None ∧ total h l ≤ DILL_FD_BUFSIZE) → (waits fd s < fuel)%nat →
  wp (dill_fd_recv rounds fuel fd orx first lst d)
    (delivered fd orx (flat h l) (from_option unread [] orx ++ coming fd s) s) s.
Proof.
  intros h Hwf Hl Hlast Ha Hrx Hreal Hf. pose proof Hl as (Hp & Hu & Hs & Hb).
  assert (Hne : l ≠ []) by (by intros ->). assert (Hfirst : first ≠ NULL) by (destruct l; [done|by destruct Hp as (-> & ? & _)]).
  pose proof (seg_length _ _ _ _ Hp (path_nodup _ _ _ Hp)) as Hlen.
  unfold dill_fd_recv. rewrite (proj2 (Z.eqb_neq first NULL) Hfirst). cbn [andb]. apply wp_bind, wp_gets.
  apply wp_bind. destruct orx as [rx|]; cbn [from_option] in *.
  - apply wp_bind. eapply wp_mono; [apply (fill_loop_spec fd _ l); [done|done|done|done|done|fold h; lia]|].
    cbn beta. intros [rx' o] s1 (Hrx' & R). cbn [fst snd] in *. apply wp_ret. destruct o as [[x sz]|].
    + destruct R as (l1 & l2 & n & El & Hn & Hsz & Hun & R).
      apply (fd_recv_from fd d rounds fuel (Some rx) (Some rx') first lst l l1 x l2 n sz); try done. lia.
    + apply wp_ret. cbn [fst snd from_option]. done.
  - apply wp_ret. destruct l as [|x l2]; [done|]. pose proof Hp as (-> & _ & n & Hn & _).
    destruct (Hs x ltac:(left)) as [Hs1 _]. rewrite (node_lookup _ _ _ Hn) in Hs1.
    apply (fd_recv_from fd d rounds fuel None None x lst (x :: l2) [] x l2 n 0); try done.
    apply (recvd_done _ _ _ _ _ []); [apply fd_touched_refl|done|done|by rewrite scatter_nil].
Qed.
End Buffer.
