(* ===== verification/Tcpspec.v ===== *)
(** What a TCP connection promises ([tcp.c]): the bytes received are the next of the stream,
    the bytes sent go out in order, and an error breaks the direction for good. *)

From Stdlib Require Import ZArith Lia.
From stdpp Require Import base gmap list.
From S2P Require Import Prelude Handle Iol Sock Loop Ipaddr Fd Fdspec Fdrecv Tcp Udp.
Open Scope Z_scope.

Section Tcpspec.
Context {K : Type} `{OsK : Os K} `{LawsK : !OsLaws K}.
Local Abbreviation FD := (IO (fdnet K)).

(** The connection at [p]. *)
Definition conn (s : io (fdnet K)) (p : ptr) (x : dill_tcp_conn) : Prop := fn_objs (io_net s) !! p = Some (TcpConn x).

Definition with_conn (p : ptr) (x : dill_tcp_conn) (s : io (fdnet K)) : io (fdnet K) :=
  let n := io_net s in
  set_io_net (mk_fdnet (fn_os n) (fn_count n) (fn_cache n) (fn_budget n) (<[p := TcpConn x]> (fn_objs n))) s.

Lemma conn_with p x s : conn (with_conn p x s) p x.
Proof. unfold conn. cbn. apply lookup_insert_eq. Qed.

Lemma wp_get_tcp p x (Q : dill_tcp_conn → io (fdnet K) → Prop) s : conn s p x → Q x s → wp (get_tcp p) Q s.
Proof.
  intros Hc HQ. unfold wp, get_tcp, get_obj. cbv [mbind IO_bind option_bind].
  unfold conn in Hc. by rewrite Hc.
Qed.

Lemma wp_put_tcp p x (Q : unit → io (fdnet K) → Prop) s : Q tt (with_conn p x s) → wp (put_tcp p x) Q s.
Proof. done. Qed.

Lemma conn_objs s s' p x : conn s p x → fn_objs (io_net s') = fn_objs (io_net s) → conn s' p x.
Proof. unfold conn. by intros Hc ->. Qed.

(** What the connection still has to deliver: the unread part of its buffer, and what is
    on the way. *)
Definition pending (x : dill_tcp_conn) (s : io (fdnet K)) : list Z := unread (tc_rxbuf x) ++ coming (tc_fd x) s.

(** A call that works on connection [self]: from [x] it becomes [x'], the other objects, the
    lists, the handles and the memory but the slots [sl] are the same. *)
Record served (self : ptr) (x x' : dill_tcp_conn) (sl : list (option ptr)) (s s' : io (fdnet K)) : Prop := {
  sv_conn : fn_objs (io_net s') = <[self := TcpConn x']> (fn_objs (io_net s));
  sv_rest : s' = after (io_handles s) (io_next s') (io_mem s') (io_net s') (io_errno s') s;
  sv_dom : dom (io_mem s') = dom (io_mem s);
  sv_other : ∀ a, Some a ∉ sl → io_mem s' !! a = io_mem s !! a;
  sv_lasting : lasting s s';
}.

(** Receiving into the slots [sl], and sending [bs]: what is the case in the end *)
Definition tcp_received (self : ptr) (x : dill_tcp_conn) (sl : list (option ptr)) (s : io (fdnet K)) (rc : Z)
    (s' : io (fdnet K)) : Prop := ∃ rx x',
  served self x x' sl s s' ∧ gone (tc_fd x) s' = gone (tc_fd x) s ∧ rx_ok rx ∧
  ((rc = 0 ∧ x' = set_rxbuf rx x ∧ ∃ bs, length bs = length sl ∧
      pending x s = bs ++ pending x' s' ∧ io_mem s' = scatter sl bs (io_mem s)) ∨
   (rc = -1 ∧ in_failed (tc_fd x) s' ∧ (∃ bs, pending x s = bs ++ pending x' s') ∧
      x' = (if bool_decide (io_errno s' = EPIPE) then set_indone (set_rxbuf rx x) else set_inerr (set_rxbuf rx x)))).

Definition tcp_sent (self : ptr) (x : dill_tcp_conn) (bs : list Z) (s : io (fdnet K)) (rc : Z)
    (s' : io (fdnet K)) : Prop := ∃ x',
  served self x x' [] s s' ∧ io_mem s' = io_mem s ∧ pending x' s' = pending x s ∧
  ((rc = 0 ∧ x' = x ∧ gone (tc_fd x) s' = gone (tc_fd x) s ++ bs) ∨
   (rc = -1 ∧ out_failed (tc_fd x) s' ∧ x' = set_outerr x ∧ ∃ k, gone (tc_fd x) s' = gone (tc_fd x) s ++ take k bs)).

Lemma wp_tcp_recv self x first lst l d rounds fuel (s : io (fdnet K)) :
  wf_io s → conn s self x → tc_rbusy x = false → tc_indone x = false → tc_inerr x = false → rx_ok (tc_rxbuf x) →
  list_at (io_nodes s) first l → last l = Some lst → allocated (io_mem s) (flat (io_nodes s) l) →
  Forall (real (io_nodes s)) l ∨ total (io_nodes s) l ≤ DILL_FD_BUFSIZE → (waits (tc_fd x) s < fuel)%nat →
  wp (dill_tcp_brecvl rounds fuel self first lst d) (tcp_received self x (flat (io_nodes s) l) s) s.
Proof.
  intros Hwf Hc Hbusy Hdone Herr Hrx Hl Hlast Ha Hreal Hf.
  apply wp_bind, (wp_get_tcp _ x); [done|]. rewrite Hbusy, Hdone, Herr.
  apply wp_bind, wp_put_tcp. set (s1 := with_conn self (set_rbusy true x) s). apply wp_bind.
  eapply wp_mono; [apply (fd_recv_spec (tc_fd x) d rounds fuel (Some (tc_rxbuf x)) first lst l s1)|]; try done.
  { destruct Hwf. by split. }
  { destruct Hreal as [|Hsmall]; [by left|right; by split]. }
  cbn beta. intros [rc orx] s2 (Hn & Hok & R). cbn [fst snd] in *.
  destruct orx as [rx|]; [|by pose proof (proj1 Hn eq_refl)]. cbn [from_option] in *. destruct R as [T R].
  apply wp_bind, (wp_get_tcp _ (set_rbusy true x)).
  { eapply conn_objs; [apply conn_with|]. exact (to_objs _ _ _ _ T). }
  cbn [default from_option]. set (x2 := set_rbusy false _).
  assert (Ex2 : x2 = set_rxbuf rx x) by (unfold x2, set_rxbuf, set_rbusy; cbn; by rewrite <- Hbusy).
  apply wp_bind, wp_put_tcp. set (s3 := with_conn self x2 s2).
  assert (Hserved : ∀ x', served self x x' (flat (io_nodes s) l) s (with_conn self x' s2)).
  { intros x'. split; [|pose proof (to_rest _ _ _ _ T) as E; rewrite E at 1; done|exact (to_dom _ _ _ _ T)|exact (to_other _ _ _ _ T)|exact (to_lasting _ _ _ _ T)].
    cbn. rewrite (to_objs _ _ _ _ T). cbn. apply insert_insert_eq. }
  destruct R as [(-> & bs & Hlen & Hp & Hm)|(-> & (bs & Hp) & F)]; cbn [Z.eqb].
  - apply wp_ret. exists rx, x2. split; [apply Hserved|split; [exact (to_out _ _ _ _ T)|split; [done|left]]].
    split; [done|]. split; [done|]. exists bs. split; [done|]. split; [|exact Hm]. rewrite Ex2. exact Hp.
  - apply wp_bind, wp_gets. apply wp_bind, (wp_get_tcp _ x2); [apply conn_with|].
    apply wp_bind, wp_put_tcp, wp_ret. set (x4 := if bool_decide _ then _ else _).
    exists rx, x4. split; [|split; [exact (to_out _ _ _ _ T)|split; [done|right]]].
    + replace (with_conn self x4 s3) with (with_conn self x4 s2); [apply Hserved|].
      unfold s3, with_conn. cbn. by rewrite insert_insert_eq.
    + split; [done|]. split; [exact F|]. unfold x4. rewrite Ex2. split; [exists bs; destruct (bool_decide _); exact Hp|done].
Qed.

Lemma wp_tcp_send self x first lst l bs d fuel (s : io (fdnet K)) :
  conn s self x → tc_sbusy x = false → tc_outdone x = false → tc_outerr x = false →
  list_at (io_nodes s) first l → last l = Some lst → gather (io_mem s) (flat (io_nodes s) l) = Some bs →
  (waits (tc_fd x) s < fuel)%nat →
  wp (dill_tcp_bsendl fuel self first lst d) (tcp_sent self x bs s) s.
Proof.
  intros Hc Hbusy Hdone Herr Hl Hlast Hg Hf.
  apply wp_bind, (wp_get_tcp _ x); [done|]. rewrite Hbusy, Hdone, Herr.
  apply wp_bind, wp_put_tcp. set (s1 := with_conn self (set_sbusy true x) s). apply wp_bind.
  eapply wp_mono; [by apply (fd_send_spec (tc_fd x) d fuel first lst l bs s1)|].
  cbn beta. intros rc s2 (E2 & Ho & Hc2 & L2 & R). apply wp_bind, (wp_get_tcp _ (set_sbusy true x)).
  { eapply conn_objs; [apply conn_with|exact Ho]. }
  set (x2 := set_sbusy false _). assert (Ex2 : x2 = x).
  { unfold x2, set_sbusy. cbn. rewrite <- Hbusy. by destruct x. }
  apply wp_bind, wp_put_tcp. set (s3 := with_conn self x2 s2).
  pose proof (f_equal io_mem E2 : io_mem s2 = io_mem s) as Em.
  assert (Hserved : ∀ x', served self x x' [] s (with_conn self x' s2)).
  { intros x'. split; [|clear -E2; revert E2; generalize (io_net s2) (io_errno s2); intros n e ->; by destruct s|cbn; by rewrite Em|cbn; by rewrite Em|exact L2].
    cbn. rewrite Ho. cbn. apply insert_insert_eq. }
  destruct R as [(-> & Hgo)|(-> & (k & Hgo) & F)]; cbn [Z.leb Z.compare].
  - apply wp_ret. exists x2. split; [apply Hserved|]. split; [exact Em|]. rewrite Ex2.
    split; [unfold pending; f_equal; exact Hc2|]. by left.
  - apply wp_bind, (wp_get_tcp _ x2); [apply conn_with|]. apply wp_bind, wp_put_tcp, wp_ret.
    exists (set_outerr x2). split.
    { replace (with_conn self (set_outerr x2) s3) with (with_conn self (set_outerr x2) s2); [apply Hserved|].
      unfold s3, with_conn. cbn. by rewrite insert_insert_eq. }
    split; [exact Em|]. rewrite Ex2. split; [unfold pending; cbn; f_equal; exact Hc2|].
    right. split; [done|]. split; [exact F|]. split; [done|]. by exists k.
Qed.
End Tcpspec.

(** C24. Receiving from a connection terminates.  When it succeeds the buffers of the list, in
    order, hold the next bytes of the stream, whether they were in the connection's buffer
    already or come from the system, and nothing else of the stream is lost or changed;
    when it fails the system has reported a failure of the socket (its end, an error, an
    expired deadline), or there was no memory for the connection's buffer, and the connection
    is marked: the end of the stream with [EPIPE], any other error for good.  Outside the buffers no memory and no list is changed.  The list is
    well-formed, and either all its buffers are real or the request fits the connection's
    buffer; the fuel exceeds the number of times the socket can be waited for. *)
Theorem tcp_brecvl_receives {K} `{OsK : Os K} `{LawsK : !OsLaws K} self x first lst l d rounds fuel (s : io (fdnet K)) :
  wf_io s → conn s self x → tc_rbusy x = false → tc_indone x = false → tc_inerr x = false → rx_ok (tc_rxbuf x) →
  list_at (io_nodes s) first l → last l = Some lst → allocated (io_mem s) (flat (io_nodes s) l) →
  Forall (real (io_nodes s)) l ∨ total (io_nodes s) l ≤ DILL_FD_BUFSIZE → (waits (tc_fd x) s < fuel)%nat →
  ∃ rc rx x' s', dill_tcp_brecvl rounds fuel self first lst d s = Some (rc, s') ∧
    served self x x' (flat (io_nodes s) l) s s' ∧ gone (tc_fd x) s' = gone (tc_fd x) s ∧ rx_ok rx ∧
    ((rc = 0 ∧ x' = set_rxbuf rx x ∧ ∃ bs, length bs = length (flat (io_nodes s) l) ∧
        pending x s = bs ++ pending x' s' ∧ io_mem s' = scatter (flat (io_nodes s) l) bs (io_mem s)) ∨
     (rc = -1 ∧ in_failed (tc_fd x) s' ∧ (∃ bs, pending x s = bs ++ pending x' s') ∧
        x' = (if bool_decide (io_errno s' = EPIPE) then set_indone (set_rxbuf rx x) else set_inerr (set_rxbuf rx x)))).
Proof.
  intros. assert (H' : wp (dill_tcp_brecvl rounds fuel self first lst d) (tcp_received self x (flat (io_nodes s) l) s) s)
    by by apply wp_tcp_recv.
  unfold wp in H'. destruct (dill_tcp_brecvl _ _ _ _ _ _ s) as [[rc s']|]; [|done].
  destruct H' as (rx & x' & H'). by exists rc, rx, x', s'.
Qed.

(** C25. Sending to a connection terminates.  When it succeeds exactly the bytes of the list
    have gone out, after those sent before; when it fails the first of them may have, the
    system has reported a failure of the socket, and the connection is marked so that nothing can be sent any more.  No memory and no list
    is changed, and what is yet to be received is the same. *)
Theorem tcp_bsendl_sends {K} `{OsK : Os K} `{LawsK : !OsLaws K} self x first lst l bs d fuel (s : io (fdnet K)) :
  conn s self x → tc_sbusy x = false → tc_outdone x = false → tc_outerr x = false →
  list_at (io_nodes s) first l → last l = Some lst → gather (io_mem s) (flat (io_nodes s) l) = Some bs →
  (waits (tc_fd x) s < fuel)%nat →
  ∃ rc x' s', dill_tcp_bsendl fuel self first lst d s = Some (rc, s') ∧
    served self x x' [] s s' ∧ io_mem s' = io_mem s ∧ pending x' s' = pending x s ∧
    ((rc = 0 ∧ x' = x ∧ gone (tc_fd x) s' = gone (tc_fd x) s ++ bs) ∨
     (rc = -1 ∧ out_failed (tc_fd x) s' ∧ x' = set_outerr x ∧ ∃ k, gone (tc_fd x) s' = gone (tc_fd x) s ++ take k bs)).
Proof.
  intros. assert (H' : wp (dill_tcp_bsendl fuel self first lst d) (tcp_sent self x bs s) s) by by eapply wp_tcp_send.
  unfold wp in H'. destruct (dill_tcp_bsendl _ _ _ _ _ s) as [[rc s']|]; [|done].
  destruct H' as (x' & H'). by exists rc, x', s'.
Qed.

(** * An example system *)

(** A single stream: the bytes that have arrived, those that arrive at each wait, the bytes
    sent, the room for more, and the number of waits before a deadline. *)
Record pipe := mk_pipe {
  pi_in : list Z;
  pi_later : list (list Z);
  pi_out : list Z;
  pi_room : nat;
  pi_waits : nat;
}.

Definition pipe_recv (n : Z) (k : pipe) : (list Z + errno_t) * pipe :=
  match pi_in k, pi_later k with
  | [], _ :: _ => (inr EAGAIN, k)
  | bs, l => (inl (take (Z.to_nat n) bs), mk_pipe (drop (Z.to_nat n) bs) l (pi_out k) (pi_room k) (pi_waits k))
  end.
Definition pipe_send (bs : list Z) (k : pipe) : (Z + errno_t) * pipe :=
  let n := Nat.min (length bs) (pi_room k) in
  if (n =? 0)%nat then (inr EAGAIN, k)
  else (inl (Z.of_nat n), mk_pipe (pi_in k) (pi_later k) (pi_out k ++ take n bs) (pi_room k - n) (pi_waits k)).
Definition pipe_wait (k : pipe) : option errno_t * pipe :=
  match pi_waits k with
  | O => (Some ETIMEDOUT, k)
  | S w => (None, mk_pipe (pi_in k ++ default [] (head (pi_later k))) (tail (pi_later k)) (pi_out k) 3 w)
  end.

#[export] Instance pipe_os : Os pipe := {|
  os_send := λ _ bs k, pipe_send bs k;
  os_recv := λ _ n k, pipe_recv n k;
  os_fdin := λ _ _ k, pipe_wait k;
  os_fdout := λ _ _ k, pipe_wait k;
  os_fdclean := λ _ k, (0, k);
  os_shutdown := λ _ k, (None, k);
  os_close := λ _ k, k;
  os_getfl := λ _ k, (0, k);
  os_setfl := λ _ _ k, (true, k);
  os_reuseaddr := λ _ k, (true, k);
  os_linger := λ _ k, k;
  os_so_error := λ _ k, (inl None, k);
  os_so_type := λ _ k, (inl SOCK_STREAM, k);
  os_so_acceptconn := λ _ k, (inl 0, k);
  os_getsockname := λ _ k, (inl [2; 0], k);
  os_dup := λ fd k, (inl (fd + 1), k);
  os_socket := λ _ _ k, (inl 3, k);
  os_socketpair := λ k, (inl (3, 4), k);
  os_connect := λ _ _ k, (None, k);
  os_bind := λ _ _ k, (None, k);
  os_listen := λ _ _ k, (None, k);
  os_accept := λ _ k, (inl (5, []), k);
  os_sendfd := λ _ _ k, (inl 1, k);
  os_recvfd := λ _ k, (inl (1, [mk_cmsg true 6]), k);
  os_sendto := λ _ _ bs k, (inl (Z.of_nat (length bs)), k);
  os_recvfrom := λ _ _ k, (inr EAGAIN, k);
|}.

Lemma pipe_wait_law k r k' : pipe_wait k = (r, k') →
  pi_in k' ++ concat (pi_later k') = pi_in k ++ concat (pi_later k) ∧ pi_out k' = pi_out k ∧
  (pi_waits k' ≤ pi_waits k)%nat ∧ match r with None => (pi_waits k' < pi_waits k)%nat | Some _ => pi_waits k' = 0%nat end.
Proof.
  unfold pipe_wait. destruct (pi_waits k) as [|w] eqn:E; intros [= <- <-].
  - split; [done|]. split; [done|]. split; [lia|done].
  - cbn. split; [|split; [done|lia]]. destruct (pi_later k); cbn; by rewrite <- app_assoc || rewrite app_nil_r.
Qed.

(** The end of the stream, or of the waits. *)
Definition pipe_infail (k : pipe) : bool := bool_decide (pi_in k = [] ∧ pi_later k = []) || (pi_waits k =? 0)%nat.

Lemma pipe_wait_lasting k r k' : pipe_wait k = (r, k') → (pipe_infail k = true → pipe_infail k' = true) ∧
  ((pi_waits k =? 0)%nat = true → (pi_waits k' =? 0)%nat = true).
Proof.
  unfold pipe_wait, pipe_infail. destruct (pi_waits k) as [|w] eqn:E; intros [= <- <-]; [by rewrite E|]. cbn. split; [|done].
  rewrite orb_false_r. intros [Hi Hl]%bool_decide_eq_true. by rewrite Hi, Hl.
Qed.

#[export, refine] Instance pipe_laws : OsLaws pipe := {|
  os_in := λ _ k, pi_in k ++ concat (pi_later k);
  os_out := λ _ k, pi_out k;
  os_waits := λ _ k, pi_waits k;
  os_infail := λ _ k, pipe_infail k;
  os_outfail := λ _ k, (pi_waits k =? 0)%nat;
|}.
Proof.
  - intros fd n k r k' Hn. cbn. unfold pipe_recv.
    destruct (pi_in k) as [|b l] eqn:E; [destruct (pi_later k) as [|x y] eqn:E2|]; intros [= <- <-]; cbn.
    + rewrite take_nil, drop_nil. cbn. repeat split; lia.
    + rewrite E, E2. by repeat split.
    + split; [done|]. split; [lia|]. split; [rewrite length_take; lia|]. rewrite app_assoc, take_drop. split; [done|].
      intros Ht Hn0. destruct (Z.to_nat n) eqn:E3; [lia|done].
  - intros fd bs k r k' Hne. cbn. unfold pipe_send. destruct (Nat.eqb_spec (Nat.min (length bs) (pi_room k)) 0) as [E|E];
      intros [= <- <-]; cbn; [by repeat split|]. split; [done|]. split; [lia|]. split; [lia|].
    by rewrite Nat2Z.id.
  - intros fd d k r k' E. apply pipe_wait_law in E as (H1 & H2 & H3 & H4). repeat (split; [done|]). destruct r; [|done].
    unfold pipe_infail. rewrite H4. apply orb_true_r.
  - intros fd d k r k' E. apply pipe_wait_law in E as (H1 & H2 & H3 & H4). repeat (split; [done|]). destruct r; [|done].
    by rewrite H4.
  - intros fd k k' [(n & r & E)|[(bs & r & E)|[(d & r & E)|(d & r & E)]]] _; cbn in *.
    + unfold pipe_recv in E. destruct (pi_in k) as [|b l] eqn:Ei; [destruct (pi_later k) as [|x y] eqn:El|];
        injection E as <- <-; unfold pipe_infail; cbn; rewrite ?Ei, ?El; cbn; try done.
      * by rewrite drop_nil.
      * split; [|done]. rewrite !orb_true_iff. intros H. by right.
    + unfold pipe_send in E. destruct (_ =? 0)%nat; injection E as <- <-; by unfold pipe_infail.
    + by eapply pipe_wait_lasting.
    + by eapply pipe_wait_lasting.
Defined.

(** A connection at address 50, two bytes of whose buffer are unread, and a list of two
    buffers. *)
Definition demo_conn : dill_tcp_conn :=
  mk_tcp 3 (mk_rxbuf 3 1 (Some [1; 2; 3])) false false false false false false true.
Definition demo_list : gmap Z iolist := list_to_map [(7, mk_iolist 1000 4 8 0); (8, mk_iolist 1010 3 NULL 0)].
Definition demo_tcp : io (fdnet pipe) :=
  mk_io E0 demo_list (zeros 1000 100) 2000 5 dill_ctx_handle_init false false ∅ ∅ ∅ ∅ ∅
    (mk_fdnet (mk_pipe [4] [[5; 6]; [7; 8; 9]] [] 2 5) 0 0 5 {[50 := TcpConn demo_conn]}).

Lemma demo_list_at : list_at demo_list 7 [7; 8].
Proof.
  split; [|split; [|split]].
  - cbn. split; [done|]. split; [done|]. eexists. split; [reflexivity|]. cbn. split; [done|]. split; [done|].
    eexists. by split; [reflexivity|].
  - intros x Hx. apply list_elem_of_In in Hx. destruct Hx as [<-|[<-|[]]]; reflexivity.
  - intros x Hx. apply list_elem_of_In in Hx. destruct Hx as [<-|[<-|[]]]; vm_compute; intuition congruence.
  - intros x Hx. apply list_elem_of_In in Hx. destruct Hx as [<-|[<-|[]]]; vm_compute; intuition congruence.
Qed.

Lemma demo_allocated : ∃ bs, gather (io_mem demo_tcp) (flat demo_list [7; 8]) = Some bs.
Proof. eexists. vm_compute. reflexivity. Qed.

Lemma tcp_brecvl_receives_witness :
  (fst <$> dill_tcp_brecvl 10 10 50 7 8 (-1) demo_tcp = Some 0) ∧
  ∃ rc rx x' s', dill_tcp_brecvl 10 10 50 7 8 (-1) demo_tcp = Some (rc, s') ∧
    served 50 demo_conn x' (flat (io_nodes demo_tcp) [7; 8]) demo_tcp s' ∧ gone (tc_fd demo_conn) s' = gone (tc_fd demo_conn) demo_tcp ∧ rx_ok rx ∧
    ((rc = 0 ∧ x' = set_rxbuf rx demo_conn ∧ ∃ bs, length bs = length (flat (io_nodes demo_tcp) [7; 8]) ∧
        pending demo_conn demo_tcp = bs ++ pending x' s' ∧ io_mem s' = scatter (flat (io_nodes demo_tcp) [7; 8]) bs (io_mem demo_tcp)) ∨
     (rc = -1 ∧ in_failed (tc_fd demo_conn) s' ∧ (∃ bs, pending demo_conn demo_tcp = bs ++ pending x' s') ∧
        x' = (if bool_decide (io_errno s' = EPIPE) then set_indone (set_rxbuf rx demo_conn)
              else set_inerr (set_rxbuf rx demo_conn)))).
Proof.
  split; [vm_compute; reflexivity|].
  apply (tcp_brecvl_receives 50 demo_conn 7 8 [7; 8] (-1) 10 10 demo_tcp).
  - apply wf_io_b_sound. vm_compute. reflexivity.
  - reflexivity.
  - reflexivity.
  - reflexivity.
  - reflexivity.
  - unfold rx_ok. cbn. unfold DILL_FD_BUFSIZE. lia.
  - exact demo_list_at.
  - reflexivity.
  - destruct demo_allocated as [bs E]. by apply gather_some in E as (E & _ & _).
  - left. repeat constructor.
  - vm_compute. lia.
Defined.

Lemma tcp_bsendl_sends_witness :
  (fst <$> dill_tcp_bsendl 10 50 7 8 (-1) demo_tcp = Some 0) ∧
  ∃ rc x' s', dill_tcp_bsendl 10 50 7 8 (-1) demo_tcp = Some (rc, s') ∧
    served 50 demo_conn x' [] demo_tcp s' ∧ io_mem s' = io_mem demo_tcp ∧ pending x' s' = pending demo_conn demo_tcp ∧
    ((rc = 0 ∧ x' = demo_conn ∧ gone (tc_fd demo_conn) s' = gone (tc_fd demo_conn) demo_tcp ++ repeat 0 7) ∨
     (rc = -1 ∧ out_failed (tc_fd demo_conn) s' ∧ x' = set_outerr demo_conn ∧ ∃ k, gone (tc_fd demo_conn) s' = gone (tc_fd demo_conn) demo_tcp ++ take k (repeat 0 7))).
Proof.
  split; [vm_compute; reflexivity|].
  apply (tcp_bsendl_sends 50 demo_conn 7 8 [7; 8] (repeat 0 7) (-1) 10 demo_tcp).
  - reflexivity.
  - reflexivity.
  - reflexivity.
  - reflexivity.
  - exact demo_list_at.
  - reflexivity.
  - vm_compute. reflexivity.
  - vm_compute. lia.
Defined.

(** A connection is made of a descriptor and closed; closing succeeds, but the handle stays
    in the table, and closing it accesses the object that was freed. *)
Definition demo_closing (again : bool) : option (Z * Z) :=
  let close := obj_close (λ _, mret tt) in
  fst <$> (h ← dill_tcp_fromfd true close 3;
           rc ← dill_tcp_close close 10 10 h (-1);
           if again then rc ← fclose close h; mret (h, rc) else mret (h, rc)) demo_tcp.

Lemma tcp_close_leaks : demo_closing false = Some (0, 0) ∧ demo_closing true = None.
Proof. split; vm_compute; reflexivity. Qed.
