(* ===== verification/Tcpnet.v ===== *)
(** Protocols over TCP: the connections of [tcp.c] are the sockets that the protocols of the
    other files run over.  [tcp_net] dispatches the operations of a bytestream to a connection,
    as the table [dill_bsock_vfs] of [tcp.c] does, and [tcp_net_laws] discharges the
    interface [NetLaws] that the protocols' theorems are proved against. *)

From Stdlib Require Import ZArith Lia.
From stdpp Require Import base gmap list.
From S2P Require Import Prelude Handle Iol Sock Loop Fd Fdspec Fdrecv Tcp Tcpspec Prefix.
Open Scope Z_scope.

(** [dill_random] of the system *)
Class OsRandom (K : Type) := os_random : Z → K → option (list Z) * K.

(** * States in which connections are open *)

#[export] Instance rx_ok_dec rx : Decision (rx_ok rx).
Proof. unfold rx_ok. destruct (rx_buf rx); apply _. Defined.

Section States.
Context {K : Type} `{OsK : Os K} `{LawsK : !OsLaws K}.

(** Receiving from descriptor [fd], or sending to it, has failed. *)
Definition fd_infail (fd : Z) (n : fdnet K) : Prop := os_infail fd (fn_os n) = true ∨ fn_budget n = 0%nat.
Definition fd_outfail (fd : Z) (n : fdnet K) : Prop := os_outfail fd (fn_os n) = true.
#[export] Instance fd_infail_dec fd n : Decision (fd_infail fd n).
Proof. unfold fd_infail. apply _. Defined.
#[export] Instance fd_outfail_dec fd n : Decision (fd_outfail fd n).
Proof. unfold fd_outfail. apply _. Defined.

(** An open connection that no call is working on; a direction is marked only if it failed. *)
Definition resting (n : fdnet K) (x : dill_tcp_conn) : Prop :=
  tc_rbusy x = false ∧ tc_sbusy x = false ∧ rx_ok (tc_rxbuf x) ∧
  (tc_indone x || tc_inerr x = true → fd_infail (tc_fd x) n) ∧ (tc_outdone x || tc_outerr x = true → fd_outfail (tc_fd x) n).
#[export] Instance resting_dec n x : Decision (resting n x).
Proof. unfold resting. apply _. Defined.

Definition idle (n : fdnet K) (o : option fdobj) : bool :=
  match o with Some (TcpConn x) => bool_decide (resting n x) | _ => false end.

Definition all_idle (conns : list Z) (n : fdnet K) : bool := forallb (λ p, idle n (fn_objs n !! p)) conns.

(** The states of the descriptors in which the connections [conns] are idle *)
Definition tcpnet (conns : list Z) : Type := { n : fdnet K | Is_true (all_idle conns n) }.

Definition fds {conns} (t : tcpnet conns) : fdnet K := proj1_sig t.

Lemma all_idle_conn conns n p : Is_true (all_idle conns n) → p ∈ conns →
  ∃ x, fn_objs n !! p = Some (TcpConn x) ∧ resting n x.
Proof.
  intros Hn Hp. apply Is_true_true, forallb_forall with (x := p) in Hn; [|by apply list_elem_of_In].
  unfold idle in Hn. destruct (fn_objs n !! p) as [[x| | | |]|]; try done. exists x. by apply bool_decide_eq_true in Hn.
Qed.

Lemma idle_conn conns (t : tcpnet conns) p : p ∈ conns →
  ∃ x, fn_objs (fds t) !! p = Some (TcpConn x) ∧ resting (fds t) x.
Proof. apply all_idle_conn. exact (proj2_sig t). Qed.

(** Failures last. *)
Definition failing (n n' : fdnet K) : Prop :=
  ∀ fd, (fd_infail fd n → fd_infail fd n') ∧ (fd_outfail fd n → fd_outfail fd n').

Lemma all_idle_insert conns p x (n n' : fdnet K) :
  Is_true (all_idle conns n) → resting n' x → failing n n' → fn_objs n' = <[p := TcpConn x]> (fn_objs n) →
  Is_true (all_idle conns n').
Proof.
  intros Hn Hx Hf E. apply Is_true_true, forallb_forall. intros q Hq.
  rewrite E. destruct (decide (q = p)) as [->|Hqp].
  - rewrite lookup_insert_eq. by apply bool_decide_eq_true_2.
  - rewrite lookup_insert_ne by done.
    destruct (all_idle_conn conns n q Hn (proj2 (list_elem_of_In _ _) Hq)) as (y & -> & H1 & H2 & H3 & H4 & H5).
    destruct (Hf (tc_fd y)). apply bool_decide_eq_true_2. split_and!; auto.
Qed.
End States.
Arguments tcpnet K {_ _} conns.

(** * The sockets *)

(** The same state with another part for the system *)
Definition with_sys {N M} (t : M) (s : io N) : io M :=
  mk_io (io_errno s) (io_nodes s) (io_mem s) (io_next s) (io_budget s) (io_handles s) (io_nb1 s) (io_nb2 s)
    (io_prefixes s) (io_suffixes s) (io_terms s) (io_https s) (io_wss s) t.

Section Net.
Context {K : Type} `{OsK : Os K} `{LawsK : !OsLaws K} `{RandomK : OsRandom K} {conns : list Z}.

(** A call on the descriptors; its local storage is free again when it returns. *)
Definition call {A} (m : IO (fdnet K) A) : IO (tcpnet K conns) A := λ s,
  '(a, s') ← m (with_sys (fds (io_net s)) s);
  match decide (Is_true (all_idle conns (io_net s'))) with
  | left H => Some (a, set_io_next (io_next s) (with_sys (exist _ (io_net s') H : tcpnet K conns) s'))
  | right _ => None
  end.

(** How often connection [p] can be waited for, which is less than the fuel *)
Definition tcp_fuel (p : ptr) (s : io (tcpnet K conns)) : nat :=
  match fn_objs (fds (io_net s)) !! p with
  | Some (TcpConn x) => S (os_waits (tc_fd x) (fn_os (fds (io_net s))))
  | _ => O
  end.

#[export] Instance tcp_net : Net (tcpnet K conns) := {|
  net_bytestream := λ p, bool_decide (p ∈ conns);
  net_sendl := λ p first last d s, call (dill_tcp_bsendl (tcp_fuel p s) p first last d) s;
  net_recvl := λ p first last d s, call (dill_tcp_brecvl (Z.to_nat DILL_FD_BUFSIZE) (tcp_fuel p s) p first last d) s;
  net_close := λ p, call (dill_tcp_hclose p);
  net_random := λ n, call (sys (os_random n));
|}.

(** What connection [p] has sent, and what it has yet to deliver *)
Definition tcp_out (t : tcpnet K conns) (p : ptr) : list Z :=
  match fn_objs (fds t) !! p with Some (TcpConn x) => os_out (tc_fd x) (fn_os (fds t)) | _ => [] end.
Definition tcp_in (t : tcpnet K conns) (p : ptr) : list Z :=
  match fn_objs (fds t) !! p with
  | Some (TcpConn x) => unread (tc_rxbuf x) ++ os_in (tc_fd x) (fn_os (fds t))
  | _ => []
  end.

(** Whether receiving, or sending, has failed *)
Definition tcp_infail (t : tcpnet K conns) (p : ptr) : Prop :=
  match fn_objs (fds t) !! p with Some (TcpConn x) => fd_infail (tc_fd x) (fds t) | _ => False end.
Definition tcp_outfail (t : tcpnet K conns) (p : ptr) : Prop :=
  match fn_objs (fds t) !! p with Some (TcpConn x) => fd_outfail (tc_fd x) (fds t) | _ => False end.

(** * The laws *)

Lemma wf_sys {N M} (t : M) (s : io N) : wf_io s → wf_io (with_sys t s).
Proof. intros [H1 H2 H3 H4]. by split. Qed.

Lemma valid_list_at {N} (s : io N) first lst l : wf_io s → valid (io_nodes s) first lst l → l ≠ [] →
  list_at (io_nodes s) first l ∧ last l = Some lst.
Proof.
  intros Hwf Hv Hne. pose proof (wf_sized _ _ _ _ Hwf Hv) as Hs. destruct Hv as (Hp & Hl & Hu). split.
  - split; [done|]. split; [done|]. split; [done|]. intros x Hx.
    destruct (seg_alloc _ _ _ _ _ Hp Hx) as [nd Hnd]. rewrite (node_lookup _ _ _ Hnd). by apply (wi_types _ Hwf x).
  - destruct (last l) eqn:E; [by subst|]. by apply last_None in E.
Qed.

(** The result of a call that leaves the connections idle *)
Lemma call_done {A} (m : IO (fdnet K) A) a s s' : let s0 := with_sys (fds (io_net s)) s in
  m s0 = Some (a, s') → s' = after (io_handles s0) (io_next s') (io_mem s') (io_net s') (io_errno s') s0 →
  Is_true (all_idle conns (io_net s')) →
  ∃ nt : tcpnet K conns, fds nt = io_net s' ∧
    call m s = Some (a, set_io_mem (io_mem s') (set_io_net nt (set_io_errno (io_errno s') s))).
Proof.
  intros s0 E Hs Hi. unfold call. fold s0. rewrite E. cbn [mbind option_bind]. destruct (decide _) as [H|]; [|done].
  exists (exist _ (io_net s') H). split; [done|]. do 2 f_equal.
  generalize (exist (λ n, Is_true (all_idle conns n)) (io_net s') H : tcpnet K conns). intros nt. revert Hs. clear.
  generalize (io_net s') (io_mem s') (io_errno s') (io_next s'). intros n0 m0 e nx ->. by destruct s.
Qed.

(** A direction that is broken already *)
Lemma call_fail (m : IO (fdnet K) Z) e s : m (with_sys (fds (io_net s)) s) = Some (-1, set_io_errno e (with_sys (fds (io_net s)) s)) →
  call m s = Some (-1, set_io_mem (io_mem s) (set_io_net (io_net s) (set_io_errno e s))).
Proof.
  intros E. unfold call. rewrite E. cbn. destruct (io_net s) as [n H] eqn:En. cbn. destruct (decide _) as [H'|]; [|done].
  rewrite (proof_irrel H' H). destruct s. cbn in En. by subst.
Qed.

Lemma tcp_in_conn (t : tcpnet K conns) p x : fn_objs (fds t) !! p = Some (TcpConn x) →
  tcp_in t p = unread (tc_rxbuf x) ++ os_in (tc_fd x) (fn_os (fds t)).
Proof. intros E. unfold tcp_in. by rewrite E. Qed.
Lemma tcp_out_conn (t : tcpnet K conns) p x : fn_objs (fds t) !! p = Some (TcpConn x) → tcp_out t p = os_out (tc_fd x) (fn_os (fds t)).
Proof. intros E. unfold tcp_out. by rewrite E. Qed.
Lemma tcp_fuel_conn p x (s : io (tcpnet K conns)) : fn_objs (fds (io_net s)) !! p = Some (TcpConn x) →
  tcp_fuel p s = S (os_waits (tc_fd x) (fn_os (fds (io_net s)))).
Proof. intros E. unfold tcp_fuel. by rewrite E. Qed.

Lemma tcp_infail_conn (t : tcpnet K conns) p x : fn_objs (fds t) !! p = Some (TcpConn x) → tcp_infail t p = fd_infail (tc_fd x) (fds t).
Proof. intros E. unfold tcp_infail. by rewrite E. Qed.
Lemma tcp_outfail_conn (t : tcpnet K conns) p x : fn_objs (fds t) !! p = Some (TcpConn x) → tcp_outfail t p = fd_outfail (tc_fd x) (fds t).
Proof. intros E. unfold tcp_outfail. by rewrite E. Qed.

Lemma get_tcp_done p x (s : io (fdnet K)) : fn_objs (io_net s) !! p = Some (TcpConn x) → get_tcp p s = Some (x, s).
Proof. intros E. unfold get_tcp, get_obj. cbv [mbind IO_bind option_bind]. by rewrite E. Qed.

(** A call that served connection [p] *)
Lemma served_call p x x' sl (m : IO (fdnet K) Z) rc s s' :
  m (with_sys (fds (io_net s)) s) = Some (rc, s') → served p x x' sl (with_sys (fds (io_net s)) s) s' →
  resting (io_net s') x' →
  ∃ nt : tcpnet K conns, fn_objs (fds nt) !! p = Some (TcpConn x') ∧ fds nt = io_net s' ∧
    call m s = Some (rc, set_io_mem (io_mem s') (set_io_net nt (set_io_errno (io_errno s') s))).
Proof.
  intros E [Hobjs Hrest _ _ Hlast] Hx. destruct (call_done m rc s s' E Hrest) as (nt & Hnt & Ec).
  { by apply (all_idle_insert conns p x' (fds (io_net s))); [exact (proj2_sig (io_net s))|..]. }
  exists nt. split; [rewrite Hnt, Hobjs; apply lookup_insert_eq|done].
Qed.

Lemma tcp_send_law p first lst d (s : io (tcpnet K conns)) l bs :
  p ∈ conns → wf_io s → valid (io_nodes s) first lst l → l ≠ [] → gather (io_mem s) (flat (io_nodes s) l) = Some bs →
  ∃ rc nt e, net_sendl p first lst d s = Some (rc, set_io_net nt (set_io_errno e s)) ∧
    tcp_in nt p = tcp_in (io_net s) p ∧ ((rc = 0 ∧ tcp_out nt p = tcp_out (io_net s) p ++ bs) ∨ (rc = -1 ∧ tcp_outfail nt p)).
Proof.
  intros Hp Hwf Hv Hne Hg. destruct (idle_conn conns (io_net s) p Hp) as (x & Hx & Hb & Hs & Hr & Hif & Hof).
  cbn [net_sendl tcp_net]. rewrite (tcp_fuel_conn _ _ _ Hx). set (s0 := with_sys (fds (io_net s)) s).
  set (m := dill_tcp_bsendl _ _ _ _ _).
  assert (Hfail : ∀ e, tc_outdone x || tc_outerr x = true → m s0 = Some (-1, set_io_errno e s0) →
    ∃ rc nt e', call m s = Some (rc, set_io_net nt (set_io_errno e' s)) ∧
    tcp_in nt p = tcp_in (io_net s) p ∧ ((rc = 0 ∧ tcp_out nt p = tcp_out (io_net s) p ++ bs) ∨ (rc = -1 ∧ tcp_outfail nt p))).
  { intros e F E. exists (-1), (io_net s), e. split; [rewrite (call_fail m e s E); by destruct s|]. split; [done|]. right.
    split; [done|]. rewrite (tcp_outfail_conn _ _ _ Hx). by apply Hof. }
  pose proof (get_tcp_done p x s0 Hx) as Hget. destruct (tc_outdone x) eqn:Ed; [|destruct (tc_outerr x) eqn:Ee].
  - apply (Hfail EPIPE); [done|]. unfold m, dill_tcp_bsendl, send_conn. erewrite IO_bind_done by exact Hget. by rewrite Hs, Ed.
  - apply (Hfail ECONNRESET); [done|]. unfold m, dill_tcp_bsendl, send_conn. erewrite IO_bind_done by exact Hget. by rewrite Hs, Ed, Ee.
  - clear Hfail. destruct (valid_list_at s first lst l Hwf Hv Hne) as [Hl Hlast].
    assert (H : wp m (tcp_sent p x bs s0) s0) by (eapply wp_tcp_send; [done..|unfold waits; cbn; lia]).
    unfold wp in H. destruct (m s0) as [[rc s']|] eqn:E; [|done]. destruct H as (x' & Hserved & Hm & Hpend & Hrc).
    assert (tc_rxbuf x' = tc_rxbuf x ∧ tc_fd x' = tc_fd x ∧ resting (io_net s') x') as (Hr' & Hfd & Hx').
    { destruct (sv_lasting _ _ _ _ _ _ Hserved (tc_fd x)) as [Hl1 _].
      destruct Hrc as [(_ & -> & _)|(_ & F & -> & _)]; (split; [done|split; [done|]]).
      - split_and!; try done; [intros Hm'; by apply Hl1, Hif|by rewrite Ed, Ee].
      - split_and!; try done; intros Hm'; by apply Hl1, Hif. }
    destruct (served_call p x x' _ m rc s s' E Hserved Hx') as (nt & Hx2 & Hnt & Ec).
    exists rc, nt, (io_errno s'). split; [rewrite Ec, Hm; by destruct s|].
    rewrite (tcp_in_conn _ _ _ Hx), (tcp_in_conn _ _ _ Hx2), (tcp_out_conn _ _ _ Hx), (tcp_out_conn _ _ _ Hx2),
      (tcp_outfail_conn _ _ _ Hx2), Hnt.
    split; [exact Hpend|]. rewrite Hfd. destruct Hrc as [(-> & _ & Ho)|(-> & F & _)]; [left; split; [done|exact Ho]|by right].
Qed.

Lemma tcp_recv_law p first lst d (s : io (tcpnet K conns)) l :
  p ∈ conns → wf_io s → valid (io_nodes s) first lst l → l ≠ [] → fillable DILL_FD_BUFSIZE (io_nodes s) l →
  allocated (io_mem s) (flat (io_nodes s) l) →
  ∃ rc nt e m, net_recvl p first lst d s = Some (rc, set_io_mem m (set_io_net nt (set_io_errno e s))) ∧
    tcp_out nt p = tcp_out (io_net s) p ∧ dom m = dom (io_mem s) ∧
    (∀ a, Some a ∉ flat (io_nodes s) l → m !! a = io_mem s !! a) ∧
    ((rc = 0 ∧ ∃ bs, length bs = length (flat (io_nodes s) l) ∧ tcp_in (io_net s) p = bs ++ tcp_in nt p ∧
        m = scatter (flat (io_nodes s) l) bs (io_mem s)) ∨ (rc = -1 ∧ tcp_infail nt p)).
Proof.
  intros Hp Hwf Hv Hne Hfl Hal. destruct (idle_conn conns (io_net s) p Hp) as (x & Hx & Hb & Hs & Hr & Hif & Hof).
  cbn [net_recvl tcp_net]. rewrite (tcp_fuel_conn _ _ _ Hx). set (s0 := with_sys (fds (io_net s)) s).
  set (m := dill_tcp_brecvl _ _ _ _ _ _).
  assert (Hfail : ∀ e, m s0 = Some (-1, set_io_errno e s0) →
    call m s = Some (-1, set_io_mem (io_mem s) (set_io_net (io_net s) (set_io_errno e s)))) by (intros e; apply call_fail).
  assert (Hinfail : tc_indone x || tc_inerr x = true → tcp_infail (io_net s) p) by (by rewrite (tcp_infail_conn _ _ _ Hx)).
  pose proof (get_tcp_done p x s0 Hx) as Hget. destruct (tc_indone x) eqn:Ed; [|destruct (tc_inerr x) eqn:Ee].
  - exists (-1), (io_net s), EPIPE, (io_mem s). split_and!; try done; [|right; split; [done|by apply Hinfail]]. apply Hfail.
    unfold m, dill_tcp_brecvl, recv_conn. erewrite IO_bind_done by exact Hget. by rewrite Hb, Ed.
  - exists (-1), (io_net s), ECONNRESET, (io_mem s). split_and!; try done; [|right; split; [done|by apply Hinfail]]. apply Hfail.
    unfold m, dill_tcp_brecvl, recv_conn. erewrite IO_bind_done by exact Hget. by rewrite Hb, Ed, Ee.
  - clear Hfail Hinfail. destruct (valid_list_at s first lst l Hwf Hv Hne) as [Hl Hlast].
    assert (H : wp m (tcp_received p x (flat (io_nodes s) l) s0) s0).
    { eapply wp_tcp_recv; [by apply wf_sys|done..| |unfold waits; cbn; lia]. destruct Hfl as [Hfl|Hfl]; [left|by right].
      apply Forall_forall. exact Hfl. }
    unfold wp in H. destruct (m s0) as [[rc s']|] eqn:E; [|done]. destruct H as (rx & x' & Hserved & Hgone & Hrx & Hrc).
    assert (tc_rxbuf x' = rx ∧ tc_fd x' = tc_fd x ∧ resting (io_net s') x') as (Hr' & Hfd & Hx').
    { destruct (sv_lasting _ _ _ _ _ _ Hserved (tc_fd x)) as [_ Hl2].
      destruct Hrc as [(_ & -> & _)|(_ & F & _ & ->)].
      - split; [done|]. split; [done|]. split_and!; try done; [cbn; by rewrite Ed, Ee|intros Hm'; by apply Hl2, Hof].
      - case_bool_decide; (split; [done|]; split; [done|]; split_and!; try done; intros Hm'; by apply Hl2, Hof). }
    destruct (served_call p x x' _ m rc s s' E Hserved Hx') as (nt & Hx2 & Hnt & Ec).
    exists rc, nt, (io_errno s'), (io_mem s'). split; [exact Ec|].
    rewrite (tcp_in_conn _ _ _ Hx), (tcp_in_conn _ _ _ Hx2), (tcp_out_conn _ _ _ Hx), (tcp_out_conn _ _ _ Hx2),
      (tcp_infail_conn _ _ _ Hx2), Hnt, Hfd.
    split; [exact Hgone|]. split; [exact (sv_dom _ _ _ _ _ _ Hserved)|]. split; [exact (sv_other _ _ _ _ _ _ Hserved)|].
    destruct Hrc as [(-> & _ & bs & Hlen & Hpend & Hm)|(-> & F & _)]; [left; split; [done|]|by right].
    exists bs. split; [done|]. split; [|exact Hm]. unfold pending, coming in Hpend. rewrite Hfd in Hpend. exact Hpend.
Qed.

#[export] Instance tcp_net_laws : NetLaws (tcpnet K conns).
Proof.
  refine {| net_out := tcp_out; net_in := tcp_in; net_infail := tcp_infail; net_outfail := tcp_outfail; net_skip := DILL_FD_BUFSIZE |}.
  - done.
  - intros p first lst d s l bs Hp. apply tcp_send_law. by apply bool_decide_eq_true in Hp.
  - intros p first lst d s l Hp. apply tcp_recv_law. by apply bool_decide_eq_true in Hp.
Defined.
End Net.

(** * PREFIX over TCP *)

Section Over.
Context {K1 : Type} `{OsK1 : Os K1} `{LawsK1 : !OsLaws K1} `{RandomK1 : OsRandom K1} (conns1 : list Z).
Context {K2 : Type} `{OsK2 : Os K2} `{LawsK2 : !OsLaws K2} `{RandomK2 : OsRandom K2} (conns2 : list Z).
Context (close1 : sobj → IO (tcpnet K1 conns1) unit) (close2 : sobj → IO (tcpnet K2 conns2) unit).

(** C22. A message over PREFIX over TCP.  One side sends the bytes [bs] of a list of buffers through a
    PREFIX socket over its TCP connection [p], the other receives into a list of buffers through
    a PREFIX socket with the same header over its connection [q], on systems of any behaviour.
    Both calls return.  The first returns 0, or the system has reported a failure of the sending
    connection and it returns -1.  If it returns 0 and what arrives at [q], partly in the buffer of
    the connection perhaps, starts with what left through [p] during the call, however the systems
    cut it into pieces and whenever they make the calls wait, then the other returns the size of
    [bs], has put them into its buffers in order, and leaves what follows in the stream; unless the
    system has reported a failure of the receiving connection (its end, an error, a deadline) or
    there was no memory for its buffer: only then the result is -1 and the direction is marked.
    The size of the message fits the header, and the message ends in the last buffer of the
    receiver's list: a message that ends before it may crash the receiver
    ([prefix_stale_last_crashes]). *)
Theorem prefix_over_tcp_delivers ps x p first1 lst1 l1 d1 (s : io (tcpnet K1 conns1)) bs
    pr y q first2 lst2 l2 d2 (r : io (tcpnet K2 conns2)) :
  wf_io s → io_prefixes s !! ps = Some x → px_outerr x = false → 0 < hdrlen x < 2 ^ 64 →
  answers (px_u x) dill_bsock_type p s → p ∈ conns1 →
  valid (io_nodes s) first1 lst1 l1 → l1 ≠ [] → gather (io_mem s) (flat (io_nodes s) l1) = Some bs →
  wf_io r → io_prefixes r !! pr = Some y → px_inerr y = false → hdrlen y = hdrlen x → bigendian y = bigendian x →
  answers (px_u y) dill_bsock_type q r → q ∈ conns2 →
  valid (io_nodes r) first2 lst2 (l2 ++ [lst2]) → allocated (io_mem r) (flat (io_nodes r) (l2 ++ [lst2])) →
  (∀ z, z ∈ l2 ++ [lst2] → 0 < iol_base (node (io_nodes r) z)) ∨ total (io_nodes r) (l2 ++ [lst2]) ≤ DILL_FD_BUFSIZE →
  Z.of_nat (length bs) < 2 ^ 63 → Z.of_nat (length bs) < 256 ^ hdrlen x →
  l2 = [] ∨ total (io_nodes r) l2 < Z.of_nat (length bs) →
  Z.of_nat (length bs) ≤ total (io_nodes r) (l2 ++ [lst2]) →
  wp (dill_prefix_msendl close1 ps first1 lst1 d1) (λ rc s', prefix_sent ps x p bs s rc s' ∧
    (rc = 0 → ∀ wire rest, tcp_out (io_net s') p = tcp_out (io_net s) p ++ wire → tcp_in (io_net r) q = wire ++ rest →
      wp (dill_prefix_mrecvl close2 pr first2 lst2 d2)
        (prefix_received pr y q (flat (io_nodes r) (l2 ++ [lst2])) bs rest r) r)) s.
Proof.
  intros Hs Hx Hxe Hh Ha Hp Hv1 Hne Hg Hr Hy Hye Eh Eb Ha2 Hq Hv2 Hal Hfl Hb63 Hbk Hend Hfit.
  eapply wp_mono; [apply (prefix_msendl_frames close1 ps first1 lst1 d1 s x l1 bs p); try done|].
  { by apply bool_decide_eq_true_2. }
  { by eapply wf_sized. }
  intros rc s' Hsent. split; [done|]. intros -> wire rest Hwire Hin.
  destruct Hsent as (_ & _ & _ & _ & _ & [(_ & _ & Hout)|[[=] _]]).
  change (tcp_out (io_net s') p = _) with (net_out (io_net s') p = net_out (io_net s) p ++ wire) in Hwire.
  rewrite Hout in Hwire. apply app_inv_head in Hwire as <-.
  apply (wp_prefix_mrecvl close2 pr first2 lst2 d2 r y l2 bs rest q); try done.
  - by rewrite Eh.
  - by apply bool_decide_eq_true_2.
  - by eapply wf_sized.
  - by rewrite Eh.
  - change (net_in (io_net r) q) with (tcp_in (io_net r) q). rewrite Hin, Eh, Eb, <- app_assoc.
    unfold u64. by rewrite Z.mod_small by lia.
Qed.
End Over.

(** * An example *)

#[export] Instance pipe_random : OsRandom pipe := λ n k, (Some (repeat 7 (Z.to_nat n)), k).

Definition over_prefix : dill_prefix_sock := mk_prefix 0 2 true false false true.

(** The TCP connection at 50, with what it has received already *)
Definition over_net (k : pipe) (rx : list Z) : fdnet pipe :=
  mk_fdnet k 0 0 5 {[50 := TcpConn (mk_tcp 3 (mk_rxbuf (Z.of_nat (length rx)) 0 (Some rx)) false false false false false false true)]}.

(** It is handle 0, and the PREFIX socket at 60 is over it; two buffers hold [bs]. *)
Definition over_tcp (t : tcpnet pipe [50]) (bs : list (Z * Z)) : io (tcpnet pipe [50]) :=
  set_io_prefixes {[60 := over_prefix]}
    (mk_io E0 Tcpspec.demo_list (list_to_map bs ∪ zeros 1000 100) 2000 5
      (handles_of (N := tcpnet pipe [50]) [ONet 50; OPrefix 60]) false false ∅ ∅ ∅ ∅ ∅ t).

Definition over_bytes : list (Z * Z) := [(1000, 1); (1001, 2); (1002, 3); (1003, 4); (1010, 5); (1011, 6); (1012, 7)].
Definition over_sender : io (tcpnet pipe [50]) := over_tcp (exist _ (over_net (mk_pipe [] [] [] 2 9) []) I) over_bytes.
Definition over_receiver : io (tcpnet pipe [50]) := 
  over_tcp (exist _ (over_net (mk_pipe [7; 1] [[2; 3; 4]; [5; 6; 7; 9]] [] 0 9) [0]) I) [].
Definition over_close (v : sobj) : IO (tcpnet pipe [50]) unit := mret tt.

Lemma over_valid : valid Tcpspec.demo_list 7 8 ([7] ++ [8]).
Proof. pose proof demo_list_at as (Hp & Hu & _). by split. Qed.

Lemma over_answers t bs : answers 0 dill_bsock_type 50 (over_tcp t bs).
Proof. by apply (demo_answers [ONet 50; OPrefix 60]). Qed.

Lemma over_gather t : gather (io_mem (over_tcp t over_bytes)) (flat Tcpspec.demo_list ([7] ++ [8])) = Some [1; 2; 3; 4; 5; 6; 7].
Proof. vm_compute. reflexivity. Qed.

(** Buffers of 1000, 1000 and 10 bytes, and a message of [k] bytes on the way *)
Definition stale_nodes : gmap Z iolist :=
  list_to_map [(7, mk_iolist 1000 1000 8 0); (8, mk_iolist 2000 1000 9 0); (9, mk_iolist 3000 10 NULL 0)].
Definition stale_receiver (hdr : list Z) (k : nat) : io (tcpnet pipe [50]) :=
  set_io_prefixes {[60 := over_prefix]}
    (mk_io E0 stale_nodes (zeros 1000 2010) 5000 5
      (handles_of (N := tcpnet pipe [50]) [ONet 50; OPrefix 60]) false false ∅ ∅ ∅ ∅ ∅
      (exist _ (over_net (mk_pipe hdr [repeat 1 k] [] 0 9) []) I)).

(** [dill_prefix_mrecvl] ends the list in the second buffer, and passes the old last element with
    it.  A message of 2000 bytes is not received through the buffer of the connection but by the
    loop of [dill_fd_recv] that looks for the last element: it runs off the end of the list.
    A message of 1200 bytes is received through the buffer. *)
Lemma prefix_stale_last_crashes :
  fst <$> dill_prefix_mrecvl over_close 60 7 9 (-1) (stale_receiver [7; 208] 2000) = None ∧
  fst <$> dill_prefix_mrecvl over_close 60 7 9 (-1) (stale_receiver [4; 176] 1200) = Some 1200.
Proof. split; vm_compute; reflexivity. Qed.

Lemma prefix_over_tcp_delivers_witness :
  (λ r, (r.1, tcp_out (io_net r.2) 50)) <$> dill_prefix_msendl over_close 60 7 8 (-1) over_sender = Some (0, [0; 7; 1; 2; 3; 4; 5; 6; 7]) ∧
  (λ r, (r.1, tcp_in (io_net r.2) 50)) <$> dill_prefix_mrecvl over_close 60 7 8 (-1) over_receiver = Some (7, [9]) ∧
  wp (dill_prefix_msendl over_close 60 7 8 (-1)) (λ rc s', prefix_sent 60 over_prefix 50 [1; 2; 3; 4; 5; 6; 7] over_sender rc s' ∧
    (rc = 0 → ∀ wire rest, tcp_out (io_net s') 50 = tcp_out (io_net over_sender) 50 ++ wire →
      tcp_in (io_net over_receiver) 50 = wire ++ rest →
      wp (dill_prefix_mrecvl over_close 60 7 8 (-1))
        (prefix_received 60 over_prefix 50 (flat (io_nodes over_receiver) ([7] ++ [8])) [1; 2; 3; 4; 5; 6; 7] rest over_receiver)
        over_receiver)) over_sender.
Proof.
  split; [vm_compute; reflexivity|]. split; [vm_compute; reflexivity|].
  apply (prefix_over_tcp_delivers [50] [50] over_close over_close 60 over_prefix 50 7 8 ([7] ++ [8]) (-1) over_sender
    [1; 2; 3; 4; 5; 6; 7] 60 over_prefix 50 7 8 [7] (-1) over_receiver).
  - apply wf_io_b_sound. vm_compute. reflexivity.
  - reflexivity.
  - reflexivity.
  - by vm_compute.
  - apply over_answers.
  - by apply list_elem_of_singleton.
  - exact over_valid.
  - done.
  - apply over_gather.
  - apply wf_io_b_sound. vm_compute. reflexivity.
  - reflexivity.
  - reflexivity.
  - reflexivity.
  - reflexivity.
  - apply over_answers.
  - by apply list_elem_of_singleton.
  - exact over_valid.
  - destruct demo_allocated as [bs E]. exact (proj1 (gather_some _ _ _ E)).
  - right. by vm_compute.
  - by vm_compute.
  - by vm_compute.
  - right. by vm_compute.
  - by vm_compute.
Defined.
