(* ===== verification/Wsnet.v ===== *)
(** WebSocket over TCP: what one side sends through [ws.c], [tcp.c] and [fd.c], the other side
    receives. *)

From Stdlib Require Import ZArith Lia.
From stdpp Require Import base gmap list.
From S2P Require Import Prelude Handle Iol Sock Loop Http Stream Ws Wsspec Wsframe Wsrecv Fd Fdspec Fdrecv Tcp Tcpspec Tcpnet.
Open Scope Z_scope.

(** Random bytes come from elsewhere than the connections. *)
Class OsRandomLaws (K : Type) `{OsLawsK : OsLaws K} `{!OsRandom K} :=
  os_law_random : ∀ n k r k', 0 ≤ n → os_random n k = (r, k') →
    (∀ fd, os_in fd k' = os_in fd k ∧ os_out fd k' = os_out fd k ∧
       os_infail fd k' = os_infail fd k ∧ os_outfail fd k' = os_outfail fd k) ∧ (∀ bs, r = Some bs → len bs = n).

Lemma tcp_random_ok {K} `{LawsK : OsLaws K} `{!OsRandom K} `{!OsRandomLaws K} conns : random_ok (N := tcpnet K conns).
Proof.
  intros k s Hk. cbn [net_random tcp_net]. destruct (os_random k (fn_os (fds (io_net s)))) as [o k'] eqn:E.
  destruct (os_law_random _ _ _ _ Hk E) as [Hio Ho]. set (s0 := with_sys (fds (io_net s)) s).
  set (n' := mk_fdnet k' (fn_count (fds (io_net s))) (fn_cache (fds (io_net s))) (fn_budget (fds (io_net s))) (fn_objs (fds (io_net s)))).
  assert (Es : sys (os_random k) s0 = Some (o, set_io_net n' s0)) by (unfold sys; cbn; by rewrite E).
  destruct (call_done (sys (os_random k)) o s (set_io_net n' s0) Es) as (nt & Hnt & Ec); [done| |].
  { pose proof (proj2_sig (io_net s)) as Hi. apply Is_true_true, forallb_forall. intros q Hq. apply list_elem_of_In in Hq.
    destruct (all_idle_conn conns _ q Hi Hq) as (x & Ex & Hx). change (fn_objs (io_net (set_io_net n' s0))) with (fn_objs (fds (io_net s))).
    unfold fds. rewrite Ex. apply bool_decide_eq_true_2. revert Hx. unfold resting, fd_infail, fd_outfail. cbn.
    by destruct (Hio (tc_fd x)) as (_ & _ & -> & ->). }
  exists o, nt, (io_errno s). split; [rewrite Ec; by destruct s|]. split; [|done].
  assert (Hobjs : fn_objs (fds nt) = fn_objs (fds (io_net s))) by by rewrite Hnt.
  assert (Hos : fn_os (fds nt) = k') by by rewrite Hnt.
  intros m. cbn [net_in net_out tcp_net_laws]. unfold tcp_in, tcp_out. rewrite Hobjs, Hos.
  destruct (fn_objs (fds (io_net s)) !! m) as [[x| | | |]|]; try done. by destruct (Hio (tc_fd x)) as (-> & -> & _).
Qed.

Section Over.
Context {K1 : Type} `{LawsK1 : OsLaws K1} `{!OsRandom K1} `{!OsRandomLaws K1} (conns1 : list Z).
Context {K2 : Type} `{LawsK2 : OsLaws K2} `{!OsRandom K2} (conns2 : list Z).
Context (close1 : sobj → IO (tcpnet K1 conns1) unit) (close2 : sobj → IO (tcpnet K2 conns2) unit) (le : bool).

(** C23. A message over a WebSocket over TCP, in either direction.  One side, [x], sends the text or
    binary message [bs] from a list of buffers over its TCP connection [p]; the other side, [y], a
    server if [x] is a client and conversely, receives over its connection [q], on systems of any
    behaviour.  A client sends at most 65535 bytes (its header overflows for more), and the other
    side receives into a list of one buffer.  Both calls return.  The first returns 0, or -1 because
    the system has reported a failure of the sending connection or has no random bytes.  What it
    puts on the wire when it returns 0 is one frame of RFC 6455, masked by a client with some random
    mask.  If what arrives at [q] starts with what left through [p] during the call, then the other
    gets the message as it was, its size and its kind, and what follows stays in the stream; unless
    the system has reported a failure of the receiving connection (its end, an error, a deadline)
    or there was no memory for its buffer: only then the result is -1. *)
Theorem ws_over_tcp_delivers xs x type p first1 lst1 l1 d1 (s : io (tcpnet K1 conns1)) bs
    ys y fuel q b buf blen d2 (r : io (tcpnet K2 conns2)) :
  wf_io s → io_wss s !! xs = Some x → ws_outdone x = false → answers (ws_u x) dill_bsock_type p s → p ∈ conns1 →
  closed (io_nodes s) → valid (io_nodes s) first1 lst1 l1 → l1 ≠ [] →
  gather (io_mem s) (flat (io_nodes s) l1) = Some bs → ws_server x = true ∨ len bs ≤ 65535 → type = 1 ∨ type = 2 →
  wf_io r → closed (io_nodes r) → io_wss r !! ys = Some y → ws_indone y = false → ws_server y = negb (ws_server x) →
  answers (ws_u y) dill_bsock_type q r → q ∈ conns2 → io_nodes r !! b = Some (mk_iolist buf blen NULL 0) →
  0 < buf → len bs ≤ blen → len bs < 2 ^ 63 → allocated (io_mem r) (arr buf (len bs)) →
  wp (dill_ws_sendl_base close1 xs type first1 lst1 d1) (λ rc s', ws_sent p (ws_server x) type bs s rc s' ∧
    (rc = 0 → ∀ wire rest, tcp_out (io_net s') p = tcp_out (io_net s) p ++ wire → tcp_in (io_net r) q = wire ++ rest →
      wp (dill_ws_recvl_base close2 le (S fuel) ys b b d2) (ws_received q buf type bs rest r) r)) s.
Proof.
  intros Hs Hx Hxo Ha Hp Hc1 Hv1 Hne Hg Hfit Hty Hr Hc2 Hy Hyi Hside Ha2 Hq Hb Hbuf Hlen Hlen2 Hal.
  eapply wp_mono; [apply (ws_sends_frame close1 xs type first1 lst1 d1 s x l1 bs p); try done|].
  { by apply bool_decide_eq_true_2. }
  { apply tcp_random_ok. }
  { by eapply wf_sized. }
  { lia. }
  intros rc s' Hsent. split; [done|]. intros -> wire rest Hwire Hin.
  destruct Hsent as [(_ & mask & Hm & S)|[[=] _]]. pose proof (st_out _ _ _ _ _ S) as Hout.
  change (tcp_out (io_net s') p = _) with (net_out (io_net s') p = net_out (io_net s) p ++ wire) in Hwire.
  rewrite Hout in Hwire. apply app_inv_head in Hwire as <-.
  assert (∃ mask', len mask' = 4 ∧ frame (ws_server x) mask type bs = frame (ws_server x) mask' type bs) as (mask' & Hm' & Ef).
  { destruct (ws_server x); [exists [0; 0; 0; 0]|exists mask; auto]. done. }
  apply (wp_ws_recv close2 le fuel ys b buf blen type mask' bs rest d2 r y q); try done.
  - by apply bool_decide_eq_true_2.
  - pose proof (wi_nodes _ Hr b ltac:(by eexists)). unfold NULL. lia.
  - split; [done|]. apply (wi_types _ Hr _ _ Hb).
  - rewrite Hside, negb_involutive, <- Ef. exact Hin.
Qed.
End Over.

(** * An example: a client sends seven bytes from two buffers, a server receives them in pieces. *)

#[export] Instance pipe_random_laws : OsRandomLaws pipe.
Proof.
  intros n k r k' Hn [= <- <-]. split; [done|]. intros bs [= <-]. unfold len. rewrite repeat_length. lia.
Qed.

Definition over_ws (server : bool) (nodes : gmap Z iolist) (t : tcpnet pipe [50]) (bs : list (Z * Z)) : io (tcpnet pipe [50]) :=
  set_io_wss {[60 := demo_ws server]}
    (mk_io E0 nodes (list_to_map bs ∪ zeros 1000 100) 2000 5
      (handles_of (N := tcpnet pipe [50]) [ONet 50; OWs 60]) false false ∅ ∅ ∅ ∅ ∅ t).

Definition over_client : io (tcpnet pipe [50]) :=
  over_ws false Tcpspec.demo_list (exist _ (over_net (mk_pipe [] [] [] 2 9) []) I) over_bytes.
Definition over_server : io (tcpnet pipe [50]) :=
  over_ws true {[10 := mk_iolist 1000 16 NULL 0]}
    (exist _ (over_net (mk_pipe [135; 7; 7; 7] [[7; 6; 5]; [4; 3; 2; 1; 0; 9]] [] 0 9) [130]) I) [].

Lemma over_ws_answers server h t bs : answers 0 dill_bsock_type 50 (over_ws server h t bs).
Proof. by apply (demo_answers [ONet 50; OWs 60]). Qed.

Lemma over_closed : closed Tcpspec.demo_list ∧ closed {[10 := mk_iolist 1000 16 NULL 0]}.
Proof.
  split; (split; [done|]); intros p f Hf.
  - apply elem_of_list_to_map_2 in Hf. apply elem_of_cons in Hf as [[= -> ->]|Hf]; [right; by eexists|].
    apply list_elem_of_singleton in Hf as [= -> ->]. by left.
  - apply lookup_singleton_Some in Hf as [_ <-]. by left.
Qed.

Lemma ws_over_tcp_delivers_witness :
  (λ r, (r.1, tcp_out (io_net r.2) 50)) <$> dill_ws_sendl_base over_close 60 2 7 8 (-1) over_client =
    Some (0, [130; 135; 7; 7; 7; 7; 6; 5; 4; 3; 2; 1; 0]) ∧
  (λ r, (r.1, tcp_in (io_net r.2) 50, gather (io_mem r.2) (arr 1000 7))) <$>
    dill_ws_recvl_base over_close true 2 60 10 10 (-1) over_server = Some (7, Some (flags_of 2), [9], Some [1; 2; 3; 4; 5; 6; 7]) ∧
  wp (dill_ws_sendl_base over_close 60 2 7 8 (-1)) (λ rc s', ws_sent 50 false 2 [1; 2; 3; 4; 5; 6; 7] over_client rc s' ∧
    (rc = 0 → ∀ wire rest, tcp_out (io_net s') 50 = tcp_out (io_net over_client) 50 ++ wire →
      tcp_in (io_net over_server) 50 = wire ++ rest →
      wp (dill_ws_recvl_base over_close true 2 60 10 10 (-1))
        (ws_received 50 1000 2 [1; 2; 3; 4; 5; 6; 7] rest over_server) over_server)) over_client.
Proof.
  split; [vm_compute; reflexivity|]. split; [vm_compute; reflexivity|].
  apply (ws_over_tcp_delivers [50] [50] over_close over_close true 60 (demo_ws false) 2 50 7 8 ([7] ++ [8]) (-1) over_client
    [1; 2; 3; 4; 5; 6; 7] 60 (demo_ws true) 1 50 10 1000 16 (-1) over_server).
  - apply wf_io_b_sound. vm_compute. reflexivity.
  - reflexivity.
  - reflexivity.
  - apply over_ws_answers.
  - by apply list_elem_of_singleton.
  - apply over_closed.
  - exact over_valid.
  - done.
  - vm_compute. reflexivity.
  - right. by vm_compute.
  - by right.
  - apply wf_io_b_sound. vm_compute. reflexivity.
  - apply over_closed.
  - reflexivity.
  - reflexivity.
  - reflexivity.
  - apply over_ws_answers.
  - by apply list_elem_of_singleton.
  - reflexivity.
  - lia.
  - by vm_compute.
  - by vm_compute.
  - assert (E : ∃ bs, gather (io_mem over_server) (arr 1000 7) = Some bs) by (eexists; vm_compute; reflexivity).
    destruct E as [bs E]. exact (proj1 (gather_some _ _ _ E)).
Defined.
