(* ===== verification/Socks5.v ===== *)
(** The SOCKS5 protocol ([socks5.c]): client and proxy, over a bytestream socket. *)

From Stdlib Require Import ZArith Lia.
From stdpp Require Import base gmap list.
From S2P Require Import Prelude Bytes Handle Iol Sock Loop Prefix Suffix Term Http Ipaddr.
Open Scope Z_scope.

Definition RFC1928_VER : Z := 5.
Definition S5METH_NOAUTHREQ : Z := 0.
Definition S5METH_USERPASS : Z := 2.
Definition S5METH_NOMETHOD : Z := 0xff.
Definition RFC1929_VER : Z := 1.
Definition S5AUTH_SUCCESS : Z := 0.
Definition S5AUTH_FAIL : Z := 0xff.
Definition S5ADDR_IPV4 : Z := 1.
Definition S5ADDR_IPV6 : Z := 4.
Definition S5ADDR_NAME : Z := 3.
Definition DILL_SOCKS5_CONNECT : Z := 1.
Definition DILL_SOCKS5_UDP_ASSOCIATE : Z := 3.
Definition ENETUNREACH : errno_t := EOTHER 101.
Definition EHOSTUNREACH : errno_t := EOTHER 113.
Definition ECONNREFUSED : errno_t := EOTHER 111.
Definition EOPNOTSUPP : errno_t := EOTHER 95.
Definition EAFNOSUPPORT : errno_t := EOTHER 97.

(** ["127.0.0.1"], ["::1"] *)
Definition LOCALHOST4 : list Z := [49; 50; 55; 46; 48; 46; 48; 46; 49].
Definition LOCALHOST6 : list Z := [58; 58; 49].

(** [_socks5_addr]: [s5_addr] is the part of the array [addr] that is set, of [s5_alen]
    bytes and for a name the terminator. *)
Record socks5_addr := mk_s5addr { s5_atyp : Z; s5_addr : list Z; s5_port : Z }.

(** [port >> 8], [port & 0xff] *)
Definition port_bytes (port : Z) : list Z := [u8 (Z.shiftr port 8); u8 (Z.land port 0xff)].

Section Socks5.
Context {N : Type} `{NetN : Net N} `{ResolverN : Resolver N}.
Context (close : sobj → IO N unit).
(** The endianness of the machine; the number of calls of the resolver in a query. *)
Context (le : bool) (fuel : nat).

Definition load1 (p : ptr) : IO N Z := bs ← load p 1; mret (nth 0 bs 0).

(** [if(dill_slow(!dill_hquery(s, dill_bsock_type))) return -1;] *)
Definition check_bsock (s : Z) (k : IO N Z) : IO N Z :=
  q ← hquery close s dill_bsock_type;
  if q =? NULL then mret (-1) else k.

(** [strlen(p) > 255], for a string that may be missing *)
Definition over_255 (p : ptr) : IO N bool :=
  if p =? NULL then mret false else s ← cstring p; mret (255 <? len s).

(** * The client *)

Definition s5_userpass (s : Z) (username password : ptr) (deadline : Z) : IO N Z :=
  assert_ (negb (username =? NULL));;
  assert_ (negb (password =? NULL));;
  with_buf 513 (λ upauth,
    u ← cstring username;
    p ← cstring password;
    store upauth [RFC1929_VER; u8 (len u)];;
    store (upauth + 2) (u ++ [0]);;
    store (upauth + (2 + u8 (len u))) [u8 (len p)];;
    (** the terminator of the password is the 514th byte when both have 255 *)
    store (upauth + (3 + u8 (len u))) (p ++ [0]);;
    err ← dill_bsend close s upauth (3 + u8 (len u) + u8 (len p)) deadline;
    if negb (err =? 0) then mret (-1)
    else
      with_buf 2 (λ upauthr,
        err ← dill_brecv close s upauthr 2 deadline;
        if negb (err =? 0) then mret (-1)
        else
          v ← load1 upauthr;
          r ← load1 (upauthr + 1);
          if negb (v =? RFC1929_VER) then fail EPROTO
          else if negb (r =? S5AUTH_SUCCESS) then fail EACCES
          else mret 0)).

Definition s5_client_auth (s : Z) (username password : ptr) (deadline : Z) : IO N Z :=
  check_bsock s (
    u ← over_255 username;
    if u : bool then fail EINVAL
    else
      p ← over_255 password;
      if p : bool then fail EINVAL
      else
        let vims :=
          if (username =? NULL) || (password =? NULL) then [RFC1928_VER; 1; S5METH_NOAUTHREQ]
          else [RFC1928_VER; 2; S5METH_NOAUTHREQ; S5METH_USERPASS] in
        with_buf 4 (λ buf,
          store buf vims;;
          err ← dill_bsend close s buf (len vims) deadline;
          if negb (err =? 0) then mret (-1)
          else
            with_buf 2 (λ vimr,
              err ← dill_brecv close s vimr 2 deadline;
              if negb (err =? 0) then mret (-1)
              else
                v ← load1 vimr;
                m ← load1 (vimr + 1);
                if negb (v =? RFC1928_VER) then fail EPROTO
                else if m =? S5METH_NOAUTHREQ then mret 0
                else if m =? S5METH_USERPASS then s5_userpass s username password deadline
                else if m =? 0xff then fail EACCES
                else crash))).

(** A request or a response, into the array [conn] of 262 bytes. *)
Definition s5_recv_command_request_response (s : Z) (conn : ptr) (deadline : Z) : IO N Z :=
  err ← dill_brecv close s conn 4 deadline;
  if negb (err =? 0) then mret (-1)
  else
    v ← load1 conn;
    rsv ← load1 (conn + 2);
    atyp ← load1 (conn + 3);
    if negb (v =? RFC1928_VER) then fail EPROTO
    else if negb (rsv =? 0) then fail EPROTO
    else if atyp =? S5ADDR_IPV4 then
      err ← dill_brecv close s (conn + 4) 6 deadline;
      if negb (err =? 0) then mret (-1) else mret 0
    else if atyp =? S5ADDR_IPV6 then
      err ← dill_brecv close s (conn + 4) 18 deadline;
      if negb (err =? 0) then mret (-1) else mret 0
    else if atyp =? S5ADDR_NAME then
      err ← dill_brecv close s (conn + 4) 1 deadline;
      if negb (err =? 0) then mret (-1)
      else
        n ← load1 (conn + 4);
        err ← dill_brecv close s (conn + 5) (n + 2) deadline;
        if negb (err =? 0) then mret (-1) else mret 0
    else fail EPROTO.

(** The switch over the reply code: [None] for success. *)
Definition reply_errno (rep : Z) : option errno_t :=
  if rep =? 0 then None
  else Some (
    if rep =? 1 then EIO
    else if rep =? 2 then EACCES
    else if rep =? 3 then ENETUNREACH
    else if rep =? 4 then EHOSTUNREACH
    else if rep =? 5 then ECONNREFUSED
    else if rep =? 6 then ETIMEDOUT
    else if rep =? 7 then EOPNOTSUPP
    else if rep =? 8 then EAFNOSUPPORT
    else EPROTO).

Definition s5_handle_connection_response (s : Z) (deadline : Z) : IO N Z :=
  check_bsock s (with_buf 262 (λ conn,
    err ← s5_recv_command_request_response s conn deadline;
    if negb (err =? 0) then mret (-1)
    else
      rep ← load1 (conn + 1);
      match reply_errno rep with
      | None => mret 0
      | Some e => fail e
      end)).

(** The type and the address of a request for a host: an address literal, or a name
    with its length. *)
Definition host_address (host : list Z) : Z * list Z :=
  match inet_pton AF_INET host with
  | Some ina4 => (S5ADDR_IPV4, ina4)
  | None =>
    match inet_pton AF_INET6 host with
    | Some ina6 => (S5ADDR_IPV6, ina6)
    | None => (S5ADDR_NAME, u8 (len host) :: host)
    end
  end.

Definition s5_client_connectbyname (s : Z) (hostname : ptr) (port deadline : Z) : IO N Z :=
  check_bsock s (
    if hostname =? NULL then fail EINVAL
    else
      host ← cstring hostname;
      if 255 <? len host then fail EINVAL
      else if (port <=? 0) || (65535 <? port) then fail EINVAL
      else
        with_buf 262 (λ conn,
          let '(atyp, addr) := host_address host in
          let msg := [RFC1928_VER; DILL_SOCKS5_CONNECT; 0; atyp] ++ addr ++ port_bytes port in
          store conn msg;;
          err ← dill_bsend close s conn (len msg) deadline;
          if negb (err =? 0) then mret (-1)
          else s5_handle_connection_response s deadline)).

(** * Addresses *)

(** The result of a family that is neither leaves [errno] as it was. *)
Definition s5_ipaddr_to_s5addr (addr : ptr) : IO N (option socks5_addr) :=
  f ← dill_ipaddr_family le addr;
  if f =? AF_INET then
    port ← dill_ipaddr_port addr;
    bs ← load (sin_addr addr) 4;
    mret (Some (mk_s5addr S5ADDR_IPV4 bs port))
  else if f =? AF_INET6 then
    port ← dill_ipaddr_port addr;
    bs ← load (sin6_addr addr) 16;
    mret (Some (mk_s5addr S5ADDR_IPV6 bs port))
  else mret None.

Definition s5_s5addr_to_ipaddr (addr : ptr) (s5 : socks5_addr) (deadline : Z) : IO N Z :=
  if (s5_port s5 <? 0) || (65535 <? s5_port s5) then fail EINVAL
  else if s5_atyp s5 =? S5ADDR_IPV4 then
    err ← with_bytes (LOCALHOST4 ++ [0]) (λ name, dill_ipaddr_remote le fuel addr name (s5_port s5) DILL_IPADDR_IPV4 deadline);
    if negb (err =? 0) then mret (-1) else store (sin_addr addr) (s5_addr s5);; mret 0
  else if s5_atyp s5 =? S5ADDR_IPV6 then
    err ← with_bytes (LOCALHOST6 ++ [0]) (λ name, dill_ipaddr_remote le fuel addr name (s5_port s5) DILL_IPADDR_IPV6 deadline);
    if negb (err =? 0) then mret (-1) else store (sin6_addr addr) (s5_addr s5);; mret 0
  else if s5_atyp s5 =? S5ADDR_NAME then
    err ← with_bytes (s5_addr s5) (λ name, dill_ipaddr_remote le fuel addr name (s5_port s5) DILL_IPADDR_PREF_IPV4 deadline);
    if negb (err =? 0) then mret (-1) else mret 0
  else mret 0.

Definition s5_client_connect (s : Z) (ipaddr : ptr) (deadline : Z) : IO N Z :=
  check_bsock s (
    if ipaddr =? NULL then fail EINVAL
    else
      with_buf 262 (λ conn,
        o ← s5_ipaddr_to_s5addr ipaddr;
        match o with
        | None => mret (-1)
        | Some a =>
          let msg := [RFC1928_VER; DILL_SOCKS5_CONNECT; 0; s5_atyp a] ++ s5_addr a ++ port_bytes (s5_port a) in
          store conn msg;;
          err ← dill_bsend close s conn (len msg) deadline;
          if negb (err =? 0) then mret (-1) else s5_handle_connection_response s deadline
        end)).

Definition dill_socks5_client_connect (s : Z) (username password addr : ptr) (deadline : Z) : IO N Z :=
  err ← s5_client_auth s username password deadline;
  if err <? 0 then mret (-1)
  else
    err ← s5_client_connect s addr deadline;
    if negb (err =? 0) then mret (-1) else mret 0.

Definition dill_socks5_client_connectbyname (s : Z) (username password hostname : ptr) (port deadline : Z) : IO N Z :=
  err ← s5_client_auth s username password deadline;
  if err <? 0 then mret (-1)
  else
    err ← s5_client_connectbyname s hostname port deadline;
    if negb (err =? 0) then mret (-1) else mret 0.

(** * The proxy *)

(** An answer of two bytes. *)
Definition send2 (s a b deadline : Z) : IO N Z :=
  with_bytes [a; b] (λ resp, dill_bsend close s resp 2 deadline).

(** The user name and password of a client, in the array [authr] of 514 bytes: the
    lengths, or [None] for -1. *)
Definition recv_userpass (s : Z) (authr : ptr) (deadline : Z) : IO N (option (Z * Z)) :=
  err ← dill_brecv close s authr 2 deadline;
  if negb (err =? 0) then mret None
  else
    v ← load1 authr;
    if negb (v =? RFC1929_VER) then set_errno EPROTO;; mret None
    else
      ulen ← load1 (authr + 1);
      err ← dill_brecv close s (authr + 2) ulen deadline;
      if negb (err =? 0) then mret None
      else
        err ← dill_brecv close s (authr + (2 + ulen)) 1 deadline;
        if negb (err =? 0) then mret None
        else
          plen ← load1 (authr + (2 + ulen));
          err ← dill_brecv close s (authr + (3 + ulen)) plen deadline;
          if negb (err =? 0) then mret None
          else
            store (authr + (2 + ulen)) [0];;
            store (authr + (3 + ulen + plen)) [0];;
            mret (Some (ulen, plen)).

(** [auth_fn] is the callback, if there is one. *)
Definition dill_socks5_proxy_auth (s : Z) (auth_fn : option (ptr → ptr → IO N Z)) (deadline : Z) : IO N Z :=
  check_bsock s (with_buf 257 (λ vims,
    err ← dill_brecv close s vims 2 deadline;
    if negb (err =? 0) then mret (-1)
    else
      v ← load1 vims;
      n ← load1 (vims + 1);
      if negb (v =? RFC1928_VER) then fail EPROTO
      else
        err ← dill_brecv close s (vims + 2) n deadline;
        if negb (err =? 0) then mret (-1)
        else
          ms ← load (vims + 2) n;
          let req_na := existsb (Z.eqb S5METH_NOAUTHREQ) ms in
          let req_up := existsb (Z.eqb S5METH_USERPASS) ms in
          match auth_fn with
          | None =>
            if req_na then
              err ← send2 s RFC1928_VER S5METH_NOAUTHREQ deadline;
              if negb (err =? 0) then mret (-1) else mret 0
            else send2 s RFC1928_VER S5METH_NOMETHOD deadline;; mret (-1)
          | Some auth_fn =>
            if req_up then
              err ← send2 s RFC1928_VER S5METH_USERPASS deadline;
              if negb (err =? 0) then mret (-1)
              else
                with_buf 514 (λ authr,
                  o ← recv_userpass s authr deadline;
                  match o with
                  | None => mret (-1)
                  | Some (ulen, _) =>
                    ok ← auth_fn (authr + 2) (authr + (3 + ulen));
                    if negb (ok =? 0) then
                      err ← send2 s RFC1929_VER S5AUTH_SUCCESS deadline;
                      if negb (err =? 0) then mret (-1) else mret 0
                    else send2 s RFC1929_VER S5AUTH_FAIL deadline;; mret (-1)
                  end)
            else send2 s RFC1928_VER S5METH_NOMETHOD deadline;; mret (-1)
          end)).

Definition bad_command (c : Z) : bool := (c <? DILL_SOCKS5_CONNECT) || (DILL_SOCKS5_UDP_ASSOCIATE <? c).

Definition dill_socks5_proxy_recvcommand (s : Z) (ipaddr : ptr) (deadline : Z) : IO N Z :=
  with_buf 262 (λ conn,
    err ← s5_recv_command_request_response s conn deadline;
    if negb (err =? 0) then mret (-1)
    else
      cmd ← load1 (conn + 1);
      if bad_command cmd then fail EPROTO
      else
        atyp ← load1 (conn + 3);
        n ← load1 (conn + 4);
        '(addr, port) ←
          (if atyp =? S5ADDR_IPV4 then a ← load (conn + 4) 4; mret (a, conn + (4 + 4))
           else if atyp =? S5ADDR_IPV6 then a ← load (conn + 4) 16; mret (a, conn + (4 + 16))
           else if atyp =? S5ADDR_NAME then a ← load (conn + 5) n; mret (a ++ [0], conn + (4 + 1 + n))
           else crash);
        p ← load port 2;
        err ← s5_s5addr_to_ipaddr ipaddr (mk_s5addr atyp addr (dill_gets p)) deadline;
        if negb (err =? 0) then mret (-1) else mret cmd).

(** The result, and the value of [*port] if it was set. *)
Definition dill_socks5_proxy_recvcommandbyname (s : Z) (host : ptr) (deadline : Z) : IO N (Z * option Z) :=
  with_buf 262 (λ conn,
    err ← s5_recv_command_request_response s conn deadline;
    if negb (err =? 0) then mret (-1, None)
    else
      cmd ← load1 (conn + 1);
      if bad_command cmd then rc ← fail EPROTO; mret (rc, None)
      else
        atyp ← load1 (conn + 3);
        n ← load1 (conn + 4);
        s5port ←
          (if atyp =? S5ADDR_IPV4 then
             a ← load (conn + 4) 4; ntop AF_INET a host 256;; mret (conn + (4 + 4))
           else if atyp =? S5ADDR_IPV6 then
             a ← load (conn + 4) 16; ntop AF_INET6 a host 256;; mret (conn + (4 + 16))
           else if atyp =? S5ADDR_NAME then
             a ← load (conn + 5) n; store host (a ++ [0]);; mret (conn + (4 + 1 + n))
           else crash);
        p ← load s5port 2;
        mret (cmd, Some (dill_gets p))).

Definition dill_socks5_proxy_sendreply (s reply : Z) (ipaddr : ptr) (deadline : Z) : IO N Z :=
  if (reply <? 0) || (8 <? reply) then fail EINVAL
  else
    o ← s5_ipaddr_to_s5addr ipaddr;
    match o with
    | None => mret (-1)
    | Some a =>
      with_buf 262 (λ conn,
        let msg := [RFC1928_VER; u8 reply; 0; s5_atyp a] ++ s5_addr a ++ port_bytes (s5_port a) in
        store conn msg;;
        err ← dill_bsend close s conn (len msg) deadline;
        if negb (err =? 0) then mret (-1) else mret 0)
    end.
End Socks5.
