(* ===== verification/Socks5spec.v ===== *)
(** Theorems about SOCKS5: the messages of the client and the proxy. *)

From Stdlib Require Import ZArith Lia.
From stdpp Require Import base gmap list.
From S2P Require Import Prelude Bytes Handle Iol Sock Loop Prefix Suffix Term Http Httpspec Stream Ipaddr Ipaddrspec Socks5.
Open Scope Z_scope.

(** * Requests and replies, as data *)

(** The address in a message: an IPv4 or IPv6 address, or a name. *)
Inductive target := T4 (a : list Z) | T6 (a : list Z) | TName (h : list Z).

Definition target_ok (t : target) : Prop :=
  match t with T4 a => len a = 4 | T6 a => len a = 16 | TName h => len h ≤ 255 end.

(** The layout of RFC 1928, with its numbers *)
Definition target_bytes (t : target) : list Z :=
  match t with
  | T4 a => 1 :: a
  | T6 a => 4 :: a
  | TName h => 3 :: len h :: h
  end.

(** A port in network byte order *)
Definition port_be (port : Z) : list Z := [port / 256; port mod 256].

Lemma port_bytes_puts port : port_bytes port = dill_puts port.
Proof.
  unfold port_bytes, dill_puts. f_equal. unfold u8. change 255 with (Z.ones 8). rewrite Z.land_ones by lia.
  by rewrite Zmod_mod.
Qed.

Lemma port_bytes_be port : 0 ≤ port ≤ 65535 → port_bytes port = port_be port.
Proof.
  intros Hp. unfold port_bytes, port_be, u8. rewrite Z.shiftr_div_pow2 by lia. change (2 ^ 8) with 256.
  rewrite (Z.mod_small (port / 256)).
  - change 255 with (Z.ones 8). rewrite Z.land_ones by lia. change (2 ^ 8) with 256. by rewrite Zmod_mod.
  - split; [apply Z.div_pos; lia|apply Z.div_lt_upper_bound; lia].
Qed.

(** [c] is the command of a request, or the code of a reply. *)
Definition message (c : Z) (t : target) (port : Z) : list Z := [5; c; 0] ++ target_bytes t ++ port_be port.

(** The [errno] of a reply that is not success, with the numbers of the system *)
Definition reply_table : list (Z * errno_t) :=
  [(1, EIO); (2, EACCES); (3, EOTHER 101); (4, EOTHER 113); (5, EOTHER 111); (6, ETIMEDOUT); (7, EOTHER 95); (8, EOTHER 97)].
Definition reply_error (rep : Z) : errno_t := default EPROTO (snd <$> find (λ p, p.1 =? rep) reply_table).

Lemma reply_errno_table rep : reply_errno rep = if rep =? 0 then None else Some (reply_error rep).
Proof.
  unfold reply_errno, reply_error, reply_table. cbn [find fst]. rewrite !(Z.eqb_sym _ rep).
  by repeat destruct (rep =? _).
Qed.

(** The commands of RFC 1928: CONNECT, BIND and UDP ASSOCIATE *)
Definition is_command (c : Z) : Prop := c = 1 ∨ c = 2 ∨ c = 3.

Lemma bad_command_iff c : bad_command c = false ↔ is_command c.
Proof.
  unfold bad_command, DILL_SOCKS5_CONNECT, DILL_SOCKS5_UDP_ASSOCIATE, is_command. rewrite orb_false_iff, !Z.ltb_ge. lia.
Qed.

Lemma len_app (x y : list Z) : len (x ++ y) = len x + len y.
Proof. unfold len. rewrite length_app. lia. Qed.
Lemma len_cons b (x : list Z) : len (b :: x) = 1 + len x.
Proof. unfold len. cbn. lia. Qed.
Lemma len_nil : len [] = 0.
Proof. done. Qed.
Lemma len_nonneg x : 0 ≤ len x.
Proof. unfold len. lia. Qed.
Ltac lens := repeat rewrite ?len_app, ?len_cons, ?len_nil in *; repeat match goal with
  | |- context [len ?x] => lazymatch goal with H : 0 ≤ len x |- _ => fail | _ => pose proof (len_nonneg x) end
  | _ : context [len ?x] |- _ => lazymatch goal with H : 0 ≤ len x |- _ => fail | _ => pose proof (len_nonneg x) end end; try lia.

Lemma app_cut (bs rest x y : list Z) : x ++ y = bs ++ rest → len bs = len x → bs = x ∧ rest = y.
Proof. intros E L. unfold len in L. symmetry in E. apply app_inj_1 in E; [done|lia]. Qed.

Lemma len_message c t port : target_ok t → len (message c t port) ≤ 262.
Proof.
  intros Ht. unfold message. destruct t; cbn [target_bytes target_ok] in *; lens; change (len (port_be port)) with 2; lia.
Qed.

Section Messages.
Context {N : Type} `{LawsN : NetLaws N} `{ResolverN : Resolver N}.
Context (close : sobj → IO N unit) (u n : Z) (Hbs : net_bytestream n = true).

(** The bytestream has failed. *)
Definition failed (s : io N) : Prop := net_infail (io_net s) n ∨ net_outfail (io_net s) n.

Lemma wp_check_bsock s k (Q : Z → io N → Prop) :
  wf_io s → answers u dill_bsock_type n s →
  (∀ s', stepped n (net_in (io_net s) n) (net_out (io_net s) n) s s' → wp k Q s') → wp (check_bsock close u k) Q s.
Proof.
  intros Hwf Ha HQ. destruct (hquery_answers close u dill_bsock_type n s Ha) as (c & E & Hk).
  destruct Ha as (_ & _ & _ & _ & _ & Hp). unfold wp, check_bsock. erewrite IO_bind_done by exact E.
  rewrite (proj2 (Z.eqb_neq _ _) Hp). apply HQ. split; try done.
  - destruct Hwf. by split.
  - exists c, (io_next s), (io_mem s), (io_net s), (io_errno s). split; [by destruct s|lia].
Qed.

Lemma wp_load1_inside a sz s0 pre inp out p i v s (Q : Z → io N → Prop) :
  inside n a sz s0 pre inp out s → p = a + i → 0 ≤ i → pre !! Z.to_nat i = Some v → Q v s → wp (load1 p) Q s.
Proof.
  intros Hin Hp Hi Hv HQ. pose proof (lookup_lt_Some _ _ _ Hv) as Hlt. apply wp_bind.
  apply (wp_load_inside n a sz s0 pre inp out _ i); [done|done|done|lia|unfold len; lia|].
  apply wp_ret. change (Z.to_nat 1) with 1%nat. rewrite (drop_S _ _ _ Hv). done.
Qed.

Lemma wp_load1_any a sz s0 pre inp out p i s (Q : Z → io N → Prop) :
  inside n a sz s0 pre inp out s → p = a + i → 0 ≤ i < len pre → (∀ v, pre !! Z.to_nat i = Some v → Q v s) → wp (load1 p) Q s.
Proof.
  intros Hin Hp Hi HQ. destruct (lookup_lt_is_Some_2 pre (Z.to_nat i)) as [v Hv]; [unfold len in *; lia|].
  eapply wp_load1_inside; [done|done|lia|done|by apply HQ].
Qed.

Ltac load1 i H := apply wp_bind; eapply (wp_load1_inside _ _ _ _ _ _ _ i); [exact H|lia|lia|reflexivity|].

(** Receiving a message. *)
Lemma wp_recv_message a s0 c t port rest out d s (Q : Z → io N → Prop) :
  answers u dill_bsock_type n s0 → target_ok t → inside n a 262 s0 [] (message c t port ++ rest) out s →
  (∀ s', inside n a 262 s0 (message c t port) rest out s' → Q 0 s') →
  (∀ pre inp' s', inside n a 262 s0 pre inp' out s' → net_infail (io_net s') n → Q (-1) s') →
  wp (s5_recv_command_request_response close u a d) Q s.
Proof.
  intros Hans Ht Hin H1 H2. unfold s5_recv_command_request_response.
  set (t4 := match t with T4 _ => S5ADDR_IPV4 | T6 _ => S5ADDR_IPV6 | TName _ => S5ADDR_NAME end).
  set (tl := match t with T4 x => x | T6 x => x | TName h => len h :: h end).
  assert (Em : message c t port = [RFC1928_VER; c; 0; t4] ++ tl ++ port_be port) by (by destruct t).
  apply wp_bind; eapply (wp_recv_inside close u n Hbs); [exact Hans|exact Hin|..]; [lens|lia|lens| |].
  2: { intros i s' Hs' F. apply wp_ret. by eapply H2. }
  intros bs rest1 s1 E Hl Hs1. rewrite Em, <- !app_assoc in E.
  apply (app_cut bs rest1 [RFC1928_VER; c; 0; t4]) in E as [-> ->]; [|done]. cbn [Z.eqb negb]. change (0 =? 0) with true. cbn [negb].
  load1 0 Hs1.
  load1 2 Hs1.
  load1 3 Hs1.
  change (RFC1928_VER =? RFC1928_VER) with true. change (0 =? 0) with true. cbn [negb].
  rewrite Em in H1.
  assert (Hfix : ∀ k, k = len tl + 2 → t4 ≠ S5ADDR_NAME →
    wp (err ← dill_brecv close u (a + 4) k d; if negb (err =? 0) then mret (-1) else mret 0) Q s1).
  { intros k Hk _. apply wp_bind; eapply (wp_recv_inside close u n Hbs); [exact Hans|exact Hs1|..]; [done| | | |].
    - destruct t; cbn in Ht, tl; subst tl; lens.
    - destruct t; cbn in Ht, tl; subst tl; lens.
    - intros bs rest2 s2 E Hl2 Hs2. rewrite app_assoc in E. apply app_cut in E as [-> ->]; [|rewrite len_app; by rewrite Hl2].
      apply wp_ret. by apply H1.
    - intros i s' Hs' F. apply wp_ret. by eapply H2. }
  destruct t as [x|x|h]; cbn in Ht; subst t4 tl; cbv iota.
  - change (S5ADDR_IPV4 =? S5ADDR_IPV4) with true. cbv iota. apply Hfix; [lia|done].
  - change (S5ADDR_IPV6 =? S5ADDR_IPV4) with false. change (S5ADDR_IPV6 =? S5ADDR_IPV6) with true. cbv iota. apply Hfix; [lia|done].
  - change (S5ADDR_NAME =? S5ADDR_IPV4) with false. change (S5ADDR_NAME =? S5ADDR_IPV6) with false.
    change (S5ADDR_NAME =? S5ADDR_NAME) with true. cbv iota. clear Hfix.
    apply wp_bind; eapply (wp_recv_inside close u n Hbs); [exact Hans|exact Hs1|..]; [done|lia|lens| |].
    2: { intros i s' Hs' F. apply wp_ret. by eapply H2. }
    intros bs rest2 s2 E Hl2 Hs2. apply (app_cut bs rest2 [len h] (h ++ port_be port ++ rest)) in E as [-> ->]; [|done].
    change (0 =? 0) with true. cbn [negb].
    load1 4 Hs2.
    apply wp_bind; eapply (wp_recv_inside close u n Hbs); [exact Hans|exact Hs2|..]; [done|lens|lens| |].
    + intros bs rest3 s3 E Hl3 Hs3. rewrite app_assoc in E. apply app_cut in E as [-> ->]; [|rewrite len_app; by rewrite Hl3].
      apply wp_ret. apply H1. by rewrite <- app_assoc in Hs3.
    + intros i s' Hs' F. apply wp_ret. by eapply H2.
Qed.

(** The result of a reply with code [rep]. *)
Definition answered (rep : Z) (inp out : list Z) (s : io N) (rc : Z) (s' : io N) : Prop :=
  stepped n inp out s s' ∧
  if rep =? 0 then rc = 0 else rc = -1 ∧ io_errno s' = reply_error rep.

Lemma answered_step rep i1 o1 inp out s1 s2 rc s3 :
  stepped n i1 o1 s1 s2 → answered rep inp out s2 rc s3 → answered rep inp out s1 rc s3.
Proof. intros H12 [H23 Hr]. split; [by eapply stepped_trans|done]. Qed.

Lemma wp_response rep t port rest d s (Q : Z → io N → Prop) :
  wf_io s → answers u dill_bsock_type n s → target_ok t → net_in (io_net s) n = message rep t port ++ rest →
  (∀ rc s', answered rep rest (net_out (io_net s) n) s rc s' → Q rc s') →
  (∀ i s', stepped n i (net_out (io_net s) n) s s' → failed s' → Q (-1) s') →
  wp (s5_handle_connection_response close u d) Q s.
Proof.
  intros Hwf Ha Ht Hi H1 H2. apply wp_check_bsock; [done|done|]. intros s1 S1.
  pose proof (st_keeps _ _ _ _ _ S1 _ _ _ Ha) as Ha1.
  apply (wp_local n); [apply S1|lia|]. rewrite (st_in _ _ _ _ _ S1), (st_out _ _ _ _ _ S1), Hi. intros s2 I2.
  apply wp_bind, (wp_recv_message _ s1 rep t port rest _ _ _ _ Ha1 Ht I2).
  - intros s3 I3. change (0 =? 0) with true. cbn [negb]. load1 1 I3.
    pose proof (stepped_trans _ _ _ _ _ _ _ _ S1 (inside_leave _ _ _ _ _ _ _ _ I3)) as S3.
    rewrite reply_errno_table. destruct (rep =? 0) eqn:Er.
    + apply wp_ret, H1. split; [done|]. by rewrite Er.
    + apply wp_fail, H1. split; [exact (stepped_errno n _ _ _ _ _ S3)|]. by rewrite Er.
  - intros pre i s3 I3 F. apply wp_ret. eapply H2; [|by left]. eapply stepped_trans; [exact S1|]. by eapply inside_leave.
Qed.

(** Sending a request of bytes [msg] and receiving the answer. *)
Lemma wp_request msg rep t port rest d s (Q : Z → io N → Prop) :
  wf_io s → answers u dill_bsock_type n s → target_ok t → net_in (io_net s) n = message rep t port ++ rest →
  len msg ≤ 262 →
  (∀ rc s', answered rep rest (net_out (io_net s) n ++ msg) s rc s' → Q rc s') →
  (∀ i o s', stepped n i o s s' → failed s' → Q (-1) s') →
  wp (with_buf 262 (λ conn, store conn msg;; err ← dill_bsend close u conn (len msg) d;
    if negb (err =? 0) then mret (-1) else s5_handle_connection_response close u d)) Q s.
Proof.
  intros Hwf Ha Ht Hi Hm H1 H2. apply (wp_local n); [done|lia|]. rewrite Hi. intros s1 I1.
  apply wp_bind. eapply (wp_store_inside n); [exact I1|lens|lens|]. intros s2 I2.
  apply wp_bind. eapply (wp_send_inside close u n Hbs); [exact Ha|exact I2|done|lia| |].
  - intros s3 I3. change (0 =? 0) with true. cbn [negb].
    eapply wp_response; [apply I3|by apply I3|exact Ht|apply I3| |].
    + intros rc s4 [S4 Hr]. apply H1. split; [|done]. rewrite (in_out _ _ _ _ _ _ _ _ I3) in S4.
      eapply inside_leave, inside_step; [exact I3|exact S4].
    + intros i s4 S4 F. eapply H2; [|exact F]. eapply inside_leave, inside_step; [exact I3|exact S4].
  - intros o s3 I3 F. apply wp_ret. eapply H2; [|by right]. eapply inside_leave. exact I3.
Qed.

(** The target a client asks for when it is given a host. *)
Definition target_of (host : list Z) : target :=
  match inet_pton AF_INET host with
  | Some a => T4 a
  | None => match inet_pton AF_INET6 host with Some a => T6 a | None => TName host end
  end.

Definition pton_sizes : Prop :=
  (∀ h a, inet_pton AF_INET h = Some a → len a = 4) ∧ (∀ h a, inet_pton AF_INET6 h = Some a → len a = 16).

Lemma target_of_ok host : pton_sizes → len host ≤ 255 → target_ok (target_of host).
Proof.
  intros [H4 H6] Hl. unfold target_of. destruct (inet_pton AF_INET host) eqn:E4; [by apply (H4 host)|].
  destruct (inet_pton AF_INET6 host) eqn:E6; [by apply (H6 host)|done].
Qed.

Lemma host_address_target host : len host ≤ 255 →
  (host_address host).1 :: (host_address host).2 = target_bytes (target_of host).
Proof.
  intros Hl. unfold host_address, target_of. destruct (inet_pton AF_INET host); [done|].
  destruct (inet_pton AF_INET6 host); [done|]. cbn. unfold u8. rewrite Z.mod_small; [done|lens].
Qed.

(** The outcome of connecting: the request went out and the reply was read, or the
    network failed. *)
Definition connected (req : list Z) (rep : Z) (rest : list Z) (s : io N) (rc : Z) (s' : io N) : Prop :=
  answered rep rest (net_out (io_net s) n ++ req) s rc s' ∨ (rc = -1 ∧ failed s' ∧ ∃ i o, stepped n i o s s').

(** C39. Connecting through a proxy by name: for a host of at most 255 characters and a
    port from 1 to 65535, [s5_client_connectbyname] sends exactly the request of RFC 1928
    for the address (if the host is an address literal) or for the name, reads the whole
    reply, whatever the kind of its address, and leaves what follows it in the input;
    the reply code 0 is success, a code from 1 to 8 fails with the [errno] that the table
    [reply_table] gives for it, and any other with [EPROTO].  Memory is as before and the
    262 bytes of the array are enough.  The only other outcome is -1 when sending to the
    bytestream or receiving from it failed. *)
Theorem socks5_client_connects hostname host port rep t p rest d s :
  wf_io s → answers u dill_bsock_type n s → pton_sizes →
  hostname ≠ NULL → load_string (S (size (io_mem s))) hostname (io_mem s) = Some host →
  len host ≤ 255 → 0 < port ≤ 65535 →
  target_ok t → net_in (io_net s) n = message rep t p ++ rest →
  wp (s5_client_connectbyname close u hostname port d) (connected (message 1 (target_of host) port) rep rest s) s.
Proof.
  intros Hwf Ha Hpt Hh Hs Hl Hp Ht Hi. apply wp_check_bsock; [done|done|]. intros s1 S1.
  rewrite (proj2 (Z.eqb_neq _ _) Hh). apply wp_bind, (wp_cstring _ host); [by rewrite (st_mem _ _ _ _ _ S1)|].
  rewrite (proj2 (Z.ltb_ge _ _) Hl), (proj2 (Z.leb_gt _ _)), (proj2 (Z.ltb_ge _ _)) by lia. cbn [orb].
  pose proof (host_address_target host Hl) as Eh. destruct (host_address host) as [atyp addr] eqn:E. cbn in Eh.
  assert (Em : [RFC1928_VER; DILL_SOCKS5_CONNECT; 0; atyp] ++ addr ++ port_bytes port = message 1 (target_of host) port).
  { unfold message. rewrite <- Eh, port_bytes_be by lia. done. }
  rewrite Em. eapply wp_request; [apply S1|by apply S1|exact Ht|rewrite (st_in _ _ _ _ _ S1); exact Hi| | |].
  - by apply len_message, target_of_ok.
  - rewrite (st_out _ _ _ _ _ S1). intros rc s' Hr. left. by eapply answered_step.
  - intros i o s' S2 F. right. split; [done|]. split; [done|]. exists i, o. by eapply stepped_trans.
Qed.

(** ** The proxy *)

(** The text of the host a proxy reports for a request. *)
Definition text (t : target) : list Z :=
  match t with T4 a => inet_ntop AF_INET a | T6 a => inet_ntop AF_INET6 a | TName h => h end.

(** The outcome of receiving a request by name. *)
Definition received (host c : Z) (t : target) (port : Z) (rest : list Z) (s : io N) (r : Z * option Z) (s' : io N) : Prop :=
  (is_command c ∧ r = (c, Some port) ∧
   stepped n rest (net_out (io_net s) n) (set_io_mem (put host (text t) (io_mem s)) s) s') ∨
  (¬ is_command c ∧ r = (-1, None) ∧ io_errno s' = EPROTO ∧ stepped n rest (net_out (io_net s) n) s s') ∨
  (r = (-1, None) ∧ net_infail (io_net s') n ∧ ∃ i, stepped n i (net_out (io_net s) n) s s').

Lemma gets_port port : 0 ≤ port ≤ 65535 → dill_gets (port_be port) = port.
Proof.
  intros Hp. rewrite <- port_bytes_be, port_bytes_puts, <- (app_nil_r (dill_puts port)), dill_gets_puts by done.
  apply Z.mod_small. lia.
Qed.

(** The parts of a received message. *)
Lemma message_split c t port :
  message c t port = [RFC1928_VER; c; 0] ++ target_bytes t ++ port_be port.
Proof. done. Qed.

(** [ntop] of a text that fits, into the array of the caller. *)
Lemma wp_ntop_outside fam a sz s0 pre inp out src dst size s (Q : ptr → io N → Prop) :
  inside n a sz s0 pre inp out s → dst ≠ NULL → len (inet_ntop fam src) < size →
  allocated (io_mem s0) (arr dst (len (inet_ntop fam src) + 1)) →
  (∀ s', inside n a sz (set_io_mem (put dst (inet_ntop fam src) (io_mem s0)) s0) pre inp out s' → Q dst s') →
  wp (ntop fam src dst size) Q s.
Proof.
  intros Hin Hd Hl Ha HQ. unfold ntop. rewrite (proj2 (Z.leb_gt _ _)) by lia.
  assert (E : len (inet_ntop fam src ++ [0]) = len (inet_ntop fam src) + 1) by lens.
  apply wp_bind. eapply (wp_store_outside n); [exact Hin|done|by rewrite E|]. rewrite E. intros s' I'. by apply wp_ret, HQ.
Qed.

(** The end of [dill_socks5_proxy_recvcommandbyname], at the end of the block of its array. *)
Definition reported (host c : Z) (t : target) (port : Z) (rest out : list Z) (s : io N) (r : Z * option Z) (s' : io N) : Prop :=
  r = (c, Some port) ∧
  stepped n rest out (set_io_mem (put host (text t) (io_mem s)) s) (leave (io_next s) 262 s').

Lemma wp_report_port host c t port rest out p i s s1 :
  0 ≤ port ≤ 65535 → p = io_next s + i → 0 ≤ i → drop (Z.to_nat i) (message c t port) = port_be port →
  inside n (io_next s) 262 (set_io_mem (put host (text t) (io_mem s)) s) (message c t port) rest out s1 →
  wp (pb ← load p 2; mret (c, Some (dill_gets pb))) (reported host c t port rest out s) s1.
Proof.
  intros Hp -> Hi Hd I1. assert (Hlen : len (message c t port) = i + 2).
  { assert (length (drop (Z.to_nat i) (message c t port)) = 2%nat) as L by (by rewrite Hd).
    rewrite length_drop in L. unfold len. lia. }
  apply wp_bind. eapply (wp_load_inside n _ _ _ _ _ _ _ i); [exact I1|done|done|lia|lia|]. rewrite Hd.
  change (take (Z.to_nat 2) (port_be port)) with (port_be port). apply wp_ret.
  split; [by rewrite (gets_port port)|]. by eapply inside_leave.
Qed.

Lemma wp_report_addr host c t port rest out fam atyp x k s s1 :
  0 ≤ port ≤ 65535 → host ≠ NULL → allocated (io_mem s) (arr host (len (text t) + 1)) → len (text t) < 256 →
  target_bytes t = atyp :: x → text t = inet_ntop fam x → len x = k →
  inside n (io_next s) 262 s (message c t port) rest out s1 →
  wp (s5port ← (a ← load (io_next s + 4) k; ntop fam a host 256;; mret (io_next s + (4 + k)));
      pb ← load s5port 2; mret (c, Some (dill_gets pb))) (reported host c t port rest out s) s1.
Proof.
  intros Hp Hh Hal Hl Et Ex Hk I1.
  assert (Em : message c t port = [RFC1928_VER; c; 0; atyp] ++ x ++ port_be port) by (unfold message; by rewrite Et).
  apply wp_bind, wp_bind. eapply (wp_load_inside n _ _ _ _ _ _ _ 4); [exact I1|done|lia|lens|rewrite Em; lens|].
  rewrite Em. change (drop (Z.to_nat 4) _) with (x ++ port_be port). rewrite take_app_length' by (unfold len in Hk; lia).
  apply wp_bind. eapply wp_ntop_outside; [exact I1|done|by rewrite <- Ex|by rewrite <- Ex|]. intros s2 I2. apply wp_ret.
  rewrite <- Ex in I2. eapply (wp_report_port _ _ _ _ _ _ _ (4 + k)); [done|done|lens| |exact I2].
  rewrite Em. replace (Z.to_nat (4 + k)) with (4 + length x)%nat by (unfold len in Hk; lia).
  change (drop (4 + length x) _) with (drop (length x) (x ++ port_be port)). by rewrite drop_app_length.
Qed.

Lemma wp_report_name host c h port rest out s s1 :
  0 ≤ port ≤ 65535 → host ≠ NULL → allocated (io_mem s) (arr host (len h + 1)) →
  inside n (io_next s) 262 s (message c (TName h) port) rest out s1 →
  wp (s5port ← (a ← load (io_next s + 5) (len h); store host (a ++ [0]);; mret (io_next s + (4 + 1 + len h)));
      pb ← load s5port 2; mret (c, Some (dill_gets pb))) (reported host c (TName h) port rest out s) s1.
Proof.
  intros Hp Hh Hal I1.
  assert (E : len (h ++ [0]) = len h + 1) by lens. pose proof (len_nonneg h).
  apply wp_bind, wp_bind.
  eapply (wp_load_inside n _ _ _ _ _ _ _ 5); [exact I1|done|lia|lens|unfold message; cbn [target_bytes]; lens|].
  change (drop (Z.to_nat 5) _) with (h ++ port_be port). rewrite take_app_length' by (unfold len; lia).
  apply wp_bind. eapply (wp_store_outside n); [exact I1|done|by rewrite E|]. rewrite E. intros s2 I2. apply wp_ret.
  eapply (wp_report_port _ _ _ _ _ _ _ (5 + len h)); [done|lia|lens| |exact I2].
  replace (Z.to_nat (5 + len h)) with (5 + length h)%nat by (unfold len; lia).
  change (drop (5 + length h) _) with (drop (length h) (h ++ port_be port)). by rewrite drop_app_length.
Qed.

(** C38. What a proxy receives: from input that starts with a request (or any message of
    that form), [dill_socks5_proxy_recvcommandbyname] consumes exactly the message, writes
    the host with its terminator and returns the command and the port, the ones the
    client encoded; a command that is not CONNECT, BIND or UDP ASSOCIATE (1, 2, 3) fails with
    [EPROTO].  A name arrives as the client sent it, an address as its text.  Nothing
    else of the memory changes, and the arrays of 262 and of 256 bytes are enough.  The
    only other outcome is -1 when receiving from the bytestream failed. *)
Theorem socks5_proxy_receives host c t port rest d s :
  wf_io s → answers u dill_bsock_type n s → (∀ fam a, len (inet_ntop fam a) < 46) →
  host ≠ NULL → allocated (io_mem s) (arr host (len (text t) + 1)) →
  target_ok t → 0 ≤ port ≤ 65535 → net_in (io_net s) n = message c t port ++ rest →
  wp (dill_socks5_proxy_recvcommandbyname close u host d) (received host c t port rest s) s.
Proof.
  intros Hwf Ha Hnt Hh Hal Ht Hp Hi. apply (wp_local n); [done|lia|]. rewrite Hi. intros s1 I1.
  apply wp_bind, (wp_recv_message _ s c t port rest _ _ _ _ Ha Ht I1).
  2: { intros pre i s2 I2 F. apply wp_ret. apply inside_leave in I2. right; right. split; [done|]. split; [exact F|by exists i]. }
  intros s2 I2. change (0 =? 0) with true. cbn [negb]. load1 1 I2. unfold received.
  destruct (bad_command c) eqn:Ec.
  { apply wp_bind, wp_fail, wp_ret. right; left. split; [rewrite <- bad_command_iff; by rewrite Ec|].
    split; [done|]. split; [done|]. exact (stepped_errno n EPROTO _ _ _ _ (inside_leave _ _ _ _ _ _ _ _ I2)). }
  apply (wp_mono _ (reported host c t port rest (net_out (io_net s) n) s)); [|intros r s' Hr; left; split; [by apply bad_command_iff|exact Hr]].
  destruct t as [x|x|h]; cbn [target_ok] in Ht; load1 3 I2;
    (apply wp_bind; eapply wp_load1_any; [exact I2|done|unfold message; cbn [target_bytes]; lens|]; intros v Hv).
  - by apply (wp_report_addr _ _ _ _ _ _ AF_INET S5ADDR_IPV4 x 4); try done; specialize (Hnt AF_INET x); cbn [text]; lia.
  - by apply (wp_report_addr _ _ _ _ _ _ AF_INET6 S5ADDR_IPV6 x 16); try done; specialize (Hnt AF_INET6 x); cbn [text]; lia.
  - injection Hv as <-. by apply wp_report_name.
Qed.

(** ** Authentication *)

(** The credentials of RFC 1929. *)
Definition credentials (u p : list Z) : list Z := [RFC1929_VER; len u] ++ u ++ [len p] ++ p.

(** A step that succeeds when [ok], and fails with [e] otherwise; or a failure of the network. *)
Definition judged (ok : bool) (e : errno_t) (inp out : list Z) (s : io N) (rc : Z) (s' : io N) : Prop :=
  (stepped n inp out s s' ∧ if ok then rc = 0 else rc = -1 ∧ io_errno s' = e) ∨
  (rc = -1 ∧ failed s' ∧ ∃ i o, stepped n i o s s').

Lemma judged_step ok e i1 o1 inp out s1 s2 rc s3 :
  stepped n i1 o1 s1 s2 → judged ok e inp out s2 rc s3 → judged ok e inp out s1 rc s3.
Proof.
  intros H12 [[H23 Hr]|(-> & F & i & o & H23)]; [left; split; [by eapply stepped_trans|done]|].
  right. split; [done|]. split; [done|]. exists i, o. by eapply stepped_trans.
Qed.

(** Leaving the block of an array. *)
Lemma judged_leave ok e a sz s0 pre i o inp out s1 rc s2 :
  inside n a sz s0 pre i o s1 → judged ok e inp out s1 rc s2 → judged ok e inp out s0 rc (leave a sz s2).
Proof.
  intros I1 [[H23 Hr]|(-> & F & i' & o' & H23)].
  - left. split; [|done]. by eapply inside_leave, inside_step.
  - right. split; [done|]. split; [exact F|]. exists i', o'. by eapply inside_leave, inside_step.
Qed.

(** Receiving an answer of two bytes into an array of its own. *)
Lemma wp_answer2 v m rest d s (k : ptr → IO N Z) (Q : Z → io N → Prop) :
  wf_io s → answers u dill_bsock_type n s → net_in (io_net s) n = [v; m] ++ rest →
  (∀ s', inside n (io_next s) 2 s [v; m] rest (net_out (io_net s) n) s' →
     wp (k (io_next s)) (λ rc s', Q rc (leave (io_next s) 2 s')) s') →
  (∀ i o s', stepped n i o s s' → failed s' → Q (-1) s') →
  wp (with_buf 2 (λ b, err ← dill_brecv close u b 2 d; if negb (err =? 0) then mret (-1) else k b)) Q s.
Proof.
  intros Hwf Ha Hi H1 H2. apply (wp_local n); [done|lia|]. rewrite Hi. intros s1 I1.
  apply wp_bind. eapply (wp_recv_inside close u n Hbs); [exact Ha|exact I1|..]; [lens|lia|lens| |].
  - intros bs r s2 E Hl I2. apply app_cut in E as [-> ->]; [|done]. change (0 =? 0) with true. cbn [negb]. by apply H1.
  - intros i s2 I2 F. apply wp_ret. eapply H2; [|by left]. eapply inside_leave. exact I2.
Qed.

(** Sending the front of an array. *)
Lemma wp_send_front a sz s0 x y inp out d s (Q : Z → io N → Prop) :
  answers u dill_bsock_type n s0 → inside n a sz s0 (x ++ y) inp out s → len x < 2 ^ 64 →
  (∀ s', inside n a sz s0 x inp (out ++ x) s' → Q 0 s') → (∀ o s', inside n a sz s0 x inp o s' → net_outfail (io_net s') n → Q (-1) s') →
  wp (dill_bsend close u a (len x) d) Q s.
Proof.
  intros Ha Hin Hx H1 H2. apply inside_front in Hin. by eapply (wp_send_inside close u n Hbs).
Qed.

(** Username and password. *)
Lemma wp_userpass username password us pw st rest d s :
  wf_io s → answers u dill_bsock_type n s → net_in (io_net s) n = [RFC1929_VER; st] ++ rest →
  username ≠ NULL → password ≠ NULL → has_string username us s → has_string password pw s →
  len us ≤ 255 → len pw ≤ 255 → len us + len pw ≤ 509 →
  wp (s5_userpass close u username password d)
    (judged (st =? 0) EACCES rest (net_out (io_net s) n ++ credentials us pw) s) s.
Proof.
  intros Hwf Ha Hi Hu Hp Su Sp Lu Lp Lup. unfold s5_userpass.
  rewrite (proj2 (Z.eqb_neq _ _) Hu), (proj2 (Z.eqb_neq _ _) Hp). apply wp_bind, wp_ret, wp_bind, wp_ret.
  pose proof (len_nonneg us). pose proof (len_nonneg pw).
  assert (Eu : u8 (len us) = len us) by (apply Z.mod_small; lia). assert (Ep : u8 (len pw) = len pw) by (apply Z.mod_small; lia).
  apply (wp_local n); [done|lia|]. rewrite Hi. intros s1 I1.
  apply wp_bind, (wp_cstring _ us); [by eapply inside_string|]. apply wp_bind, (wp_cstring _ pw); [by eapply inside_string|].
  rewrite Eu, Ep.
  apply wp_bind. eapply (wp_store_inside n); [exact I1|lens|lens|]. intros s2 I2.
  apply wp_bind. eapply (wp_store_inside n); [exact I2|lens|lens|]. intros s3 I3.
  rewrite app_nil_l, (app_assoc _ us [0]) in I3.
  apply wp_bind. eapply (wp_overwrite_inside n _ _ _ ([RFC1929_VER; len us] ++ us) 0 []); [exact I3|lens|]. intros s4 I4.
  apply wp_bind. eapply (wp_store_inside n); [exact I4|lens|lens|]. intros s5 I5.
  assert (E : (([RFC1929_VER; len us] ++ us) ++ [len pw] ++ []) ++ pw ++ [0] = credentials us pw ++ [0])
    by (unfold credentials; by rewrite <- !app_assoc).
  rewrite E in I5. replace (3 + len us + len pw) with (len (credentials us pw)) by (unfold credentials; lens).
  apply wp_bind. eapply wp_send_front; [exact Ha|exact I5|unfold credentials; lens| |].
  - intros s6 I6. change (0 =? 0) with true. cbn [negb]. pose proof (in_keeps _ _ _ _ _ _ _ _ I6 _ _ _ Ha) as Ha6.
    eapply wp_answer2; [apply I6|exact Ha6|apply I6| |].
    + rewrite (in_out _ _ _ _ _ _ _ _ I6). intros s7 I7. load1 0 I7. load1 1 I7.
      change (RFC1929_VER =? RFC1929_VER) with true. cbn [negb]. change S5AUTH_SUCCESS with 0.
      apply (wp_mono _ (judged (st =? 0) EACCES rest (net_out (io_net s) n ++ credentials us pw) s7)).
      * destruct (st =? 0); cbn [negb]; [apply wp_ret|apply wp_fail]; left; (split; [|done]).
        -- apply stepped_refl; apply I7.
        -- apply stepped_errno, stepped_refl; apply I7.
      * intros rc s8 J8. eapply judged_leave; [exact I6|]. by eapply judged_leave.
    + intros i o s7 S7 F. right. split; [done|]. split; [exact F|]. exists i, o. by eapply inside_leave, inside_step.
  - intros o s6 I6 F. apply wp_ret. right. split; [done|]. split; [by right|]. eexists _, _. by eapply inside_leave.
Qed.

Lemma wp_over_255 p h s (Q : bool → io N → Prop) :
  p ≠ NULL → has_string p h s → len h ≤ 255 → Q false s → wp (over_255 p) Q s.
Proof.
  intros Hp Hs Hl HQ. unfold over_255. rewrite (proj2 (Z.eqb_neq _ _) Hp). apply wp_bind, (wp_cstring _ h); [done|].
  apply wp_ret. by rewrite (proj2 (Z.ltb_ge 255 (len h))) by lia.
Qed.

(** The methods a client with credentials offers. *)
Definition offer : list Z := [RFC1928_VER; 2; S5METH_NOAUTHREQ; S5METH_USERPASS].

(** What comes of the answer [m] of the proxy, followed by [rest]. *)
Definition client_outcome (us pw : list Z) (m : Z) (rest : list Z) (s : io N) (rc : Z) (s' : io N) : Prop :=
  let out := net_out (io_net s) n in
  (m = S5METH_NOAUTHREQ → judged true E0 rest (out ++ offer) s rc s') ∧
  (m = S5METH_NOMETHOD → judged false EACCES rest (out ++ offer) s rc s') ∧
  (m = S5METH_USERPASS → ∀ st rest', rest = [RFC1929_VER; st] ++ rest' →
     judged (st =? 0) EACCES rest' ((out ++ offer) ++ credentials us pw) s rc s').

(** Authentication of a client with a user name and a password, at most 255
    characters each and 509 together: [s5_client_auth] offers both methods; it accepts a
    proxy that asks for none, sends the credentials of RFC 1929 to one that asks for
    them and reports its verdict, and fails with [EACCES] when no method is acceptable.
    The answers are consumed exactly, and memory is as before. *)
Lemma socks5_client_authenticates username password us pw m st rest rest' d s :
  wf_io s → answers u dill_bsock_type n s → net_in (io_net s) n = [RFC1928_VER; m] ++ rest →
  username ≠ NULL → password ≠ NULL → has_string username us s → has_string password pw s →
  len us ≤ 255 → len pw ≤ 255 → len us + len pw ≤ 509 →
  m = S5METH_NOAUTHREQ ∨ m = S5METH_NOMETHOD ∨ (m = S5METH_USERPASS ∧ rest = [RFC1929_VER; st] ++ rest') →
  wp (s5_client_auth close u username password d) (client_outcome us pw m rest s) s.
Proof.
  intros Hwf Ha Hi Hu Hp Su Sp Lu Lp Lup Hm. apply wp_check_bsock; [done|done|]. intros s1 S1.
  pose proof (st_keeps _ _ _ _ _ S1 _ _ _ Ha) as Ha1.
  apply wp_bind, (wp_over_255 _ us); [done|by eapply stepped_string|done|].
  apply wp_bind, (wp_over_255 _ pw); [done|by eapply stepped_string|done|].
  rewrite (proj2 (Z.eqb_neq _ _) Hu), (proj2 (Z.eqb_neq _ _) Hp). cbn [orb]. fold offer.
  assert (Hfail : ∀ s' i o, stepped n i o s s' → failed s' → client_outcome us pw m rest s (-1) s').
  { intros s' i o S' F. split; [|split]; intros; right; (split; [done|]; split; [done|by exists i, o]). }
  apply (wp_local n); [apply S1|lia|]. rewrite (st_in _ _ _ _ _ S1), Hi, (st_out _ _ _ _ _ S1). intros s2 I2.
  apply wp_bind. eapply (wp_store_inside n); [exact I2|lens|done|]. intros s3 I3. rewrite app_nil_l in I3.
  apply wp_bind. eapply (wp_send_inside close u n Hbs); [exact Ha1|exact I3|done|done| |].
  2: { intros o s4 I4 F. apply wp_ret. eapply Hfail; [|by right]. eapply stepped_trans; [exact S1|]. by eapply inside_leave. }
  intros s4 I4. change (0 =? 0) with true. cbn [negb]. pose proof (in_keeps _ _ _ _ _ _ _ _ I4 _ _ _ Ha1) as Ha4.
  eapply wp_answer2; [apply I4|exact Ha4|apply I4| |].
  2: { intros i o s5 S5 F. eapply Hfail; [|exact F]. eapply stepped_trans; [exact S1|]. by eapply inside_leave, inside_step. }
  rewrite (in_out _ _ _ _ _ _ _ _ I4). intros s5 I5. load1 0 I5. load1 1 I5.
  change (RFC1928_VER =? RFC1928_VER) with true. cbn [negb].
  assert (Hdone : ∀ ok e i o rc s6, judged ok e i o s5 rc s6 →
    judged ok e i o s rc (leave (io_next s1) 4 (leave (io_next s4) 2 s6))).
  { intros ok e i o rc s6 J. eapply judged_step; [exact S1|]. eapply judged_leave; [exact I4|]. by eapply judged_leave. }
  destruct Hm as [->|[->|[-> ->]]].
  - change (S5METH_NOAUTHREQ =? S5METH_NOAUTHREQ) with true. cbv iota. apply wp_ret. split; [|split]; try done.
    intros _. apply Hdone. left. split; [|done]. apply stepped_refl; apply I5.
  - change (S5METH_NOMETHOD =? S5METH_NOAUTHREQ) with false. change (S5METH_NOMETHOD =? S5METH_USERPASS) with false.
    change (S5METH_NOMETHOD =? 255) with true. cbv iota. apply wp_fail. split; [|split]; try done.
    intros _. eapply judged_step; [exact S1|]. eapply (judged_leave _ _ _ _ _ _ _ _ _ _ _ _ (leave (io_next s4) 2 (set_io_errno EACCES s5))); [exact I4|].
    eapply (judged_leave _ _ _ _ _ _ _ _ _ _ _ _ (set_io_errno EACCES s5)); [exact I5|]. left. split; [|done].
    apply stepped_errno, stepped_refl; apply I5.
  - change (S5METH_USERPASS =? S5METH_NOAUTHREQ) with false. change (S5METH_USERPASS =? S5METH_USERPASS) with true. cbv iota.
    eapply wp_mono.
    { apply (wp_userpass username password us pw st rest'); [apply I5|by apply I5|apply I5|done|done| | |done|done|done];
      (eapply inside_string; [exact I5|]; eapply inside_string; [exact I4|]; by eapply stepped_string). }
    intros rc s6 J. rewrite (in_out _ _ _ _ _ _ _ _ I5) in J. split; [done|split; [done|]].
    intros _ st2 rest2 [= -> ->]. by apply Hdone.
Qed.

(** ** Authentication by the proxy *)

Lemma wp_send2 x y d s (Q : Z → io N → Prop) :
  wf_io s → answers u dill_bsock_type n s →
  (∀ s', stepped n (net_in (io_net s) n) (net_out (io_net s) n ++ [x; y]) s s' → Q 0 s') →
  (∀ o s', stepped n (net_in (io_net s) n) o s s' → net_outfail (io_net s') n → Q (-1) s') →
  wp (send2 close u x y d) Q s.
Proof.
  intros Hwf Ha H1 H2. apply (wp_local n); [done|lia|]. intros s1 I1.
  apply wp_bind. eapply (wp_store_inside n); [exact I1|lens|done|]. intros s2 I2. rewrite app_nil_l in I2.
  eapply (wp_send_inside close u n Hbs); [exact Ha|exact I2|done|lia| |].
  - intros s3 I3. apply H1. by eapply inside_leave.
  - intros o s3 I3 F. eapply H2; [by eapply inside_leave|exact F].
Qed.

Lemma wp_recv_userpass a s0 us pw rest out d s (Q : option (Z * Z) → io N → Prop) :
  answers u dill_bsock_type n s0 → len us ≤ 255 → len pw ≤ 255 →
  inside n a 514 s0 [] (credentials us pw ++ rest) out s →
  (∀ s', inside n a 514 s0 (([RFC1929_VER; len us] ++ us ++ [0]) ++ pw ++ [0]) rest out s' → Q (Some (len us, len pw)) s') →
  (∀ pre i s', inside n a 514 s0 pre i out s' → net_infail (io_net s') n → Q None s') →
  wp (recv_userpass close u a d) Q s.
Proof.
  intros Ha Lu Lp Hin H1 H2. pose proof (len_nonneg us). pose proof (len_nonneg pw). unfold recv_userpass.
  unfold credentials in Hin. rewrite <- !app_assoc in Hin.
  apply wp_bind. eapply (wp_recv_inside close u n Hbs); [exact Ha|exact Hin|lens|lia|lens| |intros i s' I' F; apply wp_ret; by eapply H2].
  intros bs r s1 E L I1. apply app_cut in E as [-> ->]; [|done]. change (0 =? 0) with true. cbn [negb]. load1 0 I1.
  change (RFC1929_VER =? RFC1929_VER) with true. cbn [negb]. load1 1 I1.
  apply wp_bind. eapply (wp_recv_inside close u n Hbs); [exact Ha|exact I1|lens|lia|lens| |intros i s' I' F; apply wp_ret; by eapply H2].
  intros bs r s2 E L2 I2. apply app_cut in E as [-> ->]; [|done]. change (0 =? 0) with true. cbn [negb].
  apply wp_bind. eapply (wp_recv_inside close u n Hbs); [exact Ha|exact I2|lens|lia|lens| |intros i s' I' F; apply wp_ret; by eapply H2].
  intros bs r s3 E L3 I3. apply (app_cut bs r [len pw]) in E as [-> ->]; [|done]. change (0 =? 0) with true. cbn [negb].
  apply wp_bind. eapply (wp_load1_inside _ _ _ _ _ _ _ (2 + len us)); [exact I3|lia|lia| |].
  { rewrite app_nil_l. replace (Z.to_nat (2 + len us)) with (length ([RFC1929_VER; len us] ++ us)) by (rewrite length_app; unfold len; cbn; lia).
    by apply list_lookup_middle. }
  apply wp_bind. eapply (wp_recv_inside close u n Hbs); [exact Ha|exact I3|lens|lia|lens| |intros i s' I' F; apply wp_ret; by eapply H2].
  intros bs r s4 E L4 I4. apply (app_cut bs r pw) in E as [-> ->]; [|done]. change (0 =? 0) with true. cbn [negb].
  rewrite app_nil_l, <- !app_assoc in I4.
  apply wp_bind. eapply (wp_overwrite_inside n _ _ _ ([RFC1929_VER; len us] ++ us) (len pw) pw).
  { rewrite <- app_assoc. exact I4. }
  { lens. }
  intros s5 I5. apply wp_bind. eapply (wp_store_inside n); [exact I5|lens|lens|]. intros s6 I6.
  apply wp_ret, H1. rewrite <- !app_assoc in *. exact I6.
Qed.

(** A callback that decides by the strings it is given. *)
Definition decides (auth_fn : ptr → ptr → IO N Z) (verdict : list Z → list Z → bool) : Prop :=
  ∀ a b s us pw, has_string a us s → has_string b pw s →
    auth_fn a b s = Some (if verdict us pw then 1 else 0, s).

(** The credentials were judged and the verdict was sent; or the network failed. *)
Definition proxied (ok : bool) (rest : list Z) (s : io N) (rc : Z) (s' : io N) : Prop :=
  (stepped n rest ((net_out (io_net s) n ++ [RFC1928_VER; S5METH_USERPASS]) ++
     [RFC1929_VER; if ok then S5AUTH_SUCCESS else S5AUTH_FAIL]) s s' ∧ rc = if ok then 0 else -1) ∨
  (rc = -1 ∧ failed s' ∧ ∃ i o, stepped n i o s s').

(** Authentication by a proxy with a callback: from input in which a client offers
    methods that include user name and password and then sends its credentials, as
    [s5_client_auth] does, [dill_socks5_proxy_auth] selects that method, calls the callback
    with exactly the two strings of the client, sends the verdict and returns 0 or -1
    accordingly, and leaves what follows in the input.  Memory is as before, and the
    arrays of 257 and 514 bytes are enough whatever the lengths.  The only other outcome
    is a failure of the network. *)
Lemma socks5_proxy_authenticates auth_fn verdict ms us pw rest d s :
  wf_io s → answers u dill_bsock_type n s → decides auth_fn verdict →
  len ms ≤ 255 → S5METH_USERPASS ∈ ms → len us ≤ 255 → len pw ≤ 255 →
  Forall (λ c, c ≠ 0) us → Forall (λ c, c ≠ 0) pw →
  net_in (io_net s) n = ([RFC1928_VER; len ms] ++ ms) ++ credentials us pw ++ rest →
  wp (dill_socks5_proxy_auth close u (Some auth_fn) d) (proxied (verdict us pw) rest s) s.
Proof.
  intros Hwf Ha Hfn Lm Hms Lu Lp Zu Zp Hi. apply wp_check_bsock; [done|done|]. intros s1 S1.
  pose proof (st_keeps _ _ _ _ _ S1 _ _ _ Ha) as Ha1.
  assert (Hfail : ∀ s' i o, stepped n i o s s' → failed s' → proxied (verdict us pw) rest s (-1) s').
  { intros s' i o S' F. right. split; [done|]. split; [done|by exists i, o]. }
  apply (wp_local n); [apply S1|lia|]. rewrite (st_in _ _ _ _ _ S1), Hi, (st_out _ _ _ _ _ S1), <- app_assoc. intros s2 I2.
  apply wp_bind. eapply (wp_recv_inside close u n Hbs); [exact Ha1|exact I2|lens|lia|lens| |].
  2: { intros i s3 I3 F. apply wp_ret. eapply Hfail; [|by left]. eapply stepped_trans; [exact S1|]. by eapply inside_leave. }
  intros bs r s3 E L I3. apply app_cut in E as [-> ->]; [|done]. change (0 =? 0) with true. cbn [negb].
  load1 0 I3. load1 1 I3. change (RFC1928_VER =? RFC1928_VER) with true. cbn [negb].
  apply wp_bind. eapply (wp_recv_inside close u n Hbs); [exact Ha1|exact I3|lens|lens|lens| |].
  2: { intros i s4 I4 F. apply wp_ret. eapply Hfail; [|by left]. eapply stepped_trans; [exact S1|]. by eapply inside_leave. }
  intros bs r s4 E L4 I4. apply app_cut in E as [-> ->]; [|done]. change (0 =? 0) with true. cbn [negb].
  apply wp_bind. eapply (wp_load_inside n _ _ _ _ _ _ _ 2); [exact I4|lia|lia|lens|lens|].
  change (drop (Z.to_nat 2) _) with ms. rewrite take_ge by (unfold len; lia).
  assert (Hup : existsb (Z.eqb S5METH_USERPASS) ms = true).
  { apply existsb_exists. exists S5METH_USERPASS. split; [by apply list_elem_of_In|done]. }
  rewrite Hup. pose proof (in_keeps _ _ _ _ _ _ _ _ I4 _ _ _ Ha1) as Ha4.
  apply wp_bind, wp_send2; [apply I4|exact Ha4| |].
  2: { intros o s5 S5 F. apply wp_ret. eapply Hfail; [|by right]. eapply stepped_trans; [exact S1|]. eapply inside_leave, inside_step; [exact I4|exact S5]. }
  rewrite (in_in _ _ _ _ _ _ _ _ I4), (in_out _ _ _ _ _ _ _ _ I4). intros s5 S5. change (0 =? 0) with true. cbn [negb].
  pose proof (st_keeps _ _ _ _ _ S5 _ _ _ Ha4) as Ha5. pose proof (inside_step _ _ _ _ _ _ _ _ _ _ _ I4 S5) as I5.
  assert (Hend : ∀ i o s6, stepped n i o s5 s6 → stepped n i o s (leave (io_next s1) 257 s6)).
  { intros i o s6 S6. eapply stepped_trans; [exact S1|]. eapply inside_leave, inside_step; [exact I5|exact S6]. }
  apply (wp_local n); [apply S5|lia|]. rewrite (st_in _ _ _ _ _ S5), (st_out _ _ _ _ _ S5). intros s6 I6.
  apply wp_bind. eapply wp_recv_userpass; [exact Ha5|exact Lu|exact Lp|exact I6| |].
  2: { intros pre i s7 I7 F. apply wp_ret. eapply Hfail; [|by left]. eapply Hend. by eapply inside_leave. }
  intros s7 I7. pose proof (in_keeps _ _ _ _ _ _ _ _ I7 _ _ _ Ha5) as Ha7.
  assert (Hcall : auth_fn (io_next s5 + 2) (io_next s5 + (3 + len us)) s7 = Some (if verdict us pw then 1 else 0, s7)).
  { apply Hfn; [eapply (inside_holds_string n _ _ _ [RFC1929_VER; len us] us (pw ++ [0]))|
      eapply (inside_holds_string n _ _ _ ([RFC1929_VER; len us] ++ us ++ [0]) pw [])]; try done.
    - rewrite <- !app_assoc in *. exact I7.
    - lens. }
  apply wp_bind. unfold wp at 1. rewrite Hcall. destruct (verdict us pw) eqn:Ev.
  - change (1 =? 0) with false. cbn [negb]. apply wp_bind, wp_send2; [apply I7|exact Ha7| |].
    + rewrite (in_in _ _ _ _ _ _ _ _ I7), (in_out _ _ _ _ _ _ _ _ I7). intros s8 S8. apply wp_ret. left. split; [|done].
      apply Hend. by eapply inside_leave, inside_step.
    + intros o s8 S8 F. apply wp_ret. eapply Hfail; [|by right]. eapply Hend. by eapply inside_leave, inside_step.
  - change (0 =? 0) with true. cbn [negb]. apply wp_bind, wp_send2; [apply I7|exact Ha7| |].
    + rewrite (in_in _ _ _ _ _ _ _ _ I7), (in_out _ _ _ _ _ _ _ _ I7). intros s8 S8. apply wp_ret. left. split; [|done].
      apply Hend. by eapply inside_leave, inside_step.
    + intros o s8 S8 F. apply wp_ret. eapply Hfail; [|by right]. eapply Hend. by eapply inside_leave, inside_step.
Qed.
End Messages.

(** * Examples *)

(** Socket 5 is handle 0, with the input [ins]; the strings ["x"] at 1900 and ["yz"] at
    1950. *)
Definition demo_socks_io (ins : list Z) : io loop :=
  set_io_mem (put 1950 [121; 122] (put 1900 [120] (io_mem (demo_io [] [] [])))) (demo_io [ONet 5] [] [(5, ins)]).

Lemma demo_socks_answers ins : answers 0 dill_bsock_type 5 (demo_socks_io ins).
Proof. apply (demo_answers [ONet 5]); [reflexivity| |done]. vm_compute. reflexivity. Qed.

Lemma demo_bytestream : net_bytestream (N := loop) 5 = true.
Proof. done. Qed.

Lemma demo_socks_wf ins : wf_io (demo_socks_io ins).
Proof. apply wf_io_b_sound. vm_compute. reflexivity. Qed.

Lemma demo_socks_sizes : pton_sizes (N := loop).
Proof. split; [apply law_pton4|apply law_pton6]. Qed.

Lemma demo_ntop_sizes fam a : len (inet_ntop (N := loop) fam a) < 46.
Proof. cbn. by destruct (bool_decide (a = LOOPBACK4)). Qed.

Lemma demo_socks_room ins a k : 1000 ≤ a → 0 ≤ k → a + k ≤ 2000 → allocated (io_mem (demo_socks_io ins)) (arr a k).
Proof.
  intros. apply (allocated_scatter (arr 1950 3)); [apply (allocated_scatter (arr 1900 2))|apply (allocated_scatter (arr 1900 2))];
    by apply demo_room.
Qed.

(** A reply of success with an IPv4 address. *)
Lemma socks5_client_connects_witness :
  wp (s5_client_connectbyname demo_close_io 0 1900 80 (-1))
    (connected 5 (message 1 (target_of (N := loop) [120]) 80) 0 [9] (demo_socks_io (message 0 (T4 [1; 2; 3; 4]) 8080 ++ [9])))
    (demo_socks_io (message 0 (T4 [1; 2; 3; 4]) 8080 ++ [9])).
Proof.
  apply (socks5_client_connects (N := loop) demo_close_io 0 5 demo_bytestream 1900 [120] 80 0 (T4 [1; 2; 3; 4]) 8080 [9]).
  - apply demo_socks_wf.
  - apply demo_socks_answers.
  - apply demo_socks_sizes.
  - done.
  - vm_compute. reflexivity.
  - by vm_compute.
  - done.
  - done.
  - vm_compute. reflexivity.
Defined.

Lemma socks5_proxy_receives_witness :
  wp (dill_socks5_proxy_recvcommandbyname demo_close_io 0 1000 (-1))
    (received 5 1000 1 (TName [120]) 80 [9] (demo_socks_io (message 1 (TName [120]) 80 ++ [9])))
    (demo_socks_io (message 1 (TName [120]) 80 ++ [9])) ∧
  fst <$> dill_socks5_proxy_recvcommandbyname demo_close_io 0 1000 (-1) (demo_socks_io (message 1 (TName [120]) 80 ++ [9])) =
    Some (1, Some 80).
Proof.
  split; [|vm_compute; reflexivity].
  apply (socks5_proxy_receives (N := loop) demo_close_io 0 5 demo_bytestream 1000 1 (TName [120]) 80 [9]).
  - apply demo_socks_wf.
  - apply demo_socks_answers.
  - apply demo_ntop_sizes.
  - done.
  - by apply demo_socks_room.
  - by vm_compute.
  - done.
  - vm_compute. reflexivity.
Defined.

Lemma socks5_client_authenticates_witness :
  wp (s5_client_auth demo_close_io 0 1900 1950 (-1))
    (client_outcome 5 [120] [121; 122] 2 [1; 0; 9] (demo_socks_io [5; 2; 1; 0; 9])) (demo_socks_io [5; 2; 1; 0; 9]) ∧
  fst <$> s5_client_auth demo_close_io 0 1900 1950 (-1) (demo_socks_io [5; 2; 1; 0; 9]) = Some 0.
Proof.
  split; [|vm_compute; reflexivity].
  apply (socks5_client_authenticates (N := loop) demo_close_io 0 5 demo_bytestream 1900 1950 [120] [121; 122] 2 0 [1; 0; 9] [9]).
  - apply demo_socks_wf.
  - apply demo_socks_answers.
  - vm_compute. reflexivity.
  - done.
  - done.
  - vm_compute. reflexivity.
  - vm_compute. reflexivity.
  - by vm_compute.
  - by vm_compute.
  - by vm_compute.
  - right. by right.
Defined.

(** A callback that accepts the password ["yz"]. *)
Definition demo_auth (a b : ptr) : IO loop Z := p ← cstring b; mret (if bool_decide (p = [121; 122]) then 1 else 0).
Definition demo_verdict (us pw : list Z) : bool := bool_decide (pw = [121; 122]).
Lemma demo_auth_decides : decides demo_auth demo_verdict.
Proof. intros a b s us pw _ Hp. unfold demo_auth. erewrite IO_bind_done by (unfold cstring; by rewrite Hp). done. Qed.

Lemma socks5_proxy_authenticates_witness :
  wp (dill_socks5_proxy_auth demo_close_io 0 (Some demo_auth) (-1))
    (proxied 5 true [9] (demo_socks_io (([5; 2] ++ [0; 2]) ++ credentials [120] [121; 122] ++ [9])))
    (demo_socks_io (([5; 2] ++ [0; 2]) ++ credentials [120] [121; 122] ++ [9])).
Proof.
  apply (socks5_proxy_authenticates (N := loop) demo_close_io 0 5 demo_bytestream demo_auth demo_verdict [0; 2] [120] [121; 122] [9]).
  - apply demo_socks_wf.
  - apply demo_socks_answers.
  - apply demo_auth_decides.
  - by vm_compute.
  - right. by left.
  - by vm_compute.
  - by vm_compute.
  - by repeat constructor.
  - by repeat constructor.
  - vm_compute. reflexivity.
Defined.

(** A client without credentials does not survive a proxy that asks for them, nor one
    with the longest credentials, whose 514 bytes overflow the array of 513. *)
Lemma socks5_client_aborts :
  s5_client_auth demo_close_io 0 NULL NULL (-1) (demo_socks_io [5; 2]) = None.
Proof. vm_compute. reflexivity. Qed.

Lemma socks5_credentials_overflow :
  let s := demo_socks_io [5; 2; 1; 0] in
  s5_client_auth demo_close_io 0 1000 1300 (-1)
    (set_io_mem (put 1300 (repeat 98 255) (put 1000 (repeat 97 255) (io_mem s))) s) = None.
Proof. vm_compute. reflexivity. Qed.
