(* ===== verification/Tls.v ===== *)
(** TLS ([tls.c]): a bytestream socket over another one, by means of OpenSSL.  The library is
    the class [OpenSsl]; it calls back the functions of the custom BIO. *)

From Stdlib Require Import ZArith Lia.
From stdpp Require Import base gmap list.
From S2P Require Import Prelude Handle Iol Sock Http Ws.
Open Scope Z_scope.

(** The object, at the address of its storage *)
Record dill_tls_sock := mk_tls {
  tl_ctx : ptr;
  tl_ssl : ptr;
  tl_u : Z;
  tl_deadline : Z;
  tl_indone : bool;
  tl_outdone : bool;
  tl_inerr : bool;
  tl_outerr : bool;
  tl_mem : bool;
}.
Definition SIZEOF_TLS : Z := 72.
Definition dill_tls_type : ptr := 18.

Definition tls_deadline (v : Z) (x : dill_tls_sock) : dill_tls_sock :=
  mk_tls (tl_ctx x) (tl_ssl x) (tl_u x) v (tl_indone x) (tl_outdone x) (tl_inerr x) (tl_outerr x) (tl_mem x).
Definition tls_indone (x : dill_tls_sock) : dill_tls_sock :=
  mk_tls (tl_ctx x) (tl_ssl x) (tl_u x) (tl_deadline x) true (tl_outdone x) (tl_inerr x) (tl_outerr x) (tl_mem x).
Definition tls_outdone (x : dill_tls_sock) : dill_tls_sock :=
  mk_tls (tl_ctx x) (tl_ssl x) (tl_u x) (tl_deadline x) (tl_indone x) true (tl_inerr x) (tl_outerr x) (tl_mem x).
Definition tls_inerr (x : dill_tls_sock) : dill_tls_sock :=
  mk_tls (tl_ctx x) (tl_ssl x) (tl_u x) (tl_deadline x) (tl_indone x) (tl_outdone x) true (tl_outerr x) (tl_mem x).
Definition tls_outerr (x : dill_tls_sock) : dill_tls_sock :=
  mk_tls (tl_ctx x) (tl_ssl x) (tl_u x) (tl_deadline x) (tl_indone x) (tl_outdone x) (tl_inerr x) true (tl_mem x).
Definition tls_u (v : Z) (x : dill_tls_sock) : dill_tls_sock :=
  mk_tls (tl_ctx x) (tl_ssl x) v (tl_deadline x) (tl_indone x) (tl_outdone x) (tl_inerr x) (tl_outerr x) (tl_mem x).
Definition tls_unmem (x : dill_tls_sock) : dill_tls_sock :=
  mk_tls (tl_ctx x) (tl_ssl x) (tl_u x) (tl_deadline x) (tl_indone x) (tl_outdone x) (tl_inerr x) (tl_outerr x) false.

(** * OpenSSL *)

Definition BIO_CTRL_FLUSH : Z := 11.
Definition BIO_CTRL_PUSH : Z := 6.
Definition BIO_CTRL_POP : Z := 7.

(** What [SSL_get_error] returns *)
Inductive ssl_error := SslNone | SslZeroReturn | SslSyscall | SslSsl | SslWantRead | SslWantWrite | SslOther (n : Z).

(** The methods of a BIO: the first two get the data of the BIO, a buffer and its length; the
    last one gets a command. *)
Record bio_method (N : Type) := mk_bio_method {
  bio_write : ptr → ptr → Z → IO N Z;
  bio_read : ptr → ptr → Z → IO N Z;
  bio_create : IO N Z;
  bio_destroy : IO N Z;
  bio_ctrl : Z → IO N Z;
}.
Arguments mk_bio_method {N}.
Arguments bio_write {N}.
Arguments bio_read {N}.
Arguments bio_ctrl {N}.

(** The functions of the library; those that transfer data run the methods of the BIO. *)
Class OpenSsl (N : Type) := {
  (** [SSL_library_init], [BIO_get_new_index] and [BIO_meth_new]; setting the methods of the
      BIO; [atexit] *)
  ssl_bio_meth_new : IO N ptr;
  ssl_bio_meth_set : ptr → IO N Z;
  ssl_atexit : IO N Z;
  (** [SSLv23_method], [SSLv23_server_method] *)
  ssl_method : bool → IO N ptr;
  ssl_ctx_new : ptr → IO N ptr;
  ssl_ctx_set_ecdh_auto : ptr → IO N Z;
  ssl_ctx_use_certificate_file : ptr → ptr → IO N Z;
  ssl_ctx_use_privatekey_file : ptr → ptr → IO N Z;
  ssl_ctx_free : ptr → IO N unit;
  ssl_new : ptr → IO N ptr;
  ssl_free : ptr → IO N unit;
  (** [SSL_set_connect_state], [SSL_set_accept_state] *)
  ssl_set_state : bool → ptr → IO N unit;
  (** [BIO_new], [BIO_set_data] and [BIO_set_init]; [SSL_set_bio]; [BIO_vfree] *)
  ssl_bio_new : ptr → IO N ptr;
  ssl_bio_set_data : ptr → ptr → IO N unit;
  ssl_set_bio : ptr → ptr → IO N unit;
  ssl_bio_vfree : ptr → IO N unit;
  (** [SSL_connect], [SSL_accept]; [SSL_shutdown] *)
  ssl_handshake : bool → bio_method N → ptr → IO N Z;
  ssl_shutdown : bio_method N → ptr → IO N Z;
  ssl_write : bio_method N → ptr → ptr → Z → IO N Z;
  ssl_read : bio_method N → ptr → ptr → Z → IO N Z;
  ssl_get_error : ptr → Z → IO N ssl_error;
  (** [ERR_clear_error]; [ERR_get_error], until it returns 0 *)
  ssl_clear_error : IO N unit;
  ssl_get_errors : IO N unit;
}.

(** * The code *)

(** The objects by address; [dill_tls_cbio] and the static flag of [dill_tls_init]; the state
    of the library and of the sockets below *)
Record tlsnet (K : Type) := mk_tlsnet {
  tn_k : K;
  tn_objs : gmap Z dill_tls_sock;
  tn_cbio : ptr;
  tn_init : bool;
}.
Arguments mk_tlsnet {K}.
Arguments tn_k {K}.
Arguments tn_objs {K}.
Arguments tn_cbio {K}.
Arguments tn_init {K}.

Section Tls.
Context {K : Type} `{NetN : Net (tlsnet K)} `{SslN : OpenSsl (tlsnet K)}.
Context (close : sobj → IO (tlsnet K) unit).
Local Abbreviation TLS := (IO (tlsnet K)).

Definition get_tls (p : ptr) : TLS dill_tls_sock := λ s, x ← tn_objs (io_net s) !! p; Some (x, s).
Definition with_tls (p : ptr) (x : dill_tls_sock) (s : io (tlsnet K)) : io (tlsnet K) :=
  let n := io_net s in set_io_net (mk_tlsnet (tn_k n) (<[p := x]> (tn_objs n)) (tn_cbio n) (tn_init n)) s.
Definition put_tls (p : ptr) (x : dill_tls_sock) : TLS unit := modify (with_tls p x).
Definition upd_tls (p : ptr) (f : dill_tls_sock → dill_tls_sock) : TLS unit := x ← get_tls p; put_tls p (f x).
Definition free_tls (p : ptr) : TLS unit := modify (λ s,
  let n := io_net s in set_io_net (mk_tlsnet (tn_k n) (delete p (tn_objs n)) (tn_cbio n) (tn_init n)) s).

(** ** Handles *)

Definition dill_tls_hquery (p ty : ptr) : ptr :=
  if ty =? dill_bsock_type then p else if ty =? dill_tls_type then p else NULL.

(** The virtual query of a handle: of an object of this component, or of another socket *)
Definition tls_query (v : sobj) (ty : ptr) : TLS ptr :=
  q ← match v with
      | ONet p => o ← gets (λ s, tn_objs (io_net s) !! p);
                  mret (match o with Some _ => dill_tls_hquery p ty | None => sobj_query v ty end)
      | _ => mret (sobj_query v ty)
      end;
  if q =? NULL then set_errno ENOTSUP;; mret NULL else mret q.

Definition tls_env : HandleEnv sobj TLS := {|
  h_get := gets io_handles;
  h_put := λ c, modify (set_io_handles c);
  h_errno := λ e, modify (set_io_errno e);
  h_canblock := λ s, if io_nb1 s || io_nb2 s then Some (-1, set_io_errno ECANCELED s) else Some (0, s);
  h_no_blocking := λ b s, Some (io_nb2 s, set_io_nb2 b s);
  h_realloc := λ _ s, match io_budget s with
    | O => Some (false, s)
    | S n => Some (true, set_io_budget n s)
    end;
  h_has_methods := λ _, true;
  h_query := tls_query;
  h_close := close;
  h_crash := λ A, crash;
|}.
Definition tquery (h : Z) (ty : ptr) : TLS ptr := @dill_hquery sobj TLS _ _ tls_env h ty.
Definition tclose (h : Z) : TLS Z := @dill_hclose sobj TLS _ _ tls_env h.
Definition town (h : Z) : TLS Z := @dill_hown sobj TLS _ _ tls_env h.
Definition tmake (p : ptr) : TLS Z := @dill_hmake sobj TLS _ _ tls_env (Some (ONet p)).

(** ** Custom BIO on top of a bsock *)

Definition dill_tls_cbio_write (data buf : ptr) (len : Z) : TLS Z :=
  self ← get_tls data;
  rc ← dill_bsend close (tl_u self) buf len (tl_deadline self);
  if rc <? 0 then mret (-1) else mret len.

Definition dill_tls_cbio_read (data buf : ptr) (len : Z) : TLS Z :=
  self ← get_tls data;
  rc ← dill_brecv close (tl_u self) buf len (tl_deadline self);
  if rc <? 0 then mret (-1) else mret len.

Definition dill_tls_cbio_create : TLS Z := mret 1.
Definition dill_tls_cbio_destroy : TLS Z := mret 1.
Definition dill_tls_cbio_ctrl (cmd : Z) : TLS Z :=
  if cmd =? BIO_CTRL_FLUSH then mret 1
  else if (cmd =? BIO_CTRL_PUSH) || (cmd =? BIO_CTRL_POP) then mret 0
  else crash.

(** [dill_tls_cbio] after [dill_tls_init] *)
Definition dill_tls_cbio : bio_method (tlsnet K) :=
  mk_bio_method dill_tls_cbio_write dill_tls_cbio_read dill_tls_cbio_create dill_tls_cbio_destroy dill_tls_cbio_ctrl.

Fixpoint set_methods (n : nat) (meth : ptr) : TLS unit :=
  match n with
  | O => mret tt
  | S n => rc ← ssl_bio_meth_set meth; assert_ (rc =? 1);; set_methods n meth
  end.

Definition dill_tls_init : TLS unit :=
  init ← gets (λ s, tn_init (io_net s));
  if (init : bool) then mret tt
  else
    meth ← ssl_bio_meth_new;
    assert_ (negb (meth =? NULL));;
    set_methods 5 meth;;
    rc ← ssl_atexit;
    assert_ (rc =? 0);;
    modify (λ s, let n := io_net s in set_io_net (mk_tlsnet (tn_k n) (tn_objs n) meth true) s).

Definition dill_tls_new_cbio (mem : ptr) : TLS ptr :=
  meth ← gets (λ s, tn_cbio (io_net s));
  bio ← ssl_bio_new meth;
  if bio =? NULL then set_errno EFAULT;; mret NULL
  else
    ssl_bio_set_data bio mem;;
    mret bio.

(** ** Errors *)

Definition dill_tls_process_errors : TLS unit := ssl_get_errors;; set_errno EFAULT.

(** 0 if the SSL function has to be restarted, 1 if it is done, with the error in [errno] *)
Definition dill_tls_followup (self : ptr) (rc : Z) : TLS Z :=
  x ← get_tls self;
  code ← ssl_get_error (tl_ssl x) rc;
  match code with
  | SslNone => set_errno E0;; mret 1
  | SslZeroReturn => set_errno EPIPE;; mret 1
  | SslSyscall =>
    assert_ (rc =? -1);;
    e ← get_errno;
    if bool_decide (e = E0) then mret 0 else mret 1
  | SslSsl => dill_tls_process_errors;; mret 1
  | SslWantRead | SslWantWrite => crash
  | SslOther _ => dill_tls_process_errors;; crash
  end.
(** ** Attaching and detaching *)

(** The labels of the attach functions *)
Definition tls_error1 (s : Z) (err : errno_t) : TLS Z :=
  (if 0 <=? s then _ ← tclose s; mret tt else mret tt);;
  set_errno err;;
  mret (-1).
Definition tls_error2 (s : Z) (ctx : ptr) (err : errno_t) : TLS Z := ssl_ctx_free ctx;; tls_error1 s err.
Definition tls_error3 (s : Z) (ctx ssl : ptr) (err : errno_t) : TLS Z := ssl_free ssl;; tls_error2 s ctx err.
Definition tls_error4 (s : Z) (ctx ssl bio : ptr) (err : errno_t) : TLS Z := ssl_bio_vfree bio;; tls_error3 s ctx ssl err.

(** Initial handshaking, with at most [fuel] calls: the error with which the loop is left by
    [goto error4], if it is *)
Fixpoint tls_handshake (fuel : nat) (server : bool) (self ssl : ptr) : TLS (option errno_t) :=
  match fuel with
  | O => crash
  | S fuel =>
    ssl_clear_error;;
    rc ← ssl_handshake server dill_tls_cbio ssl;
    done ← dill_tls_followup self rc;
    if negb (done =? 0) then mret None
    else
      e ← get_errno;
      if negb (bool_decide (e = E0)) then mret (Some e)
      else tls_handshake fuel server self ssl
  end.

(** The attach functions from the creation of the connection object on *)
Definition tls_attach (fuel : nat) (server : bool) (s : Z) (ctx mem : ptr) : TLS Z :=
  ssl ← ssl_new ctx;
  if ssl =? NULL then tls_error2 s ctx EFAULT
  else
    ssl_set_state server ssl;;
    bio ← dill_tls_new_cbio mem;
    if bio =? NULL then err ← get_errno; tls_error3 s ctx ssl err
    else
      ssl_set_bio ssl bio;;
      (** Take ownership of the underlying socket. *)
      s ← town s;
      if s <? 0 then err ← get_errno; tls_error1 s err
      else
        (** Create the object. *)
        put_tls mem (mk_tls ctx ssl s (-1) false false false false true);;
        o ← tls_handshake fuel server mem ssl;
        match o with
        | Some err => tls_error4 s ctx ssl bio err
        | None =>
          h ← tmake mem;
          if h <? 0 then err ← get_errno; tls_error4 s ctx ssl bio err else mret h
        end.

(** The check of the underlying socket *)
Definition tls_check (s : Z) : TLS (option errno_t) :=
  q ← tquery s dill_bsock_type;
  if q =? NULL then e ← get_errno; mret (Some (if bool_decide (e = ENOTSUP) then EPROTO else e))
  else mret None.

Definition dill_tls_attach_client_mem (fuel : nat) (s : Z) (mem : ptr) (deadline : Z) : TLS Z :=
  if mem =? NULL then tls_error1 s EINVAL
  else
    o ← tls_check s;
    match o with
    | Some err => tls_error1 s err
    | None =>
      dill_tls_init;;
      method ← ssl_method false;
      if method =? NULL then tls_error1 s EFAULT
      else
        ctx ← ssl_ctx_new method;
        if ctx =? NULL then tls_error1 s EFAULT
        else tls_attach fuel false s ctx mem
    end.

Definition dill_tls_attach_server_mem (fuel : nat) (s : Z) (cert pkey mem : ptr) (deadline : Z) : TLS Z :=
  if mem =? NULL then tls_error1 s EINVAL
  else
    o ← tls_check s;
    match o with
    | Some err => tls_error1 s err
    | None =>
      dill_tls_init;;
      method ← ssl_method true;
      if method =? NULL then tls_error1 s EFAULT
      else
        ctx ← ssl_ctx_new method;
        if ctx =? NULL then tls_error1 s EFAULT
        else
          rc ← ssl_ctx_set_ecdh_auto ctx;
          if negb (rc =? 1) then tls_error2 s ctx EFAULT
          else
            rc ← ssl_ctx_use_certificate_file ctx cert;
            if rc <=? 0 then tls_error2 s ctx EFAULT
            else
              rc ← ssl_ctx_use_privatekey_file ctx pkey;
              if rc <=? 0 then tls_error2 s ctx EFAULT
              else tls_attach fuel true s ctx mem
    end.

(** The functions that allocate the object *)
Definition with_tls_object (s : Z) (attach : ptr → TLS Z) : TLS Z :=
  o ← malloc SIZEOF_TLS;
  match o with
  | None => tls_error1 s ENOMEM
  | Some obj =>
    s ← attach obj;
    if s <? 0 then err ← get_errno; free_tls obj;; free obj SIZEOF_TLS;; tls_error1 s err
    else upd_tls obj tls_unmem;; mret s
  end.

Definition dill_tls_attach_client (fuel : nat) (s deadline : Z) : TLS Z :=
  with_tls_object s (λ obj, dill_tls_attach_client_mem fuel s obj deadline).
Definition dill_tls_attach_server (fuel : nat) (s : Z) (cert pkey : ptr) (deadline : Z) : TLS Z :=
  with_tls_object s (λ obj, dill_tls_attach_server_mem fuel s cert pkey obj deadline).

(** The loop of [dill_tls_done]: 0, or -1 with the error *)
Fixpoint done_loop (fuel : nat) (self : ptr) : TLS Z :=
  match fuel with
  | O => crash
  | S fuel =>
    ssl_clear_error;;
    x ← get_tls self;
    rc ← ssl_shutdown dill_tls_cbio (tl_ssl x);
    if rc =? 0 then upd_tls self tls_outdone;; mret 0
    else if rc =? 1 then upd_tls self tls_outdone;; upd_tls self tls_indone;; mret 0
    else
      done ← dill_tls_followup self rc;
      if negb (done =? 0) then
        e ← get_errno;
        assert_ (negb (bool_decide (e = E0)));;
        upd_tls self tls_outerr;;
        mret (-1)
      else done_loop fuel self
  end.

Definition dill_tls_done (fuel : nat) (s deadline : Z) : TLS Z :=
  self ← tquery s dill_tls_type;
  if self =? NULL then mret (-1)
  else
    x ← get_tls self;
    if tl_outerr x then fail ECONNRESET
    else if tl_outdone x then fail EPIPE
    else done_loop fuel self.

Definition dill_tls_hclose (self : ptr) : TLS unit :=
  x ← get_tls self;
  ssl_free (tl_ssl x);;
  ssl_ctx_free (tl_ctx x);;
  (if 0 <=? tl_u x then rc ← tclose (tl_u x); assert_ (rc =? 0) else mret tt);;
  if tl_mem x then mret tt else free_tls self;; free self SIZEOF_TLS.

(** Waiting for the acknowledgement of the peer: the error, if any *)
Fixpoint ack_loop (fuel : nat) (self : ptr) : TLS (option errno_t) :=
  match fuel with
  | O => crash
  | S fuel =>
    ssl_clear_error;;
    x ← get_tls self;
    rc ← ssl_shutdown dill_tls_cbio (tl_ssl x);
    if rc =? 1 then mret None
    else
      done ← dill_tls_followup self rc;
      if negb (done =? 0) then e ← get_errno; mret (Some e) else ack_loop fuel self
  end.

Definition dill_tls_detach (fuel : nat) (s deadline : Z) : TLS Z :=
  let error self err := dill_tls_hclose self;; set_errno err;; mret (-1) in
  self ← tquery s dill_tls_type;
  if self =? NULL then mret (-1)
  else
    x ← get_tls self;
    if tl_inerr x || tl_outerr x then error self ECONNRESET
    else
      rc ← (if negb (tl_outdone x) then dill_tls_done fuel s deadline else mret 0);
      if rc <? 0 then err ← get_errno; error self err
      else
        x ← get_tls self;
        o ← (if negb (tl_indone x) then ack_loop fuel self else mret None);
        match o with
        | Some err => error self err
        | None =>
          x ← get_tls self;
          let u := tl_u x in
          put_tls self (tls_u (-1) x);;
          dill_tls_hclose self;;
          mret u
        end.

(** ** Sending and receiving *)

(** [while(len > 0)], with at most [fuel] calls of [SSL_write]: false for [return -1] *)
Fixpoint write_loop (fuel : nat) (self base : ptr) (len : Z) : TLS bool :=
  if len =? 0 then mret true
  else match fuel with
  | O => crash
  | S fuel =>
    ssl_clear_error;;
    x ← get_tls self;
    rc ← ssl_write dill_tls_cbio (tl_ssl x) base (s32 len);
    done ← dill_tls_followup self rc;
    if done =? 0 then write_loop fuel self base len
    else
      e ← get_errno;
      if negb (bool_decide (e = E0)) then upd_tls self tls_outerr;; mret false
      else write_loop fuel self (base + rc) (u64 (len - rc))
  end.

Fixpoint tls_send_list (nodes fuel : nat) (self it last : ptr) : TLS Z :=
  match nodes with
  | O => crash
  | S nodes =>
    n ← get_node it;
    ok ← write_loop fuel self (iol_base n) (iol_len n);
    if negb ok then mret (-1)
    else if it =? last then mret 0
    else tls_send_list nodes fuel self (iol_next n) last
  end.

Definition dill_tls_bsendl (nodes fuel : nat) (self first last : ptr) (deadline : Z) : TLS Z :=
  x ← get_tls self;
  if tl_outdone x then fail EPIPE
  else if tl_outerr x then fail ECONNRESET
  else
    put_tls self (tls_deadline deadline x);;
    tls_send_list nodes fuel self first last.

(** [while(1)], with at most [fuel] calls of [SSL_read] *)
Fixpoint read_loop (fuel : nat) (self base : ptr) (len : Z) : TLS bool :=
  match fuel with
  | O => crash
  | S fuel =>
    ssl_clear_error;;
    x ← get_tls self;
    rc ← ssl_read dill_tls_cbio (tl_ssl x) base (s32 len);
    done ← dill_tls_followup self rc;
    if done =? 0 then read_loop fuel self base len
    else
      e ← get_errno;
      if negb (bool_decide (e = E0)) then
        (if bool_decide (e = EPIPE) then upd_tls self tls_indone else upd_tls self tls_inerr);;
        mret false
      else if u64 rc =? len then mret true
      else read_loop fuel self (base + rc) (u64 (len - rc))
  end.

Fixpoint tls_recv_list (nodes fuel : nat) (self it last : ptr) : TLS Z :=
  match nodes with
  | O => crash
  | S nodes =>
    n ← get_node it;
    ok ← read_loop fuel self (iol_base n) (iol_len n);
    if negb ok then mret (-1)
    else if it =? last then mret 0
    else tls_recv_list nodes fuel self (iol_next n) last
  end.

Definition dill_tls_brecvl (nodes fuel : nat) (self first last : ptr) (deadline : Z) : TLS Z :=
  x ← get_tls self;
  if tl_indone x then fail EPIPE
  else if tl_inerr x then fail ECONNRESET
  else
    put_tls self (tls_deadline deadline x);;
    tls_recv_list nodes fuel self first last.
End Tls.

(** Closing an object: a TLS socket with what is below it, [depth] layers at most, or another
    one by [close]; [below] tells the sockets of the system *)
Fixpoint tls_hclose {K} `{NetN : Net (tlsnet K)} `{SslN : OpenSsl (tlsnet K)} (below : Z → bool)
    (close : sobj → IO (tlsnet K) unit) (depth : nat) (v : sobj) : IO (tlsnet K) unit :=
  match depth with
  | O => crash
  | S depth =>
    match v with
    | ONet p => if below p then close v else dill_tls_hclose (tls_hclose below close depth) p
    | _ => close v
    end
  end.
