(* ===== verification/Tlsspec.v ===== *)
(** What a TLS socket promises ([tls.c]), given what OpenSSL promises about plaintext. *)

From Stdlib Require Import ZArith Lia.
From stdpp Require Import base gmap list.
From S2P Require Import Prelude Handle Iol Sock Http Ws Stream Fd Fdspec Tls.
Open Scope Z_scope.

(** * The sockets below *)

(** They leave the TLS objects alone, and set [errno] when they fail. *)
Class TlsUnder (K : Type) {NetN : Net (tlsnet K)} := {
  under_send n f l d s rc s' : net_sendl n f l d s = Some (rc, s') →
    tn_objs (io_net s') = tn_objs (io_net s) ∧ (rc = -1 → io_errno s' ≠ E0);
  under_recv n f l d s rc s' : net_recvl n f l d s = Some (rc, s') →
    tn_objs (io_net s') = tn_objs (io_net s) ∧ (rc = -1 → io_errno s' ≠ E0);
}.

(** From [s] to [s'] the lists, the objects and the memory outside [P] are the same. *)
Record same_but {K} (P : Z → Prop) (s s' : io (tlsnet K)) : Prop := {
  sb_nodes : io_nodes s' = io_nodes s;
  sb_objs : tn_objs (io_net s') = tn_objs (io_net s);
  sb_dom : dom (io_mem s') = dom (io_mem s);
  sb_mem : ∀ a, ¬ P a → io_mem s' !! a = io_mem s !! a;
}.

Lemma same_but_refl {K} P (s : io (tlsnet K)) : same_but P s s.
Proof. done. Qed.
Lemma same_but_trans {K} P (s1 s2 s3 : io (tlsnet K)) : same_but P s1 s2 → same_but P s2 s3 → same_but P s1 s3.
Proof.
  intros [N1 O1 D1 M1] [N2 O2 D2 M2]. constructor; [congruence..|].
  intros a Ha. rewrite M2, M1; done.
Qed.
Lemma same_but_weaken {K} (P Q : Z → Prop) (s1 s2 : io (tlsnet K)) : (∀ a, P a → Q a) → same_but P s1 s2 → same_but Q s1 s2.
Proof. intros HPQ [N1 O1 D1 M1]. constructor; auto. Qed.

(** Steps of the library alone *)
Definition set_k {K} (k : K) (s : io (tlsnet K)) : io (tlsnet K) :=
  set_io_net (mk_tlsnet k (tn_objs (io_net s)) (tn_cbio (io_net s)) (tn_init (io_net s))) s.

(** * What OpenSSL asks of a BIO: it is blocking, so that all is transferred or there is an error;
    and it answers the commands that OpenSSL sends, which are these three (any other one ends in
    [dill_assert(0)]). *)
Record bio_contract {K} (meth : bio_method (tlsnet K)) (data : ptr) (I : io (tlsnet K) → Prop) : Prop := {
  bc_write buf len bs s : I s → 0 < buf → 0 < len < 2 ^ 31 → gather (io_mem s) (arr buf len) = Some bs →
    ∃ rc s', bio_write meth data buf len s = Some (rc, s') ∧ I s' ∧ same_but (λ _, False) s s' ∧
      (rc = len ∨ (rc = -1 ∧ io_errno s' ≠ E0));
  bc_read buf len s : I s → 0 < buf → 0 < len < 2 ^ 31 → allocated (io_mem s) (arr buf len) →
    ∃ rc s', bio_read meth data buf len s = Some (rc, s') ∧ I s' ∧
      same_but (λ a, Some a ∈ arr buf len) s s' ∧ (rc = len ∨ (rc = -1 ∧ io_errno s' ≠ E0));
  bc_ctrl cmd s : cmd = BIO_CTRL_FLUSH ∨ cmd = BIO_CTRL_PUSH ∨ cmd = BIO_CTRL_POP →
    ∃ rc, bio_ctrl meth cmd s = Some (rc, s) ∧ (cmd = BIO_CTRL_FLUSH → rc = 1);
  bc_lib k s : I s → I (set_k k s);
  bc_mem m s : dom m = dom (io_mem s) → I s → I (set_io_mem m s);
}.

Section Cbio.
Context {K : Type} {NetN : Net (tlsnet K)} {LawsN : NetLaws (tlsnet K)} {UnderN : TlsUnder K}.
Context (close : sobj → IO (tlsnet K) unit).

(** The object at [self] is [x], and its handle is that of the bytestream [n]. *)
Record tls_over (self : ptr) (x : dill_tls_sock) (n : Z) (s : io (tlsnet K)) : Prop := {
  to_wf : wf_io s;
  to_obj : tn_objs (io_net s) !! self = Some x;
  to_answers : answers (tl_u x) dill_bsock_type n s;
}.

Lemma with_iol_errno {A} nd (k : ptr → IO (tlsnet K) A) s r s' : with_iol nd k s = Some (r, s') →
  ∃ s1, k (io_next s) (set_io_nodes (<[io_next s := nd]> (io_nodes s)) (set_io_next (io_next s + 1) s)) = Some (r, s1) ∧
    io_errno s' = io_errno s1 ∧ io_net s' = io_net s1.
Proof.
  unfold with_iol. intros H. destruct (k _ _) as [[r1 s1]|] eqn:E; [|done]. cbn in H. simplify_eq. by exists s1.
Qed.

(** The result of [dill_bsend] and [dill_brecv] on a handle that answers *)
Lemma bsend_under u n buf len d s rc s' : answers u dill_bsock_type n s → dill_bsend close u buf len d s = Some (rc, s') →
  tn_objs (io_net s') = tn_objs (io_net s) ∧ (rc = -1 → io_errno s' ≠ E0).
Proof.
  intros Ha H. destruct (hquery_answers close u dill_bsock_type n s Ha) as (c & E & _).
  unfold dill_bsend in H. erewrite IO_bind_done in H by exact E. destruct Ha as (_ & _ & _ & _ & _ & Hp).
  rewrite (proj2 (Z.eqb_neq _ _) Hp) in H. apply with_iol_errno in H as (s1 & H & He & Hn).
  apply under_send in H as [Ho Hrc]. rewrite Hn, He. done.
Qed.

Lemma brecv_under u n buf len d s rc s' : answers u dill_bsock_type n s → dill_brecv close u buf len d s = Some (rc, s') →
  tn_objs (io_net s') = tn_objs (io_net s) ∧ (rc = -1 → io_errno s' ≠ E0).
Proof.
  intros Ha H. destruct (hquery_answers close u dill_bsock_type n s Ha) as (c & E & _).
  unfold dill_brecv in H. erewrite IO_bind_done in H by exact E. destruct Ha as (_ & _ & _ & _ & _ & Hp).
  rewrite (proj2 (Z.eqb_neq _ _) Hp) in H. apply with_iol_errno in H as (s1 & H & He & Hn).
  apply under_recv in H as [Ho Hrc]. rewrite Hn, He. done.
Qed.

Lemma get_tls_done self x (s : io (tlsnet K)) : tn_objs (io_net s) !! self = Some x → get_tls self s = Some (x, s).
Proof. intros E. unfold get_tls. by rewrite E. Qed.

(** The custom BIO keeps its contract. *)
Lemma cbio_contract self x n : net_bytestream n = true →
  bio_contract (dill_tls_cbio close) self (tls_over self x n).
Proof.
  intros Hn. constructor.
  - intros buf len bs s [Hwf Ho Ha] Hb Hlen Hg. cbn [bio_write dill_tls_cbio].
    assert (H : wp (dill_bsend close (tl_u x) buf len (tl_deadline x)) (λ rc s', (rc = 0 ∨ rc = -1) ∧
      wf_io s' ∧ answers (tl_u x) dill_bsock_type n s' ∧ io_nodes s' = io_nodes s ∧ io_mem s' = io_mem s) s).
    { eapply Stream.wp_bsend; [done|done|done|lia|lia|done|]. intros rc c nt e Hk [_ Hrc]. split; [naive_solver|].
      split; [|split; [by apply Hk|done]]. eapply wf_same; [exact Hwf|done..|cbn; lia]. }
    unfold wp in H. destruct (dill_bsend _ _ _ _ _ s) as [[rc s']|] eqn:E; [|done].
    destruct H as (Hrc & Hwf' & Ha' & Hn' & Hm'). destruct (bsend_under _ _ _ _ _ _ _ _ Ha E) as [Hobj He].
    unfold dill_tls_cbio_write. erewrite IO_bind_done by (by apply get_tls_done). erewrite IO_bind_done by exact E.
    exists (if rc <? 0 then -1 else len), s'. split; [by destruct (rc <? 0)|].
    split; [constructor; [done|by rewrite Hobj|done]|]. split; [constructor; [done|done|by rewrite Hm'|by rewrite Hm']|].
    destruct Hrc as [-> | ->]; [by left|right; auto].
  - intros buf len s [Hwf Ho Ha] Hb Hlen Hal. cbn [bio_read dill_tls_cbio].
    assert (H : wp (dill_brecv close (tl_u x) buf len (tl_deadline x)) (λ rc s', (rc = 0 ∨ rc = -1) ∧
      wf_io s' ∧ answers (tl_u x) dill_bsock_type n s' ∧ io_nodes s' = io_nodes s ∧ dom (io_mem s') = dom (io_mem s) ∧
      ∀ a, Some a ∉ arr buf len → io_mem s' !! a = io_mem s !! a) s).
    { eapply wp_brecv; [done|done|done|lia|by left|done|]. intros rc c nt e m Hk (_ & Hd & Hoth & Hrc). split; [naive_solver|].
      split; [|split; [by apply Hk|done]]. eapply wf_same; [exact Hwf|done..|cbn; lia]. }
    unfold wp in H. destruct (dill_brecv _ _ _ _ _ s) as [[rc s']|] eqn:E; [|done].
    destruct H as (Hrc & Hwf' & Ha' & Hn' & Hd' & Hm'). destruct (brecv_under _ _ _ _ _ _ _ _ Ha E) as [Hobj He].
    unfold dill_tls_cbio_read. erewrite IO_bind_done by (by apply get_tls_done). erewrite IO_bind_done by exact E.
    exists (if rc <? 0 then -1 else len), s'. split; [by destruct (rc <? 0)|].
    split; [constructor; [done|by rewrite Hobj|done]|]. split; [by constructor|].
    destruct Hrc as [-> | ->]; [by left|right; auto].
  - intros cmd s [->|[-> | ->]]; by eexists.
  - intros k s [Hwf Ho Ha]. constructor; [|done|done]. eapply wf_same; [exact Hwf|done..|cbn; lia].
  - intros m s Hd [Hwf Ho Ha]. constructor; [|done|done]. eapply wf_same; [exact Hwf|done|done|cbn; lia].
Qed.
End Cbio.

(** * What OpenSSL promises about a connection *)

(** Of connection [ssl]: the plaintext it has been given to send, the plaintext it will
    deliver, the data of its BIO, and the memory that belongs to the library *)
Class OpenSslLaws (K : Type) {SslN : OpenSsl (tlsnet K)} := {
  ssl_out : ptr → K → list Z;
  ssl_in : ptr → K → list Z;
  ssl_bio : ptr → K → option ptr;
  ssl_mem : ptr → K → Z → Prop;
  clear_law ssl s : ∃ k, ssl_clear_error s = Some (tt, set_k k s) ∧
    ssl_out ssl k = ssl_out ssl (tn_k (io_net s)) ∧ ssl_in ssl k = ssl_in ssl (tn_k (io_net s)) ∧
    ssl_bio ssl k = ssl_bio ssl (tn_k (io_net s)) ∧ ssl_mem ssl k = ssl_mem ssl (tn_k (io_net s));
  errors_law ssl s : ∃ k, ssl_get_errors s = Some (tt, set_k k s) ∧
    ssl_out ssl k = ssl_out ssl (tn_k (io_net s)) ∧ ssl_in ssl k = ssl_in ssl (tn_k (io_net s)) ∧
    ssl_bio ssl k = ssl_bio ssl (tn_k (io_net s)) ∧ ssl_mem ssl k = ssl_mem ssl (tn_k (io_net s));
  (** [SSL_get_error] inspects the state. *)
  get_error_law ssl rc s : ∃ code, ssl_get_error ssl rc s = Some (code, s);
  (** writing takes a part of the buffer, not none of it, or fails; what it needs of the BIO is
      its contract *)
  write_law meth data I ssl buf n bs s : bio_contract meth data I → I s →
    ssl_bio ssl (tn_k (io_net s)) = Some data → 0 < buf → 0 < n < 2 ^ 31 → gather (io_mem s) (arr buf n) = Some bs →
    ∃ rc s' code, ssl_write meth ssl buf n s = Some (rc, s') ∧ ssl_get_error ssl rc s' = Some (code, s') ∧ I s' ∧
      same_but (ssl_mem ssl (tn_k (io_net s))) s s' ∧ ssl_in ssl (tn_k (io_net s')) = ssl_in ssl (tn_k (io_net s)) ∧
      ssl_bio ssl (tn_k (io_net s')) = Some data ∧ ssl_mem ssl (tn_k (io_net s')) = ssl_mem ssl (tn_k (io_net s)) ∧
      match code with
      | SslNone => 0 < rc ≤ n ∧ ssl_out ssl (tn_k (io_net s')) = ssl_out ssl (tn_k (io_net s)) ++ take (Z.to_nat rc) bs
      | SslZeroReturn | SslSsl => ssl_out ssl (tn_k (io_net s')) = ssl_out ssl (tn_k (io_net s))
      | SslSyscall => rc = -1 ∧ io_errno s' ≠ E0 ∧ ssl_out ssl (tn_k (io_net s')) = ssl_out ssl (tn_k (io_net s))
      | _ => False
      end;
  (** reading delivers the next bytes into the buffer, at least one, or fails *)
  read_law meth data I ssl buf n s : bio_contract meth data I → I s →
    ssl_bio ssl (tn_k (io_net s)) = Some data → 0 < buf → 0 < n < 2 ^ 31 → allocated (io_mem s) (arr buf n) →
    ∃ rc s' code, ssl_read meth ssl buf n s = Some (rc, s') ∧ ssl_get_error ssl rc s' = Some (code, s') ∧ I s' ∧
      same_but (λ a, Some a ∈ arr buf n ∨ ssl_mem ssl (tn_k (io_net s)) a) s s' ∧
      ssl_out ssl (tn_k (io_net s')) = ssl_out ssl (tn_k (io_net s)) ∧
      ssl_bio ssl (tn_k (io_net s')) = Some data ∧ ssl_mem ssl (tn_k (io_net s')) = ssl_mem ssl (tn_k (io_net s)) ∧
      match code with
      | SslNone => 0 < rc ≤ n ∧ ∃ bs, Z.of_nat (length bs) = rc ∧
          ssl_in ssl (tn_k (io_net s)) = bs ++ ssl_in ssl (tn_k (io_net s')) ∧
          ∀ a, ¬ ssl_mem ssl (tn_k (io_net s)) a → io_mem s' !! a = scatter (arr buf rc) bs (io_mem s) !! a
      | SslZeroReturn | SslSsl => ∃ bs, ssl_in ssl (tn_k (io_net s)) = bs ++ ssl_in ssl (tn_k (io_net s'))
      | SslSyscall => rc = -1 ∧ io_errno s' ≠ E0 ∧ ∃ bs, ssl_in ssl (tn_k (io_net s)) = bs ++ ssl_in ssl (tn_k (io_net s'))
      | _ => False
      end;
}.

Section Tlsspec.
Context {K : Type} {NetN : Net (tlsnet K)} {LawsN : NetLaws (tlsnet K)} {UnderN : TlsUnder K}
  {SslN : OpenSsl (tlsnet K)} {SslLawsN : OpenSslLaws K}.
Context (close : sobj → IO (tlsnet K) unit).
Local Abbreviation state := (io (tlsnet K)).

(** The connection of [self], which is [x], over the bytestream [n] *)
Definition secured (self : ptr) (x : dill_tls_sock) (n : Z) (s : state) : Prop :=
  tls_over self x n s ∧ ssl_bio (tl_ssl x) (tn_k (io_net s)) = Some self.

Definition plain_out (x : dill_tls_sock) (s : state) : list Z := ssl_out (tl_ssl x) (tn_k (io_net s)).
Definition plain_in (x : dill_tls_sock) (s : state) : list Z := ssl_in (tl_ssl x) (tn_k (io_net s)).
Definition lib_mem (x : dill_tls_sock) (s : state) : Z → Prop := ssl_mem (tl_ssl x) (tn_k (io_net s)).

(** A step of a call on the connection: only memory in [P], or of the library, has changed. *)
Record advanced (self : ptr) (x : dill_tls_sock) (n : Z) (P : Z → Prop) (s s' : state) : Prop := {
  ad_secured : secured self x n s';
  ad_same : same_but (λ a, P a ∨ lib_mem x s a) s s';
  ad_lib : lib_mem x s' = lib_mem x s;
}.

Lemma advanced_trans self x n P s1 s2 s3 : advanced self x n P s1 s2 → advanced self x n P s2 s3 → advanced self x n P s1 s3.
Proof.
  intros [S1 B1 L1] [S2 B2 L2]. rewrite L1 in B2. constructor; [done|by eapply same_but_trans|congruence].
Qed.

(** The follow-up of a call with result [rc] and code [code] *)
Lemma wp_followup self x n rc code (s : state) (Q : Z → state → Prop) : secured self x n s →
  ssl_get_error (tl_ssl x) rc s = Some (code, s) →
  match code with
  | SslNone => Q 1 (set_io_errno E0 s)
  | SslZeroReturn => Q 1 (set_io_errno EPIPE s)
  | SslSyscall => rc = -1 ∧ io_errno s ≠ E0 ∧ Q 1 s
  | SslSsl => ∀ k, ssl_out (tl_ssl x) k = plain_out x s → ssl_in (tl_ssl x) k = plain_in x s →
      ssl_bio (tl_ssl x) k = Some self → ssl_mem (tl_ssl x) k = lib_mem x s → Q 1 (set_io_errno EFAULT (set_k k s))
  | _ => False
  end → wp (dill_tls_followup self rc) Q s.
Proof.
  intros [Hs Hb] He HQ. apply wp_bind. unfold wp at 1. rewrite (get_tls_done self x) by apply Hs.
  apply wp_bind. unfold wp at 1. rewrite He. destruct code; try done.
  - destruct HQ as (-> & Hne & HQ). apply wp_bind, wp_assert; [done|]. apply wp_bind, wp_gets.
    by rewrite bool_decide_false.
  - apply wp_bind. unfold dill_tls_process_errors. apply wp_bind.
    destruct (errors_law (tl_ssl x) s) as (k & E & H1 & H2 & H3 & H4). unfold wp at 1. rewrite E.
    apply wp_modify, wp_ret. apply HQ; try done. congruence.
Qed.
(** ** Sending *)

Lemma secured_errno self x n e (s : state) : secured self x n s → secured self x n (set_io_errno e s).
Proof. intros [[[H1 H2 H3 H4] Ho Ha] Hb]. done. Qed.

(** The call of [SSL_write] and its follow-up: true when a part of the buffer is sent *)
Definition sent_part (self : ptr) (x : dill_tls_sock) (n len : Z) (bs : list Z) (s : state) (rc : Z) (s' : state) : Prop :=
  advanced self x n (λ _, False) s s' ∧ plain_in x s' = plain_in x s ∧
  ((io_errno s' = E0 ∧ 0 < rc ≤ len ∧ plain_out x s' = plain_out x s ++ take (Z.to_nat rc) bs) ∨
   (io_errno s' ≠ E0 ∧ plain_out x s' = plain_out x s)).

Lemma wp_clear self x n (Q : unit → state → Prop) s : secured self x n s →
  (∀ s', advanced self x n (λ _, False) s s' → io_mem s' = io_mem s → plain_in x s' = plain_in x s →
    plain_out x s' = plain_out x s → Q tt s') → wp ssl_clear_error Q s.
Proof.
  intros [Hs Hb] HQ. destruct (clear_law (tl_ssl x) s) as (k & E & H1 & H2 & H3 & H4). unfold wp. rewrite E.
  assert (Hs' : tls_over self x n (set_k k s)) by (destruct Hs as [[? ? ? ?] ? ?]; by constructor).
  apply HQ; try done. constructor; [split; [done|cbn; congruence]|done|done].
Qed.

Lemma wp_write {A} self x n base len bs (again : IO (tlsnet K) A) (k : Z → IO (tlsnet K) A) (Q : A → state → Prop) s :
  net_bytestream n = true → secured self x n s → 0 < base → 0 < len < 2 ^ 31 → gather (io_mem s) (arr base len) = Some bs →
  (∀ rc s', sent_part self x n len bs s rc s' → wp (k rc) Q s') →
  wp (rc ← ssl_write (dill_tls_cbio close) (tl_ssl x) base len; done ← dill_tls_followup self rc;
      if done =? 0 then again else k rc) Q s.
Proof.
  intros Hn Hsec Hbase Hlen Hg HQ. pose proof Hsec as [Hs Hb].
  destruct (write_law (dill_tls_cbio close) self (tls_over self x n) (tl_ssl x) base len bs s
    (cbio_contract close self x n Hn) Hs Hb Hbase Hlen Hg) as (rc & s1 & code & E & Ee & HI & Hsame & Hin & Hbio & Hmem & Hcode).
  apply wp_bind. unfold wp at 1. rewrite E.
  assert (Had : ∀ e, advanced self x n (λ _, False) s (set_io_errno e s1)).
  { intros e. constructor; [by apply secured_errno|eapply same_but_weaken; [|destruct Hsame; by constructor]; auto|done]. }
  assert (Had1 : advanced self x n (λ _, False) s s1).
  { constructor; [done|by eapply same_but_weaken; [|exact Hsame]; auto|done]. }
  apply wp_bind. apply (wp_followup self x n rc code); [done|done|].
  destruct code; cbn in Hcode; try done.
  - apply HQ. split; [done|]. split; [done|]. left. done.
  - apply HQ. split; [done|]. split; [done|]. right. done.
  - destruct Hcode as (-> & He & Ho). split; [done|]. split; [done|]. apply HQ. split; [done|]. split; [done|]. by right.
  - intros k' H1 H2 H3 H4. apply HQ. split.
    + constructor.
      * destruct HI as [[? ? ? ?] ? ?]. split; [by constructor|done].
      * eapply same_but_weaken; [|destruct Hsame; by constructor]. auto.
      * unfold lib_mem. cbn. rewrite H4. done.
    + split; [unfold plain_in in *; cbn; congruence|right]. split; [done|]. unfold plain_out in *. cbn. congruence.
Qed.

(** The loop over a buffer *)
Lemma write_loop_spec self x n fuel : net_bytestream n = true → ∀ base len bs s, secured self x n s →
  0 ≤ len < 2 ^ 31 → (Z.to_nat len < fuel)%nat → 0 < base ∨ len = 0 → gather (io_mem s) (arr base len) = Some bs →
  (∀ a, Some a ∈ arr base len → ¬ lib_mem x s a) →
  wp (write_loop close fuel self base len) (λ ok s', ∃ s1, advanced self x n (λ _, False) s s1 ∧ plain_in x s1 = plain_in x s ∧
    if ok : bool then s' = s1 ∧ plain_out x s1 = plain_out x s ++ bs
    else s' = with_tls self (tls_outerr x) s1 ∧ ∃ k, plain_out x s1 = plain_out x s ++ take k bs) s.
Proof.
  intros Hn. induction fuel as [|fuel IH]; intros base len bs s Hsec Hlen Hf Hb Hg Hlib; [lia|].
  cbn [write_loop]. destruct (Z.eqb_spec len 0) as [->|Hne].
  { assert (bs = []) as ->.
    { apply gather_some in Hg as (_ & Hl & _). pose proof (length_arr base 0 ltac:(lia)). destruct bs; [done|cbn in *; lia]. }
    apply wp_ret. exists s. split; [by constructor|]. split; [done|]. split; [done|]. by rewrite app_nil_r. }
  destruct Hb as [Hb|]; [|done].
  apply wp_bind, (wp_clear self x n); [done|]. intros s0 Had0 Hm0 Hin0 Hout0.
  apply wp_bind. unfold wp at 1. rewrite (get_tls_done self x) by apply Had0. rewrite s32_small by lia.
  apply (wp_write self x n base len bs); [done|apply Had0|done|lia|by rewrite Hm0|].
  intros rc s1 (Had1 & Hin1 & Hres). pose proof (advanced_trans _ _ _ _ _ _ _ Had0 Had1) as Had.
  apply wp_bind, wp_gets. destruct Hres as [(He & Hrc & Ho)|(He & Ho)].
  - rewrite He. cbn [negb bool_decide]. rewrite bool_decide_true by done. cbn [negb].
    rewrite <- (firstn_skipn (Z.to_nat rc) bs).
    unfold u64. rewrite Z.mod_small by lia.
    assert (Hsplit : arr base len = arr base rc ++ arr (base + rc) (len - rc)).
    { rewrite <- arr_app by lia. f_equal. lia. }
    assert (Hin2 : ∀ a, Some a ∈ arr (base + rc) (len - rc) → Some a ∈ arr base len).
    { intros a Ha. rewrite Hsplit. apply elem_of_app. by right. }
    assert (Hmem1 : ∀ a, Some a ∈ arr base len → io_mem s1 !! a = io_mem s !! a).
    { intros a Ha. apply (sb_mem _ _ _ (ad_same _ _ _ _ _ _ Had)). intros [[]|Hl]. by apply (Hlib a). }
    assert (Hg1 : gather (io_mem s1) (arr (base + rc) (len - rc)) = Some (drop (Z.to_nat rc) bs)).
    { rewrite (gather_ext _ (io_mem s)) by (intros a Ha; apply Hmem1; auto).
      pose proof (gather_drop _ _ (Z.to_nat rc) _ Hg) as Hd. rewrite Hsplit, drop_app_length' in Hd; [done|].
      pose proof (length_arr base rc ltac:(lia)). lia. }
    eapply wp_mono; [apply (IH (base + rc) (len - rc) (drop (Z.to_nat rc) bs) s1)|].
    + apply Had.
    + lia.
    + lia.
    + left. lia.
    + done.
    + intros a Ha. rewrite (ad_lib _ _ _ _ _ _ Had). auto.
    + intros ok s' (s2 & Had2 & Hin' & Hok). exists s2. split; [by eapply advanced_trans|]. split; [congruence|].
      destruct ok; destruct Hok as [-> Hok]; (split; [done|]).
      * rewrite Hok, Ho, Hout0. by rewrite <- app_assoc.
      * destruct Hok as [k Hk]. exists (Z.to_nat rc + k)%nat. rewrite Hk, Ho, Hout0, <- app_assoc. f_equal.
        rewrite take_app. pose proof (gather_some _ _ _ Hg) as (_ & Hl & _). pose proof (length_arr base len ltac:(lia)).
        rewrite length_take, Nat.min_l by lia. rewrite take_take, Nat.min_r by lia. f_equal. f_equal. lia.
  - rewrite bool_decide_false by done. cbn [negb]. apply wp_bind. unfold upd_tls. apply wp_bind.
    unfold wp at 1. rewrite (get_tls_done self x) by apply Had. apply wp_modify, wp_ret. exists s1.
    split; [done|]. split; [congruence|]. split; [done|]. exists 0%nat. rewrite Ho, Hout0. cbn. by rewrite app_nil_r.
Qed.
(** ** Lists of buffers *)

(** Their lengths are values of type [int], and one more than what the loops may need of fuel. *)
Definition int_sized (fuel : nat) (h : nodes) (l : list ptr) : Prop :=
  ∀ y, y ∈ l → 0 ≤ iol_len (node h y) < 2 ^ 31 ∧ (Z.to_nat (iol_len (node h y)) < fuel)%nat.

(** The memory of the library is its own. *)
Definition apart (sl : list (option ptr)) (x : dill_tls_sock) (s : state) : Prop := ∀ a, Some a ∈ sl → ¬ lib_mem x s a.

Lemma slots_arr nd : slots nd = arr (iol_base nd) (iol_len nd).
Proof. done. Qed.

(** The first buffer of a list, and the rest *)
Lemma list_at_cons h it y l : list_at h it (y :: l) → ∃ nd, y = it ∧ h !! y = Some nd ∧ node h y = nd ∧
  flat h (y :: l) = arr (iol_base nd) (iol_len nd) ++ flat h l ∧ list_at h (iol_next nd) l ∧ 0 ≤ iol_base nd.
Proof.
  intros Hl. pose proof Hl as ((-> & Hy & nd & Hnd & _) & _). exists nd. split; [done|]. split; [done|].
  split; [by apply node_lookup|]. split; [cbn; by rewrite (node_lookup _ _ _ Hnd)|].
  destruct (list_at_after h y [] y l nd Hl Hnd) as (H1 & _ & H2). done.
Qed.

Lemma last_iff (y lst : ptr) l : last (y :: l) = Some lst → NoDup (y :: l) → (y = lst ↔ l = []).
Proof.
  intros Hlast [Hy _]%NoDup_cons. destruct l as [|z l]; [cbn in Hlast; by simplify_eq|].
  split; [intros ->|done]. exfalso. apply Hy. rewrite last_cons_cons in Hlast. by apply last_Some_elem_of in Hlast.
Qed.

Lemma send_list_spec self x n fuel lst : net_bytestream n = true → ∀ l nodes it bs s, secured self x n s →
  list_at (io_nodes s) it l → last l = Some lst → (length l ≤ nodes)%nat → int_sized fuel (io_nodes s) l →
  gather (io_mem s) (flat (io_nodes s) l) = Some bs → apart (flat (io_nodes s) l) x s →
  wp (tls_send_list close nodes fuel self it lst) (λ rc s', ∃ s1, advanced self x n (λ _, False) s s1 ∧ plain_in x s1 = plain_in x s ∧
    ((rc = 0 ∧ s' = s1 ∧ plain_out x s1 = plain_out x s ++ bs) ∨
     (rc = -1 ∧ s' = with_tls self (tls_outerr x) s1 ∧ ∃ k, plain_out x s1 = plain_out x s ++ take k bs))) s.
Proof.
  intros Hn. induction l as [|y l IH]; intros nodes it bs s Hsec Hl Hlast Hnodes Hsz Hg Hap; [done|].
  destruct nodes as [|nodes]; [cbn in Hnodes; lia|]. cbn [tls_send_list].
  destruct (list_at_cons _ _ _ _ Hl) as (nd & -> & Hnd & Enode & Eflat & Hrest & Hbase).
  destruct (Hsz it ltac:(left)) as [Hlen Hfuel]. rewrite Enode in Hlen, Hfuel.
  rewrite Eflat, gather_app in Hg. destruct (gather (io_mem s) (arr _ _)) as [b1|] eqn:Hg1; [|done].
  destruct (gather (io_mem s) (flat _ l)) as [b2|] eqn:Hg2; [|done]. cbn in Hg. injection Hg as <-.
  apply wp_bind, (wp_get_node _ nd); [done|]. apply wp_bind.
  eapply wp_mono; [apply (write_loop_spec self x n fuel Hn (iol_base nd) (iol_len nd) b1)|]; try done.
  { destruct (decide (iol_len nd = 0)); [by right|left]. pose proof (gather_some _ _ _ Hg1) as (_ & _ & Hnone).
    destruct (decide (iol_base nd = 0)) as [E|]; [|lia]. exfalso. apply Hnone. unfold arr, slots. cbn. rewrite E.
    cbn. destruct (Z.to_nat (iol_len nd)) eqn:?; [lia|left]. }
  { intros a Ha. apply Hap. rewrite Eflat. apply elem_of_app. by left. }
  intros ok s' (s1 & Had & Hin & Hok). destruct ok; destruct Hok as [-> Hok]; cbn [negb].
  2: { apply wp_ret. exists s1. split; [done|]. split; [done|]. right. split; [done|]. split; [done|].
    destruct Hok as [k Hk]. exists (k `min` length b1)%nat. rewrite Hk, take_app_le by lia. f_equal.
    destruct (Nat.le_gt_cases k (length b1)); [by rewrite Nat.min_l|rewrite Nat.min_r, !take_ge by lia; done]. }
  pose proof (last_iff it lst l Hlast (path_nodup _ _ _ (proj1 Hl))) as Hiff.
  destruct (Z.eqb_spec it lst) as [E|E].
  - apply Hiff in E as ->. injection Hg2 as <-. apply wp_ret. exists s1. split; [done|]. split; [done|]. left.
    rewrite app_nil_r. done.
  - assert (Hnodes1 : io_nodes s1 = io_nodes s) by apply (ad_same _ _ _ _ _ _ Had).
    assert (Hmem1 : gather (io_mem s1) (flat (io_nodes s) l) = Some b2).
    { rewrite (gather_ext _ (io_mem s)); [done|]. intros a Ha. apply (sb_mem _ _ _ (ad_same _ _ _ _ _ _ Had)).
      intros [[]|Hlm]. eapply Hap; [|exact Hlm]. rewrite Eflat. apply elem_of_app. by right. }
    eapply wp_mono; [apply (IH nodes (iol_next nd) b2 s1)|]; rewrite ?Hnodes1; try done.
    + apply Had.
    + destruct l; [by destruct E; apply Hiff|done].
    + cbn in Hnodes. lia.
    + intros z Hz. apply Hsz. by right.
    + intros a Ha. rewrite (ad_lib _ _ _ _ _ _ Had). apply Hap. rewrite Eflat. apply elem_of_app. by right.
    + intros rc s' (s2 & Had2 & Hin2 & Hres). exists s2. split; [by eapply advanced_trans|]. split; [congruence|].
      destruct Hres as [(-> & -> & Ho)|(-> & -> & k & Ho)]; [left|right]; (split; [done|]; split; [done|]).
      * by rewrite Ho, Hok, <- app_assoc.
      * exists (length b1 + k)%nat. rewrite Ho, Hok, <- app_assoc. f_equal. by rewrite take_app_add.
Qed.
(** ** Receiving *)

(** The call of [SSL_read] and its follow-up *)
Definition got_part (self : ptr) (x : dill_tls_sock) (n base len : Z) (s : state) (rc : Z) (s' : state) : Prop :=
  advanced self x n (λ a, Some a ∈ arr base len) s s' ∧ plain_out x s' = plain_out x s ∧
  ((io_errno s' = E0 ∧ 0 < rc ≤ len ∧ ∃ bs, Z.of_nat (length bs) = rc ∧ plain_in x s = bs ++ plain_in x s' ∧
      ∀ a, ¬ lib_mem x s a → io_mem s' !! a = scatter (arr base rc) bs (io_mem s) !! a) ∨
   (io_errno s' ≠ E0 ∧ ∃ bs, plain_in x s = bs ++ plain_in x s')).

Lemma wp_read {A} self x n base len (again : IO (tlsnet K) A) (k : Z → IO (tlsnet K) A) (Q : A → state → Prop) s :
  net_bytestream n = true → secured self x n s → 0 < base → 0 < len < 2 ^ 31 → allocated (io_mem s) (arr base len) →
  (∀ rc s', got_part self x n base len s rc s' → wp (k rc) Q s') →
  wp (rc ← ssl_read (dill_tls_cbio close) (tl_ssl x) base len; done ← dill_tls_followup self rc;
      if done =? 0 then again else k rc) Q s.
Proof.
  intros Hn Hsec Hnn Hlen Hal HQ. pose proof Hsec as [Hs Hb].
  destruct (read_law (dill_tls_cbio close) self (tls_over self x n) (tl_ssl x) base len s
    (cbio_contract close self x n Hn) Hs Hb Hnn Hlen Hal) as (rc & s1 & code & E & Ee & HI & Hsame & Hout & Hbio & Hmem & Hcode).
  apply wp_bind. unfold wp at 1. rewrite E.
  assert (Had : ∀ e, advanced self x n (λ a, Some a ∈ arr base len) s (set_io_errno e s1)).
  { intros e. constructor; [by apply secured_errno|destruct Hsame; by constructor|done]. }
  assert (Had1 : advanced self x n (λ a, Some a ∈ arr base len) s s1) by by constructor.
  apply wp_bind. apply (wp_followup self x n rc code); [done|done|].
  destruct code; cbn in Hcode; try done.
  - apply HQ. split; [done|]. split; [done|]. left. done.
  - apply HQ. split; [done|]. split; [done|]. right. done.
  - destruct Hcode as (-> & He & Ho). split; [done|]. split; [done|]. apply HQ. split; [done|]. split; [done|]. by right.
  - intros k' H1 H2 H3 H4. apply HQ. split.
    + constructor.
      * destruct HI as [[? ? ? ?] ? ?]. split; [by constructor|done].
      * destruct Hsame; by constructor.
      * unfold lib_mem. cbn. rewrite H4. done.
    + split; [unfold plain_out in *; cbn; congruence|right]. split; [done|]. destruct Hcode as [bs Hbs]. exists bs.
      unfold plain_in in *. cbn. rewrite H2. done.
Qed.

(** The direction is marked: the end of the stream, or an error for good. *)
Definition read_failed (self : ptr) (x : dill_tls_sock) (s1 s' : state) : Prop :=
  s' = with_tls self (if bool_decide (io_errno s1 = EPIPE) then tls_indone x else tls_inerr x) s1.

Lemma read_loop_spec self x n fuel : net_bytestream n = true → ∀ base len s, secured self x n s →
  0 < len < 2 ^ 31 → (Z.to_nat len ≤ fuel)%nat → 0 < base → allocated (io_mem s) (arr base len) →
  wp (read_loop close fuel self base len) (λ ok s', ∃ s1 bs, advanced self x n (λ a, Some a ∈ arr base len) s s1 ∧
    plain_out x s1 = plain_out x s ∧ plain_in x s = bs ++ plain_in x s1 ∧
    if ok : bool then s' = s1 ∧ Z.of_nat (length bs) = len ∧
      ∀ a, ¬ lib_mem x s a → io_mem s1 !! a = scatter (arr base len) bs (io_mem s) !! a
    else read_failed self x s1 s') s.
Proof.
  intros Hn. induction fuel as [|fuel IH]; intros base len s Hsec Hlen Hf Hb Hal; [lia|].
  cbn [read_loop]. apply wp_bind, (wp_clear self x n); [done|]. intros s0 Had0 Hm0 Hin0 Hout0.
  assert (Had0' : advanced self x n (λ a, Some a ∈ arr base len) s s0).
  { destruct Had0 as [H1 H2 H3]. constructor; [done| |done]. eapply same_but_weaken; [|exact H2]. intros a [[]|]. by right. }
  apply wp_bind. unfold wp at 1. rewrite (get_tls_done self x) by apply Had0. rewrite s32_small by lia.
  apply (wp_read self x n base len); [done|apply Had0|done|lia|by rewrite Hm0|].
  intros rc s1 (Had1 & Hout1 & Hres). pose proof (advanced_trans _ _ _ _ _ _ _ Had0' Had1) as Had.
  apply wp_bind, wp_gets. destruct Hres as [(He & Hrc & b1 & Hb1 & Hin1 & Hmem1)|(He & b1 & Hin1)].
  - rewrite He, bool_decide_true by done. cbn [negb]. unfold u64. rewrite (Z.mod_small rc) by lia.
    rewrite Hm0, (ad_lib _ _ _ _ _ _ Had0) in Hmem1.
    destruct (Z.eqb_spec rc len) as [->|Hne].
    { apply wp_ret. exists s1, b1. split; [done|]. split; [congruence|]. split; [congruence|]. done. }
    rewrite Z.mod_small by lia.
    assert (Hsplit : arr base len = arr base rc ++ arr (base + rc) (len - rc)).
    { rewrite <- arr_app by lia. f_equal. lia. }
    eapply wp_mono; [apply (IH (base + rc) (len - rc) s1)|].
    + apply Had.
    + lia.
    + lia.
    + lia.
    + intros a Ha. apply elem_of_dom. rewrite (sb_dom _ _ _ (ad_same _ _ _ _ _ _ Had)). apply elem_of_dom, Hal.
      rewrite Hsplit. apply elem_of_app. by right.
    + intros ok s' (s2 & b2 & Had2 & Hout2 & Hin2 & Hok). exists s2, (b1 ++ b2).
      assert (Had2' : advanced self x n (λ a, Some a ∈ arr base len) s1 s2).
      { destruct Had2 as [H1 H2 H3]. constructor; [done| |done]. eapply same_but_weaken; [|exact H2].
        intros a [Ha|Ha]; [left|by right]. rewrite Hsplit. apply elem_of_app. by right. }
      split; [by eapply advanced_trans|]. split; [congruence|]. split; [rewrite <- Hin0, Hin1, Hin2; by rewrite app_assoc|].
      destruct ok; [|done]. destruct Hok as (-> & Hlen2 & Hmem2). split; [done|]. rewrite length_app. split; [lia|].
      intros a Ha. rewrite Hmem2 by (by rewrite (ad_lib _ _ _ _ _ _ Had)). rewrite Hsplit, scatter_app.
      assert (Hb1' : length (arr base rc) = length b1) by (pose proof (length_arr base rc ltac:(lia)); lia).
      rewrite Hb1', drop_app_length, take_app_length. apply scatter_ext. by apply Hmem1.
  - rewrite (bool_decide_false _ He). cbn [negb]. apply wp_bind.
    apply (wp_mono _ (λ _ s', read_failed self x s1 s')).
    { unfold read_failed. case_bool_decide; (apply wp_bind; unfold wp at 1; rewrite (get_tls_done self x) by apply Had; done). }
    intros [] s' Hf'. apply wp_ret. exists s1, b1. split; [done|]. split; [congruence|]. split; [congruence|done].
Qed.
(** No buffer is empty. *)
Definition filled (h : nodes) (l : list ptr) : Prop := ∀ y, y ∈ l → 0 < iol_len (node h y) ∧ iol_base (node h y) ≠ NULL.

Lemma advanced_weaken self x n (P P' : Z → Prop) s s' : (∀ a, P a → P' a) →
  advanced self x n P s s' → advanced self x n P' s s'.
Proof. intros HP [H1 H2 H3]. constructor; [done| |done]. eapply same_but_weaken; [|exact H2]. intros a [?|?]; auto. Qed.

Lemma recv_list_spec self x n fuel lst : net_bytestream n = true → ∀ l nodes it s, secured self x n s →
  list_at (io_nodes s) it l → last l = Some lst → (length l ≤ nodes)%nat → int_sized fuel (io_nodes s) l →
  filled (io_nodes s) l → allocated (io_mem s) (flat (io_nodes s) l) →
  wp (tls_recv_list close nodes fuel self it lst) (λ rc s', ∃ s1 bs,
    advanced self x n (λ a, Some a ∈ flat (io_nodes s) l) s s1 ∧ plain_out x s1 = plain_out x s ∧ plain_in x s = bs ++ plain_in x s1 ∧
    ((rc = 0 ∧ s' = s1 ∧ length bs = length (flat (io_nodes s) l) ∧
      ∀ a, ¬ lib_mem x s a → io_mem s1 !! a = scatter (flat (io_nodes s) l) bs (io_mem s) !! a) ∨
     (rc = -1 ∧ read_failed self x s1 s'))) s.
Proof.
  intros Hn. induction l as [|y l IH]; intros nodes it s Hsec Hl Hlast Hnodes Hsz Hfill Hal; [done|].
  destruct nodes as [|nodes]; [cbn in Hnodes; lia|]. cbn [tls_recv_list].
  destruct (list_at_cons _ _ _ _ Hl) as (nd & -> & Hnd & Enode & Eflat & Hrest & Hbase).
  destruct (Hsz it ltac:(left)) as [Hlen Hfuel]. destruct (Hfill it ltac:(left)) as [Hpos Hnn].
  rewrite Enode in Hlen, Hfuel, Hpos, Hnn. unfold NULL in Hnn.
  assert (Hal1 : allocated (io_mem s) (arr (iol_base nd) (iol_len nd))).
  { intros a Ha. apply Hal. rewrite Eflat. apply elem_of_app. by left. }
  apply wp_bind, (wp_get_node _ nd); [done|]. apply wp_bind.
  eapply wp_mono; [apply (read_loop_spec self x n fuel Hn (iol_base nd) (iol_len nd)); [done|lia|lia|lia|done]|].
  intros ok s' (s1 & b1 & Had & Hout & Hin & Hok).
  assert (Had' : advanced self x n (λ a, Some a ∈ flat (io_nodes s) (it :: l)) s s1).
  { eapply advanced_weaken; [|exact Had]. intros a Ha. rewrite Eflat. apply elem_of_app. by left. }
  destruct ok; cbn [negb]; [destruct Hok as (-> & Hb1 & Hmem)|].
  2: { apply wp_ret. exists s1, b1. split; [done|]. split; [done|]. split; [done|]. by right. }
  pose proof (last_iff it lst l Hlast (path_nodup _ _ _ (proj1 Hl))) as Hiff.
  pose proof (length_arr (iol_base nd) (iol_len nd) ltac:(lia)) as Hla.
  destruct (Z.eqb_spec it lst) as [E|E].
  - apply Hiff in E as ->. rewrite app_nil_r in Eflat. rewrite Eflat. apply wp_ret. exists s1, b1.
    split; [by rewrite Eflat in Had'|]. split; [done|]. split; [done|]. left. split; [done|]. split; [done|]. split; [lia|done].
  - assert (Hnodes1 : io_nodes s1 = io_nodes s) by apply (ad_same _ _ _ _ _ _ Had).
    eapply wp_mono; [apply (IH nodes (iol_next nd) s1)|]; rewrite ?Hnodes1; try done.
    + apply Had.
    + destruct l; [by destruct E; apply Hiff|done].
    + cbn in Hnodes. lia.
    + intros z Hz. apply Hsz. by right.
    + intros z Hz. apply Hfill. by right.
    + intros a Ha. apply elem_of_dom. rewrite (sb_dom _ _ _ (ad_same _ _ _ _ _ _ Had)). apply elem_of_dom, Hal.
      rewrite Eflat. apply elem_of_app. by right.
    + intros rc s' (s2 & b2 & Had2 & Hout2 & Hin2 & Hres). exists s2, (b1 ++ b2).
      split; [eapply advanced_trans; [exact Had'|eapply advanced_weaken; [|exact Had2]]|].
      { intros a Ha. rewrite Eflat. apply elem_of_app. by right. }
      split; [congruence|]. split; [rewrite Hin, Hin2; by rewrite app_assoc|].
      destruct Hres as [(-> & -> & Hl2 & Hmem2)|]; [left|by right]. split; [done|]. split; [done|].
      rewrite Eflat, !length_app. split; [lia|]. intros a Ha.
      rewrite Hmem2 by (by rewrite (ad_lib _ _ _ _ _ _ Had)). rewrite scatter_app.
      assert (Hb1' : length (arr (iol_base nd) (iol_len nd)) = length b1) by lia.
      rewrite Hb1', drop_app_length, take_app_length. apply scatter_ext. by apply Hmem.
Qed.
(** ** The operations of the socket *)

(** The object of the socket becomes [x'], the other objects and the lists stay. *)
Definition tls_now (self : ptr) (x' : dill_tls_sock) (s s' : state) : Prop :=
  tn_objs (io_net s') = <[self := x']> (tn_objs (io_net s)) ∧ io_nodes s' = io_nodes s.

(** Storing the deadline is the first step. *)
Lemma secured_deadline self x n d s : secured self x n s →
  secured self (tls_deadline d x) n (with_tls self (tls_deadline d x) s).
Proof.
  intros [[[H1 H2 H3] Ho Ha] Hb]. split; [|done]. constructor; [by constructor| |done]. cbn. apply lookup_insert_eq.
Qed.

Lemma tls_now_same self x' (P : Z → Prop) s s1 : same_but P (with_tls self x' s) s1 → tls_now self x' s s1.
Proof. intros [H1 H2 _ _]. by split. Qed.

Lemma tls_now_with self x1 x2 s s1 : tls_now self x1 s s1 → tls_now self x2 s (with_tls self x2 s1).
Proof. intros [H1 H2]. split; [|done]. cbn. rewrite H1. apply insert_insert_eq. Qed.

(** C26. Sending over TLS terminates.  When it succeeds OpenSSL has got exactly the bytes of the
    list, after those it got before; when it fails the first of them, and the socket is
    marked so that nothing can be sent any more.  What is yet to be received is the same, and
    no memory and no list is changed, except that the library may use its own memory. *)
Theorem tls_bsendl_sends self x n first lst l bs d nodes fuel s :
  secured self x n s → net_bytestream n = true → tl_outdone x = false → tl_outerr x = false →
  list_at (io_nodes s) first l → last l = Some lst → (length l ≤ nodes)%nat → int_sized fuel (io_nodes s) l →
  gather (io_mem s) (flat (io_nodes s) l) = Some bs → apart (flat (io_nodes s) l) x s →
  ∃ rc x' s', dill_tls_bsendl close nodes fuel self first lst d s = Some (rc, s') ∧ tls_now self x' s s' ∧
    (∀ a, ¬ lib_mem x s a → io_mem s' !! a = io_mem s !! a) ∧ plain_in x s' = plain_in x s ∧
    ((rc = 0 ∧ x' = tls_deadline d x ∧ plain_out x s' = plain_out x s ++ bs) ∨
     (rc = -1 ∧ x' = tls_outerr (tls_deadline d x) ∧ ∃ k, plain_out x s' = plain_out x s ++ take k bs)).
Proof.
  intros Hsec Hn Hdone Herr Hl Hlast Hnodes Hsz Hg Hap.
  unfold dill_tls_bsendl. erewrite IO_bind_done by (apply get_tls_done, Hsec). rewrite Hdone, Herr.
  erewrite IO_bind_done by done. pose proof (secured_deadline self x n d s Hsec) as Hsec0.
  set (s0 := with_tls self (tls_deadline d x) s) in *.
  pose proof (send_list_spec self (tls_deadline d x) n fuel lst Hn l nodes first bs s0 Hsec0 Hl Hlast Hnodes Hsz Hg Hap) as H.
  unfold wp in H. destruct (tls_send_list _ _ _ _ _ _ s0) as [[rc s']|]; [|done].
  destruct H as (s1 & [_ Hsame _] & Hin & Hres). pose proof (tls_now_same _ _ _ _ _ Hsame) as Hnow.
  assert (Hmem : ∀ a, ¬ lib_mem x s a → io_mem s1 !! a = io_mem s !! a).
  { intros a Ha. apply (sb_mem _ _ _ Hsame). by intros [[]|]. }
  destruct Hres as [(-> & -> & Ho)|(-> & -> & k & Ho)].
  - exists 0, (tls_deadline d x), s1. split; [done|]. split; [done|]. split; [done|]. split; [done|]. by left.
  - eexists (-1), _, _. split; [reflexivity|]. split; [by eapply tls_now_with|]. split; [done|]. split; [done|].
    right. split; [done|]. split; [done|]. by exists k.
Qed.

(** C27. Receiving over TLS terminates, for lists without empty buffers.  When it succeeds the
    buffers of the list, in order, hold the next bytes that OpenSSL delivers, and nothing
    else of them is lost; when it fails the socket is marked: the end of the stream with
    EPIPE, any other error for good.  What has been sent is the same, and no memory but the
    buffers, and that of the library, is changed. *)
Theorem tls_brecvl_receives self x n first lst l d nodes fuel s :
  secured self x n s → net_bytestream n = true → tl_indone x = false → tl_inerr x = false →
  list_at (io_nodes s) first l → last l = Some lst → (length l ≤ nodes)%nat → int_sized fuel (io_nodes s) l →
  filled (io_nodes s) l → allocated (io_mem s) (flat (io_nodes s) l) →
  ∃ rc x' bs s', dill_tls_brecvl close nodes fuel self first lst d s = Some (rc, s') ∧ tls_now self x' s s' ∧
    plain_out x s' = plain_out x s ∧ plain_in x s = bs ++ plain_in x s' ∧
    (∀ a, Some a ∉ flat (io_nodes s) l → ¬ lib_mem x s a → io_mem s' !! a = io_mem s !! a) ∧
    ((rc = 0 ∧ x' = tls_deadline d x ∧ length bs = length (flat (io_nodes s) l) ∧
      ∀ a, ¬ lib_mem x s a → io_mem s' !! a = scatter (flat (io_nodes s) l) bs (io_mem s) !! a) ∨
     (rc = -1 ∧ x' = if bool_decide (io_errno s' = EPIPE) then tls_indone (tls_deadline d x) else tls_inerr (tls_deadline d x))).
Proof.
  intros Hsec Hn Hdone Herr Hl Hlast Hnodes Hsz Hfill Hal.
  unfold dill_tls_brecvl. erewrite IO_bind_done by (apply get_tls_done, Hsec). rewrite Hdone, Herr.
  erewrite IO_bind_done by done. pose proof (secured_deadline self x n d s Hsec) as Hsec0.
  set (s0 := with_tls self (tls_deadline d x) s) in *.
  pose proof (recv_list_spec self (tls_deadline d x) n fuel lst Hn l nodes first s0 Hsec0 Hl Hlast Hnodes Hsz Hfill Hal) as H.
  unfold wp in H. destruct (tls_recv_list _ _ _ _ _ _ s0) as [[rc s']|]; [|done].
  destruct H as (s1 & bs & [_ Hsame _] & Hout & Hin & Hres). pose proof (tls_now_same _ _ _ _ _ Hsame) as Hnow.
  assert (Hmem : ∀ a, Some a ∉ flat (io_nodes s) l → ¬ lib_mem x s a → io_mem s1 !! a = io_mem s !! a).
  { intros a Ha Hlm. apply (sb_mem _ _ _ Hsame). by intros [|]. }
  destruct Hres as [(-> & -> & Hlen & Hsc)|(-> & ->)].
  - exists 0, (tls_deadline d x), bs, s1. split; [done|]. split; [done|]. split; [done|]. split; [done|]. split; [done|]. by left.
  - eexists (-1), _, bs, _. split; [reflexivity|]. split; [by eapply tls_now_with|]. split; [done|]. split; [done|].
    split; [done|]. right. done.
Qed.
End Tlsspec.
