(* ===== verification/Tlsdemo.v ===== *)
(** A library and a network for examples of TLS sockets: the cipher is the identity, the input
    is decrypted already, and the network is that of [Loop.v].  They satisfy the laws, the
    theorems about TLS apply to them, and the handshake can be made to fail. *)

From Stdlib Require Import ZArith Lia.
From stdpp Require Import base gmap list.
From S2P Require Import Prelude Handle Iol Sock Loop Http Ws Stream Fd Fdspec Tcpspec Tls Tlsspec.
Open Scope Z_scope.

(** The network; the plaintext sent and to be received; the data of the BIO; what
    [SSL_get_error] will say; whether the peer refuses the handshake *)
Record cipher := mk_cipher {
  ci_net : loop;
  ci_out : list Z;
  ci_in : list Z;
  ci_bio : option ptr;
  ci_code : ssl_error;
  ci_refused : bool;
}.

Definition with_net (nt : loop) (c : cipher) : cipher := mk_cipher nt (ci_out c) (ci_in c) (ci_bio c) (ci_code c) (ci_refused c).
(** The state after a call: the network of [c'], the rest of [c], with new plaintext *)
Definition after_call (out inp : list Z) (code : ssl_error) (c c' : cipher) : cipher :=
  mk_cipher (ci_net c') out inp (ci_bio c) code (ci_refused c).

(** * The network *)

Definition cipher_sendl (n : Z) (first last : ptr) (d : Z) : IO (tlsnet cipher) Z := λ s,
  l ← walk (size (io_nodes s)) (io_nodes s) first;
  bs ← gather (io_mem s) (flat (io_nodes s) l);
  let c := tn_k (io_net s) in let nt := ci_net c in
  Some (0, set_k (with_net (mk_loop (<[n := out_of nt n ++ bs]> (lo_out nt)) (lo_in nt)) c) s).

Definition cipher_recvl (n : Z) (first last : ptr) (d : Z) : IO (tlsnet cipher) Z := λ s,
  l ← walk (size (io_nodes s)) (io_nodes s) first;
  let c := tn_k (io_net s) in let nt := ci_net c in
  let sl := flat (io_nodes s) l in
  let k := length sl in
  if (length (in_of nt n) <? k)%nat then
    Some (-1, set_io_errno EPIPE (set_k (with_net (mk_loop (lo_out nt) (<[n := []]> (lo_in nt))) c) s))
  else Some (0, set_io_mem (scatter sl (take k (in_of nt n)) (io_mem s))
    (set_k (with_net (mk_loop (lo_out nt) (<[n := drop k (in_of nt n)]> (lo_in nt))) c) s)).

#[export] Instance cipher_net : Net (tlsnet cipher) := {|
  net_bytestream := λ n, n <? 1000;
  net_sendl := cipher_sendl;
  net_recvl := cipher_recvl;
  net_close := λ _, mret tt;
  net_random := λ n, mret (Some (repeat 7 (Z.to_nat n)));
|}.

#[export, refine] Instance cipher_net_laws : NetLaws (tlsnet cipher) :=
  {| net_out t := out_of (ci_net (tn_k t)); net_in t := in_of (ci_net (tn_k t));
     net_infail t n := in_of (ci_net (tn_k t)) n = []; net_outfail _ _ := False; net_skip := 2 ^ 64 |}.
Proof.
  - lia.
  - intros n first last d s l bs _ _ Hv _ Hg. unfold net_sendl, cipher_net, cipher_sendl.
    rewrite (walk_valid _ _ _ _ Hv). cbn [mbind option_bind]. rewrite Hg. cbn [mbind option_bind].
    eexists 0, _, (io_errno s). split; [clear; by destruct s|]. split; [done|]. left. split; [done|].
    unfold out_of. cbn. rewrite lookup_insert_eq. reflexivity.
  - intros n first last d s l _ _ Hv _ Hsz Hal. unfold net_recvl, cipher_net, cipher_recvl.
    rewrite (walk_valid _ _ _ _ Hv). cbn [mbind option_bind]. set (nt := ci_net (tn_k (io_net s))).
    set (k := length (flat (io_nodes s) l)). destruct (Nat.ltb_spec (length (in_of nt n)) k).
    + eexists (-1), _, EPIPE, (io_mem s). split; [clear; by destruct s|]. split; [done|]. split; [done|]. split; [done|].
      right. split; [done|]. unfold in_of. cbn. by rewrite lookup_insert_eq.
    + eexists 0, _, (io_errno s), _. split; [clear; by destruct s|]. split; [done|]. split; [by apply scatter_dom|].
      split; [intros a; apply scatter_ne|]. left. split; [done|].
      exists (take k (in_of nt n)). split; [rewrite length_take; lia|]. split; [|done].
      transitivity (take k (in_of nt n) ++ drop k (in_of nt n)); [by rewrite take_drop|].
      f_equal. unfold in_of at 2. cbn. rewrite lookup_insert_eq. reflexivity.
Defined.

#[export] Instance cipher_under : TlsUnder cipher.
Proof.
  split.
  - intros n f l d s rc s'. unfold net_sendl, cipher_net, cipher_sendl.
    destruct (walk _ _ _) as [l'|]; [|done]. cbn [mbind option_bind]. destruct (gather _ _) as [bs|]; [|done].
    cbn [mbind option_bind]. intros [= <- <-]. done.
  - intros n f l d s rc s'. unfold net_recvl, cipher_net, cipher_recvl.
    destruct (walk _ _ _) as [l'|]; [|done]. cbn [mbind option_bind].
    destruct (_ <? _)%nat; intros [= <- <-]; done.
Defined.

(** * The library *)

(** A record is sent, and flushed, for each call; at most two bytes are delivered at a time. *)
Definition cipher_write (meth : bio_method (tlsnet cipher)) (ssl buf : ptr) (n : Z) : IO (tlsnet cipher) Z := λ s,
  let c := tn_k (io_net s) in
  data ← ci_bio c;
  bs ← gather (io_mem s) (arr buf n);
  '(rc, s') ← bio_write meth data buf n s;
  if rc =? n then
    '(_, s') ← bio_ctrl meth BIO_CTRL_FLUSH s';
    Some (n, set_k (after_call (ci_out c ++ bs) (ci_in c) SslNone c (tn_k (io_net s'))) s')
  else Some (-1, set_k (after_call (ci_out c) (ci_in c) SslSyscall c (tn_k (io_net s'))) s').

Definition cipher_read (meth : bio_method (tlsnet cipher)) (ssl buf : ptr) (n : Z) : IO (tlsnet cipher) Z := λ s,
  let c := tn_k (io_net s) in
  let bs := take (Z.to_nat (Z.min n 2)) (ci_in c) in
  let rest := drop (Z.to_nat (Z.min n 2)) (ci_in c) in
  match bs with
  | [] => Some (0, set_k (after_call (ci_out c) [] SslZeroReturn c c) s)
  | _ => Some (Z.of_nat (length bs), set_io_mem (scatter (arr buf (Z.of_nat (length bs))) bs (io_mem s))
      (set_k (after_call (ci_out c) rest SslNone c c) s))
  end.

(** The certificate of the peer is refused, or nothing is needed. *)
Definition cipher_handshake : IO (tlsnet cipher) Z := λ s,
  let c := tn_k (io_net s) in
  if ci_refused c then Some (-1, set_k (after_call (ci_out c) (ci_in c) SslSsl c c) s)
  else Some (1, set_k (after_call (ci_out c) (ci_in c) SslNone c c) s).

#[export] Instance cipher_ssl : OpenSsl (tlsnet cipher) := {|
  ssl_bio_meth_new := mret 1;
  ssl_bio_meth_set := λ _, mret 1;
  ssl_atexit := mret 0;
  ssl_method := λ _, mret 2;
  ssl_ctx_new := λ _, mret 3;
  ssl_ctx_set_ecdh_auto := λ _, mret 1;
  ssl_ctx_use_certificate_file := λ _ _, mret 1;
  ssl_ctx_use_privatekey_file := λ _ _, mret 1;
  ssl_ctx_free := λ _, mret tt;
  ssl_new := λ _, mret 4;
  ssl_free := λ _, mret tt;
  ssl_set_state := λ _ _, mret tt;
  ssl_bio_new := λ _, mret 5;
  ssl_bio_set_data := λ _ mem, modify (λ s, let c := tn_k (io_net s) in
    set_k (mk_cipher (ci_net c) (ci_out c) (ci_in c) (Some mem) (ci_code c) (ci_refused c)) s);
  ssl_set_bio := λ _ _, mret tt;
  ssl_bio_vfree := λ _, mret tt;
  ssl_handshake := λ _ _ _, cipher_handshake;
  ssl_shutdown := λ _ _, mret 1;
  ssl_write := cipher_write;
  ssl_read := cipher_read;
  ssl_get_error := λ _ rc, if 0 <? rc then mret SslNone else gets (λ s, ci_code (tn_k (io_net s)));
  ssl_clear_error := mret tt;
  ssl_get_errors := mret tt;
|}.

Lemma set_k_same {K} (s : io (tlsnet K)) : set_k (tn_k (io_net s)) s = s.
Proof. destruct s as [? ? ? ? ? ? ? ? ? ? ? ? ? [? ? ? ?]]. done. Qed.

#[export, refine] Instance cipher_ssl_laws : OpenSslLaws cipher :=
  {| ssl_out _ := ci_out; ssl_in _ := ci_in; ssl_bio _ := ci_bio; ssl_mem _ _ _ := False |}.
Proof.
  - intros ssl s. exists (tn_k (io_net s)). by rewrite set_k_same.
  - intros ssl s. exists (tn_k (io_net s)). by rewrite set_k_same.
  - intros ssl rc s. cbn. destruct (0 <? rc); by eexists.
  - intros meth data I ssl buf n bs s Hc HI Hb Hnn Hn Hg.
    destruct (bc_write _ _ _ Hc buf n bs s HI Hnn Hn Hg) as (rc & s' & E & HI' & [H1 H2 H3 H4] & Hrc).
    cbn [ssl_write cipher_ssl]. unfold cipher_write. rewrite Hb. cbn [mbind option_bind]. rewrite Hg. cbn [mbind option_bind].
    rewrite E. cbn [mbind option_bind]. pose proof (gather_some _ _ _ Hg) as (_ & Hl & _). pose proof (length_arr buf n ltac:(lia)).
    destruct (bc_ctrl _ _ _ Hc BIO_CTRL_FLUSH s' (or_introl eq_refl)) as (rf & Ef & _).
    destruct (Z.eqb_spec rc n) as [->|Hne]; [rewrite Ef; cbn [mbind option_bind]|]; eexists _, _, _; (split; [reflexivity|]).
    + cbn [ssl_get_error cipher_ssl]. rewrite (proj2 (Z.ltb_lt 0 n)) by lia. split; [reflexivity|].
      split; [by apply (bc_lib _ _ _ Hc)|]. split; [by constructor|]. repeat (split; [done|]). split; [lia|].
      cbn. by rewrite take_ge by lia.
    + split; [reflexivity|]. split; [by apply (bc_lib _ _ _ Hc)|]. split; [by constructor|]. repeat (split; [done|]).
      destruct Hrc as [->|[_ He]]; [lia|]. done.
  - intros meth data I ssl buf n s Hc HI Hb Hnn Hn Hal. cbn [ssl_read cipher_ssl]. unfold cipher_read.
    set (c := tn_k (io_net s)). set (k := Z.to_nat (Z.min n 2)).
    pose proof (length_take (ci_in c) k) as Hlen. pose proof (take_drop k (ci_in c)) as Hin.
    destruct (take k (ci_in c)) as [|b bs] eqn:Eb.
    { eexists _, _, _. split; [reflexivity|]. split; [reflexivity|]. split; [by apply (bc_lib _ _ _ Hc)|].
      split; [done|]. repeat (split; [done|]). exists (ci_in c). cbn. by rewrite app_nil_r. }
    rewrite <- Eb in *. set (l := Z.of_nat (length (take k (ci_in c)))). assert (Hl : 0 < l ≤ n).
    { unfold l. split; [rewrite Eb; cbn; lia|lia]. }
    assert (Hsub : ∀ a, Some a ∈ arr buf l → Some a ∈ arr buf n).
    { assert (Hn0 : buf ≠ NULL) by (unfold NULL; lia). intros a Ha. apply elem_of_arr in Ha; [|done]. apply elem_of_arr; [done|lia]. }
    eexists _, _, SslNone. split; [reflexivity|]. cbn [ssl_get_error cipher_ssl]. rewrite (proj2 (Z.ltb_lt 0 l)) by lia.
    split; [reflexivity|]. assert (Hd : dom (scatter (arr buf l) (take k (ci_in c)) (io_mem s)) = dom (io_mem s)).
    { apply scatter_dom. auto. }
    split; [apply (bc_mem _ _ _ Hc); [exact Hd|by apply (bc_lib _ _ _ Hc)]|].
    split; [constructor; [done|done|exact Hd|]|].
    { intros a Ha. apply scatter_ne. intros Hin'. apply Ha. left. auto. }
    repeat (split; [done|]). exists (take k (ci_in c)). split; [done|]. split; [|done]. cbn. by rewrite take_drop.
Defined.

(** * Examples *)

(** The TLS object at 50 over the bytestream 5, at handle 0 *)
Definition demo_tls_conn : dill_tls_sock := mk_tls 3 4 0 (-1) false false false false true.
Definition demo_tls (ins : list Z) (refused : bool) : io (tlsnet cipher) :=
  mk_io E0 demo_list (zeros 1000 20) 2000 5
    (handles_of [ONet 5]) false false ∅ ∅ ∅ ∅ ∅
    (mk_tlsnet (mk_cipher (mk_loop ∅ ∅) [] ins (Some 50) SslNone refused) (<[50 := demo_tls_conn]> ∅) 1 true).


Definition no_close (v : sobj) : IO (tlsnet cipher) unit := mret tt.

Lemma demo_secured ins r : secured 50 demo_tls_conn 5 (demo_tls ins r).
Proof.
  split; [|done]. constructor; [|reflexivity|].
  - apply wf_io_b_sound. vm_compute. reflexivity.
  - eexists _, (ONet 5). split; [exact (handles_of_represent [ONet 5])|]. split; [vm_compute; reflexivity|]. done.
Qed.

Lemma demo_int_sized : int_sized 10 demo_list [7; 8] ∧ filled demo_list [7; 8].
Proof.
  split; intros x Hx; apply list_elem_of_In in Hx; destruct Hx as [<-|[<-|[]]]; vm_compute; intuition (congruence || lia).
Qed.

Lemma tls_bsendl_sends_witness :
  (fst <$> dill_tls_bsendl no_close 10 10 50 7 8 (-1) (demo_tls [] false) = Some 0) ∧
  ∃ rc x' s', dill_tls_bsendl no_close 10 10 50 7 8 (-1) (demo_tls [] false) = Some (rc, s') ∧
    tls_now 50 x' (demo_tls [] false) s' ∧
    (∀ a, ¬ lib_mem demo_tls_conn (demo_tls [] false) a → io_mem s' !! a = io_mem (demo_tls [] false) !! a) ∧
    plain_in demo_tls_conn s' = plain_in demo_tls_conn (demo_tls [] false) ∧
    ((rc = 0 ∧ x' = tls_deadline (-1) demo_tls_conn ∧
        plain_out demo_tls_conn s' = plain_out demo_tls_conn (demo_tls [] false) ++ repeat 0 7) ∨
     (rc = -1 ∧ x' = tls_outerr (tls_deadline (-1) demo_tls_conn) ∧
        ∃ k, plain_out demo_tls_conn s' = plain_out demo_tls_conn (demo_tls [] false) ++ take k (repeat 0 7))).
Proof.
  split; [vm_compute; reflexivity|].
  apply (tls_bsendl_sends no_close 50 demo_tls_conn 5 7 8 [7; 8] (repeat 0 7) (-1) 10 10 (demo_tls [] false)).
  - apply demo_secured.
  - reflexivity.
  - reflexivity.
  - reflexivity.
  - exact demo_list_at.
  - reflexivity.
  - cbn. lia.
  - apply demo_int_sized.
  - vm_compute. reflexivity.
  - intros a _ [].
Defined.

(** Nine bytes are there: seven are delivered, two at a time. *)
Definition demo_input : io (tlsnet cipher) := demo_tls [1; 2; 3; 4; 5; 6; 7; 8; 9] false.

Lemma tls_brecvl_receives_witness :
  (fst <$> dill_tls_brecvl no_close 10 10 50 7 8 (-1) demo_input = Some 0) ∧
  ∃ rc x' bs s', dill_tls_brecvl no_close 10 10 50 7 8 (-1) demo_input = Some (rc, s') ∧ tls_now 50 x' demo_input s' ∧
    plain_out demo_tls_conn s' = plain_out demo_tls_conn demo_input ∧
    plain_in demo_tls_conn demo_input = bs ++ plain_in demo_tls_conn s' ∧
    (∀ a, Some a ∉ flat (io_nodes demo_input) [7; 8] → ¬ lib_mem demo_tls_conn demo_input a →
      io_mem s' !! a = io_mem demo_input !! a) ∧
    ((rc = 0 ∧ x' = tls_deadline (-1) demo_tls_conn ∧ length bs = length (flat (io_nodes demo_input) [7; 8]) ∧
      ∀ a, ¬ lib_mem demo_tls_conn demo_input a →
        io_mem s' !! a = scatter (flat (io_nodes demo_input) [7; 8]) bs (io_mem demo_input) !! a) ∨
     (rc = -1 ∧ x' = if bool_decide (io_errno s' = EPIPE) then tls_indone (tls_deadline (-1) demo_tls_conn)
        else tls_inerr (tls_deadline (-1) demo_tls_conn))).
Proof.
  split; [vm_compute; reflexivity|].
  apply (tls_brecvl_receives no_close 50 demo_tls_conn 5 7 8 [7; 8] (-1) 10 10 demo_input).
  - apply demo_secured.
  - reflexivity.
  - reflexivity.
  - reflexivity.
  - exact demo_list_at.
  - reflexivity.
  - cbn. lia.
  - apply demo_int_sized.
  - apply demo_int_sized.
  - apply (gather_some _ _ (repeat 0 7)). vm_compute. reflexivity.
Defined.

(** A client attaches to the bytestream; the peer refuses the handshake, which is an error,
    but a handle is returned as if there was a connection. *)
Lemma tls_handshake_failure_ignored :
  (fst <$> dill_tls_attach_client_mem no_close 5 0 60 (-1) (demo_tls [] true) = Some 2) ∧
  (fst <$> dill_tls_attach_client_mem no_close 5 0 60 (-1) (demo_tls [] false) = Some 2) ∧
  (fst <$> tls_handshake no_close 5 false 50 4 (demo_tls [] true) = Some None) ∧
  (io_errno ∘ snd <$> tls_handshake no_close 5 false 50 4 (demo_tls [] true) = Some EFAULT).
Proof. split; [|split; [|split]]; vm_compute; reflexivity. Qed.

(** A client attaches and detaches: the bytestream is given back, at handle 3, but the handle of the
    TLS socket stays in the table, and closing it accesses the object that was freed. *)
Definition demo_detach (again : bool) : option (Z * Z) :=
  let close := tls_hclose (λ p, p <? 1000) no_close 5 in
  fst <$> (h ← dill_tls_attach_client close 5 0 (-1);
           u ← dill_tls_detach close 5 h (-1);
           if again then rc ← tclose close h; mret (h, rc) else mret (h, u)) (demo_tls [] false).

Lemma tls_detach_leaks : demo_detach false = Some (2, 1) ∧ demo_detach true = None.
Proof. split; vm_compute; reflexivity. Qed.
